(* ===== verification/_CoqProject ===== *)
-Q . S2P
Prelude.v
RustStr.v
Kernel.v
KernelProofs.v
Session.v
SessionLifecycle.v
SessionContext.v
SessionProofs.v
SessionStore.v
TurnScript.v
Tools.v
ToolRegistryProofs.v
Runtime.v
RuntimeMapping.v
History.v
Operation.v
Engine.v
EngineLogic.v
EngineTools.v
EngineTurn.v
EngineProofs.v
Outlets.v
OutletsProofs.v
Epoch.v
Coordinator.v
CoordinatorSystem.v
CoordinatorProofs.v
CoordinatorSafety.v
JsonlCodec.v
Jsonl.v
JsonlProofs.v
JsonlStore.v
JsonlDurable.v
JsonlLife.v
JsonlDemo.v
Service.v
ServiceSnapshot.v
ServiceMapping.v
ServiceFeed.v
ServiceActor.v
ServiceSystem.v
ServiceParts.v
ServiceFeedProofs.v
ServiceLogic.v
ServiceProofs.v
ServiceSafety.v
ServiceDemo.v
ReplayStore.v
ReplayStoreOps.v
ReplayStoreLaws.v
ReplayStoreAgree.v
ReplayStoreLife.v
Replay.v
ReplayHistory.v
ReplaySound.v
ModelErrors.v
ModelRequest.v
ReplayRoundTrip.v
ModelStream.v
ModelAdapter.v
ModelAdapterProofs.v
ModelDemo.v
ToolText.v
ToolPath.v
ToolPathProofs.v
ToolArgs.v
ToolFiles.v
ToolFilesProofs.v
ToolGrep.v
ToolShell.v
ToolDefs.v
CodingProfile.v
ToolBlocking.v
ToolProps.v
ToolDemo.v
CliFile.v
CliConfig.v
CliRun.v
CliProofs.v
CliDemo.v
