(* ===== verification/Prelude.v ===== *)
(** A verification of the philo agent's core.

    philo is a coding agent in Rust (src/crates/): a user's message starts an
    _operation_, which runs one _turn_ - model call, tool batch, model call,
    ... - over a durable _session_, inside a _runtime epoch_ that queues
    operations and publishes events. This development models the crates that
    carry that logic and proves what makes them correct. Everything is an
    executable definition, one per Rust function, named as there; a comment
    names the source file.

    * Parts

    The turn kernel (philo-agent-kernel): [Kernel.v], Module [kernel], is the
    pure [transition] of transition.rs on the state of state.rs.
    [KernelProofs.v] shows that it refines an abstract turn protocol in both
    directions, accepts exactly the enabled inputs, ends, numbers its effects
    consecutively, and pairs every tool call with a result.

    The session projection (philo-session): [Session.v], Module [session], has
    the entries, their validation and the fold of every transaction
    (projection/). [SessionLifecycle.v] and [SessionContext.v] hold its
    invariants, [SessionProofs.v] the theorems: apply succeeds exactly on the
    transactions the entry rules allow, a replay rebuilds the projection, the
    log is linear, a batch has all its results or none, what is settled is
    final, the context view is a function of the log, nothing panics.

    The session store (store.rs, memory.rs): [SessionStore.v], Module [store].
    The class [SessionStore] has the operations of the trait, [StoreLaws] their
    promise; the in-memory store is an instance, and any interleaving of its
    commits is serial. The engine is verified against the class, and shares the
    store with others: the service commits the renames of sessions to it
    (actor/catalog.rs).

    The JSONL store (philo-session-jsonl): [JsonlCodec.v] is the durable format
    (schema/record.rs, schema/codec.rs, the names of artifact.rs and
    store/layout.rs), [Jsonl.v] the files and the actor (artifact.rs,
    store/layout.rs, store/recovery.rs, store/actor.rs, store/mod.rs).
    [JsonlProofs.v] has the round trips of the format and the determinism of
    recovery, [JsonlStore.v] a program logic for the actor and the instance of
    [StoreLaws], so that what is proved of the engine holds over this store
    too. [JsonlDurable.v] says what a crash leaves and what the lives of a
    store are; with [JsonlLife.v] it shows that every acknowledged commit is
    read back after any of them, while queries of file types work (class
    [StatsWork]). [JsonlDemo.v] has concrete runs, two of which break the log, one
    of them by a failing query.

    The runtime's vocabulary and mappings: [Runtime.v] (messages, failures,
    events, configuration, snapshots), [RuntimeMapping.v] (mapping/), with
    [History.v] on the history sent to a provider: every call is answered, and
    a replayed history extends the live one. [Operation.v] is the state shared
    by a driver and the coordinator (operation/shared.rs) with its small state
    machines.

    The turn engine (engine/, operation/publisher.rs): [Engine.v], Module
    [engine], is the driver of an operation in a state monad with panic and
    fuel, from [drive] down to the retry loop and parallel tool batches.
    [TurnScript.v] shows that the session accepts what the engine writes;
    [EngineLogic.v] is a program logic for the monad, with the settling
    functions, over a store with a journal to which others commit before any call
    of the engine, as a schedule has them; [EngineTools.v] and [EngineTurn.v] have one triple per function
    of the batches, the turn and [drive], [EngineProofs.v] the guarantees: an operation
    ends in exactly one settlement, which agrees with what is durable; every
    commit is accepted, unless the store fails or a rename came between; the session
    always admits the next operation. A rename in the middle of a turn does make the
    operation fail unconfirmed ([rename_fails_the_operation]).

    Tools (philo-tools): [Tools.v] has the results, the JSON object check and
    the dispatch (Modules [tools], [json], [registry]) and the cancel token
    under every interleaving (Module [cancel]); [ToolRegistryProofs.v].

    The standard tools (philo-tools-std): [ToolText.v] has the string functions
    they use and their displays (display.rs), [ToolPath.v] the file system as
    the tools see it and the confinement of paths to the root (path.rs),
    [ToolArgs.v] the scanner of the arguments (args.rs) and that it reads what
    the JSON says, [ToolFiles.v] read, write, edit and list (read.rs, write.rs,
    edit.rs, list.rs, helpers.rs, the codes of lib.rs), [ToolGrep.v] the search
    (grep.rs), [ToolShell.v] the shell from its arguments over the capture loop
    to its result (shell.rs), [ToolDefs.v] the definitions and the displays of
    a replayed call (replay.rs), [ToolBlocking.v] the pool the file tools run
    on and the locks of files (blocking.rs, mutation.rs). [ToolPathProofs.v]
    says where a resolved path is, [ToolFilesProofs.v] what the calls change
    and show. [CodingProfile.v] is the line-up of the tools and the
    configuration of a coding agent (philo-coding-profile). [ToolProps.v] has
    the theorems - no path out of the root, effects as registered, edits of the
    only match, bounded pages and tails, a pool and locks that do their work -
    and [ToolDemo.v] their concrete runs, with a write through a dangling link
    that does leave the root.

    Outlets (staging.rs, transient.rs, runtime_event.rs,
    engine/tool_progress.rs): [Outlets.v] and [OutletsProofs.v].

    The end of an epoch (epoch.rs, shutdown.rs): [Epoch.v]: the supervisor
    settles every accepted operation that nobody settled.

    The coordinator (coordinator.rs, bounds.rs, spec.rs, ids.rs, runtime.rs,
    handle.rs): [Coordinator.v] has one definition per method of the actor,
    [CoordinatorSystem.v] the event loop and the steps of everything that runs
    beside it as a relation [step]. [CoordinatorProofs.v] proves the invariant
    [Inv] and the relation [evolves] of each method with a small logic
    ([good]); [CoordinatorSafety.v] has an executable scheduler that is sound
    for [step], the guarantees of a running epoch, and a run in which a
    committed settlement is lost.

    The agent service (philo-agent-service): [Service.v] has its vocabulary
    (ids.rs, bounds.rs, error.rs, live.rs, confirmation.rs, generation_cache.rs,
    frontend/), [ServiceSnapshot.v] the session snapshots and the catalog,
    [ServiceMapping.v] what is shown of sessions and events (mapping.rs),
    [ServiceFeed.v] the lanes to the frontend (frontend/feed.rs, client.rs),
    [ServiceActor.v] one definition per method of actor/, [ServiceSystem.v] the
    event loop and everything beside it as a step relation. [ServiceParts.v] and
    [ServiceFeedProofs.v] have the small parts and the lanes, [ServiceLogic.v] a
    logic for the methods, [ServiceProofs.v] one lemma per method,
    [ServiceSafety.v] the guarantees of every reachable state: no silent gap in
    what a frontend sees, no view that goes back in the order of the revisions, no
    confirmation without its lease, no cap exceeded, no panic. [ServiceDemo.v] has
    concrete runs, with a snapshot that goes out late and with the maps by session,
    which have no cap.

    The model adapter (philo-model): [ReplayStore.v] is the replay sidecar in
    memory and in files (replay.rs, first half). [ReplayStoreOps.v] and
    [ReplayStoreLaws.v] verify its operations under any failing accesses against
    the contract [ReplayStoreLaws]; [ReplayStoreAgree.v] shows that both stores
    agree, [ReplayStoreLife.v] what restarts and power losses leave, and that a
    sidecar holds only what was offered to it; a retry of a commit that had failed
    does not count as acknowledged where power may be lost. [Replay.v] is the coordinator
    (replay.rs, second half): what is captured, stored, matched to a history and
    restored; [ReplayHistory.v] says what the digest of a history identifies,
    [ReplaySound.v] that a stored answer is shown only behind the history it
    belongs to. [ModelErrors.v] is error.rs, with what a diagnostic shows of a
    URL (the secrets it misses are in [ModelDemo.v]); [ModelRequest.v] is request/, with [ReplayRoundTrip.v]: an answer is
    shown again as it was; [ModelStream.v] is stream.rs: the stream delivers the
    response; [ModelAdapter.v] is headers.rs, assemble.rs and adapter.rs, with
    [ModelAdapterProofs.v] on the start of a call. [ModelDemo.v] has concrete
    runs.

    The command line (philo-cli): [CliFile.v] reads the two configuration files
    (config/file.rs, error.rs), [CliConfig.v] turns flags, environment and
    files into the settings of a run (args.rs, config/resolve.rs,
    config/mod.rs), [CliRun.v] is the process around the agent: the watch over
    the files (config/watch.rs), the assembler of generations with its reloads
    and its builder thread (assembly.rs), identifiers (ids.rs), the policy of
    Ctrl-C (command/ctrl_c.rs), the loop of a one-shot run (command/oneshot/)
    and the supervisor of the interface (command/interactive/supervisor.rs).
    [CliProofs.v] shows that the layers are read apart, that every model of a
    catalog can be deployed, where each setting comes from, that literal keys
    are never shown, that reloads keep what runs, that every build is answered
    and that the exit code of a run is truthful; [CliDemo.v] has concrete
    configurations, and the job that a panicking build strands.

    * How the parts meet

    An engine's world holds a store of any instance of [SessionStore]; its laws
    are all the engine's proofs use. Commits of others to the engine's session may
    come before each of its calls, as long as they set its title only
    ([bystander]): a rename of the service is the only one there is, since the
    coordinator runs one operation or maintenance at a time. Reads of others change
    nothing. The events of the engine are the calls
    [driver_call] of the coordinator's system, where the driver is any sequence
    of such calls. The ledger and the staging queue that the coordinator leaves
    behind, at its end or at a panic, are what [Epoch.supervise_epoch] starts
    from. What the session stores of a turn is what [RuntimeMapping] reads back.
    The service's system has a runtime that emits any events and answers; the
    replay coordinator works over any instance of [ModelReplayStore], and what
    is proved of it uses only the interfaces [OfferedStore] and
    [ReplayStoreLaws]. The adapter's [start] and [next] are what an engine's
    model port calls; their event and error types are those of [Runtime.v].
    The coding profile registers the standard tools in the registry of
    [Tools.v]; [effect_classes_hold] speaks of the calls through that registry.
    A deployment of the command line is built by the model adapter's builder,
    its commands and updates are those of the service.

    * Conventions

    [outcome] is Rust's [Result] with a third constructor for a panic; a
    profile ([Build]) says whether arithmetic is checked. Machine integers are
    [Z] with their wrap-around or saturation written out; indices and lengths
    that are bounded by the length of a list are [nat]. A Rust [String] is the
    [string] of its UTF-8 bytes ([RustStr.v]). A [HashMap] is a [gmap], the
    order of its iteration a parameter. A mutex is the state it guards where
    each method locks it once; where a schedule matters ([cancel],
    [SessionStore], [CoordinatorSystem], [ServiceSystem], [ToolBlocking],
    [build_pool]) there is a step relation. Time is a
    number of milliseconds that a step may advance.

    * Bounds and fuel

    A turn loop has the fuel [max_tool_rounds + 2], the recovery loop
    [max_retries + 1], a parallel batch one more than its calls; that none runs
    out is part of [engine_settles_exactly_once]. The JSON parser has the fuel
    [parse_fuel] (three per byte and three more), proved enough for every
    input. A search for a key has the length of the text. A loop of the
    coordinator has the number of items it drains: events in a channel, events
    in a queue, held keys, messages in a lane. Revisions and sequence counters
    of 64 bits that count committed transactions or issued ids are unbounded;
    [fetch_add] wraps. The redaction of a text has its length as fuel, which the
    equation of its loop shows to be enough; a pull on a response stream has the
    events that are left and one more. A loop over the matches in a text has
    the length of the text, a loop of the argument scanner the bytes that are
    left, each of which it consumes. A lookup follows 40 links, then fails as
    the system does. The search has one turn more than there are files, which
    [grep_proofs] shows to be enough. The capture loop of the shell takes the
    events of a list and has no fuel, as the loops of the command line take what
    they receive. The hexadecimal digits of a number have its binary ones and
    one more.

    * Atomicity of the coordinator

    A step of the coordinator runs from one await point of [run] to the next;
    the methods between are synchronous. Between two steps the driver makes
    any of its calls, tasks end, panic or are aborted, the consumer takes
    events or drops the outlet, handles send, ask for a shutdown or are
    dropped, and time passes. The driver runs on another thread, but it shares
    with the coordinator only mutexes and channels whose operations are single
    steps here. Tokio's cooperative budget may make a ready branch wait; such
    a wait is a step of nobody. The joins of the final phase take any time.

    * Files and crashes

    The world of [Jsonl.v] counts the accesses to the file system; the class
    [Faults] says which of them fail and how much a failing write leaves. A
    file is its content at the last sync and the contents since; a power loss
    leaves any of these, or one of them in part when a write only extends or
    cuts the file. A name in a directory is sure to survive once the directory
    was synced or, on a journaled file system, once what it names was. A crash
    in the middle of a command is the command with every later access failing,
    followed by the crash: what the code does after a failed access only reads,
    accesses again, or drops a lock. Queries of file types ([is_file], [is_dir]) are
    not among the accesses: they answer false when they fail ([stat_fault]), and what
    is proved of both stores on files and of their lives takes them to work
    ([StatsWork]); [failing_stat_breaks_log] shows why. JSON (class [Json], its laws [JsonLaws]:
    one line, read back as written), SHA-256 and the order of listings are
    parameters.

    The standard tools see a tree of files, directories and links in which any
    access may fail ([FsFaults]), though not by reporting that a file is
    missing. Nothing else changes the tree during a call: write and edit run inside
    [with_file_mutation] (write.rs, edit.rs), whose locks are a step relation of
    their own ([tool_mutation]) and not part of [write_tool] and [edit_tool]. A link that dangles
    makes [resolve_in_root] accept a path out of the root; what is proved of
    the effects of write and edit assumes that none does ([no_dangling]).

    * Not modelled

    Wake-ups other than those of [cancel] and [build_pool] (a notification that is never
    lost lets a waiting branch be looked at again, which [select] does in every
    step); [catch_unwind] as such (its result is a driver that ended by panic);
    the messages of the handle's calls after their reply; operation
    subscriptions; opening the stores on files and joining their threads; the
    provider's client library, which is not under src/ and is a parameter of the
    model adapter; the engines of regular expressions and globs and the Unicode
    case tables, which are parameters of the tools; what the operating system
    does with a child process (its output, its exit and the time it takes are
    arguments); the tools on Windows; of the command line, the wiring of the
    process (main.rs, [bootstrap]), the deadlines of its shutdown, the delivery
    of signals, the listing of sessions and the rendering of updates
    (render.rs); the terminal user interface. TOML (class [Toml]), the header
    names of the client library, the parser of the command line and the
    printing of a float are parameters of the configuration. *)

From stdpp Require Export prelude gmap strings list sorting pretty.

(** ** Results of Rust functions

    [Ok] and [Err] are the two constructors of Rust's [Result]; [Panic] is the
    third way a Rust function ends: a failed [expect], an index or slice out of
    range, an arithmetic overflow in a build with overflow checks. *)
Inductive outcome (E A : Type) : Type :=
| Ok (a : A)
| Err (e : E)
| Panic.
Arguments Ok {E A} a.
Arguments Err {E A} e.
Arguments Panic {E A}.

#[export] Instance outcome_ret {E} : MRet (outcome E) := fun A a => Ok a.
#[export] Instance outcome_bind {E} : MBind (outcome E) := fun A B f m =>
  match m with
  | Ok a => f a
  | Err e => Err e
  | Panic => Panic
  end.
#[export] Instance outcome_fmap {E} : FMap (outcome E) := fun A B f m =>
  match m with
  | Ok a => Ok (f a)
  | Err e => Err e
  | Panic => Panic
  end.

Declare Scope rust_scope.
Delimit Scope rust_scope with rust.

(** [expr?] followed by the rest of the function. *)
Notation "'let?' x ':=' c 'in' k" := (mbind (M := outcome _) (fun x => k) c)
  (at level 10, x pattern, c at level 100, k at level 200) : rust_scope.
Notation "x '==' y" := (bool_decide (x = y)) (at level 70, no associativity) : rust_scope.
Notation "x '!=' y" := (negb (bool_decide (x = y))) (at level 70, no associativity) : rust_scope.

#[global] Open Scope rust_scope.

(** [Option::expect] / [Option::unwrap]. *)
Definition expect {E A} (o : option A) : outcome E A :=
  match o with Some a => Ok a | None => Panic end.

Definition map_err {E F A} (f : E → F) (m : outcome E A) : outcome F A :=
  match m with Ok a => Ok a | Err e => Err (f e) | Panic => Panic end.

Definition is_ok {E A} (m : outcome E A) : bool :=
  match m with Ok _ => true | _ => false end.
Definition is_err {E A} (m : outcome E A) : bool :=
  match m with Err _ => true | _ => false end.

(** A fold over a slice that stops at the first [Err] or [Panic]: the shape of
    every [for x in xs { step(x)?; }] loop. *)
Fixpoint try_fold {E S A} (step : S → A → outcome E S) (s : S) (xs : list A) : outcome E S :=
  match xs with
  | [] => Ok s
  | x :: xs => let? s := step s x in try_fold step s xs
  end.

(** ** Iterator adapters *)
Definition all {A} (f : A → bool) (l : list A) : bool := forallb f l.
Definition any {A} (f : A → bool) (l : list A) : bool := existsb f l.

Fixpoint find_map {A B} (f : A → option B) (l : list A) : option B :=
  match l with
  | [] => None
  | x :: l => match f x with Some b => Some b | None => find_map f l end
  end.

Fixpoint position {A} (f : A → bool) (l : list A) : option nat :=
  match l with
  | [] => None
  | x :: l => if f x then Some 0 else S <$> position f l
  end.

Definition filter_map {A B} (f : A → option B) (l : list A) : list B := omap f l.

(** [v[n..]]: panics when [n] is past the end. *)
Definition slice_from {E A} (n : nat) (l : list A) : outcome E (list A) :=
  if bool_decide (n ≤ length l) then Ok (drop n l) else Panic.

(** [iter.collect::<HashSet<_>>().len()]. *)
Definition distinct_count `{Countable A} (l : list A) : nat :=
  size (list_to_set l : gset A).

(** [is_empty] of a string or vector. *)
Definition str_is_empty (s : string) : bool := s == "".
Definition is_nil {A} (l : list A) : bool := match l with [] => true | _ => false end.

(** ** Machine integers

    [overflow_checks] is the Cargo profile setting: the development profile
    panics on overflow, the release profile wraps. *)
Class Build := { overflow_checks : bool }.
Definition release : Build := {| overflow_checks := false |}.
Definition dev : Build := {| overflow_checks := true |}.

Definition u32_max : Z := 2 ^ 32 - 1.
Definition u64_max : Z := 2 ^ 64 - 1.

Definition in_u32 (z : Z) : Prop := (0 ≤ z ≤ u32_max)%Z.
#[export] Instance in_u32_dec z : Decision (in_u32 z) := _.

(** The result of a [u32] operation whose mathematical value is [z]. *)
Definition u32_checked {E} `{Build} (z : Z) : outcome E Z :=
  if bool_decide (in_u32 z) then Ok z
  else if overflow_checks then Panic
  else Ok (z mod 2 ^ 32)%Z.

(** [format!("{n}")] of an unsigned integer. *)
Definition display (n : Z) : string := pretty (Z.to_N n).
Definition display_nat (n : nat) : string := pretty (N.of_nat n).

(** ** Lemmas on results *)
Section outcome_lemmas.
Context {E A B : Type}.
Implicit Types (m : outcome E A) (f : A → outcome E B).

Lemma bind_Ok m f b : m ≫= f = Ok b ↔ ∃ a, m = Ok a ∧ f a = Ok b.
Proof. destruct m; simpl; naive_solver. Qed.

Lemma bind_Err m f e :
  m ≫= f = Err e ↔ m = Err e ∨ ∃ a, m = Ok a ∧ f a = Err e.
Proof. destruct m; simpl; naive_solver. Qed.

Lemma bind_Panic m f :
  m ≫= f = Panic ↔ m = Panic ∨ ∃ a, m = Ok a ∧ f a = Panic.
Proof. destruct m; simpl; naive_solver. Qed.

Lemma fmap_Ok (g : A → B) m b : g <$> m = Ok b ↔ ∃ a, m = Ok a ∧ b = g a.
Proof. destruct m; simpl; naive_solver. Qed.

Lemma expect_Ok (o : option A) a : expect (E := E) o = Ok a ↔ o = Some a.
Proof. destruct o; simpl; naive_solver. Qed.

Lemma slice_from_Ok n (l l' : list A) :
  slice_from (E := E) n l = Ok l' ↔ n ≤ length l ∧ l' = drop n l.
Proof. unfold slice_from. case_bool_decide; naive_solver. Qed.

Lemma slice_from_total n (l : list A) :
  n ≤ length l → slice_from (E := E) n l = Ok (drop n l).
Proof. intros. by apply slice_from_Ok. Qed.

Lemma slice_from_not_Err n (l : list A) e : slice_from (E := E) n l ≠ Err e.
Proof. unfold slice_from. by case_bool_decide. Qed.
End outcome_lemmas.

Section try_fold_lemmas.
Context {E S A : Type} (step : S → A → outcome E S).

Lemma try_fold_app s xs ys :
  try_fold step s (xs ++ ys) = let? s := try_fold step s xs in try_fold step s ys.
Proof.
  revert s; induction xs as [|x xs IH]; intros s; simpl; [done|].
  destruct (step s x); simpl; [apply IH|done..].
Qed.

(** Rule induction for a loop that returns [Ok]. *)
Lemma try_fold_ind (P : S → list A → Prop) s xs s' :
  P s [] →
  (∀ s done x s'', P s done → step s x = Ok s'' → P s'' (done ++ [x])) →
  try_fold step s xs = Ok s' → P s' xs.
Proof.
  intros H0 Hstep.
  assert (∀ done, P s done → try_fold step s xs = Ok s' → P s' (done ++ xs)) as Hgen.
  { clear H0. revert s. induction xs as [|x xs IH]; intros s d HP; simpl.
    - intros [= <-]. by rewrite app_nil_r.
    - destruct (step s x) as [s1|e|] eqn:Hx; simpl; [|done..].
      intros Hf. replace (d ++ x :: xs) with ((d ++ [x]) ++ xs) by by rewrite <- app_assoc.
      eapply IH; eauto. }
  intros. by apply (Hgen []).
Qed.

(** A loop whose step preserves [P] and never panics under [P] does not
    panic, and an [Ok] exit satisfies [P]. *)
Lemma try_fold_invariant (P : S → Prop) s xs :
  P s →
  (∀ s x, x ∈ xs → P s → step s x ≠ Panic ∧ ∀ s', step s x = Ok s' → P s') →
  try_fold step s xs ≠ Panic ∧ ∀ s', try_fold step s xs = Ok s' → P s'.
Proof.
  revert s; induction xs as [|x xs IH]; intros s HP Hstep; simpl.
  { split; [done|]. by intros s' [= <-]. }
  destruct (Hstep s x ltac:(set_solver) HP) as [Hnp Hok].
  destruct (step s x) as [s1|e|] eqn:Hx; simpl; [|naive_solver..].
  apply IH; [by apply Hok|set_solver].
Qed.
End try_fold_lemmas.

(** ** Lemmas on iterator adapters *)
Section iter_lemmas.
Context {A B : Type}.

Lemma all_Forall (f : A → bool) l : all f l = true ↔ Forall (λ x, f x = true) l.
Proof. unfold all. rewrite forallb_forall, Forall_forall. by setoid_rewrite list_elem_of_In. Qed.

Lemma any_Exists (f : A → bool) l : any f l = true ↔ Exists (λ x, f x = true) l.
Proof.
  unfold any. rewrite existsb_exists, Exists_exists. by setoid_rewrite list_elem_of_In.
Qed.

Lemma any_false (f : A → bool) l : any f l = false ↔ Forall (λ x, f x = false) l.
Proof.
  rewrite <- Bool.not_true_iff_false, any_Exists, <- Forall_Exists_neg.
  apply Forall_iff. intros x. by rewrite Bool.not_true_iff_false.
Qed.

Lemma find_map_Some (f : A → option B) l b :
  find_map f l = Some b → ∃ x, x ∈ l ∧ f x = Some b.
Proof.
  induction l as [|x l IH]; simpl; [done|].
  destruct (f x) eqn:Hx; [set_solver|]. intros (y&?&?)%IH. set_solver.
Qed.

Lemma find_map_None (f : A → option B) l :
  find_map f l = None ↔ Forall (λ x, f x = None) l.
Proof.
  induction l as [|x l IH]; simpl; [by split|].
  rewrite Forall_cons, <- IH. destruct (f x); naive_solver.
Qed.

Lemma find_map_app (f : A → option B) l k :
  find_map f (l ++ k) = match find_map f l with Some b => Some b | None => find_map f k end.
Proof. induction l as [|x l IH]; simpl; [done|]. by destruct (f x). Qed.

Lemma filter_map_app (f : A → option B) l k :
  filter_map f (l ++ k) = filter_map f l ++ filter_map f k.
Proof. apply omap_app. Qed.

Lemma filter_map_nil (f : A → option B) l :
  filter_map f l = [] ↔ Forall (λ x, f x = None) l.
Proof.
  unfold filter_map. induction l as [|x l IH]; simpl; [by split|].
  rewrite Forall_cons. destruct (f x); naive_solver.
Qed.

Lemma position_Some (f : A → bool) l i :
  position f l = Some i →
  i < length l ∧ (∃ x, l !! i = Some x ∧ f x = true) ∧ Forall (λ x, f x = false) (take i l).
Proof.
  revert i; induction l as [|x l IH]; intros i; simpl; [done|].
  destruct (f x) eqn:Hx.
  - intros [= <-]. simpl. split; [lia|]. split; [by exists x|constructor].
  - destruct (position f l) as [j|]; simpl; [|done]. intros [= <-].
    destruct (IH j eq_refl) as (?&(y&?&?)&?). simpl. split; [lia|].
    split; [by exists y|]. by constructor.
Qed.

Lemma position_None (f : A → bool) l : position f l = None ↔ Forall (λ x, f x = false) l.
Proof.
  induction l as [|x l IH]; simpl; [by split|].
  rewrite Forall_cons. destruct (f x); [naive_solver|].
  rewrite fmap_None, IH. naive_solver.
Qed.
End iter_lemmas.

Section distinct.
Context `{Countable A}.
Implicit Types l : list A.

Lemma distinct_count_le l : distinct_count l ≤ length l.
Proof.
  unfold distinct_count. induction l as [|x l IH]; simpl; [done|].
  rewrite (size_union_alt {[x]} (list_to_set l : gset A)), size_singleton.
  assert (size ((list_to_set l : gset A) ∖ {[x]}) ≤ size (list_to_set l : gset A))
    by (apply subseteq_size; set_solver).
  lia.
Qed.

Lemma distinct_count_NoDup l : distinct_count l = length l ↔ NoDup l.
Proof.
  split; [|apply (size_list_to_set (C := gset A))].
  induction l as [|x l IH]; simpl; [constructor|]. intros Hsz.
  pose proof (distinct_count_le l) as Hle. unfold distinct_count in *. simpl in Hsz.
  destruct (decide (x ∈ l)) as [Hin|Hni].
  - replace ({[x]} ∪ list_to_set l : gset A) with (list_to_set l : gset A) in Hsz
      by set_solver.
    lia.
  - constructor; [done|]. apply IH.
    rewrite size_union, size_singleton in Hsz by set_solver. lia.
Qed.
End distinct.

(** ** Histories *)

(** [P before x] holds at every element of a list. *)
Definition always {A} (P : list A → A → Prop) (l : list A) : Prop :=
  ∀ l1 x l2, l = l1 ++ x :: l2 → P l1 x.

Lemma always_nil {A} (P : list A → A → Prop) : always P [].
Proof. intros [|] x l2 Hl; done. Qed.

Lemma always_snoc {A} (P : list A → A → Prop) l x :
  always P l → P l x → always P (l ++ [x]).
Proof.
  intros Hl Hx l1 y l2 Heq.
  destruct l2 as [|z l2 _] using rev_ind.
  - by apply app_inj_tail in Heq as [-> ->].
  - rewrite app_comm_cons, app_assoc in Heq. apply app_inj_tail in Heq as [-> _]. by eapply Hl.
Qed.

Lemma last_fmap_seq {A} (f : nat → A) n : last (f <$> seq 1 (S n)) = Some (f (S n)).
Proof. rewrite seq_S, fmap_app. apply last_snoc. Qed.

Lemma filter_map_snoc {A B} (f : A → option B) l x :
  filter_map f (l ++ [x]) = filter_map f l ++ match f x with Some y => [y] | None => [] end.
Proof. by rewrite filter_map_app. Qed.

Lemma forall_filter {A} (Q P : A → Prop) `{∀ x, Decision (P x)} l :
  Forall Q l → Forall Q (filter P l).
Proof. rewrite !Forall_forall. intros Hl x [_ Hx]%list_elem_of_filter. by apply Hl. Qed.

Lemma strongly_sorted_filter {A} (R : A → A → Prop) (P : A → Prop) `{∀ x, Decision (P x)} l :
  StronglySorted R l → StronglySorted R (filter P l).
Proof.
  induction 1 as [|x l Hs IH Hx]; [constructor|]. rewrite filter_cons.
  case_decide; [|done]. constructor; [done|]. by apply forall_filter.
Qed.

Lemma nodup_fmap_inj {A B} (f : A → B) l x y :
  NoDup (f <$> l) → x ∈ l → y ∈ l → f x = f y → x = y.
Proof.
  intros Hn [i Hi]%list_elem_of_lookup [j Hj]%list_elem_of_lookup Hf.
  assert (i = j) as <-; [|congruence].
  apply (NoDup_lookup (f <$> l) i j (f x)); [done|..]; rewrite list_lookup_fmap.
  - by rewrite Hi.
  - rewrite Hj. simpl. by rewrite Hf.
Qed.

Lemma filter_all {A} (P : A → Prop) `{∀ x, Decision (P x)} (l : list A) :
  Forall P l → filter P l = l.
Proof. induction 1 as [|x l Hx _ IH]; [done|]. by rewrite filter_cons_True, IH. Qed.

(** ** Automation

    [rust_bool] turns the boolean guards of the code into propositions and back;
    [rust_inv H] inverts an equation [c = Ok _] of the [outcome] monad. *)
Create Rewrite HintDb rust_bool.
#[export] Hint Rewrite andb_true_iff andb_false_iff orb_true_iff orb_false_iff
  negb_true_iff negb_false_iff @bool_decide_eq_true @bool_decide_eq_false : rust_bool.

Ltac rust_bool := autorewrite with rust_bool in *.

Ltac rust_inv_step H :=
  lazymatch type of H with
  | Ok _ = Ok _ => injection H as H
  | Err _ = Ok _ => discriminate H
  | Panic = Ok _ => discriminate H
  | _ ≫= _ = Ok _ => apply bind_Ok in H; destruct H as (? & ? & H)
  | context [if bool_decide ?P then _ else _] =>
      let Hc := fresh "Hc" in destruct (bool_decide P) eqn:Hc
  | context [if ?b then _ else _] =>
      let Hc := fresh "Hc" in destruct b eqn:Hc
  | context [match ?x with _ => _ end] =>
      let Hc := fresh "Hc" in destruct x eqn:Hc
  end.
Ltac rust_inv H := repeat (rust_inv_step H; try discriminate H).

(** ** Integer display *)
Lemma display_inj a b : (0 ≤ a)%Z → (0 ≤ b)%Z → display a = display b → a = b.
Proof. unfold display. intros ?? Heq%(inj pretty). lia. Qed.

Lemma display_nat_inj a b : display_nat a = display_nat b → a = b.
Proof. unfold display_nat. intros Heq%(inj pretty). lia. Qed.

Lemma str_app_nil (b : string) : "" +:+ b = b.
Proof. reflexivity. Qed.
Lemma str_app_cons c (a b : string) : String c a +:+ b = String c (a +:+ b).
Proof. reflexivity. Qed.
Lemma str_app_nil_r (s : string) : s +:+ "" = s.
Proof. induction s as [|b s IH]; [done|]. by rewrite str_app_cons, IH. Qed.
Lemma str_app_assoc (a b c : string) : (a +:+ b) +:+ c = a +:+ b +:+ c.
Proof. induction a as [|x a IH]; [done|]. rewrite !str_app_cons. congruence. Qed.
Lemma str_app_length (a b : string) :
  String.length (a +:+ b) = String.length a + String.length b.
Proof. induction a as [|x a IH]; [done|]. rewrite str_app_cons. simpl. congruence. Qed.

Lemma string_app_inj_l (p a b : string) : p +:+ a = p +:+ b → a = b.
Proof. apply (inj (String.append p)). Qed.

Lemma u32_checked_in {E} `{Build} z : in_u32 z → u32_checked (E := E) z = Ok z.
Proof. intros. unfold u32_checked. by rewrite bool_decide_eq_true_2. Qed.

Lemma str_is_empty_true s : str_is_empty s = true ↔ s = "".
Proof. unfold str_is_empty. by rewrite bool_decide_eq_true. Qed.
Lemma str_is_empty_false s : str_is_empty s = false ↔ s ≠ "".
Proof. unfold str_is_empty. by rewrite bool_decide_eq_false. Qed.
Lemma is_nil_true {A} (l : list A) : is_nil l = true ↔ l = [].
Proof. by destruct l. Qed.
Lemma is_nil_false {A} (l : list A) : is_nil l = false ↔ l ≠ [].
Proof. by destruct l. Qed.

#[export] Hint Rewrite str_is_empty_true str_is_empty_false @is_nil_true @is_nil_false
  : rust_bool.
