(* ===== verification/RustStr.v ===== *)
(** UTF-8 strings as the Rust standard library sees them.

    A Rust [String] is the [string] of its bytes. This file gives the
    operations the program uses that look at characters: [chars], [trim],
    [split_whitespace], [truncate] (which panics off a character boundary),
    [char::is_whitespace], [char::is_control] and [String::from_utf8]. *)

From S2P Require Import Prelude.
From Stdlib Require Import Ascii.

Definition byte_val (b : ascii) : Z := Z.of_N (N_of_ascii b).

(** Continuation bytes are [0b10xxxxxx]. *)
Definition is_continuation (b : ascii) : bool := (Z.land (byte_val b) 192 =? 128)%Z.

(** [str::chars], each character as the string of its bytes. *)
Fixpoint chars (s : string) : list string :=
  match s with
  | EmptyString => []
  | String b s' =>
      match chars s' with
      | (String b' _ as c) :: cs =>
          if is_continuation b' then String b c :: cs else String b "" :: c :: cs
      | cs => String b "" :: cs
      end
  end.

Fixpoint concat_str (l : list string) : string :=
  match l with [] => "" | c :: l => c +:+ concat_str l end.

(** The scalar value of one character. *)
Definition code_point (c : string) : Z :=
  match c with
  | String a EmptyString => byte_val a
  | String a (String b EmptyString) =>
      Z.lor (Z.shiftl (Z.land (byte_val a) 31) 6) (Z.land (byte_val b) 63)
  | String a (String b (String d EmptyString)) =>
      Z.lor (Z.shiftl (Z.land (byte_val a) 15) 12)
        (Z.lor (Z.shiftl (Z.land (byte_val b) 63) 6) (Z.land (byte_val d) 63))
  | String a (String b (String d (String e _))) =>
      Z.lor (Z.shiftl (Z.land (byte_val a) 7) 18)
        (Z.lor (Z.shiftl (Z.land (byte_val b) 63) 12)
          (Z.lor (Z.shiftl (Z.land (byte_val d) 63) 6) (Z.land (byte_val e) 63)))
  | EmptyString => 0%Z
  end.

(** [char::is_whitespace]: the Unicode [White_Space] property. *)
Definition is_whitespace (c : string) : bool :=
  let p := code_point c in
  ((9 <=? p) && (p <=? 13) || (p =? 32) || (p =? 133) || (p =? 160) || (p =? 5760)
   || (8192 <=? p) && (p <=? 8202) || (p =? 8232) || (p =? 8233) || (p =? 8239)
   || (p =? 8287) || (p =? 12288))%Z.

(** [char::is_control]: general category [Cc]. *)
Definition is_control (c : string) : bool :=
  let p := code_point c in ((p <=? 31) || (127 <=? p) && (p <=? 159))%Z.

Fixpoint drop_while {A} (f : A → bool) (l : list A) : list A :=
  match l with [] => [] | x :: l' => if f x then drop_while f l' else l end.

Definition trim_start_chars (l : list string) : list string := drop_while is_whitespace l.
Definition trim_end_chars (l : list string) : list string :=
  reverse (drop_while is_whitespace (reverse l)).
Definition trim_chars (l : list string) : list string := trim_end_chars (trim_start_chars l).

(** [str::trim]. *)
Definition trim (s : string) : string := concat_str (trim_chars (chars s)).
Definition trim_start (s : string) : string := concat_str (trim_start_chars (chars s)).

(** [str::split_whitespace]: the maximal runs of non-whitespace characters. *)
Fixpoint words_from (cur : list string) (l : list string) : list (list string) :=
  match l with
  | [] => if is_nil cur then [] else [cur]
  | c :: l =>
      if is_whitespace c then
        if is_nil cur then words_from [] l else cur :: words_from [] l
      else words_from (cur ++ [c]) l
  end.
Definition split_whitespace (s : string) : list string := concat_str <$> words_from [] (chars s).

(** [slice.join(sep)]. *)
Fixpoint join (sep : string) (l : list string) : string :=
  match l with
  | [] => ""
  | [w] => w
  | w :: l => w +:+ sep +:+ join sep l
  end.

(** [str::is_char_boundary]. *)
Definition is_char_boundary (s : string) (n : nat) : bool :=
  bool_decide (n = 0) || bool_decide (n = String.length s) ||
  match String.get n s with Some b => negb (is_continuation b) | None => false end.

(** [String::truncate]: no effect past the end, panics inside a character. *)
Definition truncate {E} (n : nat) (s : string) : outcome E string :=
  if bool_decide (n ≤ String.length s) then
    if is_char_boundary s n then Ok (String.substring 0 n s) else Panic
  else Ok s.

(** [str::strip_prefix]. *)
Definition strip_prefix (prefix s : string) : option string :=
  if String.prefix prefix s
  then Some (String.substring (String.length prefix) (String.length s - String.length prefix) s)
  else None.

(** [String::from_utf8]: the well-formed byte sequences of the Unicode Standard
    (table 3-7). *)
Definition in_range (lo hi : Z) (b : ascii) : bool := ((lo <=? byte_val b) && (byte_val b <=? hi))%Z.
Fixpoint valid_utf8 (s : string) : bool :=
  match s with
  | EmptyString => true
  | String a s1 =>
      if in_range 0 127 a then valid_utf8 s1
      else
        match s1 with
        | EmptyString => false
        | String b s2 =>
            if in_range 194 223 a && is_continuation b then valid_utf8 s2
            else
              match s2 with
              | EmptyString => false
              | String c s3 =>
                  if ((in_range 224 224 a && in_range 160 191 b)
                      || ((in_range 225 236 a || in_range 238 239 a) && is_continuation b)
                      || (in_range 237 237 a && in_range 128 159 b)) && is_continuation c
                  then valid_utf8 s3
                  else
                    match s3 with
                    | EmptyString => false
                    | String d s4 =>
                        ((in_range 240 240 a && in_range 144 191 b)
                         || (in_range 241 243 a && is_continuation b)
                         || (in_range 244 244 a && in_range 128 143 b))
                        && is_continuation c && is_continuation d && valid_utf8 s4
                    end
              end
        end
  end.
Definition from_utf8 (s : string) : option string := if valid_utf8 s then Some s else None.

(** ** Lemmas *)
Lemma chars_cons b s :
  ∃ c cs, chars (String b s) = String b c :: cs ∧ s = c +:+ concat_str cs.
Proof.
  revert b. induction s as [|b' s IH]; intros b.
  { by exists "", []. }
  destruct (IH b') as (c & cs & Hc & ->).
  change (chars (String b (String b' (c +:+ concat_str cs)))) with
    (match chars (String b' (c +:+ concat_str cs)) with
     | (String b'' _ as c0) :: cs0 =>
         if is_continuation b'' then String b c0 :: cs0 else String b "" :: c0 :: cs0
     | cs0 => String b "" :: cs0
     end).
  rewrite Hc. destruct (is_continuation b').
  - by exists (String b' c), cs.
  - by exists "", (String b' c :: cs).
Qed.

(** The characters of a string spell the string. *)
Lemma concat_chars s : concat_str (chars s) = s.
Proof.
  destruct s as [|b s]; [done|].
  destruct (chars_cons b s) as (c & cs & Hc & Hs). rewrite Hc, Hs. reflexivity.
Qed.

Lemma chars_nil s : chars s = [] ↔ s = "".
Proof.
  split; [|by intros ->]. destruct s as [|b s]; [done|].
  destruct (chars_cons b s) as (c & cs & -> & _). done.
Qed.

Lemma chars_nonempty s : Forall (λ c, c ≠ "") (chars s).
Proof.
  induction s as [|b s IH]; [constructor|].
  destruct (chars_cons b s) as (c & cs & Hc & _). simpl in Hc |- *.
  destruct (chars s) as [|[|b' c'] cs']; [by repeat constructor|..].
  - by apply Forall_cons in IH as [? ?].
  - apply Forall_cons in IH as [? ?].
    by destruct (is_continuation b'); repeat constructor.
Qed.

Lemma concat_str_app l k : concat_str (l ++ k) = concat_str l +:+ concat_str k.
Proof.
  induction l as [|c l IH]; simpl; [done|]. by rewrite IH, str_app_assoc.
Qed.
Lemma concat_str_snoc l x : concat_str (l ++ [x]) = concat_str l +:+ x.
Proof. rewrite concat_str_app. cbn. by rewrite str_app_nil_r. Qed.

Lemma truncate_length {E} n s s' :
  truncate (E := E) n s = Ok s' → String.length s' ≤ n.
Proof.
  unfold truncate. case_bool_decide as Hn; [|intros [= <-]; lia].
  destruct (is_char_boundary s n); intros [= <-].
  clear -Hn. revert s Hn. induction n as [|n IH]; intros s; [by destruct s|].
  destruct s as [|b s]; simpl; [lia|]. intros. apply le_n_S, IH. lia.
Qed.

Lemma truncate_not_Err {E} n s (e : E) : truncate n s ≠ Err e.
Proof. unfold truncate. case_bool_decide; [by destruct (is_char_boundary s n)|done]. Qed.

(** ** Character lists that are the characters of a string *)
Fixpoint continuations (s : string) : bool :=
  match s with EmptyString => true | String b s => is_continuation b && continuations s end.

Definition char_shape (c : string) : Prop :=
  match c with EmptyString => False | String _ c' => continuations c' = true end.
Definition leads (c : string) : Prop :=
  match c with EmptyString => False | String b _ => is_continuation b = false end.

(** [char_list l]: every element is one lead byte with its continuation bytes;
    only the first may itself start inside a character. *)
Definition char_list (l : list string) : Prop := Forall char_shape l ∧ Forall leads (tail l).

Lemma chars_char_list s : char_list (chars s).
Proof.
  unfold char_list. induction s as [|b s [Hs Hl]]; [by split; constructor|]. simpl.
  destruct (chars s) as [|[|b' c] cs]; simpl in *.
  - by repeat constructor.
  - by apply Forall_cons in Hs as [[] _].
  - apply Forall_cons in Hs as [Hc Hs]. simpl in Hc.
    destruct (is_continuation b') eqn:Hb; simpl; split; try done.
    + constructor; [simpl; by rewrite Hb|done].
    + by repeat constructor.
    + by constructor.
Qed.

Lemma chars_app_char c s :
  char_shape c → (∀ b s', s = String b s' → is_continuation b = false) →
  chars (c +:+ s) = c :: chars s.
Proof.
  intros Hc Hs. destruct c as [|b c]; [done|]. simpl in Hc. revert b Hc.
  induction c as [|b' c IH]; intros b Hc; rewrite !str_app_cons, ?str_app_nil.
  - destruct s as [|b' s]; [done|]. specialize (Hs _ _ eq_refl).
    change (chars (String b (String b' s))) with
      (match chars (String b' s) with
       | (String b'' _ as c0) :: cs0 =>
           if is_continuation b'' then String b c0 :: cs0 else String b "" :: c0 :: cs0
       | cs0 => String b "" :: cs0
       end).
    destruct (chars_cons b' s) as (c0 & cs0 & -> & _). by rewrite Hs.
  - simpl in Hc. apply andb_true_iff in Hc as [Hb' Hc].
    specialize (IH b' Hc). rewrite str_app_cons in IH.
    change (chars (String b (String b' (c +:+ s)))) with
      (match chars (String b' (c +:+ s)) with
       | (String b'' _ as c0) :: cs0 =>
           if is_continuation b'' then String b c0 :: cs0 else String b "" :: c0 :: cs0
       | cs0 => String b "" :: cs0
       end).
    by rewrite IH, Hb'.
Qed.

Lemma concat_str_lead cs b s :
  Forall char_shape cs → Forall leads cs → concat_str cs = String b s → is_continuation b = false.
Proof.
  destruct cs as [|[|b' c] cs]; [done| |]; intros Hs Hl.
  - by apply Forall_cons in Hs as [[] _].
  - simpl. rewrite str_app_cons. intros [= <- _]. by apply Forall_cons in Hl as [? _].
Qed.

Lemma chars_concat l : char_list l → chars (concat_str l) = l.
Proof.
  intros [Hs Hl]. induction l as [|c cs IH]; [done|].
  apply Forall_cons in Hs as [Hc Hs]. simpl in Hl. simpl.
  rewrite chars_app_char; [|done|intros b s'; by apply concat_str_lead].
  f_equal. apply IH; [done|]. destruct cs; [constructor|]. by apply Forall_cons in Hl as [_ ?].
Qed.

Lemma char_list_take n l : char_list l → char_list (take n l).
Proof.
  intros [Hs Hl]. split; [by apply Forall_take|].
  destruct n as [|n], l as [|c l]; simpl in *; [constructor..|]. by apply Forall_take.
Qed.

Lemma char_list_snoc l c : char_list l → char_shape c → leads c → char_list (l ++ [c]).
Proof.
  intros [Hs Hl] Hc Hlead. split.
  - apply Forall_app. by rewrite Forall_singleton.
  - destruct l as [|c' l]; simpl; [constructor|]. apply Forall_app. by rewrite Forall_singleton.
Qed.

(** Truncation by characters: at most [n] of them, unchanged. *)
Lemma chars_take n s : chars (concat_str (take n (chars s))) = take n (chars s).
Proof. apply chars_concat, char_list_take, chars_char_list. Qed.

Lemma char_list_app l k :
  char_list l → char_list k → Forall leads k → char_list (l ++ k).
Proof.
  intros [Hs Hl] [Hs' _] Hk. split; [by apply Forall_app|].
  destruct l as [|c l]; simpl; [by destruct k as [|c k]; [|apply Forall_cons in Hk as [_ ?]]|].
  by apply Forall_app.
Qed.

(** A string that starts at a character, as every [str] does. *)
Definition starts_char (s : string) : Prop :=
  match s with EmptyString => True | String b _ => is_continuation b = false end.

Lemma chars_leads s : starts_char s → Forall leads (chars s).
Proof.
  destruct s as [|b s]; [constructor|]. intros Hb.
  destruct (chars_char_list (String b s)) as [_ Hl].
  destruct (chars_cons b s) as (c & cs & Hc & _). rewrite Hc in *. by constructor.
Qed.

Lemma chars_app s s' : starts_char s' → chars (s +:+ s') = chars s ++ chars s'.
Proof.
  intros Hs. rewrite <- (concat_chars s), <- (concat_chars s') at 1.
  rewrite <- concat_str_app. apply chars_concat.
  apply char_list_app; auto using chars_char_list, chars_leads.
Qed.

(** Without it, the characters at the seam may join. *)
Lemma chars_app_length s s' : length (chars (s +:+ s')) ≤ length (chars s) + length (chars s').
Proof.
  assert (∀ b t, length (chars (String b t)) =
    match t with
    | String b' _ => if is_continuation b' then length (chars t) else S (length (chars t))
    | EmptyString => 1
    end) as Hlen.
  { intros b [|b' t]; [done|]. destruct (chars_cons b' t) as (c & cs & Hc & _).
    change (chars (String b (String b' t))) with
      (match chars (String b' t) with
       | (String b'' _ as c0) :: cs0 =>
           if is_continuation b'' then String b c0 :: cs0 else String b "" :: c0 :: cs0
       | cs0 => String b "" :: cs0
       end).
    rewrite Hc. by destruct (is_continuation b'). }
  induction s as [|b s IH]; [done|]. rewrite str_app_cons, !Hlen.
  destruct s as [|b' s].
  - rewrite str_app_nil. destruct s' as [|b' s']; [simpl; lia|]. destruct (is_continuation b'); lia.
  - rewrite str_app_cons in *. destruct (is_continuation b'); lia.
Qed.

Lemma valid_starts_char s : valid_utf8 s = true → starts_char s.
Proof.
  destruct s as [|a s]; [done|]. intros Hv. unfold starts_char.
  destruct (is_continuation a) eqn:Ha; [|done]. exfalso.
  assert (128 ≤ byte_val a ≤ 191)%Z as Hr.
  { revert Ha. unfold is_continuation. destruct a as [[] [] [] [] [] [] [] []]; vm_compute;
      first [discriminate|intros _; split; discriminate]. }
  assert (∀ lo hi, (191 < lo ∨ hi < 128)%Z → in_range lo hi a = false) as Hno.
  { intros lo hi Hlh. unfold in_range. apply andb_false_iff.
    destruct Hlh; [left; apply Z.leb_gt; lia|right; apply Z.leb_gt; lia]. }
  cbn [valid_utf8] in Hv. rewrite !Hno in Hv by lia. cbn [andb orb] in Hv.
  by destruct s as [|? [|? [|]]].
Qed.

(** ** What [str::trim] leaves *)

Lemma drop_while_spec {A} (f : A → bool) l :
  ∃ front, l = front ++ drop_while f l ∧ Forall (λ x, f x = true) front ∧
    ∀ x, head (drop_while f l) = Some x → f x = false.
Proof.
  induction l as [|y l (front & Hl & Hf & Hh)]; [by exists []|]. simpl.
  destruct (f y) eqn:Hy.
  - exists (y :: front). split; [by rewrite Hl at 1|]. split; [by constructor|done].
  - exists []. split; [done|]. split; [constructor|]. by intros x [= <-].
Qed.

Lemma char_list_middle l k r : char_list (l ++ k ++ r) → char_list k.
Proof.
  intros [Hs Hl]. rewrite !Forall_app in Hs. split; [tauto|].
  destruct l as [|c l]; simpl in Hl.
  - destruct k as [|c k]; [constructor|]. simpl in Hl. by apply Forall_app in Hl as [? _].
  - rewrite !Forall_app in Hl. destruct Hl as (_ & Hk & _). destruct k; [constructor|].
    by apply Forall_cons in Hk as [_ ?].
Qed.

(** The characters between the outermost ones that are no white space. *)
Definition trimmed_of (s : string) (body : list string) : Prop :=
  ∃ front back, chars s = front ++ body ++ back ∧
    Forall (λ c, is_whitespace c = true) front ∧ Forall (λ c, is_whitespace c = true) back ∧
    (∀ c, head body = Some c → is_whitespace c = false) ∧
    (∀ c, last body = Some c → is_whitespace c = false).

Lemma last_reverse_head {A} (l : list A) : last (reverse l) = head l.
Proof. destruct l as [|x l]; [done|]. by rewrite reverse_cons, last_snoc. Qed.

Lemma trim_trimmed s : trimmed_of s (chars (trim s)).
Proof.
  unfold trim, trim_chars, trim_start_chars, trim_end_chars.
  destruct (drop_while_spec is_whitespace (chars s)) as (front & Hl & Hf & Hh).
  set (l := drop_while is_whitespace (chars s)) in *.
  destruct (drop_while_spec is_whitespace (reverse l)) as (back & Hr & Hb & Ht).
  set (k := drop_while is_whitespace (reverse l)) in *.
  assert (l = reverse k ++ reverse back) as Hlk by (rewrite <- reverse_app, <- Hr; by rewrite reverse_involutive).
  assert (chars s = front ++ reverse k ++ reverse back) as Hs by by rewrite Hl, Hlk at 1.
  rewrite chars_concat; [|apply (char_list_middle front _ (reverse back)); rewrite <- Hs; apply chars_char_list].
  exists front, (reverse back). split; [done|]. split; [done|]. split; [by apply Forall_reverse|]. split.
  - intros c Hc. apply Hh. rewrite Hlk. by destruct (reverse k).
  - intros c. rewrite last_reverse_head. apply Ht.
Qed.

Lemma skip_front {A} (P : A → Prop) a b x k x' k' :
  Forall P a → Forall P b → ¬ P x → ¬ P x' → a ++ x :: k = b ++ x' :: k' → a = b ∧ x :: k = x' :: k'.
Proof.
  revert b. induction a as [|y a IH]; intros [|z b] Ha Hb Hx Hx'; simpl; intros Heq.
  - done.
  - injection Heq as -> _. by apply Forall_cons in Hb as [? _].
  - injection Heq as <- _. by apply Forall_cons in Ha as [? _].
  - injection Heq as -> Heq. apply Forall_cons in Ha as [_ Ha], Hb as [_ Hb].
    by destruct (IH b Ha Hb Hx Hx' Heq) as [-> ->].
Qed.

Lemma trimmed_unique s b b' : trimmed_of s b → trimmed_of s b' → b ≠ [] → b' ≠ [] → b = b'.
Proof.
  intros (f & r & Hs & Hf & Hr & Hh & Hl) (f' & r' & Hs' & Hf' & Hr' & Hh' & Hl') Hb Hb'.
  rewrite Hs in Hs'. destruct b as [|x b]; [done|]. destruct b' as [|x' b']; [done|].
  apply (skip_front (λ c, is_whitespace c = true)) in Hs' as [-> Heq];
    [|done|done|by rewrite Hh|by rewrite Hh'].
  assert ((x :: b) ++ r = (x' :: b') ++ r') as Hall by exact Heq. clear Heq.
  destruct (exists_last (l := x :: b)) as (i & y & Hi); [done|].
  destruct (exists_last (l := x' :: b')) as (i' & y' & Hi'); [done|].
  rewrite Hi in Hall, Hl |- *. rewrite Hi' in Hall, Hl' |- *. rewrite last_snoc in Hl, Hl'.
  apply (f_equal reverse) in Hall. rewrite !reverse_app, !reverse_singleton in Hall. cbn [app] in Hall.
  apply (skip_front (λ c, is_whitespace c = true)) in Hall as [_ Heq];
    [|by apply Forall_reverse..|by rewrite Hl|by rewrite Hl'].
  rewrite <- !reverse_snoc in Heq. by apply (inj reverse) in Heq.
Qed.
