(* ===== verification/Kernel.v ===== *)
(** The turn kernel (src/crates/philo-agent-kernel): its protocol vocabulary,
    its state and the pure transition function.

    Module [kernel] plays the part of the crate: [protocol.rs], [state.rs],
    [tool_loop.rs] and [transition.rs], one definition per type and function.
    The identifiers of the [string_id!] macro are their strings. *)

From S2P Require Import Prelude RustStr.

Module kernel.

Abbreviation TurnId := string.
Abbreviation ModelCallId := string.
Abbreviation EffectId := string.
Abbreviation ToolBatchId := string.
Abbreviation ToolCallId := string.

(** ** protocol.rs *)

Inductive UserPart : Type :=
| UserText (text : string)
| UserImage (media_type : string) (bytes : list Byte.byte).

Inductive InvalidUserMessage : Type :=
| EmptyParts
| EmptyTextPart.

Record UserMessage : Type := { parts : list UserPart }.

Definition empty_text_part (part : UserPart) : bool :=
  match part with UserText text => str_is_empty text | UserImage _ _ => false end.

Definition user_from_parts (ps : list UserPart) : outcome InvalidUserMessage UserMessage :=
  if is_nil ps then Err EmptyParts
  else if any empty_text_part ps then Err EmptyTextPart
  else Ok {| parts := ps |}.

Record KernelToolCall : Type := {
  call_id : ToolCallId;
  call_name : string;
  call_arguments : string
}.

Inductive KernelToolResultOutcome : Type :=
| Success (content : string)
| Error (code message : string).

Record KernelToolResult : Type := {
  result_call_id : ToolCallId;
  result_outcome : KernelToolResultOutcome
}.

Inductive AssistantBlock : Type :=
| TextBlock (text : string)
| ToolCallBlock (call : KernelToolCall).

Inductive InvalidAssistantOutput : Type := EmptyTextBlock.

Record AssistantOutput : Type := {
  blocks : list AssistantBlock;
  unsupported : bool
}.

Definition empty_text_block (block : AssistantBlock) : bool :=
  match block with TextBlock text => str_is_empty text | ToolCallBlock _ => false end.

Definition from_blocks (bs : list AssistantBlock)
    : outcome InvalidAssistantOutput AssistantOutput :=
  if any empty_text_block bs then Err EmptyTextBlock
  else Ok {| blocks := bs; unsupported := false |}.

Definition block_text (block : AssistantBlock) : option string :=
  match block with TextBlock text => Some text | ToolCallBlock _ => None end.
Definition block_call (block : AssistantBlock) : option KernelToolCall :=
  match block with TextBlock _ => None | ToolCallBlock call => Some call end.
Definition is_tool_call (block : AssistantBlock) : bool :=
  match block with TextBlock _ => false | ToolCallBlock _ => true end.

(** [AssistantOutput::text]. *)
Definition output_text (output : AssistantOutput) : string :=
  concat_str (filter_map block_text (blocks output)).

Definition tool_call_batch (output : AssistantOutput) : option (list KernelToolCall) :=
  let calls := filter_map block_call (blocks output) in
  if is_nil calls then None else Some calls.

Definition contains_tool_call (output : AssistantOutput) : bool :=
  any is_tool_call (blocks output).

Definition is_unsupported (output : AssistantOutput) : bool := unsupported output.

(** The sugar constructors; their [expect] is the [Panic] of [of_blocks]. *)
Definition of_blocks (bs : list AssistantBlock) : outcome Empty_set AssistantOutput :=
  match from_blocks bs with Ok o => Ok o | _ => Panic end.

Definition final_text (text : string) : outcome Empty_set AssistantOutput :=
  of_blocks (if str_is_empty text then [] else [TextBlock text]).

Definition tool_calls (calls : list KernelToolCall) : outcome Empty_set AssistantOutput :=
  of_blocks (ToolCallBlock <$> calls).

Definition with_unsupported_tool_call (text : string) : outcome Empty_set AssistantOutput :=
  (λ output, {| blocks := blocks output; unsupported := true |}) <$> final_text text.

Inductive TurnMessage : Type :=
| User (message : UserMessage)
| Assistant (output : AssistantOutput)
| AssistantToolCalls (tool_batch_id : ToolBatchId) (bs : list AssistantBlock)
| ToolResult (result : KernelToolResult).

Inductive TurnFailure : Type :=
| ModelCallFailed (message : string)
| InvalidModelOutput (message : string)
| ToolExecutionFailed (message : string)
| PersistenceFailed (message : string)
| RuntimeDriverFailed (message : string).

Inductive TurnOutcome : Type := Succeeded | Failed | Cancelled.

Inductive KernelPhaseView : Type :=
| PhaseTurnStart
| PhaseModelCompletion (effect_id : EffectId) (model_call_id : ModelCallId)
| PhaseToolBatchCompletion (effect_id : EffectId) (tool_batch_id : ToolBatchId)
| PhaseTerminated (out : TurnOutcome).

Inductive KernelInput : Type :=
| BeginTurn (turn_id : TurnId) (user_message : UserMessage) (max_tool_rounds : Z)
| ModelCallCompleted (effect_id : EffectId) (output : AssistantOutput)
| ToolBatchCompleted (effect_id : EffectId) (results : list KernelToolResult)
| TerminationRequested (effect_id : EffectId) (failure : TurnFailure)
| CancelRequested (effect_id : EffectId).

Inductive KernelEffect : Type :=
| RequestModel (effect_id : EffectId) (model_call_id : ModelCallId)
    (turn_messages : list TurnMessage) (tools_allowed : bool)
| ExecuteToolBatch (effect_id : EffectId) (tool_batch_id : ToolBatchId)
    (calls : list KernelToolCall).

Inductive KernelObservation : Type :=
| TurnBegan (turn_id : TurnId) (user_message : UserMessage)
| ModelCallRequested (model_call_id : ModelCallId) (effect_id : EffectId)
| AssistantOutputAccepted (model_call_id : ModelCallId) (output : AssistantOutput)
| AssistantToolCallsAccepted (model_call_id : ModelCallId) (tool_batch_id : ToolBatchId)
    (bs : list AssistantBlock) (calls : list KernelToolCall)
| ToolBatchRequested (tool_batch_id : ToolBatchId) (effect_id : EffectId)
| ToolResultsAccepted (tool_batch_id : ToolBatchId) (results : list KernelToolResult)
| TurnFailureAccepted (effect_id : EffectId) (failure : TurnFailure)
| TurnTerminated (out : TurnOutcome).

Inductive DurabilityRequirement : Type := BeforeNextEffect | BeforeSettlement.

(** ** state.rs *)

(** [used_rounds], [round] and [max_tool_rounds] are [u32]. *)
Inductive State : Type :=
| ExpectingTurnStart
| ExpectingModelCompletion (effect_id : EffectId) (model_call_id : ModelCallId)
    (used_rounds max_tool_rounds : Z) (turn_id : TurnId) (transcript : list TurnMessage)
| ExpectingToolBatchCompletion (effect_id : EffectId) (tool_batch_id : ToolBatchId)
    (round max_tool_rounds : Z) (turn_id : TurnId) (transcript : list TurnMessage)
    (calls : list KernelToolCall)
| Terminated (out : TurnOutcome) (completed_effect_id : EffectId).

Record KernelState : Type := { inner : State }.

Definition initial_state : KernelState := {| inner := ExpectingTurnStart |}.

Definition phase (state : KernelState) : KernelPhaseView :=
  match inner state with
  | ExpectingTurnStart => PhaseTurnStart
  | ExpectingModelCompletion effect_id model_call_id _ _ _ _ =>
      PhaseModelCompletion effect_id model_call_id
  | ExpectingToolBatchCompletion effect_id tool_batch_id _ _ _ _ _ =>
      PhaseToolBatchCompletion effect_id tool_batch_id
  | Terminated out _ => PhaseTerminated out
  end.

Record KernelTransition : Type := {
  next_state : KernelState;
  transition_phase : KernelPhaseView;
  observations : list KernelObservation;
  durability : DurabilityRequirement;
  effect : option KernelEffect
}.

Inductive KernelInputRejectionReason : Type :=
| InputNotAccepted
| EffectIdMismatch (expected received : EffectId)
| EffectAlreadyCompleted (effect_id : EffectId)
| UnsupportedAssistantOutput
| InvalidToolCalls
| ToolResultsMismatch
| KernelTerminated.

Record KernelInputRejection : Type := {
  rejection_phase : KernelPhaseView;
  reason : KernelInputRejectionReason
}.

#[export] Instance byte_eq_dec : EqDecision Byte.byte := Byte.byte_eq_dec.
#[export] Instance UserPart_eq_dec : EqDecision UserPart.
Proof. solve_decision. Defined.
#[export] Instance KernelToolCall_eq_dec : EqDecision KernelToolCall.
Proof. solve_decision. Defined.
#[export] Instance AssistantBlock_eq_dec : EqDecision AssistantBlock.
Proof. solve_decision. Defined.
#[export] Instance TurnOutcome_eq_dec : EqDecision TurnOutcome.
Proof. solve_decision. Defined.

(** ** tool_loop.rs *)

Definition valid_call (call : KernelToolCall) : bool :=
  negb (str_is_empty (call_id call)) && negb (str_is_empty (trim (call_name call))).

Definition valid_calls (calls : list KernelToolCall) : bool :=
  negb (is_nil calls) && all valid_call calls
  && (distinct_count (call_id <$> calls) == length calls).

Definition matching_results (calls : list KernelToolCall) (results : list KernelToolResult)
    : bool :=
  (length calls == length results)
  && all (λ '(call, result), call_id call == result_call_id result) (zip calls results).

(** ** transition.rs *)
Section transition.
Context `{Build}.

Abbreviation answer := (outcome KernelInputRejection).

Definition mismatch {A} (ph : KernelPhaseView) (expected received : EffectId) : answer A :=
  Err {| rejection_phase := ph; reason := EffectIdMismatch expected received |}.

Definition reject {A} (state : KernelState) (r : KernelInputRejectionReason) : answer A :=
  Err {| rejection_phase := phase state; reason := r |}.

(** [2 * call_number - 1]: two checked [u32] operations. *)
Definition model_call_ids (turn_id : TurnId) (call_number : Z)
    : answer (ModelCallId * EffectId) :=
  let? doubled := u32_checked (2 * call_number) in
  let? sequence := u32_checked (doubled - 1) in
  Ok (turn_id +:+ ":model-call:" +:+ display call_number,
      turn_id +:+ ":effect:" +:+ display sequence).

Definition tool_batch_ids (turn_id : TurnId) (round : Z) : answer (ToolBatchId * EffectId) :=
  let? sequence := u32_checked (2 * round) in
  Ok (turn_id +:+ ":tool-batch:" +:+ display round,
      turn_id +:+ ":effect:" +:+ display sequence).

Definition begin (turn_id : TurnId) (user : UserMessage) (max_tool_rounds : Z)
    : answer KernelTransition :=
  let? (model_id, effect_id) := model_call_ids turn_id 1 in
  let transcript := [User user] in
  let next := {| inner := ExpectingModelCompletion effect_id model_id 0 max_tool_rounds
                            turn_id transcript |} in
  Ok {| transition_phase := phase next;
        next_state := next;
        observations := [TurnBegan turn_id user; ModelCallRequested model_id effect_id];
        durability := BeforeNextEffect;
        effect := Some (RequestModel effect_id model_id transcript
                          (bool_decide (0 < max_tool_rounds)%Z)) |}.

Definition complete_model (expected : EffectId) (model_id : ModelCallId)
    (used_rounds max_tool_rounds : Z) (turn_id : TurnId) (transcript : list TurnMessage)
    (received : EffectId) (output : AssistantOutput) : answer KernelTransition :=
  let current := PhaseModelCompletion expected model_id in
  if received != expected then mismatch current expected received
  else if is_unsupported output then
    Err {| rejection_phase := current; reason := UnsupportedAssistantOutput |}
  else if contains_tool_call output then
    let tools_allowed := bool_decide (used_rounds < max_tool_rounds)%Z in
    if negb tools_allowed then
      Err {| rejection_phase := current; reason := UnsupportedAssistantOutput |}
    else
      let? calls := expect (tool_call_batch output) in
      if negb (valid_calls calls) then
        Err {| rejection_phase := current; reason := InvalidToolCalls |}
      else
        let? round := u32_checked (used_rounds + 1) in
        let? (batch_id, tool_effect) := tool_batch_ids turn_id round in
        let bs := blocks output in
        let next_transcript := transcript ++ [AssistantToolCalls batch_id bs] in
        let next := {| inner := ExpectingToolBatchCompletion tool_effect batch_id round
                                  max_tool_rounds turn_id next_transcript calls |} in
        Ok {| transition_phase := phase next;
              next_state := next;
              observations := [AssistantToolCallsAccepted model_id batch_id bs calls;
                               ToolBatchRequested batch_id tool_effect];
              durability := BeforeNextEffect;
              effect := Some (ExecuteToolBatch tool_effect batch_id calls) |}
  else
    let next := {| inner := Terminated Succeeded expected |} in
    Ok {| transition_phase := phase next;
          next_state := next;
          observations := [AssistantOutputAccepted model_id output;
                           TurnTerminated Succeeded];
          durability := BeforeSettlement;
          effect := None |}.

Definition complete_tools (expected : EffectId) (batch_id : ToolBatchId)
    (round max_tool_rounds : Z) (turn_id : TurnId) (transcript : list TurnMessage)
    (calls : list KernelToolCall) (received : EffectId) (results : list KernelToolResult)
    : answer KernelTransition :=
  let current := PhaseToolBatchCompletion expected batch_id in
  if received != expected then mismatch current expected received
  else if negb (matching_results calls results) then
    Err {| rejection_phase := current; reason := ToolResultsMismatch |}
  else
    let next_transcript := transcript ++ (ToolResult <$> results) in
    let? call_number := u32_checked (round + 1) in
    let? (model_id, model_effect) := model_call_ids turn_id call_number in
    let next := {| inner := ExpectingModelCompletion model_effect model_id round
                              max_tool_rounds turn_id next_transcript |} in
    Ok {| transition_phase := phase next;
          next_state := next;
          observations := [ToolResultsAccepted batch_id results;
                           ModelCallRequested model_id model_effect];
          durability := BeforeNextEffect;
          effect := Some (RequestModel model_effect model_id next_transcript
                            (bool_decide (round < max_tool_rounds)%Z)) |}.

Definition terminate (state : KernelState) (expected received : EffectId)
    (failure : TurnFailure) : answer KernelTransition :=
  if received != expected then mismatch (phase state) expected received
  else
    let next := {| inner := Terminated Failed expected |} in
    Ok {| transition_phase := phase next;
          next_state := next;
          observations := [TurnFailureAccepted expected failure; TurnTerminated Failed];
          durability := BeforeSettlement;
          effect := None |}.

Definition cancel (state : KernelState) (expected received : EffectId)
    : answer KernelTransition :=
  if received != expected then mismatch (phase state) expected received
  else
    let next := {| inner := Terminated Cancelled expected |} in
    Ok {| transition_phase := phase next;
          next_state := next;
          observations := [TurnTerminated Cancelled];
          durability := BeforeSettlement;
          effect := None |}.

Definition transition (state : KernelState) (input : KernelInput)
    : answer KernelTransition :=
  match inner state, input with
  | ExpectingTurnStart, BeginTurn turn_id user_message max_tool_rounds =>
      begin turn_id user_message max_tool_rounds
  | ExpectingModelCompletion effect_id model_call_id used_rounds max_tool_rounds turn_id
      transcript, ModelCallCompleted received output =>
      complete_model effect_id model_call_id used_rounds max_tool_rounds turn_id transcript
        received output
  | ExpectingToolBatchCompletion effect_id tool_batch_id round max_tool_rounds turn_id
      transcript calls, ToolBatchCompleted received results =>
      complete_tools effect_id tool_batch_id round max_tool_rounds turn_id transcript calls
        received results
  | ExpectingModelCompletion effect_id _ _ _ _ _, TerminationRequested received failure
  | ExpectingToolBatchCompletion effect_id _ _ _ _ _ _, TerminationRequested received failure =>
      terminate state effect_id received failure
  | ExpectingModelCompletion effect_id _ _ _ _ _, CancelRequested received
  | ExpectingToolBatchCompletion effect_id _ _ _ _ _ _, CancelRequested received =>
      cancel state effect_id received
  | Terminated _ completed_effect_id, ModelCallCompleted effect_id _
  | Terminated _ completed_effect_id, ToolBatchCompleted effect_id _ =>
      if effect_id == completed_effect_id then
        reject state (EffectAlreadyCompleted effect_id)
      else reject state KernelTerminated
  | Terminated _ _, _ => reject state KernelTerminated
  | _, _ => reject state InputNotAccepted
  end.
End transition.

End kernel.
