(* ===== verification/KernelProofs.v ===== *)
(** What the turn kernel guarantees.

    [wf_state] is the invariant of every reachable state, [run] the accepted
    histories of a turn, and [protocol_step] the abstract turn protocol the
    transition function refines. *)

From S2P Require Import Prelude RustStr Kernel.
Import kernel.

(** ** Specification *)

(** Round limits for which every identifier sequence number fits a [u32]. *)
Definition rounds_ok (max : Z) : Prop := (0 ≤ max < 2 ^ 31 - 1)%Z.

Definition model_id_of (tid : string) (n : Z) : string := tid +:+ ":model-call:" +:+ display n.
Definition batch_id_of (tid : string) (n : Z) : string := tid +:+ ":tool-batch:" +:+ display n.
Definition effect_id_of (tid : string) (n : Z) : string := tid +:+ ":effect:" +:+ display n.

(** The messages of a turn as a provider requires them: the user message, then
    per round the assistant's tool calls followed by exactly their results. *)
Inductive paired : list TurnMessage → Prop :=
| paired_user u : paired [User u]
| paired_round tr b bs rs :
    paired tr →
    valid_calls (filter_map block_call bs) = true →
    matching_results (filter_map block_call bs) rs = true →
    paired (tr ++ AssistantToolCalls b bs :: (ToolResult <$> rs)).

Definition wf_state (s : KernelState) : Prop :=
  match inner s with
  | ExpectingTurnStart => True
  | ExpectingModelCompletion e m used max tid tr =>
      rounds_ok max ∧ (0 ≤ used ≤ max)%Z ∧ m = model_id_of tid (used + 1) ∧
      e = effect_id_of tid (2 * (used + 1) - 1) ∧ paired tr
  | ExpectingToolBatchCompletion e b round max tid tr calls =>
      rounds_ok max ∧ (1 ≤ round ≤ max)%Z ∧ b = batch_id_of tid round ∧
      e = effect_id_of tid (2 * round) ∧ valid_calls calls = true ∧
      ∃ tr0 bs, paired tr0 ∧ tr = tr0 ++ [AssistantToolCalls b bs] ∧
                calls = filter_map block_call bs
  | Terminated _ _ => True
  end.

Definition wf_input (i : KernelInput) : Prop :=
  match i with BeginTurn _ _ max => rounds_ok max | _ => True end.

(** The effect whose completion the state waits for. *)
Definition outstanding (s : KernelState) : option EffectId :=
  match inner s with
  | ExpectingModelCompletion e _ _ _ _ _ | ExpectingToolBatchCompletion e _ _ _ _ _ _ => Some e
  | _ => None
  end.

Definition is_terminated (s : KernelState) : bool :=
  match inner s with Terminated _ _ => true | _ => false end.

Definition effect_id_of_effect (e : KernelEffect) : EffectId :=
  match e with RequestModel e _ _ _ | ExecuteToolBatch e _ _ => e end.

(** The inputs a state accepts. *)
Definition enabled (s : KernelState) (i : KernelInput) : Prop :=
  match inner s, i with
  | ExpectingTurnStart, BeginTurn _ _ _ => True
  | ExpectingModelCompletion e _ used max _ _, ModelCallCompleted e' output =>
      e' = e ∧ unsupported output = false ∧
      (Forall (λ b, is_tool_call b = false) (blocks output) ∨
       (used < max)%Z ∧ valid_calls (filter_map block_call (blocks output)) = true)
  | ExpectingToolBatchCompletion e _ _ _ _ _ calls, ToolBatchCompleted e' results =>
      e' = e ∧ call_id <$> calls = result_call_id <$> results
  | ExpectingModelCompletion e _ _ _ _ _, (TerminationRequested e' _ | CancelRequested e')
  | ExpectingToolBatchCompletion e _ _ _ _ _ _,
      (TerminationRequested e' _ | CancelRequested e') => e' = e
  | _, _ => False
  end.

(** Accepted histories: the transitions taken so far and the state reached. *)
Inductive run `{Build} : list KernelTransition → KernelState → Prop :=
| run_nil : run [] initial_state
| run_snoc ts s i t :
    run ts s → wf_input i → transition s i = Ok t → run (ts ++ [t]) (next_state t).

Definition history (ts : list KernelTransition) : list KernelObservation :=
  ts ≫= observations.

(** Rebuilds the turn's messages from the observations alone. *)
Definition replay_observation (tr : list TurnMessage) (o : KernelObservation)
    : list TurnMessage :=
  match o with
  | TurnBegan _ user => tr ++ [User user]
  | AssistantToolCallsAccepted _ b bs _ => tr ++ [AssistantToolCalls b bs]
  | ToolResultsAccepted _ rs => tr ++ (ToolResult <$> rs)
  | _ => tr
  end.

Definition transcript_of (s : KernelState) : option (list TurnMessage) :=
  match inner s with
  | ExpectingTurnStart => Some []
  | ExpectingModelCompletion _ _ _ _ _ tr | ExpectingToolBatchCompletion _ _ _ _ _ tr _ => Some tr
  | Terminated _ _ => None
  end.

(** The abstract protocol: which phase follows which, with the tool rounds used. *)
Inductive protocol_phase : Type :=
| PStart
| PModel (max used : Z)
| PTools (max round : Z)
| PDone (out : TurnOutcome).

Inductive protocol_step : protocol_phase → protocol_phase → Prop :=
| step_begin max : rounds_ok max → protocol_step PStart (PModel max 0)
| step_answer max used : protocol_step (PModel max used) (PDone Succeeded)
| step_tools max used : (used < max)%Z → protocol_step (PModel max used) (PTools max (used + 1))
| step_results max round : protocol_step (PTools max round) (PModel max round)
| step_fail_model max used : protocol_step (PModel max used) (PDone Failed)
| step_fail_tools max round : protocol_step (PTools max round) (PDone Failed)
| step_cancel_model max used : protocol_step (PModel max used) (PDone Cancelled)
| step_cancel_tools max round : protocol_step (PTools max round) (PDone Cancelled).

Definition abstract_phase (s : KernelState) : protocol_phase :=
  match inner s with
  | ExpectingTurnStart => PStart
  | ExpectingModelCompletion _ _ used max _ _ => PModel max used
  | ExpectingToolBatchCompletion _ _ round max _ _ _ => PTools max round
  | Terminated out _ => PDone out
  end.

(** Accepted inputs still possible; it drops with every accepted input. *)
Definition remaining (s : KernelState) : Z :=
  match inner s with
  | ExpectingTurnStart => 2 ^ 33
  | ExpectingModelCompletion _ _ used max _ _ => 2 * (max - used) + 1
  | ExpectingToolBatchCompletion _ _ round max _ _ _ => 2 * (max - round) + 2
  | Terminated _ _ => 0
  end.

(** The sequence number of the latest effect, 0 before the turn begins. *)
Definition effect_seq (s : KernelState) : option (string * Z) :=
  match inner s with
  | ExpectingModelCompletion _ _ used _ tid _ => Some (tid, 2 * (used + 1) - 1)%Z
  | ExpectingToolBatchCompletion _ _ round _ tid _ _ => Some (tid, 2 * round)%Z
  | _ => None
  end.

(** ** Lemmas *)
Create HintDb kernel.

Lemma in_u32_rounds max z : rounds_ok max → (0 ≤ z ≤ 2 * max + 1)%Z → in_u32 z.
Proof. unfold rounds_ok, in_u32, u32_max. lia. Qed.

Lemma effect_id_of_inj tid a b :
  (0 ≤ a)%Z → (0 ≤ b)%Z → effect_id_of tid a = effect_id_of tid b → a = b.
Proof.
  unfold effect_id_of. intros ?? Heq%string_app_inj_l%string_app_inj_l.
  by apply display_inj.
Qed.

Lemma valid_calls_true calls :
  valid_calls calls = true ↔
  calls ≠ [] ∧ NoDup (call_id <$> calls) ∧
  Forall (λ c, call_id c ≠ "" ∧ trim (call_name c) ≠ "") calls.
Proof.
  unfold valid_calls. rewrite !andb_true_iff, negb_true_iff, is_nil_false, all_Forall,
    bool_decide_eq_true, <- (length_fmap call_id), distinct_count_NoDup.
  assert (∀ c, valid_call c = true ↔ call_id c ≠ "" ∧ trim (call_name c) ≠ "") as Hv.
  { intros c. unfold valid_call. rust_bool. done. }
  rewrite (Forall_iff _ _ _ Hv). tauto.
Qed.

Lemma matching_results_true calls results :
  matching_results calls results = true ↔ call_id <$> calls = result_call_id <$> results.
Proof.
  unfold matching_results. rewrite andb_true_iff, bool_decide_eq_true.
  revert results. induction calls as [|c calls IH]; intros [|r rs]; simpl; [naive_solver..|].
  rewrite andb_true_iff, bool_decide_eq_true. specialize (IH rs). split.
  - intros [? [-> ?]]. f_equal. apply IH. naive_solver.
  - intros [= -> Hr]. apply IH in Hr. naive_solver.
Qed.

Lemma contains_tool_call_false output :
  contains_tool_call output = false ↔ Forall (λ b, is_tool_call b = false) (blocks output).
Proof. apply any_false. Qed.

(** A block list contains a tool call exactly when extraction finds one: the
    [expect] in [complete_model] never fails. *)
Lemma tool_call_batch_spec output :
  tool_call_batch output =
    if contains_tool_call output then Some (filter_map block_call (blocks output)) else None.
Proof.
  unfold tool_call_batch, contains_tool_call. induction (blocks output) as [|b bs IH]; [done|].
  destruct b; simpl in *; [|done]. exact IH.
Qed.

Lemma model_call_ids_ok `{Build} tid n max :
  rounds_ok max → (1 ≤ n ≤ max + 1)%Z →
  model_call_ids tid n = Ok (model_id_of tid n, effect_id_of tid (2 * n - 1)).
Proof.
  intros Hmax Hn. unfold model_call_ids.
  rewrite u32_checked_in by (unfold in_u32, u32_max, rounds_ok in *; lia). simpl.
  by rewrite u32_checked_in by (unfold in_u32, u32_max, rounds_ok in *; lia).
Qed.

Lemma tool_batch_ids_ok `{Build} tid n max :
  rounds_ok max → (1 ≤ n ≤ max)%Z →
  tool_batch_ids tid n = Ok (batch_id_of tid n, effect_id_of tid (2 * n)).
Proof.
  intros Hmax Hn. unfold tool_batch_ids.
  by rewrite u32_checked_in by (unfold in_u32, u32_max, rounds_ok in *; lia).
Qed.

(** What an accepted transition does, handler by handler. *)
Inductive accepted : KernelState → KernelInput → KernelTransition → Prop :=
| acc_begin tid u max :
    accepted {| inner := ExpectingTurnStart |} (BeginTurn tid u max)
      (let s := {| inner := ExpectingModelCompletion (effect_id_of tid 1) (model_id_of tid 1)
                              0 max tid [User u] |} in
       {| next_state := s; transition_phase := phase s;
          observations := [TurnBegan tid u;
                           ModelCallRequested (model_id_of tid 1) (effect_id_of tid 1)];
          durability := BeforeNextEffect;
          effect := Some (RequestModel (effect_id_of tid 1) (model_id_of tid 1) [User u]
                            (bool_decide (0 < max)%Z)) |})
| acc_tools e m used max tid tr output :
    unsupported output = false → contains_tool_call output = true → (used < max)%Z →
    valid_calls (filter_map block_call (blocks output)) = true →
    accepted {| inner := ExpectingModelCompletion e m used max tid tr |}
      (ModelCallCompleted e output)
      (let calls := filter_map block_call (blocks output) in
       let b := batch_id_of tid (used + 1) in
       let e' := effect_id_of tid (2 * (used + 1)) in
       let s := {| inner := ExpectingToolBatchCompletion e' b (used + 1) max tid
                              (tr ++ [AssistantToolCalls b (blocks output)]) calls |} in
       {| next_state := s; transition_phase := phase s;
          observations := [AssistantToolCallsAccepted m b (blocks output) calls;
                           ToolBatchRequested b e'];
          durability := BeforeNextEffect;
          effect := Some (ExecuteToolBatch e' b calls) |})
| acc_answer e m used max tid tr output :
    unsupported output = false → contains_tool_call output = false →
    accepted {| inner := ExpectingModelCompletion e m used max tid tr |}
      (ModelCallCompleted e output)
      (let s := {| inner := Terminated Succeeded e |} in
       {| next_state := s; transition_phase := phase s;
          observations := [AssistantOutputAccepted m output; TurnTerminated Succeeded];
          durability := BeforeSettlement; effect := None |})
| acc_results e b round max tid tr calls results :
    matching_results calls results = true →
    accepted {| inner := ExpectingToolBatchCompletion e b round max tid tr calls |}
      (ToolBatchCompleted e results)
      (let m := model_id_of tid (round + 1) in
       let e' := effect_id_of tid (2 * (round + 1) - 1) in
       let tr' := tr ++ (ToolResult <$> results) in
       let s := {| inner := ExpectingModelCompletion e' m round max tid tr' |} in
       {| next_state := s; transition_phase := phase s;
          observations := [ToolResultsAccepted b results; ModelCallRequested m e'];
          durability := BeforeNextEffect;
          effect := Some (RequestModel e' m tr' (bool_decide (round < max)%Z)) |})
| acc_fail s e failure :
    outstanding s = Some e →
    accepted s (TerminationRequested e failure)
      (let s' := {| inner := Terminated Failed e |} in
       {| next_state := s'; transition_phase := phase s';
          observations := [TurnFailureAccepted e failure; TurnTerminated Failed];
          durability := BeforeSettlement; effect := None |})
| acc_cancel s e :
    outstanding s = Some e →
    accepted s (CancelRequested e)
      (let s' := {| inner := Terminated Cancelled e |} in
       {| next_state := s'; transition_phase := phase s';
          observations := [TurnTerminated Cancelled];
          durability := BeforeSettlement; effect := None |}).

Section handlers.
Context `{Build}.

Lemma begin_accepted tid u max t :
  begin tid u max = Ok t ↔
  accepted {| inner := ExpectingTurnStart |} (BeginTurn tid u max) t.
Proof.
  unfold begin. rewrite (model_call_ids_ok _ 1 1) by (unfold rounds_ok; lia). simpl.
  split; [intros [= <-]; apply acc_begin|by inversion 1].
Qed.

Lemma complete_model_accepted e m used max tid tr e' output t :
  rounds_ok max → (0 ≤ used ≤ max)%Z →
  complete_model e m used max tid tr e' output = Ok t ↔
  accepted {| inner := ExpectingModelCompletion e m used max tid tr |}
    (ModelCallCompleted e' output) t.
Proof.
  intros Hmax Hused. unfold complete_model, is_unsupported, mismatch.
  rewrite tool_call_batch_spec.
  destruct (bool_decide (e' = e)) eqn:He; rust_bool; simpl; [subst e'|by split; inversion 1].
  destruct (unsupported output) eqn:Hu; [split; [done|inversion 1; congruence]|].
  destruct (contains_tool_call output) eqn:Hc; simpl.
  - destruct (bool_decide (used < max)%Z) eqn:Hlt; rust_bool; simpl;
      [|split; [done|inversion 1; congruence]].
    destruct (valid_calls _) eqn:Hv; simpl; [|split; [done|inversion 1; congruence]].
    rewrite u32_checked_in by (apply (in_u32_rounds max); [done|lia]). simpl.
    rewrite (tool_batch_ids_ok _ _ max) by (done || lia). simpl.
    split; [intros [= <-]; by apply acc_tools|by inversion 1; subst; try congruence].
  - split; [intros [= <-]; by apply acc_answer|by inversion 1; subst; try congruence].
Qed.

Lemma complete_tools_accepted e b round max tid tr calls e' results t :
  rounds_ok max → (1 ≤ round ≤ max)%Z →
  complete_tools e b round max tid tr calls e' results = Ok t ↔
  accepted {| inner := ExpectingToolBatchCompletion e b round max tid tr calls |}
    (ToolBatchCompleted e' results) t.
Proof.
  intros Hmax Hround. unfold complete_tools, mismatch.
  destruct (bool_decide (e' = e)) eqn:He; rust_bool; simpl; [subst e'|by split; inversion 1].
  destruct (matching_results calls results) eqn:Hm; simpl;
    [|split; [done|inversion 1; congruence]].
  rewrite u32_checked_in by (apply (in_u32_rounds max); [done|lia]). simpl.
  rewrite (model_call_ids_ok _ _ max) by (done || lia). simpl.
  split; [intros [= <-]; by apply acc_results|by inversion 1].
Qed.

Lemma terminate_accepted s e e' failure t :
  outstanding s = Some e →
  terminate s e e' failure = Ok t ↔ accepted s (TerminationRequested e' failure) t.
Proof.
  intros He. unfold terminate, mismatch.
  destruct (bool_decide (e' = e)) eqn:Heq; rust_bool; simpl.
  - subst e'. split; [intros [= <-]; by apply acc_fail|by inversion 1].
  - split; [done|inversion 1; congruence].
Qed.

Lemma cancel_accepted s e e' t :
  outstanding s = Some e →
  cancel s e e' = Ok t ↔ accepted s (CancelRequested e') t.
Proof.
  intros He. unfold cancel, mismatch.
  destruct (bool_decide (e' = e)) eqn:Heq; rust_bool; simpl.
  - subst e'. split; [intros [= <-]; by apply acc_cancel|by inversion 1].
  - split; [done|inversion 1; congruence].
Qed.

Lemma reject_accepted s i r t : ¬ accepted s i t → reject s r = Ok t ↔ accepted s i t.
Proof. by unfold reject. Qed.

(** The transition function takes exactly the [accepted] steps. *)
Lemma transition_accepted s i t :
  wf_state s → transition s i = Ok t ↔ accepted s i t.
Proof.
  intros Hs. unfold transition.
  destruct s as [[|e m used max tid tr|e b round max tid tr calls|out e]],
    i as [tid' u max'|e' output|e' results|e' failure|e']; simpl;
    try (apply reject_accepted; by inversion 1).
  all: try by apply terminate_accepted.
  all: try by apply cancel_accepted.
  - apply begin_accepted.
  - apply complete_model_accepted; apply Hs.
  - apply complete_tools_accepted; apply Hs.
  - case_bool_decide; apply reject_accepted; by inversion 1.
  - case_bool_decide; apply reject_accepted; by inversion 1.
Qed.

(** No handler panics under the round bound. *)
Lemma transition_no_panic s i : wf_state s → transition s i ≠ Panic.
Proof.
  intros Hs. unfold transition, reject, terminate, cancel, mismatch.
  destruct s as [[|e m used max tid tr|e b round max tid tr calls|out e]],
    i as [tid' u max'|e' output|e' results|e' failure|e']; simpl;
    repeat case_bool_decide; try done.
  - destruct Hs as (Hmax & Hused & _). unfold complete_model, mismatch, is_unsupported.
    rewrite tool_call_batch_spec.
    destruct (bool_decide (e' = e)), (unsupported output), (contains_tool_call output);
      simpl; try done.
    case_bool_decide; simpl; [|done]. destruct (valid_calls _); simpl; [|done].
    rewrite u32_checked_in by (apply (in_u32_rounds max); [done|lia]). simpl.
    by rewrite (tool_batch_ids_ok _ _ max) by (done || lia).
  - destruct Hs as (Hmax & Hround & _). unfold complete_tools, mismatch.
    destruct (bool_decide (e' = e)), (matching_results calls results); simpl; try done.
    rewrite u32_checked_in by (apply (in_u32_rounds max); [done|lia]). simpl.
    by rewrite (model_call_ids_ok _ _ max) by (done || lia).
Qed.

(** Every rejection reports the phase of the state it leaves unchanged. *)
Lemma transition_Err_phase s i ph r :
  transition s i = Err {| rejection_phase := ph; reason := r |} → ph = phase s.
Proof.
  unfold transition, begin, complete_model, complete_tools, terminate, cancel, reject,
    mismatch, model_call_ids, tool_batch_ids, u32_checked, expect.
  destruct s as [[]], i; unfold phase; simpl; intros Ht;
    repeat (case_match; simpl in Ht); congruence.
Qed.

Lemma accepted_wf s i t :
  wf_state s → wf_input i → accepted s i t → wf_state (next_state t).
Proof.
  destruct 3; simpl in *; unfold wf_state; simpl; try done.
  - split_and!; [done|unfold rounds_ok in *; lia..|done|done|constructor].
  - destruct H0 as (?&?&?&?&?). split_and!; try done; [lia..|]. eauto.
  - destruct H0 as (?&?&->&->&?&tr0&bs&?&->&->). split_and!; try done; [lia..|].
    rewrite <- app_assoc. by apply paired_round.
Qed.

Lemma transition_wf s i t :
  wf_state s → wf_input i → transition s i = Ok t → wf_state (next_state t).
Proof. intros Hs Hi Ht%transition_accepted; eauto using accepted_wf. Qed.

Lemma run_wf ts s : run ts s → wf_state s.
Proof. induction 1; [done|]. eauto using transition_wf. Qed.

Lemma accepted_enabled s i t : accepted s i t → enabled s i.
Proof.
  destruct 1; simpl; try done.
  - split_and!; try done. right. done.
  - split_and!; try done. left. by apply contains_tool_call_false.
  - split; [done|]. by apply matching_results_true.
  - destruct s as [[]]; unfold outstanding, enabled in *; simpl in *; congruence.
  - destruct s as [[]]; unfold outstanding, enabled in *; simpl in *; congruence.
Qed.

Lemma enabled_accepted s i : enabled s i → ∃ t, accepted s i t.
Proof.
  destruct s as [[|e m used max tid tr|e b round max tid tr calls|out e]],
    i as [tid' u max'|e' output|e' results|e' failure|e']; simpl; try done.
  - intros _. eexists. apply acc_begin.
  - intros (-> & Hu & Hor). destruct (contains_tool_call output) eqn:Hc.
    + destruct Hor as [Hno%contains_tool_call_false|[Hlt Hv]]; [congruence|].
      eexists. by apply acc_tools.
    + eexists. by apply acc_answer.
  - intros ->. eexists. by apply acc_fail.
  - intros ->. eexists. by apply acc_cancel.
  - intros [-> Hm]. eexists. apply acc_results. by apply matching_results_true.
  - intros ->. eexists. by apply acc_fail.
  - intros ->. eexists. by apply acc_cancel.
Qed.
End handlers.

#[export] Hint Resolve transition_wf run_wf : kernel.

Definition effect_ids (ts : list KernelTransition) : list EffectId :=
  filter_map (λ t, effect_id_of_effect <$> effect t) ts.

Section runs.
Context `{Build}.

(** The [n]-th effect of a run carries sequence number [n]. *)
Lemma run_effect_ids ts s :
  run ts s →
  ∃ tid n, effect_ids ts = (λ k, effect_id_of tid (Z.of_nat k)) <$> seq 1 n ∧
    match inner s with
    | ExpectingTurnStart => n = 0
    | Terminated _ _ => True
    | _ => effect_seq s = Some (tid, Z.of_nat n)
    end.
Proof.
  induction 1 as [|ts s i t Hrun IH Hi Ht]; [by exists "", 0|].
  apply transition_accepted in Ht; [|by eapply run_wf].
  destruct IH as (tid & n & Hids & Hn). unfold effect_ids in *.
  rewrite filter_map_snoc, Hids.
  assert (∀ m : Z, m = Z.of_nat (S n) → effect_id_of tid m =
            effect_id_of tid (Z.of_nat (S n))) as Hm by (by intros ? ->).
  destruct Ht; simpl in *; unfold effect_seq in *; simpl in *.
  - subst n. by exists tid0, 1.
  - injection Hn as <- Hn. exists tid0, (S n). rewrite seq_S, fmap_app. simpl.
    split; [|f_equal; f_equal; lia]. do 3 f_equal. lia.
  - exists tid, n. by rewrite app_nil_r.
  - injection Hn as <- Hn. exists tid0, (S n). rewrite seq_S, fmap_app. simpl.
    split; [|f_equal; f_equal; lia]. do 3 f_equal. lia.
  - exists tid, n. by rewrite app_nil_r.
  - exists tid, n. by rewrite app_nil_r.
Qed.

Lemma run_transcript ts s tr :
  run ts s → transcript_of s = Some tr → foldl replay_observation [] (history ts) = tr.
Proof.
  intros Hrun. revert tr. induction Hrun as [|ts s i t Hrun IH Hi Ht]; intros tr.
  { by intros [= <-]. }
  apply transition_accepted in Ht; [|by eapply run_wf]. unfold history in *.
  rewrite bind_app, foldl_app. unfold transcript_of in *.
  destruct Ht; simpl in *; intros [= <-]; (erewrite IH; [|reflexivity]); done.
Qed.

Lemma remaining_pos s : wf_state s → (0 ≤ remaining s)%Z.
Proof. destruct s as [[]]; unfold wf_state, remaining, rounds_ok; simpl; lia. Qed.

Lemma accepted_remaining s i t :
  wf_state s → wf_input i → accepted s i t → (remaining (next_state t) < remaining s)%Z.
Proof.
  intros Hs Hi Ha. assert (wf_state (next_state t)) as Hn by eauto using accepted_wf.
  destruct Ha as [| | | |s e failure He|s e He]; simpl in *;
    unfold remaining, wf_state, rounds_ok, outstanding in *; simpl in *; try lia.
  - destruct s as [[]]; simpl in *; [done|lia|lia|done].
  - destruct s as [[]]; simpl in *; [done|lia|lia|done].
Qed.

(** The round limit a run was begun with. *)
Definition begun_with (max : Z) (s : KernelState) : Prop :=
  match inner s with
  | ExpectingModelCompletion _ _ _ m _ _ | ExpectingToolBatchCompletion _ _ _ m _ _ _ => m = max
  | ExpectingTurnStart => False
  | Terminated _ _ => True
  end.

Lemma run_length_remaining ts s :
  run ts s →
  match ts with
  | [] => s = initial_state
  | t0 :: _ => ∃ tid u max, rounds_ok max ∧
      transition initial_state (BeginTurn tid u max) = Ok t0 ∧ begun_with max s ∧
      (Z.of_nat (length ts) + remaining s ≤ 2 * max + 2)%Z
  end.
Proof.
  induction 1 as [|ts s i t Hrun IH Hi Ht]; [done|].
  pose proof Ht as Ha. apply transition_accepted in Ha; [|by eapply run_wf].
  destruct ts as [|t0 ts]; simpl.
  - subst s. destruct i as [tid u max| | | |]; try done.
    exists tid, u, max. inversion Ha; subst. simpl in *.
    split_and!; [done..|]. unfold remaining; simpl. unfold wf_input in Hi. lia.
  - destruct IH as (tid & u & max & Hmax & Ht0 & Hb & Hlen).
    exists tid, u, max. split_and!; [done..| |].
    + destruct Ha; simpl in *; unfold begun_with in *; simpl in *; done.
    + pose proof (accepted_remaining _ _ _ (run_wf _ _ Hrun) Hi Ha).
      rewrite length_app. simpl in *. lia.
Qed.
End runs.

(** ** Properties *)

(** C33: Refinement of the turn protocol, both ways: every accepted input moves
    the kernel along a step of the abstract protocol (answer, tool round below
    the limit, results, failure, cancellation), and every step the protocol
    offers from the current phase is taken by some input. *)
Theorem kernel_refines_protocol `{Build} s :
  wf_state s →
  (∀ i t, wf_input i → transition s i = Ok t →
     protocol_step (abstract_phase s) (abstract_phase (next_state t))) ∧
  (∀ p, protocol_step (abstract_phase s) p →
     ∃ i t, wf_input i ∧ transition s i = Ok t ∧ abstract_phase (next_state t) = p).
Proof.
  intros Hs. split.
  - intros i t Hi Ht%transition_accepted; [|done].
    destruct Ht as [| | | |s e f He|s e He]; unfold abstract_phase; simpl; try by constructor.
    all: destruct s as [[]]; unfold outstanding in He; simpl in *; try done; constructor.
  - intros p Hp.
    assert (∃ i t, wf_input i ∧ accepted s i t ∧ abstract_phase (next_state t) = p)
      as (i & t & ? & ? & ?).
    { destruct s as [[|e m used max tid tr|e b round max tid tr calls|out e]];
        unfold abstract_phase in Hp; simpl in Hp; inversion Hp; subst.
      - exists (BeginTurn "t" {| parts := [] |} max). eexists. split; [done|].
        split; [apply acc_begin|done].
      - exists (ModelCallCompleted e {| blocks := []; unsupported := false |}). eexists.
        split; [done|]. split; [by apply acc_answer|done].
      - exists (ModelCallCompleted e {| blocks := [ToolCallBlock
          {| call_id := "c"; call_name := "n"; call_arguments := "" |}]; unsupported := false |}).
        eexists. split; [done|]. split; [by apply acc_tools|done].
      - exists (TerminationRequested e (ModelCallFailed "")). eexists.
        split; [done|]. split; [by apply acc_fail|done].
      - exists (CancelRequested e). eexists. split; [done|]. split; [by apply acc_cancel|done].
      - exists (ToolBatchCompleted e ((λ c,
          {| result_call_id := call_id c; result_outcome := Success "" |}) <$> calls)).
        eexists. split; [done|]. split; [apply acc_results|done].
        apply matching_results_true. rewrite <- list_fmap_compose. by apply list_fmap_ext.
      - exists (TerminationRequested e (ModelCallFailed "")). eexists.
        split; [done|]. split; [by apply acc_fail|done].
      - exists (CancelRequested e). eexists. split; [done|]. split; [by apply acc_cancel|done]. }
    exists i, t. by rewrite transition_accepted.
Qed.

(** C34: Acceptance and errors: in a well-formed state an input is accepted
    exactly when it is [enabled] (the outstanding effect's own completion with
    valid content, or a failure or cancel for that effect); any other input is
    an error that reports the current phase, and nothing panics. *)
Theorem kernel_acceptance `{Build} s i :
  wf_state s →
  (enabled s i → ∃ t, transition s i = Ok t ∧ (wf_input i → wf_state (next_state t))) ∧
  (¬ enabled s i → ∃ r, transition s i = Err {| rejection_phase := phase s; reason := r |}).
Proof.
  intros Hs. split.
  - intros (t & Ha)%enabled_accepted. exists t. split; [by apply transition_accepted|].
    intros. by eapply accepted_wf.
  - intros Hne. destruct (transition s i) as [t|[ph r]|] eqn:Ht.
    + destruct Hne. apply transition_accepted in Ht; [|done]. by eapply accepted_enabled.
    + exists r. do 2 f_equal. by eapply transition_Err_phase.
    + by apply transition_no_panic in Ht.
Qed.

(** C38: Termination: a turn begun with [max] tool rounds accepts at most
    [2 * max + 2] inputs in all, whatever the driver sends, and from every
    reachable state that is begun and not terminated the cancel of the
    outstanding effect is accepted and ends the turn. *)
Theorem kernel_turn_terminates `{Build} ts s :
  run ts s →
  (∀ t0 ts', ts = t0 :: ts' → ∃ tid u max,
     transition initial_state (BeginTurn tid u max) = Ok t0 ∧
     (Z.of_nat (length ts) ≤ 2 * max + 2)%Z) ∧
  (∀ e, outstanding s = Some e → ∃ t,
     transition s (CancelRequested e) = Ok t ∧ inner (next_state t) = Terminated Cancelled e).
Proof.
  intros Hrun. split.
  - intros t0 ts' ->. apply run_length_remaining in Hrun as Hlen.
    destruct Hlen as (tid & u & max & ? & ? & ? & ?).
    exists tid, u, max. split; [done|]. pose proof (remaining_pos s (run_wf _ _ Hrun)). lia.
  - intros e He. eexists. split; [apply transition_accepted; [by eapply run_wf|]|].
    + by apply acc_cancel.
    + done.
Qed.

(** Effect identity: along a run the [n]-th effect handed to the driver has
    the identifier [<turn>:effect:<n>], so no two effects of a turn share an
    identifier, and the state waits for exactly the effect it last handed out. *)
Theorem kernel_effects_numbered `{Build} ts s :
  run ts s →
  (∃ tid n, effect_ids ts = (λ k, effect_id_of tid (Z.of_nat k)) <$> seq 1 n) ∧
  NoDup (effect_ids ts) ∧
  (∀ e, outstanding s = Some e → last (effect_ids ts) = Some e).
Proof.
  intros Hrun. destruct (run_effect_ids _ _ Hrun) as (tid & n & Hids & Hn).
  split; [by exists tid, n|]. split.
  - rewrite Hids. apply NoDup_fmap_2_strong; [|apply NoDup_seq].
    intros a b _ _ Heq%effect_id_of_inj; lia.
  - intros e He. pose proof (run_wf _ _ Hrun) as Hwf. rewrite Hids.
    destruct s as [[|e' m used max tid' tr|e' b round max tid' tr calls|out e']];
      unfold outstanding, effect_seq, wf_state in *; simpl in *; try done;
      injection He as <-; injection Hn as <- Hn.
    + destruct Hwf as (? & ? & ? & -> & ?). destruct n as [|n]; [lia|].
      rewrite last_fmap_seq. do 2 f_equal. lia.
    + destruct Hwf as (? & ? & ? & -> & ?). destruct n as [|n]; [lia|].
      rewrite last_fmap_seq. do 2 f_equal. lia.
Qed.

(** Event sourcing: the messages the kernel holds for the turn are the fold
    of the observations it has published, so a driver that records the
    observations can rebuild what each model call was sent. *)
Theorem kernel_transcript_from_observations `{Build} ts s :
  run ts s →
  (∀ tr, transcript_of s = Some tr → foldl replay_observation [] (history ts) = tr) ∧
  (∀ i t, wf_input i → transition s i = Ok t →
     match effect t with
     | Some (RequestModel _ _ msgs _) => foldl replay_observation [] (history (ts ++ [t])) = msgs
     | _ => True
     end).
Proof.
  intros Hrun. split; [by intros; eapply run_transcript|].
  intros i t Hi Ht. assert (run (ts ++ [t]) (next_state t)) as Hrun' by by eapply run_snoc.
  apply transition_accepted in Ht; [|by eapply run_wf].
  destruct Ht; simpl in *; try done; by eapply run_transcript.
Qed.

(** Model requests are well formed: every model call of a run is sent the
    user message followed by complete rounds (each assistant tool-call message
    directly followed by the results of exactly its calls, in order), and tools
    are offered exactly while the round limit is not used up. *)
Theorem kernel_requests_paired `{Build} ts s i t :
  run ts s → wf_input i → transition s i = Ok t →
  match effect t with
  | Some (RequestModel _ _ msgs tools_allowed) =>
      paired msgs ∧
      ∃ used max, abstract_phase (next_state t) = PModel max used ∧ (0 ≤ used ≤ max)%Z ∧
        (tools_allowed = true ↔ (used < max)%Z)
  | Some (ExecuteToolBatch _ _ calls) =>
      valid_calls calls = true ∧
      ∃ round max, abstract_phase (next_state t) = PTools max round ∧ (1 ≤ round ≤ max)%Z
  | None => is_terminated (next_state t) = true
  end.
Proof.
  intros Hrun Hi Ht. pose proof (transition_wf _ _ _ (run_wf _ _ Hrun) Hi Ht) as Hwf.
  apply transition_accepted in Ht; [|by eapply run_wf].
  destruct Ht; unfold wf_state, abstract_phase in *; simpl in *; try done.
  - destruct Hwf as (? & ? & ? & ? & ?). split; [done|]. exists 0%Z, max.
    by rewrite bool_decide_eq_true.
  - destruct Hwf as (? & ? & ?). split; [done|]. by eexists _, _.
  - destruct Hwf as (? & ? & ? & ? & ?). split; [done|]. exists round, max.
    by rewrite bool_decide_eq_true.
Qed.

(** Settlement: a transition hands out no effect exactly when it ends the
    turn, exactly then its observations end with [TurnTerminated] and must be
    durable before settlement; and a terminated kernel accepts nothing more,
    telling a repeated completion of its last effect from any other input. *)
Theorem kernel_settlement `{Build} s i t :
  wf_state s → transition s i = Ok t →
  (effect t = None ↔ is_terminated (next_state t) = true) ∧
  (durability t = BeforeSettlement ↔ is_terminated (next_state t) = true) ∧
  (∀ out, last (observations t) = Some (TurnTerminated out) ↔
          abstract_phase (next_state t) = PDone out) ∧
  (is_terminated (next_state t) = true → ∃ e, outstanding s = Some e ∧
     ∀ i', transition (next_state t) i' =
       reject (next_state t)
         (match i' with
          | ModelCallCompleted e' _ | ToolBatchCompleted e' _ =>
              if bool_decide (e' = e) then EffectAlreadyCompleted e' else KernelTerminated
          | _ => KernelTerminated
          end)).
Proof.
  intros Hs Ht%transition_accepted; [|done].
  assert (∀ out e i', transition {| inner := Terminated out e |} i' =
    reject {| inner := Terminated out e |}
      (match i' with
       | ModelCallCompleted e' _ | ToolBatchCompleted e' _ =>
           if bool_decide (e' = e) then EffectAlreadyCompleted e' else KernelTerminated
       | _ => KernelTerminated
       end)) as Hterm.
  { intros out e i'. destruct i'; unfold transition; simpl; try done; by case_bool_decide. }
  destruct Ht; unfold is_terminated, abstract_phase; simpl.
  all: split_and!; try by split.
  all: try by (intros out; split; intros [= <-]).
  all: try done.
  all: intros _; eexists; split; [done|]; apply Hterm.
Qed.

(** Overflow bound: for round limits from [2^31 - 1] on the identifier
    arithmetic leaves [u32]. Model call [2^31] panics in a build with overflow
    checks, and without them model call [2^31 + 1] reuses the effect identifier
    of the first call. *)
Theorem kernel_round_overflow tid :
  model_call_ids (H := dev) tid (2 ^ 31) = Panic ∧
  snd <$> model_call_ids (H := release) tid (2 ^ 31 + 1) = Ok (effect_id_of tid 1) ∧
  snd <$> model_call_ids (H := release) tid 1 = Ok (effect_id_of tid 1).
Proof. split_and!; reflexivity. Qed.

(** ** A concrete turn

    One tool round under a limit of one, used to instantiate the properties. *)
Module demo.
Definition dummy : KernelTransition :=
  {| next_state := initial_state; transition_phase := PhaseTurnStart; observations := [];
     durability := BeforeSettlement; effect := None |}.
Definition step (s : KernelState) (i : KernelInput) : KernelTransition :=
  match transition (H := release) s i with Ok t => t | _ => dummy end.
Definition user : UserMessage := {| parts := [UserText "list the files"] |}.
Definition call : KernelToolCall :=
  {| call_id := "c1"; call_name := "list"; call_arguments := "{}" |}.
Definition i1 : KernelInput := BeginTurn "t1" user 1.
Definition i2 : KernelInput := ModelCallCompleted "t1:effect:1"
  {| blocks := [TextBlock "looking"; ToolCallBlock call]; unsupported := false |}.
Definition i3 : KernelInput := ToolBatchCompleted "t1:effect:2"
  [{| result_call_id := "c1"; result_outcome := Success "a.rs" |}].
Definition i4 : KernelInput := ModelCallCompleted "t1:effect:3"
  {| blocks := [TextBlock "done"]; unsupported := false |}.
Definition t1 : KernelTransition := step initial_state i1.
Definition t2 : KernelTransition := step (next_state t1) i2.
Definition t3 : KernelTransition := step (next_state t2) i3.
Definition t4 : KernelTransition := step (next_state t3) i4.

Lemma wf_i1 : wf_input i1.
Proof. unfold wf_input, i1, rounds_ok. lia. Qed.

Lemma run2 : run (H := release) [t1; t2] (next_state t2).
Proof.
  apply (run_snoc (H := release) [t1] (next_state t1) i2); [|done|reflexivity].
  apply (run_snoc (H := release) [] initial_state i1); [apply run_nil|apply wf_i1|reflexivity].
Qed.

Lemma run4 : run (H := release) [t1; t2; t3; t4] (next_state t4).
Proof.
  apply (run_snoc (H := release) [t1; t2; t3] (next_state t3) i4); [|done|reflexivity].
  apply (run_snoc (H := release) [t1; t2] (next_state t2) i3); [|done|reflexivity].
  apply run2.
Qed.
End demo.

Lemma kernel_refines_protocol_witness :
  protocol_step (abstract_phase initial_state) (abstract_phase (next_state demo.t1)).
Proof.
  refine (proj1 (kernel_refines_protocol (H := release) initial_state I) demo.i1 demo.t1 _ _).
  - apply demo.wf_i1.
  - reflexivity.
Defined.

Lemma kernel_acceptance_witness :
  ∃ r, transition (H := release) initial_state demo.i2 =
    Err {| rejection_phase := PhaseTurnStart; reason := r |}.
Proof. apply (proj2 (kernel_acceptance (H := release) initial_state demo.i2 I)). intros []. Defined.

Lemma kernel_turn_terminates_witness :
  ∃ tid u max, transition (H := release) initial_state (BeginTurn tid u max) = Ok demo.t1 ∧
    (Z.of_nat 4 ≤ 2 * max + 2)%Z.
Proof. exact (proj1 (kernel_turn_terminates (H := release) _ _ demo.run4) _ _ eq_refl). Defined.

Lemma kernel_effects_numbered_witness :
  last (effect_ids [demo.t1; demo.t2]) = Some "t1:effect:2".
Proof.
  exact (proj2 (proj2 (kernel_effects_numbered (H := release) _ _ demo.run2)) _ eq_refl).
Defined.

Lemma kernel_transcript_from_observations_witness :
  foldl replay_observation [] (history [demo.t1; demo.t2]) =
    [User demo.user;
     AssistantToolCalls "t1:tool-batch:1" [TextBlock "looking"; ToolCallBlock demo.call]].
Proof.
  exact (proj1 (kernel_transcript_from_observations (H := release) _ _ demo.run2) _ eq_refl).
Defined.

Lemma kernel_requests_paired_witness :
  paired [User demo.user;
          AssistantToolCalls "t1:tool-batch:1" [TextBlock "looking"; ToolCallBlock demo.call];
          ToolResult {| result_call_id := "c1"; result_outcome := Success "a.rs" |}] ∧
  ∃ used max, abstract_phase (next_state demo.t3) = PModel max used ∧ (0 ≤ used ≤ max)%Z ∧
    (false = true ↔ (used < max)%Z).
Proof.
  exact (kernel_requests_paired (H := release) _ _ demo.i3 demo.t3 demo.run2 I eq_refl).
Defined.

Lemma kernel_settlement_witness :
  effect demo.t4 = None ↔ is_terminated (next_state demo.t4) = true.
Proof.
  refine (proj1 (kernel_settlement (H := release) (next_state demo.t3) demo.i4 demo.t4 _ eq_refl)).
  apply (run_wf (H := release) [demo.t1; demo.t2; demo.t3]).
  apply (run_snoc (H := release) [demo.t1; demo.t2] (next_state demo.t2) demo.i3);
    [apply demo.run2|done|reflexivity].
Defined.
