(* ===== verification/Session.v ===== *)
(** The session crate (src/crates/philo-session): durable entry vocabulary,
    validation errors, and the projection that validates and folds every
    transaction.

    Module [session] follows [entry.rs], [error.rs], [tool_entry.rs],
    [usage.rs], [generation_choice.rs], [view.rs] and [projection/]. Identifier
    newtypes are their strings; [SessionRevision] and [usize] counters are
    [nat] (one step per committed transaction or entry). A [HashMap] is a
    [gmap]; where the code iterates one it sorts the result. *)

From S2P Require Import Prelude RustStr.

Module session.

Abbreviation SessionId := string.
Abbreviation EntryId := string.
Abbreviation OperationId := string.
Abbreviation TurnId := string.
Abbreviation ToolBatchId := string.
Abbreviation ToolCallId := string.
Abbreviation SessionRevision := nat.

(** ** generation_choice.rs, usage.rs, tool_entry.rs *)

Record SessionGenerationChoice : Type := {
  choice_provider : option string;
  choice_model_id : string;
  choice_reasoning_effort : option string
}.

Record SessionTokenUsage : Type := {
  input_tokens : option Z;
  output_tokens : option Z;
  cache_read_tokens : option Z;
  cache_write_tokens : option Z;
  reasoning_tokens : option Z
}.

(** [input?.checked_add(output?)] on [u64]. *)
Definition total_tokens (u : SessionTokenUsage) : option Z :=
  match input_tokens u, output_tokens u with
  | Some i, Some o => if bool_decide (i + o ≤ u64_max)%Z then Some (i + o)%Z else None
  | _, _ => None
  end.

Record SessionToolCall : Type := {
  call_id : ToolCallId;
  call_name : string;
  call_arguments : string
}.

Inductive ToolResultOutcome : Type :=
| Success (content : string)
| Error (code message : string)
| ResultCancelled
| ResultInterrupted.

Record SessionToolResult : Type := {
  result_call_id : ToolCallId;
  result_outcome : ToolResultOutcome
}.

(** ** entry.rs *)

Inductive CancelReason : Type := ReasonUser | ReasonTimeout | ReasonAbandoned.

Inductive TurnOutcome : Type :=
| TurnSucceeded
| TurnFailed
| TurnCancelled (reason : CancelReason).

Inductive OperationOutcome : Type :=
| OpSucceeded
| OpFailed
| OpCancelled (reason : CancelReason).

Inductive TurnFailureKind : Type :=
| FailModelCall | FailInvalidModelOutput | FailPersistence | FailRuntimeDriver
| FailToolExecution.

Record SessionTurnFailure : Type := {
  failure_kind : TurnFailureKind;
  failure_message : string
}.

Inductive SessionUserPart : Type :=
| PartText (text : string)
| PartImage (media_type : string) (bytes : list Byte.byte).

Inductive SessionAssistantBlock : Type :=
| BlockText (text : string)
| BlockToolCall (call : SessionToolCall).

Inductive SessionEntryKind : Type :=
| OperationStarted (operation_id : OperationId)
| TurnStarted (operation_id : OperationId) (turn_id : TurnId)
| UserMessage (turn_id : TurnId) (parts : list SessionUserPart)
| AssistantToolCallBatch (turn_id : TurnId) (model_call_id : string)
    (tool_batch_id : ToolBatchId) (blocks : list SessionAssistantBlock)
| ToolResult (turn_id : TurnId) (tool_batch_id : ToolBatchId) (result : SessionToolResult)
| AssistantMessage (turn_id : TurnId) (blocks : list SessionAssistantBlock)
| TurnFailure (turn_id : TurnId) (failure : SessionTurnFailure)
| TurnTerminated (turn_id : TurnId) (out : TurnOutcome)
| OperationSettled (operation_id : OperationId) (out : OperationOutcome)
    (usage : option SessionTokenUsage) (generation : option SessionGenerationChoice)
| Compaction (summary : string) (covers_up_to : EntryId)
| TitleSet (title : string).

Inductive NewEntryParent : Type :=
| CurrentLeaf
| TransactionEntry (index : nat).

Record NewSessionEntry : Type := {
  new_parent : NewEntryParent;
  new_kind : SessionEntryKind
}.

Record SessionTransaction : Type := {
  tx_session_id : SessionId;
  tx_expected_revision : SessionRevision;
  tx_entries : list NewSessionEntry;
  tx_current_leaf_index : nat
}.

Definition at_current_leaf (kind : SessionEntryKind) : NewSessionEntry :=
  {| new_parent := CurrentLeaf; new_kind := kind |}.
Definition after (transaction_index : nat) (kind : SessionEntryKind) : NewSessionEntry :=
  {| new_parent := TransactionEntry transaction_index; new_kind := kind |}.

(** [SessionTransaction::linear]; [Nat.sub] is [saturating_sub]. *)
Definition linear (session_id : SessionId) (expected_revision : SessionRevision)
    (kinds : list SessionEntryKind) : SessionTransaction :=
  let entries := imap (λ index kind,
    if index == 0 then at_current_leaf kind else after (index - 1) kind) kinds in
  {| tx_session_id := session_id;
     tx_expected_revision := expected_revision;
     tx_entries := entries;
     tx_current_leaf_index := length entries - 1 |}.

Record SessionEntry : Type := {
  entry_id : EntryId;
  entry_parent : option EntryId;
  entry_kind : SessionEntryKind
}.

Record SessionCommit : Type := {
  commit_revision : SessionRevision;
  commit_entries : list SessionEntry;
  commit_current_leaf : EntryId
}.

(** ** error.rs *)

Inductive SessionValidationError : Type :=
| EmptyTransaction
| InvalidParent (entry_index : nat)
| InvalidCurrentLeaf
| DuplicateOperation (operation_id : OperationId)
| DuplicateTurn (turn_id : TurnId)
| InvalidOperationReference (operation_id : OperationId)
| InvalidTurnReference (turn_id : TurnId)
| DuplicateUserMessage (turn_id : TurnId)
| InvalidUserMessage (turn_id : TurnId)
| DuplicateAssistantMessage (turn_id : TurnId)
| InvalidTurnOutcome (turn_id : TurnId)
| InvalidOperationOutcome (operation_id : OperationId)
| InvalidToolBatch (turn_id : TurnId)
| InvalidToolResult (turn_id : TurnId)
| InvalidCompactionSummary
| InvalidCompactionBoundary (covers_up_to : EntryId)
| NonMonotonicCompactionBoundary (previous covers_up_to : EntryId)
| InvalidCompactionTransaction
| InvalidTitle.

Inductive SessionError : Type :=
| RevisionConflict (expected actual : SessionRevision)
| Validation (error : SessionValidationError)
| StoreUnavailable (reason : string)
| StoreBusy (reason : string).

Abbreviation answer := (outcome SessionError).

Definition validation {A} (error : SessionValidationError) : answer A := Err (Validation error).

(** ** view.rs *)

Inductive ContextMessage : Type :=
| CtxSummary (text : string)
| CtxUser (parts : list SessionUserPart)
| CtxAssistant (blocks : list SessionAssistantBlock)
| CtxAssistantToolCalls (tool_batch_id : ToolBatchId) (blocks : list SessionAssistantBlock)
| CtxToolResult (tool_call_id : ToolCallId) (out : ToolResultOutcome).

Record UnfilledBatch : Type := {
  unfilled_tool_batch_id : ToolBatchId;
  unfilled_call_ids : list ToolCallId
}.

Record OpenTurnInfo : Type := {
  open_operation_id : OperationId;
  open_turn_id : TurnId;
  unfilled_batch : option UnfilledBatch
}.

Record SessionContextView : Type := {
  view_session_id : SessionId;
  view_revision : SessionRevision;
  view_current_leaf : option EntryId;
  view_title : option string;
  view_messages : list ContextMessage;
  view_open_turns : list OpenTurnInfo;
  view_settled_turns : list (OperationId * TurnId);
  view_settled_turn_boundaries : list EntryId;
  view_latest_compaction_boundary : option EntryId;
  view_latest_usage : option SessionTokenUsage;
  view_latest_generation : option SessionGenerationChoice
}.

#[export] Instance byte_eq_dec : EqDecision Byte.byte := Byte.byte_eq_dec.
#[export] Instance CancelReason_eq_dec : EqDecision CancelReason.
Proof. solve_decision. Defined.
#[export] Instance TurnOutcome_eq_dec : EqDecision TurnOutcome.
Proof. solve_decision. Defined.
#[export] Instance ToolResultOutcome_eq_dec : EqDecision ToolResultOutcome.
Proof. solve_decision. Defined.
#[export] Instance SessionToolResult_eq_dec : EqDecision SessionToolResult.
Proof. solve_decision. Defined.

(** ** projection/lifecycle.rs *)

Record OperationRecord : Type := {
  op_turn_id : option TurnId;
  op_outcome : option OperationOutcome
}.

Record ToolBatchRecord : Type := {
  batch_id : ToolBatchId;
  call_ids : list ToolCallId;
  results : list ToolCallId
}.

Record TurnRecord : Type := {
  turn_operation_id : OperationId;
  has_user_message : bool;
  has_assistant_message : bool;
  turn_failure : option SessionTurnFailure;
  turn_outcome : option TurnOutcome;
  tool_batches : list ToolBatchRecord
}.

Record LifecycleProjection : Type := {
  operations : gmap OperationId OperationRecord;
  turns : gmap TurnId TurnRecord;
  open_turn_ids : list TurnId
}.

Definition lifecycle_default : LifecycleProjection :=
  {| operations := ∅; turns := ∅; open_turn_ids := [] |}.

Definition is_complete (batch : ToolBatchRecord) : bool :=
  length (results batch) == length (call_ids batch).

Definition tool_rounds_complete (turn : TurnRecord) : bool :=
  match last (tool_batches turn) with None => true | Some batch => is_complete batch end.

(** Rows sorted by operation id; ids are unique, so the sort key decides. *)
Definition row_le (left right : OperationId * TurnId) : Prop :=
  String.leb left.1 right.1 = true.
#[export] Instance row_le_dec left right : Decision (row_le left right).
Proof. unfold row_le. apply _. Defined.

Definition settled_turns (self : LifecycleProjection) : list (OperationId * TurnId) :=
  merge_sort row_le
    (filter_map (λ '(operation_id, record),
       match op_outcome record, op_turn_id record with
       | Some _, Some turn_id => Some (operation_id, turn_id)
       | _, _ => None
       end) (map_to_list (operations self))).

Definition open_turns (self : LifecycleProjection) : answer (list OpenTurnInfo) :=
  mapM (λ turn_id,
    let? turn := expect (turns self !! turn_id) in
    let? unfilled :=
      match last (tool_batches turn) with
      | None => Ok None
      | Some batch =>
          if is_complete batch then Ok None
          else
            let? unfilled_ids := slice_from (length (results batch)) (call_ids batch) in
            Ok (Some {| unfilled_tool_batch_id := batch_id batch;
                        unfilled_call_ids := unfilled_ids |})
      end in
    Ok {| open_operation_id := turn_operation_id turn;
          open_turn_id := turn_id;
          unfilled_batch := unfilled |}) (open_turn_ids self).

Definition active_operation (self : LifecycleProjection) (operation_id : OperationId)
    : answer OperationRecord :=
  match operations self !! operation_id with
  | Some operation =>
      match op_outcome operation with
      | None => Ok operation
      | Some _ => validation (InvalidOperationReference operation_id)
      end
  | None => validation (InvalidOperationReference operation_id)
  end.

Definition active_turn (self : LifecycleProjection) (turn_id : TurnId) : answer TurnRecord :=
  match turns self !! turn_id with
  | Some turn =>
      match turn_outcome turn with
      | None => Ok turn
      | Some _ => validation (InvalidTurnReference turn_id)
      end
  | None => validation (InvalidTurnReference turn_id)
  end.

(** Writing through the [&mut TurnRecord] that [active_turn_mut] returns. *)
Definition set_turn (self : LifecycleProjection) (turn_id : TurnId) (turn : TurnRecord)
    : LifecycleProjection :=
  {| operations := operations self;
     turns := <[turn_id := turn]> (turns self);
     open_turn_ids := open_turn_ids self |}.

Definition set_operation (self : LifecycleProjection) (operation_id : OperationId)
    (operation : OperationRecord) : LifecycleProjection :=
  {| operations := <[operation_id := operation]> (operations self);
     turns := turns self;
     open_turn_ids := open_turn_ids self |}.

Definition part_well_formed (part : SessionUserPart) : bool :=
  match part with
  | PartText text => negb (str_is_empty text)
  | PartImage media_type _ => negb (str_is_empty media_type)
  end.

Definition block_call (block : SessionAssistantBlock) : option SessionToolCall :=
  match block with BlockToolCall call => Some call | BlockText _ => None end.

(** [texts_nonempty] of a batch: tool calls pass. *)
Definition batch_block_ok (block : SessionAssistantBlock) : bool :=
  match block with BlockText text => negb (str_is_empty text) | BlockToolCall _ => true end.

(** [blocks_valid] of a final message: tool calls fail. *)
Definition final_block_ok (block : SessionAssistantBlock) : bool :=
  match block with BlockText text => negb (str_is_empty text) | BlockToolCall _ => false end.

Definition is_some {A} (o : option A) : bool := match o with Some _ => true | None => false end.

(** Replaces the last element: [Vec::last_mut]. *)
Definition set_last {A} (l : list A) (x : A) : list A := take (length l - 1) l ++ [x].

Definition with_user_message (turn : TurnRecord) : TurnRecord :=
  {| turn_operation_id := turn_operation_id turn; has_user_message := true;
     has_assistant_message := has_assistant_message turn; turn_failure := turn_failure turn;
     turn_outcome := turn_outcome turn; tool_batches := tool_batches turn |}.
Definition with_assistant_message (turn : TurnRecord) : TurnRecord :=
  {| turn_operation_id := turn_operation_id turn; has_user_message := has_user_message turn;
     has_assistant_message := true; turn_failure := turn_failure turn;
     turn_outcome := turn_outcome turn; tool_batches := tool_batches turn |}.
Definition with_failure (turn : TurnRecord) (failure : SessionTurnFailure) : TurnRecord :=
  {| turn_operation_id := turn_operation_id turn; has_user_message := has_user_message turn;
     has_assistant_message := has_assistant_message turn; turn_failure := Some failure;
     turn_outcome := turn_outcome turn; tool_batches := tool_batches turn |}.
Definition with_outcome (turn : TurnRecord) (out : TurnOutcome) : TurnRecord :=
  {| turn_operation_id := turn_operation_id turn; has_user_message := has_user_message turn;
     has_assistant_message := has_assistant_message turn; turn_failure := turn_failure turn;
     turn_outcome := Some out; tool_batches := tool_batches turn |}.
Definition with_batches (turn : TurnRecord) (batches : list ToolBatchRecord) : TurnRecord :=
  {| turn_operation_id := turn_operation_id turn; has_user_message := has_user_message turn;
     has_assistant_message := has_assistant_message turn; turn_failure := turn_failure turn;
     turn_outcome := turn_outcome turn; tool_batches := batches |}.

Definition push_result (batch : ToolBatchRecord) (id : ToolCallId) : ToolBatchRecord :=
  {| batch_id := batch_id batch; call_ids := call_ids batch; results := results batch ++ [id] |}.

Definition expected_turn_outcome (out : OperationOutcome) : TurnOutcome :=
  match out with
  | OpSucceeded => TurnSucceeded
  | OpFailed => TurnFailed
  | OpCancelled reason => TurnCancelled reason
  end.

Definition outcome_valid (turn : TurnRecord) (out : TurnOutcome) : bool :=
  match out with
  | TurnSucceeded => has_assistant_message turn && negb (is_some (turn_failure turn))
  | TurnFailed => is_some (turn_failure turn) && negb (has_assistant_message turn)
  | TurnCancelled _ =>
      negb (has_assistant_message turn) && negb (is_some (turn_failure turn))
      && tool_rounds_complete turn
  end.

(** [LifecycleProjection::accept]. *)
Definition lifecycle_accept (self : LifecycleProjection) (kind : SessionEntryKind)
    : answer LifecycleProjection :=
  match kind with
  | OperationStarted operation_id =>
      if is_some (operations self !! operation_id) then
        validation (DuplicateOperation operation_id)
      else Ok (set_operation self operation_id {| op_turn_id := None; op_outcome := None |})
  | TurnStarted operation_id turn_id =>
      let? operation := active_operation self operation_id in
      if is_some (op_turn_id operation) then validation (InvalidOperationReference operation_id)
      else if is_some (turns self !! turn_id) then validation (DuplicateTurn turn_id)
      else Ok {| operations := <[operation_id := {| op_turn_id := Some turn_id;
                                                    op_outcome := op_outcome operation |}]>
                                 (operations self);
                 turns := <[turn_id := {| turn_operation_id := operation_id;
                                          has_user_message := false;
                                          has_assistant_message := false;
                                          turn_failure := None;
                                          turn_outcome := None;
                                          tool_batches := [] |}]> (turns self);
                 open_turn_ids := open_turn_ids self ++ [turn_id] |}
  | UserMessage turn_id parts =>
      let well_formed := negb (is_nil parts) && all part_well_formed parts in
      if negb well_formed then validation (InvalidUserMessage turn_id)
      else
        let? turn := active_turn self turn_id in
        if has_user_message turn then validation (DuplicateUserMessage turn_id)
        else Ok (set_turn self turn_id (with_user_message turn))
  | AssistantToolCallBatch turn_id _ tool_batch_id blocks =>
      let? turn := active_turn self turn_id in
      let calls := filter_map block_call blocks in
      let unique := distinct_count (call_id <$> calls) == length calls in
      let texts_nonempty := all batch_block_ok blocks in
      let batch_id_unused := all (λ batch, batch_id batch != tool_batch_id) (tool_batches turn) in
      if negb (has_user_message turn) || has_assistant_message turn
         || is_some (turn_failure turn) || negb (tool_rounds_complete turn)
         || negb batch_id_unused || is_nil calls || negb unique || negb texts_nonempty
      then validation (InvalidToolBatch turn_id)
      else Ok (set_turn self turn_id (with_batches turn (tool_batches turn ++
             [{| batch_id := tool_batch_id; call_ids := call_id <$> calls; results := [] |}])))
  | ToolResult turn_id tool_batch_id result =>
      let? turn := active_turn self turn_id in
      match last (tool_batches turn) with
      | None => validation (InvalidToolResult turn_id)
      | Some batch =>
          let index := length (results batch) in
          if (batch_id batch != tool_batch_id)
             || (call_ids batch !! index != Some (result_call_id result))
             || bool_decide (result_call_id result ∈ results batch)
          then validation (InvalidToolResult turn_id)
          else Ok (set_turn self turn_id (with_batches turn
                 (set_last (tool_batches turn) (push_result batch (result_call_id result)))))
      end
  | AssistantMessage turn_id blocks =>
      if negb (all final_block_ok blocks) then validation (InvalidTurnReference turn_id)
      else
        let? turn := active_turn self turn_id in
        let tools_complete := tool_rounds_complete turn in
        if negb (has_user_message turn) || is_some (turn_failure turn) || negb tools_complete
        then validation (InvalidTurnReference turn_id)
        else if has_assistant_message turn then validation (DuplicateAssistantMessage turn_id)
        else Ok (set_turn self turn_id (with_assistant_message turn))
  | TurnFailure turn_id failure =>
      let? turn := active_turn self turn_id in
      if negb (has_user_message turn) || has_assistant_message turn
         || is_some (turn_failure turn)
      then validation (InvalidTurnReference turn_id)
      else Ok (set_turn self turn_id (with_failure turn failure))
  | TurnTerminated turn_id out =>
      let? turn := active_turn self turn_id in
      if negb (outcome_valid turn out) then validation (InvalidTurnOutcome turn_id)
      else Ok {| operations := operations self;
                 turns := <[turn_id := with_outcome turn out]> (turns self);
                 open_turn_ids := filter (λ open, open ≠ turn_id) (open_turn_ids self) |}
  | OperationSettled operation_id out _ _ =>
      let? operation := active_operation self operation_id in
      match op_turn_id operation with
      | None => validation (InvalidOperationOutcome operation_id)
      | Some turn_id =>
          let valid :=
            match turns self !! turn_id with
            | Some turn => (turn_operation_id turn == operation_id)
                           && (turn_outcome turn == Some (expected_turn_outcome out))
            | None => false
            end in
          if negb valid then validation (InvalidOperationOutcome operation_id)
          else Ok (set_operation self operation_id
                 {| op_turn_id := op_turn_id operation; op_outcome := Some out |})
      end
  | Compaction _ _ => Ok self
  | TitleSet _ => Ok self
  end.

(** The pieces of [LifecycleProjection::validate_transaction]. *)
Definition as_tool_result (kind : SessionEntryKind)
    : option (TurnId * ToolBatchId * SessionToolResult) :=
  match kind with
  | ToolResult turn_id tool_batch_id result => Some (turn_id, tool_batch_id, result)
  | _ => None
  end.

Definition is_assistant_or_batch (kind : SessionEntryKind) : bool :=
  match kind with
  | AssistantMessage _ _ | AssistantToolCallBatch _ _ _ _ => true
  | _ => false
  end.

Definition incomplete_assistant_turn (self : LifecycleProjection) (kind : SessionEntryKind)
    : option TurnId :=
  match kind with
  | AssistantMessage turn_id _ =>
      match turns self !! turn_id with
      | Some turn => if tool_rounds_complete turn then None else Some turn_id
      | None => None
      end
  | _ => None
  end.

Definition cancel_reason_of (turn_id : TurnId) (kind : SessionEntryKind) : option CancelReason :=
  match kind with
  | TurnTerminated terminated (TurnCancelled reason) =>
      if terminated == turn_id then Some reason else None
  | _ => None
  end.

Definition is_cancelled (r : TurnId * ToolBatchId * SessionToolResult) : bool :=
  result_outcome r.2 == ResultCancelled.
Definition is_interrupted (r : TurnId * ToolBatchId * SessionToolResult) : bool :=
  result_outcome r.2 == ResultInterrupted.

(** The completion-mark matrix. *)
Definition valid_marks (cancel_reason : option CancelReason)
    (result_entries : list (TurnId * ToolBatchId * SessionToolResult)) : bool :=
  let first_cancelled := position is_cancelled result_entries in
  let has_interrupted := any is_interrupted result_entries in
  match cancel_reason with
  | Some ReasonAbandoned => all is_interrupted result_entries
  | Some _ =>
      match first_cancelled with
      | None => true
      | Some first => all is_cancelled (drop first result_entries)
      end
  | None => negb has_interrupted && negb (is_some first_cancelled)
  end.

Definition exact_results (turn_id : TurnId) (batch : ToolBatchRecord)
    (expected : list ToolCallId)
    (result_entries : list (TurnId * ToolBatchId * SessionToolResult)) : bool :=
  (length result_entries == length expected)
  && all (λ '(entry, expected_id),
       let '(entry_turn, entry_batch, result) := entry in
       (entry_turn == turn_id) && (entry_batch == batch_id batch)
       && (result_call_id result == expected_id)) (zip result_entries expected).

Definition validate_transaction (self : LifecycleProjection) (kinds : list SessionEntryKind)
    : answer unit :=
  let result_entries := filter_map as_tool_result kinds in
  match result_entries with
  | [] =>
      match find_map (incomplete_assistant_turn self) kinds with
      | Some turn_id => validation (InvalidTurnOutcome turn_id)
      | None => Ok tt
      end
  | (turn_id, _, _) :: _ =>
      if any is_assistant_or_batch kinds then validation (InvalidTurnOutcome turn_id)
      else
        match turns self !! turn_id with
        | None => validation (InvalidToolResult turn_id)
        | Some turn =>
            match last (tool_batches turn) with
            | None => validation (InvalidToolResult turn_id)
            | Some batch =>
                let? expected := slice_from (length (results batch)) (call_ids batch) in
                if negb (exact_results turn_id batch expected result_entries) then
                  validation (InvalidToolResult turn_id)
                else if negb (valid_marks (find_map (cancel_reason_of turn_id) kinds)
                                result_entries)
                then validation (InvalidToolResult turn_id)
                else Ok tt
            end
        end
  end.

(** ** projection/context.rs *)

Record SettledBoundary : Type := {
  entry_ordinal : nat;
  message_count : nat
}.

Record CompactionState : Type := {
  compaction_summary : string;
  compaction_covers_up_to : EntryId;
  compaction_boundary : SettledBoundary
}.

Record ContextProjection : Type := {
  source_messages : list ContextMessage;
  settled_boundaries : gmap EntryId SettledBoundary;
  latest_compaction : option CompactionState;
  latest_usage : option SessionTokenUsage;
  latest_generation : option SessionGenerationChoice
}.

Definition context_default : ContextProjection :=
  {| source_messages := []; settled_boundaries := ∅; latest_compaction := None;
     latest_usage := None; latest_generation := None |}.

(** [sort_by_key] on the ordinals. *)
Definition ordinal_le (left right : EntryId * SettledBoundary) : Prop :=
  entry_ordinal left.2 ≤ entry_ordinal right.2.
#[export] Instance ordinal_le_dec left right : Decision (ordinal_le left right).
Proof. unfold ordinal_le. apply _. Defined.

Definition settled_boundary_ids (self : ContextProjection) : list EntryId :=
  fst <$> merge_sort ordinal_le (map_to_list (settled_boundaries self)).

Definition latest_compaction_boundary (self : ContextProjection) : option EntryId :=
  compaction_covers_up_to <$> latest_compaction self.

Definition push_message (self : ContextProjection) (message : ContextMessage)
    : ContextProjection :=
  {| source_messages := source_messages self ++ [message];
     settled_boundaries := settled_boundaries self;
     latest_compaction := latest_compaction self;
     latest_usage := latest_usage self;
     latest_generation := latest_generation self |}.

(** [ContextProjection::accept]. *)
Definition context_accept (self : ContextProjection) (entry : SessionEntry) (ordinal : nat)
    : answer ContextProjection :=
  match entry_kind entry with
  | UserMessage _ parts => Ok (push_message self (CtxUser parts))
  | AssistantMessage _ blocks => Ok (push_message self (CtxAssistant blocks))
  | AssistantToolCallBatch _ _ tool_batch_id blocks =>
      Ok (push_message self (CtxAssistantToolCalls tool_batch_id blocks))
  | ToolResult _ _ result =>
      Ok (push_message self (CtxToolResult (result_call_id result) (result_outcome result)))
  | OperationSettled _ _ usage generation =>
      Ok {| source_messages := source_messages self;
            settled_boundaries :=
              <[entry_id entry := {| entry_ordinal := ordinal;
                                     message_count := length (source_messages self) |}]>
                (settled_boundaries self);
            latest_compaction := latest_compaction self;
            latest_usage := usage;
            latest_generation := generation |}
  | Compaction summary covers_up_to =>
      if str_is_empty summary then validation InvalidCompactionSummary
      else
        match settled_boundaries self !! covers_up_to with
        | None => validation (InvalidCompactionBoundary covers_up_to)
        | Some boundary =>
            let next :=
              {| source_messages := source_messages self;
                 settled_boundaries := settled_boundaries self;
                 latest_compaction := Some {| compaction_summary := summary;
                                              compaction_covers_up_to := covers_up_to;
                                              compaction_boundary := boundary |};
                 latest_usage := latest_usage self;
                 latest_generation := latest_generation self |} in
            match latest_compaction self with
            | Some previous =>
                if bool_decide (entry_ordinal boundary ≤
                                entry_ordinal (compaction_boundary previous))
                then validation (NonMonotonicCompactionBoundary
                       (compaction_covers_up_to previous) covers_up_to)
                else Ok next
            | None => Ok next
            end
        end
  | _ => Ok self
  end.

(** [ContextProjection::messages]. *)
Definition messages (self : ContextProjection) : answer (list ContextMessage) :=
  match latest_compaction self with
  | None => Ok (source_messages self)
  | Some compaction =>
      let? tail := slice_from (message_count (compaction_boundary compaction))
                     (source_messages self) in
      Ok (CtxSummary (compaction_summary compaction) :: tail)
  end.

(** ** projection/mod.rs *)

Definition TITLE_OVERRIDE_MAX_CHARS : nat := 200.
Definition DERIVED_TITLE_MAX_CHARS : nat := 48.

Definition derive_title (text : string) : option string :=
  let normalized := join " " (split_whitespace text) in
  if str_is_empty normalized then None
  else if bool_decide (length (chars normalized) ≤ DERIVED_TITLE_MAX_CHARS) then Some normalized
  else Some (concat_str (take DERIVED_TITLE_MAX_CHARS (chars normalized)) +:+ "…").

Definition title_is_valid (title : string) : bool :=
  let trimmed := trim title in
  negb (str_is_empty trimmed)
  && bool_decide (length (chars trimmed) ≤ TITLE_OVERRIDE_MAX_CHARS)
  && negb (any is_control (chars trimmed)).

Record SessionProjection : Type := {
  revision : SessionRevision;
  current_leaf : option EntryId;
  entry_count : nat;
  lifecycle : LifecycleProjection;
  context : ContextProjection;
  title_override : option string
}.

(** [SessionProjection::empty]: the [Default] of every field. *)
Definition empty : SessionProjection :=
  {| revision := 0; current_leaf := None; entry_count := 0; lifecycle := lifecycle_default;
     context := context_default; title_override := None |}.

Record AppliedTransaction : Type := {
  applied_entries : list SessionEntry;
  applied_projection : SessionProjection
}.

(** [AppliedTransaction::commit]. *)
Definition applied_commit (self : AppliedTransaction) : answer SessionCommit :=
  let? leaf := expect (current_leaf (applied_projection self)) in
  Ok {| commit_revision := revision (applied_projection self);
        commit_entries := applied_entries self;
        commit_current_leaf := leaf |}.

Definition part_title (part : SessionUserPart) : option string :=
  match part with PartText text => derive_title text | PartImage _ _ => None end.

(** [SessionProjection::title]. *)
Definition projection_title (self : SessionProjection) : option string :=
  match title_override self with
  | Some title => Some title
  | None =>
      match source_messages (context self) with
      | CtxUser parts :: _ => find_map part_title parts
      | _ => None
      end
  end.

(** [SessionProjection::context_view]. *)
Definition context_view (self : SessionProjection) (session_id : SessionId)
    : answer SessionContextView :=
  let? msgs := messages (context self) in
  let? open := open_turns (lifecycle self) in
  Ok {| view_session_id := session_id;
        view_revision := revision self;
        view_current_leaf := current_leaf self;
        view_title := projection_title self;
        view_messages := msgs;
        view_open_turns := open;
        view_settled_turns := settled_turns (lifecycle self);
        view_settled_turn_boundaries := settled_boundary_ids (context self);
        view_latest_compaction_boundary := latest_compaction_boundary (context self);
        view_latest_usage := latest_usage (context self);
        view_latest_generation := latest_generation (context self) |}.

Definition entry_id_at (session_id : SessionId) (n : nat) : EntryId :=
  session_id +:+ ":entry:" +:+ display_nat n.

Definition allocate_entry_id (self : SessionProjection) (session_id : SessionId) (offset : nat)
    : EntryId :=
  entry_id_at session_id (entry_count self + offset + 1).

(** ** projection/transaction.rs *)

Definition is_compaction (entry : SessionEntry) : bool :=
  match entry_kind entry with Compaction _ _ => true | _ => false end.

Definition validate_compaction_transaction (entries : list SessionEntry) : answer unit :=
  let contains_compaction := any is_compaction entries in
  if contains_compaction && (length entries != 1) then validation InvalidCompactionTransaction
  else Ok tt.

(** One iteration of the fold in [advance_transaction]. [entries] is the whole
    transaction; the leaf of [self] is still the one before it. *)
Definition advance_entry (entries : list SessionEntry) (self : SessionProjection)
    (item : nat * SessionEntry) : answer SessionProjection :=
  let '(index, entry) := item in
  let expected_parent :=
    if index == 0 then current_leaf self else entry_id <$> (entries !! (index - 1)) in
  if entry_parent entry != expected_parent then validation (InvalidParent index)
  else
    let? title :=
      match entry_kind entry with
      | TitleSet title =>
          if negb (title_is_valid title) then validation InvalidTitle
          else Ok (Some (trim title))
      | _ => Ok (title_override self)
      end in
    let? lifecycle := lifecycle_accept (lifecycle self) (entry_kind entry) in
    let? context := context_accept (context self) entry (entry_count self) in
    Ok {| revision := revision self;
          current_leaf := current_leaf self;
          entry_count := entry_count self + 1;
          lifecycle := lifecycle;
          context := context;
          title_override := title |}.

Definition enumerate {A} (l : list A) : list (nat * A) := imap pair l.

Definition advance_transaction (self : SessionProjection) (entries : list SessionEntry)
    : answer SessionProjection :=
  if is_nil entries then validation EmptyTransaction
  else
    let? _ := validate_compaction_transaction entries in
    let? _ := validate_transaction (lifecycle self) (entry_kind <$> entries) in
    let? next := try_fold (advance_entry entries) self (enumerate entries) in
    let? leaf := expect (last entries) in
    Ok {| revision := revision next + 1;
          current_leaf := Some (entry_id leaf);
          entry_count := entry_count next;
          lifecycle := lifecycle next;
          context := context next;
          title_override := title_override next |}.

(** One iteration of the materialisation loop in [apply]. *)
Definition materialize_entry (self : SessionProjection) (session_id : SessionId)
    (committed : list SessionEntry) (item : nat * NewSessionEntry)
    : answer (list SessionEntry) :=
  let '(index, new_entry) := item in
  let? parent :=
    match new_parent new_entry with
    | CurrentLeaf =>
        if index == 0 then Ok (current_leaf self) else validation (InvalidParent index)
    | TransactionEntry parent_index =>
        if bool_decide (0 < index) && (parent_index == index - 1) then
          let? parent_entry := expect (committed !! parent_index) in
          Ok (Some (entry_id parent_entry))
        else validation (InvalidParent index)
    end in
  Ok (committed ++ [{| entry_id := allocate_entry_id self session_id index;
                       entry_parent := parent;
                       entry_kind := new_kind new_entry |}]).

(** [SessionProjection::apply]. *)
Definition apply (self : SessionProjection) (transaction : SessionTransaction)
    : answer AppliedTransaction :=
  if is_nil (tx_entries transaction) then validation EmptyTransaction
  else if tx_current_leaf_index transaction != length (tx_entries transaction) - 1 then
    validation InvalidCurrentLeaf
  else
    let? committed := try_fold (materialize_entry self (tx_session_id transaction)) []
                        (enumerate (tx_entries transaction)) in
    let? next := advance_transaction self committed in
    Ok {| applied_entries := committed; applied_projection := next |}.

(** [SessionProjection::replay]: the new projection, or [self] with the error. *)
Definition replay (self : SessionProjection) (entries : list SessionEntry)
    : SessionProjection * answer unit :=
  match advance_transaction self entries with
  | Ok next => (next, Ok tt)
  | Err e => (self, Err e)
  | Panic => (self, Panic)
  end.

End session.
