(* ===== verification/SessionLifecycle.v ===== *)
(** The lifecycle half of the session projection: its invariant, and what each
    accepted entry does to turns, operations and tool batches. *)

From S2P Require Import Prelude RustStr Session.
Import session.

(** ** The invariant *)

Record batch_wf (b : ToolBatchRecord) : Prop := {
  batch_calls_nonempty : call_ids b ≠ [];
  batch_calls_unique : NoDup (call_ids b);
  batch_results_prefix : results b `prefix_of` call_ids b
}.

Record turn_wf (t : TurnRecord) : Prop := {
  turn_batch_ids_unique : NoDup (batch_id <$> tool_batches t);
  turn_batches_wf : Forall batch_wf (tool_batches t);
  turn_older_complete : ∀ pre b post,
    tool_batches t = pre ++ b :: post → post ≠ [] → is_complete b = true;
  turn_batches_user : tool_batches t ≠ [] → has_user_message t = true;
  turn_assistant_wf : has_assistant_message t = true →
    has_user_message t = true ∧ turn_failure t = None ∧ tool_rounds_complete t = true;
  turn_failure_wf : turn_failure t ≠ None →
    has_user_message t = true ∧ has_assistant_message t = false;
  turn_outcome_wf : ∀ o, turn_outcome t = Some o → outcome_valid t o = true
}.

Record lc_wf (lc : LifecycleProjection) : Prop := {
  lc_open_unique : NoDup (open_turn_ids lc);
  lc_open : ∀ tid, tid ∈ open_turn_ids lc ↔
    ∃ t, turns lc !! tid = Some t ∧ turn_outcome t = None;
  lc_turn_wf : ∀ tid t, turns lc !! tid = Some t → turn_wf t;
  lc_turn_op : ∀ tid t, turns lc !! tid = Some t →
    ∃ op, operations lc !! turn_operation_id t = Some op ∧ op_turn_id op = Some tid;
  lc_op_turn : ∀ oid op tid, operations lc !! oid = Some op → op_turn_id op = Some tid →
    ∃ t, turns lc !! tid = Some t ∧ turn_operation_id t = oid;
  lc_settled : ∀ oid op out, operations lc !! oid = Some op → op_outcome op = Some out →
    ∃ tid t, op_turn_id op = Some tid ∧ turns lc !! tid = Some t ∧
             turn_outcome t = Some (expected_turn_outcome out)
}.

(** ** Transaction boundaries: a batch has all of its results or none. *)
Definition batch_atomic (b : ToolBatchRecord) : Prop :=
  results b = [] ∨ results b = call_ids b.

Definition turn_atomic (t : TurnRecord) : Prop := Forall batch_atomic (tool_batches t).

Definition lc_atomic (lc : LifecycleProjection) : Prop :=
  ∀ tid t, turns lc !! tid = Some t → turn_atomic t.

Lemma lifecycle_default_wf : lc_wf lifecycle_default.
Proof.
  split; simpl.
  - constructor.
  - intros tid. rewrite lookup_empty. split; [by intros ?%elem_of_nil|naive_solver].
  - intros ??. by rewrite lookup_empty.
  - intros ??. by rewrite lookup_empty.
  - intros ???. by rewrite lookup_empty.
  - intros ???. by rewrite lookup_empty.
Qed.

Lemma lifecycle_default_atomic : lc_atomic lifecycle_default.
Proof. intros ??; simpl. by rewrite lookup_empty. Qed.

(** ** Lists with a distinguished last element *)
Lemma last_Some_snoc {A} (l : list A) x : last l = Some x ↔ ∃ l', l = l' ++ [x].
Proof. apply last_Some. Qed.

Lemma set_last_snoc {A} (l : list A) x y : set_last (l ++ [x]) y = l ++ [y].
Proof.
  unfold set_last. rewrite length_app. simpl.
  replace (length l + 1 - 1) with (length l) by lia. by rewrite take_app_length.
Qed.

Lemma older_complete_snoc (l : list ToolBatchRecord) b :
  (∀ pre c post, l ++ [b] = pre ++ c :: post → post ≠ [] → is_complete c = true) ↔
  Forall (λ c, is_complete c = true) l.
Proof.
  split.
  - intros Hall. apply Forall_forall. intros c (pre&post&->)%list_elem_of_split.
    apply (Hall pre c (post ++ [b])); [by rewrite <- app_assoc|by destruct post].
  - intros Hall pre c post Heq Hne.
    destruct (exists_last Hne) as (post'&z&->).
    replace (pre ++ c :: post' ++ [z]) with ((pre ++ c :: post') ++ [z]) in Heq
      by by rewrite <- app_assoc.
    apply app_inj_tail in Heq as [-> ->].
    rewrite Forall_app, Forall_cons in Hall. naive_solver.
Qed.

(** ** Records that a turn can become *)
Lemma active_turn_Ok lc tid t :
  active_turn lc tid = Ok t ↔ turns lc !! tid = Some t ∧ turn_outcome t = None.
Proof.
  unfold active_turn, validation. destruct (turns lc !! tid) as [t'|] eqn:Ht; [|naive_solver].
  destruct (turn_outcome t') eqn:Ho; naive_solver.
Qed.

Lemma active_operation_Ok lc oid op :
  active_operation lc oid = Ok op ↔ operations lc !! oid = Some op ∧ op_outcome op = None.
Proof.
  unfold active_operation, validation.
  destruct (operations lc !! oid) as [o|] eqn:Ho; [|naive_solver].
  destruct (op_outcome o) eqn:Hout; naive_solver.
Qed.

(** [turn_wf] of an updated record: the fields the update leaves alone. *)
Ltac turn_wf_update Hwf :=
  destruct Hwf as [Hnd Hb Hold Hbu Ha Hf Ho]; split; simpl; try done.

Lemma with_user_message_wf t :
  turn_wf t → turn_wf (with_user_message t).
Proof.
  intros Hwf. turn_wf_update Hwf.
  - by intros (?&?&?)%Ha.
  - by intros (?&?)%Hf.
Qed.

Lemma with_assistant_message_wf t :
  turn_wf t → has_user_message t = true → turn_failure t = None →
  tool_rounds_complete t = true → turn_outcome t = None →
  turn_wf (with_assistant_message t).
Proof.
  intros Hwf ??? Hnone. turn_wf_update Hwf.
  intros o. by rewrite Hnone.
Qed.

Lemma with_failure_wf t f :
  turn_wf t → has_user_message t = true → has_assistant_message t = false →
  turn_outcome t = None → turn_wf (with_failure t f).
Proof.
  intros Hwf ? Has Hnone. turn_wf_update Hwf.
  - by rewrite Has.
  - intros o. by rewrite Hnone.
Qed.

Lemma with_outcome_wf t o :
  turn_wf t → outcome_valid t o = true → turn_wf (with_outcome t o).
Proof.
  intros Hwf ?. turn_wf_update Hwf. intros o' [= <-]. destruct o; assumption.
Qed.

Lemma is_complete_true b : is_complete b = true ↔ length (results b) = length (call_ids b).
Proof. unfold is_complete. apply bool_decide_eq_true. Qed.

Lemma batch_wf_complete b :
  batch_wf b → is_complete b = true ↔ results b = call_ids b.
Proof.
  intros [_ _ Hp]. rewrite is_complete_true. split; [|by intros ->].
  intros. apply prefix_length_eq; [done|lia].
Qed.

Lemma tool_rounds_complete_snoc t l b :
  tool_batches t = l ++ [b] → tool_rounds_complete t = is_complete b.
Proof. intros Heq. unfold tool_rounds_complete. by rewrite Heq, last_snoc. Qed.

Lemma tool_rounds_complete_all t :
  turn_wf t → tool_rounds_complete t = true →
  Forall (λ b, is_complete b = true) (tool_batches t).
Proof.
  intros Hwf Hc. pose proof (turn_older_complete _ Hwf) as Hold.
  destruct (decide (tool_batches t = [])) as [->|(l&b&Hb)%exists_last]; [constructor|].
  rewrite Hb in *.
  rewrite (tool_rounds_complete_snoc _ _ _ Hb) in Hc.
  apply Forall_app; split; [by apply older_complete_snoc in Hold|by constructor].
Qed.

(** Opening a batch on a turn whose batches are complete. *)
Lemma with_new_batch_wf t b :
  turn_wf t → has_user_message t = true → has_assistant_message t = false →
  turn_outcome t = None → tool_rounds_complete t = true →
  Forall (λ c, batch_id c ≠ batch_id b) (tool_batches t) → batch_wf b →
  turn_wf (with_batches t (tool_batches t ++ [b])).
Proof.
  intros Hwf Hu Ha' Ho' Hc Hid Hb'. pose proof (tool_rounds_complete_all _ Hwf Hc).
  turn_wf_update Hwf.
  - rewrite fmap_app. apply NoDup_app. split; [done|split; [|apply NoDup_singleton]].
    intros x (c&->&Hin)%list_elem_of_fmap Heq%list_elem_of_singleton.
    rewrite Forall_forall in Hid. by apply (Hid c).
  - apply Forall_app; by rewrite Forall_singleton.
  - by apply older_complete_snoc.
  - by rewrite Ha'.
  - intros o. by rewrite Ho'.
Qed.

Lemma push_result_wf b id :
  batch_wf b → call_ids b !! length (results b) = Some id → batch_wf (push_result b id).
Proof.
  intros [? ? [k Hk]] Hid. split; simpl; [done..|].
  rewrite Hk in *. rewrite lookup_app_r, Nat.sub_diag in Hid by lia.
  destruct k as [|k0 k]; [done|]. injection Hid as ->.
  exists k. by rewrite <- app_assoc.
Qed.

(** Completing one call of the newest batch. *)
Lemma with_pushed_result_wf t l b id :
  turn_wf t → tool_batches t = l ++ [b] → turn_outcome t = None →
  call_ids b !! length (results b) = Some id →
  turn_wf (with_batches t (l ++ [push_result b id])).
Proof.
  intros Hwf Hl Hnone Hid.
  assert (is_complete b = false) as Hinc.
  { unfold is_complete. apply bool_decide_eq_false. apply lookup_lt_Some in Hid. lia. }
  turn_wf_update Hwf; rewrite Hl in *.
  - rewrite fmap_app in Hnd |- *. exact Hnd.
  - rewrite Forall_app, Forall_singleton in *. destruct Hb. auto using push_result_wf.
  - apply older_complete_snoc in Hold. by apply older_complete_snoc.
  - intros _. apply Hbu. by destruct l.
  - intros (_&_&Hc)%Ha. rewrite (tool_rounds_complete_snoc _ _ _ Hl) in Hc. congruence.
  - intros o. by rewrite Hnone.
Qed.

(** ** The entry grammar

    [lc_step lc kind lc'] is the rule book of durable turns: when an entry may
    follow a state and what it records. [lifecycle_accept] decides it. *)
Definition new_turn (oid : OperationId) : TurnRecord :=
  {| turn_operation_id := oid; has_user_message := false; has_assistant_message := false;
     turn_failure := None; turn_outcome := None; tool_batches := [] |}.

Definition open_turn (lc : LifecycleProjection) (tid : TurnId) (t : TurnRecord) : Prop :=
  turns lc !! tid = Some t ∧ turn_outcome t = None.

Definition close_turn (lc : LifecycleProjection) (tid : TurnId) (t : TurnRecord)
    (o : TurnOutcome) : LifecycleProjection :=
  {| operations := operations lc;
     turns := <[tid := with_outcome t o]> (turns lc);
     open_turn_ids := filter (λ open, open ≠ tid) (open_turn_ids lc) |}.

(** A part says something; the newest batch of a turn has a result for each call;
    an outcome agrees with what the turn holds. *)
Definition part_said (part : SessionUserPart) : Prop :=
  match part with PartText text => text ≠ "" | PartImage media_type _ => media_type ≠ "" end.
Definition rounds_answered (t : TurnRecord) : Prop :=
  ∀ older b, tool_batches t = older ++ [b] → length (results b) = length (call_ids b).
Definition outcome_fits (t : TurnRecord) (o : TurnOutcome) : Prop :=
  match o with
  | TurnSucceeded => has_assistant_message t = true ∧ turn_failure t = None
  | TurnFailed => turn_failure t ≠ None ∧ has_assistant_message t = false
  | TurnCancelled _ =>
      has_assistant_message t = false ∧ turn_failure t = None ∧ rounds_answered t
  end.

Lemma part_said_true part : part_well_formed part = true ↔ part_said part.
Proof. destruct part; simpl; by rewrite negb_true_iff, str_is_empty_false. Qed.
Lemma parts_said_true parts :
  Forall (λ part, part_well_formed part = true) parts ↔ Forall part_said parts.
Proof. apply Forall_iff, part_said_true. Qed.
Lemma rounds_answered_true t : tool_rounds_complete t = true ↔ rounds_answered t.
Proof.
  unfold tool_rounds_complete, rounds_answered. destruct (last (tool_batches t)) as [b|] eqn:Hl.
  - apply last_Some in Hl as [older Hl]. rewrite Hl. unfold is_complete. rewrite bool_decide_eq_true.
    split; [by intros Heq older' b' [_ <-]%app_inj_tail|by intros H; apply (H older)].
  - apply last_None in Hl. rewrite Hl. split; [|done]. intros _ older b Hb. by destruct older.
Qed.
Lemma outcome_fits_true t o : outcome_valid t o = true ↔ outcome_fits t o.
Proof.
  destruct o; simpl; rewrite !andb_true_iff, ?negb_true_iff, <- ?rounds_answered_true;
    destruct (turn_failure t), (has_assistant_message t); simpl; naive_solver.
Qed.

Inductive lc_step (lc : LifecycleProjection) : SessionEntryKind → LifecycleProjection → Prop :=
| step_operation oid :
    operations lc !! oid = None →
    lc_step lc (OperationStarted oid)
      (set_operation lc oid {| op_turn_id := None; op_outcome := None |})
| step_turn oid tid :
    operations lc !! oid = Some {| op_turn_id := None; op_outcome := None |} →
    turns lc !! tid = None →
    lc_step lc (TurnStarted oid tid)
      {| operations := <[oid := {| op_turn_id := Some tid; op_outcome := None |}]>
                         (operations lc);
         turns := <[tid := new_turn oid]> (turns lc);
         open_turn_ids := open_turn_ids lc ++ [tid] |}
| step_user tid ps t :
    ps ≠ [] → Forall part_said ps →
    open_turn lc tid t → has_user_message t = false →
    lc_step lc (UserMessage tid ps) (set_turn lc tid (with_user_message t))
| step_batch tid mid bid bs t :
    open_turn lc tid t → has_user_message t = true → has_assistant_message t = false →
    turn_failure t = None → rounds_answered t →
    Forall (λ b, batch_id b ≠ bid) (tool_batches t) →
    filter_map block_call bs ≠ [] → NoDup (call_id <$> filter_map block_call bs) →
    BlockText "" ∉ bs →
    lc_step lc (AssistantToolCallBatch tid mid bid bs)
      (set_turn lc tid (with_batches t (tool_batches t ++
         [{| batch_id := bid; call_ids := call_id <$> filter_map block_call bs;
             results := [] |}])))
| step_result tid r t l b :
    open_turn lc tid t → tool_batches t = l ++ [b] →
    call_ids b !! length (results b) = Some (result_call_id r) →
    result_call_id r ∉ results b →
    lc_step lc (ToolResult tid (batch_id b) r)
      (set_turn lc tid (with_batches t (l ++ [push_result b (result_call_id r)])))
| step_assistant tid bs t :
    Forall (λ b, ∃ text, b = BlockText text ∧ text ≠ "") bs →
    open_turn lc tid t → has_user_message t = true → turn_failure t = None →
    rounds_answered t → has_assistant_message t = false →
    lc_step lc (AssistantMessage tid bs) (set_turn lc tid (with_assistant_message t))
| step_failure tid f t :
    open_turn lc tid t → has_user_message t = true → has_assistant_message t = false →
    turn_failure t = None →
    lc_step lc (TurnFailure tid f) (set_turn lc tid (with_failure t f))
| step_terminated tid o t :
    open_turn lc tid t → outcome_fits t o →
    lc_step lc (TurnTerminated tid o) (close_turn lc tid t o)
| step_settled oid out usage generation tid t :
    operations lc !! oid = Some {| op_turn_id := Some tid; op_outcome := None |} →
    turns lc !! tid = Some t → turn_operation_id t = oid →
    turn_outcome t = Some match out with
                          | OpSucceeded => TurnSucceeded
                          | OpFailed => TurnFailed
                          | OpCancelled reason => TurnCancelled reason
                          end →
    lc_step lc (OperationSettled oid out usage generation)
      (set_operation lc oid {| op_turn_id := Some tid; op_outcome := Some out |})
| step_compaction summary covers : lc_step lc (Compaction summary covers) lc
| step_title title : lc_step lc (TitleSet title) lc.

Lemma final_block_ok_true b :
  final_block_ok b = true ↔ ∃ text, b = BlockText text ∧ text ≠ "".
Proof.
  destruct b; simpl; [|naive_solver]. rust_bool. naive_solver.
Qed.

Lemma batch_blocks_ok_true bs : all batch_block_ok bs = true ↔ BlockText "" ∉ bs.
Proof.
  rewrite all_Forall, Forall_forall. split.
  - intros Hall Hin. apply Hall in Hin. done.
  - intros Hni [text|] Hin; simpl; [|done]. rust_bool. intros ->. done.
Qed.

Lemma batch_ids_unused_true (bid : ToolBatchId) (l : list ToolBatchRecord) :
  all (λ batch, batch_id batch != bid) l = true ↔ Forall (λ b, batch_id b ≠ bid) l.
Proof. rewrite all_Forall. apply Forall_iff. intros b. by rust_bool. Qed.

Lemma unique_calls_true (calls : list SessionToolCall) :
  (distinct_count (call_id <$> calls) == length calls) = true ↔ NoDup (call_id <$> calls).
Proof. rewrite bool_decide_eq_true, <- (length_fmap call_id). apply distinct_count_NoDup. Qed.

Lemma is_some_false {A} (o : option A) : is_some o = false ↔ o = None.
Proof. by destruct o. Qed.
Lemma is_some_true {A} (o : option A) : is_some o = true ↔ o ≠ None.
Proof. by destruct o. Qed.
#[export] Hint Rewrite @is_some_false @is_some_true final_block_ok_true batch_blocks_ok_true
  batch_ids_unused_true unique_calls_true : rust_bool.

Lemma operation_eta op a b :
  op_turn_id op = a → op_outcome op = b → op = {| op_turn_id := a; op_outcome := b |}.
Proof. by destruct op; simpl; intros -> ->. Qed.

(** Inverts one guard of a handler that returned [Ok]. *)
Ltac accept_inv H :=
  unfold validation in H; rust_inv H;
  repeat match goal with
  | Ha : active_turn _ _ = Ok _ |- _ => apply active_turn_Ok in Ha
  | Ha : active_operation _ _ = Ok _ |- _ => apply active_operation_Ok in Ha; destruct Ha
  end; rust_bool.

Lemma lifecycle_accept_sound lc k lc' : lifecycle_accept lc k = Ok lc' → lc_step lc k lc'.
Proof.
  destruct k as [oid|oid tid|tid ps|tid mid bid bs|tid bid r|tid bs|tid f|tid o
    |oid o u g|summary covers|title]; simpl; intros H; accept_inv H; simplify_eq.
  - by constructor.
  - pose proof (operation_eta x _ _ ltac:(done) ltac:(done)); subst x. by constructor.
  - rewrite all_Forall, parts_said_true in *. constructor; naive_solver.
  - destruct_and!. by apply step_batch; [|..|apply rounds_answered_true| | | |].
  - destruct_and!. simplify_eq. apply last_Some_snoc in Hc as [l Hl].
    rewrite Hl, set_last_snoc. by apply step_result.
  - rewrite all_Forall, (Forall_iff _ _ _ final_block_ok_true) in Hc.
    destruct_and!. by apply step_assistant; [..|apply rounds_answered_true|].
  - destruct_and!. by apply step_failure.
  - by apply step_terminated, outcome_fits_true.
  - destruct (turns lc !! s) as [t|] eqn:Ht; [|done]. rust_bool. destruct_and!.
    apply (step_settled _ _ _ _ _ _ t); [|done..].
    rewrite H0. f_equal. by apply operation_eta.
  - constructor.
  - constructor.
Qed.

(** Reduces a handler's guard whose parts are known. *)
Ltac accept_guard :=
  match goal with
  | |- context [if ?b then validation _ else _] =>
      let Hb := fresh "Hb" in destruct b eqn:Hb; autorewrite with rust_bool in Hb; [exfalso; intuition congruence|simpl]
  end.

Lemma open_turn_active lc tid t : open_turn lc tid t → active_turn lc tid = Ok t.
Proof. intros. by apply active_turn_Ok. Qed.

Lemma lifecycle_accept_complete lc k lc' : lc_step lc k lc' → lifecycle_accept lc k = Ok lc'.
Proof.
  destruct 1 as [oid Hoid|oid tid Hoid Htid|tid ps t Hne Hps Ht Hu|tid mid bid bs t Ht
    |tid r t l b Ht Hl Hid Hni|tid bs t Hbs Ht|tid f t Ht|tid o t Ht
    |oid o u g tid t Hop Ht Htop Hto|summary covers|title]; simpl;
    try (rewrite (open_turn_active _ _ _ Ht); simpl);
    rewrite <- ?rounds_answered_true, <- ?outcome_fits_true in *.
  - by rewrite Hoid.
  - unfold active_operation. rewrite Hoid. simpl. by rewrite Htid.
  - rewrite <- parts_said_true, <- all_Forall in Hps. rewrite Hps. destruct ps; [done|]. simpl. by rewrite Hu.
  - apply batch_ids_unused_true in H3. apply batch_blocks_ok_true in H6.
    rewrite <- unique_calls_true in H5. rewrite bool_decide_eq_true in H5.
    by accept_guard.
  - rewrite Hl, last_snoc. rewrite Hid. accept_guard. by rewrite set_last_snoc.
  - rewrite <- (Forall_iff _ _ _ final_block_ok_true), <- all_Forall in Hbs. rewrite Hbs. simpl.
    do 2 accept_guard. done.
  - accept_guard. done.
  - accept_guard. done.
  - unfold active_operation. rewrite Hop. simpl. rewrite Ht, Htop, Hto.
    rewrite !bool_decide_eq_true_2 by done. done.
  - done.
  - done.
Qed.

Lemma lifecycle_accept_iff lc k lc' : lifecycle_accept lc k = Ok lc' ↔ lc_step lc k lc'.
Proof. split; [apply lifecycle_accept_sound|apply lifecycle_accept_complete]. Qed.

Lemma lifecycle_accept_not_Panic lc k : lifecycle_accept lc k ≠ Panic.
Proof.
  destruct k; simpl; unfold active_operation, active_turn, validation;
    repeat (case_match; simpl); done.
Qed.

(** ** Every accepted entry preserves the invariant *)

(** Updating an open turn that stays open. *)
Lemma set_turn_wf lc tid t t' :
  lc_wf lc → open_turn lc tid t → turn_wf t' → turn_outcome t' = None →
  turn_operation_id t' = turn_operation_id t → lc_wf (set_turn lc tid t').
Proof.
  intros [Hnd Hop Htw Hto Hot Hs] [Ht Hnone] Hwf' Hnone' Hid.
  split; simpl; [done|..].
  - intros tid'. rewrite Hop. destruct (decide (tid' = tid)) as [->|];
      [rewrite lookup_insert_eq|by rewrite lookup_insert_ne]. naive_solver.
  - intros tid' t'' [[<- <-]|[? ?]]%lookup_insert_Some; eauto.
  - intros tid' t'' [[<- <-]|[? ?]]%lookup_insert_Some; [rewrite Hid|]; eauto.
  - intros oid op tid' Hoid Hopt. destruct (Hot _ _ _ Hoid Hopt) as (t0&Ht0&?).
    destruct (decide (tid' = tid)) as [->|].
    + exists t'. rewrite lookup_insert_eq. split; [done|]. congruence.
    + exists t0. by rewrite lookup_insert_ne.
  - intros oid op out Hoid Hout. destruct (Hs _ _ _ Hoid Hout) as (tid'&t0&?&Ht0&?).
    exists tid', t0. rewrite lookup_insert_ne; [done|]. intros <-. congruence.
Qed.

Lemma close_turn_wf lc tid t o :
  lc_wf lc → open_turn lc tid t → outcome_valid t o = true → lc_wf (close_turn lc tid t o).
Proof.
  intros [Hnd Hop Htw Hto Hot Hs] [Ht Hnone] Ho. split; simpl.
  - by apply NoDup_filter.
  - intros tid'. rewrite list_elem_of_filter, Hop.
    destruct (decide (tid' = tid)) as [->|]; [rewrite lookup_insert_eq|rewrite lookup_insert_ne by done].
    + split; [by intros []|]. intros (t'&[= <-]&?). done.
    + naive_solver.
  - intros tid' t'' [[<- <-]|[? ?]]%lookup_insert_Some; [apply with_outcome_wf|]; eauto.
  - intros tid' t'' [[<- <-]|[? ?]]%lookup_insert_Some; simpl; eauto.
  - intros oid op tid' Hoid Hopt. destruct (Hot _ _ _ Hoid Hopt) as (t0&Ht0&?).
    destruct (decide (tid' = tid)) as [->|].
    + exists (with_outcome t o). rewrite lookup_insert_eq. simpl. split; [done|]. congruence.
    + exists t0. by rewrite lookup_insert_ne.
  - intros oid op out Hoid Hout. destruct (Hs _ _ _ Hoid Hout) as (tid'&t0&?&Ht0&?).
    exists tid', t0. rewrite lookup_insert_ne; [done|]. intros <-. congruence.
Qed.

Lemma new_turn_wf oid : turn_wf (new_turn oid).
Proof.
  split; simpl; try done; [constructor|]. by intros [|] ? ? ?.
Qed.

Lemma start_turn_wf lc oid tid :
  lc_wf lc → operations lc !! oid = Some {| op_turn_id := None; op_outcome := None |} →
  turns lc !! tid = None →
  lc_wf {| operations := <[oid := {| op_turn_id := Some tid; op_outcome := None |}]>
                           (operations lc);
           turns := <[tid := new_turn oid]> (turns lc);
           open_turn_ids := open_turn_ids lc ++ [tid] |}.
Proof.
  intros [Hnd Hop Htw Hto Hot Hs] Hoid Htid. split; simpl.
  - apply NoDup_app. split; [done|split; [|apply NoDup_singleton]].
    intros x Hx ->%list_elem_of_singleton. apply Hop in Hx as (?&?&?). congruence.
  - intros tid'. rewrite elem_of_app, list_elem_of_singleton, Hop.
    destruct (decide (tid' = tid)) as [->|]; [rewrite lookup_insert_eq|rewrite lookup_insert_ne by done].
    + split; [|by right]. intros _. by exists (new_turn oid).
    + naive_solver.
  - intros tid' t'' [[<- <-]|[? ?]]%lookup_insert_Some; [apply new_turn_wf|eauto].
  - intros tid' t'' [[<- <-]|[? Ht'']]%lookup_insert_Some; simpl.
    + rewrite lookup_insert_eq. eauto.
    + destruct (Hto _ _ Ht'') as (op&Hop'&?). exists op.
      rewrite lookup_insert_ne; [done|]. intros Heq. rewrite <- Heq in Hop'. by simplify_eq.
  - intros oid' op tid' [[<- <-]|[? Ho]]%lookup_insert_Some; simpl.
    + intros [= <-]. exists (new_turn oid). by rewrite lookup_insert_eq.
    + intros Hopt. destruct (Hot _ _ _ Ho Hopt) as (t0&Ht0&?). exists t0.
      rewrite lookup_insert_ne; [done|]. intros <-. congruence.
  - intros oid' op out [[<- <-]|[? Ho]]%lookup_insert_Some; simpl; [done|].
    intros Hout. destruct (Hs _ _ _ Ho Hout) as (tid'&t0&?&Ht0&?).
    exists tid', t0. rewrite lookup_insert_ne; [done|]. intros <-. congruence.
Qed.

(** A new operation, or the settlement of one: the turn table is unchanged. *)
Lemma set_operation_wf lc oid op :
  lc_wf lc →
  (∀ old, operations lc !! oid = Some old → op_turn_id old = op_turn_id op) →
  (operations lc !! oid = None → op_turn_id op = None) →
  (∀ out, op_outcome op = Some out → ∃ tid t, op_turn_id op = Some tid ∧
     turns lc !! tid = Some t ∧ turn_outcome t = Some (expected_turn_outcome out)) →
  lc_wf (set_operation lc oid op).
Proof.
  intros [Hnd Hop Htw Hto Hot Hs] Hold Hnew Hout. split; simpl; [done..| | |].
  - intros tid t Ht. destruct (Hto _ _ Ht) as (op'&Hop'&?).
    destruct (decide (turn_operation_id t = oid)) as [<-|].
    + rewrite lookup_insert_eq. exists op. split; [done|]. by rewrite <- (Hold _ Hop').
    + rewrite lookup_insert_ne by done. eauto.
  - intros oid' op' tid [[<- <-]|[? Ho]]%lookup_insert_Some; [|eauto]. intros Hopt.
    destruct (operations lc !! oid) as [old|] eqn:Hl; [|by rewrite Hnew in Hopt].
    apply (Hot _ old); [done|]. by rewrite (Hold old).
  - intros oid' op' out [[<- <-]|[? Ho]]%lookup_insert_Some; eauto.
Qed.

Lemma new_batch_wf bid calls :
  calls ≠ [] → NoDup (call_id <$> calls) →
  batch_wf {| batch_id := bid; call_ids := call_id <$> calls; results := [] |}.
Proof. intros ??. split; simpl; [by destruct calls|done|apply prefix_nil]. Qed.

Lemma lc_step_wf lc k lc' : lc_wf lc → lc_step lc k lc' → lc_wf lc'.
Proof.
  intros Hwf Hstep.
  assert (∀ tid t, open_turn lc tid t → turn_wf t) as Htw.
  { intros tid t [Ht _]. by apply (lc_turn_wf _ Hwf tid). }
  destruct Hstep as [oid Hoid|oid tid Hoid Htid|tid ps t Hne Hps Ht|tid mid bid bs t Ht
    |tid r t l b Ht Hl|tid bs t Hbs Ht|tid f t Ht|tid o t Ht
    |oid o u g tid t Hop Ht Htop Hto|summary covers|title]; [..|done|done];
    try pose proof (proj2 Ht) as Hnone;
    rewrite <- ?rounds_answered_true, <- ?outcome_fits_true in *.
  - apply set_operation_wf; simpl; naive_solver.
  - by apply start_turn_wf.
  - eapply set_turn_wf; eauto using with_user_message_wf.
  - eapply set_turn_wf; eauto. apply with_new_batch_wf; eauto using new_batch_wf.
  - eapply set_turn_wf; eauto. eapply with_pushed_result_wf; eauto.
  - eapply set_turn_wf; eauto using with_assistant_message_wf.
  - eapply set_turn_wf; eauto using with_failure_wf.
  - by apply close_turn_wf.
  - apply set_operation_wf; simpl; naive_solver.
Qed.

(** ** Sequences of entries *)
Definition lc_accept_all (lc : LifecycleProjection) (kinds : list SessionEntryKind)
    : answer LifecycleProjection := try_fold lifecycle_accept lc kinds.

(** A sequence of entries the grammar allows. *)
Inductive lc_run (lc : LifecycleProjection) : list SessionEntryKind → LifecycleProjection → Prop :=
| run_nil : lc_run lc [] lc
| run_cons k kinds lc1 lc2 : lc_step lc k lc1 → lc_run lc1 kinds lc2 → lc_run lc (k :: kinds) lc2.

Lemma lc_accept_all_run lc kinds lc' : lc_accept_all lc kinds = Ok lc' ↔ lc_run lc kinds lc'.
Proof.
  unfold lc_accept_all. revert lc. induction kinds as [|k kinds IH]; intros lc; simpl.
  - split; [intros [= <-]; constructor|by inversion 1].
  - rewrite bind_Ok. split.
    + intros (lc1 & Hk%lifecycle_accept_iff & Hr%IH). by econstructor.
    + intros H. inversion H; subst. eexists. split; [by apply lifecycle_accept_iff|by apply IH].
Qed.

(** What relates the two ends of an accepted sequence. *)
Lemma lc_accept_all_ind (P : LifecycleProjection → LifecycleProjection → Prop) lc kinds lc' :
  (∀ a, P a a) →
  (∀ a k b c, k ∈ kinds → lc_step a k b → P b c → P a c) →
  lc_accept_all lc kinds = Ok lc' → P lc lc'.
Proof.
  intros Hrefl Hstep. revert lc. induction kinds as [|k kinds IH]; intros lc; simpl.
  { intros [= <-]. apply Hrefl. }
  unfold lc_accept_all in *. simpl. intros (a&Ha&Hf)%bind_Ok.
  apply lifecycle_accept_iff in Ha.
  eapply Hstep; [|done|]; [set_solver|].
  apply IH; [|done]. intros; eapply Hstep; [|done..]; set_solver.
Qed.

Lemma lc_accept_all_wf lc kinds lc' :
  lc_wf lc → lc_accept_all lc kinds = Ok lc' → lc_wf lc'.
Proof.
  intros Hwf Hf. revert Hwf.
  apply (lc_accept_all_ind (λ a b, lc_wf a → lc_wf b) _ kinds); [done| |done].
  eauto using lc_step_wf.
Qed.

Lemma lc_step_settled_turn lc k lc' tid t :
  lc_step lc k lc' → turns lc !! tid = Some t → turn_outcome t ≠ None →
  turns lc' !! tid = Some t.
Proof.
  intros Hstep Ht Ho.
  assert (∀ tid' t', open_turn lc tid' t' → tid' ≠ tid) as Hne.
  { intros tid' t' [Ht' ?] ->. congruence. }
  destruct Hstep; simpl; try done; rewrite lookup_insert_ne; try done; try by eapply Hne.
  congruence.
Qed.

Lemma lc_step_settled_operation lc k lc' oid op :
  lc_step lc k lc' → operations lc !! oid = Some op → op_outcome op ≠ None →
  operations lc' !! oid = Some op.
Proof.
  intros Hstep Hop Ho. destruct Hstep; simpl; try done; rewrite lookup_insert_ne; try done;
    intros ->; simplify_eq; simpl in *; congruence.
Qed.

Lemma lc_accept_all_settled lc kinds lc' :
  lc_accept_all lc kinds = Ok lc' →
  (∀ tid t, turns lc !! tid = Some t → turn_outcome t ≠ None → turns lc' !! tid = Some t) ∧
  (∀ oid op, operations lc !! oid = Some op → op_outcome op ≠ None →
             operations lc' !! oid = Some op).
Proof.
  intros Hf. apply (lc_accept_all_ind (λ lc lc',
    (∀ tid t, turns lc !! tid = Some t → turn_outcome t ≠ None → turns lc' !! tid = Some t) ∧
    (∀ oid op, operations lc !! oid = Some op → op_outcome op ≠ None →
               operations lc' !! oid = Some op)) _ kinds); [done| |done].
  intros a k b c _ Hstep [Ht Ho].
  split; eauto using lc_step_settled_turn, lc_step_settled_operation.
Qed.

(** ** The batches of a turn as a function of the entries *)
Definition batches_of (lc : LifecycleProjection) (tid : TurnId) : list ToolBatchRecord :=
  match turns lc !! tid with Some t => tool_batches t | None => [] end.

Definition opened_batch (bid : ToolBatchId) (bs : list SessionAssistantBlock)
    : ToolBatchRecord :=
  {| batch_id := bid; call_ids := call_id <$> filter_map block_call bs; results := [] |}.

Definition push_newest (id : ToolCallId) (l : list ToolBatchRecord) : list ToolBatchRecord :=
  match last l with Some b => set_last l (push_result b id) | None => [] end.

Definition batches_after (tid : TurnId) (l : list ToolBatchRecord) (k : SessionEntryKind)
    : list ToolBatchRecord :=
  match k with
  | AssistantToolCallBatch tid' _ bid bs => if tid' == tid then l ++ [opened_batch bid bs] else l
  | ToolResult tid' _ r => if tid' == tid then push_newest (result_call_id r) l else l
  | _ => l
  end.

Lemma batches_of_set_turn lc tid t tid' :
  batches_of (set_turn lc tid t) tid' =
    if tid == tid' then tool_batches t else batches_of lc tid'.
Proof.
  unfold batches_of, set_turn. simpl. case_bool_decide as Htid.
  - subst. by rewrite lookup_insert_eq.
  - by rewrite lookup_insert_ne.
Qed.

Lemma lc_step_batches lc k lc' tid :
  lc_step lc k lc' → batches_of lc' tid = batches_after tid (batches_of lc tid) k.
Proof.
  assert (∀ tid t, open_turn lc tid t → batches_of lc tid = tool_batches t) as Hb.
  { intros tid' t [Ht _]. unfold batches_of. by rewrite Ht. }
  intros Hstep. destruct Hstep as [oid Hoid|oid tid' Hoid Htid|tid' ps t Hne Hps Ht
    |tid' mid bid bs t Ht|tid' r t l b Ht Hl|tid' bs t Hbs Ht|tid' f t Ht|tid' o t Ht
    |oid o u g tid' t Hop Ht Htop Hto|summary covers|title]; simpl;
    rewrite ?batches_of_set_turn; try pose proof (Hb _ _ Ht) as Hbt; simpl;
    try (case_bool_decide; subst; by rewrite ?Hbt); try done.
  - unfold batches_of. simpl. destruct (decide (tid' = tid)) as [->|].
    + by rewrite lookup_insert_eq, Htid.
    + by rewrite lookup_insert_ne.
  - case_bool_decide; [subst tid'|done]. rewrite Hbt. unfold push_newest.
    by rewrite Hl, last_snoc, set_last_snoc.
  - unfold batches_of in *. simpl. destruct (decide (tid' = tid)) as [->|].
    + by rewrite lookup_insert_eq, Hbt.
    + by rewrite lookup_insert_ne.
Qed.

Lemma lc_accept_all_batches lc kinds lc' tid :
  lc_accept_all lc kinds = Ok lc' →
  batches_of lc' tid = foldl (batches_after tid) (batches_of lc tid) kinds.
Proof.
  revert lc. induction kinds as [|k kinds IH]; intros lc; unfold lc_accept_all; simpl.
  { by intros [= <-]. }
  intros (a&Ha&Hf)%bind_Ok. apply lifecycle_accept_iff in Ha.
  rewrite (IH a Hf). by rewrite (lc_step_batches _ _ _ _ Ha).
Qed.

Lemma lc_atomic_batches lc :
  lc_atomic lc ↔ ∀ tid, Forall batch_atomic (batches_of lc tid).
Proof.
  unfold lc_atomic, turn_atomic, batches_of. split.
  - intros Hat tid. destruct (turns lc !! tid) eqn:Ht; [by eapply Hat|constructor].
  - intros Hat tid t Ht. specialize (Hat tid). by rewrite Ht in Hat.
Qed.

(** ** What [validate_transaction] admits *)

(** The completion marks a save point may carry, by how it cancels the turn. *)
Definition marks_allowed (cancelled : option CancelReason) (outs : list ToolResultOutcome)
    : Prop :=
  match cancelled with
  | None => ResultCancelled ∉ outs ∧ ResultInterrupted ∉ outs
  | Some ReasonAbandoned => Forall (.= ResultInterrupted) outs
  | Some _ => ∃ started n, outs = started ++ replicate n ResultCancelled ∧
                           ResultCancelled ∉ started
  end.

(** The tool results of a transaction: all of one turn's newest batch. *)
Definition results_of (kinds : list SessionEntryKind) : list SessionToolResult :=
  snd <$> filter_map as_tool_result kinds.

Lemma any_is_interrupted l :
  any is_interrupted l = false ↔ ResultInterrupted ∉ (λ r, result_outcome r.2) <$> l.
Proof.
  rewrite any_false, Forall_forall, list_elem_of_fmap. unfold is_interrupted.
  setoid_rewrite bool_decide_eq_false. split.
  - intros Hall (x&Heq&Hin). by apply (Hall x).
  - intros Hni x Hin Heq. apply Hni. by exists x.
Qed.

Lemma position_cancelled_None l :
  position is_cancelled l = None ↔ ResultCancelled ∉ (λ r, result_outcome r.2) <$> l.
Proof.
  rewrite position_None, Forall_forall, list_elem_of_fmap. unfold is_cancelled.
  setoid_rewrite bool_decide_eq_false. split.
  - intros Hall (x&Heq&Hin). by apply (Hall x).
  - intros Hni x Hin Heq. apply Hni. by exists x.
Qed.

Lemma all_cancelled_replicate l :
  all is_cancelled l = true ↔
  (λ r, result_outcome r.2) <$> l = replicate (length l) ResultCancelled.
Proof.
  rewrite all_Forall. unfold is_cancelled. induction l as [|x l IH]; simpl; [by split|].
  rewrite Forall_cons, IH, bool_decide_eq_true. split; [by intros [? ?]; f_equal|].
  intros Heq. by injection Heq.
Qed.

Lemma cancelled_suffix_iff l :
  match position is_cancelled l with
  | None => true
  | Some first => all is_cancelled (drop first l)
  end = true ↔
  ∃ started n, (λ r, result_outcome r.2) <$> l = started ++ replicate n ResultCancelled ∧
               ResultCancelled ∉ started.
Proof.
  set (f := λ r : TurnId * ToolBatchId * SessionToolResult, result_outcome r.2).
  induction l as [|x l IH].
  { split; [|done]. intros _. exists [], 0. split; [done|]. by intros ?%elem_of_nil. }
  rewrite fmap_cons. simpl position. unfold is_cancelled at 1. fold (f x).
  case_bool_decide as Hx.
  - rewrite all_cancelled_replicate. fold f. simpl drop. rewrite fmap_cons. simpl length. split.
    + intros Heq. exists [], (S (length l)). split; [done|]. by intros ?%elem_of_nil.
    + intros ([|o started]&n&Heq&Hni).
      * assert (S (length l) = n) as ->; [|done]. apply (f_equal length) in Heq.
        simpl in Heq. by rewrite length_replicate, length_fmap in Heq.
      * injection Heq as Ho _. rewrite Hx in Ho. set_solver.
  - assert (match S <$> position is_cancelled l with
            | Some first => all is_cancelled (drop first (x :: l)) | None => true end
      = match position is_cancelled l with
        | Some first => all is_cancelled (drop first l) | None => true end) as ->
      by by destruct (position is_cancelled l).
    rewrite IH. split.
    + intros (started&n&Heq&Hni). exists (f x :: started), n. rewrite Heq.
      split; [done|]. by apply not_elem_of_cons.
    + intros ([|o started]&n&Heq&Hni).
      * destruct n; [done|]. by injection Heq.
      * injection Heq as _ Heq. exists started, n. split; [done|set_solver].
Qed.

Lemma valid_marks_iff cancelled l :
  valid_marks cancelled l = true ↔
  marks_allowed cancelled ((λ r, result_outcome r.2) <$> l).
Proof.
  unfold valid_marks, marks_allowed. destruct cancelled as [[]|].
  - apply cancelled_suffix_iff.
  - apply cancelled_suffix_iff.
  - rewrite all_Forall, Forall_fmap. apply Forall_iff. intros x. unfold is_interrupted. simpl.
    apply bool_decide_eq_true.
  - rewrite andb_true_iff, !negb_true_iff, any_is_interrupted, is_some_false,
      position_cancelled_None. tauto.
Qed.

Lemma exact_results_iff tid b expected l :
  exact_results tid b expected l = true ↔
  Forall (λ r, r.1 = (tid, batch_id b)) l ∧ (λ r, result_call_id r.2) <$> l = expected.
Proof.
  unfold exact_results. rewrite andb_true_iff, bool_decide_eq_true.
  revert expected. induction l as [|[[t i] r] l IH]; intros [|e es].
  - by split.
  - split; [by intros []|by intros []].
  - split; [by intros []|by intros []].
  - specialize (IH es). rewrite Forall_cons, fmap_cons. simpl.
    rewrite !andb_true_iff, !bool_decide_eq_true. split.
    + intros [? [[[-> ->] ->] ?]]. destruct IH as [[? Hes] _]; [split; [lia|done]|].
      split; [done|]. by f_equal.
    + intros [[? ?] Heq]. injection Heq as <- Heq. destruct IH as [_ [? ?]]; [done|].
      simplify_eq. split; [lia|done].
Qed.

(** A validated transaction with tool results: they answer the rest of one
    turn's newest batch, in order, with marks its cancellation allows. *)
Record results_save_point (lc : LifecycleProjection) (kinds : list SessionEntryKind)
    (tid : TurnId) (older : list ToolBatchRecord) (b : ToolBatchRecord) : Prop := {
  rsp_batches : batches_of lc tid = older ++ [b];
  rsp_owner : Forall (λ r, r.1 = (tid, batch_id b)) (filter_map as_tool_result kinds);
  rsp_prefix : length (results b) ≤ length (call_ids b);
  rsp_exact : result_call_id <$> results_of kinds = drop (length (results b)) (call_ids b);
  rsp_marks : marks_allowed (find_map (cancel_reason_of tid) kinds)
                (result_outcome <$> results_of kinds);
  rsp_alone : Forall (λ k, is_assistant_or_batch k = false) kinds
}.

Lemma validate_transaction_results lc kinds u :
  validate_transaction lc kinds = Ok u → results_of kinds ≠ [] →
  ∃ tid older b, results_save_point lc kinds tid older b.
Proof.
  unfold validate_transaction, results_of, validation.
  destruct (filter_map as_tool_result kinds) as [|[[tid bid] r] rs] eqn:Hrs; [done|].
  set (l := (tid, bid, r) :: rs) in *. intros H _.
  destruct (any is_assistant_or_batch kinds) eqn:Hany; [done|].
  destruct (turns lc !! tid) as [t|] eqn:Ht; [|done].
  destruct (last (tool_batches t)) as [b|] eqn:Hl; [|done].
  apply bind_Ok in H as (expected&Hexp&H). apply slice_from_Ok in Hexp as [Hle ->].
  destruct (exact_results _ _ _ _) eqn:Hex; simpl in H; [|done].
  destruct (valid_marks _ _) eqn:Hm; simpl in H; [|done].
  apply exact_results_iff in Hex as [Hown Hids]. apply valid_marks_iff in Hm.
  apply last_Some_snoc in Hl as [older Hl]. exists tid, older, b. split.
  - unfold batches_of. by rewrite Ht.
  - by rewrite Hrs.
  - done.
  - unfold results_of. rewrite Hrs. fold l. by rewrite <- list_fmap_compose.
  - unfold results_of. rewrite Hrs. fold l. by rewrite <- list_fmap_compose.
  - by apply any_false.
Qed.

(** The save points a transaction may be. *)
Definition save_point (lc : LifecycleProjection) (kinds : list SessionEntryKind) : Prop :=
  (results_of kinds = [] ∧
   ∀ tid bs t, AssistantMessage tid bs ∈ kinds → turns lc !! tid = Some t →
               rounds_answered t) ∨
  (results_of kinds ≠ [] ∧ ∃ tid older b, results_save_point lc kinds tid older b).

Lemma incomplete_assistant_None lc kinds :
  find_map (incomplete_assistant_turn lc) kinds = None ↔
  ∀ tid bs t, AssistantMessage tid bs ∈ kinds → turns lc !! tid = Some t →
              rounds_answered t.
Proof.
  setoid_rewrite <- rounds_answered_true. rewrite find_map_None, Forall_forall. split.
  - intros Hall tid bs t Hin Ht. specialize (Hall _ Hin). simpl in Hall. rewrite Ht in Hall.
    by destruct (tool_rounds_complete t).
  - intros Hall k Hin. destruct k; simpl; try done.
    destruct (turns lc !! turn_id) as [t|] eqn:Ht; [|done]. by rewrite (Hall _ _ _ Hin Ht).
Qed.

Lemma validate_transaction_complete lc kinds :
  save_point lc kinds → validate_transaction lc kinds = Ok tt.
Proof.
  unfold validate_transaction, validation. intros [[Hr Hall]|[Hr (tid&older&b&[Hb Ho Hle Hex Hm Hal])]].
  - unfold results_of in Hr. destruct (filter_map as_tool_result kinds); [|done].
    apply incomplete_assistant_None in Hall. by rewrite Hall.
  - unfold results_of in *.
    destruct (filter_map as_tool_result kinds) as [|[[tid' bid] r] rs] eqn:Hl; [done|].
    set (l := (tid', bid, r) :: rs) in *.
    apply any_false in Hal. rewrite Hal.
    assert (tid' = tid) as -> by by apply Forall_cons in Ho as [[= -> ->] _].
    unfold batches_of in Hb. destruct (turns lc !! tid) as [t|]; [|by destruct older].
    rewrite Hb, last_snoc, slice_from_total by done. simpl mbind.
    rewrite <- list_fmap_compose in Hex, Hm.
    rewrite (proj2 (exact_results_iff tid b _ l)) by done.
    by rewrite (proj2 (valid_marks_iff _ l)).
Qed.

Lemma validate_transaction_not_Panic lc kinds :
  lc_wf lc → validate_transaction lc kinds ≠ Panic.
Proof.
  intros Hwf. unfold validate_transaction, validation.
  destruct (filter_map as_tool_result kinds) as [|[[tid bid] r] rs]; [by case_match|].
  destruct (any _ _); [done|]. destruct (turns lc !! tid) as [t|] eqn:Ht; [|done].
  destruct (last (tool_batches t)) as [b|] eqn:Hl; [|done].
  apply last_Some_snoc in Hl as [older Hl].
  destruct (lc_turn_wf _ Hwf _ _ Ht) as [_ Hb _ _ _ _ _].
  rewrite Hl, Forall_app, Forall_singleton in Hb. destruct Hb as [_ [_ _ Hp]].
  rewrite slice_from_total by by apply prefix_length. simpl. by repeat case_match.
Qed.

(** ** All-or-nothing tool results *)
Lemma foldl_batches_no_results tid kinds l :
  results_of kinds = [] → Forall batch_atomic l →
  Forall batch_atomic (foldl (batches_after tid) l kinds).
Proof.
  unfold results_of. revert l. induction kinds as [|k kinds IH]; intros l Hk Hl; [done|].
  change (filter_map as_tool_result (k :: kinds)) with
    (match as_tool_result k with
     | Some r => r :: filter_map as_tool_result kinds
     | None => filter_map as_tool_result kinds end) in Hk.
  destruct (as_tool_result k) eqn:Hr; [done|]. simpl. apply IH; [done|].
  destruct k; simpl in *; try done. case_bool_decide; [|done].
  apply Forall_app. split; [done|]. apply Forall_singleton. by left.
Qed.

Lemma foldl_batches_results tid bid kinds older b :
  Forall (λ k, is_assistant_or_batch k = false) kinds →
  Forall (λ r, r.1 = (tid, bid)) (filter_map as_tool_result kinds) →
  foldl (batches_after tid) (older ++ [b]) kinds =
    older ++ [{| batch_id := batch_id b; call_ids := call_ids b;
                 results := results b ++ (result_call_id <$> results_of kinds) |}].
Proof.
  unfold results_of. revert b. induction kinds as [|k kinds IH]; intros b Hk Hr.
  { simpl. rewrite app_nil_r. by destruct b. }
  apply Forall_cons in Hk as [Hk Hks].
  assert (∀ tid' bid' r, k = ToolResult tid' bid' r →
    filter_map as_tool_result (k :: kinds) =
      (tid', bid', r) :: filter_map as_tool_result kinds) as Hcons by by intros ??? ->.
  assert (as_tool_result k = None →
    filter_map as_tool_result (k :: kinds) = filter_map as_tool_result kinds) as Hskip.
  { intros Hnone. unfold filter_map. simpl. by rewrite Hnone. }
  destruct k; try done; simpl foldl;
    try (rewrite Hskip in * by done; by apply IH).
  rewrite (Hcons _ _ _ eq_refl) in *. apply Forall_cons in Hr as [Htid Hr].
  injection Htid as -> ->. rewrite bool_decide_eq_true_2 by done. unfold push_newest.
  rewrite last_snoc, set_last_snoc, IH by done. simpl. by rewrite <- app_assoc.
Qed.

Lemma foldl_batches_other tid tid' bid kinds l :
  tid' ≠ tid →
  Forall (λ k, is_assistant_or_batch k = false) kinds →
  Forall (λ r, r.1 = (tid, bid)) (filter_map as_tool_result kinds) →
  foldl (batches_after tid') l kinds = l.
Proof.
  intros Hne. induction kinds as [|k kinds IH]; [done|]. intros Hk Hr.
  apply Forall_cons in Hk as [Hk Hks]. simpl.
  destruct k; simpl in *; try done; try by apply IH.
  apply Forall_cons in Hr as [Htid Hr]. simpl in Htid. simplify_eq.
  rewrite bool_decide_eq_false_2 by done. by apply IH.
Qed.

Lemma validated_transaction_atomic lc kinds u lc' :
  lc_atomic lc → validate_transaction lc kinds = Ok u → lc_accept_all lc kinds = Ok lc' →
  lc_atomic lc'.
Proof.
  rewrite !lc_atomic_batches. intros Hat Hv Hf tid.
  rewrite (lc_accept_all_batches _ _ _ tid Hf).
  destruct (decide (results_of kinds = [])) as [Hnil|Hne].
  { by apply foldl_batches_no_results. }
  destruct (validate_transaction_results _ _ _ Hv Hne) as (tid'&older&b&[Hb Ho Hle Hex _ Hal]).
  destruct (decide (tid = tid')) as [->|].
  - rewrite Hb, (foldl_batches_results _ (batch_id b)) by done. specialize (Hat tid').
    rewrite Hb, Forall_app in Hat. apply Forall_app. split; [tauto|].
    apply Forall_singleton. right. simpl. rewrite Hex.
    destruct Hat as [_ Hat]. rewrite Forall_singleton in Hat. unfold batch_atomic in Hat.
    destruct Hat as [Hr|Hr]; rewrite Hr; [done|].
    by rewrite drop_all, app_nil_r.
  - by rewrite (foldl_batches_other tid' _ (batch_id b)).
Qed.

(** ** Open turns *)
Definition unfilled (b : ToolBatchRecord) : option UnfilledBatch :=
  if is_complete b then None
  else Some {| unfilled_tool_batch_id := batch_id b;
               unfilled_call_ids := drop (length (results b)) (call_ids b) |}.

Definition open_info (tid : TurnId) (t : TurnRecord) : OpenTurnInfo :=
  {| open_operation_id := turn_operation_id t; open_turn_id := tid;
     unfilled_batch := last (tool_batches t) ≫= unfilled |}.

(** The open turns in the order they started, one row each. *)
Lemma open_turns_spec lc :
  lc_wf lc →
  ∃ infos, open_turns lc = Ok infos ∧
    Forall2 (λ tid info, ∃ t, open_turn lc tid t ∧ info = open_info tid t)
      (open_turn_ids lc) infos.
Proof.
  intros Hwf. unfold open_turns.
  assert (Forall (λ tid, ∃ t, open_turn lc tid t) (open_turn_ids lc)) as Hall.
  { apply Forall_forall. intros tid Hin. by apply (lc_open _ Hwf). }
  induction Hall as [|tid tids [t [Ht Ho]] _ (infos&IH&IH2)]; [by exists []|].
  exists (open_info tid t :: infos). split; [|constructor; [by exists t|done]].
  cbn [mapM]. unfold mapM in IH |- *. rewrite Ht. simpl.
  destruct (lc_turn_wf _ Hwf _ _ Ht) as [_ Hb _ _ _ _ _]. unfold open_info, unfilled.
  destruct (last (tool_batches t)) as [b|] eqn:Hl; simpl; [|by rewrite IH].
  destruct (is_complete b) eqn:Hc; simpl; [by rewrite IH|].
  apply last_Some_snoc in Hl as [older Hl]. rewrite Hl, Forall_app, Forall_singleton in Hb.
  destruct Hb as [_ [_ _ Hp]]. rewrite slice_from_total by by apply prefix_length.
  simpl. by rewrite IH.
Qed.
