(* ===== verification/SessionContext.v ===== *)
(** The context half of the session projection: the messages a model call
    sees, as a function of the log. *)

From S2P Require Import Prelude RustStr Session.
Import session.

(** ** Specification: what a log says *)
Definition message_of (k : SessionEntryKind) : option ContextMessage :=
  match k with
  | UserMessage _ ps => Some (CtxUser ps)
  | AssistantMessage _ bs => Some (CtxAssistant bs)
  | AssistantToolCallBatch _ _ bid bs => Some (CtxAssistantToolCalls bid bs)
  | ToolResult _ _ r => Some (CtxToolResult (result_call_id r) (result_outcome r))
  | _ => None
  end.

Definition log_messages (L : list SessionEntry) : list ContextMessage :=
  filter_map (λ e, message_of (entry_kind e)) L.

Definition settlement_of (e : SessionEntry)
    : option (EntryId * option SessionTokenUsage * option SessionGenerationChoice) :=
  match entry_kind e with
  | OperationSettled _ _ u g => Some (entry_id e, u, g)
  | _ => None
  end.

Definition compaction_of (e : SessionEntry) : option (string * EntryId) :=
  match entry_kind e with
  | Compaction summary covers => Some (summary, covers)
  | _ => None
  end.

Definition settlements (L : list SessionEntry) := filter_map settlement_of L.
Definition compactions (L : list SessionEntry) := filter_map compaction_of L.

(** The entries after the one with id [eid]. *)
Fixpoint entries_after (eid : EntryId) (L : list SessionEntry) : list SessionEntry :=
  match L with
  | [] => []
  | e :: L => if entry_id e == eid then L else entries_after eid L
  end.

(** The messages of the log: everything, or the latest compaction's summary
    followed by what the entries after its boundary say. *)
Definition log_context (L : list SessionEntry) : list ContextMessage :=
  match last (compactions L) with
  | None => log_messages L
  | Some (summary, covers) => CtxSummary summary :: log_messages (entries_after covers L)
  end.

(** ** The invariant *)

(** The boundary an entry at position [i] of the log records. *)
Definition boundary_at (L : list SessionEntry) (i : nat) : SettledBoundary :=
  {| entry_ordinal := i; message_count := length (log_messages (take i L)) |}.

Definition settled_at (L : list SessionEntry) (i : nat) (eid : EntryId) : Prop :=
  ∃ e, L !! i = Some e ∧ entry_id e = eid ∧ is_Some (settlement_of e).

Record ctx_refines (L : list SessionEntry) (c : ContextProjection) : Prop := {
  ctx_messages : source_messages c = log_messages L;
  ctx_boundaries : ∀ eid b, settled_boundaries c !! eid = Some b ↔
    ∃ i, settled_at L i eid ∧ b = boundary_at L i;
  ctx_compaction : match last (compactions L) with
    | None => latest_compaction c = None
    | Some (summary, covers) => ∃ b, settled_boundaries c !! covers = Some b ∧
        latest_compaction c = Some {| compaction_summary := summary;
          compaction_covers_up_to := covers; compaction_boundary := b |}
    end;
  ctx_usage : latest_usage c = last (settlements L) ≫= (λ s, s.1.2);
  ctx_generation : latest_generation c = last (settlements L) ≫= (λ s, s.2)
}.

(** What keeps [messages] within range for any log, its ids unique or not. *)
Record ctx_safe (c : ContextProjection) : Prop := {
  safe_boundaries : ∀ eid b, settled_boundaries c !! eid = Some b →
    message_count b ≤ length (source_messages c);
  safe_compaction : ∀ k, latest_compaction c = Some k →
    message_count (compaction_boundary k) ≤ length (source_messages c)
}.

Lemma context_default_refines : ctx_refines [] context_default.
Proof.
  split; simpl; try done. intros eid b. rewrite lookup_empty. split; [done|].
  intros (i&(e&He&_)&_). by rewrite lookup_nil in He.
Qed.

Lemma context_default_safe : ctx_safe context_default.
Proof. split; simpl; intros ?; [intros ?; by rewrite lookup_empty|done]. Qed.

(** The four ways an entry changes the context. *)
Lemma context_accept_Ok c e n c' :
  context_accept c e n = Ok c' →
  (∃ m, message_of (entry_kind e) = Some m ∧ settlement_of e = None ∧ compaction_of e = None ∧
        c' = push_message c m) ∨
  (∃ u g, message_of (entry_kind e) = None ∧ settlement_of e = Some (entry_id e, u, g) ∧
          compaction_of e = None ∧
          c' = {| source_messages := source_messages c;
                  settled_boundaries := <[entry_id e := {| entry_ordinal := n;
                    message_count := length (source_messages c) |}]> (settled_boundaries c);
                  latest_compaction := latest_compaction c;
                  latest_usage := u; latest_generation := g |}) ∨
  (∃ summary covers b, message_of (entry_kind e) = None ∧ settlement_of e = None ∧
          compaction_of e = Some (summary, covers) ∧ summary ≠ "" ∧
          settled_boundaries c !! covers = Some b ∧
          (∀ k, latest_compaction c = Some k →
                entry_ordinal (compaction_boundary k) < entry_ordinal b) ∧
          c' = {| source_messages := source_messages c;
                  settled_boundaries := settled_boundaries c;
                  latest_compaction := Some {| compaction_summary := summary;
                    compaction_covers_up_to := covers; compaction_boundary := b |};
                  latest_usage := latest_usage c; latest_generation := latest_generation c |}) ∨
  (message_of (entry_kind e) = None ∧ settlement_of e = None ∧ compaction_of e = None ∧ c' = c).
Proof.
  unfold context_accept, settlement_of, compaction_of, validation.
  destruct (entry_kind e); simpl; intros H; try (injection H as <-);
    [eauto 10 .. | |]; eauto 12.
  destruct (str_is_empty summary) eqn:Hs; [done|].
  destruct (settled_boundaries c !! covers_up_to) as [b|] eqn:Hb; [|done].
  right; right; left. exists summary, covers_up_to, b. rust_bool.
  destruct (latest_compaction c) as [k|] eqn:Hk.
  - case_bool_decide; [done|]. injection H as <-. repeat split; try done.
    intros k' [= <-]. lia.
  - injection H as <-. by repeat split.
Qed.

Lemma context_accept_not_Panic c e n : context_accept c e n ≠ Panic.
Proof. unfold context_accept, validation. by repeat case_match. Qed.

Lemma context_accept_safe c e n c' : ctx_safe c → context_accept c e n = Ok c' → ctx_safe c'.
Proof.
  intros [Hb Hk] [(m&_&_&_&->)|[(u&g&_&_&_&->)|[(s&cv&b&_&_&_&_&Hcv&_&->)|(_&_&_&->)]]]%context_accept_Ok;
    [..|done]; split; simpl.
  - intros eid b Hl. rewrite length_app. apply Hb in Hl. simpl. lia.
  - intros k Hl. rewrite length_app. apply Hk in Hl. simpl. lia.
  - intros eid b [[_ <-]|[_ Hl]]%lookup_insert_Some; [done|eauto].
  - done.
  - done.
  - intros k [= <-]. simpl. eauto.
Qed.

Lemma messages_safe c : ctx_safe c → ∃ ms, messages c = Ok ms.
Proof.
  intros [_ Hk]. unfold messages. destruct (latest_compaction c) as [k|] eqn:Hc; [|eauto].
  rewrite slice_from_total by by apply Hk. simpl. eauto.
Qed.

(** ** One more entry in the log *)
Lemma log_messages_snoc L e :
  log_messages (L ++ [e]) =
    log_messages L ++ match message_of (entry_kind e) with Some m => [m] | None => [] end.
Proof. unfold log_messages. by rewrite filter_map_snoc. Qed.

Lemma boundary_at_snoc L e i : i < length L → boundary_at (L ++ [e]) i = boundary_at L i.
Proof. intros. unfold boundary_at. by rewrite take_app_le by lia. Qed.

Lemma boundary_at_length L e :
  boundary_at (L ++ [e]) (length L) =
    {| entry_ordinal := length L; message_count := length (log_messages L) |}.
Proof. unfold boundary_at. by rewrite take_app_length. Qed.

Lemma settled_at_lt L i eid : settled_at L i eid → i < length L.
Proof. intros (e&He&_). by apply lookup_lt_Some in He. Qed.

Lemma settled_at_snoc L e i eid :
  settled_at (L ++ [e]) i eid ↔
  settled_at L i eid ∨ i = length L ∧ entry_id e = eid ∧ is_Some (settlement_of e).
Proof.
  unfold settled_at. split.
  - intros (e'&He&Hid&Hs). apply lookup_snoc_Some in He as [[? He]|[-> ->]]; eauto 10.
  - intros [(e'&He&Hid&Hs)|(->&Hid&Hs)].
    + exists e'. rewrite lookup_app_l by by eapply lookup_lt_Some. done.
    + exists e. by rewrite lookup_app_r, Nat.sub_diag by lia.
Qed.

(** A log entry that settles nothing leaves the boundaries as they are. *)
Lemma boundaries_unsettled L e (m : gmap EntryId SettledBoundary) :
  settlement_of e = None →
  (∀ eid b, m !! eid = Some b ↔ ∃ i, settled_at L i eid ∧ b = boundary_at L i) →
  ∀ eid b, m !! eid = Some b ↔
    ∃ i, settled_at (L ++ [e]) i eid ∧ b = boundary_at (L ++ [e]) i.
Proof.
  intros He Hm eid b. rewrite Hm. split.
  - intros (i&Hi&->). exists i. rewrite settled_at_snoc, boundary_at_snoc by by eapply settled_at_lt.
    by auto.
  - intros (i&[Hi|(_&_&Hs)]%settled_at_snoc&->); [|rewrite He in Hs; by destruct Hs].
    exists i. by rewrite boundary_at_snoc by by eapply settled_at_lt.
Qed.

Lemma boundaries_settled L e (m : gmap EntryId SettledBoundary) :
  is_Some (settlement_of e) → entry_id e ∉ entry_id <$> L →
  (∀ eid b, m !! eid = Some b ↔ ∃ i, settled_at L i eid ∧ b = boundary_at L i) →
  ∀ eid b, <[entry_id e := {| entry_ordinal := length L;
                              message_count := length (log_messages L) |}]> m !! eid = Some b ↔
    ∃ i, settled_at (L ++ [e]) i eid ∧ b = boundary_at (L ++ [e]) i.
Proof.
  intros He Hfresh Hm eid b. rewrite lookup_insert_Some, Hm. split.
  - intros [[<- <-]|[Hne (i&Hi&->)]].
    + exists (length L). rewrite settled_at_snoc, boundary_at_length. auto.
    + exists i. rewrite settled_at_snoc, boundary_at_snoc by by eapply settled_at_lt. auto.
  - intros (i&[Hi|(->&<-&_)]%settled_at_snoc&->).
    + right. split.
      * intros Heq. apply Hfresh. destruct Hi as (e'&He'&Hid&_).
        apply list_elem_of_fmap. exists e'. split; [congruence|]. by eapply list_elem_of_lookup_2.
      * exists i. by rewrite boundary_at_snoc by by eapply settled_at_lt.
    + left. by rewrite boundary_at_length.
Qed.

Lemma settlements_snoc L e :
  settlements (L ++ [e]) = settlements L ++ match settlement_of e with Some s => [s] | None => [] end.
Proof. apply filter_map_snoc. Qed.
Lemma compactions_snoc L e :
  compactions (L ++ [e]) = compactions L ++ match compaction_of e with Some s => [s] | None => [] end.
Proof. apply filter_map_snoc. Qed.

Lemma context_accept_refines L c e c' :
  ctx_refines L c → entry_id e ∉ entry_id <$> L →
  context_accept c e (length L) = Ok c' → ctx_refines (L ++ [e]) c'.
Proof.
  intros [Hm Hb Hc Hu Hg] Hfresh H.
  apply context_accept_Ok in H as
    [(m&He&Hs&Hk&->)|[(u&g&He&Hs&Hk&->)|[(s&cv&b&He&Hs&Hk&_&Hcv&_&->)|(He&Hs&Hk&->)]]];
    split; simpl;
    rewrite ?log_messages_snoc, ?settlements_snoc, ?compactions_snoc, ?He, ?Hs, ?Hk, ?app_nil_r,
      ?last_snoc; try done; try by apply boundaries_unsettled.
  - by rewrite Hm.
  - rewrite Hm. apply boundaries_settled; [by rewrite Hs|done..].
  - destruct (last (compactions L)) as [[summary covers]|]; [|done].
    destruct Hc as (b&Hcb&->). exists b. split; [|done].
    rewrite lookup_insert_ne; [done|]. intros Heq. apply Hfresh.
    apply Hb in Hcb as (i&(e'&He'&Hid&_)&_). apply list_elem_of_fmap.
    exists e'. split; [congruence|]. by eapply list_elem_of_lookup_2.
  - eauto.
Qed.

(** ** What the refinement says of [messages] and [settled_boundary_ids] *)
Lemma entries_after_spec L i e :
  NoDup (entry_id <$> L) → L !! i = Some e → entries_after (entry_id e) L = drop (S i) L.
Proof.
  revert i. induction L as [|x L IH]; intros i Hnd Hi; [by rewrite lookup_nil in Hi|].
  apply NoDup_cons in Hnd as [Hni Hnd]. simpl. destruct i as [|i]; simpl in Hi.
  - injection Hi as <-. by rewrite bool_decide_eq_true_2.
  - rewrite bool_decide_eq_false_2; [by apply IH|]. intros Heq. apply Hni.
    apply list_elem_of_fmap. exists e. split; [done|]. by eapply list_elem_of_lookup_2.
Qed.

Lemma log_messages_drop L i e :
  L !! i = Some e → message_of (entry_kind e) = None →
  drop (length (log_messages (take i L))) (log_messages L) = log_messages (drop (S i) L).
Proof.
  intros Hi Hm.
  rewrite <- (take_drop_middle L i e Hi) at 2. unfold log_messages at 2.
  rewrite filter_map_app. rewrite drop_app_length.
  unfold filter_map. simpl. by rewrite Hm.
Qed.

Lemma messages_refines L c :
  NoDup (entry_id <$> L) → ctx_refines L c → messages c = Ok (log_context L).
Proof.
  intros Hnd [Hm Hb Hc _ _]. unfold messages, log_context.
  destruct (last (compactions L)) as [[summary covers]|]; [|by rewrite Hc, Hm].
  destruct Hc as (b&Hcb&->). simpl. apply Hb in Hcb as (i&(e&He&Hid&Hs)&->). simpl.
  assert (message_of (entry_kind e) = None) as Hme.
  { unfold settlement_of in Hs. destruct Hs as [? Hs]. by destruct (entry_kind e). }
  rewrite Hm, slice_from_total.
  - simpl. rewrite (log_messages_drop _ _ _ He Hme), <- (entries_after_spec L i e) by done.
    by rewrite Hid.
  - rewrite <- (take_drop i L) at 2. unfold log_messages. rewrite filter_map_app, length_app. lia.
Qed.

(** ** The settled boundaries, oldest first *)
Definition boundary_row (L : list SessionEntry) (i : nat) : option (EntryId * SettledBoundary) :=
  e ← L !! i; s ← settlement_of e; Some (s.1.1, boundary_at L i).

Definition boundary_rows (L : list SessionEntry) : list (EntryId * SettledBoundary) :=
  filter_map (boundary_row L) (seq 0 (length L)).

Lemma boundary_row_Some L i eid b :
  boundary_row L i = Some (eid, b) ↔ settled_at L i eid ∧ b = boundary_at L i.
Proof.
  unfold boundary_row, settled_at. destruct (L !! i) as [e|] eqn:He; simpl.
  - unfold settlement_of. destruct (entry_kind e) eqn:Hk; simpl; (split; [try done|]);
      try (intros [(e'&[= <-]&Hid&[s Hs]) ->]; by rewrite Hk in Hs).
    + intros [= <- <-]. split; [|done]. exists e. rewrite Hk. eauto.
    + intros [(e'&[= <-]&Hid&_) ->]. by rewrite Hid.
  - split; [done|]. by intros [(e&?&_) _].
Qed.

Lemma filter_map_sorted {A B} (R : relation A) (R' : relation B) (f : A → option B) l :
  (∀ x y x' y', R x y → f x = Some x' → f y = Some y' → R' x' y') →
  StronglySorted R l → StronglySorted R' (filter_map f l).
Proof.
  intros Hf. unfold filter_map. induction 1 as [|x l Hl IH Hx]; simpl; [constructor|].
  destruct (f x) as [x'|] eqn:Hfx; [|done]. constructor; [done|].
  apply Forall_forall. intros y' (y&Hy&Hfy)%list_elem_of_omap.
  rewrite Forall_forall in Hx. eauto.
Qed.

Lemma seq_sorted n m : StronglySorted lt (seq n m).
Proof.
  revert n. induction m as [|m IH]; intros n; simpl; constructor; [done|].
  apply Forall_forall. intros x Hx%elem_of_seq. lia.
Qed.

Lemma boundary_rows_sorted L :
  StronglySorted (λ x y, entry_ordinal x.2 < entry_ordinal y.2) (boundary_rows L).
Proof.
  apply (filter_map_sorted lt); [|apply seq_sorted].
  by intros i j [? ?] [? ?] ? [_ ->]%boundary_row_Some [_ ->]%boundary_row_Some.
Qed.

Lemma elem_of_boundary_rows L eid b :
  (eid, b) ∈ boundary_rows L ↔ ∃ i, settled_at L i eid ∧ b = boundary_at L i.
Proof.
  unfold boundary_rows, filter_map. rewrite list_elem_of_omap.
  setoid_rewrite boundary_row_Some. split.
  - intros (i&_&?). eauto.
  - intros (i&Hi&?). exists i. split; [|done]. apply elem_of_seq.
    apply settled_at_lt in Hi. lia.
Qed.

Lemma boundary_rows_NoDup L : NoDup (boundary_rows L).
Proof.
  assert (Hs := boundary_rows_sorted L). induction Hs as [|x l Hs IH Hx]; constructor; [|done].
  intros Hin. rewrite Forall_forall in Hx. specialize (Hx _ Hin). lia.
Qed.

Lemma boundary_rows_ids L : (fst <$> boundary_rows L) = (λ s, s.1.1) <$> settlements L.
Proof.
  induction L as [|e L IH] using rev_ind; [done|].
  rewrite settlements_snoc, fmap_app, <- IH. unfold boundary_rows.
  rewrite length_app. simpl. rewrite Nat.add_1_r, seq_S, filter_map_snoc, fmap_app. f_equal.
  - f_equal. unfold filter_map. apply list_omap_ext. apply Forall_Forall2_diag.
    apply Forall_forall. intros i Hi%elem_of_seq. unfold boundary_row.
    rewrite lookup_app_l, boundary_at_snoc by lia. done.
  - unfold boundary_row. simpl. rewrite lookup_app_r, Nat.sub_diag by lia. simpl.
    by destruct (settlement_of e).
Qed.

#[export] Instance ordinal_le_total : Total ordinal_le.
Proof. intros x y. unfold ordinal_le. lia. Qed.
#[export] Instance ordinal_le_trans : Transitive ordinal_le.
Proof. intros x y z. unfold ordinal_le. lia. Qed.

Lemma sorted_boundaries L c :
  ctx_refines L c →
  merge_sort ordinal_le (map_to_list (settled_boundaries c)) = boundary_rows L.
Proof.
  intros Hr.
  assert (Hperm : merge_sort ordinal_le (map_to_list (settled_boundaries c)) ≡ₚ boundary_rows L).
  { rewrite merge_sort_Permutation. apply NoDup_Permutation;
      [apply NoDup_map_to_list|apply boundary_rows_NoDup|].
    intros [eid b]. by rewrite elem_of_map_to_list, elem_of_boundary_rows, (ctx_boundaries _ _ Hr). }
  apply (StronglySorted_unique_strong ordinal_le); [..|done].
  - intros [id1 b1] [id2 b2] Hin1 Hin2 Hle Hge. rewrite Hperm in Hin1.
    apply elem_of_boundary_rows in Hin1 as (i&(e1&He1&Hid1&_)&->).
    apply elem_of_boundary_rows in Hin2 as (j&(e2&He2&Hid2&_)&->).
    unfold ordinal_le in *. simpl in *. assert (i = j) as -> by lia. congruence.
  - apply StronglySorted_merge_sort; apply _.
  - apply (filter_map_sorted lt); [|apply seq_sorted]. unfold ordinal_le.
    intros i j [? ?] [? ?] ? [_ ->]%boundary_row_Some [_ ->]%boundary_row_Some. simpl. lia.
Qed.

Lemma settled_boundary_ids_refines L c :
  ctx_refines L c → settled_boundary_ids c = (λ s, s.1.1) <$> settlements L.
Proof.
  intros Hr. unfold settled_boundary_ids. by rewrite (sorted_boundaries _ _ Hr), boundary_rows_ids.
Qed.

(** A later boundary has a larger ordinal. *)
Lemma sorted_boundaries_lt L i j x y :
  boundary_rows L !! i = Some x → boundary_rows L !! j = Some y → i < j →
  entry_ordinal x.2 < entry_ordinal y.2.
Proof.
  intros Hx Hy Hlt. pose proof (boundary_rows_sorted L) as Hs.
  revert i j Hx Hy Hlt. induction Hs as [|z l Hs IH Hz]; intros [|i] [|j] Hx Hy Hlt;
    try done; simpl in *; try lia.
  - simplify_eq. rewrite Forall_forall in Hz. apply Hz. by eapply list_elem_of_lookup_2.
  - apply (IH i j); [done|done|lia].
Qed.

(** ** Successive compactions cover ever more of the log *)
Definition compactions_advance (L : list SessionEntry) : Prop :=
  ∃ ks, Forall2 (λ p i, settled_at L i p.2) (compactions L) ks ∧ StronglySorted lt ks.

Lemma settled_at_unique L i j eid :
  NoDup (entry_id <$> L) → settled_at L i eid → settled_at L j eid → i = j.
Proof.
  intros Hnd (e1&He1&Hid1&_) (e2&He2&Hid2&_).
  apply (NoDup_lookup _ _ _ eid Hnd); rewrite list_lookup_fmap.
  - by rewrite He1, <- Hid1.
  - by rewrite He2, <- Hid2.
Qed.

Lemma sorted_lt_snoc ks j :
  StronglySorted lt ks → (∀ k, last ks = Some k → k < j) → StronglySorted lt (ks ++ [j]).
Proof.
  intros Hs Hl. induction Hs as [|k ks Hs IH Hk]; simpl; [by repeat constructor|].
  constructor.
  - apply IH. intros k' Hk'. apply Hl. rewrite last_cons. by rewrite Hk'.
  - apply Forall_app. split; [done|]. apply Forall_singleton.
    destruct (last ks) as [k'|] eqn:Hlast.
    + assert (k < k'); [|specialize (Hl k'); rewrite last_cons, Hlast in Hl; naive_solver lia].
      rewrite Forall_forall in Hk. apply Hk. by apply last_Some_elem_of.
    + apply last_None in Hlast as ->. by apply Hl.
Qed.

Lemma compactions_advance_snoc L c e c' :
  NoDup (entry_id <$> L) → ctx_refines L c → compactions_advance L →
  context_accept c e (length L) = Ok c' → compactions_advance (L ++ [e]).
Proof.
  intros Hnd Hr (ks&Hks&Hs) H. unfold compactions_advance. rewrite compactions_snoc.
  assert (Forall2 (λ p i, settled_at (L ++ [e]) i p.2) (compactions L) ks) as Hks'.
  { eapply Forall2_impl; [done|]. intros p i ?. apply settled_at_snoc. by left. }
  apply context_accept_Ok in H as
    [(m&He&_&Hk&->)|[(u&g&He&_&Hk&->)|[(s&cv&b&He&_&Hk&_&Hcv&Hlt&->)|(He&_&Hk&->)]]];
    rewrite Hk, ?app_nil_r; [by exists ks|by exists ks| |by exists ks].
  apply (ctx_boundaries _ _ Hr) in Hcv as (j&Hj&->). exists (ks ++ [j]). split.
  - apply Forall2_app; [done|]. constructor; [|constructor]. apply settled_at_snoc. by left.
  - apply sorted_lt_snoc; [done|]. intros k Hk'.
    apply last_Some in Hk' as [ks' ->].
    apply Forall2_app_inv_r in Hks as (ps&p2&_&Hp&Heq).
    apply Forall2_cons_inv_r in Hp as ([ps' covers]&?&Hp&Hnil&->).
    apply Forall2_nil_inv_r in Hnil as ->.
    pose proof (ctx_compaction _ _ Hr) as Hc. rewrite Heq, last_snoc in Hc.
    destruct Hc as (b&Hcb&Hlc). apply Hlt in Hlc. simpl in Hlc.
    apply (ctx_boundaries _ _ Hr) in Hcb as (i&Hi&->). simpl in *.
    by rewrite (settled_at_unique L k i covers).
Qed.

(** ** When an entry is accepted *)
Definition compaction_allowed (c : ContextProjection) (summary : string) (covers : EntryId)
    : Prop :=
  summary ≠ "" ∧ ∃ b, settled_boundaries c !! covers = Some b ∧
    ∀ k, latest_compaction c = Some k →
         entry_ordinal (compaction_boundary k) < entry_ordinal b.

Lemma compaction_of_Some e summary covers :
  compaction_of e = Some (summary, covers) ↔ entry_kind e = Compaction summary covers.
Proof. unfold compaction_of. destruct (entry_kind e); naive_solver. Qed.

Lemma context_accept_plain c e n :
  compaction_of e = None → ∃ c', context_accept c e n = Ok c'.
Proof. unfold compaction_of, context_accept. destruct (entry_kind e); eauto. done. Qed.

Lemma context_accept_compaction c e n summary covers :
  compaction_of e = Some (summary, covers) →
  (∃ c', context_accept c e n = Ok c') ↔ compaction_allowed c summary covers.
Proof.
  intros He. split.
  - intros [c' H]. apply context_accept_Ok in H as
      [(m&_&_&Hk&_)|[(u&g&_&_&Hk&_)|[(s&cv&b&_&_&Hk&Hs&Hcv&Hlt&_)|(_&_&Hk&_)]]]; try congruence.
    rewrite He in Hk. injection Hk as -> ->. split; [done|]. by exists b.
  - intros [Hs (b&Hb&Hlt)]. unfold compaction_of in He. unfold context_accept, validation.
    destruct (entry_kind e); try done. injection He as -> ->.
    apply str_is_empty_false in Hs. rewrite Hs, Hb.
    destruct (latest_compaction c) as [k|]; [|eauto].
    rewrite bool_decide_eq_false_2; [eauto|]. specialize (Hlt k eq_refl). lia.
Qed.
