(* ===== verification/SessionProofs.v ===== *)
(** What the session projection guarantees: the shape of the log that [apply]
    writes, its replay, and what the context view reads back. *)

From S2P Require Import Prelude RustStr Session SessionLifecycle SessionContext.
Import session.

(** ** Specification *)

(** Projections a process can hold: opened by replaying transactions of any
    content, advanced by applying transactions. *)
Inductive reachable : SessionProjection → Prop :=
| reach_empty : reachable empty
| reach_apply p tx a : reachable p → apply p tx = Ok a → reachable (applied_projection a)
| reach_replay p es q : reachable p → replay p es = (q, Ok tt) → reachable q.

(** The log of a session: the entries of each committed transaction. *)
Inductive session_log (sid : SessionId) : list (list SessionEntry) → SessionProjection → Prop :=
| log_empty : session_log sid [] empty
| log_commit Ls p tx a :
    session_log sid Ls p → tx_session_id tx = sid → apply p tx = Ok a →
    session_log sid (Ls ++ [applied_entries a]) (applied_projection a).

(** Folds [replay] over the transactions of a log. *)
Definition replay_all (p : SessionProjection) (Ls : list (list SessionEntry))
    : answer SessionProjection :=
  try_fold (λ p es, match replay p es with (q, Ok _) => Ok q | (_, Err e) => Err e
                    | (_, Panic) => Panic end) p Ls.

(** The log as one linear chain with ids [sid:entry:1], [sid:entry:2], ... *)
Definition linear_log (sid : SessionId) (L : list SessionEntry) : Prop :=
  ∀ i e, L !! i = Some e →
    entry_id e = entry_id_at sid (i + 1) ∧
    entry_parent e = match i with 0 => None | S _ => Some (entry_id_at sid i) end.

(** The invariant of a projection whatever its log. *)
Record projection_wf (p : SessionProjection) : Prop := {
  wf_lifecycle : lc_wf (lifecycle p);
  wf_atomic : lc_atomic (lifecycle p);
  wf_context : ctx_safe (context p)
}.

(** The invariant of a projection with log [L]. *)
Record log_refines (sid : SessionId) (L : list SessionEntry) (p : SessionProjection) : Prop := {
  refines_linear : linear_log sid L;
  refines_count : entry_count p = length L;
  refines_leaf : current_leaf p = entry_id <$> last L;
  refines_context : ctx_refines L (context p);
  refines_compactions : compactions_advance L
}.

(** ** The fold over the entries of a transaction *)
Definition context_step (s : ContextProjection * nat) (e : SessionEntry)
    : answer (ContextProjection * nat) :=
  let? c := context_accept s.1 e s.2 in Ok (c, s.2 + 1).

Definition title_step (title : option string) (k : SessionEntryKind) : option string :=
  match k with TitleSet t => Some (trim t) | _ => title end.

(** The parent every entry of a transaction must name. *)
Definition parents_chain (leaf : option EntryId) (es : list SessionEntry) : Prop :=
  ∀ i e, es !! i = Some e →
    entry_parent e = if i == 0 then leaf else entry_id <$> es !! (i - 1).

Record advanced (es : list SessionEntry) (p q : SessionProjection) : Prop := {
  adv_revision : revision q = revision p;
  adv_leaf : current_leaf q = current_leaf p;
  adv_count : entry_count q = entry_count p + length es;
  adv_lifecycle : lc_accept_all (lifecycle p) (entry_kind <$> es) = Ok (lifecycle q);
  adv_context : try_fold context_step (context p, entry_count p) es =
                  Ok (context q, entry_count q);
  adv_title : title_override q = foldl title_step (title_override p) (entry_kind <$> es);
  adv_titles : Forall (λ e, ∀ t, entry_kind e = TitleSet t → title_is_valid t = true) es
}.

Lemma advance_entry_Ok es p i e q :
  advance_entry es p (i, e) = Ok q →
  entry_parent e = (if i == 0 then current_leaf p else entry_id <$> (es !! (i - 1))) ∧
  advanced [e] p q.
Proof.
  unfold advance_entry, validation.
  destruct (bool_decide (entry_parent e = _)) eqn:Hp; simpl; [|done].
  apply bool_decide_eq_true in Hp. intros (t&Ht&H)%bind_Ok.
  apply bind_Ok in H as (lc&Hlc&H). apply bind_Ok in H as (c&Hc&H). injection H as <-.
  split; [done|]. split; simpl; try done.
  - unfold lc_accept_all. simpl. by rewrite Hlc.
  - unfold context_step. simpl. by rewrite Hc.
  - destruct (entry_kind e); simplify_eq/=; try done.
    destruct (title_is_valid title) eqn:Hv; simpl in Ht; [|done]. by injection Ht as <-.
  - apply Forall_singleton. intros t' Hk. rewrite Hk in Ht.
    by destruct (title_is_valid t').
Qed.

Lemma advanced_app es1 es2 p q r :
  advanced es1 p q → advanced es2 q r → advanced (es1 ++ es2) p r.
Proof.
  intros [Hr Hl Hn Hlc Hc Ht Hv] [Hr' Hl' Hn' Hlc' Hc' Ht' Hv']. split.
  - congruence.
  - congruence.
  - rewrite length_app. lia.
  - unfold lc_accept_all in *. rewrite fmap_app, try_fold_app, Hlc. done.
  - rewrite try_fold_app, Hc. done.
  - by rewrite fmap_app, foldl_app, <- Ht.
  - by apply Forall_app.
Qed.

Lemma advanced_nil p : advanced [] p p.
Proof. split; simpl; try done; lia. Qed.

Lemma enumerate_lookup {A} (l : list A) i x :
  enumerate l !! i = Some x ↔ ∃ y, l !! i = Some y ∧ x = (i, y).
Proof.
  unfold enumerate. rewrite list_lookup_imap. destruct (l !! i); simpl; naive_solver.
Qed.

Lemma enumerate_snd {A} (l : list A) : snd <$> enumerate l = l.
Proof.
  apply list_eq. intros i. rewrite list_lookup_fmap. unfold enumerate.
  rewrite list_lookup_imap. by destruct (l !! i).
Qed.

Lemma advance_entries_Ok es p q :
  try_fold (advance_entry es) p (enumerate es) = Ok q →
  parents_chain (current_leaf p) es ∧ advanced es p q.
Proof.
  intros Hf.
  apply (try_fold_ind _ (λ s items, advanced (snd <$> items) p s ∧
    Forall (λ item, entry_parent item.2 =
      if item.1 == 0 then current_leaf p else entry_id <$> es !! (item.1 - 1)) items)) in Hf.
  - destruct Hf as [Hadv Hall]. rewrite enumerate_snd in Hadv. split; [|done].
    intros i e Hi. rewrite Forall_lookup in Hall.
    apply (Hall i (i, e)). apply enumerate_lookup. by exists e.
  - split; [apply advanced_nil|constructor].
  - intros s items [i e] s' [Hadv Hall] Hs. apply advance_entry_Ok in Hs as [Hp Hadv'].
    split.
    + rewrite fmap_app. by eapply advanced_app.
    + apply Forall_app. split; [done|]. apply Forall_singleton. simpl.
      by rewrite Hp, (adv_leaf _ _ _ Hadv).
Qed.

Lemma advance_transaction_Ok es p q :
  advance_transaction p es = Ok q →
  ∃ next leaf u, es ≠ [] ∧ validate_transaction (lifecycle p) (entry_kind <$> es) = Ok u ∧
    parents_chain (current_leaf p) es ∧ advanced es p next ∧ last es = Some leaf ∧
    q = {| revision := revision p + 1; current_leaf := Some (entry_id leaf);
           entry_count := entry_count next; lifecycle := lifecycle next;
           context := context next; title_override := title_override next |}.
Proof.
  unfold advance_transaction, validation. destruct (is_nil es) eqn:Hnil; [done|].
  intros (?&_&H)%bind_Ok. apply bind_Ok in H as (u&Hu&H).
  apply bind_Ok in H as (next&Hnext&H). apply bind_Ok in H as (leaf&Hleaf&H).
  apply expect_Ok in Hleaf. injection H as <-.
  apply advance_entries_Ok in Hnext as [Hpar Hadv]. apply is_nil_false in Hnil.
  exists next, leaf, u. by rewrite <- (adv_revision _ _ _ Hadv).
Qed.

(** ** The invariant *)
Lemma context_fold_safe es s s' :
  ctx_safe s.1 → try_fold context_step s es = Ok s' → ctx_safe s'.1.
Proof.
  intros Hs. apply (try_fold_invariant context_step (λ s, ctx_safe s.1)); [done|].
  intros [c n] e _ Hc. unfold context_step. simpl. split.
  - pose proof (context_accept_not_Panic c e n). by destruct (context_accept c e n).
  - intros s'' (c'&Hc'&[= <-])%bind_Ok. by eapply context_accept_safe.
Qed.

Lemma empty_wf : projection_wf empty.
Proof.
  split; [apply lifecycle_default_wf|apply lifecycle_default_atomic|apply context_default_safe].
Qed.

Lemma advance_transaction_wf es p q :
  projection_wf p → advance_transaction p es = Ok q → projection_wf q.
Proof.
  intros [Hlc Hat Hc] H.
  apply advance_transaction_Ok in H as (next&leaf&u&_&Hu&_&[_ _ _ Hf Hctx _ _]&_&->).
  split; simpl.
  - by eapply lc_accept_all_wf.
  - by eapply validated_transaction_atomic.
  - by apply (context_fold_safe es (context p, entry_count p) _ Hc) in Hctx.
Qed.

Lemma apply_Ok p tx a :
  apply p tx = Ok a →
  tx_entries tx ≠ [] ∧ tx_current_leaf_index tx = length (tx_entries tx) - 1 ∧
  try_fold (materialize_entry p (tx_session_id tx)) [] (enumerate (tx_entries tx)) =
    Ok (applied_entries a) ∧
  advance_transaction p (applied_entries a) = Ok (applied_projection a).
Proof.
  unfold apply, validation. destruct (is_nil _) eqn:Hnil; [done|].
  destruct (bool_decide _) eqn:Hleaf; simpl; [|done].
  intros (es&Hes&H)%bind_Ok. apply bind_Ok in H as (q&Hq&H). injection H as <-. simpl.
  apply is_nil_false in Hnil. by apply bool_decide_eq_true in Hleaf.
Qed.

Lemma replay_Ok p es q : replay p es = (q, Ok tt) ↔ advance_transaction p es = Ok q.
Proof. unfold replay. destruct (advance_transaction p es); naive_solver. Qed.

Lemma reachable_wf p : reachable p → projection_wf p.
Proof.
  induction 1 as [|p tx a _ IH H|p es q _ IH H]; [apply empty_wf|..].
  - apply apply_Ok in H as (_&_&_&H). by eapply advance_transaction_wf.
  - apply replay_Ok in H. by eapply advance_transaction_wf.
Qed.

(** ** Materialisation *)
Definition chained (es : list NewSessionEntry) : Prop :=
  ∀ i e, es !! i = Some e →
    new_parent e = if i == 0 then CurrentLeaf else TransactionEntry (i - 1).

Definition materialized (p : SessionProjection) (sid : SessionId) (es : list NewSessionEntry)
    : list SessionEntry :=
  imap (λ i e, {| entry_id := allocate_entry_id p sid i;
                  entry_parent := if i == 0 then current_leaf p
                                  else Some (allocate_entry_id p sid (i - 1));
                  entry_kind := new_kind e |}) es.

Lemma enumerate_snoc {A} (l : list A) x : enumerate (l ++ [x]) = enumerate l ++ [(length l, x)].
Proof. unfold enumerate. rewrite imap_app. simpl. by rewrite Nat.add_0_r. Qed.

Lemma chained_snoc es e :
  chained (es ++ [e]) ↔
  chained es ∧ new_parent e = if length es == 0 then CurrentLeaf
                              else TransactionEntry (length es - 1).
Proof.
  unfold chained. split.
  - intros Hall. split.
    + intros i e' Hi. apply Hall. by rewrite lookup_app_l by by eapply lookup_lt_Some.
    + apply Hall. by rewrite lookup_app_r, Nat.sub_diag by lia.
  - intros [Hall Hlast] i e' [[? Hi]|[-> ->]]%lookup_snoc_Some; eauto.
Qed.

Lemma materialized_snoc p sid es e :
  materialized p sid (es ++ [e]) = materialized p sid es ++
    [{| entry_id := allocate_entry_id p sid (length es);
        entry_parent := if length es == 0 then current_leaf p
                        else Some (allocate_entry_id p sid (length es - 1));
        entry_kind := new_kind e |}].
Proof. unfold materialized. rewrite imap_app. simpl. by rewrite Nat.add_0_r. Qed.

Lemma materialized_lookup p sid es i :
  materialized p sid es !! i =
    (λ e, {| entry_id := allocate_entry_id p sid i;
             entry_parent := if i == 0 then current_leaf p
                             else Some (allocate_entry_id p sid (i - 1));
             entry_kind := new_kind e |}) <$> es !! i.
Proof. apply list_lookup_imap. Qed.

Lemma materialize_spec p sid es :
  try_fold (materialize_entry p sid) [] (enumerate es) ≠ Panic ∧
  ∀ c, try_fold (materialize_entry p sid) [] (enumerate es) = Ok c ↔
       chained es ∧ c = materialized p sid es.
Proof.
  induction es as [|e es [IHp IH]] using rev_ind.
  { split; [done|]. intros c. split; [intros [= <-]|by intros [_ ->]]. split; [|done].
    intros i e Hi. by rewrite lookup_nil in Hi. }
  rewrite enumerate_snoc, try_fold_app.
  setoid_rewrite chained_snoc. rewrite materialized_snoc.
  destruct (try_fold _ [] _) as [c0|err|] eqn:Hf; simpl; [| |done].
  - destruct (IH c0) as [[Hch ->] _]; [done|].
    destruct (decide (length es = 0)) as [Hz|Hnz].
    + rewrite Hz. simpl. destruct (new_parent e) as [|j]; simpl.
      * split; [done|]. intros c. split; [by intros [= <-]|by intros [_ ->]].
      * split; [done|]. intros c. split; [done|by intros [[_ ?] _]].
    + rewrite (bool_decide_eq_false_2 (length es = 0)) by done.
      destruct (new_parent e) as [|j]; simpl.
      * split; [done|]. intros c. split; [done|by intros [[_ ?] _]].
      * rewrite (bool_decide_eq_true_2 (0 < length es)) by lia. simpl.
        destruct (decide (j = length es - 1)) as [->|Hj].
        -- rewrite bool_decide_eq_true_2 by done. rewrite materialized_lookup.
           destruct (es !! (length es - 1)) as [x|] eqn:Hx;
             [|apply lookup_ge_None in Hx; lia].
           simpl. split; [done|]. intros c. split; [by intros [= <-]|by intros [_ ->]].
        -- rewrite bool_decide_eq_false_2 by done. split; [done|]. intros c.
           split; [done|]. intros [[_ Heq] _]. congruence.
  - split; [done|]. intros c. split; [done|]. intros [[Hch _] _].
    destruct (IH (materialized p sid es)) as [_ IH']. by discriminate IH'.
Qed.

(** ** No panic *)
Lemma advance_entry_not_Panic es p item : advance_entry es p item ≠ Panic.
Proof.
  destruct item as [i e]. unfold advance_entry, validation. case_match; [done|].
  rewrite bind_Panic. intros [H'|(t&_&[H'|(lc&_&[H'|(c&_&H')]%bind_Panic)]%bind_Panic)].
  - by repeat case_match.
  - by apply lifecycle_accept_not_Panic in H'.
  - by apply context_accept_not_Panic in H'.
  - done.
Qed.

Lemma advance_transaction_not_Panic p es :
  projection_wf p → advance_transaction p es ≠ Panic.
Proof.
  intros [Hlc _ _]. unfold advance_transaction, validation.
  destruct (is_nil es) eqn:Hnil; [done|]. apply is_nil_false in Hnil.
  rewrite !bind_Panic. setoid_rewrite bind_Panic.
  intros [H|(u&_&[H|(u'&_&H)])].
  - unfold validate_compaction_transaction, validation in H. by case_match.
  - by apply validate_transaction_not_Panic in H.
  - apply bind_Panic in H as [H|(next&_&H)].
    + destruct (try_fold_invariant (advance_entry es) (λ _, True) p (enumerate es)) as [Hnp _];
        [done| |done].
      intros s x _ _. split; [apply advance_entry_not_Panic|done].
    + apply bind_Panic in H as [H|(leaf&_&H)]; [|done].
      destruct (last es) eqn:Hl; [done|]. by apply last_None in Hl.
Qed.

Lemma apply_not_Panic p tx : projection_wf p → apply p tx ≠ Panic.
Proof.
  intros Hwf. unfold apply, validation. destruct (is_nil _); [done|].
  destruct (negb _); [done|].
  destruct (materialize_spec p (tx_session_id tx) (tx_entries tx)) as [Hnp _].
  rewrite bind_Panic. intros [H|(es&_&[H|(q&_&H)]%bind_Panic)]; [done| |done].
  by apply advance_transaction_not_Panic in H.
Qed.

(** ** The log *)
Lemma apply_materialized p tx a :
  apply p tx = Ok a →
  chained (tx_entries tx) ∧ applied_entries a = materialized p (tx_session_id tx) (tx_entries tx).
Proof. intros (_&_&H&_)%apply_Ok. by apply materialize_spec. Qed.

Lemma entry_id_at_inj sid i j : entry_id_at sid i = entry_id_at sid j → i = j.
Proof.
  unfold entry_id_at. intros H%string_app_inj_l%string_app_inj_l. by apply display_nat_inj.
Qed.

Lemma linear_log_NoDup sid L : linear_log sid L → NoDup (entry_id <$> L).
Proof.
  intros Hl. apply NoDup_alt. intros i j x.
  rewrite !list_lookup_fmap, !fmap_Some.
  intros (e1&H1&->) (e2&H2&Heq). apply Hl in H1 as [H1 _]. apply Hl in H2 as [H2 _].
  rewrite H1, H2 in Heq. apply entry_id_at_inj in Heq. lia.
Qed.

Lemma linear_log_last sid L :
  linear_log sid L → L ≠ [] → entry_id <$> last L = Some (entry_id_at sid (length L)).
Proof.
  intros Hl Hne. destruct (exists_last Hne) as (L'&e&->). rewrite last_snoc, length_app. simpl.
  destruct (Hl (length L') e) as [-> _]; [by rewrite lookup_app_r, Nat.sub_diag by lia|done].
Qed.

Lemma linear_log_extend sid L p es :
  linear_log sid L → entry_count p = length L → current_leaf p = entry_id <$> last L →
  linear_log sid (L ++ materialized p sid es).
Proof.
  intros Hl Hn Hleaf i e [Hi|[Hge Hi]]%lookup_app_Some; [by apply Hl|].
  rewrite materialized_lookup in Hi. apply fmap_Some in Hi as (ne&_&->). simpl.
  unfold allocate_entry_id. rewrite Hn. split; [f_equal; lia|].
  case_bool_decide as Hz.
  - rewrite Hleaf. destruct (decide (L = [])) as [->|Hne].
    + simpl in *. by replace i with 0 by lia.
    + rewrite (linear_log_last sid) by done. assert (length L ≠ 0) by by destruct L.
      destruct i; [lia|]. do 2 f_equal. lia.
  - destruct i; [lia|]. do 2 f_equal. lia.
Qed.

Lemma context_fold_refines L es c c' n' :
  NoDup (entry_id <$> L ++ es) → ctx_refines L c → compactions_advance L →
  try_fold context_step (c, length L) es = Ok (c', n') →
  ctx_refines (L ++ es) c' ∧ compactions_advance (L ++ es).
Proof.
  revert L c. induction es as [|e es IH]; intros L c Hnd Hr Ha; simpl.
  { intros [= <- <-]. by rewrite app_nil_r. }
  intros (s&Hs&H)%bind_Ok. unfold context_step in Hs. simpl in Hs.
  apply bind_Ok in Hs as (c1&Hc1&[= <-]).
  rewrite fmap_app in Hnd. simpl in Hnd. pose proof Hnd as Hnd'.
  apply NoDup_app in Hnd' as (HndL&Hfresh&_).
  replace (L ++ e :: es) with ((L ++ [e]) ++ es) by by rewrite <- app_assoc.
  apply (IH (L ++ [e]) c1).
  - rewrite <- app_assoc, fmap_app. exact Hnd.
  - eapply context_accept_refines; [done| |done]. intros Hin. apply (Hfresh _ Hin). left.
  - by eapply compactions_advance_snoc.
  - rewrite length_app. simpl. done.
Qed.

Lemma log_refines_apply sid L p tx a :
  log_refines sid L p → tx_session_id tx = sid → apply p tx = Ok a →
  log_refines sid (L ++ applied_entries a) (applied_projection a).
Proof.
  intros [Hlin Hn Hleaf Hctx Hadv] <- H. pose proof H as Happ.
  apply apply_materialized in H as [_ Hes]. apply apply_Ok in Happ as (_&_&_&Happ).
  apply advance_transaction_Ok in Happ as
    (next&leaf&u&Hne&_&_&[_ _ Hn' _ Hc _ _]&Hlast&->).
  assert (linear_log (tx_session_id tx) (L ++ applied_entries a)) as Hlin'.
  { rewrite Hes. by apply linear_log_extend. }
  rewrite Hn in Hc. destruct (context_fold_refines L (applied_entries a) (context p)
    (context next) (entry_count next)) as [Hr Ha]; [by eapply linear_log_NoDup|done..|].
  split; simpl; try done.
  - rewrite length_app. lia.
  - by rewrite last_app, Hlast.
Qed.

Lemma empty_log_refines sid : log_refines sid [] empty.
Proof.
  split; simpl; try done; [apply context_default_refines|].
  exists []. split; constructor.
Qed.

Lemma session_log_refines sid Ls p : session_log sid Ls p → log_refines sid (concat Ls) p.
Proof.
  induction 1 as [|Ls p tx a _ IH Hsid H]; [apply empty_log_refines|].
  rewrite concat_app. simpl. rewrite app_nil_r. by eapply log_refines_apply.
Qed.

Lemma session_log_reachable sid Ls p : session_log sid Ls p → reachable p.
Proof. induction 1; [constructor|by eapply reach_apply]. Qed.

Lemma session_log_revision sid Ls p : session_log sid Ls p → revision p = length Ls.
Proof.
  induction 1 as [|Ls p tx a _ IH _ H]; [done|].
  apply apply_Ok in H as (_&_&_&H).
  apply advance_transaction_Ok in H as (?&?&?&_&_&_&_&_&->). simpl.
  rewrite IH, length_app. done.
Qed.

(** ** Which transactions are accepted *)

(** A title: between white space there are one to 200 characters, no control
    character among them, with no white space at the ends. *)
Definition title_said (t : string) : Prop :=
  ∃ body, trimmed_of t body ∧ body ≠ [] ∧ length body ≤ 200 ∧
    Forall (λ c, is_control c = false) body.

Lemma title_is_valid_true t :
  title_is_valid t = true ↔
  trim t ≠ "" ∧ length (chars (trim t)) ≤ 200 ∧
  Forall (λ c, is_control c = false) (chars (trim t)).
Proof.
  unfold title_is_valid, TITLE_OVERRIDE_MAX_CHARS.
  rewrite !andb_true_iff, !negb_true_iff, str_is_empty_false, bool_decide_eq_true, any_false.
  tauto.
Qed.

Lemma title_said_true t : title_is_valid t = true ↔ title_said t.
Proof.
  rewrite title_is_valid_true, <- chars_nil. split.
  - intros (? & ? & ?). exists (chars (trim t)). split_and!; try done. apply trim_trimmed.
  - intros (body & Hb & Hne & Hlen & Hc). pose proof (trim_trimmed t) as Ht.
    destruct (decide (chars (trim t) = [])) as [He|He].
    + exfalso. rewrite He in Ht. destruct Ht as (f & r & Hs & Hf & Hr & _).
      destruct Hb as (f' & r' & Hs' & _ & _ & Hh & _). destruct body as [|c body]; [done|].
      specialize (Hh c eq_refl). rewrite Hs in Hs'. cbn [app] in Hs'.
      assert (c ∈ f ++ r) as Hin by (rewrite Hs'; set_solver).
      rewrite elem_of_app in Hin. rewrite Forall_forall in Hf, Hr.
      destruct Hin as [Hin|Hin]; [apply Hf in Hin|apply Hr in Hin]; congruence.
    + by rewrite (trimmed_unique _ _ _ Ht Hb He Hne).
Qed.

Record tx_accepted (p : SessionProjection) (tx : SessionTransaction) : Prop := {
  acc_nonempty : tx_entries tx ≠ [];
  acc_leaf : tx_current_leaf_index tx = length (tx_entries tx) - 1;
  acc_chain : chained (tx_entries tx);
  acc_save_point : save_point (lifecycle p) (new_kind <$> tx_entries tx);
  acc_grammar : ∃ lc, lc_run (lifecycle p) (new_kind <$> tx_entries tx) lc;
  acc_titles : ∀ t, TitleSet t ∈ new_kind <$> tx_entries tx → title_said t;
  acc_compaction : ∀ summary covers, Compaction summary covers ∈ new_kind <$> tx_entries tx →
    length (tx_entries tx) = 1 ∧ compaction_allowed (context p) summary covers
}.

Lemma materialized_kinds p sid es : entry_kind <$> materialized p sid es = new_kind <$> es.
Proof.
  apply list_eq. intros i. rewrite !list_lookup_fmap, materialized_lookup.
  by destruct (es !! i).
Qed.

Lemma materialized_length p sid es : length (materialized p sid es) = length es.
Proof. apply length_imap. Qed.

Lemma materialized_parents p sid es : parents_chain (current_leaf p) (materialized p sid es).
Proof.
  intros i e Hi. rewrite materialized_lookup in Hi. apply fmap_Some in Hi as (ne&Hne&->). simpl.
  case_bool_decide as Hz; [done|]. rewrite materialized_lookup.
  apply lookup_lt_Some in Hne.
  destruct (es !! (i - 1)) eqn:Hl; [done|]. apply lookup_ge_None in Hl. lia.
Qed.

Lemma advance_entry_complete es p i e lc c :
  entry_parent e = (if i == 0 then current_leaf p else entry_id <$> es !! (i - 1)) →
  lifecycle_accept (lifecycle p) (entry_kind e) = Ok lc →
  context_accept (context p) e (entry_count p) = Ok c →
  (∀ t, entry_kind e = TitleSet t → title_is_valid t = true) →
  ∃ q, advance_entry es p (i, e) = Ok q.
Proof.
  intros Hp Hlc Hc Ht. unfold advance_entry. rewrite bool_decide_eq_true_2 by done.
  cbn [negb]. rewrite Hlc, Hc.
  destruct (entry_kind e) eqn:Hk; cbn [mbind outcome_bind]; eauto.
  rewrite (Ht _ eq_refl). cbn [negb mbind outcome_bind]. eauto.
Qed.

(** The fold succeeds when each of its three parts does. *)
Lemma advance_entries_complete es p lc s :
  parents_chain (current_leaf p) es →
  lc_accept_all (lifecycle p) (entry_kind <$> es) = Ok lc →
  try_fold context_step (context p, entry_count p) es = Ok s →
  Forall (λ e, ∀ t, entry_kind e = TitleSet t → title_is_valid t = true) es →
  ∃ q, try_fold (advance_entry es) p (enumerate es) = Ok q.
Proof.
  intros Hpar Hlc Hctx Htit.
  assert (∀ don rest, enumerate es = don ++ rest →
    ∃ q, try_fold (advance_entry es) p don = Ok q ∧ advanced (snd <$> don) p q) as Hgen.
  { induction don as [|[i e] don IH] using rev_ind; intros rest Heq.
    { exists p. split; [done|apply advanced_nil]. }
    rewrite <- app_assoc in Heq. destruct (IH _ Heq) as (q&Hq&Hadv).
    assert (es = (snd <$> don) ++ e :: (snd <$> rest)) as Hes.
    { by rewrite <- (enumerate_snd es), Heq, fmap_app. }
    assert (es !! i = Some e) as Hi.
    { assert (enumerate es !! length don = Some (i, e)) as Hlk
        by (rewrite Heq, lookup_app_r, Nat.sub_diag by lia; done).
      apply enumerate_lookup in Hlk as Hlk'. by destruct Hlk' as (y&Hy&[= -> ->]). }
    rewrite Hes in Hlc at 1. unfold lc_accept_all in Hlc.
    rewrite fmap_app, try_fold_app in Hlc. pose proof (adv_lifecycle _ _ _ Hadv) as Hl0.
    unfold lc_accept_all in Hl0. rewrite Hl0 in Hlc. simpl in Hlc.
    apply bind_Ok in Hlc as (lc1&Hlc1&_).
    rewrite Hes in Hctx at 1. rewrite try_fold_app, (adv_context _ _ _ Hadv) in Hctx.
    simpl in Hctx. apply bind_Ok in Hctx as (s1&Hs1&_).
    unfold context_step in Hs1. simpl in Hs1. apply bind_Ok in Hs1 as (c1&Hc1&_).
    rewrite Forall_forall in Htit.
    specialize (Htit e ltac:(by eapply list_elem_of_lookup_2)).
    destruct (advance_entry_complete es q i e lc1 c1) as (q'&Hq'); [|done..|].
    { rewrite (adv_leaf _ _ _ Hadv). by apply Hpar. }
    exists q'. rewrite try_fold_app, Hq. cbn [mbind outcome_bind try_fold]. rewrite Hq'.
    split; [done|].
    apply advance_entry_Ok in Hq' as [_ Hadv']. rewrite fmap_app. by eapply advanced_app. }
  destruct (Hgen (enumerate es) []) as (q&Hq&_); [by rewrite app_nil_r|eauto].
Qed.

Lemma context_step_Ok s e c :
  context_accept s.1 e s.2 = Ok c → context_step s e = Ok (c, s.2 + 1).
Proof. intros H. unfold context_step. by rewrite H. Qed.

Lemma context_fold_plain es s :
  Forall (λ e, compaction_of e = None) es → ∃ s', try_fold context_step s es = Ok s'.
Proof.
  intros Hall. revert s. induction Hall as [|e es He _ IH]; intros s; [by eexists|].
  destruct (context_accept_plain s.1 e s.2 He) as [c' Hc'].
  cbn [try_fold]. rewrite (context_step_Ok _ _ _ Hc'). apply IH.
Qed.

Lemma is_compaction_of e : is_compaction e = is_some (compaction_of e).
Proof. unfold is_compaction, compaction_of. by destruct (entry_kind e). Qed.

(** The compactions of a transaction: none, or the transaction is one alone. *)
Lemma compactions_of_accepted p tx a :
  apply p tx = Ok a →
  ∀ summary covers, Compaction summary covers ∈ new_kind <$> tx_entries tx →
    length (tx_entries tx) = 1 ∧ compaction_allowed (context p) summary covers.
Proof.
  intros H summary covers Hin. pose proof (apply_materialized _ _ _ H) as [_ Hes].
  apply apply_Ok in H as (_&_&_&H). rewrite Hes in H.
  pose proof H as Hadv. unfold advance_transaction, validation in H.
  destruct (is_nil _); [done|]. apply bind_Ok in H as (?&Hv&_).
  rewrite <- (materialized_kinds p (tx_session_id tx)) in Hin.
  apply list_elem_of_fmap in Hin as (e&Hk&Hin).
  assert (length (tx_entries tx) = 1) as Hlen.
  { unfold validate_compaction_transaction, validation in Hv.
    rewrite (proj2 (any_Exists _ _)) in Hv.
    - simpl in Hv. rewrite materialized_length in Hv. case_bool_decide; done.
    - apply Exists_exists. exists e. split; [done|]. unfold is_compaction. by rewrite <- Hk. }
  split; [done|]. apply advance_transaction_Ok in Hadv as (next&?&?&_&_&_&[_ _ _ _ Hc _ _]&_).
  destruct (tx_entries tx) as [|ne [|]]; try done. simpl in Hin.
  apply list_elem_of_singleton in Hin as ->. simpl in Hc.
  apply bind_Ok in Hc as (s1&Hs1&_). unfold context_step in Hs1.
  apply bind_Ok in Hs1 as (c1&Hc1&_).
  eapply context_accept_compaction; [by apply compaction_of_Some|by exists c1].
Qed.

Lemma apply_accepted p tx a : apply p tx = Ok a → tx_accepted p tx.
Proof.
  intros H. pose proof (compactions_of_accepted _ _ _ H) as Hcomp.
  pose proof (apply_materialized _ _ _ H) as [Hch Hes].
  apply apply_Ok in H as (Hne&Hleaf&_&H). rewrite Hes in H.
  apply advance_transaction_Ok in H as (next&leaf&u&_&Hu&_&[_ _ _ Hlc _ _ Htit]&_&_).
  rewrite materialized_kinds in Hu, Hlc. split; try done.
  - destruct (decide (results_of (new_kind <$> tx_entries tx) = [])) as [Hr|Hr].
    + left. split; [done|]. apply incomplete_assistant_None. unfold validate_transaction in Hu.
      unfold results_of in Hr. destruct (filter_map as_tool_result _); [|done].
      by destruct (find_map _ _).
    + right. split; [done|]. by eapply validate_transaction_results.
  - eexists. by apply lc_accept_all_run.
  - intros t Ht. rewrite <- (materialized_kinds p (tx_session_id tx)) in Ht.
    apply list_elem_of_fmap in Ht as (e&Hk&Hin). rewrite Forall_forall in Htit.
    apply title_said_true. by apply (Htit e).
Qed.

Lemma accepted_context p tx :
  tx_accepted p tx →
  ∃ s, try_fold context_step (context p, entry_count p)
         (materialized p (tx_session_id tx) (tx_entries tx)) = Ok s.
Proof.
  intros [_ _ _ _ _ _ Hcomp].
  set (es := materialized p (tx_session_id tx) (tx_entries tx)).
  destruct (decide (Forall (λ e, compaction_of e = None) es)) as [Hall|Hex];
    [by apply context_fold_plain|].
  apply not_Forall_Exists, Exists_exists in Hex as (e&Hin&Hc); [|apply _].
  destruct (compaction_of e) as [[summary covers]|] eqn:He; [|done].
  assert (Compaction summary covers ∈ new_kind <$> tx_entries tx) as Hk.
  { rewrite <- (materialized_kinds p (tx_session_id tx)). apply list_elem_of_fmap. exists e.
    by apply compaction_of_Some in He. }
  apply Hcomp in Hk as [Hlen Hall].
  assert (length es = 1) as Hes by by unfold es; rewrite materialized_length.
  destruct es as [|e' [|]]; try done. apply list_elem_of_singleton in Hin as <-.
  apply (context_accept_compaction _ e (entry_count p)) in Hall as [c' Hc']; [|done].
  cbn [try_fold]. rewrite (context_step_Ok (context p, entry_count p) e c') by done.
  simpl. eauto.
Qed.

Lemma accepted_apply p tx : tx_accepted p tx → ∃ a, apply p tx = Ok a.
Proof.
  intros Hacc. destruct (accepted_context _ _ Hacc) as [s Hs].
  destruct Hacc as [Hne Hleaf Hch Hsp [lc Hlc%lc_accept_all_run] Htit Hcomp].
  set (sid := tx_session_id tx) in *. set (es := materialized p sid (tx_entries tx)) in *.
  assert (es ≠ []) as Hnees.
  { intros Hnil. apply (f_equal length) in Hnil. unfold es in Hnil.
    rewrite materialized_length in Hnil. by destruct (tx_entries tx). }
  destruct (advance_entries_complete es p lc s) as [q Hq];
    [apply materialized_parents|by unfold es; rewrite materialized_kinds|done| |].
  { apply Forall_forall. intros e Hin t Hk. apply title_said_true, Htit.
    rewrite <- (materialized_kinds p sid), <- Hk. by apply list_elem_of_fmap_2. }
  unfold apply. rewrite (proj2 (is_nil_false _)) by done. rewrite bool_decide_eq_true_2 by done.
  cbn [negb]. fold sid.
  rewrite (proj2 (proj2 (materialize_spec p sid _) es)) by done. cbn [mbind outcome_bind].
  assert (∃ q', advance_transaction p es = Ok q') as [q' ->]; [|simpl; eauto].
  unfold advance_transaction. rewrite (proj2 (is_nil_false _)) by done.
  assert (entry_kind <$> es = new_kind <$> tx_entries tx) as -> by apply materialized_kinds.
  rewrite validate_transaction_complete by done.
  assert (validate_compaction_transaction es = Ok tt) as ->.
  { unfold validate_compaction_transaction. destruct (any is_compaction es) eqn:Hany; [|done].
    apply any_Exists, Exists_exists in Hany as (e&Hin&Hk). rewrite is_compaction_of in Hk.
    destruct (compaction_of e) as [[summary covers]|] eqn:He; [|done].
    destruct (Hcomp summary covers) as [Hlen _].
    - rewrite <- (materialized_kinds p sid). apply list_elem_of_fmap. exists e.
      by apply compaction_of_Some in He.
    - unfold es. by rewrite materialized_length, Hlen. }
  cbn [mbind outcome_bind]. rewrite Hq. cbn [mbind outcome_bind].
  destruct (last es) as [leaf|] eqn:Hl; [simpl; eauto|by apply last_None in Hl].
Qed.

(** ** Titles *)
Lemma derive_title_shape text t :
  derive_title text = Some t →
  t ≠ "" ∧
  (length (chars t) ≤ 48 ∧ t = join " " (split_whitespace text) ∨
   length (chars t) = 49 ∧
   chars t = take 48 (chars (join " " (split_whitespace text))) ++ ["…"]).
Proof.
  unfold derive_title, DERIVED_TITLE_MAX_CHARS. set (n := join _ _).
  destruct (str_is_empty n) eqn:He; [done|]. apply str_is_empty_false in He.
  case_bool_decide as Hle; intros [= <-]; [by auto|].
  set (pre := take 48 (chars n)).
  assert (chars (concat_str pre +:+ "…") = pre ++ ["…"]) as Hch.
  { replace (concat_str pre +:+ "…") with (concat_str (pre ++ ["…"]))
      by by rewrite concat_str_app.
    apply chars_concat, char_list_snoc; [|done..].
    apply char_list_take, chars_char_list. }
  split.
  - intros Heq. rewrite Heq in Hch. by destruct pre.
  - right. rewrite Hch. split; [|done]. rewrite length_app. unfold pre.
    rewrite length_take, Nat.min_l by lia. done.
Qed.

(** An override is the trimmed form of a title the validator accepted. *)
Definition override_ok (title : option string) : Prop :=
  ∀ t, title = Some t → ∃ t0, t = trim t0 ∧ title_is_valid t0 = true.

Lemma title_fold_ok ks title :
  override_ok title → Forall (λ k, ∀ t, k = TitleSet t → title_is_valid t = true) ks →
  override_ok (foldl title_step title ks).
Proof.
  intros Ht Hall. revert title Ht. induction Hall as [|k ks Hk _ IH]; intros title Ht; [done|].
  simpl. apply IH. destruct k; try done. simpl. intros t [= <-]. eauto.
Qed.

Lemma advance_transaction_title p es q :
  override_ok (title_override p) → advance_transaction p es = Ok q →
  override_ok (title_override q).
Proof.
  intros Hp H. apply advance_transaction_Ok in H as (next&?&?&_&_&_&[_ _ _ _ _ Ht Hv]&_&->).
  simpl. rewrite Ht. apply title_fold_ok; [done|]. by apply Forall_fmap.
Qed.

Lemma reachable_title p : reachable p → override_ok (title_override p).
Proof.
  induction 1 as [|p tx a _ IH H|p es q _ IH H]; [done|..].
  - apply apply_Ok in H as (_&_&_&H). by eapply advance_transaction_title.
  - apply replay_Ok in H. by eapply advance_transaction_title.
Qed.

(** ** A concrete session *)
Module demo.
Definition sid : SessionId := "s".
Definition call (id : string) : SessionToolCall :=
  {| call_id := id; call_name := "read"; call_arguments := "{}" |}.
Definition result (id : string) (o : ToolResultOutcome) : SessionToolResult :=
  {| result_call_id := id; result_outcome := o |}.
Definition start : list SessionEntryKind :=
  [OperationStarted "op"; TurnStarted "op" "t"; UserMessage "t" [PartText "hello"]].
Definition tools : list SessionEntryKind :=
  [AssistantToolCallBatch "t" "t:model-call:1" "t:tool-batch:1"
     [BlockText "look"; BlockToolCall (call "a"); BlockToolCall (call "b")]].
Definition answers : list SessionEntryKind :=
  [ToolResult "t" "t:tool-batch:1" (result "a" (Success "1"));
   ToolResult "t" "t:tool-batch:1" (result "b" (Error "e" "2"))].
Definition finish : list SessionEntryKind :=
  [AssistantMessage "t" [BlockText "done"]; TurnTerminated "t" TurnSucceeded;
   OperationSettled "op" OpSucceeded None None].
Definition compact : list SessionEntryKind := [Compaction "summary" "s:entry:9"].

Definition commit_or (p : SessionProjection) (kinds : list SessionEntryKind)
    : AppliedTransaction :=
  match apply p (linear sid (revision p) kinds) with
  | Ok a => a
  | _ => {| applied_entries := []; applied_projection := p |}
  end.

Definition a1 := Eval vm_compute in commit_or empty start.
Definition a2 := Eval vm_compute in commit_or (applied_projection a1) tools.
Definition a3 := Eval vm_compute in commit_or (applied_projection a2) answers.
Definition a4 := Eval vm_compute in commit_or (applied_projection a3) finish.
Definition a5 := Eval vm_compute in commit_or (applied_projection a4) compact.

Definition log : list (list SessionEntry) :=
  [applied_entries a1; applied_entries a2; applied_entries a3; applied_entries a4;
   applied_entries a5].
End demo.

Lemma demo_log_first4 :
  session_log demo.sid (take 4 demo.log) (applied_projection demo.a4).
Proof.
  change (take 4 demo.log) with (take 3 demo.log ++ [applied_entries demo.a4]).
  apply (log_commit _ _ (applied_projection demo.a3) (linear demo.sid 3 demo.finish));
    [|reflexivity|vm_compute; reflexivity].
  change (take 3 demo.log) with (take 2 demo.log ++ [applied_entries demo.a3]).
  apply (log_commit _ _ (applied_projection demo.a2) (linear demo.sid 2 demo.answers));
    [|reflexivity|vm_compute; reflexivity].
  change (take 2 demo.log) with (take 1 demo.log ++ [applied_entries demo.a2]).
  apply (log_commit _ _ (applied_projection demo.a1) (linear demo.sid 1 demo.tools));
    [|reflexivity|vm_compute; reflexivity].
  change (take 1 demo.log) with ([] ++ [applied_entries demo.a1]).
  apply (log_commit _ _ empty (linear demo.sid 0 demo.start));
    [constructor|reflexivity|vm_compute; reflexivity].
Defined.

Lemma demo_log : session_log demo.sid demo.log (applied_projection demo.a5).
Proof.
  change demo.log with (take 4 demo.log ++ [applied_entries demo.a5]).
  apply (log_commit _ _ (applied_projection demo.a4) (linear demo.sid 4 demo.compact));
    [apply demo_log_first4|reflexivity|vm_compute; reflexivity].
Defined.

Lemma demo_reach2 : reachable (applied_projection demo.a2).
Proof.
  apply (reach_apply (applied_projection demo.a1) (linear demo.sid 1 demo.tools));
    [|vm_compute; reflexivity].
  apply (reach_apply empty (linear demo.sid 0 demo.start));
    [constructor|vm_compute; reflexivity].
Qed.

Lemma demo_reach4 : reachable (applied_projection demo.a4).
Proof.
  apply (reach_apply (applied_projection demo.a3) (linear demo.sid 3 demo.finish));
    [|vm_compute; reflexivity].
  apply (reach_apply (applied_projection demo.a2) (linear demo.sid 2 demo.answers));
    [apply demo_reach2|vm_compute; reflexivity].
Qed.

(** ** Properties *)

(** C35: the projection accepts exactly the transactions the entry rules allow:
    a non-empty linear chain ending at its leaf, a legal save point (all
    results of one turn's newest batch with legal completion marks, or none),
    entries that are steps of the turn grammar one after the other, titles of one
    to 200 characters between white space with no control character, and a
    compaction only alone, with a summary, over a settled boundary later than the
    last one. The grammar is the relation [lc_step], which says for each kind of
    entry when it may follow. *)
Theorem session_accepts_iff p tx : (∃ a, apply p tx = Ok a) ↔ tx_accepted p tx.
Proof. split; [intros [a H]; by eapply apply_accepted|apply accepted_apply]. Qed.

(** a session projection, however it was reached, never panics: applying
    or replaying anything returns a value or an error, an applied transaction
    has a commit, and the context view exists. *)
Theorem session_never_panics p :
  reachable p →
  (∀ tx, apply p tx ≠ Panic) ∧ (∀ es, (replay p es).2 ≠ Panic) ∧
  (∀ tx a, apply p tx = Ok a → ∃ c, applied_commit a = Ok c) ∧
  (∀ sid, ∃ v, context_view p sid = Ok v).
Proof.
  intros Hr. pose proof (reachable_wf _ Hr) as Hwf. split_and!.
  - intros tx. by apply apply_not_Panic.
  - intros es H. apply (advance_transaction_not_Panic p es Hwf). unfold replay in H.
    by destruct (advance_transaction p es).
  - intros tx a (_&_&_&H)%apply_Ok.
    apply advance_transaction_Ok in H as (?&leaf&?&_&_&_&_&_&Hq).
    unfold applied_commit. rewrite Hq. simpl. eauto.
  - intros sid. unfold context_view.
    destruct (messages_safe _ (wf_context _ Hwf)) as [ms ->].
    destruct (open_turns_spec _ (wf_lifecycle _ Hwf)) as (infos&->&_). simpl. eauto.
Qed.

Lemma session_never_panics_witness :
  reachable (applied_projection demo.a5) ∧
  (∃ v, context_view (applied_projection demo.a5) demo.sid = Ok v).
Proof.
  pose proof (session_log_reachable _ _ _ demo_log) as Hr. split; [exact Hr|].
  exact (proj2 (proj2 (proj2 (session_never_panics _ Hr))) demo.sid).
Defined.

(** The log of a session is one linear chain: entry ids are
    [sid:entry:1 .. sid:entry:n] without gap or repetition, each entry's parent
    is the entry before it, and the projection's revision, entry count and
    leaf are the number of commits, the length and the end of the log. *)
Theorem session_log_is_linear sid Ls p :
  session_log sid Ls p →
  linear_log sid (concat Ls) ∧ NoDup (entry_id <$> concat Ls) ∧
  revision p = length Ls ∧ entry_count p = length (concat Ls) ∧
  current_leaf p = entry_id <$> last (concat Ls).
Proof.
  intros H. destruct (session_log_refines _ _ _ H) as [Hlin Hn Hleaf _ _].
  pose proof (session_log_revision _ _ _ H).
  split_and!; eauto using linear_log_NoDup.
Qed.

Lemma session_log_is_linear_witness :
  entry_id <$> concat demo.log = (λ n, entry_id_at "s" n) <$> seq 1 10 ∧
  linear_log "s" (concat demo.log).
Proof.
  split; [vm_compute; reflexivity|]. apply (session_log_is_linear _ _ _ demo_log).
Defined.

(** C36: replaying the log of a session, commit by commit, from the empty
    projection rebuilds exactly the projection that wrote it. *)
Theorem session_replay_rebuilds sid Ls p :
  session_log sid Ls p → replay_all empty Ls = Ok p.
Proof.
  unfold replay_all. induction 1 as [|Ls p tx a _ IH _ H]; [done|].
  rewrite try_fold_app, IH. simpl. apply apply_Ok in H as (_&_&_&H).
  apply replay_Ok in H. by rewrite H.
Qed.

Lemma session_replay_rebuilds_witness :
  replay_all empty demo.log = Ok (applied_projection demo.a5).
Proof. exact (session_replay_rebuilds _ _ _ demo_log). Defined.

(** The context view of a session is a function of its log: the messages
    are the log's, or the latest compaction's summary followed by the messages
    after the boundary it covers; the settled boundaries are the settled
    entries in log order; usage and generation are the latest settlement's;
    and successive compactions cover strictly more of the log. *)
Theorem session_context_refines_log sid Ls p :
  session_log sid Ls p →
  let L := concat Ls in
  ∃ v, context_view p sid = Ok v ∧ view_messages v = log_context L ∧
    view_settled_turn_boundaries v = (λ s, s.1.1) <$> settlements L ∧
    view_latest_compaction_boundary v = snd <$> last (compactions L) ∧
    view_latest_usage v = (last (settlements L) ≫= λ s, s.1.2) ∧
    view_latest_generation v = (last (settlements L) ≫= λ s, s.2) ∧
    compactions_advance L.
Proof.
  intros H L. pose proof (session_log_refines _ _ _ H) as [Hlin _ _ Hctx Hadv].
  pose proof (reachable_wf _ (session_log_reachable _ _ _ H)) as Hwf.
  destruct (open_turns_spec _ (wf_lifecycle _ Hwf)) as (infos&Hinfos&_).
  unfold context_view.
  rewrite (messages_refines L) by eauto using linear_log_NoDup. rewrite Hinfos.
  eexists; split; [reflexivity|]. simpl. split_and!; try done.
  - by apply settled_boundary_ids_refines.
  - pose proof (ctx_compaction _ _ Hctx) as Hc. unfold latest_compaction_boundary.
    fold L in Hc. destruct (last (compactions L)) as [[summary covers]|]; [|by rewrite Hc].
    by destruct Hc as (b&_&->).
  - apply (ctx_usage _ _ Hctx).
  - apply (ctx_generation _ _ Hctx).
Qed.

Lemma session_context_refines_log_witness :
  log_context (concat demo.log) = [CtxSummary "summary"] ∧
  ∃ v, context_view (applied_projection demo.a5) demo.sid = Ok v ∧
       view_messages v = log_context (concat demo.log).
Proof.
  split; [vm_compute; reflexivity|].
  destruct (session_context_refines_log _ _ _ demo_log) as (v&Hv&Hm&_). exists v. split; assumption.
Defined.

(** Tool results are all or nothing. In every reachable projection a batch
    has all of its results, in call order, or none; only the newest batch of a
    turn can be unfilled; and an open turn is listed with all calls of its
    unfilled batch, the open turns once each in the order they started. *)
Theorem session_results_all_or_nothing p :
  reachable p →
  (∀ tid t pre b post, turns (lifecycle p) !! tid = Some t →
     tool_batches t = pre ++ b :: post →
     results b = call_ids b ∨ results b = [] ∧ post = []) ∧
  ∃ infos, open_turns (lifecycle p) = Ok infos ∧
    open_turn_id <$> infos = open_turn_ids (lifecycle p) ∧
    NoDup (open_turn_id <$> infos) ∧
    ∀ info u, info ∈ infos → unfilled_batch info = Some u →
      ∃ t pre b, turns (lifecycle p) !! open_turn_id info = Some t ∧
        tool_batches t = pre ++ [b] ∧ unfilled_tool_batch_id u = batch_id b ∧
        unfilled_call_ids u = call_ids b.
Proof.
  intros Hr. destruct (reachable_wf _ Hr) as [Hlc Hat _].
  destruct (open_turns_spec _ Hlc) as (infos&Hinfos&Hall). split.
  - intros tid t pre b post Ht Hb. pose proof (Hat _ _ Ht) as Hta. unfold turn_atomic in Hta.
    rewrite Hb, Forall_app, Forall_cons in Hta. destruct Hta as (_&[Hnil|Hfull]&_); [|by left].
    destruct (decide (post = [])) as [->|Hpost]; [by right|]. left.
    pose proof (lc_turn_wf _ Hlc _ _ Ht) as Htw.
    apply (turn_older_complete _ Htw _ _ _ Hb) in Hpost.
    apply batch_wf_complete; [|done]. pose proof (turn_batches_wf _ Htw) as Hbw.
    rewrite Hb, Forall_app, Forall_cons in Hbw. tauto.
  - assert (open_turn_id <$> infos = open_turn_ids (lifecycle p)) as Hids.
    { clear -Hall. induction Hall as [|tid info tids infos (t&_&->) _ IH]; [done|].
      rewrite fmap_cons, IH. done. }
    exists infos. split_and!; [done..|rewrite Hids; apply (lc_open_unique _ Hlc)|].
    intros info u Hin Hu. apply list_elem_of_lookup in Hin as [i Hi].
    destruct (Forall2_lookup_r _ _ _ _ _ Hall Hi) as (tid&_&t&[Ht _]&->).
    simpl in *. destruct (last (tool_batches t)) as [b|] eqn:Hl; simpl in Hu; [|done].
    apply last_Some in Hl as [pre Hpre]. unfold unfilled in Hu.
    destruct (is_complete b) eqn:Hc; [done|]. injection Hu as <-.
    exists t, pre, b. split_and!; try done. simpl.
    pose proof (Hat _ _ Ht) as Hta. unfold turn_atomic in Hta.
    rewrite Hpre, Forall_app, Forall_singleton in Hta. destruct Hta as [_ [Hnil|Hfull]].
    + by rewrite Hnil.
    + unfold is_complete in Hc. by rewrite Hfull, bool_decide_eq_true_2 in Hc.
Qed.

Lemma session_results_all_or_nothing_witness :
  reachable (applied_projection demo.a2) ∧
  ∃ infos, open_turns (lifecycle (applied_projection demo.a2)) = Ok infos ∧
    NoDup (open_turn_id <$> infos).
Proof.
  pose proof demo_reach2 as Hr.
  split; [exact Hr|].
  destruct (session_results_all_or_nothing _ Hr) as [_ (infos&H1&_&H3&_)].
  exists infos. split; assumption.
Defined.

(** A commit that carries tool results completes one batch: they are the
    results of every call of the newest batch of one turn, in call order; the
    batch had none before and has all after; the completion marks are those
    the turn's cancellation in the same commit allows (none without one, only
    interrupted marks for an abandoned turn, otherwise cancelled marks only as
    a suffix); and no assistant output shares the commit. *)
Theorem session_completion_marks p tx a :
  reachable p → apply p tx = Ok a →
  let kinds := entry_kind <$> applied_entries a in
  results_of kinds ≠ [] →
  ∃ tid older b, batches_of (lifecycle p) tid = older ++ [b] ∧
    Forall (λ r, r.1 = (tid, batch_id b)) (filter_map as_tool_result kinds) ∧
    results b = [] ∧ result_call_id <$> results_of kinds = call_ids b ∧
    batches_of (lifecycle (applied_projection a)) tid =
      older ++ [{| batch_id := batch_id b; call_ids := call_ids b; results := call_ids b |}] ∧
    marks_allowed (find_map (cancel_reason_of tid) kinds)
      (result_outcome <$> results_of kinds) ∧
    Forall (λ k, is_assistant_or_batch k = false) kinds.
Proof.
  intros Hr H kinds Hne. destruct (reachable_wf _ Hr) as [_ Hat _].
  apply apply_Ok in H as (_&_&_&H).
  apply advance_transaction_Ok in H as (next&?&u&_&Hu&_&[_ _ _ Hlc _ _ _]&_&->).
  fold kinds in Hu, Hlc. simpl.
  destruct (validate_transaction_results _ _ _ Hu Hne) as (tid&older&b&[Hb Ho Hle Hex Hm Hal]).
  assert (results b = []) as Hnil.
  { pose proof (proj1 (lc_atomic_batches _) Hat tid) as Htb.
    rewrite Hb, Forall_app, Forall_singleton in Htb. destruct Htb as [_ [?|Hfull]]; [done|].
    rewrite Hfull, drop_all in Hex. by apply fmap_nil_inv in Hex. }
  rewrite Hnil in Hex. simpl in Hex. exists tid, older, b. split_and!; try done.
  rewrite (lc_accept_all_batches _ _ _ tid Hlc), Hb, (foldl_batches_results _ (batch_id b)) by done.
  by rewrite Hnil, Hex.
Qed.

Lemma session_completion_marks_witness :
  ∃ tid older b,
    batches_of (lifecycle (applied_projection demo.a2)) tid = older ++ [b] ∧ results b = [].
Proof.
  pose proof demo_reach2 as Hr.
  assert (H : apply (applied_projection demo.a2) (linear demo.sid 2 demo.answers) = Ok demo.a3)
    by (vm_compute; reflexivity).
  destruct (session_completion_marks _ _ _ Hr H) as (tid&older&b&Hb&_&Hn&_);
    [vm_compute; discriminate|]. exists tid, older, b. split; assumption.
Defined.

(** What is settled stays: a terminated turn and a settled operation keep
    their record through every accepted transaction, and a settled operation's
    outcome is its turn's. *)
Theorem session_settled_is_final p tx a :
  reachable p → apply p tx = Ok a →
  (∀ tid t, turns (lifecycle p) !! tid = Some t → turn_outcome t ≠ None →
            turns (lifecycle (applied_projection a)) !! tid = Some t) ∧
  (∀ oid op, operations (lifecycle p) !! oid = Some op → op_outcome op ≠ None →
             operations (lifecycle (applied_projection a)) !! oid = Some op) ∧
  (∀ oid op out, operations (lifecycle (applied_projection a)) !! oid = Some op →
     op_outcome op = Some out →
     ∃ tid t, op_turn_id op = Some tid ∧
       turns (lifecycle (applied_projection a)) !! tid = Some t ∧
       turn_operation_id t = oid ∧ turn_outcome t = Some (expected_turn_outcome out)).
Proof.
  intros Hr H. pose proof (reachable_wf _ (reach_apply _ _ _ Hr H)) as [Hlc _ _].
  apply apply_Ok in H as (_&_&_&H).
  apply advance_transaction_Ok in H as (next&?&u&_&_&_&[_ _ _ Hf _ _ _]&_&Hq).
  assert (lifecycle (applied_projection a) = lifecycle next) as Heq by by rewrite Hq.
  rewrite <- Heq in Hf. destruct (lc_accept_all_settled _ _ _ Hf) as [Ht Ho].
  split_and!; [done..|]. intros oid op out Hop Hout.
  destruct (lc_settled _ Hlc _ _ _ Hop Hout) as (tid&t&Htid&Htt&Hto).
  exists tid, t. split_and!; try done.
  destruct (lc_op_turn _ Hlc _ _ _ Hop Htid) as (t'&Ht'&?). congruence.
Qed.

Lemma session_settled_is_final_witness :
  ∃ t, turns (lifecycle (applied_projection demo.a5)) !! "t" = Some t ∧
       turn_outcome t = Some TurnSucceeded.
Proof.
  pose proof demo_reach4 as Hr.
  assert (H : apply (applied_projection demo.a4) (linear demo.sid 4 demo.compact) = Ok demo.a5)
    by (vm_compute; reflexivity).
  destruct (session_settled_is_final _ _ _ Hr H) as [Ht _].
  eexists. split; [apply Ht; [vm_compute; reflexivity|vm_compute; discriminate]|reflexivity].
Defined.

(** The title of a session is bounded and clean: an override is the trimmed
    form of a title that is non-empty, at most 200 characters and free of
    control characters; a derived title is the user's text with its whitespace
    collapsed, or its first 48 characters followed by an ellipsis. *)
Theorem session_title_bounded p t :
  reachable p → projection_title p = Some t →
  t ≠ "" ∧
  (title_override p = Some t ∧ length (chars t) ≤ 200 ∧
     Forall (λ c, is_control c = false) (chars t) ∨
   ∃ text, derive_title text = Some t ∧
     (length (chars t) ≤ 48 ∧ t = join " " (split_whitespace text) ∨
      length (chars t) = 49 ∧
      chars t = take 48 (chars (join " " (split_whitespace text))) ++ ["…"])).
Proof.
  intros Hr. unfold projection_title. destruct (title_override p) as [t'|] eqn:Ht.
  - intros [= ->]. apply (reachable_title _ Hr) in Ht as (t0&->&Hv).
    apply title_is_valid_true in Hv as (?&?&?). auto.
  - destruct (source_messages (context p)) as [|[] msgs]; try done.
    intros (part&_&Hp)%find_map_Some. destruct part as [text|]; [|done].
    simpl in Hp. pose proof Hp as Hp'. apply derive_title_shape in Hp as [? ?].
    split; [done|]. right. by exists text.
Qed.

Lemma session_title_bounded_witness :
  projection_title (applied_projection demo.a5) = Some "hello" ∧ "hello" ≠ "".
Proof.
  assert (Ht : projection_title (applied_projection demo.a5) = Some "hello")
    by (vm_compute; reflexivity).
  split; [exact Ht|].
  exact (proj1 (session_title_bounded _ _ (session_log_reachable _ _ _ demo_log) Ht)).
Defined.
