(* ===== verification/SessionStore.v ===== *)
(** The session store (src/crates/philo-session/src/store.rs, memory.rs): the
    contract a store promises its clients, as a class with laws, and the
    in-memory implementation.

    A store operation is a function of the store's state; the mutex makes each
    operation one atomic step, so concurrent clients are interleavings of
    steps. A panic inside a critical section poisons the mutex. *)

From S2P Require Import Prelude RustStr Session SessionLifecycle SessionContext.
From S2P Require Import SessionProofs.
Import session.

Module store.

(** ** store.rs *)

Record SessionSummary : Type := {
  summary_session_id : SessionId;
  summary_title : option string;
  summary_updated_at : option Z
}.

Definition untitled (session_id : SessionId) : SessionSummary :=
  {| summary_session_id := session_id; summary_title := None; summary_updated_at := None |}.

(** [trait SessionStore]: every method takes the store and returns its state
    after the call. [list_session_summaries] has the trait's default body. *)
Class SessionStore (St : Type) := {
  store_context_view : St → SessionId → St * answer SessionContextView;
  store_commit : St → SessionTransaction → St * answer SessionCommit;
  store_list_sessions : St → St * answer (list SessionId)
}.

Definition default_list_session_summaries `{SessionStore St} (self : St)
    : St * answer (list SessionSummary) :=
  let '(self, ids) := store_list_sessions self in
  (self, let? ids := ids in Ok (untitled <$> ids)).

(** The two errors of a store that could not do its work. *)
Definition is_fault (e : SessionError) : bool :=
  match e with StoreUnavailable _ | StoreBusy _ => true | _ => false end.

(** What a store promises: it serves the projection of one log per session; a view is
    that projection's view; a commit applies the transaction to it when the
    revision matches; and anything else, a store fault included, changes
    nothing. Each law is about one call; what other clients do between two calls is
    theirs to say ([EngineLogic.v]). *)
Class StoreLaws (St : Type) `{SessionStore St} := {
  serves : St → SessionId → SessionProjection;
  usable : St → Prop;
  view_law s sid :
    usable s →
    ((store_context_view s sid).2 = context_view (serves s sid) sid ∨
     ∃ e, (store_context_view s sid).2 = Err e ∧ is_fault e = true) ∧
    usable (store_context_view s sid).1 ∧
    ∀ sid', serves (store_context_view s sid).1 sid' = serves s sid';
  served_law s sid : usable s → ∃ Ls, session_log sid Ls (serves s sid);
  commit_law s tx :
    usable s →
    usable (store_commit s tx).1 ∧
    match (store_commit s tx).2 with
    | Ok c => ∃ a, tx_expected_revision tx = revision (serves s (tx_session_id tx)) ∧
        apply (serves s (tx_session_id tx)) tx = Ok a ∧ applied_commit a = Ok c ∧
        ∀ sid, serves (store_commit s tx).1 sid =
          if sid == tx_session_id tx then applied_projection a else serves s sid
    | Err e => (∀ sid, serves (store_commit s tx).1 sid = serves s sid) ∧
        (tx_expected_revision tx ≠ revision (serves s (tx_session_id tx)) ∧
           e = RevisionConflict (tx_expected_revision tx)
                 (revision (serves s (tx_session_id tx))) ∨
         tx_expected_revision tx = revision (serves s (tx_session_id tx)) ∧
           apply (serves s (tx_session_id tx)) tx = Err e ∨
         is_fault e = true)
    | Panic => False
    end
}.

(** ** memory.rs *)

Record MemorySessionStore : Type := {
  poisoned : bool;
  sessions : gmap SessionId SessionProjection
}.

Definition new : MemorySessionStore := {| poisoned := false; sessions := ∅ |}.

Definition unavailable : SessionError :=
  StoreUnavailable "in-memory session store mutex poisoned".

(** A critical section on the locked map: a panic inside it poisons the mutex. *)
Definition with_lock {A} (self : MemorySessionStore)
    (body : gmap SessionId SessionProjection → gmap SessionId SessionProjection * answer A)
    : MemorySessionStore * answer A :=
  if poisoned self then (self, Err unavailable)
  else
    let '(sessions', result) := body (sessions self) in
    ({| poisoned := match result with Panic => true | _ => false end; sessions := sessions' |},
     result).

(** [sessions.get(id).cloned().unwrap_or_else(SessionProjection::empty)]. *)
Definition projection_or_empty (sessions : gmap SessionId SessionProjection)
    (session_id : SessionId) : SessionProjection :=
  default empty (sessions !! session_id).

Definition memory_context_view (self : MemorySessionStore) (session_id : SessionId)
    : MemorySessionStore * answer SessionContextView :=
  with_lock self (λ sessions,
    (sessions, context_view (projection_or_empty sessions session_id) session_id)).

Definition memory_commit (self : MemorySessionStore) (transaction : SessionTransaction)
    : MemorySessionStore * answer SessionCommit :=
  with_lock self (λ sessions,
    let projection := projection_or_empty sessions (tx_session_id transaction) in
    if tx_expected_revision transaction != revision projection then
      (sessions, Err (RevisionConflict (tx_expected_revision transaction) (revision projection)))
    else
      match apply projection transaction with
      | Ok applied =>
          match applied_commit applied with
          | Ok commit =>
              (<[tx_session_id transaction := applied_projection applied]> sessions, Ok commit)
          | Err e => (sessions, Err e)
          | Panic => (sessions, Panic)
          end
      | Err e => (sessions, Err e)
      | Panic => (sessions, Panic)
      end).

(** The keys in the map's order, which the contract leaves open. *)
Definition memory_list_sessions (self : MemorySessionStore)
    : MemorySessionStore * answer (list SessionId) :=
  with_lock self (λ sessions, (sessions, Ok (fst <$> map_to_list sessions))).

Definition summary_of (row : SessionId * SessionProjection) : SessionSummary :=
  {| summary_session_id := row.1; summary_title := projection_title row.2;
     summary_updated_at := None |}.

Definition memory_list_session_summaries (self : MemorySessionStore)
    : MemorySessionStore * answer (list SessionSummary) :=
  with_lock self (λ sessions, (sessions, Ok (summary_of <$> map_to_list sessions))).

#[export] Instance memory_store : SessionStore MemorySessionStore := {
  store_context_view := memory_context_view;
  store_commit := memory_commit;
  store_list_sessions := memory_list_sessions
}.

(** ** The implementation keeps the contract *)
Definition memory_serves (self : MemorySessionStore) (sid : SessionId) : SessionProjection :=
  projection_or_empty (sessions self) sid.

Definition memory_usable (self : MemorySessionStore) : Prop :=
  poisoned self = false ∧ ∀ sid, ∃ Ls, session_log sid Ls (memory_serves self sid).

Lemma serves_insert (m : gmap SessionId SessionProjection) sid p sid' :
  projection_or_empty (<[sid := p]> m) sid' =
    if sid' == sid then p else projection_or_empty m sid'.
Proof.
  unfold projection_or_empty. case_bool_decide as Heq.
  - subst. by rewrite lookup_insert_eq.
  - by rewrite lookup_insert_ne.
Qed.

Lemma reachable_view p sid : reachable p → ∃ v, context_view p sid = Ok v.
Proof.
  intros Hr. destruct (reachable_wf _ Hr) as [Hlc _ Hc]. unfold context_view.
  destruct (messages_safe _ Hc) as [ms ->]. destruct (open_turns_spec _ Hlc) as (infos&->&_).
  simpl. eauto.
Qed.

Lemma applied_commit_Ok p tx a :
  apply p tx = Ok a →
  ∃ leaf, current_leaf (applied_projection a) = Some leaf ∧
    applied_commit a = Ok {| commit_revision := revision (applied_projection a);
                             commit_entries := applied_entries a;
                             commit_current_leaf := leaf |}.
Proof.
  intros (_&_&_&H)%apply_Ok.
  apply advance_transaction_Ok in H as (?&leaf&?&_&_&_&_&_&Hq).
  exists (entry_id leaf). unfold applied_commit. by rewrite Hq.
Qed.

Lemma memory_view_law s sid :
  memory_usable s →
  (memory_context_view s sid).2 = context_view (memory_serves s sid) sid ∧
  memory_usable (memory_context_view s sid).1 ∧
  ∀ sid', memory_serves (memory_context_view s sid).1 sid' = memory_serves s sid'.
Proof.
  intros [Hp Hr]. unfold memory_context_view, with_lock. rewrite Hp. simpl.
  destruct (Hr sid) as [Ls Hlog].
  destruct (reachable_view _ sid (session_log_reachable _ _ _ Hlog)) as [v Hv].
  unfold memory_serves in *.
  by rewrite Hv.
Qed.

Lemma memory_commit_law s tx :
  memory_usable s →
  memory_usable (memory_commit s tx).1 ∧
  match (memory_commit s tx).2 with
  | Ok c => ∃ a, tx_expected_revision tx = revision (memory_serves s (tx_session_id tx)) ∧
      apply (memory_serves s (tx_session_id tx)) tx = Ok a ∧ applied_commit a = Ok c ∧
      ∀ sid, memory_serves (memory_commit s tx).1 sid =
        if sid == tx_session_id tx then applied_projection a else memory_serves s sid
  | Err e => (∀ sid, memory_serves (memory_commit s tx).1 sid = memory_serves s sid) ∧
      (tx_expected_revision tx ≠ revision (memory_serves s (tx_session_id tx)) ∧
         e = RevisionConflict (tx_expected_revision tx)
               (revision (memory_serves s (tx_session_id tx))) ∨
       tx_expected_revision tx = revision (memory_serves s (tx_session_id tx)) ∧
         apply (memory_serves s (tx_session_id tx)) tx = Err e)
  | Panic => False
  end.
Proof.
  intros [Hp Hr]. unfold memory_commit, with_lock. rewrite Hp.
  set (p := projection_or_empty (sessions s) (tx_session_id tx)).
  change (memory_serves s (tx_session_id tx)) with p.
  case_bool_decide as Hrev; simpl.
  2: { split; [by split|]. split; [done|]. by left. }
  destruct (apply p tx) as [a|e|] eqn:Ha.
  - destruct (applied_commit_Ok _ _ _ Ha) as (leaf&_&Hc). rewrite Hc. simpl. split.
    + split; [done|]. intros sid. unfold memory_serves. simpl. rewrite serves_insert.
      case_bool_decide as Hsid; [|apply Hr]. subst sid.
      destruct (Hr (tx_session_id tx)) as [Ls Hlog]. eexists. by eapply log_commit.
    + exists a. split_and!; try done. intros sid. apply serves_insert.
  - simpl. split; [by split|]. split; [done|]. by right.
  - apply (apply_not_Panic p tx) in Ha; [done|].
    destruct (Hr (tx_session_id tx)) as [Ls Hlog].
    by eapply reachable_wf, session_log_reachable.
Qed.

#[export] Instance memory_store_laws : StoreLaws MemorySessionStore.
Proof.
  refine {| serves := memory_serves; usable := memory_usable |}.
  - intros s sid Hu. destruct (memory_view_law s sid Hu) as [Hv ?]. split; [by left|done].
  - by intros s sid [_ Hr].
  - intros s tx Hu. destruct (memory_commit_law s tx Hu) as [? Hc]. split; [done|].
    change (store_commit s tx) with (memory_commit s tx).
    destruct (memory_commit s tx).2; [done|tauto|done].
Defined.

(** ** What clients get from the contract *)
Section clients.
Context `{StoreLaws St}.

(** Interleaved calls of any number of clients, with the commits they made. *)
Inductive store_run : St → list (SessionTransaction * answer SessionCommit) → St → Prop :=
| run_start s : store_run s [] s
| run_view s h s' sid :
    store_run s h s' → store_run s h (store_context_view s' sid).1
| run_commit s h s' tx :
    store_run s h s' →
    store_run s (h ++ [(tx, (store_commit s' tx).2)]) (store_commit s' tx).1.

(** The successful commits of one session, oldest first. *)
Definition committed (sid : SessionId) (h : list (SessionTransaction * answer SessionCommit))
    : list SessionCommit :=
  filter_map (λ '(tx, r),
    match r with Ok c => if tx_session_id tx == sid then Some c else None | _ => None end) h.

Definition fresh_store (s : St) : Prop := usable s ∧ ∀ sid, serves s sid = empty.

Lemma committed_snoc sid h tx r :
  committed sid (h ++ [(tx, r)]) = committed sid h ++
    match r with Ok c => if tx_session_id tx == sid then [c] else [] | _ => [] end.
Proof.
  unfold committed. rewrite filter_map_snoc. f_equal.
  destruct r; try done. by case_bool_decide.
Qed.

Lemma store_run_usable s h s' : usable s → store_run s h s' → usable s'.
Proof.
  intros Hu. induction 1 as [s|s h s' sid _ IH|s h s' tx _ IH]; [done|..].
  - apply view_law. auto.
  - apply commit_law. auto.
Qed.

Lemma store_run_log s h s' sid :
  fresh_store s → store_run s h s' →
  session_log sid (commit_entries <$> committed sid h) (serves s' sid) ∧
  commit_revision <$> committed sid h = seq 1 (length (committed sid h)).
Proof.
  intros [Hu He] Hrun. induction Hrun as [s|s h s' sid' Hrun IH|s h s' tx Hrun IH].
  - rewrite He. split; [constructor|done].
  - destruct (view_law s' sid' (store_run_usable _ _ _ Hu Hrun)) as (_&_&->). auto.
  - destruct (commit_law s' tx (store_run_usable _ _ _ Hu Hrun)) as [_ Hc].
    destruct IH as [IH IHr]; [done..|]. rewrite committed_snoc.
    destruct (store_commit s' tx).2 as [c|e|]; [|destruct Hc as [-> _]; by rewrite app_nil_r|done].
    destruct Hc as (a&_&Ha&Hcm&Hs). rewrite Hs.
    rewrite (bool_decide_ext (sid = tx_session_id tx) (tx_session_id tx = sid)) by done.
    case_bool_decide as Hsid; [|by rewrite app_nil_r]. subst sid.
    destruct (applied_commit_Ok _ _ _ Ha) as (leaf&_&Hcm'). rewrite Hcm in Hcm'.
    injection Hcm' as ->. rewrite !fmap_app, length_app. simpl. split.
    + by eapply log_commit.
    + rewrite IHr, seq_app. simpl. f_equal. f_equal.
      assert (session_log (tx_session_id tx)
        ((commit_entries <$> committed (tx_session_id tx) h) ++ [applied_entries a])
        (applied_projection a)) as Hlog by by eapply log_commit.
      apply session_log_revision in Hlog. rewrite Hlog, length_app, length_fmap. simpl. lia.
Qed.

Lemma store_run_no_panic s h s' tx r :
  fresh_store s → store_run s h s' → (tx, r) ∈ h → r ≠ Panic.
Proof.
  intros [Hu _] Hrun. induction Hrun as [s|s h s' sid' Hrun IH|s h s' tx' Hrun IH]; intros Hin.
  - by apply elem_of_nil in Hin.
  - by apply IH.
  - apply elem_of_app in Hin as [Hin|Hin%list_elem_of_singleton]; [by apply IH|].
    injection Hin as -> ->.
    destruct (commit_law s' tx' (store_run_usable _ _ _ Hu Hrun)) as [_ Hc].
    by destruct (store_commit s' tx').2.
Qed.
End clients.

Lemma new_fresh : fresh_store new.
Proof.
  assert (∀ sid, memory_serves new sid = empty) as He.
  { intros sid. unfold memory_serves, projection_or_empty. simpl. by rewrite lookup_empty. }
  split; [|exact He]. split; [done|]. intros sid. rewrite He. exists []. constructor.
Qed.

(** ** Properties *)

(** the in-memory store serialises its clients: in any interleaving of
    views and commits from a new store, the commits that succeeded on a
    session form one log, numbered 1, 2, 3, ..., and the session's projection
    is that log's; nothing panics and the mutex is never poisoned, so no
    update is lost, repeated or half applied. *)
Theorem memory_store_serializes h s' sid :
  store_run new h s' →
  session_log sid (commit_entries <$> committed sid h) (memory_serves s' sid) ∧
  commit_revision <$> committed sid h = seq 1 (length (committed sid h)) ∧
  (∀ tx r, (tx, r) ∈ h → r ≠ Panic) ∧ poisoned s' = false.
Proof.
  intros Hrun. destruct (store_run_log _ _ _ sid new_fresh Hrun) as [Hlog Hrev].
  split_and!; [exact Hlog|done|..].
  - intros tx r. by apply (store_run_no_panic new h s' tx r new_fresh).
  - apply (store_run_usable _ _ _ (proj1 new_fresh) Hrun).
Qed.

(** Optimistic concurrency: a commit on a usable in-memory store succeeds
    exactly when its expected revision is the session's current one and the
    projection accepts the transaction; a stale revision is answered with both
    revisions; and a commit that fails leaves every session as it was. *)
Theorem memory_commit_optimistic s tx :
  memory_usable s →
  let p := memory_serves s (tx_session_id tx) in
  ((∃ c, (memory_commit s tx).2 = Ok c) ↔
     tx_expected_revision tx = revision p ∧ tx_accepted p tx) ∧
  (tx_expected_revision tx ≠ revision p →
     (memory_commit s tx).2 = Err (RevisionConflict (tx_expected_revision tx) (revision p))) ∧
  (is_ok (memory_commit s tx).2 = false → sessions (memory_commit s tx).1 = sessions s) ∧
  (∀ sid, sid ≠ tx_session_id tx → memory_serves (memory_commit s tx).1 sid = memory_serves s sid).
Proof.
  intros Hu p. pose proof (memory_commit_law s tx Hu) as [_ Hlaw]. fold p in Hlaw. split_and!.
  - split.
    + intros [c Hc]. rewrite Hc in Hlaw. destruct Hlaw as (a&?&Ha&_).
      split; [done|]. by eapply apply_accepted.
    + intros [Hrev Hacc]. destruct (accepted_apply _ _ Hacc) as [a Ha].
      destruct (memory_commit s tx).2 as [c|e|]; [by exists c| |done].
      destruct Hlaw as [_ [[? _]|[_ Herr]]]; [done|]. congruence.
  - intros Hne. destruct (memory_commit s tx).2 as [c|e|]; [|..].
    + by destruct Hlaw as (a&?&_).
    + destruct Hlaw as [_ [[_ ->]|[? _]]]; done.
    + done.
  - destruct Hu as [Hp _]. unfold memory_commit, with_lock. rewrite Hp.
    repeat (case_match; simpl); simplify_eq; done.
  - intros sid Hsid. destruct (memory_commit s tx).2 as [c|e|]; [|by apply Hlaw|done].
    destruct Hlaw as (a&_&_&_&->). by rewrite bool_decide_eq_false_2.
Qed.

Module demo_store.
Definition tx1 := linear "s" 0 demo.start.
Definition tx2 := linear "s" 1 demo.tools.
Definition s1 := (memory_commit new tx1).1.
Definition s2 := (memory_commit s1 tx1).1.
Definition s3 := (memory_commit s2 tx2).1.
End demo_store.

Lemma memory_store_serializes_witness :
  ∃ h s', store_run new h s' ∧ commit_revision <$> committed "s" h = [1; 2].
Proof.
  assert (Hrun : store_run new ((([] ++ [(demo_store.tx1, (store_commit new demo_store.tx1).2)])
    ++ [(demo_store.tx1, (store_commit demo_store.s1 demo_store.tx1).2)])
    ++ [(demo_store.tx2, (store_commit demo_store.s2 demo_store.tx2).2)]) demo_store.s3).
  { change demo_store.s3 with (store_commit demo_store.s2 demo_store.tx2).1.
    apply run_commit. change demo_store.s2 with (store_commit demo_store.s1 demo_store.tx1).1.
    apply run_commit. change demo_store.s1 with (store_commit new demo_store.tx1).1.
    apply run_commit. apply run_start. }
  eexists _, _. split; [exact Hrun|].
  destruct (memory_store_serializes _ _ "s" Hrun) as (_&Hrev&_).
  rewrite Hrev. vm_compute. reflexivity.
Defined.

Lemma memory_commit_optimistic_witness :
  memory_usable demo_store.s1 ∧
  (memory_commit demo_store.s1 demo_store.tx1).2 = Err (RevisionConflict 0 1).
Proof.
  assert (Hu : memory_usable demo_store.s1).
  { apply (memory_commit_law new demo_store.tx1). apply new_fresh. }
  split; [exact Hu|].
  apply (memory_commit_optimistic _ demo_store.tx1 Hu). vm_compute. discriminate.
Defined.

End store.
