(* ===== verification/TurnScript.v ===== *)
(** What the turn engine writes to a session: the entries of the start, the
    tool batches, the results, the settlement and the sealing of stale turns,
    and that the session accepts each of them in the state the previous ones
    leave. *)

From S2P Require Import Prelude RustStr Session SessionLifecycle SessionContext.
From S2P Require Import SessionProofs SessionStore.
Import session.

Module script.

(** ** Accepted sequences, one entry at a time *)
Lemma lc_accept_all_nil lc : lc_accept_all lc [] = Ok lc.
Proof. done. Qed.

Lemma lc_accept_all_cons lc k lc1 kinds lc' :
  lc_step lc k lc1 → lc_accept_all lc1 kinds = Ok lc' → lc_accept_all lc (k :: kinds) = Ok lc'.
Proof.
  intros Hs%lifecycle_accept_iff Hk. unfold lc_accept_all in *. cbn [try_fold].
  by rewrite Hs.
Qed.

Lemma lc_accept_all_app lc ks lc1 ks' lc' :
  lc_accept_all lc ks = Ok lc1 → lc_accept_all lc1 ks' = Ok lc' →
  lc_accept_all lc (ks ++ ks') = Ok lc'.
Proof. unfold lc_accept_all. intros H1 H2. by rewrite try_fold_app, H1. Qed.

(** Entries whose acceptance the lifecycle alone decides. *)
Definition plain (k : SessionEntryKind) : Prop :=
  match k with Compaction _ _ | TitleSet _ => False | _ => True end.

Lemma linear_kinds sid rev kinds : new_kind <$> tx_entries (linear sid rev kinds) = kinds.
Proof.
  unfold linear. simpl. rewrite fmap_imap. apply list_eq. intros i.
  rewrite list_lookup_imap. destruct (kinds !! i); simpl; [|done].
  by case_bool_decide.
Qed.

Lemma linear_length sid rev kinds : length (tx_entries (linear sid rev kinds)) = length kinds.
Proof. rewrite <- (linear_kinds sid rev kinds) at 2. by rewrite length_fmap. Qed.

Lemma linear_chained sid rev kinds : chained (tx_entries (linear sid rev kinds)).
Proof.
  intros i e. unfold linear. simpl. rewrite list_lookup_imap.
  destruct (kinds !! i); simpl; [|done]. intros [= <-]. by case_bool_decide.
Qed.

Lemma linear_nonempty sid rev kinds : kinds ≠ [] → tx_entries (linear sid rev kinds) ≠ [].
Proof.
  intros Hne Hnil. apply (f_equal length) in Hnil. rewrite linear_length in Hnil.
  by destruct kinds.
Qed.

Lemma linear_accepted p sid rev kinds lc :
  kinds ≠ [] → Forall plain kinds → save_point (lifecycle p) kinds →
  lc_accept_all (lifecycle p) kinds = Ok lc → tx_accepted p (linear sid rev kinds).
Proof.
  intros Hne Hplain Hsp Hacc. rewrite Forall_forall in Hplain. split.
  - by apply linear_nonempty.
  - done.
  - apply linear_chained.
  - by rewrite linear_kinds.
  - rewrite linear_kinds. eexists. by apply lc_accept_all_run.
  - rewrite linear_kinds. intros t Hin. by apply Hplain in Hin.
  - rewrite linear_kinds. intros s c Hin. by apply Hplain in Hin.
Qed.

Lemma apply_lifecycle p tx a :
  apply p tx = Ok a →
  lc_accept_all (lifecycle p) (new_kind <$> tx_entries tx) = Ok (lifecycle (applied_projection a)).
Proof.
  intros H. pose proof (apply_materialized _ _ _ H) as [_ Hes].
  apply apply_Ok in H as (_&_&_&H). rewrite Hes in H.
  apply advance_transaction_Ok in H as (next&leaf&u&_&_&_&[_ _ _ Hlc _ _ _]&_&->).
  by rewrite materialized_kinds in Hlc.
Qed.

Lemma apply_revision p tx a : apply p tx = Ok a → revision (applied_projection a) = revision p + 1.
Proof.
  intros (_&_&_&H)%apply_Ok.
  by apply advance_transaction_Ok in H as (next&leaf&u&_&_&_&_&_&->).
Qed.

(** Without tool results or final messages every sequence is a save point. *)
Lemma save_point_plain lc kinds :
  results_of kinds = [] → (∀ t bs, AssistantMessage t bs ∉ kinds) → save_point lc kinds.
Proof. intros Hr Ha. left. split; [done|]. intros t bs ? Hin. by apply Ha in Hin. Qed.

(** ** The states of one operation *)
Section turn.
Context (op : OperationId) (tid : TurnId).
Implicit Types lc : LifecycleProjection.

(** The record of the turn while the engine drives it. *)
Definition running (bs : list ToolBatchRecord) : TurnRecord :=
  {| turn_operation_id := op; has_user_message := true; has_assistant_message := false;
     turn_failure := None; turn_outcome := None; tool_batches := bs |}.

Record in_turn lc (bs : list ToolBatchRecord) : Prop := {
  in_turn_op : operations lc !! op = Some {| op_turn_id := Some tid; op_outcome := None |};
  in_turn_record : turns lc !! tid = Some (running bs);
  in_turn_open : open_turn_ids lc = [tid]
}.

Record closed lc (out : OperationOutcome) : Prop := {
  closed_op : operations lc !! op = Some {| op_turn_id := Some tid; op_outcome := Some out |};
  closed_turn : ∃ t, turns lc !! tid = Some t ∧
    turn_outcome t = Some (expected_turn_outcome out);
  closed_open : open_turn_ids lc = []
}.

(** The operation and the turn are new to the session. *)
Definition unused lc : Prop := operations lc !! op = None ∧ turns lc !! tid = None.

Definition all_complete (bs : list ToolBatchRecord) : Prop :=
  Forall (λ b, is_complete b = true) bs.

Lemma running_complete bs : all_complete bs → tool_rounds_complete (running bs) = true.
Proof.
  unfold tool_rounds_complete, running. simpl. intros Hc.
  destruct (last bs) as [b|] eqn:Hl; [|done].
  apply last_Some in Hl as [l ->]. apply Forall_app in Hc as [_ Hc].
  by apply Forall_cons in Hc as [? _].
Qed.

(** *** Start *)
Definition start_kinds (ps : list SessionUserPart) : list SessionEntryKind :=
  [OperationStarted op; TurnStarted op tid; UserMessage tid ps].

Lemma start_accepted lc ps :
  unused lc → open_turn_ids lc = [] → ps ≠ [] → Forall (λ p, part_well_formed p = true) ps →
  ∃ lc', lc_accept_all lc (start_kinds ps) = Ok lc' ∧ in_turn lc' [].
Proof.
  intros [Hop Htid] Hopen Hne Hps%parts_said_true. eexists. split.
  - eapply lc_accept_all_cons; [by apply step_operation|].
    eapply lc_accept_all_cons; [apply step_turn; [by simplify_map_eq|done]|].
    eapply lc_accept_all_cons; [|apply lc_accept_all_nil].
    apply (step_user _ _ _ (new_turn op)); [done..| |done]. split; [|done]. simpl.
    by simplify_map_eq.
  - split; simpl; [by simplify_map_eq..|]. by rewrite Hopen.
Qed.

Lemma start_save_point lc ps : save_point lc (start_kinds ps).
Proof. apply save_point_plain; [done|]. intros t bs. set_solver. Qed.

(** *** A tool batch *)
Lemma batch_accepted lc bs mid bid blocks :
  in_turn lc bs → all_complete bs → Forall (λ b, batch_id b ≠ bid) bs →
  filter_map block_call blocks ≠ [] → NoDup (call_id <$> filter_map block_call blocks) →
  BlockText "" ∉ blocks →
  ∃ lc', lc_accept_all lc [AssistantToolCallBatch tid mid bid blocks] = Ok lc' ∧
    in_turn lc' (bs ++ [opened_batch bid blocks]).
Proof.
  intros [Hop Ht Hopen] Hc Hid Hne Hnd Htext. eexists. split.
  - eapply lc_accept_all_cons; [|apply lc_accept_all_nil].
    apply (step_batch _ _ _ _ _ (running bs)); try done. by apply rounds_answered_true, running_complete.
  - split; simpl; [done|by simplify_map_eq|done].
Qed.

Lemma batch_save_point lc mid bid blocks :
  save_point lc [AssistantToolCallBatch tid mid bid blocks].
Proof. apply save_point_plain; [done|]. intros t bs. set_solver. Qed.

(** *** Results *)
Definition result_kind (bid : ToolBatchId) (r : SessionToolResult) : SessionEntryKind :=
  ToolResult tid bid r.

Definition filled (b : ToolBatchRecord) : ToolBatchRecord :=
  {| batch_id := batch_id b; call_ids := call_ids b; results := call_ids b |}.

Lemma filled_complete b : is_complete (filled b) = true.
Proof. by apply is_complete_true. Qed.

Lemma set_turn_id lc t : turns lc !! tid = Some t → set_turn lc tid t = lc.
Proof. intros Ht. unfold set_turn. destruct lc; simpl in *. by rewrite insert_id. Qed.

Lemma set_turn_twice lc t t' : set_turn (set_turn lc tid t) tid t' = set_turn lc tid t'.
Proof. unfold set_turn. simpl. by rewrite insert_insert_eq. Qed.

(** Results in call order, one entry at a time, for any open turn. *)
Lemma results_fill lc t bs b rs :
  open_turn lc tid t → tool_batches t = bs ++ [b] → NoDup (call_ids b) →
  call_ids b = results b ++ (result_call_id <$> rs) →
  lc_accept_all lc (result_kind (batch_id b) <$> rs) =
    Ok (set_turn lc tid (with_batches t (bs ++ [filled b]))).
Proof.
  revert lc t b. induction rs as [|r rs IH]; intros lc t b Ht Hbs Hnd Hids.
  - rewrite lc_accept_all_nil. f_equal. symmetry. rewrite app_nil_r in Hids.
    rewrite set_turn_id; [done|]. destruct Ht as [Ht _]. rewrite Ht. f_equal.
    unfold with_batches, filled. destruct t, b; simpl in *. congruence.
  - rewrite fmap_cons in Hids. rewrite fmap_cons. unfold result_kind at 1.
    eapply lc_accept_all_cons.
    + eapply step_result; [done|done|..].
      * rewrite Hids. by apply list_lookup_middle.
      * rewrite Hids in Hnd. apply NoDup_app in Hnd as (_&Hd&_).
        intros Hin'. apply (Hd _ Hin'). set_solver.
    + rewrite (IH _ (with_batches t (bs ++ [push_result b (result_call_id r)]))
                  (push_result b (result_call_id r))); try done.
      * by rewrite set_turn_twice.
      * split; [simpl; by rewrite lookup_insert_eq|]. apply Ht.
      * simpl. by rewrite <- app_assoc.
Qed.

Lemma results_accepted lc bs b rs :
  in_turn lc (bs ++ [b]) → NoDup (call_ids b) → results b = [] →
  call_ids b = result_call_id <$> rs →
  ∃ lc', lc_accept_all lc (result_kind (batch_id b) <$> rs) = Ok lc' ∧
    in_turn lc' (bs ++ [filled b]).
Proof.
  intros [Hop Ht Hopen] Hnd Hr Hids. eexists. split.
  - eapply (results_fill _ (running (bs ++ [b])) bs); [done|done|done|]. by rewrite Hr.
  - split; simpl; [done|by simplify_map_eq|done].
Qed.

Lemma results_of_app k1 k2 : results_of (k1 ++ k2) = results_of k1 ++ results_of k2.
Proof. unfold results_of. by rewrite filter_map_app, fmap_app. Qed.

Lemma results_of_results bid rs : results_of (result_kind bid <$> rs) = rs.
Proof. induction rs as [|r rs IH]; [done|]. unfold results_of in *. simpl. by f_equal. Qed.

(** Results followed by entries without any form a save point when the marks
    fit the cancellation those entries record. *)
Lemma results_save lc bs b rs tail :
  batches_of lc tid = bs ++ [b] → length (results b) ≤ length (call_ids b) →
  result_call_id <$> rs = drop (length (results b)) (call_ids b) → rs ≠ [] →
  results_of tail = [] → Forall (λ k, is_assistant_or_batch k = false) tail →
  marks_allowed (find_map (cancel_reason_of tid) tail) (result_outcome <$> rs) →
  save_point lc ((result_kind (batch_id b) <$> rs) ++ tail).
Proof.
  intros Hbs Hle Hids Hne Htail Hal Hm. right.
  assert (results_of ((result_kind (batch_id b) <$> rs) ++ tail) = rs) as Hres.
  { by rewrite results_of_app, results_of_results, Htail, app_nil_r. }
  assert (filter_map as_tool_result tail = []) as Htl.
  { unfold results_of in Htail. by apply fmap_nil_inv in Htail. }
  split; [by rewrite Hres|]. exists tid, bs, b. split; [done| |done|by rewrite Hres|..].
  - rewrite filter_map_app, Htl, app_nil_r. clear. induction rs; constructor; done.
  - rewrite Hres, find_map_app.
    assert (find_map (cancel_reason_of tid) (result_kind (batch_id b) <$> rs) = None) as ->.
    { apply find_map_None. apply Forall_fmap. by apply Forall_true. }
    done.
  - apply Forall_app. split; [|done]. apply Forall_fmap. by apply Forall_true.
Qed.

Lemma in_turn_batches lc bs : in_turn lc bs → batches_of lc tid = bs.
Proof. intros [_ Ht _]. unfold batches_of. by rewrite Ht. Qed.

(** *** Settlements *)
Lemma filter_open lc bs : in_turn lc bs → filter (λ open, open ≠ tid) (open_turn_ids lc) = [].
Proof.
  intros [_ _ ->]. rewrite filter_cons, decide_False; [done|]. by intros Hn.
Qed.

Lemma turn_cancel_accepted lc bs reason usage generation :
  in_turn lc bs → all_complete bs →
  ∃ lc', lc_accept_all lc [TurnTerminated tid (TurnCancelled reason);
           OperationSettled op (OpCancelled reason) usage generation] = Ok lc' ∧
    closed lc' (OpCancelled reason).
Proof.
  intros Hin Hc. pose proof (filter_open _ _ Hin) as Hf. destruct Hin as [Hop Ht Hopen].
  eexists. split.
  - eapply lc_accept_all_cons.
    { apply (step_terminated _ _ _ (running bs)); [done|].
      apply outcome_fits_true. simpl. by rewrite running_complete. }
    eapply lc_accept_all_cons; [|apply lc_accept_all_nil].
    eapply step_settled; [done|by simplify_map_eq|done|done].
  - split; simpl; [by simplify_map_eq|by simplify_map_eq; eauto|done].
Qed.

Lemma failure_accepted lc bs failure usage generation :
  in_turn lc bs →
  ∃ lc', lc_accept_all lc [TurnFailure tid failure; TurnTerminated tid TurnFailed;
           OperationSettled op OpFailed usage generation] = Ok lc' ∧ closed lc' OpFailed.
Proof.
  intros Hin. pose proof (filter_open _ _ Hin) as Hf. destruct Hin as [Hop Ht Hopen].
  eexists. split.
  - eapply lc_accept_all_cons; [by apply (step_failure _ _ _ (running bs))|].
    eapply lc_accept_all_cons.
    { apply (step_terminated _ _ _ (with_failure (running bs) failure)); [|done].
      split; [by simplify_map_eq|done]. }
    eapply lc_accept_all_cons; [|apply lc_accept_all_nil].
    eapply step_settled; [done|by simplify_map_eq|done|done].
  - split; simpl; [by simplify_map_eq|by simplify_map_eq; eauto|done].
Qed.

Lemma success_accepted lc bs blocks usage generation :
  in_turn lc bs → all_complete bs →
  Forall (λ b, ∃ text, b = BlockText text ∧ text ≠ "") blocks →
  ∃ lc', lc_accept_all lc [AssistantMessage tid blocks; TurnTerminated tid TurnSucceeded;
           OperationSettled op OpSucceeded usage generation] = Ok lc' ∧ closed lc' OpSucceeded.
Proof.
  intros Hin Hc Hbl. pose proof (filter_open _ _ Hin) as Hf. destruct Hin as [Hop Ht Hopen].
  eexists. split.
  - eapply lc_accept_all_cons.
    { apply (step_assistant _ _ _ (running bs)); try done. by apply rounds_answered_true, running_complete. }
    eapply lc_accept_all_cons.
    { apply (step_terminated _ _ _ (with_assistant_message (running bs))); [|done].
      split; [by simplify_map_eq|done]. }
    eapply lc_accept_all_cons; [|apply lc_accept_all_nil].
    eapply step_settled; [done|by simplify_map_eq|done|done].
  - split; simpl; [by simplify_map_eq|by simplify_map_eq; eauto|done].
Qed.

Lemma success_save_point lc bs blocks usage generation :
  in_turn lc bs → all_complete bs →
  save_point lc [AssistantMessage tid blocks; TurnTerminated tid TurnSucceeded;
                 OperationSettled op OpSucceeded usage generation].
Proof.
  intros [_ Ht _] Hc. left. split; [done|]. intros tid' bs' t Hin Ht'.
  assert (tid' = tid) as -> by set_solver. simplify_eq. by apply rounds_answered_true, running_complete.
Qed.
End turn.

(** ** Stale turns *)

(** Every open turn can be cancelled: nothing but its batch is unfinished. *)
Definition sealable (lc : LifecycleProjection) : Prop := ∀ tid t,
  open_turn lc tid t → has_assistant_message t = false ∧ turn_failure t = None.

(** What a stale turn leaves to fill: the calls of its batch without results. *)
Definition unanswered (t : TurnRecord) : option UnfilledBatch :=
  last (tool_batches t) ≫= unfilled.

Definition interrupted (id : ToolCallId) : SessionToolResult :=
  {| result_call_id := id; result_outcome := ResultInterrupted |}.

Definition placeholders (tid : TurnId) (t : TurnRecord) : list SessionEntryKind :=
  match unanswered t with
  | Some batch => result_kind tid (unfilled_tool_batch_id batch) <$>
                    (interrupted <$> unfilled_call_ids batch)
  | None => []
  end.

Definition abandon (oid : OperationId) (tid : TurnId) : list SessionEntryKind :=
  [TurnTerminated tid (TurnCancelled ReasonAbandoned);
   OperationSettled oid (OpCancelled ReasonAbandoned) None None].

Definition complete_record (t : TurnRecord) : Prop :=
  turn_outcome t = None ∧ has_assistant_message t = false ∧ turn_failure t = None ∧
  tool_rounds_complete t = true.

(** The placeholders complete the turn's newest batch and nothing else. *)
Lemma placeholders_accepted lc tid t :
  lc_wf lc → sealable lc → open_turn lc tid t →
  ∃ t', lc_accept_all lc (placeholders tid t) = Ok (set_turn lc tid t') ∧
    complete_record t' ∧ turn_operation_id t' = turn_operation_id t.
Proof.
  intros Hwf Hs Ht. destruct (Hs _ _ Ht) as [Ha Hf]. pose proof Ht as [Hl Ho].
  unfold placeholders, unanswered.
  destruct (last (tool_batches t)) as [b|] eqn:Hlast; simpl.
  2: { exists t. rewrite set_turn_id by done.
       assert (tool_rounds_complete t = true) by (unfold tool_rounds_complete; by rewrite Hlast).
       by split_and!. }
  unfold unfilled. destruct (is_complete b) eqn:Hc; simpl.
  { exists t. rewrite set_turn_id by done.
    assert (tool_rounds_complete t = true) by (unfold tool_rounds_complete; by rewrite Hlast).
    by split_and!. }
  apply last_Some in Hlast as [bs Hbs].
  pose proof (turn_batches_wf _ (lc_turn_wf _ Hwf _ _ Hl)) as Hb.
  rewrite Hbs, Forall_app, Forall_singleton in Hb. destruct Hb as [_ [_ Hnd [k Hk]]].
  exists (with_batches t (bs ++ [filled b])). unfold complete_record.
  split; [|split_and!; try done].
  - apply results_fill; [done..|]. rewrite <- list_fmap_compose.
    rewrite Hk at 2. rewrite drop_app_length. rewrite Hk. f_equal. symmetry. apply list_fmap_id.
  - unfold tool_rounds_complete, with_batches. simpl. by rewrite last_snoc, filled_complete.
Qed.

Lemma abandon_accepted lc tid t :
  lc_wf lc → open_turn lc tid t → complete_record t →
  ∃ lc', lc_accept_all lc (abandon (turn_operation_id t) tid) = Ok lc' ∧
    open_turn_ids lc' = filter (λ open, open ≠ tid) (open_turn_ids lc) ∧
    (∀ tid', tid' ≠ tid → turns lc' !! tid' = turns lc !! tid') ∧
    (∃ t', turns lc' !! tid = Some t' ∧ turn_outcome t' ≠ None) ∧
    (∀ oid, operations lc !! oid = None → operations lc' !! oid = None).
Proof.
  intros Hwf Ht (Ho&Ha&Hf&Hc). pose proof Ht as [Hl _].
  destruct (lc_turn_op _ Hwf _ _ Hl) as (o&Hop&Hotid).
  assert (op_outcome o = None) as Hoo.
  { destruct (op_outcome o) as [out|] eqn:Hout; [|done].
    destruct (lc_settled _ Hwf _ _ _ Hop Hout) as (tid'&t'&?&?&?). congruence. }
  rewrite (operation_eta o (Some tid) None) in Hop by done.
  eexists. split; [|split_and!].
  - eapply lc_accept_all_cons.
    { apply (step_terminated _ _ _ t); [done|].
      apply outcome_fits_true. simpl. by rewrite Ha, Hf. }
    eapply lc_accept_all_cons; [|apply lc_accept_all_nil].
    eapply step_settled; [exact Hop|simpl; by rewrite lookup_insert_eq|done|done].
  - done.
  - intros tid' Hne. simpl. by rewrite lookup_insert_ne.
  - simpl. rewrite lookup_insert_eq. eauto.
  - intros oid Hoid. simpl. rewrite lookup_insert_ne; [done|]. congruence.
Qed.

(** Sealing one stale turn closes it and touches nothing else. *)
Lemma seal_accepted lc tid t :
  lc_wf lc → sealable lc → open_turn lc tid t →
  ∃ lc', lc_accept_all lc (placeholders tid t ++ abandon (turn_operation_id t) tid) = Ok lc' ∧
    open_turn_ids lc' = filter (λ open, open ≠ tid) (open_turn_ids lc) ∧ sealable lc' ∧
    (∀ tid', tid' ≠ tid → turns lc' !! tid' = turns lc !! tid') ∧
    (∀ oid, operations lc !! oid = None → operations lc' !! oid = None).
Proof.
  intros Hwf Hs Ht. destruct (placeholders_accepted _ _ _ Hwf Hs Ht) as (t'&Hp&Hc&Hid).
  assert (open_turn (set_turn lc tid t') tid t') as Ht'.
  { split; [|apply Hc]. simpl. by rewrite lookup_insert_eq. }
  destruct (abandon_accepted (set_turn lc tid t') tid t') as (lc'&Hacc&Hopen&Hne&(t2&Ht2&Ho2)&Hops);
    [by eapply lc_accept_all_wf|done..|].
  rewrite Hid in Hacc. exists lc'. split; [by eapply lc_accept_all_app|].
  split; [done|]. split_and!.
  - intros tid' u [Hu Hou]. destruct (decide (tid' = tid)) as [->|Hn]; [congruence|].
    rewrite Hne in Hu by done. simpl in Hu. rewrite lookup_insert_ne in Hu by done.
    by apply (Hs tid').
  - intros tid' Hn. rewrite Hne by done. simpl. by rewrite lookup_insert_ne.
  - intros oid Hoid. by apply Hops.
Qed.

Lemma seal_save_point lc tid t :
  lc_wf lc → open_turn lc tid t →
  save_point lc (placeholders tid t ++ abandon (turn_operation_id t) tid).
Proof.
  intros Hwf [Ht Ho]. unfold placeholders, unanswered.
  assert (save_point lc (abandon (turn_operation_id t) tid)) as Hplain.
  { apply save_point_plain; [done|]. intros ? ?. unfold abandon. set_solver. }
  destruct (last (tool_batches t)) as [b|] eqn:Hlast; simpl; [|done].
  unfold unfilled. destruct (is_complete b) eqn:Hc; simpl; [done|].
  apply last_Some in Hlast as [bs Hbs].
  pose proof (turn_batches_wf _ (lc_turn_wf _ Hwf _ _ Ht)) as Hb.
  rewrite Hbs, Forall_app, Forall_singleton in Hb. destruct Hb as [_ [_ _ Hp]].
  pose proof (prefix_length _ _ Hp) as Hle.
  assert (length (results b) ≠ length (call_ids b)) as Hne.
  { intros Heq. apply is_complete_true in Heq. congruence. }
  apply (results_save _ _ bs); try done.
  - unfold batches_of. by rewrite Ht.
  - rewrite <- list_fmap_compose. apply list_fmap_id.
  - intros Hnil. apply (f_equal length) in Hnil. rewrite length_fmap, length_drop in Hnil.
    simpl in Hnil. lia.
  - repeat constructor.
  - simpl. rewrite bool_decide_eq_true_2 by done. simpl.
    rewrite <- list_fmap_compose. apply Forall_fmap, Forall_true. done.
Qed.

Lemma in_turn_sealable op tid lc bs : lc_wf lc → in_turn op tid lc bs → sealable lc.
Proof.
  intros Hwf [_ Ht Hopen] tid' t [Ht' Ho].
  assert (tid' ∈ open_turn_ids lc) as Hin by (apply (lc_open _ Hwf); eauto).
  rewrite Hopen in Hin. apply list_elem_of_singleton in Hin as ->. by simplify_eq.
Qed.

Lemma no_open_sealable lc : lc_wf lc → open_turn_ids lc = [] → sealable lc.
Proof.
  intros Hwf Hopen tid t [Ht Ho].
  assert (tid ∈ open_turn_ids lc) as Hin by (apply (lc_open _ Hwf); eauto).
  rewrite Hopen in Hin. by apply elem_of_nil in Hin.
Qed.
End script.
