(* ===== verification/Tools.v ===== *)
(** The tool vocabulary (src/crates/philo-tools): results, definitions,
    invocations and how an invocation ends.

    The tool registry (src/crates/philo-tools/src/definition.rs,
    invocation.rs and registry.rs): the JSON object check, tool definitions
    with their argument validation, and the dispatch of an invocation.

    Module [json] is the parser: its state [input, index] is the list of the
    bytes from [index] on. The recursion of [object], [array] and [value] has
    a fuel; [parse_fuel] is enough for every input ([ToolRegistryProofs]).
    Module [registry] has the definitions and the registry; a handler is code
    of another crate, a parameter.

    The cancel token of a tool call (src/crates/philo-tools/src/cancel.rs): a
    flag, the wakers of the tasks that wait for it, and the interleavings of
    requests with polls.

    Module [cancel] is a step relation: one step is one atomic access of the
    flag or one critical section of the waker list. A task is known by its
    waker; any number of tasks poll and any number of threads request. *)

From S2P Require Import Prelude RustStr.
From Stdlib Require Import Ascii.
Module tools.

(** ** result.rs *)

Inductive ToolResult : Type :=
| Success (content : string)
| Error (code message : string).

Record ToolFact : Type := { fact_name : string; fact_value : string }.

Record ToolDisplay : Type := { detail : string; facts : list ToolFact }.

Definition display_new (detail : string) : ToolDisplay := {| detail := detail; facts := [] |}.

Definition with_fact (self : ToolDisplay) (name value : string) : ToolDisplay :=
  {| detail := detail self; facts := facts self ++ [{| fact_name := name; fact_value := value |}] |}.

Record RichToolResult : Type := { result : ToolResult; display : option ToolDisplay }.

Definition rich_new (result : ToolResult) : RichToolResult :=
  {| result := result; display := None |}.
Definition rich_success (content : string) : RichToolResult := rich_new (Success content).
Definition rich_error (code message : string) : RichToolResult := rich_new (Error code message).
Definition with_display (self : RichToolResult) (display : ToolDisplay) : RichToolResult :=
  {| result := result self; display := Some display |}.

(** ** cancel.rs *)

Inductive ToolInvokeEnd : Type :=
| Done (result : RichToolResult)
| Stopped.

(** ** port.rs, invocation.rs *)

Record ToolPortError : Type := { port_message : string }.

Record ToolInvocation : Type := {
  invocation_call_id : string;
  invocation_name : string;
  raw_arguments : string
}.

(** ** definition.rs *)

Record ToolSchema : Type := { json : string }.

Definition default_schema : ToolSchema := {| json := "{}" |}.

Inductive EffectClass : Type := ReadOnly | Workspace | System.

Record ToolDefinition : Type := {
  definition_name : string;
  description : string;
  parameters : ToolSchema;
  effect_class : EffectClass
}.

End tools.

Import tools.

Fixpoint bytes_of (s : string) : list ascii :=
  match s with EmptyString => [] | String b s => b :: bytes_of s end.

Module json.

Abbreviation rest := (list ascii).

Definition QUOTE : ascii := "034".
Definition BACKSLASH : ascii := "092".

(** [u8::is_ascii_whitespace]. *)
Definition is_ascii_whitespace (b : ascii) : bool :=
  let n := byte_val b in ((n =? 9) || (n =? 10) || (n =? 12) || (n =? 13) || (n =? 32))%Z.
Definition is_ascii_digit (b : ascii) : bool :=
  let n := byte_val b in ((48 <=? n) && (n <=? 57))%Z.

Definition ws (s : rest) : rest := drop_while is_ascii_whitespace s.

(** A parsing method: where it left the input and whether it succeeded. *)
Definition eat (expected : ascii) (s : rest) : rest * bool :=
  let s := ws s in
  match s with
  | b :: s' => if b == expected then (s', true) else (s, false)
  | [] => (s, false)
  end.

Fixpoint string_body (escaped : bool) (s : rest) : rest * bool :=
  match s with
  | [] => ([], false)
  | b :: s =>
      if escaped then string_body false s
      else if b == BACKSLASH then string_body true s
      else if b == QUOTE then (s, true)
      else if (byte_val b <? 32)%Z then (s, false)
      else string_body false s
  end.

Definition string_ (s : rest) : rest * bool :=
  let '(s, ok) := eat QUOTE s in if negb ok then (s, false) else string_body false s.

Definition literal (lit : string) (s : rest) : rest * bool :=
  let l := bytes_of lit in
  if bool_decide (take (length l) s = l) then (drop (length l) s, true) else (s, false).

Definition digits (s : rest) : rest := drop_while is_ascii_digit s.

(** At least one digit. *)
Definition some_digits (s : rest) : rest * bool :=
  (digits s, bool_decide (length (digits s) ≠ length s)).

Definition fraction (s : rest) : rest * bool :=
  match s with
  | b :: s' => if b == "."%char then some_digits s' else (s, true)
  | [] => (s, true)
  end.

Definition exponent (s : rest) : rest * bool :=
  match s with
  | b :: s' =>
      if (b == "e"%char) || (b == "E"%char) then
        some_digits (match s' with
                     | c :: s'' => if (c == "+"%char) || (c == "-"%char) then s'' else s'
                     | [] => s'
                     end)
      else (s, true)
  | [] => (s, true)
  end.

Definition number (s : rest) : rest * bool :=
  let start := s in
  let s := match s with b :: s' => if b == "-"%char then s' else s | [] => s end in
  let '(s, ok) := some_digits s in
  if negb ok then (start, false)
  else
    let '(s, ok) := fraction s in
    if negb ok then (s, false) else exponent s.

(** [object], [array] and [value]; [None] when the fuel is used up. *)
Fixpoint value (fuel : nat) (s : rest) : option (rest * bool) :=
  match fuel with
  | 0 => None
  | S fuel =>
      let s := ws s in
      match s with
      | [] => Some (s, false)
      | b :: _ =>
          if b == "{"%char then object fuel s
          else if b == "["%char then array fuel s
          else if b == QUOTE then Some (string_ s)
          else if b == "t"%char then Some (literal "true" s)
          else if b == "f"%char then Some (literal "false" s)
          else if b == "n"%char then Some (literal "null" s)
          else if (b == "-"%char) || is_ascii_digit b then Some (number s)
          else Some (s, false)
      end
  end
with object (fuel : nat) (s : rest) : option (rest * bool) :=
  match fuel with
  | 0 => None
  | S fuel =>
      let '(s, ok) := eat "{"%char s in
      if negb ok then Some (s, false)
      else
        let '(s, ok) := eat "}"%char (ws s) in
        if ok then Some (s, true) else object_members fuel s
  end
with object_members (fuel : nat) (s : rest) : option (rest * bool) :=
  match fuel with
  | 0 => None
  | S fuel =>
      let '(s, ok) := string_ s in
      if negb ok then Some (s, false)
      else
        let '(s, ok) := eat ":"%char s in
        if negb ok then Some (s, false)
        else
          match value fuel s with
          | None => None
          | Some (s, false) => Some (s, false)
          | Some (s, true) =>
              let '(s, ok) := eat "}"%char (ws s) in
              if ok then Some (s, true)
              else
                let '(s, ok) := eat ","%char s in
                if negb ok then Some (s, false) else object_members fuel s
          end
  end
with array (fuel : nat) (s : rest) : option (rest * bool) :=
  match fuel with
  | 0 => None
  | S fuel =>
      let '(s, ok) := eat "["%char s in
      if negb ok then Some (s, false)
      else
        let '(s, ok) := eat "]"%char (ws s) in
        if ok then Some (s, true) else array_elements fuel s
  end
with array_elements (fuel : nat) (s : rest) : option (rest * bool) :=
  match fuel with
  | 0 => None
  | S fuel =>
      match value fuel s with
      | None => None
      | Some (s, false) => Some (s, false)
      | Some (s, true) =>
          let '(s, ok) := eat "]"%char (ws s) in
          if ok then Some (s, true)
          else
            let '(s, ok) := eat ","%char s in
            if negb ok then Some (s, false) else array_elements fuel s
      end
  end.

Definition starts_with (b : ascii) (s : rest) : bool :=
  match s with c :: _ => c == b | [] => false end.
Definition ends_with (b : ascii) (s : rest) : bool :=
  match last s with Some c => c == b | None => false end.

(** Every nested call but one has consumed a byte. *)
Definition parse_fuel (s : rest) : nat := 3 * length s + 3.

(** [is_json_object] with the fuel of its parser; [None] when it runs out. *)
Definition is_json_object_fuel (fuel : nat) (input : string) : option bool :=
  let trimmed := bytes_of (trim input) in
  if negb (starts_with "{"%char trimmed && ends_with "}"%char trimmed) then Some false
  else
    '(s, valid) ← object fuel trimmed;
    Some (valid && is_nil (ws s)).

Definition is_json_object (input : string) : bool :=
  default false (is_json_object_fuel (parse_fuel (bytes_of (trim input))) input).

End json.

Module registry.

(** ** definition.rs *)

Definition schema_new (text : string) : outcome string ToolSchema :=
  if negb (json.is_json_object text) then Err "tool schema must be a JSON object"
  else Ok {| json := text |}.

(** [ToolSchemaInput::into_schema]: a schema as it is, text checked. *)
Definition into_schema (input : ToolSchema + string) : outcome string ToolSchema :=
  match input with inl schema => Ok schema | inr text => schema_new text end.

Definition definition_new (name description : string) (parameters : ToolSchema + string)
    (effect_class : EffectClass) : outcome string ToolDefinition :=
  if str_is_empty (trim name) then Err "tool name must not be empty"
  else
    let? schema := into_schema parameters in
    Ok {| definition_name := name; description := description; parameters := schema;
          effect_class := effect_class |}.

Definition simple (name description : string) (effect_class : EffectClass)
    : outcome string ToolDefinition :=
  match definition_new name description (inl default_schema) effect_class with
  | Ok d => Ok d
  | _ => Panic
  end.

(** [str::find] and [&s[n..]]. *)
Definition str_find (needle s : string) : option nat := String.index 0 needle s.
Definition str_from (n : nat) (s : string) : string := String.substring n (String.length s - n) s.
Definition str_to (n : nat) (s : string) : string := String.substring 0 n s.

Definition quote : string := String json.QUOTE EmptyString.

Definition contains_object_key (arguments key : string) : bool :=
  let needle := quote +:+ key +:+ quote in
  match str_find needle arguments with
  | None => false
  | Some index =>
      String.prefix ":" (trim_start (str_from (index + String.length needle) arguments))
  end.

(** The loop of [validate_arguments] over the text of the required keys; every
    turn of it consumes two quotes, the fuel is the length of the text. *)
Fixpoint required_loop (fuel : nat) (arguments rest : string) : outcome string unit :=
  match fuel with
  | 0 => Ok tt
  | S fuel =>
      match str_find quote rest with
      | None => Ok tt
      | Some start =>
          let after := str_from (start + 1) rest in
          match str_find quote after with
          | None => Err "invalid required schema"
          | Some end_ =>
              let key := str_to end_ after in
              if negb (contains_object_key arguments key) then
                Err ("missing required argument: " +:+ key)
              else required_loop fuel arguments (str_from (end_ + 1) after)
          end
      end
  end.

Definition validate_arguments (self : ToolDefinition) (arguments : string) : outcome string unit :=
  let schema := json (parameters self) in
  match str_find (quote +:+ "required" +:+ quote) schema with
  | None => Ok tt
  | Some required_start =>
      let tail := str_from required_start schema in
      match str_find "[" tail with
      | None => Ok tt
      | Some open =>
          match str_find "]" (str_from (open + 1) tail) with
          | None => Err "invalid required schema"
          | Some close =>
              let required := str_to close (str_from (open + 1) tail) in
              required_loop (String.length required) arguments required
          end
      end
  end.

(** ** invocation.rs *)

Record ToolArguments : Type := { raw : string }.

Definition parse (text : string) : outcome string ToolArguments :=
  if negb (json.is_json_object text) then Err "arguments must be a JSON object"
  else Ok {| raw := text |}.

(** ** registry.rs *)

Inductive RegistryError : Type :=
| DuplicateName (name : string)
| InvalidDefinition (message : string).

Section registry.
(** A handler, the context of an invocation and what a handler can change are
    other crates' code. *)
Context {Handler Cx World : Type}.
Variable call_with_cx : Handler → ToolArguments → Cx → World → World * ToolInvokeEnd.

Record ToolRegistryBuilder : Type := { builder_entries : list (ToolDefinition * Handler) }.
Record ToolRegistry : Type := { entries : list (ToolDefinition * Handler) }.

Definition builder_new : ToolRegistryBuilder := {| builder_entries := [] |}.

Definition register (self : ToolRegistryBuilder) (definition : ToolDefinition)
    (handler : Handler) : outcome RegistryError ToolRegistryBuilder :=
  if any (λ entry, definition_name entry.1 == definition_name definition) (builder_entries self)
  then Err (DuplicateName (definition_name definition))
  else Ok {| builder_entries := builder_entries self ++ [(definition, handler)] |}.

Definition build (self : ToolRegistryBuilder) : ToolRegistry :=
  {| entries := builder_entries self |}.

Definition definitions (self : ToolRegistry) : list ToolDefinition := (entries self).*1.

Definition find_entry (self : ToolRegistry) (name : string) : option (ToolDefinition * Handler) :=
  find_map (λ entry, if definition_name entry.1 == name then Some entry else None) (entries self).

(** [ToolPort::invoke] of the registry. *)
Definition invoke (self : ToolRegistry) (invocation : ToolInvocation) (cx : Cx) (w : World)
    : World * outcome ToolPortError ToolInvokeEnd :=
  match find_entry self (invocation_name invocation) with
  | None =>
      (w, Ok (Done (rich_error "unknown_tool"
                      ("unknown tool: " +:+ invocation_name invocation))))
  | Some (definition, handler) =>
      match parse (raw_arguments invocation) with
      | Err message => (w, Ok (Done (rich_error "invalid_arguments" message)))
      | Panic => (w, Panic)
      | Ok args =>
          match validate_arguments definition (raw args) with
          | Err message => (w, Ok (Done (rich_error "invalid_arguments" message)))
          | Panic => (w, Panic)
          | Ok _ =>
              let '(w, result) := call_with_cx handler args cx w in (w, Ok result)
          end
      end
  end.
End registry.

End registry.

Module cancel.

Abbreviation waker := nat.
Abbreviation thread := nat.

(** Where a task is in [ToolCancelled::poll]. *)
Inductive poll_state : Type :=
| PollIdle        (** before the first check of the flag *)
| PollRegister    (** the flag was down, about to lock the wakers *)
| PollRecheck     (** the waker is registered, before the second check *)
| PollReady
| PollPending.

(** Where a thread is in [ToolCancel::request]. *)
Inductive request_state : Type :=
| ReqIdle
| ReqTake                          (** the flag is up, about to take the wakers *)
| ReqWake (wakers : list waker)    (** the wakers still to wake *)
| ReqDone.

(** The token, the threads, and the tasks woken since their last poll began. *)
Record world : Type := {
  requested : bool;
  wakers : list waker;
  polls : waker → poll_state;
  requests : thread → request_state;
  woken : gset waker
}.

(** [ToolCancel::new] and nobody started. *)
Definition new : world :=
  {| requested := false; wakers := []; polls := λ _, PollIdle; requests := λ _, ReqIdle;
     woken := ∅ |}.

Definition update {A} (f : nat → A) (i : nat) (x : A) : nat → A :=
  λ k, if decide (k = i) then x else f k.

Definition at_poll (w : world) (i : waker) (p : poll_state) : world :=
  {| requested := requested w; wakers := wakers w; polls := update (polls w) i p;
     requests := requests w; woken := woken w |}.

Inductive step (w : world) : world → Prop :=
| poll_check i :
    polls w i = PollIdle →
    step w (at_poll w i (if requested w then PollReady else PollRegister))
| poll_push i :
    polls w i = PollRegister →
    step w {| requested := requested w; wakers := wakers w ++ [i];
              polls := update (polls w) i PollRecheck; requests := requests w;
              woken := woken w |}
| poll_recheck i :
    polls w i = PollRecheck →
    step w (at_poll w i (if requested w then PollReady else PollPending))
| poll_again i :
    polls w i = PollPending →
    step w {| requested := requested w; wakers := wakers w;
              polls := update (polls w) i PollIdle; requests := requests w;
              woken := woken w ∖ {[i]} |}
| request_store j :
    requests w j = ReqIdle →
    step w {| requested := true; wakers := wakers w; polls := polls w;
              requests := update (requests w) j ReqTake; woken := woken w |}
| request_take j :
    requests w j = ReqTake →
    step w {| requested := requested w; wakers := []; polls := polls w;
              requests := update (requests w) j (ReqWake (wakers w)); woken := woken w |}
| request_wake j i l :
    requests w j = ReqWake (i :: l) →
    step w {| requested := requested w; wakers := wakers w; polls := polls w;
              requests := update (requests w) j (ReqWake l); woken := {[i]} ∪ woken w |}
| request_done j :
    requests w j = ReqWake [] →
    step w {| requested := requested w; wakers := wakers w; polls := polls w;
              requests := update (requests w) j ReqDone; woken := woken w |}.

Inductive reachable : world → Prop :=
| reach_new : reachable new
| reach_step w w' : reachable w → step w w' → reachable w'.

(** ** The invariant *)
Definition on_its_way (w : world) (i : waker) : Prop :=
  i ∈ woken w ∨ (∃ j l, requests w j = ReqWake l ∧ i ∈ l) ∨
  (i ∈ wakers w ∧ (requested w = true → ∃ j, requests w j = ReqTake)).

Record inv (w : world) : Prop := {
  inv_idle : requested w = false → ∀ j, requests w j = ReqIdle;
  inv_registered : ∀ i, requested w = false → polls w i = PollRecheck → i ∈ wakers w;
  inv_ready : ∀ i, polls w i = PollReady → requested w = true;
  inv_pending : ∀ i, polls w i = PollPending → on_its_way w i
}.

Lemma update_eq {A} (f : nat → A) i x : update f i x i = x.
Proof. unfold update. by rewrite decide_True. Qed.
Lemma update_ne {A} (f : nat → A) i k x : k ≠ i → update f i x k = f k.
Proof. intros. unfold update. by rewrite decide_False. Qed.

Lemma update_inv {A} (f : nat → A) i x k y :
  update f i x k = y → (k = i ∧ x = y) ∨ (k ≠ i ∧ f k = y).
Proof. unfold update. destruct (decide (k = i)); auto. Qed.

(** A request that moves from one state to another keeps what is on its way,
    unless it was about to take the wakers or still had them. *)
Lemma on_its_way_request w j r w' i :
  requests w j ≠ ReqTake → (∀ l, requests w j = ReqWake l → i ∈ l → i ∈ woken w' ∨ ∃ l', r = ReqWake l' ∧ i ∈ l') →
  woken w ⊆ woken w' → wakers w' = wakers w → requests w' = update (requests w) j r →
  (requested w' = true → requested w = true ∨ r = ReqTake) →
  on_its_way w i → on_its_way w' i.
Proof.
  intros Hj Hl Hwk Hws Hr Hreq [Hi|[(k&l&Hk&Hi)|[Hi Htake]]]; unfold on_its_way; rewrite Hws, Hr.
  - left. set_solver.
  - destruct (decide (k = j)) as [->|Hne].
    + destruct (Hl _ Hk Hi) as [?|(l'&->&?)]; [by left|].
      right; left. exists j, l'. by rewrite update_eq.
    + right; left. exists k, l. by rewrite update_ne.
  - right; right. split; [done|]. intros [Hq| ->]%Hreq; [|exists j; by rewrite update_eq].
    destruct (Htake Hq) as [k Hk]. exists k. rewrite update_ne; [done|]. by intros ->.
Qed.

Lemma on_its_way_poll w p w' i :
  wakers w ⊆ wakers w' → woken w' = woken w → requests w' = requests w →
  requested w' = requested w → polls w' = p → on_its_way w i → on_its_way w' i.
Proof.
  intros Hws Hwk Hr Hq _ [Hi|[Hl|[Hi Ht]]]; unfold on_its_way; rewrite Hwk, Hr, Hq; auto.
Qed.

Lemma on_its_way_take w j i :
  requests w j = ReqTake → on_its_way w i →
  on_its_way {| requested := requested w; wakers := []; polls := polls w;
                requests := update (requests w) j (ReqWake (wakers w)); woken := woken w |} i.
Proof.
  intros Hj [Hi|[(k&l&Hk&Hi)|[Hi _]]]; unfold on_its_way; simpl.
  - by left.
  - right; left. exists k, l. rewrite update_ne; [done|]. intros ->. congruence.
  - right; left. exists j, (wakers w). by rewrite update_eq.
Qed.

Lemma step_inv w w' : inv w → step w w' → inv w'.
Proof.
  intros [Hidle Hreg Hready Hpend] Hstep.
  destruct Hstep as [i Hi|i Hi|i Hi|i Hi|j Hj|j Hj|j i l Hj|j Hj]; unfold at_poll; split; simpl;
    try done.
  - intros k Hq [[-> H]|[_ H]]%update_inv; [by rewrite Hq in H|eauto].
  - intros k [[-> H]|[_ H]]%update_inv; [by destruct (requested w)|eauto].
  - intros k [[-> H]|[_ H]]%update_inv; [by destruct (requested w)|].
    eapply (on_its_way_poll w); eauto.
  - intros k Hq [[-> _]|[_ H]]%update_inv; set_solver.
  - intros k [[-> H]|[_ H]]%update_inv; [done|eauto].
  - intros k [[-> H]|[_ H]]%update_inv; [done|].
    eapply (on_its_way_poll w); eauto. set_solver.
  - intros k Hq [[-> H]|[_ H]]%update_inv; [by rewrite Hq in H|eauto].
  - intros k [[-> H]|[_ H]]%update_inv; [by destruct (requested w)|eauto].
  - intros k [[-> H]|[_ H]]%update_inv.
    + destruct (requested w) eqn:Hq; [done|]. right; right.
      split; [by apply Hreg|done].
    + eapply (on_its_way_poll w); eauto.
  - intros k Hq [[-> H]|[_ H]]%update_inv; [done|eauto].
  - intros k [[-> H]|[_ H]]%update_inv; [done|eauto].
  - intros k [[-> H]|[Hne H]]%update_inv; [done|].
    destruct (Hpend k H) as [Hw|[Hl|Ht]]; [left; simpl; set_solver|right; by left|by right; right].
  - intros k Hk. eapply (on_its_way_request w j ReqTake); simpl; try done; eauto;
      try (intros; congruence); by rewrite Hj.
  - intros Hq k. by rewrite (Hidle Hq) in Hj.
  - intros k Hq. by rewrite (Hidle Hq) in Hj.
  - intros k Hk. by apply on_its_way_take; [|apply Hpend].
  - intros Hq k. by rewrite (Hidle Hq) in Hj.
  - intros k Hk. eapply (on_its_way_request w j (ReqWake l)); simpl; try done; eauto.
    + by rewrite Hj.
    + intros l' Hl' Hin. rewrite Hj in Hl'. injection Hl' as <-.
      apply elem_of_cons in Hin as [->|Hin]; [left; set_solver|right; eauto].
    + set_solver.
  - intros Hq k. by rewrite (Hidle Hq) in Hj.
  - intros k Hk. eapply (on_its_way_request w j ReqDone); simpl; try done; eauto.
    + by rewrite Hj.
    + intros l' Hl' Hin. rewrite Hj in Hl'. injection Hl' as <-. by apply elem_of_nil in Hin.
Qed.

Lemma reachable_inv w : reachable w → inv w.
Proof.
  induction 1 as [|w w' _ IH Hs]; [|by eapply step_inv].
  by split; simpl; try done.
Qed.

(** no lost wakeup. In every interleaving of polls and requests: a task
    that saw the token requested really follows a request, and once a request
    has completed and none is in progress, every task that was told to wait
    has been woken since. *)
Theorem cancel_no_lost_wakeup w :
  reachable w →
  (∀ i, polls w i = PollReady → requested w = true) ∧
  ((∃ j, requests w j = ReqDone) → (∀ j, requests w j = ReqIdle ∨ requests w j = ReqDone) →
   ∀ i, polls w i = PollPending → i ∈ woken w).
Proof.
  intros Hr. destruct (reachable_inv w Hr) as [Hidle _ Hready Hpend]. split; [done|].
  intros [j Hj] Hquiet i Hi. destruct (Hpend i Hi) as [Hw|[(k&l&Hk&_)|[_ Htake]]]; [done|..].
  - destruct (Hquiet k); congruence.
  - destruct (requested w) eqn:Hq; [|by rewrite (Hidle eq_refl) in Hj].
    destruct (Htake eq_refl) as [k Hk]. destruct (Hquiet k); congruence.
Qed.

(** ** A concrete interleaving: a poll waits, a request wakes it *)
Lemma cancel_no_lost_wakeup_witness :
  ∃ w, reachable w ∧ polls w 7 = PollPending ∧ 7 ∈ woken w.
Proof.
  pose proof (reach_step _ _ reach_new (poll_check new 7 eq_refl)) as H1.
  match type of H1 with reachable ?w =>
    pose proof (reach_step _ _ H1 (poll_push w 7 eq_refl)) as H2 end.
  match type of H2 with reachable ?w =>
    pose proof (reach_step _ _ H2 (poll_recheck w 7 eq_refl)) as H3 end.
  match type of H3 with reachable ?w =>
    pose proof (reach_step _ _ H3 (request_store w 0 eq_refl)) as H4 end.
  match type of H4 with reachable ?w =>
    pose proof (reach_step _ _ H4 (request_take w 0 eq_refl)) as H5 end.
  match type of H5 with reachable ?w =>
    pose proof (reach_step _ _ H5 (request_wake w 0 7 [] eq_refl)) as H6 end.
  match type of H6 with reachable ?w =>
    pose proof (reach_step _ _ H6 (request_done w 0 eq_refl)) as Hr end.
  match type of Hr with reachable ?w => exists w end.
  split; [exact Hr|]. split; [reflexivity|].
  apply (proj2 (cancel_no_lost_wakeup _ Hr)).
  - by exists 0.
  - intros j. simpl. unfold update. destruct (decide (j = 0)); auto.
  - reflexivity.
Defined.

End cancel.
