(* ===== verification/ToolRegistryProofs.v ===== *)
(** The JSON check accepts exactly a grammar, and the registry hands a handler
    exactly the invocations that pass its checks. *)

From S2P Require Import Prelude RustStr Tools.
From Stdlib Require Import Ascii.
Import tools json.

Module registry_proofs.

(** ** The grammar *)

Definition blank (w : rest) : Prop := Forall (λ b, is_ascii_whitespace b = true) w.

Definition all_digits (ds : rest) : Prop := ds ≠ [] ∧ Forall (λ b, is_ascii_digit b = true) ds.

(** The inside of a string literal. *)
Inductive jbody : rest → Prop :=
| body_nil : jbody []
| body_escape b s : jbody s → jbody (BACKSLASH :: b :: s)
| body_char b s : b ≠ QUOTE → b ≠ BACKSLASH → (32 ≤ byte_val b)%Z → jbody s → jbody (b :: s).

Inductive jfraction : rest → Prop :=
| frac_none : jfraction []
| frac_digits ds : all_digits ds → jfraction ("."%char :: ds).

Inductive jexponent : rest → Prop :=
| exp_none : jexponent []
| exp_digits e sign ds :
    e = "e"%char ∨ e = "E"%char → sign = [] ∨ sign = ["+"%char] ∨ sign = ["-"%char] →
    all_digits ds → jexponent (e :: sign ++ ds).

Inductive jnumber : rest → Prop :=
| number_parts sign ds f e :
    sign = [] ∨ sign = ["-"%char] → all_digits ds → jfraction f → jexponent e →
    jnumber (sign ++ ds ++ f ++ e).

Inductive jvalue : rest → Prop :=
| v_object s : jobject s → jvalue s
| v_array s : jarray s → jvalue s
| v_string body : jbody body → jvalue (QUOTE :: body ++ [QUOTE])
| v_literal lit : lit ∈ ["true"; "false"; "null"] → jvalue (bytes_of lit)
| v_number s : jnumber s → jvalue s
with jobject : rest → Prop :=
| o_empty w : blank w → jobject ("{"%char :: w ++ ["}"%char])
| o_members ms : jmembers ms → jobject ("{"%char :: ms ++ ["}"%char])
with jmembers : rest → Prop :=
| m_one w1 body w2 w3 v w4 :
    blank w1 → jbody body → blank w2 → blank w3 → jvalue v → blank w4 →
    jmembers (w1 ++ QUOTE :: body ++ QUOTE :: w2 ++ ":"%char :: w3 ++ v ++ w4)
| m_more w1 body w2 w3 v w4 ms :
    blank w1 → jbody body → blank w2 → blank w3 → jvalue v → blank w4 → jmembers ms →
    jmembers (w1 ++ QUOTE :: body ++ QUOTE :: w2 ++ ":"%char :: w3 ++ v ++ w4 ++ ","%char :: ms)
with jarray : rest → Prop :=
| a_empty w : blank w → jarray ("["%char :: w ++ ["]"%char])
| a_elements es : jelements es → jarray ("["%char :: es ++ ["]"%char])
with jelements : rest → Prop :=
| e_one w1 v w2 : blank w1 → jvalue v → blank w2 → jelements (w1 ++ v ++ w2)
| e_more w1 v w2 es :
    blank w1 → jvalue v → blank w2 → jelements es → jelements (w1 ++ v ++ w2 ++ ","%char :: es).

Scheme jvalue_mut := Induction for jvalue Sort Prop
  with jobject_mut := Induction for jobject Sort Prop
  with jmembers_mut := Induction for jmembers Sort Prop
  with jarray_mut := Induction for jarray Sort Prop
  with jelements_mut := Induction for jelements Sort Prop.
Combined Scheme json_ind from jvalue_mut, jobject_mut, jmembers_mut, jarray_mut, jelements_mut.

(** ** White space and single bytes *)
Lemma drop_while_app {A} (f : A → bool) a s :
  Forall (λ x, f x = true) a → drop_while f (a ++ s) = drop_while f s.
Proof. induction 1 as [|x a Hx _ IH]; [done|]. simpl. by rewrite Hx. Qed.

Lemma drop_while_split {A} (f : A → bool) s :
  ∃ a, Forall (λ x, f x = true) a ∧ s = a ++ drop_while f s.
Proof.
  induction s as [|x s (a&Ha&IH)]; simpl; [by exists []|].
  destruct (f x) eqn:Hx; [|by exists []]. exists (x :: a). split; [by constructor|].
  simpl. by f_equal.
Qed.

Lemma drop_while_idem {A} (f : A → bool) s : drop_while f (drop_while f s) = drop_while f s.
Proof. induction s as [|x s IH]; simpl; [done|]. destruct (f x) eqn:Hx; [done|]. simpl. by rewrite Hx. Qed.

Lemma ws_app w s : blank w → ws (w ++ s) = ws s.
Proof. apply drop_while_app. Qed.
Lemma ws_idem s : ws (ws s) = ws s.
Proof. apply drop_while_idem. Qed.

Lemma eat_ws b s : eat b (ws s) = eat b s.
Proof. unfold eat. by rewrite ws_idem. Qed.

Lemma eat_yes b w s : is_ascii_whitespace b = false → blank w → eat b (w ++ b :: s) = (s, true).
Proof.
  intros Hb Hw. unfold eat. rewrite (ws_app _ _ Hw). unfold ws. simpl. rewrite Hb.
  by rewrite bool_decide_eq_true_2.
Qed.

Lemma eat_here b s : is_ascii_whitespace b = false → eat b (b :: s) = (s, true).
Proof. intros Hb. apply (eat_yes b []); [done|constructor]. Qed.

Lemma eat_no b c w s :
  is_ascii_whitespace c = false → c ≠ b → blank w → eat b (w ++ c :: s) = (c :: s, false).
Proof.
  intros Hc Hne Hw. unfold eat. rewrite (ws_app _ _ Hw). unfold ws. simpl. rewrite Hc.
  by rewrite bool_decide_eq_false_2.
Qed.

Lemma eat_true b s s' : eat b s = (s', true) → ∃ w, blank w ∧ s = w ++ b :: s'.
Proof.
  unfold eat. destruct (drop_while_split is_ascii_whitespace s) as (w&Hw&Hs). fold (ws s) in Hs.
  destruct (ws s) as [|c r]; [done|]. case_bool_decide; [|done]. intros [= <-]. subst c. eauto.
Qed.

Lemma eat_false b s s' : eat b s = (s', false) → s' = ws s.
Proof.
  unfold eat. destruct (ws s) as [|c r]; [by intros [= <-]|].
  case_bool_decide; [done|]. by intros [= <-].
Qed.

(** ** Strings *)
Lemma string_body_complete body s : jbody body → string_body false (body ++ QUOTE :: s) = (s, true).
Proof.
  induction 1 as [|b body _ IH|b body Hq Hb H32 _ IH]; cbn [app string_body].
  - done.
  - exact IH.
  - rewrite !bool_decide_eq_false_2 by done.
    destruct (Z.ltb_spec (byte_val b) 32); [lia|]. exact IH.
Qed.

Lemma string_body_sound s : ∀ s',
  (string_body false s = (s', true) → ∃ body, jbody body ∧ s = body ++ QUOTE :: s') ∧
  (string_body true s = (s', true) → ∃ b body, jbody body ∧ s = b :: body ++ QUOTE :: s').
Proof.
  induction s as [|b s IH]; intros s'; [done|]. destruct (IH s') as [IH1 IH2]. split; simpl.
  - case_bool_decide as Hb; [|case_bool_decide as Hq; [|destruct (Z.ltb_spec (byte_val b) 32)]].
    + intros (c&body&Hbody&->)%IH2. exists (b :: c :: body). subst b. by split; [constructor|].
    + intros [= <-]. exists []. subst b. by split; [constructor|].
    + done.
    + intros (body&Hbody&->)%IH1. exists (b :: body). by split; [constructor|].
  - intros (body&Hbody&->)%IH1. by exists b, body.
Qed.

Lemma string_complete w body s :
  blank w → jbody body → string_ (w ++ QUOTE :: body ++ QUOTE :: s) = (s, true).
Proof.
  intros Hw Hb. unfold string_. rewrite eat_yes by done. simpl. by apply string_body_complete.
Qed.

Lemma string_sound s s' :
  string_ s = (s', true) → ∃ w body, blank w ∧ jbody body ∧ s = w ++ QUOTE :: body ++ QUOTE :: s'.
Proof.
  unfold string_. destruct (eat QUOTE s) as [s1 []] eqn:He; simpl; [|done].
  apply eat_true in He as (w&Hw&->). intros (body&Hb&->)%string_body_sound. by exists w, body.
Qed.

(** ** Literals and numbers *)
Lemma literal_complete lit s : literal lit (bytes_of lit ++ s) = (s, true).
Proof.
  unfold literal. rewrite take_app_length, bool_decide_eq_true_2 by done. by rewrite drop_app_length.
Qed.

Lemma literal_sound lit s s' : literal lit s = (s', true) → s = bytes_of lit ++ s'.
Proof.
  unfold literal. case_bool_decide as Ht; [|done]. intros [= <-].
  pose proof (take_drop (length (bytes_of lit)) s) as Hs. by rewrite Ht in Hs.
Qed.

(** What may follow a number: nothing that would extend it. *)
Definition follow (s : rest) : Prop :=
  match s with
  | [] => True
  | b :: _ => is_ascii_digit b = false ∧ b ≠ "."%char ∧ b ≠ "e"%char ∧ b ≠ "E"%char
  end.
Definition not_digit (s : rest) : Prop :=
  match s with [] => True | b :: _ => is_ascii_digit b = false end.

Lemma some_digits_complete ds s : all_digits ds → not_digit s → some_digits (ds ++ s) = (s, true).
Proof.
  intros [Hne Hds] Hs. unfold some_digits, digits. rewrite drop_while_app by done.
  assert (drop_while is_ascii_digit s = s) as ->.
  { destruct s as [|b s]; [done|]. simpl. by rewrite Hs. }
  rewrite bool_decide_eq_true_2; [done|]. rewrite length_app. destruct ds; [done|]. simpl. lia.
Qed.

Lemma some_digits_sound s s' :
  some_digits s = (s', true) → ∃ ds, all_digits ds ∧ s = ds ++ s'.
Proof.
  unfold some_digits. intros [= <- Hne%bool_decide_eq_true].
  destruct (drop_while_split is_ascii_digit s) as (ds&Hds&Hs). exists ds.
  fold (digits s) in Hs. split; [|done]. split; [|done]. intros ->. by rewrite Hs in Hne at 2.
Qed.

Lemma fraction_complete f s :
  jfraction f → not_digit s → (∀ s', s ≠ "."%char :: s') → fraction (f ++ s) = (s, true).
Proof.
  intros [|ds Hds] Hs Hdot; unfold fraction; simpl.
  - destruct s as [|b s]; [done|]. rewrite bool_decide_eq_false_2; [done|].
    intros ->. by eapply Hdot.
  - by apply some_digits_complete.
Qed.

Lemma fraction_sound s s' :
  fraction s = (s', true) → ∃ f, jfraction f ∧ s = f ++ s'.
Proof.
  unfold fraction. destruct s as [|b s]; [intros [= <-]; exists []; by split; [constructor|]|].
  case_bool_decide; [|intros [= <-]; exists []; by split; [constructor|]].
  intros (ds&Hds&->)%some_digits_sound. subst b. exists ("."%char :: ds). by split; [constructor|].
Qed.

Lemma exponent_complete e s : jexponent e → follow s → exponent (e ++ s) = (s, true).
Proof.
  intros [|e' sign ds He Hsign Hds] Hs; unfold exponent; simpl.
  - destruct s as [|b s]; [done|]. destruct Hs as (_&_&He&HE). by rewrite !bool_decide_eq_false_2.
  - assert (((e' == "e"%char) || (e' == "E"%char)) = true) as ->
      by (destruct He as [-> | ->]; done).
    assert (not_digit s) by (destruct s; [done|by destruct Hs]).
    destruct Hsign as [->|[->| ->]]; simpl; try by apply some_digits_complete.
    destruct Hds as [Hne Hds]. destruct Hds as [|d ds Hd Hds]; [done|]. simpl.
    rewrite !bool_decide_eq_false_2 by (intros ->; done). simpl.
    change (d :: ds ++ s) with ((d :: ds) ++ s). apply some_digits_complete; [|done].
    split; [done|]. by constructor.
Qed.

Lemma exponent_sound s s' :
  exponent s = (s', true) → ∃ e, jexponent e ∧ s = e ++ s'.
Proof.
  unfold exponent. destruct s as [|b s]; [intros [= <-]; exists []; by split; [constructor|]|].
  destruct (_ || _) eqn:He; [|intros [= <-]; exists []; by split; [constructor|]].
  rust_bool. intros H.
  assert (∃ sign ds, (sign = [] ∨ sign = ["+"%char] ∨ sign = ["-"%char]) ∧ all_digits ds ∧
    s = sign ++ ds ++ s') as (sign&ds&Hsign&Hds&->).
  { destruct s as [|c s]; [apply some_digits_sound in H as (ds&?&?); by exists [], ds; auto|].
    destruct (_ || _) eqn:Hc; apply some_digits_sound in H as (ds&Hds&Hs).
    - rust_bool. exists [c], ds. subst s. split; [|done]. destruct Hc as [-> | ->]; auto.
    - exists [], ds. auto. }
  exists (b :: sign ++ ds). split; [by constructor|]. simpl. by rewrite <- app_assoc.
Qed.

Lemma number_complete n s : jnumber n → follow s → number (n ++ s) = (s, true).
Proof.
  intros [sign ds f e Hsign Hds Hf He] Hs.
  assert (not_digit (e ++ s) ∧ ∀ s', e ++ s ≠ "."%char :: s') as [Hnd Hdot].
  { destruct He as [|e' sg ds' He' _ _]; simpl.
    - destruct s as [|b s]; [done|]. destruct Hs as (?&?&_). split; [done|]. congruence.
    - destruct He' as [-> | ->]; done. }
  assert (not_digit (f ++ e ++ s)) as Hnd' by (destruct Hf; [done|reflexivity]).
  unfold number. rewrite <- !app_assoc.
  assert (match sign ++ ds ++ f ++ e ++ s with
          | [] => sign ++ ds ++ f ++ e ++ s
          | b :: s' => if b == "-"%char then s' else sign ++ ds ++ f ++ e ++ s end
          = ds ++ f ++ e ++ s) as ->.
  { destruct Hsign as [->| ->]; [|done]. destruct Hds as [Hne Hds].
    destruct Hds as [|d ds Hd Hds]; [done|]. simpl.
    rewrite bool_decide_eq_false_2; [done|]. by intros ->. }
  rewrite some_digits_complete by done. simpl. rewrite fraction_complete by done. simpl.
  by apply exponent_complete.
Qed.

Lemma number_sound s s' : number s = (s', true) → ∃ n, jnumber n ∧ s = n ++ s'.
Proof.
  unfold number. set (s1 := match s with [] => s | b :: s' => if b == "-"%char then s' else s end).
  assert (∃ sign, (sign = [] ∨ sign = ["-"%char]) ∧ s = sign ++ s1) as (sign&Hsign&Hs).
  { unfold s1. destruct s as [|b s]; [by exists []; auto|].
    case_bool_decide; [|by exists []; auto]. subst b. exists ["-"%char]. auto. }
  clearbody s1. destruct (some_digits s1) as [s2 []] eqn:Hd; simpl; [|done].
  apply some_digits_sound in Hd as (ds&Hds&->).
  destruct (fraction s2) as [s3 []] eqn:Hf; simpl; [|done].
  apply fraction_sound in Hf as (f&Hf&->). intros (e&He&->)%exponent_sound.
  exists (sign ++ ds ++ f ++ e). split; [by constructor|]. rewrite Hs. by rewrite <- !app_assoc.
Qed.

(** ** The parser is sound *)
Definition reads (P : rest → Prop) (s s' : rest) : Prop := ∃ w v, blank w ∧ P v ∧ s = w ++ v ++ s'.

Lemma blank_ws s : ∃ w, blank w ∧ s = w ++ ws s.
Proof. apply drop_while_split. Qed.

Lemma eat_close (close : ascii) s s' : eat close (ws s) = (s', true) → ∃ w, blank w ∧ s = w ++ close :: s'.
Proof. rewrite eat_ws. apply eat_true. Qed.

Lemma eat_comma close s s1 s' :
  eat close (ws s) = (s1, false) → eat ","%char s1 = (s', true) →
  ∃ w, blank w ∧ s = w ++ ","%char :: s'.
Proof. intros ->%eat_false. rewrite ws_idem, eat_ws. apply eat_true. Qed.

Section sound.
Variable fuel : nat.
Hypothesis IHv : ∀ s s', value fuel s = Some (s', true) → reads jvalue s s'.
Hypothesis IHo : ∀ s s', object fuel s = Some (s', true) → reads jobject s s'.
Hypothesis IHm : ∀ s s', object_members fuel s = Some (s', true) →
  ∃ ms, jmembers ms ∧ s = ms ++ "}"%char :: s'.
Hypothesis IHa : ∀ s s', array fuel s = Some (s', true) → reads jarray s s'.
Hypothesis IHe : ∀ s s', array_elements fuel s = Some (s', true) →
  ∃ es, jelements es ∧ s = es ++ "]"%char :: s'.

Lemma value_sound s s' : value (S fuel) s = Some (s', true) → reads jvalue s s'.
Proof.
  simpl. destruct (blank_ws s) as (w&Hw&Hs). set (t := ws s) in *. clearbody t.
  assert (∀ P, (∀ v, P v → jvalue v) → (∃ v, P v ∧ t = v ++ s') → reads jvalue s s') as Hin.
  { intros P HP (v&Hv&Ht). exists w, v. rewrite Hs, Ht. auto. }
  assert (∀ P, (∀ v, P v → jvalue v) → reads P t s' → reads jvalue s s') as Hread.
  { intros P HP (w'&v&Hw'&Hv&Ht). exists (w ++ w'), v. rewrite Hs, Ht, <- app_assoc.
    split; [by apply Forall_app|auto]. }
  destruct t as [|b t]; [done|].
  case_bool_decide; [intros H'%IHo; by apply (Hread jobject); [apply v_object|]|].
  case_bool_decide; [intros H'%IHa; by apply (Hread jarray); [apply v_array|]|].
  case_bool_decide; [intros [= H']; apply string_sound in H' as (w'&body&Hw'&Hb&Ht)|].
  { apply (Hread (λ v, ∃ body, jbody body ∧ v = QUOTE :: body ++ [QUOTE])).
    - intros v (bd&Hbd&->). by apply v_string.
    - exists w', (QUOTE :: body ++ [QUOTE]). rewrite Ht. simpl. rewrite <- app_assoc. eauto. }
  assert (∀ lit, lit ∈ ["true"; "false"; "null"] →
    Some (literal lit (b :: t)) = Some (s', true) → reads jvalue s s') as Hlit.
  { intros lit Hl [= H'%literal_sound]. apply (Hin (λ v, v = bytes_of lit)); [|by eauto].
    intros v ->. by apply v_literal. }
  case_bool_decide; [apply Hlit; set_solver|].
  case_bool_decide; [apply Hlit; set_solver|].
  case_bool_decide; [apply Hlit; set_solver|].
  destruct (_ || _); [|done]. intros [= H'%number_sound]. apply (Hin jnumber); [apply v_number|done].
Qed.

Lemma object_sound s s' : object (S fuel) s = Some (s', true) → reads jobject s s'.
Proof.
  simpl. destruct (eat "{"%char s) as [s1 []] eqn:H1; simpl; [|done].
  apply eat_true in H1 as (w&Hw&->).
  destruct (eat "}"%char (ws s1)) as [s2 []] eqn:H2.
  - intros [= <-]. apply eat_close in H2 as (w'&Hw'&->).
    exists w, ("{"%char :: w' ++ ["}"%char]). split_and!; [done|by constructor|].
    simpl. by rewrite <- app_assoc.
  - apply eat_false in H2 as ->. rewrite ws_idem. destruct (blank_ws s1) as (w1&Hw1&Hs1).
    intros (ms&Hms&Hs)%IHm. exists w, ("{"%char :: (w1 ++ ms) ++ ["}"%char]). split_and!; [done| |].
    + apply o_members. destruct Hms; rewrite app_assoc; constructor; try done; by apply Forall_app.
    + rewrite Hs1, Hs. simpl. by rewrite <- !app_assoc.
Qed.

Lemma members_sound s s' :
  object_members (S fuel) s = Some (s', true) → ∃ ms, jmembers ms ∧ s = ms ++ "}"%char :: s'.
Proof.
  simpl. destruct (string_ s) as [s1 []] eqn:H1; simpl; [|done].
  apply string_sound in H1 as (w1&body&Hw1&Hb&->).
  destruct (eat ":"%char s1) as [s2 []] eqn:H2; simpl; [|done].
  apply eat_true in H2 as (w2&Hw2&->).
  destruct (value fuel s2) as [[s3 []]|] eqn:H3; [|done..].
  apply IHv in H3 as (w3&v&Hw3&Hv&->).
  destruct (eat "}"%char (ws s3)) as [s4 []] eqn:H4.
  - intros [= <-]. apply eat_close in H4 as (w4&Hw4&->).
    exists (w1 ++ QUOTE :: body ++ QUOTE :: w2 ++ ":"%char :: w3 ++ v ++ w4).
    split; [by constructor|]. repeat (rewrite <- ?app_assoc; simpl). done.
  - destruct (eat ","%char s4) as [s5 []] eqn:H5; simpl; [|done].
    destruct (eat_comma _ _ _ _ H4 H5) as (w4&Hw4&->). intros (ms&Hms&->)%IHm.
    exists (w1 ++ QUOTE :: body ++ QUOTE :: w2 ++ ":"%char :: w3 ++ v ++ w4 ++ ","%char :: ms).
    split; [by constructor|]. repeat (rewrite <- ?app_assoc; simpl). done.
Qed.

Lemma array_sound s s' : array (S fuel) s = Some (s', true) → reads jarray s s'.
Proof.
  simpl. destruct (eat "["%char s) as [s1 []] eqn:H1; simpl; [|done].
  apply eat_true in H1 as (w&Hw&->).
  destruct (eat "]"%char (ws s1)) as [s2 []] eqn:H2.
  - intros [= <-]. apply eat_close in H2 as (w'&Hw'&->).
    exists w, ("["%char :: w' ++ ["]"%char]). split_and!; [done|by constructor|].
    simpl. by rewrite <- app_assoc.
  - apply eat_false in H2 as ->. rewrite ws_idem. destruct (blank_ws s1) as (w1&Hw1&Hs1).
    intros (es&Hes&Hs)%IHe. exists w, ("["%char :: (w1 ++ es) ++ ["]"%char]). split_and!; [done| |].
    + apply a_elements. destruct Hes; rewrite app_assoc; constructor; try done; by apply Forall_app.
    + rewrite Hs1, Hs. simpl. by rewrite <- !app_assoc.
Qed.

Lemma elements_sound s s' :
  array_elements (S fuel) s = Some (s', true) → ∃ es, jelements es ∧ s = es ++ "]"%char :: s'.
Proof.
  simpl. destruct (value fuel s) as [[s1 []]|] eqn:H1; [|done..].
  apply IHv in H1 as (w1&v&Hw1&Hv&->).
  destruct (eat "]"%char (ws s1)) as [s2 []] eqn:H2.
  - intros [= <-]. apply eat_close in H2 as (w2&Hw2&->). exists (w1 ++ v ++ w2).
    split; [by constructor|]. by rewrite <- !app_assoc.
  - destruct (eat ","%char s2) as [s3 []] eqn:H3; simpl; [|done].
    destruct (eat_comma _ _ _ _ H2 H3) as (w2&Hw2&->). intros (es&Hes&->)%IHe.
    exists (w1 ++ v ++ w2 ++ ","%char :: es). split; [by constructor|].
    repeat (rewrite <- ?app_assoc; simpl). done.
Qed.
End sound.

Lemma parser_sound fuel :
  (∀ s s', value fuel s = Some (s', true) → reads jvalue s s') ∧
  (∀ s s', object fuel s = Some (s', true) → reads jobject s s') ∧
  (∀ s s', object_members fuel s = Some (s', true) → ∃ ms, jmembers ms ∧ s = ms ++ "}"%char :: s') ∧
  (∀ s s', array fuel s = Some (s', true) → reads jarray s s') ∧
  (∀ s s', array_elements fuel s = Some (s', true) → ∃ es, jelements es ∧ s = es ++ "]"%char :: s').
Proof.
  induction fuel as [|fuel (IHv&IHo&IHm&IHa&IHe)]; [done|]. split_and!; intros s s' H.
  - by eapply value_sound.
  - by eapply object_sound.
  - by eapply members_sound.
  - by eapply array_sound.
  - by eapply elements_sound.
Qed.

(** ** The parser is complete, with three units of fuel per byte *)
Lemma follow_close w c s :
  blank w → c ∈ ["}"%char; "]"%char; ","%char] → follow (w ++ c :: s).
Proof.
  intros Hw Hc. destruct Hw as [|b w Hb _]; simpl.
  - rewrite !elem_of_cons, elem_of_nil in Hc. by destruct Hc as [->|[->|[->|[]]]].
  - split_and!; [|by intros ->..]. unfold is_ascii_whitespace, is_ascii_digit in *.
    apply not_true_iff_false. intros Hd. rewrite andb_true_iff in Hd. rewrite !orb_true_iff in Hb. lia.
Qed.

Lemma ws_head w b s : blank w → is_ascii_whitespace b = false → ws (w ++ b :: s) = b :: s.
Proof. intros Hw Hb. rewrite (ws_app _ _ Hw). unfold ws. simpl. by rewrite Hb. Qed.

Lemma digit_head b :
  is_ascii_digit b = true →
  is_ascii_whitespace b = false ∧ b ∉ ["]"; "{"; "["; QUOTE; "t"; "f"; "n"; "-"]%char.
Proof.
  intros Hd. split.
  - unfold is_ascii_whitespace, is_ascii_digit in *.
    apply not_true_iff_false. intros Hb. rewrite andb_true_iff in Hd. rewrite !orb_true_iff in Hb. lia.
  - intros Hin. repeat (apply elem_of_cons in Hin as [->|Hin]; [done|]). by apply elem_of_nil in Hin.
Qed.

Lemma jnumber_head n :
  jnumber n → ∃ b r, n = b :: r ∧ (b = "-"%char ∨ is_ascii_digit b = true).
Proof.
  intros [sign ds f e [->| ->] [Hne Hds] _ _]; simpl; [|eauto].
  destruct Hds as [|d ds Hd _]; [done|]. simpl. eauto.
Qed.

Lemma jvalue_head v :
  jvalue v → ∃ b r, v = b :: r ∧ is_ascii_whitespace b = false ∧ b ≠ "]"%char.
Proof.
  intros [o [w _|ms _]|a [w _|es _]|body _|lit Hl|n Hn]; try (by eexists _, _).
  - rewrite !elem_of_cons, elem_of_nil in Hl. destruct Hl as [->|[->|[->|[]]]]; by eexists _, _.
  - apply jnumber_head in Hn as (b&r&->&[->|Hd]); [by eexists _, _|].
    apply digit_head in Hd as [Hw Hd]. exists b, r. set_solver.
Qed.

Lemma jmembers_head ms : jmembers ms → ∃ w r, blank w ∧ ms = w ++ QUOTE :: r.
Proof. intros [w1|w1]; exists w1; eexists; (split; [done|reflexivity]). Qed.

Lemma jelements_head es :
  jelements es →
  ∃ w b r, blank w ∧ es = w ++ b :: r ∧ is_ascii_whitespace b = false ∧ b ≠ "]"%char.
Proof.
  intros [w1 v w2 Hw Hv _|w1 v w2 es' Hw Hv _ _];
    destruct (jvalue_head _ Hv) as (b&r&->&Hb&Hne); exists w1, b.
  - by exists (r ++ w2).
  - by exists (r ++ w2 ++ ","%char :: es').
Qed.

Lemma members_ws fuel s : object_members fuel (ws s) = object_members fuel s.
Proof. destruct fuel as [|fuel]; simpl; [done|]. unfold string_. by rewrite eat_ws. Qed.
Lemma elements_ws fuel s : array_elements fuel (ws s) = array_elements fuel s.
Proof. destruct fuel as [|[|fuel]]; simpl; [done..|]. by rewrite ws_idem. Qed.

Definition value_ok (v : rest) : Prop := ∀ w s fuel,
  blank w → follow s → 3 * length v ≤ fuel → value fuel (w ++ v ++ s) = Some (s, true).
Definition object_ok (o : rest) : Prop := ∀ w s fuel,
  blank w → 3 * length o ≤ S fuel → object fuel (w ++ o ++ s) = Some (s, true).
Definition members_ok (ms : rest) : Prop := ∀ s fuel,
  3 * length ms ≤ fuel → object_members fuel (ms ++ "}"%char :: s) = Some (s, true).
Definition array_ok (a : rest) : Prop := ∀ w s fuel,
  blank w → 3 * length a ≤ S fuel → array fuel (w ++ a ++ s) = Some (s, true).
Definition elements_ok (es : rest) : Prop := ∀ s fuel,
  3 * length es < fuel → array_elements fuel (es ++ "]"%char :: s) = Some (s, true).

Ltac fuel_step fuel :=
  destruct fuel as [|fuel]; [simpl in *; rewrite ?length_app in *; simpl in *; lia|].
Ltac fuel_le := repeat (progress (rewrite ?length_app in *; simpl in * )); lia.

Lemma value_object o : jobject o → object_ok o → value_ok o.
Proof.
  intros Ho IH w s fuel Hw Hs Hf. destruct fuel as [|fuel]; [by destruct Ho; fuel_le|]. simpl.
  assert (∃ r, o = "{"%char :: r) as [r ->] by (destruct Ho; eauto).
  simpl. rewrite ws_head by done. simpl. apply (IH []); [constructor|fuel_le].
Qed.

Lemma value_array a : jarray a → array_ok a → value_ok a.
Proof.
  intros Ha IH w s fuel Hw Hs Hf. destruct fuel as [|fuel]; [by destruct Ha; fuel_le|]. simpl.
  assert (∃ r, a = "["%char :: r) as [r ->] by (destruct Ha; eauto).
  simpl. rewrite ws_head by done. simpl. apply (IH []); [constructor|fuel_le].
Qed.

Lemma value_string body : jbody body → value_ok (QUOTE :: body ++ [QUOTE]).
Proof.
  intros Hb w s fuel Hw Hs Hf. destruct fuel as [|fuel]; [fuel_le|].
  cbn [value app]. rewrite ws_head, <- app_assoc by done.
  apply (f_equal Some), (string_complete [] body s (Forall_nil_2 _) Hb).
Qed.

Lemma value_literal lit : lit ∈ ["true"; "false"; "null"] → value_ok (bytes_of lit).
Proof.
  intros Hl w s fuel Hw Hs Hf.
  rewrite !elem_of_cons, elem_of_nil in Hl.
  destruct Hl as [->|[->|[->|[]]]]; (destruct fuel as [|fuel]; [simpl in Hf; lia|]);
    cbn [value bytes_of app]; rewrite ws_head by done; simpl;
    [apply (f_equal Some), (literal_complete "true" s)
    |apply (f_equal Some), (literal_complete "false" s)
    |apply (f_equal Some), (literal_complete "null" s)].
Qed.

Lemma value_number n : jnumber n → value_ok n.
Proof.
  intros Hn w s fuel Hw Hs Hf. pose proof (number_complete n s Hn Hs) as Hnum.
  destruct (jnumber_head _ Hn) as (b&r&->&Hb). destruct fuel as [|fuel]; [simpl in Hf; lia|].
  assert (is_ascii_whitespace b = false) as Hws
    by (destruct Hb as [->|[? _]%digit_head]; done).
  cbn [value app]. rewrite ws_head by done.
  assert (b ∉ ["{"; "["; QUOTE; "t"; "f"; "n"]%char) as Hni.
  { destruct Hb as [->|[_ Hb]%digit_head]; [|set_solver]. intros Hin.
    repeat (apply elem_of_cons in Hin as [?|Hin]; [done|]). by apply elem_of_nil in Hin. }
  rewrite !not_elem_of_cons in Hni. destruct Hni as (?&?&?&?&?&?&_).
  rewrite !(bool_decide_eq_false_2 (b = _)) by done.
  assert (((b == "-"%char) || is_ascii_digit b) = true) as ->; [|by f_equal].
  destruct Hb as [->|Hd]; [done|]. rewrite Hd. apply orb_true_r.
Qed.

Lemma object_members_ok ms : jmembers ms → members_ok ms → object_ok ("{"%char :: ms ++ ["}"%char]).
Proof.
  intros Hms IH w s fuel Hw Hf. destruct fuel as [|fuel]; [fuel_le|]. simpl.
  rewrite eat_yes by done. simpl. rewrite <- app_assoc, eat_ws. simpl.
  destruct (jmembers_head _ Hms) as (w1&r&Hw1&Heq).
  assert (eat "}"%char (ms ++ "}"%char :: s) = (ws (ms ++ "}"%char :: s), false)) as ->.
  { rewrite Heq, <- app_assoc. simpl. rewrite eat_no, ws_head by done. done. }
  rewrite members_ws. apply IH. fuel_le.
Qed.

Lemma array_elements_ok es : jelements es → elements_ok es → array_ok ("["%char :: es ++ ["]"%char]).
Proof.
  intros Hes IH w s fuel Hw Hf. destruct fuel as [|fuel]; [fuel_le|]. simpl.
  rewrite eat_yes by done. simpl. rewrite <- app_assoc, eat_ws. simpl.
  destruct (jelements_head _ Hes) as (w1&b&r&Hw1&Heq&Hb&Hne).
  assert (eat "]"%char (es ++ "]"%char :: s) = (ws (es ++ "]"%char :: s), false)) as ->.
  { rewrite Heq, <- app_assoc. simpl. rewrite eat_no, ws_head by done. done. }
  rewrite elements_ws. apply IH. fuel_le.
Qed.

(** The part of a member up to its value. *)
Lemma member_value w1 body w2 w3 v s fuel :
  blank w1 → jbody body → blank w2 → blank w3 → value_ok v → follow s → 3 * length v ≤ fuel →
  object_members (S fuel)
      (w1 ++ QUOTE :: body ++ QUOTE :: w2 ++ ":"%char :: w3 ++ v ++ s)
    = let '(s, ok) := eat "}"%char (ws s) in
      if ok then Some (s, true)
      else let '(s, ok) := eat ","%char s in
           if negb ok then Some (s, false) else object_members fuel s.
Proof.
  intros Hw1 Hb Hw2 Hw3 Hv Hs Hf. cbn [object_members].
  rewrite string_complete by done. cbn [negb]. rewrite eat_yes by done. cbn [negb].
  by rewrite Hv.
Qed.

Lemma members_one_ok w1 body w2 w3 v w4 :
  blank w1 → jbody body → blank w2 → blank w3 → value_ok v → blank w4 →
  members_ok (w1 ++ QUOTE :: body ++ QUOTE :: w2 ++ ":"%char :: w3 ++ v ++ w4).
Proof.
  intros Hw1 Hb Hw2 Hw3 Hv Hw4 s fuel Hf. destruct fuel as [|fuel]; [fuel_le|].
  replace ((w1 ++ QUOTE :: body ++ QUOTE :: w2 ++ ":"%char :: w3 ++ v ++ w4) ++ "}"%char :: s)
    with (w1 ++ QUOTE :: body ++ QUOTE :: w2 ++ ":"%char :: w3 ++ v ++ w4 ++ "}"%char :: s)
    by (repeat (rewrite <- ?app_assoc; simpl); done).
  rewrite member_value; try done; [|apply follow_close; [done|set_solver]|fuel_le].
  by rewrite eat_ws, eat_yes.
Qed.

Lemma members_more_ok w1 body w2 w3 v w4 ms :
  blank w1 → jbody body → blank w2 → blank w3 → value_ok v → blank w4 → members_ok ms →
  members_ok (w1 ++ QUOTE :: body ++ QUOTE :: w2 ++ ":"%char :: w3 ++ v ++ w4 ++ ","%char :: ms).
Proof.
  intros Hw1 Hb Hw2 Hw3 Hv Hw4 IH s fuel Hf. destruct fuel as [|fuel]; [fuel_le|].
  replace ((w1 ++ QUOTE :: body ++ QUOTE :: w2 ++ ":"%char :: w3 ++ v ++ w4 ++ ","%char :: ms)
           ++ "}"%char :: s)
    with (w1 ++ QUOTE :: body ++ QUOTE :: w2 ++ ":"%char :: w3 ++ v
          ++ w4 ++ ","%char :: ms ++ "}"%char :: s)
    by (repeat (rewrite <- ?app_assoc; simpl); done).
  rewrite member_value; try done; [|apply follow_close; [done|set_solver]|fuel_le].
  rewrite eat_ws, eat_no by done. rewrite eat_here by done. simpl.
  apply IH. fuel_le.
Qed.

Lemma element_value w1 v s fuel :
  blank w1 → value_ok v → follow s → 3 * length v ≤ fuel →
  array_elements (S fuel) (w1 ++ v ++ s)
    = let '(s, ok) := eat "]"%char (ws s) in
      if ok then Some (s, true)
      else let '(s, ok) := eat ","%char s in
           if negb ok then Some (s, false) else array_elements fuel s.
Proof. intros Hw Hv Hs Hf. cbn [array_elements]. by rewrite Hv. Qed.

Lemma elements_one_ok w1 v w2 :
  blank w1 → value_ok v → blank w2 → elements_ok (w1 ++ v ++ w2).
Proof.
  intros Hw1 Hv Hw2 s fuel Hf. destruct fuel as [|fuel]; [lia|]. rewrite <- !app_assoc.
  rewrite element_value; try done; [|apply follow_close; [done|set_solver]|fuel_le].
  by rewrite eat_ws, eat_yes.
Qed.

Lemma elements_more_ok w1 v w2 es :
  blank w1 → value_ok v → blank w2 → elements_ok es →
  elements_ok (w1 ++ v ++ w2 ++ ","%char :: es).
Proof.
  intros Hw1 Hv Hw2 IH s fuel Hf. destruct fuel as [|fuel]; [lia|].
  rewrite <- !app_assoc. cbn [app].
  rewrite element_value; try done; [|apply follow_close; [done|set_solver]|fuel_le].
  rewrite eat_ws, eat_no by done. rewrite eat_here by done. simpl.
  apply IH. fuel_le.
Qed.

Lemma empty_object_ok w : blank w → object_ok ("{"%char :: w ++ ["}"%char]).
Proof.
  intros Hw w' s fuel Hw' Hf. destruct fuel as [|fuel]; [fuel_le|]. simpl.
  rewrite eat_yes by done. simpl. rewrite <- app_assoc, eat_ws. cbn [app]. by rewrite eat_yes.
Qed.

Lemma empty_array_ok w : blank w → array_ok ("["%char :: w ++ ["]"%char]).
Proof.
  intros Hw w' s fuel Hw' Hf. destruct fuel as [|fuel]; [fuel_le|]. simpl.
  rewrite eat_yes by done. simpl. rewrite <- app_assoc, eat_ws. cbn [app]. by rewrite eat_yes.
Qed.

Lemma parser_complete :
  (∀ v, jvalue v → value_ok v) ∧ (∀ o, jobject o → object_ok o) ∧
  (∀ ms, jmembers ms → members_ok ms) ∧ (∀ a, jarray a → array_ok a) ∧
  (∀ es, jelements es → elements_ok es).
Proof.
  apply (json_ind (λ v _, value_ok v) (λ o _, object_ok o) (λ ms _, members_ok ms)
           (λ a _, array_ok a) (λ es _, elements_ok es)); intros;
    eauto using value_object, value_array, value_string, value_literal, value_number,
      empty_object_ok, object_members_ok, members_one_ok, members_more_ok, empty_array_ok,
      array_elements_ok, elements_one_ok, elements_more_ok.
Qed.

(** ** The check *)

(** A JSON object text: white space of [str::trim] around one object. *)
Definition json_object_text (input : string) : Prop := jobject (bytes_of (trim input)).

Lemma jobject_ends o : jobject o → starts_with "{"%char o = true ∧ ends_with "}"%char o = true.
Proof.
  intros [w _|ms _]; (split; [done|]); unfold ends_with;
    change ("{"%char :: ?l ++ ["}"%char]) with (("{"%char :: l) ++ ["}"%char]);
    by rewrite last_snoc.
Qed.

Lemma trimmed_object t w o s :
  starts_with "{"%char t = true → ends_with "}"%char t = true →
  blank w → ws s = [] → t = w ++ o ++ s → t = o.
Proof.
  intros Hstart Hend Hw Hs Ht.
  assert (w = []) as ->.
  { destruct Hw as [|b w Hb _]; [done|]. subst t. simpl in Hstart.
    apply bool_decide_eq_true in Hstart as ->. by vm_compute in Hb. }
  destruct (blank_ws s) as (w&Hw'&Heq). rewrite Hs, app_nil_r in Heq. subst s.
  destruct w as [|b w _] using rev_ind; [by rewrite app_nil_r in Ht|].
  apply Forall_app in Hw' as [_ Hb]. apply Forall_cons in Hb as [Hb _]. subst t. unfold ends_with in Hend.
  simpl in Hend. rewrite !app_assoc, last_snoc in Hend.
  apply bool_decide_eq_true in Hend as ->. by vm_compute in Hb.
Qed.

Lemma is_json_object_iff input : is_json_object input = true ↔ json_object_text input.
Proof.
  unfold is_json_object, is_json_object_fuel, json_object_text.
  set (t := bytes_of (trim input)). split.
  - destruct (negb _) eqn:Hends; [done|]. rust_bool. destruct Hends as [Hstart Hend].
    destruct (object (parse_fuel t) t) as [[s []]|] eqn:Ho; [|done..].
    simpl. intros Hs%is_nil_true.
    apply (proj1 (proj2 (parser_sound _))) in Ho as (w&o&Hw&Hobj&Ht).
    by rewrite (trimmed_object t w o s).
  - intros Ho. destruct (jobject_ends _ Ho) as [-> ->]. simpl.
    pose proof (proj1 (proj2 parser_complete) _ Ho [] [] (parse_fuel t) (Forall_nil_2 _)) as H.
    rewrite app_nil_r in H. simpl in H. rewrite H; [done|]. unfold parse_fuel. lia.
Qed.

(** ** The fuel is enough for every input *)
Lemma eat_true_length b s s' : eat b s = (s', true) → length s' < length s.
Proof. intros (w&_&->)%eat_true. rewrite length_app. simpl. lia. Qed.
Lemma eat_false_length b s s' : eat b s = (s', false) → length s' ≤ length s.
Proof.
  intros ->%eat_false. destruct (blank_ws s) as (w&_&Hs). rewrite Hs at 2. rewrite length_app. lia.
Qed.
Lemma ws_length s : length (ws s) ≤ length s.
Proof. destruct (blank_ws s) as (w&_&Hs). rewrite Hs at 2. rewrite length_app. lia. Qed.
Lemma string_length s s' : string_ s = (s', true) → length s' < length s.
Proof. intros (w&body&_&_&->)%string_sound. rewrite !length_app. simpl. rewrite length_app. simpl. lia. Qed.
Lemma value_length fuel s s' : value fuel s = Some (s', true) → length s' < length s.
Proof.
  intros (w&v&_&Hv&->)%(proj1 (parser_sound fuel)).
  destruct (jvalue_head _ Hv) as (b&r&->&_). rewrite !length_app. simpl. lia.
Qed.

Lemma eat_close_length close s s' ok : eat close (ws s) = (s', ok) → length s' ≤ length s.
Proof.
  pose proof (ws_length s). destruct ok; intros H'.
  - apply eat_true_length in H'. lia.
  - apply eat_false_length in H'. lia.
Qed.

Lemma parser_total fuel :
  (∀ s, 3 * length s + 3 ≤ fuel → value fuel s ≠ None) ∧
  (∀ s, 3 * length s + 2 ≤ fuel → object fuel s ≠ None) ∧
  (∀ s, 3 * length s + 4 ≤ fuel → object_members fuel s ≠ None) ∧
  (∀ s, 3 * length s + 2 ≤ fuel → array fuel s ≠ None) ∧
  (∀ s, 3 * length s + 4 ≤ fuel → array_elements fuel s ≠ None).
Proof.
  induction fuel as [|fuel (IHv&IHo&IHm&IHa&IHe)]; [split_and!; intros; lia|].
  split_and!; intros s Hf; simpl.
  - pose proof (ws_length s). destruct (ws s) as [|b t]; [done|].
    repeat case_match; try done; [apply IHo|apply IHa]; lia.
  - destruct (eat "{"%char s) as [s1 []] eqn:H1; simpl; [|done]. apply eat_true_length in H1.
    destruct (eat "}"%char (ws s1)) as [s2 []] eqn:H2; [done|]. apply eat_close_length in H2.
    apply IHm. lia.
  - destruct (string_ s) as [s1 []] eqn:H1; simpl; [|done]. apply string_length in H1.
    destruct (eat ":"%char s1) as [s2 []] eqn:H2; simpl; [|done]. apply eat_true_length in H2.
    destruct (value fuel s2) as [[s3 []]|] eqn:H3; [|done|by apply IHv in H3; [|lia]].
    apply value_length in H3.
    destruct (eat "}"%char (ws s3)) as [s4 []] eqn:H4; [done|]. apply eat_close_length in H4.
    destruct (eat ","%char s4) as [s5 []] eqn:H5; simpl; [|done]. apply eat_true_length in H5.
    apply IHm. lia.
  - destruct (eat "["%char s) as [s1 []] eqn:H1; simpl; [|done]. apply eat_true_length in H1.
    destruct (eat "]"%char (ws s1)) as [s2 []] eqn:H2; [done|]. apply eat_close_length in H2.
    apply IHe. lia.
  - destruct (value fuel s) as [[s1 []]|] eqn:H1; [|done|by apply IHv in H1; [|lia]].
    apply value_length in H1.
    destruct (eat "]"%char (ws s1)) as [s2 []] eqn:H2; [done|]. apply eat_close_length in H2.
    destruct (eat ","%char s2) as [s3 []] eqn:H3; simpl; [|done]. apply eat_true_length in H3.
    apply IHe. lia.
Qed.

(** The check of arguments and schemas ends on every text and accepts
    exactly the texts that are, white space around them aside, an object of
    the JSON grammar [jobject]: objects, arrays, strings, numbers and literals
    nested in any way, where an escape is a backslash and any byte, a number
    may have leading zeros and a form feed counts as white space. *)
Theorem json_check_exact input :
  is_json_object_fuel (parse_fuel (bytes_of (trim input))) input ≠ None ∧
  (is_json_object input = true ↔ jobject (bytes_of (trim input))).
Proof.
  split; [|apply is_json_object_iff]. unfold is_json_object_fuel.
  destruct (negb _); [done|].
  destruct (object _ _) as [[s valid]|] eqn:Ho; [done|].
  apply parser_total in Ho; [done|]. unfold parse_fuel. lia.
Qed.

(** ** Dispatch *)
Import registry.

Section dispatch.
Context {Handler Cx World : Type}.
Variable call_with_cx : Handler → ToolArguments → Cx → World → World * ToolInvokeEnd.

(** Registries a program can hold: built by successful registrations. *)
Inductive built : @ToolRegistryBuilder Handler → Prop :=
| built_new : built builder_new
| built_register b d h b' : built b → register b d h = Ok b' → built b'.

Lemma register_Ok (b : @ToolRegistryBuilder Handler) d h b' :
  register b d h = Ok b' ↔
  definition_name d ∉ (definition_name <$> (builder_entries b).*1) ∧
  b' = {| builder_entries := builder_entries b ++ [(d, h)] |}.
Proof.
  unfold register. destruct (any _ _) eqn:Hany.
  - split; [done|]. intros [Hni _]. destruct Hni.
    apply any_Exists, Exists_exists in Hany as ([d' h']&Hin&Hd). apply bool_decide_eq_true in Hd.
    rewrite <- Hd, <- list_fmap_compose. apply list_elem_of_fmap. by exists (d', h').
  - assert (definition_name d ∉ (definition_name <$> (builder_entries b).*1)) as Hni.
    { rewrite any_false, Forall_forall in Hany. rewrite <- list_fmap_compose.
      intros ([d' h']&Heq&Hin)%list_elem_of_fmap. apply Hany in Hin.
      apply bool_decide_eq_false in Hin. by destruct Hin. }
    split; [by intros [= <-]|]. by intros [_ ->].
Qed.

Lemma built_names b : built b → NoDup (definition_name <$> (builder_entries b).*1).
Proof.
  induction 1 as [|b d h b' _ IH [Hni ->]%register_Ok]; [constructor|]. simpl.
  rewrite !fmap_app. apply NoDup_app. split; [done|]. split; [|repeat constructor; set_solver].
  simpl. set_solver.
Qed.

Lemma find_entry_Some (r : @ToolRegistry Handler) name e :
  find_entry r name = Some e → e ∈ entries r ∧ definition_name e.1 = name.
Proof.
  unfold find_entry. intros (x&Hin&Hx)%find_map_Some. case_bool_decide; [|done].
  by injection Hx as ->.
Qed.

Lemma find_entry_None (r : @ToolRegistry Handler) name :
  find_entry r name = None ↔ name ∉ (definition_name <$> definitions r).
Proof.
  unfold find_entry, definitions. rewrite find_map_None, Forall_forall, <- list_fmap_compose.
  split.
  - intros H ([d h]&->&Hin)%list_elem_of_fmap. apply H in Hin. by rewrite bool_decide_eq_true_2 in Hin.
  - intros H e He. case_bool_decide as Hd; [|done]. destruct H. apply list_elem_of_fmap. by exists e.
Qed.

Lemma unique_entry (l : list (ToolDefinition * Handler)) e1 e2 :
  NoDup (definition_name <$> l.*1) → e1 ∈ l → e2 ∈ l →
  definition_name e1.1 = definition_name e2.1 → e1 = e2.
Proof.
  rewrite <- list_fmap_compose. intros Hnd [i Hi]%list_elem_of_lookup [j Hj]%list_elem_of_lookup Heq.
  assert (i = j) as ->; [|congruence].
  eapply (NoDup_lookup _ _ _ (definition_name e1.1) Hnd); rewrite list_lookup_fmap.
  - by rewrite Hi.
  - rewrite Hj. simpl. by rewrite Heq.
Qed.

(** Arguments a handler may see. *)
Definition valid_arguments (d : ToolDefinition) (text : string) : Prop :=
  jobject (bytes_of (trim text)) ∧ validate_arguments d text = Ok tt.

Lemma required_loop_not_Panic fuel args text : required_loop fuel args text ≠ Panic.
Proof.
  revert text. induction fuel as [|fuel IH]; intros text; simpl; [done|].
  repeat case_match; done || apply IH.
Qed.

Lemma validate_not_Panic d args : validate_arguments d args ≠ Panic.
Proof. unfold validate_arguments. repeat case_match; try done. apply required_loop_not_Panic. Qed.

(** Dispatch of a built registry. The registered tool of the invocation's
    name - there is at most one - runs exactly when the raw arguments are a
    JSON object that passes its definition's check, and gets exactly them; an
    unknown name and refused arguments are answered with the errors
    [unknown_tool] and [invalid_arguments] before any handler runs, so nothing
    changes; the port itself never fails or panics. *)
Theorem registry_dispatch b inv cx w :
  built b →
  let r := build b in
  (∀ d h, (d, h) ∈ entries r → definition_name d = invocation_name inv →
     valid_arguments d (raw_arguments inv) →
     invoke call_with_cx r inv cx w =
       (let '(w', res) := call_with_cx h {| raw := raw_arguments inv |} cx w in (w', Ok res))) ∧
  (invocation_name inv ∉ (definition_name <$> definitions r) →
     ∃ message, invoke call_with_cx r inv cx w = (w, Ok (Done (rich_error "unknown_tool" message)))) ∧
  (∀ d h, (d, h) ∈ entries r → definition_name d = invocation_name inv →
     ¬ valid_arguments d (raw_arguments inv) →
     ∃ message, invoke call_with_cx r inv cx w =
       (w, Ok (Done (rich_error "invalid_arguments" message)))).
Proof.
  intros Hb r. pose proof (built_names _ Hb) as Hnd.
  assert (∀ d h, (d, h) ∈ entries r → definition_name d = invocation_name inv →
    find_entry r (invocation_name inv) = Some (d, h)) as Hfind.
  { intros d h Hin Hd. destruct (find_entry r _) as [e|] eqn:He.
    - apply find_entry_Some in He as [Hin' Hd']. f_equal.
      apply (unique_entry (entries r)); try done. simpl. congruence.
    - apply find_entry_None in He. destruct He. rewrite <- Hd. unfold definitions.
      apply (list_elem_of_fmap_2 definition_name _ d), (list_elem_of_fmap_2 fst _ (d, h) Hin). }
  unfold invoke. split_and!.
  - intros d h Hin Hd [Hobj Hval]. rewrite (Hfind d h Hin Hd). unfold parse.
    apply is_json_object_iff in Hobj. rewrite Hobj. simpl. by rewrite Hval.
  - intros Hni%find_entry_None. rewrite Hni. eauto.
  - intros d h Hin Hd Hbad. rewrite (Hfind d h Hin Hd). unfold parse.
    destruct (is_json_object _) eqn:Hobj; simpl; [|eauto]. apply is_json_object_iff in Hobj.
    pose proof (validate_not_Panic d (raw_arguments inv)).
    destruct (validate_arguments d _) as [[]|message|] eqn:Hval; [|eauto|done].
    by destruct Hbad.
Qed.
End dispatch.

(** ** Concrete tools *)
Module demo_tools.
Definition q (s : string) : string := quote +:+ s +:+ quote.
Definition schema : ToolSchema := {| json := "{" +:+ q "required" +:+ ":[" +:+ q "path" +:+ "]}" |}.
Definition read : ToolDefinition :=
  {| definition_name := "read"; description := "reads a file"; parameters := schema;
     effect_class := ReadOnly |}.
Definition registry_of : @ToolRegistryBuilder nat := {| builder_entries := [(read, 7)] |}.
Definition call (h : nat) (args : ToolArguments) (cx : unit) (w : nat) : nat * ToolInvokeEnd :=
  (w + h, Done (rich_success (raw args))).
Definition args : string := "{" +:+ q "path" +:+ ":" +:+ q "a" +:+ "}".
(** The key occurs as a value first. *)
Definition value_first : string :=
  "{" +:+ q "kind" +:+ ":" +:+ q "path" +:+ "," +:+ q "path" +:+ ":" +:+ q "a" +:+ "}".
Definition inv (text : string) : ToolInvocation :=
  {| invocation_call_id := "c"; invocation_name := "read"; raw_arguments := text |}.

Lemma is_built : built registry_of.
Proof.
  apply (built_register builder_new read 7); [constructor|vm_compute; reflexivity].
Qed.

(** A JSON object that has the required key is refused when the quoted key
    occurs as a value before. *)
Lemma first_occurrence_only :
  is_json_object value_first = true ∧
  validate_arguments read value_first = Err "missing required argument: path".
Proof. vm_compute. by split. Qed.
End demo_tools.

Lemma registry_dispatch_witness :
  invoke demo_tools.call (build demo_tools.registry_of) (demo_tools.inv demo_tools.args) tt 1
    = (8, Ok (Done (rich_success demo_tools.args))).
Proof.
  refine (proj1 (registry_dispatch demo_tools.call demo_tools.registry_of
            (demo_tools.inv demo_tools.args) tt 1 demo_tools.is_built) demo_tools.read 7 _ _ _).
  - by apply list_elem_of_singleton.
  - reflexivity.
  - split; [apply is_json_object_iff|]; vm_compute; reflexivity.
Defined.

End registry_proofs.
