(* ===== verification/Runtime.v ===== *)
(** The vocabulary of the runtime (src/crates/philo-agent-runtime): messages,
    model port, failures and outcomes, events, configuration and snapshots.

    Module [runtime] follows [message.rs], [model.rs], [outcome.rs],
    [event.rs], [config.rs], [snapshot.rs], [generation.rs], [compaction.rs]
    and [error.rs]. Durations are milliseconds; [u32] and [u64] fields are [Z].
    An [f32] is a [spec_float] of precision 24 and exponent bound 128. *)

From S2P Require Import Prelude RustStr Kernel Session Tools.
From Stdlib Require Import Floats.SpecFloat.

Module runtime.

Abbreviation SessionId := string.
Abbreviation OperationId := string.
Abbreviation TurnId := string.
Abbreviation ModelCallId := string.
Abbreviation ToolBatchId := string.
Abbreviation ToolCallId := string.
Abbreviation CancelReason := session.CancelReason.

(** ** message.rs *)

Inductive UserPart : Type :=
| UserText (text : string)
| UserImage (media_type : string) (bytes : list Byte.byte).

Inductive InvalidUserMessage : Type := EmptyParts | EmptyTextPart.

Record UserMessage : Type := { parts : list UserPart }.

Definition empty_text_part (part : UserPart) : bool :=
  match part with UserText text => str_is_empty text | UserImage _ _ => false end.

Definition from_parts (ps : list UserPart) : outcome InvalidUserMessage UserMessage :=
  if is_nil ps then Err EmptyParts
  else if any empty_text_part ps then Err EmptyTextPart
  else Ok {| parts := ps |}.

Record AssistantMessage : Type := { content : string }.

(** ** outcome.rs *)

Inductive ModelCallPhase : Type := Starting | WaitingForFirstOutput | Streaming.

Inductive RunningToolBatchPhase : Type :=
| Preparing
| Executing (in_flight completed : nat)
| CommittingResults.

Inductive OperationStatus : Type := Succeeded | Failed | Cancelled.

Inductive OperationPhase : Type :=
| Queued
| PreparingTurn
| RunningModelCall (phase : ModelCallPhase)
| RunningToolBatch (phase : RunningToolBatchPhase)
| Finalizing
| Settled (status : OperationStatus).

Inductive SettlementDurability : Type := Confirmed | Unconfirmed.

Inductive SettlementRevision : Type :=
| Committed (revision : session.SessionRevision)
| Unchanged.

Inductive FailureDomain : Type := Provider | Network | Caller | Storage | Internal.

Inductive FailureStage : Type :=
| StageModelPort | StageTurnEngine | StageKernel | StageSessionStore | StageToolPort
| StageEpochSupervisor.

Inductive RetryDisposition : Type :=
| Never
| Safe (retry_after_ms : option Z)
| MayDuplicate (retry_after_ms : option Z).

Definition is_retryable (self : RetryDisposition) : bool :=
  match self with Never => false | _ => true end.

Record AgentFailure : Type := {
  code : string;
  domain : FailureDomain;
  stage : FailureStage;
  retry : RetryDisposition;
  summary : string;
  diagnostic : string
}.

Definition failure_new (code : string) (domain : FailureDomain) (stage : FailureStage)
    (retry : RetryDisposition) (summary diagnostic : string) : AgentFailure :=
  {| code := code; domain := domain; stage := stage; retry := retry; summary := summary;
     diagnostic := diagnostic |}.

Definition with_appended_diagnostic (self : AgentFailure) (suffix : string) : AgentFailure :=
  {| code := code self; domain := domain self; stage := stage self; retry := retry self;
     summary := summary self;
     diagnostic := diagnostic self +:+ "; failure settlement unconfirmed: " +:+ suffix |}.

Inductive DurableFailureKind : Type :=
| DurModelCall | DurInvalidModelOutput | DurToolExecution | DurPersistence | DurRuntimeDriver.

Definition starts_with (prefix s : string) : bool := String.prefix prefix s.

Definition durable_kind (self : AgentFailure) : DurableFailureKind :=
  match stage self with
  | StageToolPort => DurToolExecution
  | StageSessionStore => DurPersistence
  | StageEpochSupervisor => DurRuntimeDriver
  | StageKernel =>
      if code self == "kernel.transition_rejected" then DurRuntimeDriver
      else DurInvalidModelOutput
  | StageTurnEngine =>
      if code self == "engine.invariant_violation" then DurRuntimeDriver else DurPersistence
  | StageModelPort =>
      if starts_with "model.port." (code self) || starts_with "model.output." (code self)
      then DurInvalidModelOutput else DurModelCall
  end.

(** [AGENT_OWNED_CODES]: the frozen code table. *)
Definition AGENT_OWNED_CODES
    : list (string * FailureDomain * FailureStage * RetryDisposition) :=
  [
   ("model.port.stream_after_completed", Internal, StageModelPort, Never);
   ("model.port.response_started_twice", Internal, StageModelPort, Never);
   ("model.port.stream_closed_early", Internal, StageModelPort, Never);
   ("model.output.invalid_block", Provider, StageModelPort, MayDuplicate None);
   ("model.output.delta_before_start", Provider, StageModelPort, MayDuplicate None);
   ("model.replay.corrupted", Caller, StageModelPort, Never);
   ("model.replay.unavailable", Caller, StageModelPort, Never);
   ("model.replay.persist_failed", Caller, StageModelPort, Never);
   ("model.replay.unsupported", Caller, StageModelPort, Never);
   ("model.assembly.invalid_tool_choice", Caller, StageModelPort, Never);
   ("model.assembly.max_output_tokens", Caller, StageModelPort, Never);
   ("model.assembly.image_invalid", Caller, StageModelPort, Never);
   ("model.assembly.effort_unsupported", Caller, StageModelPort, Never);
   ("model.assembly.request_build", Caller, StageModelPort, Never);
   ("kernel.output_rejected", Provider, StageKernel, Never);
   ("kernel.tool_results_rejected", Internal, StageKernel, Never);
   ("kernel.transition_rejected", Internal, StageKernel, Never);
   ("engine.barrier_a_commit_failed", Storage, StageTurnEngine, Safe None);
   ("engine.barrier_b_commit_failed", Storage, StageTurnEngine, Safe None);
   ("engine.barrier_c_commit_failed", Storage, StageTurnEngine, MayDuplicate None);
   ("engine.settlement_commit_failed", Storage, StageTurnEngine, MayDuplicate None);
   ("engine.cancel_commit_failed", Storage, StageTurnEngine, MayDuplicate None);
   ("engine.seal_commit_failed", Storage, StageTurnEngine, Safe None);
   ("engine.invariant_violation", Internal, StageTurnEngine, Never);
   ("session.store_busy", Storage, StageSessionStore, Safe None);
   ("session.store_unavailable", Storage, StageSessionStore, Never);
   ("session.revision_conflict", Internal, StageSessionStore, Never);
   ("session.validation_rejected", Internal, StageSessionStore, Never);
   ("tool.port_failed", Internal, StageToolPort, MayDuplicate None);
   ("tool.stopped_without_cancel", Internal, StageToolPort, Never);
   ("epoch.forced_settlement", Internal, StageEpochSupervisor, Never)
  ].

#[export] Instance FailureDomain_eq_dec : EqDecision FailureDomain.
Proof. solve_decision. Defined.
#[export] Instance FailureStage_eq_dec : EqDecision FailureStage.
Proof. solve_decision. Defined.
#[export] Instance RetryDisposition_eq_dec : EqDecision RetryDisposition.
Proof. solve_decision. Defined.

(** The row of the code table a failure claims. *)
Definition code_row (self : AgentFailure)
    : string * FailureDomain * FailureStage * RetryDisposition :=
  (code self, domain self, stage self, retry self).

Inductive OperationOutcome : Type :=
| OutSucceeded (assistant : AssistantMessage)
| OutFailed (failure : AgentFailure) (durability : SettlementDurability)
| OutCancelled.

(** ** error.rs *)

Inductive DriverExit : Type :=
| ExitSucceeded
| ExitFailedConfirmed
| ExitFailedUnconfirmed
| ExitCancelledConfirmed
| ExitPanicked (diagnostic_id : string)
| ExitAborted (diagnostic_id : string).

(** ** model.rs *)

Record ModelToolCall : Type := {
  tool_call_id : ToolCallId;
  call_name : string;
  call_arguments : string
}.

Inductive ModelToolResultOutcome : Type :=
| ModelSuccess (content : string)
| ModelToolError (code message : string)
| ModelCancelled
| ModelInterrupted.

Inductive ModelAssistantBlock : Type :=
| ModelText (text : string)
| ModelToolCallBlock (call : ModelToolCall).

Inductive ModelMessage : Type :=
| ModelSystem (content : string)
| ModelSummary (text : string)
| ModelUser (parts : list UserPart)
| ModelAssistant (blocks : list ModelAssistantBlock)
| ModelToolResult (tool_call_id : ToolCallId) (out : ModelToolResultOutcome).

Record ToolCallDelta : Type := {
  delta_index : nat;
  delta_id : option string;
  delta_name : option string;
  delta_arguments : string
}.

Record TokenUsage : Type := {
  input_tokens : option Z;
  output_tokens : option Z;
  cache_read_tokens : option Z;
  cache_write_tokens : option Z;
  reasoning_tokens : option Z
}.

Inductive ModelEvent : Type :=
| ResponseStarted (response_model response_id : option string)
| TextDelta (delta : string)
| ReasoningDelta (text : string)
| ToolCallDeltaEvent (index : nat) (id name : option string) (arguments : string)
| UsageUpdated (usage : TokenUsage)
| Completed (blocks : list ModelAssistantBlock).

Record ModelError : Type := {
  error_code : string;
  error_domain : FailureDomain;
  error_retry : RetryDisposition;
  error_summary : string;
  error_diagnostic : string
}.

(** [AgentFailure::from_model_error]. *)
Definition from_model_error (error : ModelError) : AgentFailure :=
  {| code := error_code error; domain := error_domain error; stage := StageModelPort;
     retry := error_retry error; summary := error_summary error;
     diagnostic := error_diagnostic error |}.

(** ** config.rs *)

Inductive ReasoningEffort : Type := Minimal | Low | Medium | High | Xhigh | Max.

Inductive ToolChoice : Type := ChoiceAuto | ChoiceNone | ChoiceRequired | ChoiceSpecific (name : string).

(** IEEE binary32 arithmetic, rounding to nearest even. *)
Definition f32 : Type := spec_float.
Definition f32_of_u64 (n : Z) : f32 := binary_normalize 24 128 n 0 false.
Definition f32_mul (a b : f32) : f32 := SFmul 24 128 a b.
Definition f32_ge (a b : f32) : bool := SFleb b a.

Record GenerationConfig : Type := {
  max_output_tokens : Z;
  temperature : f32;
  reasoning_effort : option ReasoningEffort;
  tool_choice : ToolChoice
}.

Record CompactionConfig : Type := {
  context_budget : option Z;
  auto_threshold : f32;
  keep_recent_turns : Z;
  estimate_bytes_per_token : Z
}.

Record RecoveryConfig : Type := {
  enabled : bool;
  max_retries : Z;
  backoff_base_ms : Z;
  backoff_max_ms : Z
}.

(** [u64] saturating multiplication and addition. *)
Definition saturating_mul (a b : Z) : Z := Z.min (a * b) u64_max.
Definition saturating_add (a b : Z) : Z := Z.min (a + b) u64_max.

(** One step of the xorshift generator behind [backoff_jitter]; [seed] is what
    the wall clock gives a thread whose state is still zero. *)
Definition jitter_step (state seed : Z) : Z :=
  let value := if (state =? 0)%Z then Z.lor seed 1 else state in
  let value := Z.lxor value (Z.shiftl value 13 mod 2 ^ 64) in
  let value := Z.lxor value (Z.shiftr value 7) in
  Z.lxor value (Z.shiftl value 17 mod 2 ^ 64).

(** [backoff_jitter]: the new generator state and the [u32] offset. *)
Definition backoff_jitter (state seed bound : Z) : Z * Z :=
  let value := jitter_step state seed in
  (value, (value mod Z.max bound 1) mod 2 ^ 32)%Z.

(** [RecoveryConfig::backoff_delay]. *)
Definition backoff_delay (self : RecoveryConfig) (state seed retry : Z) : Z * Z :=
  let exponent := Z.min (Z.max (retry - 1) 0) 16 in
  let cap := Z.max (backoff_max_ms self) (backoff_base_ms self) in
  let bounded := Z.min (saturating_mul (backoff_base_ms self) (Z.shiftl 1 exponent)) cap in
  let jitter := (bounded / 4)%Z in
  if (jitter =? 0)%Z then (state, bounded)
  else
    let '(state, offset) := backoff_jitter state seed jitter in
    (state, (bounded - offset)%Z).

Record RuntimeConfig : Type := {
  system_prompt : string;
  model_target : string;
  generation : GenerationConfig;
  max_tool_rounds : Z;
  max_parallel_tool_calls : Z;
  operation_timeout : option Z;
  tool_cancel_grace : Z;
  compaction : CompactionConfig;
  recovery : RecoveryConfig
}.

(** ** generation.rs (the ports are parameters of the engine) *)

Record GenerationDisplay : Type := {
  provider : option string;
  model_name : string;
  model_id : string;
  image_input : bool
}.

(** The frozen snapshot an operation runs with; its two ports are parameters
    of the engine. *)
Record RuntimeGeneration : Type := {
  generation_id : string;
  runtime_config : RuntimeConfig;
  gen_display : GenerationDisplay
}.

(** ** snapshot.rs *)

Record TurnSnapshot : Type := {
  snap_session_id : SessionId;
  snap_session_revision : session.SessionRevision;
  snap_context_messages : list ModelMessage;
  snap_system_prompt : string;
  snap_model_target : string;
  snap_generation : GenerationConfig;
  snap_tools : list tools.ToolDefinition;
  snap_max_tool_rounds : Z;
  snap_max_parallel_tool_calls : Z
}.

Record ModelCallSnapshot : Type := {
  call_session_id : SessionId;
  context_fingerprint : string;
  persist_replay : bool;
  call_operation_id : OperationId;
  call_turn_id : TurnId;
  call_model_call_id : ModelCallId;
  model_call_index : Z;
  call_session_revision : session.SessionRevision;
  call_messages : list ModelMessage;
  call_tools : list tools.ToolDefinition;
  call_model_target : string;
  call_generation : GenerationConfig;
  call_max_parallel_tool_calls : Z
}.

(** ** compaction.rs *)

Inductive CompactionReport : Type :=
| Compacted (covers_up_to : string)
| NothingToCompact.

(** [Unavailable] is raised by the coordinator, before the engine runs. *)
Inductive CompactionError : Type :=
| CompactionUnavailable
| CompactionSession (message : string)
| CompactionModel (message : string)
| CompactionInvalidModelOutput (message : string).

Definition compaction_message (self : CompactionError) : string :=
  match self with
  | CompactionUnavailable => "runtime is not available for compaction"
  | CompactionSession m | CompactionModel m | CompactionInvalidModelOutput m => m
  end.

(** ** event.rs *)

Inductive AgentEvent : Type :=
| EvOperationQueued (operation_id : OperationId)
| EvOperationStarted (operation_id : OperationId)
| EvTurnStarted (turn_id : TurnId)
| EvModelCallStarted (model_call_id : ModelCallId)
| EvModelResponseStarted (model_call_id : ModelCallId) (response_model response_id : option string)
| EvTextDelta (delta : string)
| EvReasoningDelta (model_call_id : ModelCallId) (text : string)
| EvModelUsageUpdated (model_call_id : ModelCallId) (usage : TokenUsage)
| EvToolBatchRequested (tool_batch_id : ToolBatchId) (call_count : nat)
| EvToolExecutionStarted (tool_batch_id : ToolBatchId) (tool_call_id : ToolCallId) (index : nat)
    (tool_name arguments : string)
| EvToolExecutionProgress (tool_batch_id : ToolBatchId) (tool_call_id : ToolCallId) (index : nat)
    (tail : string)
| EvToolExecutionCompleted (tool_batch_id : ToolBatchId) (tool_call_id : ToolCallId) (index : nat)
    (tool_name : string) (result : tools.ToolResult) (display : option tools.ToolDisplay)
| EvAssistantMessageCompleted (turn_id : TurnId) (message : AssistantMessage)
| EvTurnFailed (turn_id : TurnId) (failure : AgentFailure)
| EvPriorTurnSealed (turn_id : TurnId)
| EvContextCompactionStarted
| EvContextCompactionCompleted (covers_up_to : string)
| EvContextCompactionFailed (message : string)
| EvCancellationRequested (operation_id : OperationId) (reason : CancelReason)
| EvModelRetryScheduled (model_call_id : ModelCallId) (attempt max_retries delay_ms : Z)
    (failure : AgentFailure)
| EvTurnCancelled (turn_id : TurnId) (reason : CancelReason)
| EvOperationSettled (operation_id : OperationId) (status : OperationStatus)
    (durability : SettlementDurability) (session_revision : SettlementRevision).

(** ** outcome.rs, snapshot.rs, error.rs, runtime_event.rs: what the coordinator
    publishes *)

Abbreviation MaintenanceId := string.
Abbreviation DiagnosticId := string.
Abbreviation RuntimeEpoch := string.

Inductive AgentAvailability : Type :=
| Idle
| Busy (operation_id : OperationId)
| Compacting (session_id : SessionId).

Inductive MaintenanceResult : Type :=
| MaintCompacted (report : CompactionReport)
| MaintFailed (error : CompactionError)
| MaintCancelled
| MaintPanicked (diagnostic_id : DiagnosticId).

Inductive EpochEndReason : Type := EndShutdown | EndCoordinatorFault | EndEventSinkClosed.

Inductive RuntimeEvent : Type :=
| RtOperationAccepted (operation_id : OperationId) (session_id : SessionId) (turn_id : TurnId)
| RtOperationSettled (operation_id : OperationId) (session_id : SessionId)
    (status : OperationStatus) (durability : SettlementDurability)
    (session_revision : SettlementRevision)
| RtAgent (event : AgentEvent)
| RtAvailabilityChanged (availability : AgentAvailability) (queued : nat)
| RtMaintenanceAccepted (id : MaintenanceId) (session_id : SessionId)
| RtMaintenanceStarted (id : MaintenanceId)
| RtMaintenanceProgress (id : MaintenanceId) (message : string)
| RtMaintenanceSettled (id : MaintenanceId) (session_id : SessionId) (result : MaintenanceResult)
| RtRuntimeFault (diagnostic_id : DiagnosticId) (message : string)
| RtSubscriptionLagged (dropped : nat)
| RtEpochEnded (epoch : RuntimeEpoch) (reason : EpochEndReason) (forced_count : nat).

Record QueuedOperationSnapshot : Type := {
  queued_operation_id : OperationId;
  queued_session_id : SessionId
}.

Record ActiveOperationSnapshot : Type := {
  active_operation_id : OperationId;
  active_turn_id : TurnId;
  active_session_id : SessionId;
  active_phase : OperationPhase;
  active_started : bool
}.

Record MaintenanceSnapshot : Type := {
  maintenance_id : MaintenanceId;
  maintenance_session_id : SessionId
}.

Record SettledOperationSnapshot : Type := {
  last_operation_id : OperationId;
  last_session_id : SessionId;
  last_status : OperationStatus;
  last_durability : SettlementDurability;
  last_failure : option AgentFailure
}.

Inductive ShutdownState : Type := StateRunning | StateDraining | StateForced | StateStopped.

Record RuntimeSnapshot : Type := {
  snapshot_epoch : RuntimeEpoch;
  snapshot_availability : AgentAvailability;
  snapshot_queued : list QueuedOperationSnapshot;
  snapshot_active : option ActiveOperationSnapshot;
  snapshot_maintenance : option MaintenanceSnapshot;
  snapshot_shutdown : ShutdownState;
  snapshot_last_settled : list SettledOperationSnapshot;
  runtime_revision : Z
}.

Record ForcedSettlement : Type := {
  forced_operation_id : OperationId;
  forced_session_id : SessionId;
  forced_status : OperationStatus;
  forced_durability : SettlementDurability;
  forced_diagnostic_id : DiagnosticId
}.

Record ShutdownDiagnostic : Type := { diagnostic_message : string }.

Record ShutdownReport : Type := {
  report_epoch : RuntimeEpoch;
  final_state : ShutdownState;
  settlements : list ForcedSettlement;
  diagnostics : list ShutdownDiagnostic
}.

Inductive ShutdownError : Type :=
| RuntimeGone
| SupervisorPanicked
| DeadlineExceeded (pending : list string).

End runtime.
