(* ===== verification/RuntimeMapping.v ===== *)
(** The pure mappings between the layers
    (src/crates/philo-agent-runtime/src/mapping/): runtime, kernel, session and
    model vocabularies.

    Module [mapping] has one definition per function. The text of a session
    error comes from the derived [Debug] implementation; it is the parameter
    [debug_session_error] and ends up in diagnostics only. *)

From S2P Require Import Prelude RustStr Kernel Session Tools Runtime.

(** The generated [Debug] text of a session error. *)
Class DebugSessionError := { debug_session_error : session.SessionError → string }.

Module mapping.

(** ** parts.rs *)

Definition kernel_user_part (part : runtime.UserPart) : kernel.UserPart :=
  match part with
  | runtime.UserText text => kernel.UserText text
  | runtime.UserImage media_type bytes => kernel.UserImage media_type bytes
  end.
Definition kernel_user_parts (parts : list runtime.UserPart) : list kernel.UserPart :=
  kernel_user_part <$> parts.

Definition session_user_part (part : kernel.UserPart) : session.SessionUserPart :=
  match part with
  | kernel.UserText text => session.PartText text
  | kernel.UserImage media_type bytes => session.PartImage media_type bytes
  end.
Definition session_user_parts (parts : list kernel.UserPart) : list session.SessionUserPart :=
  session_user_part <$> parts.

Definition runtime_part_from_session (part : session.SessionUserPart) : runtime.UserPart :=
  match part with
  | session.PartText text => runtime.UserText text
  | session.PartImage media_type bytes => runtime.UserImage media_type bytes
  end.
Definition runtime_parts_from_session (parts : list session.SessionUserPart)
    : list runtime.UserPart := runtime_part_from_session <$> parts.

Definition runtime_part_from_kernel (part : kernel.UserPart) : runtime.UserPart :=
  match part with
  | kernel.UserText text => runtime.UserText text
  | kernel.UserImage media_type bytes => runtime.UserImage media_type bytes
  end.
Definition runtime_parts_from_kernel (parts : list kernel.UserPart) : list runtime.UserPart :=
  runtime_part_from_kernel <$> parts.

(** ** tool.rs *)

Definition kernel_result (call : kernel.KernelToolCall) (result : tools.ToolResult)
    : kernel.KernelToolResult :=
  {| kernel.result_call_id := kernel.call_id call;
     kernel.result_outcome :=
       match result with
       | tools.Success content => kernel.Success content
       | tools.Error code message => kernel.Error code message
       end |}.

Definition session_result (call : kernel.KernelToolCall) (result : tools.ToolResult)
    : session.SessionToolResult :=
  {| session.result_call_id := kernel.call_id call;
     session.result_outcome :=
       match result with
       | tools.Success content => session.Success content
       | tools.Error code message => session.Error code message
       end |}.

(** ** mod.rs *)

Definition session_usage (usage : runtime.TokenUsage) : session.SessionTokenUsage :=
  {| session.input_tokens := runtime.input_tokens usage;
     session.output_tokens := runtime.output_tokens usage;
     session.cache_read_tokens := runtime.cache_read_tokens usage;
     session.cache_write_tokens := runtime.cache_write_tokens usage;
     session.reasoning_tokens := runtime.reasoning_tokens usage |}.

(** [format!("{effort:?}").to_lowercase()]. *)
Definition effort_label (effort : runtime.ReasoningEffort) : string :=
  match effort with
  | runtime.Minimal => "minimal"
  | runtime.Low => "low"
  | runtime.Medium => "medium"
  | runtime.High => "high"
  | runtime.Xhigh => "xhigh"
  | runtime.Max => "max"
  end.

Definition session_generation_choice (generation : runtime.RuntimeGeneration)
    : session.SessionGenerationChoice :=
  {| session.choice_provider := runtime.provider (runtime.gen_display generation);
     session.choice_model_id := runtime.model_id (runtime.gen_display generation);
     session.choice_reasoning_effort :=
       effort_label <$> runtime.reasoning_effort
         (runtime.generation (runtime.runtime_config generation)) |}.

(** ** failure.rs *)

(** [invariant_failure] of engine/mod.rs. *)
Definition invariant_failure (diagnostic : string) : runtime.AgentFailure :=
  runtime.failure_new "engine.invariant_violation" runtime.Internal runtime.StageTurnEngine
    runtime.Never "an internal driver invariant was violated" diagnostic.

Definition kernel_failure (failure : runtime.AgentFailure) : kernel.TurnFailure :=
  let message := runtime.diagnostic failure in
  match runtime.durable_kind failure with
  | runtime.DurModelCall => kernel.ModelCallFailed message
  | runtime.DurInvalidModelOutput => kernel.InvalidModelOutput message
  | runtime.DurToolExecution => kernel.ToolExecutionFailed message
  | runtime.DurPersistence => kernel.PersistenceFailed message
  | runtime.DurRuntimeDriver => kernel.RuntimeDriverFailed message
  end.

Definition session_turn_failure (kind : session.TurnFailureKind) (message : string)
    : session.SessionTurnFailure :=
  {| session.failure_kind := kind; session.failure_message := message |}.

Definition session_failure_from_kernel (failure : kernel.TurnFailure)
    : session.SessionTurnFailure :=
  match failure with
  | kernel.ModelCallFailed message => session_turn_failure session.FailModelCall message
  | kernel.InvalidModelOutput message =>
      session_turn_failure session.FailInvalidModelOutput message
  | kernel.ToolExecutionFailed message => session_turn_failure session.FailToolExecution message
  | kernel.PersistenceFailed message => session_turn_failure session.FailPersistence message
  | kernel.RuntimeDriverFailed message => session_turn_failure session.FailRuntimeDriver message
  end.

Section failures.
Context `{DebugSessionError}.

Definition describe_session_error (error : session.SessionError) : string :=
  debug_session_error error.

Definition session_failure (ctx : string) (error : session.SessionError)
    : runtime.AgentFailure :=
  let '(code, domain, retry, summary) :=
    match error with
    | session.StoreBusy _ =>
        ("session.store_busy", runtime.Storage, runtime.Safe None,
         "the local session store queue is full")
    | session.StoreUnavailable _ =>
        ("session.store_unavailable", runtime.Storage, runtime.Never,
         "the local session store is unavailable")
    | session.RevisionConflict _ _ =>
        ("session.revision_conflict", runtime.Internal, runtime.Never,
         "the session changed concurrently")
    | session.Validation _ =>
        ("session.validation_rejected", runtime.Internal, runtime.Never,
         "the session rejected the transaction")
    end in
  runtime.failure_new code domain runtime.StageSessionStore retry summary
    (ctx +:+ ": " +:+ describe_session_error error).

Definition commit_failure (code : string) (retry : runtime.RetryDisposition) (ctx : string)
    (error : session.SessionError) : runtime.AgentFailure :=
  let summary :=
    if code == "engine.barrier_a_commit_failed" then "the turn start could not be recorded"
    else if code == "engine.barrier_b_commit_failed" then
      "the tool call batch could not be recorded"
    else if code == "engine.barrier_c_commit_failed" then
      "the tool results could not be recorded"
    else if code == "engine.settlement_commit_failed" then
      "the successful settlement could not be recorded"
    else if code == "engine.cancel_commit_failed" then "the cancellation could not be recorded"
    else if code == "engine.seal_commit_failed" then
      "a stale unfinished turn could not be sealed"
    else "a session commit failed" in
  runtime.failure_new code runtime.Storage runtime.StageTurnEngine retry summary
    (ctx +:+ ": " +:+ describe_session_error error).
End failures.

(** ** entries.rs *)

Definition turn_began (o : kernel.KernelObservation)
    : option (kernel.TurnId * kernel.UserMessage) :=
  match o with
  | kernel.TurnBegan turn_id user_message => Some (turn_id, user_message)
  | _ => None
  end.
Definition output_accepted (o : kernel.KernelObservation) : option kernel.AssistantOutput :=
  match o with kernel.AssistantOutputAccepted _ output => Some output | _ => None end.
Definition failure_accepted (o : kernel.KernelObservation) : option kernel.TurnFailure :=
  match o with kernel.TurnFailureAccepted _ failure => Some failure | _ => None end.
Definition terminated_succeeded (o : kernel.KernelObservation) : bool :=
  match o with kernel.TurnTerminated kernel.Succeeded => true | _ => false end.

Definition start_entries (observations : list kernel.KernelObservation)
    (operation_id : runtime.OperationId) (turn_id : runtime.TurnId)
    : outcome runtime.AgentFailure (list session.SessionEntryKind) :=
  match find_map turn_began observations with
  | None => Err (invariant_failure "missing TurnBegan observation")
  | Some (observed, user) =>
      if observed != turn_id then Err (invariant_failure "unexpected TurnBegan turn id")
      else Ok [session.OperationStarted operation_id;
               session.TurnStarted operation_id turn_id;
               session.UserMessage turn_id (session_user_parts (kernel.parts user))]
  end.

Definition final_block (block : kernel.AssistantBlock) : option session.SessionAssistantBlock :=
  match block with
  | kernel.TextBlock text => Some (session.BlockText text)
  | kernel.ToolCallBlock _ => None
  end.

Definition success_entries (observations : list kernel.KernelObservation)
    (operation_id : runtime.OperationId) (turn_id : runtime.TurnId)
    (usage : option runtime.TokenUsage) (generation : session.SessionGenerationChoice)
    : outcome runtime.AgentFailure (list session.SessionEntryKind) :=
  match find_map output_accepted observations with
  | None => Err (invariant_failure "missing accepted assistant output")
  | Some output =>
      if negb (any terminated_succeeded observations) then
        Err (invariant_failure "missing successful termination")
      else Ok [session.AssistantMessage turn_id (filter_map final_block (kernel.blocks output));
               session.TurnTerminated turn_id session.TurnSucceeded;
               session.OperationSettled operation_id session.OpSucceeded
                 (session_usage <$> usage) (Some generation)]
  end.

Definition failure_entries (observations : list kernel.KernelObservation)
    (operation_id : runtime.OperationId) (turn_id : runtime.TurnId)
    (usage : option runtime.TokenUsage) (generation : session.SessionGenerationChoice)
    : outcome runtime.AgentFailure (list session.SessionEntryKind) :=
  match find_map failure_accepted observations with
  | None => Err (invariant_failure "missing accepted failure")
  | Some failure =>
      Ok [session.TurnFailure turn_id (session_failure_from_kernel failure);
          session.TurnTerminated turn_id session.TurnFailed;
          session.OperationSettled operation_id session.OpFailed
            (session_usage <$> usage) (Some generation)]
  end.

Definition session_call (call : kernel.KernelToolCall) : session.SessionToolCall :=
  {| session.call_id := kernel.call_id call;
     session.call_name := kernel.call_name call;
     session.call_arguments := kernel.call_arguments call |}.

Definition batch_block (block : kernel.AssistantBlock) : session.SessionAssistantBlock :=
  match block with
  | kernel.TextBlock text => session.BlockText text
  | kernel.ToolCallBlock call => session.BlockToolCall (session_call call)
  end.

Definition batch_entry (turn_id : runtime.TurnId) (model_call_id : kernel.ModelCallId)
    (batch_id : kernel.ToolBatchId) (blocks : list kernel.AssistantBlock)
    : session.SessionEntryKind :=
  session.AssistantToolCallBatch turn_id model_call_id batch_id (batch_block <$> blocks).

(** ** messages.rs *)

Definition model_block_from_session (block : session.SessionAssistantBlock)
    : runtime.ModelAssistantBlock :=
  match block with
  | session.BlockText text => runtime.ModelText text
  | session.BlockToolCall call =>
      runtime.ModelToolCallBlock
        {| runtime.tool_call_id := session.call_id call;
           runtime.call_name := session.call_name call;
           runtime.call_arguments := session.call_arguments call |}
  end.
Definition model_blocks_from_session (blocks : list session.SessionAssistantBlock)
    : list runtime.ModelAssistantBlock := model_block_from_session <$> blocks.

Definition model_block_from_kernel (block : kernel.AssistantBlock)
    : runtime.ModelAssistantBlock :=
  match block with
  | kernel.TextBlock text => runtime.ModelText text
  | kernel.ToolCallBlock call =>
      runtime.ModelToolCallBlock
        {| runtime.tool_call_id := kernel.call_id call;
           runtime.call_name := kernel.call_name call;
           runtime.call_arguments := kernel.call_arguments call |}
  end.
Definition model_blocks_from_kernel (blocks : list kernel.AssistantBlock)
    : list runtime.ModelAssistantBlock := model_block_from_kernel <$> blocks.

Definition kernel_block_from_model (block : runtime.ModelAssistantBlock)
    : kernel.AssistantBlock :=
  match block with
  | runtime.ModelText text => kernel.TextBlock text
  | runtime.ModelToolCallBlock call =>
      kernel.ToolCallBlock
        {| kernel.call_id := runtime.tool_call_id call;
           kernel.call_name := runtime.call_name call;
           kernel.call_arguments := runtime.call_arguments call |}
  end.
Definition kernel_blocks_from_model (blocks : list runtime.ModelAssistantBlock)
    : list kernel.AssistantBlock := kernel_block_from_model <$> blocks.

Definition tool_call_ids_from_session (blocks : list session.SessionAssistantBlock)
    : list runtime.ToolCallId :=
  filter_map (λ block,
    match block with
    | session.BlockToolCall call => Some (session.call_id call)
    | session.BlockText _ => None
    end) blocks.

Definition model_outcome_from_session (out : session.ToolResultOutcome)
    : runtime.ModelToolResultOutcome :=
  match out with
  | session.Success content => runtime.ModelSuccess content
  | session.Error code message => runtime.ModelToolError code message
  | session.ResultCancelled => runtime.ModelCancelled
  | session.ResultInterrupted => runtime.ModelInterrupted
  end.

Definition interrupted_placeholder (tool_call_id : runtime.ToolCallId) : runtime.ModelMessage :=
  runtime.ModelToolResult tool_call_id runtime.ModelInterrupted.

(** [flush_interrupted_placeholders]: drains [pending] into [output]. *)
Definition flush_interrupted_placeholders (output : list runtime.ModelMessage)
    (pending : list runtime.ToolCallId)
    : list runtime.ModelMessage * list runtime.ToolCallId :=
  (output ++ (interrupted_placeholder <$> pending), []).

(** One iteration of the loop of [context_messages]. *)
Definition context_message_step
    (state : list runtime.ModelMessage * list runtime.ToolCallId)
    (message : session.ContextMessage)
    : list runtime.ModelMessage * list runtime.ToolCallId :=
  let '(output, pending) := state in
  match message with
  | session.CtxToolResult tool_call_id out =>
      (output ++ [runtime.ModelToolResult tool_call_id (model_outcome_from_session out)],
       drop 1 pending)
  | other =>
      let '(output, pending) := flush_interrupted_placeholders output pending in
      match other with
      | session.CtxSummary text => (output ++ [runtime.ModelSummary text], pending)
      | session.CtxUser parts =>
          (output ++ [runtime.ModelUser (runtime_parts_from_session parts)], pending)
      | session.CtxAssistant blocks =>
          (output ++ [runtime.ModelAssistant (model_blocks_from_session blocks)], pending)
      | session.CtxAssistantToolCalls _ blocks =>
          (output ++ [runtime.ModelAssistant (model_blocks_from_session blocks)],
           tool_call_ids_from_session blocks)
      | session.CtxToolResult _ _ => (output, pending)
      end
  end.

Definition context_messages_of (messages : list session.ContextMessage)
    : list runtime.ModelMessage :=
  let '(output, pending) := foldl context_message_step ([], []) messages in
  (flush_interrupted_placeholders output pending).1.

(** [context_messages]. *)
Definition context_messages (context : session.SessionContextView)
    : list runtime.ModelMessage := context_messages_of (session.view_messages context).

Definition turn_message (message : kernel.TurnMessage) : runtime.ModelMessage :=
  match message with
  | kernel.User user => runtime.ModelUser (runtime_parts_from_kernel (kernel.parts user))
  | kernel.Assistant output =>
      runtime.ModelAssistant (model_blocks_from_kernel (kernel.blocks output))
  | kernel.AssistantToolCalls _ blocks =>
      runtime.ModelAssistant (model_blocks_from_kernel blocks)
  | kernel.ToolResult result =>
      runtime.ModelToolResult (kernel.result_call_id result)
        (match kernel.result_outcome result with
         | kernel.Success content => runtime.ModelSuccess content
         | kernel.Error code message => runtime.ModelToolError code message
         end)
  end.
Definition turn_messages (messages : list kernel.TurnMessage) : list runtime.ModelMessage :=
  turn_message <$> messages.

Definition build_messages (turn : runtime.TurnSnapshot) (messages : list kernel.TurnMessage)
    : list runtime.ModelMessage :=
  runtime.ModelSystem (runtime.snap_system_prompt turn)
    :: runtime.snap_context_messages turn ++ turn_messages messages.

End mapping.
