(* ===== verification/History.v ===== *)
(** The history a model call carries: what the messages of a session log
    become in the provider's vocabulary.

    Module [history] has the order a provider demands ([answered]), the
    invariant that ties the lifecycle of a log to the tool calls its messages
    leave unanswered, and what the entries of a finished turn add to the
    history of the next one. *)

From S2P Require Import Prelude RustStr Kernel KernelProofs Session.
From S2P Require Import SessionLifecycle SessionContext SessionProofs.
From S2P Require Import Tools Runtime RuntimeMapping.
Import runtime mapping.

Module history.

(** ** Specification *)

Definition model_call_id (block : ModelAssistantBlock) : option ToolCallId :=
  match block with ModelToolCallBlock call => Some (tool_call_id call) | ModelText _ => None end.

(** A message that neither makes nor answers a tool call. *)
Definition plain (m : ModelMessage) : Prop :=
  match m with ModelAssistant _ | ModelToolResult _ _ => False | _ => True end.

(** Every assistant message is directly followed by one result for each of
    its tool calls, in order, and no result stands anywhere else. *)
Inductive answered : list ModelMessage → Prop :=
| answered_nil : answered []
| answered_plain m ms : plain m → answered ms → answered (m :: ms)
| answered_round bs outs ms :
    length outs = length (filter_map model_call_id bs) → answered ms →
    answered (ModelAssistant bs
              :: zip_with ModelToolResult (filter_map model_call_id bs) outs ++ ms).

(** The tool calls a prefix of the history leaves unanswered; [None] once a
    result answers anything but the next of them. *)
Definition context_calls (m : session.ContextMessage) : list ToolCallId :=
  match m with session.CtxAssistantToolCalls _ bs => tool_call_ids_from_session bs | _ => [] end.

Definition pending_step (pending : option (list ToolCallId)) (m : session.ContextMessage)
    : option (list ToolCallId) :=
  p ← pending;
  match m with
  | session.CtxToolResult id _ =>
      match p with [] => None | q :: p => if q == id then Some p else None end
  | session.CtxAssistant bs => if is_nil (tool_call_ids_from_session bs) then Some [] else None
  | m => Some (context_calls m)
  end.

Definition pending_after (ms : list session.ContextMessage) : option (list ToolCallId) :=
  foldl pending_step (Some []) ms.

(** Turns do not overlap: when a turn starts, and when an operation settles,
    no turn is open. *)
Definition starts_or_settles (k : session.SessionEntryKind) : bool :=
  match k with session.TurnStarted _ _ | session.OperationSettled _ _ _ _ => true | _ => false end.

Definition one_turn_at_a_time (lc : session.LifecycleProjection)
    (ks : list session.SessionEntryKind) : Prop :=
  ∀ pre k post lc', ks = pre ++ k :: post → starts_or_settles k = true →
    lc_accept_all lc pre = Ok lc' → session.open_turn_ids lc' = [].

(** The condition as a test. *)
Fixpoint one_turn_check (lc : session.LifecycleProjection) (ks : list session.SessionEntryKind)
    : bool :=
  match ks with
  | [] => true
  | k :: ks =>
      (negb (starts_or_settles k) || is_nil (session.open_turn_ids lc)) &&
      match session.lifecycle_accept lc k with Ok lc1 => one_turn_check lc1 ks | _ => true end
  end.

(** ** The messages the fold emits *)
Lemma filter_map_model_calls bs :
  filter_map model_call_id (model_blocks_from_session bs) = tool_call_ids_from_session bs.
Proof.
  unfold model_blocks_from_session, tool_call_ids_from_session, filter_map.
  induction bs as [|[|] bs IH]; simpl; [done..|]. by f_equal.
Qed.

(** What has been emitted so far: complete rounds, then the open round's
    message with the results it has. *)
Definition emitted (out : list ModelMessage) (pending : list ToolCallId) : Prop :=
  ∀ outs ms, length outs = length pending → answered ms →
    answered (out ++ zip_with ModelToolResult pending outs ++ ms).

Lemma emitted_answered out : emitted out [] ↔ ∀ ms, answered ms → answered (out ++ ms).
Proof.
  split.
  - intros H ms Hms. by apply (H [] ms).
  - intros H [|o outs] ms Hl Hms; [by apply H|done].
Qed.

Lemma emitted_flush out pending :
  emitted out pending → emitted (flush_interrupted_placeholders out pending).1 [].
Proof.
  intros H. apply emitted_answered. intros ms Hms. simpl. rewrite <- app_assoc.
  assert (interrupted_placeholder <$> pending
          = zip_with ModelToolResult pending (replicate (length pending) ModelInterrupted)) as ->.
  { clear. induction pending as [|id pending IH]; [done|]. simpl. by rewrite <- IH. }
  apply H; [by rewrite length_replicate|done].
Qed.

Lemma emitted_plain out m : plain m → emitted out [] → emitted (out ++ [m]) [].
Proof.
  rewrite !emitted_answered. intros Hm H ms Hms. rewrite <- app_assoc. apply H. by constructor.
Qed.

Lemma emitted_round out bs :
  emitted out [] → emitted (out ++ [ModelAssistant bs]) (filter_map model_call_id bs).
Proof.
  rewrite emitted_answered. intros H outs ms Hl Hms. rewrite <- app_assoc. apply H.
  by constructor.
Qed.

Lemma emitted_result out id pending o :
  emitted out (id :: pending) → emitted (out ++ [ModelToolResult id o]) pending.
Proof.
  intros H outs ms Hl Hms. rewrite <- app_assoc.
  apply (H (o :: outs) ms); [simpl; by rewrite Hl|done].
Qed.

Lemma context_message_step_emitted out p m p' :
  emitted out p → pending_step (Some p) m = Some p' →
  ∃ out', context_message_step (out, p) m = (out', p') ∧ emitted out' p'.
Proof.
  intros He Hp. pose proof (emitted_flush _ _ He) as Hf.
  destruct m as [text|ps|bs|bid bs|id o]; cbn in Hp |- *;
    [injection Hp as <-..| |injection Hp as <-|].
  - eexists. split; [reflexivity|]. by apply emitted_plain.
  - eexists. split; [reflexivity|]. by apply emitted_plain.
  - destruct (is_nil _) eqn:Hn; [|done]. injection Hp as <-. apply is_nil_true in Hn.
    eexists. split; [reflexivity|]. rewrite <- Hn, <- filter_map_model_calls. by apply emitted_round.
  - eexists. split; [reflexivity|]. rewrite <- filter_map_model_calls. by apply emitted_round.
  - destruct p as [|q p]; [done|]. case_bool_decide; [|done]. injection Hp as <-. subst q.
    eexists. split; [reflexivity|]. by apply emitted_result.
Qed.

Lemma context_messages_answered ms p :
  pending_after ms = Some p → answered (context_messages_of ms).
Proof.
  intros Hp.
  assert (∃ out, foldl context_message_step ([], []) ms = (out, p) ∧ emitted out p)
    as (out&Hf&He).
  { revert p Hp. induction ms as [|m ms IH] using rev_ind; intros p Hp.
    - injection Hp as <-. exists []. split; [done|]. by apply emitted_answered.
    - unfold pending_after in *. rewrite foldl_snoc in Hp. rewrite foldl_snoc.
      destruct (foldl pending_step (Some []) ms) as [q|]; [|done].
      destruct (IH q eq_refl) as (out&->&He). by apply context_message_step_emitted. }
  unfold context_messages_of. rewrite Hf. apply emitted_flush in He.
  rewrite emitted_answered in He. rewrite <- (app_nil_r _). apply He. constructor.
Qed.

(** ** The lifecycle and the unanswered calls *)
Record tracks (lc : session.LifecycleProjection) (pending : list ToolCallId) : Prop := {
  tracks_one : ∀ tid tid' t t', open_turn lc tid t → open_turn lc tid' t' → tid = tid';
  tracks_batch : ∀ tid t l b, open_turn lc tid t → session.tool_batches t = l ++ [b] →
    pending = drop (length (session.results b)) (session.call_ids b)
}.

Lemma tracks_no_open lc pending :
  lc_wf lc → session.open_turn_ids lc = [] → tracks lc pending.
Proof.
  intros Hwf Hopen.
  assert (∀ tid t, ¬ open_turn lc tid t) as Hno.
  { intros tid t Ht. assert (tid ∈ session.open_turn_ids lc) as Hin
      by (apply (lc_open _ Hwf); by exists t). rewrite Hopen in Hin. by apply elem_of_nil in Hin. }
  split; intros; exfalso; by eapply Hno.
Qed.

Lemma open_set_turn lc tid t t' tid2 t2 pending :
  tracks lc pending → open_turn lc tid t →
  open_turn (session.set_turn lc tid t') tid2 t2 → tid2 = tid ∧ t2 = t'.
Proof.
  intros [Hone _] Ht [H2 Ho]. simpl in H2. apply lookup_insert_Some in H2 as [[<- <-]|[Hne H2]].
  - done.
  - destruct Hne. symmetry. by apply (Hone tid2 tid t2 t).
Qed.

Lemma tracks_set_turn lc tid t t' pending pending' :
  tracks lc pending → open_turn lc tid t →
  (∀ l b, session.tool_batches t' = l ++ [b] →
     pending' = drop (length (session.results b)) (session.call_ids b)) →
  tracks (session.set_turn lc tid t') pending'.
Proof.
  intros Htr Ht Hb. split.
  - intros t1 t2 r1 r2 H1 H2.
    apply (open_set_turn _ _ _ _ _ _ _ Htr Ht) in H1 as [-> _].
    by apply (open_set_turn _ _ _ _ _ _ _ Htr Ht) in H2 as [-> _].
  - intros t1 r1 l b H1 Hl. apply (open_set_turn _ _ _ _ _ _ _ Htr Ht) in H1 as [-> ->]. eauto.
Qed.

(** A turn whose rounds are complete waits for nothing. *)
Lemma complete_rest t l b :
  session.tool_rounds_complete t = true → session.tool_batches t = l ++ [b] →
  drop (length (session.results b)) (session.call_ids b) = [].
Proof.
  intros Hc Hl. rewrite (tool_rounds_complete_snoc t l b Hl) in Hc.
  apply is_complete_true in Hc. rewrite Hc. apply drop_all.
Qed.

Lemma call_ids_of_blocks bs :
  session.call_id <$> filter_map session.block_call bs = tool_call_ids_from_session bs.
Proof.
  unfold tool_call_ids_from_session, filter_map.
  induction bs as [|[|] bs IH]; simpl; [done..|]. by f_equal.
Qed.

Lemma text_blocks_no_calls bs :
  Forall (λ b, ∃ text, b = session.BlockText text ∧ text ≠ "") bs →
  tool_call_ids_from_session bs = [].
Proof.
  unfold tool_call_ids_from_session. intros H. apply filter_map_nil.
  eapply Forall_impl; [exact H|]. by intros ? (text&->&_).
Qed.

Definition pend_message (pending : list ToolCallId) (k : session.SessionEntryKind)
    : option (list ToolCallId) :=
  match message_of k with Some m => pending_step (Some pending) m | None => Some pending end.

Lemma tracks_new_turn lc ops tid t pending :
  lc_wf lc → session.open_turn_ids lc = [] → session.tool_batches t = [] →
  tracks {| session.operations := ops; session.turns := <[tid := t]> (session.turns lc);
            session.open_turn_ids := session.open_turn_ids lc ++ [tid] |} pending.
Proof.
  intros Hwf Hopen Ht.
  assert (∀ tid' t', open_turn {| session.operations := ops;
    session.turns := <[tid := t]> (session.turns lc);
    session.open_turn_ids := session.open_turn_ids lc ++ [tid] |} tid' t' →
    tid' = tid ∧ t' = t) as Honly.
  { intros tid' t' [H Ho]. simpl in H. apply lookup_insert_Some in H as [[<- <-]|[_ H]]; [done|].
    assert (tid' ∈ session.open_turn_ids lc) as Hin by (apply (lc_open _ Hwf); by exists t').
    rewrite Hopen in Hin. by apply elem_of_nil in Hin. }
  split.
  - intros t1 t2 r1 r2 [-> _]%Honly [-> _]%Honly. done.
  - intros t1 r1 l b [_ ->]%Honly Hl. rewrite Ht in Hl. by destruct l.
Qed.

Lemma tracks_close_turn lc tid t o pending :
  tracks lc pending → open_turn lc tid t → tracks (close_turn lc tid t o) pending.
Proof.
  intros Htr Ht.
  assert (∀ tid' t', ¬ open_turn (close_turn lc tid t o) tid' t') as Hno.
  { intros tid' t' [H Ho]. simpl in H. apply lookup_insert_Some in H as [[_ <-]|[Hne H]]; [done|].
    destruct Hne. by apply (tracks_one _ _ Htr tid tid' t t'). }
  split; intros; exfalso; by eapply Hno.
Qed.

Lemma tracks_step lc k lc' pending :
  lc_wf lc → tracks lc pending → lc_step lc k lc' →
  (starts_or_settles k = true → session.open_turn_ids lc = []) →
  ∃ pending', pend_message pending k = Some pending' ∧ tracks lc' pending'.
Proof.
  intros Hwf Htr Hstep Hquiet.
  assert (∀ tid t, open_turn lc tid t → turn_wf t) as Htw.
  { intros tid t [Ht _]. by apply (lc_turn_wf _ Hwf tid). }
  destruct Hstep as [oid Hoid|oid tid Hoid Htid|tid ps t Hne Hps Ht Hum|tid mid bid bs t Ht
    |tid r t l b Ht Hl Hc|tid bs t Hbs Ht Hu Hf Hc|tid f t Ht|tid o t Ht
    |oid o u g tid t Hop Ht Htop Hto|summary covers|title]; unfold pend_message; simpl.
  - exists pending. split; [done|]. destruct Htr. by split.
  - exists pending. split; [done|]. eapply tracks_new_turn; [done|by apply Hquiet|done].
  - exists []. split; [done|]. apply (tracks_set_turn _ _ _ _ _ _ Htr Ht). simpl. intros l b Hl.
    pose proof (turn_batches_user _ (Htw _ _ Ht)) as Hb. rewrite Hl, Hum in Hb.
    discriminate Hb. by destruct l.
  - exists (tool_call_ids_from_session bs). split; [done|].
    apply (tracks_set_turn _ _ _ _ _ _ Htr Ht). simpl.
    intros l b [_ <-]%app_inj_tail. by rewrite <- call_ids_of_blocks.
  - rewrite (tracks_batch _ _ Htr _ _ _ _ Ht Hl), (drop_S _ _ _ Hc).
    rewrite bool_decide_eq_true_2 by done. eexists. split; [reflexivity|].
    apply (tracks_set_turn _ _ _ _ _ _ Htr Ht). simpl.
    intros l' b' [_ <-]%app_inj_tail. simpl. by rewrite length_app, Nat.add_comm.
  - rewrite (text_blocks_no_calls _ Hbs). exists []. split; [done|].
    apply (tracks_set_turn _ _ _ _ _ _ Htr Ht). simpl.
    intros l b Hl. symmetry. eapply complete_rest; [by apply rounds_answered_true|done].
  - exists pending. split; [done|]. apply (tracks_set_turn _ _ _ _ _ _ Htr Ht). simpl.
    intros l b Hl. by apply (tracks_batch _ _ Htr tid t l).
  - exists pending. split; [done|]. by eapply tracks_close_turn.
  - exists pending. split; [done|]. destruct Htr. by split.
  - by exists pending.
  - by exists pending.
Qed.

Lemma accept_all_cons lc k ks lc' :
  lc_accept_all lc (k :: ks) = Ok lc' ↔
  ∃ lc1, session.lifecycle_accept lc k = Ok lc1 ∧ lc_accept_all lc1 ks = Ok lc'.
Proof. unfold lc_accept_all. simpl. apply bind_Ok. Qed.

Lemma one_turn_app lc ks ks' lc1 :
  one_turn_at_a_time lc (ks ++ ks') → lc_accept_all lc ks = Ok lc1 → one_turn_at_a_time lc1 ks'.
Proof.
  intros Hone Hks pre k post lc' -> Hs Hacc.
  apply (Hone (ks ++ pre) k post lc'); [by rewrite <- app_assoc|done|].
  unfold lc_accept_all in *. by rewrite try_fold_app, Hks.
Qed.

Lemma one_turn_step lc k ks lc1 :
  one_turn_at_a_time lc (k :: ks) → session.lifecycle_accept lc k = Ok lc1 →
  (starts_or_settles k = true → session.open_turn_ids lc = []) ∧ one_turn_at_a_time lc1 ks.
Proof.
  intros Hone Hk. split.
  - intros Hs. by apply (Hone [] k ks).
  - apply (one_turn_app lc [k]); [done|]. apply accept_all_cons. eauto.
Qed.

Lemma one_turn_check_sound lc ks : one_turn_check lc ks = true → one_turn_at_a_time lc ks.
Proof.
  revert lc. induction ks as [|k ks IH]; intros lc H pre k' post lc' Heq Hs Hacc.
  { by destruct pre. }
  simpl in H. apply andb_true_iff in H as [Hk Hks].
  destruct pre as [|k1 pre]; injection Heq as <- Heq.
  - injection Hacc as <-. rewrite Hs in Hk. by apply is_nil_true in Hk.
  - apply accept_all_cons in Hacc as (lc1&Hk1&Hacc). rewrite Hk1 in Hks. by eapply (IH lc1).
Qed.

Lemma tracks_run ks lc lc' pending :
  lc_wf lc → tracks lc pending → one_turn_at_a_time lc ks → lc_accept_all lc ks = Ok lc' →
  ∃ pending', foldl pending_step (Some pending) (filter_map message_of ks) = Some pending' ∧
    tracks lc' pending'.
Proof.
  revert lc pending. induction ks as [|k ks IH]; intros lc pending Hwf Htr Hone Hacc.
  { injection Hacc as <-. by exists pending. }
  apply accept_all_cons in Hacc as (lc1&Hk&Hacc).
  destruct (one_turn_step _ _ _ _ Hone Hk) as [Hq Hone1].
  apply lifecycle_accept_iff in Hk.
  destruct (tracks_step _ _ _ _ Hwf Htr Hk Hq) as (p1&Hp1&Htr1).
  destruct (IH lc1 p1) as (p2&Hp2&Htr2); [by eapply lc_step_wf|done..|].
  exists p2. split; [|done]. revert Hp1 Hp2. unfold pend_message, filter_map. simpl.
  destruct (message_of k) as [m|]; simpl.
  - intros Hp1 <-. f_equal. exact Hp1.
  - by intros [= <-].
Qed.

(** ** The messages of a log *)
Lemma log_messages_kinds L : log_messages L = filter_map message_of (session.entry_kind <$> L).
Proof.
  unfold log_messages, filter_map. induction L as [|e L IH]; [done|]. simpl.
  destruct (message_of (session.entry_kind e)); [f_equal|]; apply IH.
Qed.

Lemma session_log_accepted sid Ls p :
  session_log sid Ls p →
  lc_accept_all session.lifecycle_default (session.entry_kind <$> concat Ls)
    = Ok (session.lifecycle p).
Proof.
  induction 1 as [|Ls p tx a _ IH _ H]; [done|].
  apply apply_Ok in H as (_&_&_&H).
  apply advance_transaction_Ok in H as (next&leaf&u&_&_&_&Hadv&_&->). simpl.
  rewrite concat_app, fmap_app. simpl. rewrite app_nil_r. unfold lc_accept_all in *.
  rewrite try_fold_app, IH. simpl. apply (adv_lifecycle _ _ _ Hadv).
Qed.

Lemma log_context_pending sid Ls p :
  session_log sid Ls p →
  one_turn_at_a_time session.lifecycle_default (session.entry_kind <$> concat Ls) →
  ∃ pending, pending_after (log_context (concat Ls)) = Some pending.
Proof.
  intros Hlog Hone. pose proof (session_log_accepted _ _ _ Hlog) as Hacc.
  pose proof (session_log_refines _ _ _ Hlog) as [Hlin _ _ Hctx _].
  pose proof (ctx_compaction _ _ Hctx) as Hc. unfold log_context.
  set (L := concat Ls) in *.
  assert (tracks session.lifecycle_default []) as Htr0
    by (apply tracks_no_open; [apply lifecycle_default_wf|done]).
  destruct (last (compactions L)) as [[summary covers]|].
  - destruct Hc as (b&Hb&_). apply (ctx_boundaries _ _ Hctx) in Hb as (i&(e&He&Hid&Hs)&_).
    rewrite <- Hid, (entries_after_spec _ _ _ (linear_log_NoDup _ _ Hlin) He).
    assert (starts_or_settles (session.entry_kind e) = true) as Hse.
    { unfold settlement_of in Hs. destruct Hs as [? Hs]. by destruct (session.entry_kind e). }
    rewrite <- (take_drop_middle L i e He) in Hacc, Hone.
    rewrite fmap_app in Hacc, Hone. simpl in Hacc, Hone. unfold lc_accept_all in Hacc.
    rewrite try_fold_app in Hacc. apply bind_Ok in Hacc as (lc1&Hacc1&Hacc).
    apply accept_all_cons in Hacc as (lc2&Hk&Hacc).
    destruct (one_turn_step _ _ _ _ (one_turn_app _ _ _ _ Hone Hacc1) Hk) as [Hq Hone2].
    specialize (Hq Hse). apply lifecycle_accept_iff in Hk.
    pose proof (lc_accept_all_wf _ _ _ lifecycle_default_wf Hacc1) as Hwf1.
    assert (tracks lc2 []) as Htr2.
    { apply tracks_no_open; [by eapply lc_step_wf|].
      unfold settlement_of in Hs. by destruct Hk; destruct Hs. }
    destruct (tracks_run _ _ _ _ (lc_step_wf _ _ _ Hwf1 Hk) Htr2 Hone2 Hacc) as (pending&Hp&_).
    exists pending. rewrite log_messages_kinds. exact Hp.
  - rewrite log_messages_kinds.
    destruct (tracks_run _ _ _ _ lifecycle_default_wf Htr0 Hone Hacc) as (pending&Hp&_). eauto.
Qed.

Lemma view_log_context sid Ls p v :
  session_log sid Ls p → session.context_view p sid = Ok v →
  session.view_messages v = log_context (concat Ls).
Proof.
  intros Hlog Hv. pose proof (session_log_refines _ _ _ Hlog) as [Hlin _ _ Hctx _].
  unfold session.context_view in Hv.
  rewrite (messages_refines _ _ (linear_log_NoDup _ _ Hlin) Hctx) in Hv. simpl in Hv.
  apply bind_Ok in Hv as (open&_&Hv). by injection Hv as <-.
Qed.

(** ** The messages of a turn *)
Lemma answered_app ms ms' : answered ms → answered ms' → answered (ms ++ ms').
Proof.
  induction 1 as [|m ms Hm _ IH|bs outs ms Hl _ IH]; intros Hms'; simpl; [done|..].
  - apply answered_plain; auto.
  - rewrite <- app_assoc. apply answered_round; auto.
Qed.

Lemma filter_map_kernel_calls bs :
  filter_map model_call_id (model_blocks_from_kernel bs)
    = kernel.call_id <$> filter_map kernel.block_call bs.
Proof.
  unfold model_blocks_from_kernel, filter_map.
  induction bs as [|[|] bs IH]; simpl; [done..|]. by f_equal.
Qed.

Definition kernel_outcome (r : kernel.KernelToolResult) : ModelToolResultOutcome :=
  match kernel.result_outcome r with
  | kernel.Success content => ModelSuccess content
  | kernel.Error code message => ModelToolError code message
  end.

Lemma turn_messages_answered tr : paired tr → answered (turn_messages tr).
Proof.
  induction 1 as [u|tr b bs rs _ IH _ Hm]; unfold turn_messages.
  - apply answered_plain; [done|constructor].
  - rewrite fmap_app. apply answered_app; [done|].
    apply matching_results_true in Hm.
    rewrite fmap_cons. cbn [turn_message].
    assert (turn_message <$> (kernel.ToolResult <$> rs)
            = zip_with ModelToolResult (filter_map model_call_id (model_blocks_from_kernel bs))
                (kernel_outcome <$> rs) ++ []) as ->.
    { rewrite filter_map_kernel_calls, Hm, app_nil_r. clear.
      induction rs as [|r rs IH]; [done|]. rewrite !fmap_cons. simpl. by rewrite <- IH. }
    apply answered_round; [|constructor].
    by rewrite filter_map_kernel_calls, Hm, !length_fmap.
Qed.

(** ** What a turn adds *)

(** The entry by which the engine records a message of the transcript. *)
Inductive records (tid : TurnId) : kernel.TurnMessage → session.SessionEntryKind → Prop :=
| records_user u :
    records tid (kernel.User u) (session.UserMessage tid (session_user_parts (kernel.parts u)))
| records_batch mid bid bs :
    records tid (kernel.AssistantToolCalls bid bs) (batch_entry tid mid bid bs)
| records_result bid call res :
    records tid (kernel.ToolResult (kernel_result call res))
      (session.ToolResult tid bid (session_result call res))
| records_assistant out :
    kernel.contains_tool_call out = false →
    records tid (kernel.Assistant out)
      (session.AssistantMessage tid (filter_map final_block (kernel.blocks out))).

(** The transcript of a turn between rounds, or of one that succeeded. *)
Inductive between_rounds : list kernel.TurnMessage → Prop :=
| between_paired tr : paired tr → between_rounds tr
| between_done tr out : paired tr → between_rounds (tr ++ [kernel.Assistant out]).

Lemma session_parts_live ps :
  runtime_parts_from_session (session_user_parts ps) = runtime_parts_from_kernel ps.
Proof.
  unfold runtime_parts_from_session, session_user_parts, runtime_parts_from_kernel.
  rewrite <- list_fmap_compose. apply list_fmap_ext. by intros _ [] _.
Qed.

Lemma batch_blocks_live bs :
  model_blocks_from_session (batch_block <$> bs) = model_blocks_from_kernel bs.
Proof.
  unfold model_blocks_from_session, model_blocks_from_kernel.
  rewrite <- list_fmap_compose. apply list_fmap_ext. by intros _ [] _.
Qed.

Lemma batch_blocks_ids bs :
  tool_call_ids_from_session (batch_block <$> bs) = kernel.call_id <$> filter_map kernel.block_call bs.
Proof. by rewrite <- filter_map_model_calls, batch_blocks_live, filter_map_kernel_calls. Qed.

Lemma final_blocks_live out :
  kernel.contains_tool_call out = false →
  model_blocks_from_session (filter_map final_block (kernel.blocks out))
    = model_blocks_from_kernel (kernel.blocks out).
Proof.
  intros H%contains_tool_call_false. unfold model_blocks_from_session, model_blocks_from_kernel.
  unfold filter_map. induction H as [|[text|call] bs Hb _ IH]; [done| |done].
  simpl. by f_equal.
Qed.

(** The message an entry puts in the context. *)
Definition history_step (s : list ModelMessage * list ToolCallId) (k : session.SessionEntryKind) :=
  match message_of k with Some m => context_message_step s m | None => s end.

Lemma history_results tid rs ks out pending :
  Forall2 (records tid) (kernel.ToolResult <$> rs) ks → length rs = length pending →
  foldl history_step (out, pending) ks = (out ++ turn_messages (kernel.ToolResult <$> rs), []).
Proof.
  revert ks out pending. induction rs as [|r rs IH]; intros ks out [|id pending] H Hl; try done.
  - apply Forall2_nil_inv_l in H as ->. simpl. by rewrite app_nil_r.
  - rewrite fmap_cons in H. apply Forall2_cons_inv_l in H as (k&ks'&Hk&H&->).
    inversion Hk as [| |bid call res|]; subst. cbn [foldl].
    unfold history_step at 2. simpl. rewrite (IH ks'); [|done|by injection Hl].
    rewrite <- app_assoc. unfold turn_messages. simpl. by destruct res.
Qed.

Lemma history_turn tid tr ks out pending :
  paired tr → Forall2 (records tid) tr ks →
  foldl history_step (out, pending) ks
    = ((flush_interrupted_placeholders out pending).1 ++ turn_messages tr, []).
Proof.
  intros Htr. revert ks. induction Htr as [u|tr b bs rs _ IH _ Hm]; intros ks H.
  - apply Forall2_cons_inv_l in H as (k&ks'&Hk&->%Forall2_nil_inv_l&->).
    inversion Hk; subst. simpl. unfold history_step. simpl. by rewrite session_parts_live.
  - apply Forall2_app_inv_l in H as (ks1&ks2&H1&H2&->).
    apply Forall2_cons_inv_l in H2 as (k&ks3&Hk&H3&->).
    rewrite foldl_app, (IH _ H1). cbn [foldl]. inversion Hk as [|mid ? ?| |]; subst.
    unfold history_step at 2. simpl. rewrite batch_blocks_live, batch_blocks_ids, app_nil_r.
    apply matching_results_true in Hm.
    rewrite (history_results tid rs); [|done|by rewrite Hm, length_fmap].
    unfold turn_messages. rewrite fmap_app, fmap_cons. simpl. by rewrite <- !app_assoc.
Qed.

Lemma history_between tid tr ks out pending :
  between_rounds tr → Forall2 (records tid) tr ks →
  foldl history_step (out, pending) ks
    = ((flush_interrupted_placeholders out pending).1 ++ turn_messages tr, []).
Proof.
  intros [tr' Htr|tr' o Htr] H; [by eapply history_turn|].
  apply Forall2_app_inv_l in H as (ks1&ks2&H1&H2&->).
  apply Forall2_cons_inv_l in H2 as (k&ks3&Hk&->%Forall2_nil_inv_l&->).
  rewrite foldl_app, (history_turn _ _ _ _ _ Htr H1). inversion Hk as [| | |? Ho]; subst.
  simpl. unfold history_step. simpl. rewrite (final_blocks_live _ Ho), app_nil_r.
  unfold turn_messages. rewrite fmap_app. simpl. by rewrite app_assoc.
Qed.

Lemma history_steps s ks :
  foldl history_step s ks = foldl context_message_step s (filter_map message_of ks).
Proof.
  revert s. unfold filter_map. induction ks as [|k ks IH]; intros s; [done|]. simpl.
  unfold history_step at 2. destruct (message_of k); simpl; apply IH.
Qed.

Lemma context_messages_app ms ks tid tr :
  between_rounds tr → Forall2 (records tid) tr ks →
  context_messages_of (ms ++ filter_map message_of ks) = context_messages_of ms ++ turn_messages tr.
Proof.
  intros Htr H. unfold context_messages_of. rewrite foldl_app.
  destruct (foldl context_message_step ([], []) ms) as [out pending].
  rewrite <- history_steps, (history_between _ _ _ _ _ Htr H). simpl. by rewrite app_nil_r.
Qed.

Lemma log_context_app sid L L' c :
  linear_log sid (L ++ L') → ctx_refines L c → compactions L' = [] →
  log_context (L ++ L') = log_context L ++ log_messages L'.
Proof.
  intros Hlin Hctx HL'. unfold log_context.
  assert (compactions (L ++ L') = compactions L) as ->.
  { unfold compactions in *. rewrite filter_map_app, HL'. apply app_nil_r. }
  assert (log_messages (L ++ L') = log_messages L ++ log_messages L') as Happ
    by apply filter_map_app.
  pose proof (ctx_compaction _ _ Hctx) as Hc.
  destruct (last (compactions L)) as [[summary covers]|]; [|done].
  destruct Hc as (b&Hb&_). apply (ctx_boundaries _ _ Hctx) in Hb as (i&(e&He&Hid&_)&_).
  pose proof (lookup_lt_Some _ _ _ He) as Hlt.
  assert ((L ++ L') !! i = Some e) as He' by by rewrite lookup_app_l.
  pose proof (linear_log_NoDup _ _ Hlin) as Hnd.
  rewrite <- Hid, (entries_after_spec _ _ _ Hnd He').
  rewrite fmap_app in Hnd. apply NoDup_app in Hnd as (Hnd&_).
  rewrite (entries_after_spec _ _ _ Hnd He), drop_app_le by lia.
  simpl. f_equal. apply filter_map_app.
Qed.

(** ** Properties *)

(** C37: every model request is a history a provider accepts: when the turns of
    the session log did not overlap, the request built from the session's view
    and the transcript of the running turn has each assistant message directly
    followed by one result per tool call, in order, and no other result -
    whatever was cancelled, abandoned or compacted before. *)
Theorem history_answers_every_call sid Ls p v turn tr :
  session_log sid Ls p →
  one_turn_at_a_time session.lifecycle_default (session.entry_kind <$> concat Ls) →
  session.context_view p sid = Ok v → snap_context_messages turn = context_messages v →
  paired tr →
  answered (build_messages turn tr).
Proof.
  intros Hlog Hone Hv Hturn Htr. unfold build_messages. rewrite Hturn.
  apply answered_plain; [done|]. apply answered_app; [|by apply turn_messages_answered].
  destruct (log_context_pending _ _ _ Hlog Hone) as [pending Hp].
  unfold context_messages. rewrite (view_log_context _ _ _ _ Hlog Hv).
  by eapply context_messages_answered.
Qed.

(** the history is append-only. What a turn showed the model live is what
    later turns replay from the log: when the entries committed since the view
    [v] record the transcript [tr] between rounds or at its end, the next
    turn's requests are the last request of this turn followed by the next
    transcript, compactions before [v] included. *)
Theorem history_is_append_only sid Ls p v Ls' p' v' tid tr ks turn turn' tr' :
  session_log sid Ls p → session.context_view p sid = Ok v →
  session_log sid (Ls ++ Ls') p' → session.context_view p' sid = Ok v' →
  compactions (concat Ls') = [] →
  filter (λ k, is_Some (message_of k)) (session.entry_kind <$> concat Ls') = ks →
  between_rounds tr → Forall2 (records tid) tr ks →
  snap_context_messages turn = context_messages v →
  snap_context_messages turn' = context_messages v' →
  snap_system_prompt turn' = snap_system_prompt turn →
  build_messages turn' tr' = build_messages turn tr ++ turn_messages tr'.
Proof.
  intros Hlog Hv Hlog' Hv' Hcomp Hks Htr Hrec Hturn Hturn' Hsys.
  pose proof (session_log_refines _ _ _ Hlog) as [_ _ _ Hctx _].
  pose proof (session_log_refines _ _ _ Hlog') as [Hlin _ _ _ _].
  unfold build_messages. rewrite Hturn, Hturn', Hsys. simpl. rewrite <- app_assoc. f_equal.
  rewrite app_assoc. f_equal. unfold context_messages.
  rewrite (view_log_context _ _ _ _ Hlog Hv), (view_log_context _ _ _ _ Hlog' Hv').
  rewrite concat_app in *. rewrite (log_context_app _ _ _ _ Hlin Hctx Hcomp).
  rewrite log_messages_kinds, <- (context_messages_app _ ks tid) by done. f_equal. f_equal.
  subst ks. clear. unfold filter_map. induction (session.entry_kind <$> concat Ls') as [|k ks IH];
    [done|]. rewrite filter_cons. case_decide as Hk; simpl.
  - destruct (message_of k); [by f_equal|by destruct Hk].
  - destruct (message_of k); [by destruct Hk|done].
Qed.

(** ** A concrete session *)
Module demo_history.
Definition gen : GenerationConfig :=
  {| max_output_tokens := 0; temperature := f32_of_u64 0; reasoning_effort := None;
     tool_choice := ChoiceAuto |}.
Definition snapshot (v : session.SessionContextView) : TurnSnapshot :=
  {| snap_session_id := "s"; snap_session_revision := session.view_revision v;
     snap_context_messages := context_messages v; snap_system_prompt := "be brief";
     snap_model_target := "m"; snap_generation := gen; snap_tools := [];
     snap_max_tool_rounds := 4; snap_max_parallel_tool_calls := 1 |}.

Definition view_or (p : session.SessionProjection) : session.SessionContextView :=
  match session.context_view p "s" with
  | Ok v => v
  | _ => {| session.view_session_id := ""; session.view_revision := 0;
            session.view_current_leaf := None; session.view_title := None;
            session.view_messages := []; session.view_open_turns := [];
            session.view_settled_turns := []; session.view_settled_turn_boundaries := [];
            session.view_latest_compaction_boundary := None; session.view_latest_usage := None;
            session.view_latest_generation := None |}
  end.
Definition v0 := Eval vm_compute in view_or session.empty.
Definition v4 := Eval vm_compute in view_or (session.applied_projection SessionProofs.demo.a4).
Definition v5 := Eval vm_compute in view_or (session.applied_projection SessionProofs.demo.a5).

Definition call (id : string) : kernel.KernelToolCall :=
  {| kernel.call_id := id; kernel.call_name := "read"; kernel.call_arguments := "{}" |}.
Definition hello : kernel.TurnMessage :=
  kernel.User {| kernel.parts := [kernel.UserText "hello"] |}.
Definition calls : list kernel.AssistantBlock :=
  [kernel.TextBlock "look"; kernel.ToolCallBlock (call "a"); kernel.ToolCallBlock (call "b")].
Definition round : list kernel.TurnMessage :=
  kernel.AssistantToolCalls "t:tool-batch:1" calls
  :: (kernel.ToolResult <$> [kernel_result (call "a") (tools.Success "1");
                             kernel_result (call "b") (tools.Error "e" "2")]).
Definition output : kernel.AssistantOutput :=
  {| kernel.blocks := [kernel.TextBlock "done"]; kernel.unsupported := false |}.
Definition done_message : kernel.TurnMessage := kernel.Assistant output.

Lemma paired_turn : paired ([hello] ++ round).
Proof. apply paired_round; [constructor|vm_compute; reflexivity..]. Qed.

Lemma recorded : Forall2 (records "t") (([hello] ++ round) ++ [done_message])
  (filter (λ k, is_Some (message_of k))
     (SessionProofs.demo.start ++ SessionProofs.demo.tools ++ SessionProofs.demo.answers
      ++ SessionProofs.demo.finish)).
Proof.
  vm_compute. constructor; [apply records_user|].
  constructor; [apply (records_batch "t" "t:model-call:1" "t:tool-batch:1" calls)|].
  constructor; [apply (records_result _ _ (call "a") (tools.Success "1"))|].
  constructor; [apply (records_result _ _ (call "b") (tools.Error "e" "2"))|].
  constructor; [|constructor]. by apply (records_assistant "t" output).
Qed.
End demo_history.

Lemma history_answers_every_call_witness :
  let turn := demo_history.snapshot demo_history.v5 in
  snap_context_messages turn = [ModelSummary "summary"] ∧
  answered (build_messages turn ([demo_history.hello] ++ demo_history.round)).
Proof.
  split; [vm_compute; reflexivity|].
  apply (history_answers_every_call "s" SessionProofs.demo.log
           (session.applied_projection SessionProofs.demo.a5) demo_history.v5).
  - apply demo_log.
  - apply one_turn_check_sound. vm_compute. reflexivity.
  - vm_compute. reflexivity.
  - reflexivity.
  - apply demo_history.paired_turn.
Defined.

Lemma history_is_append_only_witness :
  build_messages (demo_history.snapshot demo_history.v4) [demo_history.hello]
  = build_messages (demo_history.snapshot demo_history.v0)
      (([demo_history.hello] ++ demo_history.round) ++ [demo_history.done_message])
    ++ turn_messages [demo_history.hello].
Proof.
  apply (history_is_append_only "s" [] session.empty demo_history.v0
           (take 4 SessionProofs.demo.log)
           (session.applied_projection SessionProofs.demo.a4) demo_history.v4 "t"
           _ _ _ _ _ (log_empty _) eq_refl demo_log_first4 eq_refl eq_refl eq_refl
           (between_done _ _ demo_history.paired_turn)); [|reflexivity..].
  apply demo_history.recorded.
Defined.

End history.
