(* ===== verification/Operation.v ===== *)
(** The state shared between the driver of one operation and the coordinator
    (src/crates/philo-agent-runtime/src/operation/shared.rs).

    Module [operation] has the record and its methods as functions on it. A
    method that reads the clock takes the instant as an argument; the channel
    to the coordinator and the transient driver state are the sequences of
    what was sent to them.

    The runtime's small state machines: the retry backoff, the cancel latch and
    the settlement of an operation. *)

From S2P Require Import Prelude RustStr Kernel Session Tools Runtime.
Import runtime.

Module operation.

Abbreviation CancelReason := session.CancelReason.

(** Calls made on the transient driver state, in order. *)
Inductive transient_call : Type :=
| PublishAgent (event : AgentEvent)
| PublishPhase (phase : OperationPhase)
| SealModelStream.

(** [events] are the events sent to the coordinator, [transient] the calls on
    the transient state. *)
Record OperationShared : Type := {
  operation_id : OperationId;
  turn_id : TurnId;
  cancel_requested : bool;
  tool_cancel : bool;
  cancel_reason_slot : option CancelReason;
  deadline : option Z;
  phase : OperationPhase;
  exit : option DriverExit;
  failure : option AgentFailure;
  events : list AgentEvent;
  transient : list transient_call;
  settlement_revision : option SettlementRevision;
  last_usage : option TokenUsage
}.

Definition shared_new (operation_id : OperationId) (turn_id : TurnId) (phase : OperationPhase)
    : OperationShared :=
  {| operation_id := operation_id; turn_id := turn_id; cancel_requested := false;
     tool_cancel := false; cancel_reason_slot := None; deadline := None; phase := phase;
     exit := None; failure := None; events := []; transient := []; settlement_revision := None;
     last_usage := None |}.

Definition is_transient_agent (event : AgentEvent) : bool :=
  match event with
  | EvTextDelta _ | EvReasoningDelta _ _ | EvModelUsageUpdated _ _
  | EvToolExecutionProgress _ _ _ _ => true
  | _ => false
  end.

Definition with_cancel (sh : OperationShared) (reason : CancelReason) : OperationShared :=
  {| operation_id := operation_id sh; turn_id := turn_id sh; cancel_requested := true;
     tool_cancel := true; cancel_reason_slot := Some reason; deadline := deadline sh;
     phase := phase sh; exit := exit sh; failure := failure sh; events := events sh;
     transient := transient sh; settlement_revision := settlement_revision sh;
     last_usage := last_usage sh |}.
Definition with_deadline (sh : OperationShared) (d : option Z) : OperationShared :=
  {| operation_id := operation_id sh; turn_id := turn_id sh;
     cancel_requested := cancel_requested sh; tool_cancel := tool_cancel sh;
     cancel_reason_slot := cancel_reason_slot sh; deadline := d;
     phase := phase sh; exit := exit sh; failure := failure sh; events := events sh;
     transient := transient sh; settlement_revision := settlement_revision sh;
     last_usage := last_usage sh |}.
Definition with_phase (sh : OperationShared) (p : OperationPhase) : OperationShared :=
  {| operation_id := operation_id sh; turn_id := turn_id sh;
     cancel_requested := cancel_requested sh; tool_cancel := tool_cancel sh;
     cancel_reason_slot := cancel_reason_slot sh; deadline := deadline sh;
     phase := p; exit := exit sh; failure := failure sh; events := events sh;
     transient := transient sh; settlement_revision := settlement_revision sh;
     last_usage := last_usage sh |}.
Definition with_exit (sh : OperationShared) (e : option DriverExit) (f : option AgentFailure)
    : OperationShared :=
  {| operation_id := operation_id sh; turn_id := turn_id sh;
     cancel_requested := cancel_requested sh; tool_cancel := tool_cancel sh;
     cancel_reason_slot := cancel_reason_slot sh; deadline := deadline sh;
     phase := phase sh; exit := e; failure := f; events := events sh;
     transient := transient sh; settlement_revision := settlement_revision sh;
     last_usage := last_usage sh |}.
Definition with_event (sh : OperationShared) (event : AgentEvent) : OperationShared :=
  {| operation_id := operation_id sh; turn_id := turn_id sh;
     cancel_requested := cancel_requested sh; tool_cancel := tool_cancel sh;
     cancel_reason_slot := cancel_reason_slot sh; deadline := deadline sh;
     phase := phase sh; exit := exit sh; failure := failure sh; events := events sh ++ [event];
     transient := transient sh; settlement_revision := settlement_revision sh;
     last_usage := last_usage sh |}.
Definition with_transient (sh : OperationShared) (call : transient_call) : OperationShared :=
  {| operation_id := operation_id sh; turn_id := turn_id sh;
     cancel_requested := cancel_requested sh; tool_cancel := tool_cancel sh;
     cancel_reason_slot := cancel_reason_slot sh; deadline := deadline sh;
     phase := phase sh; exit := exit sh; failure := failure sh; events := events sh;
     transient := transient sh ++ [call]; settlement_revision := settlement_revision sh;
     last_usage := last_usage sh |}.
Definition with_revision (sh : OperationShared) (r : SettlementRevision) : OperationShared :=
  {| operation_id := operation_id sh; turn_id := turn_id sh;
     cancel_requested := cancel_requested sh; tool_cancel := tool_cancel sh;
     cancel_reason_slot := cancel_reason_slot sh; deadline := deadline sh;
     phase := phase sh; exit := exit sh; failure := failure sh; events := events sh;
     transient := transient sh; settlement_revision := Some r;
     last_usage := last_usage sh |}.
Definition with_usage (sh : OperationShared) (usage : TokenUsage) : OperationShared :=
  {| operation_id := operation_id sh; turn_id := turn_id sh;
     cancel_requested := cancel_requested sh; tool_cancel := tool_cancel sh;
     cancel_reason_slot := cancel_reason_slot sh; deadline := deadline sh;
     phase := phase sh; exit := exit sh; failure := failure sh; events := events sh;
     transient := transient sh; settlement_revision := settlement_revision sh;
     last_usage := Some usage |}.

(** [OperationShared::publish]. *)
Definition publish (sh : OperationShared) (event : AgentEvent) : OperationShared :=
  if is_transient_agent event then
    let sh := match event with EvModelUsageUpdated _ usage => with_usage sh usage | _ => sh end in
    with_transient sh (PublishAgent event)
  else
    let sh := match event with EvOperationSettled _ _ _ r => with_revision sh r | _ => sh end in
    with_event (with_transient sh SealModelStream) event.

Definition set_phase (sh : OperationShared) (p : OperationPhase) : OperationShared :=
  with_transient (with_phase sh p) (PublishPhase p).

(** [request_cancel]: the first reason wins. *)
Definition request_cancel (sh : OperationShared) (reason : CancelReason) : OperationShared :=
  match cancel_reason_slot sh with
  | None => with_cancel sh reason
  | Some _ => sh
  end.

Definition cancel_reason (sh : OperationShared) : CancelReason :=
  default session.ReasonUser (cancel_reason_slot sh).

Definition arm_deadline (sh : OperationShared) (timeout : option Z) (now : Z) : OperationShared :=
  with_deadline sh ((λ timeout, now + timeout)%Z <$> timeout).

(** [is_cancel_requested] at the instant [now]. *)
Definition poll_cancel (sh : OperationShared) (now : Z) : OperationShared :=
  if negb (cancel_requested sh)
     && match deadline sh with Some d => bool_decide (d ≤ now)%Z | None => false end
  then request_cancel sh session.ReasonTimeout else sh.

Definition is_settled (p : OperationPhase) : bool :=
  match p with Settled _ => true | _ => false end.

Definition status_of (out : OperationOutcome) : OperationStatus :=
  match out with
  | OutSucceeded _ => Succeeded
  | OutFailed _ _ => Failed
  | OutCancelled => Cancelled
  end.

Definition exit_of (out : OperationOutcome) : DriverExit :=
  match out with
  | OutSucceeded _ => ExitSucceeded
  | OutFailed _ Confirmed => ExitFailedConfirmed
  | OutFailed _ Unconfirmed => ExitFailedUnconfirmed
  | OutCancelled => ExitCancelledConfirmed
  end.

(** [OperationShared::settle]: once; [false] from the second call on. *)
Definition settle (sh : OperationShared) (out : OperationOutcome) : OperationShared * bool :=
  if is_settled (phase sh) then (sh, false)
  else
    let sh := with_phase sh (Settled (status_of out)) in
    let f := match out with OutFailed f _ => Some f | _ => failure sh end in
    (with_exit sh (Some (exit_of out)) f, true).

Definition take_exit (sh : OperationShared) : OperationShared * DriverExit :=
  (with_exit sh None (failure sh), default (ExitAborted "driver-missing-exit") (exit sh)).

End operation.

Import runtime operation.
From Stdlib Require Import Lia.

Module runtime_proofs.

(** ** The retry backoff *)

(** The delay before jitter: the base doubled per retry, at most 16 times,
    capped. *)
Definition undithered (self : RecoveryConfig) (retry : Z) : Z :=
  Z.min (backoff_base_ms self * 2 ^ Z.min (retry - 1) 16)
        (Z.max (backoff_max_ms self) (backoff_base_ms self)).

Definition in_u64 (z : Z) : Prop := (0 ≤ z ≤ u64_max)%Z.

Record config_ok (self : RecoveryConfig) : Prop := {
  base_u64 : in_u64 (backoff_base_ms self);
  max_u64 : in_u64 (backoff_max_ms self)
}.

Lemma saturated_cap a b cap :
  in_u64 cap → Z.min (saturating_mul a b) cap = Z.min (a * b) cap.
Proof. unfold saturating_mul, in_u64. lia. Qed.

Lemma jitter_offset state seed bound :
  (0 < bound)%Z → (0 ≤ (backoff_jitter state seed bound).2 < bound)%Z.
Proof.
  intros Hb. unfold backoff_jitter. simpl. rewrite Z.max_l by lia.
  pose proof (Z.mod_pos_bound (jitter_step state seed) bound Hb) as [H1 H2].
  pose proof (Z.mod_pos_bound (jitter_step state seed mod bound) (2 ^ 32)) as [H3 _]; [lia|].
  pose proof (Z.mod_le (jitter_step state seed mod bound) (2 ^ 32)) as H4. lia.
Qed.

Lemma undithered_range self retry :
  config_ok self → (1 ≤ retry)%Z →
  (0 ≤ undithered self retry ≤ Z.max (backoff_max_ms self) (backoff_base_ms self))%Z.
Proof.
  intros [[? ?] [? ?]] Hr. unfold undithered.
  assert (0 < 2 ^ Z.min (retry - 1) 16)%Z by (apply Z.pow_pos_nonneg; lia). nia.
Qed.

Lemma backoff_bounded self retry :
  config_ok self → (1 ≤ retry)%Z →
  Z.min (saturating_mul (backoff_base_ms self)
           (Z.shiftl 1 (Z.min (Z.max (retry - 1) 0) 16)))
        (Z.max (backoff_max_ms self) (backoff_base_ms self)) = undithered self retry.
Proof.
  intros [Hb Hm] Hr. rewrite saturated_cap by (unfold in_u64 in *; lia).
  unfold undithered. rewrite Z.shiftl_1_l. by rewrite (Z.max_l (retry - 1)) by lia.
Qed.

(** The wait before a retry: for every generator state and clock, it is
    the base doubled per retry up to the cap, less a jitter of less than a
    quarter of it; it never exceeds the cap or leaves [u64], the undithered
    delay does not shrink from one retry to the next, and a configured base
    of at least one millisecond never gives a zero wait. *)
Theorem backoff_delay_bounds self state seed retry :
  config_ok self → (1 ≤ retry)%Z →
  let delay := (backoff_delay self state seed retry).2 in
  let full := undithered self retry in
  (full - full / 4 ≤ delay ≤ full)%Z ∧
  in_u64 delay ∧ (delay ≤ Z.max (backoff_max_ms self) (backoff_base_ms self))%Z ∧
  (undithered self retry ≤ undithered self (retry + 1))%Z ∧
  (0 < backoff_base_ms self → 0 < delay)%Z.
Proof.
  intros Hok Hr. pose proof (undithered_range _ _ Hok Hr) as Hu.
  assert (undithered self retry ≤ undithered self (retry + 1))%Z as Hmono.
  { unfold undithered. destruct Hok as [[? ?] _].
    pose proof (Z.pow_le_mono_r 2 (Z.min (retry - 1) 16) (Z.min (retry + 1 - 1) 16)). nia. }
  assert (0 < backoff_base_ms self → 0 < undithered self retry)%Z as Hpos.
  { unfold undithered. intros. destruct Hok as [_ [? ?]].
    assert (0 < 2 ^ Z.min (retry - 1) 16)%Z by (apply Z.pow_pos_nonneg; lia). nia. }
  destruct Hok as [[? ?] [? ?]].
  assert ((undithered self retry - undithered self retry / 4
          ≤ (backoff_delay self state seed retry).2 ≤ undithered self retry)%Z
          ∧ (0 < undithered self retry → 0 < (backoff_delay self state seed retry).2)%Z)
    as [Hd Hd0].
  { unfold backoff_delay. rewrite backoff_bounded by done.
    destruct (Z.eqb_spec (undithered self retry / 4) 0) as [->|Hj]; cbn [snd]; [lia|].
    assert (0 ≤ undithered self retry / 4)%Z as Hq0 by (apply Z.div_pos; lia).
    assert (0 < undithered self retry / 4)%Z as Hq by lia.
    pose proof (jitter_offset state seed _ Hq) as Ho.
    destruct (backoff_jitter _ _ _) as [s o]; cbn [snd] in *.
    pose proof (Z.mul_div_le (undithered self retry) 4 ltac:(lia)). split; [lia|]. intros. lia. }
  assert (0 ≤ undithered self retry / 4 ≤ undithered self retry)%Z.
  { pose proof (Z.mul_div_le (undithered self retry) 4 ltac:(lia)).
    assert (0 ≤ undithered self retry / 4)%Z by (apply Z.div_pos; lia). lia. }
  unfold in_u64 in *. cbv zeta. split_and!; auto; lia.
Qed.

(** ** Calls on the shared state *)
Inductive op_call : Type :=
| CallPublish (event : AgentEvent)
| CallPhase (p : OperationPhase)
| CallCancel (reason : CancelReason)
| CallPoll (now : Z)
| CallArm (timeout : option Z) (now : Z)
| CallSettle (out : OperationOutcome).

Definition run_call (sh : OperationShared) (c : op_call) : OperationShared :=
  match c with
  | CallPublish event => publish sh event
  | CallPhase p => set_phase sh p
  | CallCancel reason => request_cancel sh reason
  | CallPoll now => poll_cancel sh now
  | CallArm timeout now => arm_deadline sh timeout now
  | CallSettle out => (settle sh out).1
  end.

Definition run_calls (sh : OperationShared) (cs : list op_call) : OperationShared :=
  foldl run_call sh cs.

(** The specification of the latch: the deadline in force and the first
    request, a poll at or after the deadline being a request. *)
Definition requested (d : option Z) (c : op_call) : option CancelReason :=
  match c with
  | CallCancel reason => Some reason
  | CallPoll now =>
      d ← d; if bool_decide (d ≤ now)%Z then Some session.ReasonTimeout else None
  | _ => None
  end.

Definition armed (d : option Z) (c : op_call) : option Z :=
  match c with CallArm timeout now => (λ t, now + t)%Z <$> timeout | _ => d end.

Fixpoint first_request (d : option Z) (cs : list op_call) : option CancelReason :=
  match cs with
  | [] => None
  | c :: cs =>
      match requested d c with Some r => Some r | None => first_request (armed d c) cs end
  end.

Record latch (sh : OperationShared) (r : option CancelReason) (d : option Z) : Prop := {
  latch_slot : cancel_reason_slot sh = r;
  latch_flag : cancel_requested sh = session.is_some r;
  latch_tool : tool_cancel sh = session.is_some r;
  latch_deadline : deadline sh = d
}.

Lemma latch_call sh r d c :
  latch sh r d →
  latch (run_call sh c) (match r with Some r => Some r | None => requested d c end) (armed d c).
Proof.
  intros [Hs Hf Ht Hd]. destruct c as [event|p|reason|now|timeout now|out]; simpl.
  - unfold publish. destruct (is_transient_agent event), event; by destruct r.
  - by destruct r.
  - unfold request_cancel. rewrite Hs. by destruct r.
  - unfold poll_cancel, request_cancel. rewrite Hf, Hd, Hs.
    destruct r as [r|]; simpl; [by split|]. destruct d as [d|]; simpl; [|by split].
    by case_bool_decide; split.
  - by destruct r.
  - unfold settle. destruct (is_settled _); by destruct r.
Qed.

Lemma latch_calls cs sh r d :
  latch sh r d →
  ∃ d', latch (run_calls sh cs)
          (match r with Some r => Some r | None => first_request d cs end) d'.
Proof.
  revert sh r d. induction cs as [|c cs IH]; intros sh r d H; simpl.
  { exists d. by destruct r. }
  apply (latch_call _ _ _ c), IH in H as (d'&H). exists d'. destruct r; [done|].
  by destruct (requested d c).
Qed.

(** The cancel latch of an operation: whatever the driver and the
    coordinator call, in whatever order, the reason reported is that of the
    first request - a poll that finds the armed deadline passed is a timeout
    request - later requests change nothing, and the operation's flag, the
    tools' flag and the recorded reason always agree. *)
Theorem operation_cancel_latched op tid p cs :
  let sh := run_calls (shared_new op tid p) cs in
  cancel_reason_slot sh = first_request None cs ∧
  cancel_requested sh = session.is_some (first_request None cs) ∧
  tool_cancel sh = cancel_requested sh.
Proof.
  intros sh. destruct (latch_calls cs (shared_new op tid p) None None) as (d&[Hs Hf Ht _]);
    [by split|]. fold sh in Hs, Hf, Ht. by rewrite Hs, Hf, Ht.
Qed.

(** ** Settlement *)
Definition settlement_call (c : op_call) : option OperationOutcome :=
  match c with CallSettle out => Some out | _ => None end.

(** The driver moves the phase only before it settles, and never to a settled
    phase. *)
Fixpoint disciplined (settled : bool) (cs : list op_call) : bool :=
  match cs with
  | [] => true
  | CallPhase p :: cs => negb settled && negb (is_settled p) && disciplined settled cs
  | CallSettle _ :: cs => disciplined true cs
  | _ :: cs => disciplined settled cs
  end.

Definition failure_of (out : OperationOutcome) : option AgentFailure :=
  match out with OutFailed f _ => Some f | _ => None end.

Record settled_as (sh : OperationShared) (out : option OperationOutcome) : Prop := {
  as_phase : match out with
    | Some out => phase sh = Settled (status_of out)
    | None => is_settled (phase sh) = false
    end;
  as_exit : exit sh = exit_of <$> out;
  as_failure : failure sh = out ≫= failure_of
}.

Lemma settled_call sh out c cs :
  settled_as sh out → disciplined (session.is_some out) (c :: cs) = true →
  settled_as (run_call sh c) (match out with Some o => Some o | None => settlement_call c end) ∧
  disciplined (session.is_some (match out with Some o => Some o | None => settlement_call c end)) cs = true.
Proof.
  intros [Hp He Hf] Hd. destruct c as [event|p|reason|now|timeout now|o]; simpl in *.
  - split; [|by destruct out].
    unfold publish. destruct (is_transient_agent event), event; destruct out; by split.
  - rust_bool. destruct Hd as [[Hn Hs] Hd]. destruct out; [done|]. split; [|done].
    by split; simpl.
  - split; [|by destruct out]. unfold request_cancel.
    destruct (cancel_reason_slot sh); destruct out; by split.
  - split; [|by destruct out]. unfold poll_cancel, request_cancel.
    destruct (_ && _), (cancel_reason_slot sh); destruct out; by split.
  - split; [|by destruct out]. destruct out; by split.
  - unfold settle. destruct out as [out|]; simpl in *.
    + rewrite Hp. simpl. by split.
    + rewrite Hp. simpl. split; [|done]. split; simpl; [done..|]. by destruct o.
Qed.

Lemma settled_calls cs sh out :
  settled_as sh out → disciplined (session.is_some out) cs = true →
  settled_as (run_calls sh cs)
    (match out with Some o => Some o | None => find_map settlement_call cs end).
Proof.
  revert sh out. induction cs as [|c cs IH]; intros sh out H Hd; simpl; [by destruct out|].
  destruct (settled_call _ _ _ _ H Hd) as [H' Hd']. specialize (IH _ _ H' Hd').
  destruct out; [done|]. by destruct (settlement_call c).
Qed.

(** An operation settles once: under any interleaving of publications,
    cancel requests, polls and settlement attempts, the phase, the exit and
    the failure are those of the first settlement; a later attempt returns
    [false] and changes nothing. *)
Theorem operation_settles_once op tid p cs out :
  is_settled p = false → disciplined false cs = true →
  let sh := run_calls (shared_new op tid p) cs in
  match find_map settlement_call cs with
  | Some first =>
      phase sh = Settled (status_of first) ∧ (take_exit sh).2 = exit_of first ∧
      failure sh = failure_of first ∧ settle sh out = (sh, false)
  | None => is_settled (phase sh) = false ∧ exit sh = None ∧ (settle sh out).2 = true
  end.
Proof.
  intros Hp Hd sh.
  pose proof (settled_calls cs (shared_new op tid p) None) as H. simpl in H.
  destruct H as [H1 H2 H3]; [by split|done|]. fold sh in H1, H2, H3.
  unfold settle, take_exit. destruct (find_map settlement_call cs) as [first|]; simpl in *.
  - rewrite H1, H2. simpl. by rewrite H3.
  - by rewrite H1, H2.
Qed.

(** ** Concrete runs *)
Module demo_runtime.
Definition recovery : RecoveryConfig :=
  {| enabled := true; max_retries := 3; backoff_base_ms := 500; backoff_max_ms := 8000 |}.
Definition calls : list op_call :=
  [CallArm (Some 10%Z) 5; CallPhase Finalizing; CallPoll 14; CallCancel session.ReasonUser;
   CallSettle OutCancelled; CallPoll 20; CallSettle (OutSucceeded {| content := "late" |})].
End demo_runtime.

Lemma backoff_delay_bounds_witness :
  let delay := (backoff_delay demo_runtime.recovery 1 7 3).2 in
  undithered demo_runtime.recovery 3 = 2000%Z ∧ (1500 ≤ delay ≤ 2000)%Z.
Proof.
  split; [reflexivity|].
  apply (proj1 (backoff_delay_bounds demo_runtime.recovery 1 7 3 ltac:(by repeat split) ltac:(lia))).
Defined.

Lemma operation_settles_once_witness :
  let sh := run_calls (shared_new "op" "t" PreparingTurn) demo_runtime.calls in
  phase sh = Settled Cancelled ∧ (take_exit sh).2 = ExitCancelledConfirmed ∧
  failure sh = None ∧ settle sh OutCancelled = (sh, false).
Proof.
  apply (operation_settles_once "op" "t" PreparingTurn demo_runtime.calls OutCancelled);
    vm_compute; reflexivity.
Defined.

End runtime_proofs.
