(* ===== verification/Engine.v ===== *)
(** The turn engine (src/crates/philo-agent-runtime/src/engine/, operation/).

    Module [engine] translates the driver of one operation: the publisher, the
    cancellable model call with its
    recovery loop, compaction, sealing, tool batches, settlement and
    [drive_turn]. It is generic in the session store and in the environment
    [Env], which answers every question the code asks of the outside (the
    clock, cancel requests, the model and tool ports); an answer is indexed by
    the number of looks taken so far, so every behaviour of the outside is the
    behaviour of some [Env].

    The code runs in the monad [M]: a state [World], with [Panic] for a Rust
    panic and [Err OutOfFuel] for a loop that used up the fuel it was given. *)

From S2P Require Import Prelude RustStr Kernel Session SessionStore Tools Runtime.
From S2P Require Import RuntimeMapping Operation.
Import runtime mapping operation.

Module engine.

(** ** The environment *)

(** How one [ToolPort::invoke] ends: it returns, or it is still pending when
    the grace after a cancel request (for [reason]) has passed. *)
Inductive tool_answer : Type :=
| Returns (result : tools.ToolPortError + tools.ToolInvokeEnd)
| Outlives (reason : CancelReason).

(** Which of the in-flight calls becomes ready next, with its result, and
    whether a deadline, when there is one, passes first. *)
Record next_answer : Type := {
  ready_position : nat;
  ready_result : tools.ToolPortError + tools.ToolInvokeEnd;
  deadline_first : bool
}.

Abbreviation ModelStream := (list (ModelError + ModelEvent)).

Record Env : Type := {
  env_now : nat → Z;
  env_cancel : nat → option CancelReason;
  env_maintenance_cancel : nat → bool;
  env_start : nat → ModelCallSnapshot → ModelError + ModelStream;
  env_tool : nat → tools.ToolInvocation → tool_answer;
  env_next : nat → list nat → next_answer;
  env_jitter_seed : nat → Z;
  env_definitions : list tools.ToolDefinition
}.

(** ** engine/mod.rs: EngineContext and the monad *)

Record EngineContext : Type := {
  ctx_generation : RuntimeGeneration;
  has_maintenance_cancel : bool
}.

Definition config (ctx : EngineContext) : RuntimeConfig := runtime_config (ctx_generation ctx).

(** What a driver sees and holds. The store may be shared: what others commit to it
    between two calls is in the store's own state ([EngineLogic.recorder_store]). *)
Record World (St : Type) : Type := {
  store : St;
  shared : OperationShared;
  last_input_tokens : gmap SessionId Z;
  jitter : Z;
  tick : nat
}.
Arguments store {St} w : rename.
Arguments shared {St} w : rename.
Arguments last_input_tokens {St} w : rename.
Arguments jitter {St} w : rename.
Arguments tick {St} w : rename.

Inductive fuel_error : Type := OutOfFuel.

Definition M (St A : Type) : Type := World St → outcome fuel_error A * World St.

Definition ret {St A} (a : A) : M St A := λ w, (Ok a, w).
Definition bind {St A B} (m : M St A) (f : A → M St B) : M St B := λ w,
  match m w with
  | (Ok a, w) => f a w
  | (Err e, w) => (Err e, w)
  | (Panic, w) => (Panic, w)
  end.
Definition out_of_fuel {St A} : M St A := λ w, (Err OutOfFuel, w).

(** A Rust [Result] as a value; a panic is raised. *)
Definition attempt {St E A} (m : outcome E A) : M St (E + A) := λ w,
  match m with
  | Ok a => (Ok (inr a), w)
  | Err e => (Ok (inl e), w)
  | Panic => (Panic, w)
  end.

Notation "'let!' x ':=' c 'in' k" := (bind c (λ x, k))
  (at level 10, x pattern, c at level 100, k at level 200) : engine_scope.
Notation "c ;; k" := (bind c (λ _, k))
  (at level 100, k at level 200, right associativity) : engine_scope.
Open Scope engine_scope.

Definition set_store {St} (w : World St) (s : St) : World St :=
  {| store := s; shared := shared w; last_input_tokens := last_input_tokens w;
     jitter := jitter w; tick := tick w |}.
Definition set_shared {St} (w : World St) (sh : OperationShared) : World St :=
  {| store := store w; shared := sh; last_input_tokens := last_input_tokens w;
     jitter := jitter w; tick := tick w |}.
Definition set_tokens {St} (w : World St) (m : gmap SessionId Z) : World St :=
  {| store := store w; shared := shared w; last_input_tokens := m;
     jitter := jitter w; tick := tick w |}.
Definition set_jitter {St} (w : World St) (j : Z) : World St :=
  {| store := store w; shared := shared w; last_input_tokens := last_input_tokens w;
     jitter := j; tick := tick w |}.
Definition advance {St} (w : World St) : World St :=
  {| store := store w; shared := shared w; last_input_tokens := last_input_tokens w;
     jitter := jitter w; tick := S (tick w) |}.

Definition get_shared {St} : M St OperationShared := λ w, (Ok (shared w), w).
Definition update_shared {St} (f : OperationShared → OperationShared) : M St unit := λ w,
  (Ok tt, set_shared w (f (shared w))).

(** One look at the environment. *)
Definition look {St A} (f : nat → A) : M St A := λ w, (Ok (f (tick w)), advance w).


Section engine.
Context {St : Type} `{store.SessionStore St} `{Build} `{DebugSessionError}.
Context (env : Env).

Abbreviation M := (M St).

(** [ctx.sessions.commit(..)] and [ctx.sessions.context_view(..)]: the result
    is a value, a panic of the store is raised. *)
Definition commit (tx : session.SessionTransaction)
    : M (session.SessionError + session.SessionCommit) := λ w,
  let '(s, r) := store.store_commit (store w) tx in attempt r (set_store w s).
Definition context_view (session_id : session.SessionId)
    : M (session.SessionError + session.SessionContextView) := λ w,
  let '(s, r) := store.store_context_view (store w) session_id in attempt r (set_store w s).

Definition record_input_tokens (session_id : SessionId) (input_tokens : Z) : M unit := λ w,
  (Ok tt, set_tokens w (<[session_id := input_tokens]> (last_input_tokens w))).

Definition kernel_transition (state : kernel.KernelState) (input : kernel.KernelInput)
    : M (kernel.KernelInputRejection + kernel.KernelTransition) :=
  attempt (kernel.transition state input).

(** ** operation/publisher.rs *)

(** [OperationPublisher::is_cancel_requested]: the coordinator's requests that
    arrived since the last look, then the deadline. *)
Definition is_cancel_requested : M bool :=
  let! arrived := look (env_cancel env) in
  let! now := look (env_now env) in
  update_shared (λ sh,
    let sh := match arrived with Some reason => request_cancel sh reason | None => sh end in
    poll_cancel sh now) ;;
  let! sh := get_shared in
  ret (cancel_requested sh).

Definition push (event : AgentEvent) : M unit := update_shared (λ sh, publish sh event).

Definition op_set_phase (p : OperationPhase) : M unit := update_shared (λ sh, set_phase sh p).

(** [OperationPublisher::begin]. *)
Definition begin (operation_timeout : option Z) : M unit :=
  let! now := look (env_now env) in
  update_shared (λ sh, arm_deadline sh operation_timeout now) ;;
  let! sh := get_shared in
  push (EvOperationStarted (operation_id sh)) ;;
  op_set_phase PreparingTurn.

Definition turn_started : M unit :=
  let! sh := get_shared in push (EvTurnStarted (turn_id sh)).

Definition prior_turn_sealed (sealed : TurnId) : M unit := push (EvPriorTurnSealed sealed).

Definition cancellation_observed : M unit :=
  let! sh := get_shared in
  push (EvCancellationRequested (operation_id sh) (cancel_reason sh)).

Definition op_settle (out : OperationOutcome) : M bool := λ w,
  let '(sh, first) := settle (shared w) out in (Ok first, set_shared w sh).

Definition publish_settled (status : OperationStatus) (durability : SettlementDurability)
    (session_revision : SettlementRevision) : M unit :=
  let! sh := get_shared in
  push (EvOperationSettled (operation_id sh) status durability session_revision).

Definition succeed (assistant : AssistantMessage) (session_revision : session.SessionRevision)
    : M unit :=
  let! first := op_settle (OutSucceeded assistant) in
  if negb first then ret tt
  else
    let! sh := get_shared in
    push (EvAssistantMessageCompleted (turn_id sh) assistant) ;;
    publish_settled Succeeded Confirmed (Committed session_revision).

Definition fail_confirmed (failure : AgentFailure) (session_revision : session.SessionRevision)
    : M unit :=
  let! first := op_settle (OutFailed failure Confirmed) in
  if negb first then ret tt
  else
    let! sh := get_shared in
    push (EvTurnFailed (turn_id sh) failure) ;;
    publish_settled Failed Confirmed (Committed session_revision).

Definition publisher_fail (failure : AgentFailure) (durability : SettlementDurability)
    (session_revision : SettlementRevision) : M unit :=
  let! first := op_settle (OutFailed failure durability) in
  if negb first then ret tt else publish_settled Failed durability session_revision.

Definition fail_unconfirmed (failure : AgentFailure) : M unit :=
  publisher_fail failure Unconfirmed Unchanged.

Definition cancel_zero_trace : M unit :=
  let! first := op_settle OutCancelled in
  if negb first then ret tt else publish_settled Cancelled Confirmed Unchanged.

Definition cancel_committed (session_revision : session.SessionRevision) : M unit :=
  let! first := op_settle OutCancelled in
  if negb first then ret tt
  else
    let! sh := get_shared in
    push (EvTurnCancelled (turn_id sh) (cancel_reason sh)) ;;
    publish_settled Cancelled Confirmed (Committed session_revision).

(** ** engine/settlement.rs *)

(** The cursor of [TurnCx]; its dependencies are the section's parameters. *)
Record TurnCx : Type := {
  cx_session_id : session.SessionId;
  cx_revision : session.SessionRevision;
  cx_current_leaf : session.EntryId;
  cx_state : kernel.KernelState
}.

Context (ctx : EngineContext).

Definition generation_choice : session.SessionGenerationChoice :=
  session_generation_choice (ctx_generation ctx).

(** [TurnCx::fail]. *)
Definition cx_fail (cx : TurnCx) (effect_id : kernel.EffectId) (failure : AgentFailure)
    : M unit :=
  let! sh := get_shared in
  let usage := last_usage sh in
  let! termination :=
    kernel_transition (cx_state cx)
      (kernel.TerminationRequested effect_id (kernel_failure failure)) in
  match termination with
  | inl _ => fail_unconfirmed failure
  | inr termination =>
      let! entries :=
        attempt (failure_entries (kernel.observations termination) (operation_id sh)
                   (turn_id sh) usage generation_choice) in
      match entries with
      | inl _ => fail_unconfirmed failure
      | inr entries =>
          let! committed :=
            commit (session.linear (cx_session_id cx) (cx_revision cx) entries) in
          match committed with
          | inr c => fail_confirmed failure (session.commit_revision c)
          | inl error =>
              fail_unconfirmed (with_appended_diagnostic failure (describe_session_error error))
          end
      end
  end.

Fixpoint push_all (executed_events : list AgentEvent) : M unit :=
  match executed_events with
  | [] => ret tt
  | event :: executed_events => push event ;; push_all executed_events
  end.

Definition cancel_failure (error : session.SessionError) : AgentFailure :=
  commit_failure "engine.cancel_commit_failed" (MayDuplicate None) "committing cancellation" error.

(** [TurnCx::cancel]. *)
Definition cx_cancel (cx : TurnCx) (effect_id : kernel.EffectId)
    (completion_marks : list session.SessionEntryKind) (executed_events : list AgentEvent)
    : M unit :=
  let! accepted := kernel_transition (cx_state cx) (kernel.CancelRequested effect_id) in
  match accepted with
  | inl _ => cx_fail cx effect_id (invariant_failure "kernel rejected CancelRequested")
  | inr _ =>
      let! sh := get_shared in
      let reason := cancel_reason sh in
      let usage := last_usage sh in
      let entries := completion_marks ++
        [session.TurnTerminated (turn_id sh) (session.TurnCancelled reason);
         session.OperationSettled (operation_id sh) (session.OpCancelled reason)
           (session_usage <$> usage) (Some generation_choice)] in
      let! committed := commit (session.linear (cx_session_id cx) (cx_revision cx) entries) in
      match committed with
      | inr c => push_all executed_events ;; cancel_committed (session.commit_revision c)
      | inl error => cx_fail cx effect_id (cancel_failure error)
      end
  end.

Inductive BatchSlot : Type :=
| SlotDone (result : tools.RichToolResult)
| SlotStopped
| SlotUnstarted.

Definition completed_event (batch_id : kernel.ToolBatchId) (call : kernel.KernelToolCall)
    (index : nat) (rich : tools.RichToolResult) : AgentEvent :=
  EvToolExecutionCompleted batch_id (kernel.call_id call) index (kernel.call_name call)
    (tools.result rich) (tools.display rich).

(** The durable mark of one slot. *)
Definition slot_mark (turn_id : TurnId) (batch_id : kernel.ToolBatchId)
    (call : kernel.KernelToolCall) (slot : BatchSlot) : session.SessionEntryKind :=
  session.ToolResult turn_id batch_id
    (match slot with
     | SlotDone rich => session_result call (tools.result rich)
     | SlotStopped => {| session.result_call_id := kernel.call_id call;
                         session.result_outcome := session.ResultInterrupted |}
     | SlotUnstarted => {| session.result_call_id := kernel.call_id call;
                           session.result_outcome := session.ResultCancelled |}
     end).

Definition slot_event (batch_id : kernel.ToolBatchId)
    (item : nat * (kernel.KernelToolCall * BatchSlot)) : option AgentEvent :=
  match item.2.2 with
  | SlotDone rich => Some (completed_event batch_id item.2.1 item.1 rich)
  | _ => None
  end.

Definition cancellation_batch (turn_id : TurnId) (batch_id : kernel.ToolBatchId)
    (calls : list kernel.KernelToolCall) (slots : list BatchSlot)
    : list session.SessionEntryKind * list AgentEvent :=
  let rows := zip calls slots in
  ((λ row, slot_mark turn_id batch_id row.1 row.2) <$> rows,
   filter_map (slot_event batch_id) (session.enumerate rows)).

(** ** engine/seal.rs *)

Inductive SealFailure : Type :=
| SealCommit (error : session.SessionError)
| SealRefresh (error : session.SessionError).

(** The entries that seal one open turn. *)
Definition seal_entries (open : session.OpenTurnInfo) : list session.SessionEntryKind :=
  match session.unfilled_batch open with
  | Some batch =>
      (λ call_id, session.ToolResult (session.open_turn_id open)
         (session.unfilled_tool_batch_id batch)
         {| session.result_call_id := call_id;
            session.result_outcome := session.ResultInterrupted |})
        <$> session.unfilled_call_ids batch
  | None => []
  end ++
  [session.TurnTerminated (session.open_turn_id open)
     (session.TurnCancelled session.ReasonAbandoned);
   session.OperationSettled (session.open_operation_id open)
     (session.OpCancelled session.ReasonAbandoned) None None].

(** The loop over the open turns: the revision after the last commit and the
    turns sealed, in order. *)
Fixpoint seal_loop (session_id : session.SessionId) (seal_revision : session.SessionRevision)
    (opens : list session.OpenTurnInfo) : M (SealFailure + list session.TurnId) :=
  match opens with
  | [] => ret (inr [])
  | open :: opens =>
      let! committed := commit (session.linear session_id seal_revision (seal_entries open)) in
      match committed with
      | inl error => ret (inl (SealCommit error))
      | inr c =>
          let! rest := seal_loop session_id (session.commit_revision c) opens in
          match rest with
          | inl e => ret (inl e)
          | inr sealed => ret (inr (session.open_turn_id open :: sealed))
          end
      end
  end.

(** [seal_stale_turns_with]: the refreshed view and the turns it reported. *)
Definition seal_stale_turns_with (session_id : session.SessionId)
    (view : session.SessionContextView)
    : M (SealFailure + (session.SessionContextView * list session.TurnId)) :=
  if is_nil (session.view_open_turns view) then ret (inr (view, []))
  else
    let! sealed :=
      seal_loop session_id (session.view_revision view) (session.view_open_turns view) in
    match sealed with
    | inl e => ret (inl e)
    | inr sealed =>
        let! refreshed := context_view session_id in
        match refreshed with
        | inl error => ret (inl (SealRefresh error))
        | inr view => ret (inr (view, sealed))
        end
    end.

Fixpoint publish_sealed (sealed : list session.TurnId) : M unit :=
  match sealed with
  | [] => ret tt
  | tid :: sealed => prior_turn_sealed tid ;; publish_sealed sealed
  end.

(** [seal_stale_turns]: [None] when the operation settled. *)
Definition seal_stale_turns (session_id : session.SessionId)
    (view : session.SessionContextView) : M (option session.SessionContextView) :=
  let! outcome := seal_stale_turns_with session_id view in
  match outcome with
  | inr (view, sealed) => publish_sealed sealed ;; ret (Some view)
  | inl (SealCommit error) =>
      fail_unconfirmed (commit_failure "engine.seal_commit_failed" (Safe None)
                          "sealing stale turn" error) ;;
      ret None
  | inl (SealRefresh error) =>
      fail_unconfirmed (session_failure "re-reading sealed context" error) ;; ret None
  end.

Definition seal_stale_turns_for_maintenance (session_id : session.SessionId)
    (view : session.SessionContextView) : M (SealFailure + session.SessionContextView) :=
  let! outcome := seal_stale_turns_with session_id view in
  match outcome with
  | inr (view, _) => ret (inr view)
  | inl e => ret (inl e)
  end.

(** ** engine/stream.rs *)

(** The cancel side of [next_or_cancel] (an operation) and
    [next_or_maintenance_cancel]: the biased [select!] looks at it before it
    takes the next stream event. *)
Definition maintenance_cancelled : M bool :=
  if has_maintenance_cancel ctx then look (env_maintenance_cancel env) else ret false.
Definition observe_cancel (operation : bool) : M bool :=
  if operation then is_cancel_requested else maintenance_cancelled.

Record CallParts : Type := { part_id : string; part_name : string; part_arguments : string }.

Record OutputAssembler : Type := {
  asm_text : string;
  asm_calls : gmap nat CallParts;
  asm_order : list nat
}.

Definition assembler_default : OutputAssembler :=
  {| asm_text := ""; asm_calls := ∅; asm_order := [] |}.

Definition assemble_text (self : OutputAssembler) (delta : string) : OutputAssembler :=
  {| asm_text := asm_text self +:+ delta; asm_calls := asm_calls self;
     asm_order := asm_order self |}.

Definition assemble_tool (self : OutputAssembler) (delta : ToolCallDelta) : OutputAssembler :=
  let index := delta_index delta in
  let order := match asm_calls self !! index with
               | Some _ => asm_order self
               | None => asm_order self ++ [index]
               end in
  let parts := default {| part_id := ""; part_name := ""; part_arguments := "" |}
                 (asm_calls self !! index) in
  {| asm_text := asm_text self;
     asm_calls := <[index := {| part_id := part_id parts +:+ default "" (delta_id delta);
                                part_name := part_name parts +:+ default "" (delta_name delta);
                                part_arguments :=
                                  part_arguments parts +:+ delta_arguments delta |}]>
                    (asm_calls self);
     asm_order := order |}.

(** ** engine/compaction.rs *)

Definition SUMMARY_INSTRUCTION : string :=
  "Summarize the earlier conversation for a continuation. Preserve decisions, constraints, unresolved work, and concrete identifiers. Return only the summary text.".

Definition byte_len (value : string) : Z := Z.min (Z.of_nat (String.length value)) u64_max.
Definition len_u64 (value : nat) : Z := Z.min (Z.of_nat value) u64_max.

Definition part_bytes (part : session.SessionUserPart) : Z :=
  match part with
  | session.PartText text => byte_len text
  | session.PartImage media_type bytes =>
      saturating_add (byte_len media_type) (len_u64 (length bytes))
  end.

Definition block_bytes (block : session.SessionAssistantBlock) : Z :=
  match block with
  | session.BlockText text => byte_len text
  | session.BlockToolCall call =>
      saturating_add
        (saturating_add (byte_len (session.call_id call)) (byte_len (session.call_name call)))
        (byte_len (session.call_arguments call))
  end.

Definition saturating_sum {A} (f : A → Z) (l : list A) : Z :=
  foldl (λ total x, saturating_add total (f x)) 0%Z l.

Definition message_bytes (message : session.ContextMessage) : Z :=
  match message with
  | session.CtxSummary text => byte_len text
  | session.CtxUser parts => saturating_sum part_bytes parts
  | session.CtxAssistant blocks | session.CtxAssistantToolCalls _ blocks =>
      saturating_sum block_bytes blocks
  | session.CtxToolResult tool_call_id out =>
      let payload :=
        match out with
        | session.Success content => byte_len content
        | session.Error code message => saturating_add (byte_len code) (byte_len message)
        | session.ResultCancelled | session.ResultInterrupted => 0%Z
        end in
      saturating_add (byte_len tool_call_id) payload
  end.

Definition context_bytes (view : session.SessionContextView) : Z :=
  saturating_sum message_bytes (session.view_messages view).

(** [should_auto_compact], given what [ctx.last_input_tokens] returns. *)
Definition should_auto_compact (last : option Z) (view : session.SessionContextView) : bool :=
  match context_budget (compaction (config ctx)) with
  | None => false
  | Some budget =>
      let observed :=
        default (context_bytes view /
                 Z.max (estimate_bytes_per_token (compaction (config ctx))) 1)%Z last in
      f32_ge (f32_of_u64 observed)
        (f32_mul (auto_threshold (compaction (config ctx))) (f32_of_u64 budget))
  end.

(** [select_boundary]; the index is in range once the length test has passed. *)
Definition select_boundary (view : session.SessionContextView) (keep_recent_turns : Z)
    : option session.EntryId :=
  let boundaries := session.view_settled_turn_boundaries view in
  let keep := Z.to_nat keep_recent_turns in
  if bool_decide (length boundaries ≤ keep) then None
  else
    let candidate_index := length boundaries - keep - 1 in
    match session.view_latest_compaction_boundary view with
    | None => boundaries !! candidate_index
    | Some previous =>
        match position (λ entry, entry == previous) boundaries with
        | None => None
        | Some previous_index =>
            if bool_decide (candidate_index ≤ previous_index) then None
            else boundaries !! candidate_index
        end
    end.

Inductive SummaryFailure : Type :=
| SummaryCancelled
| SummaryFailed (error : CompactionError).

Definition invalid_summary (message : string) : SummaryFailure :=
  SummaryFailed (CompactionInvalidModelOutput message).

Definition is_tool_block (block : ModelAssistantBlock) : bool :=
  match block with ModelToolCallBlock _ => true | ModelText _ => false end.
Definition text_block (block : ModelAssistantBlock) : option string :=
  match block with ModelText text => Some text | ModelToolCallBlock _ => None end.

(** The stream loop of [generate_summary]. *)
Fixpoint summary_loop (operation : bool) (stream : ModelStream)
    (completed_blocks : option (list ModelAssistantBlock)) (response_started : bool)
    : M (SummaryFailure + list ModelAssistantBlock) :=
  let! cancelled := observe_cancel operation in
  if cancelled then ret (inl SummaryCancelled)
  else
    match stream with
    | [] =>
        match completed_blocks with
        | Some blocks => ret (inr blocks)
        | None => ret (inl (invalid_summary "summary stream ended before Completed"))
        end
    | inl error :: _ => ret (inl (SummaryFailed (CompactionModel (error_diagnostic error))))
    | inr event :: stream =>
        match completed_blocks, event with
        | Some _, Completed _ =>
            ret (inl (invalid_summary "summary stream emitted Completed more than once"))
        | Some _, _ =>
            ret (inl (invalid_summary "summary stream emitted output after Completed"))
        | None, Completed blocks => summary_loop operation stream (Some blocks) response_started
        | None, ResponseStarted _ _ =>
            if response_started then
              ret (inl (invalid_summary "summary stream emitted ResponseStarted more than once"))
            else summary_loop operation stream None true
        | None, (TextDelta _ | ReasoningDelta _ | ToolCallDeltaEvent _ _ _ _ | UsageUpdated _) =>
            summary_loop operation stream None response_started
        end
    end.

Definition summary_request (session_id : SessionId) (view : session.SessionContextView)
    : ModelCallSnapshot :=
  let synthetic_prefix := "compaction:" +:+ session_id +:+ ":revision:" +:+
                          display_nat (session.view_revision view) in
  {| call_session_id := session_id;
     context_fingerprint := default "empty" (session.view_current_leaf view);
     persist_replay := false;
     call_operation_id := synthetic_prefix +:+ ":operation";
     call_turn_id := synthetic_prefix +:+ ":turn";
     call_model_call_id := synthetic_prefix +:+ ":call";
     model_call_index := 1;
     call_session_revision := session.view_revision view;
     call_messages := ModelSystem (system_prompt (config ctx)) :: context_messages view
                        ++ [ModelUser [UserText SUMMARY_INSTRUCTION]];
     call_tools := [];
     call_model_target := model_target (config ctx);
     call_generation := generation (config ctx);
     call_max_parallel_tool_calls := Z.max (max_parallel_tool_calls (config ctx)) 1 |}.

Definition generate_summary (operation : bool) (session_id : SessionId)
    (view : session.SessionContextView) : M (SummaryFailure + string) :=
  let! requested := if operation then is_cancel_requested else ret false in
  let! maintenance := if requested then ret true else maintenance_cancelled in
  if maintenance then ret (inl SummaryCancelled)
  else
    let! started := look (env_start env) in
    match started (summary_request session_id view) with
    | inl error => ret (inl (SummaryFailed (CompactionModel (error_diagnostic error))))
    | inr stream =>
        let! blocks := summary_loop operation stream None false in
        match blocks with
        | inl e => ret (inl e)
        | inr blocks =>
            if any is_tool_block blocks then
              ret (inl (invalid_summary "summary model returned tool calls instead of FinalText"))
            else
              let summary := concat_str (filter_map text_block blocks) in
              if str_is_empty summary then
                ret (inl (invalid_summary "summary model returned empty FinalText"))
              else ret (inr summary)
        end
    end.

(** [maybe_auto_compact]: [None] when the operation settled. *)
Definition maybe_auto_compact (runtime_session_id : SessionId)
    (stored_session_id : session.SessionId) (view : session.SessionContextView)
    : M (option session.SessionContextView) :=
  let! last := λ w, (Ok (last_input_tokens w !! runtime_session_id), w) in
  if negb (should_auto_compact last view) then ret (Some view)
  else
    match select_boundary view (keep_recent_turns (compaction (config ctx))) with
    | None => ret (Some view)
    | Some covers_up_to =>
        push EvContextCompactionStarted ;;
        let! summary := generate_summary true runtime_session_id view in
        match summary with
        | inl SummaryCancelled => cancellation_observed ;; cancel_zero_trace ;; ret None
        | inl (SummaryFailed error) =>
            push (EvContextCompactionFailed (compaction_message error)) ;; ret (Some view)
        | inr summary =>
            let! cancelled := is_cancel_requested in
            if cancelled then cancellation_observed ;; cancel_zero_trace ;; ret None
            else
              let! committed :=
                commit (session.linear stored_session_id (session.view_revision view)
                          [session.Compaction summary covers_up_to]) in
              match committed with
              | inl error =>
                  push (EvContextCompactionFailed
                          ("committing context compaction: " +:+ describe_session_error error)) ;;
                  ret (Some view)
              | inr _ =>
                  push (EvContextCompactionCompleted covers_up_to) ;;
                  let! cancelled := is_cancel_requested in
                  if cancelled then cancellation_observed ;; cancel_zero_trace ;; ret None
                  else
                    let! refreshed := context_view stored_session_id in
                    match refreshed with
                    | inr view => ret (Some view)
                    | inl error =>
                        fail_unconfirmed
                          (session_failure "re-reading compacted session context" error) ;;
                        ret None
                    end
              end
        end
    end.

Definition session_error (context : string) (error : session.SessionError) : CompactionError :=
  CompactionSession (context +:+ ": " +:+ describe_session_error error).

Definition compact_manually (runtime_session_id : SessionId)
    : M (CompactionError + CompactionReport) :=
  let! cancelled := maintenance_cancelled in
  if cancelled then ret (inl (CompactionSession "compaction cancelled"))
  else
    let stored_session_id := runtime_session_id in
    let! view := context_view stored_session_id in
    match view with
    | inl error => ret (inl (session_error "reading session context" error))
    | inr view =>
        let! sealed := seal_stale_turns_for_maintenance stored_session_id view in
        match sealed with
        | inl (SealCommit error) => ret (inl (session_error "sealing stale turn" error))
        | inl (SealRefresh error) => ret (inl (session_error "re-reading sealed context" error))
        | inr view =>
            match select_boundary view (keep_recent_turns (compaction (config ctx))) with
            | None => ret (inr NothingToCompact)
            | Some covers_up_to =>
                let! cancelled := maintenance_cancelled in
                if cancelled then ret (inl (CompactionSession "compaction cancelled"))
                else
                  let! summary := generate_summary false runtime_session_id view in
                  match summary with
                  | inl (SummaryFailed error) => ret (inl error)
                  | inl SummaryCancelled => ret (inl (CompactionSession "compaction cancelled"))
                  | inr summary =>
                      let! committed :=
                        commit (session.linear stored_session_id (session.view_revision view)
                                  [session.Compaction summary covers_up_to]) in
                      match committed with
                      | inl error => ret (inl (session_error "committing context compaction" error))
                      | inr _ => ret (inr (Compacted covers_up_to))
                      end
                  end
            end
        end
    end.

(** ** engine/model_call.rs *)

Record AttemptFailure : Type := { attempt_failure : AgentFailure; recoverable : bool }.

Definition classify (error : ModelError) : AttemptFailure :=
  {| attempt_failure := from_model_error error; recoverable := is_retryable (error_retry error) |}.

Definition port_violation (code diagnostic : string) : AttemptFailure :=
  {| attempt_failure := failure_new code Internal StageModelPort Never
       "the model stream violated its port contract" diagnostic;
     recoverable := false |}.

Inductive ModelCallOutcome : Type :=
| CallCompleted (blocks : list ModelAssistantBlock)
| CallFailed (failure : AttemptFailure)
| CallSettled.

(** The stream loop of [run]. *)
Fixpoint model_loop (cx : TurnCx) (session_id : SessionId) (effect_id : kernel.EffectId)
    (model_call_id : kernel.ModelCallId) (stream : ModelStream) (assembler : OutputAssembler)
    (completed_blocks : option (list ModelAssistantBlock)) (response_started_seen : bool)
    : M ModelCallOutcome :=
  let! cancelled := is_cancel_requested in
  if cancelled then
    cancellation_observed ;; cx_cancel cx effect_id [] [] ;; ret CallSettled
  else
    match stream with
    | [] =>
        match completed_blocks with
        | Some blocks => ret (CallCompleted blocks)
        | None =>
            ret (CallFailed (port_violation "model.port.stream_closed_early"
                               "model stream ended before Completed"))
        end
    | inl error :: _ => ret (CallFailed (classify error))
    | inr event :: stream =>
        match completed_blocks, event with
        | Some _, Completed _ =>
            ret (CallFailed (port_violation "model.port.stream_after_completed"
                               "model stream emitted Completed more than once"))
        | Some _, _ =>
            ret (CallFailed (port_violation "model.port.stream_after_completed"
                               "model stream emitted output after Completed"))
        | None, Completed blocks =>
            model_loop cx session_id effect_id model_call_id stream assembler (Some blocks)
              response_started_seen
        | None, ResponseStarted response_model response_id =>
            if response_started_seen then
              ret (CallFailed (port_violation "model.port.response_started_twice"
                                 "model stream emitted ResponseStarted more than once"))
            else
              push (EvModelResponseStarted model_call_id response_model response_id) ;;
              model_loop cx session_id effect_id model_call_id stream assembler None true
        | None, TextDelta delta =>
            op_set_phase (RunningModelCall Streaming) ;;
            push (EvTextDelta delta) ;;
            model_loop cx session_id effect_id model_call_id stream
              (assemble_text assembler delta) None response_started_seen
        | None, ReasoningDelta text =>
            push (EvReasoningDelta model_call_id text) ;;
            model_loop cx session_id effect_id model_call_id stream assembler None
              response_started_seen
        | None, UsageUpdated usage =>
            match input_tokens usage with
            | Some tokens => record_input_tokens session_id tokens
            | None => ret tt
            end ;;
            push (EvModelUsageUpdated model_call_id usage) ;;
            model_loop cx session_id effect_id model_call_id stream assembler None
              response_started_seen
        | None, ToolCallDeltaEvent index id name arguments =>
            model_loop cx session_id effect_id model_call_id stream
              (assemble_tool assembler {| delta_index := index; delta_id := id;
                 delta_name := name; delta_arguments := arguments |})
              None response_started_seen
        end
    end.

Definition model_request (cx : TurnCx) (sh : OperationShared) (turn : TurnSnapshot)
    (model_call_id : kernel.ModelCallId) (index : Z) (messages : list kernel.TurnMessage)
    (tools_allowed : bool) : ModelCallSnapshot :=
  {| call_session_id := snap_session_id turn;
     context_fingerprint := cx_current_leaf cx;
     persist_replay := true;
     call_operation_id := operation_id sh;
     call_turn_id := turn_id sh;
     call_model_call_id := model_call_id;
     model_call_index := index;
     call_session_revision := cx_revision cx;
     call_messages := build_messages turn messages;
     call_tools := if tools_allowed then snap_tools turn else [];
     call_model_target := snap_model_target turn;
     call_generation := snap_generation turn;
     call_max_parallel_tool_calls := snap_max_parallel_tool_calls turn |}.

(** [model_call::run]. *)
Definition model_call_run (cx : TurnCx) (turn : TurnSnapshot) (effect_id : kernel.EffectId)
    (model_call_id : kernel.ModelCallId) (index : Z) (messages : list kernel.TurnMessage)
    (tools_allowed : bool) : M ModelCallOutcome :=
  let! cancelled := is_cancel_requested in
  if cancelled then
    cancellation_observed ;; cx_cancel cx effect_id [] [] ;; ret CallSettled
  else
    op_set_phase (RunningModelCall Starting) ;;
    push (EvModelCallStarted model_call_id) ;;
    let! sh := get_shared in
    let request := model_request cx sh turn model_call_id index messages tools_allowed in
    let! started := look (env_start env) in
    match started request with
    | inl error => ret (CallFailed (classify error))
    | inr stream =>
        op_set_phase (RunningModelCall WaitingForFirstOutput) ;;
        model_loop cx (snap_session_id turn) effect_id model_call_id stream assembler_default
          None false
    end.

(** ** engine/mod.rs: recovery *)

(** [backoff_or_cancel]: [false] when a cancel request cut the wait short. *)
Definition backoff_or_cancel : M bool :=
  let! cancelled := is_cancel_requested in ret (negb cancelled).

Definition next_delay (retry : Z) : M Z := λ w,
  let '(state, delay) :=
    backoff_delay (recovery (config ctx)) (jitter w) (env_jitter_seed env (tick w)) retry in
  (Ok delay, advance (set_jitter w state)).

(** The loop of [drive_model_call_with_recovery]; [None] when the operation
    settled. One round of fuel per attempt. *)
Fixpoint recovery_loop (fuel : nat) (cx : TurnCx) (turn : TurnSnapshot)
    (effect_id : kernel.EffectId) (model_call_id : kernel.ModelCallId) (index : Z)
    (messages : list kernel.TurnMessage) (tools_allowed : bool) (tried : Z)
    : M (option (list ModelAssistantBlock)) :=
  match fuel with
  | O => out_of_fuel
  | S fuel =>
      let! outcome :=
        model_call_run cx turn effect_id model_call_id index messages tools_allowed in
      match outcome with
      | CallCompleted blocks => ret (Some blocks)
      | CallSettled => ret None
      | CallFailed failed =>
          let policy := recovery (config ctx) in
          let exhausted := negb (enabled policy) || negb (recoverable failed)
                           || bool_decide (max_retries policy ≤ tried)%Z in
          let! cancelled := if exhausted then ret false else is_cancel_requested in
          if exhausted || cancelled then
            (if cancelled then cancellation_observed ;; cx_cancel cx effect_id [] []
             else cx_fail cx effect_id (attempt_failure failed)) ;;
            ret None
          else
            let tried := (tried + 1)%Z in
            let! delay := next_delay tried in
            push (EvModelRetryScheduled model_call_id tried (max_retries policy) delay
                    (attempt_failure failed)) ;;
            let! waited := backoff_or_cancel in
            if negb waited then
              cancellation_observed ;; cx_cancel cx effect_id [] [] ;; ret None
            else recovery_loop fuel cx turn effect_id model_call_id index messages
                   tools_allowed tried
      end
  end.

Definition drive_model_call_with_recovery (cx : TurnCx) (turn : TurnSnapshot)
    (effect_id : kernel.EffectId) (model_call_id : kernel.ModelCallId) (index : Z)
    (messages : list kernel.TurnMessage) (tools_allowed : bool)
    : M (option (list ModelAssistantBlock)) :=
  recovery_loop (S (Z.to_nat (max_retries (recovery (config ctx))))) cx turn effect_id
    model_call_id index messages tools_allowed 0.


(** ** engine/tool_batch.rs *)

Definition port_failure (error : tools.ToolPortError) : AgentFailure :=
  failure_new "tool.port_failed" Internal StageToolPort (MayDuplicate None)
    "a tool execution infrastructure fault occurred" (tools.port_message error).

Definition stopped_failure : AgentFailure :=
  failure_new "tool.stopped_without_cancel" Internal StageToolPort Never
    "a tool stopped on its own without a cancel request"
    "tool stopped without a cancel request".

Definition invocation (call : kernel.KernelToolCall) : tools.ToolInvocation :=
  {| tools.invocation_call_id := kernel.call_id call;
     tools.invocation_name := kernel.call_name call;
     tools.raw_arguments := kernel.call_arguments call |}.

Inductive InvokeWait : Type :=
| WaitFinished (invoke_end : tools.ToolInvokeEnd)
| WaitDropped
| WaitPortError (error : tools.ToolPortError).

(** [await_invoke]: the invocation, or the cancel request plus its grace. *)
Definition await_invoke (call : kernel.KernelToolCall) : M InvokeWait :=
  let! answer := look (env_tool env) in
  match answer (invocation call) with
  | Returns (inr invoke_end) => ret (WaitFinished invoke_end)
  | Returns (inl error) => ret (WaitPortError error)
  | Outlives reason => update_shared (λ sh, request_cancel sh reason) ;; ret WaitDropped
  end.

Definition publish_started (batch_id : kernel.ToolBatchId) (call : kernel.KernelToolCall)
    (index : nat) : M unit :=
  push (EvToolExecutionStarted batch_id (kernel.call_id call) index (kernel.call_name call)
          (kernel.call_arguments call)).

Definition set_executing (in_flight completed : nat) : M unit :=
  op_set_phase (RunningToolBatch (Executing in_flight completed)).

Definition is_unstarted (slot : BatchSlot) : bool :=
  match slot with SlotUnstarted => true | _ => false end.
Definition is_done (slot : BatchSlot) : bool :=
  match slot with SlotDone _ => true | _ => false end.

Definition completed_count (slots : list BatchSlot) : nat :=
  length (List.filter (λ slot, negb (is_unstarted slot)) slots).

Abbreviation ToolResults := (list (kernel.KernelToolCall * tools.RichToolResult)).

Definition done_results (calls : list kernel.KernelToolCall) (slots : list BatchSlot)
    : ToolResults :=
  filter_map (λ row, match row.2 with SlotDone result => Some (row.1, result) | _ => None end)
    (zip calls slots).

(** The cancellation of a batch in the state of [slots]. *)
Definition cancel_batch (cx : TurnCx) (effect_id : kernel.EffectId)
    (batch_id : kernel.ToolBatchId) (calls : list kernel.KernelToolCall)
    (slots : list BatchSlot) : M unit :=
  cancellation_observed ;;
  let! sh := get_shared in
  let '(marks, executed_events) := cancellation_batch (turn_id sh) batch_id calls slots in
  cx_cancel cx effect_id marks executed_events.

Definition result_entry (turn_id : TurnId) (batch_id : kernel.ToolBatchId)
    (row : kernel.KernelToolCall * tools.RichToolResult) : session.SessionEntryKind :=
  session.ToolResult turn_id batch_id (session_result row.1 (tools.result row.2)).

(** [commit_results]; [None] when the operation settled. *)
Definition commit_results (cx : TurnCx) (effect_id : kernel.EffectId)
    (batch_id : kernel.ToolBatchId) (results : ToolResults) : M (option (TurnCx * ToolResults)) :=
  let! cancelled := is_cancel_requested in
  if cancelled then
    cancel_batch cx effect_id batch_id results.*1 (SlotDone <$> results.*2) ;; ret None
  else
    op_set_phase (RunningToolBatch CommittingResults) ;;
    let! sh := get_shared in
    let! committed :=
      commit (session.linear (cx_session_id cx) (cx_revision cx)
                (result_entry (turn_id sh) batch_id <$> results)) in
    match committed with
    | inl error =>
        cx_fail cx effect_id
          (commit_failure "engine.barrier_c_commit_failed" (MayDuplicate None)
             "committing tool results" error) ;;
        ret None
    | inr c =>
        push_all ((λ row, completed_event batch_id row.2.1 row.1 row.2.2)
                    <$> session.enumerate results) ;;
        ret (Some ({| cx_session_id := cx_session_id cx;
                      cx_revision := session.commit_revision c;
                      cx_current_leaf := session.commit_current_leaf c;
                      cx_state := cx_state cx |}, results))
    end.

(** The loop of [run_serial] over the calls from [index] on; [None] when the
    operation settled. *)
Fixpoint serial_loop (cx : TurnCx) (effect_id : kernel.EffectId)
    (batch_id : kernel.ToolBatchId) (calls : list kernel.KernelToolCall) (index : nat)
    (rest : list kernel.KernelToolCall) (slots : list BatchSlot)
    : M (option (list BatchSlot)) :=
  match rest with
  | [] => ret (Some slots)
  | call :: rest =>
      let! cancelled := is_cancel_requested in
      if cancelled then cancel_batch cx effect_id batch_id calls slots ;; ret None
      else
        set_executing 1 index ;;
        publish_started batch_id call index ;;
        let! waited := await_invoke call in
        match waited with
        | WaitFinished (tools.Done result) =>
            serial_loop cx effect_id batch_id calls (S index) rest
              (<[index := SlotDone result]> slots)
        | WaitFinished tools.Stopped | WaitDropped =>
            let! cancelled := is_cancel_requested in
            if negb cancelled then cx_fail cx effect_id stopped_failure ;; ret None
            else
              cancel_batch cx effect_id batch_id calls (<[index := SlotStopped]> slots) ;;
              ret None
        | WaitPortError error =>
            let! cancelled := is_cancel_requested in
            if cancelled then
              cancel_batch cx effect_id batch_id calls (<[index := SlotStopped]> slots) ;;
              ret None
            else cx_fail cx effect_id (port_failure error) ;; ret None
        end
  end.

Definition run_serial (cx : TurnCx) (effect_id : kernel.EffectId)
    (batch_id : kernel.ToolBatchId) (calls : list kernel.KernelToolCall)
    : M (option (TurnCx * ToolResults)) :=
  let! slots :=
    serial_loop cx effect_id batch_id calls 0 calls ((λ _, SlotUnstarted) <$> calls) in
  match slots with
  | None => ret None
  | Some slots => commit_results cx effect_id batch_id (done_results calls slots)
  end.

(** The mutable locals of [run_parallel]. *)
Record Batch : Type := {
  slots : list BatchSlot;
  in_flight : list nat;
  next : nat;
  stop_starting : bool;
  batch_port_error : option tools.ToolPortError;
  grace_deadline : option Z
}.

Definition batch_new (calls : list kernel.KernelToolCall) : Batch :=
  {| slots := (λ _, SlotUnstarted) <$> calls; in_flight := []; next := 0;
     stop_starting := false; batch_port_error := None; grace_deadline := None |}.

(** [Vec::swap_remove]. *)
Definition swap_remove {A} (position : nat) (l : list A) : list A :=
  match last l with
  | Some a => take (length l - 1) (<[position := a]> l)
  | None => l
  end.

Definition slots_set (b : Batch) (index : nat) (slot : BatchSlot) : Batch :=
  {| slots := <[index := slot]> (slots b); in_flight := in_flight b; next := next b;
     stop_starting := stop_starting b; batch_port_error := batch_port_error b;
     grace_deadline := grace_deadline b |}.
Definition batch_stop (b : Batch) (error : option tools.ToolPortError) : Batch :=
  {| slots := slots b; in_flight := in_flight b; next := next b; stop_starting := true;
     batch_port_error := match error with Some e => Some e | None => batch_port_error b end;
     grace_deadline := grace_deadline b |}.
Definition batch_flight (b : Batch) (flight : list nat) : Batch :=
  {| slots := slots b; in_flight := flight; next := next b; stop_starting := stop_starting b;
     batch_port_error := batch_port_error b; grace_deadline := grace_deadline b |}.
Definition batch_started (b : Batch) : Batch :=
  {| slots := slots b; in_flight := in_flight b ++ [next b]; next := S (next b);
     stop_starting := stop_starting b; batch_port_error := batch_port_error b;
     grace_deadline := grace_deadline b |}.
Definition batch_grace (b : Batch) (deadline : Z) : Batch :=
  {| slots := slots b; in_flight := in_flight b; next := next b; stop_starting := true;
     batch_port_error := batch_port_error b;
     grace_deadline := match grace_deadline b with Some d => Some d | None => Some deadline end |}.

(** The inner [while] of [run_parallel]; [rest] are the calls from [next b] on. *)
Fixpoint start_calls (batch_id : kernel.ToolBatchId) (limit : Z)
    (rest : list kernel.KernelToolCall) (b : Batch) : M Batch :=
  match rest with
  | [] => ret b
  | call :: rest =>
      if negb (stop_starting b) && bool_decide (Z.of_nat (length (in_flight b)) < limit)%Z then
        let! cancelled := is_cancel_requested in
        if cancelled then ret (batch_stop b None)
        else
          set_executing (length (in_flight b) + 1) (completed_count (slots b)) ;;
          publish_started batch_id call (next b) ;;
          start_calls batch_id limit rest (batch_started b)
      else ret b
  end.

(** [next_finished]: the index of the call that finished and its result;
    [None] when the grace deadline, if there is one, passed first. *)
Definition next_finished (b : Batch)
    : M (option (Batch * nat * (tools.ToolPortError + tools.ToolInvokeEnd))) :=
  let! answer := look (env_next env) in
  let a := answer (in_flight b) in
  if deadline_first a && bool_decide (is_Some (grace_deadline b)) then ret None
  else
    let position := ready_position a mod length (in_flight b) in
    match in_flight b !! position with
    | None => ret None
    | Some index =>
        ret (Some (batch_flight b (swap_remove position (in_flight b)), index, ready_result a))
    end.

Fixpoint stop_all (b : Batch) (flight : list nat) : Batch :=
  match flight with
  | [] => b
  | index :: flight => stop_all (slots_set b index SlotStopped) flight
  end.

(** The outer [loop] of [run_parallel]. *)
Fixpoint parallel_loop (fuel : nat) (batch_id : kernel.ToolBatchId)
    (calls : list kernel.KernelToolCall) (limit : Z) (b : Batch) : M Batch :=
  match fuel with
  | O => out_of_fuel
  | S fuel =>
      let! cancelled := is_cancel_requested in
      let! now := look (env_now env) in
      let b := if cancelled then batch_grace b (now + tool_cancel_grace (config ctx)) else b in
      let! b := start_calls batch_id limit (drop (next b) calls) b in
      if is_nil (in_flight b) then ret b
      else
        let! finished := next_finished b in
        match finished with
        | None => ret (batch_flight (stop_all b (in_flight b)) [])
        | Some (b, index, result) =>
            let! b :=
              match result with
              | inr (tools.Done result) => ret (slots_set b index (SlotDone result))
              | inr tools.Stopped =>
                  let! cancelled := is_cancel_requested in
                  ret (if cancelled then batch_stop (slots_set b index SlotStopped) None
                       else batch_stop b (Some {| tools.port_message :=
                                                   "tool stopped without a cancel request" |}))
              | inl error =>
                  let! cancelled := is_cancel_requested in
                  ret (if cancelled then batch_stop (slots_set b index SlotStopped) None
                       else batch_stop b (Some error))
              end in
            set_executing (length (in_flight b)) (completed_count (slots b)) ;;
            parallel_loop fuel batch_id calls limit b
        end
  end.

Definition run_parallel (cx : TurnCx) (effect_id : kernel.EffectId)
    (batch_id : kernel.ToolBatchId) (calls : list kernel.KernelToolCall) (limit : Z)
    : M (option (TurnCx * ToolResults)) :=
  let! b := parallel_loop (S (length calls)) batch_id calls limit (batch_new calls) in
  match batch_port_error b with
  | Some error => cx_fail cx effect_id (port_failure error) ;; ret None
  | None =>
      let! cancelled :=
        if any (λ slot, negb (is_done slot)) (slots b) then ret true else is_cancel_requested in
      if cancelled then cancel_batch cx effect_id batch_id calls (slots b) ;; ret None
      else commit_results cx effect_id batch_id (done_results calls (slots b))
  end.

(** [tool_batch::run]. *)
Definition tool_batch_run (cx : TurnCx) (effect_id : kernel.EffectId)
    (batch_id : kernel.ToolBatchId) (calls : list kernel.KernelToolCall)
    (max_parallel_tool_calls : Z) : M (option (TurnCx * ToolResults)) :=
  let limit := Z.max max_parallel_tool_calls 1 in
  if bool_decide (limit = 1)%Z then run_serial cx effect_id batch_id calls
  else run_parallel cx effect_id batch_id calls limit.

(** ** engine/mod.rs: the turn *)

(** [settle_success]. *)
Definition settle_success (cx : TurnCx) (effect_id : kernel.EffectId)
    (observations : list kernel.KernelObservation) (text : string) : M unit :=
  let! sh := get_shared in
  let! entries :=
    attempt (success_entries observations (operation_id sh) (turn_id sh) (last_usage sh)
               generation_choice) in
  match entries with
  | inl failure => cx_fail cx effect_id failure
  | inr final_entries =>
      op_set_phase Finalizing ;;
      let! committed := commit (session.linear (cx_session_id cx) (cx_revision cx) final_entries) in
      match committed with
      | inr c => succeed {| content := text |} (session.commit_revision c)
      | inl error =>
          cx_fail cx effect_id
            (commit_failure "engine.settlement_commit_failed" (MayDuplicate None)
               "committing successful settlement" error)
      end
  end.

Definition invalid_block_failure : AgentFailure :=
  failure_new "model.output.invalid_block" Provider StageModelPort (MayDuplicate None)
    "the model produced an invalid assistant block" "model produced an empty text block".

Definition output_rejected_failure : AgentFailure :=
  failure_new "kernel.output_rejected" Provider StageKernel Never
    "the kernel rejected the model output" "kernel rejected model output".

Definition results_rejected_failure : AgentFailure :=
  failure_new "kernel.tool_results_rejected" Internal StageKernel Never
    "the kernel rejected the synthesized tool results" "kernel rejected tool results".

(** A checked [u32] operation of the driver. *)
Definition checked (m : outcome fuel_error Z) : M Z := λ w,
  match m with Ok a => (Ok a, w) | Err e => (Err e, w) | Panic => (Panic, w) end.

(** The tail of the [RequestModel] arm from the accepted tool calls on: the
    batch barrier and the batch; [None] when the operation settled. *)
Definition run_tool_round (cx : TurnCx) (turn : TurnSnapshot) (effect_id : kernel.EffectId)
    (model_call_id : kernel.ModelCallId) (output : kernel.AssistantOutput)
    (completed : kernel.KernelTransition) : M (option (TurnCx * kernel.KernelEffect)) :=
  match kernel.effect completed with
  | Some (kernel.ExecuteToolBatch tool_effect_id batch_id calls) =>
      op_set_phase (RunningToolBatch Preparing) ;;
      let! sh := get_shared in
      let entry := batch_entry (turn_id sh) model_call_id batch_id (kernel.blocks output) in
      let! committed := commit (session.linear (cx_session_id cx) (cx_revision cx) [entry]) in
      match committed with
      | inl error =>
          cx_fail cx effect_id
            (commit_failure "engine.barrier_b_commit_failed" (Safe None)
               "committing tool calls" error) ;;
          ret None
      | inr c =>
          let cx := {| cx_session_id := cx_session_id cx;
                       cx_revision := session.commit_revision c;
                       cx_current_leaf := session.commit_current_leaf c;
                       cx_state := kernel.next_state completed |} in
          push (EvToolBatchRequested batch_id (length calls)) ;;
          let! step :=
            tool_batch_run cx tool_effect_id batch_id calls (snap_max_parallel_tool_calls turn) in
          match step with
          | None => ret None
          | Some (cx, results) =>
              let kernel_results := (λ row, kernel_result row.1 (tools.result row.2)) <$> results in
              let! next :=
                kernel_transition (cx_state cx)
                  (kernel.ToolBatchCompleted tool_effect_id kernel_results) in
              match next with
              | inl _ => fail_unconfirmed results_rejected_failure ;; ret None
              | inr next =>
                  match kernel.effect next with
                  | Some effect =>
                      ret (Some ({| cx_session_id := cx_session_id cx;
                                    cx_revision := cx_revision cx;
                                    cx_current_leaf := cx_current_leaf cx;
                                    cx_state := kernel.next_state next |}, effect))
                  | None =>
                      fail_unconfirmed (invariant_failure "tool completion omitted model effect") ;;
                      ret None
                  end
              end
          end
      end
  | _ =>
      cx_fail cx effect_id (invariant_failure "tool-call transition omitted tool effect") ;;
      ret None
  end.

(** The loop of [drive_turn], one round of fuel per model call. *)
Fixpoint turn_loop (fuel : nat) (cx : TurnCx) (turn : TurnSnapshot)
    (effect : kernel.KernelEffect) (model_call_index : Z) : M unit :=
  match fuel with
  | O => out_of_fuel
  | S fuel =>
      match effect with
      | kernel.RequestModel effect_id model_call_id messages tools_allowed =>
          let! model_call_index := checked (u32_checked (model_call_index + 1)) in
          let! step :=
            drive_model_call_with_recovery cx turn effect_id model_call_id model_call_index
              messages tools_allowed in
          match step with
          | None => ret tt
          | Some blocks =>
              let! output := attempt (kernel.from_blocks (kernel_blocks_from_model blocks)) in
              match output with
              | inl _ => cx_fail cx effect_id invalid_block_failure
              | inr output =>
                  let text := kernel.output_text output in
                  let! completed :=
                    kernel_transition (cx_state cx) (kernel.ModelCallCompleted effect_id output) in
                  match completed with
                  | inl _ => cx_fail cx effect_id output_rejected_failure
                  | inr completed =>
                      if negb (kernel.contains_tool_call output) then
                        settle_success cx effect_id (kernel.observations completed) text
                      else
                        let! next := run_tool_round cx turn effect_id model_call_id output completed in
                        match next with
                        | None => ret tt
                        | Some (cx, effect) => turn_loop fuel cx turn effect model_call_index
                        end
                  end
              end
          end
      | kernel.ExecuteToolBatch _ _ _ =>
          fail_unconfirmed (invariant_failure "runtime cannot execute uncommitted tool effect")
      end
  end.

(** One model call more than tool rounds, and a round to spare. *)
Definition turn_fuel (turn : TurnSnapshot) : nat := S (S (Z.to_nat (snap_max_tool_rounds turn))).

Definition turn_snapshot (session_id : SessionId) (context : session.SessionContextView)
    : TurnSnapshot :=
  {| snap_session_id := session_id;
     snap_session_revision := session.view_revision context;
     snap_context_messages := context_messages context;
     snap_system_prompt := system_prompt (config ctx);
     snap_model_target := model_target (config ctx);
     snap_generation := generation (config ctx);
     snap_tools := env_definitions env;
     snap_max_tool_rounds := max_tool_rounds (config ctx);
     snap_max_parallel_tool_calls := Z.max (max_parallel_tool_calls (config ctx)) 1 |}.

(** The second half of [drive_turn], from [turn_started] on. *)
Definition start_turn (session_id : SessionId) (context : session.SessionContextView)
    (user_message : UserMessage) : M unit :=
  turn_started ;;
  let turn := turn_snapshot session_id context in
  let! kernel_user := attempt (kernel.user_from_parts (kernel_user_parts (parts user_message))) in
  match kernel_user with
  | inl _ => fail_unconfirmed (invariant_failure "kernel rejected user message parts")
  | inr kernel_user =>
      let! sh := get_shared in
      let! started :=
        kernel_transition kernel.initial_state
          (kernel.BeginTurn (turn_id sh) kernel_user (snap_max_tool_rounds turn)) in
      match started with
      | inl _ => fail_unconfirmed (invariant_failure "kernel rejected BeginTurn")
      | inr started =>
          let! entries :=
            attempt (start_entries (kernel.observations started) (operation_id sh) (turn_id sh)) in
          match entries with
          | inl failure => fail_unconfirmed failure
          | inr entries =>
              let! cancelled := is_cancel_requested in
              if cancelled then cancellation_observed ;; cancel_zero_trace
              else
                let! committed :=
                  commit (session.linear session_id (session.view_revision context) entries) in
                match committed with
                | inl error =>
                    fail_unconfirmed
                      (commit_failure "engine.barrier_a_commit_failed" (Safe None)
                         "committing turn start" error)
                | inr c =>
                    match kernel.effect started with
                    | None =>
                        fail_unconfirmed (invariant_failure "BeginTurn omitted model effect")
                    | Some effect =>
                        turn_loop (turn_fuel turn)
                          {| cx_session_id := session_id;
                             cx_revision := session.commit_revision c;
                             cx_current_leaf := session.commit_current_leaf c;
                             cx_state := kernel.next_state started |} turn effect 0
                    end
                end
          end
      end
  end.

(** [drive_turn]. *)
Definition drive_turn (session_id : SessionId) (user_message : UserMessage) : M unit :=
  let! context := context_view session_id in
  match context with
  | inl error => fail_unconfirmed (session_failure "reading session context" error)
  | inr context =>
      let! sealed := seal_stale_turns session_id context in
      match sealed with
      | None => ret tt
      | Some context =>
          let! compacted := maybe_auto_compact session_id session_id context in
          match compacted with
          | None => ret tt
          | Some context => start_turn session_id context user_message
          end
      end
  end.

(** [drive]. *)
Definition drive (session_id : SessionId) (user_message : UserMessage) : M DriverExit :=
  begin (operation_timeout (config ctx)) ;;
  drive_turn session_id user_message ;;
  λ w, let '(sh, exit) := take_exit (shared w) in (Ok exit, set_shared w sh).

End engine.

End engine.
