(* ===== verification/EngineLogic.v ===== *)
(** A program logic for the turn engine: weakest preconditions over [engine.M],
    a store that keeps a journal of its calls, and the rules of the engine's
    primitives (events, phases, cancellation, commits).

    Settlement of an operation: what each way of settling reports and leaves
    in the session, for the engine's functions that settle. *)

From S2P Require Import Prelude RustStr Kernel Session SessionLifecycle SessionContext.
From S2P Require Import SessionProofs SessionStore TurnScript Tools Runtime RuntimeMapping.
From S2P Require Import Operation Engine KernelProofs.
Import runtime mapping operation engine.

Module logic.

(** ** A store with a journal, shared with renames

    The service renames sessions through the same store while an operation runs
    (philo-agent-service/src/actor/catalog.rs, [rename_session_once]): before each call
    of the engine the store answers commits of others, as a schedule has them. *)

(** One answered call of the store: the engine's views and commits, and the commits
    of others. *)
Inductive store_call : Type :=
| CallView (sid : SessionId) (r : session.answer session.SessionContextView)
| CallCommit (tx : session.SessionTransaction) (r : session.answer session.SessionCommit)
| CallForeign (tx : session.SessionTransaction) (r : session.answer session.SessionCommit).

(** [foreign]: the commits of others before each of the engine's next calls. *)
Record Recorder (St : Type) : Type := {
  recorded : St; foreign : list (list session.SessionTransaction); journal : list store_call }.
Arguments recorded {St} r : rename.
Arguments foreign {St} r : rename.
Arguments journal {St} r : rename.

Definition foreign_commit {St} `{store.SessionStore St} (s : St * list store_call)
    (tx : session.SessionTransaction) : St * list store_call :=
  let '(s', r) := store.store_commit s.1 tx in (s', s.2 ++ [CallForeign tx r]).

(** The commits of others that come before the next call. *)
Definition interrupted {St} `{store.SessionStore St} (r : Recorder St) : Recorder St :=
  let s := foldl foreign_commit (recorded r, journal r) (default [] (head (foreign r))) in
  {| recorded := s.1; foreign := tail (foreign r); journal := s.2 |}.

Definition record {St A} (r : Recorder St) (call : St * session.answer A)
    (entry : session.answer A → store_call) : Recorder St * session.answer A :=
  ({| recorded := call.1; foreign := foreign r; journal := journal r ++ [entry call.2] |}, call.2).

#[export] Instance recorder_store {St} `{store.SessionStore St}
    : store.SessionStore (Recorder St) := {
  store_context_view r sid :=
    let r := interrupted r in
    record r (store.store_context_view (recorded r) sid) (CallView sid);
  store_commit r tx :=
    let r := interrupted r in
    record r (store.store_commit (recorded r) tx) (CallCommit tx);
  store_list_sessions r :=
    let '(s, ids) := store.store_list_sessions (recorded r) in
    ({| recorded := s; foreign := foreign r; journal := journal r |}, ids)
}.

(** A call of the engine that was answered. *)
Definition answered (c : store_call) : Prop :=
  match c with CallView _ (Ok _) | CallCommit _ (Ok _) => True | _ => False end.

(** A commit of others to the session went through since the engine's last answered
    call. *)
Definition raced (sid : SessionId) (j : list store_call) : Prop :=
  ∃ j1 tx c j2, j = j1 ++ CallForeign tx (Ok c) :: j2 ∧ session.tx_session_id tx = sid ∧
    Forall (λ c, ¬ answered c) j2.

(** A call the store could not do its work for. *)
Definition call_faulted (c : store_call) : Prop :=
  match c with
  | CallView _ (Err e) | CallCommit _ (Err e) => store.is_fault e = true
  | _ => False
  end.

(** A call that failed on the store's side, behind the calls [j]: a fault, or a
    conflict with a commit of others. *)
Definition call_disturbed (j : list store_call) (c : store_call) : Prop :=
  call_faulted c ∨
  match c with
  | CallCommit tx (Err (session.RevisionConflict _ _)) => raced (session.tx_session_id tx) j
  | _ => False
  end.

(** A call of the engine that was answered, or that failed on the store's side only. *)
Definition call_accepted (j : list store_call) (c : store_call) : Prop :=
  match c with CallForeign _ _ => True | c => answered c ∨ call_disturbed j c end.

(** Others leave the session alone, or change its title only. *)
Definition bystander (sid : SessionId) (tx : session.SessionTransaction) : Prop :=
  session.tx_session_id tx ≠ sid ∨
  Forall (λ k, ∃ title, k = session.TitleSet title) (session.new_kind <$> session.tx_entries tx).

(** What such commits leave of a session: its turns and operations, and either all
    of it or a later revision. *)
Record renamed (p p' : session.SessionProjection) : Prop := {
  renamed_lifecycle : session.lifecycle p' = session.lifecycle p;
  renamed_moved : p' = p ∨ session.revision p < session.revision p'
}.
#[export] Instance renamed_preorder : PreOrder renamed.
Proof.
  split; [by split; [|left]|]. intros p1 p2 p3 [L1 H1] [L2 H2]. split; [congruence|].
  destruct H1 as [->|?], H2 as [->|?]; auto. right. lia.
Qed.
Lemma renamed_revision p p' : renamed p p' → session.revision p ≤ session.revision p'.
Proof. intros [_ [->|?]]; lia. Qed.
Lemma renamed_still p p' : renamed p p' → session.revision p' ≤ session.revision p → p' = p.
Proof. intros [_ [->|?]] ?; [done|lia]. Qed.

Lemma raced_later sid j c : raced sid j → ¬ answered c → raced sid (j ++ [c]).
Proof.
  intros (j1 & tx & cm & j2 & -> & Hs & Hn) Hc. exists j1, tx, cm, (j2 ++ [c]).
  split; [by rewrite <- app_assoc|]. split; [done|]. apply Forall_app. split; [done|]. by constructor.
Qed.

(** ** Weakest preconditions *)
Section wp.
Context {St : Type}.

Definition wp {A} (m : M St A) (Q : A → World St → Prop) (w : World St) : Prop :=
  match m w with (Ok a, w) => Q a w | _ => False end.

Lemma wp_elim {A} (m : M St A) Q w : wp m Q w → ∃ a w', m w = (Ok a, w') ∧ Q a w'.
Proof. unfold wp. destruct (m w) as [[a|e|] w']; naive_solver. Qed.

Lemma wp_ret {A} (a : A) Q w : Q a w → wp (ret a) Q w.
Proof. done. Qed.

Lemma wp_bind {A B} (m : M St A) (f : A → M St B) Q w :
  wp m (λ a, wp (f a) Q) w → wp (bind m f) Q w.
Proof. unfold wp, bind. by destruct (m w) as [[a|e|] w']. Qed.

Lemma wp_mono {A} (m : M St A) (P Q : A → World St → Prop) w :
  wp m P w → (∀ a w', P a w' → Q a w') → wp m Q w.
Proof. unfold wp. destruct (m w) as [[a|e|] w']; auto. Qed.

Lemma wp_attempt_Ok {E A} (m : outcome E A) a Q w : m = Ok a → Q (inr a) w → wp (attempt m) Q w.
Proof. by intros ->. Qed.
Lemma wp_attempt_Err {E A} (m : outcome E A) e Q w : m = Err e → Q (inl e) w → wp (attempt m) Q w.
Proof. by intros ->. Qed.

Lemma wp_get_shared Q (w : World St) : Q (shared w) w → wp get_shared Q w.
Proof. done. Qed.
End wp.

(** ** Operation events *)
Definition settlement_event (e : AgentEvent)
    : option (OperationId * OperationStatus * SettlementDurability * SettlementRevision) :=
  match e with EvOperationSettled o s d r => Some (o, s, d, r) | _ => None end.

(** The settlements an operation reported, oldest first. *)
Definition settlements (sh : OperationShared) := filter_map settlement_event (events sh).

Section engine_logic.
Context {St : Type} `{store.StoreLaws St}.
Context (env : Env) (ctx : EngineContext) (sid : SessionId) (op : OperationId) (tid : TurnId).

Abbreviation World := (World (Recorder St)).
Implicit Types w : World.

(** The session as the store serves it. *)
Definition proj w : session.SessionProjection := store.serves (recorded (store w)) sid.

(** A call of the operation failed on the store's side. *)
Definition disturbed w : Prop := ∃ j1 c j2, journal (store w) = j1 ++ c :: j2 ∧ call_disturbed j1 c.

(** The revision is the session's, or commits of others have moved that on. *)
Definition behind w (rev : session.SessionRevision) : Prop :=
  rev = session.revision (proj w) ∨
  rev < session.revision (proj w) ∧ raced sid (journal (store w)).

Definition cancelled w : Prop := cancel_requested (shared w) = true.

(** What the environment may do: only the user and the timeout cancel. *)
Definition env_ok : Prop :=
  (∀ n r, env_cancel env n = Some r → r ≠ session.ReasonAbandoned) ∧
  (∀ n i r, env_tool env n i = Outlives r → r ≠ session.ReasonAbandoned).

(** The invariant of a running operation. *)
Record live w : Prop := {
  live_op : operation_id (shared w) = op;
  live_turn : turn_id (shared w) = tid;
  live_phase : is_settled (phase (shared w)) = false;
  live_events : settlements (shared w) = [];
  live_cancel : cancel_requested (shared w) = session.is_some (cancel_reason_slot (shared w));
  live_reason : cancel_reason_slot (shared w) ≠ Some session.ReasonAbandoned;
  live_usable : store.usable (recorded (store w));
  live_foreign : Forall (Forall (bystander sid)) (foreign (store w));
  live_journal : always call_accepted (journal (store w))
}.

(** [w'] follows [w] with the store untouched. *)
Record after w w' : Prop := {
  after_live : live w';
  after_store : store w' = store w;
  after_cancelled : cancelled w → cancelled w'
}.

Lemma after_refl w : live w → after w w.
Proof. by split. Qed.
Lemma after_trans w1 w2 w3 : after w1 w2 → after w2 w3 → after w1 w3.
Proof. intros [? ? ?] [? ? ?]. split; [done|congruence|auto]. Qed.

Lemma after_proj w w' : after w w' → proj w' = proj w.
Proof. intros [_ Hs _]. unfold proj. by rewrite Hs. Qed.

(** A change of the shared record that keeps the invariant. *)
Definition tame (f : OperationShared → OperationShared) : Prop := ∀ sh,
  operation_id (f sh) = operation_id sh ∧ turn_id (f sh) = turn_id sh ∧
  (is_settled (phase sh) = false → is_settled (phase (f sh)) = false) ∧
  settlements (f sh) = settlements sh ∧
  (cancel_requested sh = session.is_some (cancel_reason_slot sh) →
   cancel_requested (f sh) = session.is_some (cancel_reason_slot (f sh))) ∧
  (cancel_requested sh = true → cancel_requested (f sh) = true) ∧
  (cancel_reason_slot sh ≠ Some session.ReasonAbandoned →
   cancel_reason_slot (f sh) ≠ Some session.ReasonAbandoned).

Lemma tame_after f w : tame f → live w → after w (set_shared w (f (shared w))).
Proof.
  intros Hf [? ? ? ? ? ? ? ? ?]. destruct (Hf (shared w)) as (?&?&?&?&?&?&?).
  split; [split; simpl; try done; try congruence; auto|done|]. unfold cancelled. simpl. auto.
Qed.

Lemma tame_push e : settlement_event e = None → tame (λ sh, publish sh e).
Proof.
  intros He sh. unfold publish, settlements.
  destruct (is_transient_agent e) eqn:Ht; simpl.
  - by destruct e.
  - split_and!; try (by destruct e).
    assert (∀ sh', filter_map settlement_event (events sh' ++ [e]) =
      filter_map settlement_event (events sh')) as Heq.
    { intros. by rewrite filter_map_snoc, He, app_nil_r. }
    destruct e; try done; apply Heq.
Qed.

Lemma tame_phase p : is_settled p = false → tame (λ sh, set_phase sh p).
Proof. by intros Hp sh. Qed.

Lemma tame_request r : r ≠ session.ReasonAbandoned → tame (λ sh, request_cancel sh r).
Proof.
  intros Hr sh. unfold request_cancel. destruct (cancel_reason_slot sh) eqn:Hs; simpl.
  - by rewrite Hs.
  - split_and!; try done; congruence.
Qed.

Lemma tame_poll now : tame (λ sh, poll_cancel sh now).
Proof.
  intros sh. unfold poll_cancel. case_match; [by apply tame_request|by split_and!].
Qed.

Lemma tame_deadline t now : tame (λ sh, arm_deadline sh t now).
Proof. intros sh. by split_and!. Qed.

Lemma tame_compose f g : tame f → tame g → tame (λ sh, g (f sh)).
Proof.
  intros Hf Hg sh. destruct (Hf sh) as (?&?&?&?&?&?&?), (Hg (f sh)) as (?&?&?&?&?&?&?).
  split_and!; auto; congruence.
Qed.

Lemma tame_id : tame (λ sh, sh).
Proof. intros sh. by split_and!. Qed.

(** ** Rules for the steps that leave the store alone *)
Lemma wp_update f Q w :
  tame f → live w → (∀ w', after w w' → Q tt w') → wp (update_shared f) Q w.
Proof. intros Hf Hl HQ. apply HQ. by apply tame_after. Qed.

Lemma wp_push e Q w :
  settlement_event e = None → live w → (∀ w', after w w' → Q tt w') → wp (push e) Q w.
Proof. intros. apply wp_update; [by apply tame_push|done..]. Qed.

Lemma wp_phase p Q w :
  is_settled p = false → live w → (∀ w', after w w' → Q tt w') → wp (op_set_phase p) Q w.
Proof. intros. apply wp_update; [by apply tame_phase|done..]. Qed.

Lemma advance_after w : live w → after w (advance w).
Proof. intros [? ? ? ? ? ? ? ? ?]. by split. Qed.

Lemma wp_look {A} (f : nat → A) Q w :
  live w → (∀ w', after w w' → Q (f (tick w)) w') → wp (look f) Q w.
Proof. intros Hl HQ. apply (HQ (advance w)). by apply advance_after. Qed.

Lemma wp_cancel_requested Q w :
  env_ok → live w →
  (∀ b w', after w w' → (b = true ↔ cancelled w') → Q b w') → wp (is_cancel_requested env) Q w.
Proof.
  intros [Henv _] Hl HQ. unfold is_cancel_requested.
  apply wp_bind, wp_look; [done|]. intros w1 H1.
  apply wp_bind, wp_look; [apply H1|]. intros w2 H2.
  apply wp_bind, wp_update; [|apply H2|].
  - refine (tame_compose _ _ _ (tame_poll _)).
    destruct (env_cancel env (tick w)) eqn:Hc; [|apply tame_id].
    apply tame_request. by apply (Henv (tick w)).
  - intros w3 H3. apply wp_bind, wp_get_shared, wp_ret. apply HQ; [|done].
    eauto using after_trans.
Qed.

(** ** Rules for the calls of the store *)
Lemma served_log w : live w → ∃ Ls, session_log sid Ls (proj w).
Proof. intros Hl. apply store.served_law, Hl. Qed.

Lemma served_wf w : live w → projection_wf (proj w).
Proof.
  intros [Ls Hlog]%served_log. by eapply reachable_wf, session_log_reachable.
Qed.

(** The world behind the commits of others. *)
Definition interrupted_world w : World := set_store w (interrupted (store w)).

(** One commit of others. *)
Lemma foreign_step (s : St * list store_call) tx :
  store.usable s.1 → bystander sid tx → always call_accepted s.2 →
  let s' := foreign_commit s tx in
  store.usable s'.1 ∧ always call_accepted s'.2 ∧
  renamed (store.serves s.1 sid) (store.serves s'.1 sid) ∧
  (∀ sid', raced sid' s.2 → raced sid' s'.2) ∧
  (store.serves s'.1 sid = store.serves s.1 sid ∨ raced sid s'.2).
Proof.
  intros Hu Hb Hj. unfold foreign_commit. destruct (store.commit_law s.1 tx Hu) as [Hu' Hc].
  destruct (store.store_commit s.1 tx) as [s' r]; cbn in *.
  split; [done|]. split; [by apply always_snoc|].
  assert (∀ sid', raced sid' s.2 → raced sid' (s.2 ++ [CallForeign tx r])) as Hr.
  { intros sid' Hr. apply raced_later; [done|by intros []]. }
  destruct r as [c|e|]; [|destruct Hc as [Hs _]; rewrite Hs; split; [reflexivity|auto]|done].
  destruct Hc as (a & Hrev & Ha & _ & Hs). rewrite Hs. clear Hs. case_bool_decide as Hs; [|split; [reflexivity|auto]]. subst sid.
  assert (raced (session.tx_session_id tx) (s.2 ++ [CallForeign tx (Ok c)])) as Hrc by by exists s.2, tx, c, [].
  split; [|auto]. destruct Hb as [?|Hk]; [done|]. split.
  - apply script.apply_lifecycle in Ha. revert Ha. generalize (session.lifecycle (session.applied_projection a)) as lc'.
    revert Hk. generalize (session.new_kind <$> session.tx_entries tx) as ks. clear.
    intros ks Hk lc' Ha. induction Hk as [|k ks [title ->] _ IH]; [by injection Ha as ->|]. apply IH. exact Ha.
  - right. rewrite (script.apply_revision _ _ _ Ha). lia.
Qed.

Lemma foreign_steps txs (s : St * list store_call) :
  store.usable s.1 → Forall (bystander sid) txs → always call_accepted s.2 →
  let s' := foldl foreign_commit s txs in
  store.usable s'.1 ∧ always call_accepted s'.2 ∧
  renamed (store.serves s.1 sid) (store.serves s'.1 sid) ∧
  (∀ sid', raced sid' s.2 → raced sid' s'.2) ∧
  (store.serves s'.1 sid = store.serves s.1 sid ∨ raced sid s'.2).
Proof.
  intros Hu Hb. revert s Hu. induction Hb as [|tx txs Hb _ IH]; intros s Hu Hj; cbn [foldl].
  { split_and!; auto. reflexivity. }
  destruct (foreign_step s tx Hu Hb Hj) as (U & J & R & K & D).
  destruct (IH (foreign_commit s tx) U J) as (U' & J' & R' & K' & D').
  split_and!; auto; [by etrans|]. destruct D' as [->|?]; [|auto]. destruct D as [->|?]; auto.
Qed.

(** What the commits of others leave to the engine. *)
Lemma interrupted_ok w :
  live w →
  let w' := interrupted_world w in
  live w' ∧ renamed (proj w) (proj w') ∧ (∀ rev, behind w rev → behind w' rev).
Proof.
  intros Hl. destruct (Hl) as [? ? ? ? ? ? Hu Hf Hj]. cbv zeta.
  assert (Forall (bystander sid) (default [] (head (foreign (store w))))) as Hb.
  { destruct (foreign (store w)) as [|txs rest]; [constructor|]. by inversion Hf. }
  destruct (foreign_steps _ (recorded (store w), journal (store w)) Hu Hb Hj) as (U & J & R & K & D).
  split; [|split; [exact R|]].
  - split; try done. cbn. destruct (foreign (store w)); [constructor|]. by inversion Hf.
  - intros rev [->|[Hlt Hr]].
    + destruct D as [D|D]; [left; unfold proj; cbn; by rewrite D|]. destruct R as [_ [R|R]].
      * left. unfold proj. cbn. by rewrite R.
      * right. by split.
    + right. apply renamed_revision in R. split; [|by apply K].
      eapply Nat.lt_le_trans; [exact Hlt|exact R].
Qed.

(** A call answered by the recorder: what it leaves of the invariant. *)
Lemma record_live {A} w (call : St * session.answer A) entry :
  live w → store.usable call.1 → call_accepted (journal (store w)) (entry call.2) →
  live (set_store w (record (store w) call entry).1).
Proof.
  intros [? ? ? ? ? ? ? ? ?] Hu He. split; simpl; try done. by apply always_snoc.
Qed.

(** A call that failed leaves the engine where it was. *)
Lemma record_behind {A} w (call : St * session.answer A) entry rev :
  store.serves call.1 sid = proj w → ¬ answered (entry call.2) →
  behind w rev → behind (set_store w (record (store w) call entry).1) rev.
Proof.
  intros Hs Hn. assert (proj (set_store w (record (store w) call entry).1) = proj w) as Hp by exact Hs.
  unfold behind. rewrite Hp. intros [->|[Hlt Hr]]; [by left|right]. split; [done|]. by apply raced_later.
Qed.

Lemma disturbed_now w j c : journal (store w) = j ++ [c] → call_disturbed j c → disturbed w.
Proof. intros Hj Hd. by exists j, c, []. Qed.

(** A commit at a revision the engine knows of. It is answered only when the session
    is still the one the engine knows. *)
Lemma wp_commit tx Q w :
  live w → session.tx_session_id tx = sid → behind w (session.tx_expected_revision tx) →
  (session.tx_expected_revision tx = session.revision (proj w) → tx_accepted (proj w) tx) →
  (∀ w' c a, live w' → shared w' = shared w → session.tx_expected_revision tx = session.revision (proj w) →
     session.apply (proj w) tx = Ok a → proj w' = session.applied_projection a →
     session.commit_revision c = session.revision (proj w') → Q (inr c) w') →
  (∀ w' e, live w' → shared w' = shared w → renamed (proj w) (proj w') →
     (∀ rev, behind w rev → behind w' rev) → disturbed w' → Q (inl e) w') →
  wp (commit tx) Q w.
Proof.
  intros Hl0 Hsid Hb0 Hacc Hok Herr. destruct (interrupted_ok w Hl0) as (Hl & Hren & Hkeep).
  pose proof (Hkeep _ Hb0) as Hb. pose proof (renamed_revision _ _ Hren) as Hle.
  assert (session.tx_expected_revision tx ≤ session.revision (proj w)) as Hexp by (destruct Hb0 as [->|[? _]]; lia).
  set (w1 := interrupted_world w) in *. unfold commit, wp.
  change (store.store_commit (store w) tx)
    with (record (store w1) (store.store_commit (recorded (store w1)) tx) (CallCommit tx)).
  destruct (store.commit_law (recorded (store w1)) tx (live_usable _ Hl)) as [Hu Hc].
  rewrite Hsid in Hc. fold (proj w1) in Hc.
  pose proof (record_live w1 (store.store_commit (recorded (store w1)) tx) (CallCommit tx) Hl Hu) as Hlive.
  pose proof (λ rev, record_behind w1 (store.store_commit (recorded (store w1)) tx) (CallCommit tx) rev) as Hbeh.
  destruct (store.store_commit (recorded (store w1)) tx) as [s [c|e|]]; simpl in *; [| |done].
  - destruct Hc as (a&Hrev&Ha&Hcm&Hs).
    assert (proj w1 = proj w) as Hsame by (apply renamed_still; [done|lia]).
    rewrite Hsame in Ha. apply (Hok _ c a); [apply Hlive; by left|done|lia|done|..].
    + unfold proj. simpl. by rewrite Hs, bool_decide_eq_true_2.
    + unfold proj at 1. simpl. rewrite Hs, bool_decide_eq_true_2 by done.
      destruct (store.applied_commit_Ok _ _ _ Ha) as (leaf&_&Hcm'). rewrite Hcm in Hcm'. by injection Hcm' as ->.
  - destruct Hc as [Hs Hwhy]. specialize (Hs sid). fold (proj w1) in Hs.
    assert (call_disturbed (journal (store w1)) (CallCommit tx (Err e))) as Hd.
    { destruct Hwhy as [[Hne ->]|[[Hrev Ha]|Hf]]; [right|exfalso|by left].
      - destruct Hb as [?|[_ Hr]]; [done|]. by rewrite Hsid.
      - assert (proj w1 = proj w) as Hsame by (apply renamed_still; [done|lia]).
        rewrite Hsame in *. destruct (accepted_apply _ _ (Hacc Hrev)) as [a Ha']. congruence. }
    apply Herr; [apply Hlive; by right|done| | |by eapply disturbed_now].
    + unfold proj at 2. simpl. by rewrite Hs.
    + intros rev Hr. apply Hbeh; [done|by intros []|]. by apply Hkeep.
Qed.

(** The transactions the engine builds from kinds the lifecycle decides. *)
Lemma wp_commit_linear rev kinds lc Q w :
  live w → behind w rev →
  kinds ≠ [] → Forall script.plain kinds → save_point (session.lifecycle (proj w)) kinds →
  lc_accept_all (session.lifecycle (proj w)) kinds = Ok lc →
  (∀ w' c, live w' → shared w' = shared w → session.lifecycle (proj w') = lc →
     session.commit_revision c = session.revision (proj w') → Q (inr c) w') →
  (∀ w' e, live w' → shared w' = shared w → renamed (proj w) (proj w') →
     (∀ rev, behind w rev → behind w' rev) → disturbed w' → Q (inl e) w') →
  wp (commit (session.linear sid rev kinds)) Q w.
Proof.
  intros Hl Hb Hne Hplain Hsp Hacc Hok Herr.
  apply wp_commit; [done..| | |done].
  - cbn [session.linear session.tx_expected_revision]. intros ->. by eapply script.linear_accepted.
  - intros w' c a Hl' Hsh _ Ha Hp Hr. apply Hok; try done.
    apply script.apply_lifecycle in Ha. rewrite script.linear_kinds, Hacc in Ha.
    injection Ha as ->. by rewrite Hp.
Qed.

Lemma wp_context_view Q w :
  live w →
  (∀ w' v, live w' → shared w' = shared w → renamed (proj w) (proj w') →
     session.context_view (proj w') sid = Ok v → Q (inr v) w') →
  (∀ w' e, live w' → shared w' = shared w → renamed (proj w) (proj w') →
     (∀ rev, behind w rev → behind w' rev) → disturbed w' → Q (inl e) w') →
  wp (context_view sid) Q w.
Proof.
  intros Hl0 Hok Herr. destruct (interrupted_ok w Hl0) as (Hl & Hren & Hkeep).
  set (w1 := interrupted_world w) in *. unfold context_view, wp.
  change (store.store_context_view (store w) sid)
    with (record (store w1) (store.store_context_view (recorded (store w1)) sid) (CallView sid)).
  destruct (store.view_law (recorded (store w1)) sid (live_usable _ Hl)) as (Hv&Hu&Hs).
  pose proof (record_live w1 (store.store_context_view (recorded (store w1)) sid) (CallView sid) Hl Hu) as Hlive.
  pose proof (λ rev, record_behind w1 (store.store_context_view (recorded (store w1)) sid) (CallView sid) rev) as Hbeh.
  destruct (served_log _ Hl) as [Ls Hlog].
  destruct (store.reachable_view _ sid (session_log_reachable _ _ _ Hlog)) as [v Hview].
  specialize (Hs sid). fold (proj w1) in Hv, Hs.
  destruct (store.store_context_view (recorded (store w1)) sid) as [s r]; simpl in *.
  destruct Hv as [->|(e&->&Hf)].
  - rewrite Hview in *. apply (Hok _ v); [apply Hlive; by left|done|unfold proj at 2; simpl; by rewrite Hs|].
    unfold proj at 1. simpl. by rewrite Hs.
  - apply Herr; [apply Hlive; right; by left|done|unfold proj at 2; simpl; by rewrite Hs| |].
    + intros rev Hr. apply Hbeh; [done|by intros []|]. by apply Hkeep.
    + eapply disturbed_now; [reflexivity|by left].
Qed.
End engine_logic.

End logic.

Import runtime mapping operation engine logic.

Module settle.

(** ** What a settled operation has reported *)
Definition exit_for (status : OperationStatus) (durability : SettlementDurability) : DriverExit :=
  match status, durability with
  | Succeeded, _ => ExitSucceeded
  | Failed, Confirmed => ExitFailedConfirmed
  | Failed, Unconfirmed => ExitFailedUnconfirmed
  | Cancelled, _ => ExitCancelledConfirmed
  end.

Definition status_of_outcome (out : session.OperationOutcome) : OperationStatus :=
  match out with
  | session.OpSucceeded => Succeeded
  | session.OpFailed => Failed
  | session.OpCancelled _ => Cancelled
  end.

(** A failure of the engine's own: its row is looked up in the table. *)
Ltac catalogued_row := left; apply (bool_decide_unpack _); vm_compute; exact I.

Section settle.
Context {St : Type} `{store.StoreLaws St} `{Build} `{DebugSessionError}.
Context (env : Env) (ctx : EngineContext) (sid : SessionId) (op : OperationId) (tid : TurnId).

Abbreviation World := (World (Recorder St)).
Abbreviation live := (live sid op tid).
Implicit Types w : World.

(** An error the model port gave out. *)
Definition offered (e : ModelError) : Prop := ∃ n request,
  env_start env n request = inl e ∨ ∃ stream, env_start env n request = inr stream ∧ inl e ∈ stream.

(** A failure with a row of the frozen table, or passed through from the model
    port. *)
Definition catalogued (failure : AgentFailure) : Prop :=
  code_row failure ∈ AGENT_OWNED_CODES ∨
  ∃ e, offered e ∧ code_row failure = code_row (from_model_error e).

(** One settlement, the last event, and the exit that goes with it. *)
Record reported (status : OperationStatus) (durability : SettlementDurability)
    (rev : SettlementRevision) w : Prop := {
  reported_phase : phase (shared w) = Settled status;
  reported_exit : exit (shared w) = Some (exit_for status durability);
  reported_once : settlements (shared w) = [(op, status, durability, rev)];
  reported_last : last (events (shared w)) = Some (EvOperationSettled op status durability rev);
  reported_cancel : status = Cancelled → cancelled w;
  reported_failure : status = Failed → ∃ f, failure (shared w) = Some f ∧ catalogued f;
  reported_usable : store.usable (recorded (store w));
  reported_foreign : Forall (Forall (bystander sid)) (foreign (store w));
  reported_journal : always call_accepted (journal (store w))
}.

(** What the session holds, by what was reported. *)
Definition durable (status : OperationStatus) (durability : SettlementDurability)
    (rev : SettlementRevision) w : Prop :=
  let lc := session.lifecycle (proj sid w) in
  match durability, rev with
  | Confirmed, Committed r =>
      r = session.revision (proj sid w) ∧
      ∃ out, script.closed op tid lc out ∧ status = status_of_outcome out
  | Confirmed, Unchanged =>
      status = Cancelled ∧ script.unused op tid lc ∧ session.open_turn_ids lc = []
  | Unconfirmed, Unchanged =>
      status = Failed ∧ disturbed w ∧ script.sealable lc ∧
      (∀ r, session.operations lc !! op = Some r → session.op_outcome r = None)
  | Unconfirmed, Committed _ => False
  end.

Definition settled w : Prop := ∃ status durability rev,
  reported status durability rev w ∧ durable status durability rev w.

(** The functions that settle leave the store alone; [reports] computes their
    effect on a live operation. *)
Ltac reports :=
  intros [Ho Ht Hp He ? ? ? ? ?] *; try intros Hc;
  unfold succeed, fail_confirmed, fail_unconfirmed, publisher_fail, cancel_zero_trace,
    cancel_committed, wp, op_settle, operation.settle, bind;
  rewrite Hp; simpl; split; [|done]; split; simpl; rewrite ?Ho; try done; eauto;
  [unfold settlements in *; simpl; by rewrite !filter_map_snoc, He|by rewrite last_snoc].

Lemma succeed_reports assistant rev w :
  live w →
  wp (succeed assistant rev)
    (λ _ w', reported Succeeded Confirmed (Committed rev) w' ∧ store w' = store w) w.
Proof. reports. Qed.

Lemma fail_confirmed_reports failure rev w :
  live w → catalogued failure →
  wp (fail_confirmed failure rev)
    (λ _ w', reported Failed Confirmed (Committed rev) w' ∧ store w' = store w) w.
Proof. reports. Qed.

Lemma fail_unconfirmed_reports failure w :
  live w → catalogued failure →
  wp (fail_unconfirmed failure)
    (λ _ w', reported Failed Unconfirmed Unchanged w' ∧ store w' = store w) w.
Proof. reports. Qed.

Lemma cancel_zero_trace_reports w :
  live w → cancelled w →
  wp cancel_zero_trace
    (λ _ w', reported Cancelled Confirmed Unchanged w' ∧ store w' = store w) w.
Proof. reports. Qed.

Lemma cancel_committed_reports rev w :
  live w → cancelled w →
  wp (cancel_committed rev)
    (λ _ w', reported Cancelled Confirmed (Committed rev) w' ∧ store w' = store w) w.
Proof. reports. Qed.

Lemma proj_store w w' : store w' = store w → proj sid w' = proj sid w.
Proof. intros Hs. unfold proj. by rewrite Hs. Qed.
Lemma disturbed_store w w' : store w' = store w → disturbed w → disturbed w'.
Proof. intros Hs. unfold disturbed. by rewrite Hs. Qed.

Lemma behind_store w w' rev : store w' = store w → behind sid w rev → behind sid w' rev.
Proof. intros Hs. unfold behind, proj. by rewrite Hs. Qed.

(** ** Settling with what the session holds *)
Lemma wp_succeed assistant rev w :
  live w → rev = session.revision (proj sid w) →
  script.closed op tid (session.lifecycle (proj sid w)) session.OpSucceeded →
  wp (succeed assistant rev) (λ _, settled) w.
Proof.
  intros Hl -> Hc. eapply wp_mono; [by apply succeed_reports|].
  intros _ w' [Hr Hs]. do 3 eexists. split; [exact Hr|].
  unfold durable. rewrite (proj_store _ _ Hs). eauto.
Qed.

Lemma wp_fail_confirmed failure rev w :
  live w → catalogued failure → rev = session.revision (proj sid w) →
  script.closed op tid (session.lifecycle (proj sid w)) session.OpFailed →
  wp (fail_confirmed failure rev) (λ _, settled) w.
Proof.
  intros Hl Hcat -> Hc. eapply wp_mono; [by apply fail_confirmed_reports|].
  intros _ w' [Hr Hs]. do 3 eexists. split; [exact Hr|].
  unfold durable. rewrite (proj_store _ _ Hs). eauto.
Qed.

Lemma wp_cancel_committed rev reason w :
  live w → cancelled w → rev = session.revision (proj sid w) →
  script.closed op tid (session.lifecycle (proj sid w)) (session.OpCancelled reason) →
  wp (cancel_committed rev) (λ _, settled) w.
Proof.
  intros Hl Hcan -> Hc. eapply wp_mono; [by apply cancel_committed_reports|].
  intros _ w' [Hr Hs]. do 3 eexists. split; [exact Hr|].
  unfold durable. rewrite (proj_store _ _ Hs). eauto.
Qed.

(** The engine returns [None] once the operation is settled. *)
Lemma wp_settled_None {A} (m : M (Recorder St) unit) (Q : option A → World → Prop) w :
  wp m (λ _, settled) w → (∀ w', settled w' → Q None w') → wp (m ;; ret None) Q w.
Proof. intros Hm HQ. apply wp_bind. eapply wp_mono; [exact Hm|]. intros [] w' Hs. by apply HQ. Qed.

(** The operation has no settlement in the session. *)
Definition unsettled (lc : session.LifecycleProjection) : Prop :=
  script.sealable lc ∧ ∀ r, session.operations lc !! op = Some r → session.op_outcome r = None.

Lemma wp_fail_unconfirmed failure w :
  live w → catalogued failure → disturbed w → unsettled (session.lifecycle (proj sid w)) →
  wp (fail_unconfirmed failure) (λ _, settled) w.
Proof.
  intros Hl Hcat Hf [? ?]. eapply wp_mono; [by apply fail_unconfirmed_reports|].
  intros _ w' [Hr Hs]. do 3 eexists. split; [exact Hr|].
  unfold durable. rewrite (proj_store _ _ Hs). split; [done|]. split; [|done].
  by eapply disturbed_store.
Qed.

Lemma wp_cancel_zero_trace w :
  live w → cancelled w → script.unused op tid (session.lifecycle (proj sid w)) →
  session.open_turn_ids (session.lifecycle (proj sid w)) = [] →
  wp cancel_zero_trace (λ _, settled) w.
Proof.
  intros Hl Hcan ? ?. eapply wp_mono; [by apply cancel_zero_trace_reports|].
  intros _ w' [Hr Hs]. do 3 eexists. split; [exact Hr|].
  unfold durable. by rewrite (proj_store _ _ Hs).
Qed.

Lemma in_turn_unsettled w bs :
  live w → script.in_turn op tid (session.lifecycle (proj sid w)) bs →
  unsettled (session.lifecycle (proj sid w)).
Proof.
  intros Hl Hin. split.
  - eapply script.in_turn_sealable; [|done]. eapply wf_lifecycle, served_wf, Hl.
  - intros r Hr. rewrite (script.in_turn_op _ _ _ _ Hin) in Hr. by simplify_eq.
Qed.

(** ** TurnCx::fail, TurnCx::cancel *)

(** The cursor of the driver agrees with the session and the kernel. *)
Record cursor (cx : TurnCx) (effect_id : kernel.EffectId) w
    (bs : list session.ToolBatchRecord) : Prop := {
  cursor_session : cx_session_id cx = sid;
  cursor_revision : behind sid w (cx_revision cx);
  cursor_effect : KernelProofs.outstanding (cx_state cx) = Some effect_id;
  cursor_turn : script.in_turn op tid (session.lifecycle (proj sid w)) bs
}.

Lemma cursor_after cx eff w w' bs : after sid op tid w w' → cursor cx eff w bs → cursor cx eff w' bs.
Proof.
  intros Ha [? Hr ? ?]. pose proof (after_store _ _ _ _ _ Ha) as Hs.
  split; [done|by eapply behind_store|done|by rewrite (after_proj sid _ _ _ _ Ha)].
Qed.
Lemma cursor_moved cx eff w w' bs :
  renamed (proj sid w) (proj sid w') → (∀ rev, behind sid w rev → behind sid w' rev) →
  cursor cx eff w bs → cursor cx eff w' bs.
Proof. intros [Hp _] Hk [? ? ? ?]. split; [done|by apply Hk|done|by rewrite Hp]. Qed.
Lemma terminate_ok st eff failure :
  KernelProofs.outstanding st = Some eff →
  ∃ t, kernel.transition st (kernel.TerminationRequested eff failure) = Ok t ∧
    kernel.observations t =
      [kernel.TurnFailureAccepted eff failure; kernel.TurnTerminated kernel.Failed].
Proof.
  destruct st as [[]]; unfold KernelProofs.outstanding; simpl; try done; intros [= ->];
    unfold kernel.transition, kernel.terminate; simpl;
    rewrite bool_decide_eq_true_2 by done; simpl; eauto.
Qed.

Lemma cancel_ok st eff :
  KernelProofs.outstanding st = Some eff →
  ∃ t, kernel.transition st (kernel.CancelRequested eff) = Ok t.
Proof.
  destruct st as [[]]; unfold KernelProofs.outstanding; simpl; try done; intros [= ->];
    unfold kernel.transition, kernel.cancel; simpl;
    rewrite bool_decide_eq_true_2 by done; simpl; eauto.
Qed.

Lemma catalogued_appended failure suffix :
  catalogued failure → catalogued (with_appended_diagnostic failure suffix).
Proof. done. Qed.

Lemma wp_cx_fail cx eff failure w bs :
  live w → catalogued failure → cursor cx eff w bs → wp (cx_fail ctx cx eff failure) (λ _, settled) w.
Proof.
  intros Hl Hcat [Hs Hr He Hin]. unfold cx_fail.
  apply wp_bind, wp_get_shared.
  destruct (terminate_ok _ _ (kernel_failure failure) He) as (t&Ht&Hobs).
  apply wp_bind. eapply wp_attempt_Ok; [exact Ht|]. cbv beta iota. rewrite Hobs.
  apply wp_bind. eapply wp_attempt_Ok; [reflexivity|]. cbv beta iota.
  rewrite (live_op _ _ _ _ Hl), (live_turn _ _ _ _ Hl), Hs.
  destruct (script.failure_accepted op tid _ bs
    (session_failure_from_kernel (kernel_failure failure))
    (session_usage <$> last_usage (shared w)) (Some (generation_choice ctx)) Hin)
    as (lc'&Hacc&Hclosed).
  apply wp_bind. eapply wp_commit_linear; [exact Hl|exact Hr|done|by repeat constructor| |exact Hacc|..].
  - apply script.save_point_plain; [done|]. intros ? ?. set_solver.
  - intros w' c Hl' _ Hlc Hrev. apply wp_fail_confirmed; [done|done|done|by rewrite Hlc].
  - intros w' e Hl' _ Hp Hk Hf. apply wp_fail_unconfirmed; [done|by apply catalogued_appended|done|].
    rewrite (renamed_lifecycle _ _ Hp). by eapply in_turn_unsettled.
Qed.

Lemma wp_push_all es Q w :
  Forall (λ e, settlement_event e = None) es → live w →
  (∀ w', after sid op tid w w' → Q tt w') → wp (push_all es) Q w.
Proof.
  intros Hes. revert w. induction Hes as [|e es He _ IH]; intros w Hl HQ; simpl.
  - apply HQ. by apply after_refl.
  - apply wp_bind, wp_push with (sid := sid) (op := op) (tid := tid); [done|done|]. intros w1 Hw1.
    apply IH; [apply Hw1|]. intros w2 Hw2. eauto using after_trans.
Qed.

Lemma live_cancel_reason w :
  live w → cancel_reason (shared w) ≠ session.ReasonAbandoned.
Proof.
  intros Hl. pose proof (live_reason _ _ _ _ Hl) as Hr. unfold cancel_reason.
  destruct (cancel_reason_slot (shared w)); simpl; congruence.
Qed.

(** The entries that close the turn as cancelled. *)
Definition cancel_tail (reason : session.CancelReason) (usage : option session.SessionTokenUsage)
    : list session.SessionEntryKind :=
  [session.TurnTerminated tid (session.TurnCancelled reason);
   session.OperationSettled op (session.OpCancelled reason) usage
     (Some (generation_choice ctx))].

(** [marks] complete the newest batch of the turn, whatever cancels it. *)
Record cancellable (lc : session.LifecycleProjection) (marks : list session.SessionEntryKind)
    : Prop := {
  cancellable_plain : Forall script.plain marks;
  cancellable_save reason usage : reason ≠ session.ReasonAbandoned →
    save_point lc (marks ++ cancel_tail reason usage);
  cancellable_accepted reason usage : reason ≠ session.ReasonAbandoned →
    ∃ lc', lc_accept_all lc (marks ++ cancel_tail reason usage) = Ok lc' ∧
      script.closed op tid lc' (session.OpCancelled reason)
}.

Lemma no_marks_cancellable lc bs :
  script.in_turn op tid lc bs → script.all_complete bs → cancellable lc [].
Proof.
  intros Hin Hc. split; [done|..].
  - intros. apply script.save_point_plain; [done|]. intros ? ?. unfold cancel_tail. set_solver.
  - intros. by eapply script.turn_cancel_accepted.
Qed.

Lemma wp_cx_cancel cx eff marks evs w bs :
  live w → cancelled w → cursor cx eff w bs →
  cancellable (session.lifecycle (proj sid w)) marks →
  Forall (λ e, settlement_event e = None) evs →
  wp (cx_cancel ctx cx eff marks evs) (λ _, settled) w.
Proof.
  intros Hl Hcan Hcur [Hpl Hsave Hacc] Hevs. pose proof Hcur as [Hs Hr He Hin].
  unfold cx_cancel. destruct (cancel_ok _ _ He) as (t&Ht).
  apply wp_bind. eapply wp_attempt_Ok; [exact Ht|]. cbv beta iota.
  apply wp_bind, wp_get_shared.
  rewrite (live_op _ _ _ _ Hl), (live_turn _ _ _ _ Hl), Hs.
  set (reason := cancel_reason (shared w)).
  assert (reason ≠ session.ReasonAbandoned) as Hreason by by apply live_cancel_reason.
  set (usage := session_usage <$> last_usage (shared w)).
  destruct (Hacc reason usage Hreason) as (lc'&Ha&Hclosed).
  apply wp_bind. eapply wp_commit_linear; [exact Hl|exact Hr| | | |exact Ha|..].
  - by destruct marks.
  - apply Forall_app. split; [done|by repeat constructor].
  - by apply Hsave.
  - intros w' c Hl' Hsh Hlc Hrev. apply wp_bind, wp_push_all; [done|done|].
    intros w2 [Hl2 Hst2 Hc2]. apply (wp_cancel_committed _ reason); [done| | |].
    + apply Hc2. unfold cancelled. by rewrite Hsh.
    + by rewrite (proj_store _ _ Hst2).
    + by rewrite (proj_store _ _ Hst2), Hlc.
  - intros w' e Hl' _ Hp Hk Hf. eapply wp_cx_fail; [done|catalogued_row|by eapply cursor_moved].
Qed.
End settle.

End settle.
