(* ===== verification/EngineTools.v ===== *)
(** The execution of a committed tool batch: every way a batch ends leaves the
    session with a result, an interruption or a cancellation for each call.

    Bounded-parallel tool batches: the bookkeeping of [run_parallel] whatever
    the order in which calls finish, and [tool_batch::run]. *)

From S2P Require Import Prelude RustStr Kernel KernelProofs Session SessionLifecycle.
From S2P Require Import SessionContext SessionProofs SessionStore TurnScript Tools Runtime.
From S2P Require Import RuntimeMapping Operation Engine EngineLogic.
Import runtime mapping operation engine logic settle.

Module batch.

Abbreviation ToolResults := (list (kernel.KernelToolCall * tools.RichToolResult)).

(** The started calls are a prefix: what follows was never started. *)
Definition slots_closed (slots : list BatchSlot) : Prop :=
  ∃ started n, slots = started ++ replicate n SlotUnstarted ∧ SlotUnstarted ∉ started.

Definition slot_outcome (slot : BatchSlot) : session.ToolResultOutcome :=
  match slot with
  | SlotDone rich =>
      match tools.result rich with
      | tools.Success content => session.Success content
      | tools.Error code message => session.Error code message
      end
  | SlotStopped => session.ResultInterrupted
  | SlotUnstarted => session.ResultCancelled
  end.

Definition slot_result (row : kernel.KernelToolCall * BatchSlot) : session.SessionToolResult :=
  {| session.result_call_id := kernel.call_id row.1;
     session.result_outcome := slot_outcome row.2 |}.

Lemma slot_mark_result tid bid row :
  slot_mark tid bid row.1 row.2 = script.result_kind tid bid (slot_result row).
Proof. by destruct row as [call [rich| |]]. Qed.

(** The record of a batch nothing has answered yet. *)
Definition batch_of (bid : kernel.ToolBatchId) (calls : list kernel.KernelToolCall)
    : session.ToolBatchRecord :=
  {| session.batch_id := bid; session.call_ids := kernel.call_id <$> calls;
     session.results := [] |}.

Lemma slot_results_ids calls slots :
  length slots = length calls →
  session.result_call_id <$> (slot_result <$> zip calls slots) = kernel.call_id <$> calls.
Proof.
  intros Hlen. rewrite <- list_fmap_compose.
  change (session.result_call_id ∘ slot_result) with
    (kernel.call_id ∘ @fst kernel.KernelToolCall BatchSlot).
  rewrite list_fmap_compose, fst_zip by lia. done.
Qed.

Lemma slot_results_marks calls slots reason :
  length slots = length calls → slots_closed slots → reason ≠ session.ReasonAbandoned →
  marks_allowed (Some reason) (session.result_outcome <$> (slot_result <$> zip calls slots)).
Proof.
  intros Hlen (started&n&Hs&Hni) Hr. rewrite <- list_fmap_compose.
  change (session.result_outcome ∘ slot_result) with
    (slot_outcome ∘ @snd kernel.KernelToolCall BatchSlot).
  rewrite list_fmap_compose, snd_zip by lia.
  assert (∃ l k, slot_outcome <$> slots = l ++ replicate k session.ResultCancelled ∧
    session.ResultCancelled ∉ l) as Hex.
  { exists (slot_outcome <$> started), n. rewrite Hs, fmap_app, fmap_replicate. split; [done|].
    intros ([rich| |]&Ho&Hin)%list_elem_of_fmap; simpl in Ho; [|done..].
    by destruct (tools.result rich). }
  destruct reason; simpl; done.
Qed.

Lemma completed_events_plain bid rows :
  Forall (λ e, settlement_event e = None) (filter_map (slot_event bid) rows).
Proof.
  apply Forall_forall. intros e He. unfold filter_map in He.
  apply list_elem_of_omap in He as ([i [call [rich| |]]]&_&[= <-]). done.
Qed.

Section batch.
Context {St : Type} `{store.StoreLaws St} `{Build} `{DebugSessionError}.
Context (env : Env) (ctx : EngineContext) (sid : SessionId) (op : OperationId) (tid : TurnId).
Context (Henv : env_ok env).

Abbreviation World := (World (Recorder St)).
Abbreviation live := (live sid op tid).
Abbreviation after := (after sid op tid).
Abbreviation settled := (settled env sid op tid).
Abbreviation catalogued := (catalogued env).
Abbreviation cursor := (cursor sid op tid).
Implicit Types w : World.

Lemma wp_cancellation_observed Q w :
  live w → (∀ w', after w w' → Q tt w') → wp cancellation_observed Q w.
Proof.
  intros Hl HQ. apply wp_bind, wp_get_shared. by apply wp_push with (sid := sid) (op := op) (tid := tid).
Qed.

(** A batch under way: what the session knows about it. *)
Record batch_open (bs : list session.ToolBatchRecord) (calls : list kernel.KernelToolCall)
    : Prop := {
  open_older : script.all_complete bs;
  open_calls : calls ≠ [];
  open_unique : NoDup (kernel.call_id <$> calls)
}.

Lemma batch_cancellable lc bs bid calls slots :
  script.in_turn op tid lc (bs ++ [batch_of bid calls]) → batch_open bs calls →
  length slots = length calls → slots_closed slots →
  cancellable ctx op tid lc (cancellation_batch tid bid calls slots).1.
Proof.
  intros Hin [Hc Hne Hnd] Hlen Hcl.
  assert ((cancellation_batch tid bid calls slots).1 =
    script.result_kind tid bid <$> (slot_result <$> zip calls slots)) as ->.
  { simpl. rewrite <- list_fmap_compose. apply list_fmap_ext.
    intros i row _. apply slot_mark_result. }
  set (rs := slot_result <$> zip calls slots).
  assert (session.result_call_id <$> rs = kernel.call_id <$> calls) as Hids
    by by apply slot_results_ids.
  assert (rs ≠ []) as Hrs.
  { intros Hnil. rewrite Hnil in Hids. by destruct calls. }
  split.
  - apply Forall_fmap. by apply Forall_true.
  - intros reason usage Hr.
    apply (script.results_save tid lc bs (batch_of bid calls)); try done.
    + by apply (script.in_turn_batches op).
    + simpl. lia.
    + by repeat constructor.
    + simpl. rewrite bool_decide_eq_true_2 by done. by apply slot_results_marks.
  - intros reason usage Hr.
    destruct (script.results_accepted op tid lc bs (batch_of bid calls) rs)
      as (lc1&Ha1&Hin1); [done..|].
    destruct (script.turn_cancel_accepted op tid lc1 (bs ++ [script.filled (batch_of bid calls)])
      reason usage (Some (generation_choice ctx))) as (lc2&Ha2&Hcl2); [done| |].
    + apply Forall_app. split; [done|]. by repeat constructor; apply script.filled_complete.
    + exists lc2. split; [|done]. by eapply script.lc_accept_all_app.
Qed.

Lemma wp_cancel_batch cx eff bid calls slots bs w :
  live w → cancelled w → cursor cx eff w (bs ++ [batch_of bid calls]) → batch_open bs calls →
  length slots = length calls → slots_closed slots →
  wp (cancel_batch ctx cx eff bid calls slots) (λ _, settled) w.
Proof.
  intros Hl Hcan Hcur Hopen Hlen Hcl. apply wp_bind, wp_cancellation_observed; [done|].
  intros w1 Hw1. apply wp_bind, wp_get_shared.
  rewrite (live_turn _ _ _ _ (after_live _ _ _ _ _ Hw1)).
  pose proof (completed_events_plain bid (session.enumerate (zip calls slots))) as Hev.
  pose proof (cursor_after sid op tid cx eff _ w1 _ Hw1 Hcur) as Hcur1.
  pose proof (batch_cancellable _ _ _ _ slots (cursor_turn _ _ _ _ _ _ _ Hcur1) Hopen Hlen Hcl)
    as Hcb.
  eapply wp_cx_cancel; [apply Hw1|by apply Hw1|exact Hcur1|exact Hcb|exact Hev].
Qed.

(** ** The results barrier *)

(** What the driver gets back from a batch: the real results in call order,
    committed, or nothing because the operation is settled. *)
Definition batch_end (cx : TurnCx) (eff : kernel.EffectId) (bs : list session.ToolBatchRecord)
    (bid : kernel.ToolBatchId) (calls : list kernel.KernelToolCall)
    (r : option (TurnCx * ToolResults)) w : Prop :=
  match r with
  | None => settled w
  | Some (cx', results) =>
      live w ∧ results.*1 = calls ∧ cx_state cx' = cx_state cx ∧
      cursor cx' eff w (bs ++ [script.filled (batch_of bid calls)])
  end.

Lemma result_entries bid (results : ToolResults) :
  result_entry tid bid <$> results =
    script.result_kind tid bid <$>
      (slot_result <$> zip results.*1 (SlotDone <$> results.*2)).
Proof. induction results as [|[call rich] results IH]; [done|]. rewrite !fmap_cons. simpl. by f_equal. Qed.

Lemma done_slots_closed (l : list tools.RichToolResult) : slots_closed (SlotDone <$> l).
Proof.
  exists (SlotDone <$> l), 0. simpl. rewrite app_nil_r. split; [done|].
  by intros (?&?&_)%list_elem_of_fmap.
Qed.

Lemma done_outcomes calls (l : list tools.RichToolResult) :
  marks_allowed None (session.result_outcome <$> (slot_result <$> zip calls (SlotDone <$> l))).
Proof.
  simpl. split; intros (r&Ho&(row&->&Hin)%list_elem_of_fmap)%list_elem_of_fmap;
    destruct row as [call slot]; apply elem_of_zip_r in Hin;
    apply list_elem_of_fmap in Hin as (rich&->&_); simpl in Ho;
    by destruct (tools.result rich).
Qed.

Lemma wp_commit_results cx eff bid calls results bs w :
  live w → cursor cx eff w (bs ++ [batch_of bid calls]) → batch_open bs calls →
  results.*1 = calls →
  wp (commit_results env ctx cx eff bid results) (batch_end cx eff bs bid calls) w.
Proof.
  intros Hl Hcur Hopen Hres.
  assert (length (SlotDone <$> results.*2) = length calls) as Hlen
    by by rewrite <- Hres, !length_fmap.
  apply wp_bind, wp_cancel_requested with (sid := sid) (op := op) (tid := tid); [done|done|].
  intros b w1 Hw1 Hb.
  pose proof (cursor_after sid op tid cx eff _ w1 _ Hw1 Hcur) as Hcur1.
  destruct b.
  { eapply wp_settled_None; [|done]. rewrite Hres. apply (wp_cancel_batch _ _ _ _ _ bs);
      [apply Hw1|by apply Hb|done|done|done|apply done_slots_closed]. }
  apply wp_bind, wp_phase with (sid := sid) (op := op) (tid := tid); [done|apply Hw1|]. intros w2 Hw2.
  pose proof (cursor_after sid op tid cx eff _ w2 _ Hw2 Hcur1) as Hcur2.
  apply wp_bind, wp_get_shared.
  rewrite (live_turn _ _ _ _ (after_live _ _ _ _ _ Hw2)), (cursor_session _ _ _ _ _ _ _ Hcur2).
  rewrite result_entries, Hres.
  set (rs := slot_result <$> zip calls (SlotDone <$> results.*2)).
  assert (session.result_call_id <$> rs = kernel.call_id <$> calls) as Hids
    by by apply slot_results_ids.
  assert (rs ≠ []) as Hrs.
  { intros Hnil. rewrite Hnil in Hids. destruct Hopen as [_ Hne _]. by destruct calls. }
  pose proof (cursor_turn _ _ _ _ _ _ _ Hcur2) as Hin.
  destruct (script.results_accepted op tid _ bs (batch_of bid calls) rs Hin)
    as (lc1&Ha1&Hin1); [apply Hopen|done..|].
  apply wp_bind. eapply wp_commit_linear; [apply Hw2|apply Hcur2| | | |exact Ha1|..].
  - by destruct rs.
  - apply Forall_fmap. by apply Forall_true.
  - rewrite <- (app_nil_r (_ <$> rs)).
    apply (script.results_save tid _ bs (batch_of bid calls)); try done.
    + by apply (script.in_turn_batches op).
    + simpl. lia.
    + apply done_outcomes.
  - intros w3 c Hl3 _ Hlc Hrev. apply wp_bind, wp_push_all with (sid := sid) (op := op) (tid := tid); [|done|].
    { apply Forall_fmap, Forall_true. done. }
    intros w4 Hw4. apply wp_ret. simpl.
    pose proof (after_proj sid _ _ _ _ Hw4) as Hp4.
    split; [apply Hw4|]. split; [done|]. split; [done|].
    destruct Hcur2 as [? _ ? _]. split; simpl; [done|left; by rewrite Hp4|done|by rewrite Hp4, Hlc].
  - intros w3 e Hl3 _ Hp3 Hk3 Hf. eapply wp_settled_None; [|done].
    eapply wp_cx_fail; [done|catalogued_row|by eapply cursor_moved].
Qed.
(** ** Serial execution *)
Lemma wp_await_invoke call Q w :
  live w → (∀ r w', after w w' → Q r w') → wp (await_invoke env call) Q w.
Proof.
  intros Hl HQ. apply wp_bind, wp_look with (sid := sid) (op := op) (tid := tid); [done|]. intros w1 Hw1.
  destruct (env_tool env (tick w) (invocation call)) as [[e|e]|reason] eqn:He; [by apply HQ..|].
  apply wp_bind, wp_update with (sid := sid) (op := op) (tid := tid); [|apply Hw1|].
  - apply tame_request. by apply (proj2 Henv (tick w) (invocation call)).
  - intros w2 Hw2. apply wp_ret, HQ. eauto using after_trans.
Qed.

Lemma slots_insert {A} (l1 : list A) (x y : A) n :
  <[length l1 := x]> (l1 ++ replicate (S n) y) = (l1 ++ [x]) ++ replicate n y.
Proof.
  rewrite <- (Nat.add_0_r (length l1)), insert_app_r. simpl. by rewrite <- app_assoc.
Qed.

Lemma slots_closed_app (l : list BatchSlot) n :
  SlotUnstarted ∉ l → slots_closed (l ++ replicate n SlotUnstarted).
Proof. intros Hl. by exists l, n. Qed.

Lemma done_not_unstarted (l : list tools.RichToolResult) : SlotUnstarted ∉ SlotDone <$> l.
Proof. by intros (?&?&_)%list_elem_of_fmap. Qed.

(** All calls done, in order; or the operation is settled. *)
Definition serial_end w (calls : list kernel.KernelToolCall) (r : option (list BatchSlot)) w'
    : Prop :=
  match r with
  | None => settled w'
  | Some slots => after w w' ∧ ∃ l, slots = SlotDone <$> l ∧ length l = length calls
  end.

Lemma wp_serial_loop cx eff bid calls bs pre rest l w :
  live w → cursor cx eff w (bs ++ [batch_of bid calls]) → batch_open bs calls →
  calls = pre ++ rest → length l = length pre →
  wp (serial_loop env ctx cx eff bid calls (length pre) rest
        ((SlotDone <$> l) ++ replicate (length rest) SlotUnstarted))
    (serial_end w calls) w.
Proof.
  revert pre l w. induction rest as [|call rest IH]; intros pre l w Hl Hcur Hopen Hcalls Hlen.
  { rewrite app_nil_r in Hcalls. subst pre. simpl. rewrite app_nil_r. apply wp_ret. simpl.
    split; [by apply after_refl|]. by exists l. }
  assert (length ((SlotDone <$> l) ++ replicate (length (call :: rest)) SlotUnstarted)
          = length calls) as Hslen.
  { rewrite Hcalls, !length_app, length_fmap, length_replicate. lia. }
  apply wp_bind, wp_cancel_requested with (sid := sid) (op := op) (tid := tid); [done|done|].
  intros b w1 Hw1 Hb. destruct b.
  { eapply wp_settled_None; [|done].
    apply (wp_cancel_batch _ _ _ _ _ bs); try done; [apply Hw1|by apply Hb| |].
    - eapply cursor_after; [|done]. done.
    - apply slots_closed_app, done_not_unstarted. }
  apply wp_bind, wp_phase with (sid := sid) (op := op) (tid := tid); [done|apply Hw1|]. intros w2 Hw2.
  apply wp_bind, wp_push with (sid := sid) (op := op) (tid := tid); [done|apply Hw2|]. intros w3 Hw3.
  apply wp_bind, wp_await_invoke; [apply Hw3|]. intros r w4 Hw4.
  assert (after w w4) as Haft by eauto using after_trans.
  assert (cursor cx eff w4 (bs ++ [batch_of bid calls])) as Hcur4.
  { eapply cursor_after; [|done]. done. }
  assert (length pre = length (SlotDone <$> l)) as Hpre by by rewrite length_fmap.
  assert (∀ w5, after w4 w5 → cancelled w5 →
    wp (cancel_batch ctx cx eff bid calls (<[length pre := SlotStopped]>
          ((SlotDone <$> l) ++ replicate (length (call :: rest)) SlotUnstarted)))
       (λ _, settled) w5) as Hstopped.
  { intros w5 Hw5 Hcan. apply (wp_cancel_batch _ _ _ _ _ bs); try done; [apply Hw5|..].
    - eapply cursor_after; [|done]. done.
    - by rewrite length_insert.
    - rewrite Hpre. simpl length. rewrite slots_insert. apply slots_closed_app.
      rewrite elem_of_app, list_elem_of_singleton. intros [Hin|?]; [|done].
      by apply done_not_unstarted in Hin. }
  assert (∀ w5 failure, catalogued failure → after w4 w5 →
    wp (cx_fail ctx cx eff failure) (λ _, settled) w5) as Hfail.
  { intros w5 failure Hcat Hw5. eapply wp_cx_fail; [apply Hw5|done|].
    eapply cursor_after; [|done]. done. }
  assert (wp (let! cancelled := is_cancel_requested env in
              if negb cancelled then cx_fail ctx cx eff stopped_failure ;; ret None
              else cancel_batch ctx cx eff bid calls (<[length pre := SlotStopped]>
                ((SlotDone <$> l) ++ replicate (length (call :: rest)) SlotUnstarted)) ;;
                ret None) (serial_end w calls) w4) as Hstop.
  { apply wp_bind, wp_cancel_requested with (sid := sid) (op := op) (tid := tid); [done|apply Haft|].
    intros b w5 Hw5 Hb5. destruct b; simpl; eapply wp_settled_None; try done.
    - apply Hstopped; [done|by apply Hb5].
    - apply Hfail; [catalogued_row|done]. }
  destruct r as [[result|]| |error].
  - rewrite Hpre. simpl length. rewrite slots_insert, <- (fmap_snoc SlotDone l result).
    rewrite length_fmap, Hlen. replace (S (length pre)) with (length (pre ++ [call]))
      by (rewrite length_app; simpl; lia).
    eapply wp_mono.
    + apply IH; [apply Haft|done|done|by rewrite <- app_assoc|].
      rewrite !length_app. simpl. lia.
    + intros [slots|] w5; simpl; [|done]. intros [? ?]. split; [|done].
      eauto using after_trans.
  - exact Hstop.
  - exact Hstop.
  - apply wp_bind, wp_cancel_requested with (sid := sid) (op := op) (tid := tid); [done|apply Haft|].
    intros b w5 Hw5 Hb5. destruct b; eapply wp_settled_None; try done.
    + apply Hstopped; [done|by apply Hb5].
    + apply Hfail; [catalogued_row|done].
Qed.

Lemma done_results_all calls (l : list tools.RichToolResult) :
  length l = length calls → done_results calls (SlotDone <$> l) = zip calls l.
Proof.
  unfold done_results, filter_map. revert l.
  induction calls as [|call calls IH]; intros [|r l] Hlen; try done.
  rewrite fmap_cons. simpl. f_equal. apply IH. by injection Hlen.
Qed.

Lemma wp_run_serial cx eff bid calls bs w :
  live w → cursor cx eff w (bs ++ [batch_of bid calls]) → batch_open bs calls →
  wp (run_serial env ctx cx eff bid calls) (batch_end cx eff bs bid calls) w.
Proof.
  intros Hl Hcur Hopen. apply wp_bind.
  assert (((λ _, SlotUnstarted) <$> calls) =
    (SlotDone <$> []) ++ replicate (length calls) SlotUnstarted) as ->.
  { simpl. clear. induction calls as [|c calls IH]; [done|]. rewrite fmap_cons. simpl. by f_equal. }
  eapply wp_mono; [by apply (wp_serial_loop _ _ _ _ bs [])|].
  intros [slots|] w1; simpl; [|done]. intros [Hw1 (l&->&Hlen)].
  rewrite done_results_all by done.
  apply wp_commit_results; [apply Hw1| |done|].
  - eapply cursor_after; [|done]. done.
  - apply fst_zip. lia.
Qed.
End batch.
End batch.

Import runtime mapping operation engine logic settle batch.

Module parallel.

(** ** swap_remove *)
Lemma swap_remove_perm {A} (l : list A) position x :
  l !! position = Some x → l ≡ₚ x :: swap_remove position l.
Proof.
  intros Hx. unfold swap_remove.
  destruct (last l) as [a|] eqn:Hl; [|by apply last_None in Hl; subst].
  apply last_Some in Hl as [l' ->]. rewrite length_app. simpl.
  replace (length l' + 1 - 1) with (length l') by lia.
  apply lookup_snoc_Some in Hx as [[Hlt Hx]|[-> ->]].
  - rewrite insert_app_l, take_app_length' by (rewrite ?length_insert; done).
    rewrite insert_take_drop by done.
    rewrite <- (take_drop_middle l' position x Hx) at 1.
    rewrite <- app_assoc, <- app_comm_cons, <- Permutation_middle.
    apply perm_skip, Permutation_app; [done|]. symmetry. apply Permutation_cons_append.
  - rewrite take_insert_ge, take_app_length by lia. symmetry. apply Permutation_cons_append.
Qed.

(** ** The invariant of the batch *)

(** What is left to finish: calls not started and calls in flight. *)
Definition pending (calls : list kernel.KernelToolCall) (b : Batch) : nat :=
  length calls - next b + length (in_flight b).

Section parallel.
Context {St : Type} `{store.StoreLaws St} `{Build} `{DebugSessionError}.
Context (env : Env) (ctx : EngineContext) (sid : SessionId) (op : OperationId) (tid : TurnId).
Context (Henv : env_ok env).

Abbreviation World := (World (Recorder St)).
Abbreviation live := (live sid op tid).
Abbreviation after := (after sid op tid).
Abbreviation settled := (settled env sid op tid).
Abbreviation cursor := (cursor sid op tid).
Implicit Types w : World.

Record batch_inv (calls : list kernel.KernelToolCall) (limit : Z) w (b : Batch) : Prop := {
  inv_length : length (slots b) = length calls;
  inv_next : next b ≤ length calls;
  inv_limit : (Z.of_nat (length (in_flight b)) ≤ limit)%Z;
  inv_flight : NoDup (in_flight b) ∧ Forall (λ i, i < next b) (in_flight b);
  inv_started : ∀ i, i < next b → slots b !! i = Some SlotUnstarted →
    i ∈ in_flight b ∨ batch_port_error b ≠ None;
  inv_unstarted : ∀ i, next b ≤ i < length calls → slots b !! i = Some SlotUnstarted;
  inv_stop : stop_starting b = true → cancelled w ∨ batch_port_error b ≠ None;
  inv_stopped : SlotStopped ∈ slots b → cancelled w;
  inv_grace : is_Some (grace_deadline b) → cancelled w ∧ stop_starting b = true
}.

Lemma batch_inv_after calls limit w w' b :
  after w w' → batch_inv calls limit w b → batch_inv calls limit w' b.
Proof. intros [_ _ Hc] [? ? ? ? ? ? Hs ? Hg]. split; try done; naive_solver. Qed.

Lemma batch_inv_new calls limit w : (0 ≤ limit)%Z → batch_inv calls limit w (batch_new calls).
Proof.
  intros Hlim. split; simpl; try done; try lia.
  - by rewrite length_fmap.
  - split; constructor.
  - intros i Hi. rewrite list_lookup_fmap.
    destruct (calls !! i) eqn:Hc; [done|]. apply lookup_ge_None in Hc. lia.
  - by intros (?&?&_)%list_elem_of_fmap.
Qed.

Lemma batch_inv_grace calls limit w b d :
  cancelled w → batch_inv calls limit w b → batch_inv calls limit w (batch_grace b d).
Proof. intros Hc [? ? ? ? ? ? ? ? ?]. split; simpl; auto. Qed.

Lemma batch_inv_stop calls limit w b error :
  cancelled w ∨ error ≠ None → batch_inv calls limit w b →
  batch_inv calls limit w (batch_stop b error).
Proof.
  intros Hc [? ? ? ? Hst ? Hstop ? Hg]. split; simpl; try done.
  - intros i Hi Hs. destruct error; [by right|]. by apply Hst.
  - intros _. destruct error; [by right|]. destruct Hc; [by left|done].
  - intros Hgr. split; [|done]. by apply Hg.
Qed.

(** Starting the next call. *)
Lemma batch_inv_started calls limit w b :
  batch_inv calls limit w b → next b < length calls →
  (Z.of_nat (length (in_flight b)) < limit)%Z →
  batch_inv calls limit w (batch_started b) ∧ pending calls (batch_started b) = pending calls b.
Proof.
  intros [Hlen Hn Hlim [Hnd Hlt] Hst Hun Hstop Hs Hg] Hnext Hl.
  split; [|unfold pending; simpl; rewrite length_app; simpl; lia].
  split; simpl; try done; try lia.
  - rewrite length_app. simpl. lia.
  - split.
    + apply NoDup_app. split; [done|]. split; [|apply NoDup_singleton].
      intros i Hi ->%list_elem_of_singleton. rewrite Forall_forall in Hlt.
      apply Hlt in Hi. lia.
    + apply Forall_app. split; [|by repeat constructor].
      eapply Forall_impl; [exact Hlt|]. simpl. lia.
  - intros i Hi Hsl. destruct (decide (i = next b)) as [->|]; [left; set_solver|].
    destruct (Hst i) as [?|?]; [lia|done|left; set_solver|by right].
  - intros i Hi. apply Hun. lia.
Qed.

(** One call of the batch is no longer in flight. *)
Lemma batch_inv_finished calls limit w b position index slot :
  batch_inv calls limit w b → in_flight b !! position = Some index →
  slot ≠ SlotUnstarted → (slot = SlotStopped → cancelled w) →
  let b' := slots_set (batch_flight b (swap_remove position (in_flight b))) index slot in
  batch_inv calls limit w b' ∧ S (pending calls b') = pending calls b.
Proof.
  intros [Hlen Hn Hlim [Hnd Hlt] Hst Hun Hstop Hs Hg] Hpos Hslot Hcan b'.
  pose proof (swap_remove_perm _ _ _ Hpos) as Hperm.
  pose proof (Permutation_length Hperm) as Hpl. simpl in Hpl.
  rewrite Hperm in Hlt, Hnd. apply Forall_cons in Hlt as [Hilt Hlt].
  apply NoDup_cons in Hnd as [Hni Hnd].
  split; [|unfold pending; simpl; lia]. split; simpl; try done.
  - by rewrite length_insert.
  - lia.
  - intros i Hi Hsl. destruct (decide (i = index)) as [->|].
    + rewrite list_lookup_insert_eq in Hsl by lia. by simplify_eq.
    + rewrite list_lookup_insert_ne in Hsl by done.
      destruct (Hst i Hi Hsl) as [Hin|?]; [|by right]. rewrite Hperm in Hin.
      apply elem_of_cons in Hin as [?|?]; [done|by left].
  - intros i Hi. rewrite list_lookup_insert_ne by lia. by apply Hun.
  - intros (i&Hi)%list_elem_of_lookup. destruct (decide (i = index)) as [->|].
    + rewrite list_lookup_insert_eq in Hi by lia. simplify_eq. by apply Hcan.
    + rewrite list_lookup_insert_ne in Hi by done. apply Hs. by eapply list_elem_of_lookup_2.
Qed.

(** A call that failed the batch: its slot stays unstarted, the error is set. *)
Lemma batch_inv_failed calls limit w b position index error :
  batch_inv calls limit w b → in_flight b !! position = Some index →
  let b' := batch_stop (batch_flight b (swap_remove position (in_flight b))) (Some error) in
  batch_inv calls limit w b' ∧ S (pending calls b') = pending calls b.
Proof.
  intros [Hlen Hn Hlim [Hnd Hlt] Hst Hun Hstop Hs Hg] Hpos b'.
  pose proof (swap_remove_perm _ _ _ Hpos) as Hperm.
  pose proof (Permutation_length Hperm) as Hpl. simpl in Hpl.
  rewrite Hperm in Hlt, Hnd. apply Forall_cons in Hlt as [Hilt Hlt].
  apply NoDup_cons in Hnd as [Hni Hnd].
  split; [|unfold pending; simpl; lia]. split; simpl; try done; try lia; auto.
  intros Hgr. split; [|done]. by apply Hg.
Qed.

Lemma batch_inv_drained calls limit w b flight :
  cancelled w → batch_inv calls limit w b → stop_starting b = true →
  (∀ i, i ∈ in_flight b → i ∈ flight ∨ slots b !! i = Some SlotStopped) →
  Forall (λ i, i < next b) flight → (0 ≤ limit)%Z →
  let b' := batch_flight (stop_all b flight) [] in
  batch_inv calls limit w b' ∧ in_flight b' = [] ∧ stop_starting b' = true.
Proof.
  revert b. induction flight as [|index flight IH]; intros b Hc Hb Hstop Hin Hlt Hlim; simpl.
  - split; [|done]. destruct Hb as [Hlen Hn _ _ Hst Hun Hs ? Hg].
    split; simpl; try done; [split; constructor|].
    intros i Hi Hsl. destruct (Hst i Hi Hsl) as [Hi'|?]; [|by right].
    destruct (Hin i Hi') as [Hi''|Hi'']; [by apply elem_of_nil in Hi''|congruence].
  - apply Forall_cons in Hlt as [Hi Hlt].
    apply (IH (slots_set b index SlotStopped)); try done.
    + destruct Hb as [Hlen Hn ? ? Hst Hun Hs ? Hg]. split; simpl; try done.
      * by rewrite length_insert.
      * intros i Hi' Hsl. destruct (decide (i = index)) as [->|].
        -- rewrite list_lookup_insert_eq in Hsl by lia. by simplify_eq.
        -- rewrite list_lookup_insert_ne in Hsl by done. by apply Hst.
      * intros i Hi'. rewrite list_lookup_insert_ne by lia. by apply Hun.
    + intros i Hi'. simpl. destruct (decide (i = index)) as [->|].
      * right. rewrite list_lookup_insert_eq; [done|]. destruct Hb. lia.
      * rewrite list_lookup_insert_ne by done. apply Hin in Hi' as [Hi'|?]; [|by right].
        apply elem_of_cons in Hi' as [?|?]; [done|by left].
Qed.

(** ** The loops *)
Lemma wp_start_calls bid calls limit rest b w :
  live w → batch_inv calls limit w b → rest = drop (next b) calls →
  wp (start_calls env bid limit rest b)
    (λ b' w', after w w' ∧ batch_inv calls limit w' b' ∧ pending calls b' = pending calls b ∧
       (in_flight b' = [] → (0 < limit)%Z → stop_starting b' = true ∨ next b' = length calls)) w.
Proof.
  revert b w. induction rest as [|call rest IH]; intros b w Hl Hb Hrest; simpl.
  { apply wp_ret. split; [by apply after_refl|]. split; [done|]. split; [done|].
    intros _ _. right. apply (f_equal length) in Hrest. rewrite length_drop in Hrest.
    simpl in Hrest. destruct Hb. lia. }
  destruct (stop_starting b) eqn:Hstop; simpl.
  { apply wp_ret. split; [by apply after_refl|]. rewrite Hstop. auto. }
  case_bool_decide as Hlt; simpl.
  2: { apply wp_ret. split; [by apply after_refl|]. split; [done|]. split; [done|].
       intros Hnil ?. rewrite Hnil in Hlt. simpl in Hlt. lia. }
  apply wp_bind, wp_cancel_requested with (sid := sid) (op := op) (tid := tid); [done|done|].
  intros c w1 Hw1 Hc. pose proof (batch_inv_after _ _ _ _ _ Hw1 Hb) as Hb1. destruct c.
  { apply wp_ret. split; [done|]. split; [apply batch_inv_stop; [|done]; left; by apply Hc|].
    split; [done|]. by left. }
  apply wp_bind, wp_phase with (sid := sid) (op := op) (tid := tid); [done|apply Hw1|]. intros w2 Hw2.
  apply wp_bind, wp_push with (sid := sid) (op := op) (tid := tid); [done|apply Hw2|]. intros w3 Hw3.
  assert (next b < length calls) as Hnext.
  { apply (f_equal length) in Hrest. rewrite length_drop in Hrest. simpl in Hrest. lia. }
  assert (after w w3) as Haft by eauto using after_trans.
  pose proof (batch_inv_after _ _ _ _ _ Haft Hb) as Hb3.
  destruct (batch_inv_started _ _ _ _ Hb3 Hnext Hlt) as [Hb3' Hpend].
  eapply wp_mono; [apply IH; [apply Haft|done|]|].
  - simpl. rewrite <- Nat.add_1_r, <- drop_drop, <- Hrest. done.
  - intros b' w' (Hw'&Hb'&Hp'&Hend). split; [eauto using after_trans|].
    split; [done|]. split; [congruence|done].
Qed.

(** A batch that is over: nothing in flight, and either every call was started
    or starting was stopped. *)
Definition batch_over (calls : list kernel.KernelToolCall) (limit : Z) w (b : Batch) : Prop :=
  batch_inv calls limit w b ∧ in_flight b = [] ∧
  (stop_starting b = true ∨ next b = length calls).

Lemma wp_next_finished calls limit b w Q :
  live w → batch_inv calls limit w b → in_flight b ≠ [] →
  (∀ w', after w w' → is_Some (grace_deadline b) → Q None w') →
  (∀ w' position index result, after w w' → in_flight b !! position = Some index →
     Q (Some (batch_flight b (swap_remove position (in_flight b)), index, result)) w') →
  wp (next_finished env b) Q w.
Proof.
  intros Hl Hb Hne Hnone Hsome.
  apply wp_bind, wp_look with (sid := sid) (op := op) (tid := tid); [done|]. intros w1 Hw1.
  set (a := env_next env (tick w) (in_flight b)). cbv zeta beta.
  destruct (deadline_first a && bool_decide (is_Some (grace_deadline b))) eqn:Hd.
  { apply wp_ret, Hnone; [done|]. by apply andb_true_iff in Hd as [_ ?%bool_decide_eq_true]. }
  destruct (in_flight b !! (ready_position a mod length (in_flight b))) as [index|] eqn:Hi.
  - apply wp_ret. by apply Hsome.
  - apply lookup_ge_None in Hi.
    pose proof (Nat.mod_upper_bound (ready_position a) (length (in_flight b))) as Hm.
    destruct (in_flight b); [done|]. simpl in *. lia.
Qed.

Lemma wp_parallel_loop fuel bid calls limit b w :
  live w → batch_inv calls limit w b → (0 < limit)%Z → pending calls b < fuel →
  wp (parallel_loop env ctx fuel bid calls limit b)
    (λ b' w', after w w' ∧ batch_over calls limit w' b') w.
Proof.
  revert b w. induction fuel as [|fuel IH]; intros b w Hl Hb Hlim Hfuel; [lia|].
  apply wp_bind, wp_cancel_requested with (sid := sid) (op := op) (tid := tid); [done|done|].
  intros c w1 Hw1 Hc.
  apply wp_bind, wp_look with (sid := sid) (op := op) (tid := tid); [apply Hw1|]. intros w2 Hw2.
  assert (after w w2) as Haft2 by eauto using after_trans.
  pose proof (batch_inv_after _ _ _ _ _ Haft2 Hb) as Hb2.
  set (b0 := if c then _ else b).
  assert (batch_inv calls limit w2 b0 ∧ pending calls b0 = pending calls b ∧ next b0 = next b)
    as (Hb0&Hp0&Hn0).
  { unfold b0. destruct c; [|done]. split; [|done]. apply batch_inv_grace; [|done].
    apply Hw2. by apply Hc. }
  apply wp_bind. eapply wp_mono; [by apply wp_start_calls; [apply Haft2|exact Hb0|]|].
  intros b1 w3 (Hw3&Hb1&Hp1&Hend). assert (after w w3) as Haft3 by eauto using after_trans.
  destruct (is_nil (in_flight b1)) eqn:Hnil.
  { apply is_nil_true in Hnil. apply wp_ret. split; [done|]. split; [done|]. auto. }
  apply is_nil_false in Hnil. apply wp_bind. eapply wp_next_finished; [apply Haft3|done|done|..].
  - intros w4 Hw4 Hgr. apply wp_ret. split; [eauto using after_trans|].
    destruct (inv_grace _ _ _ _ Hb1 Hgr) as [Hcan Hst].
    destruct (batch_inv_drained calls limit w4 b1 (in_flight b1)) as (?&?&?);
      [by apply Hw4|by eapply batch_inv_after|done|auto|apply Hb1|lia|].
    split; [done|]. split; [done|by left].
  - intros w4 position index result Hw4 Hpos.
    assert (after w w4) as Haft4 by eauto using after_trans.
    pose proof (batch_inv_after _ _ _ _ _ Hw4 Hb1) as Hb4. cbn [fst snd].
    (* the new bookkeeping, in each case *)
    assert (∀ b' w5, after w4 w5 →
      batch_inv calls limit w5 b' ∧ S (pending calls b') = pending calls b1 →
      wp (op_set_phase (RunningToolBatch (Executing (length (in_flight b')) (completed_count (slots b')))) ;;
          parallel_loop env ctx fuel bid calls limit b')
        (λ b' w', after w w' ∧ batch_over calls limit w' b') w5) as Hnext.
    { intros b' w5 Hw5 [Hb' Hp']. apply wp_bind, wp_phase with (sid := sid) (op := op) (tid := tid);
        [done|apply Hw5|]. intros w6 Hw6.
      eapply wp_mono; [apply IH; [apply Hw6|by eapply batch_inv_after|done|lia]|].
      intros b6 w7 [Hw7 Hov]. split; [|done]. eauto 6 using after_trans. }
    apply wp_bind. destruct result as [error|[result|]].
    + apply wp_bind, wp_cancel_requested with (sid := sid) (op := op) (tid := tid); [done|apply Hw4|].
      intros c5 w5 Hw5 Hc5. pose proof (batch_inv_after _ _ _ _ _ Hw5 Hb4) as Hb5.
      apply wp_ret, Hnext; [done|]. destruct c5.
      * destruct (batch_inv_finished calls limit w5 b1 position index SlotStopped) as [Hi Hp];
          [done|done|done|intros _; by apply Hc5|].
        split; [|exact Hp]. apply batch_inv_stop; [|done]. left. by apply Hc5.
      * by apply batch_inv_failed with (index := index).
    + apply wp_ret, Hnext; [apply after_refl, Hw4|].
      by apply batch_inv_finished.
    + apply wp_bind, wp_cancel_requested with (sid := sid) (op := op) (tid := tid); [done|apply Hw4|].
      intros c5 w5 Hw5 Hc5. pose proof (batch_inv_after _ _ _ _ _ Hw5 Hb4) as Hb5.
      apply wp_ret, Hnext; [done|]. destruct c5.
      * destruct (batch_inv_finished calls limit w5 b1 position index SlotStopped) as [Hi Hp];
          [done|done|done|intros _; by apply Hc5|].
        split; [|exact Hp]. apply batch_inv_stop; [|done]. left. by apply Hc5.
      * by apply batch_inv_failed with (index := index).
Qed.

(** ** A finished batch *)
Lemma over_slots_closed calls limit w b :
  batch_over calls limit w b → batch_port_error b = None → slots_closed (slots b).
Proof.
  intros ([Hlen Hn _ _ Hst Hun _ _ _]&Hnil&_) Herr.
  exists (take (next b) (slots b)), (length calls - next b). split.
  - rewrite <- (take_drop (next b) (slots b)) at 1. f_equal.
    apply list_eq_same_length with (n := length calls - next b).
    + by rewrite length_replicate.
    + by rewrite length_drop, Hlen.
    + intros i x y Hi. rewrite lookup_drop, lookup_replicate_2 by done.
      rewrite Hun by lia. congruence.
  - intros (i&Hi)%list_elem_of_lookup. apply lookup_take_Some in Hi as [Hi Hlt].
    destruct (Hst i Hlt Hi) as [Hin|?]; [|done]. rewrite Hnil in Hin. by apply elem_of_nil in Hin.
Qed.

Lemma over_cancelled calls limit w b :
  batch_over calls limit w b → batch_port_error b = None →
  any (λ slot, negb (is_done slot)) (slots b) = true → cancelled w.
Proof.
  intros ([Hlen Hn _ _ Hst Hun Hstop Hs _]&Hnil&Hend) Herr Hany.
  apply any_Exists, Exists_exists in Hany as (slot&Hin&Hd).
  destruct slot as [rich| |]; [done|by apply Hs|].
  apply list_elem_of_lookup in Hin as [i Hi].
  destruct (decide (i < next b)) as [Hlt|Hge].
  - destruct (Hst i Hlt Hi) as [Hin|?]; [|done]. rewrite Hnil in Hin. by apply elem_of_nil in Hin.
  - apply lookup_lt_Some in Hi. destruct Hend as [Hstp|]; [|lia].
    by destruct (Hstop Hstp).
Qed.

Lemma all_done_slots (slots : list BatchSlot) :
  any (λ slot, negb (is_done slot)) slots = false → ∃ l, slots = SlotDone <$> l.
Proof.
  intros Hany%any_false. induction Hany as [|slot slots Hd _ [l ->]]; [by exists []|].
  destruct slot as [rich| |]; [|done..]. by exists (rich :: l).
Qed.

Lemma wp_run_parallel cx eff bid calls limit bs w :
  live w → cursor cx eff w (bs ++ [batch_of bid calls]) → batch_open bs calls → (0 < limit)%Z →
  wp (run_parallel env ctx cx eff bid calls limit) (batch_end env sid op tid cx eff bs bid calls) w.
Proof.
  intros Hl Hcur Hopen Hlim. apply wp_bind. eapply wp_mono.
  { apply wp_parallel_loop; [done|apply batch_inv_new; lia|done|].
    unfold pending. simpl. lia. }
  intros b w1 [Hw1 Hov].
  pose proof (cursor_after sid op tid cx eff _ w1 _ Hw1 Hcur) as Hcur1.
  destruct (batch_port_error b) as [error|] eqn:Herr.
  { eapply wp_settled_None; [|done]. eapply wp_cx_fail; [apply Hw1|catalogued_row|done]. }
  assert (length (slots b) = length calls) as Hlen by apply Hov.
  assert (∀ w2, after w1 w2 → cancelled w2 →
    wp (cancel_batch ctx cx eff bid calls (slots b) ;; ret None)
      (batch_end env sid op tid cx eff bs bid calls) w2) as Hcancel.
  { intros w2 Hw2 Hcan. eapply wp_settled_None; [|done].
    eapply (wp_cancel_batch env ctx sid op tid cx eff bid calls (slots b) bs); try done; [apply Hw2| |].
    - eapply cursor_after; [|exact Hcur1]. done.
    - by eapply over_slots_closed. }
  apply wp_bind. destruct (any _ (slots b)) eqn:Hany.
  { apply wp_ret, Hcancel; [apply after_refl, Hw1|]. by eapply over_cancelled. }
  apply wp_cancel_requested with (sid := sid) (op := op) (tid := tid); [done|apply Hw1|].
  intros c w2 Hw2 Hc. destruct c; [by apply Hcancel; [|apply Hc]|].
  apply all_done_slots in Hany as [l Hslots]. rewrite Hslots in *. rewrite length_fmap in Hlen.
  rewrite done_results_all by done. apply wp_commit_results; [done|apply Hw2| |done|].
  - eapply cursor_after; [|exact Hcur1]. done.
  - apply fst_zip. lia.
Qed.

Lemma wp_tool_batch_run cx eff bid calls limit bs w :
  live w → cursor cx eff w (bs ++ [batch_of bid calls]) → batch_open bs calls →
  wp (tool_batch_run env ctx cx eff bid calls limit) (batch_end env sid op tid cx eff bs bid calls) w.
Proof.
  intros Hl Hcur Hopen. unfold tool_batch_run. case_bool_decide.
  - by apply wp_run_serial.
  - apply wp_run_parallel; try done. lia.
Qed.
End parallel.
End parallel.
