(* ===== verification/EngineTurn.v ===== *)
(** What precedes a turn: sealing the stale turns and the automatic
    compaction of the context.

    The turn itself: the model call with its recovery loop, the tool round,
    the loop of [drive_turn] and [drive]. *)

From S2P Require Import Prelude RustStr Kernel KernelProofs Session SessionLifecycle.
From S2P Require Import SessionContext SessionProofs SessionStore TurnScript Tools Runtime.
From S2P Require Import RuntimeMapping Operation Engine EngineLogic EngineTools.
Import runtime mapping operation engine logic settle.

Module turn.

Lemma context_view_Ok p sid v :
  session.context_view p sid = Ok v →
  session.view_revision v = session.revision p ∧
  session.open_turns (session.lifecycle p) = Ok (session.view_open_turns v) ∧
  session.view_settled_turn_boundaries v = session.settled_boundary_ids (session.context p) ∧
  session.view_latest_compaction_boundary v =
    session.latest_compaction_boundary (session.context p) ∧
  session.messages (session.context p) = Ok (session.view_messages v).
Proof.
  unfold session.context_view. intros (ms&Hms&H)%bind_Ok. apply bind_Ok in H as (os&Hos&H).
  by injection H as <-.
Qed.

(** The placeholders and the settlement of one stale turn. *)
Lemma seal_entries_open tid t :
  seal_entries (open_info tid t) =
    script.placeholders tid t ++ script.abandon (session.turn_operation_id t) tid.
Proof.
  unfold seal_entries, script.placeholders, script.unanswered. simpl. f_equal.
  destruct (last (session.tool_batches t) ≫= unfilled); [|done].
  by rewrite <- list_fmap_compose.
Qed.

(** ** The boundary a compaction covers *)
Lemma nth_boundary L c i eid :
  ctx_refines L c → session.settled_boundary_ids c !! i = Some eid →
  ∃ b, boundary_rows L !! i = Some (eid, b) ∧ session.settled_boundaries c !! eid = Some b.
Proof.
  intros Hr Hi. unfold session.settled_boundary_ids in Hi. rewrite (sorted_boundaries _ _ Hr) in Hi.
  rewrite list_lookup_fmap in Hi. destruct (boundary_rows L !! i) as [[eid' b]|] eqn:Hb; [|done].
  simpl in Hi. injection Hi as ->. exists b. split; [done|].
  apply list_elem_of_lookup_2 in Hb. apply (ctx_boundaries _ _ Hr). by apply elem_of_boundary_rows.
Qed.

(** What [select_boundary] picks, the session accepts as a compaction. *)
Lemma select_boundary_allowed p sid Ls v keep covers summary :
  session_log sid Ls p → session.context_view p sid = Ok v →
  select_boundary v keep = Some covers → summary ≠ "" →
  compaction_allowed (session.context p) summary covers.
Proof.
  intros Hlog (_&_&Hb&Hk&_)%context_view_Ok Hsel Hne.
  pose proof (refines_context _ _ _ (session_log_refines _ _ _ Hlog)) as Hr.
  unfold select_boundary in Hsel. rewrite Hb, Hk in Hsel.
  case_bool_decide as Hlen; [done|].
  set (cand := _ - _ - 1) in Hsel.
  unfold session.latest_compaction_boundary in Hsel.
  destruct (session.latest_compaction (session.context p)) as [k|] eqn:Hlast; simpl in Hsel.
  - destruct (position _ _) as [previous|] eqn:Hpos; [|done].
    case_bool_decide as Hle; [done|].
    destruct (nth_boundary _ _ _ _ Hr Hsel) as (b&Hrow&Hlb).
    apply position_Some in Hpos as (_&(eid&Heid&Heq)&_). apply bool_decide_eq_true in Heq. subst eid.
    destruct (nth_boundary _ _ _ _ Hr Heid) as (b0&Hrow0&Hlb0).
    split; [done|]. exists b. split; [done|]. intros k' Hk'. simplify_eq.
    pose proof (ctx_compaction _ _ Hr) as Hc.
    destruct (last (compactions _)) as [[s cv]|]; [|congruence].
    destruct Hc as (b1&Hb1&Hc). rewrite Hlast in Hc. injection Hc as ->. simpl in *.
    rewrite Hb1 in Hlb0. injection Hlb0 as ->.
    apply (sorted_boundaries_lt _ _ _ _ _ Hrow0 Hrow). lia.
  - destruct (nth_boundary _ _ _ _ Hr Hsel) as (b&_&Hlb).
    split; [done|]. exists b. split; [done|]. intros k Hk'. congruence.
Qed.

Lemma compaction_accepted p sid rev summary covers :
  compaction_allowed (session.context p) summary covers →
  tx_accepted p (session.linear sid rev [session.Compaction summary covers]).
Proof.
  intros Hc. split; try done.
  - apply script.linear_chained.
  - apply script.save_point_plain; [done|]. intros ? ?. simpl. set_solver.
  - eexists. by apply lc_accept_all_run.
  - intros t. simpl. set_solver.
  - intros s c Hin. assert (session.Compaction s c = session.Compaction summary covers) as Heq
      by (simpl in Hin; set_solver). by injection Heq as -> ->.
Qed.

Lemma Forall2_impl_in {A B} (P Q : A → B → Prop) l k :
  Forall2 P l k → (∀ x y, x ∈ l → P x y → Q x y) → Forall2 Q l k.
Proof.
  induction 1 as [|x y l k Hxy _ IH]; intros HQ; constructor; [|apply IH; intros]; apply HQ;
    set_solver.
Qed.

Section turn.
Context {St : Type} `{store.StoreLaws St} `{Build} `{DebugSessionError}.
Context (env : Env) (ctx : EngineContext) (sid : SessionId) (op : OperationId) (tid : TurnId).
Context (Henv : env_ok env).

Abbreviation World := (World (Recorder St)).
Abbreviation live := (live sid op tid).
Abbreviation after := (after sid op tid).
Abbreviation settled := (settled env sid op tid).
Implicit Types w : World.

Abbreviation lc_of w := (session.lifecycle (proj sid w)).

(** Before the turn starts nothing of the operation is in the session. *)
Record before_turn w : Prop := {
  before_live : live w;
  before_unused : script.unused op tid (lc_of w);
  before_sealable : script.sealable (lc_of w)
}.

(** And once the stale turns are sealed, no turn is open. *)
Record ready w : Prop := {
  ready_live : live w;
  ready_unused : script.unused op tid (lc_of w);
  ready_open : session.open_turn_ids (lc_of w) = []
}.

Lemma before_after w w' : after w w' → before_turn w → before_turn w'.
Proof. intros Ha [? ? ?]. split; [apply Ha|by rewrite (after_proj sid _ _ _ _ Ha)..]. Qed.
Lemma ready_after w w' : after w w' → ready w → ready w'.
Proof. intros Ha [? ? ?]. split; [apply Ha|by rewrite (after_proj sid _ _ _ _ Ha)..]. Qed.

Lemma before_unsettled w : before_turn w → unsettled op (lc_of w).
Proof. intros [? [Ho _] Hs]. split; [done|]. intros r Hr. congruence. Qed.

Lemma ready_before w : ready w → before_turn w.
Proof.
  intros [Hl ? Ho]. split; [done|done|]. apply script.no_open_sealable; [|done].
  by eapply wf_lifecycle, served_wf.
Qed.

Lemma session_failure_catalogued context error : catalogued env (session_failure context error).
Proof. destruct error; catalogued_row. Qed.

(** ** Sealing *)
Definition stale (lc : session.LifecycleProjection) (opens : list session.OpenTurnInfo) : Prop :=
  Forall2 (λ tid info, ∃ t, open_turn lc tid t ∧ info = open_info tid t)
    (session.open_turn_ids lc) opens.

Lemma view_stale w v :
  live w → session.context_view (proj sid w) sid = Ok v →
  stale (lc_of w) (session.view_open_turns v).
Proof.
  intros Hl (_&Hv&_)%context_view_Ok.
  destruct (open_turns_spec (lc_of w)) as (infos&Hi&Hall); [by eapply wf_lifecycle, served_wf|].
  rewrite Hv in Hi. by injection Hi as ->.
Qed.

(** A store call that failed, or was answered, keeps what precedes the turn. *)
Lemma before_moved w w' : live w' → renamed (proj sid w) (proj sid w') → before_turn w → before_turn w'.
Proof. intros Hl [Hp _] [? ? ?]. by split; rewrite ?Hp. Qed.
Lemma ready_moved w w' : live w' → renamed (proj sid w) (proj sid w') → ready w → ready w'.
Proof. intros Hl [Hp _] [? ? ?]. by split; rewrite ?Hp. Qed.

Lemma seal_loop_ok seal_revision opens w :
  before_turn w → stale (lc_of w) opens → behind sid w seal_revision →
  wp (seal_loop sid seal_revision opens)
    (λ r w', match r with
             | inl _ => before_turn w' ∧ disturbed w'
             | inr _ => ready w'
             end) w.
Proof.
  revert seal_revision w. induction opens as [|info opens IH]; intros rev w Hb Hst Hrev.
  { apply wp_ret. destruct Hb. split; [done|done|]. by apply Forall2_nil_inv_r in Hst. }
  unfold stale in Hst. apply Forall2_cons_inv_r in Hst as (stid&tids&(t&Ht&->)&Hst&Hids).
  destruct Hb as [Hl [Hop Htid] Hs].
  assert (lc_wf (lc_of w)) as Hwf by by eapply wf_lifecycle, served_wf.
  destruct (script.seal_accepted _ _ _ Hwf Hs Ht) as (lc'&Hacc&Hopen&Hs'&Hturns&Hops).
  pose proof (lc_open_unique _ Hwf) as Hnd. rewrite Hids in Hnd, Hopen.
  apply NoDup_cons in Hnd as [Hni Hnd].
  simpl. rewrite seal_entries_open. apply wp_bind.
  eapply wp_commit_linear; [done|done| | |by apply script.seal_save_point|exact Hacc|..].
  - by destruct (script.placeholders stid t).
  - apply Forall_app. split; [|by repeat constructor]. unfold script.placeholders.
    destruct (script.unanswered t); [|done]. by apply Forall_fmap, Forall_true.
  - intros w1 c Hl1 Hsh1 Hlc1 Hrev1.
    assert (session.open_turn_ids lc' = tids) as Hopen'.
    { rewrite Hopen, filter_cons, decide_False by naive_solver.
      apply filter_all. apply Forall_forall. intros x Hx ->. done. }
    assert (stid ≠ tid) as Hne by (intros ->; destruct Ht; congruence).
    apply wp_bind. eapply wp_mono; [apply (IH (session.commit_revision c) w1)|].
    + split; rewrite ?Hlc1; [done| |done]. split; [by apply Hops|]. by rewrite Hturns.
    + unfold stale. rewrite Hlc1, Hopen'. eapply Forall2_impl_in; [exact Hst|].
      intros tid' i Hin (t'&[Ht' Ho']&->). exists t'. split; [|done]. split; [|done].
      rewrite Hturns; [done|]. by intros ->.
    + by left.
    + intros [e|sealed] w2; simpl; auto.
  - intros w1 e Hl1 _ Hp1 _ Hf. apply wp_ret. split; [|done]. eapply before_moved; [done|exact Hp1|by split].
Qed.

(** A context view from the store, which others may have moved on since. *)
Record current (v : session.SessionContextView) w : Prop := {
  current_behind : behind sid w (session.view_revision v);
  current_fresh : session.view_revision v = session.revision (proj sid w) →
    session.context_view (proj sid w) sid = Ok v
}.

Lemma fresh_current v w : session.context_view (proj sid w) sid = Ok v → current v w.
Proof. intros Hv. split; [|done]. left. by apply context_view_Ok in Hv as (?&_). Qed.
Lemma current_after w w' v : after w w' → current v w → current v w'.
Proof.
  intros Ha [Hb Hf]. split; [|by rewrite (after_proj sid _ _ _ _ Ha)].
  eapply behind_store; [|done]. apply Ha.
Qed.
Lemma current_moved w w' v :
  renamed (proj sid w) (proj sid w') → (∀ rev, behind sid w rev → behind sid w' rev) →
  current v w → current v w'.
Proof.
  intros Hp Hk [Hb Hf]. split; [by apply Hk|]. intros He.
  assert (session.view_revision v ≤ session.revision (proj sid w)) by (destruct Hb as [->|[? _]]; lia).
  pose proof (renamed_revision _ _ Hp). assert (proj sid w' = proj sid w) as Hs by (apply renamed_still; [done|lia]).
  rewrite Hs in *. auto.
Qed.

(** The result of the steps before the turn: settled, or ready with a view. *)
Definition prepared (r : option session.SessionContextView) w : Prop :=
  match r with None => settled w | Some v => ready w ∧ current v w end.

Lemma wp_publish_sealed l Q w :
  live w → (∀ w', after w w' → Q tt w') → wp (publish_sealed l) Q w.
Proof.
  revert w. induction l as [|x l IH]; intros w Hl HQ; simpl.
  - apply HQ. by apply after_refl.
  - apply wp_bind, wp_push with (sid := sid) (op := op) (tid := tid); [done|done|]. intros w1 Hw1.
    apply IH; [apply Hw1|]. eauto using after_trans.
Qed.

Lemma wp_prepared l v w :
  ready w → current v w → wp (publish_sealed l ;; ret (Some v)) prepared w.
Proof.
  intros Hr Hv. apply wp_bind, wp_publish_sealed; [apply Hr|]. intros w' Hw'. apply wp_ret.
  split; [by eapply ready_after|by eapply current_after].
Qed.

Lemma wp_seal_stale_turns v w :
  before_turn w → session.context_view (proj sid w) sid = Ok v → wp (seal_stale_turns sid v) prepared w.
Proof.
  intros Hb Hv. pose proof (view_stale w v (before_live _ Hb) Hv) as Hst.
  pose proof (context_view_Ok _ _ _ Hv) as (Hrev&_).
  unfold seal_stale_turns, seal_stale_turns_with. apply wp_bind.
  destruct (is_nil (session.view_open_turns v)) eqn:Hnil.
  { apply is_nil_true in Hnil. rewrite Hnil in Hst. apply Forall2_nil_inv_r in Hst.
    apply wp_ret, wp_prepared; [|by apply fresh_current]. by destruct Hb. }
  apply wp_bind. eapply wp_mono; [apply seal_loop_ok; [done|done|by left]|].
  assert (∀ (failure : AgentFailure) w', catalogued env failure → before_turn w' → disturbed w' →
    wp (fail_unconfirmed failure ;; ret None) prepared w') as Hfail.
  { intros failure w' Hcat Hb' Hf'. eapply wp_settled_None; [|done].
    apply wp_fail_unconfirmed; [apply Hb'|done|done|by apply before_unsettled]. }
  intros [e|sealed] w1 Hw1.
  { apply wp_ret. destruct Hw1. destruct e as [e|e]; apply Hfail; try done; [catalogued_row|].
    by apply session_failure_catalogued. }
  apply wp_bind. eapply wp_context_view; [apply Hw1|..].
  - intros w2 v2 Hl2 Hsh2 Hp2 Hv2. apply wp_ret. simpl.
    apply wp_prepared; [by eapply ready_moved|by apply fresh_current].
  - intros w2 e Hl2 _ Hp2 _ Hf. apply wp_ret. apply Hfail; [by apply session_failure_catalogued| |done].
    apply ready_before. by eapply ready_moved.
Qed.
(** ** Automatic compaction *)
Context (Hmaint : has_maintenance_cancel ctx = false).

Lemma wp_no_maintenance Q w : Q false w → wp (maintenance_cancelled env ctx) Q w.
Proof. unfold maintenance_cancelled. by rewrite Hmaint. Qed.

(** A summary is cancelled only when the operation is. *)
Definition summarised {A} (w : World) (r : SummaryFailure + A) w' : Prop :=
  after w w' ∧ (r = inl SummaryCancelled → cancelled w').

Lemma wp_summary_loop stream completed started w :
  live w → wp (summary_loop env ctx true stream completed started) (summarised w) w.
Proof.
  revert completed started w.
  induction stream as [|item stream IH]; intros completed started w Hl; simpl;
    (apply wp_bind, wp_cancel_requested with (sid := sid) (op := op) (tid := tid); [done|done|]);
    intros c w1 Hw1 Hc; (destruct c; [apply wp_ret; split; [done|]; intros _; by apply Hc|]).
  - by destruct completed; apply wp_ret.
  - assert (∀ co st, wp (summary_loop env ctx true stream co st) (summarised w) w1) as Hrec.
    { intros co st. eapply wp_mono; [apply IH; apply Hw1|]. intros r w2 [Hw2 Hr].
      split; [|done]. eauto using after_trans. }
    destruct item as [e|ev]; [by apply wp_ret|].
    destruct completed as [bl|]; [by destruct ev; apply wp_ret|].
    destruct ev; try apply Hrec. destruct started; [by apply wp_ret|apply Hrec].
Qed.

Lemma wp_generate_summary view w :
  live w →
  wp (generate_summary env ctx true sid view)
    (λ r w', summarised w r w' ∧ (∀ s, r = inr s → s ≠ "")) w.
Proof.
  intros Hl. apply wp_bind, wp_cancel_requested with (sid := sid) (op := op) (tid := tid); [done|done|].
  intros c w1 Hw1 Hc. apply wp_bind.
  assert (∀ b, (b = true → cancelled w1) →
    wp (if b then ret (inl SummaryCancelled)
        else let! started := look (env_start env) in
          match started (summary_request ctx sid view) with
          | inl error => ret (inl (SummaryFailed (CompactionModel (error_diagnostic error))))
          | inr stream =>
              let! blocks := summary_loop env ctx true stream None false in
              match blocks with
              | inl e => ret (inl e)
              | inr blocks =>
                  if any is_tool_block blocks then
                    ret (inl (invalid_summary
                      "summary model returned tool calls instead of FinalText"))
                  else
                    let summary := concat_str (filter_map text_block blocks) in
                    if str_is_empty summary then
                      ret (inl (invalid_summary "summary model returned empty FinalText"))
                    else ret (inr summary)
              end
          end)
      (λ r w', summarised w r w' ∧ (∀ s, r = inr s → s ≠ "")) w1) as Hrest.
  { intros b Hb. destruct b; cbv iota; [apply wp_ret; split; [by split; auto|done]|].
    apply wp_bind, wp_look with (sid := sid) (op := op) (tid := tid); [apply Hw1|]. intros w2 Hw2.
    assert (after w w2) by eauto using after_trans.
    destruct (env_start env _ _) as [e|stream]; [by apply wp_ret|].
    apply wp_bind. eapply wp_mono; [apply wp_summary_loop; apply Hw2|].
    intros r w3 [Hw3 Hr]. assert (after w w3) by eauto using after_trans.
    destruct r as [e|blocks]; [apply wp_ret; split; [split; [done|]; intros [= ->]; auto|done]|].
    destruct (any is_tool_block blocks); [by apply wp_ret|]. cbv zeta.
    destruct (str_is_empty _) eqn:He; [by apply wp_ret|].
    apply wp_ret. split; [by split|]. intros s [= <-]. by apply str_is_empty_false. }
  destruct c.
  - apply wp_ret. apply (Hrest true). intros _. by apply Hc.
  - apply wp_no_maintenance, (Hrest false). done.
Qed.

Lemma wp_cancel_before_turn w :
  ready w → cancelled w →
  wp (cancellation_observed ;; cancel_zero_trace ;; ret None) prepared w.
Proof.
  intros Hr Hc. apply wp_bind, wp_bind, wp_get_shared.
  apply wp_push with (sid := sid) (op := op) (tid := tid); [done|apply Hr|]. intros w1 Hw1.
  eapply wp_settled_None; [|done]. pose proof (ready_after _ _ Hw1 Hr) as [? ? ?].
  apply wp_cancel_zero_trace; [done|by apply Hw1|done|done].
Qed.

Lemma wp_maybe_auto_compact v w :
  ready w → current v w → wp (maybe_auto_compact env ctx sid sid v) prepared w.
Proof.
  intros Hr Hv. unfold maybe_auto_compact. apply wp_bind.
  change (wp (λ w, (Ok (last_input_tokens w !! sid), w)) ?Q w)
    with (Q (last_input_tokens w !! sid) w). cbv beta.
  destruct (should_auto_compact _ _ _); simpl; [|by apply wp_ret].
  destruct (select_boundary _ _) as [covers|] eqn:Hsel; [|by apply wp_ret].
  apply wp_bind, wp_push with (sid := sid) (op := op) (tid := tid); [done|apply Hr|]. intros w1 Hw1.
  apply wp_bind. eapply wp_mono; [apply wp_generate_summary; apply Hw1|].
  intros r w2 [[Hw2 Hcan] Hsum]. assert (after w w2) as Haft2 by eauto using after_trans.
  pose proof (ready_after _ _ Haft2 Hr) as Hr2. pose proof (current_after _ _ _ Haft2 Hv) as Hv2.
  assert (∀ m w3, after w2 w3 → wp (push (EvContextCompactionFailed m) ;; ret (Some v)) prepared w3)
    as Hfailed.
  { intros m w3 Hw3. apply wp_bind, wp_push with (sid := sid) (op := op) (tid := tid); [done|apply Hw3|].
    intros w4 Hw4. apply wp_ret. split; [eauto using ready_after|eauto using current_after]. }
  destruct r as [[|e]|summary].
  { apply wp_cancel_before_turn; [done|by apply Hcan]. }
  { apply Hfailed. apply after_refl, Hr2. }
  apply wp_bind, wp_cancel_requested with (sid := sid) (op := op) (tid := tid); [done|apply Hr2|].
  intros c w3 Hw3 Hc. pose proof (ready_after _ _ Hw3 Hr2) as Hr3.
  pose proof (current_after _ _ _ Hw3 Hv2) as Hv3.
  destruct c; [apply wp_cancel_before_turn; [done|by apply Hc]|].
  destruct (served_log sid op tid w3 (ready_live _ Hr3)) as [Ls Hlog].
  apply wp_bind. eapply (wp_commit sid); [apply Hr3|done|apply Hv3|..].
  - intros Hrev. eapply compaction_accepted, select_boundary_allowed;
      [exact Hlog|by apply (current_fresh _ _ Hv3)|exact Hsel|auto].
  - intros w4 c a Hl4 Hsh4 _ Ha Hp4 _.
    assert (ready w4) as Hr4.
    { apply script.apply_lifecycle in Ha. rewrite script.linear_kinds in Ha.
      unfold lc_accept_all in Ha. simpl in Ha. injection Ha as Ha.
      destruct Hr3. split; [done|..]; rewrite Hp4, <- Ha; done. }
    apply wp_bind, wp_push with (sid := sid) (op := op) (tid := tid); [done|done|]. intros w5 Hw5.
    pose proof (ready_after _ _ Hw5 Hr4) as Hr5.
    apply wp_bind, wp_cancel_requested with (sid := sid) (op := op) (tid := tid); [done|apply Hw5|].
    intros b w6 Hw6 Hb. pose proof (ready_after _ _ Hw6 Hr5) as Hr6.
    destruct b; [apply wp_cancel_before_turn; [done|by apply Hb]|].
    apply wp_bind. eapply wp_context_view; [apply Hw6|..].
    + intros w7 v7 Hl7 _ Hp7 Hv7. apply wp_ret. split; [by eapply ready_moved|by apply fresh_current].
    + intros w7 e Hl7 _ Hp7 _ Hf7. eapply wp_settled_None; [|done].
      apply wp_fail_unconfirmed; [done|by apply session_failure_catalogued|done|].
      rewrite (renamed_lifecycle _ _ Hp7). by apply before_unsettled, ready_before.
  - intros w4 e Hl4 Hsh4 Hp4 Hk4 Hf4.
    apply wp_bind, wp_push with (sid := sid) (op := op) (tid := tid); [done|done|]. intros w5 Hw5.
    apply wp_ret. split.
    + apply (ready_after w4); [done|]. by eapply ready_moved.
    + eapply current_after; [done|]. by eapply current_moved.
Qed.
End turn.
End turn.

Import runtime mapping operation engine logic settle batch parallel turn.

Module drive.

(** ** Mapped values *)
Lemma batch_block_calls bs :
  session.call_id <$> filter_map session.block_call (batch_block <$> bs) =
    kernel.call_id <$> filter_map kernel.block_call bs.
Proof.
  induction bs as [|[text|call] bs IH]; [done|done|].
  rewrite fmap_cons. unfold filter_map in *. simpl. by f_equal.
Qed.

Lemma batch_block_texts bs :
  any kernel.empty_text_block bs = false → session.BlockText "" ∉ batch_block <$> bs.
Proof.
  intros Hb%any_false ([text|call]&Heq&Hin)%list_elem_of_fmap; [|done]. simpl in Heq.
  injection Heq as <-. rewrite Forall_forall in Hb. by apply Hb in Hin.
Qed.

Lemma final_blocks_ok bs :
  any kernel.empty_text_block bs = false →
  Forall (λ b, ∃ text, b = session.BlockText text ∧ text ≠ "") (filter_map final_block bs).
Proof.
  intros Hb%any_false. apply Forall_forall. intros b Hin. unfold filter_map in Hin.
  apply list_elem_of_omap in Hin as ([text|call]&Hin&Hf); simpl in Hf; [|done].
  injection Hf as <-. exists text. split; [done|]. rewrite Forall_forall in Hb.
  specialize (Hb _ Hin). by apply str_is_empty_false in Hb.
Qed.

Lemma opened_batch_of bid bs :
  opened_batch bid (batch_block <$> bs) = batch_of bid (filter_map kernel.block_call bs).
Proof. unfold opened_batch, batch_of. by rewrite batch_block_calls. Qed.

Lemma kernel_results_match (results : ToolResults) :
  kernel.matching_results results.*1
    ((λ row, kernel_result row.1 (tools.result row.2)) <$> results) = true.
Proof.
  apply KernelProofs.matching_results_true. rewrite <- !list_fmap_compose.
  by apply list_fmap_ext.
Qed.

Lemma from_blocks_spec bs :
  (∃ e, kernel.from_blocks bs = Err e) ∨
  kernel.from_blocks bs = Ok {| kernel.blocks := bs; kernel.unsupported := false |} ∧
    any kernel.empty_text_block bs = false.
Proof. unfold kernel.from_blocks. destruct (any _ bs); eauto. Qed.

Section drive.
Context {St : Type} `{store.StoreLaws St} `{Build} `{DebugSessionError}.
Context (env : Env) (ctx : EngineContext) (sid : SessionId) (op : OperationId) (tid : TurnId).
Context (Henv : env_ok env) (Hmaint : has_maintenance_cancel ctx = false).

Abbreviation World := (World (Recorder St)).
Abbreviation live := (live sid op tid).
Abbreviation after := (after sid op tid).
Abbreviation settled := (settled env sid op tid).
Abbreviation catalogued := (catalogued env).
Abbreviation offered := (offered env).
Abbreviation cursor := (cursor sid op tid).
Implicit Types w : World.

(** ** One model call *)
Definition call_end w (out : ModelCallOutcome) w' : Prop :=
  match out with
  | CallSettled => settled w'
  | CallCompleted _ => after w w'
  | CallFailed failed => after w w' ∧ catalogued (attempt_failure failed)
  end.

Lemma wp_cancel_settles cx eff bs w :
  live w → cancelled w → cursor cx eff w bs → script.all_complete bs →
  wp (cancellation_observed ;; cx_cancel ctx cx eff [] []) (λ _, settled) w.
Proof.
  intros Hl Hc Hcur Hbs. apply wp_bind, wp_cancellation_observed with (sid := sid) (op := op) (tid := tid);
    [done|]. intros w1 Hw1.
  pose proof (cursor_after sid op tid cx eff _ w1 _ Hw1 Hcur) as Hcur1.
  eapply wp_cx_cancel; [apply Hw1|by apply Hw1|exact Hcur1| |done].
  eapply no_marks_cancellable; [|done]. apply Hcur1.
Qed.

Lemma wp_cancel_idle {A} cx eff bs (a : A) (Q : A → World → Prop) w :
  live w → cancelled w → cursor cx eff w bs → script.all_complete bs →
  (∀ w', settled w' → Q a w') →
  wp (cancellation_observed ;; cx_cancel ctx cx eff [] [] ;; ret a) Q w.
Proof.
  intros Hl Hc Hcur Hbs HQ. pose proof (wp_cancel_settles _ _ _ _ Hl Hc Hcur Hbs) as Hset.
  unfold wp, bind, ret in *.
  destruct (cancellation_observed w) as [[[]|e|] w1]; [|done..].
  destruct (cx_cancel ctx cx eff [] [] w1) as [[[]|e|] w2]; [by apply HQ|done..].
Qed.

Lemma wp_record_input_tokens n Q w :
  live w → (∀ w', after w w' → Q tt w') → wp (record_input_tokens sid n) Q w.
Proof.
  intros [? ? ? ? ? ? ? ? ?] HQ. apply HQ. by split.
Qed.

Lemma call_end_trans w w1 out w2 : after w w1 → call_end w1 out w2 → call_end w out w2.
Proof. destruct out; simpl; [eauto using after_trans|intros ? [? ?]|done]. split; eauto using after_trans. Qed.

Lemma wp_model_loop cx eff mid stream assembler completed started bs w :
  live w → cursor cx eff w bs → script.all_complete bs → (∀ e, inl e ∈ stream → offered e) →
  wp (model_loop env ctx cx sid eff mid stream assembler completed started) (call_end w) w.
Proof.
  revert assembler completed started w.
  induction stream as [|item stream IH]; intros assembler completed started w Hl Hcur Hbs Hoff; simpl;
    (apply wp_bind, wp_cancel_requested with (sid := sid) (op := op) (tid := tid); [done|done|]);
    intros c w1 Hw1 Hc;
    pose proof (cursor_after sid op tid cx eff _ w1 _ Hw1 Hcur) as Hcur1;
    (destruct c; [eapply wp_cancel_idle; [apply Hw1|by apply Hc|done|done|done]|]).
  { destruct completed; apply wp_ret; [done|]. split; [done|catalogued_row]. }
  assert (∀ asm co st w2, after w1 w2 →
    wp (model_loop env ctx cx sid eff mid stream asm co st) (call_end w) w2) as Hrec.
  { intros asm co st w2 Hw2. eapply wp_mono; [apply IH; [apply Hw2| |done|set_solver]|].
    - eapply cursor_after; [|exact Hcur1]. done.
    - intros out w3 Ho. eapply call_end_trans; [|done]. eauto using after_trans. }
  assert (after w1 w1) as Hw11 by apply after_refl, Hw1.
  destruct item as [e|ev].
  { apply wp_ret. split; [done|]. right. exists e. split; [apply Hoff; set_solver|done]. }
  destruct completed as [bl|]; [by destruct ev; apply wp_ret; (split; [|catalogued_row])|].
  destruct ev as [rm ri|delta|text|index id name arguments|usage|blocks].
  - destruct started; [apply wp_ret; by split; [|catalogued_row]|].
    apply wp_bind, wp_push with (sid := sid) (op := op) (tid := tid); [done|apply Hw1|]. intros w2 Hw2.
    by apply Hrec.
  - apply wp_bind, wp_phase with (sid := sid) (op := op) (tid := tid); [done|apply Hw1|]. intros w2 Hw2.
    apply wp_bind, wp_push with (sid := sid) (op := op) (tid := tid); [done|apply Hw2|]. intros w3 Hw3.
    apply Hrec. eauto using after_trans.
  - apply wp_bind, wp_push with (sid := sid) (op := op) (tid := tid); [done|apply Hw1|]. intros w2 Hw2.
    by apply Hrec.
  - by apply Hrec.
  - assert (∀ Q : unit → World → Prop, (∀ w2, after w1 w2 → Q tt w2) →
      wp (match input_tokens usage with
          | Some tokens => record_input_tokens sid tokens
          | None => ret tt
          end) Q w1) as Htok.
    { intros Q HQ. destruct (input_tokens usage); [apply wp_record_input_tokens; [apply Hw1|done]|].
      by apply wp_ret, HQ. }
    apply wp_bind, Htok. intros w2 Hw2.
    apply wp_bind, wp_push with (sid := sid) (op := op) (tid := tid); [done|apply Hw2|]. intros w3 Hw3.
    apply Hrec. eauto using after_trans.
  - by apply Hrec.
Qed.

Lemma wp_model_call_run cx turn eff mid index messages allowed bs w :
  snap_session_id turn = sid →
  live w → cursor cx eff w bs → script.all_complete bs →
  wp (model_call_run env ctx cx turn eff mid index messages allowed) (call_end w) w.
Proof.
  intros Hsid Hl Hcur Hbs. unfold model_call_run. rewrite Hsid.
  apply wp_bind, wp_cancel_requested with (sid := sid) (op := op) (tid := tid); [done|done|].
  intros c w1 Hw1 Hc.
  assert (∀ w2, after w w2 → cursor cx eff w2 bs) as Hcur'.
  { intros w2 Hw2. eapply cursor_after; [|exact Hcur]. done. }
  destruct c; [eapply wp_cancel_idle; [apply Hw1|by apply Hc|by apply Hcur'|done|done]|].
  apply wp_bind, wp_phase with (sid := sid) (op := op) (tid := tid); [done|apply Hw1|]. intros w2 Hw2.
  apply wp_bind, wp_push with (sid := sid) (op := op) (tid := tid); [done|apply Hw2|]. intros w3 Hw3.
  apply wp_bind, wp_get_shared. cbv zeta.
  apply wp_bind, wp_look with (sid := sid) (op := op) (tid := tid); [apply Hw3|]. intros w4 Hw4.
  assert (after w w4) as Haft by eauto 6 using after_trans.
  destruct (env_start env _ _) as [e|stream] eqn:Hstart.
  { apply wp_ret. split; [done|]. right. exists e. split; [|done]. do 2 eexists. by left. }
  apply wp_bind, wp_phase with (sid := sid) (op := op) (tid := tid); [done|apply Hw4|]. intros w5 Hw5.
  assert (after w w5) as Haft5 by eauto using after_trans.
  eapply wp_mono; [eapply wp_model_loop; [apply Hw5|by apply Hcur'|done|]|].
  { intros e He. do 2 eexists. right. eauto. }
  intros out w6 Ho. by eapply call_end_trans.
Qed.

(** ** Recovery *)
Lemma wp_next_delay n Q w :
  live w → (∀ d w', after w w' → Q d w') → wp (next_delay env ctx n) Q w.
Proof.
  intros [? ? ? ? ? ? ? ? ?] HQ. unfold next_delay, wp. destruct (backoff_delay _ _ _ _) as [j d].
  apply HQ. by split.
Qed.

(** The blocks of a completed call, or the operation is settled. *)
Definition step_end {A} w (r : option A) w' : Prop :=
  match r with None => settled w' | Some _ => after w w' end.

Lemma wp_recovery_loop fuel cx turn eff mid index messages allowed tried bs w :
  snap_session_id turn = sid →
  live w → cursor cx eff w bs → script.all_complete bs →
  (0 ≤ tried)%Z → Z.to_nat (max_retries (recovery (config ctx)) - tried) < fuel →
  wp (recovery_loop env ctx fuel cx turn eff mid index messages allowed tried) (step_end w) w.
Proof.
  intros Hsid. revert tried w.
  induction fuel as [|fuel IH]; intros tried w Hl Hcur Hbs Htried Hfuel; [lia|].
  cbn [recovery_loop]. apply wp_bind.
  eapply wp_mono; [by eapply (wp_model_call_run cx turn eff mid index messages allowed bs)|].
  intros out w1 Hout. destruct out as [blocks|failed|]; [by apply wp_ret| |by apply wp_ret].
  destruct Hout as [Hw1 Hcat].
  assert (∀ w2, after w w2 → cursor cx eff w2 bs) as Hcur'.
  { intros w2 Hw2. eapply cursor_after; [|exact Hcur]. done. }
  destruct (negb (enabled _) || negb (recoverable failed) || bool_decide _) eqn:Hex.
  { apply wp_bind, wp_ret. simpl. eapply wp_settled_None; [|done].
    eapply wp_cx_fail; [apply Hw1|done|by apply Hcur']. }
  apply orb_false_iff in Hex as [_ Hlt%bool_decide_eq_false].
  apply wp_bind, wp_cancel_requested with (sid := sid) (op := op) (tid := tid); [done|apply Hw1|].
  intros c w2 Hw2 Hc. assert (after w w2) as Haft2 by eauto using after_trans.
  destruct c; cbn [orb].
  { eapply wp_settled_None; [|done].
    eapply wp_cancel_settles; [apply Hw2|by apply Hc|by apply Hcur'|done]. }
  apply wp_bind, wp_next_delay; [apply Hw2|]. intros d w3 Hw3.
  apply wp_bind, wp_push with (sid := sid) (op := op) (tid := tid); [done|apply Hw3|]. intros w4 Hw4.
  apply wp_bind. unfold backoff_or_cancel.
  apply wp_bind, wp_cancel_requested with (sid := sid) (op := op) (tid := tid); [done|apply Hw4|].
  intros b w5 Hw5 Hb. apply wp_ret. assert (after w w5) as Haft5 by eauto 6 using after_trans.
  destruct b; simpl.
  { eapply wp_cancel_idle; [apply Hw5|by apply Hb|by apply Hcur'|done|done]. }
  eapply wp_mono; [apply IH; [apply Hw5|by apply Hcur'|done|lia|lia]|].
  intros [r|] w6; simpl; [|done]. eauto using after_trans.
Qed.
(** ** The turn *)
Context (max : Z).

(** The driver waits for a model call: kernel, session and cursor agree, and
    the batches so far are those of the [used] rounds. *)
Record at_model (cx : TurnCx) (effect : kernel.KernelEffect) (used : Z)
    (bs : list session.ToolBatchRecord) w : Prop := {
  am_wf : KernelProofs.wf_state (cx_state cx);
  am_state : ∃ eff mid tr,
    cx_state cx =
      {| kernel.inner := kernel.ExpectingModelCompletion eff mid used max tid tr |} ∧
    effect = kernel.RequestModel eff mid tr (bool_decide (used < max)%Z) ∧
    cursor cx eff w bs;
  am_complete : script.all_complete bs;
  am_ids : Forall (λ b, ∃ n, (1 ≤ n ≤ used)%Z ∧
    session.batch_id b = KernelProofs.batch_id_of tid n) bs
}.

Lemma am_used cx effect used bs w :
  at_model cx effect used bs w → KernelProofs.rounds_ok max ∧ (0 ≤ used ≤ max)%Z.
Proof.
  intros [Hwf (eff&mid&tr&Hst&_) _ _]. rewrite Hst in Hwf. unfold KernelProofs.wf_state in Hwf.
  simpl in Hwf. tauto.
Qed.

(** A batch id of a new round is not in use. *)
Lemma fresh_batch_id used bs :
  (0 ≤ used)%Z →
  Forall (λ b, ∃ n, (1 ≤ n ≤ used)%Z ∧ session.batch_id b = KernelProofs.batch_id_of tid n) bs →
  Forall (λ b, session.batch_id b ≠ KernelProofs.batch_id_of tid (used + 1)) bs.
Proof.
  intros Hu Hall. eapply Forall_impl; [exact Hall|]. intros b (n&Hn&->).
  unfold KernelProofs.batch_id_of. intros Heq%string_app_inj_l%string_app_inj_l.
  apply display_inj in Heq; lia.
Qed.

(** After a tool round: settled, or back at a model call one round later. *)
Definition round_end (used : Z) (bs : list session.ToolBatchRecord)
    (r : option (TurnCx * kernel.KernelEffect)) w : Prop :=
  match r with
  | None => settled w
  | Some (cx, effect) => live w ∧ ∃ b, at_model cx effect (used + 1) (bs ++ [b]) w
  end.

Lemma wp_run_tool_round cx turn eff mid used bs tr output completed w :
  live w →
  cx_state cx = {| kernel.inner := kernel.ExpectingModelCompletion eff mid used max tid tr |} →
  cursor cx eff w bs → KernelProofs.wf_state (cx_state cx) →
  script.all_complete bs →
  Forall (λ b, ∃ n, (1 ≤ n ≤ used)%Z ∧ session.batch_id b = KernelProofs.batch_id_of tid n) bs →
  any kernel.empty_text_block (kernel.blocks output) = false →
  kernel.contains_tool_call output = true →
  KernelProofs.accepted (cx_state cx) (kernel.ModelCallCompleted eff output) completed →
  wp (run_tool_round env ctx cx turn eff mid output completed) (round_end used bs) w.
Proof.
  intros Hl Hst Hcur Hwf Hbs Hids Htexts Htool Hacc.
  pose proof (KernelProofs.accepted_wf _ (kernel.ModelCallCompleted eff output) _ Hwf I Hacc) as Hwf'.
  rewrite Hst in Hwf, Hacc. unfold KernelProofs.wf_state in Hwf. simpl in Hwf.
  destruct Hwf as (Hmax&Hused&_).
  inversion Hacc as [|? ? ? ? ? ? ? Hun _ Hlt Hvalid|? ? ? ? ? ? ? Hun Hno| |? ? ? ?|? ? ?];
    subst; [|congruence].
  set (calls := filter_map kernel.block_call (kernel.blocks output)) in *.
  set (bid := KernelProofs.batch_id_of tid (used + 1)) in *.
  apply KernelProofs.valid_calls_true in Hvalid as (Hne&Hnd&_).
  unfold run_tool_round. simpl kernel.effect. cbv iota.
  apply wp_bind, wp_phase with (sid := sid) (op := op) (tid := tid); [done|done|]. intros w1 Hw1.
  pose proof (cursor_after sid op tid cx eff _ w1 _ Hw1 Hcur) as Hcur1.
  apply wp_bind, wp_get_shared. cbv zeta.
  rewrite (live_turn _ _ _ _ (after_live _ _ _ _ _ Hw1)), (cursor_session _ _ _ _ _ _ _ Hcur1).
  destruct (script.batch_accepted op tid _ bs mid bid (batch_block <$> kernel.blocks output)
    (cursor_turn _ _ _ _ _ _ _ Hcur1)) as (lc1&Ha1&Hin1).
  { done. }
  { apply fresh_batch_id; [lia|done]. }
  { intros Hnil. apply (f_equal (fmap session.call_id)) in Hnil. rewrite batch_block_calls in Hnil.
    fold calls in Hnil. by destruct calls. }
  { by rewrite batch_block_calls. }
  { by apply batch_block_texts. }
  rewrite opened_batch_of in Hin1. fold calls in Hin1.
  apply wp_bind. eapply wp_commit_linear;
    [apply Hw1|apply Hcur1|done|by repeat constructor|apply script.batch_save_point|exact Ha1|..].
  2: { intros w2 e Hl2 _ Hp2 Hk2 Hf2. eapply wp_settled_None; [|done].
       eapply wp_cx_fail; [done|catalogued_row|by eapply cursor_moved]. }
  intros w2 c Hl2 _ Hlc2 Hrev2. cbv zeta.
  apply wp_bind, wp_push with (sid := sid) (op := op) (tid := tid); [done|done|]. intros w3 Hw3.
  pose proof (after_proj sid op tid _ _ Hw3) as Hp3.
  apply wp_bind. eapply wp_mono.
  { apply (wp_tool_batch_run _ _ sid op tid Henv _ _ _ _ _ bs); [apply Hw3| |done].
    split; simpl; [done|left; by rewrite Hp3|done|by rewrite Hp3, Hlc2]. }
  intros [[cx' results]|] w4 Hend; simpl in Hend; [|by apply wp_ret].
  destruct Hend as (Hl4&Hres&Hst4&Hcur4). cbv zeta. rewrite Hst4. simpl cx_state.
  set (results' := (λ row, kernel_result row.1 (tools.result row.2)) <$> results).
  assert (kernel.matching_results calls results' = true) as Hmatch.
  { rewrite <- Hres. apply kernel_results_match. }
  pose proof (KernelProofs.acc_results (KernelProofs.effect_id_of tid (2 * (used + 1))) bid
    (used + 1) max tid (tr ++ [kernel.AssistantToolCalls bid (kernel.blocks output)])
    calls results' Hmatch) as Hacc'.
  pose proof (KernelProofs.accepted_wf _ (kernel.ToolBatchCompleted _ _) _ Hwf' I Hacc') as Hwf4.
  apply (KernelProofs.transition_accepted _ _ _ Hwf') in Hacc'.
  apply wp_bind. eapply wp_attempt_Ok; [exact Hacc'|].
  cbv beta iota zeta. simpl kernel.effect. cbv iota. apply wp_ret. split; [done|].
  exists (script.filled (batch_of bid calls)). split.
  - exact Hwf4.
  - do 3 eexists. split; [reflexivity|]. split; [reflexivity|].
    destruct Hcur4 as [? ? _ ?]. by split.
  - apply Forall_app. split; [done|]. by repeat constructor; apply script.filled_complete.
  - apply Forall_app. split.
    + eapply Forall_impl; [exact Hids|]. intros b (n&?&?). exists n. split; [lia|done].
    + constructor; [|constructor]. exists (used + 1)%Z. split; [lia|done].
Qed.

(** The final answer: settled as succeeded, or failed over the old effect. *)
Lemma wp_settle_success cx eff mid bs output w :
  live w → cursor cx eff w bs → script.all_complete bs →
  any kernel.empty_text_block (kernel.blocks output) = false →
  wp (settle_success ctx cx eff
        [kernel.AssistantOutputAccepted mid output; kernel.TurnTerminated kernel.Succeeded]
        (kernel.output_text output)) (λ _, settled) w.
Proof.
  intros Hl Hcur Hbs Htexts. unfold settle_success.
  apply wp_bind, wp_get_shared.
  apply wp_bind. eapply wp_attempt_Ok; [reflexivity|]. cbv beta iota.
  rewrite (live_op _ _ _ _ Hl), (live_turn _ _ _ _ Hl).
  apply wp_bind, wp_phase with (sid := sid) (op := op) (tid := tid); [done|done|]. intros w1 Hw1.
  pose proof (cursor_after sid op tid cx eff _ w1 _ Hw1 Hcur) as Hcur1.
  rewrite (cursor_session _ _ _ _ _ _ _ Hcur1).
  destruct (script.success_accepted op tid _ bs (filter_map final_block (kernel.blocks output))
    (session_usage <$> last_usage (shared w)) (Some (generation_choice ctx))
    (cursor_turn _ _ _ _ _ _ _ Hcur1)) as (lc1&Ha1&Hcl1); [done|by apply final_blocks_ok|].
  apply wp_bind. eapply wp_commit_linear;
    [apply Hw1|apply Hcur1|done|by repeat constructor| |exact Ha1|..].
  - eapply script.success_save_point; [apply Hcur1|done].
  - intros w2 c Hl2 _ Hlc2 Hrev2. apply wp_succeed; [done|done|by rewrite Hlc2].
  - intros w2 e Hl2 _ Hp2 Hk2 Hf2. eapply wp_cx_fail; [done|catalogued_row|by eapply cursor_moved].
Qed.

Lemma wp_turn_loop fuel cx turn effect used bs w :
  snap_session_id turn = sid → live w → at_model cx effect used bs w →
  Z.to_nat (max - used) < fuel →
  wp (turn_loop env ctx fuel cx turn effect used) (λ _, settled) w.
Proof.
  intros Hsid. revert cx effect used bs w.
  induction fuel as [|fuel IH]; intros cx effect used bs w Hl Ham Hfuel; [lia|].
  pose proof (am_used _ _ _ _ _ Ham) as [Hmax Hused].
  destruct Ham as [Hwf (eff&mid&tr&Hst&->&Hcur) Hbs Hids]. cbn [turn_loop].
  apply wp_bind. unfold checked. rewrite u32_checked_in
    by (unfold in_u32, u32_max, KernelProofs.rounds_ok in *; lia).
  change (wp (λ w, (Ok (used + 1)%Z, w)) ?Q w) with (Q (used + 1)%Z w). cbv beta.
  apply wp_bind. eapply wp_mono.
  { unfold drive_model_call_with_recovery.
    eapply (wp_recovery_loop _ cx turn eff mid); [done|done|exact Hcur|done|lia|lia]. }
  intros [blocks|] w1 Hw1; simpl in Hw1; [|by apply wp_ret].
  pose proof (cursor_after sid op tid cx eff _ w1 _ Hw1 Hcur) as Hcur1.
  apply wp_bind.
  destruct (from_blocks_spec (kernel_blocks_from_model blocks)) as [[e He]|[He Htexts]].
  { eapply wp_attempt_Err; [exact He|]. eapply wp_cx_fail; [apply Hw1|catalogued_row|done]. }
  eapply wp_attempt_Ok; [exact He|]. cbv beta iota zeta.
  set (output := {| kernel.blocks := _; kernel.unsupported := _ |}).
  apply wp_bind.
  destruct (kernel.transition (cx_state cx) (kernel.ModelCallCompleted eff output))
    as [completed|e|] eqn:Htr.
  2: { eapply wp_attempt_Err; [exact Htr|]. eapply wp_cx_fail; [apply Hw1|catalogued_row|done]. }
  2: { by apply KernelProofs.transition_no_panic in Htr. }
  eapply wp_attempt_Ok; [exact Htr|]. cbv beta iota.
  apply (KernelProofs.transition_accepted _ _ _ Hwf) in Htr.
  destruct (kernel.contains_tool_call output) eqn:Htool; simpl negb; cbv iota.
  - apply wp_bind. eapply wp_mono.
    { eapply (wp_run_tool_round _ _ _ _ used bs); try done. apply Hw1. }
    intros [[cx' effect']|] w2; [|by intros; apply wp_ret].
    intros [Hl2 [b Ham2]]. eapply IH; [done|exact Ham2|].
    pose proof (am_used _ _ _ _ _ Ham2). lia.
  - rewrite Hst in Htr. inversion Htr; subst; [congruence|].
    simpl kernel.observations. eapply wp_settle_success; [apply Hw1|done|done|done].
Qed.
End drive.
End drive.
