(* ===== verification/EngineProofs.v ===== *)
(** What the turn engine guarantees about one operation, whatever the model,
    the tools, the clock and the user do, over any store that keeps the
    session store's contract, while others rename the session through it. At the
    end, concrete operations, one of which a rename makes fail. *)

From S2P Require Import Prelude RustStr Kernel KernelProofs Session SessionLifecycle.
From S2P Require Import SessionContext SessionProofs SessionStore TurnScript Tools Runtime.
From S2P Require Import RuntimeMapping Operation Engine EngineLogic EngineTools EngineTurn.
Import runtime mapping operation engine logic settle turn drive.

Module engine_proofs.

(** A part every layer accepts; only the session refuses an image without a
    media type. *)
Definition sendable (part : UserPart) : Prop :=
  match part with UserText text => text ≠ "" | UserImage media_type _ => media_type ≠ "" end.

Lemma sendable_kernel ps :
  Forall sendable ps → ps ≠ [] →
  kernel.user_from_parts (kernel_user_parts ps) = Ok {| kernel.parts := kernel_user_parts ps |}.
Proof.
  intros Hps Hne. unfold kernel.user_from_parts.
  destruct (is_nil (kernel_user_parts ps)) eqn:Hnil.
  { apply is_nil_true in Hnil. by apply fmap_nil_inv in Hnil. }
  assert (any kernel.empty_text_part (kernel_user_parts ps) = false) as ->; [|done].
  apply any_false, Forall_fmap. eapply Forall_impl; [exact Hps|].
  intros [text|m bytes] Hp; simpl in *; [|done]. by apply str_is_empty_false.
Qed.

Lemma sendable_session ps :
  Forall sendable ps →
  Forall (λ p, session.part_well_formed p = true) (session_user_parts (kernel_user_parts ps)).
Proof.
  intros Hps. unfold session_user_parts, kernel_user_parts. rewrite <- list_fmap_compose.
  apply Forall_fmap. eapply Forall_impl; [exact Hps|].
  intros [text|m bytes] Hp; simpl in *; by apply negb_true_iff, str_is_empty_false.
Qed.

Section operation.
Context {St : Type} `{store.StoreLaws St} `{Build} `{DebugSessionError}.
Context (env : Env) (ctx : EngineContext) (sid : SessionId) (op : OperationId) (tid : TurnId).

Abbreviation World := (World (Recorder St)).
Implicit Types w : World.
Abbreviation lc_of w := (session.lifecycle (proj sid w)).

(** An operation the coordinator may start: identifiers new to the session, a
    message it accepts, a round limit whose numbering fits, no maintenance
    token, no cancel reason but the user's and the timeout's; and others that only
    rename the session while it runs. *)
Record admitted (message : UserMessage) w : Prop := {
  admitted_env : env_ok env;
  admitted_maintenance : has_maintenance_cancel ctx = false;
  admitted_rounds : KernelProofs.rounds_ok (max_tool_rounds (config ctx));
  admitted_parts : parts message ≠ [] ∧ Forall sendable (parts message);
  admitted_store : store.usable (recorded (store w));
  admitted_unused : script.unused op tid (lc_of w);
  admitted_sealable : script.sealable (lc_of w);
  admitted_foreign : Forall (Forall (bystander sid)) (foreign (store w));
  admitted_journal : journal (store w) = [];
  admitted_shared : shared w = shared_new op tid Queued
}.

Lemma wp_start_turn message v w :
  env_ok env → has_maintenance_cancel ctx = false →
  KernelProofs.rounds_ok (max_tool_rounds (config ctx)) →
  parts message ≠ [] → Forall sendable (parts message) →
  ready sid op tid w → current sid v w →
  wp (start_turn env ctx sid v message) (λ _, settled env sid op tid) w.
Proof.
  intros Henv Hmaint Hrounds Hne Hparts Hr Hv. unfold start_turn.
  apply wp_bind, wp_bind, wp_get_shared, wp_push with (sid := sid) (op := op) (tid := tid); [done|apply Hr|].
  intros w1 Hw1. pose proof (ready_after _ _ _ _ _ Hw1 Hr) as Hr1.
  pose proof (current_after _ _ _ _ _ _ Hw1 Hv) as Hv1. cbv zeta.
  apply wp_bind. eapply wp_attempt_Ok; [by apply sendable_kernel|]. cbv beta iota.
  apply wp_bind, wp_get_shared.
  rewrite (live_turn _ _ _ _ (after_live _ _ _ _ _ Hw1)), (live_op _ _ _ _ (after_live _ _ _ _ _ Hw1)).
  simpl snap_max_tool_rounds. set (max := max_tool_rounds (config ctx)) in *.
  set (user := {| kernel.parts := kernel_user_parts (parts message) |}).
  pose proof (KernelProofs.acc_begin tid user max) as Hacc.
  pose proof (KernelProofs.accepted_wf kernel.initial_state (kernel.BeginTurn tid user max) _ I
    Hrounds Hacc) as Hwf.
  apply (KernelProofs.transition_accepted kernel.initial_state _ _ I) in Hacc.
  apply wp_bind. eapply wp_attempt_Ok; [exact Hacc|]. cbv beta iota. cbv zeta in Hwf |- *.
  simpl kernel.observations. apply wp_bind. eapply wp_attempt_Ok.
  { unfold start_entries. simpl. by rewrite bool_decide_eq_true_2. }
  cbv beta iota.
  apply wp_bind, wp_cancel_requested with (sid := sid) (op := op) (tid := tid); [done|apply Hw1|].
  intros c w2 Hw2 Hc. pose proof (ready_after _ _ _ _ _ Hw2 Hr1) as Hr2.
  pose proof (current_after _ _ _ _ _ _ Hw2 Hv1) as Hv2.
  destruct c.
  { apply wp_bind, wp_bind, wp_get_shared, wp_push with (sid := sid) (op := op) (tid := tid);
      [done|apply Hw2|]. intros w3 Hw3.
    pose proof (ready_after _ _ _ _ _ Hw3 Hr2) as [? ? ?].
    apply wp_cancel_zero_trace; try done. by apply Hw3, Hc. }
  pose proof (current_behind _ _ _ Hv2) as Hrev. destruct Hr2 as [Hl2 Hun2 Hop2].
  destruct (script.start_accepted op tid (lc_of w2)
    (session_user_parts (kernel_user_parts (parts message)))) as (lc3&Ha3&Hin3); [done|done| | |].
  { unfold session_user_parts, kernel_user_parts. by destruct (parts message). }
  { by apply sendable_session. }
  apply wp_bind. eapply wp_commit_linear;
    [done|exact Hrev|done|by repeat constructor|apply script.start_save_point|exact Ha3|..].
  - intros w3 cm Hl3 _ Hlc3 Hrev3. simpl kernel.effect. cbv iota.
    eapply (wp_turn_loop env ctx sid op tid Henv Hmaint max _ _ _ _ 0 []); [done|done| |].
    + split; [exact Hwf| |constructor|constructor].
      do 3 eexists. split; [reflexivity|]. split; [reflexivity|].
      split; simpl; [done|by left|done|by rewrite Hlc3].
    + unfold turn_fuel. simpl. rewrite Z.sub_0_r. fold max. lia.
  - intros w3 e Hl3 _ Hp3 _ Hf3. apply wp_fail_unconfirmed; [done|catalogued_row|done|].
    rewrite (renamed_lifecycle _ _ Hp3). apply before_unsettled with (tid := tid) (w := w2), ready_before. by split.
Qed.

Lemma wp_drive_turn message w :
  env_ok env → has_maintenance_cancel ctx = false →
  KernelProofs.rounds_ok (max_tool_rounds (config ctx)) →
  parts message ≠ [] → Forall sendable (parts message) →
  before_turn sid op tid w →
  wp (drive_turn env ctx sid message) (λ _, settled env sid op tid) w.
Proof.
  intros Henv Hmaint Hrounds Hne Hparts Hb. apply wp_bind.
  eapply wp_context_view; [apply Hb|..].
  - intros w1 v Hl1 _ Hp1 Hv. apply wp_bind. eapply wp_mono.
    { apply (wp_seal_stale_turns env sid op tid); [by eapply before_moved|done]. }
    intros [v2|] w2; simpl; [|by intros; apply wp_ret]. intros [Hr2 Hv2].
    apply wp_bind. eapply wp_mono.
    { by apply (wp_maybe_auto_compact env ctx sid op tid). }
    intros [v3|] w3; simpl; [|by intros; apply wp_ret]. intros [Hr3 Hv3].
    by apply wp_start_turn.
  - intros w1 e Hl1 _ Hp1 _ Hf1. apply wp_fail_unconfirmed; [done|by apply session_failure_catalogued|done|].
    rewrite (renamed_lifecycle _ _ Hp1). by eapply before_unsettled.
Qed.

Lemma admitted_live message w : admitted message w → live sid op tid w.
Proof.
  intros [_ _ _ _ Hu _ _ Hf Hj Hs].
  split; rewrite ?Hs, ?Hj; try done. apply always_nil.
Qed.

(** The settled world before the exit is taken. *)
Lemma drive_settles message w :
  admitted message w →
  ∃ w', settled env sid op tid w' ∧
    drive env ctx sid message w =
      (Ok (default (ExitAborted "driver-missing-exit") (exit (shared w'))),
       set_shared w' (take_exit (shared w')).1).
Proof.
  intros Ha. pose proof (admitted_live _ _ Ha) as Hl.
  destruct Ha as [Henv Hmaint Hrounds [Hne Hparts] _ Hun Hseal _ _ _].
  assert (wp (begin env (operation_timeout (config ctx)) ;; drive_turn env ctx sid message)
    (λ _, settled env sid op tid) w) as Hwp.
  { apply wp_bind, wp_bind, wp_look with (sid := sid) (op := op) (tid := tid); [done|]. intros w1 Hw1.
    apply wp_bind, wp_update with (sid := sid) (op := op) (tid := tid); [apply tame_deadline|apply Hw1|].
    intros w2 Hw2. apply wp_bind, wp_get_shared.
    apply wp_bind, wp_push with (sid := sid) (op := op) (tid := tid); [done|apply Hw2|]. intros w3 Hw3.
    apply wp_phase with (sid := sid) (op := op) (tid := tid); [done|apply Hw3|]. intros w4 Hw4.
    assert (after sid op tid w w4) as Haft by eauto 6 using after_trans.
    apply wp_drive_turn; try done. apply (before_after sid op tid w); [done|]. by split. }
  apply wp_elim in Hwp as ([]&w'&Hrun&Hset). exists w'. split; [exact Hset|].
  unfold drive. unfold bind at 1. unfold bind in Hrun at 1.
  destruct (begin env _ w) as [[[]|e|] w1]; [|done..].
  unfold bind. rewrite Hrun. done.
Qed.

Lemma drive_reported message w :
  admitted message w →
  ∃ status durability rev w',
    reported env sid op status durability rev w' ∧ durable sid op tid status durability rev w' ∧
    drive env ctx sid message w =
      (Ok (exit_for status durability), set_shared w' (take_exit (shared w')).1).
Proof.
  intros (w'&(st&du&rv&Hr&Hd)&Hrun)%drive_settles. exists st, du, rv, w'.
  split; [done|]. split; [done|]. rewrite Hrun. by rewrite (reported_exit _ _ _ _ _ _ _ Hr).
Qed.
(** ** Properties *)

(** C1: an admitted operation always comes to an end, without a panic and
    without exhausting a loop bound: it reports exactly one settlement, as its
    last event, moves to the settled phase with that status, and returns the
    exit that goes with the settlement; and it reports a cancellation only
    when a cancel request or the timeout was observed. *)
Theorem engine_settles_exactly_once message w :
  admitted message w →
  ∃ status durability rev w',
    drive env ctx sid message w = (Ok (exit_for status durability), w') ∧
    settlements (shared w') = [(op, status, durability, rev)] ∧
    last (events (shared w')) = Some (EvOperationSettled op status durability rev) ∧
    phase (shared w') = Settled status ∧ (status = Cancelled → cancelled w').
Proof.
  intros (st&du&rv&w'&[? ? ? ? ? ? ? ?]&_&Hrun)%drive_reported. by exists st, du, rv, (set_shared w' (take_exit (shared w')).1).
Qed.

(** Every failure an operation settles with has its classification from
    the frozen code table, or is an error the model port gave out, passed
    through unchanged. *)
Theorem engine_failures_catalogued message w :
  admitted message w →
  let w' := (drive env ctx sid message w).2 in
  phase (shared w') = Settled Failed →
  ∃ f, failure (shared w') = Some f ∧
    (code_row f ∈ AGENT_OWNED_CODES ∨
     ∃ e, offered env e ∧ code_row f = code_row (from_model_error e)).
Proof.
  intros (st&du&rv&w'&Hr&_&->)%drive_reported w1 Hf. subst w1.
  change (phase (shared w') = Settled Failed) in Hf. rewrite (reported_phase _ _ _ _ _ _ _ Hr) in Hf.
  injection Hf as ->. by apply Hr.
Qed.

(** C3: the engine never asks the session for something it refuses: every view it
    reads and every transaction it commits is answered, or fails on the store's
    side - the store could not do its work, or others committed to the session
    since the engine's last answered call. There is no validation error, and no
    revision conflict of the engine's own making. Others are the renames of the
    service: they share the store and may commit before any call of the engine. *)
Theorem engine_commits_accepted message w :
  admitted message w →
  always call_accepted (journal (store (drive env ctx sid message w).2)).
Proof.
  intros (st&du&rv&w'&Hr&_&->)%drive_reported. simpl. apply Hr.
Qed.

(** C2: what an operation reports is what the session holds at its last call, also
    while others rename the session. A confirmed settlement at a revision: the
    session is at that revision, with the operation settled and its turn closed
    under the reported status. A confirmed cancellation without a revision: no trace
    of the operation. An unconfirmed failure: a call failed on the store's side - a
    fault, or a conflict with a rename - and the session has no settlement of the
    operation. Renames that come after leave turns and operations as they are and
    only raise the revision. *)
Theorem engine_reports_what_is_durable message w op' status durability rev :
  admitted message w →
  let w' := (drive env ctx sid message w).2 in
  (op', status, durability, rev) ∈ settlements (shared w') →
  op' = op ∧ durable sid op tid status durability rev w' ∧
  ∀ later, Forall (bystander sid) later →
    renamed (proj sid w') (store.serves (foldl foreign_commit (recorded (store w'), []) later).1 sid).
Proof.
  intros (st&du&rv&w'&Hr&Hd&->)%drive_reported w1 Hin. subst w1.
  assert (settlements (shared w') = [(op, st, du, rv)]) as Hset by apply Hr.
  change ((op', status, durability, rev) ∈ settlements (shared w')) in Hin.
  rewrite Hset in Hin. apply list_elem_of_singleton in Hin. simplify_eq.
  split; [done|]. split; [done|]. intros later Hlater.
  apply (foreign_steps sid later (recorded (store w'), [])); [apply Hr|done|apply always_nil].
Qed.

(** While the store does its work every settlement is confirmed, and a
    confirmed settlement leaves no open turn behind. *)
Theorem engine_confirmed_without_faults message w :
  admitted message w →
  let w' := (drive env ctx sid message w).2 in
  ¬ disturbed w' →
  (drive env ctx sid message w).1 ≠ Ok ExitFailedUnconfirmed ∧
  session.open_turn_ids (lc_of w') = [].
Proof.
  intros (st&du&rv&w'&Hr&Hd&->)%drive_reported w1 Hnf. simpl in *. subst w1.
  unfold durable in Hd. destruct du, rv; try done.
  - destruct Hd as [_ (out&Hc&_)]. split; [by destruct st|]. apply Hc.
  - destruct Hd as (->&_&?). by split.
  - by destruct Hd as (_&?&_).
Qed.

End operation.

(** The next operation of a session, from the world the last one left. *)
Definition next_world {St} (w : World (Recorder St)) (op : OperationId) (tid : TurnId)
    : World (Recorder St) :=
  {| store := {| recorded := recorded (store w); foreign := foreign (store w); journal := [] |};
     shared := shared_new op tid Queued;
     last_input_tokens := last_input_tokens w; jitter := jitter w; tick := tick w |}.

(** C4: however an operation ends, store faults and renames included, it leaves the
    session fit for the next one: any operation with new identifiers and a
    valid message is admitted on it, and so ends in one settlement again. *)
Theorem engine_session_serves_next {St} `{store.StoreLaws St} `{Build} `{DebugSessionError}
    env ctx sid op tid message (w : World (Recorder St)) op2 tid2 message2 :
  admitted env ctx sid op tid message w →
  let w' := (drive env ctx sid message w).2 in
  parts message2 ≠ [] → Forall sendable (parts message2) →
  script.unused op2 tid2 (session.lifecycle (proj sid w')) →
  admitted env ctx sid op2 tid2 message2 (next_world w' op2 tid2).
Proof.
  intros Ha w1 Hne Hparts Hun. subst w1.
  destruct (drive_reported _ _ _ _ _ _ _ Ha) as (st&du&rv&w'&Hr&Hd&Hrun). rewrite Hrun in *.
  destruct Ha. split; try done; [apply Hr| |apply Hr].
  change (proj sid (next_world _ op2 tid2)) with (proj sid w').
  assert (lc_wf (session.lifecycle (proj sid w'))) as Hwf.
  { destruct (store.served_law (recorded (store w')) sid (reported_usable _ _ _ _ _ _ _ Hr))
      as [Ls Hlog]. eapply wf_lifecycle, reachable_wf, session_log_reachable, Hlog. }
  unfold durable in Hd. destruct du, rv; try done.
  - destruct Hd as [_ (out&Hc&_)]. apply script.no_open_sealable; [done|]. apply Hc.
  - destruct Hd as (_&_&?). by apply script.no_open_sealable.
  - by destruct Hd as (_&_&?&_).
Qed.

(** ** A concrete operation: one tool round, then the answer *)
#[local] Existing Instances store.memory_store store.memory_store_laws.

Module demo.
#[local] Instance demo_build : Build := release.
#[local] Instance demo_debug : DebugSessionError :=
  {| debug_session_error := λ _, "session error" |}.

Definition call (id : string) : ModelToolCall :=
  {| tool_call_id := id; call_name := "read"; call_arguments := "{}" |}.
Definition streams (n : nat) (request : ModelCallSnapshot) : ModelError + ModelStream :=
  if (model_call_index request =? 1)%Z then
    inr [inr (TextDelta "reading"); inr (Completed [ModelText "reading";
           ModelToolCallBlock (call "a"); ModelToolCallBlock (call "b")])]
  else inr [inr (TextDelta "done"); inr (Completed [ModelText "done"])].

(** The second call in flight always finishes first. *)
Definition env (cancel : nat → option session.CancelReason) : Env := {|
  env_now := λ n, Z.of_nat n;
  env_cancel := cancel;
  env_maintenance_cancel := λ _, false;
  env_start := streams;
  env_tool := λ _ _, Returns (inr (tools.Done (tools.rich_success "ok")));
  env_next := λ _ _, {| ready_position := 1;
                        ready_result := inr (tools.Done (tools.rich_success "ok"));
                        deadline_first := false |};
  env_jitter_seed := λ _, 1%Z;
  env_definitions := []
|}.

Definition generation : RuntimeGeneration := {|
  generation_id := "g";
  runtime_config := {|
    system_prompt := "be brief"; model_target := "m";
    generation := {| max_output_tokens := 1024; temperature := f32_of_u64 0;
                     reasoning_effort := None; tool_choice := ChoiceAuto |};
    max_tool_rounds := 3; max_parallel_tool_calls := 2; operation_timeout := None;
    tool_cancel_grace := 1000;
    compaction := {| context_budget := None; auto_threshold := f32_of_u64 1;
                     keep_recent_turns := 2; estimate_bytes_per_token := 4 |};
    recovery := {| enabled := true; max_retries := 2; backoff_base_ms := 100;
                   backoff_max_ms := 1000 |} |};
  gen_display := {| provider := None; model_name := "m"; model_id := "m"; image_input := false |}
|}.

Definition ctx : EngineContext :=
  {| ctx_generation := generation; has_maintenance_cancel := false |}.

Definition message : UserMessage := {| parts := [UserText "read both files"] |}.

Definition start (op tid : string) (s : store.MemorySessionStore)
    : World (Recorder store.MemorySessionStore) :=
  {| store := {| recorded := s; foreign := []; journal := [] |}; shared := shared_new op tid Queued;
     last_input_tokens := ∅; jitter := 0; tick := 0 |}.

Definition w0 : World (Recorder store.MemorySessionStore) := start "op-1" "turn-1" store.new.

(** The session is renamed while the operation runs, before its third call. *)
Definition rename (revision : session.SessionRevision) : session.SessionTransaction :=
  session.linear "s" revision [session.TitleSet "renamed"].
Definition shared_world : World (Recorder store.MemorySessionStore) :=
  set_store w0 {| recorded := store.new; foreign := [[]; []; [rename 1]]; journal := [] |}.

(** Cancelled by the user at the [n]-th look, or not at all. *)
Definition cancel_at (n : nat) (m : nat) : option session.CancelReason :=
  if decide (n ≤ m) then Some session.ReasonUser else None.
Definition quiet_env : Env := env (λ _, None).
Definition cancel_env : Env := env (cancel_at 16).

Definition final (e : Env) := drive e ctx "s" message w0.

Lemma env_allowed cancel :
  (∀ n r, cancel n = Some r → r ≠ session.ReasonAbandoned) → env_ok (env cancel).
Proof. intros Hc. split; [exact Hc|]. done. Qed.

Lemma rename_bystander revision : bystander "s" (rename revision).
Proof. right. constructor; [by eexists|constructor]. Qed.

Lemma w0_admitted cancel :
  (∀ n r, cancel n = Some r → r ≠ session.ReasonAbandoned) →
  admitted (env cancel) ctx "s" "op-1" "turn-1" message w0.
Proof.
  intros Hc. split; try done.
  - split; [done|]. by repeat constructor.
  - apply store.new_fresh.
  - intros tid t [Ht _]. unfold proj in Ht. vm_compute in Ht. done.
Qed.

Lemma cancel_allowed n r k : cancel_at n k = Some r → r ≠ session.ReasonAbandoned.
Proof. unfold cancel_at. case_decide; [by intros [= <-]|done]. Qed.

Lemma quiet_admitted : admitted quiet_env ctx "s" "op-1" "turn-1" message w0.
Proof. by apply w0_admitted. Qed.
Lemma shared_admitted : admitted quiet_env ctx "s" "op-1" "turn-1" message shared_world.
Proof.
  destruct quiet_admitted. split; try done.
  change (foreign (store shared_world)) with [[]; []; [rename 1]]. rewrite !Forall_cons, !Forall_nil.
  repeat (split; [done|]). split; [|done]. split; [apply rename_bystander|done].
Qed.
Lemma cancel_admitted : admitted cancel_env ctx "s" "op-1" "turn-1" message w0.
Proof. apply w0_admitted. intros n r. apply cancel_allowed. Qed.
End demo.
Import demo.
#[local] Existing Instances demo.demo_build demo.demo_debug.

Lemma engine_settles_exactly_once_witness :
  ∃ status durability rev,
    settlements (shared (final quiet_env).2) = [("op-1", status, durability, rev)] ∧
    (final quiet_env).1 = Ok (exit_for status durability) ∧ status = Succeeded.
Proof.
  destruct (engine_settles_exactly_once quiet_env ctx "s" "op-1" "turn-1" message w0)
    as (st&du&rv&w'&Hrun&Hset&_); [exact quiet_admitted|].
  assert (settlements (shared (final quiet_env).2) = [("op-1", Succeeded, Confirmed, Committed 4)])
    as Hval by (vm_compute; reflexivity).
  unfold final in *. rewrite Hrun in *. exists st, du, rv.
  split; [exact Hset|]. split; [reflexivity|]. simpl in Hval. congruence.
Defined.

(** A model that answers with nothing. *)
Definition empty_env : Env :=
  {| env_now := λ n, Z.of_nat n; env_cancel := λ _, None; env_maintenance_cancel := λ _, false;
     env_start := λ _ _, inr []; env_tool := env_tool quiet_env; env_next := env_next quiet_env;
     env_jitter_seed := λ _, 1%Z; env_definitions := [] |}.

Lemma engine_failures_catalogued_witness :
  ∃ f, failure (shared (final empty_env).2) = Some f ∧
    (code_row f ∈ AGENT_OWNED_CODES ∨
     ∃ e, offered empty_env e ∧ code_row f = code_row (from_model_error e)).
Proof.
  unfold final. apply (engine_failures_catalogued empty_env ctx "s" "op-1" "turn-1" message w0).
  - by destruct quiet_admitted; split.
  - vm_compute. reflexivity.
Defined.

(** A rename in the middle of a turn: every later commit of the engine conflicts, and
    the operation ends as failed without a settlement in the session. *)
Example rename_fails_the_operation :
  let w' := (drive quiet_env ctx "s" message shared_world).2 in
  settlements (shared w') = [("op-1", Failed, Unconfirmed, Unchanged)] ∧
  (∀ c, c ∈ journal (store w') → ¬ call_faulted c) ∧
  session.open_turn_ids (session.lifecycle (proj "s" w')) = ["turn-1"].
Proof.
  cbv zeta. split; [vm_compute; reflexivity|]. split; [|vm_compute; reflexivity].
  apply Forall_forall. vm_compute. rewrite !Forall_cons, Forall_nil. split_and!; solve [exact I | intros H; by inversion H].
Qed.

Lemma engine_commits_accepted_witness :
  length (journal (store (drive quiet_env ctx "s" message shared_world).2)) = 5 ∧
  always call_accepted (journal (store (drive quiet_env ctx "s" message shared_world).2)) ∧
  always call_accepted (journal (store (final cancel_env).2)).
Proof.
  split; [vm_compute; reflexivity|]. split.
  - apply (engine_commits_accepted quiet_env ctx "s" "op-1" "turn-1" message shared_world shared_admitted).
  - unfold final. apply (engine_commits_accepted cancel_env ctx "s" "op-1" "turn-1" message w0 cancel_admitted).
Defined.

(** A cancelled operation, renamed afterwards; and one that a rename makes fail. *)
Lemma engine_reports_what_is_durable_witness :
  durable "s" "op-1" "turn-1" Cancelled Confirmed (Committed 3) (final cancel_env).2 ∧
  renamed (proj "s" (final cancel_env).2)
    (store.serves (foldl foreign_commit (recorded (store (final cancel_env).2), []) [rename 3]).1 "s") ∧
  durable "s" "op-1" "turn-1" Failed Unconfirmed Unchanged (drive quiet_env ctx "s" message shared_world).2.
Proof.
  destruct (engine_reports_what_is_durable cancel_env ctx "s" "op-1" "turn-1" message w0 "op-1"
    Cancelled Confirmed (Committed 3) cancel_admitted) as (_ & H1 & H2); [vm_compute; left|].
  destruct (engine_reports_what_is_durable quiet_env ctx "s" "op-1" "turn-1" message shared_world "op-1"
    Failed Unconfirmed Unchanged shared_admitted) as (_ & H3 & _); [vm_compute; left|].
  unfold final. split; [exact H1|]. split; [|exact H3].
  apply H2. constructor; [apply rename_bystander|constructor].
Defined.

Lemma answered_undisturbed {St} (w : World (Recorder St)) : Forall answered (journal (store w)) → ¬ disturbed w.
Proof.
  intros Hall (j1 & c & j2 & Hj & Hd). rewrite Hj in Hall. apply Forall_app in Hall as [_ Hall].
  apply Forall_cons in Hall as [Hc _]. destruct c as [? []|? []|]; try done; by destruct Hd.
Qed.

Lemma engine_confirmed_without_faults_witness :
  session.open_turn_ids (session.lifecycle (proj "s" (final cancel_env).2)) = [].
Proof.
  unfold final. apply (engine_confirmed_without_faults cancel_env ctx "s" "op-1" "turn-1" message w0).
  - exact cancel_admitted.
  - apply answered_undisturbed. vm_compute. by repeat constructor.
Defined.

Lemma engine_session_serves_next_witness :
  admitted quiet_env ctx "s" "op-2" "turn-2" message
    (next_world (final quiet_env).2 "op-2" "turn-2").
Proof.
  unfold final. apply (engine_session_serves_next quiet_env ctx "s" "op-1" "turn-1" message w0).
  - exact quiet_admitted.
  - done.
  - by repeat constructor.
  - split; vm_compute; reflexivity.
Defined.
End engine_proofs.
