(* ===== verification/Outlets.v ===== *)
(** What stands between the driver of an operation and the subscriber
    (src/crates/philo-agent-runtime/src): the reliable staging queue
    (staging.rs), the merging of transient events (runtime_event.rs), the
    driver's transient slots and the outbound coalescer (transient.rs), and the
    display tail of a running tool (engine/tool_progress.rs).

    A mutex is the state it guards, a wake-up is not modelled, and the order of
    a [HashMap] is a parameter. [String::truncate] panics inside a character,
    so merging returns an [outcome]. *)

From S2P Require Import Prelude RustStr Kernel Session Tools Runtime.
Import runtime.

(** ** staging.rs *)
Module staging.

Definition PRODUCER_STAGING_RESERVE : nat := 2.

Record ReliableStaging : Type := { cap : nat; queue : list RuntimeEvent }.

Definition new (cap : nat) : ReliableStaging := {| cap := cap; queue := [] |}.
Definition remaining (self : ReliableStaging) : nat := cap self - length (queue self).
Definition can_accept_producer (self : ReliableStaging) : bool :=
  bool_decide (PRODUCER_STAGING_RESERVE ≤ remaining self).

Definition push (self : ReliableStaging) (event : RuntimeEvent)
    : ReliableStaging * outcome RuntimeEvent unit :=
  if bool_decide (cap self ≤ length (queue self)) then (self, Err event)
  else ({| cap := cap self; queue := queue self ++ [event] |}, Ok tt).

Definition pop_front (self : ReliableStaging) : ReliableStaging * option RuntimeEvent :=
  match queue self with
  | [] => (self, None)
  | event :: queue => ({| cap := cap self; queue := queue |}, Some event)
  end.

(** The [debug_assert] holds in the profile that checks overflows. *)
Definition push_front `{Build} (self : ReliableStaging) (event : RuntimeEvent)
    : outcome Empty_set ReliableStaging :=
  if overflow_checks && bool_decide (cap self ≤ length (queue self)) then Panic
  else Ok {| cap := cap self; queue := event :: queue self |}.

Definition clear (self : ReliableStaging) : ReliableStaging := new (cap self).
Definition drain (self : ReliableStaging) : ReliableStaging * list RuntimeEvent :=
  (new (cap self), queue self).

End staging.

(** ** runtime_event.rs and the chunk bound of bounds.rs *)
Module merging.

Definition DELTA_MERGE_CHUNK_MAX : nat := 4096.

Definition is_mergeable (event : RuntimeEvent) : bool :=
  match event with
  | RtAgent (EvTextDelta _) | RtAgent (EvReasoningDelta _ _)
  | RtAgent (EvToolExecutionProgress _ _ _ _) | RtAgent (EvModelUsageUpdated _ _)
  | RtAvailabilityChanged _ _ | RtMaintenanceProgress _ _ => true
  | _ => false
  end.

(** [push_str] and the cut to [DELTA_MERGE_CHUNK_MAX] bytes. *)
Definition append_chunk (lhs rhs : string) : outcome Empty_set string :=
  let text := lhs +:+ rhs in
  if bool_decide (DELTA_MERGE_CHUNK_MAX < String.length text)
  then truncate DELTA_MERGE_CHUNK_MAX text else Ok text.

Definition merge_events (held next : RuntimeEvent) : outcome Empty_set (option RuntimeEvent) :=
  match held, next with
  | RtAgent (EvTextDelta lhs), RtAgent (EvTextDelta rhs) =>
      let? delta := append_chunk lhs rhs in Ok (Some (RtAgent (EvTextDelta delta)))
  | RtAgent (EvReasoningDelta lhs_id lhs), RtAgent (EvReasoningDelta rhs_id rhs) =>
      if lhs_id == rhs_id then
        let? text := append_chunk lhs rhs in
        Ok (Some (RtAgent (EvReasoningDelta lhs_id text)))
      else Ok None
  | RtAgent (EvToolExecutionProgress _ lhs _ _), RtAgent (EvToolExecutionProgress _ id _ _) =>
      Ok (if id == lhs then Some next else None)
  | RtAgent (EvModelUsageUpdated lhs _), RtAgent (EvModelUsageUpdated id _) =>
      Ok (if id == lhs then Some next else None)
  | RtAvailabilityChanged _ _, RtAvailabilityChanged _ _ => Ok (Some next)
  | RtMaintenanceProgress lhs _, RtMaintenanceProgress id _ =>
      Ok (if id == lhs then Some next else None)
  | _, _ => Ok None
  end.

End merging.

(** ** transient.rs: the outbound coalescer *)
Module coalescer.
Import merging.

Inductive TransientKey : Type :=
| KeyText (operation_id : OperationId) (model_call_id : option ModelCallId)
| KeyReasoning (operation_id : OperationId) (model_call_id : ModelCallId)
| KeyUsage (operation_id : OperationId) (model_call_id : ModelCallId)
| KeyToolProgress (operation_id : OperationId)
| KeyAvailability
| KeyMaintenance (id : MaintenanceId).

#[export] Instance TransientKey_eq_dec : EqDecision TransientKey.
Proof. solve_decision. Defined.
#[export] Instance TransientKey_countable : Countable TransientKey.
Proof.
  refine (inj_countable'
    (λ k, match k with
          | KeyText o m => inl (inl (o, m))
          | KeyReasoning o m => inl (inr (o, m, true))
          | KeyUsage o m => inl (inr (o, m, false))
          | KeyToolProgress o => inr (Some (o, true))
          | KeyAvailability => inr None
          | KeyMaintenance i => inr (Some (i, false))
          end)
    (λ c, match c with
          | inl (inl (o, m)) => KeyText o m
          | inl (inr (o, m, true)) => KeyReasoning o m
          | inl (inr (o, m, false)) => KeyUsage o m
          | inr (Some (o, true)) => KeyToolProgress o
          | inr None => KeyAvailability
          | inr (Some (i, false)) => KeyMaintenance i
          end) _).
  by intros [].
Defined.

Definition transient_key (event : RuntimeEvent) (operation_id : option OperationId)
    (model_call_id : option ModelCallId) : option TransientKey :=
  match event with
  | RtAgent (EvTextDelta _) => o ← operation_id; Some (KeyText o model_call_id)
  | RtAgent (EvReasoningDelta id _) => o ← operation_id; Some (KeyReasoning o id)
  | RtAgent (EvModelUsageUpdated id _) => o ← operation_id; Some (KeyUsage o id)
  | RtAgent (EvToolExecutionProgress _ _ _ _) => o ← operation_id; Some (KeyToolProgress o)
  | RtAvailabilityChanged _ _ => Some KeyAvailability
  | RtMaintenanceProgress id _ => Some (KeyMaintenance id)
  | _ => None
  end.

Record TransientCoalescer : Type := {
  cap : nat;
  slots : gmap TransientKey RuntimeEvent;
  order : list TransientKey
}.

Definition new (cap : nat) : TransientCoalescer := {| cap := cap; slots := ∅; order := [] |}.
Definition len (self : TransientCoalescer) : nat := size (slots self).

(** [publish]; the [debug_assert] is the [Panic] of the checking profile. *)
Definition publish `{Build} (self : TransientCoalescer) (event : RuntimeEvent)
    (operation_id : option OperationId) (model_call_id : option ModelCallId)
    : outcome Empty_set TransientCoalescer :=
  if overflow_checks && negb (is_mergeable event) then Panic
  else
    match transient_key event operation_id model_call_id with
    | None => Ok self
    | Some key =>
        match slots self !! key with
        | Some held =>
            let? merged := merge_events held event in
            Ok {| cap := cap self; slots := <[key := default event merged]> (slots self);
                  order := order self |}
        | None =>
            let '(slots, order) :=
              if bool_decide (cap self ≤ size (slots self)) then
                match order self with
                | oldest :: order => (delete oldest (slots self), order)
                | [] => (slots self, [])
                end
              else (slots self, order self) in
            Ok {| cap := cap self; slots := <[key := event]> slots; order := order ++ [key] |}
        end
    end.

Definition take_one (self : TransientCoalescer) : TransientCoalescer * option RuntimeEvent :=
  match order self with
  | [] => (self, None)
  | key :: order =>
      ({| cap := cap self; slots := delete key (slots self); order := order |}, slots self !! key)
  end.

Definition clear (self : TransientCoalescer) : TransientCoalescer := new (cap self).

End coalescer.

(** ** transient.rs: the driver's slots *)
Module driver.
Import merging.

Definition TOOL_PROGRESS_SLOTS_MAX : nat := 32.
Definition SEALED_PENDING_GEN_MAX : nat := 8.

(** The order in which a [HashMap] lists its entries. *)
Class HashOrder : Type := {
  hash_order : gmap ToolCallId AgentEvent → list (ToolCallId * AgentEvent);
  hash_order_perm m : hash_order m ≡ₚ map_to_list m
}.

Record ModelStreamSlots : Type := {
  text : option string;
  reasoning : option (ModelCallId * string);
  usage : option (ModelCallId * TokenUsage)
}.

Definition no_slots : ModelStreamSlots := {| text := None; reasoning := None; usage := None |}.

Definition slots_is_empty (self : ModelStreamSlots) : bool :=
  match text self, reasoning self, usage self with None, None, None => true | _, _, _ => false end.

Definition slots_len (self : ModelStreamSlots) : nat :=
  (if session.is_some (text self) then 1 else 0)
  + (if session.is_some (reasoning self) then 1 else 0)
  + (if session.is_some (usage self) then 1 else 0).

(** [open] are the three slots the driver writes to. *)
Record DriverSlots : Type := {
  open : ModelStreamSlots;
  tool_progress : gmap ToolCallId AgentEvent;
  slot_phase : option OperationPhase;
  sealed : ModelStreamSlots;
  sealed_pending : list ModelStreamSlots
}.

Definition new : DriverSlots :=
  {| open := no_slots; tool_progress := ∅; slot_phase := None; sealed := no_slots;
     sealed_pending := [] |}.

Definition with_open (self : DriverSlots) (open : ModelStreamSlots) : DriverSlots :=
  {| open := open; tool_progress := tool_progress self; slot_phase := slot_phase self;
     sealed := sealed self; sealed_pending := sealed_pending self |}.

Definition merge_text (slot : option string) (delta : string)
    : outcome Empty_set (option string) :=
  let? text := append_chunk (default "" slot) delta in Ok (Some text).

Definition merge_reasoning (slot : option (ModelCallId * string)) (model_call_id : ModelCallId)
    (text : string) : outcome Empty_set (option (ModelCallId * string)) :=
  match slot with
  | Some (id, held) =>
      if id == model_call_id then
        let? held := append_chunk held text in Ok (Some (id, held))
      else Ok (Some (model_call_id, text))
  | None => Ok (Some (model_call_id, text))
  end.

Section hashed.
Context `{HashOrder}.

(** [publish_agent]; a reliable event is a programming error the checking
    profile panics on. *)
Definition publish_agent `{Build} (self : DriverSlots) (event : AgentEvent)
    : outcome Empty_set DriverSlots :=
  let o := open self in
  match event with
  | EvTextDelta delta =>
      let? t := merge_text (text o) delta in
      Ok (with_open self {| text := t; reasoning := reasoning o; usage := usage o |})
  | EvReasoningDelta model_call_id t =>
      let? r := merge_reasoning (reasoning o) model_call_id t in
      Ok (with_open self {| text := text o; reasoning := r; usage := usage o |})
  | EvModelUsageUpdated model_call_id u =>
      Ok (with_open self {| text := text o; reasoning := reasoning o;
                            usage := Some (model_call_id, u) |})
  | EvToolExecutionProgress _ tool_call_id _ _ =>
      let held := tool_progress self in
      let held :=
        if bool_decide (TOOL_PROGRESS_SLOTS_MAX ≤ size held)
           && negb (session.is_some (held !! tool_call_id)) then
          match hash_order held with
          | (oldest, _) :: _ => delete oldest held
          | [] => held
          end
        else held in
      Ok {| open := o; tool_progress := <[tool_call_id := event]> held;
            slot_phase := slot_phase self; sealed := sealed self;
            sealed_pending := sealed_pending self |}
  | _ => if overflow_checks then Panic else Ok self
  end.

Definition publish_phase (self : DriverSlots) (phase : OperationPhase) : DriverSlots :=
  {| open := open self; tool_progress := tool_progress self; slot_phase := Some phase;
     sealed := sealed self; sealed_pending := sealed_pending self |}.

Definition stream_call_id (slots : ModelStreamSlots) : option ModelCallId :=
  match reasoning slots with
  | Some (id, _) => Some id
  | None => match usage slots with Some (id, _) => Some id | None => None end
  end.

Definition can_merge_stream_slots (held incoming : ModelStreamSlots) : bool :=
  match stream_call_id held, stream_call_id incoming with
  | Some lhs, Some rhs => lhs == rhs
  | _, _ => true
  end.

Definition merge_stream_slots (target incoming : ModelStreamSlots)
    : outcome Empty_set ModelStreamSlots :=
  let? t :=
    match text incoming with Some delta => merge_text (text target) delta | None => Ok (text target) end in
  let? r :=
    match reasoning incoming with
    | Some (id, held) => merge_reasoning (reasoning target) id held
    | None => Ok (reasoning target)
    end in
  Ok {| text := t; reasoning := r;
        usage := match usage incoming with Some u => Some u | None => usage target end |}.

Definition seal_model_stream (self : DriverSlots) : outcome Empty_set DriverSlots :=
  let open_ := open self in
  let self := with_open self no_slots in
  if slots_is_empty open_ then Ok self
  else if slots_is_empty (sealed self) || can_merge_stream_slots (sealed self) open_ then
    let? merged := merge_stream_slots (sealed self) open_ in
    Ok {| open := no_slots; tool_progress := tool_progress self; slot_phase := slot_phase self;
          sealed := merged; sealed_pending := sealed_pending self |}
  else
    let parked :=
      if bool_decide (SEALED_PENDING_GEN_MAX ≤ length (sealed_pending self))
      then tail (sealed_pending self) else sealed_pending self in
    Ok {| open := no_slots; tool_progress := tool_progress self; slot_phase := slot_phase self;
          sealed := open_; sealed_pending := parked ++ [sealed self] |}.

Definition model_stream_events (held : ModelStreamSlots) : list AgentEvent :=
  match reasoning held with Some (id, t) => [EvReasoningDelta id t] | None => [] end ++
  match text held with Some delta => [EvTextDelta delta] | None => [] end ++
  match usage held with Some (id, u) => [EvModelUsageUpdated id u] | None => [] end.

(** [drain_model_stream]: oldest generation first, the open slots last. *)
Definition drain_model_stream (self : DriverSlots) : DriverSlots * list AgentEvent :=
  ({| open := no_slots; tool_progress := tool_progress self; slot_phase := slot_phase self;
      sealed := no_slots; sealed_pending := [] |},
   concat (model_stream_events <$> sealed_pending self)
     ++ model_stream_events (sealed self) ++ model_stream_events (open self)).

Definition drain_tool_progress (self : DriverSlots) : DriverSlots * list AgentEvent :=
  ({| open := open self; tool_progress := ∅; slot_phase := slot_phase self;
      sealed := sealed self; sealed_pending := sealed_pending self |},
   (hash_order (tool_progress self)).*2).

Definition drain (self : DriverSlots) : DriverSlots * option OperationPhase * list AgentEvent :=
  let '(s, events) := drain_model_stream self in
  let '(s, progress) := drain_tool_progress s in
  ({| open := open s; tool_progress := tool_progress s; slot_phase := None; sealed := sealed s;
      sealed_pending := sealed_pending s |}, slot_phase self, events ++ progress).

Definition has_data (self : DriverSlots) : bool :=
  negb (slots_is_empty (open self)) || negb (bool_decide (tool_progress self = ∅))
  || session.is_some (slot_phase self) || negb (slots_is_empty (sealed self))
  || negb (is_nil (sealed_pending self)).

Definition sealed_len (self : DriverSlots) : nat :=
  slots_len (sealed self) + sum_list (slots_len <$> sealed_pending self).
End hashed.

End driver.

(** ** engine/tool_progress.rs *)
Module progress.

Definition PROGRESS_FLUSH_MS : Z := 50.
Definition PROGRESS_FLUSH_BYTES : nat := Nat.pow 2 13.
Definition PROGRESS_MAX_BYTES : nat := Nat.pow 2 16.
Definition PROGRESS_MAX_LINES : nat := 80.

Record Window : Type := {
  window_text : string;
  pending_bytes : nat;
  last_flush : option Z;
  dirty : bool
}.

Definition new : Window :=
  {| window_text := ""; pending_bytes := 0; last_flush := None; dirty := false |}.

Definition NEWLINE : Ascii.ascii := Ascii.ascii_of_nat 10.

Fixpoint bytecount_newlines (t : string) : nat :=
  match t with
  | EmptyString => 0
  | String b t => (if b == NEWLINE then 1 else 0) + bytecount_newlines t
  end.

Fixpoint ends_with_newline (t : string) : bool :=
  match t with
  | EmptyString => false
  | String b EmptyString => b == NEWLINE
  | String _ t => ends_with_newline t
  end.

(** [&text[n..]] of the bytes. *)
Fixpoint str_drop (n : nat) (t : string) : string :=
  match n, t with S n, String _ t => str_drop n t | _, _ => t end.

(** The loop of [drain_prefix] over the bytes still to go. *)
Fixpoint next_boundary (fuel : nat) (t : string) (bytes : nat) : nat :=
  match fuel with
  | 0 => bytes
  | S fuel =>
      if bool_decide (bytes < String.length t) && negb (is_char_boundary t bytes)
      then next_boundary fuel t (bytes + 1) else bytes
  end.

(** [drain_prefix]; [String::drain] panics off a boundary. *)
Definition drain_prefix (t : string) (bytes : nat) : outcome Empty_set string :=
  let bytes := Nat.min bytes (String.length t) in
  let bytes := next_boundary (String.length t - bytes) t bytes in
  if is_char_boundary t bytes then Ok (str_drop bytes t) else Panic.

(** The position after the [skip]th newline. *)
Fixpoint after_newline (skip seen index : nat) (t : string) : option nat :=
  match t with
  | EmptyString => None
  | String b t =>
      if b == NEWLINE then
        if seen + 1 == skip then Some (index + 1) else after_newline skip (seen + 1) (index + 1) t
      else after_newline skip seen (index + 1) t
  end.

Definition trim_window (t : string) : outcome Empty_set string :=
  let newline_count := bytecount_newlines t in
  let line_count :=
    if str_is_empty t then 0
    else if ends_with_newline t then newline_count else newline_count + 1 in
  let? t :=
    if bool_decide (PROGRESS_MAX_LINES < line_count) then
      match after_newline (line_count - PROGRESS_MAX_LINES) 0 0 t with
      | Some pos => drain_prefix t pos
      | None => Ok t
      end
    else Ok t in
  if bool_decide (PROGRESS_MAX_BYTES < String.length t)
  then drain_prefix t (String.length t - PROGRESS_MAX_BYTES) else Ok t.

Definition window_push (self : Window) (t : string) : outcome Empty_set Window :=
  let joined := window_text self +:+ t in
  let? trimmed :=
    if bool_decide (PROGRESS_MAX_BYTES < String.length joined)
       || bool_decide (PROGRESS_MAX_LINES ≤ bytecount_newlines joined)
    then trim_window joined else Ok joined in
  Ok {| window_text := trimmed; pending_bytes := pending_bytes self + String.length t;
        last_flush := last_flush self; dirty := true |}.

Definition should_flush (self : Window) (now : Z) : bool :=
  dirty self &&
  match last_flush self with
  | None => true
  | Some at_ => bool_decide (PROGRESS_FLUSH_BYTES ≤ pending_bytes self)
                || bool_decide (PROGRESS_FLUSH_MS ≤ now - at_)%Z
  end.

Definition take_tail (self : Window) (now : Z) : Window * option string :=
  if negb (dirty self) then (self, None)
  else ({| window_text := window_text self; pending_bytes := 0; last_flush := Some now;
           dirty := false |}, Some (window_text self)).

(** The sink of a running call, and the end of the call: the tails published. *)
Definition sink (self : Window) (t : string) (now : Z)
    : outcome Empty_set (Window * option string) :=
  let? w := window_push self t in
  Ok (if should_flush w now then take_tail w now else (w, None)).

Definition finish (self : Window) (now : Z) : Window * option string := take_tail self now.

End progress.
