(* ===== verification/OutletsProofs.v ===== *)
(** What the outlets keep: the staging queue is a bounded FIFO, the coalescer
    holds one event per key in arrival order, the driver's slots lose no text,
    and a tool's display tail is a bounded end of its output. *)

From S2P Require Import Prelude RustStr Kernel Session Tools Runtime Outlets.
Import runtime.

(** ** The staging queue *)
Module staging_proofs.
Import staging.

Inductive staging_op : Type := OpPush (event : RuntimeEvent) | OpPop | OpRequeue.

(** The state, the events accepted so far and those handed on; [OpRequeue] is
    a pop whose event the outlet did not take. *)
Definition staging_step `{Build} (s : ReliableStaging * list RuntimeEvent * list RuntimeEvent)
    (op : staging_op) : outcome Empty_set (ReliableStaging * list RuntimeEvent * list RuntimeEvent) :=
  let '(q, accepted, out) := s in
  match op with
  | OpPush event =>
      let '(q', r) := push q event in
      Ok (q', match r with Ok _ => accepted ++ [event] | _ => accepted end, out)
  | OpPop =>
      let '(q', r) := pop_front q in
      Ok (q', accepted, match r with Some event => out ++ [event] | None => out end)
  | OpRequeue =>
      match pop_front q with
      | (q', Some event) => let? q := push_front q' event in Ok (q, accepted, out)
      | (q', None) => Ok (q', accepted, out)
      end
  end.

(** The reliable staging queue is a bounded FIFO: under any sequence of
    pushes, pops and re-queued pops it never panics or holds more than its
    capacity, and the events handed on followed by those still queued are
    exactly the accepted ones in order; a push is refused only when the queue
    is full, and when it can accept a producer the producer's two worst-case
    events both fit. *)
Theorem staging_bounded_fifo `{Build} cap ops :
  ∃ q accepted out,
    try_fold staging_step (new cap, [], []) ops = Ok (q, accepted, out) ∧
    accepted = out ++ queue q ∧ length (queue q) ≤ cap ∧
    (∀ event, (push q event).2 ≠ Ok tt → length (queue q) = cap) ∧
    (can_accept_producer q = true → ∀ e1 e2,
       (push q e1).2 = Ok tt ∧ (push (push q e1).1 e2).2 = Ok tt).
Proof.
  assert (∀ q accepted out, Outlets.staging.cap q = cap → accepted = out ++ queue q →
    length (queue q) ≤ cap →
    ∃ q' accepted' out', try_fold staging_step (q, accepted, out) ops = Ok (q', accepted', out') ∧
      Outlets.staging.cap q' = cap ∧ accepted' = out' ++ queue q' ∧ length (queue q') ≤ cap) as Hrun.
  { induction ops as [|op ops IH]; intros q accepted out Hcap Hacc Hlen; [by eexists _, _, _|].
    cbn [try_fold]. destruct op as [event| |]; cbn [staging_step].
    - unfold push. case_bool_decide as Hfull; cbn [mbind outcome_bind]; [by apply IH|].
      apply IH; simpl; [done|by rewrite Hacc, app_assoc|rewrite length_app; simpl; lia].
    - unfold pop_front. destruct (queue q) as [|event l] eqn:Hq; cbn [mbind outcome_bind];
        [apply IH; by rewrite ?Hq|].
      apply IH; simpl in *; [done|by rewrite <- app_assoc|lia].
    - unfold pop_front, push_front. destruct (queue q) as [|event l] eqn:Hq; simpl in *;
        [apply IH; by rewrite ?Hq|].
      rewrite (bool_decide_eq_false_2 (Outlets.staging.cap q ≤ length l)) by lia.
      rewrite andb_false_r. cbn [mbind outcome_bind]. apply IH; simpl; [done|done|lia]. }
  destruct (Hrun (new cap) [] []) as (q&accepted&out&Hf&Hcap&Hacc&Hlen); simpl; try done; [lia|].
  exists q, accepted, out. split_and!; try done.
  - intros event. unfold push. case_bool_decide; [lia|done].
  - unfold can_accept_producer, remaining, PRODUCER_STAGING_RESERVE, push.
    intros Hr%bool_decide_eq_true e1 e2.
    rewrite (bool_decide_eq_false_2 (Outlets.staging.cap q ≤ length (queue q))) by lia. simpl.
    rewrite bool_decide_eq_false_2; [done|]. rewrite length_app. simpl. lia.
Qed.
End staging_proofs.

(** ** Merging *)
Module merging_proofs.
Import merging.

(** Merging two pieces of streamed text: the concatenation when it fits
    the chunk bound; otherwise its first 4096 bytes if they end with a
    character, and a panic if they do not. *)
Theorem append_chunk_cases lhs rhs :
  let joined := lhs +:+ rhs in
  append_chunk lhs rhs =
    if bool_decide (String.length joined ≤ DELTA_MERGE_CHUNK_MAX) then Ok joined
    else if is_char_boundary joined DELTA_MERGE_CHUNK_MAX
    then Ok (String.substring 0 DELTA_MERGE_CHUNK_MAX joined) else Panic.
Proof.
  intros joined. unfold append_chunk, truncate. fold joined.
  destruct (decide (String.length joined ≤ DELTA_MERGE_CHUNK_MAX)).
  - rewrite bool_decide_eq_false_2 by lia. by rewrite bool_decide_eq_true_2.
  - rewrite bool_decide_eq_true_2 by lia. rewrite bool_decide_eq_true_2 by lia.
    by rewrite bool_decide_eq_false_2.
Qed.

Lemma append_chunk_fits lhs rhs :
  String.length lhs + String.length rhs ≤ DELTA_MERGE_CHUNK_MAX →
  append_chunk lhs rhs = Ok (lhs +:+ rhs).
Proof.
  intros Hl. unfold append_chunk. rewrite str_app_length.
  by rewrite bool_decide_eq_false_2 by lia.
Qed.

Fixpoint repeat_str (n : nat) (s : string) : string :=
  match n with 0 => "" | S n => s +:+ repeat_str n s end.

(** A stream of two-byte characters after one single byte: the bound falls
    inside a character. *)
Lemma merging_panics :
  merge_events (RtAgent (EvTextDelta (repeat_str 4095 "a"))) (RtAgent (EvTextDelta "é")) = Panic.
Proof. vm_compute. reflexivity. Qed.
End merging_proofs.

(** ** The coalescer *)
Module coalescer_proofs.
Import coalescer.

Record wf (c : TransientCoalescer) : Prop := {
  wf_order : NoDup (order c);
  wf_slots : ∀ k, is_Some (slots c !! k) ↔ k ∈ order c;
  wf_keys : ∀ k e, slots c !! k = Some e → ∃ o m, transient_key e o m = Some k;
  wf_len : length (order c) ≤ cap c
}.

Lemma len_order c : wf c → len c = length (order c).
Proof.
  intros [Hnd Hs _ _]. unfold len. rewrite <- size_dom.
  assert (dom (slots c) = list_to_set (order c)) as ->
    by (apply set_eq; intros k; rewrite elem_of_dom, elem_of_list_to_set; apply Hs).
  by apply size_list_to_set.
Qed.

Lemma new_wf n : wf (new n).
Proof.
  split; simpl; [constructor|..|lia].
  - intros k. rewrite lookup_empty, elem_of_nil. split; [by intros [? ?]|done].
  - intros k e. by rewrite lookup_empty.
Qed.

Lemma merge_key held event e k o m o' m' :
  transient_key event o m = Some k → transient_key held o' m' = Some k →
  merging.merge_events held event = Ok (Some e) →
  ∃ o'' m'', transient_key e o'' m'' = Some k.
Proof.
  unfold merging.merge_events. intros Hk Hh Hm.
  destruct held as [| |[]| | | | | | | |]; try done; destruct event as [| |[]| | | | | | | |];
    try done; rust_inv Hm; simplify_eq/=; eauto.
Qed.

(** The slots after a publication under key [k]. *)
Inductive published (c : TransientCoalescer) (k : TransientKey) (event : RuntimeEvent)
    : TransientCoalescer → Prop :=
| published_merged held merged :
    slots c !! k = Some held → merging.merge_events held event = Ok merged →
    published c k event
      {| cap := cap c; slots := <[k := default event merged]> (slots c); order := order c |}
| published_new :
    k ∉ order c → length (order c) < cap c →
    published c k event
      {| cap := cap c; slots := <[k := event]> (slots c); order := order c ++ [k] |}
| published_evicting oldest l :
    k ∉ order c → order c = oldest :: l → length (order c) = cap c →
    published c k event
      {| cap := cap c; slots := <[k := event]> (delete oldest (slots c)); order := l ++ [k] |}.

Lemma publish_cases `{Build} c event o m k c' :
  wf c → 1 ≤ cap c → transient_key event o m = Some k → publish c event o m = Ok c' →
  published c k event c'.
Proof.
  intros Hwf Hcap Hk. unfold publish. destruct (_ && _); [done|]. rewrite Hk.
  destruct (slots c !! k) as [held|] eqn:Hh.
  - intros (merged&Hm&H')%bind_Ok. injection H' as <-. by econstructor.
  - assert (k ∉ order c) as Hni by (rewrite <- (wf_slots _ Hwf), Hh; by intros [? ?]).
    fold (len c). rewrite (len_order _ Hwf). pose proof (wf_len _ Hwf).
    case_bool_decide as Hfull; [|intros [= <-]; constructor; [done|lia]].
    destruct (order c) as [|oldest l] eqn:Ho; simpl in *; [lia|]. intros [= <-].
    apply published_evicting; [by rewrite Ho|done|rewrite Ho; simpl; lia].
Qed.

Lemma published_wf c k event c' o m :
  wf c → transient_key event o m = Some k → published c k event c' → wf c'.
Proof.
  intros [Hnd Hs Hkey Hl] Hk [held merged Hh Hm|Hni Hlt|oldest l Hni Ho Heq]; split; simpl.
  - done.
  - intros k'. rewrite lookup_insert_is_Some, <- Hs. destruct (decide (k = k')) as [<-|]; [|tauto].
    rewrite Hh. split; [by eauto|by auto].
  - intros k' e [[<- <-]|[_ He]]%lookup_insert_Some; [|eauto].
    destruct merged as [e|]; simpl; [|eauto].
    destruct (Hkey _ _ Hh) as (o'&m'&Hh'). exact (merge_key held event e k o m o' m' Hk Hh' Hm).
  - done.
  - apply NoDup_app. split; [done|]. split; [set_solver|repeat constructor; set_solver].
  - intros k'. rewrite lookup_insert_is_Some, Hs, elem_of_app, list_elem_of_singleton.
    destruct (decide (k = k')); naive_solver.
  - intros k' e [[<- <-]|[_ He]]%lookup_insert_Some; eauto.
  - rewrite length_app. simpl. lia.
  - rewrite Ho in *. apply NoDup_cons in Hnd as [Hold Hnd]. apply NoDup_app.
    split; [done|]. split; [set_solver|repeat constructor; set_solver].
  - rewrite Ho in *. apply NoDup_cons in Hnd as [Hold Hnd].
    intros k'. rewrite lookup_insert_is_Some, lookup_delete_is_Some, Hs, elem_of_app,
      list_elem_of_singleton, elem_of_cons.
    destruct (decide (k = k')), (decide (oldest = k')); naive_solver.
  - intros k' e [[<- <-]|[_ [_ He]%lookup_delete_Some]]%lookup_insert_Some; eauto.
  - rewrite Ho in Heq. rewrite length_app. simpl in *. lia.
Qed.

(** Coalescers of capacity [n] after any calls. *)
Inductive reachable `{Build} (n : nat) : TransientCoalescer → Prop :=
| reach_new : reachable n (new n)
| reach_publish c event o m c' :
    reachable n c → publish c event o m = Ok c' → reachable n c'
| reach_take c : reachable n c → reachable n (take_one c).1
| reach_clear c : reachable n c → reachable n (clear c).

Lemma publish_keyless `{Build} c event o m c' :
  transient_key event o m = None → publish c event o m = Ok c' → c' = c.
Proof. unfold publish. intros ->. destruct (_ && _); [done|]. by intros [= <-]. Qed.

Lemma take_one_wf c : wf c → wf (take_one c).1.
Proof.
  intros [Hnd Hs Hkey Hl]. unfold take_one. destruct (order c) as [|k l] eqn:Ho; simpl.
  { split; rewrite ?Ho; done. }
  apply NoDup_cons in Hnd as [Hk Hnd]. split; simpl in *; [done|..|lia].
  - intros k'. rewrite lookup_delete_is_Some, Hs, elem_of_cons.
    destruct (decide (k = k')); naive_solver.
  - intros k' e [_ He]%lookup_delete_Some. eauto.
Qed.

Lemma coalescer_reachable_wf `{Build} n c : 1 ≤ n → reachable n c → wf c ∧ cap c = n.
Proof.
  intros Hn. induction 1 as [|c event o m c' _ [Hwf Hc] Hp|c _ [Hwf Hc]|c _ [Hwf Hc]].
  - split; [apply new_wf|done].
  - destruct (transient_key event o m) as [k|] eqn:Hk.
    + assert (published c k event c') as Hpub by (eapply publish_cases; [done|lia|done|done]).
      split; [by eapply published_wf|]. by destruct Hpub.
    + by apply publish_keyless in Hp as ->.
  - split; [by apply take_one_wf|]. unfold take_one. by destruct (order c).
  - split; [apply new_wf|done].
Qed.

(** The coalescer of outbound transients: whatever is published and taken,
    it holds at most [n] events, one per key and each of its key; a
    publication merges into the slot of its key in place, or joins the end of
    the order, evicting the oldest key alone when all [n] slots are taken; and
    what is taken is the oldest key's event, missing only when nothing is
    held. *)
Theorem coalescer_bounded_by_key `{Build} n c :
  1 ≤ n → reachable n c →
  len c = length (order c) ∧ len c ≤ n ∧ NoDup (order c) ∧
  (∀ k e, slots c !! k = Some e → k ∈ order c ∧ ∃ o m, transient_key e o m = Some k) ∧
  (∀ event o m c', publish c event o m = Ok c' →
     match transient_key event o m with Some k => published c k event c' | None => c' = c end) ∧
  (take_one c).2 = (k ← head (order c); slots c !! k) ∧
  ((take_one c).2 = None ↔ len c = 0).
Proof.
  intros Hn Hr. destruct (coalescer_reachable_wf n c Hn Hr) as [Hwf Hc].
  pose proof (len_order _ Hwf) as Hlen. pose proof Hwf as [Hnd Hs Hkey Hl].
  split_and!; [done|lia|done|..].
  - intros k e He. split; [apply Hs; eauto|eauto].
  - intros event o m c' Hp. destruct (transient_key event o m) as [k|] eqn:Hk;
      [eapply publish_cases; [done|lia|done|done]|by eapply publish_keyless].
  - unfold take_one. by destruct (order c).
  - rewrite Hlen. unfold take_one. destruct (order c) as [|k l] eqn:Ho; simpl; [done|].
    split; [|done]. intros Hnone. assert (is_Some (slots c !! k)) as [? H'] by (apply Hs; set_solver).
    congruence.
Qed.

Definition demo_coalescer : TransientCoalescer :=
  {| cap := 6; slots := {[KeyText "op" None := RtAgent (EvTextDelta "ab")]};
     order := [KeyText "op" None] |}.

Lemma coalescer_bounded_by_key_witness :
  (take_one demo_coalescer).2 = Some (RtAgent (EvTextDelta "ab")) ∧ len demo_coalescer ≤ 6.
Proof.
  split; [reflexivity|].
  refine (proj1 (proj2 (coalescer_bounded_by_key (H := release) 6 demo_coalescer _ _))); [lia|].
  eapply (reach_publish (H := release) 6
    {| cap := 6; slots := {[KeyText "op" None := RtAgent (EvTextDelta "a")]};
       order := [KeyText "op" None] |} (RtAgent (EvTextDelta "b")) (Some "op") None);
    [|vm_compute; reflexivity].
  eapply (reach_publish (H := release) 6 (new 6) (RtAgent (EvTextDelta "a")) (Some "op") None);
    [constructor|vm_compute; reflexivity].
Defined.
End coalescer_proofs.

(** ** The driver's slots *)
Module driver_proofs.
Import merging driver.

Section driver.
Context `{HashOrder} `{Build}.

Definition slot_text (g : ModelStreamSlots) : string := default "" (text g).

(** The text held, in the order it drains. *)
Definition held_text (s : DriverSlots) : string :=
  concat_str (slot_text <$> sealed_pending s) +:+ slot_text (sealed s) +:+ slot_text (open s).

Definition slot_weight (g : ModelStreamSlots) : nat :=
  String.length (slot_text g)
  + match reasoning g with Some (_, t) => String.length t | None => 0 end.

(** What the two generations that still merge hold. *)
Definition weight (s : DriverSlots) : nat := slot_weight (sealed s) + slot_weight (open s).

Definition delta_of (event : AgentEvent) : string :=
  match event with EvTextDelta delta => delta | _ => "" end.
Definition event_weight (event : AgentEvent) : nat :=
  match event with
  | EvTextDelta delta => String.length delta
  | EvReasoningDelta _ t => String.length t
  | _ => 0
  end.

Definition is_transient (event : AgentEvent) : bool :=
  match event with
  | EvTextDelta _ | EvReasoningDelta _ _ | EvModelUsageUpdated _ _
  | EvToolExecutionProgress _ _ _ _ => true
  | _ => false
  end.

Lemma merge_text_fits slot delta :
  String.length (default "" slot) + String.length delta ≤ DELTA_MERGE_CHUNK_MAX →
  merge_text slot delta = Ok (Some (default "" slot +:+ delta)).
Proof. intros Hl. unfold merge_text. by rewrite merging_proofs.append_chunk_fits. Qed.

Definition reasoning_weight (r : option (ModelCallId * string)) : nat :=
  match r with Some (_, t) => String.length t | None => 0 end.

Lemma merge_reasoning_fits slot id t :
  reasoning_weight slot + String.length t ≤ DELTA_MERGE_CHUNK_MAX →
  ∃ r, merge_reasoning slot id t = Ok r ∧
    reasoning_weight r ≤ reasoning_weight slot + String.length t.
Proof.
  intros Hl. unfold merge_reasoning. destruct slot as [[id' held]|]; simpl in *.
  - case_bool_decide.
    + rewrite merging_proofs.append_chunk_fits by done. simpl. eexists. split; [done|].
      simpl. rewrite str_app_length. lia.
    + eexists. split; [done|]. simpl. lia.
  - eexists. split; [done|]. simpl. lia.
Qed.

Lemma publish_conserves s event :
  is_transient event = true → weight s + event_weight event ≤ DELTA_MERGE_CHUNK_MAX →
  ∃ s', publish_agent s event = Ok s' ∧ held_text s' = held_text s +:+ delta_of event ∧
    weight s' ≤ weight s + event_weight event ∧ sealed_pending s' = sealed_pending s.
Proof.
  unfold weight, slot_weight, held_text. intros Ht Hw. destruct event; try done; simpl in *.
  - rewrite merge_text_fits by (unfold slot_text in *; lia). simpl.
    eexists. split; [done|]. simpl. rewrite !str_app_assoc. split_and!; [done| |done].
    unfold slot_text in *. simpl. rewrite str_app_length. lia.
  - destruct (merge_reasoning_fits (reasoning (open s)) model_call_id text0) as (r&->&Hr).
    { unfold reasoning_weight. lia. }
    simpl. eexists. split; [done|]. simpl. rewrite str_app_nil_r. split_and!; [done| |done].
    unfold reasoning_weight, slot_text in *. simpl. lia.
  - eexists. split; [done|]. simpl. rewrite str_app_nil_r. split_and!; [done| |done].
    unfold slot_text. simpl. lia.
  - eexists. split; [done|]. simpl. rewrite str_app_nil_r. split_and!; [done|lia|done].
Qed.

Lemma slots_empty_text g : slots_is_empty g = true → slot_text g = "" ∧ slot_weight g = 0.
Proof. unfold slots_is_empty, slot_text, slot_weight, slot_text. by repeat case_match; try done. Qed.

Lemma merge_slots_fits target incoming :
  slot_weight target + slot_weight incoming ≤ DELTA_MERGE_CHUNK_MAX →
  ∃ g, merge_stream_slots target incoming = Ok g ∧
    slot_text g = slot_text target +:+ slot_text incoming ∧
    slot_weight g ≤ slot_weight target + slot_weight incoming.
Proof.
  unfold merge_stream_slots, slot_weight. intros Hw.
  assert (∃ t, match text incoming with Some delta => merge_text (text target) delta
                                      | None => Ok (text target) end = Ok t ∧
    default "" t = slot_text target +:+ slot_text incoming) as (t&Ht&Hd).
  { unfold slot_text in *. destruct (text incoming) as [delta|]; simpl in *.
    - rewrite merge_text_fits by lia. by eexists.
    - exists (text target). by rewrite str_app_nil_r. }
  assert (∃ r, match reasoning incoming with Some (id, held) => merge_reasoning (reasoning target) id held
                                           | None => Ok (reasoning target) end = Ok r ∧
    reasoning_weight r ≤ reasoning_weight (reasoning target) + reasoning_weight (reasoning incoming))
    as (r&Hr&Hrw).
  { destruct (reasoning incoming) as [[id held]|]; simpl in *.
    - destruct (merge_reasoning_fits (reasoning target) id held) as (r&Hr&Hrw);
        [unfold reasoning_weight; lia|eauto].
    - exists (reasoning target). split; [done|lia]. }
  rewrite Ht. cbn [mbind outcome_bind]. rewrite Hr. cbn [mbind outcome_bind].
  eexists. split; [done|]. split; [exact Hd|]. unfold slot_text at 1. cbn [text reasoning].
  rewrite Hd, str_app_length. unfold reasoning_weight in *. lia.
Qed.

Lemma seal_conserves s :
  weight s ≤ DELTA_MERGE_CHUNK_MAX → length (sealed_pending s) < SEALED_PENDING_GEN_MAX →
  ∃ s', seal_model_stream s = Ok s' ∧ held_text s' = held_text s ∧ weight s' ≤ weight s ∧
    length (sealed_pending s') ≤ length (sealed_pending s) + 1.
Proof.
  unfold seal_model_stream, weight. intros Hw Hlt. unfold held_text.
  destruct (slots_is_empty (open s)) eqn:He; [|destruct (_ || _)]; simpl.
  - apply slots_empty_text in He as [Ht Hz]. eexists. split; [done|]. simpl. rewrite Ht.
    split_and!; [done|unfold slot_weight; simpl; lia|lia].
  - destruct (merge_slots_fits (sealed s) (open s) Hw) as (g&->&Hg&Hgw). simpl.
    eexists. split; [done|]. simpl. rewrite Hg. change (slot_text no_slots) with "". rewrite str_app_nil_r.
    split_and!; [done|unfold slot_weight in *; simpl in *; lia|lia].
  - rewrite bool_decide_eq_false_2 by lia. eexists. split; [done|]. simpl.
    rewrite fmap_app. change (slot_text <$> [sealed s]) with [slot_text (sealed s)].
    rewrite concat_str_snoc, length_app. change (slot_text no_slots) with "".
    rewrite str_app_nil_r, str_app_assoc.
    split_and!; [done|unfold slot_weight; simpl; lia|simpl; lia].
Qed.

(** ** Sequences of calls *)
Inductive driver_op : Type := OpEvent (event : AgentEvent) | OpSeal.

Definition driver_step (s : DriverSlots) (op : driver_op) : outcome Empty_set DriverSlots :=
  match op with OpEvent event => publish_agent s event | OpSeal => seal_model_stream s end.

Definition op_delta (op : driver_op) : string :=
  match op with OpEvent event => delta_of event | OpSeal => "" end.
Definition op_weight (op : driver_op) : nat :=
  match op with OpEvent event => event_weight event | OpSeal => 0 end.
Definition op_seals (op : driver_op) : nat := match op with OpSeal => 1 | OpEvent _ => 0 end.
Definition op_transient (op : driver_op) : bool :=
  match op with OpEvent event => is_transient event | OpSeal => true end.

(** The text of drained events. *)
Definition drained_text (events : list AgentEvent) : string := concat_str (delta_of <$> events).

Lemma slot_events_text g : drained_text (model_stream_events g) = slot_text g.
Proof.
  unfold model_stream_events, drained_text, slot_text.
  destruct (reasoning g) as [[]|], (text g), (usage g) as [[]|]; simpl; by rewrite ?str_app_nil_r.
Qed.

Lemma drained_text_app l1 l2 : drained_text (l1 ++ l2) = drained_text l1 +:+ drained_text l2.
Proof. unfold drained_text. by rewrite fmap_app, concat_str_app. Qed.

Lemma drained_generations gs :
  drained_text (concat (model_stream_events <$> gs)) = concat_str (slot_text <$> gs).
Proof.
  induction gs as [|g gs IH]; [done|]. rewrite !fmap_cons. cbn [concat concat_str].
  by rewrite drained_text_app, IH, slot_events_text.
Qed.

Lemma drained_held s : drained_text (drain_model_stream s).2 = held_text s.
Proof.
  unfold drain_model_stream, held_text. cbn [snd].
  by rewrite !drained_text_app, drained_generations, !slot_events_text.
Qed.

Lemma run_conserves ops s :
  forallb op_transient ops = true →
  weight s + sum_list (op_weight <$> ops) ≤ DELTA_MERGE_CHUNK_MAX →
  length (sealed_pending s) + sum_list (op_seals <$> ops) ≤ SEALED_PENDING_GEN_MAX →
  ∃ s', try_fold driver_step s ops = Ok s' ∧
    held_text s' = held_text s +:+ concat_str (op_delta <$> ops).
Proof.
  revert s. induction ops as [|op ops IH]; intros s Ht Hw Hs.
  { exists s. by rewrite str_app_nil_r. }
  apply andb_true_iff in Ht as [Hop Ht].
  assert (weight s + (op_weight op + sum_list (op_weight <$> ops)) ≤ DELTA_MERGE_CHUNK_MAX)
    as Hw' by exact Hw.
  assert (length (sealed_pending s) + (op_seals op + sum_list (op_seals <$> ops))
          ≤ SEALED_PENDING_GEN_MAX) as Hs' by exact Hs.
  clear Hw Hs.
  assert (∃ s', driver_step s op = Ok s' ∧ held_text s' = held_text s +:+ op_delta op ∧
    weight s' ≤ weight s + op_weight op ∧
    length (sealed_pending s') ≤ length (sealed_pending s) + op_seals op) as (s'&Hstep&Htext&?&?).
  { destruct op as [event|]; simpl in *.
    - destruct (publish_conserves s event Hop) as (s'&->&?&?&Hp); [lia|].
      exists s'. rewrite Hp. split_and!; [done..|lia].
    - destruct (seal_conserves s) as (s'&->&Hh&?&?); [lia|lia|].
      exists s'. rewrite str_app_nil_r. split_and!; [done..|lia|lia]. }
  cbn [try_fold]. rewrite Hstep. cbn [mbind outcome_bind].
  destruct (IH s') as (s2&->&Htext2); [done|lia|lia|].
  exists s2. split; [done|]. rewrite Htext2, Htext. apply str_app_assoc.
Qed.

Lemma size_insert_le (m : gmap ToolCallId AgentEvent) k e : size (<[k := e]> m) ≤ size m + 1.
Proof. rewrite map_size_insert. case_match; simpl; lia. Qed.

Lemma progress_insert_bounded (m : gmap ToolCallId AgentEvent) k event :
  size m ≤ TOOL_PROGRESS_SLOTS_MAX →
  size (<[k := event]>
          (if bool_decide (TOOL_PROGRESS_SLOTS_MAX ≤ size m) && negb (session.is_some (m !! k)) then
             match hash_order m with (oldest, _) :: _ => delete oldest m | [] => m end
           else m)) ≤ TOOL_PROGRESS_SLOTS_MAX.
Proof.
  intros Hs. destruct (m !! k) as [e|] eqn:He; simpl.
  - rewrite andb_false_r, map_size_insert, He. done.
  - rewrite andb_true_r. case_bool_decide as Hfull; [|pose proof (size_insert_le m k event); lia].
    destruct (hash_order m) as [|[oldest e] l] eqn:Ho.
    + pose proof (hash_order_perm m) as Hp. rewrite Ho in Hp.
      apply Permutation_nil in Hp. apply map_to_list_empty_iff in Hp.
      rewrite Hp, map_size_empty in Hfull. unfold TOOL_PROGRESS_SLOTS_MAX in Hfull. lia.
    + assert (m !! oldest = Some e) as Hold.
      { apply elem_of_map_to_list. rewrite <- (hash_order_perm m), Ho. by left. }
      etrans; [apply size_insert_le|]. rewrite map_size_delete, Hold. simpl.
      unfold TOOL_PROGRESS_SLOTS_MAX in *. lia.
Qed.

Lemma progress_bounded s event s' :
  publish_agent s event = Ok s' → size (tool_progress s) ≤ TOOL_PROGRESS_SLOTS_MAX →
  size (tool_progress s') ≤ TOOL_PROGRESS_SLOTS_MAX.
Proof.
  destruct event; simpl; try (intros Hr; rust_inv Hr; simplify_eq/=; done).
  intros [= <-] Hs. by apply progress_insert_bounded.
Qed.

Lemma step_bounded s op s' :
  driver_step s op = Ok s' →
  length (sealed_pending s) ≤ SEALED_PENDING_GEN_MAX →
  size (tool_progress s) ≤ TOOL_PROGRESS_SLOTS_MAX →
  length (sealed_pending s') ≤ SEALED_PENDING_GEN_MAX ∧
  size (tool_progress s') ≤ TOOL_PROGRESS_SLOTS_MAX.
Proof.
  destruct op as [event|]; simpl; intros Hr Hp Hs.
  - split; [|by eapply progress_bounded].
    destruct event; simpl in Hr; rust_inv Hr; by simplify_eq/=.
  - unfold seal_model_stream in Hr.
    destruct (slots_is_empty (open s)); [by injection Hr as <-|].
    destruct (_ || _); [apply bind_Ok in Hr as (g&_&Hr); by injection Hr as <-|].
    injection Hr as <-. simpl. split; [|done]. rewrite length_app. simpl.
    unfold SEALED_PENDING_GEN_MAX in *. case_bool_decide; [|lia].
    destruct (sealed_pending s); simpl in *; lia.
Qed.

Lemma run_bounded ops s s' :
  try_fold driver_step s ops = Ok s' →
  length (sealed_pending s) ≤ SEALED_PENDING_GEN_MAX →
  size (tool_progress s) ≤ TOOL_PROGRESS_SLOTS_MAX →
  length (sealed_pending s') ≤ SEALED_PENDING_GEN_MAX ∧
  size (tool_progress s') ≤ TOOL_PROGRESS_SLOTS_MAX.
Proof.
  revert s. induction ops as [|op ops IH]; intros s; cbn [try_fold]; [by intros [= <-]|].
  intros (s1&Hs1&Hr)%bind_Ok Hp Hs. destruct (step_bounded _ _ _ Hs1 Hp Hs). by eapply IH.
Qed.

(** the driver's slots lose no text: while the streamed text and
    reasoning fit one merge chunk and no more than eight seals are parked,
    publishing and sealing in any order neither panics nor drops anything -
    what drains is the concatenation of the text published, in order. *)
Theorem driver_text_conserved ops :
  forallb op_transient ops = true →
  sum_list (op_weight <$> ops) ≤ DELTA_MERGE_CHUNK_MAX →
  sum_list (op_seals <$> ops) ≤ SEALED_PENDING_GEN_MAX →
  ∃ s, try_fold driver_step new ops = Ok s ∧
    drained_text (drain_model_stream s).2 = concat_str (op_delta <$> ops).
Proof.
  intros Ht Hw Hs. destruct (run_conserves ops new Ht) as (s&Hr&Htext); [done..|].
  exists s. split; [done|]. by rewrite drained_held, Htext.
Qed.

(** The driver's slots are bounded and drain completely: after any calls
    that did not panic there are at most eight parked generations of at most
    three events each and 32 progress tails, and a drain hands over all of it,
    one event per occupied slot, and leaves nothing. *)
Theorem driver_slots_bounded ops s :
  try_fold driver_step new ops = Ok s →
  sealed_len s ≤ 27 ∧ size (tool_progress s) ≤ TOOL_PROGRESS_SLOTS_MAX ∧
  let '(s', phase, events) := drain s in
  has_data s' = false ∧ phase = slot_phase s ∧
  length events = sealed_len s + slots_len (open s) + size (tool_progress s).
Proof.
  intros Hr. destruct (run_bounded _ _ _ Hr) as [Hp Hs]; [apply Nat.le_0_l..|].
  assert (∀ g, slots_len g ≤ 3) as Hg.
  { intros g. unfold slots_len. repeat case_match; lia. }
  assert (∀ g, length (model_stream_events g) = slots_len g) as Hlen.
  { intros g. unfold model_stream_events, slots_len, session.is_some.
    by destruct (reasoning g) as [[]|], (text g), (usage g) as [[]|]. }
  unfold drain, drain_model_stream, drain_tool_progress. cbn [open sealed tool_progress].
  split_and!; [|done|done|done|].
  - unfold sealed_len. pose proof (Hg (sealed s)). unfold SEALED_PENDING_GEN_MAX in Hp.
    assert (sum_list (slots_len <$> sealed_pending s) ≤ 3 * length (sealed_pending s)); [|lia].
    clear -Hg. induction (sealed_pending s) as [|g l IH]; [done|].
    change (slots_len g + sum_list (slots_len <$> l) ≤ 3 * S (length l)).
    specialize (Hg g). lia.
  - rewrite !length_app, !Hlen, length_fmap. unfold sealed_len.
    rewrite (Permutation_length (hash_order_perm _)), length_map_to_list.
    assert (length (concat (model_stream_events <$> sealed_pending s))
            = sum_list (slots_len <$> sealed_pending s)) as ->; [|lia].
    clear -Hlen. induction (sealed_pending s) as [|g l IH]; [done|].
    rewrite !fmap_cons. cbn [concat]. rewrite length_app, Hlen, IH. done.
Qed.

End driver.

#[export] Instance listed : HashOrder :=
  {| hash_order := map_to_list; hash_order_perm m := Permutation_refl (map_to_list m) |}.

Definition demo_ops : list driver_op :=
  [OpEvent (EvTextDelta "ab"); OpEvent (EvReasoningDelta "call-1" "why"); OpSeal;
   OpEvent (EvReasoningDelta "call-2" "how"); OpEvent (EvTextDelta "cd"); OpSeal;
   OpEvent (EvTextDelta "e")].

Definition demo_slots : DriverSlots :=
  match try_fold (driver_step (H0 := release)) new demo_ops with Ok s => s | _ => new end.

Lemma driver_text_conserved_witness :
  ∃ s, try_fold (driver_step (H0 := release)) new demo_ops = Ok s ∧
    drained_text (drain_model_stream s).2 = "abcde".
Proof.
  apply (driver_text_conserved (H0 := release) demo_ops); [reflexivity|..].
  - apply Nat.leb_le. vm_compute. reflexivity.
  - apply Nat.leb_le. vm_compute. reflexivity.
Defined.

Lemma driver_slots_bounded_witness :
  sealed_len demo_slots ≤ 27 ∧ slots_len (sealed demo_slots) = 2.
Proof.
  split; [|reflexivity].
  refine (proj1 (driver_slots_bounded (H0 := release) demo_ops demo_slots _)). reflexivity.
Defined.
End driver_proofs.

(** ** The display tail of a tool *)
Module progress_proofs.
Import progress.

Definition line_count (t : string) : nat :=
  if str_is_empty t then 0
  else if ends_with_newline t then bytecount_newlines t else bytecount_newlines t + 1.

Lemma newlines_app p t :
  bytecount_newlines (p +:+ t) = bytecount_newlines p + bytecount_newlines t.
Proof. induction p as [|b p IH]; [done|]. rewrite str_app_cons. simpl. rewrite IH. lia. Qed.

Lemma ends_with_app p t : t ≠ "" → ends_with_newline (p +:+ t) = ends_with_newline t.
Proof.
  intros Ht. induction p as [|b p IH]; [done|]. rewrite str_app_cons.
  destruct p as [|b' p]; [|exact IH]. rewrite str_app_nil. by destruct t.
Qed.

Lemma str_drop_split n t :
  n ≤ String.length t → ∃ p, t = p +:+ str_drop n t ∧ String.length p = n.
Proof.
  revert t. induction n as [|n IH]; intros t Hn; [by exists ""; destruct t|].
  destruct t as [|b t]; simpl in *; [lia|]. destruct (IH t) as (p&Hp&Hl); [lia|].
  exists (String b p). rewrite str_app_cons. simpl. by rewrite <- Hp, Hl.
Qed.

Lemma str_drop_app p t n : String.length p ≤ n → str_drop n (p +:+ t) = str_drop (n - String.length p) t.
Proof.
  revert n. induction p as [|b p IH]; intros n Hn; simpl in *; [by rewrite Nat.sub_0_r|].
  rewrite str_app_cons. destruct n as [|n]; [lia|]. simpl. apply IH. lia.
Qed.

(** [is_suffix t s]: [t] ends [s]. *)
Definition is_suffix (t s : string) : Prop := ∃ p, s = p +:+ t.

Lemma is_suffix_refl t : is_suffix t t.
Proof. by exists "". Qed.
Lemma is_suffix_trans a b c : is_suffix a b → is_suffix b c → is_suffix a c.
Proof. intros [p ->] [q ->]. exists (q +:+ p). by rewrite str_app_assoc. Qed.
Lemma is_suffix_app a b t : is_suffix a b → is_suffix (a +:+ t) (b +:+ t).
Proof. intros [p ->]. exists p. by rewrite str_app_assoc. Qed.
Lemma is_suffix_length a b : is_suffix a b → String.length a ≤ String.length b.
Proof. intros [p ->]. rewrite str_app_length. lia. Qed.

Lemma line_count_app p t : t ≠ "" → line_count (p +:+ t) = bytecount_newlines p + line_count t.
Proof.
  intros Ht. unfold line_count. rewrite (proj2 (str_is_empty_false t)) by done.
  rewrite (proj2 (str_is_empty_false (p +:+ t))).
  - rewrite ends_with_app, newlines_app by done. case_match; lia.
  - intros H. apply (f_equal String.length) in H. rewrite str_app_length in H.
    destruct t; [done|]. simpl in H. lia.
Qed.

Lemma suffix_lines a b : is_suffix a b → line_count a ≤ line_count b.
Proof.
  intros [p ->]. destruct (decide (a = "")) as [->|Ha]; [apply Nat.le_0_l|].
  rewrite line_count_app by done. lia.
Qed.

Lemma next_boundary_spec fuel t bytes :
  bytes + fuel = String.length t →
  bytes ≤ next_boundary fuel t bytes ≤ String.length t ∧
  is_char_boundary t (next_boundary fuel t bytes) = true.
Proof.
  revert bytes. induction fuel as [|fuel IH]; intros bytes Hf; cbn [next_boundary].
  - split; [lia|]. unfold is_char_boundary.
    by rewrite (bool_decide_eq_true_2 (bytes = String.length t)), orb_true_r by lia.
  - destruct (_ && _) eqn:Hb.
    + destruct (IH (bytes + 1)) as [? ?]; [lia|]. split; [lia|done].
    + split; [lia|]. rust_bool. destruct Hb as [?|Hb]; [lia|done].
Qed.

(** A cut keeps an end of the text no longer than asked. *)
Lemma drain_prefix_suffix t bytes :
  ∃ t', drain_prefix t bytes = Ok t' ∧ is_suffix t' t ∧
    String.length t' ≤ String.length t - bytes.
Proof.
  unfold drain_prefix.
  destruct (next_boundary_spec (String.length t - Nat.min bytes (String.length t)) t
              (Nat.min bytes (String.length t))) as [Hle Hb]; [lia|].
  rewrite Hb. eexists. split; [done|].
  destruct (str_drop_split _ _ (proj2 Hle)) as (p&Hp&Hl). split; [by exists p|].
  apply (f_equal String.length) in Hp. rewrite str_app_length in Hp. lia.
Qed.

Lemma after_newline_spec skip seen index t :
  seen < skip → skip ≤ seen + bytecount_newlines t →
  ∃ p r, after_newline skip seen index t = Some (index + String.length p) ∧ t = p +:+ r ∧
    bytecount_newlines p = skip - seen.
Proof.
  revert seen index. induction t as [|b t IH]; intros seen index Hlt Hle; simpl in *; [lia|].
  case_bool_decide as Hb.
  - case_bool_decide as Hs.
    + exists (String b ""), t. simpl. rewrite bool_decide_eq_true_2 by done. split_and!; [done..|lia].
    + destruct (IH (seen + 1) (index + 1)) as (p&r&->&->&Hp); [lia|lia|].
      exists (String b p), r. rewrite str_app_cons. simpl. rewrite bool_decide_eq_true_2 by done.
      split_and!; [f_equal; lia|done|lia].
  - destruct (IH seen (index + 1)) as (p&r&->&->&Hp); [lia|lia|].
    exists (String b p), r. rewrite str_app_cons. simpl. rewrite bool_decide_eq_false_2 by done.
    split_and!; [f_equal; lia|done|lia].
Qed.

Lemma cut_lines t skip :
  0 < skip → skip ≤ bytecount_newlines t →
  ∃ pos t', after_newline skip 0 0 t = Some pos ∧ drain_prefix t pos = Ok t' ∧ is_suffix t' t ∧
    line_count t' ≤ line_count t - skip.
Proof.
  intros H0 Hs. destruct (after_newline_spec skip 0 0 t) as (p&r&Ha&->&Hp); [lia|lia|].
  destruct (drain_prefix_suffix (p +:+ r) (String.length p)) as (t'&Hd&Hsuf&Hlen).
  exists (0 + String.length p), t'. split_and!; [done|done|done|].
  assert (is_suffix t' r) as Hr.
  { destruct Hsuf as [q Hq]. rewrite str_app_length in Hlen.
    destruct (str_drop_split (String.length q - String.length p) r) as (m&Hm&Hml).
    - apply (f_equal String.length) in Hq. rewrite !str_app_length in Hq. lia.
    - exists m. rewrite Hm at 1. f_equal.
      assert (String.length p ≤ String.length q) as Hpq.
      { apply (f_equal String.length) in Hq. rewrite !str_app_length in Hq. lia. }
      rewrite <- (str_drop_app p r) by done. rewrite Hq. rewrite str_drop_app by done.
      by rewrite Nat.sub_diag. }
  etrans; [by apply suffix_lines|].
  destruct (decide (r = "")) as [->|Hne]; [apply Nat.le_0_l|]. rewrite line_count_app by done. lia.
Qed.

Lemma trim_window_spec t :
  ∃ t', trim_window t = Ok t' ∧ is_suffix t' t ∧
    String.length t' ≤ PROGRESS_MAX_BYTES ∧ line_count t' ≤ PROGRESS_MAX_LINES.
Proof.
  unfold trim_window. fold (line_count t).
  assert (line_count t ≤ bytecount_newlines t + 1) as Hlc.
  { unfold line_count. repeat case_match; lia. }
  assert (∃ t1, (if bool_decide (PROGRESS_MAX_LINES < line_count t) then
      match after_newline (line_count t - PROGRESS_MAX_LINES) 0 0 t with
      | Some pos => drain_prefix t pos | None => Ok t end else Ok t) = Ok t1 ∧
    is_suffix t1 t ∧ line_count t1 ≤ PROGRESS_MAX_LINES) as (t1&->&Hs1&Hl1).
  { case_bool_decide as Hb; [|exists t; split_and!; [done|apply is_suffix_refl|lia]].
    destruct (cut_lines t (line_count t - PROGRESS_MAX_LINES)) as (pos&t'&->&->&?&?);
      [lia|unfold PROGRESS_MAX_LINES in *; lia|].
    exists t'. split_and!; [done|done|lia]. }
  cbn [mbind outcome_bind]. case_bool_decide as Hb.
  - destruct (drain_prefix_suffix t1 (String.length t1 - PROGRESS_MAX_BYTES)) as (t2&->&Hs2&Hl2).
    exists t2. split_and!; [done|by eapply is_suffix_trans|lia|].
    etrans; [by apply suffix_lines|done].
  - exists t1. split_and!; [done|done|lia|done].
Qed.

(** The sink called with the pieces of output, in order. *)
Definition feed (w : Window) (pieces : list string) : outcome Empty_set Window :=
  try_fold window_push w pieces.

(** The display tail of a running tool: whatever pieces its output comes
    in, feeding them never panics - a cut always falls between characters -
    and the tail is an end of the whole output of at most 64 KiB and 80
    lines; output within both bounds is shown whole. *)
Theorem progress_tail_bounded pieces :
  ∃ w, feed new pieces = Ok w ∧ is_suffix (window_text w) (concat_str pieces) ∧
    String.length (window_text w) ≤ PROGRESS_MAX_BYTES ∧
    line_count (window_text w) ≤ PROGRESS_MAX_LINES ∧
    (String.length (concat_str pieces) ≤ PROGRESS_MAX_BYTES →
     bytecount_newlines (concat_str pieces) < PROGRESS_MAX_LINES →
     window_text w = concat_str pieces).
Proof.
  unfold feed. induction pieces as [|piece pieces IH] using rev_ind.
  { exists new. split_and!; [done|apply is_suffix_refl|apply Nat.le_0_l..|done]. }
  destruct IH as (w&Hf&Hs&Hb&Hl&Hw). rewrite try_fold_app, Hf, concat_str_snoc.
  cbn [mbind outcome_bind try_fold]. unfold window_push.
  set (joined := window_text w +:+ piece).
  assert (is_suffix joined (concat_str pieces +:+ piece)) as Hj by by apply is_suffix_app.
  assert (String.length (concat_str pieces +:+ piece) ≤ PROGRESS_MAX_BYTES →
    bytecount_newlines (concat_str pieces +:+ piece) < PROGRESS_MAX_LINES →
    joined = concat_str pieces +:+ piece) as Hwhole.
  { rewrite str_app_length, newlines_app. intros. unfold joined. by rewrite Hw by lia. }
  destruct (_ || _) eqn:Htrim.
  - destruct (trim_window_spec joined) as (t'&->&Hst&Hbt&Hlt). cbn [mbind outcome_bind].
    eexists. split; [done|]. simpl. split_and!; [by eapply is_suffix_trans|done|done|].
    intros H1 H2. rewrite (Hwhole H1 H2) in Htrim. rust_bool. destruct Htrim; lia.
  - cbn [mbind outcome_bind]. eexists. split; [done|]. simpl. rust_bool.
    destruct Htrim as [H1 H2]. split_and!; [done|lia| |done].
    unfold line_count. unfold PROGRESS_MAX_LINES in *. repeat case_match; lia.
Qed.
End progress_proofs.
