(* ===== verification/Epoch.v ===== *)
(** The end of a runtime epoch (src/crates/philo-agent-runtime/src/epoch.rs and
    shutdown.rs): the ledger of accepted operations, the settlements the
    supervisor forces for operations nobody settled, and the last events of the
    epoch.

    In Module [epoch] a mutex is the state it guards; joining the child tasks
    and the outlet's answer to each send are arguments.

    The end of an epoch settles every accepted operation exactly once, and
    tells the caller the truth about what was delivered. *)

From S2P Require Import Prelude RustStr Kernel Session Tools Runtime SessionProofs.
Import runtime.

Module epoch.

(** ** The ledger *)

Record LedgerEntry : Type := {
  ledger_operation_id : OperationId;
  ledger_turn_id : TurnId;
  ledger_session_id : SessionId
}.

Record AcceptedLedger : Type := {
  ledger_cap : nat;
  order : list OperationId;
  states : gmap OperationId LedgerEntry
}.

Definition ledger_new (cap : nat) : AcceptedLedger :=
  {| ledger_cap := cap; order := []; states := ∅ |}.

Definition insert (self : AcceptedLedger) (operation_id : OperationId) (turn_id : TurnId)
    (session_id : SessionId) : AcceptedLedger * outcome unit unit :=
  if bool_decide (is_Some (states self !! operation_id)) then (self, Ok tt)
  else if bool_decide (ledger_cap self ≤ length (order self)) then (self, Err tt)
  else
    ({| ledger_cap := ledger_cap self;
        order := order self ++ [operation_id];
        states := <[operation_id := {| ledger_operation_id := operation_id;
                                       ledger_turn_id := turn_id;
                                       ledger_session_id := session_id |}]> (states self) |},
     Ok tt).

Definition ledger_session (self : AcceptedLedger) (operation_id : OperationId)
    : option SessionId := ledger_session_id <$> states self !! operation_id.

Definition remove (self : AcceptedLedger) (operation_id : OperationId) : AcceptedLedger * bool :=
  let existed := bool_decide (is_Some (states self !! operation_id)) in
  ({| ledger_cap := ledger_cap self;
      order := if existed then filter (λ id, id ≠ operation_id) (order self) else order self;
      states := delete operation_id (states self) |}, existed).

(** The removals of [take_all]: each id takes its entry out of the map. *)
Fixpoint take_states (ids : list OperationId) (m : gmap OperationId LedgerEntry)
    : list LedgerEntry :=
  match ids with
  | [] => []
  | id :: ids =>
      match m !! id with
      | Some entry => entry :: take_states ids (delete id m)
      | None => take_states ids m
      end
  end.

Definition take_all (self : AcceptedLedger) : AcceptedLedger * list LedgerEntry :=
  ({| ledger_cap := ledger_cap self; order := []; states := ∅ |},
   take_states (order self) (states self)).

(** ** The supervisor *)

Definition settled_operation_id (event : RuntimeEvent) : option OperationId :=
  match event with RtOperationSettled id _ _ _ _ => Some id | _ => None end.

Definition forced_settlement (epoch : RuntimeEpoch) (item : nat * LedgerEntry) : ForcedSettlement :=
  {| forced_operation_id := ledger_operation_id item.2;
     forced_session_id := ledger_session_id item.2;
     forced_status := Failed;
     forced_durability := Unconfirmed;
     forced_diagnostic_id := "epoch-" +:+ epoch +:+ "-forced-" +:+ display_nat (item.1 + 1) |}.

Definition forced_settlements (epoch : RuntimeEpoch) (staged : list RuntimeEvent)
    (leftover : list LedgerEntry) : list ForcedSettlement :=
  let settled : gset OperationId := list_to_set (filter_map settled_operation_id staged) in
  forced_settlement epoch <$>
    session.enumerate (filter (λ entry, ledger_operation_id entry ∉ settled) leftover).

Record EpochExit : Type := {
  exit_reason : EpochEndReason;
  exit_diagnostics : list ShutdownDiagnostic;
  exit_maintenance : option (MaintenanceId * SessionId)
}.

Definition forced_failure : AgentFailure :=
  failure_new "epoch.forced_settlement" Internal StageEpochSupervisor Never
    "the runtime epoch ended before the operation settled"
    "runtime epoch ended before the operation settled".

Definition forced_event (s : ForcedSettlement) : RuntimeEvent :=
  RtOperationSettled (forced_operation_id s) (forced_session_id s) (forced_status s)
    (forced_durability s) Unchanged.

Definition forced_snapshot (s : ForcedSettlement) : SettledOperationSnapshot :=
  {| last_operation_id := forced_operation_id s; last_session_id := forced_session_id s;
     last_status := forced_status s; last_durability := forced_durability s;
     last_failure := Some forced_failure |}.

(** One turn of the loop over the forced settlements, on [last_settled]. *)
Definition push_settled (l : list SettledOperationSnapshot) (s : ForcedSettlement)
    : list SettledOperationSnapshot :=
  let l := l ++ [forced_snapshot s] in
  if bool_decide (32 < length l) then drop 1 l else l.

(** The events [apply_epoch_exit] sends, in order. *)
Definition exit_events (epoch : RuntimeEpoch) (exit : EpochExit) (staged : list RuntimeEvent)
    (forced : list ForcedSettlement) : list RuntimeEvent :=
  staged ++
  match exit_maintenance exit with
  | Some (id, session_id) => [RtMaintenanceSettled id session_id MaintCancelled]
  | None => []
  end ++
  (forced_event <$> forced) ++
  ((λ item, RtRuntimeFault ("epoch-" +:+ epoch +:+ "-child-" +:+ display_nat (item.1 + 1))
              (diagnostic_message item.2)) <$> session.enumerate (exit_diagnostics exit)) ++
  [RtEpochEnded epoch (exit_reason exit) (length forced)].

(** [send_terminal]: how one send to the outlet ends. *)
Inductive TerminalSend : Type := Sent | SendClosed | SendTimeout.

Definition is_epoch_ended (event : RuntimeEvent) : bool :=
  match event with RtEpochEnded _ _ _ => true | _ => false end.

(** The sending loop: what was delivered, whether [EpochEnded] counts as
    published, and what is pending. [answers] are the outlet's, in order. *)
Fixpoint send_all (events : list RuntimeEvent) (answers : list TerminalSend) (published : bool)
    : list RuntimeEvent * bool * list string :=
  match events with
  | [] => ([], published, [])
  | event :: events =>
      match hd SendTimeout answers with
      | Sent =>
          let '(delivered, published, pending) :=
            send_all events (tl answers) (published || is_epoch_ended event) in
          (event :: delivered, published, pending)
      | SendClosed => ([], true, [])
      | SendTimeout => ([], published, ["runtime-event-outlet"])
      end
  end.

Definition apply_epoch_exit (sink_closed : bool) (answers : list TerminalSend)
    (snapshot : RuntimeSnapshot) (epoch : RuntimeEpoch) (exit : EpochExit)
    (staged : list RuntimeEvent) (forced : list ForcedSettlement)
    : list RuntimeEvent * RuntimeSnapshot * outcome ShutdownError ShutdownReport :=
  let last_settled := foldl push_settled (snapshot_last_settled snapshot) forced in
  let events := exit_events epoch exit staged forced in
  let '(delivered, published, pending) :=
    if sink_closed then ([], true, []) else send_all events answers false in
  let complete := published || sink_closed in
  let snapshot :=
    {| snapshot_epoch := epoch; snapshot_availability := Idle; snapshot_queued := [];
       snapshot_active := None; snapshot_maintenance := None;
       snapshot_shutdown := if complete then StateStopped else StateForced;
       snapshot_last_settled := last_settled;
       runtime_revision := saturating_add (runtime_revision snapshot) 1 |} in
  (delivered, snapshot,
   if complete then
     Ok {| report_epoch := epoch; final_state := StateStopped; settlements := forced;
           diagnostics := exit_diagnostics exit |}
   else Err (DeadlineExceeded pending)).

(** What the join of the coordinator task gave: its exit, or a panic. *)
Definition join_exit (coordinator : option EpochExit)
    (children_maintenance : option (MaintenanceId * SessionId)) (join_faults : list string)
    : EpochExit :=
  let exit :=
    match coordinator with
    | Some exit => exit
    | None => {| exit_reason := EndCoordinatorFault; exit_diagnostics := [];
                 exit_maintenance := children_maintenance |}
    end in
  {| exit_reason := exit_reason exit;
     exit_diagnostics := exit_diagnostics exit
       ++ ((λ message, {| diagnostic_message := message |}) <$> join_faults);
     exit_maintenance := match exit_maintenance exit with
                         | None => children_maintenance
                         | some => some
                         end |}.

(** [supervise_epoch] from the join of its children on: the ledger and the
    staging queue are drained, what is left is settled by force. *)
Definition supervise_epoch (coordinator : option EpochExit)
    (children_maintenance : option (MaintenanceId * SessionId)) (join_faults : list string)
    (staged : list RuntimeEvent) (ledger : AcceptedLedger) (sink_closed : bool)
    (answers : list TerminalSend) (snapshot : RuntimeSnapshot) (epoch : RuntimeEpoch)
    : list RuntimeEvent * RuntimeSnapshot * outcome ShutdownError ShutdownReport :=
  let exit := join_exit coordinator children_maintenance join_faults in
  let leftover := (take_all ledger).2 in
  let forced := forced_settlements epoch staged leftover in
  apply_epoch_exit sink_closed answers snapshot epoch exit staged forced.

(** ** shutdown.rs *)

Inductive ShutdownMode : Type := Drain | Forced.

Record ShutdownRequest : Type := { mode : ShutdownMode; request_deadline : Z }.

Definition stronger_mode (left right : ShutdownMode) : ShutdownMode :=
  match left, right with
  | Forced, _ | _, Forced => Forced
  | Drain, Drain => Drain
  end.

Definition merge_shutdown (current : option ShutdownRequest) (incoming : ShutdownRequest)
    : ShutdownRequest :=
  match current with
  | None => incoming
  | Some existing =>
      {| mode := stronger_mode (mode existing) (mode incoming);
         request_deadline := Z.min (request_deadline existing) (request_deadline incoming) |}
  end.

End epoch.

Import runtime epoch.

Module epoch_proofs.

(** ** The ledger *)
Record ledger_wf (l : AcceptedLedger) : Prop := {
  ledger_unique : NoDup (order l);
  ledger_dom : ∀ id, is_Some (states l !! id) ↔ id ∈ order l;
  ledger_ids : ∀ id e, states l !! id = Some e → ledger_operation_id e = id;
  ledger_len : length (order l) ≤ ledger_cap l
}.

Lemma ledger_empty_wf n : ledger_wf {| ledger_cap := n; order := []; states := ∅ |}.
Proof.
  split; simpl; [constructor|..|lia].
  - intros id. rewrite lookup_empty, elem_of_nil. split; [by intros [? ?]|done].
  - intros id e. by rewrite lookup_empty.
Qed.

Lemma insert_cases l id tid sid :
  ledger_wf l →
  (id ∈ order l ∧ insert l id tid sid = (l, Ok tt)) ∨
  (id ∉ order l ∧ length (order l) = ledger_cap l ∧ insert l id tid sid = (l, Err tt)) ∨
  (id ∉ order l ∧ length (order l) < ledger_cap l ∧
   insert l id tid sid =
     ({| ledger_cap := ledger_cap l; order := order l ++ [id];
         states := <[id := {| ledger_operation_id := id; ledger_turn_id := tid;
                              ledger_session_id := sid |}]> (states l) |}, Ok tt)).
Proof.
  intros [_ Hd _ Hl]. unfold insert. case_bool_decide as Hin.
  - left. by rewrite <- Hd.
  - rewrite Hd in Hin. case_bool_decide; right; [left|right]; split_and!; try done; lia.
Qed.

Lemma insert_wf l id tid sid : ledger_wf l → ledger_wf (insert l id tid sid).1.
Proof.
  intros Hwf. destruct (insert_cases l id tid sid Hwf) as [[_ ->]|[(_&_&->)|(Hni&Hlt&->)]];
    [done..|]. destruct Hwf as [Hnd Hd Hi Hl]. split; simpl.
  - apply NoDup_app. split; [done|]. split; [set_solver|repeat constructor; set_solver].
  - intros id'. rewrite lookup_insert_is_Some, Hd, elem_of_app, list_elem_of_singleton.
    destruct (decide (id = id')); naive_solver.
  - intros id' e [[<- <-]|[_ He]]%lookup_insert_Some; [done|eauto].
  - rewrite length_app. simpl. lia.
Qed.

Lemma remove_wf l id : ledger_wf l → ledger_wf (remove l id).1.
Proof.
  intros [Hnd Hd Hi Hl]. unfold remove. simpl.
  assert ((if bool_decide (is_Some (states l !! id)) then filter (λ i, i ≠ id) (order l)
           else order l) = filter (λ i, i ≠ id) (order l)) as ->.
  { case_bool_decide as Hin; [done|]. rewrite Hd in Hin. symmetry. apply filter_all.
    apply Forall_forall. by intros i Hini ->. }
  split; simpl.
  - by apply NoDup_filter.
  - intros id'. rewrite lookup_delete_is_Some, Hd, list_elem_of_filter. naive_solver.
  - intros id' e [_ He]%lookup_delete_Some. eauto.
  - etrans; [apply length_filter|done].
Qed.

Lemma take_states_ids ids m :
  NoDup ids → (∀ id, id ∈ ids → is_Some (m !! id)) →
  (∀ id (e : LedgerEntry), m !! id = Some e → ledger_operation_id e = id) →
  ledger_operation_id <$> take_states ids m = ids ∧
  ∀ e, e ∈ take_states ids m → m !! ledger_operation_id e = Some e.
Proof.
  revert m. induction ids as [|id ids IH]; intros m Hnd Hm Hid; simpl; [by split; [|set_solver]|].
  apply NoDup_cons in Hnd as [Hni Hnd].
  destruct (Hm id) as [e He]; [by left|]. rewrite He.
  destruct (IH (delete id m)) as [IH1 IH2]; [done|..].
  - intros id' Hin. rewrite lookup_delete_ne by (by intros ->). apply Hm. by right.
  - intros id' e' [_ He']%lookup_delete_Some. eauto.
  - split; [by rewrite fmap_cons, IH1, (Hid _ _ He)|].
    intros e' [->|Hin]%elem_of_cons; [by rewrite (Hid _ _ He)|].
    by apply IH2, lookup_delete_Some in Hin as [_ ?].
Qed.

Lemma take_all_ids l : ledger_wf l → ledger_operation_id <$> (take_all l).2 = order l.
Proof.
  intros [Hnd Hd Hi _]. simpl. apply take_states_ids; [done| |done]. intros id. apply Hd.
Qed.

(** Ledgers of capacity [n] after any calls. *)
Inductive ledger_reachable (n : nat) : AcceptedLedger → Prop :=
| ledger_at_new : ledger_reachable n (ledger_new n)
| ledger_at_insert l id tid sid : ledger_reachable n l → ledger_reachable n (insert l id tid sid).1
| ledger_at_remove l id : ledger_reachable n l → ledger_reachable n (remove l id).1
| ledger_at_take l : ledger_reachable n l → ledger_reachable n (take_all l).1.

Lemma ledger_reachable_wf n l : ledger_reachable n l → ledger_wf l ∧ ledger_cap l = n.
Proof.
  induction 1 as [|l id tid sid _ [Hwf Hc]|l id _ [Hwf Hc]|l _ [Hwf Hc]].
  - split; [apply ledger_empty_wf|done].
  - split; [by apply insert_wf|]. unfold insert. by repeat case_bool_decide.
  - split; [by apply remove_wf|done].
  - split; [apply ledger_empty_wf|done].
Qed.

(** ** The events of an exit *)
Lemma settled_forced fs :
  filter_map settled_operation_id (forced_event <$> fs) = forced_operation_id <$> fs.
Proof. unfold filter_map. induction fs as [|f fs IH]; [done|]. simpl. f_equal. exact IH. Qed.

Lemma settled_none (l : list RuntimeEvent) :
  Forall (λ e, settled_operation_id e = None) l → filter_map settled_operation_id l = [].
Proof. apply filter_map_nil. Qed.

Lemma exit_events_settled epoch exit staged forced :
  filter_map settled_operation_id (exit_events epoch exit staged forced)
    = filter_map settled_operation_id staged ++ (forced_operation_id <$> forced).
Proof.
  unfold exit_events. rewrite !filter_map_app, settled_forced. f_equal.
  rewrite (settled_none (match exit_maintenance exit with Some _ => _ | None => _ end))
    by (destruct (exit_maintenance exit) as [[]|]; by repeat constructor).
  rewrite (settled_none ((λ item, RtRuntimeFault _ _) <$> _)), app_nil_r; [done|].
  apply Forall_fmap, Forall_forall. by intros [] _.
Qed.

Lemma forced_ids epoch staged leftover :
  forced_operation_id <$> forced_settlements epoch staged leftover
    = filter (λ id, id ∉ filter_map settled_operation_id staged)
        (ledger_operation_id <$> leftover).
Proof.
  unfold forced_settlements. rewrite <- list_fmap_compose.
  trans (ledger_operation_id <$> (session.enumerate
    (filter (λ entry, ledger_operation_id entry
       ∉ (list_to_set (filter_map settled_operation_id staged) : gset OperationId)) leftover)).*2).
  { rewrite <- list_fmap_compose. by apply list_fmap_ext. }
  rewrite enumerate_snd. induction leftover as [|e l IH]; [done|].
  rewrite fmap_cons, !filter_cons.
  destruct (decide (ledger_operation_id e ∉ _)) as [Hin|Hin];
    rewrite elem_of_list_to_set in Hin.
  - rewrite decide_True by done. by rewrite fmap_cons, IH.
  - by rewrite decide_False by done.
Qed.

(** ** Delivery *)
Lemma send_all_cases events answers published :
  let '(delivered, published', pending) := send_all events answers published in
  (delivered = events ∧ published' = published || any is_epoch_ended events ∧ pending = []) ∨
  (delivered `prefix_of` events ∧ published' = true ∧ pending = [] ∧ SendClosed ∈ answers) ∨
  (∃ rest, events = delivered ++ rest ∧ rest ≠ [] ∧ pending ≠ [] ∧
     published' = published || any is_epoch_ended delivered).
Proof.
  revert answers published. induction events as [|event events IH]; intros answers published.
  { left. by rewrite orb_false_r. }
  simpl. destruct (hd SendTimeout answers) eqn:Hans.
  - specialize (IH (tl answers) (published || is_epoch_ended event)).
    destruct (send_all _ _ _) as [[d p] pend]. destruct IH as [(->&->&->)|[(Hp&->&->&Hc)|(r&->&?&?&->)]].
    + left. by rewrite orb_assoc.
    + right; left. split_and!; [by apply prefix_cons|done|done|].
      destruct answers; [done|by right].
    + right; right. exists r. simpl. by rewrite orb_assoc.
  - right; left. split_and!; [apply prefix_nil|done|done|].
    destruct answers; [done|]. simpl in Hans. subst. by left.
  - right; right. exists (event :: events). by rewrite orb_false_r.
Qed.

Lemma push_settled_len l s : length l ≤ 32 → length (push_settled l s) ≤ 32.
Proof.
  intros Hl. unfold push_settled. case_bool_decide as Hb; rewrite ?length_drop, length_app in *;
    simpl in *; lia.
Qed.

Lemma settled_once staged (ids : list OperationId) :
  NoDup (filter_map settled_operation_id staged) → NoDup ids →
  let all := filter_map settled_operation_id staged ++
             filter (λ id, id ∉ filter_map settled_operation_id staged) ids in
  NoDup all ∧ ∀ id, id ∈ ids → id ∈ all.
Proof.
  intros Hs Hi all. split.
  - apply NoDup_app. split; [done|]. split; [|by apply NoDup_filter].
    intros id Hin [Hni _]%list_elem_of_filter. done.
  - intros id Hin. apply elem_of_app.
    destruct (decide (id ∈ filter_map settled_operation_id staged)); [by left|right].
    by apply list_elem_of_filter.
Qed.

Lemma settlement_origin epoch exit staged forced id sid st du rev :
  RtOperationSettled id sid st du rev ∈ exit_events epoch exit staged forced →
  RtOperationSettled id sid st du rev ∈ staged ∨
  ∃ f, f ∈ forced ∧ RtOperationSettled id sid st du rev = forced_event f.
Proof.
  unfold exit_events. rewrite !elem_of_app. intros [Hin|[Hin|[Hin|[Hin|Hin]]]].
  - by left.
  - destruct (exit_maintenance exit) as [[]|]; set_solver.
  - apply list_elem_of_fmap in Hin as (f&->&Hf). right. by exists f.
  - by apply list_elem_of_fmap in Hin as ([]&?&_).
  - set_solver.
Qed.

Lemma forced_shape epoch staged leftover f :
  f ∈ forced_settlements epoch staged leftover →
  forced_operation_id f ∈ (ledger_operation_id <$> leftover) ∧ forced_status f = Failed ∧
  forced_durability f = Unconfirmed.
Proof.
  intros Hf. split.
  - assert (forced_operation_id f ∈ forced_operation_id <$> forced_settlements epoch staged leftover)
      as Hin by by apply list_elem_of_fmap_2.
    rewrite forced_ids in Hin. by apply list_elem_of_filter in Hin as [_ ?].
  - unfold forced_settlements in Hf. apply list_elem_of_fmap in Hf as ([i e]&->&_). done.
Qed.

Lemma epoch_end_flag epoch exit staged forced :
  any is_epoch_ended staged = false →
  any is_epoch_ended (exit_events epoch exit staged forced) = true ∧
  ∀ delivered rest, exit_events epoch exit staged forced = delivered ++ rest → rest ≠ [] →
    any is_epoch_ended delivered = false.
Proof.
  intros Hs. set (last_event := RtEpochEnded epoch (exit_reason exit) (length forced)).
  assert (∃ before, exit_events epoch exit staged forced = before ++ [last_event] ∧
    any is_epoch_ended before = false) as (before&->&Hb).
  { unfold exit_events. rewrite !app_assoc. eexists. split; [reflexivity|].
    unfold any in *. rewrite !existsb_app, Hs. simpl. apply orb_false_iff. split.
    - apply orb_false_iff. split; [by destruct (exit_maintenance exit) as [[]|]|].
      apply any_false, Forall_fmap, Forall_forall. by intros f _.
    - apply any_false, Forall_fmap, Forall_forall. by intros [] _. }
  split.
  - unfold any. rewrite existsb_app. simpl. apply orb_true_r.
  - intros delivered rest Heq Hne. destruct rest as [|e rest _] using rev_ind; [done|].
    rewrite app_assoc in Heq. apply app_inj_tail in Heq as [-> _].
    unfold any in *. rewrite existsb_app in Hb. by apply orb_false_iff in Hb as [? _].
Qed.

Lemma supervise_delivers coordinator maintenance faults staged ledger closed answers snapshot
    epoch :
  any is_epoch_ended staged = false →
  let exit := join_exit coordinator maintenance faults in
  let forced := forced_settlements epoch staged (take_all ledger).2 in
  let events := exit_events epoch exit staged forced in
  let '(delivered, snapshot', result) :=
    supervise_epoch coordinator maintenance faults staged ledger closed answers snapshot epoch in
  delivered `prefix_of` events ∧
  match result with
  | Ok report =>
      settlements report = forced ∧ snapshot_shutdown snapshot' = StateStopped ∧
      (delivered = events ∨ closed = true ∨ SendClosed ∈ answers)
  | Err _ => snapshot_shutdown snapshot' = StateForced ∧ delivered ≠ events
  | Panic => False
  end ∧
  snapshot_queued snapshot' = [] ∧ snapshot_active snapshot' = None ∧
  snapshot_last_settled snapshot' = foldl push_settled (snapshot_last_settled snapshot) forced.
Proof.
  intros Hnoend exit forced events.
  destruct (epoch_end_flag epoch exit staged forced Hnoend) as [Hflag Hpart].
  fold events in Hflag, Hpart.
  unfold supervise_epoch, apply_epoch_exit. fold exit forced events.
  destruct closed; simpl.
  { split_and!; try done; [apply prefix_nil|by auto]. }
  pose proof (send_all_cases events answers false) as Hsend.
  destruct (send_all events answers false) as [[delivered published] pending].
  destruct Hsend as [(->&->&->)|[(Hp&->&->&Hc)|(rest&Heq&Hne&_&->)]]; simpl.
  - rewrite Hflag. simpl. split_and!; try done. by left.
  - split_and!; try done. by auto.
  - rewrite (Hpart _ _ Heq Hne). simpl. split_and!; try done.
    + rewrite Heq. by apply prefix_app_r.
    + intros Hd. rewrite Hd in Heq. apply Hne, (app_inv_head events). by rewrite app_nil_r.
Qed.

Lemma foldl_push_settled l forced : length l ≤ 32 → length (foldl push_settled l forced) ≤ 32.
Proof.
  revert l. induction forced as [|f fs IH]; intros l Hl; simpl; [done|]. by apply IH, push_settled_len.
Qed.

(** The end of an epoch settles every accepted operation. Whether the
    coordinator came to its end or panicked, and whatever was still staged:
    among the last events of the epoch each operation of the ledger has
    exactly one settlement - the staged one, or a failed, unconfirmed one that
    leaves the session as it is - and [EpochEnded] comes last with the number
    of forced ones; what is delivered is a prefix of these events. The caller
    is told the epoch stopped only if all of them were delivered or nobody
    listens any more; otherwise the snapshot says so. *)
Theorem epoch_settles_every_accepted n coordinator maintenance faults staged ledger closed answers
    snapshot epoch :
  ledger_reachable n ledger → NoDup (filter_map settled_operation_id staged) →
  any is_epoch_ended staged = false → length (snapshot_last_settled snapshot) ≤ 32 →
  let exit := join_exit coordinator maintenance faults in
  let forced := forced_settlements epoch staged (take_all ledger).2 in
  let events := exit_events epoch exit staged forced in
  let '(delivered, snapshot', result) :=
    supervise_epoch coordinator maintenance faults staged ledger closed answers snapshot epoch in
  NoDup (filter_map settled_operation_id events) ∧
  (∀ id, id ∈ order ledger → id ∈ filter_map settled_operation_id events) ∧
  (∀ id sid st du rev, RtOperationSettled id sid st du rev ∈ events →
     RtOperationSettled id sid st du rev ∈ staged ∨
     (id ∈ order ledger ∧ st = Failed ∧ du = Unconfirmed ∧ rev = Unchanged)) ∧
  last events = Some (RtEpochEnded epoch (exit_reason exit) (length forced)) ∧
  delivered `prefix_of` events ∧
  match result with
  | Ok report =>
      settlements report = forced ∧ snapshot_shutdown snapshot' = StateStopped ∧
      (delivered = events ∨ closed = true ∨ SendClosed ∈ answers)
  | Err _ => snapshot_shutdown snapshot' = StateForced ∧ delivered ≠ events
  | Panic => False
  end ∧
  snapshot_queued snapshot' = [] ∧ snapshot_active snapshot' = None ∧
  length (snapshot_last_settled snapshot') ≤ 32.
Proof.
  intros Hr Hstaged Hnoend Hlast exit forced events.
  destruct (ledger_reachable_wf _ _ Hr) as [Hwf _].
  pose proof (take_all_ids _ Hwf) as Hids.
  destruct (settled_once staged (order ledger) Hstaged (ledger_unique _ Hwf)) as [Hnd Hall].
  assert (filter_map settled_operation_id events = filter_map settled_operation_id staged ++
    filter (λ id, id ∉ filter_map settled_operation_id staged) (order ledger)) as Hset.
  { unfold events. rewrite exit_events_settled. unfold forced. by rewrite forced_ids, Hids. }
  assert (last events = Some (RtEpochEnded epoch (exit_reason exit) (length forced))) as Hend.
  { unfold events, exit_events. rewrite !app_assoc. apply last_snoc. }
  assert (∀ id sid st du rev, RtOperationSettled id sid st du rev ∈ events →
     RtOperationSettled id sid st du rev ∈ staged ∨
     (id ∈ order ledger ∧ st = Failed ∧ du = Unconfirmed ∧ rev = Unchanged)) as Horigin.
  { intros id sid st du rev [?|(f&Hf&Heq)]%settlement_origin; [by left|right].
    apply forced_shape in Hf as (Hid&Hst&Hdu). rewrite Hids in Hid.
    injection Heq as -> -> -> -> ->. by rewrite Hst, Hdu. }
  pose proof (supervise_delivers coordinator maintenance faults staged ledger closed answers
    snapshot epoch Hnoend) as Hsup. cbv zeta in Hsup.
  destruct (supervise_epoch _ _ _ _ _ _ _ _ _) as [[delivered snapshot'] result].
  destruct Hsup as (Hprefix&Hresult&Hqueued&Hactive&Hsettled).
  rewrite Hset, Hsettled. split_and!; try done. by apply foldl_push_settled.
Qed.

(** The ledger of accepted operations, after any calls on a ledger of
    capacity [n]: it holds at most [n] operations; an insertion is refused
    exactly when the ledger is full and the operation new, a repeated one
    changes nothing and keeps the first session, an accepted one joins the
    end; a removal takes out that operation alone; and [take_all] hands over
    every operation in the order of acceptance and leaves none. *)
Theorem ledger_tracks_accepted n l id tid sid :
  ledger_reachable n l →
  length (order l) ≤ n ∧ NoDup (order l) ∧
  (let '(l', r) := insert l id tid sid in
   (r = Ok tt ∨ r = Err tt) ∧
   (r = Err tt ↔ id ∉ order l ∧ length (order l) = n) ∧
   (r = Err tt ∨ id ∈ order l → l' = l) ∧
   (r = Ok tt → id ∉ order l → order l' = order l ++ [id] ∧ ledger_session l' id = Some sid)) ∧
  (remove l id).2 = bool_decide (id ∈ order l) ∧
  (∀ id', id' ∈ order (remove l id).1 ↔ id' ∈ order l ∧ id' ≠ id) ∧
  ledger_operation_id <$> (take_all l).2 = order l ∧ order (take_all l).1 = [].
Proof.
  intros Hr. destruct (ledger_reachable_wf _ _ Hr) as [Hwf Hc].
  pose proof Hwf as [Hnd Hd _ Hl].
  split_and!; [lia|done|..].
  - destruct (insert_cases l id tid sid Hwf) as [[Hin ->]|[(Hni&Hf&->)|(Hni&Hlt&->)]].
    + split_and!; [by left|by split; [|intros [? _]]|done|done].
    + split_and!; [by right|by rewrite <- Hc|done|done].
    + split_and!; [by left|split; [done|intros [_ ?]; lia]|by intros [?|?]|].
      intros _ _. split; [done|]. unfold ledger_session. simpl. by rewrite lookup_insert_eq.
  - simpl. apply bool_decide_ext, Hd.
  - intros id'. rewrite <- (ledger_dom _ (remove_wf _ id Hwf)), <- Hd. simpl.
    rewrite lookup_delete_is_Some. naive_solver.
  - by apply take_all_ids.
  - done.
Qed.

(** ** Concrete epochs *)
Module demo_epoch.
Definition two_ops : AcceptedLedger :=
  (insert (insert (ledger_new 3) "op-1" "t-1" "s").1 "op-2" "t-2" "s").1.
Definition staged : list RuntimeEvent :=
  [RtOperationSettled "op-1" "s" Succeeded Confirmed (Committed 4)].
Definition snapshot : RuntimeSnapshot :=
  {| snapshot_epoch := "e"; snapshot_availability := Busy "op-2"; snapshot_queued := [];
     snapshot_active := None; snapshot_maintenance := None; snapshot_shutdown := StateRunning;
     snapshot_last_settled := []; runtime_revision := 7 |}.

Lemma two_reachable : ledger_reachable 3 two_ops.
Proof. unfold two_ops. apply ledger_at_insert, ledger_at_insert, ledger_at_new. Qed.
End demo_epoch.

Lemma ledger_tracks_accepted_witness :
  order demo_epoch.two_ops = ["op-1"; "op-2"] ∧
  (remove demo_epoch.two_ops "op-1").2 = true.
Proof.
  split; [reflexivity|].
  refine (eq_trans (proj1 (proj2 (proj2 (proj2 (ledger_tracks_accepted 3 demo_epoch.two_ops "op-1"
    "t" "s" demo_epoch.two_reachable))))) _). reflexivity.
Defined.

Lemma epoch_settles_every_accepted_witness :
  let exit := join_exit None None [] in
  let forced := forced_settlements "e" demo_epoch.staged (take_all demo_epoch.two_ops).2 in
  let events := exit_events "e" exit demo_epoch.staged forced in
  NoDup (filter_map settled_operation_id events) ∧
  ∀ id, id ∈ order demo_epoch.two_ops → id ∈ filter_map settled_operation_id events.
Proof.
  pose proof (epoch_settles_every_accepted 3 None None [] demo_epoch.staged demo_epoch.two_ops
    false [Sent; Sent; Sent; Sent] demo_epoch.snapshot "e" demo_epoch.two_reachable
    ltac:(by repeat constructor; set_solver) eq_refl ltac:(simpl; lia)) as H.
  cbv zeta in H |- *. destruct (supervise_epoch _ _ _ _ _ _ _ _ _) as [[delivered snapshot'] result].
  exact (conj (proj1 H) (proj1 (proj2 H))).
Defined.

End epoch_proofs.
