(* ===== verification/Coordinator.v ===== *)
(** The runtime coordinator (src/crates/philo-agent-runtime/src/coordinator.rs),
    with the specs, ids and channel bounds it works on (spec.rs, ids.rs,
    bounds.rs): the actor that owns the active operation, the queue of
    operations, the maintenance task and the shutdown state of an epoch.

    Module [coordinator] has the actor's state, the ends of its channels and
    one definition per method, in a state monad whose [None] is a Rust panic:
    the state at the panic is kept, because the ledger and the staging queue
    outlive the actor. A method runs without interruption; what happens between
    the methods of the event loop is in CoordinatorSystem.v. The driver task
    shares its [OperationShared] with the coordinator, through [active]. *)

From S2P Require Import Prelude RustStr Kernel Session Tools Runtime.
From S2P Require Import Operation Outlets Epoch.
Import runtime.

Module coordinator.

Abbreviation CancelReason := session.CancelReason.

(** ** bounds.rs; [usize] is 64 bits wide *)

Record ChannelBounds : Type := {
  command_cap : Z;
  control_cap : Z;
  event_cap : Z;
  queue_max : Z;
  driver_event_budget : Z;
  reliable_staging_cap : Z
}.

Definition default_bounds : ChannelBounds :=
  {| command_cap := 32; control_cap := 16; event_cap := 256; queue_max := 32;
     driver_event_budget := 32; reliable_staging_cap := 64 |}.

Inductive StartError : Type := InvalidBounds | RuntimeUnavailable (message : string).

Definition validate (self : ChannelBounds) : outcome StartError ChannelBounds :=
  if (command_cap self =? 0)%Z || (control_cap self =? 0)%Z || (event_cap self =? 0)%Z
     || (queue_max self =? 0)%Z || (driver_event_budget self =? 0)%Z
     || (reliable_staging_cap self <? Z.of_nat staging.PRODUCER_STAGING_RESERVE)%Z
  then Err InvalidBounds else Ok self.

Definition TRANSIENT_KIND_COUNT : Z := 4.

Definition transient_coalescer_cap (self : ChannelBounds) : Z :=
  saturating_add (saturating_mul (saturating_add (queue_max self) 1) TRANSIENT_KIND_COUNT) 2.

(** ** spec.rs, error.rs and the messages of the two lanes *)

Record OperationSpec : Type := {
  spec_session_id : SessionId;
  user_message : UserMessage;
  spec_generation : RuntimeGeneration;
  service_request_id : option string
}.

Record CompactionSpec : Type := {
  compaction_session_id : SessionId;
  compaction_generation : RuntimeGeneration
}.

Record OperationAccepted : Type := {
  accepted_operation_id : OperationId;
  accepted_turn_id : TurnId
}.

Inductive AdmissionError : Type :=
| AdmQueueFull | AdmBackpressured | AdmShuttingDown | AdmRuntimeStopped.

Inductive CancelResult : Type :=
| Requested | QueuedCancelled | TooLate | AlreadySettled | UnknownOperation
| CancelBackpressured | CancelRuntimeStopped.

Inductive MaintenanceError : Type :=
| MaintUnavailable (availability : AgentAvailability)
| MaintBackpressured | MaintShuttingDown | MaintRuntimeStopped.

Record OutboundStats : Type := {
  reliable_staging_len : nat;
  stats_staging_cap : nat;
  transient_len : nat;
  transient_cap : nat;
  sealed_model_stream_len : nat;
  sealed_model_stream_cap : nat
}.

(** A [oneshot] reply is known by its caller's number. *)
Abbreviation Reply := nat.

Inductive RuntimeCommand : Type :=
| Submit (spec : OperationSpec) (reply : Reply)
| StartCompaction (spec : CompactionSpec) (reply : Reply).

Inductive ControlMessage : Type :=
| Cancel (operation_id : OperationId) (reply : Reply)
| CancelMaintenance (id : MaintenanceId) (reply : Reply)
| InjectCoordinatorPanic
| PublishSnapshot (reply : Reply)
| PublishOutboundStats (reply : Reply).

Inductive Answer : Type :=
| AnsSubmit (answer : AdmissionError + OperationAccepted)
| AnsCompaction (answer : MaintenanceError + MaintenanceId)
| AnsCancel (answer : CancelResult)
| AnsSnapshot (answer : RuntimeSnapshot)
| AnsStats (answer : OutboundStats).

(** ** ids.rs: the [n]th pair of ids an [IdSource] hands out to [admit_operation]; the
    64-bit counters of the sequential one do not run out. *)
Class IdSource : Type := next_ids : nat → OperationId * TurnId.

Definition SequentialIdSource : IdSource := λ n,
  ("operation-" +:+ display_nat (n + 1), "turn-" +:+ display_nat (n + 1)).

#[export] Instance AgentAvailability_eq_dec : EqDecision AgentAvailability.
Proof. solve_decision. Defined.
#[export] Instance CompactionReport_eq_dec : EqDecision CompactionReport.
Proof. solve_decision. Defined.

(** ** The state *)

Record QueuedOperation : Type := {
  q_operation_id : OperationId;
  q_turn_id : TurnId;
  q_spec : OperationSpec
}.

(** What the driver and the coordinator share: the record of shared.rs and its
    transient slots. *)
Record DriverShared : Type := {
  op : operation.OperationShared;
  slots : driver.DriverSlots
}.

Record ActiveMeta : Type := {
  meta_operation_id : OperationId;
  meta_turn_id : TurnId;
  meta_session_id : SessionId;
  shared : DriverShared;
  meta_phase : OperationPhase;
  started : bool;
  last_model_call_id : option ModelCallId
}.

Record MaintenanceMeta : Type := {
  maint_id : MaintenanceId;
  maint_session_id : SessionId;
  maint_cancel : bool
}.

(** The receiving end of a driver's channel: what is unread, and whether every
    sender is gone. *)
Record DriverEvents : Type := {
  unread : list AgentEvent;
  disconnected : bool
}.

(** A spawned task: what it was given, whether it was aborted, how it ended. *)
Inductive JoinResult (A : Type) : Type := JoinOk (a : A) | JoinPanicked | JoinAborted.
Arguments JoinOk {_} _.
Arguments JoinPanicked {_}.
Arguments JoinAborted {_}.

Record Task (Given A : Type) : Type := {
  given : Given;
  aborted : bool;
  ended : option (JoinResult A)
}.
Arguments given {_ _} _.
Arguments aborted {_ _} _.
Arguments ended {_ _} _.
Arguments Build_Task {_ _} _ _ _.

Definition abort {Given A} (t : Task Given A) : Task Given A :=
  {| given := given t; aborted := true; ended := ended t |}.

Abbreviation DriverTask := (Task (QueuedOperation * DiagnosticId) DriverExit).
Abbreviation MaintenanceTask := (Task CompactionSpec (CompactionError + CompactionReport)).

(** The fields of [Coordinator], less the ends of its channels. *)
Record Coordinator : Type := {
  co_epoch : RuntimeEpoch;
  bounds : ChannelBounds;
  next_maintenance : Z;
  next_diagnostic : Z;
  active : option ActiveMeta;
  driver_events : option DriverEvents;
  driver_join : option DriverTask;
  queue : list QueuedOperation;
  maintenance : option MaintenanceMeta;
  maintenance_join : option MaintenanceTask;
  shutdown : ShutdownState;
  shutdown_deadline : option Z;
  reliable_staging : staging.ReliableStaging;
  transient_coalescer : coalescer.TransientCoalescer;
  sink_closed : bool;
  last_settled : list SettledOperationSnapshot;
  last_availability : AgentAvailability;
  last_queued_len : nat;
  co_revision : Z;
  ledger : epoch.AcceptedLedger
}.

(** The two lanes: what is in each, and whether every handle is gone. *)
Record Lanes : Type := {
  command_rx : list RuntimeCommand;
  control_rx : list ControlMessage;
  handles_gone : bool
}.

(** The public outlet: everything sent to it, how much of it the consumer has
    taken, and whether the consumer dropped it. *)
Record Outlet : Type := {
  outlet_cap : Z;
  sent : list RuntimeEvent;
  taken : nat;
  outlet_closed : bool
}.

(** The actor and the far ends of its channels: the lanes, the outlet, the
    watched snapshot, the shutdown request and whether it changed since the
    coordinator last looked, the ids handed out, the replies, the clock. *)
Record World : Type := {
  co : Coordinator;
  lanes : Lanes;
  outlet : Outlet;
  snapshot : RuntimeSnapshot;
  shutdown_slot : option epoch.ShutdownRequest;
  shutdown_changed : bool;
  ids_used : nat;
  replies : list (Reply * Answer);
  now : Z
}.

(** Field updates. *)
Definition set_next_maintenance v (c : Coordinator) : Coordinator :=
  Build_Coordinator (co_epoch c) (bounds c) v (next_diagnostic c) (active c) (driver_events c)
    (driver_join c) (queue c) (maintenance c) (maintenance_join c) (shutdown c)
    (shutdown_deadline c) (reliable_staging c) (transient_coalescer c) (sink_closed c)
    (last_settled c) (last_availability c) (last_queued_len c) (co_revision c) (ledger c).
Definition set_next_diagnostic v (c : Coordinator) : Coordinator :=
  Build_Coordinator (co_epoch c) (bounds c) (next_maintenance c) v (active c) (driver_events c)
    (driver_join c) (queue c) (maintenance c) (maintenance_join c) (shutdown c)
    (shutdown_deadline c) (reliable_staging c) (transient_coalescer c) (sink_closed c)
    (last_settled c) (last_availability c) (last_queued_len c) (co_revision c) (ledger c).
Definition set_active v (c : Coordinator) : Coordinator :=
  Build_Coordinator (co_epoch c) (bounds c) (next_maintenance c) (next_diagnostic c) v
    (driver_events c) (driver_join c) (queue c) (maintenance c) (maintenance_join c) (shutdown c)
    (shutdown_deadline c) (reliable_staging c) (transient_coalescer c) (sink_closed c)
    (last_settled c) (last_availability c) (last_queued_len c) (co_revision c) (ledger c).
Definition set_driver_events v (c : Coordinator) : Coordinator :=
  Build_Coordinator (co_epoch c) (bounds c) (next_maintenance c) (next_diagnostic c) (active c) v
    (driver_join c) (queue c) (maintenance c) (maintenance_join c) (shutdown c)
    (shutdown_deadline c) (reliable_staging c) (transient_coalescer c) (sink_closed c)
    (last_settled c) (last_availability c) (last_queued_len c) (co_revision c) (ledger c).
Definition set_driver_join v (c : Coordinator) : Coordinator :=
  Build_Coordinator (co_epoch c) (bounds c) (next_maintenance c) (next_diagnostic c) (active c)
    (driver_events c) v (queue c) (maintenance c) (maintenance_join c) (shutdown c)
    (shutdown_deadline c) (reliable_staging c) (transient_coalescer c) (sink_closed c)
    (last_settled c) (last_availability c) (last_queued_len c) (co_revision c) (ledger c).
Definition set_queue v (c : Coordinator) : Coordinator :=
  Build_Coordinator (co_epoch c) (bounds c) (next_maintenance c) (next_diagnostic c) (active c)
    (driver_events c) (driver_join c) v (maintenance c) (maintenance_join c) (shutdown c)
    (shutdown_deadline c) (reliable_staging c) (transient_coalescer c) (sink_closed c)
    (last_settled c) (last_availability c) (last_queued_len c) (co_revision c) (ledger c).
Definition set_maintenance v (c : Coordinator) : Coordinator :=
  Build_Coordinator (co_epoch c) (bounds c) (next_maintenance c) (next_diagnostic c) (active c)
    (driver_events c) (driver_join c) (queue c) v (maintenance_join c) (shutdown c)
    (shutdown_deadline c) (reliable_staging c) (transient_coalescer c) (sink_closed c)
    (last_settled c) (last_availability c) (last_queued_len c) (co_revision c) (ledger c).
Definition set_maintenance_join v (c : Coordinator) : Coordinator :=
  Build_Coordinator (co_epoch c) (bounds c) (next_maintenance c) (next_diagnostic c) (active c)
    (driver_events c) (driver_join c) (queue c) (maintenance c) v (shutdown c)
    (shutdown_deadline c) (reliable_staging c) (transient_coalescer c) (sink_closed c)
    (last_settled c) (last_availability c) (last_queued_len c) (co_revision c) (ledger c).
Definition set_shutdown v (c : Coordinator) : Coordinator :=
  Build_Coordinator (co_epoch c) (bounds c) (next_maintenance c) (next_diagnostic c) (active c)
    (driver_events c) (driver_join c) (queue c) (maintenance c) (maintenance_join c) v
    (shutdown_deadline c) (reliable_staging c) (transient_coalescer c) (sink_closed c)
    (last_settled c) (last_availability c) (last_queued_len c) (co_revision c) (ledger c).
Definition set_shutdown_deadline v (c : Coordinator) : Coordinator :=
  Build_Coordinator (co_epoch c) (bounds c) (next_maintenance c) (next_diagnostic c) (active c)
    (driver_events c) (driver_join c) (queue c) (maintenance c) (maintenance_join c) (shutdown c)
    v (reliable_staging c) (transient_coalescer c) (sink_closed c) (last_settled c)
    (last_availability c) (last_queued_len c) (co_revision c) (ledger c).
Definition set_reliable_staging v (c : Coordinator) : Coordinator :=
  Build_Coordinator (co_epoch c) (bounds c) (next_maintenance c) (next_diagnostic c) (active c)
    (driver_events c) (driver_join c) (queue c) (maintenance c) (maintenance_join c) (shutdown c)
    (shutdown_deadline c) v (transient_coalescer c) (sink_closed c) (last_settled c)
    (last_availability c) (last_queued_len c) (co_revision c) (ledger c).
Definition set_transient_coalescer v (c : Coordinator) : Coordinator :=
  Build_Coordinator (co_epoch c) (bounds c) (next_maintenance c) (next_diagnostic c) (active c)
    (driver_events c) (driver_join c) (queue c) (maintenance c) (maintenance_join c) (shutdown c)
    (shutdown_deadline c) (reliable_staging c) v (sink_closed c) (last_settled c)
    (last_availability c) (last_queued_len c) (co_revision c) (ledger c).
Definition set_sink_closed v (c : Coordinator) : Coordinator :=
  Build_Coordinator (co_epoch c) (bounds c) (next_maintenance c) (next_diagnostic c) (active c)
    (driver_events c) (driver_join c) (queue c) (maintenance c) (maintenance_join c) (shutdown c)
    (shutdown_deadline c) (reliable_staging c) (transient_coalescer c) v (last_settled c)
    (last_availability c) (last_queued_len c) (co_revision c) (ledger c).
Definition set_last_settled v (c : Coordinator) : Coordinator :=
  Build_Coordinator (co_epoch c) (bounds c) (next_maintenance c) (next_diagnostic c) (active c)
    (driver_events c) (driver_join c) (queue c) (maintenance c) (maintenance_join c) (shutdown c)
    (shutdown_deadline c) (reliable_staging c) (transient_coalescer c) (sink_closed c) v
    (last_availability c) (last_queued_len c) (co_revision c) (ledger c).
Definition set_last_availability v (c : Coordinator) : Coordinator :=
  Build_Coordinator (co_epoch c) (bounds c) (next_maintenance c) (next_diagnostic c) (active c)
    (driver_events c) (driver_join c) (queue c) (maintenance c) (maintenance_join c) (shutdown c)
    (shutdown_deadline c) (reliable_staging c) (transient_coalescer c) (sink_closed c)
    (last_settled c) v (last_queued_len c) (co_revision c) (ledger c).
Definition set_last_queued_len v (c : Coordinator) : Coordinator :=
  Build_Coordinator (co_epoch c) (bounds c) (next_maintenance c) (next_diagnostic c) (active c)
    (driver_events c) (driver_join c) (queue c) (maintenance c) (maintenance_join c) (shutdown c)
    (shutdown_deadline c) (reliable_staging c) (transient_coalescer c) (sink_closed c)
    (last_settled c) (last_availability c) v (co_revision c) (ledger c).
Definition set_co_revision v (c : Coordinator) : Coordinator :=
  Build_Coordinator (co_epoch c) (bounds c) (next_maintenance c) (next_diagnostic c) (active c)
    (driver_events c) (driver_join c) (queue c) (maintenance c) (maintenance_join c) (shutdown c)
    (shutdown_deadline c) (reliable_staging c) (transient_coalescer c) (sink_closed c)
    (last_settled c) (last_availability c) (last_queued_len c) v (ledger c).
Definition set_ledger v (c : Coordinator) : Coordinator :=
  Build_Coordinator (co_epoch c) (bounds c) (next_maintenance c) (next_diagnostic c) (active c)
    (driver_events c) (driver_join c) (queue c) (maintenance c) (maintenance_join c) (shutdown c)
    (shutdown_deadline c) (reliable_staging c) (transient_coalescer c) (sink_closed c)
    (last_settled c) (last_availability c) (last_queued_len c) (co_revision c) v.
Definition set_co v (w : World) : World :=
  Build_World v (lanes w) (outlet w) (snapshot w) (shutdown_slot w) (shutdown_changed w)
    (ids_used w) (replies w) (now w).
Definition set_lanes v (w : World) : World :=
  Build_World (co w) v (outlet w) (snapshot w) (shutdown_slot w) (shutdown_changed w) (ids_used w)
    (replies w) (now w).
Definition set_outlet v (w : World) : World :=
  Build_World (co w) (lanes w) v (snapshot w) (shutdown_slot w) (shutdown_changed w) (ids_used w)
    (replies w) (now w).
Definition set_snapshot v (w : World) : World :=
  Build_World (co w) (lanes w) (outlet w) v (shutdown_slot w) (shutdown_changed w) (ids_used w)
    (replies w) (now w).
Definition set_shutdown_slot v (w : World) : World :=
  Build_World (co w) (lanes w) (outlet w) (snapshot w) v (shutdown_changed w) (ids_used w)
    (replies w) (now w).
Definition set_shutdown_changed v (w : World) : World :=
  Build_World (co w) (lanes w) (outlet w) (snapshot w) (shutdown_slot w) v (ids_used w)
    (replies w) (now w).
Definition set_ids_used v (w : World) : World :=
  Build_World (co w) (lanes w) (outlet w) (snapshot w) (shutdown_slot w) (shutdown_changed w) v
    (replies w) (now w).
Definition set_replies v (w : World) : World :=
  Build_World (co w) (lanes w) (outlet w) (snapshot w) (shutdown_slot w) (shutdown_changed w)
    (ids_used w) v (now w).
Definition set_now v (w : World) : World :=
  Build_World (co w) (lanes w) (outlet w) (snapshot w) (shutdown_slot w) (shutdown_changed w)
    (ids_used w) (replies w) v.

(** ** The monad *)

Definition M (A : Type) : Type := World → World * option A.
Definition ret {A} (a : A) : M A := λ w, (w, Some a).
Definition bind {A B} (m : M A) (f : A → M B) : M B := λ w,
  match m w with
  | (w, Some a) => f a w
  | (w, None) => (w, None)
  end.
Definition panic {A} : M A := λ w, (w, None).
Definition get : M World := λ w, (w, Some w).
Definition modify (f : World → World) : M unit := λ w, (f w, Some tt).
(** A field of the actor, and a change of the actor. *)
Definition self {A} (f : Coordinator → A) : M A := λ w, (w, Some (f (co w))).
Definition update (f : Coordinator → Coordinator) : M unit := modify (λ w, set_co (f (co w)) w).
(** A call that may panic. *)
Definition try_call {A} (m : outcome Empty_set A) : M A :=
  match m with Ok a => ret a | _ => panic end.

Declare Scope coordinator_scope.
Notation "'let!' x ':=' c 'in' k" := (bind c (λ x, k))
  (at level 10, x pattern, c at level 100, k at level 200) : coordinator_scope.
Notation "c ;; k" := (bind c (λ _, k))
  (at level 100, k at level 200, right associativity) : coordinator_scope.
Open Scope coordinator_scope.

Definition when (b : bool) (m : M unit) : M unit := if b then m else ret tt.

Section handlers.
Context `{Build, driver.HashOrder, IdSource}.

(** ** Small parts *)

(** [fetch_add] of an [AtomicU64]. *)
Definition fetch_next_maintenance : M Z :=
  let! n := self next_maintenance in
  update (set_next_maintenance ((n + 1) mod 2 ^ 64)%Z) ;; ret n.

Definition next_diagnostic_id : M DiagnosticId :=
  let! n := self next_diagnostic in
  update (set_next_diagnostic ((n + 1) mod 2 ^ 64)%Z) ;; ret ("diag-" +:+ display n).

Definition default_shutdown_deadline : M Z := let! w := get in ret (now w + 5000)%Z.

Definition can_poll_driver (c : Coordinator) : bool :=
  negb (sink_closed c) && staging.can_accept_producer (reliable_staging c).

Definition can_reap_children (c : Coordinator) : bool :=
  sink_closed c || staging.can_accept_producer (reliable_staging c).

Definition driver_events_pending (c : Coordinator) : bool :=
  match driver_events c with Some rx => negb (is_nil (unread rx)) | None => false end.

Definition driver_events_len (c : Coordinator) : nat :=
  match driver_events c with Some rx => length (unread rx) | None => 0 end.

(** [rx.try_recv()]: an event, or [None] when there is none. *)
Definition try_recv_driver : M (option AgentEvent) :=
  let! rx := self driver_events in
  match rx with
  | Some {| unread := event :: rest; disconnected := d |} =>
      update (set_driver_events (Some {| unread := rest; disconnected := d |})) ;;
      ret (Some event)
  | _ => ret None
  end.

Definition availability (c : Coordinator) : AgentAvailability :=
  match maintenance c, active c with
  | Some m, _ => Compacting (maint_session_id m)
  | None, Some a => Busy (meta_operation_id a)
  | None, None => Idle
  end.

Definition active_deadline (c : Coordinator) : option Z :=
  active c ≫= λ a, operation.deadline (op (shared a)).

Definition current_operation_id (c : Coordinator) : option OperationId :=
  meta_operation_id <$> active c.

Definition has_sendable_transient (c : Coordinator) : bool :=
  negb (bool_decide (coalescer.len (transient_coalescer c) = 0)).

(** A change of the state shared with the active driver. *)
Definition with_shared (f : operation.OperationShared → operation.OperationShared)
    (a : ActiveMeta) : ActiveMeta :=
  {| meta_operation_id := meta_operation_id a; meta_turn_id := meta_turn_id a;
     meta_session_id := meta_session_id a;
     shared := {| op := f (op (shared a)); slots := slots (shared a) |};
     meta_phase := meta_phase a; started := started a;
     last_model_call_id := last_model_call_id a |}.
Definition with_slots (s : driver.DriverSlots) (a : ActiveMeta) : ActiveMeta :=
  {| meta_operation_id := meta_operation_id a; meta_turn_id := meta_turn_id a;
     meta_session_id := meta_session_id a; shared := {| op := op (shared a); slots := s |};
     meta_phase := meta_phase a; started := started a;
     last_model_call_id := last_model_call_id a |}.
Definition with_meta_phase (p : OperationPhase) (a : ActiveMeta) : ActiveMeta :=
  {| meta_operation_id := meta_operation_id a; meta_turn_id := meta_turn_id a;
     meta_session_id := meta_session_id a; shared := shared a; meta_phase := p;
     started := started a; last_model_call_id := last_model_call_id a |}.
Definition with_started (a : ActiveMeta) : ActiveMeta :=
  {| meta_operation_id := meta_operation_id a; meta_turn_id := meta_turn_id a;
     meta_session_id := meta_session_id a; shared := shared a; meta_phase := meta_phase a;
     started := true; last_model_call_id := last_model_call_id a |}.
Definition with_model_call (id : ModelCallId) (a : ActiveMeta) : ActiveMeta :=
  {| meta_operation_id := meta_operation_id a; meta_turn_id := meta_turn_id a;
     meta_session_id := meta_session_id a; shared := shared a; meta_phase := meta_phase a;
     started := started a; last_model_call_id := Some id |}.

Definition update_active (f : ActiveMeta → ActiveMeta) : M unit :=
  update (λ c, set_active (f <$> active c) c).

(** [has_committed_settlement] of shared.rs. *)
Definition has_committed_settlement (sh : operation.OperationShared) : bool :=
  operation.is_settled (operation.phase sh)
  && match operation.settlement_revision sh with Some (Committed _) => true | _ => false end.

Definition request_active_cancel (reason : CancelReason) : M unit :=
  update_active (with_shared (λ sh, operation.request_cancel sh reason)).

(** ** Snapshots *)

Definition snapshot_of (c : Coordinator) : RuntimeSnapshot :=
  {| snapshot_epoch := co_epoch c;
     snapshot_availability := availability c;
     snapshot_queued :=
       (λ q, {| queued_operation_id := q_operation_id q;
                queued_session_id := spec_session_id (q_spec q) |}) <$> queue c;
     snapshot_active :=
       (λ a, {| active_operation_id := meta_operation_id a; active_turn_id := meta_turn_id a;
                active_session_id := meta_session_id a;
                active_phase := operation.phase (op (shared a));
                active_started := started a |}) <$> active c;
     snapshot_maintenance :=
       (λ m, {| maintenance_id := maint_id m; maintenance_session_id := maint_session_id m |})
         <$> maintenance c;
     snapshot_shutdown := shutdown c;
     snapshot_last_settled := last_settled c;
     runtime_revision := co_revision c |}.

Definition publish_snapshot : M unit :=
  update (λ c, set_co_revision (saturating_add (co_revision c) 1) c) ;;
  modify (λ w, set_snapshot (snapshot_of (co w)) w).

(** ** Shutdown *)

Definition force_abort_children : M unit :=
  update (λ c, set_driver_join (abort <$> driver_join c) c) ;;
  update (λ c, set_maintenance_join (abort <$> maintenance_join c) c) ;;
  update (λ c, set_maintenance
    ((λ m, {| maint_id := maint_id m; maint_session_id := maint_session_id m;
              maint_cancel := true |}) <$> maintenance c) c) ;;
  request_active_cancel session.ReasonUser.

(** [reject_queue]: the ledger keeps the operations. *)
Definition reject_queue : M unit := update (set_queue []).

Definition begin_shutdown (mode : epoch.ShutdownMode) (deadline : Z) : M unit :=
  let! state := self shutdown in
  match state with
  | StateStopped => ret tt
  | _ =>
      update (λ c, set_shutdown_deadline
        (Some (match shutdown_deadline c with
               | Some current => Z.min current deadline
               | None => deadline
               end)) c) ;;
      match state, mode with
      | StateRunning, epoch.Drain => update (set_shutdown StateDraining) ;; reject_queue
      | StateRunning, epoch.Forced =>
          update (set_shutdown StateForced) ;; reject_queue ;; force_abort_children
      | StateDraining, epoch.Forced => update (set_shutdown StateForced) ;; force_abort_children
      | _, _ => ret tt
      end
  end.

Definition apply_shutdown_request : M unit :=
  let! w := get in
  match shutdown_slot w with
  | Some request => begin_shutdown (epoch.mode request) (epoch.request_deadline request)
  | None => ret tt
  end.

Definition should_finish_epoch (w : World) : bool :=
  match shutdown (co w) with
  | StateDraining | StateForced =>
      match shutdown_deadline (co w) with
      | Some deadline => bool_decide (deadline ≤ now w)%Z
      | None => false
      end
      || negb (session.is_some (active (co w))) && negb (session.is_some (maintenance (co w)))
         && is_nil (queue (co w))
  | _ => false
  end.

Definition on_event_sink_closed : M unit :=
  let! closed := self sink_closed in
  if closed then ret tt
  else
    update (set_sink_closed true) ;;
    update (λ c, set_reliable_staging (staging.clear (reliable_staging c)) c) ;;
    update (λ c, set_transient_coalescer (coalescer.clear (transient_coalescer c)) c) ;;
    let! state := self shutdown in
    match state with
    | StateRunning =>
        let! deadline := default_shutdown_deadline in begin_shutdown epoch.Forced deadline
    | _ => ret tt
    end.

(** ** Emission *)

(** [event_tx.try_send]; a closed outlet is reported before a full one. *)
Inductive TrySend : Type := SendOk | SendFull | SendClosed.

Definition outlet_full (o : Outlet) : bool :=
  bool_decide (outlet_cap o ≤ Z.of_nat (length (sent o)) - Z.of_nat (taken o))%Z.

Definition outlet_send (event : RuntimeEvent) (o : Outlet) : Outlet :=
  {| outlet_cap := outlet_cap o; sent := sent o ++ [event]; taken := taken o;
     outlet_closed := outlet_closed o |}.

Definition try_send (event : RuntimeEvent) : M TrySend :=
  let! w := get in
  if outlet_closed (outlet w) then ret SendClosed
  else if outlet_full (outlet w) then ret SendFull
  else modify (λ w, set_outlet (outlet_send event (outlet w)) w) ;; ret SendOk.

Definition pop_staging : M (option RuntimeEvent) :=
  let! s := self reliable_staging in
  let '(s, event) := staging.pop_front s in
  update (set_reliable_staging s) ;; ret event.

Definition push_front_staging (event : RuntimeEvent) : M unit :=
  let! s := self reliable_staging in
  let! s := try_call (staging.push_front s event) in
  update (set_reliable_staging s).

Definition publish_transient (event : RuntimeEvent) : M unit :=
  let! c := self id in
  let! t := try_call (coalescer.publish (transient_coalescer c) event (current_operation_id c)
                        (active c ≫= last_model_call_id)) in
  update (set_transient_coalescer t).

Definition take_sendable_transient : M (option RuntimeEvent) :=
  let! t := self transient_coalescer in
  let '(t, event) := coalescer.take_one t in
  update (set_transient_coalescer t) ;; ret event.

(** The front of the staging queue to the outlet: [None] when nothing is
    staged; what the outlet refuses goes back, a closed outlet is noted. *)
Definition send_staged : M (option TrySend) :=
  let! event := pop_staging in
  match event with
  | None => ret None
  | Some event =>
      let! sending := try_send event in
      match sending with
      | SendOk => ret tt
      | SendClosed => on_event_sink_closed
      | SendFull => push_front_staging event
      end ;;
      ret (Some sending)
  end.

(** The oldest transient to the outlet, in the same way. *)
Definition send_transient : M (option TrySend) :=
  let! event := take_sendable_transient in
  match event with
  | None => ret None
  | Some event =>
      let! sending := try_send event in
      match sending with
      | SendOk => ret tt
      | SendClosed => on_event_sink_closed
      | SendFull => publish_transient event
      end ;;
      ret (Some sending)
  end.

(** [send] as long as it sends something. *)
Fixpoint send_while (send : M (option TrySend)) (fuel : nat) : M unit :=
  match fuel with
  | 0 => ret tt
  | S fuel =>
      let! sending := send in
      match sending with Some SendOk => send_while send fuel | _ => ret tt end
  end.

(** The fuel is the staged events. *)
Definition flush_staging_best_effort : M unit :=
  let! c := self id in
  if sink_closed c then ret tt
  else send_while send_staged (length (staging.queue (reliable_staging c))).

(** The fuel is the held keys. *)
Definition flush_transients_best_effort : M unit :=
  let! c := self id in
  if sink_closed c || negb (is_nil (staging.queue (reliable_staging c))) then ret tt
  else send_while send_transient (length (coalescer.order (transient_coalescer c))).

Definition pop_outbound : M (option RuntimeEvent) :=
  let! event := pop_staging in
  match event with
  | Some event => ret (Some event)
  | None => take_sendable_transient
  end.

(** [stage_reliable]: a settlement leaves the ledger when it is staged. *)
Definition stage_reliable (event : RuntimeEvent) : M bool :=
  let! c := self id in
  if sink_closed c then ret false
  else
    match staging.push (reliable_staging c) event with
    | (s, Ok _) =>
        update (set_reliable_staging s) ;;
        match epoch.settled_operation_id event with
        | Some operation_id =>
            update (λ c, set_ledger (epoch.remove (ledger c) operation_id).1 c)
        | None => ret tt
        end ;;
        ret true
    | _ => ret false
    end.

Definition is_prefix_reliable (event : RuntimeEvent) : bool :=
  match event with
  | RtOperationAccepted _ _ _ | RtMaintenanceAccepted _ _ | RtMaintenanceStarted _ => true
  | RtAgent agent =>
      match agent with
      | EvOperationStarted _ | EvOperationQueued _ | EvPriorTurnSealed _
      | EvContextCompactionStarted | EvContextCompactionCompleted _
      | EvContextCompactionFailed _ | EvTurnStarted _ | EvModelCallStarted _
      | EvModelResponseStarted _ _ _ | EvToolExecutionStarted _ _ _ _ _ => true
      | _ => false
      end
  | _ => false
  end.

(** [emit]; the [debug_assert] is a panic of the checking profile. *)
Definition emit (event : RuntimeEvent) : M unit :=
  let! closed := self sink_closed in
  if closed then ret tt
  else if merging.is_mergeable event then publish_transient event
  else
    when (negb (is_prefix_reliable event))
      (flush_staging_best_effort ;; flush_transients_best_effort) ;;
    let! c := self id in
    if overflow_checks && bool_decide (staging.remaining (reliable_staging c) = 0) then panic
    else
      let! _ := stage_reliable event in ret tt.

Definition is_text_delta (event : AgentEvent) : bool :=
  match event with EvTextDelta _ | EvReasoningDelta _ _ => true | _ => false end.

Fixpoint emit_transient_agents (events : list AgentEvent) : M unit :=
  match events with
  | [] => ret tt
  | event :: events =>
      when (is_text_delta event) (flush_staging_best_effort ;; flush_transients_best_effort) ;;
      emit (RtAgent event) ;;
      emit_transient_agents events
  end.

(** [true] when there was nothing to send or it was sent. *)
Definition try_send_one_transient : M bool :=
  let! sending := send_transient in
  ret (match sending with None | Some SendOk => true | _ => false end).

Definition RELIABLE_BEFORE_TRANSIENT : nat := 4.

(** The loop of [flush_outbound]: [true] when it breaks, [false] when the
    method returns. A turn sends a staged event or follows four that did. *)
Fixpoint flush_outbound_loop (fuel reliable_since_transient : nat) : M bool :=
  match fuel with
  | 0 => ret true
  | S fuel =>
      let! c := self id in
      if bool_decide (RELIABLE_BEFORE_TRANSIENT ≤ reliable_since_transient)
         && has_sendable_transient c then
        let! ok := try_send_one_transient in
        if ok then flush_outbound_loop fuel 0 else ret false
      else
        let! sending := send_staged in
        match sending with
        | None => ret true
        | Some SendOk => flush_outbound_loop fuel (S reliable_since_transient)
        | Some _ => ret false
        end
  end.

(** [flush_outbound]; [TRANSIENT_SEND_QUOTA] is one. *)
Definition flush_outbound : M unit :=
  let! c := self id in
  if sink_closed c then ret tt
  else
    let! broke := flush_outbound_loop (2 * length (staging.queue (reliable_staging c)) + 1) 0 in
    if broke then let! _ := try_send_one_transient in ret tt else ret tt.

Definition emit_availability_if_changed : M unit :=
  let! c := self id in
  let queued := length (queue c) in
  if (availability c != last_availability c) || (queued != last_queued_len c) then
    update (set_last_availability (availability c)) ;;
    update (set_last_queued_len queued) ;;
    emit (RtAvailabilityChanged (availability c) queued)
  else ret tt.

(** ** The driver's events *)

Definition drain_all_transients : M (list AgentEvent) :=
  let! a := self active in
  match a with
  | None => ret []
  | Some a =>
      let '(s, phase, events) := driver.drain (slots (shared a)) in
      update_active (with_slots s) ;;
      match phase with Some p => update_active (with_meta_phase p) | None => ret tt end ;;
      ret events
  end.

(** [drain_model_stream] and [drain_tool_progress] of the active driver. *)
Definition drain_active (f : driver.DriverSlots → driver.DriverSlots * list AgentEvent)
    : M (list AgentEvent) :=
  let! a := self active in
  match a with
  | None => ret []
  | Some a =>
      let '(s, events) := f (slots (shared a)) in
      update_active (with_slots s) ;; ret events
  end.

Definition pull_caught_up_transients : M unit :=
  let! pending := self driver_events_pending in
  if pending then ret tt
  else let! events := drain_all_transients in emit_transient_agents events.

Definition release_transients_for (agent : AgentEvent) : M unit :=
  let! pending := self driver_events_pending in
  let! events :=
    if negb pending then drain_all_transients
    else
      match agent with
      | EvAssistantMessageCompleted _ _ | EvTurnFailed _ _ | EvTurnCancelled _ _
      | EvToolBatchRequested _ _ => drain_active driver.drain_model_stream
      | EvToolExecutionCompleted _ _ _ _ _ _ => drain_active driver.drain_tool_progress
      | EvOperationSettled _ _ _ _ | EvCancellationRequested _ _ => drain_all_transients
      | _ => ret []
      end in
  emit_transient_agents events.

Definition record_settled (operation_id : OperationId) (session_id : SessionId)
    (status : OperationStatus) (durability : SettlementDurability)
    (failure : option AgentFailure) : M unit :=
  update (λ c, set_last_settled
    (let l := last_settled c ++
       [{| last_operation_id := operation_id; last_session_id := session_id;
           last_status := status; last_durability := durability; last_failure := failure |}] in
     if bool_decide (32 < length l) then drop 1 l else l) c) ;;
  publish_snapshot.

Definition settle_operation (operation_id : OperationId) (session_id : SessionId)
    (status : OperationStatus) (durability : SettlementDurability)
    (session_revision : SettlementRevision) (failure : option AgentFailure) : M bool :=
  let! c := self id in
  if negb (session.is_some (epoch.ledger_session (ledger c) operation_id)) then ret false
  else
    let! staged :=
      stage_reliable (RtOperationSettled operation_id session_id status durability
                        session_revision) in
    if staged then
      record_settled operation_id session_id status durability failure ;; ret true
    else ret false.

Definition forward_driver_event (agent : AgentEvent) : M unit :=
  match agent with
  | EvOperationSettled operation_id status durability session_revision =>
      let! c := self id in
      let session_id :=
        match active c with
        | Some a => Some (meta_session_id a)
        | None => epoch.ledger_session (ledger c) operation_id
        end in
      match session_id with
      | None => panic
      | Some session_id =>
          let failure := active c ≫= λ a, operation.failure (op (shared a)) in
          release_transients_for agent ;;
          let! _ := settle_operation operation_id session_id status durability
                      session_revision failure in
          ret tt
      end
  | _ =>
      match agent with
      | EvModelCallStarted model_call_id => update_active (with_model_call model_call_id)
      | _ => ret tt
      end ;;
      release_transients_for agent ;;
      emit (RtAgent agent) ;;
      match agent with
      | EvOperationStarted _ => update_active with_started
      | _ => ret tt
      end
  end.

Definition on_driver_event (event : option AgentEvent) : M unit :=
  match event with
  | None => update (set_driver_events None)
  | Some event => forward_driver_event event
  end.

(** Forward pending events while [room]; the fuel is the pending events. *)
Fixpoint drain_while (room : Coordinator → bool) (fuel : nat) : M unit :=
  match fuel with
  | 0 => ret tt
  | S fuel =>
      let! ok := self room in
      if ok then
        let! event := try_recv_driver in
        match event with
        | Some event => forward_driver_event event ;; drain_while room fuel
        | None => ret tt
        end
      else ret tt
  end.

Definition drain_driver_events : M unit :=
  let! n := self driver_events_len in
  drain_while (λ c, staging.can_accept_producer (reliable_staging c)) n ;;
  let! ok := self can_poll_driver in
  when ok pull_caught_up_transients.

Definition discard_driver_events_if_idle : M unit :=
  let! pending := self driver_events_pending in
  if pending then ret tt
  else
    let! rx := self driver_events in
    match rx with
    | None => ret tt
    | Some {| unread := event :: _ |} =>
        let! _ := try_recv_driver in forward_driver_event event
    | Some {| unread := []; disconnected := false |} => ret tt
    | Some {| unread := []; disconnected := true |} => update (set_driver_events None)
    end.

Definition has_staging_room (c : Coordinator) : bool :=
  bool_decide (1 ≤ staging.remaining (reliable_staging c)).

Definition drain_driver_open_slots : M unit :=
  drain_driver_events ;;
  let! n := self driver_events_len in
  drain_while has_staging_room n ;;
  let! c := self id in
  when (negb (sink_closed c) && has_staging_room c) pull_caught_up_transients ;;
  discard_driver_events_if_idle.

Definition try_free_one_staging_slot : M bool :=
  let! room := self has_staging_room in
  if room then ret true else flush_staging_best_effort ;; self has_staging_room.

(** ** Operations *)

Definition spawn_driver (queued : QueuedOperation) : M unit :=
  let! diagnostic_id := next_diagnostic_id in
  let meta :=
    {| meta_operation_id := q_operation_id queued; meta_turn_id := q_turn_id queued;
       meta_session_id := spec_session_id (q_spec queued);
       shared := {| op := operation.shared_new (q_operation_id queued) (q_turn_id queued)
                            PreparingTurn;
                    slots := driver.new |};
       meta_phase := PreparingTurn; started := false; last_model_call_id := None |} in
  update (set_active (Some meta)) ;;
  update (set_driver_events (Some {| unread := []; disconnected := false |})) ;;
  update (set_driver_join
    (Some {| given := (queued, diagnostic_id); aborted := false; ended := None |})).

Definition spawn_maintenance (id : MaintenanceId) (spec : CompactionSpec) : M unit :=
  update (set_maintenance
    (Some {| maint_id := id; maint_session_id := compaction_session_id spec;
             maint_cancel := false |})) ;;
  update (set_maintenance_join
    (Some {| given := spec; aborted := false; ended := None |})).

Definition maybe_start_next : M unit :=
  let! c := self id in
  match shutdown c with
  | StateRunning =>
      if session.is_some (active c) || session.is_some (maintenance c) then ret tt
      else if session.is_some (driver_events c) || session.is_some (driver_join c) then ret tt
      else
        match queue c with
        | [] => ret tt
        | next :: rest => update (set_queue rest) ;; spawn_driver next
        end
  | _ => ret tt
  end.

(** [self.active.is_none() && self.maintenance.is_none() && self.queue.is_empty()]. *)
Definition is_idle (c : Coordinator) : bool :=
  negb (session.is_some (active c)) && negb (session.is_some (maintenance c))
  && is_nil (queue c).

Definition fresh_ids : M (OperationId * TurnId) :=
  let! w := get in
  modify (set_ids_used (S (ids_used w))) ;; ret (next_ids (ids_used w)).

Definition admit_operation (spec : OperationSpec) : M (AdmissionError + OperationAccepted) :=
  let! c := self id in
  let idle := is_idle c in
  if negb idle && bool_decide (queue_max (bounds c) ≤ Z.of_nat (length (queue c)))%Z then
    ret (inl AdmQueueFull)
  else
    let! issued := fresh_ids in
    let '(operation_id, turn_id) := issued in
    match epoch.insert (ledger c) operation_id turn_id (spec_session_id spec) with
    | (l, Ok _) =>
        update (set_ledger l) ;;
        emit (RtOperationAccepted operation_id (spec_session_id spec) turn_id) ;;
        let queued := {| q_operation_id := operation_id; q_turn_id := turn_id;
                         q_spec := spec |} in
        (if idle then spawn_driver queued
         else
           emit (RtAgent (EvOperationQueued operation_id)) ;;
           update (λ c, set_queue (queue c ++ [queued]) c)) ;;
        publish_snapshot ;;
        ret (inr {| accepted_operation_id := operation_id; accepted_turn_id := turn_id |})
    | _ => ret (inl AdmQueueFull)
    end.

Definition admit_compaction (spec : CompactionSpec) : M (MaintenanceError + MaintenanceId) :=
  let! c := self id in
  if negb (is_idle c) then ret (inl (MaintUnavailable (availability c)))
  else
    let! n := fetch_next_maintenance in
    let id := "maintenance-" +:+ display n in
    spawn_maintenance id spec ;;
    emit (RtMaintenanceAccepted id (compaction_session_id spec)) ;;
    emit (RtMaintenanceStarted id) ;;
    publish_snapshot ;;
    ret (inr id).

Definition cancel_operation (operation_id : OperationId) : M CancelResult :=
  let! c := self id in
  if any (λ settled, last_operation_id settled == operation_id) (last_settled c) then
    ret AlreadySettled
  else
    match position (λ queued, q_operation_id queued == operation_id) (queue c) with
    | Some index =>
        if negb (staging.can_accept_producer (reliable_staging c)) then ret CancelBackpressured
        else
          match queue c !! index with
          | None => panic
          | Some queued =>
              update (λ c, set_queue (delete index (queue c)) c) ;;
              emit (RtAgent (EvCancellationRequested operation_id session.ReasonUser)) ;;
              let! _ := settle_operation operation_id (spec_session_id (q_spec queued)) Cancelled
                          Confirmed Unchanged None in
              ret QueuedCancelled
          end
    | None =>
        match active c with
        | Some a =>
            if meta_operation_id a == operation_id then
              match operation.phase (op (shared a)) with
              | Finalizing | Settled _ => ret TooLate
              | _ => request_active_cancel session.ReasonUser ;; ret Requested
              end
            else ret UnknownOperation
        | None => ret UnknownOperation
        end
    end.

Definition cancel_maintenance (id : MaintenanceId) : M CancelResult :=
  let! m := self maintenance in
  match m with
  | Some m =>
      if maint_id m == id then
        update (set_maintenance (Some {| maint_id := maint_id m;
                                         maint_session_id := maint_session_id m;
                                         maint_cancel := true |})) ;;
        ret Requested
      else ret UnknownOperation
  | None => ret AlreadySettled
  end.

Definition outbound_stats (c : Coordinator) : OutboundStats :=
  {| reliable_staging_len := length (staging.queue (reliable_staging c));
     stats_staging_cap := staging.cap (reliable_staging c);
     transient_len := coalescer.len (transient_coalescer c);
     transient_cap := coalescer.cap (transient_coalescer c);
     sealed_model_stream_len :=
       match active c with Some a => driver.sealed_len (slots (shared a)) | None => 0 end;
     sealed_model_stream_cap := 3 |}.

Definition reply (r : Reply) (answer : Answer) : M unit :=
  modify (λ w, set_replies (replies w ++ [(r, answer)]) w).

Definition on_control (control : option ControlMessage) : M unit :=
  match control with
  | None =>
      let! deadline := default_shutdown_deadline in begin_shutdown epoch.Forced deadline
  | Some (Cancel operation_id r) =>
      let! result := cancel_operation operation_id in reply r (AnsCancel result)
  | Some (CancelMaintenance id r) =>
      let! result := cancel_maintenance id in reply r (AnsCancel result)
  | Some InjectCoordinatorPanic => panic
  | Some (PublishSnapshot r) =>
      publish_snapshot ;; let! w := get in reply r (AnsSnapshot (snapshot w))
  | Some (PublishOutboundStats r) => let! c := self id in reply r (AnsStats (outbound_stats c))
  end.

Definition on_command (command : option RuntimeCommand) : M unit :=
  let! c := self id in
  match shutdown c, command with
  | StateRunning, None =>
      let! deadline := default_shutdown_deadline in begin_shutdown epoch.Forced deadline
  | _, None => ret tt
  | StateRunning, Some (Submit spec r) =>
      if negb (can_poll_driver c) then reply r (AnsSubmit (inl AdmBackpressured))
      else let! result := admit_operation spec in reply r (AnsSubmit result)
  | StateRunning, Some (StartCompaction spec r) =>
      if negb (can_poll_driver c) then reply r (AnsCompaction (inl MaintBackpressured))
      else let! result := admit_compaction spec in reply r (AnsCompaction result)
  | _, Some (Submit _ r) => reply r (AnsSubmit (inl AdmShuttingDown))
  | _, Some (StartCompaction _ r) => reply r (AnsCompaction (inl MaintShuttingDown))
  end.

Definition on_operation_timeout : M unit := request_active_cancel session.ReasonTimeout.

(** What [on_driver_join] settles an exit as, and the fault it reports. *)
Definition settlement_of_exit (exit : DriverExit)
    : OperationStatus * SettlementDurability * option DiagnosticId :=
  match exit with
  | ExitSucceeded => (Succeeded, Confirmed, None)
  | ExitFailedConfirmed => (Failed, Confirmed, None)
  | ExitFailedUnconfirmed => (Failed, Unconfirmed, None)
  | ExitPanicked diagnostic_id | ExitAborted diagnostic_id =>
      (Failed, Unconfirmed, Some diagnostic_id)
  | ExitCancelledConfirmed => (Cancelled, Confirmed, None)
  end.

Definition driver_exit (join : JoinResult DriverExit) : M DriverExit :=
  match join with
  | JoinOk exit => ret exit
  | JoinPanicked => let! d := next_diagnostic_id in ret (ExitPanicked d)
  | JoinAborted => let! d := next_diagnostic_id in ret (ExitAborted d)
  end.

Definition on_driver_join (join : JoinResult DriverExit) : M unit :=
  let! _ := try_free_one_staging_slot in
  drain_driver_open_slots ;;
  let! exit := driver_exit join in
  let! a := self active in
  match a with
  | None => update (set_driver_join None) ;; discard_driver_events_if_idle
  | Some a =>
      update (set_active None) ;;
      update (set_driver_join None) ;;
      let! pending := self driver_events_pending in
      when (negb pending) (update (set_driver_events None)) ;;
      let! c := self id in
      if negb (session.is_some (epoch.ledger_session (ledger c) (meta_operation_id a))) then
        maybe_start_next
      else if has_committed_settlement (op (shared a)) then maybe_start_next
      else
        let '(status, durability, fault) := settlement_of_exit exit in
        let! published := settle_operation (meta_operation_id a) (meta_session_id a) status
                            durability Unchanged (operation.failure (op (shared a))) in
        match fault with
        | Some diagnostic_id =>
            when published
              (emit (RtRuntimeFault diagnostic_id
                       "operation driver ended without a confirmed settlement"))
        | None => ret tt
        end ;;
        maybe_start_next
  end.

(** The two matches of [on_maintenance_join]. *)
Definition maintenance_result (requested : bool)
    (join : JoinResult (CompactionError + CompactionReport)) : M MaintenanceResult :=
  let! result :=
    match join with
    | JoinOk (inr report) =>
        ret (if requested && bool_decide (report = NothingToCompact) then MaintCancelled
             else MaintCompacted report)
    | JoinOk (inl error) => ret (if requested then MaintCancelled else MaintFailed error)
    | JoinPanicked => let! d := next_diagnostic_id in ret (MaintPanicked d)
    | JoinAborted => ret MaintCancelled
    end in
  ret (match result with
       | MaintFailed _ => if requested then MaintCancelled else result
       | _ => result
       end).

Definition on_maintenance_join (join : JoinResult (CompactionError + CompactionReport))
    : M unit :=
  let! m := self maintenance in
  match m with
  | None => update (set_maintenance_join None)
  | Some m =>
      update (set_maintenance None) ;;
      update (set_maintenance_join None) ;;
      let! result := maintenance_result (maint_cancel m) join in
      emit (RtMaintenanceSettled (maint_id m) (maint_session_id m) result) ;;
      maybe_start_next
  end.

(** ** Lanes and children *)

Definition recv_control : M (option ControlMessage) :=
  let! w := get in
  match control_rx (lanes w) with
  | [] => ret None
  | control :: rest =>
      modify (set_lanes {| command_rx := command_rx (lanes w); control_rx := rest;
                           handles_gone := handles_gone (lanes w) |}) ;;
      ret (Some control)
  end.

Definition recv_command : M (option RuntimeCommand) :=
  let! w := get in
  match command_rx (lanes w) with
  | [] => ret None
  | command :: rest =>
      modify (set_lanes {| command_rx := rest; control_rx := control_rx (lanes w);
                           handles_gone := handles_gone (lanes w) |}) ;;
      ret (Some command)
  end.

Fixpoint drain_control (fuel : nat) : M unit :=
  match fuel with
  | 0 => ret tt
  | S fuel =>
      let! control := recv_control in
      match control with
      | Some control => on_control (Some control) ;; drain_control fuel
      | None => ret tt
      end
  end.

Fixpoint drain_command (fuel : nat) : M unit :=
  match fuel with
  | 0 => ret tt
  | S fuel =>
      let! command := recv_command in
      match command with
      | Some command => on_command (Some command) ;; drain_command fuel
      | None => ret tt
      end
  end.

(** [drain_pending_lanes]; the fuel is the messages in each lane. *)
Definition drain_pending_lanes : M unit :=
  let! w := get in
  drain_control (length (control_rx (lanes w))) ;;
  drain_command (length (command_rx (lanes w))).

Definition reap_finished_children : M bool :=
  let! join := self driver_join in
  let! driver_reaped :=
    match join ≫= ended with
    | Some result => update (set_driver_join None) ;; on_driver_join result ;; ret true
    | None => ret false
    end in
  let! join := self maintenance_join in
  match join ≫= ended with
  | Some result => update (set_maintenance_join None) ;; on_maintenance_join result ;; ret true
  | None => ret driver_reaped
  end.
End handlers.

End coordinator.
