(* ===== verification/CoordinatorSystem.v ===== *)
(** A running epoch (src/crates/philo-agent-runtime/src): the event loop of the
    coordinator (coordinator.rs), the start of a runtime (runtime.rs), the calls
    of a handle (handle.rs), and everything that runs beside the coordinator.

    Module [system] is a step relation. A step of the coordinator runs from one
    await point to the next; between two of them the driver, the maintenance
    task, the consumer of the outlet, the handles and the clock move in any
    order. The joins of the final phase take any time. *)

From S2P Require Import Prelude RustStr Kernel Session Tools Runtime.
From S2P Require Import Operation Outlets Epoch Coordinator.
Import runtime coordinator.

Module system.

(** What [turn] computes before it waits. *)
Record Locals : Type := {
  op_deadline : option Z;
  local_shutdown_deadline : option Z;
  poll_driver : bool;
  reap : bool;
  observe_sink : bool;
  wait_transients : bool;
  has_outbound : bool
}.

(** The branches of the [select!] of a turn, in their order. *)
Inductive Branch : Type :=
| BrSinkClosed | BrShutdown | BrControl | BrCommand | BrDriverEvent | BrDriverJoin
| BrMaintenanceJoin | BrPermit | BrTransients | BrOperationDeadline | BrShutdownDeadline.

(** Where the coordinator is: about to run, at the head of the loop, at the
    [select!], joining its children, at the head of the final loop, flushing
    with what it noted before, ended, or panicked. *)
Inductive Position : Type :=
| AtStart
| AtTop
| AtSelect (locals : Locals)
| Joining
| FinalLoop
| FinalFlush (driver_before staging_before : nat)
| Finished (exit : epoch.EpochExit)
| Panicked.

Record System : Type := { world : World; at_ : Position }.

Section system.
Context `{Build, driver.HashOrder, IdSource}.

(** ** runtime.rs and [Coordinator::spawn] *)

Definition empty_snapshot (epoch : RuntimeEpoch) : RuntimeSnapshot :=
  {| snapshot_epoch := epoch; snapshot_availability := Idle; snapshot_queued := [];
     snapshot_active := None; snapshot_maintenance := None; snapshot_shutdown := StateRunning;
     snapshot_last_settled := []; runtime_revision := 0 |}.

(** [EpochShared::new] gives the ledger and the staging queue. *)
Definition spawn (epoch : RuntimeEpoch) (bounds : ChannelBounds) : Coordinator :=
  {| co_epoch := epoch; coordinator.bounds := bounds; next_maintenance := 1;
     next_diagnostic := 1; active := None; driver_events := None; driver_join := None;
     queue := []; maintenance := None; maintenance_join := None; shutdown := StateRunning;
     shutdown_deadline := None;
     reliable_staging := staging.new (Z.to_nat (reliable_staging_cap bounds));
     transient_coalescer := coalescer.new (Z.to_nat (transient_coalescer_cap bounds));
     sink_closed := false; last_settled := []; last_availability := Idle; last_queued_len := 0;
     co_revision := 0;
     ledger := epoch.ledger_new (Z.to_nat (saturating_add (queue_max bounds) 1)) |}.

(** [AgentRuntime::start] on a Tokio runtime; [n] is [NEXT_EPOCH]. *)
Definition start (n : Z) (bounds : ChannelBounds) (instant : Z) : outcome StartError System :=
  let? bounds := validate bounds in
  let epoch := "epoch-" +:+ display n in
  Ok {| world :=
          {| co := spawn epoch bounds;
             lanes := {| command_rx := []; control_rx := []; handles_gone := false |};
             outlet := {| outlet_cap := event_cap bounds; sent := []; taken := 0;
                          outlet_closed := false |};
             snapshot := empty_snapshot epoch; shutdown_slot := None; shutdown_changed := false;
             ids_used := 0; replies := []; now := instant |};
        at_ := AtStart |}.

(** ** [turn] *)

(** The first half, up to the [select!]: [None] when it reaped a child and is
    over. *)
Definition turn_begin : M (option Locals) :=
  let! w := get in
  when (outlet_closed (outlet w)) on_event_sink_closed ;;
  let! c := self id in
  when (negb (session.is_some (driver_join c)) && session.is_some (driver_events c))
    (flush_staging_best_effort ;; drain_driver_open_slots) ;;
  let! ok := self can_poll_driver in
  when ok pull_caught_up_transients ;;
  flush_outbound ;;
  let! ok := self can_reap_children in
  let! reaped := (if ok then reap_finished_children else ret false) in
  if reaped then
    drain_pending_lanes ;;
    maybe_start_next ;;
    publish_snapshot ;;
    emit_availability_if_changed ;;
    flush_outbound ;;
    ret None
  else
    let! c := self id in
    ret (Some
      {| op_deadline := active_deadline c;
         local_shutdown_deadline := shutdown_deadline c;
         poll_driver := can_poll_driver c;
         reap := can_reap_children c;
         observe_sink := negb (sink_closed c);
         wait_transients := can_poll_driver c && negb (driver_events_pending c);
         has_outbound := negb (is_nil (staging.queue (reliable_staging c)))
                         || has_sendable_transient c |}).

Definition passed (deadline : option Z) (w : World) : bool :=
  match deadline with Some d => bool_decide (d ≤ now w)%Z | None => false end.

(** Whether a branch is ready. [changed()] reports an unseen request, and
    otherwise fails at once when every sender - every handle - is gone. *)
Definition ready (l : Locals) (w : World) (b : Branch) : bool :=
  let c := co w in
  match b with
  | BrSinkClosed => observe_sink l && outlet_closed (outlet w)
  | BrShutdown => shutdown_changed w || handles_gone (lanes w)
  | BrControl => negb (is_nil (control_rx (lanes w))) || handles_gone (lanes w)
  | BrCommand => negb (is_nil (command_rx (lanes w))) || handles_gone (lanes w)
  | BrDriverEvent =>
      poll_driver l &&
      match driver_events c with
      | Some rx => negb (is_nil (unread rx)) || disconnected rx
      | None => false
      end
  | BrDriverJoin => reap l && session.is_some (driver_join c ≫= ended)
  | BrMaintenanceJoin => reap l && session.is_some (maintenance_join c ≫= ended)
  | BrPermit => has_outbound l && (outlet_closed (outlet w) || negb (outlet_full (outlet w)))
  | BrTransients =>
      wait_transients l &&
      match active c with Some a => driver.has_data (slots (shared a)) | None => false end
  | BrOperationDeadline => passed (op_deadline l) w
  | BrShutdownDeadline => passed (local_shutdown_deadline l) w
  end.

(** The [select!] is biased: the first ready branch of the list. *)
Definition select (l : Locals) (w : World) : option Branch :=
  find_map (λ b, if ready l w b then Some b else None)
    [BrSinkClosed; BrShutdown; BrControl; BrCommand; BrDriverEvent; BrDriverJoin;
     BrMaintenanceJoin; BrPermit; BrTransients; BrOperationDeadline; BrShutdownDeadline].

Definition run_branch (b : Branch) : M unit :=
  let! w := get in
  match b with
  | BrSinkClosed => on_event_sink_closed
  | BrShutdown =>
      if shutdown_changed w then modify (set_shutdown_changed false) ;; apply_shutdown_request
      else ret tt
  | BrControl => let! control := recv_control in on_control control
  | BrCommand => let! command := recv_command in on_command command
  | BrDriverEvent => let! event := try_recv_driver in on_driver_event event
  | BrDriverJoin =>
      match driver_join (co w) ≫= ended with Some r => on_driver_join r | None => ret tt end
  | BrMaintenanceJoin =>
      match maintenance_join (co w) ≫= ended with
      | Some r => on_maintenance_join r
      | None => ret tt
      end
  | BrPermit =>
      if outlet_closed (outlet w) then ret tt
      else
        let! event := pop_outbound in
        match event with
        | Some event => modify (λ w, set_outlet (outlet_send event (outlet w)) w)
        | None => ret tt
        end
  | BrTransients => pull_caught_up_transients
  | BrOperationDeadline => on_operation_timeout
  | BrShutdownDeadline => ret tt
  end.

(** The rest of the driver's budget. *)
Definition poll_budget : M unit :=
  let! c := self id in
  when (can_poll_driver c)
    (drain_while can_poll_driver (Z.to_nat (driver_event_budget (bounds c) - 1)) ;;
     pull_caught_up_transients).

Definition turn_end (b : Branch) : M unit :=
  run_branch b ;;
  poll_budget ;;
  maybe_start_next ;;
  publish_snapshot ;;
  emit_availability_if_changed ;;
  flush_outbound.

(** ** [finish_epoch] *)

Definition finish_begin : M unit := force_abort_children ;; drain_driver_open_slots.

(** After the joins, whose handles are gone. *)
Definition finish_joined : M unit :=
  update (set_driver_join None) ;; update (set_maintenance_join None) ;;
  drain_driver_open_slots.

Definition final_deadline : M Z :=
  let! d := self shutdown_deadline in
  match d with Some d => ret d | None => default_shutdown_deadline end.

(** [!self.driver_events_pending() || Instant::now() >= deadline]. *)
Definition final_break : M bool :=
  let! deadline := final_deadline in
  let! w := get in
  ret (negb (driver_events_pending (co w)) || bool_decide (deadline ≤ now w)%Z).

(** After the loop. *)
Definition finish_end : M epoch.EpochExit :=
  let! c := self id in
  when (negb (driver_events_pending c)) (update (set_driver_events None)) ;;
  update (set_maintenance None) ;;
  update (set_active None) ;;
  update (set_queue []) ;;
  update (set_driver_events None) ;;
  ret {| epoch.exit_reason := if sink_closed c then EndEventSinkClosed else EndShutdown;
         epoch.exit_diagnostics := [];
         epoch.exit_maintenance :=
           (λ m, (maint_id m, maint_session_id m)) <$> maintenance c |}.

Definition finish : M Position := let! exit := finish_end in ret (Finished exit).

(** The head of the loop, up to the wait of [flush_reliable_until]. *)
Definition final_loop : M Position :=
  drain_driver_open_slots ;;
  let! stop := final_break in
  if stop then finish
  else
    let! c := self id in
    ret (FinalFlush (driver_events_len c) (length (staging.queue (reliable_staging c)))).

(** After [flush_reliable_until]. *)
Definition final_flushed (driver_before staging_before : nat) : M Position :=
  drain_driver_open_slots ;;
  let! stop := final_break in
  if stop then finish
  else
    let! c := self id in
    let flushed := bool_decide (length (staging.queue (reliable_staging c)) < staging_before) in
    let drained := bool_decide (driver_events_len c < driver_before) in
    if negb flushed && negb drained then finish else ret FinalLoop.

(** One turn of the loop of [flush_reliable_until]; [None] while it waits for a
    permit. *)
Definition final_flush (driver_before staging_before : nat) (w : World) : option (M Position) :=
  let c := co w in
  let deadline := match shutdown_deadline c with Some d => d | None => (now w + 5000)%Z end in
  if sink_closed c || is_nil (staging.queue (reliable_staging c))
     || bool_decide (deadline ≤ now w)%Z then
    Some (final_flushed driver_before staging_before)
  else if outlet_closed (outlet w) then
    Some (on_event_sink_closed ;; final_flushed driver_before staging_before)
  else if outlet_full (outlet w) then None
  else
    Some (let! event := pop_staging in
          match event with
          | Some event => modify (λ w, set_outlet (outlet_send event (outlet w)) w)
          | None => ret tt
          end ;;
          ret (FinalFlush driver_before staging_before)).

(** ** The coordinator's step *)

Definition go (m : M Position) (w : World) : System :=
  match m w with
  | (w, Some p) => {| world := w; at_ := p |}
  | (w, None) => {| world := w; at_ := Panicked |}
  end.

(** [run]: from one await point to the next; [None] when it waits or is over. *)
Definition advance (s : System) : option System :=
  let w := world s in
  match at_ s with
  | AtStart => Some (go (publish_snapshot ;; apply_shutdown_request ;; ret AtTop) w)
  | AtTop =>
      if should_finish_epoch w then Some (go (finish_begin ;; ret Joining) w)
      else
        Some (go (let! locals := turn_begin in
                  ret (match locals with Some l => AtSelect l | None => AtTop end)) w)
  | AtSelect l =>
      match select l w with
      | Some b => Some (go (turn_end b ;; ret AtTop) w)
      | None => None
      end
  | Joining => Some (go (finish_joined ;; ret FinalLoop) w)
  | FinalLoop => Some (go final_loop w)
  | FinalFlush d f => match final_flush d f w with Some m => Some (go m w) | None => None end
  | Finished _ | Panicked => None
  end.

(** ** handle.rs: the calls of a handle, up to the wait for the reply *)

Definition stopped (p : Position) : bool :=
  match p with Finished _ | Panicked => true | _ => false end.

(** [command_tx.try_send]. *)
Definition send_command (command : RuntimeCommand) (s : System)
    : System * option AdmissionError :=
  let w := world s in
  if stopped (at_ s) then (s, Some AdmRuntimeStopped)
  else if bool_decide (command_cap (bounds (co w)) ≤ Z.of_nat (length (command_rx (lanes w))))%Z
  then (s, Some AdmBackpressured)
  else
    ({| world := set_lanes {| command_rx := command_rx (lanes w) ++ [command];
                              control_rx := control_rx (lanes w);
                              handles_gone := handles_gone (lanes w) |} w;
        at_ := at_ s |}, None).

(** [control_tx.try_send]. *)
Definition send_control (control : ControlMessage) (s : System)
    : System * option CancelResult :=
  let w := world s in
  if stopped (at_ s) then (s, Some CancelRuntimeStopped)
  else if bool_decide (control_cap (bounds (co w)) ≤ Z.of_nat (length (control_rx (lanes w))))%Z
  then (s, Some CancelBackpressured)
  else
    ({| world := set_lanes {| command_rx := command_rx (lanes w);
                              control_rx := control_rx (lanes w) ++ [control];
                              handles_gone := handles_gone (lanes w) |} w;
        at_ := at_ s |}, None).

(** The request of [shutdown], once it passed its early returns. *)
Definition request_shutdown (request : epoch.ShutdownRequest) (s : System) : System :=
  let w := world s in
  {| world := set_shutdown_changed true
       (set_shutdown_slot (Some (epoch.merge_shutdown (shutdown_slot w) request)) w);
     at_ := at_ s |}.

(** ** The other tasks *)

(** The calls of the driver on the state it shares (operation/shared.rs). The
    publication of a reliable event is two calls, because it may wait for room
    in the channel in between. *)
Inductive driver_call : Type :=
| CallTransient (event : AgentEvent)
| CallRecord (event : AgentEvent)
| CallSend (event : AgentEvent)
| CallProgress (event : AgentEvent)
| CallPhase (phase : OperationPhase)
| CallSettle (out : OperationOutcome)
| CallArmDeadline (timeout : option Z)
| CallPollCancel.

(** The part of [publish] before the channel. *)
Definition record_event (sh : operation.OperationShared) (event : AgentEvent)
    : operation.OperationShared :=
  operation.with_transient
    match event with
    | EvOperationSettled _ _ _ r => operation.with_revision sh r
    | _ => sh
    end operation.SealModelStream.

(** A call: [None] when it waits for room in the channel, [Some Panic] when it
    panics. A send to a dropped receiver fails without notice. *)
Definition call_driver (call : driver_call) (w : World) (a : ActiveMeta)
    : option (outcome Empty_set (ActiveMeta * option DriverEvents)) :=
  let sh := op (shared a) in
  let rx := driver_events (co w) in
  let done sh := Some (Ok (with_shared (λ _, sh) a, rx)) in
  match call with
  | CallTransient event =>
      Some (let? s := driver.publish_agent (slots (shared a)) event in
            Ok (with_slots s (with_shared (λ sh, operation.publish sh event) a), rx))
  | CallRecord event =>
      Some (let? s := driver.seal_model_stream (slots (shared a)) in
            Ok (with_slots s (with_shared (λ sh, record_event sh event) a), rx))
  | CallSend event =>
      match rx with
      | Some q =>
          if bool_decide (event_cap (bounds (co w)) ≤ Z.of_nat (length (unread q)))%Z
          then None
          else Some (Ok (with_shared (λ sh, operation.with_event sh event) a,
                         Some {| unread := unread q ++ [event];
                                 disconnected := disconnected q |}))
      | None => done (operation.with_event sh event)
      end
  | CallProgress event =>
      Some (let? s := driver.publish_agent (slots (shared a)) event in
            Ok (with_slots s a, rx))
  | CallPhase p =>
      Some (Ok (with_slots (driver.publish_phase (slots (shared a)) p)
                  (with_shared (λ sh, operation.set_phase sh p) a), rx))
  | CallSettle out => done (operation.settle sh out).1
  | CallArmDeadline timeout => done (operation.arm_deadline sh timeout (now w))
  | CallPollCancel => done (operation.poll_cancel sh (now w))
  end.

Definition with_co (f : Coordinator → Coordinator) (s : System) : System :=
  {| world := set_co (f (co (world s))) (world s); at_ := at_ s |}.
Definition with_world (f : World → World) (s : System) : System :=
  {| world := f (world s); at_ := at_ s |}.

(** How a driver task ends: [drive] returned or panicked under
    [catch_unwind_async], or the task was aborted. *)
Definition driver_end (t : DriverTask) (r : JoinResult DriverExit) : Prop :=
  match r with
  | JoinOk (ExitPanicked d) => d = (given t).2
  | JoinAborted => aborted t = true
  | _ => True
  end.

Inductive step (s : System) : System → Prop :=
| step_coordinator s' : advance s = Some s' → step s s'
| step_driver call a a' rx :
    active (co (world s)) = Some a →
    (∀ t, driver_join (co (world s)) = Some t → ended t = None) →
    call_driver call (world s) a = Some (Ok (a', rx)) →
    step s (with_co (λ c, set_active (Some a') (set_driver_events rx c)) s)
| step_driver_end t r :
    driver_join (co (world s)) = Some t → ended t = None → driver_end t r →
    step s (with_co (set_driver_join
      (Some {| given := given t; aborted := aborted t; ended := Some r |})) s)
| step_disconnect q :
    driver_events (co (world s)) = Some q → active (co (world s)) = None →
    step s (with_co (set_driver_events
      (Some {| unread := unread q; disconnected := true |})) s)
| step_maintenance_end t r :
    maintenance_join (co (world s)) = Some t → ended t = None →
    (r = JoinAborted → aborted t = true) →
    step s (with_co (set_maintenance_join
      (Some {| given := given t; aborted := aborted t; ended := Some r |})) s)
| step_consume :
    taken (outlet (world s)) < length (sent (outlet (world s))) →
    step s (with_world (λ w, set_outlet
      {| outlet_cap := outlet_cap (outlet w); sent := sent (outlet w);
         taken := S (taken (outlet w)); outlet_closed := outlet_closed (outlet w) |} w) s)
| step_drop_outlet :
    step s (with_world (λ w, set_outlet
      {| outlet_cap := outlet_cap (outlet w); sent := sent (outlet w);
         taken := taken (outlet w); outlet_closed := true |} w) s)
| step_command command :
    handles_gone (lanes (world s)) = false → step s (send_command command s).1
| step_control control :
    handles_gone (lanes (world s)) = false → step s (send_control control s).1
| step_shutdown request :
    handles_gone (lanes (world s)) = false → step s (request_shutdown request s)
| step_drop_handles :
    step s (with_world (λ w, set_lanes
      {| command_rx := command_rx (lanes w); control_rx := control_rx (lanes w);
         handles_gone := true |} w) s)
| step_clock later :
    (now (world s) ≤ later)%Z → step s (with_world (set_now later) s).

(** The states of an epoch started with these bounds. *)
Inductive reachable (b : ChannelBounds) : System → Prop :=
| reach_start n instant s : start n b instant = Ok s → reachable b s
| reach_step s s' : reachable b s → step s s' → reachable b s'.

(** ** The end: [Drop for Coordinator] and the supervisor *)

(** What the dropped coordinator hands to the supervisor. *)
Definition dropped_maintenance (s : System) : option (MaintenanceId * SessionId) :=
  (λ m, (maint_id m, maint_session_id m)) <$> maintenance (co (world s)).

Definition coordinator_exit (p : Position) : option epoch.EpochExit :=
  match p with Finished exit => Some exit | _ => None end.

(** [supervise_epoch] on an ended coordinator. *)
Definition supervise (s : System) (join_faults : list string)
    (answers : list epoch.TerminalSend)
    : list RuntimeEvent * RuntimeSnapshot * outcome ShutdownError ShutdownReport :=
  let c := co (world s) in
  epoch.supervise_epoch (coordinator_exit (at_ s)) (dropped_maintenance s) join_faults
    (staging.queue (reliable_staging c)) (ledger c) (outlet_closed (outlet (world s))) answers
    (snapshot (world s)) (co_epoch c).
End system.

End system.
