(* ===== verification/CoordinatorProofs.v ===== *)
(** What every method of the coordinator keeps: the invariant of an epoch and
    how its state may evolve.

    Module [coordinator_proofs] proves both for each method, with one rule per
    construct of the monad; CoordinatorSafety.v states what follows for a
    running epoch. *)

From S2P Require Import Prelude RustStr Kernel Session SessionProofs Tools Runtime Operation.
From S2P Require Import Outlets OutletsProofs Epoch Coordinator CoordinatorSystem.
Import runtime coordinator epoch_proofs.

Module coordinator_proofs.

(** No id is handed out twice. *)
Class FreshIds `{IdSource} : Prop :=
  fresh_ids_inj i j : (next_ids i).1 = (next_ids j).1 → i = j.

#[export] Instance sequential_fresh : FreshIds (H := SequentialIdSource).
Proof. intros i j Hij. apply string_app_inj_l, display_nat_inj in Hij. lia. Qed.

(** ** The invariant *)

(** Everything reliable that left the coordinator or waits to leave. *)
Definition reliable (l : list RuntimeEvent) : list RuntimeEvent :=
  filter (λ e, merging.is_mergeable e = false) l.
Definition stream (w : World) : list RuntimeEvent :=
  reliable (sent (outlet w)) ++ staging.queue (reliable_staging (co w)).

Abbreviation settled_ids := (filter_map epoch.settled_operation_id).

Definition accepted_id (event : RuntimeEvent) : option OperationId :=
  match event with RtOperationAccepted id _ _ => Some id | _ => None end.
Abbreviation announced_ids := (filter_map accepted_id).

Definition accepted_reply (entry : Reply * Answer) : option OperationId :=
  match entry.2 with AnsSubmit (inr a) => Some (accepted_operation_id a) | _ => None end.
(** The operations whose submission was answered with an acceptance. *)
Definition accepted (w : World) : list OperationId := filter_map accepted_reply (replies w).

(** The active operation and the queued ones. *)
Definition running_ids (c : Coordinator) : list OperationId :=
  option_list (meta_operation_id <$> active c) ++ (q_operation_id <$> queue c).

(** A settlement comes after the announcement of its operation. *)
Definition announced_first (l : list RuntimeEvent) : Prop :=
  ∀ l1 event l2 id, l = l1 ++ event :: l2 → epoch.settled_operation_id event = Some id →
    id ∈ announced_ids l1.

Definition shutdown_rank (s : ShutdownState) : nat :=
  match s with StateRunning => 0 | StateDraining => 1 | StateForced => 2 | StateStopped => 3 end.

Section invariant.
Context `{Build, driver.HashOrder, IdSource, !FreshIds}.
Context (b : ChannelBounds).

Definition issued (n : nat) : list OperationId := (λ i, (next_ids i).1) <$> seq 0 n.

(** The operations an epoch answers for: unsettled ones, and those whose
    settlement left or waits to leave. *)
Definition known (w : World) (id : OperationId) : Prop :=
  id ∈ epoch.order (ledger (co w)) ∨ id ∈ settled_ids (stream w).

Record Inv (w : World) : Prop := {
  inv_bounds : bounds (co w) = b;
  inv_ledger : ledger_reachable (Z.to_nat (saturating_add (queue_max b) 1)) (ledger (co w));
  inv_once : NoDup (settled_ids (stream w));
  inv_unsettled : ∀ id, id ∈ epoch.order (ledger (co w)) → id ∉ settled_ids (stream w);
  inv_ledger_issued : ∀ id, id ∈ epoch.order (ledger (co w)) → id ∈ issued (ids_used w);
  inv_settled_issued : ∀ id, id ∈ settled_ids (stream w) → id ∈ issued (ids_used w);
  inv_fifo : running_ids (co w) `sublist_of` issued (ids_used w);
  inv_reported : sink_closed (co w) = false → ∀ id, id ∈ accepted w →
    known w id;
  inv_announced : sink_closed (co w) = false → ∀ id, id ∈ epoch.order (ledger (co w)) →
    id ∈ announced_ids (stream w);
  inv_order : announced_first (stream w);
  inv_staging : length (staging.queue (reliable_staging (co w)))
    ≤ staging.cap (reliable_staging (co w));
  inv_staging_cap : staging.cap (reliable_staging (co w)) = Z.to_nat (reliable_staging_cap b);
  inv_end : Forall (λ e, epoch.is_epoch_ended e = false) (stream w);
  inv_last : length (last_settled (co w)) ≤ 32;
  inv_queue : (Z.of_nat (length (queue (co w))) ≤ queue_max b)%Z;
  inv_exclusive : active (co w) = None ∨ maintenance (co w) = None;
  inv_staged : Forall (λ e, merging.is_mergeable e = false)
    (staging.queue (reliable_staging (co w)));
  inv_transients : ∀ k e, coalescer.slots (transient_coalescer (co w)) !! k = Some e →
    merging.is_mergeable e = true;
  inv_closed : sink_closed (co w) = true →
    outlet_closed (outlet w) = true ∧ staging.queue (reliable_staging (co w)) = []
}.

(** How a method may change the world: the outlet and the replies only grow,
    nothing reliable is dropped or reordered and no operation is forgotten
    before the sink closes, a closed sink stays closed, and the shutdown state
    only advances, on a request or when the sink closes. *)
Record evolves (w w' : World) : Prop := {
  ev_sent : sent (outlet w) `prefix_of` sent (outlet w');
  ev_stream : sink_closed (co w') = false → stream w `prefix_of` stream w';
  ev_known : sink_closed (co w') = false → ∀ id, known w id → known w' id;
  ev_closed : sink_closed (co w) = true → sink_closed (co w') = true;
  ev_outlet : outlet_closed (outlet w') = outlet_closed (outlet w);
  ev_ids : ids_used w ≤ ids_used w';
  ev_replies : replies w `prefix_of` replies w';
  ev_shutdown : shutdown_rank (shutdown (co w)) ≤ shutdown_rank (shutdown (co w'));
  ev_slot : shutdown_slot w' = shutdown_slot w;
  ev_handles : handles_gone (lanes w') = handles_gone (lanes w);
  ev_cause : sink_closed (co w') = false → shutdown_slot w = None →
    shutdown (co w') = shutdown (co w)
}.

#[export] Instance evolves_preorder : PreOrder evolves.
Proof.
  split.
  - intros w. by split.
  - intros w1 w2 w3 [] []. split; auto; try (by etrans); try congruence; try lia.
    all: destruct (sink_closed (co w2)) eqn:Hc2; [by rewrite ev_closed1|].
    + intros Hc. etrans; by auto.
    + auto.
    + intros Hc Hs. etrans; [apply ev_cause1; by rewrite ?ev_slot0|by auto].
Qed.

(** What a method does from a state of the invariant. *)
Definition good_at {A} (w : World) (m : M A) : Prop :=
  Inv w → Inv (m w).1 ∧ evolves w (m w).1.
Definition good {A} (m : M A) : Prop := ∀ w, good_at w m.

Lemma good_ret {A} (a : A) : good (ret a).
Proof. by split. Qed.
Lemma good_panic {A} : good (panic (A := A)).
Proof. by split. Qed.

Lemma bind_Some {A B} (m : M A) (f : A → M B) w x :
  (bind m f w).2 = Some x → ∃ a, (m w).2 = Some a ∧ (f a (m w).1).2 = Some x.
Proof. unfold bind. destruct (m w) as [w1 [a|]]; [by eauto|done]. Qed.

Lemma good_at_bind {A B} w (m : M A) (f : A → M B) :
  good_at w m → (∀ a, (m w).2 = Some a → good_at (m w).1 (f a)) → good_at w (bind m f).
Proof.
  intros Hm Hf HI. destruct (Hm HI) as [HI1 He1]. unfold bind.
  destruct (m w) as [w1 [a|]] eqn:Hw; simpl in *; [|done].
  destruct (Hf a eq_refl HI1). split; [done|by etrans].
Qed.

Lemma good_bind {A B} (m : M A) (f : A → M B) :
  good m → (∀ a, good (f a)) → good (bind m f).
Proof. intros Hm Hf w. apply good_at_bind; [apply Hm|intros a _; apply Hf]. Qed.

Lemma good_self {A B} (g : Coordinator → A) (f : A → M B) w :
  good_at w (f (g (co w))) → good_at w (let! x := self g in f x).
Proof. done. Qed.
Lemma good_get {B} (f : World → M B) w : good_at w (f w) → good_at w (let! x := get in f x).
Proof. done. Qed.
Lemma good_at_inv {A} w (m : M A) : (Inv w → good_at w m) → good_at w m.
Proof. intros Hm HI. by apply Hm. Qed.
Lemma good_when (t : bool) m : good m → good (when t m).
Proof. by destruct t. Qed.
Lemma good_try_call {A} (m : outcome Empty_set A) : good (try_call m).
Proof. by destruct m. Qed.

(** A change of the actor that leaves the ledger, the staging queue and the
    sink alone, starts nothing and does not go back. *)
Record quiet (c c' : Coordinator) : Prop := {
  quiet_bounds : bounds c' = bounds c;
  quiet_ledger : ledger c' = ledger c;
  quiet_staging : reliable_staging c' = reliable_staging c;
  quiet_transients : (∀ k e, coalescer.slots (transient_coalescer c) !! k = Some e →
      merging.is_mergeable e = true) →
    ∀ k e, coalescer.slots (transient_coalescer c') !! k = Some e →
      merging.is_mergeable e = true;
  quiet_closed : sink_closed c' = sink_closed c;
  quiet_running : running_ids c' `sublist_of` running_ids c;
  quiet_queue : length (queue c') ≤ length (queue c);
  quiet_last : length (last_settled c) ≤ 32 → length (last_settled c') ≤ 32;
  quiet_exclusive : active c = None ∨ maintenance c = None →
    active c' = None ∨ maintenance c' = None;
  quiet_shutdown : shutdown c' = shutdown c
}.

Lemma good_update w f : quiet (co w) (f (co w)) → good_at w (update f).
Proof.
  intros [] []. unfold update, modify. simpl.
  assert (stream (set_co (f (co w)) w) = stream w) as Hs.
  { unfold stream. simpl. by rewrite quiet_staging0. }
  split; split; unfold known in *; simpl; rewrite ?Hs, ?quiet_bounds0, ?quiet_ledger0, ?quiet_staging0,
    ?quiet_closed0, ?quiet_shutdown0; auto; try done; try lia.
  all: solve [by etrans|eauto].
Qed.

(** ** Rules *)

Lemma quiet_refl c : quiet c c.
Proof. by split. Qed.

(** A change of the world beside the actor, the outlet, the ids and the
    replies. *)
Lemma good_modify w (f : World → World) :
  co (f w) = co w → outlet (f w) = outlet w → ids_used (f w) = ids_used w →
  replies (f w) = replies w → shutdown_slot (f w) = shutdown_slot w →
  handles_gone (lanes (f w)) = handles_gone (lanes w) → good_at w (modify f).
Proof.
  intros Hco Ho Hi Hr Hsl Hh []. unfold modify. simpl.
  assert (stream (f w) = stream w) as Hs by (unfold stream; congruence).
  assert (accepted (f w) = accepted w) as Ha by (unfold accepted; congruence).
  split; split; unfold known in *; simpl; rewrite ?Hs, ?Ha, ?Hco, ?Ho, ?Hi, ?Hr; auto.
Qed.

Lemma running_ids_update f c :
  (∀ a, meta_operation_id (f a) = meta_operation_id a) →
  running_ids (set_active (f <$> active c) c) = running_ids c.
Proof. intros Hf. unfold running_ids. simpl. destruct (active c) as [a|]; simpl; by rewrite ?Hf. Qed.

Lemma good_update_active f :
  (∀ a, meta_operation_id (f a) = meta_operation_id a) → good (update_active f).
Proof.
  intros Hf w. apply good_update. split; simpl; auto.
  - by rewrite running_ids_update.
  - destruct (active (co w)); naive_solver.
Qed.

Lemma good_apply {A} w (m : M A) : good m → good_at w m.
Proof. intros Hm. apply Hm. Qed.

Ltac quiet :=
  split; simpl; auto;
  try (unfold running_ids; simpl; apply sublist_app; [done|]);
  try apply sublist_nil_l;
  repeat match goal with E : shutdown _ = _ |- _ => rewrite E end; simpl; try lia;
  try (intros [->| ->]; simpl; by auto); try naive_solver.

Ltac good_case :=
  match goal with
  | |- good_at _ (match ?x with _ => _ end) => destruct x eqn:?
  | |- good_at _ (let '(_, _) := ?x in _) => destruct x eqn:?
  end.

Ltac good_step :=
  lazymatch goal with
  | |- good _ => intros ?w
  | |- good_at _ (bind (self _) _) => apply good_self
  | |- good_at _ (bind get _) => apply good_get
  | |- good_at _ (bind _ _) => apply good_at_bind; [|intros ? _]
  | |- good_at _ (ret _) => apply good_ret
  | |- good_at _ panic => apply good_panic
  | |- good_at _ (try_call _) => apply good_try_call
  | |- good_at _ (when _ _) => apply good_when
  | |- good_at _ (update_active _) => apply good_update_active; done
  | |- good_at _ (update _) => apply good_update; quiet
  | |- _ => first [solve [auto] | solve [apply good_apply; eauto 2 with good] | good_case]
  end.
Ltac good := repeat good_step.

Lemma good_next_diagnostic_id : good next_diagnostic_id.
Proof. unfold next_diagnostic_id. good. Qed.
Lemma good_fetch_next_maintenance : good fetch_next_maintenance.
Proof. unfold fetch_next_maintenance. good. Qed.
Lemma good_deadline : good default_shutdown_deadline.
Proof. unfold default_shutdown_deadline. good. Qed.
Lemma good_try_recv_driver : good try_recv_driver.
Proof. unfold try_recv_driver. good. Qed.

Lemma good_publish_snapshot : good publish_snapshot.
Proof. unfold publish_snapshot. good. by apply good_modify. Qed.

Lemma good_force_abort : good force_abort_children.
Proof. unfold force_abort_children, request_active_cancel. good. Qed.

#[local] Hint Resolve good_next_diagnostic_id good_fetch_next_maintenance good_deadline
  good_try_recv_driver good_publish_snapshot good_force_abort : good.

(** The shutdown state moves on a request or with the sink closed. *)
Definition may_shut_down (w : World) : Prop :=
  shutdown_slot w ≠ None ∨ sink_closed (co w) = true.

Lemma good_set_shutdown w st :
  may_shut_down w → shutdown_rank (shutdown (co w)) ≤ shutdown_rank st →
  good_at w (update (set_shutdown st)).
Proof.
  intros Hmay Hrank []. unfold update, modify. simpl.
  split; split; unfold known in *; simpl; auto.
  destruct Hmay as [?|Hc]; [done|]. by rewrite Hc.
Qed.

Lemma good_begin_shutdown w mode deadline :
  may_shut_down w → good_at w (begin_shutdown mode deadline).
Proof.
  intros Hmay. unfold begin_shutdown, reject_queue. apply good_self.
  destruct (shutdown (co w)) eqn:Hs, mode; try apply good_ret;
    (apply good_at_bind; [apply good_update; quiet|]); intros ? _; try (by good);
    (apply good_at_bind; [apply good_set_shutdown; [done|]; simpl; rewrite Hs; simpl; lia|]);
    intros ? _; good.
Qed.

(** ** The sink *)

Lemma good_sink_closed w : outlet_closed (outlet w) = true → good_at w on_event_sink_closed.
Proof.
  intros Ho. unfold on_event_sink_closed. apply good_self.
  destruct (sink_closed (co w)) eqn:Hc; [apply good_ret|].
  set (w1 := (update (λ c, set_transient_coalescer (coalescer.clear (transient_coalescer c))
      (set_reliable_staging (staging.clear (reliable_staging c)) (set_sink_closed true c))) w).1).
  assert (Inv w → Inv w1 ∧ evolves w w1) as Hw1.
  { intros []. unfold w1. assert (stream w = reliable (sent (outlet w)) ++ _) as Hs by done.
    rewrite Hs in *. rewrite ?filter_map_app in *. split; split; unfold known in *; simpl; auto; try done; try lia.
    all: unfold stream; simpl; rewrite ?app_nil_r, ?filter_map_app; auto.
    - by apply NoDup_app in inv_once0 as [? _].
    - intros id Hin Hs'. apply (inv_unsettled0 id Hin). set_solver.
    - set_solver.
    - intros l1 e l2 id Heq. apply (inv_order0 l1 e (l2 ++ staging.queue (reliable_staging (co w)))).
      by rewrite Heq, <- app_assoc.
    - by apply Forall_app in inv_end0 as [? _]. }
  intros HI. destruct (Hw1 HI) as [HI1 He1].
  set (rest := let! state := self shutdown in
    match state with
    | StateRunning =>
        let! deadline := default_shutdown_deadline in begin_shutdown epoch.Forced deadline
    | _ => ret tt
    end).
  change (Inv (rest w1).1 ∧ evolves w (rest w1).1).
  assert (good_at w1 rest) as Hrest.
  { unfold rest. apply good_self. destruct (shutdown (co w1)); try apply good_ret.
    apply good_at_bind; [apply good_deadline|]. intros d _. apply good_begin_shutdown. by right. }
  destruct (Hrest HI1). split; [done|by etrans].
Qed.

Lemma set_staging_same w :
  set_co (set_reliable_staging (reliable_staging (co w)) (co w)) w = w.
Proof. by destruct w as [[]]. Qed.

Lemma sink_closed_pop w q :
  sink_closed (co w) = false →
  on_event_sink_closed (set_co (set_reliable_staging
    {| staging.cap := staging.cap (reliable_staging (co w)); staging.queue := q |} (co w)) w)
  = on_event_sink_closed w.
Proof. intros Hc. unfold on_event_sink_closed, bind, self. simpl. by rewrite Hc. Qed.

(** The outlet takes the next staged event. *)
Definition sent_front (event : RuntimeEvent) (q : list RuntimeEvent) (w : World) : World :=
  set_outlet (outlet_send event (outlet w)) (set_co (set_reliable_staging
    {| staging.cap := staging.cap (reliable_staging (co w)); staging.queue := q |} (co w)) w).

Lemma good_sent_front w event q :
  staging.queue (reliable_staging (co w)) = event :: q →
  Inv w → Inv (sent_front event q w) ∧ evolves w (sent_front event q w).
Proof.
  intros Hq [].
  pose proof inv_staged0 as Hst. rewrite Hq in Hst. apply Forall_cons in Hst as [Hev Hst].
  assert (stream (sent_front event q w) = stream w) as Hs.
  { unfold stream, sent_front. simpl. rewrite Hq. unfold reliable.
    rewrite filter_app, filter_cons_True by done. simpl. by rewrite <- app_assoc. }
  split; split; unfold known in *; rewrite ?Hs; simpl; auto; rewrite ?Hq in *; simpl in *; auto; try lia.
  - intros Hc. by destruct (inv_closed0 Hc).
  - by eexists.
Qed.

Lemma good_send_staged : good send_staged.
Proof.
  intros w. unfold send_staged, pop_staging, staging.pop_front.
  destruct (staging.queue (reliable_staging (co w))) as [|event q] eqn:Hq.
  - intros HI. unfold bind, self. rewrite Hq. simpl. unfold update, modify. simpl.
    rewrite set_staging_same. by split.
  - intros HI. unfold bind, self. rewrite Hq. simpl.
    assert (sink_closed (co w) = false) as Hc.
    { destruct (sink_closed (co w)) eqn:Hc; [|done].
      destruct (inv_closed w HI Hc) as [_ Hn]. by rewrite Hq in Hn. }
    unfold update, modify, try_send, get, bind. simpl.
    destruct (outlet_closed (outlet w)) eqn:Ho; simpl.
    { rewrite (sink_closed_pop w q Hc). destruct (good_sink_closed w Ho HI) as [HI1 He1].
      by destruct (on_event_sink_closed w) as [w1 [[]|]]. }
    destruct (outlet_full (outlet w)); simpl.
    { unfold push_front_staging, bind, self, try_call, staging.push_front. simpl.
      pose proof (inv_staging w HI) as Hlen. rewrite Hq in Hlen. simpl in Hlen.
      rewrite bool_decide_eq_false_2 by lia. rewrite andb_false_r. simpl.
      unfold update, modify. simpl.
      assert ({| staging.cap := staging.cap (reliable_staging (co w)); staging.queue := event :: q |}
        = reliable_staging (co w)) as Hsame.
      { destruct (reliable_staging (co w)); simpl in *. by rewrite Hq. }
      rewrite Hsame. match goal with |- Inv ?w' ∧ _ => assert (w' = w) as -> end; [|by split].
      by destruct w as [[]]. }
    apply (good_sent_front w event q Hq HI).
Qed.

(** ** Transients *)

Lemma merge_mergeable held event merged :
  merging.is_mergeable event = true → merging.merge_events held event = Ok merged →
  merging.is_mergeable (default event merged) = true.
Proof.
  intros He. destruct held as [| |[]| | | | | | | |], event as [| |[]| | | | | | | |]; simpl in *; try done;
    repeat case_bool_decide; intros Hm; rust_inv Hm; try done; by simplify_eq.
Qed.

Lemma keyed_mergeable event o m key :
  coalescer.transient_key event o m = Some key → merging.is_mergeable event = true.
Proof. by destruct event as [| |[]| | | | | | | |]. Qed.

Lemma good_publish_transient event : good (publish_transient event).
Proof.
  intros w. unfold publish_transient. good_step.
  destruct (coalescer.publish _ _ _ _) as [t| |] eqn:Hp; [|by split..].
  apply good_update. split; simpl; auto. intros Ht k e.
  unfold coalescer.publish in Hp. destruct (_ && _); [done|].
  destruct (coalescer.transient_key event _ _) as [key|] eqn:Hkey; [|by simplify_eq; apply Ht].
  apply keyed_mergeable in Hkey.
  destruct (coalescer.slots _ !! key) as [held|] eqn:Hheld.
  - apply bind_Ok in Hp as (merged&Hm&[= <-]). simpl.
    intros [[<- <-]|[_ Hk]]%lookup_insert_Some; [by eapply merge_mergeable|by eapply Ht].
  - destruct (if bool_decide _ then _ else _) as [slots order] eqn:Hso.
    injection Hp as <-. simpl. intros [[<- <-]|[_ Hk]]%lookup_insert_Some; [done|].
    case_bool_decide; [destruct (coalescer.order _)|]; simplify_eq; try by eapply Ht.
    apply lookup_delete_Some in Hk as [_ Hk]. by eapply Ht.
Qed.

(** The outlet takes an event. *)
Lemma good_outlet_send w event :
  merging.is_mergeable event = true →
  good_at w (modify (λ w, set_outlet (outlet_send event (outlet w)) w)).
Proof.
  intros He []. unfold modify. simpl.
  assert (stream (set_outlet (outlet_send event (outlet w)) w) = stream w) as Hs.
  { unfold stream. simpl. unfold reliable. rewrite filter_app, filter_cons_False by by rewrite He.
    by rewrite app_nil_r. }
  split; split; unfold known in *; rewrite ?Hs; simpl; auto. by eexists.
Qed.

Lemma good_try_send {B} w event (f : TrySend → M B) :
  merging.is_mergeable event = true →
  (outlet_closed (outlet w) = true → good_at w (f SendClosed)) → good (f SendFull) →
  good (f SendOk) → good_at w (let! sending := try_send event in f sending).
Proof.
  intros He Hclosed Hfull Hok. unfold good_at, try_send, bind, get; simpl.
  destruct (outlet_closed (outlet w)); [by apply Hclosed|].
  destruct (outlet_full (outlet w)); [by apply Hfull|].
  apply (good_at_bind w (modify _) (λ _, f SendOk)); [by apply good_outlet_send|].
  intros ? _. apply Hok.
Qed.

Lemma take_one_mergeable t t' event :
  (∀ k e, coalescer.slots t !! k = Some e → merging.is_mergeable e = true) →
  coalescer.take_one t = (t', Some event) → merging.is_mergeable event = true.
Proof.
  intros Ht. unfold coalescer.take_one. destruct (coalescer.order t); [done|].
  intros [= _ Hk]. by eapply Ht.
Qed.

Lemma take_one_quiet c : quiet c (set_transient_coalescer
  (coalescer.take_one (transient_coalescer c)).1 c).
Proof.
  split; simpl; auto. intros Ht k e. unfold coalescer.take_one.
  destruct (coalescer.order _); simpl; [by apply Ht|].
  intros [_ Hk]%lookup_delete_Some. by eapply Ht.
Qed.

Lemma good_take_transient {B} w (f : option RuntimeEvent → M B) :
  good (f None) → (∀ event, merging.is_mergeable event = true → good (f (Some event))) →
  good_at w (let! event := take_sendable_transient in f event).
Proof.
  intros Hnone Hsome HI. unfold take_sendable_transient, bind, self. simpl.
  pose proof (take_one_quiet (co w)) as Hq.
  destruct (coalescer.take_one (transient_coalescer (co w))) as [t event] eqn:Ht.
  destruct (good_update w (set_transient_coalescer t) Hq HI) as [HI1 He1].
  assert (good (f event)) as Hf.
  { destruct event; [|done]. eapply Hsome, take_one_mergeable; [|done]. apply (inv_transients w HI). }
  destruct (Hf _ HI1) as [HI2 He2]. split; [exact HI2|etrans; [exact He1|exact He2]].
Qed.

Lemma good_send_transient : good send_transient.
Proof.
  intros w. unfold send_transient. apply good_take_transient; [apply good_ret|].
  intros event He w'. apply good_try_send; [done|intros Ho|intros w2..];
    (apply good_at_bind; [|intros ? _; apply good_ret]).
  - by apply good_sink_closed.
  - apply good_publish_transient.
  - apply good_ret.
Qed.

#[local] Hint Resolve good_send_staged good_send_transient good_publish_transient : good.

Lemma good_send_while send fuel : good send → good (send_while send fuel).
Proof. intros Hs. induction fuel as [|fuel IH]; simpl; good; apply Hs. Qed.
#[local] Hint Resolve good_send_while : good.

Lemma good_flush_staging : good flush_staging_best_effort.
Proof. unfold flush_staging_best_effort. good. Qed.
Lemma good_flush_transients : good flush_transients_best_effort.
Proof. unfold flush_transients_best_effort. good. Qed.
#[local] Hint Resolve good_flush_staging good_flush_transients : good.

Lemma good_try_send_one : good try_send_one_transient.
Proof. unfold try_send_one_transient. good. Qed.
#[local] Hint Resolve good_try_send_one : good.

Lemma good_flush_outbound_loop fuel n : good (flush_outbound_loop fuel n).
Proof. revert n. induction fuel as [|fuel IH]; intros n; simpl; good. Qed.
#[local] Hint Resolve good_flush_outbound_loop : good.

Lemma good_flush_outbound : good flush_outbound.
Proof. unfold flush_outbound. good. Qed.
#[local] Hint Resolve good_flush_outbound : good.

(** ** Staging *)

Lemma announced_first_snoc l event :
  announced_first l →
  (∀ id, epoch.settled_operation_id event = Some id → id ∈ announced_ids l) →
  announced_first (l ++ [event]).
Proof.
  intros Hl Hev l1 e l2 id Heq Hid. destruct l2 as [|e2 l2 _] using rev_ind.
  - apply app_inj_tail in Heq as [-> ->]. by apply Hev.
  - assert (l = l1 ++ e :: l2) as ->; [|by eapply Hl].
    rewrite app_comm_cons, app_assoc in Heq. by apply app_inj_tail in Heq as [-> _].
Qed.

Lemma ledger_at w : Inv w → ledger_wf (ledger (co w)).
Proof. intros HI. by destruct (ledger_reachable_wf _ _ (inv_ledger w HI)). Qed.

Lemma ledger_session_Some w id :
  Inv w → is_Some (epoch.ledger_session (ledger (co w)) id) ↔ id ∈ epoch.order (ledger (co w)).
Proof.
  intros HI. rewrite <- (ledger_dom _ (ledger_at w HI)). unfold epoch.ledger_session.
  by rewrite fmap_is_Some.
Qed.

Lemma remove_order w id id' :
  Inv w →
  id' ∈ epoch.order (epoch.remove (ledger (co w)) id).1 ↔
  id' ∈ epoch.order (ledger (co w)) ∧ id' ≠ id.
Proof.
  intros HI. pose proof (ledger_at w HI) as Hwf.
  rewrite <- (ledger_dom _ (remove_wf _ id Hwf)), <- (ledger_dom _ Hwf). simpl.
  rewrite lookup_delete_is_Some. naive_solver.
Qed.

(** The world after [event] was staged. *)
Definition staged (event : RuntimeEvent) (w : World) : World :=
  set_co (set_reliable_staging
    {| staging.cap := staging.cap (reliable_staging (co w));
       staging.queue := staging.queue (reliable_staging (co w)) ++ [event] |} (co w)) w.

Lemma staged_stream event w : stream (staged event w) = stream w ++ [event].
Proof. unfold stream, staged. simpl. by rewrite app_assoc. Qed.

Definition may_stage (w : World) (event : RuntimeEvent) : Prop :=
  merging.is_mergeable event = false ∧ epoch.is_epoch_ended event = false ∧
  sink_closed (co w) = false ∧
  length (staging.queue (reliable_staging (co w))) < staging.cap (reliable_staging (co w)).

Lemma good_staged w event :
  may_stage w event → epoch.settled_operation_id event = None →
  Inv w → Inv (staged event w) ∧ evolves w (staged event w).
Proof.
  intros (Hm&He&Hc&Hl) Hs [].
  assert (settled_ids (stream (staged event w)) = settled_ids (stream w)) as Hset.
  { rewrite staged_stream, filter_map_app. simpl. rewrite Hs. apply app_nil_r. }
  assert (∀ id, id ∈ announced_ids (stream w) → id ∈ announced_ids (stream (staged event w)))
    as Hann.
  { intros id. rewrite staged_stream, filter_map_app. set_solver. }
  split; split; unfold known in *; rewrite ?Hset; simpl; auto; try congruence.
  - rewrite staged_stream. apply announced_first_snoc; [done|congruence].
  - rewrite length_app. simpl. lia.
  - rewrite staged_stream. apply Forall_app. auto.
  - apply Forall_app. auto.
  - intros _. rewrite staged_stream. by eexists.
Qed.

(** The world after a settlement was staged. *)
Definition staged_settlement (event : RuntimeEvent) (id : OperationId) (w : World) : World :=
  set_co (set_ledger (epoch.remove (ledger (co w)) id).1 (co (staged event w))) (staged event w).

Lemma good_staged_settlement w event id :
  may_stage w event → epoch.settled_operation_id event = Some id →
  id ∈ epoch.order (ledger (co w)) → Inv w →
  Inv (staged_settlement event id w) ∧ evolves w (staged_settlement event id w).
Proof.
  intros (Hm&He&Hc&Hl) Hs Hin HI. pose proof (λ id', remove_order w id id' HI) as Hrm.
  assert (stream (staged_settlement event id w) = stream w ++ [event]) as Hstream
    by apply (staged_stream event w).
  assert (settled_ids (stream (staged_settlement event id w)) = settled_ids (stream w) ++ [id])
    as Hset.
  { rewrite Hstream, filter_map_app. simpl. by rewrite Hs. }
  assert (∀ id, id ∈ announced_ids (stream w) → id ∈ announced_ids (stream w ++ [event])) as Hann.
  { intros id'. rewrite filter_map_app. set_solver. }
  destruct HI.
  split; split; unfold known in *; rewrite ?Hset, ?Hstream; simpl; auto; try congruence.
  - by apply ledger_at_remove.
  - apply NoDup_app. split; [done|]. split; [|repeat constructor; set_solver].
    intros id' Hid' ->%list_elem_of_singleton. by eapply inv_unsettled0.
  - intros id' [Hid' Hne]%Hrm [Hid''|Hid'']%elem_of_app; [by eapply inv_unsettled0|set_solver].
  - intros id' [Hid' _]%Hrm. by apply inv_ledger_issued0.
  - intros id' [Hid'|Hid']%elem_of_app; [by apply inv_settled_issued0|].
    apply list_elem_of_singleton in Hid' as ->. by apply inv_ledger_issued0.
  - intros _ id' Ha. rewrite elem_of_app, Hrm, list_elem_of_singleton.
    destruct (decide (id' = id)); [by auto|]. destruct (inv_reported0 Hc id' Ha); auto.
  - intros _ id' [Hid' _]%Hrm. auto.
  - apply announced_first_snoc; [done|]. intros id' Hs'. rewrite Hs in Hs'.
    injection Hs' as <-. auto.
  - rewrite length_app. simpl. lia.
  - apply Forall_app. auto.
  - apply Forall_app. auto.
  - intros _. by eexists.
  - intros _ id' Ha. rewrite elem_of_app, Hrm, list_elem_of_singleton.
    destruct (decide (id' = id)); [by auto|]. destruct Ha; auto.
Qed.

Lemma good_stage_reliable w event :
  merging.is_mergeable event = false → epoch.is_epoch_ended event = false →
  (∀ id, epoch.settled_operation_id event = Some id → id ∈ epoch.order (ledger (co w))) →
  good_at w (stage_reliable event).
Proof.
  intros Hm He Hs HI. unfold stage_reliable, bind, self. simpl.
  destruct (sink_closed (co w)) eqn:Hc; [by split|].
  unfold staging.push. case_bool_decide as Hcap; [by split|].
  assert (may_stage w event) as Hmay by (repeat split; auto; lia).
  destruct (epoch.settled_operation_id event) as [id|] eqn:Hid.
  - apply (good_staged_settlement w event id); auto.
  - by apply (good_staged w event).
Qed.

Definition plain_event (event : RuntimeEvent) : Prop :=
  epoch.is_epoch_ended event = false ∧ epoch.settled_operation_id event = None.

Lemma good_emit event : plain_event event → good (emit event).
Proof.
  intros [He Hs] w. unfold emit. good_step.
  destruct (sink_closed (co w)); [apply good_ret|].
  destruct (merging.is_mergeable event) eqn:Hm; [apply good_publish_transient|].
  good. apply good_stage_reliable; [done..|]. by rewrite Hs.
Qed.

Lemma good_emit_agent event : good (emit (RtAgent event)).
Proof. by apply good_emit. Qed.
#[local] Hint Resolve good_emit_agent : good.

Lemma good_emit_transient_agents events : good (emit_transient_agents events).
Proof. induction events as [|event events IH]; simpl; good. Qed.
#[local] Hint Resolve good_emit_transient_agents : good.

Lemma good_emit_availability : good emit_availability_if_changed.
Proof. unfold emit_availability_if_changed. good. by apply good_emit. Qed.
#[local] Hint Resolve good_emit_availability : good.

(** ** The driver's events *)

Lemma good_drain_all_transients : good drain_all_transients.
Proof. unfold drain_all_transients. good. Qed.
Lemma good_drain_active f : good (drain_active f).
Proof. unfold drain_active. good. Qed.
#[local] Hint Resolve good_drain_all_transients good_drain_active : good.

Lemma good_pull : good pull_caught_up_transients.
Proof. unfold pull_caught_up_transients. good. Qed.
Lemma good_release agent : good (release_transients_for agent).
Proof. unfold release_transients_for. good. Qed.
#[local] Hint Resolve good_pull good_release : good.

Lemma good_record_settled id sid st du f : good (record_settled id sid st du f).
Proof.
  unfold record_settled. good. case_bool_decide; rewrite ?length_drop, length_app in *;
    simpl in *; lia.
Qed.
#[local] Hint Resolve good_record_settled : good.

Lemma good_settle_operation id sid st du rev f : good (settle_operation id sid st du rev f).
Proof.
  intros w. apply good_at_inv. intros HI. unfold settle_operation. apply good_self. unfold Datatypes.id. cbv beta.
  destruct (epoch.ledger_session (ledger (co w)) id) eqn:Hs; simpl; [|exact (good_ret false w)].
  good. apply good_stage_reliable; [done..|]. intros ? [= <-]. apply ledger_session_Some; [done|].
  by rewrite Hs.
Qed.
#[local] Hint Resolve good_settle_operation : good.

Lemma good_forward agent : good (forward_driver_event agent).
Proof. unfold forward_driver_event. good. Qed.
#[local] Hint Resolve good_forward : good.

Lemma good_on_driver_event event : good (on_driver_event event).
Proof. unfold on_driver_event. good. Qed.

Lemma good_drain_while room fuel : good (drain_while room fuel).
Proof. induction fuel as [|fuel IH]; simpl; good. Qed.
#[local] Hint Resolve good_on_driver_event good_drain_while : good.

Lemma good_drain_driver_events : good drain_driver_events.
Proof. unfold drain_driver_events. good. Qed.
Lemma good_discard : good discard_driver_events_if_idle.
Proof. unfold discard_driver_events_if_idle. good. Qed.
#[local] Hint Resolve good_drain_driver_events good_discard : good.

Lemma good_drain_open_slots : good drain_driver_open_slots.
Proof. unfold drain_driver_open_slots. good. Qed.
Lemma good_try_free : good try_free_one_staging_slot.
Proof. unfold try_free_one_staging_slot. good. Qed.
#[local] Hint Resolve good_drain_open_slots good_try_free : good.

(** ** Operations *)

Lemma good_start w a :
  (meta_operation_id a :: (q_operation_id <$> queue (co w))) `sublist_of` issued (ids_used w) →
  maintenance (co w) = None → good_at w (update (set_active (Some a))).
Proof.
  intros Hsub Hm []. unfold update, modify. simpl.
  split; split; unfold known in *; simpl; auto; by right.
Qed.

Lemma good_spawn_driver w q :
  (q_operation_id q :: (q_operation_id <$> queue (co w))) `sublist_of` issued (ids_used w) →
  maintenance (co w) = None → good_at w (spawn_driver q).
Proof.
  intros Hsub Hm. unfold spawn_driver. apply good_at_bind; [apply good_next_diagnostic_id|].
  intros d _. apply good_at_bind; [by apply good_start|]. intros ? _. good.
Qed.

Lemma good_spawn_maintenance w id spec :
  active (co w) = None → good_at w (spawn_maintenance id spec).
Proof. intros Ha. unfold spawn_maintenance. good. Qed.

Lemma good_maybe_start_next : good maybe_start_next.
Proof.
  intros w. apply good_at_inv. intros HI. unfold maybe_start_next. apply good_self. unfold Datatypes.id. cbv beta.
  destruct (shutdown (co w)); try apply good_ret.
  destruct (active (co w)) eqn:Ha; simpl; [exact (good_ret tt w)|].
  destruct (maintenance (co w)) eqn:Hm; simpl; [exact (good_ret tt w)|].
  destruct (_ || _); [exact (good_ret tt w)|].
  destruct (queue (co w)) as [|next rest] eqn:Hq; [exact (good_ret tt w)|].
  pose proof (inv_fifo w HI) as Hsub. unfold running_ids in Hsub. rewrite Ha, Hq in Hsub.
  apply good_at_bind.
  - apply good_update. split; simpl; auto; [|rewrite Hq; simpl; lia].
    unfold running_ids. simpl. rewrite Ha, Hq. simpl. by apply sublist_cons.
  - intros ? _. by apply good_spawn_driver.
Qed.
#[local] Hint Resolve good_maybe_start_next : good.

(** ** Admission *)

(** An event that is staged without flushing, when there is room. *)
Lemma emit_prefix w event :
  merging.is_mergeable event = false → is_prefix_reliable event = true →
  epoch.settled_operation_id event = None → sink_closed (co w) = false →
  length (staging.queue (reliable_staging (co w))) < staging.cap (reliable_staging (co w)) →
  emit event w = (staged event w, Some tt).
Proof.
  intros Hm Hp Hs Hc Hl.
  assert (stage_reliable event w = (staged event w, Some true)) as Hstage.
  { unfold stage_reliable, bind, self. simpl. rewrite Hc. unfold staging.push.
    by rewrite bool_decide_eq_false_2, Hs by lia. }
  unfold emit, bind, self. simpl. rewrite Hc, Hm, Hp. simpl. unfold staging.remaining.
  rewrite bool_decide_eq_false_2 by lia. rewrite andb_false_r. by rewrite Hstage.
Qed.

Lemma issued_S n : issued (S n) = issued n ++ [(next_ids n).1].
Proof. unfold issued. by rewrite seq_S, fmap_app. Qed.

Lemma issued_fresh n : (next_ids n).1 ∉ issued n.
Proof.
  intros (i&Heq&Hi)%list_elem_of_fmap. apply elem_of_seq in Hi. apply fresh_ids_inj in Heq. lia.
Qed.

(** The world after [fresh_ids], the insertion and the announcement. *)
Definition announced (spec : OperationSpec) (l : epoch.AcceptedLedger) (w : World) : World :=
  staged (RtOperationAccepted (next_ids (ids_used w)).1 (spec_session_id spec)
            (next_ids (ids_used w)).2)
    (set_co (set_ledger l (co w)) (set_ids_used (S (ids_used w)) w)).

Lemma good_announced spec l w :
  let id := (next_ids (ids_used w)).1 in
  epoch.insert (ledger (co w)) id (next_ids (ids_used w)).2 (spec_session_id spec) = (l, Ok tt) →
  sink_closed (co w) = false →
  length (staging.queue (reliable_staging (co w))) < staging.cap (reliable_staging (co w)) →
  Inv w →
  Inv (announced spec l w) ∧ evolves w (announced spec l w) ∧ known (announced spec l w) id.
Proof.
  intros id Hl Hc Hlen HI. pose proof (ledger_at w HI) as Hwf.
  pose proof (issued_fresh (ids_used w)) as Hfresh. fold id in Hfresh.
  assert (id ∉ epoch.order (ledger (co w))) as Hni
    by (intros Hin; by apply Hfresh, (inv_ledger_issued w HI)).
  assert (epoch.order l = epoch.order (ledger (co w)) ++ [id]) as Hord.
  { destruct (insert_cases (ledger (co w)) id (next_ids (ids_used w)).2 (spec_session_id spec) Hwf)
      as [[? _]|[(_&_&Hi)|(_&_&Hi)]]; [done|congruence|]. rewrite Hi in Hl. by injection Hl as <-. }
  assert (stream (announced spec l w) = stream w ++ [RtOperationAccepted id (spec_session_id spec)
    (next_ids (ids_used w)).2]) as Hstream by apply (staged_stream _ w).
  assert (settled_ids (stream (announced spec l w)) = settled_ids (stream w)) as Hset.
  { rewrite Hstream, filter_map_app. apply app_nil_r. }
  assert (announced_ids (stream (announced spec l w)) = announced_ids (stream w) ++ [id]) as Hann.
  { by rewrite Hstream, filter_map_app. }
  destruct HI. unfold known in *. split; [|split].
  - split; unfold known in *; rewrite ?Hset, ?Hann; simpl; rewrite ?Hord, ?issued_S; auto;
      try congruence.
    + replace l with (epoch.insert (ledger (co w)) id (next_ids (ids_used w)).2
        (spec_session_id spec)).1 by by rewrite Hl. by apply ledger_at_insert.
    + intros id' [Hin|Hin]%elem_of_app Hs; [by eapply inv_unsettled0|].
      apply list_elem_of_singleton in Hin as ->. by apply Hfresh, inv_settled_issued0.
    + intros id' [Hin|Hin]%elem_of_app; apply elem_of_app; auto.
    + intros id' Hin. apply elem_of_app. auto.
    + by apply sublist_inserts_r.
    + intros _ id' Ha. rewrite elem_of_app. destruct (inv_reported0 Hc id' Ha); auto.
    + intros _ id' [Hin|Hin]%elem_of_app; apply elem_of_app; auto.
    + rewrite Hstream. by apply announced_first_snoc.
    + rewrite length_app. simpl. lia.
    + rewrite Hstream. apply Forall_app. auto.
    + apply Forall_app. auto.
  - split; unfold known; rewrite ?Hset; simpl; rewrite ?Hord; auto.
    + intros _. rewrite Hstream. by eexists.
    + intros _ id' [Hin|Hin]; [left; apply elem_of_app|]; auto.
  - left. simpl. rewrite Hord. apply elem_of_app. right. by apply list_elem_of_singleton.
Qed.

Lemma good_fresh_ids : good fresh_ids.
Proof.
  intros w []. unfold fresh_ids, bind, get, modify. simpl.
  assert (stream (set_ids_used (S (ids_used w)) w) = stream w) as Hs by done.
  split; split; unfold known in *; rewrite ?Hs; simpl; rewrite ?issued_S; auto.
  - intros id Hid. apply elem_of_app. auto.
  - intros id Hid. apply elem_of_app. auto.
  - by apply sublist_inserts_r.
Qed.

Lemma good_enqueue w q :
  (running_ids (co w) ++ [q_operation_id q]) `sublist_of` issued (ids_used w) →
  (Z.of_nat (length (queue (co w))) < queue_max b)%Z →
  good_at w (update (λ c, set_queue (queue c ++ [q]) c)).
Proof.
  intros Hsub Hlen []. unfold update, modify. simpl.
  split; split; unfold known in *; simpl; auto.
  - unfold running_ids in *. simpl. by rewrite fmap_app, app_assoc.
  - rewrite length_app. simpl. lia.
Qed.

(** What [admit_operation] does once the operation is announced. *)
Definition start_or_queue (idle : bool) (queued : QueuedOperation)
    : M (AdmissionError + OperationAccepted) :=
  (if idle then spawn_driver queued
   else
     emit (RtAgent (EvOperationQueued (q_operation_id queued))) ;;
     update (λ c, set_queue (queue c ++ [queued]) c)) ;;
  publish_snapshot ;;
  ret (inr {| accepted_operation_id := q_operation_id queued;
              accepted_turn_id := q_turn_id queued |}).

Lemma idle_running c :
  is_idle c = true → running_ids c = [] ∧ queue c = [] ∧ maintenance c = None.
Proof.
  unfold is_idle, running_ids. destruct (active c), (maintenance c), (queue c); done.
Qed.

Lemma good_start_or_queue w queued :
  (running_ids (co w) ++ [q_operation_id queued]) `sublist_of` issued (ids_used w) →
  sink_closed (co w) = false →
  length (staging.queue (reliable_staging (co w))) < staging.cap (reliable_staging (co w)) →
  (is_idle (co w) = false → (Z.of_nat (length (queue (co w))) < queue_max b)%Z) →
  good_at w (start_or_queue (is_idle (co w)) queued).
Proof.
  intros Hsub Hc Hlen Hq. unfold start_or_queue. apply good_at_bind; [|intros ? _; good].
  destruct (is_idle (co w)) eqn:Hidle.
  - destruct (idle_running _ Hidle) as (Hr&Hqn&Hm). rewrite Hr in Hsub.
    apply good_spawn_driver; [by rewrite Hqn|done].
  - specialize (Hq eq_refl). intros HI.
    set (w1 := staged (RtAgent (EvOperationQueued (q_operation_id queued))) w).
    assert (emit (RtAgent (EvOperationQueued (q_operation_id queued))) w = (w1, Some tt)) as He
      by by apply emit_prefix.
    destruct (good_staged w (RtAgent (EvOperationQueued (q_operation_id queued)))) as [HI1 He1];
      [by repeat split|done|done|].
    destruct (good_enqueue w1 queued Hsub Hq HI1) as [HI2 He2].
    unfold bind. rewrite He. split; [exact HI2|etrans; [exact He1|exact He2]].
Qed.

Lemma good_admit_operation w spec :
  can_poll_driver (co w) = true →
  good_at w (admit_operation spec) ∧
  ∀ a, Inv w → (admit_operation spec w).2 = Some (inr a) → sink_closed (co (admit_operation spec w).1) = false →
    known (admit_operation spec w).1 (accepted_operation_id a).
Proof.
  intros Hpoll. apply andb_true_iff in Hpoll as [Hc Hroom]. apply negb_true_iff in Hc.
  apply bool_decide_eq_true in Hroom. unfold staging.remaining, staging.PRODUCER_STAGING_RESERVE in Hroom.
  set (id := (next_ids (ids_used w)).1). set (tid := (next_ids (ids_used w)).2).
  unfold good_at. assert (admit_operation spec w =
    if negb (is_idle (co w))
       && bool_decide (queue_max (bounds (co w)) ≤ Z.of_nat (length (queue (co w))))%Z
    then (w, Some (inl AdmQueueFull))
    else
      match epoch.insert (ledger (co w)) id tid (spec_session_id spec) with
      | (l, Ok _) =>
          start_or_queue (is_idle (co w))
            {| q_operation_id := id; q_turn_id := tid; q_spec := spec |} (announced spec l w)
      | _ => ((fresh_ids w).1, Some (inl AdmQueueFull))
      end) as ->.
  { unfold admit_operation, bind at 1, self. cbv beta iota. unfold Datatypes.id at 1 2 3 4.
    destruct (negb (is_idle (co w)) && _); [done|].
    unfold bind at 1, fresh_ids at 1, get, modify. unfold bind at 1 2. cbv beta iota.
    unfold announced. subst id tid. destruct (next_ids (ids_used w)) as [i t]. simpl.
    destruct (epoch.insert _ _ _ _) as [l [[]| |]] eqn:Hins; [|done..].
    unfold bind at 1, update, modify. cbv beta iota.
    unfold bind at 1. rewrite emit_prefix by (done || simpl; lia). cbv beta iota.
    reflexivity. }
  destruct (negb (is_idle (co w)) && _) eqn:Hfull.
  { split; [intros HI; by split|done]. }
  destruct (epoch.insert _ _ _ _) as [l [[]| |]] eqn:Hins;
    [|split; [intros HI; by apply good_fresh_ids|done]..].
  assert (Inv w → Inv (announced spec l w) ∧ evolves w (announced spec l w) ∧
    known (announced spec l w) id) as Hann by (apply good_announced; [done..|lia]).
  set (queued := {| q_operation_id := id; q_turn_id := tid; q_spec := spec |}).
  assert (Inv w → good_at (announced spec l w) (start_or_queue (is_idle (co w)) queued)) as Hgood.
  { intros HI. pose proof (inv_fifo w HI) as Hsub.
    apply (good_start_or_queue (announced spec l w) queued); simpl.
    - rewrite issued_S. by apply sublist_app.
    - done.
    - rewrite length_app. simpl. lia.
    - intros Hidle. change (is_idle (co w) = false) in Hidle. rewrite Hidle in Hfull. simpl in Hfull.
      apply bool_decide_eq_false in Hfull. rewrite (inv_bounds w HI) in Hfull. lia. }
  split.
  - intros HI. destruct (Hann HI) as (HI1&He1&_). destruct (Hgood HI HI1) as [HI2 He2].
    split; [exact HI2|etrans; [exact He1|exact He2]].
  - intros a HI Hres Hopen. destruct (Hann HI) as (HI1&_&Hknown).
    destruct (Hgood HI HI1) as [_ He2].
    assert (accepted_operation_id a = id) as ->; [|by eapply ev_known].
    apply bind_Some in Hres as (?&_&Hres). apply bind_Some in Hres as (?&_&Hres).
    by injection Hres as <-.
Qed.

Lemma good_reply w r answer :
  (∀ id, accepted_reply (r, answer) = Some id → sink_closed (co w) = false → known w id) →
  good_at w (reply r answer).
Proof.
  intros Hans []. unfold reply, modify. simpl.
  split; split; unfold known in *; simpl; auto; [|by eexists].
  intros Hc id. unfold accepted. simpl. rewrite filter_map_app. intros [Hid|Hid]%elem_of_app; [by auto|].
  simpl in Hid. destruct (accepted_reply (r, answer)) eqn:Ha; [|set_solver].
  apply list_elem_of_singleton in Hid as ->. by auto.
Qed.

Lemma good_reply_plain r answer : accepted_reply (r, answer) = None → good (reply r answer).
Proof. intros Ha w. apply good_reply. congruence. Qed.

Lemma good_admit_compaction spec : good (admit_compaction spec).
Proof.
  intros w. unfold admit_compaction. apply good_self. unfold Datatypes.id. cbv beta.
  destruct (is_idle (co w)) eqn:Hidle; simpl; [|exact (good_ret _ w)].
  assert (active (co w) = None) as Ha.
  { unfold is_idle in Hidle. by destruct (active (co w)). }
  apply good_at_bind; [apply good_fetch_next_maintenance|]. intros n _.
  apply good_at_bind; [by apply good_spawn_maintenance|]. intros ? _.
  good; by apply good_emit.
Qed.

Lemma sublist_map {A B} (f : A → B) (l k : list A) :
  l `sublist_of` k → f <$> l `sublist_of` f <$> k.
Proof. induction 1; simpl; by constructor. Qed.

Lemma good_cancel_operation id : good (cancel_operation id).
Proof.
  unfold cancel_operation, request_active_cancel. good.
  - apply sublist_map, sublist_delete.
  - apply sublist_length, sublist_delete.
Qed.

Lemma good_cancel_maintenance id : good (cancel_maintenance id).
Proof. unfold cancel_maintenance. good. Qed.
#[local] Hint Resolve good_admit_compaction good_cancel_operation good_cancel_maintenance : good.

Lemma good_on_control control : good (on_control (Some control)).
Proof. unfold on_control. good; by apply good_reply_plain. Qed.

Lemma good_on_command command : good (on_command (Some command)).
Proof.
  intros w. unfold on_command. apply good_self. unfold Datatypes.id. cbv beta.
  destruct (shutdown (co w)), command as [spec r|spec r]; try (by apply good_reply_plain).
  - destruct (can_poll_driver (co w)) eqn:Hpoll; simpl; [|by apply good_reply_plain].
    destruct (good_admit_operation w spec Hpoll) as [Hadmit Hknown].
    apply good_at_inv. intros HI. apply good_at_bind; [done|]. intros result Hres.
    apply good_reply. intros id Hid Hopen. destruct result as [|a]; [done|].
    injection Hid as <-. by apply Hknown.
  - destruct (can_poll_driver (co w)); simpl; [|by apply good_reply_plain].
    good. by apply good_reply_plain.
Qed.
#[local] Hint Resolve good_on_control good_on_command : good.

Lemma good_on_operation_timeout : good on_operation_timeout.
Proof. unfold on_operation_timeout, request_active_cancel. good. Qed.

Lemma good_driver_exit join : good (driver_exit join).
Proof. unfold driver_exit. good. Qed.
#[local] Hint Resolve good_on_operation_timeout good_driver_exit : good.

Lemma running_none c : running_ids (set_active None c) `sublist_of` running_ids c.
Proof. unfold running_ids. simpl. by apply sublist_inserts_l. Qed.

Lemma good_on_driver_join join : good (on_driver_join join).
Proof. unfold on_driver_join. good. all: first [by apply good_emit|apply running_none]. Qed.

Lemma good_maintenance_result r join : good (maintenance_result r join).
Proof. unfold maintenance_result. good. Qed.
#[local] Hint Resolve good_on_driver_join good_maintenance_result : good.

Lemma good_on_maintenance_join join : good (on_maintenance_join join).
Proof. unfold on_maintenance_join. good. all: by apply good_emit. Qed.
#[local] Hint Resolve good_on_maintenance_join : good.

(** ** The lanes and the event loop *)

Lemma good_recv_control : good recv_control.
Proof. unfold recv_control. good. by apply good_modify. Qed.
Lemma good_recv_command : good recv_command.
Proof. unfold recv_command. good. by apply good_modify. Qed.
#[local] Hint Resolve good_recv_control good_recv_command : good.

Lemma good_drain_control fuel : good (drain_control fuel).
Proof. induction fuel as [|fuel IH]; cbn [drain_control]; good. Qed.
Lemma good_drain_command fuel : good (drain_command fuel).
Proof. induction fuel as [|fuel IH]; cbn [drain_command]; good. Qed.
#[local] Hint Resolve good_drain_control good_drain_command : good.

Lemma good_drain_lanes : good drain_pending_lanes.
Proof. unfold drain_pending_lanes. good. Qed.
Lemma good_reap : good reap_finished_children.
Proof. unfold reap_finished_children. good. Qed.
#[local] Hint Resolve good_drain_lanes good_reap : good.

Import system.

Lemma good_turn_begin : good turn_begin.
Proof.
  intros w. unfold turn_begin. apply good_get. apply good_at_bind.
  - destruct (outlet_closed (outlet w)) eqn:Ho; [by apply good_sink_closed|apply good_ret].
  - intros ? _. good.
Qed.

(** The next staged event goes out. *)
Lemma good_send_popped {B} w (k : option RuntimeEvent → M B) :
  (∀ event, good (k (Some event))) → good (k None) →
  good_at w (let! event := pop_staging in
    match event with
    | Some event => modify (λ w, set_outlet (outlet_send event (outlet w)) w) ;; k (Some event)
    | None => k None
    end).
Proof.
  intros Hsome Hnone HI. unfold pop_staging, staging.pop_front, bind, self, update, modify. simpl.
  destruct (staging.queue (reliable_staging (co w))) as [|event q] eqn:Hq; simpl.
  - rewrite set_staging_same. by apply Hnone.
  - destruct (good_sent_front w event q Hq HI) as [HI1 He1].
    destruct (Hsome event _ HI1) as [HI2 He2]. split; [exact HI2|etrans; [exact He1|exact He2]].
Qed.

Lemma bind_ret_r {A} (m : M A) w : bind m ret w = m w.
Proof. unfold bind, ret. by destruct (m w) as [w1 [a|]]. Qed.

Lemma good_pop_outbound w :
  good_at w (let! event := pop_outbound in
    match event with
    | Some event => modify (λ w, set_outlet (outlet_send event (outlet w)) w)
    | None => ret tt
    end).
Proof.
  intros HI. unfold pop_outbound.
  destruct (staging.queue (reliable_staging (co w))) as [|event q] eqn:Hq.
  - assert (∀ B (k : option RuntimeEvent → M B), bind (let! event := pop_staging in
      match event with
      | Some event => ret (Some event)
      | None => take_sendable_transient
      end) k w = bind take_sendable_transient k w) as ->.
    { intros B k. unfold pop_staging, staging.pop_front, bind, self, update, modify. simpl.
      rewrite Hq. simpl. by rewrite set_staging_same. }
    apply good_take_transient; [apply good_ret| |done].
    intros event He w'. by apply good_outlet_send.
  - unfold pop_staging, staging.pop_front, bind, self, update, modify. simpl. rewrite Hq. simpl.
    by apply good_sent_front.
Qed.

Lemma select_ready l w br : select l w = Some br → ready l w br = true.
Proof.
  unfold select. intros (x&_&Hx)%find_map_Some. destruct (ready l w x) eqn:Hr; by simplify_eq.
Qed.

Lemma good_apply_shutdown : good apply_shutdown_request.
Proof.
  intros w. unfold apply_shutdown_request. apply good_get.
  destruct (shutdown_slot w) eqn:Hs; [|apply good_ret]. apply good_begin_shutdown. left.
  by rewrite Hs.
Qed.
#[local] Hint Resolve good_apply_shutdown : good.

(** A branch after the second one is taken only while a handle is left. *)
Lemma select_handles l w br :
  select l w = Some br → br ≠ BrSinkClosed → br ≠ BrShutdown → handles_gone (lanes w) = false.
Proof.
  unfold select. simpl. destruct (observe_sink l && _); [by intros [= <-]|].
  destruct (shutdown_changed w), (handles_gone (lanes w)); simpl; by try intros [= <-].
Qed.

Lemma good_run_branch l w br : select l w = Some br → good_at w (run_branch br).
Proof.
  intros Hsel. pose proof (select_ready _ _ _ Hsel) as Hr. unfold run_branch. apply good_get.
  destruct br; try solve [good].
  - apply good_sink_closed. simpl in Hr. by apply andb_true_iff in Hr as [_ ?].
  - destruct (shutdown_changed w); [|apply good_ret]. good. by apply good_modify.
  - simpl in Hr. rewrite (select_handles _ _ _ Hsel), orb_false_r in Hr by done.
    unfold recv_control, good_at, bind, get. simpl.
    destruct (control_rx (lanes w)) as [|c rest]; [done|].
    apply (good_at_bind w (modify (set_lanes _)) (λ _, on_control (Some c)));
      [by apply good_modify|intros ? _; apply good_on_control].
  - simpl in Hr. rewrite (select_handles _ _ _ Hsel), orb_false_r in Hr by done.
    unfold recv_command, good_at, bind, get. simpl.
    destruct (command_rx (lanes w)) as [|c rest]; [done|].
    apply (good_at_bind w (modify (set_lanes _)) (λ _, on_command (Some c)));
      [by apply good_modify|intros ? _; apply good_on_command].
  - destruct (outlet_closed (outlet w)); [apply good_ret|apply good_pop_outbound].
Qed.

Lemma good_poll_budget : good poll_budget.
Proof. unfold poll_budget. good. Qed.
#[local] Hint Resolve good_turn_begin good_poll_budget : good.

Lemma good_turn_end l w br : select l w = Some br → good_at w (turn_end br).
Proof.
  intros Hsel. unfold turn_end. apply good_at_bind; [by eapply good_run_branch|]. intros ? _. good.
Qed.

Lemma good_finish_end : good finish_end.
Proof. unfold finish_end. good. apply running_none. Qed.
#[local] Hint Resolve good_finish_end : good.

Lemma good_final_break : good final_break.
Proof. unfold final_break, final_deadline. good. Qed.
Lemma good_finish : good finish.
Proof. unfold finish. good. Qed.
#[local] Hint Resolve good_final_break good_finish : good.

Lemma good_final_loop : good final_loop.
Proof. unfold final_loop. good. Qed.
Lemma good_final_flushed d f : good (final_flushed d f).
Proof. unfold final_flushed. good. Qed.
#[local] Hint Resolve good_final_loop good_final_flushed : good.

Lemma good_final_flush d f w m : final_flush d f w = Some m → good_at w m.
Proof.
  unfold final_flush. destruct (_ || _); [intros [= <-]; good|].
  destruct (outlet_closed (outlet w)) eqn:Ho.
  { intros [= <-]. apply good_at_bind; [by apply good_sink_closed|]. intros ? _. good. }
  destruct (outlet_full (outlet w)); intros [= <-].
  intros HI. destruct (good_send_popped w (λ _, ret (FinalFlush d f))) as [HI1 He1];
    [intros ?; apply good_ret|apply good_ret|done|].
  unfold bind in *. destruct (pop_staging w) as [w1 [[event|]|]]; by split.
Qed.

Lemma good_go w m : good_at w m → Inv w → Inv (world (go m w)) ∧ evolves w (world (go m w)).
Proof.
  intros Hm HI. destruct (Hm HI). unfold go. by destruct (m w) as [w1 [p|]].
Qed.

Lemma advance_good s s' :
  advance s = Some s' → Inv (world s) → Inv (world s') ∧ evolves (world s) (world s').
Proof.
  unfold advance. destruct (at_ s) as [| |l| | |d f|exit|]; try done.
  - intros [= <-]. apply good_go. good.
  - destruct (should_finish_epoch _); intros [= <-]; apply good_go; unfold finish_begin; good.
  - destruct (select l (world s)) as [br|] eqn:Hsel; intros [= <-]. apply good_go.
    apply good_at_bind; [by eapply good_turn_end|]. intros ? _. apply good_ret.
  - intros [= <-]. apply good_go. unfold finish_joined. good.
  - intros [= <-]. apply good_go. good.
  - destruct (final_flush d f (world s)) as [m|] eqn:Hm; intros [= <-]. apply good_go.
    by eapply good_final_flush.
Qed.

(** ** The other tasks *)

Lemma call_driver_id call w a a' rx :
  call_driver call w a = Some (Ok (a', rx)) → meta_operation_id a' = meta_operation_id a.
Proof.
  destruct call; simpl; try (by intros [= <- <-]).
  - intros [= (s&_&[= <- <-])%bind_Ok]. done.
  - intros [= (s&_&[= <- <-])%bind_Ok]. done.
  - destruct (driver_events (co w)); [case_bool_decide|]; by intros [= <- <-].
  - intros [= (s&_&[= <- <-])%bind_Ok]. done.
Qed.

(** A change beside the outlet's content, the ids, the replies and the actor. *)
Lemma Inv_frame w w' :
  co w' = co w → sent (outlet w') = sent (outlet w) →
  (outlet_closed (outlet w) = true → outlet_closed (outlet w') = true) →
  ids_used w' = ids_used w → replies w' = replies w → Inv w → Inv w'.
Proof.
  intros Hco Hs Ho Hi Hr []. assert (stream w' = stream w) as Hst.
  { unfold stream. by rewrite Hco, Hs. }
  assert (accepted w' = accepted w) as Ha by (unfold accepted; congruence).
  split; unfold known in *; rewrite ?Hst, ?Ha, ?Hco, ?Hi; auto. naive_solver.
Qed.

Lemma Inv_quiet w f : quiet (co w) (f (co w)) → Inv w → Inv (set_co (f (co w)) w).
Proof. intros Hq HI. by apply (good_update w f Hq HI). Qed.

Lemma step_Inv s s' : step s s' → Inv (world s) → Inv (world s').
Proof.
  intros Hstep HI.
  destruct Hstep as [s' Hadv|call a a' rx Ha _ Hcall|t r Ht _ _|q Hq Ha|t r Ht _ _| | |command _
    |control _|request _| |later _].
  - by apply (advance_good s s' Hadv HI).
  - apply call_driver_id in Hcall. apply (Inv_quiet (world s)
      (λ c, set_active (Some a') (set_driver_events rx c))); [|done].
    split; simpl; auto.
    + unfold running_ids. simpl. rewrite Ha. simpl. by rewrite Hcall.
    + rewrite Ha. intros [?|?]; [done|by right].
  - by apply (Inv_quiet (world s)).
  - by apply (Inv_quiet (world s)).
  - by apply (Inv_quiet (world s)).
  - by apply (Inv_frame (world s)).
  - by apply (Inv_frame (world s)).
  - unfold send_command. destruct (stopped _); [done|]. case_bool_decide; [done|].
    by apply (Inv_frame (world s)).
  - unfold send_control. destruct (stopped _); [done|]. case_bool_decide; [done|].
    by apply (Inv_frame (world s)).
  - by apply (Inv_frame (world s)).
  - by apply (Inv_frame (world s)).
  - by apply (Inv_frame (world s)).
Qed.

Lemma start_Inv n instant s : (0 ≤ queue_max b)%Z → start n b instant = Ok s → Inv (world s).
Proof.
  intros Hq. unfold start, validate. destruct (_ || _); [done|]. intros [= <-]. simpl.
  split; simpl; try done; try lia; try (by constructor); try (by intros ? ?%elem_of_nil);
    try (by intros _ ? ?%elem_of_nil); try (by intros [| |] ?); try (by left).
  intros l1 e l2 id Heq. by destruct l1.
Qed.

Lemma reachable_Inv s : (0 ≤ queue_max b)%Z → reachable b s → Inv (world s).
Proof. intros Hq. induction 1; [by eapply start_Inv|by eapply step_Inv]. Qed.

End invariant.

End coordinator_proofs.
