(* ===== verification/CoordinatorSafety.v ===== *)
(** Concrete epochs: an executable scheduler for the step relation of
    [CoordinatorSystem.v], proved to take only steps of that relation, and the
    small runtime on which the guarantees are exercised.

    What a running epoch guarantees, whatever the driver, the consumer of the
    outlet, the handles and the clock do, and in which order. *)

From S2P Require Import Prelude RustStr Kernel Session Tools Runtime Operation Outlets Epoch.
From S2P Require Import Coordinator CoordinatorSystem SessionProofs OutletsProofs.
From S2P Require Import CoordinatorProofs.
Import runtime coordinator system.

Module coordinator_demo.

(** A move of somebody in the system, with what it chooses. *)
Inductive move : Type :=
| Advance
| Driver (call : driver_call)
| DriverEnd (r : JoinResult DriverExit)
| Consume
| DropOutlet
| Command (command : RuntimeCommand)
| Control (control : ControlMessage)
| Shut (request : epoch.ShutdownRequest)
| DropHandles
| Tick (later : Z).

Section scheduler.
Context `{Build, driver.HashOrder, IdSource}.

Definition guarded (c : bool) (s : System) : option System := if c then Some s else None.
Arguments guarded : simpl never.

(** The driver of a running task makes calls; one that ended does not. *)
Definition driver_running (w : World) : bool :=
  match driver_join (co w) with Some t => negb (session.is_some (ended t)) | None => true end.

Definition driver_may_end (t : DriverTask) (r : JoinResult DriverExit) : bool :=
  negb (session.is_some (ended t)) &&
  match r with JoinOk (ExitPanicked _) => false | JoinAborted => aborted t | _ => true end.

Definition handled (s : System) : bool := negb (handles_gone (lanes (world s))).

Definition exec (m : move) (s : System) : option System :=
  let w := world s in
  match m with
  | Advance => advance s
  | Driver call =>
      match active (co w) with
      | Some a =>
          match call_driver call w a with
          | Some (Ok (a', rx)) =>
              guarded (driver_running w)
                (with_co (λ c, set_active (Some a') (set_driver_events rx c)) s)
          | _ => None
          end
      | None => None
      end
  | DriverEnd r =>
      match driver_join (co w) with
      | Some t =>
          guarded (driver_may_end t r)
            (with_co (set_driver_join
               (Some {| given := given t; aborted := aborted t; ended := Some r |})) s)
      | None => None
      end
  | Consume =>
      guarded (bool_decide (taken (outlet w) < length (sent (outlet w))))
        (with_world (λ w, set_outlet
          {| outlet_cap := outlet_cap (outlet w); sent := sent (outlet w);
             taken := S (taken (outlet w)); outlet_closed := outlet_closed (outlet w) |} w) s)
  | DropOutlet =>
      Some (with_world (λ w, set_outlet
        {| outlet_cap := outlet_cap (outlet w); sent := sent (outlet w);
           taken := taken (outlet w); outlet_closed := true |} w) s)
  | Command command => guarded (handled s) (send_command command s).1
  | Control control => guarded (handled s) (send_control control s).1
  | Shut request => guarded (handled s) (request_shutdown request s)
  | DropHandles =>
      Some (with_world (λ w, set_lanes
        {| command_rx := command_rx (lanes w); control_rx := control_rx (lanes w);
           handles_gone := true |} w) s)
  | Tick later =>
      guarded (bool_decide (now w ≤ later)%Z) (with_world (set_now later) s)
  end.

Lemma guarded_inv c s s' : guarded c s = Some s' → c = true ∧ s' = s.
Proof. unfold guarded. destruct c; [|done]. by intros [= ->]. Qed.

Lemma exec_step m s s' : exec m s = Some s' → step s s'.
Proof.
  destruct m as [|call|r| | |command|control|request| |later]; cbn [exec].
  - apply step_coordinator.
  - destruct (active _) as [a|] eqn:Ha; [|done].
    destruct (call_driver _ _ _) as [[[a' rx]| |]|] eqn:Hcall; try done.
    intros [Hrun ->]%guarded_inv. apply (step_driver s call a a' rx Ha); [|done].
    intros t Ht. unfold driver_running in Hrun. rewrite Ht in Hrun. by destruct (ended t).
  - destruct (driver_join _) as [t|] eqn:Ht; [|done]. intros [Hend ->]%guarded_inv.
    apply andb_true_iff in Hend as [Hended Hr]. apply (step_driver_end s t r Ht).
    + by destruct (ended t).
    + by destruct r as [[]| |].
  - intros [Hlt%bool_decide_eq_true ->]%guarded_inv. by apply step_consume.
  - intros [= <-]. apply step_drop_outlet.
  - intros [Hh%negb_true_iff ->]%guarded_inv. by apply step_command.
  - intros [Hh%negb_true_iff ->]%guarded_inv. by apply step_control.
  - intros [Hh%negb_true_iff ->]%guarded_inv. by apply step_shutdown.
  - intros [= <-]. apply step_drop_handles.
  - intros [Hle%bool_decide_eq_true ->]%guarded_inv. by apply step_clock.
Qed.

(** The scheduler skips a move that cannot be made. *)
Definition run (s : System) (moves : list move) : System :=
  foldl (λ s m, default s (exec m s)) s moves.

Lemma run_steps s moves : rtc step s (run s moves).
Proof.
  revert s. induction moves as [|m moves IH]; intros s; [done|]. simpl.
  destruct (exec m s) as [s1|] eqn:Hm; [|apply IH]. simpl.
  eapply rtc_l; [by eapply exec_step|apply IH].
Qed.

Lemma reachable_steps b s s' : reachable b s → rtc step s s' → reachable b s'.
Proof. intros Hr Hs. induction Hs; [done|]. apply IHHs. by eapply reach_step. Qed.
End scheduler.

(** ** A small runtime *)

#[export] Instance demo_build : Build := dev.
#[export] Instance demo_order : driver.HashOrder :=
  {| driver.hash_order := map_to_list; driver.hash_order_perm := λ m, reflexivity _ |}.
#[export] Instance demo_ids : IdSource := SequentialIdSource.

Definition demo_generation : RuntimeGeneration :=
  {| generation_id := "generation-1";
     runtime_config :=
       {| system_prompt := ""; model_target := "model";
          generation := {| max_output_tokens := 1; temperature := f32_of_u64 0;
                           reasoning_effort := None; tool_choice := ChoiceAuto |};
          max_tool_rounds := 1; max_parallel_tool_calls := 1; operation_timeout := None;
          tool_cancel_grace := 0;
          compaction := {| context_budget := None; auto_threshold := f32_of_u64 1;
                           keep_recent_turns := 1; estimate_bytes_per_token := 4 |};
          recovery := {| enabled := false; max_retries := 0;
                         backoff_base_ms := 0; backoff_max_ms := 0 |} |};
     gen_display := {| provider := None; model_name := ""; model_id := "";
                       image_input := false |} |}.
Definition demo_spec : OperationSpec :=
  {| spec_session_id := "session"; user_message := {| parts := [] |};
     spec_generation := demo_generation; service_request_id := None |}.

(** The smallest bounds that [validate] admits, but for the events. *)
Definition demo_bounds : ChannelBounds :=
  {| command_cap := 1; control_cap := 1; event_cap := 8; queue_max := 1;
     driver_event_budget := 1; reliable_staging_cap := 2 |}.

Definition record_and_send (event : AgentEvent) : list move :=
  [Driver (CallRecord event); Driver (CallSend event)].

Definition first_answer : AssistantMessage := {| content := "hi" |}.

(** An operation that is submitted and runs to its committed success, up to
    the end of its task: the coordinator has not yet looked at any of it. *)
Definition one_operation : list move :=
  [Advance; Command (Submit demo_spec 0); Advance; Advance] ++
  concat (record_and_send <$>
    [EvOperationStarted "operation-1"; EvTurnStarted "turn-1"; EvModelCallStarted "call";
     EvModelResponseStarted "call" None None]) ++
  [Driver (CallSettle (OutSucceeded first_answer))] ++
  concat (record_and_send <$>
    [EvAssistantMessageCompleted "turn-1" first_answer;
     EvOperationSettled "operation-1" Succeeded Confirmed (Committed 2)]) ++
  [DriverEnd (JoinOk ExitSucceeded)].

(** The epoch of these bounds, and its state after some moves. *)
Definition demo_start : { s | start 1 demo_bounds 0 = Ok s }.
Proof. eexists. reflexivity. Defined.
Definition after (moves : list move) : System := run (proj1_sig demo_start) moves.

Lemma after_reachable moves : reachable demo_bounds (after moves).
Proof.
  eapply reachable_steps; [|apply run_steps].
  eapply reach_start. apply (proj2_sig demo_start).
Qed.

Lemma after_steps moves more : rtc step (after moves) (after (moves ++ more)).
Proof. unfold after. unfold run at 2. rewrite foldl_app. apply run_steps. Qed.

(** While the settlement of the first operation is unread, a second one is
    submitted; then the epoch is shut down by force and ends. *)
Definition read_some : list move := one_operation ++ [Advance; Advance].
Definition second_submission : list move := [Command (Submit demo_spec 1); Advance].
Definition forced_end : list move :=
  [Shut {| epoch.mode := epoch.Forced; epoch.request_deadline := 1000 |}; Advance; Advance;
   DriverEnd JoinAborted; Advance; Advance; Advance; Advance].

(** The handles are dropped while the first operation is running. *)
Definition dropped_early : list move :=
  [Advance; Command (Submit demo_spec 0); Advance; Advance; DropHandles].

End coordinator_demo.

Import runtime coordinator system epoch_proofs coordinator_proofs.

Module coordinator_safety.

Abbreviation settled_ids := (filter_map epoch.settled_operation_id).
Abbreviation announced_ids := (filter_map accepted_id).

Section safety.
Context `{Build, driver.HashOrder, IdSource, !FreshIds}.
Context (b : ChannelBounds).

Lemma settled_reliable l : settled_ids (reliable l) = settled_ids l.
Proof.
  unfold reliable. induction l as [|e l IH]; [done|]. rewrite filter_cons.
  case_decide as Hm; simpl; rewrite IH; [done|]. by destruct e as [| |[]| | | | | | | |].
Qed.

(** C5: over a whole epoch an operation is settled at most once. In every
    state that can be reached, the settlements that left through the outlet or
    wait in the staging queue are of different operations, none of which is
    still in the ledger, and each comes after the announcement of its
    operation; and while the outlet is open, every submission that was
    answered with an acceptance is in the ledger or has its settlement there -
    none is forgotten. *)
Theorem coordinator_settles_at_most_once s :
  (0 ≤ queue_max b)%Z → reachable b s →
  let w := world s in
  NoDup (settled_ids (stream w)) ∧
  (∀ id, id ∈ epoch.order (ledger (co w)) → id ∉ settled_ids (stream w)) ∧
  (∀ before event after id, stream w = before ++ event :: after →
     epoch.settled_operation_id event = Some id → id ∈ announced_ids before) ∧
  (sink_closed (co w) = false → ∀ id, id ∈ accepted w →
     id ∈ epoch.order (ledger (co w)) ∨ id ∈ settled_ids (stream w)).
Proof.
  intros Hq Hr w. destruct (reachable_Inv b s Hq Hr). by split_and!.
Qed.

(** C7: the coordinator runs one thing at a time, in the order of admission.
    The active operation and the queued ones are different and stand in the
    order in which their ids were handed out, so the one that is started next
    is the one that waited longest; the queue keeps its bound; and a
    maintenance task never runs beside an operation. *)
Theorem coordinator_runs_in_order s :
  (0 ≤ queue_max b)%Z → reachable b s →
  let c := co (world s) in
  running_ids c `sublist_of` issued (ids_used (world s)) ∧ NoDup (running_ids c) ∧
  (Z.of_nat (length (queue c)) ≤ queue_max b)%Z ∧
  (active c = None ∨ maintenance c = None) ∧
  length (epoch.order (ledger c)) ≤ Z.to_nat (saturating_add (queue_max b) 1).
Proof.
  intros Hq Hr c. pose proof (reachable_Inv b s Hq Hr) as HI.
  split_and!; try by destruct HI.
  - eapply sublist_NoDup; [|apply (inv_fifo b _ HI)]. unfold issued.
    apply NoDup_fmap_2_strong; [|apply NoDup_seq]. intros i j _ _. apply fresh_ids_inj.
  - destruct (ledger_reachable_wf _ _ (inv_ledger b _ HI)) as [Hwf Hc].
    rewrite <- Hc. apply (ledger_len _ Hwf).
Qed.

(** What may happen to the outlet over any number of steps. *)
Record flows (w w' : World) : Prop := {
  flow_sent : sent (outlet w) `prefix_of` sent (outlet w');
  flow_stream : sink_closed (co w') = false → stream w `prefix_of` stream w';
  flow_closed : sink_closed (co w) = true → sink_closed (co w') = true;
  flow_known : sink_closed (co w') = false → ∀ id, known w id → known w' id
}.

#[export] Instance flows_preorder : PreOrder flows.
Proof.
  split; [by split|]. intros w1 w2 w3 [] []. split; auto; [by etrans|..].
  all: destruct (sink_closed (co w2)) eqn:Hc2; [by rewrite flow_closed1|].
  - intros Hc. etrans; by auto.
  - auto.
Qed.

Lemma evolves_flows w w' : evolves w w' → flows w w'.
Proof. intros []. by split. Qed.

Lemma step_flows s s' : step s s' → Inv b (world s) → flows (world s) (world s').
Proof.
  intros Hstep HI.
  destruct Hstep as [s' Hadv| | | | | | |command _|control _| | |].
  1: { destruct (advance_good b s s' Hadv HI) as [_ He]. by eapply evolves_flows. }
  all: try by split.
  - unfold send_command. destruct (stopped _); [done|]. case_bool_decide; [done|by split].
  - unfold send_control. destruct (stopped _); [done|]. case_bool_decide; [done|by split].
Qed.

Lemma steps_flow s s' :
  rtc step s s' → Inv b (world s) → Inv b (world s') ∧ flows (world s) (world s').
Proof.
  induction 1 as [s|s1 s2 s3 Hs _ IH]; [done|]. intros HI.
  pose proof (step_flows _ _ Hs HI) as Hf. apply (step_Inv b s1 s2 Hs) in HI.
  destruct (IH HI). split; [done|by etrans].
Qed.

(** Nothing reliable is lost, repeated or reordered on its way out. From
    any reachable state on, whatever happens: what was sent stays sent; as
    long as the outlet is open, the reliable events sent and staged are those
    of before followed by newer ones, so what is staged leaves in the order in
    which it was staged and transients only ever slip in between; no
    operation the epoch answers for is forgotten; and the staging queue keeps
    its capacity. *)
Theorem coordinator_outlet_in_order s s' :
  (0 ≤ queue_max b)%Z → reachable b s → rtc step s s' →
  let w := world s in
  let w' := world s' in
  sent (outlet w) `prefix_of` sent (outlet w') ∧
  length (staging.queue (reliable_staging (co w'))) ≤ Z.to_nat (reliable_staging_cap b) ∧
  (outlet_closed (outlet w') = false →
   reliable (sent (outlet w)) ++ staging.queue (reliable_staging (co w))
     `prefix_of` reliable (sent (outlet w')) ++ staging.queue (reliable_staging (co w')) ∧
   ∀ id, known w id → known w' id).
Proof.
  intros Hq Hr Hsteps w w'.
  destruct (steps_flow s s' Hsteps (reachable_Inv b s Hq Hr)) as [HI' []].
  split_and!; [done| |].
  - rewrite <- (inv_staging_cap b _ HI'). apply (inv_staging b _ HI').
  - intros Ho. assert (sink_closed (co w') = false) as Hc; [|by auto].
    destruct (sink_closed (co w')) eqn:Hc; [|done].
    destruct (inv_closed b _ HI' Hc) as [Hcl _]. unfold w' in Ho. congruence.
Qed.

(** What the supervisor settles by force, and its last events. *)
Definition forced (s : System) : list ForcedSettlement :=
  epoch.forced_settlements (co_epoch (co (world s)))
    (staging.queue (reliable_staging (co (world s))))
    (epoch.take_all (ledger (co (world s)))).2.
Definition last_exit (s : System) (faults : list string) : epoch.EpochExit :=
  epoch.join_exit (coordinator_exit (at_ s)) (dropped_maintenance s) faults.
Definition last_events (s : System) (faults : list string) : list RuntimeEvent :=
  epoch.exit_events (co_epoch (co (world s))) (last_exit s faults)
    (staging.queue (reliable_staging (co (world s)))) (forced s).

(** C6: over an epoch that ended - by a shutdown, because the consumer left,
    or with a panic of the coordinator at any point - every submission that
    was accepted is settled exactly once. Take everything sent and then the
    supervisor's last events: no operation is settled twice, and unless the
    consumer dropped the outlet every accepted one is settled; [EpochEnded] is
    the last event; and the supervisor reports the epoch as stopped only if
    all of this was delivered or nobody listens any more. *)
Theorem epoch_settles_every_submission s faults answers :
  (0 ≤ queue_max b)%Z → reachable b s → stopped (at_ s) = true →
  let w := world s in
  let events := last_events s faults in
  let '(delivered, snapshot', result) := supervise s faults answers in
  NoDup (settled_ids (sent (outlet w) ++ events)) ∧
  (outlet_closed (outlet w) = false → ∀ id, id ∈ accepted w →
     id ∈ settled_ids (sent (outlet w) ++ events)) ∧
  last events = Some (RtEpochEnded (co_epoch (co w)) (epoch.exit_reason (last_exit s faults))
                        (length (forced s))) ∧
  delivered `prefix_of` events ∧
  (is_ok result = true →
     delivered = events ∨ outlet_closed (outlet w) = true ∨ epoch.SendClosed ∈ answers).
Proof.
  intros Hq Hr _ w events. unfold last_events, last_exit, forced in *. fold w in events |- *.
  set (staged := staging.queue (reliable_staging (co w))) in *.
  set (exit := epoch.join_exit _ _ faults) in *.
  set (forced := epoch.forced_settlements _ staged _) in *.
  pose proof (reachable_Inv b s Hq Hr) as HI.
  pose proof (ledger_at b _ HI) as Hwf. fold w in HI, Hwf.
  assert (NoDup (settled_ids (sent (outlet w)) ++ settled_ids staged)) as Honce.
  { pose proof (inv_once b _ HI) as Ho. unfold stream in Ho.
    by rewrite filter_map_app, settled_reliable in Ho. }
  assert (∀ id, id ∈ epoch.order (ledger (co w)) →
    id ∉ settled_ids (sent (outlet w)) ∧ id ∉ settled_ids staged) as Hnew.
  { intros id Hin. pose proof (inv_unsettled b _ HI id Hin) as Hu. unfold stream in Hu.
    rewrite filter_map_app, settled_reliable, elem_of_app in Hu. tauto. }
  assert (settled_ids events = settled_ids staged ++ epoch.order (ledger (co w))) as Hev.
  { unfold events. rewrite exit_events_settled. unfold forced.
    rewrite forced_ids, take_all_ids by done. f_equal. apply filter_all, Forall_forall.
    intros id Hin. by apply Hnew. }
  assert (settled_ids (sent (outlet w) ++ events)
    = settled_ids (sent (outlet w)) ++ settled_ids staged ++ epoch.order (ledger (co w))) as Hall.
  { by rewrite filter_map_app, Hev. }
  assert (any epoch.is_epoch_ended staged = false) as Hnoend.
  { pose proof (inv_end b _ HI) as He. unfold stream in He. apply Forall_app in He as [_ He].
    by apply any_false. }
  pose proof (supervise_delivers (coordinator_exit (at_ s)) (dropped_maintenance s) faults staged
    (ledger (co w)) (outlet_closed (outlet w)) answers (snapshot w) (co_epoch (co w)) Hnoend) as Hsup.
  unfold supervise. cbv zeta in Hsup. fold w staged exit forced events in Hsup |- *.
  destruct (epoch.supervise_epoch _ _ _ _ _ _ _ _ _) as [[delivered snapshot'] result].
  destruct Hsup as (Hprefix&Hresult&_). rewrite Hall. split_and!.
  - rewrite app_assoc. apply NoDup_app. split; [done|]. split; [|apply (ledger_unique _ Hwf)].
    intros id Hid Hin. destruct (Hnew id Hin). by apply elem_of_app in Hid as [?|?].
  - intros Ho id Hid. assert (sink_closed (co w) = false) as Hc.
    { destruct (sink_closed (co w)) eqn:Hc; [|done].
      destruct (inv_closed b _ HI Hc) as [Hcl _]. congruence. }
    pose proof (inv_reported b _ HI Hc id Hid) as [Hk|Hk]; unfold stream in *;
      rewrite ?filter_map_app, ?settled_reliable, ?elem_of_app in *; tauto.
  - unfold events, epoch.exit_events. rewrite !app_assoc. apply last_snoc.
  - done.
  - intros Hok. destruct result; [|done..]. tauto.
Qed.
(** No handle is left and nobody asked for a shutdown. *)
Definition abandoned (w : World) : Prop :=
  handles_gone (lanes w) = true ∧ shutdown_slot w = None ∧
  (sink_closed (co w) = false → shutdown (co w) = StateRunning).

Lemma step_abandoned s s' :
  step s s' → Inv b (world s) → abandoned (world s) → abandoned (world s').
Proof.
  intros Hstep HI (Hgone&Hslot&Hrun).
  destruct Hstep as [s' Hadv| | | | | | |command Hh|control Hh|request Hh| |]; try congruence;
    try done.
  destruct (advance_good b s s' Hadv HI) as [_ He]. split_and!.
  - by rewrite (ev_handles _ _ He).
  - by rewrite (ev_slot _ _ He).
  - intros Hc. rewrite (ev_cause _ _ He Hc Hslot). apply Hrun.
    destruct (sink_closed (co (world s))) eqn:Hc'; [|done].
    by rewrite (ev_closed _ _ He Hc') in Hc.
Qed.

Lemma select_abandoned l w :
  handles_gone (lanes w) = true → select l w = Some BrSinkClosed ∨ select l w = Some BrShutdown.
Proof.
  intros Hg. unfold select. simpl. destruct (observe_sink l && _); [by left|right].
  by rewrite Hg, orb_true_r.
Qed.

(** dropping the last handle does not end an epoch. When no handle is left
    and none asked for a shutdown, then in every later state with an open
    outlet the coordinator still runs, although [on_control] and [on_command]
    begin a forced shutdown when their lane is closed: the [select!] prefers
    the watched shutdown request, whose [changed()] fails at once without a
    sender, so a closed lane is never looked at and the event loop never
    waits either. *)
Theorem dropped_handles_never_shut_down s s' :
  (0 ≤ queue_max b)%Z → reachable b s → abandoned (world s) → rtc step s s' →
  sink_closed (co (world s')) = false →
  shutdown (co (world s')) = StateRunning ∧
  ∀ l, at_ s' = AtSelect l →
    select l (world s') = Some BrSinkClosed ∨ select l (world s') = Some BrShutdown.
Proof.
  intros Hq Hr Hab Hsteps Hc. pose proof (reachable_Inv b s Hq Hr) as HI. clear Hr.
  assert (abandoned (world s')) as (Hgone&_&Hrun).
  { revert Hab HI. clear Hc. induction Hsteps as [s|s1 s2 s3 Hs Hsteps IH]; intros Hab HI; [done|].
    apply IH; [by eapply step_abandoned|by apply (step_Inv b s1 s2 Hs)]. }
  split; [by apply Hrun|]. intros l _. by apply select_abandoned.
Qed.
End safety.

(** ** The guarantees on concrete epochs *)

Import coordinator_demo.

Definition settlements_of (id : OperationId) (l : list RuntimeEvent) : list RuntimeEvent :=
  filter (λ e, epoch.settled_operation_id e = Some id) l.

Lemma settlements_of_prefix id l l' :
  l `prefix_of` l' → settlements_of id l `sublist_of` settlements_of id l'.
Proof. intros [k ->]. unfold settlements_of. rewrite filter_app. by apply sublist_inserts_r. Qed.

(** Whatever the outlet answers, its consumer gets no settlement but the sent
    ones and those of the supervisor's last events. *)
Lemma supervise_settlements_of id s faults answers settlements :
  any epoch.is_epoch_ended (staging.queue (reliable_staging (co (world s)))) = false →
  settlements_of id (sent (outlet (world s)) ++ last_events s faults) = settlements →
  let '(delivered, _, _) := supervise s faults answers in
  settlements_of id (sent (outlet (world s)) ++ delivered) `sublist_of` settlements.
Proof.
  intros Hnoend <-. unfold supervise.
  pose proof (supervise_delivers (coordinator_exit (at_ s)) (dropped_maintenance s) faults
    (staging.queue (reliable_staging (co (world s))))
    (ledger (co (world s))) (outlet_closed (outlet (world s))) answers (snapshot (world s))
    (co_epoch (co (world s))) Hnoend) as Hsup. cbv zeta in Hsup.
  destruct (epoch.supervise_epoch _ _ _ _ _ _ _ _ _) as [[delivered ?] ?].
  apply settlements_of_prefix, prefix_app, Hsup.
Qed.

(** a committed settlement can be lost. There is an epoch in which the
    driver of operation-1 published its settlement - succeeded, confirmed,
    committed at revision 2 - and its task ended, and in which the settlement
    is still unread when the coordinator admits another submission: [admit_operation]
    takes an idle epoch to be one without an active operation, and
    [spawn_driver] replaces the channel with the unread events. The epoch then
    shuts down in order, and the only settlement of operation-1 its consumer
    ever gets is the supervisor's: failed, unconfirmed, unchanged. *)
Theorem committed_settlement_is_lost :
  ∃ s s', reachable demo_bounds s ∧ rtc step s s' ∧
    (∃ rx, driver_events (co (world s)) = Some rx ∧
       EvOperationSettled "operation-1" Succeeded Confirmed (Committed 2) ∈ unread rx) ∧
    outlet_closed (outlet (world s')) = false ∧
    stopped (at_ s') = true ∧
    (∃ exit, coordinator_exit (at_ s') = Some exit ∧ epoch.exit_reason exit = EndShutdown) ∧
    ∀ answers, let '(delivered, _, _) := supervise s' [] answers in
      settlements_of "operation-1" (sent (outlet (world s')) ++ delivered) `sublist_of`
        [RtOperationSettled "operation-1" "session" Failed Unconfirmed Unchanged].
Proof.
  exists (after read_some), (after (read_some ++ second_submission ++ forced_end)).
  split_and!; [apply after_reachable|apply after_steps|..]; try by vm_compute.
  - eexists. split; [by vm_compute|]. apply list_elem_of_In. vm_compute. tauto.
  - eexists. split; by vm_compute.
  - intros answers. apply (supervise_settlements_of "operation-1"); [by vm_compute|].
    by vm_compute.
Qed.

Lemma coordinator_settles_at_most_once_witness :
  let w := world (after (read_some ++ second_submission ++ forced_end)) in
  NoDup (settled_ids (stream w)).
Proof. apply (coordinator_settles_at_most_once demo_bounds); [by vm_compute|apply after_reachable]. Defined.

Lemma coordinator_runs_in_order_witness :
  let c := co (world (after (dropped_early ++ [Advance]))) in
  running_ids c = ["operation-1"] ∧ NoDup (running_ids c).
Proof.
  split; [by vm_compute|].
  apply (coordinator_runs_in_order demo_bounds); [by vm_compute|apply after_reachable].
Defined.

Lemma coordinator_outlet_in_order_witness :
  sent (outlet (world (after one_operation)))
    `prefix_of` sent (outlet (world (after (one_operation ++ [Advance; Advance])))).
Proof.
  destruct (coordinator_outlet_in_order demo_bounds (after one_operation)
    (after (one_operation ++ [Advance; Advance]))) as (H&_);
    [by vm_compute|apply after_reachable|apply after_steps|exact H].
Defined.

Lemma epoch_settles_every_submission_witness :
  let s := after (read_some ++ second_submission ++ forced_end) in
  stopped (at_ s) = true ∧ accepted (world s) = ["operation-1"; "operation-2"] ∧
  NoDup (settled_ids (sent (outlet (world s)) ++ last_events s [])) ∧
  "operation-1" ∈ settled_ids (sent (outlet (world s)) ++ last_events s []).
Proof.
  intros s. assert (stopped (at_ s) = true) as Hstop by (by vm_compute).
  assert (accepted (world s) = ["operation-1"; "operation-2"]) as Hacc by (by vm_compute).
  pose proof (epoch_settles_every_submission demo_bounds s [] (repeat epoch.Sent 4)
    ltac:(by vm_compute) (after_reachable _) Hstop) as Hall.
  cbv zeta in Hall. destruct (supervise s [] _) as [[? ?] ?]. destruct Hall as (Honce&Hall&_).
  split_and!; [done..|]. apply Hall; [by vm_compute|]. rewrite Hacc. left.
Defined.

Lemma dropped_handles_never_shut_down_witness :
  abandoned (world (after dropped_early)) ∧
  shutdown (co (world (after (dropped_early ++ [Advance; Advance])))) = StateRunning.
Proof.
  assert (abandoned (world (after dropped_early))) as Hab by (by vm_compute).
  split; [exact Hab|].
  destruct (dropped_handles_never_shut_down demo_bounds (after dropped_early)
    (after (dropped_early ++ [Advance; Advance]))) as (H&_);
    [by vm_compute|apply after_reachable|exact Hab|apply after_steps|by vm_compute|exact H].
Defined.
End coordinator_safety.
