(* ===== verification/JsonlCodec.v ===== *)
(** The durable format of the JSONL session store
    (src/crates/philo-session-jsonl/src): the records of a log line
    (schema/record.rs), their conversion from and to session entries
    (schema/codec.rs), the names of image artifacts (artifact.rs) and of
    session directories (store/layout.rs).

    Module [jsonl_codec] works in [io W], a state monad over any state [W] with
    errors: decoding an entry calls a loader of artifacts. SHA-256 comes from
    another crate; [Sha256] is its digest. *)

From S2P Require Import Prelude RustStr Session.
From Stdlib Require Import Ascii.
Import session.

Module jsonl_codec.

(** ** A state monad with errors *)

Definition io (W E A : Type) : Type := W → W * outcome E A.
Definition ret {W E A} (a : A) : io W E A := λ w, (w, Ok a).
Definition fail {W E A} (e : E) : io W E A := λ w, (w, Err e).
Definition panic {W E A} : io W E A := λ w, (w, Panic).
Definition bind {W E A B} (m : io W E A) (f : A → io W E B) : io W E B := λ w,
  match m w with
  | (w, Ok a) => f a w
  | (w, Err e) => (w, Err e)
  | (w, Panic) => (w, Panic)
  end.
(** [map_err]. *)
Definition with_err {W E F A} (f : E → F) (m : io W E A) : io W F A := λ w,
  let '(w, r) := m w in (w, map_err f r).
Definition lift {W E A} (r : outcome E A) : io W E A := λ w, (w, r).

Declare Scope jsonl_scope.
Notation "'let!' x ':=' c 'in' k" := (bind c (λ x, k))
  (at level 10, x pattern, c at level 100, k at level 200) : jsonl_scope.
Notation "c ;; k" := (bind c (λ _, k))
  (at level 100, k at level 200, right associativity) : jsonl_scope.
Open Scope jsonl_scope.

(** [iter().map(f).collect::<Result<_, _>>()]: in order, up to the first error. *)
Fixpoint map_m {W E A B} (f : A → io W E B) (l : list A) : io W E (list B) :=
  match l with
  | [] => ret []
  | a :: l => let! b := f a in let! bs := map_m f l in ret (b :: bs)
  end.

(** ** schema/record.rs *)

Inductive UserPartRecord : Type :=
| RecPartText (text : string)
| RecPartImage (media_type artifact : string) (len : Z).

Inductive AssistantBlockRecord : Type :=
| RecBlockText (text : string)
| RecBlockToolCall (id name arguments : string).

Inductive ToolOutcomeRecord : Type :=
| RecSuccess (content : string)
| RecError (code message : string)
| RecResultCancelled
| RecResultInterrupted.

Record ToolResultRecord : Type := {
  rec_call_id : string;
  rec_outcome : ToolOutcomeRecord
}.

Inductive FailureKindRecord : Type :=
| RecModelCall | RecInvalidModelOutput | RecPersistence | RecRuntimeDriver | RecToolExecution.

Record FailureRecord : Type := {
  rec_failure_kind : FailureKindRecord;
  rec_failure_message : string
}.

Inductive OutcomeRecord : Type := RecSucceeded | RecFailed | RecCancelled.
Inductive ReasonRecord : Type := RecUser | RecTimeout | RecAbandoned.

Record TokenUsageRecord : Type := {
  rec_input_tokens : option Z;
  rec_output_tokens : option Z;
  rec_cache_read_tokens : option Z;
  rec_cache_write_tokens : option Z;
  rec_reasoning_tokens : option Z
}.

Record GenerationChoiceRecord : Type := {
  rec_provider : option string;
  rec_model_id : string;
  rec_reasoning_effort : option string
}.

Inductive KindRecord : Type :=
| RecOperationStarted (operation_id : string)
| RecTurnStarted (operation_id turn_id : string)
| RecUserMessage (turn_id : string) (parts : list UserPartRecord)
| RecAssistantToolCallBatch (turn_id model_call_id tool_batch_id : string)
    (blocks : list AssistantBlockRecord)
| RecToolResult (turn_id tool_batch_id : string) (result : ToolResultRecord)
| RecAssistantMessage (turn_id : string) (blocks : list AssistantBlockRecord)
| RecTurnFailure (turn_id : string) (failure : FailureRecord)
| RecTurnTerminated (turn_id : string) (out : OutcomeRecord) (reason : option ReasonRecord)
| RecOperationSettled (operation_id : string) (out : OutcomeRecord)
    (reason : option ReasonRecord) (usage : option TokenUsageRecord)
    (generation : option GenerationChoiceRecord)
| RecCompaction (summary covers_up_to : string)
| RecTitleSet (title : string).

Record EntryRecord : Type := {
  rec_id : string;
  rec_parent : option string;
  rec_kind : KindRecord
}.

(** One committed transaction: one line of the log. *)
Record TransactionRecord : Type := {
  rec_v : Z;
  rec_revision : Z;
  rec_entries : list EntryRecord
}.

Definition SCHEMA_VERSION : Z := 2.

(** ** artifact.rs: names *)

Class Sha256 : Type := digest : list Byte.byte → list Byte.byte.

(** The digits of [{:02x}] and of [{:02X}]. *)
Definition lower_digit (n : N) : ascii := ascii_of_N (if (n <? 10)%N then 48 + n else 87 + n).
Definition upper_digit (n : N) : ascii := ascii_of_N (if (n <? 10)%N then 48 + n else 55 + n).

Definition hex_byte (b : Byte.byte) : string :=
  let n := Byte.to_N b in
  String (lower_digit (n / 16)) (String (lower_digit (n mod 16)) EmptyString).

Definition sha256_hex `{Sha256} (bytes : list Byte.byte) : string :=
  concat_str (hex_byte <$> digest bytes).

(** ** schema/codec.rs *)

Record PendingArtifact : Type := {
  artifact_hash : string;
  artifact_bytes : list Byte.byte
}.

Definition encode_reason (reason : CancelReason) : ReasonRecord :=
  match reason with
  | ReasonUser => RecUser
  | ReasonTimeout => RecTimeout
  | ReasonAbandoned => RecAbandoned
  end.

Definition decode_reason (reason : option ReasonRecord) : outcome string CancelReason :=
  match reason with
  | Some RecUser => Ok ReasonUser
  | Some RecTimeout => Ok ReasonTimeout
  | Some RecAbandoned => Ok ReasonAbandoned
  | None => Err "cancelled outcome is missing required reason"
  end.

Definition encode_usage (usage : SessionTokenUsage) : TokenUsageRecord :=
  {| rec_input_tokens := input_tokens usage; rec_output_tokens := output_tokens usage;
     rec_cache_read_tokens := cache_read_tokens usage;
     rec_cache_write_tokens := cache_write_tokens usage;
     rec_reasoning_tokens := reasoning_tokens usage |}.

Definition decode_usage (usage : TokenUsageRecord) : SessionTokenUsage :=
  {| input_tokens := rec_input_tokens usage; output_tokens := rec_output_tokens usage;
     cache_read_tokens := rec_cache_read_tokens usage;
     cache_write_tokens := rec_cache_write_tokens usage;
     reasoning_tokens := rec_reasoning_tokens usage |}.

Definition encode_generation (choice : SessionGenerationChoice) : GenerationChoiceRecord :=
  {| rec_provider := choice_provider choice; rec_model_id := choice_model_id choice;
     rec_reasoning_effort := choice_reasoning_effort choice |}.

Definition decode_generation (record : GenerationChoiceRecord) : SessionGenerationChoice :=
  {| choice_provider := rec_provider record; choice_model_id := rec_model_id record;
     choice_reasoning_effort := rec_reasoning_effort record |}.

Definition encode_block (block : SessionAssistantBlock) : AssistantBlockRecord :=
  match block with
  | BlockText text => RecBlockText text
  | BlockToolCall call =>
      RecBlockToolCall (call_id call) (call_name call) (call_arguments call)
  end.

Definition decode_block (block : AssistantBlockRecord) : SessionAssistantBlock :=
  match block with
  | RecBlockText text => BlockText text
  | RecBlockToolCall id name arguments =>
      BlockToolCall {| call_id := id; call_name := name; call_arguments := arguments |}
  end.

Section codec.
Context `{Sha256}.

(** One part; a new image joins the pending artifacts. *)
Definition encode_part (pending : list PendingArtifact) (part : SessionUserPart)
    : list PendingArtifact * UserPartRecord :=
  match part with
  | PartText text => (pending, RecPartText text)
  | PartImage media_type bytes =>
      let hash := sha256_hex bytes in
      (if any (λ artifact, artifact_hash artifact == hash) pending then pending
       else pending ++ [{| artifact_hash := hash; artifact_bytes := bytes |}],
       RecPartImage media_type hash (Z.of_nat (length bytes)))
  end.

(** [map] with the pending artifacts as its state. *)
Fixpoint encode_all {A B} (f : list PendingArtifact → A → list PendingArtifact * B)
    (pending : list PendingArtifact) (l : list A) : list PendingArtifact * list B :=
  match l with
  | [] => (pending, [])
  | a :: l =>
      let '(pending, b) := f pending a in
      let '(pending, bs) := encode_all f pending l in
      (pending, b :: bs)
  end.

Definition encode_tool_outcome (out : ToolResultOutcome) : ToolOutcomeRecord :=
  match out with
  | Success content => RecSuccess content
  | Error code message => RecError code message
  | ResultCancelled => RecResultCancelled
  | ResultInterrupted => RecResultInterrupted
  end.

Definition encode_failure_kind (kind : TurnFailureKind) : FailureKindRecord :=
  match kind with
  | FailModelCall => RecModelCall
  | FailInvalidModelOutput => RecInvalidModelOutput
  | FailPersistence => RecPersistence
  | FailRuntimeDriver => RecRuntimeDriver
  | FailToolExecution => RecToolExecution
  end.

Definition encode_kind (pending : list PendingArtifact) (kind : SessionEntryKind)
    : list PendingArtifact * KindRecord :=
  match kind with
  | OperationStarted operation_id => (pending, RecOperationStarted operation_id)
  | TurnStarted operation_id turn_id => (pending, RecTurnStarted operation_id turn_id)
  | UserMessage turn_id parts =>
      let '(pending, parts) := encode_all encode_part pending parts in
      (pending, RecUserMessage turn_id parts)
  | AssistantToolCallBatch turn_id model_call_id tool_batch_id blocks =>
      (pending, RecAssistantToolCallBatch turn_id model_call_id tool_batch_id
                  (encode_block <$> blocks))
  | ToolResult turn_id tool_batch_id result =>
      (pending, RecToolResult turn_id tool_batch_id
                  {| rec_call_id := result_call_id result;
                     rec_outcome := encode_tool_outcome (result_outcome result) |})
  | AssistantMessage turn_id blocks =>
      (pending, RecAssistantMessage turn_id (encode_block <$> blocks))
  | TurnFailure turn_id failure =>
      (pending, RecTurnFailure turn_id
                  {| rec_failure_kind := encode_failure_kind (failure_kind failure);
                     rec_failure_message := failure_message failure |})
  | TurnTerminated turn_id out =>
      let '(out, reason) :=
        match out with
        | TurnSucceeded => (RecSucceeded, None)
        | TurnFailed => (RecFailed, None)
        | TurnCancelled reason => (RecCancelled, Some (encode_reason reason))
        end in
      (pending, RecTurnTerminated turn_id out reason)
  | OperationSettled operation_id out usage generation =>
      let '(out, reason) :=
        match out with
        | OpSucceeded => (RecSucceeded, None)
        | OpFailed => (RecFailed, None)
        | OpCancelled reason => (RecCancelled, Some (encode_reason reason))
        end in
      (pending, RecOperationSettled operation_id out reason (encode_usage <$> usage)
                  (encode_generation <$> generation))
  | Compaction summary covers_up_to => (pending, RecCompaction summary covers_up_to)
  | TitleSet title => (pending, RecTitleSet title)
  end.

Definition encode_entry (pending : list PendingArtifact) (entry : SessionEntry)
    : list PendingArtifact * EntryRecord :=
  let '(pending, kind) := encode_kind pending (entry_kind entry) in
  (pending, {| rec_id := entry_id entry; rec_parent := entry_parent entry; rec_kind := kind |}).

Section decode.
Context {W : Type} (load_artifact : string → Z → io W string (list Byte.byte)).

Definition decode_part (part : UserPartRecord) : io W string SessionUserPart :=
  match part with
  | RecPartText text => ret (PartText text)
  | RecPartImage media_type artifact len =>
      let! bytes := load_artifact artifact len in ret (PartImage media_type bytes)
  end.

Definition decode_tool_outcome (out : ToolOutcomeRecord) : ToolResultOutcome :=
  match out with
  | RecSuccess content => Success content
  | RecError code message => Error code message
  | RecResultCancelled => ResultCancelled
  | RecResultInterrupted => ResultInterrupted
  end.

Definition decode_failure_kind (kind : FailureKindRecord) : TurnFailureKind :=
  match kind with
  | RecModelCall => FailModelCall
  | RecInvalidModelOutput => FailInvalidModelOutput
  | RecPersistence => FailPersistence
  | RecRuntimeDriver => FailRuntimeDriver
  | RecToolExecution => FailToolExecution
  end.

Definition decode_kind (record : KindRecord) : io W string SessionEntryKind :=
  match record with
  | RecOperationStarted operation_id => ret (OperationStarted operation_id)
  | RecTurnStarted operation_id turn_id => ret (TurnStarted operation_id turn_id)
  | RecUserMessage turn_id parts =>
      let! parts := map_m decode_part parts in ret (UserMessage turn_id parts)
  | RecAssistantToolCallBatch turn_id model_call_id tool_batch_id blocks =>
      ret (AssistantToolCallBatch turn_id model_call_id tool_batch_id (decode_block <$> blocks))
  | RecToolResult turn_id tool_batch_id result =>
      ret (ToolResult turn_id tool_batch_id
             {| result_call_id := rec_call_id result;
                result_outcome := decode_tool_outcome (rec_outcome result) |})
  | RecAssistantMessage turn_id blocks =>
      ret (AssistantMessage turn_id (decode_block <$> blocks))
  | RecTurnFailure turn_id failure =>
      ret (TurnFailure turn_id
             {| failure_kind := decode_failure_kind (rec_failure_kind failure);
                failure_message := rec_failure_message failure |})
  | RecTurnTerminated turn_id out reason =>
      let! out :=
        match out with
        | RecSucceeded => ret TurnSucceeded
        | RecFailed => ret TurnFailed
        | RecCancelled => let! reason := lift (decode_reason reason) in ret (TurnCancelled reason)
        end in
      ret (TurnTerminated turn_id out)
  | RecOperationSettled operation_id out reason usage generation =>
      let! out :=
        match out with
        | RecSucceeded => ret OpSucceeded
        | RecFailed => ret OpFailed
        | RecCancelled => let! reason := lift (decode_reason reason) in ret (OpCancelled reason)
        end in
      ret (OperationSettled operation_id out (decode_usage <$> usage)
             (decode_generation <$> generation))
  | RecCompaction summary covers_up_to => ret (Compaction summary covers_up_to)
  | RecTitleSet title => ret (TitleSet title)
  end.

Definition decode_entry (record : EntryRecord) : io W string SessionEntry :=
  let! kind := decode_kind (rec_kind record) in
  ret {| entry_id := rec_id record; entry_parent := rec_parent record; entry_kind := kind |}.
End decode.
End codec.

(** ** store/layout.rs: names of session directories *)

(** [b'a'..=b'z' | b'0'..=b'9' | b'-' | b'_']. *)
Definition is_plain (b : ascii) : bool :=
  in_range 97 122 b || in_range 48 57 b || in_range 45 45 b || in_range 95 95 b.

Fixpoint encode_name (id : string) : string :=
  match id with
  | EmptyString => EmptyString
  | String byte id =>
      if is_plain byte then String byte (encode_name id)
      else
        let n := N_of_ascii byte in
        String "%" (String (upper_digit (n / 16)) (String (upper_digit (n mod 16))
          (encode_name id)))
  end.

Definition session_dir_name (session_id : SessionId) : string := "s-" +:+ encode_name session_id.

Definition hex_value (byte : ascii) : option N :=
  if in_range 48 57 byte then Some (N_of_ascii byte - 48)%N
  else if in_range 65 70 byte then Some (N_of_ascii byte - 55)%N
  else None.

(** The loop of [decode_session_dir_name]. *)
Fixpoint decode_name (encoded : string) : option string :=
  match encoded with
  | EmptyString => Some EmptyString
  | String b rest =>
      if bool_decide (b = "%"%char) then
        match rest with
        | String high (String low rest) =>
            high ← hex_value high;
            low ← hex_value low;
            decoded ← decode_name rest;
            Some (String (ascii_of_N (N.lor (N.shiftl high 4) low)) decoded)
        | _ => None
        end
      else if is_plain b then decoded ← decode_name rest; Some (String b decoded)
      else None
  end.

Definition decode_session_dir_name (name : string) : option SessionId :=
  encoded ← strip_prefix "s-" name;
  decoded ← decode_name encoded;
  session_id ← from_utf8 decoded;
  if session_dir_name session_id == name then Some session_id else None.

Example dir_name_of_accent : session_dir_name "A-é" = "s-%41-%C3%A9".
Proof. reflexivity. Qed.
Example dir_name_decoded : decode_session_dir_name "s-%41-%C3%A9" = Some "A-é".
Proof. reflexivity. Qed.
Example dir_name_foreign : decode_session_dir_name "s-%61" = None.
Proof. reflexivity. Qed.

End jsonl_codec.
