(* ===== verification/Jsonl.v ===== *)
(** The JSONL session store (src/crates/philo-session-jsonl/src): an
    append-only log and content-addressed image files per session
    (artifact.rs, store/layout.rs), recovery (store/recovery.rs), and the actor
    that owns them (store/actor.rs, store/mod.rs, error.rs).

    Module [jsonl] runs in [io World], where the world is the actor's sessions
    and the file system under the store's root. A file keeps its content and
    what of it a power loss may leave: the content at the last sync and the
    content after each write since. A name in a directory is [linked] once the
    directory was synced. Every access of the file system may fail: the
    [Faults] answer the accesses in their order. [serde_json] with its derived
    conversions is the class [Json]. *)

From S2P Require Import Prelude RustStr Session SessionStore RuntimeMapping JsonlCodec.
From Stdlib Require Import Ascii.
Import session jsonl_codec.

Module jsonl.

(** ** Files *)

Record File : Type := { stable : string; pending_writes : list string }.

Definition content (f : File) : string := default (stable f) (last (pending_writes f)).
Definition write_file (s : string) (f : File) : File :=
  {| stable := stable f; pending_writes := pending_writes f ++ [s] |}.
Definition sync_file (f : File) : File := {| stable := content f; pending_writes := [] |}.
Definition new_file : File := {| stable := ""; pending_writes := [] |}.

(** A name that survives a power loss once [linked], and what it names. *)
Record Linked (A : Type) : Type := { linked : bool; node : A }.
Arguments linked {_} _.
Arguments node {_} _.
Arguments Build_Linked {_} _ _.
Definition link {A} (l : Linked A) : Linked A := {| linked := true; node := node l |}.

(** A session directory: the advisory lock, [log.jsonl], [artifacts/] and the
    title sidecar. *)
Record Dir : Type := {
  locked : bool;
  log : option (Linked File);
  artifacts : option (Linked (gmap string (Linked (list Byte.byte))));
  title_file : option string
}.

Inductive Node : Type := NodeFile | NodeDir (dir : Dir).

(** The entries of the store's root. *)
Abbreviation Root := (gmap string (Linked Node)).

(** ** error.rs and the state of the actor *)

Inductive JsonlOpenError : Type :=
| Io (context : string)
| Locked (path : string)
| Corrupt (line : Z) (reason : string)
| UnsupportedSchema (found : Z).

Record RecoveryReport : Type := {
  transactions : nat;
  truncated_tail_bytes : nat;
  orphan_artifacts : list string
}.
Definition report_empty : RecoveryReport :=
  {| transactions := 0; truncated_tail_bytes := 0; orphan_artifacts := [] |}.

(** [SessionState]; the log file and the lock are those of the directory. *)
Record SessionState : Type := {
  projection : SessionProjection;
  report : RecoveryReport;
  sidecar_title : option string;
  poisoned : option string
}.

(** The actor's sessions, the file system, the number of accesses so far. *)
Record World : Type := {
  sessions : gmap SessionId SessionState;
  root : Root;
  looks : nat
}.

Definition set_sessions v (w : World) : World := Build_World v (root w) (looks w).
Definition set_root v (w : World) : World := Build_World (sessions w) v (looks w).

(** [fault n] is the kind with which the [n]th access fails, other than that a
    file is missing or locked; [written n] the bytes a failing write leaves;
    [stat_fault n] that the [n]th query of a file type fails, which [is_dir]
    takes for an answer. *)
Class Faults : Type := {
  fault : nat → option string;
  written : nat → nat;
  stat_fault : nat → bool;
  mtime : nat → option Z
}.

(** What [serde_json] makes of a line: a value, an error at the end of the
    input, another error. *)
Inductive Parsed (V : Type) : Type :=
| Value (v : V) | EofError (message : string) | OtherError (message : string).
Arguments Value {_} _.
Arguments EofError {_} _.
Arguments OtherError {_} _.

Class Json : Type := {
  json_value : Type;
  from_slice : string → Parsed json_value;
  (** [value.get("v").and_then(as_u64)] *)
  value_version : json_value → option Z;
  from_value : json_value → string + TransactionRecord;
  to_vec : TransactionRecord → string + string
}.

(** The order in which [read_dir] lists names. *)
Class DirOrder : Type := {
  dir_order {A} : gmap string A → list (string * A);
  dir_order_perm {A} (m : gmap string A) : dir_order m ≡ₚ map_to_list m
}.

(** The path of the store's root, and a path below it. *)
Class StorePath : Type := store_path : string.
Definition join_path (base name : string) : string := base +:+ "/" +:+ name.

Section store.
Context {sha : Sha256} {faults : Faults} {json : Json} {order : DirOrder} {base : StorePath}.
Context {dbg : DebugSessionError}.

Definition io_error (context kind : string) : JsonlOpenError :=
  Io (context +:+ " (" +:+ kind +:+ ")").
Definition io_error_text (context : string) : JsonlOpenError := Io context.

Definition display_open_error (e : JsonlOpenError) : string :=
  match e with
  | Io context => "jsonl io failure: " +:+ context
  | Locked path => "jsonl session locked by another writer: " +:+ path
  | Corrupt line reason => "jsonl log corrupt at line " +:+ display line +:+ ": " +:+ reason
  | UnsupportedSchema found =>
      "jsonl schema version " +:+ display found +:+ " is unsupported (expected 2)"
  end.

(** ** Access to the file system *)

Definition get {E} : io World E World := λ w, (w, Ok w).
Definition modify {E} (f : World → World) : io World E unit := λ w, (f w, Ok tt).
Definition looked (w : World) : World := Build_World (sessions w) (root w) (S (looks w)).

(** An access that fails or succeeds. *)
Definition access : io World string unit := λ w,
  (looked w, match fault (looks w) with Some kind => Err kind | None => Ok tt end).

(** A query of a file type, which answers "no" when it fails. *)
Definition stat {E} (holds : World → bool) : io World E bool := λ w,
  (looked w, Ok (negb (stat_fault (looks w)) && holds w)).

(** The result of a call that may fail, as a value. *)
Definition catch {E F A} (m : io World E A) : io World F (E + A) := λ w,
  match m w with
  | (w, Ok a) => (w, Ok (inr a))
  | (w, Err e) => (w, Ok (inl e))
  | (w, Panic) => (w, Panic)
  end.

Definition lift_sum {E A} (r : E + A) : io World E A :=
  match r with inl e => fail e | inr a => ret a end.

Definition when {E} (b : bool) (m : io World E unit) : io World E unit :=
  if b then m else ret tt.

(** The directory of that name. *)
Definition dir_at (name : string) (w : World) : option Dir :=
  match root w !! name with
  | Some {| node := NodeDir dir |} => Some dir
  | _ => None
  end.
Definition update_node (f : Dir → Dir) (l : Linked Node) : Linked Node :=
  {| linked := linked l;
     node := match node l with NodeDir dir => NodeDir (f dir) | NodeFile => NodeFile end |}.
Definition on_dir {E} (name : string) (f : Dir → Dir) : io World E unit :=
  modify (λ w, set_root (alter (update_node f) name (root w)) w).

Definition set_locked v (d : Dir) : Dir := Build_Dir v (log d) (artifacts d) (title_file d).
Definition set_log v (d : Dir) : Dir := Build_Dir (locked d) v (artifacts d) (title_file d).
Definition set_artifacts v (d : Dir) : Dir := Build_Dir (locked d) (log d) v (title_file d).
Definition set_title_file v (d : Dir) : Dir := Build_Dir (locked d) (log d) (artifacts d) v.
Definition on_log (f : File → File) (d : Dir) : Dir :=
  set_log ((λ l, {| linked := linked l; node := f (node l) |}) <$> log d) d.
Definition on_artifacts (f : gmap string (Linked (list Byte.byte)) →
    gmap string (Linked (list Byte.byte))) (d : Dir) : Dir :=
  set_artifacts ((λ l, {| linked := linked l; node := f (node l) |}) <$> artifacts d) d.
Definition empty_dir : Dir :=
  {| locked := false; log := None; artifacts := None; title_file := None |}.

Definition is_session_dir {E} (name : string) : io World E bool :=
  stat (λ w, session.is_some (dir_at name w)).

(** ** layout.rs: locks, syncs and the sidecar *)

Definition acquire_lock (name : string) : io World JsonlOpenError unit :=
  with_err (io_error "opening lock file") access ;;
  with_err (io_error "acquiring session lock") access ;;
  let! w := get in
  if match dir_at name w with Some dir => locked dir | None => false end then
    fail (Locked (join_path (join_path store_path name) "lock"))
  else on_dir name (set_locked true).

(** A [File] that holds the lock is dropped when the rest fails. *)
Definition with_lock {A} (name : string) (m : io World JsonlOpenError A)
    : io World JsonlOpenError A :=
  acquire_lock name ;;
  let! r := catch m in
  match r with
  | inr a => ret a
  | inl e => on_dir name (set_locked false) ;; fail e
  end.

Definition read_title_file {E} (name : string) : io World E (option string) :=
  let! read := catch access in
  let! w := get in
  ret (match read with
       | inl _ => None
       | inr _ =>
           text ← dir_at name w ≫= title_file;
           text ← from_utf8 text;
           if str_is_empty (trim text) then None else Some (trim text)
       end).

Definition write_title_file {E} (name : string) (title : option string) : io World E unit :=
  match title with
  | Some title =>
      let! renamed := catch (access ;; access) in
      match renamed with
      | inr _ => on_dir name (set_title_file (Some title))
      | inl _ => let! _ := catch access in ret tt
      end
  | None =>
      let! exists_ := stat (λ w, session.is_some (dir_at name w ≫= title_file)) in
      when exists_
        (let! removed := catch access in
         match removed with
         | inr _ => on_dir name (set_title_file None)
         | inl _ => ret tt
         end)
  end.

(** [fsync_dir] of a session directory, of the root and of [artifacts/]. *)
Definition fsync_session_dir (name : string) : io World JsonlOpenError unit :=
  with_err (io_error "syncing directory") access ;;
  on_dir name (λ d, set_artifacts (link <$> artifacts d) (set_log (link <$> log d) d)).
Definition fsync_root : io World JsonlOpenError unit :=
  with_err (io_error "syncing directory") access ;;
  modify (λ w, set_root (link <$> root w) w).
Definition fsync_artifacts (name : string) : io World JsonlOpenError unit :=
  with_err (io_error "syncing directory") access ;;
  on_dir name (on_artifacts (fmap link)).

(** ** artifact.rs *)

Definition artifact_at (name hash : string) (w : World) : option (list Byte.byte) :=
  dir ← dir_at name w; l ← artifacts dir; a ← node l !! hash; Some (node a).

Definition put_artifact (hash : string) (bytes : list Byte.byte)
    : gmap string (Linked (list Byte.byte)) → gmap string (Linked (list Byte.byte)) :=
  <[hash := {| linked := false; node := bytes |}]>.

(** The temporary file is written, synced and renamed to its hash. *)
Definition store_artifact (name hash : string) (bytes : list Byte.byte)
    : io World string unit :=
  let! present := stat (λ w, session.is_some (artifact_at name hash w)) in
  if present then ret tt
  else
    access ;;
    on_dir name (λ d,
      set_artifacts (Some (default {| linked := false; node := ∅ |} (artifacts d))) d) ;;
    let temp := hash +:+ ".tmp" in
    access ;;
    on_dir name (on_artifacts (put_artifact temp [])) ;;
    let! w := get in
    let! writing := catch access in
    match writing with
    | inl kind =>
        on_dir name (on_artifacts (put_artifact temp (take (written (looks w)) bytes))) ;;
        fail kind
    | inr _ =>
        on_dir name (on_artifacts (put_artifact temp bytes)) ;;
        access ;;
        access ;;
        on_dir name (on_artifacts (λ files, put_artifact hash bytes (delete temp files)))
    end.

Definition load_artifact (name hash : string) (expected_len : Z)
    : io World string (list Byte.byte) :=
  let unreadable kind := "referenced artifact " +:+ hash +:+ " unreadable: " +:+ kind in
  with_err unreadable access ;;
  let! w := get in
  match artifact_at name hash w with
  | None => fail (unreadable "NotFound")
  | Some bytes =>
      if Z.of_nat (length bytes) != expected_len then
        fail ("artifact " +:+ hash +:+ " length " +:+ display_nat (length bytes)
              +:+ " does not match recorded length " +:+ display expected_len)
      else if sha256_hex bytes != hash then
        fail ("artifact " +:+ hash +:+ " content does not match its hash")
      else ret bytes
  end.

(** ** recovery.rs *)

Definition newline : string := String "010"%char EmptyString.

(** The complete lines of a text and what follows the last newline. *)
Fixpoint split_lines (s : string) : list string * string :=
  match s with
  | EmptyString => ([], EmptyString)
  | String b s =>
      let '(lines, tail) := split_lines s in
      if bool_decide (b = "010"%char) then ("" :: lines, tail)
      else
        match lines with
        | line :: lines => (String b line :: lines, tail)
        | [] => ([], String b tail)
        end
  end.

(** Where the loop over the log stands. *)
Record Replayed : Type := {
  replayed : SessionProjection;
  referenced : list string;
  truncate_at : option nat
}.

(** The loader of the loop also notes what it loaded. *)
Definition load_noting (name hash : string) (len : Z)
    : io (World * list string) string (list Byte.byte) := λ '(w, noted),
  let '(w, r) := load_artifact name hash len w in
  ((w, if is_ok r then noted ++ [hash] else noted), r).

Definition decode_entries (name : string) (noted : list string) (entries : list EntryRecord)
    : io World string (list SessionEntry * list string) := λ w,
  match map_m (decode_entry (load_noting name)) entries (w, noted) with
  | ((w, noted), Ok entries) => (w, Ok (entries, noted))
  | ((w, _), Err e) => (w, Err e)
  | ((w, _), Panic) => (w, Panic)
  end.

(** One complete line: [None] when it is crash residue. *)
Definition replay_line (name line : string) (is_last : bool) (line_number : nat)
    (p : SessionProjection) (noted : list string)
    : io World JsonlOpenError (option (SessionProjection * list string)) :=
  let corrupt reason := Corrupt (Z.of_nat line_number) reason in
  match from_slice line with
  | EofError message =>
      if is_last then ret None else fail (corrupt ("envelope parse failed: " +:+ message))
  | OtherError message => fail (corrupt ("envelope parse failed: " +:+ message))
  | Value value =>
      match value_version value with
      | None => fail (corrupt "envelope parse failed: missing numeric schema version")
      | Some found =>
          if found != SCHEMA_VERSION then fail (UnsupportedSchema found)
          else
            let! record :=
              with_err (λ error, corrupt ("envelope parse failed: " +:+ error))
                (lift_sum (from_value value)) in
            if rec_v record != SCHEMA_VERSION then fail (UnsupportedSchema (rec_v record))
            else if rec_revision record != Z.of_nat line_number then
              fail (corrupt ("revision " +:+ display (rec_revision record)
                             +:+ " does not match transaction position "
                             +:+ display_nat line_number))
            else
              let! result := with_err corrupt (decode_entries name noted (rec_entries record)) in
              let '(entries, noted) := result in
              match replay p entries with
              | (p, Ok _) => ret (Some (p, noted))
              | (_, Err error) =>
                  fail (corrupt ("validation core rejected the transaction: "
                                 +:+ debug_session_error error))
              | (_, Panic) => panic
              end
      end
  end.

(** The loop over the log. *)
Fixpoint replay_lines (name : string) (lines : list string) (tail : string)
    (line_number offset : nat) (p : SessionProjection) (noted : list string)
    : io World JsonlOpenError Replayed :=
  match lines with
  | [] =>
      ret {| replayed := p; referenced := noted;
             truncate_at := if str_is_empty tail then None else Some offset |}
  | line :: lines =>
      let is_last := is_nil lines && str_is_empty tail in
      let! next := replay_line name line is_last (S line_number) p noted in
      match next with
      | None => ret {| replayed := p; referenced := noted; truncate_at := Some offset |}
      | Some (p, noted) =>
          replay_lines name lines tail (S line_number) (offset + String.length line + 1) p noted
      end
  end.

Definition replay_log (name bytes : string) : io World JsonlOpenError Replayed :=
  let '(lines, tail) := split_lines bytes in replay_lines name lines tail 0 0 empty [].

(** The entries of a listing, each an access. *)
Definition read_names (context : string) {A} (files : gmap string A)
    : io World JsonlOpenError (list string) :=
  with_err (io_error context) access ;;
  map_m (λ '(name, _), with_err (io_error context) access ;; ret name) (dir_order files).

Definition sort_names (names : list string) : list string := merge_sort String.le names.

Definition find_orphans (name : string) (noted : list string)
    : io World JsonlOpenError (list string) :=
  let! exists_ := stat (λ w, session.is_some (dir_at name w ≫= artifacts)) in
  let! w := get in
  match dir_at name w ≫= artifacts with
  | Some l =>
      if exists_ then
        let! names := read_names "listing artifacts" (node l) in
        ret (sort_names (filter (λ n, n ∉ noted) names))
      else ret []
  | None => ret []
  end.

(** Cut the tail and sync; the number of bytes cut. *)
Definition cut_tail (name bytes : string) (keep : option nat) : io World JsonlOpenError nat :=
  match keep with
  | None => ret 0
  | Some keep =>
      with_err (io_error "opening log for tail truncation") access ;;
      with_err (io_error "truncating torn tail") access ;;
      on_dir name (on_log (write_file (String.substring 0 keep bytes))) ;;
      with_err (io_error "syncing truncated log") access ;;
      on_dir name (on_log sync_file) ;;
      ret (String.length bytes - keep)
  end.

(** [OpenOptions::new().create(true).append(true).open(log)]. *)
Definition open_log (context name : string) : io World JsonlOpenError unit :=
  with_err (io_error context) access ;;
  on_dir name (λ d, set_log (Some (default {| linked := false; node := new_file |} (log d))) d).

Definition log_content (name : string) (w : World) : option string :=
  dir ← dir_at name w; l ← log dir; Some (content (node l)).

Definition recover_locked (name : string) : io World JsonlOpenError SessionState :=
  with_lock name
    (with_err (io_error "reading session log") access ;;
     let! w := get in
     let bytes := default "" (log_content name w) in
     let! log := replay_log name bytes in
     let! orphans := find_orphans name (referenced log) in
     let! cut := cut_tail name bytes (truncate_at log) in
     open_log "opening log for append" name ;;
     let resolved := projection_title (replayed log) in
     let! title := read_title_file name in
     when (title != resolved) (write_title_file name resolved) ;;
     ret {| projection := replayed log;
            report := {| transactions := revision (replayed log);
                         truncated_tail_bytes := cut; orphan_artifacts := orphans |};
            sidecar_title := resolved; poisoned := None |}).

(** ** actor.rs *)

(** [create_dir_all] of a session directory, and its error when the name is a
    file. *)
Definition create_session_dir (name : string) : io World JsonlOpenError unit :=
  with_err (io_error "creating session dir") access ;;
  let! w := get in
  match root w !! name with
  | Some {| node := NodeDir _ |} => ret tt
  | Some {| node := NodeFile |} => fail (io_error "creating session dir" "AlreadyExists")
  | None =>
      modify (set_root (<[name := {| linked := false; node := NodeDir empty_dir |}]> (root w)))
  end.

Definition create_session (name : string) : io World JsonlOpenError SessionState :=
  create_session_dir name ;;
  with_lock name
    (open_log "creating session log" name ;;
     fsync_session_dir name ;;
     fsync_root ;;
     ret {| projection := empty; report := report_empty; sidecar_title := None;
            poisoned := None |}).

Definition put_state {E} (session_id : SessionId) (state : SessionState) : io World E unit :=
  modify (λ w, set_sessions (<[session_id := state]> (sessions w)) w).

Definition touch (session_id : SessionId) (create_missing : bool)
    : io World JsonlOpenError (option SessionState) :=
  let! w := get in
  match sessions w !! session_id with
  | Some state => ret (Some state)
  | None =>
      let name := session_dir_name session_id in
      let! present := is_session_dir name in
      if present then
        let! state := recover_locked name in put_state session_id state ;; ret (Some state)
      else if create_missing then
        let! state := create_session name in put_state session_id state ;; ret (Some state)
      else ret None
  end.

Definition unavailable (error : JsonlOpenError) : SessionError :=
  StoreUnavailable (display_open_error error).

Definition actor_context_view (session_id : SessionId) : io World SessionError SessionContextView :=
  let! state := with_err unavailable (touch session_id false) in
  match state with
  | Some state => lift (context_view (projection state) session_id)
  | None => lift (context_view empty session_id)
  end.

Definition recover_session (session_id : SessionId) : io World JsonlOpenError RecoveryReport :=
  let! w := get in
  match sessions w !! session_id with
  | Some state => ret (report state)
  | None =>
      let name := session_dir_name session_id in
      let! present := is_session_dir name in
      if present then
        let! state := recover_locked name in put_state session_id state ;; ret (report state)
      else ret report_empty
  end.

(** The walk of [scan_session_dirs]: what is not a directory, also because its
    type cannot be read, and foreign names are skipped. *)
Fixpoint scan_names (names : list string) : io World JsonlOpenError (list (SessionId * string)) :=
  match names with
  | [] => ret []
  | name :: names =>
      let! is_directory := is_session_dir name in
      let! rest := scan_names names in
      ret (match decode_session_dir_name name with
           | Some session_id =>
               if is_directory then (session_id, name) :: rest else rest
           | None => rest
           end)
  end.

Definition scan_session_dirs : io World JsonlOpenError (list (SessionId * string)) :=
  let! w := get in
  let! names := read_names "listing store root" (root w) in
  scan_names names.

Definition actor_list_sessions : io World JsonlOpenError (list SessionId) :=
  let! found := scan_session_dirs in ret (fst <$> found).

Definition actor_list_session_summaries : io World JsonlOpenError (list store.SessionSummary) :=
  let! found := scan_session_dirs in
  map_m (λ '(session_id, name),
    let! w := get in
    modify looked ;;
    let! title := read_title_file name in
    ret {| store.summary_session_id := session_id; store.summary_title := title;
           store.summary_updated_at := mtime (looks w) |}) found.

Definition poison (session_id : SessionId) (state : SessionState) {A} (reason : string)
    : io World SessionError A :=
  put_state session_id
    {| projection := projection state; report := report state;
       sidecar_title := sidecar_title state; poisoned := Some reason |} ;;
  fail (StoreUnavailable reason).

(** [sync_title_sidecar] on the committed projection. *)
Definition sync_title_sidecar (name : string) (state : SessionState)
    : io World SessionError SessionState :=
  let resolved := projection_title (projection state) in
  if bool_decide (resolved = sidecar_title state) then ret state
  else
    write_title_file name resolved ;;
    let synced :=
      {| projection := projection state; report := report state; sidecar_title := resolved;
         poisoned := poisoned state |} in
    match resolved with
    | None => ret synced
    | Some _ =>
        let! title := read_title_file name in
        ret (if bool_decide (title = resolved) then synced else state)
    end.

(** Every artifact, in order, up to the first failure. *)
Fixpoint store_artifacts (name : string) (pending : list PendingArtifact)
    : io World string unit :=
  match pending with
  | [] => ret tt
  | artifact :: pending =>
      store_artifact name (artifact_hash artifact) (artifact_bytes artifact) ;;
      store_artifacts name pending
  end.

(** The barrier before the log line: its failure as the reason that poisons. *)
Definition write_artifacts (name : string) (pending : list PendingArtifact)
    : io World string unit :=
  if is_nil pending then ret tt
  else
    with_err (λ kind, "artifact write or fsync failed (" +:+ kind +:+ ")")
      (store_artifacts name pending) ;;
    with_err (λ error, "artifact directory sync failed: " +:+ display_open_error error)
      (fsync_artifacts name).

(** [write_all] to the end of the log, then [sync_all]. *)
Definition append_log (name bytes : string) : io World string unit :=
  let! w := get in
  let before := default "" (log_content name w) in
  let! writing := catch access in
  match writing with
  | inl kind =>
      on_dir name (on_log (write_file
        (before +:+ String.substring 0 (written (looks w)) bytes))) ;;
      fail kind
  | inr _ =>
      on_dir name (on_log (write_file (before +:+ bytes))) ;;
      access ;;
      on_dir name (on_log sync_file)
  end.

(** The record of a transaction, with the artifacts it refers to. *)
Definition encode_transaction (applied : AppliedTransaction)
    : list PendingArtifact * TransactionRecord :=
  let '(pending, entries) := encode_all encode_entry [] (applied_entries applied) in
  (pending, {| rec_v := SCHEMA_VERSION;
               rec_revision := Z.of_nat (revision (applied_projection applied));
               rec_entries := entries |}).

(** The session after a commit. *)
Definition committed_state (applied : AppliedTransaction) (state : SessionState) : SessionState :=
  {| projection := applied_projection applied; report := report state;
     sidecar_title := sidecar_title state; poisoned := poisoned state |}.

(** [commit] once the session is touched. *)
Definition commit_state (transaction : SessionTransaction) (state : SessionState)
    : io World SessionError SessionCommit :=
  let session_id := tx_session_id transaction in
  let name := session_dir_name session_id in
  match poisoned state with
  | Some reason =>
      fail (StoreUnavailable ("session refused after write failure: " +:+ reason))
  | None =>
      if tx_expected_revision transaction != revision (projection state) then
        fail (RevisionConflict (tx_expected_revision transaction) (revision (projection state)))
      else
        let! applied := lift (apply (projection state) transaction) in
        let '(pending, record) := encode_transaction applied in
        let! stored := catch (write_artifacts name pending) in
        match stored with
        | inl reason => poison session_id state reason
        | inr _ =>
            let! line :=
              with_err (λ error,
                StoreUnavailable ("envelope serialization failed: " +:+ error))
                (lift_sum (to_vec record)) in
            let! appended := catch (append_log name (line +:+ newline)) in
            match appended with
            | inl kind =>
                poison session_id state ("append or fsync failed (" +:+ kind +:+ ")")
            | inr _ =>
                let! commit := lift (applied_commit applied) in
                let! state := sync_title_sidecar name (committed_state applied state) in
                put_state session_id state ;;
                ret commit
            end
        end
  end.

Definition actor_commit (transaction : SessionTransaction) : io World SessionError SessionCommit :=
  let! state := with_err unavailable (touch (tx_session_id transaction) true) in
  match state with
  | None => panic
  | Some state => commit_state transaction state
  end.

(** [finish]: every log is synced as well as it can be, the locks are dropped. *)
Fixpoint finish_sessions (names : list string) : io World Empty_set unit :=
  match names with
  | [] => ret tt
  | name :: names =>
      let! synced := catch access in
      match synced with inr _ => on_dir name (on_log sync_file) | inl _ => ret tt end ;;
      on_dir name (set_locked false) ;;
      finish_sessions names
  end.

Definition finish : io World Empty_set unit :=
  let! w := get in
  finish_sessions ((λ '(session_id, _), session_dir_name session_id) <$> dir_order (sessions w)) ;;
  modify (set_sessions ∅).

(** ** The queue of commands *)

Inductive StoreCommand : Type :=
| CmdContextView (session_id : SessionId)
| CmdCommit (transaction : SessionTransaction)
| CmdListSessions
| CmdListSessionSummaries
| CmdRecoverSession (session_id : SessionId)
| CmdShutdown.

Inductive StoreReply : Type :=
| ReplyContextView (answer : outcome SessionError SessionContextView)
| ReplyCommit (answer : outcome SessionError SessionCommit)
| ReplyListSessions (answer : outcome JsonlOpenError (list SessionId))
| ReplyListSessionSummaries (answer : outcome JsonlOpenError (list store.SessionSummary))
| ReplyRecoverSession (answer : outcome JsonlOpenError RecoveryReport)
| ReplyShutdown.

Definition answer_with {E A} (m : io World E A) (reply : outcome E A → StoreReply) (w : World)
    : World * StoreReply :=
  let '(w, r) := m w in (w, reply r).

(** [drain_queued_commits]: commits still run, everything else is refused. *)
Definition drain_command (command : StoreCommand) (w : World) : World * StoreReply :=
  match command with
  | CmdCommit transaction => answer_with (actor_commit transaction) ReplyCommit w
  | CmdShutdown => (w, ReplyShutdown)
  | CmdContextView _ =>
      (w, ReplyContextView (Err (StoreUnavailable "jsonl store shutting down")))
  | CmdListSessions => (w, ReplyListSessions (Err (io_error_text "jsonl store shutting down")))
  | CmdListSessionSummaries =>
      (w, ReplyListSessionSummaries (Err (io_error_text "jsonl store shutting down")))
  | CmdRecoverSession _ =>
      (w, ReplyRecoverSession (Err (io_error_text "jsonl store shutting down")))
  end.

Definition dispatch_command (command : StoreCommand) (w : World) : World * StoreReply :=
  match command with
  | CmdContextView session_id => answer_with (actor_context_view session_id) ReplyContextView w
  | CmdCommit transaction => answer_with (actor_commit transaction) ReplyCommit w
  | CmdListSessions => answer_with actor_list_sessions ReplyListSessions w
  | CmdListSessionSummaries =>
      answer_with actor_list_session_summaries ReplyListSessionSummaries w
  | CmdRecoverSession session_id => answer_with (recover_session session_id) ReplyRecoverSession w
  | CmdShutdown => (w, ReplyShutdown)
  end.

Fixpoint drain_queue (queue : list StoreCommand) (w : World) : World * list StoreReply :=
  match queue with
  | [] => (w, [])
  | command :: queue =>
      let '(w, reply) := drain_command command w in
      let '(w, replies) := drain_queue queue w in
      (w, reply :: replies)
  end.

(** The actor on everything it ever receives: the commands before the first
    [Shutdown] are dispatched, the rest is drained; either way it finishes. *)
Fixpoint run_queue (queue : list StoreCommand) (w : World) : World * list StoreReply :=
  match queue with
  | [] => ((finish w).1, [])
  | CmdShutdown :: queue =>
      let '(w, replies) := drain_queue queue w in
      ((finish w).1, replies ++ [ReplyShutdown])
  | command :: queue =>
      let '(w, reply) := dispatch_command command w in
      let '(w, replies) := run_queue queue w in
      (w, reply :: replies)
  end.

(** ** mod.rs: the handle *)

Definition STORE_COMMAND_CAP : nat := 64.

(** What a handle sees of the actor: the flag it sets on shutdown, whether the
    actor's thread is gone, and the queue. *)
Record CommandHandle : Type := {
  closed : bool;
  disconnected : bool;
  queued : list StoreCommand
}.

Definition try_enqueue (self : CommandHandle) (command : StoreCommand)
    : outcome SessionError CommandHandle :=
  if closed self then Err (StoreUnavailable "jsonl store is shut down")
  else if disconnected self then Err (StoreUnavailable "jsonl store actor is unavailable")
  else if bool_decide (STORE_COMMAND_CAP ≤ length (queued self)) then
    Err (StoreBusy "jsonl store command queue is full")
  else
    Ok {| closed := closed self; disconnected := disconnected self;
          queued := queued self ++ [command] |}.

(** ** The store as a [SessionStore]: its actor runs one command at a time *)

#[export] Instance jsonl_session_store : store.SessionStore World := {
  store.store_context_view w session_id := actor_context_view session_id w;
  store.store_commit w transaction := actor_commit transaction w;
  store.store_list_sessions w :=
    with_err (λ error, StoreUnavailable (display_open_error error)) actor_list_sessions w
}.
End store.

End jsonl.
