(* ===== verification/JsonlProofs.v ===== *)
(** What the durable format keeps: an entry decodes to what was encoded, a
    session directory's name to its session, and a log to its lines.

    Replaying the log of the JSONL store under failing accesses: what recovery
    reads, a calm run reads, and it reads the same again once the tail is cut.

    Module [jsonl_replay] compares two runs of the loop over a log. *)

From S2P Require Import Prelude RustStr Session SessionProofs SessionStore RuntimeMapping.
From S2P Require Import JsonlCodec Jsonl.
From Stdlib Require Import Ascii.
Import session jsonl_codec jsonl.

Module jsonl_proofs.

(** ** The monad *)

Lemma io_bind_Ok {W E A B} (m : io W E A) (f : A → io W E B) w w1 a :
  m w = (w1, Ok a) → bind m f w = f a w1.
Proof. unfold bind. by intros ->. Qed.

Lemma bind_inv {W E A B} (m : io W E A) (f : A → io W E B) w w' r :
  bind m f w = (w', r) →
  (∃ w1 a, m w = (w1, Ok a) ∧ f a w1 = (w', r)) ∨
  (∃ e, m w = (w', Err e) ∧ r = Err e) ∨ (m w = (w', Panic) ∧ r = Panic).
Proof. unfold bind. destruct (m w) as [w1 [a|e|]]; naive_solver. Qed.

(** ** Entries *)

(** The images of an entry. *)
Definition part_images (part : SessionUserPart) : list (list Byte.byte) :=
  match part with PartText _ => [] | PartImage _ bytes => [bytes] end.
Definition kind_images (kind : SessionEntryKind) : list (list Byte.byte) :=
  match kind with UserMessage _ parts => concat (part_images <$> parts) | _ => [] end.
Definition entry_images (e : SessionEntry) : list (list Byte.byte) := kind_images (entry_kind e).
Definition images (es : list SessionEntry) : list (list Byte.byte) :=
  concat (entry_images <$> es).

Section codec.
Context `{Sha256}.

Lemma decode_encode_block block : decode_block (encode_block block) = block.
Proof. by destruct block as [|[]]. Qed.

Lemma decode_encode_blocks (blocks : list SessionAssistantBlock) : decode_block <$> (encode_block <$> blocks) = blocks.
Proof.
  rewrite <- list_fmap_compose. induction blocks as [|block blocks IH]; [done|].
  csimpl. by rewrite decode_encode_block, IH.
Qed.

Lemma decode_encode_usage (usage : option SessionTokenUsage) : decode_usage <$> (encode_usage <$> usage) = usage.
Proof. by destruct usage as [[]|]. Qed.
Lemma decode_encode_generation (choice : option SessionGenerationChoice) :
  decode_generation <$> (encode_generation <$> choice) = choice.
Proof. by destruct choice as [[]|]. Qed.
Lemma decode_encode_reason reason : decode_reason (Some (encode_reason reason)) = Ok reason.
Proof. by destruct reason. Qed.

(** The pending artifacts only grow, and hold an image for every hash. *)
Definition pends (pending : list PendingArtifact) (bytes : list Byte.byte) : Prop :=
  ∃ a, a ∈ pending ∧ artifact_hash a = sha256_hex bytes.

(** What an encoder promises: it keeps what is pending, adds only images of its
    own under their hashes, and leaves every image of its own pending. *)
Definition encodes {A B} (f : list PendingArtifact → A → list PendingArtifact * B)
    (imgs : A → list (list Byte.byte)) : Prop :=
  ∀ pending a, ∃ added, (f pending a).1 = pending ++ added ∧
    (∀ x, x ∈ added → artifact_bytes x ∈ imgs a ∧
                      artifact_hash x = sha256_hex (artifact_bytes x)) ∧
    (∀ bytes, bytes ∈ imgs a → pends (pending ++ added) bytes).

Lemma pends_app pending added bytes : pends pending bytes → pends (pending ++ added) bytes.
Proof. intros (a&Ha&?). exists a. rewrite elem_of_app. auto. Qed.

Lemma encodes_none {A B} (f : list PendingArtifact → A → list PendingArtifact * B) imgs pending a :
  imgs a = [] → (f pending a).1 = pending →
  ∃ added, (f pending a).1 = pending ++ added ∧
    (∀ x, x ∈ added → artifact_bytes x ∈ imgs a ∧
                      artifact_hash x = sha256_hex (artifact_bytes x)) ∧
    (∀ bytes, bytes ∈ imgs a → pends (pending ++ added) bytes).
Proof.
  intros -> ->. exists []. rewrite app_nil_r. split_and!; [done|..]; by intros ? ?%not_elem_of_nil.
Qed.

Lemma encodes_part : encodes encode_part part_images.
Proof.
  intros pending [text|media bytes]; [by apply encodes_none|]. simpl.
  destruct (any _ pending) eqn:Hany; simpl.
  - exists []. rewrite app_nil_r. split_and!; [done|by intros ? ?%not_elem_of_nil|].
    intros b ->%list_elem_of_singleton. apply existsb_exists in Hany as (a&Ha&Heq).
    exists a. rewrite list_elem_of_In. by apply bool_decide_eq_true in Heq.
  - eexists. split_and!; [done|..].
    + intros x ->%list_elem_of_singleton. simpl. split; [left|done].
    + intros b ->%list_elem_of_singleton. eexists. rewrite elem_of_app, list_elem_of_singleton.
      split; [by right|done].
Qed.

Lemma encodes_all {A B} (f : list PendingArtifact → A → list PendingArtifact * B) imgs :
  encodes f imgs → encodes (encode_all f) (λ l, concat (imgs <$> l)).
Proof.
  intros Hf pending l. revert pending. induction l as [|a l IH]; intros pending.
  { by apply (encodes_none (encode_all f) (λ l, concat (imgs <$> l))). }
  cbn [encode_all]. destruct (Hf pending a) as (added1&Hp1&Hx1&Hi1).
  destruct (f pending a) as [pending1 b] eqn:Hfa. simpl in Hp1. subst pending1.
  destruct (IH (pending ++ added1)) as (added2&Hp2&Hx2&Hi2).
  destruct (encode_all f _ l) as [pending2 bs]. simpl in Hp2. subst pending2. simpl.
  exists (added1 ++ added2). rewrite app_assoc. split_and!; [done|..].
  - intros x [Hx|Hx]%elem_of_app; rewrite elem_of_app.
    + destruct (Hx1 x Hx). auto.
    + destruct (Hx2 x Hx). auto.
  - intros bytes [Hb|Hb]%elem_of_app; [|by apply Hi2]. by apply pends_app, Hi1.
Qed.

Lemma encodes_kind : encodes encode_kind kind_images.
Proof.
  intros pending kind. destruct kind; try (by apply encodes_none).
  - simpl. destruct (encodes_all _ _ encodes_part pending parts) as (added&Hp&Hx).
    destruct (encode_all encode_part pending parts). simpl in *. eauto.
  - apply encodes_none; [done|]. by destruct out.
  - apply encodes_none; [done|]. by destruct out.
Qed.

Lemma encodes_entry : encodes encode_entry entry_images.
Proof.
  intros pending e. destruct (encodes_kind pending (entry_kind e)) as (added&Hp&Hx).
  unfold encode_entry. destruct (encode_kind pending (entry_kind e)). simpl in *. eauto.
Qed.

(** Decoding with a loader that has the images, in states of which [P] holds. *)
Section decode.
Context {W : Type} (load : string → Z → io W string (list Byte.byte)) (P : W → Prop).

Definition loads (bytes : list Byte.byte) : Prop :=
  ∀ w, P w → ∃ w', load (sha256_hex bytes) (Z.of_nat (length bytes)) w = (w', Ok bytes) ∧ P w'.

Definition decodes {A B} (f : list PendingArtifact → A → list PendingArtifact * B)
    (g : B → io W string A) (imgs : A → list (list Byte.byte)) : Prop :=
  ∀ pending a, (∀ bytes, bytes ∈ imgs a → loads bytes) →
    ∀ w, P w → ∃ w', g (f pending a).2 w = (w', Ok a) ∧ P w'.

Lemma decodes_part : decodes encode_part (decode_part load) part_images.
Proof.
  intros pending [text|media bytes] Hload w HP; [by eauto|]. simpl.
  destruct (Hload bytes ltac:(left) w HP) as (w'&Hl&HP'). exists w'. split; [|done].
  erewrite io_bind_Ok by done. done.
Qed.

Lemma decodes_all {A B} (f : list PendingArtifact → A → list PendingArtifact * B) g imgs :
  decodes f g imgs → decodes (encode_all f) (map_m g) (λ l, concat (imgs <$> l)).
Proof.
  intros Hfg pending l. revert pending. induction l as [|a l IH]; intros pending Hload w HP.
  { by exists w. }
  assert (∀ bytes, bytes ∈ imgs a → loads bytes) as Ha.
  { intros bytes Hb. apply Hload. csimpl. rewrite elem_of_app. by left. }
  cbn [encode_all]. destruct (Hfg pending a Ha w HP) as (w1&Hg&HP1).
  destruct (f pending a) as [pending1 b]. simpl in Hg.
  destruct (IH pending1) with (w := w1) as (w2&Hgs&HP2); [|done|].
  { intros bytes Hb. apply Hload. csimpl. rewrite elem_of_app. by right. }
  destruct (encode_all f pending1 l) as [pending2 bs]. simpl in *. exists w2.
  split; [|done]. erewrite io_bind_Ok by done. by erewrite io_bind_Ok by done.
Qed.

Lemma decodes_kind : decodes encode_kind (decode_kind load) kind_images.
Proof.
  intros pending kind Hload w HP. destruct kind; simpl; eauto.
  - destruct (decodes_all _ _ _ decodes_part pending parts Hload w HP) as (w'&Hm&HP').
    destruct (encode_all encode_part pending parts). simpl in *. exists w'.
    by erewrite io_bind_Ok by done.
  - rewrite decode_encode_blocks. eauto.
  - destruct result as [id []]; eauto.
  - rewrite decode_encode_blocks. eauto.
  - destruct failure as [[] m]; eauto.
  - destruct out as [| |[]]; eauto.
  - exists w. split; [|done].
    destruct out as [| |[]]; unfold bind, lift, ret; simpl;
      by rewrite ?decode_encode_usage, ?decode_encode_generation.
Qed.

Lemma decodes_entry : decodes encode_entry (decode_entry load) entry_images.
Proof.
  intros pending e Hload w HP.
  destruct (decodes_kind pending (entry_kind e) Hload w HP) as (w'&Hd&HP').
  unfold encode_entry, decode_entry. destruct (encode_kind pending (entry_kind e)) as [pending' k].
  simpl in *. exists w'. split; [|done]. erewrite io_bind_Ok by done. by destruct e.
Qed.

Lemma decodes_entries pending es w :
  (∀ bytes, bytes ∈ images es → loads bytes) → P w →
  ∃ w', map_m (decode_entry load) (encode_all encode_entry pending es).2 w = (w', Ok es) ∧ P w'.
Proof. intros Hload HP. by apply (decodes_all _ _ _ decodes_entry). Qed.
End decode.
End codec.
(** ** Directory names *)

Lemma hex_digits b :
  let n := N_of_ascii b in
  hex_value (upper_digit (n / 16)) = Some (n / 16)%N ∧
  hex_value (upper_digit (n mod 16)) = Some (n mod 16)%N ∧
  ascii_of_N (N.lor (N.shiftl (n / 16) 4) (n mod 16)) = b ∧
  (is_plain b = true → b ≠ "%"%char).
Proof. by destruct b as [[] [] [] [] [] [] [] []]. Qed.

Lemma decode_encode_name id : decode_name (encode_name id) = Some id.
Proof.
  induction id as [|b id IH]; [done|]. destruct (hex_digits b) as (Hhigh&Hlow&Hb&Hplain).
  cbn [encode_name]. destruct (is_plain b) eqn:Hp; cbn [decode_name].
  - rewrite bool_decide_eq_false_2 by auto. by rewrite Hp, IH.
  - rewrite bool_decide_eq_true_2 by done. rewrite Hhigh, Hlow, IH. cbn. by rewrite Hb.
Qed.

Lemma substring_all s : String.substring 0 (String.length s) s = s.
Proof. induction s as [|b s IH]; [done|]. simpl. by rewrite IH. Qed.

Lemma strip_session_prefix id : strip_prefix "s-" (session_dir_name id) = Some (encode_name id).
Proof.
  unfold strip_prefix, session_dir_name. generalize (encode_name id) as encoded. intros encoded.
  change (String.prefix "s-" ("s-" +:+ encoded)) with (String.prefix "" encoded).
  destruct encoded as [|b s]; [done|].
  change (Some (String.substring 0 (String.length (String b s)) (String b s)) = Some (String b s)).
  by rewrite substring_all.
Qed.

(** session directories and sessions correspond one to one. A directory
    name stands for a session exactly when it is the name that session's
    directory gets, so distinct sessions never share a directory, every
    session is found again under its name, and whatever else is in the store's
    root - another spelling of the same bytes included - is not a session. *)
Theorem session_dirs_bijective name session_id :
  decode_session_dir_name name = Some session_id ↔
  session_dir_name session_id = name ∧ valid_utf8 session_id = true.
Proof.
  unfold decode_session_dir_name. split.
  - destruct (strip_prefix "s-" name) as [encoded|]; [|done]. simpl.
    destruct (decode_name encoded) as [decoded|]; [|done]. simpl.
    unfold from_utf8. destruct (valid_utf8 decoded) eqn:Hv; [|done]. simpl.
    case_bool_decide as Hn; [|done]. by intros [= <-].
  - intros [<- Hv]. rewrite strip_session_prefix. simpl.
    rewrite decode_encode_name. simpl. unfold from_utf8. rewrite Hv. simpl.
    by rewrite bool_decide_eq_true_2.
Qed.

#[export] Instance session_dir_name_inj : Inj (=) (=) session_dir_name.
Proof.
  intros id1 id2 Heq. unfold session_dir_name in Heq. apply string_app_inj_l in Heq.
  apply (f_equal decode_name) in Heq. rewrite !decode_encode_name in Heq. by injection Heq.
Qed.

(** ** Lines *)

Definition line_text (line : string) : string := line +:+ newline.
Definition text (lines : list string) : string := concat_str (line_text <$> lines).
Definition no_newline (s : string) : Prop := split_lines s = ([], s).

Lemma no_newline_cons b s : no_newline (String b s) ↔ b ≠ "010"%char ∧ no_newline s.
Proof.
  unfold no_newline. cbn [split_lines]. destruct (split_lines s) as [lines tail].
  case_bool_decide as Hb; [naive_solver|]. destruct lines; naive_solver.
Qed.

Lemma split_line line s :
  no_newline line →
  split_lines (line_text line +:+ s) = (line :: (split_lines s).1, (split_lines s).2).
Proof.
  unfold line_text. induction line as [|b line IH].
  - intros _. change ("" +:+ newline) with newline. unfold newline. rewrite str_app_cons.
    cbn [split_lines]. rewrite str_app_nil. by destruct (split_lines s).
  - intros [Hb Hl]%no_newline_cons. rewrite !str_app_cons. cbn [split_lines].
    rewrite IH by done. by rewrite bool_decide_eq_false_2.
Qed.

Lemma split_text lines tail :
  Forall no_newline lines → no_newline tail →
  split_lines (text lines +:+ tail) = (lines, tail).
Proof.
  intros Hl Ht. induction Hl as [|line lines Hline _ IH]; [done|].
  unfold text in *. csimpl. by rewrite str_app_assoc, split_line, IH by done.
Qed.

Lemma split_lines_spec s lines tail :
  split_lines s = (lines, tail) →
  s = text lines +:+ tail ∧ Forall no_newline lines ∧ no_newline tail.
Proof.
  revert lines tail. induction s as [|b s IH]; intros lines tail.
  { intros [= <- <-]. by repeat constructor. }
  cbn [split_lines]. destruct (split_lines s) as [ls t].
  destruct (IH ls t eq_refl) as (->&Hls&Ht). case_bool_decide as Hb.
  - intros [= <- <-]. subst b. split_and!; [done|by constructor|done].
  - destruct Hls as [|l ls Hl Hls]; intros [= <- <-].
    + split_and!; [done|constructor|by apply no_newline_cons].
    + split_and!; [done|constructor; [by apply no_newline_cons|done]|done].
Qed.

Lemma text_app lines lines' : text (lines ++ lines') = text lines +:+ text lines'.
Proof. unfold text. by rewrite fmap_app, concat_str_app. Qed.
Lemma text_snoc lines line : text (lines ++ [line]) = text lines +:+ line_text line.
Proof. rewrite text_app. unfold text at 2. csimpl. by rewrite str_app_nil_r. Qed.

End jsonl_proofs.

Import session jsonl_codec jsonl jsonl_proofs.

Module jsonl_replay.

(** No access fails. *)
Definition calm : Faults :=
  {| fault := λ _, None; written := λ _, 0; stat_fault := λ _, false; mtime := λ _, None |}.

Definition quiet (faults : Faults) : Prop := ∀ n, fault n = None.
Lemma calm_quiet : quiet calm.
Proof. done. Qed.

(** ** Runs of an operation

    [keeps T m]: every run of [m] moves along [T]. [agrees S m m0]: from states
    related by [S], where [m] succeeds so does [m0], with the same result, and
    they stay related; and [m] does not panic. *)
Definition keeps {W E A} (T : W → W → Prop) (m : io W E A) : Prop := ∀ w, T w (m w).1.
Definition agrees {W E A} (S : W → W → Prop) (m m0 : io W E A) : Prop :=
  ∀ w w0, S w w0 →
    match (m w).2 with
    | Ok a => (m0 w0).2 = Ok a ∧ S (m w).1 (m0 w0).1
    | Err _ => True
    | Panic => False
    end.

Section keeps.
Context {W : Type} (T : W → W → Prop) `{!PreOrder T}.

Lemma keeps_ret {E A} (a : A) : keeps T (ret (E := E) a).
Proof. by intros w. Qed.
Lemma keeps_fail {E A} (e : E) : keeps T (fail (A := A) e).
Proof. by intros w. Qed.
Lemma keeps_panic {E A} : keeps T (panic (E := E) (A := A)).
Proof. by intros w. Qed.
Lemma keeps_lift {E A} (r : outcome E A) : keeps T (lift r).
Proof. by intros w. Qed.
Lemma keeps_bind {E A B} (m : io W E A) (f : A → io W E B) :
  keeps T m → (∀ a, keeps T (f a)) → keeps T (bind m f).
Proof.
  intros Hm Hf w. specialize (Hm w). unfold bind. destruct (m w) as [w1 [a|e|]]; [|done..].
  etrans; [done|apply Hf].
Qed.
Lemma keeps_with_err {E F A} (g : E → F) (m : io W E A) : keeps T m → keeps T (with_err g m).
Proof. intros Hm w. specialize (Hm w). unfold with_err. by destruct (m w). Qed.
Lemma keeps_map_m {E A B} (f : A → io W E B) l :
  (∀ a, keeps T (f a)) → keeps T (map_m f l).
Proof.
  intros Hf. induction l as [|a l IH]; [apply keeps_ret|]. cbn [map_m].
  repeat (apply keeps_bind; [done|]; intros). apply keeps_ret.
Qed.
End keeps.

Section agrees.
Context {W : Type} (S : W → W → Prop).

Lemma agrees_ret {E A} (a : A) : agrees S (ret (E := E) a) (ret a).
Proof. by intros w w0 HS. Qed.
Lemma agrees_fail {E A} (e e0 : E) : agrees S (fail (A := A) e) (fail e0).
Proof. by intros w w0 HS. Qed.
Lemma agrees_lift {E A} (r : outcome E A) : r ≠ Panic → agrees S (lift r) (lift r).
Proof. intros Hr w w0 HS. by destruct r. Qed.
Lemma agrees_bind_result {E A B} (m m0 : io W E A) (f f0 : A → io W E B) :
  agrees S m m0 → (∀ w a, (m w).2 = Ok a → agrees S (f a) (f0 a)) →
  agrees S (bind m f) (bind m0 f0).
Proof.
  intros Hm Hf w w0 HS. specialize (Hm w w0 HS). specialize (Hf w). unfold bind.
  destruct (m w) as [w1 [a|e|]]; simpl in *; [|done..]. destruct Hm as [Heq HS1].
  destruct (m0 w0) as [w2 r2]. simpl in *. subst r2. by apply Hf.
Qed.
Lemma agrees_bind {E A B} (m m0 : io W E A) (f f0 : A → io W E B) :
  agrees S m m0 → (∀ a, agrees S (f a) (f0 a)) → agrees S (bind m f) (bind m0 f0).
Proof. intros Hm Hf. by apply agrees_bind_result. Qed.
Lemma agrees_with_err {E F A} (g : E → F) (m m0 : io W E A) :
  agrees S m m0 → agrees S (with_err g m) (with_err g m0).
Proof.
  intros Hm w w0 HS. specialize (Hm w w0 HS). unfold with_err.
  destruct (m w) as [w1 [a|e|]]; simpl in *; [|done..]. destruct Hm as [Heq HS1].
  destruct (m0 w0) as [w2 r2]. simpl in *. by subst r2.
Qed.
Lemma agrees_map_m {E A B} (f f0 : A → io W E B) l :
  (∀ a, agrees S (f a) (f0 a)) → agrees S (map_m f l) (map_m f0 l).
Proof.
  intros Hf. induction l as [|a l IH]; [apply agrees_ret|]. cbn [map_m].
  repeat (apply agrees_bind; [done|]; intros). apply agrees_ret.
Qed.

(** Decoding agrees when the loaders do. *)
Lemma agrees_decode_entry (load load0 : string → Z → io W string (list Byte.byte)) r :
  (∀ hash len, agrees S (load hash len) (load0 hash len)) →
  agrees S (decode_entry load r) (decode_entry load0 r).
Proof.
  intros Hload. apply agrees_bind; [|intros; apply agrees_ret].
  destruct (rec_kind r) as [| |turn parts| | | | |turn out reason|op out reason| |];
    try apply agrees_ret; simpl.
  - apply agrees_bind; [|intros; apply agrees_ret]. apply agrees_map_m. intros [text|m hash len].
    + apply agrees_ret.
    + by apply agrees_bind; [|intros; apply agrees_ret].
  - apply agrees_bind; [|intros; apply agrees_ret].
    destruct out; [apply agrees_ret..|]. apply agrees_bind; [|intros; apply agrees_ret].
    apply agrees_lift. by destruct reason as [[]|].
  - apply agrees_bind; [|intros; apply agrees_ret].
    destruct out; [apply agrees_ret..|]. apply agrees_bind; [|intros; apply agrees_ret].
    apply agrees_lift. by destruct reason as [[]|].
Qed.
End agrees.

(** ** Replaying a log *)

Definition artifacts_of (name : string) (w : World) := dir_at name w ≫= artifacts.
Definition same_files (w w' : World) : Prop := sessions w' = sessions w ∧ root w' = root w.
#[export] Instance same_files_preorder : PreOrder same_files.
Proof. split; [by split|]. intros w1 w2 w3 [] []. split; congruence. Qed.

Definition same_artifacts (name : string) (w w' : World) : Prop :=
  artifacts_of name w = artifacts_of name w'.
(** With what was noted so far. *)
Definition same_noted (name : string) (w w' : World * list string) : Prop :=
  same_artifacts name w.1 w'.1 ∧ w.2 = w'.2.
Definition same_files_noted (w w' : World * list string) : Prop := same_files w.1 w'.1.
#[export] Instance same_files_noted_preorder : PreOrder same_files_noted.
Proof.
  split; [by intros w|]. intros w1 w2 w3. unfold same_files_noted. intros. by etrans.
Qed.

Section replay.
Context {sha : Sha256} {faults : Faults} {json : Json} {order : DirOrder} {base : StorePath}.
Context {dbg : DebugSessionError}.

Lemma artifact_at_of name hash w :
  artifact_at name hash w = (l ← artifacts_of name w; a ← node l !! hash; Some (node a)).
Proof. unfold artifact_at, artifacts_of. by destruct (dir_at name w). Qed.

Lemma keeps_access T `{!PreOrder T} : (∀ w, T w (looked w)) → keeps T access.
Proof. intros HT w. apply HT. Qed.

Lemma keeps_load name hash len : keeps same_files (load_artifact name hash len).
Proof.
  apply (keeps_bind _); [by apply keeps_with_err, (keeps_access _)|intros _ w].
  unfold bind, get. destruct (artifact_at _ _ _); [|done]. destruct (negb _); [done|].
  by destruct (negb _).
Qed.

Lemma keeps_noting name hash len : keeps same_files_noted (load_noting name hash len).
Proof.
  intros [w noted]. pose proof (keeps_load name hash len w) as Hk. unfold load_noting.
  by destruct (load_artifact name hash len w).
Qed.

Lemma keeps_decode_entries name noted entries : keeps same_files (decode_entries name noted entries).
Proof.
  intros w. assert (keeps same_files_noted (map_m (decode_entry (load_noting name)) entries)) as Hk.
  { apply (keeps_map_m _). intros r. apply (keeps_bind _); [|intros; apply (keeps_ret _)].
    destruct (rec_kind r) as [| |turn parts| | | | |turn out reason|op out reason| |];
      try apply (keeps_ret _); simpl.
    - apply (keeps_bind _); [|intros; apply (keeps_ret _)]. apply (keeps_map_m _).
      intros [|m hash len]; [apply (keeps_ret _)|].
      apply (keeps_bind _); [apply keeps_noting|intros; apply (keeps_ret _)].
    - apply (keeps_bind _); [|intros; apply (keeps_ret _)]. destruct out; try apply (keeps_ret _).
      apply (keeps_bind _); [apply (keeps_lift _)|intros; apply (keeps_ret _)].
    - apply (keeps_bind _); [|intros; apply (keeps_ret _)]. destruct out; try apply (keeps_ret _).
      apply (keeps_bind _); [apply (keeps_lift _)|intros; apply (keeps_ret _)]. }
  specialize (Hk (w, noted)). unfold decode_entries.
  by destruct (map_m _ entries (w, noted)) as [[w1 n1] [| |]].
Qed.

Lemma replay_reachable p es q r : reachable p → replay p es = (q, r) → reachable q.
Proof.
  intros Hp Hr. destruct r as [[]|e|].
  - by eapply reach_replay.
  - unfold replay in Hr. by destruct (advance_transaction p es); simplify_eq.
  - unfold replay in Hr. by destruct (advance_transaction p es); simplify_eq.
Qed.

Lemma replay_no_panic p es q : reachable p → replay p es ≠ (q, Panic).
Proof.
  intros Hp%reachable_wf Hr. apply (advance_transaction_not_Panic p es Hp).
  unfold replay in Hr. by destruct (advance_transaction p es).
Qed.

Lemma keeps_lift_sum {E A} (r : E + A) : keeps same_files (lift_sum r).
Proof. destruct r; [apply (keeps_fail _)|apply (keeps_ret _)]. Qed.

Lemma keeps_replay_line name line last n p noted :
  keeps same_files (replay_line name line last n p noted).
Proof.
  unfold replay_line.
  destruct (from_slice line) as [v|m|m]; [|destruct last; [apply (keeps_ret _)|apply (keeps_fail _)]
                                          |apply (keeps_fail _)].
  destruct (value_version v); [|apply (keeps_fail _)]. destruct (negb _); [apply (keeps_fail _)|].
  apply (keeps_bind _); [apply keeps_with_err, keeps_lift_sum|]. intros record.
  destruct (negb _); [apply (keeps_fail _)|]. destruct (negb _); [apply (keeps_fail _)|].
  apply (keeps_bind _); [apply keeps_with_err, keeps_decode_entries|]. intros [es noted'].
  destruct (replay p es) as [q [| |]]; [apply (keeps_ret _)|apply (keeps_fail _)|apply (keeps_panic _)].
Qed.

Lemma keeps_replay_lines name lines tail n offset p noted :
  keeps same_files (replay_lines name lines tail n offset p noted).
Proof.
  revert n offset p noted. induction lines as [|line lines IH]; intros; [apply (keeps_ret _)|].
  cbn [replay_lines]. apply (keeps_bind _); [apply keeps_replay_line|].
  intros [[p' noted']|]; [apply IH|apply (keeps_ret _)].
Qed.
End replay.

Section calm_replay.
(** [faults] are those of the first run. *)
Context {sha : Sha256} {json : Json} {order : DirOrder} {base : StorePath} {dbg : DebugSessionError}.
Context (faults0 : Faults) (Hquiet : quiet faults0) {faults : Faults}.

Lemma agrees_access (S : World → World → Prop) w w0 :
  (S w w0 → S (looked w) (looked w0)) → S w w0 →
  match (access w).2 with
  | Ok a => (access (faults := faults0) w0).2 = Ok a ∧ S (access w).1 (access (faults := faults0) w0).1
  | Err _ => True
  | Panic => False
  end.
Proof.
  intros HS HS0. unfold access. simpl. rewrite (Hquiet (looks w0)).
  destruct (fault (looks w)); [done|]. auto.
Qed.

Lemma agrees_load name hash len :
  agrees (same_artifacts name) (load_artifact name hash len)
    (load_artifact (faults := faults0) name hash len).
Proof.
  apply agrees_bind.
  { apply agrees_with_err. intros w w0 HS. by apply agrees_access. }
  intros _ w w0 HS. unfold bind, get. rewrite !artifact_at_of.
  pose proof HS as Heq. unfold same_artifacts in Heq. rewrite Heq. clear Heq.
  destruct (artifacts_of name w0) as [l|]; [|done].
  simpl. destruct (node l !! hash) as [a|]; [|done]. simpl. destruct (negb _); [done|].
  by destruct (negb _).
Qed.

Lemma agrees_noting name hash len :
  agrees (same_noted name) (load_noting name hash len)
    (load_noting (faults := faults0) name hash len).
Proof.
  intros [w noted] [w0 noted0] [HS Hn]. simpl in *. subst noted0.
  pose proof (agrees_load name hash len w w0 HS) as Ha. unfold load_noting.
  destruct (load_artifact name hash len w) as [w1 r]. simpl in *.
  destruct (load_artifact (faults := faults0) name hash len w0) as [w2 r2]. simpl in *.
  destruct r as [bytes|e|]; [|done..]. simpl. destruct Ha as [-> HS1]. by split.
Qed.

Lemma agrees_decode_entries name noted entries :
  agrees (same_artifacts name) (decode_entries name noted entries)
    (decode_entries (faults := faults0) name noted entries).
Proof.
  intros w w0 HS.
  assert (agrees (same_noted name) (map_m (decode_entry (load_noting name)) entries)
    (map_m (decode_entry (load_noting (faults := faults0) name)) entries)) as Hm.
  { apply agrees_map_m. intros r. apply agrees_decode_entry. intros. apply agrees_noting. }
  specialize (Hm (w, noted) (w0, noted)). unfold decode_entries.
  destruct (map_m _ entries (w, noted)) as [[w1 n1] r]. simpl in *.
  destruct (map_m _ entries (w0, noted)) as [[w2 n2] r2]. simpl in *.
  destruct r as [es|e|]; [|done|by apply Hm].
  destruct Hm as [-> [HS1 Hn]]; [by split|]. simpl in *. by subst n2.
Qed.

(** A line that was replayed is replayed in the same way by a calm run, whether
    or not it is the last. *)
Lemma replay_line_calm name line last last' n p noted w w0 next :
  reachable p → same_artifacts name w w0 →
  (replay_line name line last n p noted w).2 = Ok next →
  (next = None → last = last') →
  (replay_line (faults := faults0) name line last' n p noted w0).2 = Ok next ∧
  (∀ p' noted', next = Some (p', noted') → reachable p').
Proof.
  intros Hp HS. unfold replay_line.
  destruct (from_slice line) as [v|m|m]; [|destruct last; [|done]; simpl; intros [= <-] Hl|done].
  2: { by rewrite <- Hl. }
  destruct (value_version v); [|done]. destruct (negb _); [done|]. intros Hrun _. revert Hrun.
  match goal with |- (bind ?m ?f w).2 = _ → (bind ?m0 ?f0 w0).2 = _ ∧ ?Q =>
    assert (agrees (same_artifacts name) m m0) as Hm by
      (apply agrees_with_err; destruct (from_value v); [apply agrees_fail|apply agrees_ret]);
    specialize (Hm w w0 HS); unfold bind at 1 3;
    destruct (m w) as [w1 [record|e|]]; simpl in Hm |- *; [|done..];
    destruct Hm as [Heq HS1]; destruct (m0 w0) as [w2 r2]; simpl in Heq, HS1 |- *; subst r2
  end.
  destruct (negb _); [done|]. destruct (negb _); [done|].
  match goal with |- (bind ?m ?f w1).2 = _ → (bind ?m0 ?f0 w2).2 = _ ∧ ?Q =>
    assert (agrees (same_artifacts name) m m0) as Hm by
      (by apply agrees_with_err, agrees_decode_entries);
    specialize (Hm w1 w2 HS1); unfold bind;
    destruct (m w1) as [w3 [[es noted1]|e|]]; simpl in Hm |- *; [|done..];
    destruct Hm as [Heq HS2]; destruct (m0 w2) as [w4 r4]; simpl in Heq, HS2 |- *; subst r4
  end.
  destruct (replay p es) as [q [[]|e|]] eqn:Hr; [|done..]. simpl. intros [= <-].
  split; [done|]. intros p' noted' [= <- <-]. by eapply replay_reachable.
Qed.

Lemma replay_line_no_panic name line last n p noted w :
  reachable p → (replay_line name line last n p noted w).2 ≠ Panic.
Proof.
  intros Hp. unfold replay_line.
  destruct (from_slice line); [|by destruct last|done].
  destruct (value_version v); [|done]. destruct (negb _); [done|].
  unfold bind. destruct (from_value v) as [e|record]; [done|]. simpl.
  destruct (negb _); [done|]. destruct (negb _); [done|].
  pose proof (agrees_decode_entries name noted (rec_entries record) w w eq_refl) as Hd.
  unfold with_err. destruct (decode_entries name noted _ w) as [w1 [[es noted1]|e|]]; [|done..].
  simpl. destruct (replay p es) as [q [| |]] eqn:Hr; [done..|].
  exfalso. by eapply replay_no_panic.
Qed.

Lemma same_files_artifacts name w w' : same_files w w' → same_artifacts name w w'.
Proof. intros [_ Hr]. unfold same_artifacts, artifacts_of, dir_at. by rewrite Hr. Qed.
Lemma same_artifacts_trans name w1 w2 w3 :
  same_artifacts name w1 w2 → same_artifacts name w2 w3 → same_artifacts name w1 w3.
Proof. unfold same_artifacts. congruence. Qed.

(** What recovery replays, it replays of the lines before the residue, and so
    does a calm run on these lines alone; on all of them, it is the same. *)
Lemma replay_lines_calm name lines tail n offset p noted w r :
  reachable p →
  (replay_lines name lines tail n offset p noted w).2 = Ok r →
  reachable (replayed r) ∧
  ∃ before after, lines = before ++ after ∧
    (∀ keep, truncate_at r = Some keep → keep = offset + String.length (text before)) ∧
    ∀ w0, same_artifacts name w w0 →
      (replay_lines (faults := faults0) name lines tail n offset p noted w0).2 = Ok r ∧
      (replay_lines (faults := faults0) name before "" n offset p noted w0).2 =
        Ok {| replayed := replayed r; referenced := referenced r; truncate_at := None |}.
Proof.
  revert n offset p noted w. induction lines as [|line lines IH]; intros n offset p noted w Hp.
  { intros [= <-]. split; [done|]. exists [], []. split_and!; [done| |done].
    simpl. destruct (str_is_empty tail); [done|]. intros keep [= <-]. by rewrite Nat.add_0_r. }
  cbn [replay_lines]. set (last := is_nil lines && str_is_empty tail). intros Hrun.
  pose proof (keeps_replay_line name line last (S n) p noted w) as Hk.
  pose proof (λ last' w0, replay_line_calm name line last last' (S n) p noted w w0) as Hline.
  unfold bind in Hrun at 1.
  destruct (replay_line name line last (S n) p noted w) as [w1 [next|e|]] eqn:Hnext; [|done..].
  simpl in Hk, Hline, Hrun.
  pose proof (λ l w0, keeps_replay_line (faults := faults0) name line l (S n) p noted w0) as Hk0.
  destruct next as [[p' noted']|]; simpl in Hrun.
  - assert (reachable p') as Hp' by (eapply (Hline last w); done).
    destruct (IH _ _ _ _ _ Hp' Hrun) as (Hrr&before&after&->&Hkeep&Hcalm). split; [done|].
    exists (line :: before), after. split_and!; [done|..].
    { intros keep Hkp. rewrite (Hkeep keep Hkp). unfold text. csimpl.
      rewrite str_app_length. unfold line_text. rewrite str_app_length. simpl. lia. }
    intros w0 HS.
    assert (∀ w2, same_files w0 w2 → same_artifacts name w1 w2) as HS1.
    { intros w2 Hw2. eapply same_artifacts_trans; [symmetry; by apply same_files_artifacts|].
      eapply same_artifacts_trans; [exact HS|]. by apply same_files_artifacts. }
    cbn [replay_lines]. split.
    + destruct (Hline last w0 _ Hp HS eq_refl ltac:(done)) as [Heq _].
      specialize (Hk0 last w0). unfold bind. fold last.
      destruct (replay_line (faults := faults0) name line last (S n) p noted w0) as [w2 r2].
      simpl in Heq, Hk0 |- *. subst r2. by apply Hcalm, HS1.
    + set (last' := is_nil before && str_is_empty "").
      destruct (Hline last' w0 _ Hp HS eq_refl ltac:(done)) as [Heq _].
      specialize (Hk0 last' w0). unfold bind.
      destruct (replay_line (faults := faults0) name line last' (S n) p noted w0) as [w2 r2].
      simpl in Heq, Hk0 |- *. subst r2. by apply Hcalm, HS1.
  - injection Hrun as <-. split; [done|]. exists [], (line :: lines). simpl. split_and!; [done|..].
    { intros keep [= <-]. by rewrite Nat.add_0_r. }
    intros w0 HS. split; [|done].
    destruct (Hline last w0 _ Hp HS eq_refl ltac:(done)) as [Heq _]. unfold bind.
    destruct (replay_line (faults := faults0) name line last (S n) p noted w0) as [w2 r2].
    simpl in Heq |- *. by subst r2.
Qed.

Lemma replay_lines_no_panic name lines tail n offset p noted w :
  reachable p → (replay_lines name lines tail n offset p noted w).2 ≠ Panic.
Proof.
  revert n offset p noted w. induction lines as [|line lines IH]; intros n offset p noted w Hp; [done|].
  cbn [replay_lines]. unfold bind. set (last := is_nil lines && _).
  pose proof (replay_line_no_panic name line last (S n) p noted w Hp).
  pose proof (λ next, replay_line_calm name line last last (S n) p noted w w next Hp eq_refl) as Hc.
  destruct (replay_line name line last (S n) p noted w) as [w1 [[[p' noted']|]|e|]]; try done.
  apply IH. by eapply (Hc (Some (p', noted'))).
Qed.

Lemma replay_log_calm name bytes w r :
  (replay_log name bytes w).2 = Ok r →
  reachable (replayed r) ∧ (∀ keep, truncate_at r = Some keep → keep ≤ String.length bytes) ∧
  ∀ w0, same_artifacts name w w0 →
    (replay_log (faults := faults0) name bytes w0).2 = Ok r ∧
    ∀ keep, truncate_at r = Some keep →
      (replay_log (faults := faults0) name (String.substring 0 keep bytes) w0).2 =
        Ok {| replayed := replayed r; referenced := referenced r; truncate_at := None |}.
Proof.
  unfold replay_log. destruct (split_lines bytes) as [lines tail] eqn:Hsplit.
  apply split_lines_spec in Hsplit as (->&Hlines&Htail). intros Hrun.
  destruct (replay_lines_calm _ _ _ _ _ _ _ _ _ reach_empty Hrun)
    as (Hr&before&after&->&Hkeep&Hcalm).
  assert (∀ a b, String.substring 0 (String.length a) (a +:+ b) = a) as Hsub.
  { intros a b. induction a as [|c a IH]; [by destruct b|].
    rewrite str_app_cons. simpl. by rewrite IH. }
  split_and!; [done| |].
  - intros keep ->%Hkeep. rewrite text_app, !str_app_length. lia.
  - intros w0 HS. destruct (Hcalm w0 HS) as [Hall Hbefore]. split; [done|].
    intros keep ->%Hkeep. rewrite text_app, str_app_assoc. simpl. rewrite Hsub.
    rewrite <- (str_app_nil_r (text before)), split_text; [done| |done].
    by apply Forall_app in Hlines as [? _].
Qed.
End calm_replay.

Section disk.
Context {sha : Sha256} {json : Json} {order : DirOrder} {base : StorePath} {dbg : DebugSessionError}.

(** ** What the files of a session hold *)

Definition disk_log (name : string) (w : World) : option Replayed :=
  match (replay_log (faults := calm) name (default "" (log_content name w)) w).2 with
  | Ok r => Some r
  | _ => None
  end.
Definition disk_projection (name : string) (w : World) : SessionProjection :=
  default empty (replayed <$> disk_log name w).

End disk.
End jsonl_replay.
