(* ===== verification/JsonlStore.v ===== *)
(** The JSONL store keeps the session store's contract: it serves the session
    in memory once it was touched, and what its files replay to before.

    Module [jsonl_store] has a small program logic for the store's monad, the
    effect of every operation on the files of its session, and the instance of
    [store.StoreLaws]. *)

From S2P Require Import Prelude RustStr Session SessionProofs SessionStore RuntimeMapping.
From S2P Require Import JsonlCodec Jsonl JsonlProofs.
Import session jsonl_codec jsonl jsonl_proofs jsonl_replay.

Module jsonl_store.

(** ** Weakest preconditions: a result, an error; never a panic *)

Definition wp {W E A} (m : io W E A) (QO : A → W → Prop) (QE : E → W → Prop) (w : W) : Prop :=
  match (m w).2 with
  | Ok a => QO a (m w).1
  | Err e => QE e (m w).1
  | Panic => False
  end.

Section wp.
Context {W : Type}.

Lemma io_wp_ret {E A} (a : A) QO (QE : E → W → Prop) w : QO a w → wp (ret a) QO QE w.
Proof. done. Qed.
Lemma wp_fail {E A} (e : E) (QO : A → W → Prop) QE w : QE e w → wp (fail e) QO QE w.
Proof. done. Qed.
Lemma io_wp_bind {E A B} (m : io W E A) (f : A → io W E B) QO QE w :
  wp m (λ a, wp (f a) QO QE) QE w → wp (bind m f) QO QE w.
Proof. unfold wp, bind. by destruct (m w) as [w1 [a|e|]]. Qed.
Lemma wp_with_err {E F A} (g : E → F) (m : io W E A) QO (QE : F → W → Prop) w :
  wp m QO (λ e, QE (g e)) w → wp (with_err g m) QO QE w.
Proof. unfold wp, with_err. by destruct (m w) as [w1 [a|e|]]. Qed.
Lemma io_wp_mono {E A} (m : io W E A) (QO QO' : A → W → Prop) (QE QE' : E → W → Prop) w :
  wp m QO QE w → (∀ a w, QO a w → QO' a w) → (∀ e w, QE e w → QE' e w) → wp m QO' QE' w.
Proof. unfold wp. destruct (m w) as [w1 [a|e|]]; simpl; auto. Qed.
Lemma wp_lift {E A} (r : outcome E A) (QO : A → W → Prop) QE w :
  (∀ a, r = Ok a → QO a w) → (∀ e, r = Err e → QE e w) → r ≠ Panic → wp (lift r) QO QE w.
Proof. unfold wp. destruct r; simpl; auto. Qed.
End wp.

Lemma wp_catch {E F A} (m : io World E A) (QO : E + A → World → Prop) (QE : F → World → Prop) w :
  wp m (λ a, QO (inr a)) (λ e, QO (inl e)) w → wp (catch m) QO QE w.
Proof. unfold wp, catch. by destruct (m w) as [w1 [a|e|]]. Qed.
Lemma wp_get {E} (QO : World → World → Prop) (QE : E → World → Prop) w :
  QO w w → wp get QO QE w.
Proof. done. Qed.
Lemma wp_modify {E} f (QO : unit → World → Prop) (QE : E → World → Prop) w :
  QO tt (f w) → wp (modify f) QO QE w.
Proof. done. Qed.
Lemma wp_when {E} (b : bool) (m : io World E unit) QO QE w :
  (b = true → wp m QO QE w) → (b = false → QO tt w) → wp (when b m) QO QE w.
Proof. destruct b; simpl; [by auto|]. intros _ H. by apply H. Qed.
Lemma wp_lift_sum {E A} (r : E + A) (QO : A → World → Prop) (QE : E → World → Prop) w :
  (∀ a, r = inr a → QO a w) → (∀ e, r = inl e → QE e w) → wp (lift_sum r) QO QE w.
Proof. destruct r; unfold wp; simpl; auto. Qed.

(** ** Worlds that differ in one session's directory *)

(** [w] has the sessions and the other directories of [w0], and [dir] under
    [name]. *)
Definition at_ (name : string) (w0 : World) (dir : option Dir) (w : World) : Prop :=
  sessions w = sessions w0 ∧ (∀ n, n ≠ name → dir_at n w = dir_at n w0) ∧ dir_at name w = dir.

Lemma at_refl name w : at_ name w (dir_at name w) w.
Proof. by split_and!. Qed.
Lemma at_trans name w0 w1 w2 d1 d2 : at_ name w0 d1 w1 → at_ name w1 d2 w2 → at_ name w0 d2 w2.
Proof.
  intros (Hs1&Hn1&Hd1) (Hs2&Hn2&Hd2). split_and!; [congruence| |done].
  intros n Hn. by rewrite Hn2, Hn1.
Qed.

Lemma same_files_at name w0 d w w' : same_files w w' → at_ name w0 d w → at_ name w0 d w'.
Proof.
  intros [Hs Hr] (Hs1&Hn1&Hd1). unfold at_, dir_at in *. rewrite Hs, Hr. by split_and!.
Qed.

Section specs.
Context {sha : Sha256} {faults : Faults} {json : Json} {order : DirOrder} {base : StorePath}.
Context {dbg : DebugSessionError}.

Lemma wp_access (QO : unit → World → Prop) (QE : string → World → Prop) w :
  QO tt (looked w) → (∀ kind, fault (looks w) = Some kind → QE kind (looked w)) →
  wp access QO QE w.
Proof. unfold wp, access. simpl. destruct (fault (looks w)); auto. Qed.

(** An access on the way: it does nothing but fail. *)
Lemma at_access name w0 d w (QO : unit → World → Prop) (QE : string → World → Prop) :
  at_ name w0 d w → (∀ w, at_ name w0 d w → QO tt w) →
  (∀ kind w, at_ name w0 d w → ¬ quiet faults → QE kind w) → wp access QO QE w.
Proof.
  intros Hat HO HE. assert (at_ name w0 d (looked w)) as Hat' by done.
  apply wp_access; [by apply HO|]. intros kind Hf. apply HE; [done|].
  intros Hq. by rewrite Hq in Hf.
Qed.

Lemma at_on_dir {E} name w0 d w f (QO : unit → World → Prop) (QE : E → World → Prop) :
  at_ name w0 d w → (∀ w, at_ name w0 (f <$> d) w → QO tt w) → wp (on_dir name f) QO QE w.
Proof.
  intros (Hs&Hn&Hd) HO. apply wp_modify, HO. unfold at_, dir_at in *. simpl. split_and!; [done|..].
  - intros n Hne. rewrite lookup_alter_ne by done. by apply Hn.
  - rewrite lookup_alter_eq. rewrite <- Hd. by destruct (root w !! name) as [[l []]|].
Qed.

Lemma at_stat {E} name w0 d w holds (QO : bool → World → Prop) (QE : E → World → Prop) :
  at_ name w0 d w →
  (∀ b w', at_ name w0 d w' → (b = true → holds w = true) →
     (stat_fault (looks w) = false → b = holds w) → QO b w') →
  wp (stat holds) QO QE w.
Proof.
  intros Hat HO. unfold wp, stat. simpl. apply HO; [done|..].
  - by intros [_ ?]%andb_true_iff.
  - by intros ->.
Qed.

Lemma at_read_title {E} name w0 d w (QO : option string → World → Prop) (QE : E → World → Prop) :
  at_ name w0 d w → (∀ title w, at_ name w0 d w → QO title w) →
  wp (read_title_file name) QO QE w.
Proof.
  intros Hat HO. unfold read_title_file.
  apply io_wp_bind, wp_catch. apply (at_access name w0 d); [done|..]; intros; apply HO; done.
Qed.

(** The title file is the only thing that [write_title_file] may change. *)
Lemma at_write_title {E} name w0 dir w title (QO : unit → World → Prop) (QE : E → World → Prop) :
  at_ name w0 (Some dir) w →
  (∀ title w, at_ name w0 (Some (set_title_file title dir)) w → QO tt w) →
  wp (write_title_file name title) QO QE w.
Proof.
  intros Hat HO. assert (∀ w, at_ name w0 (Some dir) w → QO tt w) as Hsame.
  { intros w' Hat'. apply (HO (title_file dir)). by destruct dir. }
  unfold write_title_file. destruct title as [title|].
  - apply io_wp_bind, wp_catch, io_wp_bind.
    apply (at_access name w0 (Some dir)); [done|..]; intros.
    + apply (at_access name w0 (Some dir)); [done|..]; intros.
      * eapply at_on_dir; [done|]. intros. by apply (HO (Some title)).
      * apply io_wp_bind, wp_catch. eapply at_access; [done|..]; intros; by apply Hsame.
    + apply io_wp_bind, wp_catch. eapply at_access; [done|..]; intros; by apply Hsame.
  - apply io_wp_bind. eapply at_stat; [done|]. intros b w1 Hat1 _ _.
    apply wp_when; [|intros; by apply Hsame]. intros _. apply io_wp_bind, wp_catch.
    eapply at_access; [done|..]; intros.
    + eapply at_on_dir; [done|]. intros. by apply (HO None).
    + by apply Hsame.
Qed.

(** ** Recovery *)

Definition bytes_of (l : option (Linked File)) : string := default "" ((content ∘ node) <$> l).

Lemma log_content_at name w0 dir w :
  at_ name w0 (Some dir) w → default "" (log_content name w) = bytes_of (log dir).
Proof. intros (_&_&Hd). unfold log_content, bytes_of. rewrite Hd. simpl. by destruct (log dir). Qed.

(** The log up to where the tail is cut. *)
Definition cut (keep : option nat) (bytes : string) : string :=
  match keep with Some k => String.substring 0 k bytes | None => bytes end.

(** What recovery may have done to the log when it stopped. *)
Inductive log_fixed (keep : option nat) : option (Linked File) → option (Linked File) → Prop :=
| fixed_same l : log_fixed keep l l
| fixed_opened : log_fixed keep None (Some {| linked := false; node := new_file |})
| fixed_cut k f :
    keep = Some k →
    log_fixed keep (Some f)
      (Some {| linked := linked f;
               node := write_file (String.substring 0 k (content (node f))) (node f) |})
| fixed_synced k f :
    keep = Some k →
    log_fixed keep (Some f)
      (Some {| linked := linked f;
               node := sync_file
                 (write_file (String.substring 0 k (content (node f))) (node f)) |}).

Lemma content_write s f : content (write_file s f) = s.
Proof. unfold content, write_file. simpl. by rewrite last_snoc. Qed.
Lemma content_sync f : content (sync_file f) = content f.
Proof. done. Qed.

Lemma log_fixed_bytes keep l l' :
  log_fixed keep l l' → bytes_of l' = bytes_of l ∨ bytes_of l' = cut keep (bytes_of l).
Proof.
  intros [l1| |k f ->|k f ->]; [by left|by left|right..]; unfold bytes_of; simpl;
    by rewrite ?content_sync, content_write.
Qed.

(** Recovery leaves the artifacts alone, and cuts the log only where its
    replay says. *)
Definition fixed (name : string) (w : World) (dir dir' : Dir) : Prop :=
  artifacts dir' = artifacts dir ∧
  (log dir' = log dir ∨
   ∃ r, disk_log name w = Some r ∧ log_fixed (truncate_at r) (log dir) (log dir')).

Lemma disk_log_at name w dir :
  dir_at name w = Some dir →
  disk_log name w =
    match (replay_log (faults := calm) name (bytes_of (log dir)) w).2 with
    | Ok r => Some r | _ => None end.
Proof. intros Hd. unfold disk_log. by rewrite (log_content_at name w dir). Qed.

Lemma fixed_disk name w dir dir' w' :
  dir_at name w = Some dir → dir_at name w' = Some dir' → fixed name w dir dir' →
  disk_projection name w' = disk_projection name w.
Proof.
  intros Hd Hd' [Ha Hlog].
  assert (same_artifacts name w w') as HS.
  { unfold same_artifacts, artifacts_of. rewrite Hd, Hd'. simpl. congruence. }
  unfold disk_projection. rewrite (disk_log_at _ _ _ Hd), (disk_log_at _ _ _ Hd').
  set (bytes := bytes_of (log dir)).
  assert (∀ r, (replay_log (faults := calm) name bytes w).2 = Ok r →
    (replay_log (faults := calm) name bytes w').2 = Ok r) as Hsame.
  { intros r Hr. by apply (replay_log_calm calm calm_quiet _ _ _ _ Hr). }
  destruct ((replay_log (faults := calm) name bytes w).2) as [r|e|] eqn:Hr.
  2,3: destruct Hlog as [->|(r'&Hr'&_)];
    [|rewrite (disk_log_at _ _ _ Hd) in Hr'; fold bytes in Hr'; rewrite Hr in Hr'; done].
  2,3: fold bytes; destruct ((replay_log (faults := calm) name bytes w').2) as [r'|e'|] eqn:Hr'; [|done..];
    destruct (replay_log_calm calm calm_quiet _ _ _ _ Hr') as (_&_&Hback);
    destruct (Hback w (eq_sym HS)) as [Hback' _]; by rewrite Hback' in Hr.
  specialize (Hsame r eq_refl). destruct (replay_log_calm calm calm_quiet _ _ _ _ Hr) as (_&_&Hcut).
  destruct (Hcut w' HS) as [_ Hcut'].
  destruct Hlog as [->|(r'&Hr'&Hfix)]; [by fold bytes; rewrite Hsame|].
  rewrite (disk_log_at _ _ _ Hd) in Hr'. fold bytes in Hr'. rewrite Hr in Hr'. injection Hr' as <-.
  destruct (log_fixed_bytes _ _ _ Hfix) as [->| ->]; fold bytes; [by rewrite Hsame|].
  destruct (truncate_at r) as [k|]; simpl; [|by rewrite Hsame]. by rewrite (Hcut' k).
Qed.

Lemma at_find_orphans name w0 dir w noted (QO : list string → World → Prop) QE :
  at_ name w0 (Some dir) w → (∀ l w, at_ name w0 (Some dir) w → QO l w) →
  (∀ e w, at_ name w0 (Some dir) w → ¬ quiet faults → QE e w) →
  wp (find_orphans name noted) QO QE w.
Proof.
  intros Hat HO HE. unfold find_orphans. apply io_wp_bind. eapply at_stat; [done|].
  intros b w1 Hat1 _ _. apply io_wp_bind, wp_get. destruct (_ ≫= artifacts) as [l|]; [|by apply HO].
  destruct b; [|by apply HO].
  assert (∀ files QO', (∀ l w, at_ name w0 (Some dir) w → QO' l w) →
    ∀ w, at_ name w0 (Some dir) w →
    wp (map_m (λ '(name, _), with_err (io_error "listing artifacts") access ;; ret name)
          (files : list (string * Linked (list Byte.byte)))) QO' QE w) as Hmap.
  { clear w w1 Hat Hat1 HO. intros files. induction files as [|[n x] files IH];
      intros QO' HO' w Hat; [by apply HO'|].
    cbn [map_m]. apply io_wp_bind, io_wp_bind, wp_with_err.
    eapply at_access; [done| |intros; by apply HE]. intros w1 Hat1. apply io_wp_ret, io_wp_bind, IH; [|done].
    intros. by apply HO'. }
  apply io_wp_bind, io_wp_bind, wp_with_err. eapply at_access; [done| |intros; by apply HE].
  intros w2 Hat2. apply Hmap; [|done]. intros. by apply HO.
Qed.

Lemma at_acquire_lock name w0 dir w (QO : unit → World → Prop) QE :
  at_ name w0 (Some dir) w →
  (∀ w, at_ name w0 (Some (set_locked true dir)) w → locked dir = false → QO tt w) →
  (∀ e w, at_ name w0 (Some dir) w → (quiet faults → locked dir = true) → QE e w) →
  wp (acquire_lock name) QO QE w.
Proof.
  intros Hat HO HE. unfold acquire_lock.
  apply io_wp_bind, wp_with_err. eapply at_access; [done| |intros; by apply HE].
  intros w1 Hat1. apply io_wp_bind, wp_with_err. eapply at_access; [done| |intros; by apply HE].
  intros w2 Hat2. apply io_wp_bind, wp_get. destruct Hat2 as (Hs&Hn&Hd). rewrite Hd.
  destruct (locked dir) eqn:Hl; [by apply HE|]. eapply at_on_dir; [done|]. intros. by apply HO.
Qed.

Lemma at_with_lock {A} name w0 dir w (m : io World JsonlOpenError A)
    (QO : A → World → Prop) (QE : JsonlOpenError → World → Prop) :
  at_ name w0 (Some dir) w →
  (∀ w, at_ name w0 (Some (set_locked true dir)) w → locked dir = false →
     wp m QO (λ e w, ∀ w', at_ name w (set_locked false <$> dir_at name w) w' → QE e w') w) →
  (∀ e w, at_ name w0 (Some dir) w → (quiet faults → locked dir = true) → QE e w) →
  wp (with_lock name m) QO QE w.
Proof.
  intros Hat Hm HE. unfold with_lock. apply io_wp_bind. eapply at_acquire_lock; [done| |done].
  intros w1 Hat1 Hl. apply io_wp_bind, wp_catch. eapply io_wp_mono; [by apply Hm|done|].
  intros e w2 Hw2. apply io_wp_bind. eapply at_on_dir; [apply at_refl|]. intros w3 Hat3.
  by apply wp_fail, Hw2.
Qed.

Lemma at_replay_log name w dir w1 dir1 (QO : Replayed → World → Prop) QE :
  dir_at name w = Some dir → at_ name w (Some dir1) w1 → artifacts dir1 = artifacts dir →
  (∀ r w2, at_ name w (Some dir1) w2 → disk_log name w = Some r → QO r w2) →
  (∀ e w2, at_ name w (Some dir1) w2 → (quiet faults → disk_log name w = None) → QE e w2) →
  wp (replay_log name (bytes_of (log dir))) QO QE w1.
Proof.
  intros Hd Hat Ha HO HE.
  assert (same_artifacts name w1 w) as HS.
  { unfold same_artifacts, artifacts_of. destruct Hat as (_&_&->). rewrite Hd. simpl. congruence. }
  assert (at_ name w (Some dir1) (replay_log name (bytes_of (log dir)) w1).1) as Hat2.
  { apply (same_files_at _ _ _ w1); [|done]. unfold replay_log.
    destruct (split_lines _). apply keeps_replay_lines. }
  pose proof (disk_log_at name w dir Hd) as Hdisk.
  pose proof (replay_log_calm (faults := faults) calm calm_quiet name (bytes_of (log dir)) w1) as Hcalm.
  unfold wp. destruct (replay_log name (bytes_of (log dir)) w1) as [w2 [r|e|]] eqn:Hrun; simpl in *.
  - apply HO; [done|]. destruct (Hcalm r eq_refl) as (_&_&Hw).
    destruct (Hw w HS) as [Heq _].
    by rewrite Hdisk, Heq.
  - apply HE; [done|]. intros Hq. rewrite Hdisk.
    destruct ((replay_log (faults := calm) name _ w).2) as [r|e'|] eqn:Hc; [|done..].
    destruct (replay_log_calm faults Hq name _ _ _ Hc) as (_&_&Hw).
    destruct (Hw w1 (eq_sym HS)) as [Heq _]. by rewrite Hrun in Heq.
  - assert ((replay_log name (bytes_of (log dir)) w1).2 = Panic) as Hp by (by rewrite Hrun).
    revert Hp. unfold replay_log. destruct (split_lines _).
    apply (replay_lines_no_panic calm calm_quiet), reach_empty.
Qed.

Lemma at_cut_tail name w0 dir w keep (QO : nat → World → Prop) QE :
  at_ name w0 (Some dir) w →
  (∀ n l w', log_fixed keep (log dir) l → (log dir = None → l = None) →
     bytes_of l = cut keep (bytes_of (log dir)) → at_ name w0 (Some (set_log l dir)) w' →
     QO n w') →
  (∀ e l w', log_fixed keep (log dir) l → at_ name w0 (Some (set_log l dir)) w' →
     ¬ quiet faults → QE e w') →
  wp (cut_tail name (bytes_of (log dir)) keep) QO QE w.
Proof.
  intros Hat HO HE. assert (dir = set_log (log dir) dir) as Hdir by (by destruct dir).
  assert (∀ e w', at_ name w0 (Some dir) w' → ¬ quiet faults → QE e w') as HE0.
  { intros e w' Hat' Hq. apply (HE e (log dir)); [apply fixed_same|by rewrite <- Hdir|done]. }
  unfold cut_tail. destruct keep as [k|].
  2: { apply io_wp_ret, (HO _ (log dir)); [apply fixed_same|done..|by rewrite <- Hdir]. }
  apply io_wp_bind, wp_with_err. eapply at_access; [done| |intros; by apply HE0].
  intros w1 Hat1. apply io_wp_bind, wp_with_err.
  eapply at_access; [done| |intros; by apply HE0]. intros w2 Hat2.
  apply io_wp_bind. eapply at_on_dir; [done|]. intros w3 Hat3.
  apply io_wp_bind, wp_with_err. eapply at_access; [done|..].
  - intros w4 Hat4. apply io_wp_bind. eapply at_on_dir; [done|]. intros w5 Hat5.
    apply io_wp_ret. eapply HO; [..|exact Hat5]; simpl.
    + destruct (log dir) as [f|]; [exact (fixed_synced _ k f eq_refl)|apply fixed_same].
    + by intros ->.
    + destruct (log dir) as [f|]; [|by destruct k]. unfold bytes_of at 1. simpl.
      by rewrite content_sync, content_write.
  - intros e w4 Hat4 Hq. eapply HE; [|exact Hat4|done].
    destruct (log dir) as [f|]; [exact (fixed_cut _ k f eq_refl)|apply fixed_same].
Qed.

Lemma at_open_log context name w0 dir w (QO : unit → World → Prop) QE :
  at_ name w0 (Some dir) w →
  (∀ w', at_ name w0
     (Some (set_log (Some (default {| linked := false; node := new_file |} (log dir))) dir)) w' →
     QO tt w') →
  (∀ e w', at_ name w0 (Some dir) w' → ¬ quiet faults → QE e w') →
  wp (open_log context name) QO QE w.
Proof.
  intros Hat HO HE. apply io_wp_bind, wp_with_err. eapply at_access; [done| |intros; by apply HE].
  intros w1 Hat1. by eapply at_on_dir.
Qed.

(** [recover_locked]: on success the session is what its files replay to, and
    the log is the replayed part; a failure without a failing access means that
    another writer holds the lock or that the log is not replayable. *)
Lemma recover_spec name w dir (QO : SessionState → World → Prop) QE :
  dir_at name w = Some dir →
  (∀ st dir' w' r, at_ name w (Some dir') w' → fixed name w dir dir' →
     locked dir = false → locked dir' = true →
     disk_log name w = Some r → projection st = replayed r → poisoned st = None →
     log dir' ≠ None → bytes_of (log dir') = cut (truncate_at r) (bytes_of (log dir)) →
     QO st w') →
  (∀ e dir' w', at_ name w (Some dir') w' → fixed name w dir dir' → locked dir' = locked dir →
     (quiet faults → locked dir = true ∨ disk_log name w = None) → QE e w') →
  wp (recover_locked name) QO QE w.
Proof.
  intros Hd HO HE. unfold recover_locked.
  assert (at_ name w (Some dir) w) as Hat by (rewrite <- Hd; apply at_refl).
  eapply at_with_lock; [done| |].
  2: { intros e w1 Hat1 Hl. apply (HE e dir); [done|by split; [|left]|done|]. auto. }
  intros w1 Hat1 Hl.
  assert (∀ e dir' w', at_ name w (Some dir') w' → fixed name w dir dir' →
    (quiet faults → disk_log name w = None) →
    ∀ w'', at_ name w' (set_locked false <$> dir_at name w') w'' → QE e w'') as Hfail.
  { intros e dir' w' Hat' Hfix Hq w'' Hat''. destruct Hat' as (Hs&Hn&Hd'). rewrite Hd' in Hat''.
    apply (HE e (set_locked false dir')); [|done|by simpl|by auto].
    eapply at_trans; [by split_and!|done]. }
  assert (fixed name w dir (set_locked true dir)) as Hfix0 by (by split; [|left]).
  apply io_wp_bind, wp_with_err. eapply at_access; [done| |intros; by eapply Hfail].
  intros w2 Hat2. apply io_wp_bind, wp_get. rewrite (log_content_at _ _ _ _ Hat2).
  change (log (set_locked true dir)) with (log dir) in *. apply io_wp_bind.
  eapply at_replay_log; [done|done|done| |intros; by eapply Hfail].
  intros r w3 Hat3 Hr. apply io_wp_bind. eapply at_find_orphans; [done| |intros; by eapply Hfail].
  intros orphans w4 Hat4. apply io_wp_bind.
  apply (at_cut_tail name w (set_locked true dir)); [done|..].
  2: { intros e l w5 Hfix Hat5 Hq. eapply Hfail; [done| |done].
    split; [done|]. right. by exists r. }
  intros n l w5 Hfix Hnone Hbytes Hat5. simpl in Hfix, Hnone, Hbytes, Hat5. apply io_wp_bind.
  eapply at_open_log; [done|..].
  2: { intros e w6 Hat6 Hq. eapply Hfail; [done| |done]. split; [done|]. right. by exists r. }
  intros w6 Hat6. set (dir3 := set_log _ _) in Hat6.
  assert (fixed name w dir dir3 ∧ log dir3 ≠ None ∧
    bytes_of (log dir3) = cut (truncate_at r) (bytes_of (log dir))) as (Hfix3&Hsome&Hbytes3).
  { unfold dir3. simpl. split_and!; [|done|by rewrite <- Hbytes; destruct l].
    split; [done|]. right. exists r. split; [done|]. simpl. destruct l as [f|]; [done|].
    destruct (log dir); [by inversion Hfix|apply fixed_opened]. }
  apply io_wp_bind. eapply at_read_title; [done|]. intros title w8 Hat8.
  assert (∀ title w', at_ name w (Some (set_title_file title dir3)) w' → wp (ret
    {| projection := replayed r; report := {| transactions := revision (replayed r);
       truncated_tail_bytes := n; orphan_artifacts := orphans |};
       sidecar_title := projection_title (replayed r); poisoned := None |}) QO
    (λ (e : JsonlOpenError) w', ∀ w'', at_ name w' (set_locked false <$> dir_at name w') w'' → QE e w'') w')
    as Hend.
  { intros title' w' Hat'. apply io_wp_ret. by eapply HO. }
  apply io_wp_bind, wp_when; intros _.
  - eapply at_write_title; [done|]. intros. by eapply Hend.
  - apply (Hend (title_file dir3)). by destruct dir3.
Qed.

(** ** A new session *)

(** A directory in which nothing was written yet. *)
Definition fresh_dir (dir : Dir) : Prop :=
  artifacts dir = None ∧ (log dir = None ∨ ∃ l, log dir = Some {| linked := l; node := new_file |}).

Lemma at_fsync_root name w0 d w (QO : unit → World → Prop) QE :
  at_ name w0 d w → (∀ w, at_ name w0 d w → QO tt w) →
  (∀ e w, at_ name w0 d w → ¬ quiet faults → QE e w) →
  wp fsync_root QO QE w.
Proof.
  intros Hat HO HE. apply io_wp_bind, wp_with_err. eapply at_access; [done| |intros; by apply HE].
  intros w1 (Hs&Hn&Hd). apply wp_modify, HO. unfold at_, dir_at in *. simpl.
  split_and!; [done|intros n Hne; rewrite <- (Hn n Hne)|rewrite <- Hd]; rewrite lookup_fmap.
  - by destruct (root w1 !! n) as [[l []]|].
  - by destruct (root w1 !! name) as [[l []]|].
Qed.

Lemma create_spec name w (QO : SessionState → World → Prop) QE :
  dir_at name w = None →
  (∀ st dir' w', at_ name w (Some dir') w' → fresh_dir dir' → locked dir' = true →
     log dir' = Some {| linked := true; node := new_file |} →
     projection st = empty → poisoned st = None → QO st w') →
  (∀ e d' w', at_ name w d' w' → (∀ dir', d' = Some dir' → fresh_dir dir' ∧ locked dir' = false) →
     (quiet faults → ∃ l, root w !! name = Some {| linked := l; node := NodeFile |}) → QE e w') →
  wp (create_session name) QO QE w.
Proof.
  intros Hd HO HE. unfold create_session, create_session_dir.
  assert (at_ name w None w) as Hat by (rewrite <- Hd; apply at_refl).
  assert (∀ e w1, at_ name w None w1 → ¬ quiet faults → QE e w1) as HE0.
  { intros e w1 Hat1 Hq. by apply (HE e None). }
  apply io_wp_bind, io_wp_bind, wp_with_err. apply wp_access; [|].
  2: { intros kind Hf. apply HE0; [done|]. intros Hq. by rewrite Hq in Hf. }
  apply io_wp_bind, wp_get. change (root (looked w)) with (root w).
  destruct (root w !! name) as [[l []]|] eqn:Hroot.
  - apply wp_fail, (HE _ None); [done|done|]. by eauto.
  - unfold dir_at in Hd. by rewrite Hroot in Hd.
  - apply wp_modify.
    assert (at_ name w (Some empty_dir) (set_root (<[name := {| linked := false; node := NodeDir empty_dir |}]> (root w)) (looked w))) as Hat1.
    { unfold at_, dir_at. simpl. split_and!; [done| |by rewrite lookup_insert_eq].
      intros n Hn. by rewrite lookup_insert_ne. }
    assert (∀ e dir' w', at_ name w (Some dir') w' → fresh_dir dir' → ¬ quiet faults →
      ∀ w'', at_ name w' (set_locked false <$> dir_at name w') w'' → QE e w'') as Hfail.
    { intros e dir' w' Hat' Hfresh Hq w'' Hat''. destruct Hat' as (Hs&Hn&Hd'). rewrite Hd' in Hat''.
      apply (HE e (Some (set_locked false dir'))); [|by intros ? [= <-]|done].
      eapply at_trans; [by split_and!|done]. }
    assert (fresh_dir (set_locked true empty_dir)) as Hfresh0 by (split; [done|by left]).
    eapply at_with_lock; [exact Hat1|..].
    + intros w2 Hat2 _. apply io_wp_bind. eapply at_open_log; [done|..].
      2: { intros e w3 Hat3 Hq. exact (Hfail e _ w3 Hat3 Hfresh0 Hq). }
      intros w3 Hat3. simpl in Hat3.
      assert (∀ l, fresh_dir (set_log (Some {| linked := l; node := new_file |})
        (set_locked true empty_dir))) as Hfresh1 by (split; [done|right; by eexists]).
      apply io_wp_bind, io_wp_bind, wp_with_err. eapply at_access; [done|..].
      2: { intros e w4 Hat4 Hq. exact (Hfail _ _ w4 Hat4 (Hfresh1 _) Hq). }
      intros w4 Hat4. eapply at_on_dir; [done|]. intros w5 Hat5. simpl in Hat5.
      apply io_wp_bind. eapply at_fsync_root; [done|..].
      2: { intros e w6 Hat6 Hq. exact (Hfail _ _ w6 Hat6 (Hfresh1 _) Hq). }
      intros w6 Hat6. apply io_wp_ret, (HO _ _ w6 Hat6); try done. split; [done|right]. by eexists.
    + intros e w2 Hat2 Hq. apply (HE e (Some empty_dir)); [done|..].
      * intros ? [= <-]. split; [|done]. split; [done|by left].
      * intros Hquiet. by specialize (Hq Hquiet).
Qed.

(** ** What the store serves *)

Lemma disk_log_same n w w' :
  default "" (log_content n w') = default "" (log_content n w) → same_artifacts n w w' →
  disk_log n w' = disk_log n w.
Proof.
  unfold disk_log. intros -> HS. set (bytes := default "" _).
  pose proof (λ w1 w2 r Hr HS, proj1 (proj2 (proj2
    (replay_log_calm (faults := calm) calm calm_quiet n bytes w1 r Hr)) w2 HS)) as Hsame.
  destruct ((replay_log (faults := calm) n bytes w).2) as [r|e|] eqn:Hr.
  - by rewrite (Hsame _ w' _ Hr HS).
  - destruct ((replay_log (faults := calm) n bytes w').2) as [r'| |] eqn:Hr'; [|done..].
    by rewrite (Hsame _ w _ Hr' (eq_sym HS)) in Hr.
  - destruct ((replay_log (faults := calm) n bytes w').2) as [r'| |] eqn:Hr'; [|done..].
    by rewrite (Hsame _ w _ Hr' (eq_sym HS)) in Hr.
Qed.

Lemma disk_log_dir n w w' : dir_at n w' = dir_at n w → disk_log n w' = disk_log n w.
Proof.
  intros Hd. apply disk_log_same; unfold log_content, same_artifacts, artifacts_of; by rewrite Hd.
Qed.

Lemma disk_log_no_bytes n w :
  default "" (log_content n w) = "" →
  disk_log n w = Some {| replayed := empty; referenced := []; truncate_at := None |}.
Proof. unfold disk_log. by intros ->. Qed.

Lemma disk_log_new n w :
  match dir_at n w with Some dir => fresh_dir dir | None => True end →
  disk_projection n w = empty.
Proof.
  intros Hd. unfold disk_projection. rewrite disk_log_no_bytes; [done|]. unfold log_content.
  destruct (dir_at n w) as [dir|]; [|done]. destruct Hd as [_ [Hl|[l Hl]]]; simpl; by rewrite Hl.
Qed.

(** The session in memory, or what its files replay to. *)
Definition jsonl_serves (w : World) (session_id : SessionId) : SessionProjection :=
  match sessions w !! session_id with
  | Some state => projection state
  | None => disk_projection (session_dir_name session_id) w
  end.

Lemma serves_at sid w d w' sid' :
  at_ (session_dir_name sid) w d w' → sid' ≠ sid → jsonl_serves w' sid' = jsonl_serves w sid'.
Proof.
  intros (Hs&Hn&_) Hne. unfold jsonl_serves, disk_projection. rewrite Hs.
  destruct (sessions w !! sid'); [done|]. rewrite (disk_log_dir _ w w'); [done|].
  apply Hn. intros ?%session_dir_name_inj. done.
Qed.

(** Nothing but the session of [name] differs, and it is served the same. *)
Lemma serves_at_all sid w d w' :
  at_ (session_dir_name sid) w d w' →
  (sessions w !! sid = None →
   disk_projection (session_dir_name sid) w' = disk_projection (session_dir_name sid) w) →
  ∀ sid', jsonl_serves w' sid' = jsonl_serves w sid'.
Proof.
  intros Hat Hdisk sid'. destruct (decide (sid' = sid)) as [->|Hne]; [|by eapply serves_at].
  destruct Hat as (Hs&_). unfold jsonl_serves. rewrite Hs.
  destruct (sessions w !! sid); [done|]. by apply Hdisk.
Qed.

Lemma serves_put sid st w sid' :
  jsonl_serves (set_sessions (<[sid := st]> (sessions w)) w) sid' =
  if decide (sid' = sid) then projection st else jsonl_serves w sid'.
Proof.
  unfold jsonl_serves. simpl. destruct (decide (sid' = sid)) as [->|Hne].
  - by rewrite lookup_insert_eq.
  - rewrite lookup_insert_ne by done. destruct (sessions w !! sid'); [done|].
    unfold disk_projection. by rewrite (disk_log_dir _ w).
Qed.

(** ** Touching a session *)

Definition put sid st (w : World) : World := set_sessions (<[sid := st]> (sessions w)) w.

Lemma touch_spec sid create w (QO : option SessionState → World → Prop) QE :
  let name := session_dir_name sid in
  (∀ n, stat_fault n = false) →
  (∀ st, sessions w !! sid = Some st → QO (Some st) w) →
  (sessions w !! sid = None →
   (∀ dir st dir' w' r, dir_at name w = Some dir → at_ name w (Some dir') w' →
      fixed name w dir dir' → locked dir = false → locked dir' = true →
      disk_log name w = Some r → projection st = replayed r → poisoned st = None →
      log dir' ≠ None → bytes_of (log dir') = cut (truncate_at r) (bytes_of (log dir)) →
      QO (Some st) (put sid st w')) ∧
   (∀ st dir' w', create = true → dir_at name w = None → at_ name w (Some dir') w' →
      fresh_dir dir' → locked dir' = true → log dir' = Some {| linked := true; node := new_file |} →
      projection st = empty → poisoned st = None → QO (Some st) (put sid st w')) ∧
   (∀ w', create = false → dir_at name w = None → at_ name w None w' → QO None w') ∧
   (∀ e dir dir' w', dir_at name w = Some dir → at_ name w (Some dir') w' →
      fixed name w dir dir' → locked dir' = locked dir →
      (quiet faults → locked dir = true ∨ disk_log name w = None) → QE e w') ∧
   (∀ e d' w', create = true → dir_at name w = None → at_ name w d' w' →
      (∀ dir', d' = Some dir' → fresh_dir dir' ∧ locked dir' = false) →
      (quiet faults → ∃ l, root w !! name = Some {| linked := l; node := NodeFile |}) →
      QE e w')) →
  wp (touch sid create) QO QE w.
Proof.
  intros name Hstat Hold Hnew. unfold touch. apply io_wp_bind, wp_get.
  destruct (sessions w !! sid) as [st|] eqn:Hs; [by apply io_wp_ret, Hold|].
  destruct (Hnew eq_refl) as (Hrec&Hcreate&Hnone&HE1&HE2). clear Hnew Hold.
  fold name. apply io_wp_bind.
  unfold is_session_dir, wp, stat. simpl. rewrite Hstat. simpl.
  set (w1 := looked w). change (dir_at name w) with (dir_at name w1) in *.
  assert (∀ d w', at_ name w1 d w' → at_ name w d w') as Hat1 by done.
  assert (disk_log name w1 = disk_log name w) as Hdisk1 by (by apply disk_log_dir).
  assert (∀ dir dir', fixed name w1 dir dir' → fixed name w dir dir') as Hfix1.
  { intros dir dir' [Ha Hl]. rewrite Hdisk1 in Hl. by split. }
  change (match dir_at name w with Some _ => true | None => false end) with
    (session.is_some (dir_at name w1)).
  destruct (dir_at name w1) as [dir|] eqn:Hd; simpl.
  - apply io_wp_bind. eapply recover_spec; [exact Hd|..].
    + intros st dir' w2 r ?????????. apply io_wp_bind, wp_modify, io_wp_ret. rewrite Hdisk1 in *.
      eapply (Hrec dir); eauto.
    + intros e dir' w2 ????. rewrite Hdisk1 in *. eapply (HE1 _ dir); eauto.
  - destruct create; [|by apply Hnone].
    apply io_wp_bind. eapply create_spec; [exact Hd|..].
    + intros st dir' w2 ??????. apply io_wp_bind, wp_modify, io_wp_ret. eapply Hcreate; eauto.
    + intros e d' w2 ???. eapply HE2; eauto.
Qed.

(** ** Committing to a touched session *)

Definition art (hash : string) (dir : Dir) : option (Linked (list Byte.byte)) :=
  l ← artifacts dir; node l !! hash.
Definition is_temp (hash : string) : Prop := ∃ h, hash = h +:+ ".tmp".

(** New files under the hashes of [pending]; temporary files come and go. *)
Definition stored (pending : list PendingArtifact) (dir dir' : Dir) : Prop :=
  log dir' = log dir ∧ locked dir' = locked dir ∧
  ∀ h, is_temp h ∨ art h dir' = art h dir ∨
    art h dir = None ∧ ∃ a, a ∈ pending ∧ artifact_hash a = h ∧
      art h dir' = Some {| linked := false; node := artifact_bytes a |}.

Lemma stored_refl pending dir : stored pending dir dir.
Proof. split_and!; auto. Qed.
Lemma stored_trans p1 p2 d1 d2 d3 : stored p1 d1 d2 → stored p2 d2 d3 → stored (p1 ++ p2) d1 d3.
Proof.
  intros (Hl1&Hk1&Ha1) (Hl2&Hk2&Ha2). split_and!; [congruence..|]. intros h.
  destruct (Ha1 h) as [|[H1|(H1&a&Hin&Hh&H1')]], (Ha2 h) as [|[H2|(H2&b&Hin2&Hh2&H2')]];
    try (by left); right.
  - left. congruence.
  - right. rewrite <- H1. split; [done|]. exists b. rewrite elem_of_app. auto.
  - right. split; [done|]. exists a. rewrite elem_of_app, H2. auto.
  - congruence.
Qed.

Lemma art_put_ne h h' bytes dir :
  h' ≠ h → art h' (on_artifacts (put_artifact h bytes) dir) = art h' dir.
Proof.
  intros Hne. unfold art, on_artifacts, put_artifact. simpl.
  destruct (artifacts dir) as [l|]; [|done]. simpl. by rewrite lookup_insert_ne.
Qed.

Lemma stored_temp pending h bytes dir :
  stored pending dir (on_artifacts (put_artifact (h +:+ ".tmp") bytes) dir).
Proof.
  split_and!; [done..|]. intros h'. destruct (decide (h' = h +:+ ".tmp")) as [->|Hne].
  - left. by exists h.
  - right; left. by apply art_put_ne.
Qed.

Lemma artifact_present name hash w0 dir w :
  at_ name w0 (Some dir) w →
  session.is_some (artifact_at name hash w) = session.is_some (art hash dir).
Proof.
  intros (_&_&Hd). unfold artifact_at, art. rewrite Hd. simpl.
  destruct (artifacts dir) as [l|]; [|done]. simpl. by destruct (node l !! hash).
Qed.

Lemma at_store_artifact name w0 dir w a (QO : unit → World → Prop) QE :
  (∀ n, stat_fault n = false) → at_ name w0 (Some dir) w →
  (∀ dir' w', at_ name w0 (Some dir') w' → stored [a] dir dir' →
     session.is_some (art (artifact_hash a) dir') = true → QO tt w') →
  (∀ e dir' w', at_ name w0 (Some dir') w' → stored [a] dir dir' → ¬ quiet faults → QE e w') →
  wp (store_artifact name (artifact_hash a) (artifact_bytes a)) QO QE w.
Proof.
  intros Hstat Hat HO HE. unfold store_artifact. set (hash := artifact_hash a) in *.
  set (bytes := artifact_bytes a) in *. apply io_wp_bind. eapply at_stat; [exact Hat|].
  intros b w1 Hat1 _ Hb. rewrite (Hb (Hstat _)), (artifact_present _ _ _ _ _ Hat). clear Hb.
  destruct (session.is_some (art hash dir)) eqn:Hp.
  { apply io_wp_ret, (HO dir); [done|apply stored_refl|done]. }
  assert (∀ e dir' w', at_ name w0 (Some dir') w' → stored [a] dir dir' → ¬ quiet faults →
    QE e w') as HE' by done.
  pose proof (stored_refl [a] dir) as Hst0.
  apply io_wp_bind. eapply at_access; [done| |intros; by eapply (HE' _ dir)].
  intros w2 Hat2. apply io_wp_bind. eapply at_on_dir; [done|]. intros w3 Hat3. simpl in Hat3.
  set (dir1 := set_artifacts _ dir) in Hat3.
  assert (∀ h, art h dir1 = art h dir) as Hart1.
  { intros h. unfold art, dir1. simpl. by destruct (artifacts dir). }
  assert (stored [a] dir dir1) as Hst1 by (split_and!; [done..|auto]).
  apply io_wp_bind. eapply at_access; [done| |by eauto]. intros w4 Hat4.
  apply io_wp_bind. eapply at_on_dir; [done|]. intros w5 Hat5. simpl in Hat5.
  set (dir2 := on_artifacts _ dir1) in Hat5.
  assert (stored [a] dir dir2) as Hst2 by apply (stored_trans [a] [] _ _ _ Hst1), stored_temp.
  assert (∀ bs, stored [a] dir (on_artifacts (put_artifact (hash +:+ ".tmp") bs) dir2)) as Hst3.
  { intros bs. apply (stored_trans [a] [] _ _ _ Hst2), stored_temp. }
  apply io_wp_bind, wp_get, io_wp_bind, wp_catch. eapply at_access; [done|..].
  2: { intros kind w6 Hat6 Hq. apply io_wp_bind. eapply at_on_dir; [done|]. intros w7 Hat7.
    apply wp_fail. eapply HE'; [exact Hat7|apply Hst3|done]. }
  intros w6 Hat6. apply io_wp_bind. eapply at_on_dir; [done|]. intros w7 Hat7. simpl in Hat7.
  set (dir3 := on_artifacts _ dir2) in Hat7. assert (stored [a] dir dir3) as Hst4 by apply Hst3.
  apply io_wp_bind. eapply at_access; [done| |intros; by eapply (HE' _ dir3)]. intros w8 Hat8.
  apply io_wp_bind. eapply at_access; [done| |intros; by eapply (HE' _ dir3)]. intros w9 Hat9.
  eapply at_on_dir; [done|]. intros w10 Hat10. simpl in Hat10. eapply HO; [exact Hat10|..].
  - split_and!; [done..|]. intros h. destruct (decide (h = hash +:+ ".tmp")) as [->|Hne].
    { left. by exists hash. }
    right. destruct (decide (h = hash)) as [->|Hne'].
    + right. split; [by destruct (art hash dir)|]. exists a. split; [left|]. split; [done|].
      unfold art, on_artifacts, put_artifact, dir3, dir2, dir1. simpl.
      by rewrite lookup_insert_eq.
    + left. rewrite <- Hart1. unfold art, on_artifacts, put_artifact, dir3, dir2, dir1. simpl.
      unfold put_artifact. by rewrite lookup_insert_ne, lookup_delete_ne, !lookup_insert_ne by done.
  - unfold art, on_artifacts, put_artifact, dir3, dir2, dir1. simpl. by rewrite lookup_insert_eq.
Qed.

(** Hashes are hexadecimal, so no artifact has a temporary name. *)
Definition is_hex (b : Ascii.ascii) : bool := in_range 48 57 b || in_range 97 102 b.
Fixpoint all_hex (s : string) : bool :=
  match s with EmptyString => true | String b s => is_hex b && all_hex s end.

Lemma all_hex_app s s' : all_hex (s +:+ s') = all_hex s && all_hex s'.
Proof.
  induction s as [|b s IH]; [by rewrite str_app_nil|]. rewrite str_app_cons. simpl.
  by rewrite IH, andb_assoc.
Qed.
Lemma hex_byte_hex b : all_hex (hex_byte b) = true.
Proof. by destruct b. Qed.
Lemma sha256_hex_not_temp bytes : ¬ is_temp (sha256_hex bytes).
Proof.
  intros [h Hh]. assert (all_hex (sha256_hex bytes) = true) as Hall.
  { unfold sha256_hex. clear Hh. induction (digest bytes) as [|b bs IH]; [done|].
    change (concat_str (hex_byte <$> b :: bs)) with (hex_byte b +:+ concat_str (hex_byte <$> bs)).
    by rewrite all_hex_app, hex_byte_hex, IH. }
  rewrite Hh, all_hex_app in Hall. by rewrite andb_false_r in Hall.
Qed.

Lemma stored_present pending dir dir' h :
  stored pending dir dir' → ¬ is_temp h → session.is_some (art h dir) = true →
  session.is_some (art h dir') = true.
Proof.
  intros (_&_&Ha) Ht Hp. destruct (Ha h) as [|[->|(_&a&_&_&->)]]; done.
Qed.

Lemma at_store_artifacts name w0 dir w pending (QO : unit → World → Prop) QE :
  (∀ n, stat_fault n = false) → (∀ a, a ∈ pending → ¬ is_temp (artifact_hash a)) →
  at_ name w0 (Some dir) w →
  (∀ dir' w', at_ name w0 (Some dir') w' → stored pending dir dir' →
     (∀ a, a ∈ pending → session.is_some (art (artifact_hash a) dir') = true) → QO tt w') →
  (∀ e dir' w', at_ name w0 (Some dir') w' → stored pending dir dir' → ¬ quiet faults → QE e w') →
  wp (store_artifacts name pending) QO QE w.
Proof.
  intros Hstat. revert dir w QO QE. induction pending as [|a pending IH]; intros dir w QO QE Htemp Hat HO HE.
  { apply io_wp_ret, (HO dir); [done|apply stored_refl|by intros ? ?%not_elem_of_nil]. }
  cbn [store_artifacts]. apply io_wp_bind. eapply at_store_artifact; [done|exact Hat|..].
  - intros dir1 w1 Hat1 Hst1 Hp1. eapply IH; [|exact Hat1|..].
    + intros b Hb. apply Htemp. by right.
    + intros dir2 w2 Hat2 Hst2 Hp2. apply (HO dir2); [done|by apply (stored_trans [a] _ _ _ _ Hst1)|].
      intros b [->|Hb]%elem_of_cons; [|by apply Hp2].
      eapply stored_present; [exact Hst2|apply Htemp; left|done].
    + intros e dir2 w2 Hat2 Hst2 Hq. apply (HE e dir2); [done| |done].
      by apply (stored_trans [a] _ _ _ _ Hst1).
  - intros e dir1 w1 Hat1 Hst1 Hq. apply (HE e dir1); [done| |done].
    apply (stored_trans [a] pending _ _ _ Hst1), stored_refl.
Qed.

(** The directory after the barrier: every image of the transaction is there,
    and synced. *)
Definition barrier (pending : list PendingArtifact) (dir dir' : Dir) : Prop :=
  pending = [] ∧ dir' = dir ∨
  ∃ dir1, stored pending dir dir1 ∧ dir' = on_artifacts (fmap link) dir1 ∧
    ∀ a, a ∈ pending → session.is_some (art (artifact_hash a) dir1) = true.

Lemma barrier_log pending dir dir' :
  barrier pending dir dir' → log dir' = log dir ∧ locked dir' = locked dir.
Proof. by intros [[_ ->]|(dir1&(Hl&Hk&_)&->&_)]. Qed.

Lemma at_write_artifacts name w0 dir w pending (QO : unit → World → Prop) QE :
  (∀ n, stat_fault n = false) → (∀ a, a ∈ pending → ¬ is_temp (artifact_hash a)) →
  at_ name w0 (Some dir) w →
  (∀ dir' w', at_ name w0 (Some dir') w' → barrier pending dir dir' → QO tt w') →
  (∀ e dir' w', at_ name w0 (Some dir') w' → stored pending dir dir' → ¬ quiet faults → QE e w') →
  wp (write_artifacts name pending) QO QE w.
Proof.
  intros Hstat Htemp Hat HO HE. unfold write_artifacts.
  destruct pending as [|a pending]; [by apply io_wp_ret, (HO dir); [|left]|].
  apply io_wp_bind, wp_with_err. eapply at_store_artifacts; [done|done|exact Hat|..].
  2: { intros. by eapply HE. }
  intros dir1 w1 Hat1 Hst1 Hp1. apply wp_with_err, io_wp_bind, wp_with_err.
  eapply at_access; [exact Hat1| |intros; by eapply HE].
  intros w2 Hat2. eapply at_on_dir; [exact Hat2|]. intros w3 Hat3. simpl in Hat3.
  eapply HO; [exact Hat3|]. right. by exists dir1.
Qed.

Lemma substring_prefix n s : ∃ rest, s = String.substring 0 n s +:+ rest.
Proof.
  revert n. induction s as [|b s IH]; intros [|n]; simpl; [by exists ""|by exists ""|by eexists|].
  destruct (IH n) as [rest Hs]. exists rest. rewrite str_app_cons. by rewrite <- Hs.
Qed.

Definition write_log (s : string) (dir : Dir) : Dir := on_log (write_file s) dir.

Lemma at_append_log name w0 dir w bytes (QO : unit → World → Prop) QE :
  at_ name w0 (Some dir) w →
  (∀ w', at_ name w0 (Some (on_log sync_file (write_log (bytes_of (log dir) +:+ bytes) dir))) w' →
     QO tt w') →
  (∀ e part rest w', bytes = part +:+ rest →
     at_ name w0 (Some (write_log (bytes_of (log dir) +:+ part) dir)) w' → ¬ quiet faults →
     QE e w') →
  wp (append_log name bytes) QO QE w.
Proof.
  intros Hat HO HE. unfold append_log. apply io_wp_bind, wp_get.
  rewrite (log_content_at _ _ _ _ Hat). apply io_wp_bind, wp_catch. eapply at_access; [done|..].
  - intros w1 Hat1. apply io_wp_bind. eapply at_on_dir; [done|]. intros w2 Hat2. simpl in Hat2.
    apply io_wp_bind. eapply at_access; [done|..].
    + intros w3 Hat3. eapply at_on_dir; [done|]. intros w4 Hat4. by apply HO.
    + intros e w3 Hat3 Hq. apply (HE e bytes ""); [by rewrite str_app_nil_r|done|done].
  - intros e w1 Hat1 Hq. apply io_wp_bind. eapply at_on_dir; [done|]. intros w2 Hat2.
    destruct (substring_prefix (written (looks w)) bytes) as [rest Hrest].
    apply wp_fail. by apply (HE e (String.substring 0 (written (looks w)) bytes) rest).
Qed.

Lemma at_sync_title name w0 dir w state (QO : SessionState → World → Prop) QE :
  at_ name w0 (Some dir) w →
  (∀ state' title w', at_ name w0 (Some (set_title_file title dir)) w' →
     projection state' = projection state → poisoned state' = poisoned state → QO state' w') →
  wp (sync_title_sidecar name state) QO QE w.
Proof.
  intros Hat HO. unfold sync_title_sidecar.
  case_bool_decide. { apply io_wp_ret, (HO _ (title_file dir)); [by destruct dir|done..]. }
  apply io_wp_bind. eapply at_write_title; [done|]. intros title w1 Hat1.
  destruct (projection_title (projection state)); [|by apply io_wp_ret, (HO _ title)].
  apply io_wp_bind. eapply at_read_title; [done|]. intros read w2 Hat2. apply io_wp_ret.
  by case_bool_decide; apply (HO _ title).
Qed.

Lemma encode_transaction_hashes a x :
  x ∈ (encode_transaction a).1 →
  artifact_bytes x ∈ images (applied_entries a) ∧
  artifact_hash x = sha256_hex (artifact_bytes x).
Proof.
  destruct (encodes_all _ _ encodes_entry [] (applied_entries a)) as (added&Hp&Hx&_).
  unfold encode_transaction. destruct (encode_all _ _ _) as [pending entries]. simpl in *.
  subst pending. apply Hx.
Qed.

Definition with_poison (reason : string) (st : SessionState) : SessionState :=
  {| projection := projection st; report := report st; sidecar_title := sidecar_title st;
     poisoned := Some reason |}.

Lemma wp_poison {A} sid st reason (QO : A → World → Prop) QE w :
  QE (StoreUnavailable reason) (put sid (with_poison reason st) w) →
  wp (poison sid st reason) QO QE w.
Proof. intros HE. by apply io_wp_bind, wp_modify, wp_fail. Qed.

(** What a commit to a touched session does, case by case. *)
Lemma commit_spec tx st w dir (QO : SessionCommit → World → Prop) QE :
  let sid := tx_session_id tx in
  let name := session_dir_name sid in
  (∀ n, stat_fault n = false) → dir_at name w = Some dir → reachable (projection st) →
  (∀ reason, poisoned st = Some reason → ∀ text, QE (StoreUnavailable text) w) →
  (poisoned st = None → tx_expected_revision tx ≠ revision (projection st) →
   QE (RevisionConflict (tx_expected_revision tx) (revision (projection st))) w) →
  (poisoned st = None → tx_expected_revision tx = revision (projection st) →
   ∀ e, apply (projection st) tx = Err e → QE e w) →
  (poisoned st = None → tx_expected_revision tx = revision (projection st) →
   ∀ a, apply (projection st) tx = Ok a →
   let pending := (encode_transaction a).1 in
   let record := (encode_transaction a).2 in
   (∀ reason dir' w', at_ name w (Some dir') w' → stored pending dir dir' → ¬ quiet faults →
      QE (StoreUnavailable reason) (put sid (with_poison reason st) w')) ∧
   (∀ text e dir' w', at_ name w (Some dir') w' → barrier pending dir dir' →
      to_vec record = inl e → QE (StoreUnavailable text) w') ∧
   (∀ line reason part rest dir' w', to_vec record = inr line →
      line +:+ newline = part +:+ rest → barrier pending dir dir' →
      at_ name w (Some (write_log (bytes_of (log dir) +:+ part) dir')) w' → ¬ quiet faults →
      QE (StoreUnavailable reason) (put sid (with_poison reason st) w')) ∧
   (∀ line c st' title dir' w', to_vec record = inr line → barrier pending dir dir' →
      at_ name w (Some (set_title_file title (on_log sync_file
        (write_log (bytes_of (log dir) +:+ line +:+ newline) dir')))) w' →
      applied_commit a = Ok c → projection st' = applied_projection a → poisoned st' = None →
      QO c (put sid st' w'))) →
  wp (commit_state tx st) QO QE w.
Proof.
  intros sid name Hstat Hd Hreach Hpoison Hconflict Herr Hok. unfold commit_state.
  fold sid name. destruct (poisoned st) as [reason|] eqn:Hpo; [by apply wp_fail, (Hpoison reason)|].
  case_bool_decide as Hrev; [|by apply wp_fail, Hconflict]. simpl.
  apply io_wp_bind, wp_lift; [|by apply Herr|by apply apply_not_Panic, reachable_wf].
  intros a Ha. destruct (Hok eq_refl Hrev a Ha) as (HE1&HE2&HE3&HO). clear Hpoison Hconflict Herr Hok.
  pose proof (encode_transaction_hashes a) as Hhash.
  destruct (encode_transaction a) as [pending record]. simpl in *.
  assert (at_ name w (Some dir) w) as Hat by (rewrite <- Hd; apply at_refl).
  apply io_wp_bind, wp_catch. eapply at_write_artifacts; [done| |exact Hat|..].
  { intros x Hx. destruct (Hhash x Hx) as [_ ->]. apply sha256_hex_not_temp. }
  2: { intros. eapply wp_poison, HE1; eauto. }
  intros dir1 w1 Hat1 Hbar. apply io_wp_bind, wp_with_err, wp_lift_sum; [|by eauto].
  intros line Hline. apply io_wp_bind, wp_catch.
  destruct (barrier_log _ _ _ Hbar) as [Hlog _].
  eapply at_append_log; [exact Hat1|..]; rewrite Hlog.
  2: { intros e part rest w2 Hparts Hat2 Hq. eapply wp_poison, HE3; eauto. }
  intros w2 Hat2. apply io_wp_bind.
  destruct (store.applied_commit_Ok _ _ _ Ha) as (leaf&_&Hc). rewrite Hc.
  apply io_wp_bind. eapply at_sync_title; [exact Hat2|].
  intros st' title w3 Hat3 Hp' Hpo'. apply io_wp_bind, wp_modify, io_wp_ret. eapply HO; eauto.
  by rewrite Hpo'.
Qed.
End specs.

(** No query of a file type fails. *)
Class StatsWork {faults : Faults} : Prop := stats_work n : stat_fault n = false.

(** ** The contract *)
Section contract.
Context {sha : Sha256} {faults : Faults} {json : Json} {order : DirOrder} {base : StorePath}.
Context {dbg : DebugSessionError} {stats : StatsWork}.

(** Every session is a log of commits, and a touched one has its directory. *)
Definition jsonl_usable (w : World) : Prop :=
  (∀ sid, ∃ Ls, session_log sid Ls (jsonl_serves w sid)) ∧
  (∀ sid st, sessions w !! sid = Some st → ∃ dir, dir_at (session_dir_name sid) w = Some dir).

Lemma usable_same w w' :
  jsonl_usable w → (∀ sid, jsonl_serves w' sid = jsonl_serves w sid) →
  (∀ sid st, sessions w' !! sid = Some st → ∃ dir, dir_at (session_dir_name sid) w' = Some dir) →
  jsonl_usable w'.
Proof. intros [Hlog _] Hsame Hdir. split; [|done]. intros sid. rewrite Hsame. apply Hlog. Qed.

Lemma at_dirs sid w dir w' :
  jsonl_usable w → at_ (session_dir_name sid) w (Some dir) w' →
  ∀ sid' st, sessions w' !! sid' = Some st → ∃ d, dir_at (session_dir_name sid') w' = Some d.
Proof.
  intros [_ Hdir] (Hs&Hn&Hd) sid' st Hst. rewrite Hs in Hst.
  destruct (decide (sid' = sid)) as [->|Hne]; [by eauto|].
  rewrite Hn; [by eapply Hdir|]. by intros ?%session_dir_name_inj.
Qed.

Lemma put_dirs sid st w dir w' :
  jsonl_usable w → at_ (session_dir_name sid) w (Some dir) w' →
  ∀ sid' st', sessions (put sid st w') !! sid' = Some st' →
    ∃ d, dir_at (session_dir_name sid') (put sid st w') = Some d.
Proof.
  intros Hu Hat sid' st' Hst. change (dir_at (session_dir_name sid') (put sid st w')) with
    (dir_at (session_dir_name sid') w').
  destruct (decide (sid' = sid)) as [->|Hne]; [destruct Hat as (_&_&->); by eauto|].
  simpl in Hst. rewrite lookup_insert_ne in Hst by done. by eapply (at_dirs sid).
Qed.

(** A touched session is served as before, and is not changed by touching. *)
Lemma touch_serves sid create w :
  jsonl_usable w →
  wp (touch sid create)
    (λ st w', jsonl_usable w' ∧ (∀ sid', jsonl_serves w' sid' = jsonl_serves w sid') ∧
       match st with
       | Some st => sessions w' !! sid = Some st ∧ projection st = jsonl_serves w sid
       | None => create = false ∧ jsonl_serves w sid = empty
       end)
    (λ _ w', jsonl_usable w' ∧ ∀ sid', jsonl_serves w' sid' = jsonl_serves w sid') w.
Proof.
  intros Hu. set (name := session_dir_name sid).
  assert (∀ w' d, at_ name w d w' → sessions w !! sid = None →
    disk_projection name w' = disk_projection name w →
    jsonl_usable w' ∧ ∀ sid', jsonl_serves w' sid' = jsonl_serves w sid') as Hplain.
  { intros w' d Hat Hs Hdisk. pose proof (serves_at_all sid w d w' Hat (λ _, Hdisk)) as Hsame.
    split; [|done]. apply (usable_same w); [done..|]. intros sid' st Hst.
    destruct Hat as (Hs'&Hn&Hd'). rewrite Hs' in Hst.
    assert (sid' ≠ sid) by (intros ->; congruence).
    rewrite Hn; [by eapply Hu|]. by intros ?%session_dir_name_inj. }
  assert (∀ st w' dir, at_ name w (Some dir) w' → sessions w !! sid = None →
    disk_projection name w' = disk_projection name w → projection st = disk_projection name w →
    jsonl_usable (put sid st w') ∧ (∀ sid', jsonl_serves (put sid st w') sid' = jsonl_serves w sid') ∧
    sessions (put sid st w') !! sid = Some st ∧ projection st = jsonl_serves w sid) as Hput.
  { intros st w' dir Hat Hs Hdisk Hp. pose proof (serves_at_all sid w _ w' Hat (λ _, Hdisk)) as Hsame.
    assert (projection st = jsonl_serves w sid) as Hp' by (unfold jsonl_serves; by rewrite Hs).
    assert (∀ sid', jsonl_serves (put sid st w') sid' = jsonl_serves w sid') as Hsame'.
    { intros sid'. unfold put. rewrite serves_put. by destruct (decide _) as [->|]. }
    split_and!; [|done|apply lookup_insert_eq|done].
    apply (usable_same w); [done..|]. by eapply put_dirs. }
  apply touch_spec; [apply stats_work|..]; fold name.
  - intros st Hs. split_and!; [done|done|done|]. unfold jsonl_serves. by rewrite Hs.
  - intros Hs. split_and!.
    + intros dir st dir' w' r Hd Hat Hfix _ _ Hr Hp _ _ _. eapply Hput; [exact Hat|done|..].
      * by eapply fixed_disk; [| |exact Hfix]; [|apply Hat].
      * unfold disk_projection. by rewrite Hr.
    + intros st dir' w' _ Hd Hat Hfresh _ _ Hp _. eapply Hput; [exact Hat|done|..].
      * rewrite !disk_log_new; [done|by rewrite Hd|]. destruct Hat as (_&_&->). done.
      * rewrite disk_log_new; [done|by rewrite Hd].
    + intros w' Hc Hd Hat. assert (disk_projection name w = empty) as Hempty.
      { apply disk_log_new. by rewrite Hd. }
      destruct (Hplain w' None Hat Hs) as [??].
      { rewrite Hempty. apply disk_log_new. destruct Hat as (_&_&->). done. }
      split_and!; [done|done|done|]. unfold jsonl_serves. by rewrite Hs.
    + intros e dir dir' w' Hd Hat Hfix _ _. apply (Hplain w' (Some dir') Hat Hs).
      by eapply fixed_disk; [| |exact Hfix]; [|apply Hat].
    + intros e d' w' _ Hd Hat Hfresh _. apply (Hplain w' d' Hat Hs).
      rewrite !disk_log_new; [done|by rewrite Hd|]. destruct Hat as (_&_&->).
      destruct d' as [dir'|]; [|done]. by apply Hfresh.
Qed.

(** What is put under a session's id, and only that, is served differently. *)
Lemma put_serves sid st w d w' sid' :
  at_ (session_dir_name sid) w (Some d) w' →
  jsonl_serves (put sid st w') sid' = if decide (sid' = sid) then projection st else jsonl_serves w sid'.
Proof.
  intros Hat. unfold put. rewrite serves_put. destruct (decide _) as [|Hne]; [done|].
  by eapply serves_at.
Qed.

Lemma touched_same sid st w d w' :
  sessions w !! sid = Some st → at_ (session_dir_name sid) w d w' →
  ∀ sid', jsonl_serves w' sid' = jsonl_serves w sid'.
Proof. intros Hs Hat. eapply serves_at_all; [exact Hat|]. by rewrite Hs. Qed.

Lemma poison_same sid st reason w d w' :
  sessions w !! sid = Some st → at_ (session_dir_name sid) w (Some d) w' →
  ∀ sid', jsonl_serves (put sid (with_poison reason st) w') sid' = jsonl_serves w sid'.
Proof.
  intros Hs Hat sid'. rewrite (put_serves _ _ _ _ _ _ Hat).
  destruct (decide _) as [->|]; [|done]. unfold jsonl_serves. by rewrite Hs.
Qed.

(** The three outcomes of a commit to a store that serves [p]. *)
Definition commit_kept (tx : SessionTransaction) (w : World) (e : SessionError) (w' : World) : Prop :=
  jsonl_usable w' ∧ (∀ sid, jsonl_serves w' sid = jsonl_serves w sid) ∧
  let p := jsonl_serves w (tx_session_id tx) in
  (tx_expected_revision tx ≠ revision p ∧ e = RevisionConflict (tx_expected_revision tx) (revision p) ∨
   tx_expected_revision tx = revision p ∧ apply p tx = Err e ∨ store.is_fault e = true).

Definition commit_made (tx : SessionTransaction) (w : World) (c : SessionCommit) (w' : World) : Prop :=
  jsonl_usable w' ∧
  ∃ a, tx_expected_revision tx = revision (jsonl_serves w (tx_session_id tx)) ∧
    apply (jsonl_serves w (tx_session_id tx)) tx = Ok a ∧ applied_commit a = Ok c ∧
    ∀ sid, jsonl_serves w' sid =
      if sid == tx_session_id tx then applied_projection a else jsonl_serves w sid.

Lemma commit_state_serves tx st w :
  jsonl_usable w → sessions w !! tx_session_id tx = Some st →
  wp (commit_state tx st) (commit_made tx w) (commit_kept tx w) w.
Proof.
  intros Hu Hs. set (sid := tx_session_id tx) in *. set (name := session_dir_name sid).
  destruct (proj2 Hu _ _ Hs) as [dir Hd].
  assert (jsonl_serves w sid = projection st) as Hp by (unfold jsonl_serves; by rewrite Hs).
  destruct (proj1 Hu sid) as [Ls Hlog]. rewrite Hp in Hlog.
  pose proof (session_log_reachable _ _ _ Hlog) as Hreach.
  assert (∀ w' d, at_ name w (Some d) w' → jsonl_usable w' ∧
    ∀ sid', jsonl_serves w' sid' = jsonl_serves w sid') as Hkept.
  { intros w' d Hat. pose proof (touched_same _ _ _ _ _ Hs Hat) as Hsame. split; [|done].
    by apply (usable_same w); [| |eapply at_dirs]. }
  assert (∀ reason reason' w' d, at_ name w (Some d) w' →
    commit_kept tx w (StoreUnavailable reason) (put sid (with_poison reason' st) w')) as Hpoison.
  { intros reason reason' w' d Hat. pose proof (poison_same _ _ reason' _ _ _ Hs Hat) as Hsame.
    split_and!; [|done|by right; right]. by apply (usable_same w); [| |eapply put_dirs]. }
  apply (commit_spec tx st w dir); [apply stats_work|done|done|..].
  - intros reason _ text. split_and!; [done..|by right; right].
  - intros _ Hrev. split_and!; [done..|left]. fold sid. by rewrite Hp.
  - intros _ Hrev e He. split_and!; [done..|right; left]. fold sid. by rewrite Hp.
  - intros _ Hrev a Ha pending record. split_and!.
    + intros reason dir' w' Hat _ _. by eapply Hpoison.
    + intros text e dir' w' Hat _ _. destruct (Hkept _ _ Hat). split_and!; [done..|by right; right].
    + intros line reason part rest dir' w' _ _ _ Hat _. by eapply Hpoison.
    + intros line c st' title dir' w' _ _ Hat Hc Hp' _. fold sid in Hat.
      assert (∀ sid', jsonl_serves (put sid st' w') sid' =
        if sid' == sid then applied_projection a else jsonl_serves w sid') as Hserve.
      { intros sid'. rewrite (put_serves _ _ _ _ _ _ Hat), Hp'.
        case_bool_decide; by destruct (decide _). }
      split.
      * split; [|by eapply put_dirs]. intros sid'. rewrite Hserve.
        case_bool_decide as Heq; [|apply Hu]. subst sid'. eexists. by eapply log_commit.
      * exists a. fold sid. rewrite Hp. by split_and!.
Qed.

Lemma actor_commit_serves tx w :
  jsonl_usable w → wp (actor_commit tx) (commit_made tx w) (commit_kept tx w) w.
Proof.
  intros Hu. unfold actor_commit. apply io_wp_bind, wp_with_err.
  eapply io_wp_mono; [by apply touch_serves|..]; simpl.
  2: { intros e w' [Hu' Hs']. split_and!; [done..|by right; right]. }
  intros [st|] w' (Hu'&Hsame&Hst); [|by destruct Hst]. destruct Hst as [Hst _].
  eapply io_wp_mono; [by apply commit_state_serves|..]; simpl.
  - intros c w'' (Hu''&a&Hc). split; [done|]. exists a. rewrite <- Hsame.
    destruct Hc as (?&?&?&Hc). split_and!; [done..|]. intros sid. by rewrite Hc, Hsame.
  - intros e w'' (Hu''&Hs''&He). rewrite Hsame in He. split_and!; [done| |done].
    intros sid. by rewrite Hs'', Hsame.
Qed.

Lemma actor_view_serves sid w :
  jsonl_usable w →
  let '(w', r) := actor_context_view sid w in
  (r = context_view (jsonl_serves w sid) sid ∨ ∃ e, r = Err e ∧ store.is_fault e = true) ∧
  jsonl_usable w' ∧ ∀ sid', jsonl_serves w' sid' = jsonl_serves w sid'.
Proof.
  intros Hu. pose proof (touch_serves sid false w Hu) as Ht. revert Ht.
  unfold actor_context_view, bind, with_err, wp, lift.
  destruct (touch sid false w) as [w' [[st|]|e|]]; simpl; [..|done].
  - intros (Hu'&Hs&_&->). auto.
  - intros (Hu'&Hs&_&->). auto.
  - intros [Hu' Hs]. split; [|done]. right. by eexists.
Qed.

#[export] Instance jsonl_store_laws : store.StoreLaws World.
Proof.
  refine {| store.serves := jsonl_serves; store.usable := jsonl_usable |}.
  - intros w sid Hu. pose proof (actor_view_serves sid w Hu) as Hv. simpl.
    by destruct (actor_context_view sid w).
  - intros w sid Hu. apply Hu.
  - intros w tx Hu. pose proof (actor_commit_serves tx w Hu) as Hc. unfold wp in Hc. simpl.
    destruct (actor_commit tx w) as [w' [c|e|]]; simpl in *; [..|done].
    + exact Hc.
    + destruct Hc as (?&?&?). by split_and!.
Defined.

(** No session was written yet. *)
Definition empty_world (w : World) : Prop := sessions w = ∅ ∧ ∀ name, dir_at name w = None.

Lemma empty_world_fresh w : empty_world w → store.fresh_store w.
Proof.
  intros [Hs Hd].
  assert (∀ sid, jsonl_serves w sid = empty) as He.
  { intros sid. unfold jsonl_serves. rewrite Hs, lookup_empty. apply disk_log_new. by rewrite Hd. }
  split; [|exact He]. split; [intros sid; rewrite He; eexists; constructor|].
  intros sid st. by rewrite Hs, lookup_empty.
Qed.

(** C9: the JSONL store serialises its clients like the in-memory one, whatever
    accesses fail: in any interleaving of views and commits from an empty root
    on, the commits that succeeded on a session form one log, numbered
    1, 2, 3, ..., and the session that is served is that log's projection; a
    failed access, a torn write or a poisoned session never shows in it, and
    nothing panics. (As long as no query of a file type fails.) *)
Theorem jsonl_store_serializes w0 h w sid :
  empty_world w0 → store.store_run w0 h w →
  session_log sid (commit_entries <$> store.committed sid h) (jsonl_serves w sid) ∧
  commit_revision <$> store.committed sid h = seq 1 (length (store.committed sid h)) ∧
  (∀ tx r, (tx, r) ∈ h → r ≠ Panic) ∧
  (store.store_context_view w sid).2 ≠ Panic.
Proof.
  intros Hfresh%empty_world_fresh Hrun.
  destruct (store.store_run_log _ _ _ sid Hfresh Hrun) as [Hlog Hrev].
  split_and!; [exact Hlog|done|intros tx r; by apply (store.store_run_no_panic w0 h w)|].
  pose proof (store.store_run_usable _ _ _ (proj1 Hfresh) Hrun) as Hu.
  destruct (store.view_law w sid Hu) as [[->|(e&->&_)] _]; [|done].
  destruct (store.reachable_view _ sid (session_log_reachable _ _ _ Hlog)) as [v Hv].
  by rewrite Hv.
Qed.
End contract.
End jsonl_store.
