(* ===== verification/JsonlDurable.v ===== *)
(** Crashes of the JSONL store: what of the file system a crash may leave, the
    lives of a store between crashes, and what a log of transactions reads
    back.

    Module [jsonl_crash] has the crash relations on the world of [Jsonl], the
    runs of an actor that is killed and started again, with the commits it
    acknowledged, and the replay of a log's text.

    The JSONL store survives crashes: every commit it acknowledged is read back.

    Module [jsonl_durable] has the invariant of a session's files and memory,
    that every step of a store's life keeps it, and what recovery serves from
    it. *)

From S2P Require Import Prelude RustStr Session SessionProofs SessionStore RuntimeMapping.
From S2P Require Import JsonlCodec Jsonl JsonlProofs JsonlStore.
Import session jsonl_codec jsonl jsonl_proofs jsonl_replay jsonl_store.

Module jsonl_crash.

(** ** What a power loss may leave *)

Definition is_prefix (s s' : string) : Prop := ∃ rest, s' = s +:+ rest.

(** A write that extends or cuts a file may have reached the disk in part. *)
Definition between (before after c : string) : Prop :=
  is_prefix before c ∧ is_prefix c after ∨ is_prefix after c ∧ is_prefix c before.

Fixpoint possible_from (before : string) (writes : list string) (c : string) : Prop :=
  c = before ∨
  match writes with
  | [] => False
  | after :: writes => between before after c ∨ possible_from after writes c
  end.
Definition possible (f : File) : string → Prop := possible_from (stable f) (pending_writes f).

(** Whether names must survive: a synced directory keeps its names. On a
    [journaled] file system a name also survives when what it leads to was
    synced. *)
Definition log_survives (journaled : bool) (l : Linked File) : Prop :=
  linked l = true ∨ journaled = true ∧ stable (node l) ≠ "".
Definition artifacts_survive (journaled : bool)
    (l : Linked (gmap string (Linked (list Byte.byte)))) : Prop :=
  linked l = true ∨ journaled = true ∧ ∃ h a, node l !! h = Some a ∧ linked a = true.
Definition dir_survives (journaled : bool) (l : Linked Node) (dir : Dir) : Prop :=
  linked l = true ∨ journaled = true ∧
    ((∃ f, log dir = Some f ∧ stable (node f) ≠ "") ∨
     ∃ files, artifacts dir = Some files ∧ artifacts_survive true files).

Inductive log_after (journaled : bool) : option (Linked File) → option (Linked File) → Prop :=
| log_none : log_after journaled None None
| log_kept l c :
    possible (node l) c →
    log_after journaled (Some l)
      (Some {| linked := true; node := {| stable := c; pending_writes := [] |} |})
| log_lost l : ¬ log_survives journaled l → log_after journaled (Some l) None.

(** Temporary files may hold anything; an artifact is there, as it was synced
    before its renaming, or it is not, unless its name was synced. *)
Definition artifact_after (old new : option (Linked (list Byte.byte))) : Prop :=
  new = link <$> old ∨ new = None ∧ ∃ a, old = Some a ∧ linked a = false.

Inductive artifacts_after (journaled : bool) :
    option (Linked (gmap string (Linked (list Byte.byte)))) →
    option (Linked (gmap string (Linked (list Byte.byte)))) → Prop :=
| artifacts_none : artifacts_after journaled None None
| artifacts_kept l files :
    (∀ h, is_temp h ∨ artifact_after (node l !! h) (files !! h)) →
    artifacts_after journaled (Some l) (Some {| linked := true; node := files |})
| artifacts_lost l : ¬ artifacts_survive journaled l → artifacts_after journaled (Some l) None.

(** The title sidecar is a cache: it may hold anything. *)
Definition dir_after (journaled : bool) (dir dir' : Dir) : Prop :=
  locked dir' = false ∧ log_after journaled (log dir) (log dir') ∧
  artifacts_after journaled (artifacts dir) (artifacts dir').

Inductive node_after (journaled : bool) : option (Linked Node) → option (Linked Node) → Prop :=
| node_none : node_after journaled None None
| node_file l b :
    node_after journaled (Some {| linked := l; node := NodeFile |})
      (Some {| linked := b; node := NodeFile |})
| node_kept l dir dir' :
    dir_after journaled dir dir' →
    node_after journaled (Some {| linked := l; node := NodeDir dir |})
      (Some {| linked := true; node := NodeDir dir' |})
| node_lost l dir :
    ¬ dir_survives journaled {| linked := l; node := NodeDir dir |} dir →
    node_after journaled (Some {| linked := l; node := NodeDir dir |}) None.

Definition power_loss (journaled : bool) (w w' : World) : Prop :=
  sessions w' = ∅ ∧ ∀ name, node_after journaled (root w !! name) (root w' !! name).

(** A killed process loses its memory and its locks. *)
Definition killed (w : World) : World :=
  {| sessions := ∅; root := update_node (set_locked false) <$> root w; looks := looks w |}.

(** ** The lives of a store *)

Definition tx_images (tx : SessionTransaction) : list (list Byte.byte) :=
  concat ((kind_images ∘ new_kind) <$> tx_entries tx).

(** No image of the command is outside [shown]. *)
Definition shows (shown : list Byte.byte → Prop) (command : StoreCommand) : Prop :=
  match command with CmdCommit tx => ∀ b, b ∈ tx_images tx → shown b | _ => True end.

Definition acknowledged (command : StoreCommand) (reply : StoreReply)
    : list (SessionId * SessionCommit) :=
  match command, reply with
  | CmdCommit tx, ReplyCommit (Ok c) => [(tx_session_id tx, c)]
  | _, _ => []
  end.

Section life.
Context {sha : Sha256} {json : Json} {order : DirOrder} {base : StorePath} {dbg : DebugSessionError}.

(** A store from an empty root on, with every commit it acknowledged: commands
    under failing accesses, orderly ends, and crashes. A crash in the middle
    of a command is a command all of whose later accesses fail, and then the
    crash. *)
Inductive life (journaled : bool) (shown : list Byte.byte → Prop)
    : list (SessionId * SessionCommit) → World → Prop :=
| life_start w :
    sessions w = ∅ → (∀ name, dir_at name w = None) → life journaled shown [] w
| life_command acks w (faults : Faults) command w' reply :
    life journaled shown acks w → StatsWork (faults := faults) → shows shown command →
    dispatch_command (faults := faults) command w = (w', reply) →
    life journaled shown (acks ++ acknowledged command reply) w'
| life_finish acks w (faults : Faults) :
    life journaled shown acks w → life journaled shown acks (finish (faults := faults) w).1
| life_killed acks w : life journaled shown acks w → life journaled shown acks (killed w)
| life_power_loss acks w w' :
    life journaled shown acks w → power_loss journaled w w' → life journaled shown acks w'.

(** ** The text of a log *)

(** [serde_json] writes one line, and reads what it wrote. *)
Class JsonLaws : Prop := {
  to_vec_no_newline r line : to_vec r = inr line → no_newline line;
  from_to_vec r line :
    to_vec r = inr line →
    ∃ v, from_slice line = Value v ∧ value_version v = Some (rec_v r) ∧ from_value v = inr r
}.
Context {laws : JsonLaws}.

Definition record_of (n : nat) (es : list SessionEntry) : TransactionRecord :=
  {| rec_v := SCHEMA_VERSION; rec_revision := Z.of_nat n;
     rec_entries := (encode_all encode_entry [] es).2 |}.

Lemma encode_transaction_record a :
  (encode_transaction a).2 = record_of (revision (applied_projection a)) (applied_entries a).
Proof. unfold encode_transaction, record_of. by destruct (encode_all _ _ _). Qed.

(** The lines of the transactions after the first [n]. *)
Fixpoint log_lines (n : nat) (Ls : list (list SessionEntry)) (lines : list string) : Prop :=
  match Ls, lines with
  | [], [] => True
  | es :: Ls, line :: lines =>
      to_vec (record_of (S n) es) = inr line ∧ log_lines (S n) Ls lines
  | _, _ => False
  end.

Lemma log_lines_snoc n Ls lines es line :
  log_lines n Ls lines → to_vec (record_of (S (n + length Ls)) es) = inr line →
  log_lines n (Ls ++ [es]) (lines ++ [line]).
Proof.
  revert n lines. induction Ls as [|es' Ls IH]; intros n [|line' lines]; simpl; try done.
  - intros _. by rewrite Nat.add_0_r.
  - intros [Hline Hls] Hv. split; [done|]. apply IH; [done|]. by rewrite <- plus_n_Sm in Hv.
Qed.

Lemma log_lines_no_newline n Ls lines : log_lines n Ls lines → Forall no_newline lines.
Proof.
  revert n lines. induction Ls as [|es Ls IH]; intros n [|line lines]; simpl; try done.
  intros [Hline Hls]. constructor; [by eapply to_vec_no_newline|by eapply IH].
Qed.

(** The log takes [p] to [q]. *)
Fixpoint advances (p : SessionProjection) (Ls : list (list SessionEntry)) (q : SessionProjection)
    : Prop :=
  match Ls with
  | [] => p = q
  | es :: Ls => ∃ p', advance_transaction p es = Ok p' ∧ advances p' Ls q
  end.

Lemma advances_snoc p Ls q es q' :
  advances p Ls q → advance_transaction q es = Ok q' → advances p (Ls ++ [es]) q'.
Proof.
  revert p. induction Ls as [|es' Ls IH]; simpl; intros p; [intros ->; eauto|].
  intros (p'&Ha&Hls) Hq. exists p'. auto.
Qed.

Lemma session_log_advances sid Ls p : session_log sid Ls p → advances empty Ls p.
Proof.
  induction 1 as [|Ls p tx a _ IH _ Ha]; [done|]. apply apply_Ok in Ha as (_&_&_&Ha).
  by eapply advances_snoc.
Qed.

(** ** Reading it back *)

Section read.
Context (faults0 : Faults) (Hquiet : quiet faults0).

Lemma load_present name w b noted :
  artifact_at name (sha256_hex b) w = Some b →
  load_noting (faults := faults0) name (sha256_hex b) (Z.of_nat (length b)) (w, noted) =
    ((looked w, noted ++ [sha256_hex b]), Ok b).
Proof.
  intros Ha. unfold load_noting, load_artifact, bind, with_err, access. rewrite Hquiet.
  cbn [map_err]. unfold get. change (artifact_at name (sha256_hex b) (looked w)) with
    (artifact_at name (sha256_hex b) w). rewrite Ha.
  by rewrite !bool_decide_eq_true_2.
Qed.

Lemma decode_present name w noted es :
  (∀ b, b ∈ images es → artifact_at name (sha256_hex b) w = Some b) →
  ∃ w' noted', decode_entries (faults := faults0) name noted (encode_all encode_entry [] es).2 w =
    (w', Ok (es, noted')) ∧ same_files w w'.
Proof.
  intros Hart. unfold decode_entries.
  destruct (decodes_entries (load_noting (faults := faults0) name) (same_files_noted (w, noted))
    [] es (w, noted)) as ([w' noted']&->&Hs); [|done|by exists w', noted'].
  intros b Hb [w1 n1] [Hs Hr]. simpl in Hs, Hr. exists (looked w1, n1 ++ [sha256_hex b]). split.
  - apply load_present. rewrite <- (Hart b Hb). unfold artifact_at, dir_at. by rewrite Hr.
  - by split.
Qed.

Lemma replay_line_logged name w es n last p q noted line :
  to_vec (record_of n es) = inr line →
  (∀ b, b ∈ images es → artifact_at name (sha256_hex b) w = Some b) →
  advance_transaction p es = Ok q →
  ∃ w' noted', replay_line (faults := faults0) name line last n p noted w =
    (w', Ok (Some (q, noted'))) ∧ same_files w w'.
Proof.
  intros Hline Hart Ha. destruct (from_to_vec _ _ Hline) as (v&Hv&Hver&Hrec).
  destruct (decode_present name w noted es Hart) as (w'&noted'&Hd&Hs).
  exists w', noted'. split; [|done]. unfold replay_line. rewrite Hv, Hver, Hrec.
  rewrite bool_decide_eq_true_2 by done. cbn [negb]. unfold bind, with_err, lift_sum, ret.
  cbn [map_err]. unfold record_of at 1. cbn [rec_v].
  rewrite !bool_decide_eq_true_2 by done. cbn [negb].
  change (rec_entries (record_of n es)) with (encode_all encode_entry [] es).2.
  rewrite Hd. cbn [map_err]. by rewrite (proj2 (replay_Ok p es q) Ha).
Qed.

Lemma replay_lines_logged name tail Ls lines n offset p q noted w :
  log_lines n Ls lines → advances p Ls q →
  (∀ b, b ∈ images (concat Ls) → artifact_at name (sha256_hex b) w = Some b) →
  ∃ noted', (replay_lines (faults := faults0) name lines tail n offset p noted w).2 =
    Ok {| replayed := q; referenced := noted';
          truncate_at := if str_is_empty tail then None
                         else Some (offset + String.length (text lines)) |}.
Proof.
  revert n lines offset p noted w.
  induction Ls as [|es Ls IH]; intros n [|line lines] offset p noted w; simpl; try done.
  { intros _ -> _. exists noted. by rewrite Nat.add_0_r. }
  intros [Hline Hls] (p'&Ha&Hadv) Hart.
  destruct (replay_line_logged name w es (S n) (is_nil lines && str_is_empty tail) p p' noted line)
    as (w'&noted'&Hrun&Hs); [done| |done|].
  { intros b Hb. apply Hart. unfold images in *. rewrite fmap_app, concat_app, elem_of_app. auto. }
  unfold bind. rewrite Hrun. cbn [fst snd].
  destruct (IH (S n) lines (offset + String.length line + 1) p' noted' w') as [noted'' Hrest];
    [done|done| |].
  { intros b Hb. destruct Hs as [_ Hr]. unfold artifact_at, dir_at. rewrite Hr. apply Hart.
    unfold images in *. rewrite fmap_app, concat_app, elem_of_app. auto. }
  exists noted''. rewrite Hrest. f_equal. f_equal. destruct (str_is_empty tail); [done|].
  f_equal. unfold text. csimpl. unfold line_text at 2. rewrite !str_app_length. simpl. lia.
Qed.

Lemma replay_text name tail Ls lines sid p w :
  log_lines 0 Ls lines → session_log sid Ls p → no_newline tail →
  (∀ b, b ∈ images (concat Ls) → artifact_at name (sha256_hex b) w = Some b) →
  ∃ noted, (replay_log (faults := faults0) name (text lines +:+ tail) w).2 =
    Ok {| replayed := p; referenced := noted;
          truncate_at := if str_is_empty tail then None else Some (String.length (text lines)) |}.
Proof.
  intros Hlines Hlog Htail Hart. unfold replay_log.
  rewrite split_text; [|by eapply log_lines_no_newline|done].
  by apply (replay_lines_logged name tail Ls lines 0 0); [|by eapply session_log_advances|].
Qed.
End read.
End life.
End jsonl_crash.

Import session jsonl_codec jsonl jsonl_proofs jsonl_replay jsonl_store jsonl_crash.

Module jsonl_durable.

(** ** Prefixes and possible contents *)

Lemma is_prefix_refl s : is_prefix s s.
Proof. exists "". by rewrite str_app_nil_r. Qed.
Lemma is_prefix_app s s' : is_prefix s (s +:+ s').
Proof. by exists s'. Qed.

(** A prefix of an appended text extends the text. *)
Lemma between_extension s t c :
  is_prefix s c → is_prefix c (s +:+ t) → ∃ part, c = s +:+ part ∧ is_prefix part t.
Proof.
  intros [part ->] [rest Heq]. exists part. split; [done|]. exists rest.
  rewrite str_app_assoc in Heq. by apply string_app_inj_l in Heq.
Qed.

Lemma possible_content f : possible f (content f).
Proof.
  unfold possible, content. destruct f as [s ws]. simpl. revert s.
  induction ws as [|w ws IH]; intros s; [by left|]. right. right. specialize (IH w).
  destruct ws as [|w' ws]; [by left|]. rewrite last_cons_cons.
  by destruct (last (w' :: ws)) eqn:Hl; [|apply last_None in Hl].
Qed.

Lemma possible_write s f c :
  possible (write_file s f) c → possible f c ∨ between (content f) s c ∨ c = s.
Proof.
  unfold possible, content, write_file. destruct f as [s0 ws]. simpl. revert s0.
  induction ws as [|w ws IH]; intros s0; simpl.
  - intros [->|[H|[->|[]]]]; auto.
  - intros [->|[H|H]]; [auto..|]. destruct (IH w H) as [H'|[H'|H']]; [auto| |auto].
    right. left. destruct ws as [|w' ws]; [done|]. rewrite last_cons_cons.
    by destruct (last (w' :: ws)) eqn:Hl; [|apply last_None in Hl].
Qed.

Lemma possible_sync f c : possible (sync_file f) c → c = content f.
Proof. by intros [->|[]]. Qed.

Definition possible_log (l : option (Linked File)) (c : string) : Prop :=
  match l with Some f => possible (node f) c | None => c = "" end.

Lemma possible_bytes l : possible_log l (bytes_of l).
Proof. destruct l as [f|]; [apply possible_content|done]. Qed.

(** ** The images of a transaction *)

Lemma applied_kinds p sid items acc es :
  try_fold (materialize_entry p sid) acc items = Ok es →
  entry_kind <$> es = (entry_kind <$> acc) ++ (new_kind ∘ snd <$> items).
Proof.
  revert acc. induction items as [|[i e] items IH]; intros acc.
  { intros [= <-]. by rewrite app_nil_r. }
  simpl. intros (acc'&Hm&Hrest)%bind_Ok. apply IH in Hrest. rewrite Hrest.
  apply bind_Ok in Hm as (parent&_&[= <-]). rewrite fmap_app. simpl. by rewrite <- app_assoc.
Qed.

Lemma applied_images p tx a : apply p tx = Ok a → images (applied_entries a) = tx_images tx.
Proof.
  intros (_&_&Hm&_)%apply_Ok. apply applied_kinds in Hm. simpl in Hm.
  assert (snd <$> enumerate (tx_entries tx) = tx_entries tx) as Hsnd.
  { unfold enumerate. rewrite fmap_imap. apply list_eq. intros i. rewrite list_lookup_imap.
    by destruct (_ !! i). }
  rewrite list_fmap_compose, Hsnd in Hm. unfold images, tx_images, entry_images.
  rewrite (list_fmap_compose new_kind kind_images), <- Hm, <- list_fmap_compose. done.
Qed.

Lemma no_newline_prefix s s' : is_prefix s s' → no_newline s' → no_newline s.
Proof.
  intros [rest ->]. induction s as [|b s IH]; [done|]. rewrite str_app_cons.
  rewrite !no_newline_cons. intros [Hb Hs]. auto.
Qed.

(** A prefix of a line is no complete line, or all of it. *)
Lemma line_prefix line part :
  no_newline line → is_prefix part (line_text line) → no_newline part ∨ part = line_text line.
Proof.
  unfold line_text. revert part. induction line as [|b line IH]; intros part Hl [rest Heq].
  - rewrite str_app_nil in Heq. unfold newline in *. destruct part as [|c part]; [by left|].
    rewrite str_app_cons in Heq. injection Heq as <- Heq. right. by destruct part.
  - destruct part as [|c part]; [by left|]. rewrite !str_app_cons in Heq. injection Heq as <- Heq.
    apply no_newline_cons in Hl as [Hb Hl].
    destruct (IH part Hl) as [Hp| ->]; [by exists rest|left; by apply no_newline_cons|by right].
Qed.

(** ** The invariant *)
Section invariant.
Context {sha : Sha256} {json : Json} {order : DirOrder} {base : StorePath} {dbg : DebugSessionError}.
Context {laws : JsonLaws} (shown : list Byte.byte → Prop).
Hypothesis no_collision :
  ∀ b b', shown b → shown b' → sha256_hex b = sha256_hex b' → b = b'.

Definition durable (dir : Dir) (b : list Byte.byte) : Prop :=
  art (sha256_hex b) dir = Some {| linked := true; node := b |}.

(** [c] is the log [Ls] and a torn tail, with every image of the log on disk. *)
Definition holds_log (dir : Dir) (c : string) (Ls : list (list SessionEntry)) (tail : string) : Prop :=
  ∃ lines, log_lines 0 Ls lines ∧ c = text lines +:+ tail ∧ no_newline tail ∧
    ∀ b, b ∈ images (concat Ls) → durable dir b.

(** The acknowledged commits are in the log, each where it was acknowledged. *)
Definition contains (sid : SessionId) (acks : list (SessionId * SessionCommit))
    (Ls : list (list SessionEntry)) : Prop :=
  ∀ c, (sid, c) ∈ acks →
    commit_revision c ≠ 0 ∧ Ls !! (commit_revision c - 1) = Some (commit_entries c).

Definition readable sid acks (dir : Dir) (c : string) : Prop :=
  ∃ Ls tail p, session_log sid Ls p ∧ contains sid acks Ls ∧ holds_log dir c Ls tail.

Definition artifacts_ok (dir : Dir) : Prop :=
  ∀ h a, art h dir = Some a → is_temp h ∨ shown (node a) ∧ sha256_hex (node a) = h.

Record session_inv sid acks (dir : Dir) (st : option SessionState) : Prop := {
  inv_contents c : possible_log (log dir) c → readable sid acks dir c;
  inv_artifacts : artifacts_ok dir;
  inv_memory s : st = Some s →
    log dir ≠ None ∧ ∃ Ls, session_log sid Ls (projection s) ∧ contains sid acks Ls ∧
      (poisoned s = None → holds_log dir (bytes_of (log dir)) Ls "");
  inv_lock : st = None → locked dir = false
}.

Definition opt_inv sid acks (dir : option Dir) (st : option SessionState) : Prop :=
  match dir with
  | Some dir => session_inv sid acks dir st
  | None => st = None ∧ ∀ c, (sid, c) ∉ acks
  end.

Definition world_inv acks (w : World) : Prop :=
  ∀ sid, opt_inv sid acks (dir_at (session_dir_name sid) w) (sessions w !! sid).

Lemma holds_log_mono dir dir' c Ls tail :
  (∀ b, durable dir b → durable dir' b) → holds_log dir c Ls tail → holds_log dir' c Ls tail.
Proof. intros Hd (lines&?&?&?&?). exists lines. split_and!; auto. Qed.

Lemma readable_mono sid acks dir dir' c :
  (∀ b, durable dir b → durable dir' b) → readable sid acks dir c → readable sid acks dir' c.
Proof.
  intros Hd (Ls&tail&p&?&?&?). exists Ls, tail, p. split_and!; [done..|].
  by eapply holds_log_mono.
Qed.

Lemma durable_same dir dir' b : artifacts dir' = artifacts dir → durable dir b → durable dir' b.
Proof. unfold durable, art. by intros ->. Qed.

(** Only the log and the artifacts matter. *)
Lemma inv_frame sid acks dir dir' st :
  log dir' = log dir → artifacts dir' = artifacts dir → (st = None → locked dir' = false) →
  session_inv sid acks dir st → session_inv sid acks dir' st.
Proof.
  intros Hl Ha Hk [Hc Hart Hm _]. split; [| | |done].
  - rewrite Hl. intros c Hp. eapply readable_mono; [|by apply Hc]. intros b. by apply durable_same.
  - unfold artifacts_ok, art. rewrite Ha. exact Hart.
  - rewrite Hl. intros s Hs. destruct (Hm s Hs) as (?&Ls&?&?&Hh). split; [done|].
    exists Ls. split_and!; [done..|]. intros Hpo. eapply holds_log_mono; [|by apply Hh].
    intros b. by apply durable_same.
Qed.

Lemma durable_artifact name w dir b :
  dir_at name w = Some dir → durable dir b → artifact_at name (sha256_hex b) w = Some b.
Proof.
  unfold durable, art, artifact_at. intros ->. simpl. destruct (artifacts dir) as [l|]; [|done].
  simpl. by intros ->.
Qed.

(** What recovery reads of a session: a log, and where its torn tail begins. *)
Lemma inv_disk_log sid acks dir st name w :
  session_inv sid acks dir st → dir_at name w = Some dir →
  ∃ Ls lines tail p noted, session_log sid Ls p ∧ contains sid acks Ls ∧ log_lines 0 Ls lines ∧
    bytes_of (log dir) = text lines +:+ tail ∧ no_newline tail ∧
    (∀ b, b ∈ images (concat Ls) → durable dir b) ∧
    disk_log name w = Some {| replayed := p; referenced := noted;
      truncate_at := if str_is_empty tail then None else Some (String.length (text lines)) |}.
Proof.
  intros Hinv Hd. destruct (inv_contents _ _ _ _ Hinv _ (possible_bytes (log dir)))
    as (Ls&tail&p&Hlog&Hc&lines&Hlines&Hbytes&Htail&Hdur).
  destruct (replay_text calm calm_quiet name tail Ls lines sid p w Hlines Hlog Htail) as [noted Hrun].
  { intros b Hb. eapply durable_artifact; [done|]. by apply Hdur. }
  exists Ls, lines, tail, p, noted. split_and!; [done..|].
  by rewrite (disk_log_at _ _ _ Hd), Hbytes, Hrun.
Qed.

Lemma substring_length s t : String.substring 0 (String.length s) (s +:+ t) = s.
Proof.
  induction s as [|b s IH]; [by destruct t|]. rewrite str_app_cons. simpl. by rewrite IH.
Qed.

Lemma cut_text lines tail :
  cut (if str_is_empty tail then None else Some (String.length (text lines))) (text lines +:+ tail) =
  text lines.
Proof. destruct tail as [|b tail]; [apply str_app_nil_r|apply substring_length]. Qed.

(** What may be on disk once recovery cut the tail: what was, or the log and a
    part of the tail. *)
Lemma fixed_possible l l' log_text tail c :
  bytes_of l = log_text +:+ tail →
  log_fixed (if str_is_empty tail then None else Some (String.length log_text)) l l' →
  possible_log l' c →
  possible_log l c ∨ ∃ part, c = log_text +:+ part ∧ is_prefix part tail.
Proof.
  intros Hb Hfix. destruct Hfix as [l1| |k f Hk|k f Hk]; simpl.
  - by left.
  - intros [->|[]]. by left.
  - destruct (str_is_empty tail); [done|]. injection Hk as <-. unfold bytes_of in Hb. simpl in Hb.
    rewrite Hb, substring_length. intros [Hp|[Hp| ->]]%possible_write; [by left| |].
    + right. rewrite Hb in Hp. destruct Hp as [[[r ->] [r' Heq]]|[Hp1 Hp2]].
      * exists (tail +:+ r). split; [by rewrite str_app_assoc|].
        assert (tail +:+ r +:+ r' = "") as Hnil.
        { apply (string_app_inj_l log_text). by rewrite str_app_nil_r, <- !str_app_assoc, <- Heq. }
        exists "". rewrite str_app_nil_r. destruct tail; [|done]. by destruct r.
      * by apply between_extension.
    + right. exists "". split; [by rewrite str_app_nil_r|]. by exists tail.
  - destruct (str_is_empty tail); [done|]. injection Hk as <-. unfold bytes_of in Hb. simpl in Hb.
    rewrite Hb, substring_length. intros ->%possible_sync. rewrite content_write.
    right. exists "". split; [by rewrite str_app_nil_r|]. by exists tail.
Qed.

(** Recovery, whether or not it succeeds, keeps the invariant of the files. *)
Lemma inv_fixed sid acks dir dir' name w :
  session_inv sid acks dir None → dir_at name w = Some dir → fixed name w dir dir' →
  locked dir' = false → session_inv sid acks dir' None.
Proof.
  intros Hinv Hd [Ha Hfix] Hk.
  destruct (inv_disk_log _ _ _ _ name w Hinv Hd)
    as (Ls&lines&tail&p&noted&Hlog&Hc&Hlines&Hb&Htail&Hdur&Hdisk).
  assert (∀ b, durable dir b → durable dir' b) as Hdm by (intros b; by apply durable_same).
  split; [|by unfold artifacts_ok, art; rewrite Ha; apply Hinv|done|done].
  intros c Hp.
  assert (possible_log (log dir) c ∨ ∃ part, c = text lines +:+ part ∧ is_prefix part tail)
    as [Hold|(part&->&Hpart)].
  { destruct Hfix as [Hl|(r&Hr&Hfix)]; [left; by rewrite <- Hl|].
    rewrite Hdisk in Hr. injection Hr as <-. by eapply fixed_possible. }
  - eapply readable_mono; [exact Hdm|]. by apply Hinv.
  - exists Ls, part, p. split_and!; [done..|]. exists lines. split_and!; [done..| |auto].
    by eapply no_newline_prefix.
Qed.

Lemma inv_recovered sid acks dir dir' name w r st :
  session_inv sid acks dir None → dir_at name w = Some dir → fixed name w dir dir' →
  disk_log name w = Some r → projection st = replayed r → poisoned st = None →
  log dir' ≠ None → bytes_of (log dir') = cut (truncate_at r) (bytes_of (log dir)) →
  session_inv sid acks dir' (Some st).
Proof.
  intros Hinv Hd Hfix Hr Hp Hpo Hl Hb'.
  destruct (inv_fixed sid acks dir (set_locked false dir') name w) as [Hc' Hart' _ _]; [done..|].
  split; [exact Hc'|exact Hart'| |done]. intros s [= <-]. split; [done|].
  destruct (inv_disk_log _ _ _ _ name w Hinv Hd)
    as (Ls&lines&tail&p&noted&Hlog&Hc&Hlines&Hb&Htail&Hdur&Hdisk).
  rewrite Hdisk in Hr. injection Hr as <-. simpl in *. exists Ls. rewrite Hp. split_and!; [done..|].
  intros _. exists lines. rewrite Hb', Hb, cut_text. split_and!; [done|by rewrite str_app_nil_r|done|].
  intros b Hin. eapply durable_same; [apply Hfix|auto].
Qed.

(** A directory in which nothing was written. *)
Lemma inv_fresh sid acks dir st :
  (∀ c, (sid, c) ∉ acks) → fresh_dir dir → (st = None → locked dir = false) →
  (∀ s, st = Some s → projection s = empty ∧ log dir ≠ None) →
  session_inv sid acks dir st.
Proof.
  intros Hacks [Ha Hl] Hk Hst.
  assert (holds_log dir "" [] "") as Hempty.
  { exists []. split_and!; [done..|]. by intros b ?%not_elem_of_nil. }
  assert (contains sid acks []) as Hno by (intros c Hin; by destruct (Hacks c)).
  split; [| | |done].
  - intros c Hp. assert (c = "") as ->.
    { destruct Hl as [Hl|[l Hl]]; rewrite Hl in Hp; [done|]. by destruct Hp as [->|[]]. }
    exists [], "", empty. split_and!; [constructor|done|done].
  - intros h a. unfold art. by rewrite Ha.
  - intros s Hs. destruct (Hst s Hs) as [-> Hsome]. split; [done|]. exists [].
    split_and!; [constructor|done|]. intros _.
    assert (bytes_of (log dir) = "") as ->; [|done].
    by destruct Hl as [->|[l ->]].
Qed.
End invariant.
End jsonl_durable.
