(* ===== verification/JsonlLife.v ===== *)
(** Every step of a JSONL store's life keeps the invariant: touching and
    committing under failing accesses, the orderly end, and crashes; and the
    durability of acknowledged commits.

    Module [jsonl_life] has one lemma per step and the properties. *)

From S2P Require Import Prelude RustStr Session SessionProofs SessionStore RuntimeMapping.
From S2P Require Import JsonlCodec Jsonl JsonlProofs JsonlStore JsonlDurable.
Import session jsonl_codec jsonl jsonl_proofs jsonl_replay jsonl_store jsonl_crash jsonl_durable.

Module jsonl_life.

Section artifacts.
Context {sha : Sha256} (shown : list Byte.byte → Prop).
Hypothesis no_collision :
  ∀ b b', shown b → shown b' → sha256_hex b = sha256_hex b' → b = b'.

(** What a transaction leaves pending: its images, under their hashes. *)
Definition pending_ok (pending : list PendingArtifact) : Prop :=
  ∀ a, a ∈ pending → shown (artifact_bytes a) ∧ artifact_hash a = sha256_hex (artifact_bytes a).

Lemma stored_durable pending dir dir' b : stored pending dir dir' → durable dir b → durable dir' b.
Proof.
  unfold durable. intros (_&_&Ha) Hd. destruct (Ha (sha256_hex b)) as [Ht|[->|[Hn _]]].
  - by destruct (sha256_hex_not_temp b).
  - done.
  - congruence.
Qed.

Lemma stored_ok pending dir dir' :
  pending_ok pending → stored pending dir dir' → artifacts_ok shown dir → artifacts_ok shown dir'.
Proof.
  intros Hp (_&_&Ha) Hok h x Hx. destruct (Ha h) as [Ht|[Heq|(_&a&Hin&<-&Heq)]]; [by left|..].
  - apply Hok. congruence.
  - rewrite Hx in Heq. injection Heq as ->. right. destruct (Hp a Hin) as [Hs Hh]. by split.
Qed.

Lemma art_link h dir : art h (on_artifacts (fmap link) dir) = link <$> art h dir.
Proof.
  unfold art, on_artifacts. simpl. destruct (artifacts dir) as [l|]; [|done]. simpl.
  apply lookup_fmap.
Qed.

Lemma link_durable dir b : durable dir b → durable (on_artifacts (fmap link) dir) b.
Proof. unfold durable. rewrite art_link. by intros ->. Qed.

Lemma link_ok dir : artifacts_ok shown dir → artifacts_ok shown (on_artifacts (fmap link) dir).
Proof.
  intros Hok h x. rewrite art_link. destruct (art h dir) as [y|] eqn:Hy; [|done].
  intros [= <-]. by apply (Hok h y).
Qed.

Lemma barrier_keeps pending dir dir' :
  pending_ok pending → barrier pending dir dir' → artifacts_ok shown dir →
  artifacts_ok shown dir' ∧ ∀ b, durable dir b → durable dir' b.
Proof.
  intros Hp [[-> ->]|(dir1&Hst&->&_)] Hok; [done|]. split.
  - by eapply link_ok, stored_ok.
  - intros b Hb. by eapply link_durable, stored_durable.
Qed.

(** After the barrier every image of the transaction is on disk. *)
Lemma barrier_images pending dir dir' b :
  pending_ok pending → barrier pending dir dir' → artifacts_ok shown dir →
  shown b → pends pending b → durable dir' b.
Proof.
  intros Hp Hbar Hok Hb (a&Hin&Hh). destruct Hbar as [[-> _]|(dir1&Hst&->&Hpres)].
  { by apply not_elem_of_nil in Hin. }
  specialize (Hpres a Hin). destruct (art (artifact_hash a) dir1) as [x|] eqn:Hx; [|done].
  rewrite Hh in Hx. unfold durable. rewrite art_link, Hx. simpl. f_equal. unfold link. f_equal.
  destruct (stored_ok pending dir dir1 Hp Hst Hok (sha256_hex b) x Hx) as [Ht|[Hs Hhx]].
  - by destruct (sha256_hex_not_temp b).
  - by apply no_collision.
Qed.
End artifacts.

Section steps.
Context {sha : Sha256} {json : Json} {order : DirOrder} {base : StorePath} {dbg : DebugSessionError}.
Context {laws : JsonLaws} (shown : list Byte.byte → Prop).
Hypothesis no_collision :
  ∀ b b', shown b → shown b' → sha256_hex b = sha256_hex b' → b = b'.

(** ** One session *)

Lemma contains_snoc sid acks Ls es : contains sid acks Ls → contains sid acks (Ls ++ [es]).
Proof. intros Hc c Hin. destruct (Hc c Hin). split; [done|]. by apply lookup_app_l_Some. Qed.

Lemma inv_grow sid acks dir dir' st :
  log dir' = log dir → (∀ b, durable dir b → durable dir' b) → artifacts_ok shown dir' →
  session_inv shown sid acks dir (Some st) → session_inv shown sid acks dir' (Some st).
Proof.
  intros Hl Hd Ha [Hc _ Hm _]. split; [|done| |done].
  - rewrite Hl. intros c Hp. by eapply readable_mono, Hc.
  - rewrite Hl. intros s Hs. destruct (Hm s Hs) as (?&Ls&?&?&Hh). split; [done|].
    exists Ls. split_and!; [done..|]. intros Hpo. eapply holds_log_mono; [done|by apply Hh].
Qed.

Lemma inv_poison sid acks dir st reason :
  session_inv shown sid acks dir (Some st) →
  session_inv shown sid acks dir (Some (with_poison reason st)).
Proof.
  intros [Hc Ha Hm _]. split; [done|done| |done]. intros s [= <-].
  destruct (Hm st eq_refl) as (?&Ls&?&?&_). split; [done|]. exists Ls. by split_and!.
Qed.

Section append.
Context (sid : SessionId) (acks : list (SessionId * SessionCommit)) (dir : Dir) (st : SessionState).
Context (tx : SessionTransaction) (a : AppliedTransaction) (line : string).
Hypothesis Hinv : session_inv shown sid acks dir (Some st).
Hypothesis Hpo : poisoned st = None.
Hypothesis Hsid : tx_session_id tx = sid.
Hypothesis Happly : apply (projection st) tx = Ok a.
Hypothesis Hline : to_vec (encode_transaction a).2 = inr line.
Hypothesis Himages : ∀ b, b ∈ images (applied_entries a) → durable dir b.

(** The log and a prefix of the new line: the line is torn, or it is there. *)
Lemma append_prefix part :
  is_prefix part (line_text line) →
  readable sid acks dir (bytes_of (log dir) +:+ part) ∧
  (part = line_text line → ∃ Ls,
     session_log sid Ls (projection st) ∧ contains sid acks Ls ∧
     holds_log dir (bytes_of (log dir) +:+ part) (Ls ++ [applied_entries a]) "" ∧
     revision (applied_projection a) = S (length Ls)).
Proof using Hinv Hpo Hsid Happly Hline Himages laws.
  intros Hpart. destruct (inv_memory _ _ _ _ _ Hinv st eq_refl) as (_&Ls&Hlog&Hc&Hh).
  destruct (Hh Hpo) as (lines&Hlines&Hb&_&Hdur). rewrite str_app_nil_r in Hb.
  assert (session_log sid (Ls ++ [applied_entries a]) (applied_projection a)) as Hlog'
    by by eapply log_commit.
  pose proof (session_log_revision _ _ _ Hlog') as Hrev. rewrite length_app, Nat.add_comm in Hrev.
  rewrite encode_transaction_record, Hrev in Hline.
  assert (holds_log dir (bytes_of (log dir) +:+ line_text line) (Ls ++ [applied_entries a]) "")
    as Hfull.
  { exists (lines ++ [line]). split_and!; [by apply log_lines_snoc| |done|].
    - by rewrite text_snoc, str_app_nil_r, Hb.
    - intros b. unfold images. rewrite concat_app, fmap_app, concat_app, elem_of_app.
      intros [Hin|Hin]; [by apply Hdur|]. apply Himages. csimpl in Hin. by rewrite app_nil_r in Hin. }
  split.
  - destruct (line_prefix line part (to_vec_no_newline _ _ Hline) Hpart) as [Hn| ->].
    + exists Ls, part, (projection st). split_and!; [done..|]. exists lines. by rewrite Hb.
    + exists (Ls ++ [applied_entries a]), "", (applied_projection a).
      split_and!; [done|by apply contains_snoc|done].
  - intros ->. exists Ls. by split_and!.
Qed.

Lemma write_possible s c :
  possible_log (log (write_log s dir)) c →
  possible_log (log dir) c ∨ between (bytes_of (log dir)) s c ∨ c = s.
Proof using Hinv.
  destruct (inv_memory _ _ _ _ _ Hinv st eq_refl) as [Hsome _].
  unfold write_log, on_log, bytes_of. simpl. destruct (log dir) as [f|]; [|done]. simpl.
  apply possible_write.
Qed.

Lemma write_readable part c :
  is_prefix part (line_text line) →
  possible_log (log (write_log (bytes_of (log dir) +:+ part) dir)) c →
  readable sid acks dir c.
Proof using Hinv Hpo Hsid Happly Hline Himages laws.
  intros Hpart [Hp|[Hp| ->]]%write_possible.
  - by apply Hinv.
  - assert (∃ q, c = bytes_of (log dir) +:+ q ∧ is_prefix q part) as (q&->&[r Hq]).
    { destruct Hp as [[Hp1 Hp2]|[[r Hr] [r' Hr']]]; [by apply between_extension|].
      exists part. split; [|apply is_prefix_refl]. rewrite Hr, str_app_assoc in Hr'.
      rewrite <- (str_app_nil_r (bytes_of (log dir))) in Hr' at 1. rewrite str_app_assoc in Hr'.
      apply string_app_inj_l in Hr'. destruct part as [|b part], r as [|b' r]; try done.
      by rewrite str_app_nil_r in Hr. }
    apply append_prefix. destruct Hpart as [r' Hr']. exists (r +:+ r').
    by rewrite <- str_app_assoc, <- Hq.
  - by apply append_prefix.
Qed.

Lemma log_written s : log (write_log s dir) ≠ None.
Proof using Hinv.
  destruct (inv_memory _ _ _ _ _ Hinv st eq_refl) as [Hsome _].
  unfold write_log, on_log. simpl. by destruct (log dir).
Qed.

Lemma inv_torn part reason :
  is_prefix part (line_text line) →
  session_inv shown sid acks (write_log (bytes_of (log dir) +:+ part) dir)
    (Some (with_poison reason st)).
Proof using Hinv Hpo Hsid Happly Hline Himages laws.
  intros Hpart. split; [|by apply Hinv| |done].
  - intros c Hp. by eapply (readable_mono _ _ dir), write_readable.
  - intros s [= <-]. split; [apply log_written|].
    destruct (inv_memory _ _ _ _ _ Hinv st eq_refl) as (_&Ls&Hlog&Hc&_). by exists Ls.
Qed.

Lemma inv_committed c st' title :
  applied_commit a = Ok c → projection st' = applied_projection a → poisoned st' = None →
  session_inv shown sid (acks ++ [(sid, c)])
    (set_title_file title (on_log sync_file
      (write_log (bytes_of (log dir) +:+ line +:+ newline) dir))) (Some st').
Proof using Hinv Hpo Hsid Happly Hline Himages laws.
  intros Hc Hp' Hpo'. set (dir' := set_title_file _ _). change (line +:+ newline) with (line_text line).
  destruct (append_prefix (line_text line)) as [_ Hfull]; [apply is_prefix_refl|].
  destruct (Hfull eq_refl) as (Ls&Hlog&Hacks&Hh&Hrev).
  assert (log dir' ≠ None ∧ ∀ s, possible_log (log dir') s → s = bytes_of (log dir) +:+ line_text line)
    as [Hsome Hposs].
  { destruct (inv_memory _ _ _ _ _ Hinv st eq_refl) as [Hs _]. unfold dir', write_log, on_log. simpl.
    destruct (log dir) as [f|]; [|done]. simpl. split; [done|]. intros s ->%possible_sync.
    apply content_write. }
  assert (session_log sid (Ls ++ [applied_entries a]) (applied_projection a)) as Hlog'
    by by eapply log_commit.
  assert (contains sid (acks ++ [(sid, c)]) (Ls ++ [applied_entries a])) as Hacks'.
  { intros c' [Hin|Hin]%elem_of_app; [by apply (contains_snoc sid acks Ls _ Hacks c')|].
    apply list_elem_of_singleton in Hin. injection Hin as ->.
    destruct (store.applied_commit_Ok _ _ _ Happly) as (leaf&_&Hc'). rewrite Hc in Hc'.
    injection Hc' as ->. cbn [commit_revision commit_entries]. rewrite Hrev. split; [done|].
    rewrite Nat.sub_succ, Nat.sub_0_r. by apply list_lookup_middle. }
  split; [|by apply Hinv| |done].
  - intros s ->%Hposs. exists (Ls ++ [applied_entries a]), "", (applied_projection a).
    by split_and!.
  - intros s [= <-]. split; [done|]. exists (Ls ++ [applied_entries a]). rewrite Hp'.
    split_and!; [done..|]. intros _. by rewrite (Hposs _ (possible_bytes _)).
Qed.
End append.

(** ** The world *)

Lemma inv_acks sid acks acks' d st :
  (∀ c, (sid, c) ∈ acks' → (sid, c) ∈ acks) →
  opt_inv shown sid acks d st → opt_inv shown sid acks' d st.
Proof.
  intros Hsub. destruct d as [dir|].
  2: { intros [Hst Hno]. split; [done|]. intros c Hin. by apply (Hno c), Hsub. }
  assert (∀ Ls, contains sid acks Ls → contains sid acks' Ls) as Hcont.
  { intros Ls Hc c Hin. by apply Hc, Hsub. }
  intros [Hc Ha Hm Hk]. split; [|done| |done].
  - intros c Hp. destruct (Hc c Hp) as (Ls&tail&p&?&?&?). exists Ls, tail, p. auto.
  - intros s Hs. destruct (Hm s Hs) as (?&Ls&?&?&?). split; [done|]. exists Ls. auto.
Qed.

Lemma world_at acks w w' sid d :
  world_inv shown acks w → at_ (session_dir_name sid) w d w' →
  opt_inv shown sid acks d (sessions w !! sid) → world_inv shown acks w'.
Proof.
  intros Hw (Hs&Hn&Hd) Hinv sid'. rewrite Hs. destruct (decide (sid' = sid)) as [->|Hne].
  - by rewrite Hd.
  - rewrite Hn; [apply Hw|]. by intros ?%session_dir_name_inj.
Qed.

Lemma world_put acks acks' w w' sid dir st :
  world_inv shown acks w → at_ (session_dir_name sid) w (Some dir) w' →
  (∀ sid' c, sid' ≠ sid → (sid', c) ∈ acks' → (sid', c) ∈ acks) →
  session_inv shown sid acks' dir (Some st) → world_inv shown acks' (put sid st w').
Proof.
  intros Hw (Hs&Hn&Hd) Hacks Hinv sid'.
  change (dir_at (session_dir_name sid') (put sid st w')) with (dir_at (session_dir_name sid') w').
  simpl. rewrite Hs. destruct (decide (sid' = sid)) as [->|Hne].
  - by rewrite Hd, lookup_insert_eq.
  - rewrite lookup_insert_ne by done. rewrite Hn by by intros ?%session_dir_name_inj.
    eapply inv_acks; [|apply Hw]. intros c. by apply Hacks.
Qed.

Lemma world_same acks w w' : same_files w w' → world_inv shown acks w → world_inv shown acks w'.
Proof. intros [Hs Hr] Hw sid. unfold dir_at. rewrite Hs, Hr. apply Hw. Qed.

Section commands.
Context {faults : Faults} {stats : StatsWork}.

Lemma touch_inv sid create acks w :
  world_inv shown acks w →
  wp (touch sid create)
    (λ o w', world_inv shown acks w' ∧
       match o with Some st => sessions w' !! sid = Some st | None => create = false end)
    (λ _ w', world_inv shown acks w') w.
Proof.
  intros Hw. pose proof (Hw sid) as Hinv. set (name := session_dir_name sid) in *.
  apply touch_spec; [apply stats_work|..]; fold name; [done|]. intros Hs. rewrite Hs in Hinv.
  assert (∀ w' d, at_ name w d w' → opt_inv shown sid acks d None → world_inv shown acks w') as Hat.
  { intros w' d Hat Hd. apply (world_at acks w w' sid d); [done..|]. by rewrite Hs. }
  assert (∀ st w' dir, at_ name w (Some dir) w' → session_inv shown sid acks dir (Some st) →
    world_inv shown acks (put sid st w') ∧ sessions (put sid st w') !! sid = Some st) as Hput.
  { intros st w' dir Hd Hi. split; [by eapply world_put|]. apply lookup_insert_eq. }
  split_and!.
  - intros dir st dir' w' r Hd Hat' Hfix Hk _ Hr Hp Hpo Hl Hb. eapply Hput; [done|].
    rewrite Hd in Hinv. by eapply inv_recovered.
  - intros st dir' w' _ Hd Hat' Hfresh _ Hl Hp _. eapply Hput; [done|]. rewrite Hd in Hinv.
    apply inv_fresh; [apply Hinv|done|done|]. intros s [= <-]. split; [done|]. by rewrite Hl.
  - intros w' -> Hd Hat'. split; [|done]. eapply Hat; [done|]. by rewrite Hd in Hinv.
  - intros e dir dir' w' Hd Hat' Hfix Hk _. eapply Hat; [done|]. rewrite Hd in Hinv.
    eapply inv_fixed; [done..|]. rewrite Hk. by apply Hinv.
  - intros e d' w' _ Hd Hat' Hfresh _. eapply Hat; [done|]. rewrite Hd in Hinv.
    destruct d' as [dir'|]; [|done]. destruct (Hfresh dir' eq_refl).
    by apply inv_fresh; [apply Hinv|..].
Qed.

Lemma commit_state_inv tx st acks w :
  world_inv shown acks w → sessions w !! tx_session_id tx = Some st →
  (∀ b, b ∈ tx_images tx → shown b) →
  wp (commit_state tx st) (λ c w', world_inv shown (acks ++ [(tx_session_id tx, c)]) w')
    (λ _ w', world_inv shown acks w') w.
Proof using laws no_collision stats.
  intros Hw Hs Hshown. set (sid := tx_session_id tx) in *. pose proof (Hw sid) as Hinv.
  rewrite Hs in Hinv. destruct (dir_at (session_dir_name sid) w) as [dir|] eqn:Hd; [|by destruct Hinv].
  destruct (inv_memory _ _ _ _ _ Hinv st eq_refl) as (_&Ls&Hlog&_).
  assert (∀ w' d st', at_ (session_dir_name sid) w (Some d) w' →
    session_inv shown sid acks d (Some st') → world_inv shown acks (put sid st' w')) as Hput.
  { intros w' d st' Hat Hi. by eapply world_put. }
  apply (commit_spec tx st w dir); [apply stats_work|done|..].
  { by eapply session_log_reachable. }
  1-3: done.
  intros Hpo _ a Ha pending record.
  assert (pending_ok shown pending) as Hpend.
  { intros x Hx. destruct (encode_transaction_hashes a x Hx) as [Hin Hh]. split; [|done].
    apply Hshown. by rewrite <- (applied_images _ _ _ Ha). }
  assert (∀ d, barrier pending dir d → session_inv shown sid acks d (Some st) ∧
    ∀ b, b ∈ images (applied_entries a) → durable d b) as Hbarrier.
  { intros d Hbar. pose proof (inv_artifacts _ _ _ _ _ Hinv) as Hok.
    destruct (barrier_keeps _ _ _ _ Hpend Hbar Hok) as [Hok' Hd'].
    destruct (barrier_log _ _ _ Hbar) as [Hl _]. split; [by eapply inv_grow|].
    intros b Hb. apply (barrier_images shown no_collision pending dir); [done..| |].
    - apply Hshown. by rewrite <- (applied_images _ _ _ Ha).
    - destruct (encodes_all _ _ encodes_entry [] (applied_entries a)) as (added&Hp&_&Hi).
      specialize (Hi b Hb). unfold pending, encode_transaction. revert Hp.
      by destruct (encode_all _ _ _); simpl; intros ->. }
  split_and!.
  - intros reason dir' w' Hat Hst _. eapply Hput; [done|]. apply inv_poison.
    eapply inv_grow; [apply Hst|intros b; by eapply stored_durable| |done].
    eapply stored_ok; [done..|]. by apply Hinv.
  - intros text e dir' w' Hat Hbar _. apply (world_at acks w w' sid (Some dir')); [done..|].
    rewrite Hs. by apply Hbarrier.
  - intros line reason part rest dir' w' Hline Hparts Hbar Hat _. eapply Hput; [done|].
    destruct (Hbarrier dir' Hbar) as [Hinv' Him]. destruct (barrier_log _ _ _ Hbar) as [<- _].
    eapply inv_torn; [done|done|reflexivity|done|done|done|]. by exists rest.
  - intros line c st' title dir' w' Hline Hbar Hat Hc Hp' Hpo'.
    destruct (Hbarrier dir' Hbar) as [Hinv' Him]. destruct (barrier_log _ _ _ Hbar) as [Hl _].
    rewrite <- Hl in Hat. eapply (world_put acks); [done|exact Hat| |].
    + intros sid' c' Hne [Hin|Hin]%elem_of_app; [done|].
      apply list_elem_of_singleton in Hin. by simplify_eq.
    + by eapply inv_committed.
Qed.

Lemma actor_commit_inv tx acks w :
  world_inv shown acks w → (∀ b, b ∈ tx_images tx → shown b) →
  wp (actor_commit tx) (λ c w', world_inv shown (acks ++ [(tx_session_id tx, c)]) w')
    (λ _ w', world_inv shown acks w') w.
Proof using laws no_collision stats.
  intros Hw Hshown. unfold actor_commit. apply io_wp_bind, wp_with_err.
  eapply io_wp_mono; [by apply touch_inv|simpl|done]. intros [st|] w' [Hw' Hst]; [|done].
  by apply commit_state_inv.
Qed.
End commands.

(** ** Listings change no file *)

Lemma keeps_get {E} : keeps same_files (get (E := E)).
Proof. by intros w. Qed.
Lemma keeps_looked w : same_files w (looked w).
Proof. by split. Qed.
Lemma keeps_catch {E F A} (m : io World E A) :
  keeps same_files m → keeps same_files (catch (F := F) m).
Proof. intros Hm w. specialize (Hm w). unfold catch. by destruct (m w) as [w' [| |]]. Qed.

Lemma keeps_read_title {F : Faults} {E} name : keeps same_files (read_title_file (E := E) name).
Proof.
  apply (keeps_bind _); [apply keeps_catch, keeps_access; [apply _|apply keeps_looked]|]. intros read.
  apply (keeps_bind _); [apply keeps_get|]. intros w. apply (keeps_ret _).
Qed.

Lemma keeps_read_names {F : Faults} context {A} (files : gmap string A) :
  keeps same_files (read_names context files).
Proof.
  apply (keeps_bind _); [apply keeps_with_err, keeps_access; [apply _|apply keeps_looked]|].
  intros _. apply (keeps_map_m _). intros [name a].
  apply (keeps_bind _); [apply keeps_with_err, keeps_access; [apply _|apply keeps_looked]|].
  intros _. apply (keeps_ret _).
Qed.

Lemma keeps_scan {F : Faults} : keeps same_files scan_session_dirs.
Proof.
  apply (keeps_bind _); [apply keeps_get|]. intros w.
  apply (keeps_bind _); [apply keeps_read_names|]. intros names.
  induction names as [|name names IH]; [apply (keeps_ret _)|]. cbn [scan_names].
  apply (keeps_bind _); [intros w'; apply keeps_looked|]. intros b.
  apply (keeps_bind _); [exact IH|]. intros rest. apply (keeps_ret _).
Qed.

Lemma keeps_list_sessions {F : Faults} : keeps same_files actor_list_sessions.
Proof. apply (keeps_bind _); [apply keeps_scan|]. intros found. apply (keeps_ret _). Qed.

Lemma keeps_list_summaries {F : Faults} : keeps same_files actor_list_session_summaries.
Proof.
  apply (keeps_bind _); [apply keeps_scan|]. intros found. apply (keeps_map_m _). intros [sid name].
  apply (keeps_bind _); [apply keeps_get|]. intros w.
  apply (keeps_bind _); [intros w'; apply keeps_looked|]. intros _.
  apply (keeps_bind _); [apply keeps_read_title|]. intros title. apply (keeps_ret _).
Qed.

(** ** Commands *)

Lemma view_touches {F : Faults} sid w : (actor_context_view sid w).1 = (touch sid false w).1.
Proof.
  unfold actor_context_view, bind, with_err, lift.
  by destruct (touch sid false w) as [w' [[st|]|e|]].
Qed.

Lemma recover_touches {F : Faults} sid w : (recover_session sid w).1 = (touch sid false w).1.
Proof.
  unfold recover_session, touch, bind, get. destruct (sessions w !! sid); [done|].
  destruct (is_session_dir _ w) as [w1 [[]|e|]]; try done.
  destruct (recover_locked _ w1) as [w2 [st|e|]]; try done.
Qed.

Lemma touched_inv {F : Faults} {stats : StatsWork} sid acks w :
  world_inv shown acks w → world_inv shown acks (touch sid false w).1.
Proof.
  intros Hw. pose proof (touch_inv sid false acks w Hw) as Ht. unfold wp in Ht.
  destruct (touch sid false w) as [w' [o|e|]]; simpl in *; [apply Ht|done..].
Qed.

Lemma dispatch_inv {F : Faults} {stats : StatsWork} command acks w w' reply :
  world_inv shown acks w → shows shown command → dispatch_command command w = (w', reply) →
  world_inv shown (acks ++ acknowledged command reply) w'.
Proof using laws no_collision.
  intros Hw Hshows. destruct command as [sid|tx| | |sid|]; simpl; unfold answer_with.
  - pose proof (touched_inv sid acks w Hw) as Ht. rewrite <- view_touches in Ht.
    destruct (actor_context_view sid w) as [w1 r]. intros [= <- <-]. by rewrite app_nil_r.
  - pose proof (actor_commit_inv tx acks w Hw Hshows) as Hc. unfold wp in Hc.
    destruct (actor_commit tx w) as [w1 [c|e|]]; simpl in Hc; [| |done]; intros [= <- <-];
      simpl; by rewrite ?app_nil_r.
  - pose proof (keeps_list_sessions w) as Hk. destruct (actor_list_sessions w) as [w1 r].
    intros [= <- <-]. rewrite app_nil_r. by eapply world_same.
  - pose proof (keeps_list_summaries w) as Hk. destruct (actor_list_session_summaries w) as [w1 r].
    intros [= <- <-]. rewrite app_nil_r. by eapply world_same.
  - pose proof (touched_inv sid acks w Hw) as Ht. rewrite <- recover_touches in Ht.
    destruct (recover_session sid w) as [w1 r]. intros [= <- <-]. by rewrite app_nil_r.
  - intros [= <- <-]. by rewrite app_nil_r.
Qed.

(** ** Ends and crashes *)

(** Losing the memory, once no lock is held. *)
Lemma inv_forget sid acks dir dir' st :
  session_inv shown sid acks dir st →
  (∀ c, possible_log (log dir') c → possible_log (log dir) c) →
  (∀ b, durable dir b → durable dir' b) → artifacts_ok shown dir' → locked dir' = false →
  session_inv shown sid acks dir' None.
Proof.
  intros [Hc _ _ _] Hp Hd Ha Hk. split; [|done..]. intros c Hpc.
  by eapply readable_mono, Hc, Hp.
Qed.

Lemma killed_inv acks w : world_inv shown acks w → world_inv shown acks (killed w).
Proof.
  intros Hw sid. specialize (Hw sid). unfold dir_at in *. simpl. rewrite lookup_empty, lookup_fmap.
  destruct (root w !! session_dir_name sid) as [[l [|dir]]|]; simpl in *.
  - split; [done|]. apply Hw.
  - eapply inv_forget; [exact Hw|done|done|by apply Hw|done].
  - split; [done|]. apply Hw.
Qed.

(** What an acknowledged commit left: a synced log that is not empty. *)
Lemma acknowledged_stable sid acks dir st c :
  session_inv shown sid acks dir st → (sid, c) ∈ acks →
  ∃ f, log dir = Some f ∧ stable (node f) ≠ "".
Proof.
  intros Hinv Hin.
  assert (possible_log (log dir) "" → False) as Hne.
  { intros Hp. destruct (inv_contents _ _ _ _ _ Hinv _ Hp) as (Ls&tail&p&_&Hc&lines&Hlines&Hb&_).
    destruct (Hc c Hin) as [_ Hl]. destruct lines as [|line lines].
    - destruct Ls; [by rewrite lookup_nil in Hl|done].
    - exfalso. revert Hb. unfold text, line_text. csimpl.
      destruct line as [|b line]; unfold newline; by rewrite ?str_app_cons. }
  destruct (log dir) as [f|]; [|by destruct Hne]. exists f. split; [done|]. intros Hs.
  apply Hne. simpl. unfold possible. rewrite Hs. destruct (pending_writes (node f)); by left.
Qed.

Lemma artifacts_after_ok dir dir' :
  artifacts_after true (artifacts dir) (artifacts dir') → artifacts_ok shown dir →
  artifacts_ok shown dir' ∧ ∀ b, durable dir b → durable dir' b.
Proof.
  unfold artifacts_ok, durable, art. intros Hafter Hok.
  destruct Hafter as [|l files Hfiles|l Hlost]; [done| |].
  - simpl in *. split.
    + intros h x Hx. simpl in Hx. destruct (Hfiles h) as [Ht|[Heq|(Hn&_)]]; [by left| |congruence].
      rewrite Hx in Heq. destruct (node l !! h) as [y|] eqn:Hy; [|done].
      injection Heq as ->. by apply (Hok h y).
    + intros b Hb. destruct (Hfiles (sha256_hex b)) as [Ht|[Heq|(_&y&Hy&Hl)]].
      * by destruct (sha256_hex_not_temp b).
      * by rewrite Heq, Hb.
      * rewrite Hb in Hy. by injection Hy as <-.
  - split; [done|]. intros b Hb. exfalso. apply Hlost. right. split; [done|].
    simpl in Hb. by eexists _, _.
Qed.

Lemma log_after_inv sid acks dir dir' st :
  session_inv shown sid acks dir st → dir_after true dir dir' →
  session_inv shown sid acks dir' None.
Proof.
  intros Hinv (Hk&Hl&Ha). destruct (artifacts_after_ok _ _ Ha (inv_artifacts _ _ _ _ _ Hinv)).
  eapply inv_forget; [exact Hinv| |done..]. intros c Hp.
  destruct Hl as [|l c' Hc'|l Hlost]; [done|..].
  - by destruct Hp as [->|[]].
  - simpl in *. subst c. unfold possible. assert (stable (node l) = "") as Hs.
    { destruct (decide (stable (node l) = "")); [done|]. destruct Hlost. by right. }
    rewrite Hs. destruct (pending_writes (node l)); by left.
Qed.

Lemma power_loss_inv acks w w' :
  power_loss true w w' → world_inv shown acks w → world_inv shown acks w'.
Proof.
  intros [Hs Hn] Hw sid. specialize (Hw sid). rewrite Hs, lookup_empty. unfold dir_at in *.
  destruct (Hn (session_dir_name sid)) as [|l b|l dir dir' Hdir|l dir Hlost]; simpl in *.
  - split; [done|]. apply Hw.
  - split; [done|]. apply Hw.
  - by eapply log_after_inv.
  - split; [done|]. intros c Hin. apply Hlost. right. split; [done|]. left.
    by eapply acknowledged_stable.
Qed.

(** What ending does to a directory: its log may be synced, its lock dropped. *)
Definition ended (dir dir' : Dir) : Prop :=
  artifacts dir' = artifacts dir ∧ (∀ c, possible_log (log dir') c → possible_log (log dir) c) ∧
  (locked dir = false → locked dir' = false).

Lemma ended_trans d1 d2 d3 : ended d1 d2 → ended d2 d3 → ended d1 d3.
Proof. intros (Ha1&Hc1&Hk1) (Ha2&Hc2&Hk2). split_and!; [congruence|auto..]. Qed.

Lemma ended_sync dir : ended dir (on_log sync_file dir).
Proof.
  split_and!; [done| |done]. intros c. unfold on_log. simpl. destruct (log dir) as [f|]; [|done].
  simpl. intros ->%possible_sync. apply possible_content.
Qed.

Lemma dir_at_on_dir {E} n name f w :
  dir_at n (on_dir (E := E) name f w).1 = if decide (n = name) then f <$> dir_at n w else dir_at n w.
Proof.
  unfold dir_at, on_dir. simpl. destruct (decide (n = name)) as [->|Hne].
  - rewrite lookup_alter_eq. by destruct (root w !! name) as [[l []]|].
  - by rewrite lookup_alter_ne.
Qed.

(** The end of one session. *)
Lemma finish_one {F : Faults} name names w :
  ∃ w1, finish_sessions (name :: names) w = finish_sessions names w1 ∧
    ∀ n, n ≠ name ∧ dir_at n w1 = dir_at n w ∨ n = name ∧
      (dir_at n w1 = set_locked false <$> dir_at n w ∨
       dir_at n w1 = (set_locked false ∘ on_log sync_file) <$> dir_at n w).
Proof.
  cbn [finish_sessions]. unfold bind at 1, catch, access. destruct (fault (looks w)) as [kind|].
  - exists (on_dir (E := Empty_set) name (set_locked false) (looked w)).1.
    split; [done|]. intros n. rewrite dir_at_on_dir.
    destruct (decide (n = name)); [right|by left]. split; [done|]. by left.
  - exists (on_dir (E := Empty_set) name (set_locked false)
      (on_dir (E := Empty_set) name (on_log sync_file) (looked w)).1).1.
    split; [done|]. intros n. rewrite !dir_at_on_dir.
    destruct (decide (n = name)); [right|by left]. split; [done|]. right.
    change (dir_at n (looked w)) with (dir_at n w). by destruct (dir_at n w).
Qed.

Lemma finish_sessions_ends {F : Faults} names w n :
  (finish_sessions names w).2 = Ok tt ∧
  match dir_at n w with
  | None => dir_at n (finish_sessions names w).1 = None
  | Some dir => ∃ dir', dir_at n (finish_sessions names w).1 = Some dir' ∧ ended dir dir' ∧
      (n ∈ names → locked dir' = false)
  end.
Proof.
  revert w. induction names as [|name names IH]; intros w.
  { split; [done|]. simpl. destruct (dir_at n w) as [dir|]; [|done]. exists dir.
    split_and!; [done..|]. by intros ?%not_elem_of_nil. }
  destruct (finish_one name names w) as (w1&->&Hd1). destruct (IH w1) as [Hok Hd2].
  split; [done|]. specialize (Hd1 n). destruct (dir_at n w) as [dir|].
  2: { destruct Hd1 as [[_ Hd]|[_ [Hd|Hd]]]; rewrite Hd in Hd2; exact Hd2. }
  destruct Hd1 as [[Hne Hd]|[-> [Hd|Hd]]]; rewrite Hd in Hd2; simpl in Hd2;
    destruct Hd2 as (dir'&Hd'&He&Hk); exists dir'.
  - split_and!; [done..|]. intros Hin. apply Hk. by apply elem_of_cons in Hin as [?|?].
  - split_and!; [done| |].
    + eapply ended_trans; [|exact He]. by split_and!.
    + intros _. by apply He.
  - split_and!; [done| |].
    + eapply ended_trans; [apply ended_sync|]. eapply ended_trans; [|exact He]. by split_and!.
    + intros _. by apply He.
Qed.

Lemma finish_inv {F : Faults} acks w : world_inv shown acks w → world_inv shown acks (finish w).1.
Proof.
  intros Hw sid. specialize (Hw sid). set (name := session_dir_name sid) in *.
  set (names := (λ '(session_id, _), session_dir_name session_id) <$> dir_order (sessions w)).
  destruct (finish_sessions_ends names w name) as [Hok Hd].
  assert ((finish w).1 = set_sessions ∅ (finish_sessions names w).1) as ->.
  { unfold finish, bind, get. fold names. by destruct (finish_sessions names w) as [w' [| |]]. }
  change (dir_at name (set_sessions ∅ (finish_sessions names w).1)) with
    (dir_at name (finish_sessions names w).1).
  simpl. rewrite lookup_empty. destruct (dir_at name w) as [dir|].
  2: { rewrite Hd. split; [done|]. apply Hw. }
  destruct Hd as (dir'&->&(Ha&Hc&Hl)&Hk).
  eapply inv_forget; [exact Hw|done|intros b; by apply durable_same| |].
  - unfold artifacts_ok, art. rewrite Ha. apply Hw.
  - destruct (sessions w !! sid) as [st|] eqn:Hs; [|by apply Hl, Hw]. apply Hk.
    apply list_elem_of_fmap. exists (sid, st). split; [done|]. rewrite dir_order_perm.
    by apply elem_of_map_to_list.
Qed.
End steps.

(** ** Every life *)
Section life.
Context {sha : Sha256} {json : Json} {order : DirOrder} {base : StorePath} {dbg : DebugSessionError}.
Context {laws : JsonLaws} (shown : list Byte.byte → Prop).
Hypothesis no_collision :
  ∀ b b', shown b → shown b' → sha256_hex b = sha256_hex b' → b = b'.

Lemma life_inv acks w : life true shown acks w → world_inv shown acks w.
Proof using laws no_collision.
  induction 1 as [w Hs Hd|acks w F command w' reply _ IH Hst Hsh Hrun|acks w F _ IH|acks w _ IH
                  |acks w w' _ IH Hp].
  - intros sid. rewrite Hd, Hs, lookup_empty. split; [done|]. by intros c ?%not_elem_of_nil.
  - by eapply dispatch_inv.
  - by apply finish_inv.
  - by apply killed_inv.
  - by eapply power_loss_inv.
Qed.

#[export] Instance calm_stats : StatsWork (faults := calm).
Proof. done. Qed.

(** Nothing keeps a calm actor from opening a session. *)
Lemma calm_touch acks w sid :
  world_inv shown acks w →
  wp (touch (faults := calm) sid false)
    (λ o _, default empty (projection <$> o) = jsonl_serves w sid) (λ _ _, False) w.
Proof using laws.
  intros Hw. specialize (Hw sid). apply touch_spec; [done|..].
  { intros st Hs. unfold jsonl_serves. by rewrite Hs. }
  intros Hs. unfold jsonl_serves. rewrite Hs in *. set (name := session_dir_name sid) in *.
  split_and!.
  - intros dir st dir' w' r _ _ _ _ _ Hr Hp _ _ _. unfold disk_projection. by rewrite Hr.
  - done.
  - intros w' _ Hd _. simpl. symmetry. apply disk_log_new. by rewrite Hd.
  - intros e dir dir' w' Hd _ _ _ Hq. rewrite Hd in Hw.
    destruct (Hq calm_quiet) as [Hl|Hn].
    + by rewrite (inv_lock _ _ _ _ _ Hw) in Hl.
    + destruct (inv_disk_log _ _ _ _ _ name w Hw Hd) as (Ls&lines&tail&p&noted&_&_&_&_&_&_&Hdisk).
      congruence.
  - done.
Qed.

(** The session that a calm actor serves. *)
Lemma calm_view acks w sid :
  world_inv shown acks w →
  ∃ Ls, session_log sid Ls (jsonl_serves w sid) ∧ contains sid acks Ls ∧
    (actor_context_view (faults := calm) sid w).2 = context_view (jsonl_serves w sid) sid.
Proof using laws.
  intros Hw. pose proof (calm_touch acks w sid Hw) as Ht. specialize (Hw sid).
  assert ((actor_context_view (faults := calm) sid w).2 = context_view (jsonl_serves w sid) sid) as Hv.
  { unfold actor_context_view, bind, with_err, lift. unfold wp in Ht.
    destruct (touch (faults := calm) sid false w) as [w' [[st|]|e|]]; simpl in *; [|by rewrite <- Ht|done..].
    by rewrite <- Ht. }
  clear Ht. unfold jsonl_serves in *. set (name := session_dir_name sid) in *.
  destruct (sessions w !! sid) as [st|].
  - destruct (dir_at name w) as [dir|]; [|by destruct Hw].
    destruct (inv_memory _ _ _ _ _ Hw st eq_refl) as (_&Ls&Hlog&Hc&_). exists Ls. by split_and!.
  - destruct (dir_at name w) as [dir|] eqn:Hd.
    + destruct (inv_disk_log _ _ _ _ _ name w Hw Hd) as (Ls&lines&tail&p&noted&Hlog&Hc&_&_&_&_&Hdisk).
      exists Ls. unfold disk_projection in *. rewrite Hdisk in *. by split_and!.
    + exists []. destruct Hw as [_ Hno]. split_and!; [|by intros c ?%Hno|done].
      rewrite disk_log_new; [constructor|by rewrite Hd].
Qed.

(** C8: the JSONL store keeps what it acknowledged, while the queries of file types
    work ([is_file], [is_dir]; a failing one makes it begin an existing log anew, see
    [failing_stat_breaks_log] in [JsonlDemo.v]). In every such life of a store - any
    commands, any other file system access failing, writes torn anywhere, the process killed or the power lost at any point and the store opened again,
    as often as it takes - every commit that was ever acknowledged is, at its
    revision, in the log of the session that is served; and once accesses
    succeed the session is served, never refused: a torn tail is cut off, and
    no acknowledged line or image is lost with it. (For a file system that
    keeps the names of what was synced, and images whose hashes differ.) *)
Theorem acknowledged_commits_survive acks w sid :
  life true shown acks w →
  ∃ Ls, session_log sid Ls (jsonl_serves w sid) ∧
    (∀ c, (sid, c) ∈ acks →
       commit_revision c ≠ 0 ∧ Ls !! (commit_revision c - 1) = Some (commit_entries c)) ∧
    (actor_context_view (faults := calm) sid w).2 = context_view (jsonl_serves w sid) sid ∧
    ∃ view, context_view (jsonl_serves w sid) sid = Ok view.
Proof using laws no_collision.
  intros Hlife%life_inv. destruct (calm_view acks w sid Hlife) as (Ls&Hlog&Hc&Hv).
  exists Ls. split_and!; [done..|]. apply store.reachable_view. by eapply session_log_reachable.
Qed.
End life.
End jsonl_life.
