(* ===== verification/JsonlDemo.v ===== *)
(** A concrete JSONL store: a JSON codec for the records of a short session, an
    identity digest, and runs with torn writes, crashes and failing queries.

    Module [jsonl_demo] has the witnesses of the JSONL store's properties and
    the runs in which the code loses what it promises. *)

From S2P Require Import Prelude RustStr Session SessionProofs SessionStore RuntimeMapping.
From S2P Require Import JsonlCodec Jsonl JsonlProofs JsonlStore JsonlDurable JsonlLife.
Import session jsonl_codec jsonl jsonl_proofs jsonl_replay jsonl_store jsonl_crash jsonl_durable jsonl_life.

Module jsonl_demo.

(** ** The parameters *)

#[export] Instance UserPartRecord_eq_dec : EqDecision UserPartRecord.
Proof. solve_decision. Defined.
#[export] Instance AssistantBlockRecord_eq_dec : EqDecision AssistantBlockRecord.
Proof. solve_decision. Defined.
#[export] Instance ToolOutcomeRecord_eq_dec : EqDecision ToolOutcomeRecord.
Proof. solve_decision. Defined.
#[export] Instance ToolResultRecord_eq_dec : EqDecision ToolResultRecord.
Proof. solve_decision. Defined.
#[export] Instance FailureKindRecord_eq_dec : EqDecision FailureKindRecord.
Proof. solve_decision. Defined.
#[export] Instance FailureRecord_eq_dec : EqDecision FailureRecord.
Proof. solve_decision. Defined.
#[export] Instance OutcomeRecord_eq_dec : EqDecision OutcomeRecord.
Proof. solve_decision. Defined.
#[export] Instance ReasonRecord_eq_dec : EqDecision ReasonRecord.
Proof. solve_decision. Defined.
#[export] Instance TokenUsageRecord_eq_dec : EqDecision TokenUsageRecord.
Proof. solve_decision. Defined.
#[export] Instance GenerationChoiceRecord_eq_dec : EqDecision GenerationChoiceRecord.
Proof. solve_decision. Defined.
#[export] Instance KindRecord_eq_dec : EqDecision KindRecord.
Proof. solve_decision. Defined.
#[export] Instance EntryRecord_eq_dec : EqDecision EntryRecord.
Proof. solve_decision. Defined.
#[export] Instance TransactionRecord_eq_dec : EqDecision TransactionRecord.
Proof. solve_decision. Defined.

#[export] Instance demo_sha : Sha256 := λ bytes, bytes.
#[export] Instance demo_order : DirOrder :=
  {| dir_order A := map_to_list; dir_order_perm A m := Permutation_refl _ |}.
#[export] Instance demo_path : StorePath := "store".
#[export] Instance demo_debug : DebugSessionError := {| debug_session_error := λ _, "error" |}.

(** Two transactions of a session, the first with an image. *)
Definition image : list Byte.byte := [Byte.x01; Byte.x02].
Definition tx1 : SessionTransaction :=
  linear "s" 0 [OperationStarted "op"; TurnStarted "op" "t";
                UserMessage "t" [PartText "hello"; PartImage "image/png" image]].
Definition tx2 : SessionTransaction := linear "s" 1 demo.tools.

Definition applied_or (p : SessionProjection) (tx : SessionTransaction) : AppliedTransaction :=
  match apply p tx with
  | Ok a => a
  | _ => {| applied_entries := []; applied_projection := p |}
  end.
Definition a1 : AppliedTransaction := Eval vm_compute in applied_or empty tx1.
Definition a2 : AppliedTransaction := Eval vm_compute in applied_or (applied_projection a1) tx2.
Definition record1 : TransactionRecord := Eval vm_compute in (encode_transaction a1).2.
Definition record2 : TransactionRecord := Eval vm_compute in (encode_transaction a2).2.

(** A codec that knows these two records. *)
#[export] Instance demo_json : Json := {|
  json_value := TransactionRecord;
  from_slice line :=
    if bool_decide (line = "{first}") then Value record1
    else if bool_decide (line = "{second}") then Value record2
    else EofError "EOF while parsing";
  value_version r := Some (rec_v r);
  from_value r := inr r;
  to_vec r :=
    if bool_decide (r = record1) then inr "{first}"
    else if bool_decide (r = record2) then inr "{second}"
    else inl "unknown record"
|}.

#[export] Instance demo_json_laws : JsonLaws.
Proof.
  assert (∀ r line, to_vec r = inr line → no_newline line ∧
    ∃ v, from_slice line = Value v ∧ value_version v = Some (rec_v r) ∧ from_value v = inr r) as Hlaws.
  { intros r line. simpl. case_bool_decide as H1; [|case_bool_decide as H2; [|done]];
      intros [= <-]; subst r; (split; [reflexivity|]); eexists; by split_and!. }
  split; intros r line Hline; destruct (Hlaws r line Hline); done.
Qed.

Definition world0 : World := {| sessions := ∅; root := ∅; looks := 0 |}.

(** Every access from the [n]th on fails; a failing write leaves four bytes. *)
Definition broken_from (n : nat) : Faults :=
  {| fault k := if n <=? k then Some "EIO" else None; written := λ _, 4; stat_fault := λ _, false;
     mtime := λ _, None |}.

(** ** Runs *)
Definition run1 := actor_commit (faults := calm) tx1 world0.
Definition world1 : World := run1.1.
Definition commit1 : SessionCommit :=
  {| commit_revision := 1; commit_entries := applied_entries a1;
     commit_current_leaf := "s:entry:3" |}.
Example run1_commits : run1.2 = Ok commit1.
Proof. vm_compute. reflexivity. Qed.

(** The second commit breaks while its line is written; then the power is lost,
    and three of the line's bytes are on disk. *)
Definition world2 : World := (actor_commit (faults := broken_from (looks world1)) tx2 world1).1.
Definition dir2 : Dir := default empty_dir (dir_at "s-s" world2).
Definition after_loss (files : option (Linked (gmap string (Linked (list Byte.byte))))) : World :=
  {| sessions := ∅;
     root := {[ "s-s" := {| linked := true; node := NodeDir {|
       locked := false;
       log := Some {| linked := true;
         node := {| stable := line_text "{first}" +:+ "{se"; pending_writes := [] |} |};
       artifacts := files; title_file := None |} |} ]};
     looks := 0 |}.
Definition files2 : gmap string (Linked (list Byte.byte)) :=
  {[ sha256_hex image := {| linked := true; node := image |} ]}.
Definition world3 : World := after_loss (Some {| linked := true; node := files2 |}).

(** A power loss in a root of one directory. *)
Lemma power_loss_one journaled w dir files :
  root w = {[ "s-s" := {| linked := true; node := NodeDir dir |} ]} →
  log_after journaled (log dir)
    (Some {| linked := true;
       node := {| stable := line_text "{first}" +:+ "{se"; pending_writes := [] |} |}) →
  artifacts_after journaled (artifacts dir) files →
  power_loss journaled w (after_loss files).
Proof.
  intros Hroot Hlog Hfiles. split; [done|]. intros name. rewrite Hroot. unfold after_loss. simpl.
  destruct (decide (name = "s-s")) as [->|Hne].
  - rewrite !lookup_singleton_eq. constructor. by split_and!.
  - rewrite !lookup_singleton_ne by done. constructor.
Qed.

Definition only_image (b : list Byte.byte) : Prop := b = image.

Lemma life1 journaled : life journaled only_image [("s", commit1)] world1.
Proof.
  change [("s", commit1)] with ([] ++ acknowledged (CmdCommit tx1) (ReplyCommit (Ok commit1))).
  apply (life_command _ _ _ world0 calm).
  - apply life_start; [done|]. intros name. unfold dir_at. simpl. by rewrite lookup_empty.
  - done.
  - intros b Hb. apply list_elem_of_singleton in Hb. done.
  - vm_compute. reflexivity.
Qed.

Lemma life2 journaled : life journaled only_image [("s", commit1)] world2.
Proof.
  rewrite <- (app_nil_r [_]).
  change [] with (acknowledged (CmdCommit tx2)
    (ReplyCommit (Err (StoreUnavailable "append or fsync failed (EIO)")))).
  apply (life_command _ _ _ world1 (broken_from (looks world1))); [apply life1|done| |].
  - intros b Hb. by apply elem_of_nil in Hb.
  - vm_compute. reflexivity.
Qed.

Lemma log2_after journaled :
  log_after journaled (log dir2)
    (Some {| linked := true;
       node := {| stable := line_text "{first}" +:+ "{se"; pending_writes := [] |} |}).
Proof.
  change (log dir2) with (Some {| linked := true; node :=
    {| stable := line_text "{first}"; pending_writes := [line_text "{first}" +:+ "{sec"] |} |}).
  constructor. right. left. left. split; [by exists "{se"|by exists "c"].
Qed.

Lemma root2 : root world2 = {[ "s-s" := {| linked := true; node := NodeDir dir2 |} ]}.
Proof. vm_compute. reflexivity. Qed.

Lemma life3 : life true only_image [("s", commit1)] world3.
Proof.
  eapply life_power_loss; [apply life2|]. eapply power_loss_one; [apply root2|apply log2_after|].
  change (artifacts dir2) with (Some {| linked := false; node := files2 |}).
  constructor. intros h. right. left.
  change (files2 !! h = link <$> files2 !! h). unfold files2.
  destruct (decide (h = sha256_hex image)) as [->|Hne].
  - by rewrite lookup_singleton_eq.
  - by rewrite lookup_singleton_ne by congruence.
Qed.

(** ** The properties on these runs *)

Lemma acknowledged_commits_survive_witness :
  ∃ Ls, session_log "s" Ls (jsonl_serves world3 "s") ∧ Ls !! 0 = Some (applied_entries a1).
Proof.
  assert (Hno : ∀ b b', only_image b → only_image b' → sha256_hex b = sha256_hex b' → b = b')
    by (intros b b' Hb Hb' _; unfold only_image in *; congruence).
  destruct (acknowledged_commits_survive only_image Hno _ world3 "s" life3) as (Ls&Hlog&Hc&_).
  exists Ls. split; [exact Hlog|]. apply (Hc commit1). apply list_elem_of_singleton. reflexivity.
Defined.

(** The barrier before the log line does not make an image durable on its
    own. The store syncs what is in [artifacts/], but never the session
    directory that names [artifacts/]: on a file system where a name survives a
    power loss only once its own directory was synced, a session can lose every
    image of an acknowledged commit, and recovery then refuses the whole
    session, every earlier commit included. *)
Theorem artifacts_name_never_synced :
  ∃ w w', life false only_image [("s", commit1)] w ∧ power_loss false w w' ∧
    (actor_context_view (faults := calm) "s" w).2 =
      context_view (applied_projection a1) "s" ∧
    (actor_context_view (faults := calm) "s" w').2 = Err (StoreUnavailable
      "jsonl log corrupt at line 1: referenced artifact 0102 unreadable: NotFound").
Proof.
  exists world2, (after_loss None). split; [apply life2|]. split.
  - eapply power_loss_one; [apply root2|apply log2_after|].
    change (artifacts dir2) with (Some {| linked := false; node := files2 |}).
    constructor. intros [?|[? _]]; done.
  - split; vm_compute; reflexivity.
Qed.

(** Every query of a file type fails; nothing else does. *)
Definition no_stat : Faults :=
  {| fault := λ _, None; written := λ _, 0; stat_fault := λ _, true; mtime := λ _, None |}.
Definition world4 : World := (actor_commit (faults := no_stat) tx1 (killed world1)).1.

(** A session whose directory cannot be examined is taken for a new one.
    After a commit and a restart, a failing query of the directory's type makes
    the store acknowledge a second first commit and append it to the log that
    is already there; the log it leaves is one that recovery refuses from then
    on, so both acknowledged commits are lost. *)
Theorem failing_stat_breaks_log :
  run1.2 = Ok commit1 ∧
  (actor_commit (faults := no_stat) tx1 (killed world1)).2 = Ok commit1 ∧
  (actor_context_view (faults := calm) "s" (killed world4)).2 = Err (StoreUnavailable
    "jsonl log corrupt at line 2: revision 1 does not match transaction position 2").
Proof. split_and!; vm_compute; reflexivity. Qed.

(** A first commit, the same one again, and one that breaks off. *)
Definition history : list (SessionTransaction * answer SessionCommit) :=
  [(tx1, Ok commit1); (tx1, Err (RevisionConflict 0 1))].

#[local] Existing Instance calm.
Lemma jsonl_store_serializes_witness :
  ∃ w, store.store_run world0 history w ∧ commit_revision <$> store.committed "s" history = [1].
Proof.
  assert (Hrun : store.store_run world0 (([] ++ [(tx1, (store.store_commit world0 tx1).2)]) ++
    [(tx1, (store.store_commit world1 tx1).2)]) (store.store_commit world1 tx1).1).
  { apply store.run_commit. change world1 with (store.store_commit world0 tx1).1.
    apply store.run_commit, store.run_start. }
  assert (Hempty : empty_world world0).
  { split; [reflexivity|]. intros name. unfold dir_at. simpl. by rewrite lookup_empty. }
  change history with (([] ++ [(tx1, Ok commit1)]) ++ [(tx1, Err (RevisionConflict 0 1))]).
  replace (@Ok SessionError _ commit1) with (store.store_commit world0 tx1).2
    by (vm_compute; reflexivity).
  replace (@Err SessionError SessionCommit (RevisionConflict 0 1)) with
    (store.store_commit world1 tx1).2 by (vm_compute; reflexivity).
  eexists. split; [exact Hrun|].
  destruct (jsonl_store_serializes _ _ _ "s" Hempty Hrun) as (_&Hrev&_).
  rewrite Hrev. vm_compute. reflexivity.
Defined.
End jsonl_demo.
