(* ===== verification/Service.v ===== *)
(** The vocabulary and the small state machines of the agent service
    (src/crates/philo-agent-service/src): ids.rs, bounds.rs, error.rs,
    frontend/command.rs, frontend/snapshot.rs, frontend/update.rs,
    frontend/lease.rs, live.rs, confirmation.rs, generation.rs and
    generation_cache.rs.

    Module [service] has one record or inductive type per Rust type, one
    definition per method. A [HashMap] is a [gmap]; where its iteration order
    can be seen, the order is a parameter. A counter that saturates does so
    here; one that does not is unbounded. *)

From S2P Require Import Prelude RustStr Kernel Session Tools Runtime.
Import runtime.

Module service.

(** ** ids.rs *)

Abbreviation FrontendRevision := Z.
Abbreviation FrontendRequestId := Z.
Abbreviation FrontendEpoch := Z.
Abbreviation FrontendInstanceId := string.
Abbreviation FrontendLeaseGeneration := Z.

Definition bump (counter : Z) : Z := saturating_add counter 1.

Definition INVALID : FrontendRequestId := 0%Z.
Definition INITIAL_EPOCH : FrontendEpoch := 1%Z.
Definition ZERO_REVISION : FrontendRevision := 0%Z.

(** [RequestIdSource::next]: the id handed out and the source after it. *)
Definition next_request_id (source : Z) : FrontendRequestId * Z :=
  (source, ((source + 1) mod 2 ^ 64)%Z).

(** ** bounds.rs *)

Definition RUNTIME_QUEUE_MAX : nat := 32.
Definition RUNTIME_DRIVER_EVENT_BUDGET : nat := 32.
Definition STORE_COMMAND_CAP : nat := 64.
Definition FRONTEND_UPDATE_CAP : nat := 64.
Definition FRONTEND_COMMAND_CAP : nat := 32.
Definition FRONTEND_CONTROL_CAP : nat := 16.
Definition FRONTEND_SUPERVISOR_CAP : nat := 4.
Definition FRONTEND_SNAPSHOT_CAP : nat := 1.
Definition CONFIRMATION_MAP_CAP : nat := 16.
Definition LIVE_TEXT_CHARS_MAX : nat := N.to_nat 65536.
Definition LIVE_REASONING_CHARS_MAX : nat := N.to_nat 65536.
Definition LIVE_TOOL_PROGRESS_MAX : nat := 32.
Definition FRONTEND_CRITICAL_CAP : nat :=
  2 * (FRONTEND_COMMAND_CAP + STORE_COMMAND_CAP) + FRONTEND_CONTROL_CAP + FRONTEND_SNAPSHOT_CAP
  + RUNTIME_QUEUE_MAX + CONFIRMATION_MAP_CAP + 2.

(** ** error.rs *)

Inductive CommandDispatch (T : Type) : Type :=
| Enqueued (t : T)
| Backpressured
| Disconnected (lane : string).
Arguments Enqueued {T} t.
Arguments Backpressured {T}.
Arguments Disconnected {T} lane.

Inductive CommandReject : Type :=
| NoCurrentSession
| NotAccepting
| ChildCapacity
| InvalidInput (reason : string)
| AdmissionFailed (message : string)
| CancelRejected (message : string)
| UnknownConfirmation.

(** ** frontend/command.rs *)

Inductive ConfirmationDecision : Type := Allow | Deny.

Inductive FrontendReasoningEffort : Type :=
| EffortMinimal | EffortLow | EffortMedium | EffortHigh | EffortXhigh | EffortMax.

Record FrontendAttachment : Type := {
  attachment_media_type : string;
  attachment_bytes : list Byte.byte
}.

Inductive FrontendCommand : Type :=
| Submit (draft : string) (attachments : list FrontendAttachment)
| CancelOperation (operation_id : string)
| StartCompaction (session_id : string)
| CancelMaintenance (maintenance_id : string)
| ListSessions
| ListModels
| RenameSession (session_id title : string)
| LoadSession (session_id : string)
| PreviewSession (session_id : string) (request_generation : Z)
| CreateSession
| InstallModel (name : string) (effort : option FrontendReasoningEffort)
| SetReasoning (effort : FrontendReasoningEffort)
| ReadConfig
| ReadStatus
| RespondConfirmation (confirmation_id : Z) (decision : ConfirmationDecision)
| RequestSnapshot (known_revision : FrontendRevision)
| ShutdownRequested.

Definition is_control (self : FrontendCommand) : bool :=
  match self with
  | CancelOperation _ | CancelMaintenance _ | RespondConfirmation _ _ | ShutdownRequested => true
  | _ => false
  end.

Definition is_snapshot (self : FrontendCommand) : bool :=
  match self with RequestSnapshot _ => true | _ => false end.

(** ** frontend/snapshot.rs *)

Record FrontendGeneration : Type := {
  fg_generation_id : string;
  fg_provider : option string;
  fg_model_name : string;
  fg_reasoning_effort : option string;
  fg_image_input : bool;
  fg_tool_names : list string
}.

Inductive FrontendUserPart : Type :=
| FrontText (text : string)
| FrontImage (media_type : string) (bytes : list Byte.byte).

Inductive FrontendAssistantBlock : Type :=
| FrontBlockText (text : string)
| FrontBlockToolCall (id name arguments : string).

Inductive FrontendToolResultOutcome : Type :=
| FrontSuccess (content : string)
| FrontError (code message : string)
| FrontCancelled
| FrontInterrupted.

Inductive FrontendContextMessage : Type :=
| FrontSummary (text : string)
| FrontUser (parts : list FrontendUserPart)
| FrontAssistant (blocks : list FrontendAssistantBlock)
| FrontAssistantToolCalls (tool_batch_id : string) (blocks : list FrontendAssistantBlock)
| FrontToolResult (tool_call_id : string) (out : FrontendToolResultOutcome).

Record FrontendUnfilledBatch : Type := {
  fb_tool_batch_id : string;
  fb_unfilled_call_ids : list string
}.

Record FrontendOpenTurn : Type := {
  ft_operation_id : string;
  ft_turn_id : string;
  ft_unfilled_batch : option FrontendUnfilledBatch
}.

Record FrontendTokenUsage : Type := {
  fu_input_tokens : option Z;
  fu_output_tokens : option Z;
  fu_cache_read_tokens : option Z;
  fu_cache_write_tokens : option Z;
  fu_reasoning_tokens : option Z
}.

Record FrontendGenerationChoice : Type := {
  fc_provider : option string;
  fc_model_name : string;
  fc_reasoning_effort : option string
}.

Record DurableSessionView : Type := {
  dv_session_id : string;
  dv_revision : Z;
  dv_title : option string;
  dv_messages : list FrontendContextMessage;
  dv_open_turns : list FrontendOpenTurn;
  dv_settled_turn_boundaries : list string;
  dv_latest_compaction_boundary : option string;
  dv_usage : option FrontendTokenUsage;
  dv_generation : option FrontendGenerationChoice
}.

Record FrontendSessionSummary : Type := {
  fs_session_id : string;
  fs_title : option string;
  fs_updated_at : option Z
}.

Record FrontendModelListing : Type := {
  fl_id : string;
  fl_provider : string;
  fl_model : string;
  fl_reasoning_tiers : list string;
  fl_current : bool
}.

Record QueuedOperationSummary : Type := {
  qs_operation_id : string;
  qs_session_id : string
}.

Inductive FrontendAvailability : Type :=
| FrontIdle
| FrontBusy (operation_id : string)
| FrontCompacting (session_id : string).

Inductive FrontendMaintenancePhase : Type :=
| PhaseAccepted | PhaseStarted | PhaseProgress | PhaseSettled | PhaseFailed | PhaseCancelled.

Record FrontendMaintenance : Type := {
  fm_id : string;
  fm_phase : FrontendMaintenancePhase;
  fm_message : option string
}.

Record PendingConfirmationView : Type := {
  pv_confirmation_id : Z;
  pv_title : string;
  pv_body : string;
  pv_operation_id : option string
}.

Record FrontendConfigEntry : Type := { ce_key : string; ce_value : string; ce_source : string }.

Record FrontendToolListing : Type := { tl_name : string; tl_effect_class : string }.

Record FrontendStatus : Type := {
  status_availability : FrontendAvailability;
  status_queued : nat;
  status_generation : FrontendGeneration;
  status_tools : list FrontendToolListing
}.

Inductive ServiceHealth : Type :=
| HealthOk
| Degraded (message : string)
| RuntimeEpochEnded (message : string)
| ShuttingDown.

Record FrontendFailure : Type := {
  ff_code : string;
  ff_domain : string;
  ff_stage : string;
  ff_retry : string;
  ff_summary : string;
  ff_diagnostic : string
}.

Inductive FrontendToolResult : Type :=
| FrontToolSuccess (content : string)
| FrontToolError (code message : string).

Record FrontendToolDisplay : Type := {
  fd_detail : string;
  fd_facts : list (string * string)
}.

Inductive FrontendOperationEvent : Type :=
| FeOperationQueued (operation_id : string)
| FeOperationStarted (operation_id : string)
| FeTurnStarted (turn_id : string)
| FeModelCallStarted (model_call_id : string)
| FeModelResponseStarted (model_call_id : string) (response_model response_id : option string)
| FeTextDelta (delta : string)
| FeReasoningDelta (model_call_id text : string)
| FeModelUsageUpdated (model_call_id : string) (usage : FrontendTokenUsage)
| FeToolBatchRequested (tool_batch_id : string) (call_count : nat)
| FeToolExecutionStarted (tool_batch_id tool_call_id : string) (index : nat)
    (tool_name arguments : string)
| FeToolExecutionProgress (tool_batch_id tool_call_id : string) (index : nat) (tail : string)
| FeToolExecutionCompleted (tool_batch_id tool_call_id : string) (index : nat)
    (tool_name : string) (result : FrontendToolResult) (display : option FrontendToolDisplay)
| FeAssistantMessageCompleted (turn_id content : string)
| FeTurnFailed (turn_id : string) (failure : FrontendFailure)
| FePriorTurnSealed (turn_id : string)
| FeContextCompactionStarted
| FeContextCompactionCompleted (covers_up_to : string)
| FeContextCompactionFailed (message : string)
| FeCancellationRequested (operation_id reason : string)
| FeModelRetryScheduled (model_call_id : string) (attempt max_retries delay_ms : Z)
    (failure : FrontendFailure)
| FeTurnCancelled (turn_id reason : string)
| FeOperationSettled (operation_id session_id status durability : string)
    (session_revision : SettlementRevision).

(** ** live.rs *)

Record LiveToolProgress : Type := {
  lp_tool_batch_id : string;
  lp_tool_call_id : string;
  lp_index : nat;
  lp_tail : string
}.

Record LiveOperationSnapshot : Type := {
  live_operation_id : option string;
  live_turn_id : option string;
  live_model_call_id : option string;
  live_text : string;
  live_reasoning : string;
  text_truncated : bool;
  reasoning_truncated : bool;
  live_needs_resync : bool;
  live_tool_progress : list LiveToolProgress;
  live_usage : option FrontendTokenUsage
}.

Definition live_new : LiveOperationSnapshot :=
  {| live_operation_id := None; live_turn_id := None; live_model_call_id := None;
     live_text := ""; live_reasoning := ""; text_truncated := false;
     reasoning_truncated := false; live_needs_resync := false; live_tool_progress := [];
     live_usage := None |}.

Definition live_is_empty (self : LiveOperationSnapshot) : bool :=
  negb (session.is_some (live_operation_id self)) && str_is_empty (live_text self)
  && str_is_empty (live_reasoning self) && is_nil (live_tool_progress self).

Definition live_with_ids (op turn : option string) (l : LiveOperationSnapshot)
    : LiveOperationSnapshot :=
  {| live_operation_id := op; live_turn_id := turn; live_model_call_id := live_model_call_id l;
     live_text := live_text l; live_reasoning := live_reasoning l;
     text_truncated := text_truncated l; reasoning_truncated := reasoning_truncated l;
     live_needs_resync := live_needs_resync l; live_tool_progress := live_tool_progress l;
     live_usage := live_usage l |}.

Definition live_accept (operation_id turn_id : string) (l : LiveOperationSnapshot) :=
  live_with_ids (Some operation_id) (Some turn_id) l.
Definition live_start_operation (operation_id : string) (l : LiveOperationSnapshot) :=
  live_with_ids (Some operation_id) (live_turn_id l) l.
Definition live_start_turn (turn_id : string) (l : LiveOperationSnapshot) :=
  live_with_ids (live_operation_id l) (Some turn_id) l.

Definition live_start_model_call (model_call_id : string) (l : LiveOperationSnapshot)
    : LiveOperationSnapshot :=
  {| live_operation_id := live_operation_id l; live_turn_id := live_turn_id l;
     live_model_call_id := Some model_call_id; live_text := ""; live_reasoning := "";
     text_truncated := false; reasoning_truncated := false;
     live_needs_resync := live_needs_resync l; live_tool_progress := live_tool_progress l;
     live_usage := None |}.

(** The buffer after the call, and whether it was cut. *)
Definition append_bounded (buf extra : string) (max_chars : nat) : string * bool :=
  if str_is_empty extra then (buf, false)
  else
    let current := length (chars buf) in
    if bool_decide (max_chars ≤ current) then (buf, true)
    else
      let room := max_chars - current in
      if bool_decide (length (chars extra) ≤ room) then (buf +:+ extra, false)
      else (buf +:+ concat_str (take room (chars extra)), true).

Definition live_push_text (delta : string) (l : LiveOperationSnapshot) : LiveOperationSnapshot :=
  let '(text, cut) := append_bounded (live_text l) delta LIVE_TEXT_CHARS_MAX in
  {| live_operation_id := live_operation_id l; live_turn_id := live_turn_id l;
     live_model_call_id := live_model_call_id l; live_text := text;
     live_reasoning := live_reasoning l; text_truncated := cut || text_truncated l;
     reasoning_truncated := reasoning_truncated l;
     live_needs_resync := cut || live_needs_resync l;
     live_tool_progress := live_tool_progress l; live_usage := live_usage l |}.

Definition live_push_reasoning (delta : string) (l : LiveOperationSnapshot)
    : LiveOperationSnapshot :=
  let '(text, cut) := append_bounded (live_reasoning l) delta LIVE_REASONING_CHARS_MAX in
  {| live_operation_id := live_operation_id l; live_turn_id := live_turn_id l;
     live_model_call_id := live_model_call_id l; live_text := live_text l;
     live_reasoning := text; text_truncated := text_truncated l;
     reasoning_truncated := cut || reasoning_truncated l;
     live_needs_resync := cut || live_needs_resync l;
     live_tool_progress := live_tool_progress l; live_usage := live_usage l |}.

Definition live_set_usage (usage : FrontendTokenUsage) (l : LiveOperationSnapshot)
    : LiveOperationSnapshot :=
  {| live_operation_id := live_operation_id l; live_turn_id := live_turn_id l;
     live_model_call_id := live_model_call_id l; live_text := live_text l;
     live_reasoning := live_reasoning l; text_truncated := text_truncated l;
     reasoning_truncated := reasoning_truncated l; live_needs_resync := live_needs_resync l;
     live_tool_progress := live_tool_progress l; live_usage := Some usage |}.

Definition live_with_progress (rows : list LiveToolProgress) (resync : bool)
    (l : LiveOperationSnapshot) : LiveOperationSnapshot :=
  {| live_operation_id := live_operation_id l; live_turn_id := live_turn_id l;
     live_model_call_id := live_model_call_id l; live_text := live_text l;
     live_reasoning := live_reasoning l; text_truncated := text_truncated l;
     reasoning_truncated := reasoning_truncated l; live_needs_resync := resync;
     live_tool_progress := rows; live_usage := live_usage l |}.

(** [iter_mut().find(p)] and an assignment: the first match is replaced. *)
Fixpoint replace_first {A} (p : A → bool) (x : A) (l : list A) : list A :=
  match l with
  | [] => []
  | y :: l => if p y then x :: l else y :: replace_first p x l
  end.

Definition live_set_tool_progress (row : LiveToolProgress) (l : LiveOperationSnapshot)
    : LiveOperationSnapshot :=
  let rows := live_tool_progress l in
  let same item := lp_tool_call_id item == lp_tool_call_id row in
  if any same rows then live_with_progress (replace_first same row rows) (live_needs_resync l) l
  else if bool_decide (LIVE_TOOL_PROGRESS_MAX ≤ length rows) then
    live_with_progress (tail rows ++ [row]) true l
  else live_with_progress (rows ++ [row]) (live_needs_resync l) l.

Definition live_complete_tool (tool_call_id : string) (l : LiveOperationSnapshot)
    : LiveOperationSnapshot :=
  live_with_progress (filter (λ row, lp_tool_call_id row ≠ tool_call_id) (live_tool_progress l))
    (live_needs_resync l) l.

Definition live_mark_lagged (l : LiveOperationSnapshot) : LiveOperationSnapshot :=
  live_with_progress (live_tool_progress l) true l.

Definition live_settle (l : LiveOperationSnapshot) : LiveOperationSnapshot :=
  live_with_progress [] (live_needs_resync l) live_new.

(** ** The composed snapshot and frontend/update.rs *)

Record FrontendSnapshot : Type := {
  fsn_epoch : FrontendEpoch;
  fsn_revision : FrontendRevision;
  fsn_current_session_id : option string;
  fsn_durable_session_view : option DurableSessionView;
  fsn_live : LiveOperationSnapshot;
  fsn_queued : list QueuedOperationSummary;
  fsn_maintenance : option FrontendMaintenance;
  fsn_availability : FrontendAvailability;
  fsn_generation : FrontendGeneration;
  fsn_usage : option FrontendTokenUsage;
  fsn_pending_confirmations : list PendingConfirmationView;
  fsn_config_notices : list string;
  fsn_health : ServiceHealth
}.

Inductive FrontendUpdateKind : Type :=
| CommandAccepted
| SubmitAccepted (operation_id turn_id : string)
| CompactionAccepted (maintenance_id : string)
| CommandRejected (reason : CommandReject)
| OperationAccepted (operation_id session_id turn_id : string)
| OperationEvent (event : FrontendOperationEvent)
| AvailabilityChanged (availability : FrontendAvailability) (queued : nat)
| MaintenanceChanged (maintenance : FrontendMaintenance)
| SessionLoaded (session_id : string) (view : DurableSessionView)
| SessionPreviewed (session_id : string) (view : DurableSessionView)
| SessionListLoaded (sessions : list FrontendSessionSummary)
| ModelListLoaded (models : list FrontendModelListing)
| GenerationInstalled (display : FrontendGeneration)
| GenerationInstallFailed (name message : string)
| ConfigChanged (entries : list FrontendConfigEntry)
| ConfirmationRequested (confirmation_id : Z) (title body : string)
| ConfirmationResolved (confirmation_id : Z) (decision : ConfirmationDecision)
| SnapshotReady (snapshot : FrontendSnapshot)
| ResyncRequired (latest_revision : FrontendRevision)
| ServiceHealthChanged (health : ServiceHealth)
| StatusReady (status : FrontendStatus).

Record FrontendUpdate : Type := {
  up_epoch : FrontendEpoch;
  up_revision : FrontendRevision;
  up_request_id : option FrontendRequestId;
  up_kind : FrontendUpdateKind
}.

(** ** frontend/lease.rs *)

Record FrontendLease : Type := {
  lease_frontend_id : FrontendInstanceId;
  lease_generation : FrontendLeaseGeneration
}.

Inductive SupervisorCommand : Type :=
| AttachFrontend (id : FrontendInstanceId)
| DetachFrontend (lease : FrontendLease)
| SupervisorShutdown (reason : string).

Inductive AttachError : Type :=
| AlreadyAttached
| FrontendOccupied (current : FrontendInstanceId)
| AttachBackpressured
| AttachDisconnected
| AttachDeadlineExceeded
| AttachServiceGone.

Inductive DetachError : Type :=
| StaleLease
| DetachBackpressured
| DetachDisconnected
| DetachDeadlineExceeded
| DetachServiceGone.

Record DetachReport : Type := {
  report_frontend_id : FrontendInstanceId;
  report_generation : FrontendLeaseGeneration;
  denied_confirmations : nat
}.

(** ** confirmation.rs *)

Record ConfirmationRequest : Type := { cr_title : string; cr_body : string }.

(** The sending half of a [oneshot] channel is known by its asker's number. *)
Abbreviation Asker := nat.

Record ConfirmationSubmit : Type := {
  cs_request : ConfirmationRequest;
  cs_operation_id : option string;
  cs_reply : Asker
}.

Record PendingConfirmation : Type := {
  pc_request : ConfirmationRequest;
  pc_operation_id : option string;
  pc_generation : FrontendLeaseGeneration;
  pc_reply : Asker
}.

Record ConfirmationMap : Type := {
  next_id : Z;
  pending : gmap Z PendingConfirmation
}.

(** The order in which the two [HashMap]s list their keys. *)
Class ServiceOrders : Type := {
  pending_order : gmap Z PendingConfirmation → list Z;
  pending_order_perm m : pending_order m ≡ₚ (map_to_list m).*1;
  cache_order {A} : gmap string (Z * A) → list (string * (Z * A));
  cache_order_perm {A} (m : gmap string (Z * A)) : cache_order m ≡ₚ map_to_list m
}.

(** What was sent on the [oneshot]s. *)
Abbreviation Answers := (list (Asker * ConfirmationDecision)).

Definition confirmation_new : ConfirmationMap := {| next_id := 0; pending := ∅ |}.

Definition confirmation_insert (submit : ConfirmationSubmit)
    (generation : option FrontendLeaseGeneration) (self : ConfirmationMap)
    : ConfirmationMap * Answers * outcome ConfirmationDecision (Z * ConfirmationRequest) :=
  match generation with
  | None => (self, [(cs_reply submit, Deny)], Err Deny)
  | Some generation =>
      if bool_decide (CONFIRMATION_MAP_CAP ≤ size (pending self)) then
        (self, [(cs_reply submit, Deny)], Err Deny)
      else
        let id := (next_id self + 1)%Z in
        ({| next_id := id;
            pending := <[id := {| pc_request := cs_request submit;
                                  pc_operation_id := cs_operation_id submit;
                                  pc_generation := generation;
                                  pc_reply := cs_reply submit |}]> (pending self) |},
         [], Ok (id, cs_request submit))
  end.

Definition confirmation_respond (id : Z) (decision : ConfirmationDecision)
    (current : option FrontendLeaseGeneration) (self : ConfirmationMap)
    : ConfirmationMap * Answers * option ConfirmationDecision :=
  match pending self !! id with
  | None => (self, [], None)
  | Some p =>
      if Some (pc_generation p) != current then (self, [], None)
      else ({| next_id := next_id self; pending := delete id (pending self) |},
            [(pc_reply p, decision)], Some decision)
  end.

Section orders.
Context `{ServiceOrders}.

(** The loop that removes [ids] and answers each [Deny]. *)
Fixpoint deny_ids (ids : list Z) (self : ConfirmationMap) : ConfirmationMap * Answers :=
  match ids with
  | [] => (self, [])
  | id :: ids =>
      let '(self', now) :=
        match pending self !! id with
        | Some p => ({| next_id := next_id self; pending := delete id (pending self) |},
                     [(pc_reply p, Deny)])
        | None => (self, [])
        end in
      let '(self'', later) := deny_ids ids self' in
      (self'', now ++ later)
  end.

(** The ids whose confirmation satisfies [p], in the map's order. *)
Definition pending_ids (p : PendingConfirmation → bool) (self : ConfirmationMap) : list Z :=
  filter (λ id, match pending self !! id with Some c => p c | None => false end = true)
    (pending_order (pending self)).

Definition deny_where (p : PendingConfirmation → bool) (self : ConfirmationMap)
    : ConfirmationMap * Answers * list Z :=
  let ids := pending_ids p self in
  let '(self', answers) := deny_ids ids self in
  (self', answers, ids).

Definition deny_for_operation (operation_id : string) :=
  deny_where (λ c, pc_operation_id c == Some operation_id).
Definition deny_for_generation (generation : FrontendLeaseGeneration) :=
  deny_where (λ c, pc_generation c == generation).
Definition deny_all := deny_where (λ _, true).

(** [sort_by_key] on distinct keys. *)
Fixpoint insert_by {A} (le : A → A → bool) (x : A) (l : list A) : list A :=
  match l with
  | [] => [x]
  | y :: l => if le x y then x :: y :: l else y :: insert_by le x l
  end.
(** A stable sort, like [sort_by]. *)
Definition sort_by {A} (le : A → A → bool) (l : list A) : list A := foldr (insert_by le) [] l.

Definition view_of (entry : Z * PendingConfirmation) : PendingConfirmationView :=
  {| pv_confirmation_id := entry.1; pv_title := cr_title (pc_request entry.2);
     pv_body := cr_body (pc_request entry.2); pv_operation_id := pc_operation_id entry.2 |}.

Definition confirmation_views (self : ConfirmationMap) : list PendingConfirmationView :=
  sort_by (λ a b, (pv_confirmation_id a <=? pv_confirmation_id b)%Z)
    (filter_map (λ id, (λ c, view_of (id, c)) <$> (pending self !! id))
       (pending_order (pending self))).

End orders.

(** ** generation.rs *)

(** An [Arc<dyn ..>] is known by its number; [definitions] is the method of
    [ToolPort] that the service calls. *)
Abbreviation PortRef := nat.

(** [RuntimeGeneration] with its two ports. *)
Record Generation : Type := {
  frozen : RuntimeGeneration;
  gen_model : PortRef;
  gen_tools : PortRef
}.

Record AssembleRequest : Type := {
  assemble_name : string;
  assemble_effort : option ReasoningEffort
}.

Record AssembledGeneration : Type := {
  as_model : PortRef;
  as_tools : PortRef;
  as_runtime_config : RuntimeConfig;
  as_model_name : string;
  as_provider : option string;
  as_model_id : string;
  as_image_input : bool
}.

Record AssembleError : Type := { assemble_message : string }.

Record ModelListingEntry : Type := {
  ml_id : string;
  ml_provider : string;
  ml_model : string;
  ml_reasoning_tiers : list string
}.

Record CurrentGeneration : Type := {
  current : Generation;
  latest_install : option FrontendRequestId;
  gen_seq : Z
}.

Definition current_generation_new (current : Generation) : CurrentGeneration :=
  {| current := current; latest_install := None; gen_seq := 0 |}.

Definition note_install (request_id : FrontendRequestId) (self : CurrentGeneration)
    : CurrentGeneration :=
  let newer := match latest_install self with
               | None => true
               | Some latest => (latest <=? request_id)%Z
               end in
  if newer then
    {| current := current self; latest_install := Some request_id; gen_seq := gen_seq self |}
  else self.

Definition is_current_install (request_id : FrontendRequestId) (self : CurrentGeneration) : bool :=
  match latest_install self with None => true | Some latest => (request_id =? latest)%Z end.

Definition next_generation_id (self : CurrentGeneration) : string * CurrentGeneration :=
  let seq := (gen_seq self + 1)%Z in
  ("generation-" +:+ display seq,
   {| current := current self; latest_install := latest_install self; gen_seq := seq |}).

Definition install_success (request_id : FrontendRequestId) (assembled : AssembledGeneration)
    (self : CurrentGeneration) : CurrentGeneration * option Generation :=
  if negb (is_current_install request_id self) then (self, None)
  else
    let '(id, self) := next_generation_id self in
    let next :=
      {| frozen :=
           {| generation_id := id; runtime_config := as_runtime_config assembled;
              gen_display :=
                {| provider := as_provider assembled; model_name := as_model_name assembled;
                   model_id := as_model_id assembled; image_input := as_image_input assembled |} |};
         gen_model := as_model assembled; gen_tools := as_tools assembled |} in
    ({| current := next; latest_install := latest_install self; gen_seq := gen_seq self |},
     Some next).

Definition install_failure (request_id : FrontendRequestId) (self : CurrentGeneration) : bool :=
  is_current_install request_id self.

(** A copy of the configuration with another reasoning effort. *)
Definition with_effort (effort : ReasoningEffort) (c : RuntimeConfig) : RuntimeConfig :=
  {| system_prompt := system_prompt c; model_target := model_target c;
     generation :=
       {| max_output_tokens := max_output_tokens (generation c);
          temperature := temperature (generation c);
          reasoning_effort := Some effort;
          tool_choice := tool_choice (generation c) |};
     max_tool_rounds := max_tool_rounds c;
     max_parallel_tool_calls := max_parallel_tool_calls c;
     operation_timeout := operation_timeout c; tool_cancel_grace := tool_cancel_grace c;
     compaction := compaction c; recovery := recovery c |}.

Definition install_reasoning_for (effort : ReasoningEffort) (from : Generation)
    (self : CurrentGeneration) : CurrentGeneration * Generation :=
  let '(id, self) := next_generation_id self in
  (self,
   {| frozen := {| generation_id := id;
                   runtime_config := with_effort effort (runtime_config (frozen from));
                   gen_display := gen_display (frozen from) |};
      gen_model := gen_model from; gen_tools := gen_tools from |}).

(** ** generation_cache.rs *)

Record SessionGenerationCache : Type := {
  entries : gmap string (Z * Generation);
  capacity : nat;
  tick : Z
}.

Definition cache_new (capacity : nat) : SessionGenerationCache :=
  {| entries := ∅; capacity := capacity; tick := 0 |}.

Definition cache_get (session_id : string) (self : SessionGenerationCache)
    : SessionGenerationCache * option Generation :=
  let tick := bump (tick self) in
  match entries self !! session_id with
  | Some (_, g) =>
      ({| entries := <[session_id := (tick, g)]> (entries self); capacity := capacity self;
          tick := tick |}, Some g)
  | None => ({| entries := entries self; capacity := capacity self; tick := tick |}, None)
  end.

(** [min_by_key]: the first of the least elements. *)
Fixpoint min_by_key {A} (key : A → Z) (l : list A) : option A :=
  match l with
  | [] => None
  | x :: l =>
      match min_by_key key l with
      | Some y => if (key x <=? key y)%Z then Some x else Some y
      | None => Some x
      end
  end.

Section cache.
Context `{ServiceOrders}.

Definition evict_lru (self : SessionGenerationCache) : SessionGenerationCache :=
  match min_by_key (λ e, e.2.1) (cache_order (entries self)) with
  | Some (key, _) =>
      {| entries := delete key (entries self); capacity := capacity self; tick := tick self |}
  | None => self
  end.

Definition cache_put (session_id : string) (g : Generation) (self : SessionGenerationCache)
    : SessionGenerationCache :=
  let insert self :=
    let tick := bump (tick self) in
    {| entries := <[session_id := (tick, g)]> (entries self); capacity := capacity self;
       tick := tick |} in
  match entries self !! session_id with
  | Some _ => insert self
  | None =>
      if bool_decide (capacity self ≤ size (entries self)) then insert (evict_lru self)
      else insert self
  end.

End cache.

End service.
