(* ===== verification/ServiceSnapshot.v ===== *)
(** The session snapshots of the agent service
    (src/crates/philo-agent-service/src/actor/snapshot.rs, the [SnapshotState])
    and the session catalog (actor/catalog.rs).

    Module [service_snapshot] has the state that owns the current session, the
    revision floors and the loads in flight, with its methods; Module [catalog]
    the list of sessions, the ids of new ones, and a rename over any store. *)

From S2P Require Import Prelude RustStr Kernel Session SessionLifecycle SessionContext SessionStore.
From S2P Require Import Runtime RuntimeMapping Service.
From Stdlib Require Import Ascii.
Import runtime service.

Module service_snapshot.

Definition SNAPSHOT_RELOAD_ATTEMPT_MAX : Z := 8.

Inductive SessionViewKind : Type := KindLoad | KindSnapshot.
#[export] Instance SessionViewKind_eq_dec : EqDecision SessionViewKind.
Proof. solve_decision. Defined.

Record SnapshotLoadToken : Type := {
  token_generation : Z;
  token_session_id : string;
  requested_floor : Z;
  token_request_id : option FrontendRequestId;
  token_epoch : FrontendEpoch;
  token_live_cursor : Z;
  active_operation_id : option string;
  active_turn_id : option string
}.

(** [live_projection_stale], without its [debug_assert]. *)
Definition live_projection_stale (self : SnapshotLoadToken) (current_live_cursor : Z)
    (operation_id turn_id : option string) : bool :=
  (token_live_cursor self <? current_live_cursor)%Z
  || (active_operation_id self != operation_id) || (active_turn_id self != turn_id).

Record PendingReload : Type := {
  reload_session_id : string;
  reload_kind : SessionViewKind;
  reload_request_id : option FrontendRequestId
}.

Record PendingLoad : Type := { load_session_id : string; load_gen : Z }.

Inductive TokenDecision : Type := Drop | Reload | Publish.
Inductive SettledApply : Type := Applied | ProtocolError (message : string).

Record SnapshotState : Type := {
  current_session : option string;
  pending_load : option PendingLoad;
  operation_session : gmap string string;
  required_revision : gmap string Z;
  published_revision : gmap string Z;
  load_generation : Z;
  inflight : gset string;
  pending_reload : option PendingReload;
  reload_attempts : gmap string Z
}.

(** Field updates. *)
Definition set_current_session v (s : SnapshotState) : SnapshotState :=
  Build_SnapshotState v (pending_load s) (operation_session s) (required_revision s)
    (published_revision s) (load_generation s) (inflight s) (pending_reload s) (reload_attempts s).
Definition set_pending_load v (s : SnapshotState) : SnapshotState :=
  Build_SnapshotState (current_session s) v (operation_session s) (required_revision s)
    (published_revision s) (load_generation s) (inflight s) (pending_reload s) (reload_attempts s).
Definition set_operation_session v (s : SnapshotState) : SnapshotState :=
  Build_SnapshotState (current_session s) (pending_load s) v (required_revision s)
    (published_revision s) (load_generation s) (inflight s) (pending_reload s) (reload_attempts s).
Definition set_required_revision v (s : SnapshotState) : SnapshotState :=
  Build_SnapshotState (current_session s) (pending_load s) (operation_session s) v
    (published_revision s) (load_generation s) (inflight s) (pending_reload s) (reload_attempts s).
Definition set_published_revision v (s : SnapshotState) : SnapshotState :=
  Build_SnapshotState (current_session s) (pending_load s) (operation_session s)
    (required_revision s) v (load_generation s) (inflight s) (pending_reload s)
    (reload_attempts s).
Definition set_load_generation v (s : SnapshotState) : SnapshotState :=
  Build_SnapshotState (current_session s) (pending_load s) (operation_session s)
    (required_revision s) (published_revision s) v (inflight s) (pending_reload s)
    (reload_attempts s).
Definition set_inflight v (s : SnapshotState) : SnapshotState :=
  Build_SnapshotState (current_session s) (pending_load s) (operation_session s)
    (required_revision s) (published_revision s) (load_generation s) v (pending_reload s)
    (reload_attempts s).
Definition set_pending_reload v (s : SnapshotState) : SnapshotState :=
  Build_SnapshotState (current_session s) (pending_load s) (operation_session s)
    (required_revision s) (published_revision s) (load_generation s) (inflight s) v
    (reload_attempts s).
Definition set_reload_attempts v (s : SnapshotState) : SnapshotState :=
  Build_SnapshotState (current_session s) (pending_load s) (operation_session s)
    (required_revision s) (published_revision s) (load_generation s) (inflight s)
    (pending_reload s) v.

Definition snapshot_new : SnapshotState :=
  {| current_session := None; pending_load := None; operation_session := ∅;
     required_revision := ∅; published_revision := ∅; load_generation := 0; inflight := ∅;
     pending_reload := None; reload_attempts := ∅ |}.

Definition bump_generation (s : SnapshotState) : SnapshotState :=
  set_load_generation (bump (load_generation s)) s.

Definition reset_reload_attempts (session_id : string) (s : SnapshotState) : SnapshotState :=
  set_reload_attempts (delete session_id (reload_attempts s)) s.

Definition begin_pending_load (session_id : string) (s : SnapshotState) : SnapshotState :=
  let s := bump_generation (reset_reload_attempts session_id s) in
  set_pending_load (Some {| load_session_id := session_id; load_gen := load_generation s |}) s.

Definition has_pending_load (s : SnapshotState) : bool := session.is_some (pending_load s).

Definition pending_load_session (s : SnapshotState) : option string :=
  load_session_id <$> pending_load s.

Definition pending_load_is (session_id : string) (s : SnapshotState) : bool :=
  pending_load_session s == Some session_id.

Definition clear_pending_load_if (session_id : string) (s : SnapshotState) : SnapshotState :=
  if pending_load_is session_id s then set_pending_load None s else s.

Definition commit_current (session_id : string) (s : SnapshotState) : SnapshotState :=
  set_current_session (Some session_id) (clear_pending_load_if session_id s).

Definition on_epoch_reset (s : SnapshotState) : SnapshotState :=
  set_reload_attempts ∅ (set_pending_load None (set_pending_reload None (bump_generation s))).

Definition begin_reload_attempt (session_id : string) (s : SnapshotState)
    : SnapshotState * bool :=
  let count := default 0%Z (reload_attempts s !! session_id) in
  if (SNAPSHOT_RELOAD_ATTEMPT_MAX <=? count)%Z then
    (set_reload_attempts (<[session_id := count]> (reload_attempts s)) s, false)
  else
    (set_reload_attempts (<[session_id := Z.min (count + 1) u32_max]> (reload_attempts s)) s,
     true).

Definition required_for (session_id : string) (s : SnapshotState) : Z :=
  default 0%Z (required_revision s !! session_id).
Definition published_for (session_id : string) (s : SnapshotState) : Z :=
  default 0%Z (published_revision s !! session_id).

Definition is_current_session (session_id : string) (s : SnapshotState) : bool :=
  current_session s == Some session_id.

Definition note_accepted (operation_id session_id : string) (s : SnapshotState) : SnapshotState :=
  set_operation_session (<[operation_id := session_id]> (operation_session s)) s.

Definition session_of (operation_id : string) (s : SnapshotState) : option string :=
  operation_session s !! operation_id.

Definition live_belongs_to_current (operation_id : option string) (s : SnapshotState) : bool :=
  match current_session s, operation_id with
  | Some current, Some operation_id => session_of operation_id s == Some current
  | _, _ => false
  end.

Definition apply_settled (operation_id session_id : string) (durability : SettlementDurability)
    (session_revision : SettlementRevision) (s : SnapshotState) : SnapshotState * SettledApply :=
  match operation_session s !! operation_id with
  | None =>
      (s, ProtocolError ("protocol error: settled operation " +:+ operation_id
                         +:+ " has no accepted session"))
  | Some owned =>
      if owned != session_id then
        (s, ProtocolError ("protocol error: settlement session " +:+ session_id
                           +:+ " does not match accepted session " +:+ owned))
      else
        let s := set_operation_session (delete operation_id (operation_session s)) s in
        match durability, session_revision with
        | Confirmed, Committed revision =>
            (set_required_revision
               (<[session_id := Z.max (required_for session_id s) (Z.of_nat revision)]>
                  (required_revision s)) s, Applied)
        | _, _ => (s, Applied)
        end
  end.

Definition note_published (session_id : string) (revision : Z) (s : SnapshotState)
    : SnapshotState :=
  set_published_revision
    (<[session_id := Z.max (published_for session_id s) revision]> (published_revision s)) s.

Definition capture_token (session_id : string) (request_id : option FrontendRequestId)
    (epoch : FrontendEpoch) (live_cursor : Z) (operation_id turn_id : option string)
    (s : SnapshotState) : SnapshotLoadToken :=
  {| token_generation := load_generation s; token_session_id := session_id;
     requested_floor := required_for session_id s; token_request_id := request_id;
     token_epoch := epoch; token_live_cursor := live_cursor;
     active_operation_id := operation_id; active_turn_id := turn_id |}.

(** Whether a read starts, and the request that a waiting one displaced. *)
Definition begin_inflight (p : PendingReload) (s : SnapshotState)
    : SnapshotState * (bool * option FrontendRequestId) :=
  if bool_decide (reload_session_id p ∈ inflight s) then
    (set_pending_reload (Some p) s, (false, pending_reload s ≫= reload_request_id))
  else (set_inflight ({[reload_session_id p]} ∪ inflight s) s, (true, None)).

Definition end_inflight (session_id : string) (s : SnapshotState)
    : SnapshotState * option PendingReload :=
  let s := set_inflight (inflight s ∖ {[session_id]}) s in
  match pending_reload s with
  | Some p =>
      if reload_session_id p == session_id then (set_pending_reload None s, Some p) else (s, None)
  | None => (s, None)
  end.

End service_snapshot.

(** ** actor/catalog.rs *)
Module catalog.

Definition RENAME_CONFLICT_RETRY_MAX : nat := 1.

(** The digits of [{:x}]; an [u128] has at most 32. *)
Definition hex_digit (n : N) : ascii := ascii_of_N (if (n <? 10)%N then 48 + n else 87 + n).
Fixpoint hex_from (fuel : nat) (n : N) (acc : string) : string :=
  match fuel with
  | 0 => acc
  | S fuel =>
      let acc := String (hex_digit (n mod 16)) acc in
      if (n <? 16)%N then acc else hex_from fuel (n / 16) acc
  end.
Definition lower_hex (n : Z) : string := hex_from 32 (Z.to_N n) "".

(** [process_id] is [std::process::id()]. *)
Definition mint_session_id (process_id seq nonce millis : Z) : string :=
  "sess-service-" +:+ lower_hex millis +:+ "-" +:+ display process_id +:+ "-"
  +:+ lower_hex nonce +:+ "-" +:+ display seq.

(** [Option<u64>::cmp]: [None] comes first. *)
Definition option_le (a b : option Z) : bool :=
  match a, b with
  | None, _ => true
  | Some _, None => false
  | Some a, Some b => (a <=? b)%Z
  end.

(** The comparison of [compose_session_catalog], as [left <= right]. *)
Definition catalog_le (left right : FrontendSessionSummary) : bool :=
  if fs_updated_at left == fs_updated_at right then
    String.leb (fs_session_id left) (fs_session_id right)
  else option_le (fs_updated_at right) (fs_updated_at left).

(** A session that the store does not list yet. *)
Definition push_extra (extra : option string) (l : list FrontendSessionSummary)
    : list FrontendSessionSummary :=
  match extra with
  | Some id =>
      if negb (str_is_empty id) && negb (any (λ s, fs_session_id s == id) l) then
        l ++ [{| fs_session_id := id; fs_title := None; fs_updated_at := None |}]
      else l
  | None => l
  end.

Definition compose_session_catalog (durable : list store.SessionSummary)
    (current_session pending_load : option string) : list FrontendSessionSummary :=
  let sessions :=
    (λ summary, {| fs_session_id := store.summary_session_id summary;
                   fs_title := store.summary_title summary;
                   fs_updated_at := store.summary_updated_at summary |}) <$> durable in
  sort_by catalog_le (push_extra pending_load (push_extra current_session sessions)).

Section errors.
Context `{DebugSessionError}.

Definition catalog_error_reason (error : session.SessionError) : string :=
  match error with
  | session.StoreBusy reason => "session catalog is busy: " +:+ reason
  | session.StoreUnavailable reason => "session catalog is unavailable: " +:+ reason
  | other => "session catalog failed: " +:+ debug_session_error other
  end.

(** A client of a session store: what it asks next, after each answer. *)
Inductive Client (A : Type) : Type :=
| Done (a : A)
| View (session_id : string) (k : session.answer session.SessionContextView → Client A)
| Commit (tx : session.SessionTransaction) (k : session.answer session.SessionCommit → Client A).
Arguments Done {A} a.
Arguments View {A} session_id k.
Arguments Commit {A} tx k.

(** The loop of [rename_session_once], [attempts] rounds before its end;
    [Panic] is a panic of the store, which ends the task. *)
Fixpoint rename_attempts (session_id title : string) (attempts : nat)
    : Client (outcome string unit) :=
  match attempts with
  | 0 => Done (Err ("session " +:+ session_id +:+ " kept changing while renaming; retry"))
  | S attempts =>
      View session_id (λ answer,
        match answer with
        | Panic => Done Panic
        | Err error => Done (Err ("cannot read the session: " +:+ debug_session_error error))
        | Ok view =>
            if session.view_revision view == 0 then
              Done (Err ("unknown session: " +:+ session_id))
            else
              Commit (session.linear session_id (session.view_revision view)
                        [session.TitleSet title]) (λ answer,
                match answer with
                | Ok _ => Done (Ok tt)
                | Panic => Done Panic
                | Err (session.RevisionConflict _ _ as error) =>
                    if bool_decide (0 < attempts) then rename_attempts session_id title attempts
                    else Done (Err (debug_session_error error))
                | Err error => Done (Err (debug_session_error error))
                end)
        end)
  end.

Definition rename_session_once (session_id title : string) : Client (outcome string unit) :=
  rename_attempts session_id title (RENAME_CONFLICT_RETRY_MAX + 1).

(** A client at work on a store that others use too: [others] is what they do
    before its [n]th call. The trace has the store before and after each call. *)
Fixpoint work {St A} `{store.SessionStore St} (others : nat → St → St) (n : nat) (c : Client A)
    (s : St) : list (St * St) * A :=
  let s := others n s in
  match c with
  | Done a => ([], a)
  | View sid k =>
      let '(s', answer) := store.store_context_view s sid in
      let '(calls, a) := work others (S n) (k answer) s' in ((s, s') :: calls, a)
  | Commit tx k =>
      let '(s', answer) := store.store_commit s tx in
      let '(calls, a) := work others (S n) (k answer) s' in ((s, s') :: calls, a)
  end.

End errors.
End catalog.
