(* ===== verification/ServiceMapping.v ===== *)
(** What the agent service shows of sessions, events and generations
    (src/crates/philo-agent-service/src/mapping.rs).

    Module [service_mapping] has one definition per function. Rust's derived
    [Debug] of an enum without fields is the name of the variant. *)

From S2P Require Import Prelude RustStr Kernel Session Tools Runtime.
From S2P Require Import Service.
Import runtime service.

Module service_mapping.

(** ** Sessions *)

(** The [HashMap] of names: a later entry of the catalog replaces an earlier one. *)
Definition model_display_lookup (models : list ModelListingEntry) : gmap string string :=
  foldl (λ m entry, <[ml_id entry := ml_model entry]> m) ∅ models.

Definition wire_name (model_id : string) (provider : option string) : string :=
  match provider with
  | Some provider => default model_id (strip_prefix (provider +:+ "/") model_id)
  | None => model_id
  end.

Definition session_usage_to_frontend (usage : session.SessionTokenUsage) : FrontendTokenUsage :=
  {| fu_input_tokens := session.input_tokens usage;
     fu_output_tokens := session.output_tokens usage;
     fu_cache_read_tokens := session.cache_read_tokens usage;
     fu_cache_write_tokens := session.cache_write_tokens usage;
     fu_reasoning_tokens := session.reasoning_tokens usage |}.

Definition user_part (part : session.SessionUserPart) : FrontendUserPart :=
  match part with
  | session.PartText text => FrontText text
  | session.PartImage media_type bytes => FrontImage media_type bytes
  end.

Definition assistant_block (block : session.SessionAssistantBlock) : FrontendAssistantBlock :=
  match block with
  | session.BlockText text => FrontBlockText text
  | session.BlockToolCall call =>
      FrontBlockToolCall (session.call_id call) (session.call_name call)
        (session.call_arguments call)
  end.

Definition tool_outcome (out : session.ToolResultOutcome) : FrontendToolResultOutcome :=
  match out with
  | session.Success content => FrontSuccess content
  | session.Error code message => FrontError code message
  | session.ResultCancelled => FrontCancelled
  | session.ResultInterrupted => FrontInterrupted
  end.

Definition context_message (message : session.ContextMessage) : FrontendContextMessage :=
  match message with
  | session.CtxSummary text => FrontSummary text
  | session.CtxUser parts => FrontUser (user_part <$> parts)
  | session.CtxAssistant blocks => FrontAssistant (assistant_block <$> blocks)
  | session.CtxAssistantToolCalls tool_batch_id blocks =>
      FrontAssistantToolCalls tool_batch_id (assistant_block <$> blocks)
  | session.CtxToolResult tool_call_id out => FrontToolResult tool_call_id (tool_outcome out)
  end.

Definition open_turn (turn : session.OpenTurnInfo) : FrontendOpenTurn :=
  {| ft_operation_id := session.open_operation_id turn;
     ft_turn_id := session.open_turn_id turn;
     ft_unfilled_batch := (λ batch,
       {| fb_tool_batch_id := session.unfilled_tool_batch_id batch;
          fb_unfilled_call_ids := session.unfilled_call_ids batch |})
       <$> session.unfilled_batch turn |}.

Definition durable_session_view (view : session.SessionContextView)
    (display_names : gmap string string) : DurableSessionView :=
  {| dv_session_id := session.view_session_id view;
     dv_revision := Z.of_nat (session.view_revision view);
     dv_title := session.view_title view;
     dv_messages := context_message <$> session.view_messages view;
     dv_open_turns := open_turn <$> session.view_open_turns view;
     dv_settled_turn_boundaries := session.view_settled_turn_boundaries view;
     dv_latest_compaction_boundary := session.view_latest_compaction_boundary view;
     dv_usage := session_usage_to_frontend <$> session.view_latest_usage view;
     dv_generation := (λ choice,
       {| fc_provider := session.choice_provider choice;
          fc_model_name :=
            default (wire_name (session.choice_model_id choice) (session.choice_provider choice))
              (display_names !! session.choice_model_id choice);
          fc_reasoning_effort := session.choice_reasoning_effort choice |})
       <$> session.view_latest_generation view |}.

Definition session_view_covers_live (view : session.SessionContextView)
    (live : LiveOperationSnapshot) : bool :=
  match live_operation_id live with
  | None => false
  | Some operation_id =>
      any (λ settled, (settled.1 == operation_id)
                      && match live_turn_id live with
                         | None => true
                         | Some turn_id => settled.2 == turn_id
                         end)
        (session.view_settled_turns view)
  end.

(** ** Events *)

Definition token_usage (usage : TokenUsage) : FrontendTokenUsage :=
  {| fu_input_tokens := input_tokens usage; fu_output_tokens := output_tokens usage;
     fu_cache_read_tokens := cache_read_tokens usage;
     fu_cache_write_tokens := cache_write_tokens usage;
     fu_reasoning_tokens := reasoning_tokens usage |}.

Definition tool_result (result : tools.ToolResult) : FrontendToolResult :=
  match result with
  | tools.Success content => FrontToolSuccess content
  | tools.Error code message => FrontToolError code message
  end.

Definition tool_display (display : tools.ToolDisplay) : FrontendToolDisplay :=
  {| fd_detail := tools.detail display;
     fd_facts := (λ fact, (tools.fact_name fact, tools.fact_value fact)) <$> tools.facts display |}.

Definition domain_label (domain : FailureDomain) : string :=
  match domain with
  | Provider => "provider" | Network => "network" | Caller => "caller" | Storage => "storage"
  | Internal => "internal"
  end.

Definition stage_label (stage : FailureStage) : string :=
  match stage with
  | StageModelPort => "model-port" | StageTurnEngine => "turn-engine" | StageKernel => "kernel"
  | StageSessionStore => "session-store" | StageToolPort => "tool-port"
  | StageEpochSupervisor => "epoch-supervisor"
  end.

Definition retry_label (retry : RetryDisposition) : string :=
  match retry with Never => "never" | Safe _ => "safe" | MayDuplicate _ => "may-duplicate" end.

Definition failure_dto (failure : AgentFailure) : FrontendFailure :=
  {| ff_code := code failure; ff_domain := domain_label (domain failure);
     ff_stage := stage_label (stage failure); ff_retry := retry_label (retry failure);
     ff_summary := summary failure; ff_diagnostic := diagnostic failure |}.

Definition debug_cancel_reason (reason : CancelReason) : string :=
  match reason with
  | session.ReasonUser => "User" | session.ReasonTimeout => "Timeout"
  | session.ReasonAbandoned => "Abandoned"
  end.

Definition operation_event (event : AgentEvent) : option FrontendOperationEvent :=
  match event with
  | EvOperationQueued operation_id => Some (FeOperationQueued operation_id)
  | EvOperationStarted operation_id => Some (FeOperationStarted operation_id)
  | EvTurnStarted turn_id => Some (FeTurnStarted turn_id)
  | EvModelCallStarted model_call_id => Some (FeModelCallStarted model_call_id)
  | EvModelResponseStarted model_call_id response_model response_id =>
      Some (FeModelResponseStarted model_call_id response_model response_id)
  | EvTextDelta delta => Some (FeTextDelta delta)
  | EvReasoningDelta model_call_id text => Some (FeReasoningDelta model_call_id text)
  | EvModelUsageUpdated model_call_id usage =>
      Some (FeModelUsageUpdated model_call_id (token_usage usage))
  | EvToolBatchRequested tool_batch_id call_count =>
      Some (FeToolBatchRequested tool_batch_id call_count)
  | EvToolExecutionStarted tool_batch_id tool_call_id index tool_name arguments =>
      Some (FeToolExecutionStarted tool_batch_id tool_call_id index tool_name arguments)
  | EvToolExecutionProgress tool_batch_id tool_call_id index tail =>
      Some (FeToolExecutionProgress tool_batch_id tool_call_id index tail)
  | EvToolExecutionCompleted tool_batch_id tool_call_id index tool_name result display =>
      Some (FeToolExecutionCompleted tool_batch_id tool_call_id index tool_name
              (tool_result result) (tool_display <$> display))
  | EvAssistantMessageCompleted turn_id message =>
      Some (FeAssistantMessageCompleted turn_id (content message))
  | EvTurnFailed turn_id failure => Some (FeTurnFailed turn_id (failure_dto failure))
  | EvPriorTurnSealed turn_id => Some (FePriorTurnSealed turn_id)
  | EvContextCompactionStarted => Some FeContextCompactionStarted
  | EvContextCompactionCompleted covers_up_to => Some (FeContextCompactionCompleted covers_up_to)
  | EvContextCompactionFailed message => Some (FeContextCompactionFailed message)
  | EvCancellationRequested operation_id reason =>
      Some (FeCancellationRequested operation_id (debug_cancel_reason reason))
  | EvModelRetryScheduled model_call_id attempt max_retries delay_ms failure =>
      Some (FeModelRetryScheduled model_call_id attempt max_retries delay_ms (failure_dto failure))
  | EvTurnCancelled turn_id reason => Some (FeTurnCancelled turn_id (debug_cancel_reason reason))
  | EvOperationSettled _ _ _ _ => None
  end.

Definition debug_status (status : OperationStatus) : string :=
  match status with Succeeded => "Succeeded" | Failed => "Failed" | Cancelled => "Cancelled" end.

Definition debug_durability (durability : SettlementDurability) : string :=
  match durability with Confirmed => "Confirmed" | Unconfirmed => "Unconfirmed" end.

Definition availability (value : AgentAvailability) : FrontendAvailability :=
  match value with
  | Idle => FrontIdle
  | Busy operation_id => FrontBusy operation_id
  | Compacting session_id => FrontCompacting session_id
  end.

(** ** Commands *)

Definition debug_invalid_message (error : InvalidUserMessage) : string :=
  match error with EmptyParts => "EmptyParts" | EmptyTextPart => "EmptyTextPart" end.

Definition user_message (draft : string) (attachments : list FrontendAttachment)
    : outcome string UserMessage :=
  map_err debug_invalid_message
    (from_parts ((if str_is_empty draft then [] else [UserText draft])
                 ++ ((λ a, UserImage (attachment_media_type a) (attachment_bytes a))
                     <$> attachments))).

Definition reasoning_effort (effort : FrontendReasoningEffort) : ReasoningEffort :=
  match effort with
  | EffortMinimal => Minimal | EffortLow => Low | EffortMedium => Medium | EffortHigh => High
  | EffortXhigh => Xhigh | EffortMax => Max
  end.

Definition debug_effort (effort : ReasoningEffort) : string :=
  match effort with
  | Minimal => "Minimal" | Low => "Low" | Medium => "Medium" | High => "High" | Xhigh => "Xhigh"
  | Max => "Max"
  end.

(** ** Generations *)

(** The tool definitions of a port, [ToolPort::definitions]. *)
Class ToolPorts : Type := definitions : PortRef → list tools.ToolDefinition.

Definition entry (key value source : string) : FrontendConfigEntry :=
  {| ce_key := key; ce_value := value; ce_source := source |}.

(** The effort of a generation, as it is shown. *)
Definition effort_of (g : RuntimeGeneration) : option string :=
  debug_effort <$> runtime.reasoning_effort (generation (runtime_config g)).

Definition config_entries (g : Generation) : list FrontendConfigEntry :=
  let config := runtime_config (frozen g) in
  [entry "model" (model_name (gen_display (frozen g))) "generation";
   entry "reasoning" (default "default" (effort_of (frozen g))) "generation";
   entry "max_tool_rounds" (display (max_tool_rounds config)) "generation";
   entry "max_parallel_tool_calls" (display (max_parallel_tool_calls config)) "generation";
   entry "operation_timeout"
     (match operation_timeout config with
      | Some timeout => display timeout +:+ "ms"
      | None => "none"
      end) "generation"].

Definition effect_class (class : tools.EffectClass) : string :=
  match class with
  | tools.ReadOnly => "read_only" | tools.Workspace => "workspace" | tools.System => "system"
  end.

Definition tool_listing (definition : tools.ToolDefinition) : FrontendToolListing :=
  {| tl_name := tools.definition_name definition;
     tl_effect_class := effect_class (tools.effect_class definition) |}.

Section ports.
Context `{ToolPorts}.

Definition frontend_generation (g : Generation) : FrontendGeneration :=
  {| fg_generation_id := generation_id (frozen g);
     fg_provider := provider (gen_display (frozen g));
     fg_model_name := model_name (gen_display (frozen g));
     fg_reasoning_effort := effort_of (frozen g);
     fg_image_input := image_input (gen_display (frozen g));
     fg_tool_names := tools.definition_name <$> definitions (gen_tools g) |}.

Definition status (g : Generation) (availability : FrontendAvailability) (queued : nat)
    : FrontendStatus :=
  {| status_availability := availability; status_queued := queued;
     status_generation := frontend_generation g;
     status_tools := tool_listing <$> definitions (gen_tools g) |}.

End ports.
End service_mapping.
