(* ===== verification/ServiceFeed.v ===== *)
(** The lanes between the agent service and its frontend
    (src/crates/philo-agent-service/src/frontend/feed.rs and client.rs): the
    feed with its resync protocol, the reply credits, and the client that
    merges the two update lanes.

    A bounded channel is a [Lane]: all that was sent on it, how much the
    receiver took, and how many of its permits are held. A held permit is
    owned by a reply credit, or for a moment by a call of [reserve]. *)

From S2P Require Import Prelude RustStr Kernel Session Tools Runtime.
From S2P Require Import Service.
Import service.

Module feed.

(** ** Channels *)

Record Lane (A : Type) : Type := {
  lane_cap : nat;
  lane_sent : list A;
  lane_taken : nat;
  lane_held : nat;
  receiver_gone : bool
}.
Arguments lane_cap {A} _.
Arguments lane_sent {A} _.
Arguments lane_taken {A} _.
Arguments lane_held {A} _.
Arguments receiver_gone {A} _.
Arguments Build_Lane {A} _ _ _ _ _.

Definition lane_new {A} (cap : nat) : Lane A := Build_Lane cap [] 0 0 false.

Definition unread {A} (l : Lane A) : list A := drop (lane_taken l) (lane_sent l).
Definition occupied {A} (l : Lane A) : nat := length (unread l) + lane_held l.

Definition lane_push {A} (x : A) (l : Lane A) : Lane A :=
  Build_Lane (lane_cap l) (lane_sent l ++ [x]) (lane_taken l) (lane_held l) (receiver_gone l).
Definition lane_hold {A} (n : nat) (l : Lane A) : Lane A :=
  Build_Lane (lane_cap l) (lane_sent l) (lane_taken l) (lane_held l + n) (receiver_gone l).
Definition lane_release {A} (n : nat) (l : Lane A) : Lane A :=
  Build_Lane (lane_cap l) (lane_sent l) (lane_taken l) (lane_held l - n) (receiver_gone l).

Inductive TrySend : Type := SendOk | SendFull | SendClosed.

(** [Sender::try_send] and, without the message, [try_reserve_owned]. *)
Definition send_state {A} (l : Lane A) : TrySend :=
  if receiver_gone l then SendClosed
  else if bool_decide (occupied l < lane_cap l) then SendOk else SendFull.

Definition try_send {A} (x : A) (l : Lane A) : Lane A * TrySend :=
  match send_state l with SendOk => (lane_push x l, SendOk) | r => (l, r) end.

(** [Receiver::try_recv]. *)
Definition try_recv {A} (l : Lane A) : Lane A * option A :=
  match unread l with
  | x :: _ =>
      (Build_Lane (lane_cap l) (lane_sent l) (S (lane_taken l)) (lane_held l) (receiver_gone l),
       Some x)
  | [] => (l, None)
  end.

(** ** feed.rs: reply credits *)

Record ReplyCredits : Type := {
  permits : gmap FrontendRequestId nat;
  credits_closed : bool
}.

Definition credits_new : ReplyCredits := {| permits := ∅; credits_closed := false |}.

(** The permits of all requests. *)
Definition credits_total (c : ReplyCredits) : nat :=
  map_fold (λ _ n total, n + total) 0 (permits c).

(** [try_reserve_owned], [count] times: the lane when all succeed. *)
Fixpoint reserve_all {A} (count : nat) (l : Lane A) : option (Lane A) :=
  match count with
  | 0 => Some l
  | S count =>
      match send_state l with
      | SendOk => reserve_all count (lane_hold 1 l)
      | _ => None
      end
  end.

Definition reserve (request_id : FrontendRequestId) (count : nat) {A} (l : Lane A)
    (self : ReplyCredits) : Lane A * ReplyCredits * bool :=
  if bool_decide (count = 0) then (l, self, true)
  else if credits_closed self then (l, self, false)
  else
    match reserve_all count l with
    | None => (l, self, false)
    | Some l' =>
        match permits self !! request_id with
        | Some _ => (l, self, false)
        | None =>
            (l', {| permits := <[request_id := count]> (permits self);
                    credits_closed := credits_closed self |}, true)
        end
    end.

(** [take]: one permit of a request, which leaves the credits. *)
Definition take_credit (request_id : FrontendRequestId) (self : ReplyCredits)
    : option ReplyCredits :=
  match permits self !! request_id with
  | Some (S n) =>
      Some {| permits := if bool_decide (n = 0) then delete request_id (permits self)
                         else <[request_id := n]> (permits self);
              credits_closed := credits_closed self |}
  | _ => None
  end.

(** [cancel]: the credits without the request, and the permits given back. *)
Definition cancel_credit (request_id : FrontendRequestId) (self : ReplyCredits)
    : ReplyCredits * nat :=
  ({| permits := delete request_id (permits self); credits_closed := credits_closed self |},
   default 0 (permits self !! request_id)).

Definition close_credits (self : ReplyCredits) : ReplyCredits * nat :=
  ({| permits := ∅; credits_closed := true |}, credits_total self).

(** ** feed.rs: the feed *)

Inductive FeedPush : Type := Sent | Dropped | PushBackpressured | PushDisconnected.
#[export] Instance FeedPush_eq_dec : EqDecision FeedPush.
Proof. solve_decision. Defined.

(** What happened to an update: the result of its push, or that it went out
    later than it was made, as [ResyncRequired] and a retained snapshot do. *)
Inductive FeedAct : Type :=
| Pushed (u : FrontendUpdate) (r : FeedPush)
| Recovered (u : FrontendUpdate).

(** [history] is not in the code: all acts so far. *)
Record FrontendFeed : Type := {
  tx : Lane FrontendUpdate;
  critical_tx : Lane FrontendUpdate;
  credits : ReplyCredits;
  pending_snapshot : option FrontendUpdate;
  needs_resync : bool;
  awaiting_snapshot : bool;
  disconnected : bool;
  history : list FeedAct
}.

(** Field updates. *)
Definition set_tx v (f : FrontendFeed) : FrontendFeed :=
  Build_FrontendFeed v (critical_tx f) (credits f) (pending_snapshot f) (needs_resync f)
    (awaiting_snapshot f) (disconnected f) (history f).
Definition set_critical_tx v (f : FrontendFeed) : FrontendFeed :=
  Build_FrontendFeed (tx f) v (credits f) (pending_snapshot f) (needs_resync f)
    (awaiting_snapshot f) (disconnected f) (history f).
Definition set_credits v (f : FrontendFeed) : FrontendFeed :=
  Build_FrontendFeed (tx f) (critical_tx f) v (pending_snapshot f) (needs_resync f)
    (awaiting_snapshot f) (disconnected f) (history f).
Definition set_pending_snapshot v (f : FrontendFeed) : FrontendFeed :=
  Build_FrontendFeed (tx f) (critical_tx f) (credits f) v (needs_resync f) (awaiting_snapshot f)
    (disconnected f) (history f).
Definition set_needs_resync v (f : FrontendFeed) : FrontendFeed :=
  Build_FrontendFeed (tx f) (critical_tx f) (credits f) (pending_snapshot f) v
    (awaiting_snapshot f) (disconnected f) (history f).
Definition set_awaiting_snapshot v (f : FrontendFeed) : FrontendFeed :=
  Build_FrontendFeed (tx f) (critical_tx f) (credits f) (pending_snapshot f) (needs_resync f) v
    (disconnected f) (history f).
Definition set_disconnected v (f : FrontendFeed) : FrontendFeed :=
  Build_FrontendFeed (tx f) (critical_tx f) (credits f) (pending_snapshot f) (needs_resync f)
    (awaiting_snapshot f) v (history f).
Definition set_history v (f : FrontendFeed) : FrontendFeed :=
  Build_FrontendFeed (tx f) (critical_tx f) (credits f) (pending_snapshot f) (needs_resync f)
    (awaiting_snapshot f) (disconnected f) v.

Definition feed_new (cap critical_cap : nat) : FrontendFeed :=
  {| tx := lane_new cap; critical_tx := lane_new critical_cap; credits := credits_new;
     pending_snapshot := None; needs_resync := false; awaiting_snapshot := false;
     disconnected := false; history := [] |}.

Definition pending_resync (f : FrontendFeed) : bool :=
  needs_resync f && negb (disconnected f) && negb (awaiting_snapshot f).
Definition pending_critical (f : FrontendFeed) : bool :=
  session.is_some (pending_snapshot f) && negb (disconnected f).
Definition is_resyncing (f : FrontendFeed) : bool :=
  (needs_resync f || awaiting_snapshot f) && negb (disconnected f).

Definition force_resync (f : FrontendFeed) : FrontendFeed :=
  if negb (disconnected f) && negb (awaiting_snapshot f) then set_needs_resync true f else f.

Definition is_snapshot_ready (kind : FrontendUpdateKind) : bool :=
  match kind with SnapshotReady _ => true | _ => false end.

Definition is_critical (u : FrontendUpdate) : bool :=
  session.is_some (up_request_id u)
  || match up_kind u with
     | SnapshotReady _ | ResyncRequired _ | ConfirmationResolved _ _
     | OperationEvent (FeOperationSettled _ _ _ _ _) => true
     | _ => false
     end.

Definition record (act : FeedAct) (f : FrontendFeed) : FrontendFeed :=
  set_history (history f ++ [act]) f.

Definition try_resync (epoch : FrontendEpoch) (revision : FrontendRevision) (f : FrontendFeed)
    : FrontendFeed :=
  let u := {| up_epoch := epoch; up_revision := revision; up_request_id := None;
              up_kind := ResyncRequired revision |} in
  match try_send u (critical_tx f) with
  | (lane, SendOk) =>
      record (Recovered u) (set_awaiting_snapshot true (set_needs_resync false (set_critical_tx lane f)))
  | (_, SendFull) => f
  | (_, SendClosed) => set_disconnected true f
  end.

(** The lane an update takes, and a change of that lane. *)
Definition lane_for (critical : bool) (f : FrontendFeed) : Lane FrontendUpdate :=
  if critical then critical_tx f else tx f.
Definition set_lane (critical : bool) (l : Lane FrontendUpdate) (f : FrontendFeed) :=
  if critical then set_critical_tx l f else set_tx l f.

(** [tx.try_send(update)] and what follows it in [push]. *)
Definition push_unreserved (u : FrontendUpdate) (f : FrontendFeed) : FrontendFeed * FeedPush :=
  let critical := is_critical u in
  match try_send u (lane_for critical f) with
  | (lane, SendOk) => (set_lane critical lane f, Sent)
  | (_, SendFull) =>
      if critical then
        let retain := is_snapshot_ready (up_kind u)
          && match pending_snapshot f with
             | None => true
             | Some p => negb (session.is_some (up_request_id p))
             end in
        ((if retain then set_pending_snapshot (Some u) f else f), PushBackpressured)
      else (set_needs_resync true f, Dropped)
  | (_, SendClosed) => (set_disconnected true f, PushDisconnected)
  end.

Definition push_inner (u : FrontendUpdate) (f : FrontendFeed) : FrontendFeed * FeedPush :=
  if disconnected f then (f, PushDisconnected)
  else
    let critical := is_critical u in
    if awaiting_snapshot f && negb critical then (f, Dropped)
    else if needs_resync f && negb critical then
      (try_resync (up_epoch u) (up_revision u) f, Dropped)
    else
      match up_request_id u ≫= λ id, take_credit id (credits f) with
      | Some credits =>
          (set_critical_tx (lane_push u (lane_release 1 (critical_tx f))) (set_credits credits f),
           Sent)
      | None => push_unreserved u f
      end.

Definition push (u : FrontendUpdate) (f : FrontendFeed) : FrontendFeed * FeedPush :=
  let '(f', r) := push_inner u f in (record (Pushed u r) f', r).

Definition flush_resync (epoch : FrontendEpoch) (revision : FrontendRevision) (f : FrontendFeed)
    : FrontendFeed :=
  if disconnected f || awaiting_snapshot f || negb (needs_resync f) then f
  else try_resync epoch revision f.

Definition on_snapshot_ready (r : FeedPush) (f : FrontendFeed) : FrontendFeed :=
  match r with
  | Sent => set_awaiting_snapshot false (set_needs_resync false f)
  | _ => f
  end.

Definition flush_pending_critical (f : FrontendFeed) : FrontendFeed :=
  match pending_snapshot f with
  | None => f
  | Some u =>
      match try_send u (critical_tx f) with
      | (lane, SendOk) =>
          on_snapshot_ready Sent
            (record (Recovered u) (set_pending_snapshot None (set_critical_tx lane f)))
      | (_, SendFull) => f
      | (_, SendClosed) => set_disconnected true (set_pending_snapshot None f)
      end
  end.

Definition cancel_request (request_id : FrontendRequestId) (f : FrontendFeed) : FrontendFeed :=
  let '(credits', n) := cancel_credit request_id (credits f) in
  set_critical_tx (lane_release n (critical_tx f)) (set_credits credits' f).

(** [Drop for FrontendFeed]. *)
Definition close_feed (f : FrontendFeed) : FrontendFeed :=
  let '(credits', n) := close_credits (credits f) in
  set_critical_tx (lane_release n (critical_tx f)) (set_credits credits' f).

(** ** client.rs: the merge of the two lanes *)

Record FrontendUpdateReceiver : Type := {
  normal_buffer : option FrontendUpdate;
  critical_buffer : option FrontendUpdate
}.

Definition receiver_new : FrontendUpdateReceiver :=
  {| normal_buffer := None; critical_buffer := None |}.

(** [fill_buffers] looks at the ordinary lane first, then at the other; each is
    an operation of its own. *)
Definition fill_normal (rx : FrontendUpdateReceiver) (l : Lane FrontendUpdate)
    : FrontendUpdateReceiver * Lane FrontendUpdate :=
  match normal_buffer rx with
  | Some _ => (rx, l)
  | None =>
      let '(l, u) := try_recv l in
      ({| normal_buffer := u; critical_buffer := critical_buffer rx |}, l)
  end.
Definition fill_critical (rx : FrontendUpdateReceiver) (l : Lane FrontendUpdate)
    : FrontendUpdateReceiver * Lane FrontendUpdate :=
  match critical_buffer rx with
  | Some _ => (rx, l)
  | None =>
      let '(l, u) := try_recv l in
      ({| normal_buffer := normal_buffer rx; critical_buffer := u |}, l)
  end.

Definition take_normal (rx : FrontendUpdateReceiver) : FrontendUpdateReceiver :=
  {| normal_buffer := None; critical_buffer := critical_buffer rx |}.
Definition take_critical (rx : FrontendUpdateReceiver) : FrontendUpdateReceiver :=
  {| normal_buffer := normal_buffer rx; critical_buffer := None |}.

Definition pop_next (rx : FrontendUpdateReceiver)
    : FrontendUpdateReceiver * option FrontendUpdate :=
  match normal_buffer rx, critical_buffer rx with
  | Some n, Some c =>
      if (up_revision n <=? up_revision c)%Z then (take_normal rx, Some n)
      else (take_critical rx, Some c)
  | Some n, None => (take_normal rx, Some n)
  | None, Some c => (take_critical rx, Some c)
  | None, None => (rx, None)
  end.

(** [FrontendUpdateReceiver::try_recv] when nothing is sent meanwhile. *)
Definition receive (rx : FrontendUpdateReceiver) (normal critical : Lane FrontendUpdate)
    : FrontendUpdateReceiver * Lane FrontendUpdate * Lane FrontendUpdate
      * option FrontendUpdate :=
  let '(rx, normal) := fill_normal rx normal in
  let '(rx, critical) := fill_critical rx critical in
  let '(rx, u) := pop_next rx in
  (rx, normal, critical, u).

(** [n] receives in a row. *)
Fixpoint receive_all (n : nat) (rx : FrontendUpdateReceiver)
    (normal critical : Lane FrontendUpdate) : list FrontendUpdate :=
  match n with
  | 0 => []
  | S n =>
      match receive rx normal critical with
      | (rx, normal, critical, Some u) => u :: receive_all n rx normal critical
      | (_, _, _, None) => []
      end
  end.

(** The lane [try_command] picks, and the replies it reserves room for. *)
Inductive CommandLane : Type := LaneCommand | LaneControl | LaneSnapshot.

Definition command_lane (command : FrontendCommand) : CommandLane :=
  if is_snapshot command then LaneSnapshot
  else if is_control command then LaneControl else LaneCommand.

Definition lane_name (lane : CommandLane) : string :=
  match lane with
  | LaneCommand => "frontend-command"
  | LaneControl => "frontend-control"
  | LaneSnapshot => "frontend-snapshot"
  end.

Definition expected_replies (command : FrontendCommand) : nat :=
  match command with PreviewSession _ _ => 2 | _ => 1 end.

Record CommandEnvelope : Type := {
  envelope_request_id : FrontendRequestId;
  envelope_command : FrontendCommand
}.

(** The second half of [try_command], after the reservation. *)
Definition send_command (e : CommandEnvelope) (lane : Lane CommandEnvelope) (f : FrontendFeed)
    : Lane CommandEnvelope * FrontendFeed * CommandDispatch FrontendRequestId :=
  match try_send e lane with
  | (lane, SendOk) => (lane, f, Enqueued (envelope_request_id e))
  | (_, SendFull) => (lane, cancel_request (envelope_request_id e) f, Backpressured)
  | (_, SendClosed) =>
      (lane, cancel_request (envelope_request_id e) f,
       Disconnected (lane_name (command_lane (envelope_command e))))
  end.

(** The first half: the reservation. *)
Definition reserve_reply (request_id : FrontendRequestId) (count : nat) (f : FrontendFeed)
    : FrontendFeed * bool :=
  let '(lane, credits', granted) := reserve request_id count (critical_tx f) (credits f) in
  (set_critical_tx lane (set_credits credits' f), granted).

End feed.
