(* ===== verification/ServiceActor.v ===== *)
(** The actor of the agent service (src/crates/philo-agent-service/src/actor/):
    its state and one definition per method of mod.rs, commands.rs,
    catalog.rs and snapshot.rs.

    Module [service_actor] has the methods in a state monad whose [None] is a
    Rust panic; only [debug_assert] panics, in the checking profile. A spawned
    child task is a value that says what it will do; its result comes back as
    an argument of [handle_task_result]. What happens between two methods is
    in ServiceSystem.v. *)

From S2P Require Import Prelude RustStr Kernel Session SessionLifecycle SessionContext SessionStore.
From S2P Require Import Tools Runtime RuntimeMapping Operation Outlets Epoch Coordinator.
From S2P Require Import Service ServiceSnapshot ServiceMapping ServiceFeed.
Import runtime service service_snapshot feed.

Module service_actor.

(** ** Data *)

Record ActiveFrontend : Type := {
  active_id : FrontendInstanceId;
  active_generation : FrontendLeaseGeneration
}.

Inductive ServiceShutdownState : Type :=
| Running | StopAccepting | RuntimeDraining | ChildrenJoining | Stopped.
#[export] Instance ServiceShutdownState_eq_dec : EqDecision ServiceShutdownState.
Proof. solve_decision. Defined.

Inductive ViewKind : Type :=
| ViewSnapshot (token : SnapshotLoadToken)
| ViewLoad (token : SnapshotLoadToken)
| ViewPreview (request_generation : Z).

(** What a spawned child does: the future that [spawn_child] is given. *)
Inductive ServiceTask : Type :=
| TaskStoreView (request_id : FrontendRequestId) (epoch : FrontendEpoch) (kind : ViewKind)
    (session_id : string)
| TaskInstall (request_id : FrontendRequestId) (epoch : FrontendEpoch) (request : AssembleRequest)
| TaskSubmit (request_id : FrontendRequestId) (epoch : FrontendEpoch)
    (spec : coordinator.OperationSpec)
| TaskCancel (request_id : FrontendRequestId) (operation_id : string)
| TaskCompaction (request_id : FrontendRequestId) (spec : coordinator.CompactionSpec)
| TaskCancelMaintenance (request_id : FrontendRequestId) (maintenance_id : string)
| TaskShutdown (mode : epoch.ShutdownMode) (deadline : Z)
| TaskRuntimeSnapshot (epoch : FrontendEpoch)
| TaskListSessions (request_id : FrontendRequestId) (epoch : FrontendEpoch)
| TaskRenameSession (request_id : FrontendRequestId) (epoch : FrontendEpoch)
    (session_id title : string).

(** [Result<A, E>] as a value. *)
Abbreviation Result A E := (E + A)%type.

Inductive ServiceTaskResult : Type :=
| ResStoreView (request_id : FrontendRequestId) (epoch : FrontendEpoch) (kind : ViewKind)
    (session_id : string) (result : Result session.SessionContextView string)
| ResInstall (request_id : FrontendRequestId) (epoch : FrontendEpoch) (name : string)
    (result : Result AssembledGeneration AssembleError)
| ResSubmit (request_id : FrontendRequestId) (epoch : FrontendEpoch)
    (result : Result coordinator.OperationAccepted coordinator.AdmissionError)
| ResCancel (request_id : FrontendRequestId) (result : coordinator.CancelResult)
| ResCompaction (request_id : FrontendRequestId)
    (result : Result MaintenanceId coordinator.MaintenanceError)
| ResCancelMaintenance (request_id : FrontendRequestId) (result : coordinator.CancelResult)
| ResShutdown (result : Result ShutdownReport ShutdownError)
| ResRuntimeSnapshot (epoch : FrontendEpoch) (snapshot : RuntimeSnapshot)
| ResListSessions (request_id : FrontendRequestId) (epoch : FrontendEpoch)
    (result : Result (list store.SessionSummary) session.SessionError)
| ResRenameSession (request_id : FrontendRequestId) (epoch : FrontendEpoch)
    (result : Result unit string).

(** A child of the [JoinSet]: [child_end] is [None] while it runs, and
    [Some None] when it panicked. *)
Record Child : Type := {
  child_id : nat;
  child_task : ServiceTask;
  child_end : option (option ServiceTaskResult)
}.

Inductive SupervisorReply : Type :=
| ReplyAttach (result : Result FrontendLease AttachError)
| ReplyDetach (result : Result DetachReport DetachError)
| ReplyShutdown.

(** [AgentServiceActor], less its ports. *)
Record Actor : Type := {
  generation_cell : CurrentGeneration;
  session_generations : SessionGenerationCache;
  live : LiveOperationSnapshot;
  queued : list QueuedOperationSummary;
  maintenance : option FrontendMaintenance;
  availability : FrontendAvailability;
  confirmations : ConfirmationMap;
  feed_end : FrontendFeed;
  epoch : FrontendEpoch;
  revision : FrontendRevision;
  snapshot : SnapshotState;
  attached : option ActiveFrontend;
  next_lease_generation : Z;
  health : ServiceHealth;
  notices : list string;
  latest_snapshot : option FrontendRequestId;
  latest_preview : option (FrontendRequestId * Z);
  live_cursor : Z;
  applied_runtime_snapshot_revision : Z;
  runtime_snapshot_inflight : bool;
  session_seq : Z;
  session_nonce : Z;
  runtime_closed : bool;
  child_tasks : list Child;
  child_requests : gmap nat (option FrontendRequestId);
  shutdown : ServiceShutdownState
}.

(** The actor and what its methods touch: the runtime's subscription, the
    answers given on the [oneshot]s of confirmations and to the supervisor, how
    many tasks were spawned and how often the outside was asked. *)
Record World : Type := {
  actor : Actor;
  subscription : list RuntimeEvent;
  subscription_closed : bool;
  answers : Answers;
  supervisor_replies : list SupervisorReply;
  tasks_spawned : nat;
  reads : nat
}.

(** Field updates. *)
Definition set_generation_cell v (a : Actor) : Actor :=
  Build_Actor v (session_generations a) (live a) (queued a) (maintenance a) (availability a)
    (confirmations a) (feed_end a) (epoch a) (revision a) (snapshot a) (attached a)
    (next_lease_generation a) (health a) (notices a) (latest_snapshot a) (latest_preview a)
    (live_cursor a) (applied_runtime_snapshot_revision a) (runtime_snapshot_inflight a)
    (session_seq a) (session_nonce a) (runtime_closed a) (child_tasks a) (child_requests a)
    (shutdown a).
Definition set_session_generations v (a : Actor) : Actor :=
  Build_Actor (generation_cell a) v (live a) (queued a) (maintenance a) (availability a)
    (confirmations a) (feed_end a) (epoch a) (revision a) (snapshot a) (attached a)
    (next_lease_generation a) (health a) (notices a) (latest_snapshot a) (latest_preview a)
    (live_cursor a) (applied_runtime_snapshot_revision a) (runtime_snapshot_inflight a)
    (session_seq a) (session_nonce a) (runtime_closed a) (child_tasks a) (child_requests a)
    (shutdown a).
Definition set_live v (a : Actor) : Actor :=
  Build_Actor (generation_cell a) (session_generations a) v (queued a) (maintenance a)
    (availability a) (confirmations a) (feed_end a) (epoch a) (revision a) (snapshot a)
    (attached a) (next_lease_generation a) (health a) (notices a) (latest_snapshot a)
    (latest_preview a) (live_cursor a) (applied_runtime_snapshot_revision a)
    (runtime_snapshot_inflight a) (session_seq a) (session_nonce a) (runtime_closed a)
    (child_tasks a) (child_requests a) (shutdown a).
Definition set_queued v (a : Actor) : Actor :=
  Build_Actor (generation_cell a) (session_generations a) (live a) v (maintenance a)
    (availability a) (confirmations a) (feed_end a) (epoch a) (revision a) (snapshot a)
    (attached a) (next_lease_generation a) (health a) (notices a) (latest_snapshot a)
    (latest_preview a) (live_cursor a) (applied_runtime_snapshot_revision a)
    (runtime_snapshot_inflight a) (session_seq a) (session_nonce a) (runtime_closed a)
    (child_tasks a) (child_requests a) (shutdown a).
Definition set_maintenance v (a : Actor) : Actor :=
  Build_Actor (generation_cell a) (session_generations a) (live a) (queued a) v (availability a)
    (confirmations a) (feed_end a) (epoch a) (revision a) (snapshot a) (attached a)
    (next_lease_generation a) (health a) (notices a) (latest_snapshot a) (latest_preview a)
    (live_cursor a) (applied_runtime_snapshot_revision a) (runtime_snapshot_inflight a)
    (session_seq a) (session_nonce a) (runtime_closed a) (child_tasks a) (child_requests a)
    (shutdown a).
Definition set_availability v (a : Actor) : Actor :=
  Build_Actor (generation_cell a) (session_generations a) (live a) (queued a) (maintenance a) v
    (confirmations a) (feed_end a) (epoch a) (revision a) (snapshot a) (attached a)
    (next_lease_generation a) (health a) (notices a) (latest_snapshot a) (latest_preview a)
    (live_cursor a) (applied_runtime_snapshot_revision a) (runtime_snapshot_inflight a)
    (session_seq a) (session_nonce a) (runtime_closed a) (child_tasks a) (child_requests a)
    (shutdown a).
Definition set_confirmations v (a : Actor) : Actor :=
  Build_Actor (generation_cell a) (session_generations a) (live a) (queued a) (maintenance a)
    (availability a) v (feed_end a) (epoch a) (revision a) (snapshot a) (attached a)
    (next_lease_generation a) (health a) (notices a) (latest_snapshot a) (latest_preview a)
    (live_cursor a) (applied_runtime_snapshot_revision a) (runtime_snapshot_inflight a)
    (session_seq a) (session_nonce a) (runtime_closed a) (child_tasks a) (child_requests a)
    (shutdown a).
Definition set_feed_end v (a : Actor) : Actor :=
  Build_Actor (generation_cell a) (session_generations a) (live a) (queued a) (maintenance a)
    (availability a) (confirmations a) v (epoch a) (revision a) (snapshot a) (attached a)
    (next_lease_generation a) (health a) (notices a) (latest_snapshot a) (latest_preview a)
    (live_cursor a) (applied_runtime_snapshot_revision a) (runtime_snapshot_inflight a)
    (session_seq a) (session_nonce a) (runtime_closed a) (child_tasks a) (child_requests a)
    (shutdown a).
Definition set_epoch v (a : Actor) : Actor :=
  Build_Actor (generation_cell a) (session_generations a) (live a) (queued a) (maintenance a)
    (availability a) (confirmations a) (feed_end a) v (revision a) (snapshot a) (attached a)
    (next_lease_generation a) (health a) (notices a) (latest_snapshot a) (latest_preview a)
    (live_cursor a) (applied_runtime_snapshot_revision a) (runtime_snapshot_inflight a)
    (session_seq a) (session_nonce a) (runtime_closed a) (child_tasks a) (child_requests a)
    (shutdown a).
Definition set_revision v (a : Actor) : Actor :=
  Build_Actor (generation_cell a) (session_generations a) (live a) (queued a) (maintenance a)
    (availability a) (confirmations a) (feed_end a) (epoch a) v (snapshot a) (attached a)
    (next_lease_generation a) (health a) (notices a) (latest_snapshot a) (latest_preview a)
    (live_cursor a) (applied_runtime_snapshot_revision a) (runtime_snapshot_inflight a)
    (session_seq a) (session_nonce a) (runtime_closed a) (child_tasks a) (child_requests a)
    (shutdown a).
Definition set_snapshot v (a : Actor) : Actor :=
  Build_Actor (generation_cell a) (session_generations a) (live a) (queued a) (maintenance a)
    (availability a) (confirmations a) (feed_end a) (epoch a) (revision a) v (attached a)
    (next_lease_generation a) (health a) (notices a) (latest_snapshot a) (latest_preview a)
    (live_cursor a) (applied_runtime_snapshot_revision a) (runtime_snapshot_inflight a)
    (session_seq a) (session_nonce a) (runtime_closed a) (child_tasks a) (child_requests a)
    (shutdown a).
Definition set_attached v (a : Actor) : Actor :=
  Build_Actor (generation_cell a) (session_generations a) (live a) (queued a) (maintenance a)
    (availability a) (confirmations a) (feed_end a) (epoch a) (revision a) (snapshot a) v
    (next_lease_generation a) (health a) (notices a) (latest_snapshot a) (latest_preview a)
    (live_cursor a) (applied_runtime_snapshot_revision a) (runtime_snapshot_inflight a)
    (session_seq a) (session_nonce a) (runtime_closed a) (child_tasks a) (child_requests a)
    (shutdown a).
Definition set_next_lease_generation v (a : Actor) : Actor :=
  Build_Actor (generation_cell a) (session_generations a) (live a) (queued a) (maintenance a)
    (availability a) (confirmations a) (feed_end a) (epoch a) (revision a) (snapshot a)
    (attached a) v (health a) (notices a) (latest_snapshot a) (latest_preview a) (live_cursor a)
    (applied_runtime_snapshot_revision a) (runtime_snapshot_inflight a) (session_seq a)
    (session_nonce a) (runtime_closed a) (child_tasks a) (child_requests a) (shutdown a).
Definition set_health v (a : Actor) : Actor :=
  Build_Actor (generation_cell a) (session_generations a) (live a) (queued a) (maintenance a)
    (availability a) (confirmations a) (feed_end a) (epoch a) (revision a) (snapshot a)
    (attached a) (next_lease_generation a) v (notices a) (latest_snapshot a) (latest_preview a)
    (live_cursor a) (applied_runtime_snapshot_revision a) (runtime_snapshot_inflight a)
    (session_seq a) (session_nonce a) (runtime_closed a) (child_tasks a) (child_requests a)
    (shutdown a).
Definition set_notices v (a : Actor) : Actor :=
  Build_Actor (generation_cell a) (session_generations a) (live a) (queued a) (maintenance a)
    (availability a) (confirmations a) (feed_end a) (epoch a) (revision a) (snapshot a)
    (attached a) (next_lease_generation a) (health a) v (latest_snapshot a) (latest_preview a)
    (live_cursor a) (applied_runtime_snapshot_revision a) (runtime_snapshot_inflight a)
    (session_seq a) (session_nonce a) (runtime_closed a) (child_tasks a) (child_requests a)
    (shutdown a).
Definition set_latest_snapshot v (a : Actor) : Actor :=
  Build_Actor (generation_cell a) (session_generations a) (live a) (queued a) (maintenance a)
    (availability a) (confirmations a) (feed_end a) (epoch a) (revision a) (snapshot a)
    (attached a) (next_lease_generation a) (health a) (notices a) v (latest_preview a)
    (live_cursor a) (applied_runtime_snapshot_revision a) (runtime_snapshot_inflight a)
    (session_seq a) (session_nonce a) (runtime_closed a) (child_tasks a) (child_requests a)
    (shutdown a).
Definition set_latest_preview v (a : Actor) : Actor :=
  Build_Actor (generation_cell a) (session_generations a) (live a) (queued a) (maintenance a)
    (availability a) (confirmations a) (feed_end a) (epoch a) (revision a) (snapshot a)
    (attached a) (next_lease_generation a) (health a) (notices a) (latest_snapshot a) v
    (live_cursor a) (applied_runtime_snapshot_revision a) (runtime_snapshot_inflight a)
    (session_seq a) (session_nonce a) (runtime_closed a) (child_tasks a) (child_requests a)
    (shutdown a).
Definition set_live_cursor v (a : Actor) : Actor :=
  Build_Actor (generation_cell a) (session_generations a) (live a) (queued a) (maintenance a)
    (availability a) (confirmations a) (feed_end a) (epoch a) (revision a) (snapshot a)
    (attached a) (next_lease_generation a) (health a) (notices a) (latest_snapshot a)
    (latest_preview a) v (applied_runtime_snapshot_revision a) (runtime_snapshot_inflight a)
    (session_seq a) (session_nonce a) (runtime_closed a) (child_tasks a) (child_requests a)
    (shutdown a).
Definition set_applied_runtime_snapshot_revision v (a : Actor) : Actor :=
  Build_Actor (generation_cell a) (session_generations a) (live a) (queued a) (maintenance a)
    (availability a) (confirmations a) (feed_end a) (epoch a) (revision a) (snapshot a)
    (attached a) (next_lease_generation a) (health a) (notices a) (latest_snapshot a)
    (latest_preview a) (live_cursor a) v (runtime_snapshot_inflight a) (session_seq a)
    (session_nonce a) (runtime_closed a) (child_tasks a) (child_requests a) (shutdown a).
Definition set_runtime_snapshot_inflight v (a : Actor) : Actor :=
  Build_Actor (generation_cell a) (session_generations a) (live a) (queued a) (maintenance a)
    (availability a) (confirmations a) (feed_end a) (epoch a) (revision a) (snapshot a)
    (attached a) (next_lease_generation a) (health a) (notices a) (latest_snapshot a)
    (latest_preview a) (live_cursor a) (applied_runtime_snapshot_revision a) v (session_seq a)
    (session_nonce a) (runtime_closed a) (child_tasks a) (child_requests a) (shutdown a).
Definition set_session_seq v (a : Actor) : Actor :=
  Build_Actor (generation_cell a) (session_generations a) (live a) (queued a) (maintenance a)
    (availability a) (confirmations a) (feed_end a) (epoch a) (revision a) (snapshot a)
    (attached a) (next_lease_generation a) (health a) (notices a) (latest_snapshot a)
    (latest_preview a) (live_cursor a) (applied_runtime_snapshot_revision a)
    (runtime_snapshot_inflight a) v (session_nonce a) (runtime_closed a) (child_tasks a)
    (child_requests a) (shutdown a).
Definition set_session_nonce v (a : Actor) : Actor :=
  Build_Actor (generation_cell a) (session_generations a) (live a) (queued a) (maintenance a)
    (availability a) (confirmations a) (feed_end a) (epoch a) (revision a) (snapshot a)
    (attached a) (next_lease_generation a) (health a) (notices a) (latest_snapshot a)
    (latest_preview a) (live_cursor a) (applied_runtime_snapshot_revision a)
    (runtime_snapshot_inflight a) (session_seq a) v (runtime_closed a) (child_tasks a)
    (child_requests a) (shutdown a).
Definition set_runtime_closed v (a : Actor) : Actor :=
  Build_Actor (generation_cell a) (session_generations a) (live a) (queued a) (maintenance a)
    (availability a) (confirmations a) (feed_end a) (epoch a) (revision a) (snapshot a)
    (attached a) (next_lease_generation a) (health a) (notices a) (latest_snapshot a)
    (latest_preview a) (live_cursor a) (applied_runtime_snapshot_revision a)
    (runtime_snapshot_inflight a) (session_seq a) (session_nonce a) v (child_tasks a)
    (child_requests a) (shutdown a).
Definition set_child_tasks v (a : Actor) : Actor :=
  Build_Actor (generation_cell a) (session_generations a) (live a) (queued a) (maintenance a)
    (availability a) (confirmations a) (feed_end a) (epoch a) (revision a) (snapshot a)
    (attached a) (next_lease_generation a) (health a) (notices a) (latest_snapshot a)
    (latest_preview a) (live_cursor a) (applied_runtime_snapshot_revision a)
    (runtime_snapshot_inflight a) (session_seq a) (session_nonce a) (runtime_closed a) v
    (child_requests a) (shutdown a).
Definition set_child_requests v (a : Actor) : Actor :=
  Build_Actor (generation_cell a) (session_generations a) (live a) (queued a) (maintenance a)
    (availability a) (confirmations a) (feed_end a) (epoch a) (revision a) (snapshot a)
    (attached a) (next_lease_generation a) (health a) (notices a) (latest_snapshot a)
    (latest_preview a) (live_cursor a) (applied_runtime_snapshot_revision a)
    (runtime_snapshot_inflight a) (session_seq a) (session_nonce a) (runtime_closed a)
    (child_tasks a) v (shutdown a).
Definition set_shutdown v (a : Actor) : Actor :=
  Build_Actor (generation_cell a) (session_generations a) (live a) (queued a) (maintenance a)
    (availability a) (confirmations a) (feed_end a) (epoch a) (revision a) (snapshot a)
    (attached a) (next_lease_generation a) (health a) (notices a) (latest_snapshot a)
    (latest_preview a) (live_cursor a) (applied_runtime_snapshot_revision a)
    (runtime_snapshot_inflight a) (session_seq a) (session_nonce a) (runtime_closed a)
    (child_tasks a) (child_requests a) v.
Definition set_actor v (w : World) : World :=
  Build_World v (subscription w) (subscription_closed w) (answers w) (supervisor_replies w)
    (tasks_spawned w) (reads w).
Definition set_subscription v (w : World) : World :=
  Build_World (actor w) v (subscription_closed w) (answers w) (supervisor_replies w)
    (tasks_spawned w) (reads w).
Definition set_subscription_closed v (w : World) : World :=
  Build_World (actor w) (subscription w) v (answers w) (supervisor_replies w) (tasks_spawned w)
    (reads w).
Definition set_answers v (w : World) : World :=
  Build_World (actor w) (subscription w) (subscription_closed w) v (supervisor_replies w)
    (tasks_spawned w) (reads w).
Definition set_supervisor_replies v (w : World) : World :=
  Build_World (actor w) (subscription w) (subscription_closed w) (answers w) v (tasks_spawned w)
    (reads w).
Definition set_tasks_spawned v (w : World) : World :=
  Build_World (actor w) (subscription w) (subscription_closed w) (answers w)
    (supervisor_replies w) v (reads w).
Definition set_reads v (w : World) : World :=
  Build_World (actor w) (subscription w) (subscription_closed w) (answers w)
    (supervisor_replies w) (tasks_spawned w) v.

(** What the [n]th question to the outside is answered: the two clocks, in
    milliseconds, and the model catalog of the composition root. *)
Class Outside : Type := {
  instant : nat → Z;
  system_time : nat → Z;
  list_models : nat → list ModelListingEntry;
  process_id : Z
}.

(** The derived [Debug] text of a compaction report. *)
Class DebugReport : Type := debug_report : CompactionReport → string.

(** ** The monad *)

Definition M (A : Type) : Type := World → World * option A.
Definition ret {A} (a : A) : M A := λ w, (w, Some a).
Definition bind {A B} (m : M A) (f : A → M B) : M B := λ w,
  match m w with
  | (w, Some a) => f a w
  | (w, None) => (w, None)
  end.
Definition panic {A} : M A := λ w, (w, None).
Definition get : M World := λ w, (w, Some w).
Definition modify (f : World → World) : M unit := λ w, (f w, Some tt).
(** A field of the actor, and a change of the actor. *)
Definition self {A} (f : Actor → A) : M A := λ w, (w, Some (f (actor w))).
Definition update (f : Actor → Actor) : M unit := modify (λ w, set_actor (f (actor w)) w).

Declare Scope service_scope.
Notation "'let!' x ':=' c 'in' k" := (bind c (λ x, k))
  (at level 10, x pattern, c at level 100, k at level 200) : service_scope.
Notation "c ;; k" := (bind c (λ _, k))
  (at level 100, k at level 200, right associativity) : service_scope.
Open Scope service_scope.

Definition when (b : bool) (m : M unit) : M unit := if b then m else ret tt.

Fixpoint for_each {A} (l : list A) (body : A → M unit) : M unit :=
  match l with [] => ret tt | x :: l => body x ;; for_each l body end.

Definition update_live (f : LiveOperationSnapshot → LiveOperationSnapshot) : M unit :=
  update (λ a, set_live (f (live a)) a).
Definition update_feed (f : FrontendFeed → FrontendFeed) : M unit :=
  update (λ a, set_feed_end (f (feed_end a)) a).
Definition update_snapshot (f : SnapshotState → SnapshotState) : M unit :=
  update (λ a, set_snapshot (f (snapshot a)) a).

(** error.rs of the runtime: [message]. *)
Definition admission_message (error : coordinator.AdmissionError) : string :=
  match error with
  | coordinator.AdmQueueFull => "runtime operation queue is full"
  | coordinator.AdmBackpressured => "runtime command channel is full"
  | coordinator.AdmShuttingDown => "runtime is shutting down"
  | coordinator.AdmRuntimeStopped => "runtime epoch has ended"
  end.

Definition maintenance_message (error : coordinator.MaintenanceError) : string :=
  match error with
  | coordinator.MaintUnavailable _ => "runtime is not available for compaction"
  | coordinator.MaintBackpressured => "runtime command channel is full"
  | coordinator.MaintShuttingDown => "runtime is shutting down"
  | coordinator.MaintRuntimeStopped => "runtime epoch has ended"
  end.

Section handlers.
Context `{Build, Outside, service_mapping.ToolPorts, ServiceOrders, DebugSessionError, DebugReport}.

Definition debug_assert (b : bool) : M unit :=
  if overflow_checks && negb b then panic else ret tt.

(** One question to the outside. *)
Definition ask {A} (question : nat → A) : M A :=
  let! w := get in modify (set_reads (S (reads w))) ;; ret (question (reads w)).

(** ** mod.rs: emission *)

(** The snapshot of an update carries the revision and the epoch of its envelope. *)
Definition stamp (revision : FrontendRevision) (epoch : FrontendEpoch) (kind : FrontendUpdateKind)
    : FrontendUpdateKind :=
  match kind with
  | SnapshotReady s =>
      SnapshotReady
        {| fsn_epoch := epoch; fsn_revision := revision;
           fsn_current_session_id := fsn_current_session_id s;
           fsn_durable_session_view := fsn_durable_session_view s; fsn_live := fsn_live s;
           fsn_queued := fsn_queued s; fsn_maintenance := fsn_maintenance s;
           fsn_availability := fsn_availability s; fsn_generation := fsn_generation s;
           fsn_usage := fsn_usage s; fsn_pending_confirmations := fsn_pending_confirmations s;
           fsn_config_notices := fsn_config_notices s; fsn_health := fsn_health s |}
  | kind => kind
  end.

Definition emit_result (request_id : option FrontendRequestId) (kind : FrontendUpdateKind)
    : M FeedPush :=
  update (λ a, set_revision (bump (revision a)) a) ;;
  let! a := self id in
  let u := {| up_epoch := epoch a; up_revision := revision a; up_request_id := request_id;
              up_kind := stamp (revision a) (epoch a) kind |} in
  let '(f, result) := push u (feed_end a) in
  update (set_feed_end f) ;;
  update_feed (flush_resync (epoch a) (revision a)) ;;
  ret result.

Definition emit (request_id : option FrontendRequestId) (kind : FrontendUpdateKind) : M unit :=
  let! result := emit_result request_id kind in
  when (result == PushBackpressured) (update_feed force_resync).

Definition reject (request_id : FrontendRequestId) (reason : CommandReject) : M unit :=
  emit (Some request_id) (CommandRejected reason).

Definition reject_child_capacity (request_id : FrontendRequestId) : M unit :=
  reject request_id ChildCapacity.
Definition reject_not_accepting (request_id : FrontendRequestId) : M unit :=
  reject request_id NotAccepting.

Definition notice (text : string) : M unit :=
  update (λ a,
    let notices := notices a ++ [text] in
    set_notices (if bool_decide (8 < length notices) then tail notices else notices) a).

(** The repeated flush at the end of every turn of [run]. *)
Definition flush : M unit :=
  update_feed flush_pending_critical ;;
  update (λ a, set_feed_end (flush_resync (epoch a) (revision a) (feed_end a)) a).

Definition emit_health : M unit :=
  let! health := self health in emit None (ServiceHealthChanged health).

Definition emit_availability : M unit :=
  let! a := self id in
  emit None (AvailabilityChanged (availability a) (length (queued a))).

Definition emit_maintenance : M unit :=
  let! maintenance := self maintenance in
  match maintenance with Some m => emit None (MaintenanceChanged m) | None => ret tt end.

(** ** mod.rs: small parts *)

Definition should_stop (a : Actor) : bool := shutdown a == Stopped.
Definition is_accepting_work (a : Actor) : bool :=
  (shutdown a == Running) && negb (runtime_closed a).
Definition can_spawn_work (a : Actor) : bool :=
  bool_decide (length (child_tasks a) < STORE_COMMAND_CAP).

Definition current_lease_generation (a : Actor) : option FrontendLeaseGeneration :=
  active_generation <$> attached a.

(** [JoinSet::spawn] hands out a fresh id. *)
Definition spawn_child (request_id : option FrontendRequestId) (task : ServiceTask) : M unit :=
  let! w := get in
  let child := {| child_id := tasks_spawned w; child_task := task; child_end := None |} in
  modify (set_tasks_spawned (S (tasks_spawned w))) ;;
  update (λ a, set_child_tasks (child_tasks a ++ [child])
    (set_child_requests (<[tasks_spawned w := request_id]> (child_requests a)) a)).

Definition spawn_work (request_id : FrontendRequestId) (task : ServiceTask) : M bool :=
  let! free := self can_spawn_work in
  if free then spawn_child (Some request_id) task ;; ret true
  else reject request_id ChildCapacity ;; ret false.

(** [session_generation]: the generation bound to a session. *)
Definition session_generation (session_id : string) : M Generation :=
  let! cache := self session_generations in
  let '(cache, found) := cache_get session_id cache in
  update (set_session_generations cache) ;;
  match found with
  | Some g => ret g
  | None =>
      let! cell := self generation_cell in
      update (set_session_generations (cache_put session_id (current cell) cache)) ;;
      ret (current cell)
  end.

(** A method of the confirmation map; what it answers is sent. *)
Definition with_confirmations {A} (f : ConfirmationMap → ConfirmationMap * Answers * A) : M A :=
  let! map := self confirmations in
  let '(map, sent, result) := f map in
  update (set_confirmations map) ;;
  modify (λ w, set_answers (answers w ++ sent) w) ;;
  ret result.

Definition emit_denied (ids : list Z) : M unit :=
  for_each ids (λ id, emit None (ConfirmationResolved id Deny)).

Definition deny_all_confirmations : M unit :=
  let! ids := with_confirmations deny_all in emit_denied ids.

Definition deny_generation_confirmations (generation : FrontendLeaseGeneration) : M nat :=
  let! ids := with_confirmations (deny_for_generation generation) in
  emit_denied ids ;; ret (length ids).

Definition clear_active_frontend : M nat :=
  let! attached := self attached in
  match attached with
  | None => ret 0
  | Some active =>
      update (set_attached None) ;; deny_generation_confirmations (active_generation active)
  end.

(** ** snapshot.rs: views and snapshots *)

Definition live_accepts_agent_events (a : Actor) : bool :=
  live_belongs_to_current (live_operation_id (live a)) (snapshot a).

Definition filter_live_for_current (a : Actor) (l : LiveOperationSnapshot)
    : LiveOperationSnapshot :=
  if live_belongs_to_current (live_operation_id l) (snapshot a) then l else live_new.

Definition live_for_snapshot (a : Actor) (view : session.SessionContextView)
    : LiveOperationSnapshot :=
  let l := filter_live_for_current a (live a) in
  if service_mapping.session_view_covers_live view l then live_settle l else l.

Definition drop_foreign_live : M unit :=
  let! a := self id in
  when (negb (live_accepts_agent_events a)) (update_live (λ _, live_new)).

(** The text of [compose_snapshot] after its [debug_assert]. *)
Definition composed (a : Actor) (durable : option DurableSessionView) (l : LiveOperationSnapshot)
    : FrontendSnapshot :=
  let l := filter_live_for_current a l in
  {| fsn_epoch := epoch a; fsn_revision := revision a;
     fsn_current_session_id := current_session (snapshot a);
     fsn_durable_session_view := durable; fsn_live := l; fsn_queued := queued a;
     fsn_maintenance := maintenance a; fsn_availability := availability a;
     fsn_generation := service_mapping.frontend_generation (current (generation_cell a));
     fsn_usage := live_usage l;
     fsn_pending_confirmations := confirmation_views (confirmations a);
     fsn_config_notices := notices a; fsn_health := health a |}.

Definition compose_snapshot (durable : option DurableSessionView) (l : LiveOperationSnapshot)
    : M FrontendSnapshot :=
  let! a := self id in
  debug_assert (session.is_some durable || negb (session.is_some (current_session (snapshot a)))) ;;
  ret (composed a durable l).

Definition emit_snapshot (request_id : option FrontendRequestId) (s : FrontendSnapshot) : M unit :=
  let! result := emit_result request_id (SnapshotReady s) in
  update_feed (on_snapshot_ready result).

Definition map_view (view : session.SessionContextView) : M DurableSessionView :=
  let! models := ask list_models in
  ret (service_mapping.durable_session_view view (service_mapping.model_display_lookup models)).

Definition capture (request_id : option FrontendRequestId) (session_id : string) (a : Actor)
    : SnapshotLoadToken :=
  capture_token session_id request_id (epoch a) (live_cursor a) (live_operation_id (live a))
    (live_turn_id (live a)) (snapshot a).

Definition spawn_view (request_id : FrontendRequestId) (kind : ViewKind) (session_id : string)
    : M bool :=
  let! epoch := self epoch in
  spawn_work request_id (TaskStoreView request_id epoch kind session_id).

Definition cancel_reply (request_id : option FrontendRequestId) : M unit :=
  match request_id with Some id => update_feed (cancel_request id) | None => ret tt end.

Definition spawn_tracked_view (request_id : option FrontendRequestId) (kind : SessionViewKind)
    (session_id : string) : M unit :=
  let p := {| reload_session_id := session_id; reload_kind := kind;
              reload_request_id := request_id |} in
  let! s := self snapshot in
  let '(s, (started, superseded)) := begin_inflight p s in
  update (set_snapshot s) ;;
  when (superseded != request_id) (cancel_reply superseded) ;;
  when started (
    let! free := self can_spawn_work in
    if negb free then
      update_snapshot (λ s, (end_inflight session_id s).1) ;;
      when (kind == KindLoad) (update_snapshot (clear_pending_load_if session_id)) ;;
      match request_id with Some id => reject_child_capacity id | None => ret tt end
    else
      let! a := self id in
      let token := capture request_id session_id a in
      let view_kind := match kind with
                       | KindLoad => ViewLoad token
                       | KindSnapshot => ViewSnapshot token
                       end in
      spawn_view (default INVALID request_id) view_kind session_id ;; ret tt).

Definition begin_fenced_snapshot (request_id : option FrontendRequestId) : M unit :=
  update_snapshot bump_generation ;;
  update (set_latest_snapshot request_id) ;;
  let! a := self id in
  match current_session (snapshot a) with
  | Some session_id =>
      update_snapshot (reset_reload_attempts session_id) ;;
      spawn_tracked_view request_id KindSnapshot session_id
  | None =>
      let! s := compose_snapshot None (live a) in emit_snapshot request_id s
  end.

(** What [schedule_reload] says when the reload limit is reached. *)
Definition reload_limit_text (kind : SessionViewKind) (session_id : string) : string :=
  match kind with
  | KindLoad => "session load reload limit reached for "
  | KindSnapshot => "snapshot reload limit reached for "
  end +:+ session_id.

Definition schedule_reload (p : PendingReload) : M unit :=
  let! a := self id in
  if negb (is_accepting_work a) then cancel_reply (reload_request_id p)
  else
    let allowed := match reload_kind p with
                   | KindLoad => pending_load_is (reload_session_id p) (snapshot a)
                   | KindSnapshot => is_current_session (reload_session_id p) (snapshot a)
                   end in
    if negb allowed then cancel_reply (reload_request_id p)
    else
      let '(s, begun) := begin_reload_attempt (reload_session_id p) (snapshot a) in
      update (set_snapshot s) ;;
      if negb begun then
        notice ("snapshot reload limit reached for session " +:+ reload_session_id p) ;;
        when (reload_kind p == KindLoad)
          (update_snapshot (clear_pending_load_if (reload_session_id p))) ;;
        match reload_request_id p with
        | Some id =>
            reject id (InvalidInput (reload_limit_text (reload_kind p) (reload_session_id p)))
        | None => ret tt
        end
      else
        update_snapshot bump_generation ;;
        spawn_tracked_view (reload_request_id p) (reload_kind p) (reload_session_id p).

Definition maybe_schedule_pending (p : option PendingReload) : M unit :=
  match p with Some p => schedule_reload p | None => ret tt end.

Definition snapshot_live_stale (token : SnapshotLoadToken) : M bool :=
  let! a := self id in
  debug_assert (token_live_cursor token <=? live_cursor a)%Z ;;
  ret (live_projection_stale token (live_cursor a) (live_operation_id (live a))
         (live_turn_id (live a))).

(** The checks of [evaluate_token] before the session's floor. *)
Definition token_gate (a : Actor) (token : SnapshotLoadToken) (kind : SessionViewKind)
    : option TokenDecision :=
  let generation_moved := negb (token_generation token =? load_generation (snapshot a))%Z in
  if negb (token_epoch token =? epoch a)%Z then Some Drop
  else
    match kind with
    | KindLoad =>
        if negb (pending_load_is (token_session_id token) (snapshot a)) then Some Drop
        else if generation_moved then Some Reload else None
    | KindSnapshot =>
        if generation_moved || negb (is_current_session (token_session_id token) (snapshot a))
        then Some Drop
        else if latest_snapshot a != token_request_id token then Some Drop else None
    end.

Definition evaluate_token (token : SnapshotLoadToken) (view_revision : Z) (kind : SessionViewKind)
    : M TokenDecision :=
  let! a := self id in
  match token_gate a token kind with
  | Some decision => ret decision
  | None =>
      let required := required_for (token_session_id token) (snapshot a) in
      debug_assert (requested_floor token <=? required)%Z ;;
      if (view_revision <? required)%Z then ret Reload
      else if (view_revision <? published_for (token_session_id token) (snapshot a))%Z then ret Drop
      else
        match kind with
        | KindLoad => ret Publish
        | KindSnapshot =>
            let! stale := snapshot_live_stale token in ret (if stale then Reload else Publish)
        end
  end.

Definition publish_session_view (token : SnapshotLoadToken) (view : session.SessionContextView)
    (kind : SessionViewKind) : M unit :=
  let session_id := token_session_id token in
  update_snapshot (note_published session_id (Z.of_nat (session.view_revision view))) ;;
  update_snapshot (reset_reload_attempts session_id) ;;
  match kind with
  | KindLoad =>
      update_snapshot (commit_current session_id) ;;
      drop_foreign_live ;;
      session_generation session_id ;;
      let! durable := map_view view in
      emit (token_request_id token) (SessionLoaded session_id durable)
  | KindSnapshot =>
      let! durable := map_view view in
      let! a := self id in
      let! s := compose_snapshot (Some durable) (live_for_snapshot a view) in
      emit_snapshot (token_request_id token) s
  end.

Definition finish_session_view (token : SnapshotLoadToken) (view : session.SessionContextView)
    (kind : SessionViewKind) (p : option PendingReload) : M unit :=
  let! decision := evaluate_token token (Z.of_nat (session.view_revision view)) kind in
  match decision with
  | Drop =>
      when (token_request_id token != (p ≫= reload_request_id))
        (cancel_reply (token_request_id token)) ;;
      maybe_schedule_pending p
  | Reload =>
      let! s := self snapshot in
      let again kind := {| reload_session_id := token_session_id token; reload_kind := kind;
                           reload_request_id := token_request_id token |} in
      schedule_reload
        (if (kind == KindLoad) && pending_load_is (token_session_id token) s then again KindLoad
         else default (again kind) p)
  | Publish => publish_session_view token view kind ;; maybe_schedule_pending p
  end.

Definition tracked_token (kind : ViewKind) : option SnapshotLoadToken :=
  match kind with ViewSnapshot token | ViewLoad token => Some token | ViewPreview _ => None end.

Definition handle_store_view (request_id : FrontendRequestId) (task_epoch : FrontendEpoch)
    (kind : ViewKind) (session_id : string)
    (result : Result session.SessionContextView string) : M unit :=
  let! s := self snapshot in
  let '(s, p) := match tracked_token kind with
                 | Some token => end_inflight (token_session_id token) s
                 | None => (s, None)
                 end in
  update (set_snapshot s) ;;
  let! a := self id in
  if negb (task_epoch =? epoch a)%Z then update_feed (cancel_request request_id)
  else
    match result with
    | inl reason =>
        reject request_id (InvalidInput reason) ;;
        match kind with
        | ViewLoad token => update_snapshot (clear_pending_load_if (token_session_id token))
        | _ => maybe_schedule_pending p
        end
    | inr view =>
        match kind with
        | ViewSnapshot token => finish_session_view token view KindSnapshot p
        | ViewLoad token => finish_session_view token view KindLoad p
        | ViewPreview request_generation =>
            let stale := match latest_preview a with
                         | Some (latest_id, latest_gen) =>
                             (request_id <? latest_id)%Z || (request_generation <? latest_gen)%Z
                         | None => false
                         end in
            if stale then update_feed (cancel_request request_id)
            else
              let! durable := map_view view in
              emit (Some request_id) (SessionPreviewed session_id durable)
        end
    end.

Definition handle_request_snapshot (request_id : FrontendRequestId) : M unit :=
  let! a := self id in
  if negb (is_accepting_work a) then reject_not_accepting request_id
  else begin_fenced_snapshot (Some request_id).

Definition handle_preview_session (request_id : FrontendRequestId) (session_id : string)
    (request_generation : Z) : M unit :=
  let! a := self id in
  if negb (is_accepting_work a) then reject_not_accepting request_id
  else if negb (can_spawn_work a) then reject_child_capacity request_id
  else
    update (set_latest_preview (Some (request_id, request_generation))) ;;
    emit (Some request_id) CommandAccepted ;;
    spawn_view request_id (ViewPreview request_generation) session_id ;; ret tt.

Definition start_session_load (request_id : FrontendRequestId) (session_id : string) : M unit :=
  update_snapshot (begin_pending_load session_id) ;;
  spawn_tracked_view (Some request_id) KindLoad session_id.

(** ** snapshot.rs: settlements and runtime snapshots *)

Definition apply_operation_settled (operation_id session_id : string)
    (durability : SettlementDurability) (session_revision : SettlementRevision) : M bool :=
  let! s := self snapshot in
  let '(s, result) := apply_settled operation_id session_id durability session_revision s in
  update (set_snapshot s) ;;
  match result with
  | Applied => ret true
  | ProtocolError message =>
      notice message ;;
      update (set_health (Degraded message)) ;;
      emit_health ;;
      ret false
  end.

Definition request_runtime_snapshot : M unit :=
  let! a := self id in
  when (negb (runtime_snapshot_inflight a || negb (can_spawn_work a))) (
    update (set_runtime_snapshot_inflight true) ;;
    spawn_child None (TaskRuntimeSnapshot (epoch a))).

Definition on_subscription_lagged : M unit :=
  update_live live_mark_lagged ;;
  update_feed force_resync ;;
  request_runtime_snapshot.

Definition queued_summary (q : QueuedOperationSnapshot) : QueuedOperationSummary :=
  {| qs_operation_id := queued_operation_id q; qs_session_id := queued_session_id q |}.

Definition started_maintenance (m : MaintenanceSnapshot) : FrontendMaintenance :=
  {| fm_id := maintenance_id m; fm_phase := PhaseStarted; fm_message := None |}.

Definition apply_runtime_snapshot (s : RuntimeSnapshot) : M bool :=
  let! a := self id in
  if (runtime_revision s <? applied_runtime_snapshot_revision a)%Z then ret false
  else
    update (set_applied_runtime_snapshot_revision (runtime_revision s)) ;;
    update (set_live_cursor (bump (live_cursor a))) ;;
    update (set_availability (service_mapping.availability (snapshot_availability s))) ;;
    update (set_queued (queued_summary <$> snapshot_queued s)) ;;
    update (set_maintenance (started_maintenance <$> snapshot_maintenance s)) ;;
    let! a := self id in
    match snapshot_active s with
    | Some active =>
        when (is_current_session (active_session_id active) (snapshot a)) (
          update_snapshot
            (note_accepted (runtime.active_operation_id active) (active_session_id active)) ;;
          update_live (live_start_operation (runtime.active_operation_id active)) ;;
          update_live (live_start_turn (runtime.active_turn_id active)))
    | None =>
        match availability a with
        | FrontBusy operation_id =>
            when (live_belongs_to_current (Some operation_id) (snapshot a)
                  && (live_operation_id (live a) != Some operation_id))
              (update_live (live_start_operation operation_id))
        | _ => ret tt
        end
    end ;;
    drop_foreign_live ;;
    ret true.

Definition handle_runtime_snapshot (task_epoch : FrontendEpoch) (s : RuntimeSnapshot) : M unit :=
  update (set_runtime_snapshot_inflight false) ;;
  let! a := self id in
  when (task_epoch =? epoch a)%Z (
    let! applied := apply_runtime_snapshot s in
    let! a := self id in
    if is_resyncing (feed_end a) then begin_fenced_snapshot (latest_snapshot a)
    else when applied emit_availability).

(** ** catalog.rs *)

Definition handle_list_sessions (request_id : FrontendRequestId) : M unit :=
  let! a := self id in
  if negb (is_accepting_work a) then reject_not_accepting request_id
  else if negb (can_spawn_work a) then reject_child_capacity request_id
  else spawn_work request_id (TaskListSessions request_id (epoch a)) ;; ret tt.

Definition handle_list_sessions_result (request_id : FrontendRequestId)
    (task_epoch : FrontendEpoch)
    (result : Result (list store.SessionSummary) session.SessionError) : M unit :=
  let! a := self id in
  if negb (task_epoch =? epoch a)%Z then update_feed (cancel_request request_id)
  else
    match result with
    | inr durable =>
        emit (Some request_id)
          (SessionListLoaded (catalog.compose_session_catalog durable
             (current_session (snapshot a)) (pending_load_session (snapshot a))))
    | inl error => reject request_id (InvalidInput (catalog.catalog_error_reason error))
    end.

Definition handle_rename_session (request_id : FrontendRequestId) (session_id title : string)
    : M unit :=
  let! a := self id in
  if negb (is_accepting_work a) then reject_not_accepting request_id
  else if str_is_empty (trim title) then
    reject request_id (InvalidInput "session title must not be empty")
  else if negb (can_spawn_work a) then reject_child_capacity request_id
  else
    spawn_work request_id (TaskRenameSession request_id (epoch a) session_id (trim title)) ;;
    ret tt.

Definition handle_load_session (request_id : FrontendRequestId) (session_id : string) : M unit :=
  let! a := self id in
  if negb (is_accepting_work a) then reject_not_accepting request_id
  else if negb (can_spawn_work a) then reject_child_capacity request_id
  else start_session_load request_id session_id.

Definition handle_create_session (request_id : FrontendRequestId) : M unit :=
  let! a := self id in
  if negb (is_accepting_work a) then reject_not_accepting request_id
  else if negb (can_spawn_work a) then reject_child_capacity request_id
  else
    update (set_session_seq (session_seq a + 1)%Z) ;;
    let! millis := ask system_time in
    start_session_load request_id
      (catalog.mint_session_id process_id (session_seq a + 1) (session_nonce a) (Z.max 0 millis)).

(** ** commands.rs *)

Definition handle_submit (request_id : FrontendRequestId) (draft : string)
    (attachments : list FrontendAttachment) : M unit :=
  let! a := self id in
  if negb (is_accepting_work a) then reject_not_accepting request_id
  else if has_pending_load (snapshot a) then reject request_id NoCurrentSession
  else if negb (can_spawn_work a) then reject_child_capacity request_id
  else
    match current_session (snapshot a) with
    | None => reject request_id NoCurrentSession
    | Some session_id =>
        let! session_gen := session_generation session_id in
        if negb (is_nil attachments) && negb (image_input (gen_display (frozen session_gen))) then
          reject request_id
            (InvalidInput ("model '" +:+ model_name (gen_display (frozen session_gen))
                           +:+ "' does not accept image attachments"))
        else
          match service_mapping.user_message draft attachments with
          | Ok message =>
              let spec :=
                {| coordinator.spec_session_id := session_id;
                   coordinator.user_message := message;
                   coordinator.spec_generation := frozen session_gen;
                   coordinator.service_request_id := Some (display request_id) |} in
              spawn_work request_id (TaskSubmit request_id (epoch a) spec) ;; ret tt
          | Err reason => reject request_id (InvalidInput reason)
          | Panic => panic
          end
    end.

Definition handle_set_reasoning (request_id : FrontendRequestId)
    (effort : FrontendReasoningEffort) : M unit :=
  let! s := self snapshot in
  match current_session s with
  | None => reject request_id NoCurrentSession
  | Some session_id =>
      let! current := session_generation session_id in
      let! cell := self generation_cell in
      let '(cell, next) :=
        install_reasoning_for (service_mapping.reasoning_effort effort) current cell in
      update (set_generation_cell cell) ;;
      update (λ a, set_session_generations
                (cache_put session_id next (session_generations a)) a) ;;
      emit (Some request_id) (GenerationInstalled (service_mapping.frontend_generation next))
  end.

Definition handle_confirmation_submit (submit : ConfirmationSubmit) : M unit :=
  let! generation := self current_lease_generation in
  let! result := with_confirmations (confirmation_insert submit generation) in
  match result with
  | Ok (confirmation_id, request) =>
      emit None (ConfirmationRequested confirmation_id (cr_title request) (cr_body request))
  | _ => ret tt
  end.

Definition handle_list_models (request_id : FrontendRequestId) : M unit :=
  let! cell := self generation_cell in
  let name := model_name (gen_display (frozen (current cell))) in
  let! models := ask list_models in
  emit (Some request_id)
    (ModelListLoaded ((λ entry,
       {| fl_id := ml_id entry; fl_provider := ml_provider entry; fl_model := ml_model entry;
          fl_reasoning_tiers := ml_reasoning_tiers entry;
          fl_current := (ml_id entry == name) || (ml_model entry == name) |}) <$> models)).

Definition handle_install_model (request_id : FrontendRequestId) (name : string)
    (effort : option FrontendReasoningEffort) : M unit :=
  let! a := self id in
  if negb (is_accepting_work a) then reject_not_accepting request_id
  else if negb (can_spawn_work a) then reject_child_capacity request_id
  else
    update (set_generation_cell (note_install request_id (generation_cell a))) ;;
    spawn_work request_id
      (TaskInstall request_id (epoch a)
         {| assemble_name := name;
            assemble_effort := service_mapping.reasoning_effort <$> effort |}) ;;
    ret tt.

Definition handle_install (request_id : FrontendRequestId) (task_epoch : FrontendEpoch)
    (name : string) (result : Result AssembledGeneration AssembleError) : M unit :=
  let! a := self id in
  if negb (task_epoch =? epoch a)%Z then reject request_id NotAccepting
  else
    match result with
    | inr assembled =>
        let '(cell, next) := install_success request_id assembled (generation_cell a) in
        update (set_generation_cell cell) ;;
        match next with
        | Some next =>
            match current_session (snapshot a) with
            | Some session_id =>
                update (λ a, set_session_generations
                          (cache_put session_id next (session_generations a)) a)
            | None => ret tt
            end ;;
            emit (Some request_id)
              (GenerationInstalled (service_mapping.frontend_generation next))
        | None => update_feed (cancel_request request_id)
        end
    | inl error =>
        if install_failure request_id (generation_cell a) then
          notice ("generation install failed: " +:+ assemble_message error) ;;
          emit (Some request_id) (GenerationInstallFailed name (assemble_message error))
        else update_feed (cancel_request request_id)
    end.

Definition debug_cancel_result (result : coordinator.CancelResult) : string :=
  match result with
  | coordinator.Requested => "Requested"
  | coordinator.QueuedCancelled => "QueuedCancelled"
  | coordinator.TooLate => "TooLate"
  | coordinator.AlreadySettled => "AlreadySettled"
  | coordinator.UnknownOperation => "UnknownOperation"
  | coordinator.CancelBackpressured => "Backpressured"
  | coordinator.CancelRuntimeStopped => "RuntimeStopped"
  end.

Definition emit_cancel (request_id : FrontendRequestId) (result : coordinator.CancelResult)
    : M unit :=
  match result with
  | coordinator.Requested | coordinator.QueuedCancelled => emit (Some request_id) CommandAccepted
  | other => reject request_id (CancelRejected (debug_cancel_result other))
  end.

(** The children have to be joined, or were. *)
Definition joining (a : Actor) : bool :=
  match shutdown a with ChildrenJoining | Stopped => true | _ => false end.

Definition spawn_cancel (request_id : FrontendRequestId) (operation_id : string) : M unit :=
  let! a := self id in
  if joining a then reject_not_accepting request_id
  else spawn_work request_id (TaskCancel request_id operation_id) ;; ret tt.

Definition spawn_compaction (request_id : FrontendRequestId) (session_id : string) : M unit :=
  let! a := self id in
  if negb (is_accepting_work a) then reject_not_accepting request_id
  else
    let! g := session_generation session_id in
    spawn_work request_id
      (TaskCompaction request_id
         {| coordinator.compaction_session_id := session_id;
            coordinator.compaction_generation := frozen g |}) ;;
    ret tt.

Definition spawn_cancel_maintenance (request_id : FrontendRequestId) (maintenance_id : string)
    : M unit :=
  let! a := self id in
  if joining a then reject_not_accepting request_id
  else spawn_work request_id (TaskCancelMaintenance request_id maintenance_id) ;; ret tt.

(** ** mod.rs: leases and shutdown *)

Definition attach_lease (frontend_id : FrontendInstanceId) : M (Result FrontendLease AttachError) :=
  let! a := self id in
  if shutdown a != Running then ret (inl AttachDisconnected)
  else
    match attached a with
    | Some active =>
        if active_id active == frontend_id then ret (inl AlreadyAttached)
        else ret (inl (FrontendOccupied (active_id active)))
    | None =>
        let generation := next_lease_generation a in
        update (set_next_lease_generation (bump generation)) ;;
        update (set_attached (Some {| active_id := frontend_id; active_generation := generation |})) ;;
        update (set_health HealthOk) ;;
        emit_health ;;
        ret (inr {| lease_frontend_id := frontend_id; lease_generation := generation |})
    end.

Definition detach_lease (lease : FrontendLease) : M (Result DetachReport DetachError) :=
  let! attached := self attached in
  let held := match attached with
              | Some active => (active_id active == lease_frontend_id lease)
                               && (active_generation active =? lease_generation lease)%Z
              | None => false
              end in
  if held then
    let! denied := clear_active_frontend in
    ret (inr {| report_frontend_id := lease_frontend_id lease;
                report_generation := lease_generation lease; denied_confirmations := denied |})
  else ret (inl StaleLease).

Definition spawn_shutdown (mode : epoch.ShutdownMode) (deadline : Z) : M unit :=
  let! now := ask instant in
  let late := (deadline <=? now)%Z in
  spawn_child None
    (TaskShutdown (if late then epoch.Forced else mode) (if late then now + 50 else deadline)%Z).

Definition begin_host_shutdown (request_id : option FrontendRequestId) (deadline : Z)
    (allow_forced_upgrade : bool) : M unit :=
  let! state := self shutdown in
  match state with
  | Running =>
      update (set_shutdown StopAccepting) ;;
      update (set_health ShuttingDown) ;;
      let! denied := clear_active_frontend in
      when (denied == 0) deny_all_confirmations ;;
      emit request_id (ServiceHealthChanged ShuttingDown) ;;
      let! now := ask instant in
      spawn_shutdown (if (deadline <=? now)%Z then epoch.Forced else epoch.Drain) deadline ;;
      update (set_shutdown RuntimeDraining)
  | Stopped =>
      match request_id with Some id => reject id NotAccepting | None => ret tt end
  | _ =>
      when allow_forced_upgrade (spawn_shutdown epoch.Forced deadline) ;;
      match request_id with Some id => emit (Some id) CommandAccepted | None => ret tt end
  end.

Definition handle_shutdown_requested (request_id : FrontendRequestId) : M unit :=
  let! now := ask instant in
  begin_host_shutdown (Some request_id) (now + 30000)%Z false.

Definition handle_supervisor (command : SupervisorCommand) (deadline : Z) : M unit :=
  let! reply :=
    match command with
    | AttachFrontend id => let! r := attach_lease id in ret (ReplyAttach r)
    | DetachFrontend lease => let! r := detach_lease lease in ret (ReplyDetach r)
    | SupervisorShutdown _ => begin_host_shutdown None deadline true ;; ret ReplyShutdown
    end in
  modify (λ w, set_supervisor_replies (supervisor_replies w ++ [reply]) w).

Definition respond_confirmation (request_id : FrontendRequestId) (confirmation_id : Z)
    (decision : ConfirmationDecision) : M unit :=
  let! current := self current_lease_generation in
  let! answered := with_confirmations (confirmation_respond confirmation_id decision current) in
  match answered with
  | Some decision => emit (Some request_id) (ConfirmationResolved confirmation_id decision)
  | None => reject request_id UnknownConfirmation
  end.

Definition read_config (request_id : FrontendRequestId) : M unit :=
  let! cell := self generation_cell in
  emit (Some request_id) (ConfigChanged (service_mapping.config_entries (current cell))).

Definition read_status (request_id : FrontendRequestId) : M unit :=
  let! a := self id in
  emit (Some request_id)
    (StatusReady (service_mapping.status (current (generation_cell a)) (availability a)
                    (length (queued a)))).

Definition handle_command (e : CommandEnvelope) : M unit :=
  let request_id := envelope_request_id e in
  match envelope_command e with
  | Submit draft attachments => handle_submit request_id draft attachments
  | CancelOperation operation_id => spawn_cancel request_id operation_id
  | StartCompaction session_id => spawn_compaction request_id session_id
  | CancelMaintenance maintenance_id => spawn_cancel_maintenance request_id maintenance_id
  | ListSessions => handle_list_sessions request_id
  | ListModels => handle_list_models request_id
  | RenameSession session_id title => handle_rename_session request_id session_id title
  | LoadSession session_id => handle_load_session request_id session_id
  | PreviewSession session_id request_generation =>
      handle_preview_session request_id session_id request_generation
  | CreateSession => handle_create_session request_id
  | InstallModel name effort => handle_install_model request_id name effort
  | SetReasoning effort => handle_set_reasoning request_id effort
  | ReadConfig => read_config request_id
  | ReadStatus => read_status request_id
  | RespondConfirmation confirmation_id decision =>
      respond_confirmation request_id confirmation_id decision
  | RequestSnapshot _ => handle_request_snapshot request_id
  | ShutdownRequested => handle_shutdown_requested request_id
  end.

(** ** mod.rs: the ends of child tasks *)

Definition debug_shutdown_state (s : ShutdownState) : string :=
  match s with
  | StateRunning => "Running" | StateDraining => "Draining" | StateForced => "Forced"
  | StateStopped => "Stopped"
  end.

(** A failed shutdown of the runtime leaves a notice and a degraded health. *)
Definition shutdown_failed (message : string) : M unit :=
  update (set_health (Degraded message)) ;; notice message.

Definition on_runtime_shutdown_finished (result : Result ShutdownReport ShutdownError) : M unit :=
  match result with
  | inr report =>
      match final_state report with
      | StateStopped => ret tt
      | state => notice ("runtime shutdown ended in " +:+ debug_shutdown_state state)
      end
  | inl (DeadlineExceeded pending) =>
      shutdown_failed ("runtime shutdown deadline exceeded: " +:+ join "," pending)
  | inl RuntimeGone => shutdown_failed "runtime shutdown failed: RuntimeGone"
  | inl SupervisorPanicked => shutdown_failed "runtime shutdown failed: SupervisorPanicked"
  end ;;
  update (λ a, match shutdown a with
               | StopAccepting | RuntimeDraining => set_shutdown ChildrenJoining a
               | _ => a
               end).

Definition finish_if_children_idle : M unit :=
  update (λ a, if (shutdown a == ChildrenJoining) && is_nil (child_tasks a)
               then set_shutdown Stopped a else a).

Definition handle_submit_result (request_id : FrontendRequestId) (task_epoch : FrontendEpoch)
    (result : Result coordinator.OperationAccepted coordinator.AdmissionError) : M unit :=
  let! a := self id in
  if negb (task_epoch =? epoch a)%Z then reject_not_accepting request_id
  else
    match result with
    | inr accepted =>
        emit (Some request_id)
          (SubmitAccepted (coordinator.accepted_operation_id accepted)
             (coordinator.accepted_turn_id accepted))
    | inl error => reject request_id (AdmissionFailed (admission_message error))
    end.

Definition handle_rename_result (request_id : FrontendRequestId) (task_epoch : FrontendEpoch)
    (result : Result unit string) : M unit :=
  let! a := self id in
  if negb (task_epoch =? epoch a)%Z then update_feed (cancel_request request_id)
  else
    match result with
    | inr _ => emit (Some request_id) CommandAccepted
    | inl reason => reject request_id (InvalidInput reason)
    end.

Definition handle_compaction_result (request_id : FrontendRequestId)
    (result : Result MaintenanceId coordinator.MaintenanceError) : M unit :=
  match result with
  | inr id => emit (Some request_id) (CompactionAccepted id)
  | inl error => reject request_id (AdmissionFailed (maintenance_message error))
  end.

Definition handle_task_result (result : ServiceTaskResult) : M unit :=
  match result with
  | ResStoreView request_id task_epoch kind session_id result =>
      handle_store_view request_id task_epoch kind session_id result
  | ResInstall request_id task_epoch name result => handle_install request_id task_epoch name result
  | ResSubmit request_id task_epoch result => handle_submit_result request_id task_epoch result
  | ResCancel request_id result | ResCancelMaintenance request_id result =>
      emit_cancel request_id result
  | ResCompaction request_id result => handle_compaction_result request_id result
  | ResShutdown result => on_runtime_shutdown_finished result
  | ResRuntimeSnapshot task_epoch s => handle_runtime_snapshot task_epoch s
  | ResListSessions request_id task_epoch result =>
      handle_list_sessions_result request_id task_epoch result
  | ResRenameSession request_id task_epoch result =>
      handle_rename_result request_id task_epoch result
  end ;;
  finish_if_children_idle.

Definition PANICKED : string := "service child task panicked".

Definition on_child_join_error (request_id : option FrontendRequestId) : M unit :=
  notice PANICKED ;;
  match request_id with
  | Some id => reject id (AdmissionFailed PANICKED)
  | None => ret tt
  end ;;
  let! state := self shutdown in
  match state with
  | StopAccepting | RuntimeDraining => on_runtime_shutdown_finished (inl SupervisorPanicked)
  | _ => ret tt
  end ;;
  finish_if_children_idle.

(** [join_next_with_id]: the child is taken out of the set; one that panicked
    comes back as a [JoinError]. *)
Definition join_child (child : nat) : M unit :=
  let! a := self id in
  match find_map (λ c, if child_id c == child then child_end c else None) (child_tasks a) with
  | None => ret tt
  | Some ended =>
      update (set_child_tasks (filter (λ c, child_id c ≠ child) (child_tasks a))) ;;
      update (set_child_requests (delete child (child_requests a))) ;;
      match ended with
      | Some result => handle_task_result result
      | None => on_child_join_error (child_requests a !! child ≫= id)
      end
  end.

(** ** mod.rs: runtime events *)

(** The queue of at most [RUNTIME_QUEUE_MAX] operations. *)
Definition push_queued (item : QueuedOperationSummary) : M unit :=
  update (λ a, set_queued (queued a ++ [item]) a).

Definition on_operation_queued (operation_id : OperationId) : M unit :=
  let! a := self id in
  when (bool_decide (RUNTIME_QUEUE_MAX ≤ length (queued a))) (
    update (λ a, set_queued (tail (queued a)) a) ;; update_live live_mark_lagged) ;;
  match session_of operation_id (snapshot a) with
  | Some session_id =>
      push_queued {| qs_operation_id := operation_id; qs_session_id := session_id |}
  | None =>
      notice ("queued operation " +:+ operation_id +:+ " has no accepted session") ;;
      push_queued {| qs_operation_id := operation_id; qs_session_id := "" |}
  end.

Definition drop_queued (operation_id : OperationId) : M unit :=
  update (λ a, set_queued (filter (λ item, qs_operation_id item ≠ operation_id) (queued a)) a).

Definition on_operation_started (operation_id : OperationId) : M unit :=
  drop_queued operation_id ;;
  update (set_availability (FrontBusy operation_id)) ;;
  let! s := self snapshot in
  when (live_belongs_to_current (Some operation_id) s)
    (update_live (live_start_operation operation_id)).

(** What a streamed event does to the live projection of the current session. *)
Definition live_step (event : AgentEvent) (l : LiveOperationSnapshot) : LiveOperationSnapshot :=
  match event with
  | EvTurnStarted turn_id => live_start_turn turn_id l
  | EvModelCallStarted model_call_id => live_start_model_call model_call_id l
  | EvTextDelta delta => live_push_text delta l
  | EvReasoningDelta _ text => live_push_reasoning text l
  | EvModelUsageUpdated _ usage => live_set_usage (service_mapping.token_usage usage) l
  | EvToolExecutionProgress tool_batch_id tool_call_id index tail =>
      live_set_tool_progress
        {| lp_tool_batch_id := tool_batch_id; lp_tool_call_id := tool_call_id; lp_index := index;
           lp_tail := tail |} l
  | EvToolExecutionCompleted _ tool_call_id _ _ _ _ => live_complete_tool tool_call_id l
  | _ => l
  end.

Definition handle_agent_event (event : AgentEvent) : M unit :=
  match event with
  | EvOperationQueued operation_id => on_operation_queued operation_id
  | EvOperationStarted operation_id => on_operation_started operation_id
  | event =>
      let! a := self id in when (live_accepts_agent_events a) (update_live (live_step event))
  end ;;
  match service_mapping.operation_event event with
  | Some mapped => emit None (OperationEvent mapped)
  | None => ret tt
  end.

Definition handle_operation_settled (operation_id session_id : string) (status : OperationStatus)
    (durability : SettlementDurability) (session_revision : SettlementRevision) : M unit :=
  let! applied := apply_operation_settled operation_id session_id durability session_revision in
  when applied (
    drop_queued operation_id ;;
    let! denied := with_confirmations (deny_for_operation operation_id) in
    emit_denied denied ;;
    let! a := self id in
    when (live_operation_id (live a) == Some operation_id) (update_live live_settle) ;;
    update (λ a, if is_nil (queued a) && negb (session.is_some (live_operation_id (live a)))
                 then set_availability FrontIdle a else a)) ;;
  emit None (OperationEvent (FeOperationSettled operation_id session_id
    (service_mapping.debug_status status) (service_mapping.debug_durability durability)
    session_revision)) ;;
  let! a := self id in
  if applied then
    when (is_resyncing (feed_end a)) (begin_fenced_snapshot (latest_snapshot a))
  else
    update_feed force_resync ;; update_feed (flush_resync (epoch a) (revision a)).

Definition on_epoch_ended (forced_count : nat) : M unit :=
  update (λ a, set_epoch (bump (epoch a)) a) ;;
  update (set_runtime_closed true) ;;
  update (set_applied_runtime_snapshot_revision 0%Z) ;;
  update_snapshot on_epoch_reset ;;
  update_live (λ _, live_new) ;;
  update (set_queued []) ;;
  update (set_maintenance None) ;;
  update (set_availability FrontIdle) ;;
  deny_all_confirmations ;;
  update (set_health (RuntimeEpochEnded (display_nat forced_count +:+ " forced settlement(s)"))) ;;
  emit_health ;;
  update_feed force_resync ;;
  let! a := self id in
  update_feed (flush_resync (epoch a) (revision a)).

Definition on_runtime_disconnected : M unit :=
  let! closed := self runtime_closed in when (negb closed) (on_epoch_ended 0).

(** How a maintenance task ended: its phase and its message. *)
Definition settled_maintenance (result : MaintenanceResult)
    : FrontendMaintenancePhase * option string :=
  match result with
  | MaintCompacted report => (PhaseSettled, Some (debug_report report))
  | MaintFailed error => (PhaseFailed, Some (compaction_message error))
  | MaintCancelled => (PhaseCancelled, None)
  | MaintPanicked diagnostic_id => (PhaseFailed, Some ("panicked: " +:+ diagnostic_id))
  end.

Definition show_maintenance (id : MaintenanceId) (phase : FrontendMaintenancePhase)
    (message : option string) : M unit :=
  update (set_maintenance (Some {| fm_id := id; fm_phase := phase; fm_message := message |})) ;;
  emit_maintenance.

Definition handle_runtime_event (event : RuntimeEvent) : M unit :=
  update (λ a, set_live_cursor (bump (live_cursor a)) a) ;;
  match event with
  | RtOperationAccepted operation_id session_id turn_id =>
      update_snapshot (note_accepted operation_id session_id) ;;
      let! s := self snapshot in
      when (is_current_session session_id s) (update_live (live_accept operation_id turn_id)) ;;
      emit None (OperationAccepted operation_id session_id turn_id)
  | RtOperationSettled operation_id session_id status durability session_revision =>
      handle_operation_settled operation_id session_id status durability session_revision
  | RtAgent event => handle_agent_event event
  | RtAvailabilityChanged availability _ =>
      update (set_availability (service_mapping.availability availability)) ;;
      emit_availability
  | RtMaintenanceAccepted id _ => show_maintenance id PhaseAccepted None
  | RtMaintenanceStarted id => show_maintenance id PhaseStarted None
  | RtMaintenanceProgress id message => show_maintenance id PhaseProgress (Some message)
  | RtMaintenanceSettled id _ result =>
      let '(phase, message) := settled_maintenance result in
      show_maintenance id phase message ;;
      update (set_maintenance None)
  | RtRuntimeFault diagnostic_id message =>
      update (set_health (Degraded (diagnostic_id +:+ ": " +:+ message))) ;;
      emit_health
  | RtSubscriptionLagged dropped =>
      on_subscription_lagged ;;
      update (set_health (Degraded ("subscription lagged; dropped " +:+ display_nat dropped))) ;;
      emit_health
  | RtEpochEnded _ _ forced_count => on_epoch_ended forced_count
  end.

(** [subscription.try_recv()]. *)
Definition drain_one : M bool :=
  let! w := get in
  match subscription w with
  | event :: rest => modify (set_subscription rest) ;; handle_runtime_event event ;; ret true
  | [] => when (subscription_closed w) on_runtime_disconnected ;; ret false
  end.

Fixpoint drain (budget : nat) : M unit :=
  match budget with
  | 0 => ret tt
  | S budget => let! more := drain_one in when more (drain budget)
  end.

Definition drain_runtime_budget : M unit := drain (RUNTIME_DRIVER_EVENT_BUDGET - 1).

(** The branch of [run] on [subscription.recv()], with its drain. *)
Definition poll_runtime : M unit :=
  let! w := get in
  match subscription w with
  | event :: rest =>
      modify (set_subscription rest) ;; handle_runtime_event event ;; drain_runtime_budget
  | [] => when (subscription_closed w) on_runtime_disconnected
  end.

End handlers.
End service_actor.
