(* ===== verification/ServiceSystem.v ===== *)
(** The agent service at work (src/crates/philo-agent-service/src): the event
    loop of the actor (actor/mod.rs, [run]), the runtime and the child tasks
    beside it, and the handles of the frontend and the supervisor (service.rs,
    frontend/client.rs, frontend/supervisor.rs, confirmation.rs).

    Module [service_system] has a step relation. A turn of the loop is one
    step: [select!] takes a branch that is ready, its handler runs to the end,
    and the feed is flushed. The order that [biased] gives to the branches is
    left open, since a sender may act between two polls. A lane that closed
    ([None]) only disables its branch, which is a step of nobody. *)

From S2P Require Import Prelude RustStr Kernel Session SessionLifecycle SessionContext SessionStore.
From S2P Require Import Tools Runtime RuntimeMapping Operation Outlets Epoch Coordinator.
From S2P Require Import Service ServiceSnapshot ServiceMapping ServiceFeed ServiceActor.
Import runtime service service_snapshot feed service_actor.

Module service_system.

(** ** What a child task may return *)

(** The results of a task's future: whatever the store, the runtime and the
    assembler answer. A runtime snapshot lists no more operations than the
    runtime's queue takes. *)
Definition finishes (task : ServiceTask) (result : ServiceTaskResult) : Prop :=
  match task, result with
  | TaskStoreView r e kind sid, ResStoreView r' e' kind' sid' _ =>
      r = r' ∧ e = e' ∧ kind = kind' ∧ sid = sid'
  | TaskInstall r e request, ResInstall r' e' name _ =>
      r = r' ∧ e = e' ∧ assemble_name request = name
  | TaskSubmit r e _, ResSubmit r' e' _ => r = r' ∧ e = e'
  | TaskCancel r _, ResCancel r' _ => r = r'
  | TaskCompaction r _, ResCompaction r' _ => r = r'
  | TaskCancelMaintenance r _, ResCancelMaintenance r' _ => r = r'
  | TaskShutdown _ _, ResShutdown _ => True
  | TaskRuntimeSnapshot e, ResRuntimeSnapshot e' s =>
      e = e' ∧ length (snapshot_queued s) ≤ RUNTIME_QUEUE_MAX
  | TaskListSessions r e, ResListSessions r' e' _ => r = r' ∧ e = e'
  | TaskRenameSession r e _ _, ResRenameSession r' e' _ => r = r' ∧ e = e'
  | _, _ => False
  end.

(** A child's future returns, or panics. *)
Definition mark_end (child : nat) (ended : option ServiceTaskResult) (c : Child) : Child :=
  if child_id c == child
  then {| child_id := child_id c; child_task := child_task c; child_end := Some ended |}
  else c.
Definition end_child (child : nat) (ended : option ServiceTaskResult) (a : Actor) : Actor :=
  set_child_tasks (mark_end child ended <$> child_tasks a) a.

(** ** The system *)

(** [calls] are the calls of [try_command] and [request_shutdown] that reserved
    their replies and have not sent yet, [holding] the permits that calls of
    [reserve] took and did not keep yet, [over] that the actor is gone. *)
Record System : Type := {
  world : World;
  command_rx : Lane CommandEnvelope;
  control_rx : Lane CommandEnvelope;
  snapshot_rx : Lane CommandEnvelope;
  confirm_rx : Lane ConfirmationSubmit;
  supervisor_rx : Lane (SupervisorCommand * Z);
  next_request : Z;
  next_asker : nat;
  calls : list CommandEnvelope;
  holding : nat;
  receiver : FrontendUpdateReceiver;
  delivered : list FrontendUpdate;
  over : bool
}.

(** Field updates. *)
Definition set_world v (s : System) : System :=
  Build_System v (command_rx s) (control_rx s) (snapshot_rx s) (confirm_rx s) (supervisor_rx s)
    (next_request s) (next_asker s) (calls s) (holding s) (receiver s) (delivered s) (over s).
Definition set_command_rx v (s : System) : System :=
  Build_System (world s) v (control_rx s) (snapshot_rx s) (confirm_rx s) (supervisor_rx s)
    (next_request s) (next_asker s) (calls s) (holding s) (receiver s) (delivered s) (over s).
Definition set_control_rx v (s : System) : System :=
  Build_System (world s) (command_rx s) v (snapshot_rx s) (confirm_rx s) (supervisor_rx s)
    (next_request s) (next_asker s) (calls s) (holding s) (receiver s) (delivered s) (over s).
Definition set_snapshot_rx v (s : System) : System :=
  Build_System (world s) (command_rx s) (control_rx s) v (confirm_rx s) (supervisor_rx s)
    (next_request s) (next_asker s) (calls s) (holding s) (receiver s) (delivered s) (over s).
Definition set_confirm_rx v (s : System) : System :=
  Build_System (world s) (command_rx s) (control_rx s) (snapshot_rx s) v (supervisor_rx s)
    (next_request s) (next_asker s) (calls s) (holding s) (receiver s) (delivered s) (over s).
Definition set_supervisor_rx v (s : System) : System :=
  Build_System (world s) (command_rx s) (control_rx s) (snapshot_rx s) (confirm_rx s) v
    (next_request s) (next_asker s) (calls s) (holding s) (receiver s) (delivered s) (over s).
Definition set_next_request v (s : System) : System :=
  Build_System (world s) (command_rx s) (control_rx s) (snapshot_rx s) (confirm_rx s)
    (supervisor_rx s) v (next_asker s) (calls s) (holding s) (receiver s) (delivered s) (over s).
Definition set_next_asker v (s : System) : System :=
  Build_System (world s) (command_rx s) (control_rx s) (snapshot_rx s) (confirm_rx s)
    (supervisor_rx s) (next_request s) v (calls s) (holding s) (receiver s) (delivered s) (over s).
Definition set_calls v (s : System) : System :=
  Build_System (world s) (command_rx s) (control_rx s) (snapshot_rx s) (confirm_rx s)
    (supervisor_rx s) (next_request s) (next_asker s) v (holding s) (receiver s) (delivered s)
    (over s).
Definition set_holding v (s : System) : System :=
  Build_System (world s) (command_rx s) (control_rx s) (snapshot_rx s) (confirm_rx s)
    (supervisor_rx s) (next_request s) (next_asker s) (calls s) v (receiver s) (delivered s)
    (over s).
Definition set_receiver v (s : System) : System :=
  Build_System (world s) (command_rx s) (control_rx s) (snapshot_rx s) (confirm_rx s)
    (supervisor_rx s) (next_request s) (next_asker s) (calls s) (holding s) v (delivered s)
    (over s).
Definition set_delivered v (s : System) : System :=
  Build_System (world s) (command_rx s) (control_rx s) (snapshot_rx s) (confirm_rx s)
    (supervisor_rx s) (next_request s) (next_asker s) (calls s) (holding s) (receiver s) v
    (over s).
Definition set_over v (s : System) : System :=
  Build_System (world s) (command_rx s) (control_rx s) (snapshot_rx s) (confirm_rx s)
    (supervisor_rx s) (next_request s) (next_asker s) (calls s) (holding s) (receiver s)
    (delivered s) v.

Definition feed_of (s : System) : FrontendFeed := feed_end (actor (world s)).
Definition set_feed (f : FrontendFeed) (s : System) : System :=
  set_world (set_actor (set_feed_end f (actor (world s))) (world s)) s.

Definition close {A} (l : Lane A) : Lane A :=
  Build_Lane (lane_cap l) (lane_sent l) (lane_taken l) (lane_held l) true.

(** The actor is dropped: its feed closes the credits, its lanes close. *)
Definition drop_actor (s : System) : System :=
  set_over true
    (set_command_rx (close (command_rx s)) (set_control_rx (close (control_rx s))
      (set_snapshot_rx (close (snapshot_rx s)) (set_confirm_rx (close (confirm_rx s))
        (set_supervisor_rx (close (supervisor_rx s)) (set_feed (close_feed (feed_of s)) s)))))).

Section system.
Context `{Build, Outside, service_mapping.ToolPorts, ServiceOrders, DebugSessionError, DebugReport}.

(** [AgentServiceActor::new] and [start]. *)
Definition actor_new (initial : Generation) (nonce : Z) : Actor :=
  {| generation_cell := current_generation_new initial; session_generations := cache_new 8;
     live := live_new; queued := []; maintenance := None; availability := FrontIdle;
     confirmations := confirmation_new;
     feed_end := feed_new FRONTEND_UPDATE_CAP FRONTEND_CRITICAL_CAP;
     epoch := INITIAL_EPOCH; revision := ZERO_REVISION; snapshot := snapshot_new;
     attached := None; next_lease_generation := 1; health := HealthOk; notices := [];
     latest_snapshot := None; latest_preview := None; live_cursor := 0;
     applied_runtime_snapshot_revision := 0; runtime_snapshot_inflight := false;
     session_seq := 0; session_nonce := nonce; runtime_closed := false; child_tasks := [];
     child_requests := ∅; shutdown := Running |}.

Definition start (initial : Generation) (nonce : Z) : System :=
  {| world := {| actor := actor_new initial nonce; subscription := []; subscription_closed := false;
                 answers := []; supervisor_replies := []; tasks_spawned := 0; reads := 0 |};
     command_rx := lane_new FRONTEND_COMMAND_CAP; control_rx := lane_new FRONTEND_CONTROL_CAP;
     snapshot_rx := lane_new FRONTEND_SNAPSHOT_CAP; confirm_rx := lane_new CONFIRMATION_MAP_CAP;
     supervisor_rx := lane_new FRONTEND_SUPERVISOR_CAP; next_request := 1; next_asker := 0;
     calls := []; holding := 0; receiver := receiver_new; delivered := []; over := false |}.

(** What the branch that [select!] took gives to the loop. *)
Inductive Branch : Type :=
| BranchSupervisor (command : SupervisorCommand) (deadline : Z)
| BranchCommand (e : CommandEnvelope)
| BranchChild (child : nat)
| BranchConfirm (submit : ConfirmationSubmit)
| BranchRuntime
| BranchTimer.

Definition handle_branch (b : Branch) : M unit :=
  match b with
  | BranchSupervisor command deadline => handle_supervisor command deadline
  | BranchCommand e => handle_command e
  | BranchChild child => join_child child
  | BranchConfirm submit => handle_confirmation_submit submit
  | BranchRuntime => poll_runtime
  | BranchTimer => flush
  end.

(** A turn of [run]: the handler, the flush, and the end of the loop when the
    service stopped. A panic ends the task. *)
Definition turn (b : Branch) (s : System) : System :=
  match (handle_branch b ;; flush) (world s) with
  | (w, Some _) =>
      if should_stop (actor w) then drop_actor (set_world w s) else set_world w s
  | (w, None) => drop_actor (set_world w s)
  end.

(** Which branches are ready, and the system without what the branch took. *)
Inductive ready : System → Branch → System → Prop :=
| ready_supervisor s l command deadline :
    try_recv (supervisor_rx s) = (l, Some (command, deadline)) →
    ready s (BranchSupervisor command deadline) (set_supervisor_rx l s)
| ready_control s l e :
    try_recv (control_rx s) = (l, Some e) → ready s (BranchCommand e) (set_control_rx l s)
| ready_child s child :
    child ∈ child_id <$> filter (λ c, child_end c ≠ None) (child_tasks (actor (world s))) →
    ready s (BranchChild child) s
| ready_snapshot s l e :
    try_recv (snapshot_rx s) = (l, Some e) → ready s (BranchCommand e) (set_snapshot_rx l s)
| ready_command s l e :
    try_recv (command_rx s) = (l, Some e) → ready s (BranchCommand e) (set_command_rx l s)
| ready_confirm s l submit :
    try_recv (confirm_rx s) = (l, Some submit) → ready s (BranchConfirm submit) (set_confirm_rx l s)
| ready_runtime s :
    runtime_closed (actor (world s)) = false →
    subscription (world s) ≠ [] ∨ subscription_closed (world s) = true →
    ready s BranchRuntime s
| ready_timer s :
    pending_resync (feed_of s) = true ∨ pending_critical (feed_of s) = true →
    ready s BranchTimer s.

(** The lane of a command and its change. *)
Definition lane_of (lane : CommandLane) (s : System) : Lane CommandEnvelope :=
  match lane with
  | LaneCommand => command_rx s | LaneControl => control_rx s | LaneSnapshot => snapshot_rx s
  end.
Definition set_lane_of (lane : CommandLane) (l : Lane CommandEnvelope) (s : System) : System :=
  match lane with
  | LaneCommand => set_command_rx l s
  | LaneControl => set_control_rx l s
  | LaneSnapshot => set_snapshot_rx l s
  end.

(** [try_command] up to its reservation; [false] is [Backpressured]. *)
Definition try_command_reserve (command : FrontendCommand) (s : System) : System * bool :=
  let '(request_id, source) := next_request_id (next_request s) in
  let s := set_next_request source s in
  let '(f, granted) := reserve_reply request_id (expected_replies command) (feed_of s) in
  let s := set_feed f s in
  if granted then
    (set_calls (calls s ++ [{| envelope_request_id := request_id; envelope_command := command |}]) s,
     true)
  else (s, false).

(** The rest of [try_command] for one of the calls. *)
Definition try_command_send (e : CommandEnvelope) (s : System)
    : System * CommandDispatch FrontendRequestId :=
  let lane := command_lane (envelope_command e) in
  let '(l, f, result) := send_command e (lane_of lane s) (feed_of s) in
  (set_feed f (set_lane_of lane l s), result).

(** [ConfirmationGate::request_for_operation] up to its [await]; [false] is an
    immediate [Deny]. *)
Definition gate_request (request : ConfirmationRequest) (operation_id : option string)
    (s : System) : System * bool :=
  let submit := {| cs_request := request; cs_operation_id := operation_id;
                   cs_reply := next_asker s |} in
  let s := set_next_asker (S (next_asker s)) s in
  match try_send submit (confirm_rx s) with
  | (l, SendOk) => (set_confirm_rx l s, true)
  | _ => (s, false)
  end.

(** What [request_for_operation] returns once its [oneshot] is answered or
    dropped, after its message was sent. *)
Definition gate_decision (s : System) (asker : Asker) : option ConfirmationDecision :=
  match find_map (λ entry, if entry.1 == asker then Some entry.2 else None) (answers (world s)) with
  | Some decision => Some decision
  | None => if over s then Some Deny else None
  end.

Definition change_actor (f : Actor → Actor) (s : System) : System :=
  set_world (set_actor (f (actor (world s))) (world s)) s.

Inductive step : System → System → Prop :=
(* the actor *)
| step_turn s b s' : over s = false → ready s b s' → step s (turn b s')
| step_abort s : over s = false → step s (drop_actor s)
(* the runtime and the children *)
| step_event s event :
    step s (set_world (set_subscription (subscription (world s) ++ [event]) (world s)) s)
| step_subscription_closes s : step s (set_world (set_subscription_closed true (world s)) s)
| step_child_returns s c result :
    over s = false → c ∈ child_tasks (actor (world s)) → child_end c = None →
    finishes (child_task c) result →
    step s (change_actor (end_child (child_id c) (Some result)) s)
| step_child_panics s c :
    over s = false → c ∈ child_tasks (actor (world s)) → child_end c = None →
    step s (change_actor (end_child (child_id c) None) s)
(* the frontend *)
| step_call s command : over s = false → step s (try_command_reserve command s).1
| step_send s e before after :
    calls s = before ++ e :: after → step s (try_command_send e (set_calls (before ++ after) s)).1
| step_hold s :
    send_state (critical_tx (feed_of s)) = SendOk →
    step s (set_holding (S (holding s))
      (set_feed (set_critical_tx (lane_hold 1 (critical_tx (feed_of s))) (feed_of s)) s))
| step_unhold s n :
    holding s = S n →
    step s (set_holding n
      (set_feed (set_critical_tx (lane_release 1 (critical_tx (feed_of s))) (feed_of s)) s))
| step_fill_normal s rx l :
    fill_normal (receiver s) (tx (feed_of s)) = (rx, l) →
    step s (set_receiver rx (set_feed (set_tx l (feed_of s)) s))
| step_fill_critical s rx l :
    fill_critical (receiver s) (critical_tx (feed_of s)) = (rx, l) →
    step s (set_receiver rx (set_feed (set_critical_tx l (feed_of s)) s))
| step_pop s rx u :
    pop_next (receiver s) = (rx, Some u) →
    step s (set_receiver rx (set_delivered (delivered s ++ [u]) s))
| step_drop_normal s : step s (set_feed (set_tx (close (tx (feed_of s))) (feed_of s)) s)
| step_drop_critical s :
    step s (set_feed (set_critical_tx (close (critical_tx (feed_of s))) (feed_of s)) s)
(* confirmations and the supervisor *)
| step_gate s request operation_id : step s (gate_request request operation_id s).1
| step_supervise s command deadline l :
    try_send (command, deadline) (supervisor_rx s) = (l, SendOk) →
    step s (set_supervisor_rx l s).

(** The states of a service. *)
Definition reachable (initial : Generation) (nonce : Z) : System → Prop :=
  rtc step (start initial nonce).

End system.
End service_system.
