(* ===== verification/ServiceParts.v ===== *)
(** The small parts of the agent service: the live projection of the running
    operation (live.rs), the pending confirmations (confirmation.rs) and the
    cache of session generations (generation_cache.rs). *)

From S2P Require Import Prelude RustStr Kernel Session Tools Runtime.
From S2P Require Import Service.
Import runtime service.

Module service_parts.

(** ** live.rs *)

Record live_bounded (l : LiveOperationSnapshot) : Prop := {
  lb_text : length (chars (live_text l)) ≤ LIVE_TEXT_CHARS_MAX;
  lb_reasoning : length (chars (live_reasoning l)) ≤ LIVE_REASONING_CHARS_MAX;
  lb_tools : length (live_tool_progress l) ≤ LIVE_TOOL_PROGRESS_MAX
}.

Lemma append_bounded_length buf extra n :
  length (chars buf) ≤ n → length (chars (append_bounded buf extra n).1) ≤ n.
Proof.
  intros Hb. unfold append_bounded. destruct (str_is_empty extra); [done|].
  case_bool_decide; [done|]. case_bool_decide; simpl; (etrans; [apply chars_app_length|]); [lia|].
  rewrite chars_take, length_take. lia.
Qed.

Lemma live_new_bounded : live_bounded live_new.
Proof. split; simpl; unfold LIVE_TOOL_PROGRESS_MAX; lia. Qed.

Lemma live_ids_bounded op turn l : live_bounded l → live_bounded (live_with_ids op turn l).
Proof. by intros []. Qed.
Lemma live_accept_bounded op turn l : live_bounded l → live_bounded (live_accept op turn l).
Proof. apply live_ids_bounded. Qed.
Lemma live_operation_bounded op l : live_bounded l → live_bounded (live_start_operation op l).
Proof. apply live_ids_bounded. Qed.
Lemma live_turn_bounded turn l : live_bounded l → live_bounded (live_start_turn turn l).
Proof. apply live_ids_bounded. Qed.
Lemma live_call_bounded id l : live_bounded l → live_bounded (live_start_model_call id l).
Proof. intros []. split; simpl; [lia|lia|done]. Qed.
Lemma live_text_bounded d l : live_bounded l → live_bounded (live_push_text d l).
Proof.
  intros []. unfold live_push_text.
  pose proof (append_bounded_length (live_text l) d LIVE_TEXT_CHARS_MAX lb_text0).
  by destruct (append_bounded _ _ _).
Qed.
Lemma live_reasoning_bounded d l : live_bounded l → live_bounded (live_push_reasoning d l).
Proof.
  intros []. unfold live_push_reasoning.
  pose proof (append_bounded_length (live_reasoning l) d LIVE_REASONING_CHARS_MAX lb_reasoning0).
  by destruct (append_bounded _ _ _).
Qed.
Lemma live_usage_bounded u l : live_bounded l → live_bounded (live_set_usage u l).
Proof. by intros []. Qed.
Lemma live_rows_bounded rows b l :
  live_bounded l → length rows ≤ LIVE_TOOL_PROGRESS_MAX → live_bounded (live_with_progress rows b l).
Proof. by intros []. Qed.
Lemma length_replace_first {A} (p : A → bool) x l : length (replace_first p x l) = length l.
Proof. induction l as [|y l IH]; simpl; [done|]. destruct (p y); simpl; by rewrite ?IH. Qed.
Lemma live_progress_bounded row l : live_bounded l → live_bounded (live_set_tool_progress row l).
Proof.
  intros Hl. pose proof Hl as []. unfold live_set_tool_progress. destruct (any _ _).
  - apply live_rows_bounded; [done|]. by rewrite length_replace_first.
  - case_bool_decide; apply live_rows_bounded; try done; rewrite length_app; simpl.
    + destruct (live_tool_progress l); simpl in *; [unfold LIVE_TOOL_PROGRESS_MAX; lia|lia].
    + lia.
Qed.
Lemma live_complete_bounded id l : live_bounded l → live_bounded (live_complete_tool id l).
Proof.
  intros Hl. apply live_rows_bounded; [done|]. etrans; [apply length_filter|apply Hl].
Qed.
Lemma live_lagged_bounded l : live_bounded l → live_bounded (live_mark_lagged l).
Proof. intros Hl. apply live_rows_bounded; [done|apply Hl]. Qed.
Lemma live_settle_bounded l : live_bounded (live_settle l).
Proof. apply live_rows_bounded; [apply live_new_bounded|simpl; lia]. Qed.

#[export] Hint Resolve live_new_bounded live_accept_bounded live_operation_bounded
  live_turn_bounded live_call_bounded live_text_bounded
  live_reasoning_bounded live_usage_bounded live_progress_bounded live_complete_bounded
  live_lagged_bounded live_settle_bounded : service.

(** The text of a model call that streamed these deltas. *)
Definition streamed (l : LiveOperationSnapshot) (deltas : list string) : LiveOperationSnapshot :=
  foldl (λ l delta, live_push_text delta l) l deltas.

Lemma append_bounded_spec buf extra n all :
  valid_utf8 extra = true → buf = concat_str (take n (chars all)) →
  append_bounded buf extra n
  = (concat_str (take n (chars (all +:+ extra))),
     negb (str_is_empty extra) && bool_decide (n < length (chars (all +:+ extra)))).
Proof.
  intros Hv ->. apply valid_starts_char in Hv. unfold append_bounded.
  rewrite chars_take, length_take, (chars_app _ _ Hv), length_app, take_app.
  destruct (str_is_empty extra) eqn:He.
  { destruct extra; [|done]. simpl. by rewrite take_nil, app_nil_r. }
  assert (0 < length (chars extra)) as Hpos.
  { destruct (chars extra) eqn:Hc; simpl; [|lia]. by apply chars_nil in Hc as ->. }
  simpl. case_bool_decide as Hfull.
  { replace (n - length (chars all)) with 0 by lia. simpl. rewrite app_nil_r.
    by rewrite bool_decide_true by lia. }
  rewrite (take_ge (chars all)) by lia. rewrite (Nat.min_r n) by lia.
  case_bool_decide as Hroom.
  - rewrite (take_ge (chars extra)) by lia. rewrite concat_str_app, !concat_chars.
    by rewrite bool_decide_false by lia.
  - rewrite concat_str_app, concat_chars. by rewrite bool_decide_true by lia.
Qed.

(** the live text of a model call is the longest prefix of all it streamed
    that has at most [LIVE_TEXT_CHARS_MAX] characters, cut at a character; it is
    marked as truncated exactly when something is missing. *)
Theorem live_text_is_prefix (l : LiveOperationSnapshot) (call : string) (deltas : list string) :
  Forall (λ d, valid_utf8 d = true) deltas →
  let all := concat_str deltas in
  let l' := streamed (live_start_model_call call l) deltas in
  live_text l' = concat_str (take LIVE_TEXT_CHARS_MAX (chars all)) ∧
  text_truncated l' = bool_decide (LIVE_TEXT_CHARS_MAX < length (chars all)) ∧
  live_reasoning l' = "".
Proof.
  intros Hv. cbv zeta. induction deltas as [|d deltas IH] using rev_ind.
  { cbn. rewrite bool_decide_false by lia. by destruct LIVE_TEXT_CHARS_MAX. }
  apply Forall_app in Hv as [Hv [Hd _]%Forall_cons]. destruct (IH Hv) as (Ht & Hc & Hr).
  unfold streamed in *. rewrite foldl_app, concat_str_app. cbn [foldl concat_str].
  rewrite str_app_nil_r. set (l1 := foldl _ _ _) in *. unfold live_push_text. rewrite (append_bounded_spec _ _ _ _ Hd Ht).
  cbn. split; [done|]. split; [|done]. rewrite Hc.
  apply valid_starts_char in Hd. rewrite (chars_app _ _ Hd), length_app.
  destruct (str_is_empty d) eqn:He; cbn [negb andb orb].
  - destruct d; [|done]. by rewrite Nat.add_0_r.
  - apply Bool.eq_true_iff_eq. rewrite orb_true_iff, !bool_decide_eq_true. lia.
Qed.

(** ** confirmation.rs *)

(** [lease] is the generation of the attached frontend. *)
Record confirmations_ok (lease : option FrontendLeaseGeneration) (m : ConfirmationMap)
    : Prop := {
  co_size : size (pending m) ≤ CONFIRMATION_MAP_CAP;
  co_ids : ∀ id p, pending m !! id = Some p → (id ≤ next_id m)%Z;
  co_lease : ∀ id p, pending m !! id = Some p → lease = Some (pc_generation p)
}.

(** Who waits for an answer. *)
Definition waiting (m : ConfirmationMap) : list Asker :=
  (λ e, pc_reply e.2) <$> map_to_list (pending m).

Lemma confirmations_new_ok lease : confirmations_ok lease confirmation_new.
Proof. split; simpl; [unfold CONFIRMATION_MAP_CAP; rewrite map_size_empty; lia|by intros ??|done]. Qed.

(** Fewer pending confirmations of the same map. *)
Lemma confirmations_sub lease m m' :
  confirmations_ok lease m → next_id m' = next_id m → pending m' ⊆ pending m →
  confirmations_ok lease m'.
Proof.
  intros [] Hn Hs. split.
  - etrans; [by apply map_subseteq_size|done].
  - intros id p Hp. rewrite Hn. eapply co_ids0, lookup_weaken; eauto.
  - intros id p Hp. eapply co_lease0, lookup_weaken; eauto.
Qed.

Lemma waiting_delete m id p :
  pending m !! id = Some p →
  waiting m ≡ₚ pc_reply p :: waiting {| next_id := next_id m; pending := delete id (pending m) |}.
Proof. intros Hp. unfold waiting. simpl. by rewrite <- (map_to_list_delete _ _ _ Hp). Qed.

Lemma insert_confirmation submit lease m m' sent res :
  confirmation_insert submit lease m = (m', sent, res) → confirmations_ok lease m →
  confirmations_ok lease m' ∧ Forall (λ x, x.2 = Deny) sent ∧
  sent.*1 ++ waiting m' ≡ₚ cs_reply submit :: waiting m.
Proof.
  unfold confirmation_insert. intros Hi Hm. destruct lease as [g|]; [|simplify_eq/=; by auto].
  case_bool_decide as Hs; simplify_eq/=; [by auto|]. pose proof Hm as [].
  assert (pending m !! (next_id m + 1)%Z = None) as Hfresh.
  { destruct (pending m !! _) eqn:Hp; [|done]. apply co_ids0 in Hp. lia. }
  split; [|split; [done|]].
  - split; simpl.
    + rewrite map_size_insert_None by done. lia.
    + intros id p [[<- <-]|[? ?%co_ids0]]%lookup_insert_Some; lia.
    + by intros id p [[<- <-]|[? ?%co_lease0]]%lookup_insert_Some.
  - unfold waiting. simpl. by rewrite map_to_list_insert.
Qed.

Lemma respond_confirmation id d lease m m' sent res :
  confirmation_respond id d lease m = (m', sent, res) → confirmations_ok lease m →
  confirmations_ok lease m' ∧ sent.*1 ++ waiting m' ≡ₚ waiting m ∧
  (sent = [] ∧ res = None ∨
   ∃ p, pending m !! id = Some p ∧ lease = Some (pc_generation p) ∧ pending m' !! id = None ∧
     sent = [(pc_reply p, d)] ∧ res = Some d).
Proof.
  unfold confirmation_respond. intros Hr Hm.
  destruct (pending m !! id) as [p|] eqn:Hp; [|simplify_eq/=; by auto].
  destruct (Some (pc_generation p) != lease) eqn:Hl; simplify_eq/=; [by auto|].
  split; [|split].
  - eapply confirmations_sub; [done|done|]. simpl. apply delete_subseteq.
  - by rewrite (waiting_delete m id p).
  - right. exists p. split; [done|]. split; [by apply negb_false_iff, bool_decide_eq_true in Hl|].
    by rewrite lookup_delete_eq.
Qed.

Section denials.
Context `{ServiceOrders}.

Lemma deny_ids_spec ids m m' sent :
  deny_ids ids m = (m', sent) →
  next_id m' = next_id m ∧ pending m' = filter (λ e, e.1 ∉ ids) (pending m) ∧
  Forall (λ x, x.2 = Deny) sent ∧ sent.*1 ++ waiting m' ≡ₚ waiting m.
Proof.
  revert m m' sent. induction ids as [|id ids IH]; intros m m' sent; simpl.
  - intros [= <- <-]. split; [done|]. split; [|done]. symmetry. apply map_filter_id.
    intros. set_solver.
  - destruct (pending m !! id) as [p|] eqn:Hp; destruct (deny_ids ids _) as [m1 later] eqn:Hd;
      intros [= <- <-]; destruct (IH _ _ _ Hd) as (Hn & Hpe & Hde & Hw).
    + simpl in *. split; [done|]. split; [|split; [by constructor|]].
      * rewrite Hpe. apply map_eq. intros i. apply option_eq. intros q.
        rewrite !map_lookup_filter_Some, lookup_delete_Some. set_solver.
      * rewrite Hw. by rewrite <- waiting_delete.
    + split; [done|]. split; [|done]. rewrite Hpe. apply map_filter_ext.
      intros i q Hq. simpl. rewrite not_elem_of_cons. split; [|by intros []].
      intros. split; [|done]. by intros ->; rewrite Hp in Hq.
Qed.

Lemma pending_ids_spec p m id :
  id ∈ pending_ids p m ↔ ∃ c, pending m !! id = Some c ∧ p c = true.
Proof.
  unfold pending_ids. rewrite list_elem_of_filter, pending_order_perm, list_elem_of_fmap. split.
  - intros [Hc _]. destruct (pending m !! id); naive_solver.
  - intros (c & Hp & Hc). rewrite Hp. split; [done|]. exists (id, c). split; [done|].
    by apply elem_of_map_to_list.
Qed.

Lemma deny_where_spec p m m' sent ids :
  deny_where p m = (m', sent, ids) →
  next_id m' = next_id m ∧ pending m' = filter (λ e, p e.2 = false) (pending m) ∧
  Forall (λ x, x.2 = Deny) sent ∧ sent.*1 ++ waiting m' ≡ₚ waiting m.
Proof.
  unfold deny_where. destruct (deny_ids _ m) as [m1 l] eqn:Hd. intros [= <- <- <-].
  apply deny_ids_spec in Hd as (Hn & -> & Hde & Hw). split; [done|]. split; [|done].
  apply map_filter_ext. intros id c Hc. simpl. rewrite pending_ids_spec, Hc. split.
  - intros Hno. apply not_true_iff_false. naive_solver.
  - intros Hf (c' & [= <-] & Ht). congruence.
Qed.

Lemma deny_where_ok lease p m m' sent ids :
  deny_where p m = (m', sent, ids) → confirmations_ok lease m →
  confirmations_ok lease m' ∧ Forall (λ x, x.2 = Deny) sent ∧ sent.*1 ++ waiting m' ≡ₚ waiting m.
Proof.
  intros (Hn & Hp & Hd & Hw)%deny_where_spec Hm. split; [|done].
  eapply confirmations_sub; [done|done|]. rewrite Hp. apply map_filter_subseteq.
Qed.
End denials.

(** ** generation_cache.rs *)

Record cache_bounded (c : SessionGenerationCache) : Prop := {
  cb_capacity : capacity c = 8;
  cb_size : size (entries c) ≤ 8
}.

Lemma cache_new_bounded : cache_bounded (cache_new 8).
Proof. split; [done|]. simpl. rewrite map_size_empty. lia. Qed.

Lemma size_insert_some {A} (m : gmap string A) k x y :
  m !! k = Some x → size (<[k := y]> m) = size m.
Proof. intros Hk. rewrite map_size_insert. by rewrite Hk. Qed.

Lemma cache_get_bounded k c : cache_bounded c → cache_bounded (cache_get k c).1.
Proof.
  intros []. unfold cache_get. destruct (entries c !! k) as [[t g]|] eqn:Hk; split; try done.
  simpl. by erewrite size_insert_some.
Qed.

Lemma min_by_key_spec {A} (key : A → Z) l :
  match min_by_key key l with
  | Some x => x ∈ l ∧ ∀ y, y ∈ l → (key x ≤ key y)%Z
  | None => l = []
  end.
Proof.
  induction l as [|x l IH]; simpl; [done|].
  destruct (min_by_key key l) as [y|].
  - destruct IH as [Hy Hle]. destruct (key x <=? key y)%Z eqn:Hk.
    + apply Z.leb_le in Hk. split; [set_solver|]. intros z [->|Hz]%elem_of_cons; [done|].
      etrans; [done|by apply Hle].
    + apply Z.leb_gt in Hk. split; [set_solver|]. intros z [->|Hz]%elem_of_cons; [lia|by apply Hle].
  - subst. split; [set_solver|]. intros z [->|Hz]%elem_of_cons; [done|set_solver].
Qed.

Section cache_orders.
Context `{ServiceOrders}.

Lemma evict_spec c :
  entries c ≠ ∅ → ∃ k t g, entries c !! k = Some (t, g) ∧ entries (evict_lru c) = delete k (entries c) ∧
    capacity (evict_lru c) = capacity c ∧ tick (evict_lru c) = tick c ∧
    (∀ k' t' g', entries c !! k' = Some (t', g') → (t ≤ t')%Z).
Proof.
  intros He. unfold evict_lru.
  pose proof (min_by_key_spec (λ e : string * (Z * Generation), e.2.1) (cache_order (entries c))) as Hm.
  destruct (min_by_key _ _) as [[k [t g]]|].
  - destruct Hm as [Hin Hle]. rewrite cache_order_perm, elem_of_map_to_list in Hin.
    exists k, t, g. repeat split; try done. intros k' t' g' Hk.
    apply (Hle (k', (t', g'))). by rewrite cache_order_perm, elem_of_map_to_list.
  - destruct He. apply map_to_list_empty_iff, Permutation_nil.
    by rewrite <- cache_order_perm, Hm.
Qed.

Lemma cache_put_bounded k g c : cache_bounded c → cache_bounded (cache_put k g c).
Proof.
  intros [Hc Hs]. unfold cache_put. destruct (entries c !! k) as [old|] eqn:Hk.
  { split; simpl; [done|]. by erewrite size_insert_some. }
  case_bool_decide as Hf; [|split; simpl; [done|rewrite map_size_insert_None by done; lia]].
  destruct (evict_spec c) as (k1 & t1 & g1 & Hk1 & He & Hcap & Ht & _).
  { intros He. rewrite He, map_size_empty in Hf. lia. }
  split; simpl; [congruence|]. rewrite He, map_size_insert_None.
  - rewrite map_size_delete, Hk1. simpl. lia.
  - by rewrite lookup_delete_ne by congruence.
Qed.

(** The reference: keys and generations, the least recently used first. *)
Inductive cache_op : Type := CacheGet (k : string) | CachePut (k : string) (g : Generation).

Definition lru_touch (k : string) (g : Generation) (l : list (string * Generation)) :=
  filter (λ e, e.1 ≠ k) l ++ [(k, g)].
Definition lru_find (k : string) (l : list (string * Generation)) : option Generation :=
  find_map (λ e, if e.1 == k then Some e.2 else None) l.
Definition lru_apply (cap : nat) (op : cache_op) (l : list (string * Generation))
    : list (string * Generation) * option Generation :=
  match op with
  | CacheGet k =>
      match lru_find k l with Some g => (lru_touch k g l, Some g) | None => (l, None) end
  | CachePut k g =>
      let room := session.is_some (lru_find k l) || bool_decide (length l < cap) in
      (lru_touch k g (if room then l else tail l), None)
  end.
Definition cache_apply (op : cache_op) (c : SessionGenerationCache)
    : SessionGenerationCache * option Generation :=
  match op with
  | CacheGet k => cache_get k c
  | CachePut k g => (cache_put k g c, None)
  end.

(** The answers to a sequence of operations. *)
Fixpoint cache_answers (c : SessionGenerationCache) (ops : list cache_op)
    : list (option Generation) :=
  match ops with
  | [] => []
  | op :: ops => let '(c, x) := cache_apply op c in x :: cache_answers c ops
  end.
Fixpoint lru_answers (cap : nat) (l : list (string * Generation)) (ops : list cache_op)
    : list (option Generation) :=
  match ops with
  | [] => []
  | op :: ops => let '(l, x) := lru_apply cap op l in x :: lru_answers cap l ops
  end.

(** The cache holds the list [L], which is sorted by its stamps. *)
Record stamped (c : SessionGenerationCache) (L : list (string * (Z * Generation))) : Prop := {
  st_keys : NoDup L.*1;
  st_entries : entries c = list_to_map L;
  st_sorted : StronglySorted (λ e e', e.2.1 < e'.2.1)%Z L;
  st_tick : Forall (λ e, e.2.1 ≤ tick c)%Z L
}.

Definition unstamp (L : list (string * (Z * Generation))) : list (string * Generation) :=
  (λ e, (e.1, e.2.2)) <$> L.

Lemma stamped_lookup c L k t g : stamped c L → entries c !! k = Some (t, g) ↔ (k, (t, g)) ∈ L.
Proof. intros []. by rewrite st_entries0, elem_of_list_to_map. Qed.

Lemma lru_find_unstamp c L k :
  stamped c L → lru_find k (unstamp L) = snd <$> entries c !! k.
Proof.
  intros HL. destruct (lru_find k (unstamp L)) as [g|] eqn:Hf; symmetry.
  - apply find_map_Some in Hf as ([k' g'] & Hin & Hx). simpl in Hx.
    destruct (bool_decide_reflect (k' = k)) as [->|]; [simplify_eq|done].
    apply list_elem_of_fmap in Hin as ([k' [t g']] & [= -> ->] & Hin).
    apply (stamped_lookup _ _ _ _ _ HL) in Hin. by rewrite Hin.
  - destruct (entries c !! k) as [[t g]|] eqn:Hk; [exfalso|done].
    apply (stamped_lookup _ _ _ _ _ HL) in Hk.
    apply find_map_None in Hf. rewrite Forall_forall in Hf.
    specialize (Hf (k, g)). simpl in Hf. rewrite bool_decide_true in Hf by done.
    discriminate Hf. apply list_elem_of_fmap. by exists (k, (t, g)).
Qed.

Lemma unstamp_filter k L :
  unstamp (filter (λ e, e.1 ≠ k) L) = filter (λ e, e.1 ≠ k) (unstamp L).
Proof.
  unfold unstamp. induction L as [|[k' [t g]] L IH]; [done|].
  rewrite fmap_cons, !filter_cons. simpl.
  case_decide; [by rewrite fmap_cons, IH|done].
Qed.

Lemma strongly_sorted_snoc {A} (R : A → A → Prop) l x :
  StronglySorted R l → Forall (λ y, R y x) l → StronglySorted R (l ++ [x]).
Proof.
  induction 1 as [|y l Hs IH Hy]; intros Hx; [by repeat constructor|].
  apply Forall_cons in Hx as [? ?]. simpl. constructor; [by apply IH|].
  apply Forall_app. split; [done|by repeat constructor].
Qed.

Lemma stamped_touch c L k g n :
  stamped c L → (tick c < u64_max)%Z →
  stamped {| entries := <[k := (bump (tick c), g)]> (entries c); capacity := n;
             tick := bump (tick c) |}
          (filter (λ e, e.1 ≠ k) L ++ [(k, (bump (tick c), g))]).
Proof.
  intros HL Ht. pose proof HL as [].
  assert (bump (tick c) = tick c + 1)%Z as Hb.
  { unfold bump, saturating_add. lia. }
  assert (k ∉ (filter (λ e, e.1 ≠ k) L).*1) as Hk.
  { intros ([k' x] & -> & [Hn _]%list_elem_of_filter)%list_elem_of_fmap. done. }
  assert (NoDup (filter (λ e, e.1 ≠ k) L).*1) as Hnd.
  { eapply sublist_NoDup; [apply st_keys0|]. apply fmap_sublist, sublist_filter. }
  split; simpl.
  - rewrite fmap_app. apply NoDup_app. split.
    + done.
    + split; [|by apply NoDup_singleton]. set_solver.
  - rewrite list_to_map_snoc by done. apply map_eq. intros i.
    destruct (decide (i = k)) as [->|Hi]; [by rewrite !lookup_insert_eq|].
    rewrite !lookup_insert_ne by done. apply option_eq. intros [t g'].
    rewrite (stamped_lookup _ _ _ _ _ HL). rewrite <- elem_of_list_to_map.
    + rewrite list_elem_of_filter. naive_solver.
    + done.
  - apply strongly_sorted_snoc; [by apply strongly_sorted_filter|].
    apply forall_filter. eapply Forall_impl; [done|]. simpl. intros. lia.
  - apply Forall_app. split; [|repeat constructor; done].
    apply forall_filter. eapply Forall_impl; [done|]. simpl. intros. lia.
Qed.

Lemma stamped_evict c L :
  stamped c L → L ≠ [] → stamped (evict_lru c) (tail L).
Proof.
  intros HL Hne. pose proof HL as []. destruct L as [|[k [t g]] L]; [done|]. clear Hne.
  assert (entries c !! k = Some (t, g)) as Hk.
  { apply (stamped_lookup _ _ _ _ _ HL). set_solver. }
  destruct (evict_spec c) as (k1 & t1 & g1 & Hk1 & He & _ & Ht & Hmin).
  { intros He. by rewrite He, lookup_empty in Hk. }
  apply NoDup_cons in st_keys0 as [Hnk Hnd]. apply StronglySorted_inv in st_sorted0 as [Hs Hlt].
  apply (stamped_lookup _ _ _ _ _ HL) in Hk1. apply elem_of_cons in Hk1 as [[= -> -> ->]|Hk1].
  - split; simpl; [done| |done|].
    + rewrite He, st_entries0. simpl. apply delete_insert_id.
      by apply not_elem_of_list_to_map_1.
    + rewrite Ht. by apply Forall_cons in st_tick0 as [_ ?].
  - rewrite Forall_forall in Hlt. specialize (Hlt _ Hk1). simpl in Hlt.
    specialize (Hmin _ _ _ Hk). lia.
Qed.

Lemma stamped_size c L : stamped c L → size (entries c) = length L.
Proof. intros []. by rewrite st_entries0, map_size_list_to_map. Qed.

Lemma cache_apply_refines op c L :
  stamped c L → (tick c < u64_max)%Z → 0 < capacity c →
  let '(c', x) := cache_apply op c in
  capacity c' = capacity c ∧ (tick c' ≤ tick c + 1)%Z ∧
  ∃ L', stamped c' L' ∧ lru_apply (capacity c) op (unstamp L) = (unstamp L', x).
Proof.
  intros HL Ht Hcap. assert (bump (tick c) ≤ tick c + 1)%Z as Hb.
  { unfold bump, saturating_add. lia. }
  destruct op as [k|k g]; simpl; rewrite (lru_find_unstamp _ _ _ HL).
  - unfold cache_get. destruct (entries c !! k) as [[t g]|] eqn:Hk; simpl.
    + split; [done|]. split; [done|]. eexists. split; [by apply stamped_touch|].
      unfold lru_touch, unstamp. rewrite fmap_app. cbn. f_equal. f_equal. symmetry. apply unstamp_filter.
    + split; [done|]. split; [done|]. exists L. split; [|done]. destruct HL. split; try done.
      eapply Forall_impl; [done|]. simpl. unfold bump, saturating_add. intros. lia.
  - assert (∀ c1 L1, stamped c1 L1 → tick c1 = tick c → capacity c1 = capacity c →
      let c2 := {| entries := <[k := (bump (tick c1), g)]> (entries c1); capacity := capacity c1;
                   tick := bump (tick c1) |} in
      capacity c2 = capacity c ∧ (tick c2 ≤ tick c + 1)%Z ∧
      ∃ L', stamped c2 L' ∧ lru_touch k g (unstamp L1) = unstamp L') as Htouch.
    { intros c1 L1 H1 Ht1 Hc1. simpl. rewrite Ht1. split; [done|]. split; [done|]. eexists. split.
      - rewrite <- Ht1. apply stamped_touch; [done|]. by rewrite Ht1.
      - unfold lru_touch, unstamp. rewrite fmap_app. cbn. f_equal. symmetry. apply unstamp_filter. }
    unfold cache_put.
    destruct (entries c !! k) as [old|] eqn:Hk; simpl.
    + destruct (Htouch c L) as (? & ? & L' & ? & ->); [done..|]. split; [done|]. split; [done|].
      by exists L'.
    + rewrite (stamped_size _ _ HL).
      assert (length (unstamp L) = length L) as -> by apply length_fmap.
      destruct (bool_decide_reflect (capacity c ≤ length L)) as [Hf|Hf].
      * rewrite bool_decide_false by lia. simpl.
        assert (L ≠ []) as Hne by (destruct L; simpl in Hf; [lia|done]).
        assert (entries c ≠ ∅) as Hec.
        { intros He. pose proof (stamped_size _ _ HL) as Hs. rewrite He, map_size_empty in Hs. lia. }
        destruct (evict_spec c Hec) as (_ & _ & _ & _ & _ & Hcap1 & Ht1 & _).
        destruct (Htouch (evict_lru c) (tail L)) as (? & ? & L' & ? & Hl);
          [by apply stamped_evict|done|done|].
        split; [done|]. split; [done|]. exists L'. split; [done|]. rewrite <- Hl.
        by destruct L.
      * rewrite bool_decide_true by lia.
        destruct (Htouch c L) as (? & ? & L' & ? & ->); [done..|]. split; [done|]. split; [done|].
        by exists L'.
Qed.

(** the cache of session generations is a least-recently-used cache: a
    sequence of operations, shorter than its 64-bit clock, has the answers of the
    list that keeps the most recently used keys, whatever the order in which the
    map lists its entries. *)
Theorem cache_is_lru (cap : nat) (ops : list cache_op) :
  0 < cap → (Z.of_nat (length ops) < u64_max)%Z →
  cache_answers (cache_new cap) ops = lru_answers cap [] ops.
Proof.
  intros Hcap Hlen.
  assert (∀ c L, stamped c L → capacity c = cap → (tick c + Z.of_nat (length ops) ≤ u64_max)%Z →
    cache_answers c ops = lru_answers cap (unstamp L) ops) as Hgen.
  { clear Hlen. induction ops as [|op ops IH]; intros c L HL Hc Ht; [done|]. simpl in *.
    pose proof (cache_apply_refines op c L HL) as Hstep.
    destruct (cache_apply op c) as [c' x].
    destruct Hstep as (Hc' & Ht' & L' & HL' & Hlru); [lia|lia|].
    rewrite <- Hc, Hlru. f_equal. rewrite Hc. apply IH; [done|congruence|lia]. }
  apply (Hgen (cache_new cap) []); [|done|simpl; lia].
  split; simpl; [constructor|done|constructor|constructor].
Qed.

End cache_orders.

End service_parts.
