(* ===== verification/ServiceFeedProofs.v ===== *)
(** What the feed of the agent service keeps: the bounds of its lanes and the
    accounting of their permits, and the history rules of the resync protocol.
    The client's merge of the two lanes is at the end. *)

From S2P Require Import Prelude RustStr Kernel Session Tools Runtime.
From S2P Require Import Service ServiceFeed.
Import service feed.

Module feed_proofs.

(** ** Histories *)

(** A counter that saturates went up. *)
Definition later (x y : Z) : Prop := (x < y ∨ y = u64_max)%Z.

Lemma later_bump x y : (x ≤ y)%Z → (y ≤ u64_max)%Z → later x (bump y).
Proof. unfold later, bump, runtime.saturating_add. lia. Qed.
Lemma bump_le x : (x ≤ u64_max)%Z → (x ≤ bump x ≤ u64_max)%Z.
Proof. unfold bump, runtime.saturating_add. lia. Qed.

(** An update that the frontend did not get, and one that makes up for it. A
    snapshot that the full lane refused loses no change: it shows a state. *)
Definition lossy (act : FeedAct) : bool :=
  match act with
  | Pushed _ Dropped => true
  | Pushed u PushBackpressured => negb (is_snapshot_ready (up_kind u))
  | _ => false
  end.
Definition covers (act : FeedAct) : bool :=
  match act with
  | Pushed u Sent | Recovered u => is_snapshot_ready (up_kind u)
  | _ => false
  end.
Definition ordinary_sent (act : FeedAct) : bool :=
  match act with Pushed u Sent => negb (is_critical u) | _ => false end.

(** Whether something was lost that no later snapshot covers. *)
Definition uncovered (h : list FeedAct) : bool :=
  foldl (λ loss act, if covers act then false else loss || lossy act) false h.

Lemma uncovered_snoc h act :
  uncovered (h ++ [act]) = if covers act then false else uncovered h || lossy act.
Proof. unfold uncovered. by rewrite foldl_app. Qed.

Lemma lossy_not_covers act : lossy act = true → covers act = false.
Proof. by destruct act as [u []|u]; simpl; try done; intros ->%negb_true_iff. Qed.

Lemma uncovered_split h1 act h2 :
  uncovered (h1 ++ act :: h2) = false → lossy act = true →
  ∃ c, c ∈ h2 ∧ covers c = true.
Proof.
  induction h2 as [|x h2 IH] using rev_ind.
  - intros Hu Hl. rewrite uncovered_snoc, lossy_not_covers, Hl, orb_true_r in Hu; done.
  - rewrite app_comm_cons, app_assoc, uncovered_snoc. intros Hu Hl.
    destruct (covers x) eqn:Hx; [exists x; set_solver|].
    apply orb_false_iff in Hu as [Hu _]. destruct (IH Hu Hl) as (c & ? & ?). exists c. set_solver.
Qed.

(** The session view an update shows as current, with its revision. *)
Definition publishes (kind : FrontendUpdateKind) : option (string * Z) :=
  match kind with
  | SessionLoaded sid view => Some (sid, dv_revision view)
  | SnapshotReady s =>
      match fsn_current_session_id s, fsn_durable_session_view s with
      | Some sid, Some view => Some (sid, dv_revision view)
      | _, _ => None
      end
  | _ => None
  end.

(** What a push shows; a snapshot that goes out later was pushed before. *)
Definition shown (act : FeedAct) : option (string * Z) :=
  match act with Pushed u _ => publishes (up_kind u) | Recovered _ => None end.

(** The rules of a history: after a loss no ordinary update goes out before a
    snapshot; every push has a later revision; what goes out later is a
    [ResyncRequired] or a snapshot that was retained; the views of a session
    never go back from push to push. *)
Record act_fine (h : list FeedAct) (act : FeedAct) : Prop := {
  fine_gap : ordinary_sent act = true → uncovered h = false;
  fine_later : ∀ u r v q, act = Pushed u r → Pushed v q ∈ h →
    later (up_revision v) (up_revision u);
  fine_recovered : ∀ u, act = Recovered u →
    is_snapshot_ready (up_kind u) = true ∨ is_Some (publishes (up_kind u)) →
    Pushed u PushBackpressured ∈ h;
  fine_views : ∀ sid new old act', shown act = Some (sid, new) → act' ∈ h →
    shown act' = Some (sid, old) → (old ≤ new)%Z
}.

Definition sent_normal (act : FeedAct) : option FrontendUpdate :=
  match act with Pushed u Sent => if is_critical u then None else Some u | _ => None end.
Definition sent_critical (act : FeedAct) : option FrontendUpdate :=
  match act with
  | Pushed u Sent => if is_critical u then Some u else None
  | Recovered u => Some u
  | _ => None
  end.

(** ** Lanes *)

Definition lane_wf {A} (l : Lane A) : Prop := lane_taken l ≤ length (lane_sent l).

Lemma unread_push {A} (x : A) l : lane_wf l → unread (lane_push x l) = unread l ++ [x].
Proof. intros Hw. unfold unread. simpl. by rewrite drop_app_le. Qed.

Lemma send_ok {A} (l : Lane A) : send_state l = SendOk → occupied l < lane_cap l.
Proof. unfold send_state. destruct (receiver_gone l); [done|]. by case_bool_decide. Qed.

Lemma try_send_cases {A} (x : A) l :
  (send_state l = SendOk ∧ try_send x l = (lane_push x l, SendOk))
  ∨ try_send x l = (l, SendFull) ∨ try_send x l = (l, SendClosed).
Proof. unfold try_send. destruct (send_state l); auto. Qed.

(** ** Credits *)

Lemma total_insert c m id n :
  m !! id = None → credits_total {| permits := <[id := n]> m; credits_closed := c |}
                   = n + credits_total {| permits := m; credits_closed := c |}.
Proof. intros Hid. unfold credits_total. simpl. apply map_fold_insert_L; [lia|done]. Qed.

Lemma total_delete c m id n :
  m !! id = Some n → credits_total {| permits := m; credits_closed := c |}
                     = n + credits_total {| permits := delete id m; credits_closed := c |}.
Proof.
  intros Hid. unfold credits_total. simpl.
  apply (map_fold_delete_L (λ _ n total, n + total)); [lia|done].
Qed.

Lemma total_cancel id c :
  credits_total c = credits_total (cancel_credit id c).1 + (cancel_credit id c).2.
Proof.
  destruct c as [m c]. unfold cancel_credit. simpl. destruct (m !! id) as [n|] eqn:Hid; simpl.
  - rewrite (total_delete _ _ _ _ Hid). lia.
  - rewrite delete_id by done. lia.
Qed.

Lemma total_take id c c' : take_credit id c = Some c' → credits_total c = S (credits_total c').
Proof.
  destruct c as [m c]. unfold take_credit. simpl.
  destruct (m !! id) as [[|n]|] eqn:Hid; try done. intros [= <-].
  rewrite (total_delete _ _ _ _ Hid). case_bool_decide as Hn.
  - subst. simpl. lia.
  - rewrite <- insert_delete_eq, total_insert by apply lookup_delete_eq. simpl. lia.
Qed.

Lemma reserve_all_hold {A} count (l l' : Lane A) :
  reserve_all count l = Some l' → occupied l ≤ lane_cap l →
  l' = lane_hold count l ∧ occupied l' ≤ lane_cap l'.
Proof.
  revert l. induction count as [|count IH]; intros l; simpl.
  - intros [= <-] Ho. split; [|done]. destruct l. unfold lane_hold. simpl. f_equal. lia.
  - destruct (send_state l) eqn:Hs; try done. intros Hr _.
    apply send_ok in Hs. unfold occupied in Hs.
    destruct (IH _ Hr) as [-> Ho].
    { unfold occupied, unread, lane_hold in *. simpl in *. lia. }
    split; [|done]. unfold lane_hold. simpl. f_equal. lia.
Qed.

(** ** The invariant *)

(** [r] permits of the critical lane are held by calls in progress, [rev] is the
    last revision given out. *)
Record FeedCore (r : nat) (rev : Z) (f : FrontendFeed) : Prop := {
  fc_normal_cap : lane_cap (tx f) = FRONTEND_UPDATE_CAP;
  fc_critical_cap : lane_cap (critical_tx f) = FRONTEND_CRITICAL_CAP;
  fc_normal_wf : lane_wf (tx f);
  fc_critical_wf : lane_wf (critical_tx f);
  fc_normal_held : lane_held (tx f) = 0;
  fc_critical_held : lane_held (critical_tx f) = credits_total (credits f) + r;
  fc_normal : occupied (tx f) ≤ FRONTEND_UPDATE_CAP;
  fc_critical : occupied (critical_tx f) ≤ FRONTEND_CRITICAL_CAP;
  fc_normal_sent : lane_sent (tx f) = filter_map sent_normal (history f);
  fc_critical_sent : lane_sent (critical_tx f) = filter_map sent_critical (history f);
  fc_fine : always act_fine (history f);
  fc_revisions : ∀ u q, Pushed u q ∈ history f → (up_revision u ≤ rev)%Z;
  fc_max : (rev ≤ u64_max)%Z;
  fc_retained : ∀ u, pending_snapshot f = Some u →
    is_snapshot_ready (up_kind u) = true ∧ Pushed u PushBackpressured ∈ history f
}.

(** A loss that no snapshot covers yet is known to the feed. *)
Definition loss_known (f : FrontendFeed) : Prop :=
  uncovered (history f) = true →
  needs_resync f || awaiting_snapshot f || disconnected f = true.

Record FeedInv (r : nat) (rev : Z) (f : FrontendFeed) : Prop := {
  fi_core : FeedCore r rev f;
  fi_loss : loss_known f
}.

(** A change of the flags alone, and of the retained snapshot. *)
Lemma core_flags r rev f f' :
  FeedCore r rev f → tx f' = tx f → critical_tx f' = critical_tx f → credits f' = credits f →
  history f' = history f →
  (∀ u, pending_snapshot f' = Some u → is_snapshot_ready (up_kind u) = true ∧
    Pushed u PushBackpressured ∈ history f) →
  FeedCore r rev f'.
Proof. intros [] Ht Hc Hcr Hh Hp. split; rewrite ?Ht, ?Hc, ?Hcr, ?Hh; auto. Qed.

Lemma core_later r rev rev' f :
  FeedCore r rev f → (rev ≤ rev')%Z → (rev' ≤ u64_max)%Z → FeedCore r rev' f.
Proof. intros [] ??. split; auto. intros u q Hu. etrans; [by eapply fc_revisions0|done]. Qed.

(** One more act, that lanes and history agree on. *)
Lemma core_act r rev rev' f f' act :
  FeedCore r rev f → act_fine (history f) act →
  history f' = history f ++ [act] →
  (rev ≤ rev')%Z → (rev' ≤ u64_max)%Z →
  (∀ u q, act = Pushed u q → (up_revision u ≤ rev')%Z) →
  lane_wf (tx f') → lane_wf (critical_tx f') →
  lane_cap (tx f') = lane_cap (tx f) → lane_cap (critical_tx f') = lane_cap (critical_tx f) →
  lane_held (tx f') = lane_held (tx f) →
  lane_held (critical_tx f') = credits_total (credits f') + r →
  occupied (tx f') ≤ FRONTEND_UPDATE_CAP → occupied (critical_tx f') ≤ FRONTEND_CRITICAL_CAP →
  lane_sent (tx f') = lane_sent (tx f) ++ option_list (sent_normal act) →
  lane_sent (critical_tx f') = lane_sent (critical_tx f) ++ option_list (sent_critical act) →
  (∀ u, pending_snapshot f' = Some u → is_snapshot_ready (up_kind u) = true ∧
    Pushed u PushBackpressured ∈ history f') →
  FeedCore r rev' f'.
Proof.
  intros [] Hfine Hh Hle Hmax Hrev Hw1 Hw2 Hc1 Hc2 Hh1 Hh2 Ho1 Ho2 Hs1 Hs2 Hp.
  assert (∀ g : FeedAct → option FrontendUpdate,
    filter_map g (history f') = filter_map g (history f) ++ option_list (g act)) as Hfm.
  { intros g. rewrite Hh, filter_map_app. simpl. by destruct (g act). }
  split; try done; try congruence.
  - rewrite Hh. by apply always_snoc.
  - intros u q. rewrite Hh, elem_of_app, list_elem_of_singleton. intros [Hu|<-].
    + etrans; [by eapply fc_revisions0|done].
    + by eapply Hrev.
Qed.

Lemma occupied_push {A} (x : A) l :
  lane_wf l → occupied (lane_push x l) = S (occupied l).
Proof.
  intros Hw. unfold occupied. rewrite unread_push by done. rewrite length_app. simpl.
  unfold lane_push. simpl. lia.
Qed.

Lemma wf_push {A} (x : A) l : lane_wf l → lane_wf (lane_push x l).
Proof. unfold lane_wf. simpl. rewrite length_app. simpl. lia. Qed.

(** [try_resync]. *)
Definition recovered_later (act : FeedAct) : Prop :=
  match act with Recovered _ => True | _ => False end.

Lemma resync_core r rev e v f :
  FeedCore r rev f → FeedCore r rev (try_resync e v f) ∧
  uncovered (history (try_resync e v f)) = uncovered (history f) ∧
  ∃ l, history (try_resync e v f) = history f ++ l ∧ Forall recovered_later l.
Proof.
  intros Hc. unfold try_resync.
  set (u := {| up_epoch := e; up_revision := v; up_request_id := None;
               up_kind := ResyncRequired v |}).
  destruct (try_send_cases u (critical_tx f)) as [[Hok ->]|[->| ->]].
  - apply send_ok in Hok. pose proof Hc as []. split; [|split].
    + eapply (core_act r rev rev f _ (Recovered u)); simpl; try done.
      * split; try done. by intros ? [= <-] [?|[? ?]].
      * by apply wf_push.
      * rewrite occupied_push by done. lia.
      * by rewrite app_nil_r.
      * intros w Hw. destruct (fc_retained0 w Hw). split; [done|set_solver].
    + simpl. rewrite uncovered_snoc. simpl. by rewrite orb_false_r.
    + exists [Recovered u]. split; [done|]. by repeat constructor.
  - split; [done|]. split; [done|]. exists []. by rewrite app_nil_r.
  - split; [by eapply core_flags; eauto; apply Hc|]. split; [done|].
    exists []. by rewrite app_nil_r.
Qed.

Lemma resync_loss e v f : loss_known f → loss_known (try_resync e v f).
Proof.
  intros Hl. unfold try_resync, loss_known in *. destruct (try_send _ _) as [l []]; simpl.
  - intros _. by rewrite ?orb_true_r.
  - done.
  - intros _. by rewrite orb_true_r.
Qed.

Lemma flush_resync_cases e v f :
  flush_resync e v f = f ∨ flush_resync e v f = try_resync e v f.
Proof. unfold flush_resync. destruct (_ || _ || _); auto. Qed.

Lemma flush_resync_core r rev e v f :
  FeedCore r rev f → FeedCore r rev (flush_resync e v f) ∧
  uncovered (history (flush_resync e v f)) = uncovered (history f) ∧
  ∃ l, history (flush_resync e v f) = history f ++ l ∧ Forall recovered_later l.
Proof.
  intros Hf. destruct (flush_resync_cases e v f) as [-> | ->]; [|by apply resync_core].
  split; [done|]. split; [done|]. exists []. by rewrite app_nil_r.
Qed.

Lemma flush_resync_loss e v f : loss_known f → loss_known (flush_resync e v f).
Proof. destruct (flush_resync_cases e v f) as [-> | ->]; [done|apply resync_loss]. Qed.

Lemma flush_resync_inv r rev e v f : FeedInv r rev f → FeedInv r rev (flush_resync e v f).
Proof.
  intros [Hc Hl]. split; [by apply flush_resync_core|by apply flush_resync_loss].
Qed.

(** ** Pushes *)

(** No later view of a session is older. *)
Definition view_fresh (kind : FrontendUpdateKind) (h : list FeedAct) : Prop :=
  ∀ sid new old act, publishes kind = Some (sid, new) → act ∈ h → shown act = Some (sid, old) →
  (old ≤ new)%Z.

Lemma view_fresh_recovery kind h l :
  view_fresh kind h → Forall recovered_later l → view_fresh kind (h ++ l).
Proof.
  intros Hv Hl sid new old act Hp [Hin|Hin]%elem_of_app Hs; [by eapply Hv|].
  rewrite Forall_forall in Hl. specialize (Hl _ Hin). by destruct act.
Qed.

Lemma fine_pushed r rev u q f :
  FeedCore r rev f → up_revision u = bump rev → view_fresh (up_kind u) (history f) →
  (ordinary_sent (Pushed u q) = true → uncovered (history f) = false) →
  act_fine (history f) (Pushed u q).
Proof.
  intros [] Hu Hv Hg. split; [done| | |].
  - intros u' r' v q' [= <- <-] Hin. rewrite Hu. apply later_bump; [by eapply fc_revisions0|done].
  - by intros ? [=].
  - simpl. intros sid new old act Hs Hin Ho. by eapply Hv.
Qed.

(** A push that changes no lane. *)
Lemma core_note r rev u q f f' :
  FeedCore r rev f → up_revision u = bump rev → view_fresh (up_kind u) (history f) →
  q ≠ Sent →
  tx f' = tx f → critical_tx f' = critical_tx f → credits f' = credits f →
  history f' = history f ++ [Pushed u q] →
  (∀ v, pending_snapshot f' = Some v → pending_snapshot f = Some v ∨
    v = u ∧ is_snapshot_ready (up_kind u) = true ∧ q = PushBackpressured) →
  FeedCore r (bump rev) f'.
Proof.
  intros Hc Hu Hv Hq Ht Hcr Hcd Hh Hp. pose proof Hc as [].
  destruct (bump_le rev) as [? ?]; [done|].
  eapply (core_act r rev _ f f' (Pushed u q)); rewrite ?Ht, ?Hcr, ?Hcd; try done.
  - eapply fine_pushed; eauto. by destruct q.
  - intros ? ? [= <- <-]. by rewrite Hu.
  - by destruct q; simpl; rewrite ?app_nil_r.
  - by destruct q; simpl; rewrite ?app_nil_r.
  - intros v Hpv. rewrite Hh. destruct (Hp v Hpv) as [Hold|(-> & Hs & ->)].
    + destruct (fc_retained0 v Hold). split; [done|set_solver].
    + split; [done|set_solver].
Qed.

(** A push that takes its lane. *)
Lemma core_sent r rev u f f' :
  FeedCore r rev f → up_revision u = bump rev → view_fresh (up_kind u) (history f) →
  (is_critical u = false → uncovered (history f) = false) →
  history f' = history f ++ [Pushed u Sent] →
  pending_snapshot f' = pending_snapshot f →
  (if is_critical u
   then tx f' = tx f ∧ lane_cap (critical_tx f') = lane_cap (critical_tx f) ∧
     lane_wf (critical_tx f') ∧
     lane_sent (critical_tx f') = lane_sent (critical_tx f) ++ [u] ∧
     lane_held (critical_tx f') = credits_total (credits f') + r ∧
     occupied (critical_tx f') ≤ FRONTEND_CRITICAL_CAP
   else critical_tx f' = critical_tx f ∧ credits f' = credits f ∧ tx f' = lane_push u (tx f) ∧
     occupied (tx f) < FRONTEND_UPDATE_CAP) →
  FeedCore r (bump rev) f'.
Proof.
  intros Hc Hu Hv Hg Hh Hp Hlane. pose proof Hc as [].
  destruct (bump_le rev) as [? ?]; [done|].
  assert (act_fine (history f) (Pushed u Sent)) as Hfine.
  { eapply fine_pushed; eauto. intros Ho%negb_true_iff. auto. }
  assert (∀ v, pending_snapshot f' = Some v → is_snapshot_ready (up_kind v) = true ∧
    Pushed v PushBackpressured ∈ history f').
  { intros v Hpv. rewrite Hp in Hpv. destruct (fc_retained0 v Hpv). rewrite Hh.
    split; [done|set_solver]. }
  assert (∀ v q, Pushed u Sent = Pushed v q → (up_revision v ≤ bump rev)%Z) as Hrev.
  { intros ? ? [= <- <-]. by rewrite Hu. }
  destruct (is_critical u) eqn:Hcrit.
  - destruct Hlane as (Ht & Hcap & Hwf & Hs & Hheld & Ho).
    eapply (core_act r rev _ f f' (Pushed u Sent)); rewrite ?Ht; simpl; rewrite ?Hcrit; try done.
    by rewrite app_nil_r.
  - destruct Hlane as (Ht & Hcr & Hn & Ho).
    eapply (core_act r rev _ f f' (Pushed u Sent)); rewrite ?Ht, ?Hcr, ?Hn; simpl; rewrite ?Hcrit;
      try done.
    + by apply wf_push.
    + rewrite occupied_push by done. lia.
    + by rewrite app_nil_r.
Qed.

Lemma credit_critical u id : up_request_id u = Some id → is_critical u = true.
Proof. unfold is_critical. by intros ->. Qed.

(** The first conditional of the goal. *)
Ltac case_if := match goal with |- context [if ?b then _ else _] => destruct b end.

Lemma retain_cases u f v :
  pending_snapshot
    (if is_snapshot_ready (up_kind u)
        && match pending_snapshot f with
           | None => true
           | Some p => negb (session.is_some (up_request_id p))
           end
     then set_pending_snapshot (Some u) f else f) = Some v →
  pending_snapshot f = Some v ∨
  v = u ∧ is_snapshot_ready (up_kind u) = true ∧ PushBackpressured = PushBackpressured.
Proof.
  destruct (is_snapshot_ready (up_kind u)); simpl; [|by auto].
  case_if; simpl; [|by auto].
  intros [= <-]. by right.
Qed.

(** What [push] leaves; [force_resync] still has to follow a lost critical update. *)
Record push_post (r : nat) (rev : Z) (u : FrontendUpdate) (f f' : FrontendFeed) (q : FeedPush)
    : Prop := {
  pp_core : FeedCore r (bump rev) f';
  pp_loss : q ≠ PushBackpressured ∨ is_snapshot_ready (up_kind u) = true → loss_known f';
  pp_cover : q = Sent → is_snapshot_ready (up_kind u) = true → uncovered (history f') = false;
  pp_history : ∃ l, history f' = history f ++ l ++ [Pushed u q] ∧ Forall recovered_later l
}.

Lemma try_resync_known e v f :
  needs_resync f = true →
  needs_resync (try_resync e v f) || awaiting_snapshot (try_resync e v f)
  || disconnected (try_resync e v f) = true.
Proof.
  intros Hn. unfold try_resync. destruct (try_send _ _) as [l []]; simpl; by rewrite ?Hn.
Qed.

Lemma push_inv r rev u f f' q :
  FeedInv r rev f → up_revision u = bump rev → view_fresh (up_kind u) (history f) →
  push u f = (f', q) → push_post r rev u f f' q.
Proof.
  intros [Hc Hl] Hu Hv. unfold push, push_inner.
  destruct (disconnected f) eqn:Hd.
  { intros [= <- <-]. split; [| |done|exists []; by split].
    - eapply core_note; try done; [discriminate|by auto].
    - intros _ _. simpl. by rewrite Hd, orb_true_r. }
  destruct (awaiting_snapshot f && negb (is_critical u)) eqn:Ha.
  { apply andb_true_iff in Ha as [Ha _]. intros [= <- <-]. split; [| |done|exists []; by split].
    - eapply core_note; try done; [discriminate|by auto].
    - intros _ _. simpl. by rewrite Ha, orb_true_r. }
  destruct (needs_resync f && negb (is_critical u)) eqn:Hn.
  { apply andb_true_iff in Hn as [Hn _]. intros [= <- <-].
    destruct (resync_core r rev (up_epoch u) (up_revision u) f) as (Hc1 & Hu1 & l & Hh & Hrec);
      [done|].
    split; [| |done|].
    - eapply core_note; try done; [|discriminate|by auto]. rewrite Hh. by apply view_fresh_recovery.
    - intros _ _. by apply try_resync_known.
    - exists l. simpl. by rewrite Hh, app_assoc. }
  destruct (up_request_id u ≫= λ id, take_credit id (credits f)) as [cr|] eqn:Hcr.
  { apply bind_Some in Hcr as (id & Hid & Hcr). apply credit_critical in Hid.
    apply total_take in Hcr. intros [= <- <-]. pose proof Hc as [].
    assert (lane_wf (lane_release 1 (critical_tx f))) by done.
    split; [|intros _| |exists []; by split].
    - eapply core_sent; try done; rewrite Hid; [done|]. simpl.
      repeat split; try done.
      + by apply wf_push.
      + rewrite fc_critical_held0, Hcr. lia.
      + rewrite occupied_push by done. unfold occupied, unread in *. simpl. lia.
    - unfold loss_known in *. simpl. rewrite uncovered_snoc. simpl.
      destruct (is_snapshot_ready _); [done|]. by rewrite orb_false_r.
    - intros _ Hs. simpl. by rewrite uncovered_snoc; simpl; rewrite Hs. }
  unfold push_unreserved.
  destruct (try_send_cases u (lane_for (is_critical u) f)) as [[Hok Hs]|[Hs|Hs]]; rewrite Hs.
  - intros [= <- <-]. apply send_ok in Hok. pose proof Hc as [].
    split; [|intros _| |exists []; split; [by destruct (is_critical u)|done]].
    + eapply core_sent; try done.
      * intros Hcrit. rewrite Hcrit in *. simpl in *. rewrite !andb_true_r in *.
        destruct (uncovered (history f)) eqn:Huc; [|done].
        specialize (Hl Huc). rewrite Ha, Hn, Hd in Hl. done.
      * by destruct (is_critical u).
      * by destruct (is_critical u).
      * destruct (is_critical u); simpl in *.
        -- repeat split; try done; [by apply wf_push|]. rewrite occupied_push by done. lia.
        -- repeat split; try done. lia.
    + unfold loss_known in *. destruct (is_critical u); simpl; rewrite uncovered_snoc; simpl;
        (destruct (is_snapshot_ready _); [done|]; by rewrite orb_false_r).
    + intros _ Hsn. destruct (is_critical u); simpl; rewrite uncovered_snoc; simpl; by rewrite Hsn.
  - destruct (is_critical u) eqn:Hcrit; intros [= <- <-].
    + split; [| |done|].
      * eapply (core_note r rev u PushBackpressured f); try done; try (by case_if).
        intros v. apply retain_cases.
      * intros [|Hsn]; [done|]. unfold loss_known. simpl.
        replace (history (if _ : bool then _ else _)) with (history f) by by case_if.
        rewrite uncovered_snoc. simpl. rewrite Hsn, orb_false_r. by case_if.
      * exists []. split; [|done]. by case_if.
    + split; [| |done|exists []; by split].
      * eapply core_note; try done; [discriminate|by auto].
      * by intros _.
  - intros [= <- <-]. split; [| |done|exists []; by split].
    + eapply core_note; try done; [discriminate|by auto].
    + intros _ _. simpl. by rewrite orb_true_r.
Qed.

(** ** The other operations of the actor *)

Lemma force_resync_inv r rev f : FeedCore r rev f → FeedInv r rev (force_resync f).
Proof.
  intros Hc. unfold force_resync. destruct (disconnected f) eqn:Hd; simpl.
  { split; [done|]. unfold loss_known. by rewrite Hd, orb_true_r. }
  destruct (awaiting_snapshot f) eqn:Ha; simpl.
  { split; [done|]. unfold loss_known. by rewrite Ha, orb_true_r. }
  split; [|done]. by eapply core_flags; eauto; apply Hc.
Qed.

Lemma history_force_resync f : history (force_resync f) = history f.
Proof. unfold force_resync. by case_if. Qed.

Lemma snapshot_ready_inv r rev q f :
  FeedInv r rev f → (q = Sent → uncovered (history f) = false) →
  FeedInv r rev (on_snapshot_ready q f).
Proof.
  intros [Hc Hl] Hq. destruct q; try done. split.
  - by eapply core_flags; eauto; apply Hc.
  - unfold loss_known. simpl. by rewrite Hq.
Qed.

Lemma history_snapshot_ready q f : history (on_snapshot_ready q f) = history f.
Proof. by destruct q. Qed.

Lemma release_inv r rev id f : FeedInv r rev f → FeedInv r rev (cancel_request id f).
Proof.
  intros [Hc Hl]. unfold cancel_request. pose proof (total_cancel id (credits f)) as Ht.
  destruct (cancel_credit id (credits f)) as [cr n]. simpl in Ht.
  split; [|done]. destruct Hc. split; try done.
  - simpl. lia.
  - unfold occupied, unread in *. simpl. lia.
Qed.

Lemma history_cancel id f : history (cancel_request id f) = history f.
Proof. unfold cancel_request. by destruct (cancel_credit _ _). Qed.

Lemma close_inv r rev f : FeedInv r rev f → FeedInv r rev (close_feed f).
Proof.
  intros [Hc Hl]. split; [|done]. destruct Hc. split; try done.
  - simpl. unfold credits_total at 2. simpl. rewrite map_fold_empty. lia.
  - unfold occupied, unread in *. simpl. lia.
Qed.

Lemma flush_pending_inv r rev f :
  FeedInv r rev f → FeedInv r rev (flush_pending_critical f) ∧
  ∃ l, history (flush_pending_critical f) = history f ++ l ∧ Forall recovered_later l.
Proof.
  intros [Hc Hl]. unfold flush_pending_critical.
  destruct (pending_snapshot f) as [u|] eqn:Hp; [|split; [done|exists []; by rewrite app_nil_r]].
  pose proof Hc as []. destruct (fc_retained0 u Hp) as [Hs Hin].
  destruct (try_send_cases u (critical_tx f)) as [[Hok ->]|[->| ->]].
  - apply send_ok in Hok. split; [|exists [Recovered u]; split; [done|by repeat constructor]].
    apply snapshot_ready_inv.
    + split.
      * eapply (core_act r rev rev f _ (Recovered u)); simpl; try done.
        -- split; try done. by intros ? [= <-].
        -- by apply wf_push.
        -- rewrite occupied_push by done. lia.
        -- by rewrite app_nil_r.
      * unfold loss_known. simpl. rewrite uncovered_snoc. simpl. by rewrite Hs.
    + intros _. simpl. rewrite uncovered_snoc. simpl. by rewrite Hs.
  - split; [done|]. exists []. by rewrite app_nil_r.
  - split; [|exists []; by rewrite app_nil_r]. split.
    + by eapply core_flags.
    + unfold loss_known. simpl. by rewrite orb_true_r.
Qed.

(** ** The operations of the client *)

Lemma recv_lane {A} (l l' : Lane A) u :
  try_recv l = (l', u) → lane_wf l →
  lane_cap l' = lane_cap l ∧ lane_sent l' = lane_sent l ∧ lane_held l' = lane_held l ∧
  lane_wf l' ∧ occupied l' ≤ occupied l.
Proof.
  unfold try_recv. intros Hr Hw. destruct (unread l) as [|x rest] eqn:Hu; simplify_eq/=; [by auto|].
  repeat split; try done.
  - unfold lane_wf, unread in *. simpl. apply (f_equal length) in Hu.
    rewrite length_drop in Hu. simpl in Hu. lia.
  - unfold occupied, unread in *. simpl. rewrite !length_drop. lia.
Qed.

(** Any lane that shows the same messages and takes no more room. *)
Lemma core_normal r rev f l :
  FeedInv r rev f → lane_cap l = lane_cap (tx f) → lane_sent l = lane_sent (tx f) →
  lane_held l = lane_held (tx f) → lane_wf l → occupied l ≤ occupied (tx f) →
  FeedInv r rev (set_tx l f).
Proof. intros [[] Hl] ?????. split; [|done]. split; simpl; try done; try congruence; try lia. Qed.

Lemma core_critical r r' rev f l :
  FeedInv r rev f → lane_cap l = lane_cap (critical_tx f) →
  lane_sent l = lane_sent (critical_tx f) →
  lane_held l + r = lane_held (critical_tx f) + r' → lane_wf l →
  occupied l ≤ FRONTEND_CRITICAL_CAP → FeedInv r' rev (set_critical_tx l f).
Proof. intros [[] Hl] ?????. split; [|done]. split; simpl; try done; try congruence; try lia. Qed.

Lemma fill_normal_inv r rev f rx rx' l :
  FeedInv r rev f → fill_normal rx (tx f) = (rx', l) → FeedInv r rev (set_tx l f).
Proof.
  intros Hf. unfold fill_normal. destruct (normal_buffer rx); simpl.
  - intros [= <- <-]. by apply core_normal; try done; apply Hf.
  - destruct (try_recv _) as [l' u] eqn:Hr. intros [= <- <-].
    destruct (recv_lane _ _ _ Hr) as (?&?&?&?&?); [apply Hf|]. by apply core_normal.
Qed.

Lemma fill_critical_inv r rev f rx rx' l :
  FeedInv r rev f → fill_critical rx (critical_tx f) = (rx', l) →
  FeedInv r rev (set_critical_tx l f).
Proof.
  intros Hf. unfold fill_critical. pose proof (fc_critical _ _ _ (fi_core _ _ _ Hf)) as Ho.
  destruct (critical_buffer rx); simpl.
  - intros [= <- <-]. by eapply core_critical; try done; apply Hf.
  - destruct (try_recv _) as [l' u] eqn:Hr. intros [= <- <-].
    destruct (recv_lane _ _ _ Hr) as (?&?&?&?&?); [apply Hf|].
    eapply core_critical; try done; lia.
Qed.

Lemma hold_inv r rev f :
  FeedInv r rev f → send_state (critical_tx f) = SendOk →
  FeedInv (S r) rev (set_critical_tx (lane_hold 1 (critical_tx f)) f).
Proof.
  intros Hf Hs%send_ok. pose proof (fc_critical_cap _ _ _ (fi_core _ _ _ Hf)).
  eapply core_critical; try done; simpl; [lia|apply Hf|].
  unfold occupied, unread in *. simpl. lia.
Qed.

Lemma unhold_inv r rev f :
  FeedInv (S r) rev f →
  FeedInv r rev (set_critical_tx (lane_release 1 (critical_tx f)) f).
Proof.
  intros Hf. pose proof (fc_critical _ _ _ (fi_core _ _ _ Hf)).
  pose proof (fc_critical_held _ _ _ (fi_core _ _ _ Hf)).
  eapply core_critical; try done; simpl; [lia|apply Hf|].
  unfold occupied, unread in *. simpl. lia.
Qed.

Lemma reserve_inv r rev id count f f' granted :
  FeedInv r rev f → reserve_reply id count f = (f', granted) → FeedInv r rev f'.
Proof.
  intros Hf. pose proof Hf as [[] Hl]. unfold reserve_reply, reserve.
  assert (set_critical_tx (critical_tx f) (set_credits (credits f) f) = f) as Hsame
    by by destruct f.
  case_bool_decide; [intros [= <- <-]; by rewrite Hsame|].
  destruct (credits_closed (credits f)) eqn:Hcl; [intros [= <- <-]; by rewrite Hsame|].
  destruct (reserve_all _ _) as [l|] eqn:Hr; [|intros [= <- <-]; by rewrite Hsame].
  destruct (permits (credits f) !! id) eqn:Hid; intros [= <- <-]; [by rewrite Hsame|].
  apply reserve_all_hold in Hr as [-> Ho]; [|by rewrite fc_critical_cap0].
  split; [|done]. split; simpl; try done.
  - rewrite fc_critical_held0, total_insert by done. destruct (credits f). simpl in *. subst. lia.
  - unfold occupied, unread in *. simpl in *. lia.
Qed.

Lemma history_reserve id count f : history (reserve_reply id count f).1 = history f.
Proof. unfold reserve_reply. by destruct (reserve _ _ _ _) as [[]]. Qed.

(** ** The client's merge *)

Definition by_revision (u v : FrontendUpdate) : Prop := (up_revision u ≤ up_revision v)%Z.
#[export] Instance by_revision_dec : RelDecision by_revision.
Proof. intros u v. unfold by_revision. apply _. Defined.
#[export] Instance by_revision_total : Total by_revision.
Proof. intros u v. unfold by_revision. lia. Qed.
#[export] Instance by_revision_trans : Transitive by_revision.
Proof. intros u v w. unfold by_revision. lia. Qed.

(** What the client has of a lane: its buffer, then what is unread. *)
Definition ahead (buffer : option FrontendUpdate) (l : Lane FrontendUpdate) : list FrontendUpdate :=
  option_list buffer ++ unread l.

Lemma unread_recv {A} (l : Lane A) :
  try_recv l = (l, None) ∧ unread l = [] ∨
  ∃ x l', try_recv l = (l', Some x) ∧ unread l = x :: unread l'.
Proof.
  unfold try_recv. destruct (unread l) as [|x rest] eqn:Hu; [by left|right].
  eexists x, _. split; [done|]. unfold unread in *. simpl.
  f_equal. change (S (lane_taken l)) with (1 + lane_taken l).
  rewrite Nat.add_comm, <- drop_drop, Hu. done.
Qed.

Lemma fill_normal_ahead rx l rx' l' :
  fill_normal rx l = (rx', l') →
  ahead (normal_buffer rx') l' = ahead (normal_buffer rx) l ∧
  critical_buffer rx' = critical_buffer rx ∧
  (normal_buffer rx' = None → unread l' = []).
Proof.
  unfold fill_normal, ahead. destruct (normal_buffer rx) as [u|] eqn:Hb; [intros [= <- <-]; by rewrite Hb|].
  destruct (unread_recv l) as [[-> Hu]|(x & l1 & -> & Hu)]; intros [= <- <-]; simpl; by rewrite ?Hu.
Qed.

Lemma fill_critical_ahead rx l rx' l' :
  fill_critical rx l = (rx', l') →
  ahead (critical_buffer rx') l' = ahead (critical_buffer rx) l ∧
  normal_buffer rx' = normal_buffer rx ∧
  (critical_buffer rx' = None → unread l' = []).
Proof.
  unfold fill_critical, ahead. destruct (critical_buffer rx) as [u|] eqn:Hb; [intros [= <- <-]; by rewrite Hb|].
  destruct (unread_recv l) as [[-> Hu]|(x & l1 & -> & Hu)]; intros [= <- <-]; simpl; by rewrite ?Hu.
Qed.

(** One receive takes the head of the merge. *)
Lemma receive_merge rx nl cl :
  ∃ rx' nl' cl' u, receive rx nl cl = (rx', nl', cl', u) ∧
    list_merge by_revision (ahead (normal_buffer rx) nl) (ahead (critical_buffer rx) cl) =
    option_list u ++
    list_merge by_revision (ahead (normal_buffer rx') nl') (ahead (critical_buffer rx') cl') ∧
    (u = None → ahead (normal_buffer rx) nl = [] ∧ ahead (critical_buffer rx) cl = []).
Proof.
  unfold receive.
  destruct (fill_normal rx nl) as [rx1 nl1] eqn:H1. apply fill_normal_ahead in H1 as (<- & <- & Hn).
  destruct (fill_critical rx1 cl) as [rx2 cl1] eqn:H2.
  apply fill_critical_ahead in H2 as (<- & Hn2 & Hc). rewrite <- Hn2 in *.
  unfold pop_next, ahead.
  destruct (normal_buffer rx2) as [n|] eqn:Hnb, (critical_buffer rx2) as [c|] eqn:Hcb.
  - destruct (up_revision n <=? up_revision c)%Z eqn:Hle; do 4 eexists; (split; [done|]);
      (split; [|done]); simpl; rewrite ?Hcb, ?Hnb; simpl.
    + rewrite decide_True by (unfold by_revision; lia). done.
    + rewrite decide_False by (unfold by_revision; lia). done.
  - rewrite (Hc eq_refl). do 4 eexists. split; [done|]. split; [|done]. simpl. rewrite Hcb.
    rewrite (Hc eq_refl). simpl. by destruct (unread nl1).
  - rewrite (Hn eq_refl). do 4 eexists. split; [done|]. split; [|done]. simpl. rewrite Hnb.
    rewrite (Hn eq_refl). simpl. by destruct (unread cl1).
  - do 4 eexists. split; [done|]. rewrite Hnb, Hcb. simpl.
    by rewrite (Hn eq_refl), (Hc eq_refl).
Qed.

Lemma receive_all_merge n rx nl cl :
  receive_all n rx nl cl =
  firstn n (list_merge by_revision (ahead (normal_buffer rx) nl) (ahead (critical_buffer rx) cl)).
Proof.
  revert rx nl cl. induction n as [|n IH]; intros rx nl cl; [done|]. simpl.
  destruct (receive_merge rx nl cl) as (rx' & nl' & cl' & [u|] & -> & Hm & He); rewrite Hm.
  - simpl. f_equal. apply IH.
  - destruct (He eq_refl) as [E1 E2]. rewrite E1, E2 in Hm. by rewrite <- Hm.
Qed.

(** while nothing is sent, the frontend receives exactly the updates of its
    two lanes, merged by revision: in order when each lane is. *)
Theorem client_merges_by_revision (nl cl : Lane FrontendUpdate) n :
  length (unread nl) + length (unread cl) ≤ n →
  let received := receive_all n receiver_new nl cl in
  received ≡ₚ unread nl ++ unread cl ∧
  (Sorted by_revision (unread nl) → Sorted by_revision (unread cl) →
   Sorted by_revision received).
Proof.
  intros Hn. cbv zeta. rewrite receive_all_merge, firstn_all2.
  - split; [apply merge_Permutation|]. intros. apply (Sorted_list_merge by_revision _ _); done.
  - rewrite merge_Permutation, length_app. done.
Qed.

End feed_proofs.
