(* ===== verification/ServiceLogic.v ===== *)
(** The logic in which the methods of the service actor are verified: what
    every method keeps, how it may change the world, and the rules for the
    operations of the monad. A method that keeps the invariant does not panic. *)

From S2P Require Import Prelude RustStr Kernel Session SessionLifecycle SessionContext SessionStore.
From S2P Require Import Tools Runtime RuntimeMapping Operation Outlets Epoch Coordinator.
From S2P Require Import Service ServiceSnapshot ServiceMapping ServiceFeed ServiceActor.
From S2P Require Import ServiceSystem ServiceParts ServiceFeedProofs.
Import runtime service service_snapshot feed service_actor service_system.
Import service_parts feed_proofs.

Module service_logic.

(** ** The invariant of the actor *)

Definition shutdown_rank (s : ServiceShutdownState) : nat :=
  match s with
  | Running => 0 | StopAccepting => 1 | RuntimeDraining => 2 | ChildrenJoining => 3 | Stopped => 4
  end.

(** A token was taken from a state that the actor has left behind. *)
Definition token_past (a : Actor) (token : SnapshotLoadToken) : Prop :=
  (token_live_cursor token ≤ live_cursor a)%Z ∧
  (requested_floor token ≤ required_for (token_session_id token) (snapshot a))%Z.

Definition task_ok (a : Actor) (task : ServiceTask) : Prop :=
  match task with
  | TaskStoreView _ _ kind _ => ∀ token, tracked_token kind = Some token → token_past a token
  | _ => True
  end.

Definition is_work (c : Child) : bool :=
  match child_task c with TaskShutdown _ _ => false | _ => true end.

Record child_ok (n : nat) (a : Actor) (c : Child) : Prop := {
  child_known : child_id c < n;
  child_past : task_ok a (child_task c);
  child_result : ∀ result, child_end c = Some (Some result) → finishes (child_task c) result
}.

(** [r] permits are held by calls in progress, [n] tasks were spawned. *)
Record ActorInv (r n : nat) (a : Actor) : Prop := {
  ai_feed : FeedInv r (revision a) (feed_end a);
  ai_views : ∀ act sid v, act ∈ history (feed_end a) → shown act = Some (sid, v) →
    (v ≤ published_for sid (snapshot a))%Z;
  ai_confirmations : confirmations_ok (current_lease_generation a) (confirmations a);
  ai_children : Forall (child_ok n a) (child_tasks a);
  ai_ids : NoDup (child_id <$> child_tasks a);
  ai_work : length (filter is_work (child_tasks a)) ≤ STORE_COMMAND_CAP;
  ai_notices : length (notices a) ≤ 8;
  ai_queued : length (queued a) ≤ RUNTIME_QUEUE_MAX;
  ai_live : live_bounded (live a);
  ai_cache : cache_bounded (session_generations a);
  ai_cursor : (live_cursor a ≤ u64_max)%Z;
  ai_epoch : (epoch a ≤ u64_max)%Z;
  ai_lease : (next_lease_generation a ≤ u64_max)%Z
}.

(** ** How the world changes *)

(** Counters of the actor that never go back. *)
Record forward (a a' : Actor) : Prop := {
  fw_cursor : (live_cursor a ≤ live_cursor a')%Z;
  fw_epoch : (epoch a ≤ epoch a')%Z;
  fw_revision : (revision a ≤ revision a')%Z;
  fw_lease : (next_lease_generation a ≤ next_lease_generation a')%Z;
  fw_required : ∀ sid, (required_for sid (snapshot a) ≤ required_for sid (snapshot a'))%Z;
  fw_published : ∀ sid, (published_for sid (snapshot a) ≤ published_for sid (snapshot a'))%Z;
  fw_shutdown : shutdown_rank (shutdown a) ≤ shutdown_rank (shutdown a')
}.
#[export] Instance forward_preorder : PreOrder forward.
Proof.
  split; [by split|]. intros a1 a2 a3 [] []. split; try lia; intros; etrans; eauto.
Qed.

(** New updates show no view below the floor of its session. *)
Definition floors (a : Actor) (acts : list FeedAct) : Prop :=
  Forall (λ act, ∀ sid v, shown act = Some (sid, v) →
    (required_for sid (snapshot a) ≤ v)%Z) acts.

Lemma no_acts a h : ∃ l, h = h ++ l ∧ floors a l.
Proof. exists []. rewrite app_nil_r. split; [done|constructor]. Qed.

Definition askers (w : World) : list Asker :=
  (answers w).*1 ++ waiting (confirmations (actor w)).

(** A quiet change of the actor that leaves feed and counters alone. *)
Ltac quiet :=
  let HI := fresh "HI" in
  intros ? HI; destruct HI;
  split; simpl; auto with service;
  try (exists []; by rewrite app_nil_r);
  try (split; simpl; intros; unfold bump, runtime.saturating_add; lia);
  try (unfold bump, runtime.saturating_add; lia).

Section logic.
Context `{Build, Outside, service_mapping.ToolPorts, ServiceOrders, DebugSessionError, DebugReport}.
(** [r] permits are held by calls in progress; only [granted] askers may be
    allowed what they ask. *)
Variables (r : nat) (granted : Asker → Prop).

Definition Inv (w : World) : Prop := ActorInv r (tasks_spawned w) (actor w).

(** What any method may do. *)
Record drifts (w w' : World) : Prop := {
  dr_forward : forward (actor w) (actor w');
  dr_history : ∃ l, history (feed_end (actor w')) = history (feed_end (actor w)) ++ l ∧
    floors (actor w) l;
  dr_answers : ∃ l, answers w' = answers w ++ l ∧
    Forall (λ x, x.2 = Deny ∨ granted x.1) l;
  dr_askers : askers w' ≡ₚ askers w;
  dr_spawned : tasks_spawned w ≤ tasks_spawned w';
  dr_replies : supervisor_replies w `prefix_of` supervisor_replies w'
}.

(** What most methods do: the lease, the shutdown and the children stay. *)
Record evolves (w w' : World) : Prop := {
  ev_drifts : drifts w w';
  ev_attached : attached (actor w') = attached (actor w);
  ev_shutdown : shutdown (actor w') = shutdown (actor w);
  ev_children : child_tasks (actor w) `prefix_of` child_tasks (actor w');
  ev_replies : supervisor_replies w' = supervisor_replies w
}.

(** What attaching and detaching do: the shutdown and the children stay. *)
Record stays (w w' : World) : Prop := {
  sy_drifts : drifts w w';
  sy_shutdown : shutdown (actor w') = shutdown (actor w);
  sy_children : child_tasks (actor w) `prefix_of` child_tasks (actor w')
}.

Lemma floors_forward a a' l : forward a a' → floors a' l → floors a l.
Proof.
  intros Hf Hl. eapply Forall_impl; [done|]. simpl. intros act Ha sid v Hs.
  etrans; [by apply (fw_required _ _ Hf)|by apply Ha].
Qed.

#[export] Instance drifts_preorder : PreOrder drifts.
Proof.
  split.
  - intros w. split; try done; exists []; (split; [by rewrite app_nil_r|constructor]).
  - intros w1 w2 w3 [F1 (l1 & E1 & L1) (m1 & A1 & M1) P1 S1 R1]
      [F2 (l2 & E2 & L2) (m2 & A2 & M2) P2 S2 R2]. split.
    + by etrans.
    + exists (l1 ++ l2). rewrite E2, E1, app_assoc. split; [done|]. apply Forall_app. split; [done|].
      by eapply floors_forward.
    + exists (m1 ++ m2). rewrite A2, A1, app_assoc. split; [done|]. by apply Forall_app.
    + by rewrite P2.
    + lia.
    + by etrans.
Qed.

#[export] Instance evolves_preorder : PreOrder evolves.
Proof.
  split; [by split|]. intros w1 w2 w3 [] []. split; try congruence; by etrans.
Qed.

#[export] Instance stays_preorder : PreOrder stays.
Proof.
  split; [by split|]. intros w1 w2 w3 [] []. split; try congruence; by etrans.
Qed.

Lemma evolves_stays w w' : evolves w w' → stays w w'.
Proof. by intros []. Qed.

(** While the service drains, a child waits for the runtime; while it joins
    its children there is one. *)
Definition drain_ok (a : Actor) : Prop :=
  match shutdown a with
  | Running | Stopped => True
  | StopAccepting | RuntimeDraining => Exists (λ c, is_work c = false) (child_tasks a)
  | ChildrenJoining => child_tasks a ≠ []
  end.

(** What a turn of the loop does. *)
Definition steps (w w' : World) : Prop :=
  drifts w w' ∧ (drain_ok (actor w) → drain_ok (actor w')).
#[export] Instance steps_preorder : PreOrder steps.
Proof. split; [by intros w|]. intros w1 w2 w3 [? ?] [? ?]. split; [by etrans|tauto]. Qed.

Lemma stays_steps w w' : stays w w' → steps w w'.
Proof.
  intros [Hd Hs [l Hc]]. split; [done|]. unfold drain_ok. rewrite Hs, Hc.
  destruct (shutdown (actor w)); rewrite ?Exists_app; try tauto.
  intros ? [??]%app_eq_nil. done.
Qed.

(** ** Judgements *)

(** The result of a method that does not panic. *)
Definition wp {A} (m : M A) (Q : A → World → Prop) (w : World) : Prop :=
  match m w with (w', Some a) => Q a w' | (_, None) => False end.

(** From a state of the invariant [m] does not panic, keeps it, and changes the
    world as [R] says. *)
Definition keeps {A} (R : relation World) (w : World) (m : M A) : Prop :=
  Inv w → wp m (λ _ w', Inv w' ∧ R w w') w.

Definition good_at {A} : World → M A → Prop := keeps evolves.
Definition good {A} (m : M A) : Prop := ∀ w, good_at w m.
Definition fair_at {A} : World → M A → Prop := keeps drifts.
Definition fair {A} (m : M A) : Prop := ∀ w, fair_at w m.

Lemma kept_weaken {A} (R R' : relation World) w (m : M A) :
  (∀ w w', R w w' → R' w w') → keeps R w m → keeps R' w m.
Proof.
  intros HR Hm HI. specialize (Hm HI). unfold wp in *. destruct (m w) as [w' [a|]]; [|done].
  naive_solver.
Qed.

Definition stay_at {A} : World → M A → Prop := keeps stays.

Lemma kept_weaken_at {A} (R R' : relation World) w (m : M A) :
  (∀ w', R w w' → R' w w') → keeps R w m → keeps R' w m.
Proof.
  intros HR Hm HI. specialize (Hm HI). unfold wp in *. destruct (m w) as [w' [a|]]; [|done].
  naive_solver.
Qed.

Lemma good_stay {A} w (m : M A) : good_at w m → stay_at w m.
Proof. apply kept_weaken, evolves_stays. Qed.
Lemma stay_fair {A} w (m : M A) : stay_at w m → fair_at w m.
Proof. apply kept_weaken. by intros ?? []. Qed.
Lemma good_fair {A} w (m : M A) : good_at w m → fair_at w m.
Proof. apply kept_weaken. by intros ?? []. Qed.

Lemma kept_ret {A} (R : relation World) `{!Reflexive R} w (a : A) : keeps R w (ret a).
Proof. intros HI. by split. Qed.

(** Sequencing: the rest runs from the state that [m] leaves. *)
Lemma kept_bind {A B} (R : relation World) `{!PreOrder R} w (m : M A) (f : A → M B) :
  keeps R w m → (∀ a, (m w).2 = Some a → keeps R (m w).1 (f a)) → keeps R w (bind m f).
Proof.
  intros Hm Hf HI. specialize (Hm HI). unfold wp, bind in *.
  destruct (m w) as [w1 [a|]] eqn:Hw; [|done]. destruct Hm as [HI1 HR1].
  specialize (Hf a eq_refl HI1). unfold wp in Hf. simpl in Hf.
  destruct (f a w1) as [w2 [b|]]; [|done]. destruct Hf as [HI2 HR2].
  split; [done|by etrans].
Qed.

(** The same with a relation for each half. *)
Lemma kept_seq {A B} (R1 R2 R3 : relation World) w (m : M A) (f : A → M B) :
  (∀ w1 w2 w3, R1 w1 w2 → R2 w2 w3 → R3 w1 w3) →
  keeps R1 w m → (∀ a, (m w).2 = Some a → keeps R2 (m w).1 (f a)) → keeps R3 w (bind m f).
Proof.
  intros HR Hm Hf HI. specialize (Hm HI). unfold wp, bind in *.
  destruct (m w) as [w1 [a|]] eqn:Hw; [|done]. destruct Hm as [HI1 HR1].
  specialize (Hf a eq_refl HI1). unfold wp in Hf. simpl in Hf.
  destruct (f a w1) as [w2 [b|]]; [|done]. destruct Hf as [HI2 HR2].
  split; [done|by eapply HR].
Qed.

Lemma kept_self {A B} (R : relation World) (g : Actor → A) (f : A → M B) w :
  keeps R w (f (g (actor w))) → keeps R w (let! x := self g in f x).
Proof. done. Qed.
Lemma kept_get {B} (R : relation World) (f : World → M B) w :
  keeps R w (f w) → keeps R w (let! x := get in f x).
Proof. done. Qed.
Lemma kept_inv {A} (R : relation World) w (m : M A) : (Inv w → keeps R w m) → keeps R w m.
Proof. intros Hm HI. by apply Hm. Qed.

(** One step, and the rest from the state it leaves. *)
Lemma kept_then {A} (R : relation World) `{!PreOrder R} w (f : World → World) (k : M A) :
  keeps R w (modify f) → keeps R (f w) k → keeps R w (modify f ;; k).
Proof. intros Hf Hk. apply kept_bind; [done|done|]. by intros _ _. Qed.

(** ** Changes of the actor *)

(** Acts that show no view. *)
Definition hidden (act : FeedAct) : Prop := shown act = None.

(** A change of the actor that keeps the lease, the shutdown, the children and
    the confirmations, and every part of the invariant. *)
Record quiet (a a' : Actor) : Prop := {
  qt_forward : forward a a';
  qt_feed : FeedInv r (revision a) (feed_end a) → FeedInv r (revision a') (feed_end a');
  qt_history : ∃ l, history (feed_end a') = history (feed_end a) ++ l ∧ Forall hidden l;
  qt_confirmations : confirmations a' = confirmations a;
  qt_attached : attached a' = attached a;
  qt_shutdown : shutdown a' = shutdown a;
  qt_children : child_tasks a' = child_tasks a;
  qt_notices : length (notices a) ≤ 8 → length (notices a') ≤ 8;
  qt_queued : length (queued a) ≤ RUNTIME_QUEUE_MAX → length (queued a') ≤ RUNTIME_QUEUE_MAX;
  qt_live : live_bounded (live a) → live_bounded (live a');
  qt_cache : cache_bounded (session_generations a) → cache_bounded (session_generations a');
  qt_cursor : (live_cursor a ≤ u64_max → live_cursor a' ≤ u64_max)%Z;
  qt_epoch : (epoch a ≤ u64_max → epoch a' ≤ u64_max)%Z;
  qt_lease : (next_lease_generation a ≤ u64_max → next_lease_generation a' ≤ u64_max)%Z
}.

Lemma child_ok_forward n n' a a' c :
  child_ok n a c → forward a a' → n ≤ n' → child_ok n' a' c.
Proof.
  intros [] Hf ?. split; [lia| |done]. destruct (child_task c); try done. simpl in *.
  intros token Ht. destruct (child_past0 token Ht). pose proof (fw_cursor _ _ Hf).
  pose proof (fw_required _ _ Hf (token_session_id token)). split; [lia|].
  etrans; [done|]. destruct token. done.
Qed.

Lemma views_forward a a' l :
  (∀ act sid v, act ∈ history (feed_end a) → shown act = Some (sid, v) →
    (v ≤ published_for sid (snapshot a))%Z) →
  forward a a' → history (feed_end a') = history (feed_end a) ++ l →
  (∀ act sid v, act ∈ l → shown act = Some (sid, v) →
    (v ≤ published_for sid (snapshot a'))%Z) →
  ∀ act sid v, act ∈ history (feed_end a') → shown act = Some (sid, v) →
    (v ≤ published_for sid (snapshot a'))%Z.
Proof.
  intros Hold Hf -> Hnew act sid v [Hin|Hin]%elem_of_app Hs; [|by eapply Hnew].
  etrans; [by eapply Hold|]. apply Hf.
Qed.

Lemma quiet_inv n a a' : quiet a a' → ActorInv r n a → ActorInv r n a'.
Proof.
  intros [] HI. destruct qt_history0 as (l & Hl & Hh). destruct HI. split; auto.
  - eapply views_forward; [done|done|done|]. intros act sid v Hin Hs.
    rewrite Forall_forall in Hh. specialize (Hh _ Hin). unfold hidden in Hh. congruence.
  - unfold current_lease_generation in *. by rewrite qt_confirmations0, qt_attached0.
  - rewrite qt_children0. eapply Forall_impl; [done|]. simpl.
    intros c Hc. by eapply child_ok_forward.
  - by rewrite qt_children0.
  - by rewrite qt_children0.
Qed.

(** A change of the actor and of the number of questions asked. *)
Lemma quiet_drifts w w' :
  quiet (actor w) (actor w') → answers w' = answers w → tasks_spawned w' = tasks_spawned w →
  supervisor_replies w' = supervisor_replies w → evolves w w'.
Proof.
  intros [] Ha Ht Hr. destruct qt_history0 as (l & Hl & Hh). split; try done; [split|].
  - done.
  - exists l. split; [done|]. eapply Forall_impl; [done|]. unfold hidden. naive_solver.
  - exists []. by rewrite Ha, app_nil_r.
  - unfold askers. by rewrite Ha, qt_confirmations0.
  - by rewrite Ht.
  - by rewrite Hr.
  - by rewrite qt_children0.
Qed.

Lemma service_good_update w f :
  (∀ n, ActorInv r n (actor w) → quiet (actor w) (f (actor w))) → good_at w (update f).
Proof.
  intros Hq HI. unfold update, modify, wp. simpl. specialize (Hq _ HI). split.
  - by eapply quiet_inv.
  - by apply quiet_drifts.
Qed.

Lemma service_quiet_refl a : quiet a a.
Proof. split; try done. exists []. by rewrite app_nil_r. Qed.

(** A change of the world beside the actor, the answers and the replies. *)
Lemma service_good_modify w f :
  actor (f w) = actor w → answers (f w) = answers w → tasks_spawned (f w) = tasks_spawned w →
  supervisor_replies (f w) = supervisor_replies w → good_at w (modify f).
Proof.
  intros Ha Han Ht Hr HI. unfold modify, wp. split.
  - unfold Inv in *. by rewrite Ha, Ht.
  - apply quiet_drifts; try done. rewrite Ha. apply service_quiet_refl.
Qed.

Lemma good_ask {A} (question : nat → A) : good (ask question).
Proof.
  intros w. apply kept_get, kept_bind; [apply _|by apply service_good_modify|].
  intros _ _. apply kept_ret, _.
Qed.

Lemma service_good_when (t : bool) m w : (t = true → good_at w m) → good_at w (when t m).
Proof. destruct t; [by auto|intros _; apply kept_ret, _]. Qed.

Lemma good_for_each {A} (l : list A) body : (∀ x, good (body x)) → good (for_each l body).
Proof.
  intros Hb. induction l as [|x l IH]; intros w; simpl; [apply kept_ret, _|].
  apply kept_bind; [apply _|apply Hb|intros _ _; apply IH].
Qed.

(** ** Emission *)

(** A view is shown at the revision that was published last, above its floor. *)
Definition emits_ok (a : Actor) (kind : FrontendUpdateKind) : Prop :=
  ∀ sid v, publishes kind = Some (sid, v) →
    v = published_for sid (snapshot a) ∧ (required_for sid (snapshot a) ≤ v)%Z.

Lemma publishes_stamp revision epoch kind : publishes (stamp revision epoch kind) = publishes kind.
Proof. by destruct kind. Qed.
Lemma snapshot_stamp revision epoch kind :
  is_snapshot_ready (stamp revision epoch kind) = is_snapshot_ready kind.
Proof. by destruct kind. Qed.

(** The actor after an emission that left this feed. *)
Definition emitted (f : FrontendFeed) (a : Actor) : Actor :=
  set_feed_end f (set_revision (bump (revision a)) a).

Lemma emit_result_spec rid kind w :
  Inv w → emits_ok (actor w) kind →
  ∃ f q l, emit_result rid kind w = (set_actor (emitted f (actor w)) w, Some q) ∧
    FeedCore r (bump (revision (actor w))) f ∧
    (q ≠ PushBackpressured ∨ is_snapshot_ready kind = true → loss_known f) ∧
    (q = Sent → is_snapshot_ready kind = true → uncovered (history f) = false) ∧
    history f = history (feed_end (actor w)) ++ l ∧
    Forall (λ act, ∀ sid v, shown act = Some (sid, v) → publishes kind = Some (sid, v)) l.
Proof.
  intros HI He. pose proof HI as []. unfold emit_result, update, modify, bind, self, update_feed.
  simpl. set (a := actor w) in *.
  set (u := {| up_epoch := _; up_revision := _; up_request_id := _; up_kind := _ |}).
  destruct (push u (feed_end a)) as [f1 q] eqn:Hp. simpl.
  assert (view_fresh (up_kind u) (history (feed_end a))) as Hfresh.
  { intros sid new old act. simpl. rewrite publishes_stamp. intros Hpub Hin Hs.
    destruct (He _ _ Hpub) as [-> _]. by eapply ai_views0. }
  apply (push_inv r (revision a)) in Hp as [Hcore Hloss Hcover (l & Hh & Hrec)]; [|done..].
  destruct (flush_resync_core r (bump (revision a)) (epoch a) (bump (revision a)) f1)
    as (Hcore' & Hunc & l' & Hh' & Hrec'); [done|].
  eexists _, q, (l ++ [Pushed u q] ++ l'). split; [reflexivity|].
  split; [done|]. split; [|split; [|split]].
  - intros Hq. apply flush_resync_loss, Hloss. simpl. by rewrite snapshot_stamp.
  - intros Hq Hs. rewrite Hunc. apply Hcover; [done|]. simpl. by rewrite snapshot_stamp.
  - by rewrite Hh', Hh, <- !app_assoc.
  - assert (∀ k, Forall recovered_later k →
      Forall (λ act, ∀ sid v, shown act = Some (sid, v) → publishes kind = Some (sid, v)) k) as Hk.
    { intros k Hk. eapply Forall_impl; [done|]. intros []; simpl; by intros. }
    apply Forall_app. split; [by apply Hk|]. constructor; [|by apply Hk].
    simpl. by rewrite publishes_stamp.
Qed.

(** What an emission does once the feed knows its losses. *)
Lemma emitted_ok kind w f l :
  Inv w → emits_ok (actor w) kind → FeedInv r (bump (revision (actor w))) f →
  history f = history (feed_end (actor w)) ++ l →
  Forall (λ act, ∀ sid v, shown act = Some (sid, v) → publishes kind = Some (sid, v)) l →
  Inv (set_actor (emitted f (actor w)) w) ∧ evolves w (set_actor (emitted f (actor w)) w).
Proof.
  intros HI He Hf Hh Hl. pose proof HI as [].
  destruct (bump_le (revision (actor w))) as [Hle _]; [apply ai_feed0|].
  assert (forward (actor w) (emitted f (actor w))) as Hfw by (split; simpl; intros; lia).
  rewrite Forall_forall in Hl. split.
  - split; simpl; try done.
    + eapply (views_forward (actor w) (emitted f (actor w)) l); [done|done|done|].
      intros act sid v Hin Hs. destruct (He sid v) as [-> _]; [by eapply Hl|done].
    + eapply Forall_impl; [done|]. intros c Hc. by eapply child_ok_forward.
  - split; simpl; try done. split; simpl; try done.
    + exists l. split; [done|]. apply Forall_forall. intros act Hin sid v Hs.
      eapply He, Hl; eauto.
    + exists []. by rewrite app_nil_r.
Qed.

(** Of an update that is no snapshot. *)
Lemma service_good_emit rid kind w :
  is_snapshot_ready kind = false → (Inv w → emits_ok (actor w) kind) → good_at w (emit rid kind).
Proof.
  intros Hs He HI. destruct (emit_result_spec rid kind w HI (He HI))
    as (f & q & l & Hem & Hcore & Hloss & _ & Hh & Hl).
  unfold emit, wp, bind. rewrite Hem. unfold when.
  destruct (q == PushBackpressured) eqn:Hq.
  - unfold update_feed, update, modify. simpl.
    eapply (emitted_ok kind w (force_resync f) l); eauto; [by apply force_resync_inv|].
    by rewrite history_force_resync.
  - simpl. eapply emitted_ok; eauto. split; [done|]. apply Hloss. left.
    by apply bool_decide_eq_false in Hq.
Qed.

Lemma good_emit_plain rid kind :
  is_snapshot_ready kind = false → publishes kind = None → good (emit rid kind).
Proof. intros Hs Hp w. apply service_good_emit; [done|]. intros _ sid v. by rewrite Hp. Qed.

Lemma good_emit_snapshot rid s w :
  (Inv w → emits_ok (actor w) (SnapshotReady s)) → good_at w (emit_snapshot rid s).
Proof.
  intros He HI. destruct (emit_result_spec rid (SnapshotReady s) w HI (He HI))
    as (f & q & l & Hem & Hcore & Hloss & Hcover & Hh & Hl).
  unfold emit_snapshot, wp, bind. rewrite Hem. unfold update_feed, update, modify. simpl.
  eapply (emitted_ok (SnapshotReady s) w (on_snapshot_ready q f) l); eauto.
  - apply snapshot_ready_inv; [split; [done|apply Hloss; by right]|]. intros Hq. by apply Hcover.
  - by rewrite history_snapshot_ready.
Qed.

(** ** Rules and automation *)

Lemma service_good_apply {A} w (m : M A) : good m → good_at w m.
Proof. by intros Hm. Qed.
Lemma service_good_ret {A} w (a : A) : good_at w (ret a).
Proof. apply kept_ret, _. Qed.
Lemma service_good_at_bind {A B} w (m : M A) (f : A → M B) :
  good_at w m → (∀ a, (m w).2 = Some a → good_at (m w).1 (f a)) → good_at w (bind m f).
Proof. apply kept_bind, _. Qed.
Lemma service_good_self {A B} (g : Actor → A) (f : A → M B) w :
  good_at w (f (g (actor w))) → good_at w (let! x := self g in f x).
Proof. done. Qed.
Lemma service_good_get {B} (f : World → M B) w : good_at w (f w) → good_at w (let! x := get in f x).
Proof. done. Qed.
Lemma good_at_then {A B} w (m : M A) (f : A → M B) :
  good_at w m → (∀ a, good (f a)) → good_at w (bind m f).
Proof. intros Hm Hf. apply service_good_at_bind; [done|intros a _; apply Hf]. Qed.
Lemma service_good_at_inv {A} w (m : M A) : (Inv w → good_at w m) → good_at w m.
Proof. apply kept_inv. Qed.

Lemma good_update_live f :
  (∀ l, live_bounded l → live_bounded (f l)) → good (update_live f).
Proof. intros Hf w. apply service_good_update. quiet. Qed.

Lemma good_update_feed f :
  (∀ rev g, FeedInv r rev g → FeedInv r rev (f g) ∧
    ∃ l, history (f g) = history g ++ l ∧ Forall hidden l) → good (update_feed f).
Proof.
  intros Hf w. apply service_good_update. intros n HI. pose proof HI as [].
  destruct (Hf _ _ ai_feed0) as [Hfi Hh]. split; simpl; auto. split; simpl; intros; lia.
Qed.

Lemma hidden_recovered l : Forall recovered_later l → Forall hidden l.
Proof. intros Hl. eapply Forall_impl; [done|]. by intros []. Qed.

Lemma good_force_resync : good (update_feed force_resync).
Proof.
  apply good_update_feed. intros rev g [Hc Hl]. split; [by apply force_resync_inv|].
  exists []. by rewrite history_force_resync, app_nil_r.
Qed.

Lemma flush_resync_keeps e v rev g :
  FeedInv r rev g → FeedInv r rev (flush_resync e v g) ∧
  ∃ l, history (flush_resync e v g) = history g ++ l ∧ Forall hidden l.
Proof.
  intros Hg. split; [by apply flush_resync_inv|].
  destruct (flush_resync_core r rev e v g) as (_ & _ & l & Hh & Hl); [apply Hg|].
  exists l. split; [done|by apply hidden_recovered].
Qed.

Lemma good_flush_resync e v : good (update_feed (flush_resync e v)).
Proof. apply good_update_feed. intros rev g. apply flush_resync_keeps. Qed.

Lemma good_cancel_request id : good (update_feed (cancel_request id)).
Proof.
  apply good_update_feed. intros rev g Hg. split; [by apply release_inv|].
  exists []. by rewrite history_cancel, app_nil_r.
Qed.

Lemma good_flush : good flush.
Proof.
  intros w. apply service_good_at_bind; [apply good_update_feed|intros _ _; apply service_good_update].
  - intros rev g Hg. destruct (flush_pending_inv r rev g Hg) as [Hf (l & Hh & Hl)].
    split; [done|]. exists l. split; [done|by apply hidden_recovered].
  - intros n HI. pose proof HI as [].
    destruct (flush_resync_keeps (epoch (actor (update_feed flush_pending_critical w).1))
      (revision (actor (update_feed flush_pending_critical w).1)) _ _ ai_feed0) as [Hf Hh].
    split; simpl; auto. split; simpl; intros; lia.
Qed.

(** The state of the snapshots: its floors and its published revisions. *)
Definition snap_forward (s s' : SnapshotState) : Prop :=
  ∀ sid, (required_for sid s ≤ required_for sid s' ∧ published_for sid s ≤ published_for sid s')%Z.

Lemma snap_forward_same s s' :
  required_revision s' = required_revision s → published_revision s' = published_revision s →
  snap_forward s s'.
Proof. intros Hr Hp sid. unfold required_for, published_for. rewrite Hr, Hp. lia. Qed.

Lemma good_set_snapshot w f :
  snap_forward (snapshot (actor w)) (snapshot (f (actor w))) →
  f (actor w) = set_snapshot (snapshot (f (actor w))) (actor w) → good_at w (update f).
Proof.
  intros Hs Hf. apply service_good_update. intros n HI. rewrite Hf. pose proof HI as []. split; simpl; auto.
  - split; simpl; try lia; intros sid; apply Hs.
  - exists []. by rewrite app_nil_r.
Qed.

Lemma good_update_snapshot f :
  (∀ s, snap_forward s (f s)) → good (update_snapshot f).
Proof. intros Hf w. apply good_set_snapshot; [apply Hf|done]. Qed.

Lemma max_insert_le sid k v (m : gmap string Z) :
  (default 0 (m !! sid) ≤ default 0 (<[k := Z.max (default 0 (m !! k)) v]> m !! sid))%Z.
Proof.
  destruct (decide (k = sid)) as [->|]; [rewrite lookup_insert_eq; simpl; lia|].
  rewrite lookup_insert_ne by done. lia.
Qed.

Lemma note_published_forward sid v s : snap_forward s (note_published sid v s).
Proof.
  intros k. unfold note_published, required_for, published_for. simpl. split; [lia|].
  apply max_insert_le.
Qed.

Lemma apply_settled_forward op sid d v s : snap_forward s (apply_settled op sid d v s).1.
Proof.
  unfold apply_settled. destruct (operation_session s !! op); [|by apply snap_forward_same].
  destruct (_ != _); [by apply snap_forward_same|].
  destruct d, v; simpl; try (by apply snap_forward_same).
  intros k. unfold required_for, published_for. simpl. split; [|lia].
  apply max_insert_le.
Qed.

Lemma good_spawn_child rid task w :
  (Inv w → task_ok (actor w) task ∧
   (match task with
    | TaskShutdown _ _ => True
    | _ => length (filter is_work (child_tasks (actor w))) < STORE_COMMAND_CAP
    end)) →
  good_at w (spawn_child rid task).
Proof.
  intros Hok HI. destruct (Hok HI) as [Ht Hroom]. pose proof HI as [].
  unfold spawn_child, wp, bind, get, modify, update, modify. simpl.
  set (child := {| child_id := _; child_task := _; child_end := _ |}).
  match goal with |- Inv ?w' ∧ _ => assert (forward (actor w) (actor w')) as Hfw
    by (split; simpl; intros; lia) end.
  split.
  - split; simpl; try done.
    + apply Forall_app. split.
      * eapply Forall_impl; [done|]. intros c Hc. by eapply child_ok_forward; eauto.
      * constructor; [|done]. split; simpl; [lia| |done]. by destruct task.
    + rewrite fmap_app. apply NoDup_app. split; [done|]. split; [|by apply NoDup_singleton].
      intros id Hid Hc. apply list_elem_of_singleton in Hc as ->. simpl in Hid.
      apply list_elem_of_fmap in Hid as (c & Hc & Hin). rewrite Forall_forall in ai_children0.
      specialize (ai_children0 _ Hin) as [Hlt _ _]. lia.
    + rewrite filter_app, length_app, filter_cons, filter_nil.
      case_decide as Hw; simpl; [|lia]. unfold is_work in Hw. simpl in Hw.
      destruct task; try done; lia.
  - split; simpl; try done; [|by eexists]. split; simpl; try done.
    + apply no_acts.
    + exists []. by rewrite app_nil_r.
    + lia.
Qed.

Lemma good_with_confirmations {A} (f : ConfirmationMap → ConfirmationMap * Answers * A) w :
  (∀ m m' sent x lease, m = confirmations (actor w) → lease = current_lease_generation (actor w) →
    confirmations_ok lease m → f m = (m', sent, x) →
    confirmations_ok lease m' ∧ Forall (λ y, y.2 = Deny ∨ granted y.1) sent ∧
    sent.*1 ++ waiting m' ≡ₚ waiting m) →
  good_at w (with_confirmations f).
Proof.
  intros Hf HI. pose proof HI as [].
  unfold with_confirmations, wp, bind, self, update, modify, ret. simpl.
  destruct (f (confirmations (actor w))) as [[m' sent] x] eqn:Hx. simpl.
  destruct (Hf _ _ _ _ _ eq_refl eq_refl ai_confirmations0 Hx) as (Hok & Hd & Hw).
  match goal with |- Inv ?w' ∧ _ => assert (forward (actor w) (actor w')) as Hfw
    by (split; simpl; intros; lia) end.
  split.
  - split; simpl; try done. eapply Forall_impl; [done|]. intros c Hc. by eapply child_ok_forward.
  - split; simpl; try done. split; simpl; try done.
    + apply no_acts.
    + by exists sent.
    + unfold askers. simpl. by rewrite fmap_app, <- app_assoc, Hw.
Qed.

Lemma good_deny_where p : good (with_confirmations (deny_where p)).
Proof.
  intros w. apply good_with_confirmations. intros m m' sent x lease _ _ Hm Hx.
  destruct (deny_where_ok lease _ _ _ _ _ Hx Hm) as (? & Hd & ?). split; [done|]. split; [|done].
  eapply Forall_impl; [done|]. intros y Hy. by left.
Qed.

End logic.

#[export] Hint Resolve good_force_resync good_flush_resync good_cancel_request good_flush
  good_ask good_deny_where good_emit_plain : service.

(** One step through the text of a method. *)
Ltac good_case :=
  match goal with
  | |- good_at _ _ _ (match ?x with _ => _ end) => destruct x eqn:?
  | |- good_at _ _ _ (let '(_, _) := ?x in _) => destruct x eqn:?
  end.
Ltac good_step :=
  lazymatch goal with
  | |- good _ _ _ => intros ?w
  | |- good_at _ _ _ (bind (self _) _) => apply service_good_self; cbv beta zeta
  | |- good_at _ _ _ (bind get _) => apply service_good_get
  | |- good_at _ _ _ (bind _ _) => apply good_at_then; [|intros ?]
  | |- good_at _ _ _ (ret _) => apply service_good_ret
  | |- good_at _ _ _ (when _ _) => apply service_good_when; intros ?
  | |- good_at _ _ _ (update_live _) => apply service_good_apply, good_update_live; auto with service
  | |- good_at _ _ _ (update_snapshot _) =>
      apply service_good_apply; first
        [solve [eauto 2 with service]
        |apply good_update_snapshot; intros ?; by apply snap_forward_same]
  | |- good_at _ _ _ (update_feed _) => apply service_good_apply; auto with service
  | |- good_at _ _ _ (update _) =>
      first [solve [apply service_good_apply; eauto 2 with service] | apply service_good_update; quiet]
  | |- good_at _ _ _ (emit _ _) => apply service_good_apply, good_emit_plain; done
  | |- good_at _ _ _ (modify _) => by apply service_good_modify
  | |- _ => first [solve [apply service_good_apply; eauto 2 with service] | good_case]
  end.
Ltac good := repeat good_step.
(** Forgets how the world came about. *)
Ltac new_world :=
  lazymatch goal with |- good_at _ _ ?w' _ => let w0 := fresh "w" in generalize w'; intros w0 end.

End service_logic.
