(* ===== verification/ServiceProofs.v ===== *)
(** Every method of the service actor keeps the invariant of ServiceLogic.v,
    does not panic, and changes the world only as that file says. *)

From S2P Require Import Prelude RustStr Kernel Session SessionLifecycle SessionContext SessionStore.
From S2P Require Import Tools Runtime RuntimeMapping Operation Outlets Epoch Coordinator.
From S2P Require Import Service ServiceSnapshot ServiceMapping ServiceFeed ServiceActor.
From S2P Require Import ServiceSystem ServiceParts ServiceFeedProofs ServiceLogic.
Import runtime service service_snapshot feed service_actor service_system.
Import service_parts feed_proofs service_logic.

Module service_proofs.

Section proofs.
Context `{Build, Outside, service_mapping.ToolPorts, ServiceOrders, DebugSessionError, DebugReport}.
Variables (r : nat) (granted : Asker → Prop).
Notation good := (service_logic.good r granted).
Notation good_at := (service_logic.good_at r granted).
Notation Inv := (service_logic.Inv r).

(** ** Small parts *)

Lemma good_reject id reason : good (reject id reason).
Proof. by apply good_emit_plain. Qed.
#[local] Hint Resolve good_reject : service.

Lemma good_not_accepting id : good (reject_not_accepting id).
Proof. apply good_reject. Qed.
Lemma good_child_capacity id : good (reject_child_capacity id).
Proof. apply good_reject. Qed.

Lemma good_notice text : good (notice text).
Proof.
  unfold notice. good. intros Hn. case_bool_decide as Hl; rewrite length_app in *; simpl in *; [|lia].
  destruct (notices (actor w)); simpl in *; rewrite ?length_app; simpl; lia.
Qed.

Lemma good_emit_health : good emit_health.
Proof. unfold emit_health. good. Qed.
Lemma service_good_emit_availability : good emit_availability.
Proof. unfold emit_availability. good. Qed.
Lemma good_emit_maintenance : good emit_maintenance.
Proof. unfold emit_maintenance. good. Qed.
#[local] Hint Resolve good_not_accepting good_child_capacity good_notice good_emit_health
  service_good_emit_availability good_emit_maintenance : service.

Lemma work_le a : length (filter is_work (child_tasks a)) ≤ length (child_tasks a).
Proof. apply length_filter. Qed.

(** A child of any kind but a shutdown, where there is room. *)
Lemma good_spawn_room rid task w :
  can_spawn_work (actor w) = true → task_ok (actor w) task → good_at w (spawn_child rid task).
Proof.
  intros Hroom Ht. apply good_spawn_child. intros _. split; [done|].
  unfold can_spawn_work in Hroom. apply bool_decide_eq_true in Hroom.
  pose proof (work_le (actor w)). destruct task; try done; lia.
Qed.

Lemma good_spawn_work rid task w : task_ok (actor w) task → good_at w (spawn_work rid task).
Proof.
  intros Ht. unfold spawn_work. apply service_good_self. destruct (can_spawn_work (actor w)) eqn:Hroom.
  - apply service_good_at_bind; [by apply good_spawn_room|intros _ _; apply service_good_ret].
  - good.
Qed.

Lemma good_spawn_plain rid task :
  match task with TaskStoreView _ _ _ _ => False | _ => True end → good (spawn_work rid task).
Proof. intros Ht w. apply good_spawn_work. by destruct task. Qed.
#[local] Hint Extern 2 (service_logic.good _ _ (spawn_work _ _)) =>
  apply good_spawn_plain; exact I : service.

Lemma good_session_generation sid : good (session_generation sid).
Proof.
  unfold session_generation. intros w. apply service_good_at_inv. intros HI. apply service_good_self.
  pose proof (cache_get_bounded sid _ (ai_cache _ _ _ HI)) as Hc.
  destruct (cache_get sid _) as [c found]. simpl in Hc.
  apply good_at_then; [by good|intros _]. destruct found; [by good|]. good.
  intros _. by apply cache_put_bounded.
Qed.
#[local] Hint Resolve good_session_generation : service.

Lemma good_emit_denied ids : good (emit_denied ids).
Proof. apply good_for_each. intros id. by apply good_emit_plain. Qed.
#[local] Hint Resolve good_emit_denied : service.

Lemma good_deny_all : good deny_all_confirmations.
Proof. unfold deny_all_confirmations, deny_all. good. Qed.
Lemma good_deny_generation g : good (deny_generation_confirmations g).
Proof. unfold deny_generation_confirmations, deny_for_generation. good. Qed.
#[local] Hint Resolve good_deny_all good_deny_generation : service.

(** ** snapshot.rs *)

Lemma good_drop_foreign_live : good drop_foreign_live.
Proof. unfold drop_foreign_live. good. Qed.
Lemma good_cancel_reply rid : good (cancel_reply rid).
Proof. unfold cancel_reply. good. Qed.
Lemma good_map_view view : good (map_view view).
Proof. unfold map_view. good. Qed.
#[local] Hint Resolve good_drop_foreign_live good_cancel_reply good_map_view : service.

Lemma good_set s w : snap_forward (snapshot (actor w)) s → good_at w (update (set_snapshot s)).
Proof. intros Hs. by apply good_set_snapshot. Qed.

Lemma begin_inflight_forward p s s' x : begin_inflight p s = (s', x) → snap_forward s s'.
Proof. unfold begin_inflight. case_bool_decide; intros [= <- <-]; by apply snap_forward_same. Qed.

Lemma end_inflight_forward sid s s' p : end_inflight sid s = (s', p) → snap_forward s s'.
Proof.
  unfold end_inflight. intros Hs. destruct (pending_reload _); [destruct (_ == _)|]; simplify_eq/=;
    by apply snap_forward_same.
Qed.

Lemma begin_reload_forward sid s s' b : begin_reload_attempt sid s = (s', b) → snap_forward s s'.
Proof.
  unfold begin_reload_attempt. destruct (_ <=? _)%Z; intros [= <- <-]; by apply snap_forward_same.
Qed.

Lemma clear_pending_forward sid s : snap_forward s (clear_pending_load_if sid s).
Proof. unfold clear_pending_load_if. destruct (pending_load_is _ _); by apply snap_forward_same. Qed.

Lemma good_clear_pending sid : good (update_snapshot (clear_pending_load_if sid)).
Proof. apply good_update_snapshot. intros s. apply clear_pending_forward. Qed.
Lemma good_end_inflight sid : good (update_snapshot (λ s, (end_inflight sid s).1)).
Proof.
  apply good_update_snapshot. intros s. destruct (end_inflight sid s) eqn:He.
  by eapply end_inflight_forward.
Qed.
#[local] Hint Resolve good_clear_pending good_end_inflight : service.

Lemma good_spawn_view rid kind sid w :
  (∀ token, tracked_token kind = Some token → token_past (actor w) token) →
  good_at w (spawn_view rid kind sid).
Proof. intros Hk. unfold spawn_view. apply service_good_self. by apply good_spawn_work. Qed.

Lemma capture_past rid sid a : token_past a (capture rid sid a).
Proof. split; simpl; lia. Qed.

Lemma good_spawn_tracked rid kind sid : good (spawn_tracked_view rid kind sid).
Proof.
  unfold spawn_tracked_view. intros w. apply service_good_self.
  destruct (begin_inflight _ _) as [s [started superseded]] eqn:Hb.
  apply service_good_at_bind; [by eapply good_set, begin_inflight_forward|intros _ _].
  apply service_good_at_bind; [by good|intros _ _]. apply service_good_when. intros _. apply service_good_self.
  destruct (can_spawn_work _); cbn [negb]; [|by good]. apply service_good_self.
  apply service_good_at_bind; [|intros ? _; apply service_good_ret].
  apply good_spawn_view. intros token.
  destruct kind; intros [= <-]; apply capture_past.
Qed.
#[local] Hint Resolve good_spawn_tracked : service.

(** [compose_snapshot], where its assertion holds. *)
Lemma good_compose {B} durable l (k : FrontendSnapshot → M B) w :
  session.is_some durable || negb (session.is_some (current_session (snapshot (actor w)))) = true →
  good_at w (k (composed (actor w) durable l)) →
  good_at w (let! s := compose_snapshot durable l in k s).
Proof.
  intros Hd Hk. unfold compose_snapshot, good_at, keeps, wp, bind, self, debug_assert, id in *.
  rewrite Hd. simpl. by rewrite andb_false_r.
Qed.

Lemma good_begin_fenced rid : good (begin_fenced_snapshot rid).
Proof.
  unfold begin_fenced_snapshot. intros w.
  do 2 (apply service_good_at_bind; [by good|intros _ _]). new_world. apply service_good_self. unfold id.
  destruct (current_session _) as [sid|] eqn:Hc; [by good|].
  apply good_compose; [by rewrite Hc|].
  apply good_emit_snapshot. intros _ sid v. simpl. by rewrite Hc.
Qed.
#[local] Hint Resolve good_begin_fenced : service.

Lemma good_schedule_reload p : good (schedule_reload p).
Proof.
  unfold schedule_reload. intros w. apply service_good_self. cbv beta.
  good_case; [by good|]. good_case; [by good|].
  destruct (begin_reload_attempt _ _) as [s begun] eqn:Hb.
  apply service_good_at_bind; [by eapply good_set, begin_reload_forward|intros _ _].
  good_case; good.
Qed.
Lemma good_maybe_schedule p : good (maybe_schedule_pending p).
Proof. destruct p; [apply good_schedule_reload|intros w; apply service_good_ret]. Qed.
#[local] Hint Resolve good_schedule_reload good_maybe_schedule : service.

(** A view of [sid] at revision [v] may be shown. *)
Definition shows (sid : string) (v : Z) (a : Actor) : Prop :=
  published_for sid (snapshot a) = v ∧ (required_for sid (snapshot a) ≤ v)%Z.

Lemma evaluate_token_spec token v kind w :
  token_past (actor w) token →
  ∃ d, evaluate_token token v kind w = (w, Some d) ∧
    (d = Publish → (required_for (token_session_id token) (snapshot (actor w)) ≤ v)%Z ∧
      (published_for (token_session_id token) (snapshot (actor w)) ≤ v)%Z ∧
      (kind = KindSnapshot →
       is_current_session (token_session_id token) (snapshot (actor w)) = true)).
Proof.
  intros [Hc%Z.leb_le Hr%Z.leb_le].
  assert (∀ d, d ≠ Publish → evaluate_token token v kind w = (w, Some d) →
    ∃ d, evaluate_token token v kind w = (w, Some d) ∧
      (d = Publish → (required_for (token_session_id token) (snapshot (actor w)) ≤ v)%Z ∧
        (published_for (token_session_id token) (snapshot (actor w)) ≤ v)%Z ∧
        (kind = KindSnapshot →
         is_current_session (token_session_id token) (snapshot (actor w)) = true))) as Hno.
  { intros d Hd He. by exists d. }
  assert (∀ b : bool, b = true → debug_assert b w = (w, Some tt)) as Hassert.
  { intros b ->. unfold debug_assert. by rewrite andb_false_r. }
  unfold evaluate_token, bind, self, id in *.
  destruct (token_gate (actor w) token kind) as [d|] eqn:Hg.
  { apply (Hno d); [|done]. intros ->. unfold token_gate in Hg.
    by repeat (case_match; simplify_eq). }
  rewrite Hassert in * by done.
  destruct (v <? required_for _ _)%Z eqn:Hv; [by eapply Hno; [|reflexivity]|].
  destruct (v <? published_for _ _)%Z eqn:Hp; [by eapply Hno; [|reflexivity]|]. destruct kind.
  - exists Publish. split; [done|]. intros _. apply Z.ltb_ge in Hv, Hp. done.
  - unfold snapshot_live_stale, bind, self, id, ret in *. rewrite Hassert in * by done.
    destruct (live_projection_stale _ _ _ _); [by eapply Hno; [|reflexivity]|].
    exists Publish. split; [done|]. intros _. apply Z.ltb_ge in Hv, Hp. split; [done|]. split; [done|].
    intros _. unfold token_gate in Hg. repeat (case_match; simplify_eq).
    by match goal with E : _ || negb _ = false |- _ => apply orb_false_iff in E as [_ ?%negb_false_iff] end.
Qed.

Lemma drop_foreign_snapshot w : snapshot (actor (drop_foreign_live w).1) = snapshot (actor w).
Proof. unfold drop_foreign_live, bind, self, when. simpl. by case_if. Qed.

Lemma session_generation_snapshot sid w :
  snapshot (actor (session_generation sid w).1) = snapshot (actor w).
Proof.
  unfold session_generation, bind, self, update, modify, ret.
  destruct (cache_get _ _) as [c [g|]]; done.
Qed.

Lemma good_emit_loaded rid sid view v w :
  dv_revision view = v → shows sid v (actor w) → good_at w (emit rid (SessionLoaded sid view)).
Proof.
  intros Hv [Hp Hr]. apply service_good_emit; [done|]. intros _ sid' v' [= <- <-]. split; congruence.
Qed.

Lemma shows_noted sid v s :
  (required_for sid s ≤ v)%Z → (published_for sid s ≤ v)%Z →
  published_for sid (note_published sid v s) = v ∧
  (required_for sid (note_published sid v s) ≤ v)%Z.
Proof.
  intros Hr Hp. unfold published_for, required_for, note_published in *. simpl.
  rewrite lookup_insert_eq. simpl. unfold published_for. split; [lia|done].
Qed.

Lemma good_publish token view kind w :
  let v := Z.of_nat (session.view_revision view) in
  let sid := token_session_id token in
  (required_for sid (snapshot (actor w)) ≤ v)%Z →
  (published_for sid (snapshot (actor w)) ≤ v)%Z →
  (kind = KindSnapshot → is_current_session sid (snapshot (actor w)) = true) →
  good_at w (publish_session_view token view kind).
Proof.
  intros v sid Hr Hp Hk. unfold publish_session_view. fold sid v.
  destruct (shows_noted sid v _ Hr Hp) as [Hp1 Hr1].
  apply service_good_at_bind; [apply service_good_apply, good_update_snapshot; intros; apply note_published_forward|].
  intros _ _. apply service_good_at_bind; [by good|intros _ _].
  set (w1 := (update_snapshot (reset_reload_attempts sid) _).1).
  assert (shows sid v (actor w1)) as Hs by by split.
  assert (is_current_session sid (snapshot (actor w1))
          = is_current_session sid (snapshot (actor w))) as Hcur by done.
  clearbody w1. clear Hp1 Hr1. destruct kind.
  - apply service_good_at_bind.
    { apply service_good_apply, good_update_snapshot. intros s.
      unfold commit_current. intros k. apply (clear_pending_forward sid s k). }
    intros _ _. set (w2 := (update_snapshot _ _).1).
    assert (shows sid v (actor w2)) as Hs2.
    { destruct Hs. unfold w2, shows, published_for, required_for. simpl.
      unfold commit_current, clear_pending_load_if. simpl. by case_if. }
    clearbody w2. apply service_good_at_bind; [by good|intros _ _].
    apply service_good_at_bind; [by good|intros ? _].
    apply service_good_at_bind; [by good|intros durable Hd].
    eapply good_emit_loaded; [|unfold shows in *].
    + unfold map_view, bind, ask, get, modify, ret in Hd. simpl in Hd. by simplify_eq/=.
    + unfold map_view, bind, ask, get, modify, ret. simpl.
      rewrite session_generation_snapshot, drop_foreign_snapshot. done.
  - apply service_good_at_bind; [by good|intros durable Hd]. apply service_good_self. unfold id.
    apply good_compose; [done|]. apply good_emit_snapshot. intros _ sid' v'.
    unfold map_view, bind, ask, get, modify, ret in Hd. simpl in Hd. simplify_eq/=.
    specialize (Hk eq_refl). rewrite <- Hcur in Hk. apply bool_decide_eq_true in Hk.
    rewrite Hk. intros [= <- <-]. destruct Hs as [-> Hs]. done.
Qed.

Lemma service_good_finish token view kind p w :
  token_past (actor w) token → good_at w (finish_session_view token view kind p).
Proof.
  intros Ht. unfold finish_session_view.
  destruct (evaluate_token_spec token (Z.of_nat (session.view_revision view)) kind w Ht)
    as (d & He & Hd).
  apply service_good_at_bind; [intros HI; unfold wp; by rewrite He|]. rewrite He.
  intros d' [= <-]. simpl. destruct d; [by good|by good|].
  destruct (Hd eq_refl) as (? & ? & ?).
  apply service_good_at_bind; [by apply good_publish|intros _ _; good].
Qed.

Lemma good_store_view rid e kind sid result w :
  (∀ token, tracked_token kind = Some token → token_past (actor w) token) →
  good_at w (handle_store_view rid e kind sid result).
Proof.
  intros Hk. unfold handle_store_view. apply service_good_self.
  set (ended := match tracked_token kind with Some token => _ | None => _ end).
  assert (∃ s p, ended = (s, p) ∧ snap_forward (snapshot (actor w)) s) as (s & p & -> & Hs).
  { unfold ended. destruct (tracked_token kind).
    - destruct (end_inflight _ _) eqn:He. eexists _, _. split; [done|]. by eapply end_inflight_forward.
    - eexists _, _. split; [done|]. by apply snap_forward_same. }
  apply service_good_at_bind; [by apply good_set|intros _ _]. apply service_good_self. unfold id.
  assert (∀ token, tracked_token kind = Some token →
    token_past (actor (update (set_snapshot s) w).1) token) as Hk'.
  { intros token Ht. destruct (Hk token Ht). split; [done|]. etrans; [done|]. apply Hs. }
  destruct (negb _); [by good|]. destruct result as [reason|view].
  - destruct kind; good.
  - destruct kind; [by apply service_good_finish, Hk'..|]. good_case; good.
Qed.

Lemma good_request_snapshot rid : good (handle_request_snapshot rid).
Proof. unfold handle_request_snapshot. good. Qed.

Lemma good_preview rid sid g : good (handle_preview_session rid sid g).
Proof.
  unfold handle_preview_session. intros w. apply service_good_self. unfold id.
  good_case; [by good|]. good_case; [by good|].
  do 2 (apply service_good_at_bind; [by good|intros _ _]). new_world.
  apply service_good_at_bind; [by apply good_spawn_view|intros ? _; apply service_good_ret].
Qed.

Lemma good_start_load rid sid : good (start_session_load rid sid).
Proof. unfold start_session_load. good. Qed.
#[local] Hint Resolve good_request_snapshot good_preview good_start_load : service.

(** ** Settlements and runtime snapshots *)

Lemma good_apply_settled op sid d v : good (apply_operation_settled op sid d v).
Proof.
  unfold apply_operation_settled. intros w. apply service_good_self.
  pose proof (apply_settled_forward op sid d v (snapshot (actor w))) as Hs.
  destruct (apply_settled _ _ _ _ _) as [s result].
  apply service_good_at_bind; [by apply good_set|intros _ _]. destruct result; good.
Qed.

Lemma good_request_runtime : good request_runtime_snapshot.
Proof.
  unfold request_runtime_snapshot. intros w. apply service_good_self. unfold id. apply service_good_when.
  intros [_ Hroom%negb_false_iff]%negb_true_iff%orb_false_iff.
  apply service_good_at_bind; [by good|intros _ _]. by apply good_spawn_room.
Qed.
#[local] Hint Resolve good_apply_settled good_request_runtime : service.

Lemma good_lagged : good on_subscription_lagged.
Proof. unfold on_subscription_lagged. good. Qed.

Lemma good_bump_cursor : good (update (λ a, set_live_cursor (bump (live_cursor a)) a)).
Proof.
  good.
Qed.

(** The same where the new value was computed before. *)
Lemma good_set_cursor w cursor : cursor = live_cursor (actor w) →
  good_at w (update (set_live_cursor (bump cursor))).
Proof. intros ->. apply (good_bump_cursor w). Qed.

Lemma good_apply_runtime s : length (snapshot_queued s) ≤ RUNTIME_QUEUE_MAX →
  good (apply_runtime_snapshot s).
Proof.
  intros Hq. unfold apply_runtime_snapshot. intros w. apply service_good_self. unfold id.
  good_case; [apply service_good_ret|].
  apply service_good_at_bind; [by good|intros _ _].
  apply service_good_at_bind; [by apply good_set_cursor|intros _ _]. new_world.
  apply service_good_at_bind; [by good|intros _ _].
  apply service_good_at_bind.
  { apply service_good_update. quiet. intros _. by rewrite length_fmap. }
  intros _ _. good.
Qed.

Lemma good_runtime_snapshot e s : length (snapshot_queued s) ≤ RUNTIME_QUEUE_MAX →
  good (handle_runtime_snapshot e s).
Proof.
  intros Hq. pose proof (good_apply_runtime s Hq). unfold handle_runtime_snapshot. good.
Qed.

(** ** catalog.rs and commands.rs *)

Lemma good_list_sessions rid : good (handle_list_sessions rid).
Proof. unfold handle_list_sessions. good. Qed.
Lemma good_list_sessions_result rid e result : good (handle_list_sessions_result rid e result).
Proof. unfold handle_list_sessions_result. good. Qed.
Lemma good_rename rid sid title : good (handle_rename_session rid sid title).
Proof. unfold handle_rename_session. good. Qed.
Lemma good_load rid sid : good (handle_load_session rid sid).
Proof. unfold handle_load_session. good. Qed.
Lemma good_create rid : good (handle_create_session rid).
Proof. unfold handle_create_session. good. Qed.

Lemma user_message_no_panic draft attachments :
  service_mapping.user_message draft attachments ≠ Panic.
Proof. unfold service_mapping.user_message, from_parts. repeat case_match; done. Qed.

Lemma good_submit rid draft attachments : good (handle_submit rid draft attachments).
Proof.
  pose proof (user_message_no_panic draft attachments).
  unfold handle_submit. good. congruence.
Qed.

Lemma good_set_reasoning rid effort : good (handle_set_reasoning rid effort).
Proof.
  unfold handle_set_reasoning. good. intros Hc. by apply cache_put_bounded.
Qed.
Lemma good_list_models rid : good (handle_list_models rid).
Proof. unfold handle_list_models. good. Qed.
Lemma good_install_model rid name effort : good (handle_install_model rid name effort).
Proof. unfold handle_install_model. good. Qed.
Lemma good_install rid e name result : good (handle_install rid e name result).
Proof. unfold handle_install. good. intros Hc. by apply cache_put_bounded. Qed.
Lemma good_emit_cancel rid result : good (emit_cancel rid result).
Proof. unfold emit_cancel. good. Qed.
Lemma good_spawn_cancel rid op : good (spawn_cancel rid op).
Proof. unfold spawn_cancel. good. Qed.
Lemma good_spawn_compaction rid sid : good (spawn_compaction rid sid).
Proof. unfold spawn_compaction. good. Qed.
Lemma good_spawn_cancel_maintenance rid m : good (spawn_cancel_maintenance rid m).
Proof. unfold spawn_cancel_maintenance. good. Qed.
Lemma good_read_config rid : good (read_config rid).
Proof. unfold read_config. good. Qed.
Lemma good_read_status rid : good (read_status rid).
Proof. unfold read_status. good. Qed.

#[local] Hint Resolve good_list_sessions good_list_sessions_result good_rename good_load good_create
  good_submit good_set_reasoning good_list_models good_install_model good_install good_emit_cancel
  good_spawn_cancel good_spawn_compaction good_spawn_cancel_maintenance good_read_config
  good_read_status : service.

(** ** Runtime events *)

Lemma good_push_queued item w :
  length (queued (actor w)) < RUNTIME_QUEUE_MAX → good_at w (push_queued item).
Proof.
  intros Hq. unfold push_queued. apply service_good_update. quiet. intros _.
  rewrite length_app. simpl. lia.
Qed.

Lemma good_drop_queued op : good (drop_queued op).
Proof.
  unfold drop_queued. good. intros Hq. etrans; [apply length_filter|done].
Qed.
#[local] Hint Resolve good_drop_queued : service.

Lemma tail_length {A} (l : list A) n : 0 < n → length l ≤ n → length (tail l) < n.
Proof. destruct l; simpl; lia. Qed.

Lemma good_operation_queued op : good (on_operation_queued op).
Proof.
  unfold on_operation_queued. intros w. apply service_good_at_inv. intros HI. apply service_good_self. unfold id.
  pose proof (ai_queued _ _ _ HI) as Hq.
  set (full := bool_decide _). set (make_room := when full _).
  assert (good_at w make_room ∧
    length (queued (actor (make_room w).1)) < RUNTIME_QUEUE_MAX) as [Hgood Hroom].
  { unfold make_room, full. split.
    - apply service_good_when. intros _. apply service_good_at_bind; [|intros; good].
      apply service_good_update. quiet. intros _. apply Nat.lt_le_incl, tail_length; [|done].
      unfold RUNTIME_QUEUE_MAX. lia.
    - case_bool_decide; simpl; [|lia]. apply tail_length; [|done]. unfold RUNTIME_QUEUE_MAX. lia. }
  apply service_good_at_bind; [done|intros _ _]. clearbody make_room. revert Hroom. generalize (make_room w).1. intros w1 Hroom.
  good_case; [by apply good_push_queued|].
  apply service_good_at_bind; [by good|intros _ _]. by apply good_push_queued.
Qed.

Lemma good_operation_started op : good (on_operation_started op).
Proof. unfold on_operation_started. good. Qed.
#[local] Hint Resolve good_operation_queued good_operation_started : service.

Lemma live_step_bounded event l : live_bounded l → live_bounded (live_step event l).
Proof. intros Hl. destruct event; simpl; auto with service. Qed.
#[local] Hint Resolve live_step_bounded : service.

Lemma good_agent_event event : good (handle_agent_event event).
Proof. unfold handle_agent_event. good. Qed.

(** The change of [on_operation_settled] to an idle service. *)
Lemma good_update_if (b : Actor → bool) f w :
  good_at w (update f) → good_at w (update (λ a, if b a then f a else a)).
Proof.
  intros Hf. unfold update, good_at, keeps, wp, modify in *. simpl in *.
  destruct (b (actor w)); [done|]. intros HI. destruct w. by split.
Qed.
#[local] Hint Extern 3 (service_logic.good _ _ (update (λ a, if _ then _ else a))) =>
  intros ?; apply good_update_if; solve [good] : service.

Lemma good_settled op sid status d v : good (handle_operation_settled op sid status d v).
Proof. unfold handle_operation_settled, deny_for_operation. good. Qed.

Lemma good_epoch_ended forced : good (on_epoch_ended forced).
Proof. unfold on_epoch_ended. good. Qed.
#[local] Hint Resolve good_agent_event good_settled good_epoch_ended : service.

Lemma good_disconnected : good on_runtime_disconnected.
Proof. unfold on_runtime_disconnected. good. Qed.
Lemma good_show_maintenance m phase message : good (show_maintenance m phase message).
Proof. unfold show_maintenance. good. Qed.
#[local] Hint Resolve good_disconnected good_show_maintenance good_lagged : service.

Lemma good_runtime_event event : good (handle_runtime_event event).
Proof.
  unfold handle_runtime_event. intros w. apply service_good_at_bind; [by good|intros _ _].
  destruct event; good.
Qed.
#[local] Hint Resolve good_runtime_event : service.

Lemma good_drain_one : good drain_one.
Proof. unfold drain_one. good. Qed.
#[local] Hint Resolve good_drain_one : service.

Lemma good_drain budget : good (drain budget).
Proof.
  induction budget as [|budget IH]; intros w; [apply service_good_ret|]. simpl. good.
Qed.

Lemma good_poll : good poll_runtime.
Proof. pose proof good_drain. unfold poll_runtime, drain_runtime_budget. good. Qed.

(** ** The confirmations *)

(** What changes of the world when an asker comes, without a panic. *)
Definition joins (asker : Asker) (w w' : World) : Prop :=
  ActorInv r (tasks_spawned w') (actor w') ∧ forward (actor w) (actor w') ∧
  feed_end (actor w') = feed_end (actor w) ∧ attached (actor w') = attached (actor w) ∧
  shutdown (actor w') = shutdown (actor w) ∧ child_tasks (actor w') = child_tasks (actor w) ∧
  supervisor_replies w' = supervisor_replies w ∧ tasks_spawned w' = tasks_spawned w ∧
  (∃ l, answers w' = answers w ++ l ∧ Forall (λ x, x.2 = Deny) l) ∧
  askers w' ≡ₚ asker :: askers w.

Lemma good_after_joining submit w :
  Inv w → ∃ w1, joins (cs_reply submit) w w1 ∧
    wp (handle_confirmation_submit submit) (λ _ w', Inv w' ∧ evolves granted w1 w') w.
Proof.
  intros HI. pose proof HI as []. unfold handle_confirmation_submit, wp, bind at 1, self at 1.
  cbn [fst snd]. unfold with_confirmations, bind at 1 2 3 4, self, update, modify, ret.
  destruct (confirmation_insert submit _ _) as [[m' sent] res] eqn:Hi.
  apply insert_confirmation in Hi as (Hok & Hd & Hw); [|done].
  set (w1 := set_answers _ _). exists w1.
  assert (forward (actor w) (actor w1)) as Hf by (split; simpl; intros; lia).
  assert (joins (cs_reply submit) w w1) as Hj.
  { unfold joins. split.
    { split; simpl; try done. eapply Forall_impl; [done|]. intros c Hc. by eapply child_ok_forward. }
    do 7 (split; [done|]). split; [by eexists|].
    unfold askers. simpl. rewrite fmap_app, <- app_assoc, Hw. by rewrite Permutation_middle. }
  split; [done|]. assert (good_at w1 (match res with
    | Ok (confirmation_id, request) =>
        emit None (ConfirmationRequested confirmation_id (cr_title request) (cr_body request))
    | _ => ret tt
    end)) as Hg by (destruct res as [[]| |]; good).
  apply Hg, Hj.
Qed.

(** ** Leases and shutdown *)

Notation fair_at := (service_logic.fair_at r granted).
Notation stay_at := (service_logic.stay_at r granted).

Lemma fair_bind {A B} w (m : M A) (f : A → M B) :
  fair_at w m → (∀ a, (m w).2 = Some a → fair_at (m w).1 (f a)) → fair_at w (bind m f).
Proof. apply kept_bind, _. Qed.
Lemma fair_self {A B} (g : Actor → A) (f : A → M B) w :
  fair_at w (f (g (actor w))) → fair_at w (let! x := self g in f x).
Proof. done. Qed.
Lemma stay_bind {A B} w (m : M A) (f : A → M B) :
  stay_at w m → (∀ a, (m w).2 = Some a → stay_at (m w).1 (f a)) → stay_at w (bind m f).
Proof. apply kept_bind, _. Qed.
Lemma stay_self {A B} (g : Actor → A) (f : A → M B) w :
  stay_at w (f (g (actor w))) → stay_at w (let! x := self g in f x).
Proof. done. Qed.

(** One change that is not quiet. *)
Lemma fair_update w f :
  (Inv w → ActorInv r (tasks_spawned w) (f (actor w)) ∧ forward (actor w) (f (actor w)) ∧
    feed_end (f (actor w)) = feed_end (actor w) ∧
    confirmations (f (actor w)) = confirmations (actor w)) →
  fair_at w (update f).
Proof.
  intros Hf HI. destruct (Hf HI) as (HI' & Hfw & Hfe & Hc). unfold update, modify, wp. simpl.
  split; [done|]. split; simpl; try done.
  - rewrite Hfe. apply no_acts.
  - exists []. by rewrite app_nil_r.
  - unfold askers. simpl. by rewrite Hc.
Qed.

Lemma stay_update w f :
  (Inv w → ActorInv r (tasks_spawned w) (f (actor w)) ∧ forward (actor w) (f (actor w)) ∧
    feed_end (f (actor w)) = feed_end (actor w) ∧
    confirmations (f (actor w)) = confirmations (actor w) ∧
    shutdown (f (actor w)) = shutdown (actor w) ∧
    child_tasks (f (actor w)) = child_tasks (actor w)) →
  stay_at w (update f).
Proof.
  intros Hf HI. destruct (Hf HI) as (? & ? & ? & ? & Hs & Hc).
  assert (fair_at w (update f)) as Hfair by by apply fair_update.
  specialize (Hfair HI). unfold wp, update, modify in *. destruct Hfair. split; [done|].
  split; [done|done|]. simpl. by rewrite Hc.
Qed.

(** Only the pending confirmations of the lease that ends are denied: all of them. *)
Lemma stay_clear_active w : stay_at w clear_active_frontend.
Proof.
  unfold clear_active_frontend. apply stay_self.
  destruct (attached (actor w)) as [active|] eqn:Ha; [|apply good_stay, service_good_ret].
  intros HI. pose proof HI as [].
  unfold wp, bind at 1, update, modify, deny_generation_confirmations.
  set (w1 := set_actor _ _). unfold bind at 1, with_confirmations, bind at 1 2 3 4, self, update, modify, ret.
  unfold deny_for_generation.
  destruct (deny_where _ _) as [[m' sent] ids] eqn:Hd.
  apply deny_where_spec in Hd as (Hn & Hp & Hdeny & Hw).
  assert (pending m' = ∅) as Hempty.
  { rewrite Hp. apply map_empty. intros id. apply map_lookup_filter_None. right. intros p Hid.
    apply (co_lease _ _ ai_confirmations0) in Hid. unfold current_lease_generation in Hid.
    rewrite Ha in Hid. injection Hid as Hid. simpl. by rewrite Hid, bool_decide_true. }
  cbn [fst snd]. set (w2 := set_answers _ _).
  assert (forward (actor w) (actor w2)) as Hf by (split; simpl; intros; lia).
  assert (Inv w2) as HI2.
  { split; simpl; try done.
    - split; rewrite Hempty; [rewrite map_size_empty; unfold CONFIRMATION_MAP_CAP; lia|..]; by intros ??.
    - eapply Forall_impl; [done|]. intros c Hc. by eapply child_ok_forward. }
  assert (stays granted w w2) as Hdr.
  { split; simpl; try done. split; simpl; try done.
    - apply no_acts.
    - exists sent. split; [done|]. eapply Forall_impl; [done|]. intros y Hy. by left.
    - unfold askers. simpl. by rewrite fmap_app, <- app_assoc, Hw. }
  assert (stay_at w2 (emit_denied ids ;; ret (length ids))) as Hrest by (apply good_stay; good).
  specialize (Hrest HI2). unfold wp, bind, ret in Hrest.
  destruct (emit_denied ids w2) as [w3 [[]|]]; [|done]. destruct Hrest as [? Hr].
  split; [done|by etrans].
Qed.

Lemma stay_attach id w : stay_at w (attach_lease id).
Proof.
  unfold attach_lease. apply stay_self. unfold Datatypes.id.
  destruct (shutdown (actor w) != Running); [apply good_stay, service_good_ret|].
  destruct (attached (actor w)) as [active|] eqn:Ha; [case_if; apply good_stay, service_good_ret|].
  apply stay_bind; [apply good_stay; good|intros _ _].
  set (w1 := (update _ w).1). assert (attached (actor w1) = None) as Ha1 by done.
  generalize (next_lease_generation (actor w)). clearbody w1. intros generation.
  apply stay_bind; [|intros _ _; apply good_stay; good].
  apply stay_update. intros HI. destruct HI.
  set (a1 := set_attached _ _).
  assert (forward (actor w1) a1) as Hf by (split; simpl; intros; lia).
  split; [|done]. split; simpl; try done.
  - assert (pending (confirmations (actor w1)) = ∅) as Hempty.
    { apply map_empty. intros i. apply eq_None_not_Some. intros [p Hp].
      apply (co_lease _ _ ai_confirmations0) in Hp. unfold current_lease_generation in Hp.
      by rewrite Ha1 in Hp. }
    split; rewrite Hempty; [rewrite map_size_empty; unfold CONFIRMATION_MAP_CAP; lia|..];
      by intros ??.
  - eapply Forall_impl; [done|]. intros c Hc. by eapply child_ok_forward.
Qed.

Lemma stay_detach lease w : stay_at w (detach_lease lease).
Proof.
  unfold detach_lease. apply stay_self. case_if; [|apply good_stay, service_good_ret].
  apply stay_bind; [apply stay_clear_active|intros denied _; apply good_stay, service_good_ret].
Qed.

Lemma good_spawn_shutdown mode deadline : good (spawn_shutdown mode deadline).
Proof.
  unfold spawn_shutdown. intros w. apply good_at_then; [by good|intros now w1].
  by apply good_spawn_child.
Qed.
#[local] Hint Resolve good_spawn_shutdown : service.

(** The shutdown state moves on. *)
Lemma fair_set_shutdown st w :
  shutdown_rank (shutdown (actor w)) ≤ shutdown_rank st → fair_at w (update (set_shutdown st)).
Proof.
  intros Hst. apply fair_update. intros HI. destruct HI.
  assert (forward (actor w) (set_shutdown st (actor w))) as Hf by (split; simpl; intros; lia).
  split; [|done]. split; simpl; try done.
  eapply Forall_impl; [done|]. intros c Hc. by eapply child_ok_forward.
Qed.

Definition step_at {A} : World → M A → Prop := keeps r (steps granted).

Lemma stay_step {A} w (m : M A) : stay_at w m → step_at w m.
Proof.
  intros Hm. apply (kept_weaken r granted (stays granted) (steps granted)); [|done].
  apply stays_steps.
Qed.

(** The part of the shutdown after [StopAccepting]. *)
Definition drains (w w' : World) : Prop :=
  drifts granted w w' ∧ drain_ok (actor w') ∧ shutdown (actor w') = RuntimeDraining.

Lemma drains_after {A} w (m : M A) (f : A → M unit) :
  shutdown (actor w) = StopAccepting → stay_at w m →
  (∀ a w', shutdown (actor w') = StopAccepting → keeps r drains w' (f a)) →
  keeps r drains w (bind m f).
Proof.
  intros Hs Hm Hf HI. specialize (Hm HI). unfold wp, bind in *.
  destruct (m w) as [w1 [a|]]; [|done]. destruct Hm as [HI1 [Hd1 Hs1 _]].
  specialize (Hf a w1). rewrite Hs1 in Hf. specialize (Hf Hs HI1). unfold wp in Hf.
  destruct (f a w1) as [w2 [[]|]]; [|done]. destruct Hf as [? [? ?]]. split; [done|].
  split; [by etrans|done].
Qed.

Lemma spawn_shutdown_child mode deadline w :
  ∃ c, child_tasks (actor (spawn_shutdown mode deadline w).1) = child_tasks (actor w) ++ [c] ∧
    is_work c = false.
Proof. by eexists. Qed.

Lemma drains_last mode deadline w :
  shutdown (actor w) = StopAccepting →
  keeps r drains w (spawn_shutdown mode deadline ;; update (set_shutdown RuntimeDraining)).
Proof.
  intros Hsd HI. pose proof (good_spawn_shutdown mode deadline w HI) as Hg.
  destruct (spawn_shutdown_child mode deadline w) as (c & Hc & Hwork).
  unfold wp, bind in *. destruct (spawn_shutdown mode deadline w) as [w1 [[]|]]; [|done].
  destruct Hg as [HI1 [Hd _ Hs _ _]]. simpl in Hc.
  destruct (fair_set_shutdown RuntimeDraining w1) as [HI2 Hd2]; [rewrite Hs, Hsd; simpl; lia|done|].
  split; [done|]. split; [by etrans|]. split; [|done].
  unfold drain_ok. simpl. rewrite Hc. apply Exists_app. right. by constructor.
Qed.

Lemma good_step {A} w (m : M A) : good_at w m → step_at w m.
Proof. intros Hm. by apply stay_step, good_stay. Qed.

Lemma drains_steps w m : keeps r drains w m → step_at (A := unit) w m.
Proof.
  intros Hm HI. specialize (Hm HI). unfold wp in *. destruct (m w) as [w' [[]|]]; [|done].
  destruct Hm as [? [? [? ?]]]. by split.
Qed.

Lemma step_begin_shutdown rid deadline upgrade w :
  step_at w (begin_host_shutdown rid deadline upgrade).
Proof.
  unfold begin_host_shutdown. apply (kept_self r). destruct (shutdown (actor w)) eqn:Hs.
  2-5: apply good_step; good.
  apply drains_steps. eapply (kept_seq r _ drains).
  { intros w1 w2 w3 Hd [Hd' Ho]. split; [by etrans|done]. }
  { apply fair_set_shutdown. rewrite Hs. simpl. lia. }
  intros _ _. apply drains_after; [done|apply good_stay; good|intros _ w1 Hs1].
  apply drains_after; [done|apply stay_clear_active|intros denied w2 Hs2].
  do 2 (apply drains_after; [done|apply good_stay; good|intros ? ? ?]).
  apply drains_after; [done|apply good_stay; good|intros now w3 Hs3].
  by apply drains_last.
Qed.

Lemma step_bind {A B} w (m : M A) (f : A → M B) :
  step_at w m → (∀ a, (m w).2 = Some a → step_at (m w).1 (f a)) → step_at w (bind m f).
Proof. apply kept_bind, _. Qed.

Lemma step_supervisor command deadline w : step_at w (handle_supervisor command deadline).
Proof.
  unfold handle_supervisor. apply step_bind.
  - destruct command as [id|lease|reason].
    + apply step_bind; [apply stay_step, stay_attach|intros; apply good_step; good].
    + apply step_bind; [apply stay_step, stay_detach|intros; apply good_step; good].
    + apply step_bind; [apply step_begin_shutdown|intros; apply good_step; good].
  - intros reply _. match goal with |- step_at ?w' _ => generalize w' end. intros w1 HI.
    unfold wp, modify. split; [done|]. split; [|done]. split; simpl; try done.
    + apply no_acts.
    + exists []. by rewrite app_nil_r.
    + by apply prefix_app_r.
Qed.

Lemma step_shutdown_requested rid w : step_at w (handle_shutdown_requested rid).
Proof.
  unfold handle_shutdown_requested. apply step_bind; [apply good_step; good|intros now _].
  apply step_begin_shutdown.
Qed.

(** ** Commands *)

(** Only an [Allow] of a confirmation that the attached lease was asked grants. *)
Definition may_grant (command : FrontendCommand) (a : Actor) : Prop :=
  ∀ id p, command = RespondConfirmation id Allow → pending (confirmations a) !! id = Some p →
    current_lease_generation a = Some (pc_generation p) → granted (pc_reply p).

Lemma good_respond rid id decision w :
  may_grant (RespondConfirmation id decision) (actor w) →
  good_at w (service_actor.respond_confirmation rid id decision).
Proof.
  intros Hgrant. unfold service_actor.respond_confirmation. apply service_good_self.
  apply good_at_then; [|intros answered; good].
  apply good_with_confirmations. intros m m' sent x lease -> -> Hm Hx.
  apply respond_confirmation in Hx as (Hok & Hw & Hsent); [|done].
  split; [done|]. split; [|done]. destruct Hsent as [[-> _]|(p & Hp & Hl & _ & -> & _)]; [done|].
  constructor; [|done]. simpl. destruct decision; [|by left]. right. by eapply Hgrant.
Qed.

Lemma step_command e w : may_grant (envelope_command e) (actor w) → step_at w (handle_command e).
Proof.
  intros Hgrant. unfold handle_command. destruct (envelope_command e).
  all: try (by apply good_step; good).
  - by apply good_step, good_respond.
  - apply step_shutdown_requested.
Qed.

(** ** The ends of child tasks *)

Definition draining (s : ServiceShutdownState) : bool :=
  match s with StopAccepting | RuntimeDraining => true | _ => false end.

(** The runtime's shutdown is over. *)
Definition finishes_drain (w w' : World) : Prop :=
  drifts granted w w' ∧ draining (shutdown (actor w')) = false.

Lemma shutdown_finished result w : keeps r finishes_drain w (on_runtime_shutdown_finished result).
Proof.
  unfold on_runtime_shutdown_finished, shutdown_failed. eapply (kept_seq r (drifts granted) finishes_drain).
  - intros w1 w2 w3 Hd [Hd' Hs]. split; [by etrans|done].
  - apply good_fair. good.
  - intros _ _. match goal with |- keeps _ _ ?w' _ => generalize w' end. intros w1 HI.
    set (f := λ a, _).
    assert (fair_at w1 (update f)) as Hf.
    { apply fair_update. unfold f. intros HI1. destruct HI1.
      destruct (shutdown (actor w1)) eqn:Hs; (split; [|split; [|done]]); try done;
        try (split; simpl; rewrite ?Hs; simpl; intros; lia).
      all: split; simpl; try done; (eapply Forall_impl; [done|]); intros c Hc;
        (eapply child_ok_forward; [done| |done]); split; simpl; rewrite ?Hs; simpl; intros; lia. }
    specialize (Hf HI). unfold wp, update, modify in *. destruct Hf as [HI1 Hd]. split; [done|].
    split; [done|]. unfold f. simpl. by destruct (shutdown (actor w1)) eqn:Hs; simpl; rewrite ?Hs.
Qed.

Definition result_ok (a : Actor) (result : ServiceTaskResult) : Prop :=
  match result with
  | ResStoreView _ _ kind _ _ => ∀ token, tracked_token kind = Some token → token_past a token
  | ResRuntimeSnapshot _ s => length (snapshot_queued s) ≤ RUNTIME_QUEUE_MAX
  | _ => True
  end.

Lemma finishes_ok n a c result :
  child_ok n a c → child_end c = Some (Some result) → result_ok a result.
Proof.
  intros [_ Hp Hf] He. specialize (Hf _ He). destruct (child_task c), result; try done; simpl in *.
  - destruct Hf as (_ & _ & <- & _). done.
  - by destruct Hf as [_ ?].
Qed.

Definition is_shutdown_result (result : ServiceTaskResult) : bool :=
  match result with ResShutdown _ => true | _ => false end.

(** The handler of a result, before the last line of [handle_task_result]. *)
Definition result_body (result : ServiceTaskResult) : M unit :=
  match result with
  | ResStoreView request_id task_epoch kind session_id result =>
      handle_store_view request_id task_epoch kind session_id result
  | ResInstall request_id task_epoch name result => handle_install request_id task_epoch name result
  | ResSubmit request_id task_epoch result => handle_submit_result request_id task_epoch result
  | ResCancel request_id result | ResCancelMaintenance request_id result =>
      emit_cancel request_id result
  | ResCompaction request_id result => handle_compaction_result request_id result
  | ResShutdown result => on_runtime_shutdown_finished result
  | ResRuntimeSnapshot task_epoch s => handle_runtime_snapshot task_epoch s
  | ResListSessions request_id task_epoch result =>
      handle_list_sessions_result request_id task_epoch result
  | ResRenameSession request_id task_epoch result =>
      handle_rename_result request_id task_epoch result
  end.

Lemma good_result result w :
  is_shutdown_result result = false → result_ok (actor w) result → good_at w (result_body result).
Proof.
  intros Hs Hok. destruct result; simpl in *; try done.
  - by apply good_store_view.
  - good.
  - unfold handle_submit_result. good.
  - good.
  - unfold handle_compaction_result. good.
  - good.
  - by apply service_good_apply, good_runtime_snapshot.
  - good.
  - unfold handle_rename_result. good.
Qed.

(** While the service drains, some child that is left waits for the runtime. *)
Definition waits (a : Actor) : Prop :=
  draining (shutdown a) = true → Exists (λ c, is_work c = false) (child_tasks a).

(** The handlers of an end, up to their last line. *)
Definition ends_child (w w' : World) : Prop := drifts granted w w' ∧ waits (actor w').

Lemma ends_good {A} w (m : M A) : good_at w m → waits (actor w) → keeps r ends_child w m.
Proof.
  intros Hm Hw HI. specialize (Hm HI). unfold wp in *. destruct (m w) as [w' [a|]]; [|done].
  destruct Hm as [? [Hd _ Hs [l Hl] _]]. split; [done|]. split; [done|]. unfold waits in *.
  rewrite Hs, Hl, Exists_app. tauto.
Qed.

Lemma ends_finished w m :
  keeps r finishes_drain w m → keeps r ends_child w (m : M unit).
Proof.
  intros Hm HI. specialize (Hm HI). unfold wp in *. destruct (m w) as [w' [a|]]; [|done].
  destruct Hm as [? [Hd Hs]]. split; [done|]. split; [done|]. unfold waits. by rewrite Hs.
Qed.

(** The last line: the service stops when no child is left. *)
Lemma finish_idle w :
  waits (actor w) →
  keeps r (λ w w', drifts granted w w' ∧ drain_ok (actor w')) w finish_if_children_idle.
Proof.
  intros Hw HI. unfold finish_if_children_idle. set (f := λ a, _).
  assert (fair_at w (update f)) as Hf.
  { apply fair_update. unfold f. intros HI1. destruct HI1.
    destruct (shutdown (actor w) == ChildrenJoining) eqn:Hs; simpl; [|done].
    apply bool_decide_eq_true in Hs. destruct (is_nil (child_tasks (actor w))); [|done].
    split; [|split; [|done]]; [|split; simpl; rewrite ?Hs; simpl; intros; lia].
    split; simpl; try done. eapply Forall_impl; [done|]. intros c Hc.
    eapply child_ok_forward; [done| |done]; split; simpl; rewrite ?Hs; simpl; intros; lia. }
  specialize (Hf HI). unfold wp, update, modify in *. destruct Hf as [HI1 Hd]. split; [done|].
  split; [done|]. unfold f, drain_ok, waits in *. simpl.
  destruct (shutdown (actor w)) eqn:Hs; simpl; rewrite ?Hs; auto.
  destruct (child_tasks (actor w)) eqn:Hc; simpl; [done|]. by rewrite Hs, Hc.
Qed.

Lemma ends_then_idle w (m : M unit) :
  keeps r ends_child w m →
  keeps r (λ w w', drifts granted w w' ∧ drain_ok (actor w')) w (m ;; finish_if_children_idle).
Proof.
  intros Hm HI. specialize (Hm HI). unfold wp, bind in *. destruct (m w) as [w1 [[]|]]; [|done].
  destruct Hm as [HI1 [Hd Hw]]. pose proof (finish_idle w1 Hw HI1) as Hf. unfold wp in Hf.
  destruct (finish_if_children_idle w1) as [w2 [[]|]]; [|done]. destruct Hf as [? [? ?]].
  split; [done|]. split; [by etrans|done].
Qed.

Lemma task_result_ends result w :
  result_ok (actor w) result → (is_shutdown_result result = false → waits (actor w)) →
  keeps r (λ w w', drifts granted w w' ∧ drain_ok (actor w')) w (handle_task_result result).
Proof.
  intros Hok Hw. apply (ends_then_idle w (result_body result)).
  destruct (is_shutdown_result result) eqn:Hs.
  - destruct result; try done. apply ends_finished, shutdown_finished.
  - apply ends_good; [by apply good_result|by apply Hw].
Qed.

Definition drains_ok (w w' : World) : Prop := drifts granted w w' ∧ drain_ok (actor w').

Lemma drains_ok_after {A} w (m : M A) (f : A → M unit) :
  fair_at w m → (∀ a, (m w).2 = Some a → keeps r drains_ok (m w).1 (f a)) →
  keeps r drains_ok w (bind m f).
Proof.
  intros Hm Hf. eapply (kept_seq r (drifts granted) drains_ok); [|done|done].
  intros w1 w2 w3 Hd [Hd' Hs]. split; [by etrans|done].
Qed.

Lemma join_error_ends rid w : keeps r drains_ok w (on_child_join_error rid).
Proof.
  unfold on_child_join_error.
  do 2 (apply drains_ok_after; [apply good_fair; good|intros _ _]).
  match goal with |- keeps _ _ ?w' _ => generalize w' end. intros w1. apply (kept_self r).
  apply ends_then_idle. destruct (shutdown (actor w1)) eqn:Hs.
  1,4,5: apply ends_good; [apply service_good_ret|unfold waits; by rewrite Hs].
  all: apply ends_finished, shutdown_finished.
Qed.

Lemma filter_filter_length {A} (P Q : A → Prop) `{∀ x, Decision (P x), ∀ x, Decision (Q x)} l :
  length (filter P (filter Q l)) ≤ length (filter P l).
Proof.
  induction l as [|x l IH]; [done|]. rewrite !filter_cons.
  repeat (case_decide; rewrite ?filter_cons; simpl); try done; try lia.
Qed.

(** The child leaves the set. *)
Lemma fair_remove child w :
  fair_at w (update (set_child_tasks (filter (λ c, child_id c ≠ child) (child_tasks (actor w))))).
Proof.
  apply fair_update. intros HI. destruct HI.
  assert (∀ l, forward (actor w) (set_child_tasks l (actor w))) as Hf
    by (split; simpl; intros; lia).
  split; [|done]. split; simpl; try done.
  - apply forall_filter. eapply Forall_impl; [done|]. intros c Hc. by eapply child_ok_forward.
  - eapply sublist_NoDup; [apply ai_ids0|]. apply fmap_sublist, sublist_filter.
  - etrans; [|done]. apply filter_filter_length.
Qed.

Lemma work_filter_exists id l c :
  NoDup (child_id <$> l) → c ∈ l → child_id c = id → is_work c = true →
  Exists (λ c, is_work c = false) l → Exists (λ c, is_work c = false) (filter (λ c, child_id c ≠ id) l).
Proof.
  intros Hnd Hc Hid Hw (d & Hd & Hdw)%Exists_exists. apply Exists_exists. exists d. split; [|done].
  apply list_elem_of_filter. split; [|done]. intros Heq.
  assert (c = d) as ->; [|congruence]. eapply nodup_fmap_inj; eauto. congruence.
Qed.

Lemma step_drains_ok {A} w (m : M A) :
  step_at w m → drain_ok (actor w) → keeps r drains_ok w m.
Proof.
  intros Hm Hd. apply (kept_weaken_at r granted (steps granted)); [|done]. intros w' [? ?]. split; auto.
Qed.

Lemma join_ends child w : drain_ok (actor w) → keeps r drains_ok w (join_child child).
Proof.
  intros Hdrain. unfold join_child. apply (kept_self r). unfold id.
  destruct (find_map _ _) as [ended|] eqn:Hfind;
    [|by apply step_drains_ok; [apply good_step, service_good_ret|]].
  apply find_map_Some in Hfind as (c & Hin & Hc).
  destruct (bool_decide_reflect (child_id c = child)) as [Hid|]; [|done].
  intros HI. revert HI. apply kept_inv. intros HI. pose proof HI as [].
  rewrite Forall_forall in ai_children0. pose proof (ai_children0 _ Hin) as Hok.
  apply drains_ok_after; [apply fair_remove|intros _ _].
  apply drains_ok_after; [apply good_fair; good|intros _ _].
  destruct ended as [result|]; [|apply join_error_ends].
  apply task_result_ends.
  - eapply (finishes_ok (tasks_spawned w) _ c); [|done].
    eapply child_ok_forward; [done| |done]. split; simpl; intros; lia.
  - intros Hres Hdr. simpl in *.
    apply (work_filter_exists child _ c); try done.
    + destruct Hok as [_ _ Hf]. specialize (Hf _ Hc). unfold is_work.
      by destruct (child_task c), result.
    + unfold drain_ok in Hdrain. by destruct (shutdown (actor w)).
Qed.

End proofs.
End service_proofs.
