(* ===== verification/ServiceSafety.v ===== *)
(** What holds in every reachable state of the agent service, for frontends,
    supervisor, child tasks and runtime that move in any order. What does not hold is
    shown in [ServiceDemo.v]. *)

From S2P Require Import Prelude RustStr Kernel Session SessionLifecycle SessionContext SessionStore.
From S2P Require Import Tools Runtime RuntimeMapping Operation Outlets Epoch Coordinator.
From S2P Require Import Service ServiceSnapshot ServiceMapping ServiceFeed ServiceActor.
From S2P Require Import ServiceSystem ServiceParts ServiceFeedProofs ServiceLogic ServiceProofs.
Import runtime service service_snapshot feed service_actor service_system.
Import service_parts feed_proofs service_logic service_proofs.

Module service_safety.

Section safety.
Context `{Build, Outside, service_mapping.ToolPorts, ServiceOrders, DebugSessionError, DebugReport}.

(** ** Turns *)

(** What a turn may grant: the asker of the confirmation it allows. *)
Definition grants (b : Branch) (a : Actor) (asker : Asker) : Prop :=
  ∃ e id p, b = BranchCommand e ∧ envelope_command e = RespondConfirmation id Allow ∧
    pending (confirmations a) !! id = Some p ∧ pc_reply p = asker ∧
    current_lease_generation a = Some (pc_generation p).

(** The asker a turn takes from its lane. *)
Definition newcomer (b : Branch) : list Asker :=
  match b with BranchConfirm submit => [cs_reply submit] | _ => [] end.

(** The change of the world by a turn, before the actor may be dropped. *)
Record turns (b : Branch) (w w' : World) : Prop := {
  tn_forward : forward (actor w) (actor w');
  tn_history : ∃ l, history (feed_end (actor w')) = history (feed_end (actor w)) ++ l ∧
    floors (actor w) l;
  tn_answers : ∃ l, answers w' = answers w ++ l ∧
    Forall (λ x, x.2 = Deny ∨ grants b (actor w) x.1) l;
  tn_askers : askers w' ≡ₚ newcomer b ++ askers w;
  tn_replies : supervisor_replies w `prefix_of` supervisor_replies w'
}.

Lemma drifts_turns b w w' : newcomer b = [] → drifts (grants b (actor w)) w w' → turns b w w'.
Proof. intros Hb []. split; auto. by rewrite Hb. Qed.

Definition branch_spec (r : nat) (b : Branch) (w w' : World) : Prop :=
  ActorInv r (tasks_spawned w') (actor w') ∧ turns b w w' ∧ drain_ok (actor w').

Lemma then_flush r granted w (m : M unit) :
  keeps r (drains_ok granted) w m →
  keeps r (drains_ok granted) w (m ;; flush).
Proof.
  intros Hm. eapply (kept_seq r); [|apply Hm|].
  2: { intros _ _. apply (good_flush r granted). }
  intros w1 w2 w3 [Hd Ho] Hev. split; [etrans; [done|apply Hev]|].
  destruct (stays_steps _ _ _ (evolves_stays _ _ _ Hev)) as [_ Hk]. auto.
Qed.

Lemma branch_ok r b w :
  ActorInv r (tasks_spawned w) (actor w) → drain_ok (actor w) →
  ∃ w', (handle_branch b ;; flush) w = (w', Some tt) ∧ branch_spec r b w w'.
Proof.
  intros HI Hdrain.
  assert (∀ m : M unit, newcomer b = [] →
    keeps r (drains_ok (grants b (actor w))) w m →
    ∃ w', (m ;; flush) w = (w', Some tt) ∧ branch_spec r b w w') as Hcase.
  { intros m Hb Hm. apply then_flush in Hm. specialize (Hm HI). unfold wp in Hm.
    destruct ((m ;; flush) w) as [w' [[]|]]; [|done]. destruct Hm as [HI' [Hd Ho]].
    exists w'. split; [done|]. split; [done|]. split; [by apply drifts_turns|done]. }
  destruct b as [command deadline|e|child|submit| |]; simpl.
  - apply Hcase; [done|]. by apply step_drains_ok; [apply step_supervisor|].
  - apply Hcase; [done|]. apply step_drains_ok; [apply step_command|done].
    intros id p Hc Hp Hl. exists e, id, p. done.
  - apply Hcase; [done|]. by apply join_ends.
  - destruct (good_after_joining r (λ _, False) submit w HI) as (w1 & Hj & Hm).
    destruct Hj as (HI1 & Hf & Hfe & Hat & Hsd & Hch & Hre & Htk & (l & Hl & Hd) & Hask).
    unfold wp, bind in *. destruct (handle_confirmation_submit submit w) as [w2 [[]|]]; [|done].
    destruct Hm as [HI2 Hev].
    pose proof (good_flush r (λ _, False) w2 HI2) as Hflush. unfold wp in Hflush.
    destruct (flush w2) as [w3 [[]|]]; [|done]. destruct Hflush as [HI3 Hev3].
    assert (evolves (λ _, False) w1 w3) as He by by etrans.
    exists w3. split; [done|]. split; [done|]. split.
    + pose proof He as [[] _ _ _ _]. split.
      * by etrans.
      * destruct dr_history0 as (k & Hk & Hfl). rewrite <- Hfe. exists k. split; [done|].
        by eapply floors_forward.
      * destruct dr_answers0 as (k & Hk & Hfl). exists (l ++ k). rewrite Hk, Hl, app_assoc.
        split; [done|]. apply Forall_app. split; (eapply Forall_impl; [done|]); simpl; tauto.
      * by rewrite dr_askers0, Hask.
      * by rewrite <- Hre.
    + destruct (stays_steps _ _ _ (evolves_stays _ _ _ He)) as [_ Hk]. apply Hk.
      unfold drain_ok in *. by rewrite Hsd, Hch.
  - apply Hcase; [done|]. by apply step_drains_ok; [apply good_step, good_poll|].
  - apply Hcase; [done|]. by apply step_drains_ok; [apply good_step, good_flush|].
Qed.

(** ** The invariant of the system *)

Definition lane_bounded {A} (n : nat) (l : Lane A) : Prop :=
  lane_wf l ∧ lane_cap l = n ∧ lane_held l = 0 ∧ occupied l ≤ n.

Record lanes_ok (s : System) : Prop := {
  ln_command : lane_bounded FRONTEND_COMMAND_CAP (command_rx s);
  ln_control : lane_bounded FRONTEND_CONTROL_CAP (control_rx s);
  ln_snapshot : lane_bounded FRONTEND_SNAPSHOT_CAP (snapshot_rx s);
  ln_confirm : lane_bounded CONFIRMATION_MAP_CAP (confirm_rx s);
  ln_supervisor : lane_bounded FRONTEND_SUPERVISOR_CAP (supervisor_rx s)
}.

(** All who asked and whose question reached the actor's lane. *)
Definition all_askers (s : System) : list Asker :=
  askers (world s) ++ (cs_reply <$> unread (confirm_rx s)).

Record SysInv (s : System) : Prop := {
  si_actor : ActorInv (holding s) (tasks_spawned (world s)) (actor (world s));
  si_running : over s = false →
    drain_ok (actor (world s)) ∧ shutdown (actor (world s)) ≠ Stopped;
  si_askers : NoDup (all_askers s);
  si_fresh : ∀ x, x ∈ all_askers s → x < next_asker s;
  si_lanes : lanes_ok s
}.

(** How a step changes the system. *)
Record moves (s s' : System) : Prop := {
  mv_forward : forward (actor (world s)) (actor (world s'));
  mv_history : ∃ l, history (feed_of s') = history (feed_of s) ++ l ∧ floors (actor (world s)) l;
  mv_answers : ∃ l, answers (world s') = answers (world s) ++ l ∧
    Forall (λ x, x.2 = Deny ∨ ∃ b sb, over s = false ∧ ready s b sb ∧ s' = turn b sb ∧
      grants b (actor (world s)) x.1) l;
  mv_over : over s = true → over s' = true
}.

Lemma lane_new_bounded {A} n : lane_bounded n (lane_new (A := A) n).
Proof. unfold lane_bounded, lane_wf, occupied, unread. simpl. lia. Qed.

Lemma lane_recv_bounded {A} n (l l' : Lane A) x :
  lane_bounded n l → try_recv l = (l', x) → lane_bounded n l'.
Proof.
  intros (Hw & Hc & Hh & Ho) Hr. destruct (recv_lane _ _ _ Hr Hw) as (? & ? & ? & ? & ?).
  split; [done|]. split; [congruence|]. split; [congruence|lia].
Qed.

Lemma lane_send_bounded {A} n (l : Lane A) x :
  lane_bounded n l → lane_bounded n (try_send x l).1.
Proof.
  intros (Hw & Hc & Hh & Ho). destruct (try_send_cases x l) as [[Hok ->]|[->| ->]]; try done.
  apply send_ok in Hok. split; [by apply wf_push|]. split; [done|]. split; [done|].
  simpl. rewrite occupied_push by done. lia.
Qed.

Lemma lane_close_bounded {A} n (l : Lane A) : lane_bounded n l → lane_bounded n (close l).
Proof. done. Qed.

(** A change of the feed by others than the actor. *)
Lemma actor_inv_feed r r' n a f :
  ActorInv r n a → FeedInv r' (revision a) f → history f = history (feed_end a) →
  ActorInv r' n (set_feed_end f a).
Proof.
  intros [] Hf Hh. assert (forward a (set_feed_end f a)) as Hfw by (split; simpl; intros; lia).
  split; simpl; try done; [by rewrite Hh|].
  eapply Forall_impl; [done|]. intros c Hc. by eapply child_ok_forward.
Qed.

Lemma forward_feed f a : forward a (set_feed_end f a).
Proof. split; simpl; intros; lia. Qed.

(** Steps that change the feed, the calls and the client only. *)
Lemma feed_step s s' f :
  SysInv s → world s' = set_actor (set_feed_end f (actor (world s))) (world s) →
  FeedInv (holding s') (revision (actor (world s))) f → history f = history (feed_of s) →
  over s' = over s → next_asker s' = next_asker s → confirm_rx s' = confirm_rx s →
  lanes_ok s' →
  SysInv s' ∧ moves s s'.
Proof.
  intros [] Hw Hf Hh Ho Ha Hc Hl. split.
  - split; unfold all_askers, askers in *; rewrite ?Hw, ?Ha, ?Hc; simpl; try done.
    + by eapply actor_inv_feed.
    + by rewrite Ho.
  - split; unfold feed_of; rewrite ?Hw; simpl.
    + apply forward_feed.
    + rewrite Hh. apply no_acts.
    + exists []. by rewrite app_nil_r.
    + by rewrite Ho.
Qed.

(** The actor is dropped. *)
Lemma drop_ok s : SysInv s → SysInv (drop_actor s) ∧ moves s (drop_actor s).
Proof.
  intros []. split.
  - split; simpl; try done; [|by destruct si_lanes0].
    eapply actor_inv_feed; [done|apply close_inv, si_actor0|done].
  - split; simpl; try done; [apply no_acts|]. exists []. by rewrite app_nil_r.
Qed.

(** The system before a turn, less what the turn took from its lane. *)
Record taken (b : Branch) (s sb : System) : Prop := {
  tk_world : world sb = world s;
  tk_holding : holding sb = holding s;
  tk_over : over sb = over s;
  tk_next : next_asker sb = next_asker s;
  tk_askers : cs_reply <$> unread (confirm_rx s) =
    newcomer b ++ (cs_reply <$> unread (confirm_rx sb));
  tk_lanes : lanes_ok sb
}.

Lemma ready_taken s b sb : lanes_ok s → ready s b sb → taken b s sb.
Proof.
  intros Hl Hr. pose proof Hl as [].
  assert (∀ A (l l' : Lane A) n x, lane_bounded n l → try_recv l = (l', Some x) →
    lane_bounded n l') as Hrecv by (intros; by eapply lane_recv_bounded).
  destruct Hr; split; simpl; try done; try (split; simpl; by eauto).
  destruct (unread_recv (confirm_rx s)) as [[He _]|(x & l' & He & Hu)];
    rewrite He in *; simplify_eq. by rewrite Hu.
Qed.

Lemma moves_refl_world s s' :
  world s' = world s → (over s = true → over s' = true) → moves s s'.
Proof.
  intros Hw Ho. split; unfold feed_of; rewrite ?Hw; try done; [apply no_acts|].
  exists []. by rewrite app_nil_r.
Qed.

Lemma turn_ok s b sb :
  SysInv s → over s = false → ready s b sb → SysInv (turn b sb) ∧ moves s (turn b sb).
Proof.
  intros HI Ho Hr. pose proof HI as []. destruct (ready_taken s b sb si_lanes0 Hr) as [].
  destruct (si_running0 Ho) as [Hdrain Hstop].
  destruct (branch_ok (holding s) b (world s) si_actor0 Hdrain) as (w' & Hw & HI' & Ht & Hd').
  set (s1 := set_world w' sb).
  assert (all_askers s1 ≡ₚ all_askers s) as Hall.
  { unfold all_askers, s1. simpl. rewrite (tn_askers _ _ _ Ht), tk_askers0.
    rewrite (Permutation_app_comm (newcomer b)), <- app_assoc. done. }
  assert (turn b sb = if should_stop (actor w') then drop_actor s1 else s1) as Hturn.
  { unfold turn. rewrite tk_world0, Hw. done. }
  assert (SysInv s1 ∨ should_stop (actor w') = true ∧
    SysInv (set_over true s1)) as Hinv.
  { destruct (should_stop (actor w')) eqn:Hs; [right; split; [done|]|left].
    all: split; simpl; rewrite ?tk_holding0, ?tk_next0; try done; try (by destruct tk_lanes0).
    all: try (change (all_askers (set_over true s1)) with (all_askers s1)).
    all: try by rewrite Hall.
    - intros x. rewrite Hall. apply si_fresh0.
    - intros _. split; [done|]. by intros Hst; unfold should_stop in Hs; rewrite Hst in Hs.
    - intros x. rewrite Hall. apply si_fresh0. }
  assert (∀ s2, turn b sb = s2 → actor (world s2) = actor w' ∨
    actor (world s2) = set_feed_end (close_feed (feed_end (actor w'))) (actor w')) as Hact.
  { intros s2 <-. rewrite Hturn. destruct (should_stop _); [by right|by left]. }
  split.
  - rewrite Hturn. destruct Hinv as [Hinv|[-> Hinv]].
    + destruct (should_stop _); [by apply drop_ok|done].
    + apply (drop_ok (set_over true s1)) in Hinv as [Hinv _]. exact Hinv.
  - pose proof Ht as [].
    assert (answers (world (turn b sb)) = answers w') as Hans.
    { rewrite Hturn. by destruct (should_stop _). }
    split.
    + destruct (Hact _ eq_refl) as [->| ->]; [done|].
      etrans; [done|apply forward_feed].
    + unfold feed_of. by destruct (Hact _ eq_refl) as [->| ->].
    + destruct tn_answers0 as (l & Hl & Hg). exists l. rewrite Hans, Hl. split; [done|].
      eapply Forall_impl; [done|]. simpl. intros x [?|?]; [by left|right].
      by exists b, sb.
    + congruence.
Qed.

Lemma mark_id id ended c : child_id (mark_end id ended c) = child_id c.
Proof. unfold mark_end. by case_if. Qed.
Lemma mark_work id ended c : is_work (mark_end id ended c) = is_work c.
Proof. unfold mark_end. by case_if. Qed.
Lemma mark_ids id ended (l : list Child) : child_id <$> (mark_end id ended <$> l) = child_id <$> l.
Proof. induction l as [|c l IH]; [done|]. rewrite !fmap_cons. by rewrite mark_id, IH. Qed.
Lemma mark_work_count id ended (l : list Child) :
  length (filter is_work (mark_end id ended <$> l)) = length (filter is_work l).
Proof.
  induction l as [|c l IH]; [done|]. rewrite fmap_cons, !filter_cons, mark_work.
  case_decide; simpl; by rewrite IH.
Qed.

(** A child ends. *)
Lemma end_child_ok s id ended :
  SysInv s → (∀ c result, c ∈ child_tasks (actor (world s)) → child_id c = id →
    ended = Some result → finishes (child_task c) result) →
  over s = false →
  SysInv (change_actor (end_child id ended) s) ∧ moves s (change_actor (end_child id ended) s).
Proof.
  intros [] Hend Ho. set (a := actor (world s)) in *.
  assert (forward a (end_child id ended a)) as Hf by (split; simpl; intros; lia).
  split.
  - split; try done.
    + destruct si_actor0. split; simpl; try done.
      * apply Forall_fmap, Forall_forall. intros c Hc. simpl. rewrite Forall_forall in ai_children0.
        pose proof (ai_children0 _ Hc) as Hok.
        eapply (child_ok_forward _ _ a); [|done|done]. destruct Hok. unfold mark_end.
        destruct (bool_decide_reflect (child_id c = id)) as [Hci|]; [|by split].
        split; simpl; try done. intros result [= Hr]. by eapply Hend.
      * by rewrite mark_ids.
      * by rewrite mark_work_count.
    + intros _. destruct (si_running0 Ho) as [Hd Hs]. split; [|done].
      unfold drain_ok in *. simpl. fold a in Hd |- *. destruct (shutdown a); try done.
      * apply Exists_fmap. eapply Exists_impl; [done|]. intros c Hc. simpl. by rewrite mark_work.
      * apply Exists_fmap. eapply Exists_impl; [done|]. intros c Hc. simpl. by rewrite mark_work.
      * by intros Hn%fmap_nil_inv.
    + by destruct si_lanes0.
  - split; try done; [apply no_acts|]. exists []. by rewrite app_nil_r.
Qed.

Lemma send_command_feed e l f l' f' res r rev :
  send_command e l f = (l', f', res) → FeedInv r rev f →
  l' = (try_send e l).1 ∧ FeedInv r rev f' ∧ history f' = history f.
Proof.
  unfold send_command. intros Hs Hf.
  destruct (try_send_cases e l) as [[_ He]|[He|He]]; rewrite He in *; simplify_eq/=; [done| |];
    (split; [done|]); (split; [by apply release_inv|by rewrite ?history_cancel]).
Qed.

(** Steps that leave the actor alone. *)
Lemma idle_step s s' l :
  SysInv s → actor (world s') = actor (world s) → answers (world s') = answers (world s) →
  tasks_spawned (world s') = tasks_spawned (world s) → holding s' = holding s →
  over s' = over s → next_asker s ≤ next_asker s' → lanes_ok s' →
  all_askers s' = all_askers s ++ l → NoDup l →
  (∀ x, x ∈ l → next_asker s ≤ x < next_asker s') →
  SysInv s' ∧ moves s s'.
Proof.
  intros [] Ha Han Ht Hh Ho Hn Hl Hall Hnd Hfresh. split.
  - split; try done.
    + by rewrite Ha, Ht, Hh.
    + by rewrite Ho, Ha.
    + rewrite Hall. apply NoDup_app. split; [done|]. split; [|done].
      intros x Hx Hin. specialize (si_fresh0 x Hx). specialize (Hfresh x Hin). lia.
    + intros x. rewrite Hall, elem_of_app. intros [Hx|Hx]; [specialize (si_fresh0 x Hx); lia|].
      specialize (Hfresh x Hx). lia.
  - split; unfold feed_of; rewrite ?Ha, ?Ho; try done; [apply no_acts|].
    exists []. by rewrite Han, app_nil_r.
Qed.

Lemma idle_step_same s s' :
  SysInv s → actor (world s') = actor (world s) → answers (world s') = answers (world s) →
  tasks_spawned (world s') = tasks_spawned (world s) → holding s' = holding s →
  over s' = over s → next_asker s ≤ next_asker s' → lanes_ok s' →
  confirm_rx s' = confirm_rx s → SysInv s' ∧ moves s s'.
Proof.
  intros HI Ha Han Ht Hh Ho Hn Hl Hc. apply (idle_step s s' []); try done.
  - unfold all_askers, askers. by rewrite Ha, Han, Hc, app_nil_r.
  - constructor.
  - by intros x ?%not_elem_of_nil.
Qed.

Lemma gate_ok s request operation_id :
  SysInv s → SysInv (gate_request request operation_id s).1 ∧
  moves s (gate_request request operation_id s).1.
Proof.
  intros HI. pose proof HI as []. pose proof si_lanes0 as []. unfold gate_request.
  set (submit := {| cs_request := _; cs_operation_id := _; cs_reply := _ |}).
  pose proof (lane_send_bounded _ _ submit ln_confirm0) as Hb.
  cbn [confirm_rx set_next_asker].
  destruct (try_send_cases submit (confirm_rx s)) as [[Hok He]|[He|He]]; rewrite He in *; cbn [fst].
  - apply (idle_step s _ [next_asker s]); simpl; try done; try lia.
    + unfold all_askers. simpl. rewrite unread_push by apply ln_confirm0.
      by rewrite fmap_app, app_assoc.
    + apply NoDup_singleton.
    + intros x ->%list_elem_of_singleton. lia.
  - apply idle_step_same; simpl; try done; lia.
  - apply idle_step_same; simpl; try done; lia.
Qed.

Lemma call_ok s command :
  SysInv s → SysInv (try_command_reserve command s).1 ∧ moves s (try_command_reserve command s).1.
Proof.
  intros HI. pose proof HI as []. pose proof si_lanes0 as [].
  pose proof (ai_feed _ _ _ si_actor0) as Hfeed. unfold try_command_reserve.
  destruct (next_request_id (next_request s)) as [id source].
  unfold feed_of at 1. cbn [world set_next_request].
  destruct (reserve_reply id (expected_replies command) _) as [f granted] eqn:Hr.
  pose proof (reserve_inv _ _ _ _ _ _ _ Hfeed Hr) as Hf.
  assert (history f = history (feed_of s)) as Hh.
  { pose proof (history_reserve id (expected_replies command) (feed_of s)) as Hh.
    unfold feed_of in *. by rewrite Hr in Hh. }
  destruct granted; (apply (feed_step s _ f); try done; by split).
Qed.

Lemma send_ok_step s e before after :
  SysInv s → calls s = before ++ e :: after →
  SysInv (try_command_send e (set_calls (before ++ after) s)).1 ∧
  moves s (try_command_send e (set_calls (before ++ after) s)).1.
Proof.
  intros HI _. pose proof HI as []. pose proof si_lanes0 as [].
  pose proof (ai_feed _ _ _ si_actor0) as Hfeed. unfold try_command_send.
  set (s0 := set_calls _ s). destruct (send_command e _ _) as [[l f] res] eqn:Hs.
  pose proof Hfeed as Hfeed'. change (feed_end (actor (world s))) with (feed_of s0) in Hfeed'.
  destruct (send_command_feed _ _ _ _ _ _ _ _ Hs Hfeed') as (-> & Hf & Hh).
  apply (feed_step s _ f); try done; try (by destruct (command_lane (envelope_command e))).
  assert (∀ n (k : Lane CommandEnvelope), lane_bounded n k → lane_bounded n (try_send e k).1)
    as Hsend by (intros; by apply lane_send_bounded).
  destruct (command_lane (envelope_command e)); simpl; split; simpl; auto.
Qed.

Lemma step_ok s s' : SysInv s → step s s' → SysInv s' ∧ moves s s'.
Proof.
  intros HI Hstep. pose proof HI as []. pose proof (ai_feed _ _ _ si_actor0) as Hfeed.
  pose proof si_lanes0 as [].
  destruct Hstep as [| | | | | | | | |? ? Hhold| | | | | | |? ? ? ? Hsent].
  - by apply turn_ok.
  - by apply drop_ok.
  - by apply idle_step_same.
  - by apply idle_step_same.
  - apply end_child_ok; [done| |done]. intros d result' Hd Hid [= <-].
    assert (d = c) as ->; [|done].
    eapply (nodup_fmap_inj child_id); [apply si_actor0|done..].
  - by apply end_child_ok.
  - by apply call_ok.
  - by eapply send_ok_step.
  - eapply (feed_step s); try done; by apply hold_inv.
  - eapply (feed_step s); try done. apply unhold_inv. simpl. by rewrite <- Hhold.
  - eapply (feed_step s); try done; by eapply fill_normal_inv.
  - eapply (feed_step s); try done; by eapply fill_critical_inv.
  - by apply idle_step_same.
  - eapply (feed_step s); try done. by apply core_normal; try done; apply Hfeed.
  - eapply (feed_step s); try done.
    eapply core_critical; try done; try apply Hfeed.
  - by apply gate_ok.
  - apply idle_step_same; try done. split; simpl; try done.
    pose proof (lane_send_bounded _ _ (command, deadline) ln_supervisor0) as Hb.
    by rewrite Hsent in Hb.
Qed.

Lemma feed_new_inv : FeedInv 0 ZERO_REVISION (feed_new FRONTEND_UPDATE_CAP FRONTEND_CRITICAL_CAP).
Proof.
  split; [split|]; simpl; try done; unfold lane_wf, occupied, unread, credits_total; simpl; try lia.
  - apply always_nil.
  - by intros u q ?%not_elem_of_nil.
Qed.

Lemma start_ok g nonce : SysInv (start g nonce).
Proof.
  split; simpl.
  - split; simpl; try done; try lia; try apply feed_new_inv; auto with service.
    + by intros act sid v ?%not_elem_of_nil.
    + apply confirmations_new_ok.
    + constructor.
    + apply cache_new_bounded.
  - done.
  - unfold all_askers, askers, waiting. simpl. rewrite map_to_list_empty. constructor.
  - intros x. unfold all_askers, askers, waiting. simpl. rewrite map_to_list_empty.
    by intros ?%not_elem_of_nil.
  - split; apply lane_new_bounded.
Qed.

Lemma reachable_ok g nonce s : reachable g nonce s → SysInv s.
Proof.
  intros Hr. apply (rtc_ind_r SysInv (start g nonce)) in Hr; [done|apply start_ok|].
  intros s1 s2 _ Hstep HI. by apply (step_ok s1).
Qed.

(** ** What the frontend sees *)

Lemma mid_in {A} (x : A) l k : x ∈ l ++ x :: k.
Proof. apply elem_of_app. right. apply elem_of_cons. by left. Qed.

(** C10: while a frontend is behind it gets no ordinary update: when an update
    was lost, an ordinary one goes out again only after a snapshot that is
    younger than the loss or was already waiting when it happened. The lanes
    carry exactly what the feed says it sent. *)
Theorem no_silent_gap g nonce s h1 d q h2 u h3 :
  reachable g nonce s →
  history (feed_of s) = h1 ++ Pushed d q :: h2 ++ Pushed u Sent :: h3 →
  lossy (Pushed d q) = true → is_critical u = false →
  lane_sent (tx (feed_of s)) = filter_map sent_normal (history (feed_of s)) ∧
  lane_sent (critical_tx (feed_of s)) = filter_map sent_critical (history (feed_of s)) ∧
  ∃ v, is_snapshot_ready (up_kind v) = true ∧
    (Pushed v Sent ∈ h2 ∨ Recovered v ∈ h2) ∧
    (later (up_revision d) (up_revision v) ∨ Pushed v PushBackpressured ∈ h1).
Proof.
  intros Hr Hh Hloss Hu. destruct (reachable_ok _ _ _ Hr) as [Ha _ _ _ _].
  destruct (fi_core _ _ _ (ai_feed _ _ _ Ha)). split; [done|]. split; [done|].
  fold (feed_of s) in *. rewrite Hh in fc_fine0.
  assert (uncovered (h1 ++ Pushed d q :: h2) = false) as Hunc.
  { apply (fc_fine0 (h1 ++ Pushed d q :: h2) (Pushed u Sent) h3); [|simpl; by rewrite Hu].
    by rewrite <- app_assoc. }
  destruct (uncovered_split _ _ _ Hunc Hloss) as (c & Hc & Hcov).
  apply list_elem_of_split in Hc as (k1 & k2 & ->).
  assert (act_fine (h1 ++ Pushed d q :: k1) c) as Hfine.
  { apply (fc_fine0 _ c (k2 ++ Pushed u Sent :: h3)). by rewrite <- !app_assoc. }
  destruct c as [v []|v]; try done; exists v; (split; [done|]).
  - split; [left; apply mid_in|left]. eapply (fine_later _ _ Hfine); [done|]. apply mid_in.
  - split; [right; apply mid_in|].
    pose proof (fine_recovered _ _ Hfine v eq_refl (or_introl Hcov)) as Hin.
    apply elem_of_app in Hin as [Hin|Hin]; [by right|].
    apply elem_of_cons in Hin as [[= <- <-]|Hin].
    { simpl in Hcov, Hloss. by rewrite Hcov in Hloss. }
    left. apply list_elem_of_split in Hin as (j1 & j2 & ->).
    assert (act_fine (h1 ++ Pushed d q :: j1) (Pushed v PushBackpressured)) as Hf.
    { apply (fc_fine0 _ _ (j2 ++ Recovered v :: k2 ++ Pushed u Sent :: h3)).
      by repeat (rewrite <- ?app_assoc; simpl). }
    eapply (fine_later _ _ Hf); [done|]. apply mid_in.
Qed.

(** The steps of a run, put together. *)
Lemma run_moves s s' :
  SysInv s → rtc step s s' →
  forward (actor (world s)) (actor (world s')) ∧
  ∃ l, history (feed_of s') = history (feed_of s) ++ l ∧ floors (actor (world s)) l.
Proof.
  intros HI Hr. induction Hr as [s|s1 s2 s3 Hstep Hr IH]; [split; [done|apply no_acts]|].
  destruct (step_ok _ _ HI Hstep) as [HI2 [Hf (l & Hl & Hfl) _ _]].
  destruct (IH HI2) as [Hf2 (l2 & Hl2 & Hfl2)]. split; [by etrans|].
  exists (l ++ l2). rewrite Hl2, Hl, app_assoc. split; [done|]. apply Forall_app. split; [done|].
  by eapply floors_forward.
Qed.

(** The update of an act of the feed. *)
Definition carried (act : FeedAct) : FrontendUpdate :=
  match act with Pushed u _ | Recovered u => u end.
Definition is_push (act : FeedAct) : bool := match act with Pushed _ _ => true | Recovered _ => false end.

Lemma push_shown act : is_push act = true → shown act = publishes (up_kind (carried act)).
Proof. by destruct act. Qed.

(** Whatever shows a view was pushed, there or before. *)
Lemma carried_pushed h j b p :
  always act_fine h → h !! j = Some b → publishes (up_kind (carried b)) = Some p →
  (is_push b = false → ∃ k, k < j ∧ h !! k = Some (Pushed (carried b) PushBackpressured)) ∧
  ∃ k q, k ≤ j ∧ h !! k = Some (Pushed (carried b) q).
Proof.
  intros Hf Hj Hp. destruct b as [v q|v]; cbn in *; [split; [done|]; by exists j, q|].
  assert (∃ k, k < j ∧ h !! k = Some (Pushed v PushBackpressured)) as (k & Hk & Hh).
  { rewrite <- (take_drop_middle _ _ _ Hj) in Hf. pose proof (Hf (take j h) (Recovered v) (drop (S j) h) eq_refl) as Hr.
    pose proof (fine_recovered _ _ Hr v eq_refl (or_intror (ex_intro _ _ Hp))) as [k Hk]%list_elem_of_lookup.
    exists k. apply lookup_take_Some in Hk as [??]. done. }
  split; [by exists k|]. exists k, PushBackpressured. split; [lia|done].
Qed.

(** Two pushes are in order. *)
Lemma pushes_in_order h i j u q v r :
  always act_fine h → i < j → h !! i = Some (Pushed u q) → h !! j = Some (Pushed v r) →
  later (up_revision u) (up_revision v) ∧
  ∀ sid x y, publishes (up_kind u) = Some (sid, x) → publishes (up_kind v) = Some (sid, y) → (x ≤ y)%Z.
Proof.
  intros Hf Hij Hi Hj. rewrite <- (take_drop_middle _ _ _ Hj) in Hf.
  pose proof (Hf (take j h) (Pushed v r) (drop (S j) h) eq_refl) as Hr.
  assert (Pushed u q ∈ take j h) as Hin by (apply list_elem_of_lookup; exists i; by apply lookup_take_Some).
  split; [by eapply (fine_later _ _ Hr)|]. intros sid x y Hx Hy. by eapply (fine_views _ _ Hr sid y x (Pushed u q)).
Qed.

(** C11: the current views of a session ([SessionLoaded], [SnapshotReady]) do not go
    back for a frontend that discards updates whose revision moves backwards: an
    update of a later revision shows no older view, in whatever order the two went
    out. What is pushed later shows no older view than a push or snapshot before it,
    and none older than what a settlement had promised by then. Only a snapshot that
    the full lane refused can go out behind newer ones, when it is tried again, and
    then with the revision of its push. Previews, which show other sessions, are not
    counted. *)
Theorem views_are_monotone g nonce s s' sid i j a b x y :
  reachable g nonce s → rtc step s s' →
  history (feed_of s') !! i = Some a → history (feed_of s') !! j = Some b →
  publishes (up_kind (carried a)) = Some (sid, x) → publishes (up_kind (carried b)) = Some (sid, y) →
  ((up_revision (carried a) < up_revision (carried b))%Z → (x ≤ y)%Z) ∧
  (i < j → is_push b = true → (x ≤ y)%Z) ∧
  (length (history (feed_of s)) ≤ j → is_push b = true →
   (required_for sid (snapshot (actor (world s))) ≤ y)%Z) ∧
  (is_push b = false → ∃ k, k < j ∧
    history (feed_of s') !! k = Some (Pushed (carried b) PushBackpressured)).
Proof.
  intros Hr Hrun Hi Hj Ha Hb. pose proof (reachable_ok _ _ _ Hr) as HI.
  assert (reachable g nonce s') as Hr' by (unfold reachable in *; by etrans).
  pose proof (reachable_ok _ _ _ Hr') as [Ha' _ _ _ _].
  pose proof (fi_core _ _ _ (ai_feed _ _ _ Ha')) as Hcore.
  pose proof (fc_fine _ _ _ Hcore) as Hfine. change (feed_end (actor (world s'))) with (feed_of s') in Hfine.
  destruct (carried_pushed _ _ _ _ Hfine Hi Ha) as [_ (ki & qi & Hki & Hpi)].
  destruct (carried_pushed _ _ _ _ Hfine Hj Hb) as [Hlate (kj & qj & Hkj & Hpj)].
  split; [|split; [|split; [|exact Hlate]]].
  - intros Hlt. destruct (Nat.lt_trichotomy ki kj) as [Hk|[->|Hk]].
    + by eapply (pushes_in_order _ _ _ _ _ _ _ Hfine Hk Hpi Hpj).
    + rewrite Hpi in Hpj. injection Hpj as He _. rewrite He in Hlt. lia.
    + destruct (pushes_in_order _ _ _ _ _ _ _ Hfine Hk Hpj Hpi) as [Hl _]. exfalso.
      assert (up_revision (carried b) ≤ u64_max)%Z; [|unfold later in Hl; lia].
      etrans; [eapply (fc_revisions _ _ _ Hcore), (list_elem_of_lookup_2 _ _ _ Hpj)|apply Hcore].
  - intros Hij Hpb. destruct b as [v r|v]; [|done].
    eapply (pushes_in_order _ ki j _ qi v r Hfine); [lia|done|done|done|done].
  - intros Hlen Hpb. destruct (run_moves _ _ HI Hrun) as [_ (l & Hl & Hfl)]. rewrite Hl in Hj.
    rewrite lookup_app_r in Hj by done. unfold floors in Hfl. rewrite Forall_forall in Hfl.
    apply (Hfl b (list_elem_of_lookup_2 _ _ _ Hj)). by rewrite push_shown.
Qed.

(** ** Confirmations *)

(** C12: a tool is allowed only by the frontend that was asked. An [Allow] reaches
    an asker in one kind of step alone: the actor takes a [RespondConfirmation]
    that allows a pending confirmation, asked under the lease generation that is
    attached now. Nobody is answered twice, nothing is pending without a lease,
    and what the gate returns is [Allow] only if the asker was sent one. *)
Theorem allowed_only_by_lease g nonce s s' asker :
  reachable g nonce s → step s s' →
  NoDup (answers (world s')).*1 ∧
  (attached (actor (world s')) = None → pending (confirmations (actor (world s'))) = ∅) ∧
  (gate_decision s' asker = Some Allow → (asker, Allow) ∈ answers (world s')) ∧
  ((asker, Allow) ∈ answers (world s') → (asker, Allow) ∉ answers (world s) →
   ∃ e id p sb, ready s (BranchCommand e) sb ∧ s' = turn (BranchCommand e) sb ∧
     envelope_command e = RespondConfirmation id Allow ∧
     pending (confirmations (actor (world s))) !! id = Some p ∧ pc_reply p = asker ∧
     current_lease_generation (actor (world s)) = Some (pc_generation p)).
Proof.
  intros Hr Hstep. pose proof (reachable_ok _ _ _ Hr) as HI.
  destruct (step_ok _ _ HI Hstep) as [[HA _ Hnd _ _] Hm]. split; [|split; [|split]].
  - unfold all_askers, askers in Hnd. rewrite <- app_assoc in Hnd. by apply NoDup_app in Hnd as [? _].
  - intros Hat. apply map_empty. intros id. apply eq_None_not_Some. intros [p Hp].
    apply (co_lease _ _ (ai_confirmations _ _ _ HA)) in Hp.
    unfold current_lease_generation in Hp. by rewrite Hat in Hp.
  - unfold gate_decision. destruct (find_map _ _) as [decision|] eqn:Hf; [|by destruct (over s')].
    intros [= ->]. apply find_map_Some in Hf as ([x d] & Hin & Hx). simpl in Hx.
    destruct (bool_decide_reflect (x = asker)) as [->|]; [|done]. by simplify_eq.
  - destruct Hm as [_ _ (l & Hl & Hg) _]. rewrite Hl. intros [Hin|Hin]%elem_of_app Hnot; [done|].
    rewrite Forall_forall in Hg. destruct (Hg _ Hin) as [?|(b & sb & _ & Hready & -> & Hgr)]; [done|].
    destruct Hgr as (e & id & p & -> & Hcmd & Hp & Ha & Hl'). by exists e, id, p, sb.
Qed.

(** ** Panics, bounds and the shutdown *)

(** C14: no turn of the actor panics: in no reachable state does one of the code's
    debug assertions fail or an unreachable branch run. *)
Theorem service_never_panics g nonce s b sb :
  reachable g nonce s → over s = false → ready s b sb →
  ∃ w', (handle_branch b ;; flush) (world sb) = (w', Some tt).
Proof.
  intros Hr Ho Hready. pose proof (reachable_ok _ _ _ Hr) as [HA Hrun _ _ Hl].
  destruct (Hrun Ho) as [Hd _]. destruct (ready_taken _ _ _ Hl Hready) as [-> _ _ _ _ _].
  destruct (branch_ok _ b _ HA Hd) as (w' & Hw & _). by exists w'.
Qed.

(** C13: what the service declares a cap for keeps within it: the two update lanes
    with their reserved replies, the command, control, snapshot, confirmation and
    supervisor lanes, the pending confirmations, the queue, the notices, the live
    projection, the cached session generations, and the children that do work. Every
    permit of the critical lane that is held belongs to a reply that was promised, or
    to a call in progress. Not part of this theorem are the maps of [SnapshotState]
    (actor/snapshot.rs:84-91) - those by session grow with every session
    ([floors_are_never_forgotten] in [ServiceDemo.v]), those by operation with what
    the runtime accepts - and the children of the shutdown. *)
Theorem service_bounds g nonce s :
  reachable g nonce s →
  let a := actor (world s) in
  let f := feed_of s in
  occupied (tx f) ≤ FRONTEND_UPDATE_CAP ∧ occupied (critical_tx f) ≤ FRONTEND_CRITICAL_CAP ∧
  lane_held (critical_tx f) = credits_total (credits f) + holding s ∧
  occupied (command_rx s) ≤ FRONTEND_COMMAND_CAP ∧
  occupied (control_rx s) ≤ FRONTEND_CONTROL_CAP ∧
  occupied (snapshot_rx s) ≤ FRONTEND_SNAPSHOT_CAP ∧
  occupied (confirm_rx s) ≤ CONFIRMATION_MAP_CAP ∧
  occupied (supervisor_rx s) ≤ FRONTEND_SUPERVISOR_CAP ∧
  size (pending (confirmations a)) ≤ CONFIRMATION_MAP_CAP ∧
  length (queued a) ≤ RUNTIME_QUEUE_MAX ∧ length (notices a) ≤ 8 ∧ live_bounded (live a) ∧
  size (entries (session_generations a)) ≤ 8 ∧
  length (filter is_work (child_tasks a)) ≤ STORE_COMMAND_CAP.
Proof.
  intros Hr a f. pose proof (reachable_ok _ _ _ Hr) as [[] _ _ _ []].
  destruct (fi_core _ _ _ ai_feed0).
  repeat (split; [first [assumption|apply ai_confirmations0|apply ai_cache0
    |apply ln_command0|apply ln_control0|apply ln_snapshot0|apply ln_confirm0|apply ln_supervisor0]|]).
  done.
Qed.

(** C15: the shutdown of the service only moves forward, and is never stuck: while
    the runtime is drained a child that waits for it is left, while children are
    joined there is one, and a service that stopped has ended its loop. *)
Theorem shutdown_moves_on g nonce s s' :
  reachable g nonce s → rtc step s s' →
  shutdown_rank (shutdown (actor (world s))) ≤ shutdown_rank (shutdown (actor (world s'))) ∧
  (over s' = false →
   match shutdown (actor (world s')) with
   | Running => True
   | StopAccepting | RuntimeDraining =>
       Exists (λ c, is_work c = false) (child_tasks (actor (world s')))
   | ChildrenJoining => child_tasks (actor (world s')) ≠ []
   | Stopped => False
   end).
Proof.
  intros Hr Hrun. pose proof (reachable_ok _ _ _ Hr) as HI.
  destruct (run_moves _ _ HI Hrun) as [Hf _]. split; [apply Hf|]. intros Ho.
  assert (reachable g nonce s') as Hr' by (unfold reachable in *; by etrans).
  pose proof (reachable_ok _ _ _ Hr') as [_ Hd _ _ _]. destruct (Hd Ho) as [Hk Hn].
  unfold drain_ok in Hk. by destruct (shutdown (actor (world s'))).
Qed.

End safety.
End service_safety.
