(* ===== verification/ServiceDemo.v ===== *)
(** Concrete services: an executable scheduler for the step relation of
    ServiceSystem.v, proved to take only steps of that relation, a small
    service on which the guarantees are exercised, and runs in which the code
    loses an update or an answer, sends an old snapshot late, or keeps the floors of
    all sessions. *)

From S2P Require Import Prelude RustStr Kernel Session SessionLifecycle SessionContext SessionStore.
From S2P Require Import Tools Runtime RuntimeMapping Operation Outlets Epoch Coordinator.
From S2P Require Import Service ServiceSnapshot ServiceMapping ServiceFeed ServiceActor.
From S2P Require Import ServiceSystem ServiceParts ServiceFeedProofs ServiceLogic ServiceProofs.
From S2P Require Import ServiceSafety.
Import runtime service service_snapshot feed service_actor service_system.
Import service_parts feed_proofs service_logic service_safety.

Module service_demo.

(** What the outside answers to a child task. *)
Inductive Reply : Type :=
| RView (result : Result session.SessionContextView string)
| RInstall (result : Result AssembledGeneration AssembleError)
| RSubmit (result : Result coordinator.OperationAccepted coordinator.AdmissionError)
| RCancel (result : coordinator.CancelResult)
| RCompaction (result : Result MaintenanceId coordinator.MaintenanceError)
| RShutdown (result : Result ShutdownReport ShutdownError)
| RRuntimeSnapshot (s : RuntimeSnapshot)
| RListSessions (result : Result (list store.SessionSummary) session.SessionError)
| RRename (result : Result unit string).

Definition result_of (task : ServiceTask) (reply : Reply) : option ServiceTaskResult :=
  match task, reply with
  | TaskStoreView r e kind sid, RView result => Some (ResStoreView r e kind sid result)
  | TaskInstall r e request, RInstall result =>
      Some (ResInstall r e (assemble_name request) result)
  | TaskSubmit r e _, RSubmit result => Some (ResSubmit r e result)
  | TaskCancel r _, RCancel result => Some (ResCancel r result)
  | TaskCompaction r _, RCompaction result => Some (ResCompaction r result)
  | TaskCancelMaintenance r _, RCancel result => Some (ResCancelMaintenance r result)
  | TaskShutdown _ _, RShutdown result => Some (ResShutdown result)
  | TaskRuntimeSnapshot e, RRuntimeSnapshot s =>
      if bool_decide (length (snapshot_queued s) ≤ RUNTIME_QUEUE_MAX)
      then Some (ResRuntimeSnapshot e s) else None
  | TaskListSessions r e, RListSessions result => Some (ResListSessions r e result)
  | TaskRenameSession r e _ _, RRename result => Some (ResRenameSession r e result)
  | _, _ => None
  end.

Lemma result_finishes task reply result :
  result_of task reply = Some result → finishes task result.
Proof.
  destruct task, reply; simpl; intros; simplify_eq/=; auto.
  by case_bool_decide; simplify_eq/=.
Qed.

(** A move of somebody in the system, with what it chooses. *)
Inductive move : Type :=
| TakeSupervisor | TakeControl | TakeSnapshot | TakeCommand | TakeConfirm | TakeRuntime | TakeTimer
| TakeChild (child : nat)
| Event (event : RuntimeEvent)
| Returns (child : nat) (reply : Reply)
| Panics (child : nat)
| Call (command : FrontendCommand)
| SendCall
| FillNormal | FillCritical | Pop
| Ask (request : ConfirmationRequest) (operation_id : option string)
| Supervise (command : SupervisorCommand) (deadline : Z).

Section scheduler.
Context `{Build, Outside, service_mapping.ToolPorts, ServiceOrders, DebugSessionError, DebugReport}.

Definition guarded (c : bool) (s : System) : option System := if c then Some s else None.
Arguments guarded : simpl never.

Definition running_child (child : nat) (s : System) : option Child :=
  find_map (λ c, if (child_id c == child) && negb (session.is_some (child_end c))
                 then Some c else None) (child_tasks (actor (world s))).

Definition ended_child (child : nat) (s : System) : bool :=
  any (λ c, (child_id c == child) && session.is_some (child_end c)) (child_tasks (actor (world s))).

(** A turn on one of the lanes. *)
Definition take {A} (lane : Lane A) (set : Lane A → System → System) (branch : A → Branch)
    (s : System) : option System :=
  match try_recv lane with
  | (l, Some x) => guarded (negb (over s)) (turn (branch x) (set l s))
  | (_, None) => None
  end.

Definition exec (m : move) (s : System) : option System :=
  match m with
  | TakeSupervisor => take (supervisor_rx s) set_supervisor_rx (λ e, BranchSupervisor e.1 e.2) s
  | TakeControl => take (control_rx s) set_control_rx BranchCommand s
  | TakeSnapshot => take (snapshot_rx s) set_snapshot_rx BranchCommand s
  | TakeCommand => take (command_rx s) set_command_rx BranchCommand s
  | TakeConfirm => take (confirm_rx s) set_confirm_rx BranchConfirm s
  | TakeRuntime =>
      guarded (negb (over s) && negb (runtime_closed (actor (world s)))
               && (negb (is_nil (subscription (world s))) || subscription_closed (world s)))
        (turn BranchRuntime s)
  | TakeTimer =>
      guarded (negb (over s) && (pending_resync (feed_of s) || pending_critical (feed_of s)))
        (turn BranchTimer s)
  | TakeChild child =>
      guarded (negb (over s) && ended_child child s) (turn (BranchChild child) s)
  | Event event => Some (set_world (set_subscription (subscription (world s) ++ [event]) (world s)) s)
  | Returns child reply =>
      c ← running_child child s;
      result ← result_of (child_task c) reply;
      guarded (negb (over s)) (change_actor (end_child (child_id c) (Some result)) s)
  | Panics child =>
      c ← running_child child s;
      guarded (negb (over s)) (change_actor (end_child (child_id c) None) s)
  | Call command => guarded (negb (over s)) (try_command_reserve command s).1
  | SendCall =>
      match calls s with
      | e :: rest => Some (try_command_send e (set_calls rest s)).1
      | [] => None
      end
  | FillNormal =>
      let '(rx, l) := fill_normal (receiver s) (tx (feed_of s)) in
      Some (set_receiver rx (set_feed (set_tx l (feed_of s)) s))
  | FillCritical =>
      let '(rx, l) := fill_critical (receiver s) (critical_tx (feed_of s)) in
      Some (set_receiver rx (set_feed (set_critical_tx l (feed_of s)) s))
  | Pop =>
      match pop_next (receiver s) with
      | (rx, Some u) => Some (set_receiver rx (set_delivered (delivered s ++ [u]) s))
      | (_, None) => None
      end
  | Ask request operation_id => Some (gate_request request operation_id s).1
  | Supervise command deadline =>
      match try_send (command, deadline) (supervisor_rx s) with
      | (l, SendOk) => Some (set_supervisor_rx l s)
      | _ => None
      end
  end.

Lemma allowed_inv c s s' : guarded c s = Some s' → c = true ∧ s' = s.
Proof. unfold guarded. destruct c; [|done]. by intros [= ->]. Qed.

Lemma take_step {A} (lane : Lane A) set branch s s' :
  (∀ l x, try_recv lane = (l, Some x) → ready s (branch x) (set l s)) →
  take lane set branch s = Some s' → step s s'.
Proof.
  intros Hr. unfold take. destruct (try_recv lane) as [l [x|]] eqn:Hl; [|done].
  intros [Ho%negb_true_iff ->]%allowed_inv. eapply step_turn; [done|by apply Hr].
Qed.

Lemma find_map_child (f : Child → bool) l c :
  find_map (λ c, if f c then Some c else None) l = Some c → c ∈ l ∧ f c = true.
Proof.
  intros (x & Hin & Hx)%find_map_Some. by destruct (f x) eqn:Hf; simplify_eq.
Qed.

Lemma running_child_spec child s c :
  running_child child s = Some c →
  c ∈ child_tasks (actor (world s)) ∧ child_end c = None.
Proof.
  intros [Hin Hc]%find_map_child. split; [done|].
  apply andb_true_iff in Hc as [_ Hc]. by destruct (child_end c).
Qed.

Lemma exec_is_step m s s' : exec m s = Some s' → step s s'.
Proof.
  destruct m; cbn [exec].
  - apply take_step. intros l [c d] Hl. by apply ready_supervisor.
  - apply take_step. intros. by apply ready_control.
  - apply take_step. intros. by apply ready_snapshot.
  - apply take_step. intros. by apply ready_command.
  - apply take_step. intros. by apply ready_confirm.
  - intros [[[Ho%negb_true_iff Hc%negb_true_iff]%andb_true_iff Hq]%andb_true_iff ->]%allowed_inv.
    eapply step_turn, ready_runtime; [done|done|].
    apply orb_true_iff in Hq as [Hq|Hq]; [left|by right]. by apply negb_true_iff, is_nil_false in Hq.
  - intros [[Ho%negb_true_iff Hq%orb_true_iff]%andb_true_iff ->]%allowed_inv.
    by eapply step_turn, ready_timer.
  - intros [[Ho%negb_true_iff Hc]%andb_true_iff ->]%allowed_inv.
    eapply step_turn, ready_child; [done|].
    apply any_Exists, Exists_exists in Hc as (c & Hin & Hc).
    apply andb_true_iff in Hc as [<-%bool_decide_eq_true He].
    apply list_elem_of_fmap. exists c. split; [done|]. apply list_elem_of_filter.
    split; [|done]. by destruct (child_end c).
  - intros [= <-]. apply step_event.
  - intros (c & Hc & Hr)%bind_Some. apply bind_Some in Hr as (r & Hr & Hg).
    apply allowed_inv in Hg as [Ho%negb_true_iff ->].
    apply running_child_spec in Hc as [Hin He]. apply result_finishes in Hr.
    by eapply step_child_returns.
  - intros (c & Hc & [Ho%negb_true_iff ->]%allowed_inv)%bind_Some.
    apply running_child_spec in Hc as [Hin He]. by eapply step_child_panics.
  - intros [Ho%negb_true_iff ->]%allowed_inv. by apply step_call.
  - destruct (calls s) as [|e rest] eqn:Hc; [done|]. intros [= <-].
    by apply (step_send s e [] rest).
  - destruct (fill_normal _ _) as [rx l] eqn:Hf. intros [= <-]. by apply step_fill_normal.
  - destruct (fill_critical _ _) as [rx l] eqn:Hf. intros [= <-]. by apply step_fill_critical.
  - destruct (pop_next _) as [rx [u|]] eqn:Hp; [|done]. intros [= <-]. by apply step_pop.
  - intros [= <-]. apply step_gate.
  - destruct (try_send _ _) as [l []] eqn:Ht; try done. intros [= <-]. by eapply step_supervise.
Qed.

(** The scheduler skips a move that cannot be made. *)
Definition run (s : System) (moves : list move) : System :=
  foldl (λ s m, default s (exec m s)) s moves.

Lemma run_is_steps s moves : rtc step s (run s moves).
Proof.
  revert s. induction moves as [|m moves IH]; intros s; [done|]. simpl.
  destruct (exec m s) as [s1|] eqn:Hm; [|apply IH]. simpl.
  eapply rtc_l; [by eapply exec_is_step|apply IH].
Qed.
End scheduler.

(** ** A small service *)

#[export] Instance demo_build : Build := dev.
#[export] Instance demo_outside : Outside :=
  {| instant := λ n, Z.of_nat n; system_time := λ n, Z.of_nat n; list_models := λ _, [];
     process_id := 7 |}.
#[export] Instance demo_ports : service_mapping.ToolPorts := λ _, [].
#[export] Instance demo_orders : ServiceOrders :=
  {| pending_order := λ m, (map_to_list m).*1; pending_order_perm := λ m, reflexivity _;
     cache_order := λ A m, map_to_list m; cache_order_perm := λ A m, reflexivity _ |}.
#[export] Instance demo_debug : DebugSessionError := {| debug_session_error := λ _, "error" |}.
#[export] Instance demo_report : DebugReport := λ _, "report".

Definition demo_generation : Generation :=
  {| frozen :=
       {| generation_id := "generation-0";
          runtime_config :=
            {| system_prompt := ""; model_target := "model";
               generation := {| max_output_tokens := 1; temperature := f32_of_u64 0;
                                reasoning_effort := None; tool_choice := ChoiceAuto |};
               max_tool_rounds := 1; max_parallel_tool_calls := 1; operation_timeout := None;
               tool_cancel_grace := 0;
               compaction := {| context_budget := None; auto_threshold := f32_of_u64 1;
                                keep_recent_turns := 1; estimate_bytes_per_token := 4 |};
               recovery := {| enabled := false; max_retries := 0;
                              backoff_base_ms := 0; backoff_max_ms := 0 |} |};
          gen_display := {| provider := None; model_name := "model"; model_id := "model";
                            image_input := false |} |};
     gen_model := 0; gen_tools := 0 |}.

Definition demo_start : System := start demo_generation 0.

Definition demo_view (sid : string) (revision : nat) : session.SessionContextView :=
  {| session.view_session_id := sid; session.view_revision := revision;
     session.view_current_leaf := None; session.view_title := None;
     session.view_messages := []; session.view_open_turns := [];
     session.view_settled_turns := []; session.view_settled_turn_boundaries := [];
     session.view_latest_compaction_boundary := None; session.view_latest_usage := None;
     session.view_latest_generation := None |}.

(** A command goes out and is taken from its lane. *)
Definition issue (command : FrontendCommand) : list move := [Call command; SendCall; TakeCommand].

(** ** Instances of the parts' theorems *)

Definition demo_update (revision : Z) : FrontendUpdate :=
  {| up_epoch := 0; up_revision := revision; up_request_id := None; up_kind := CommandAccepted |}.

Definition demo_lane (revisions : list Z) : Lane FrontendUpdate :=
  Build_Lane 8 (demo_update <$> revisions) 1 0 false.

Lemma client_merges_by_revision_witness :
  up_revision <$> receive_all 9 receiver_new (demo_lane [1; 2; 5; 6]%Z) (demo_lane [0; 3; 4; 7]%Z)
  = [2; 3; 4; 5; 6; 7]%Z ∧
  Sorted by_revision
    (receive_all 9 receiver_new (demo_lane [1; 2; 5; 6]%Z) (demo_lane [0; 3; 4; 7]%Z)).
Proof.
  split; [reflexivity|].
  apply (client_merges_by_revision (demo_lane [1; 2; 5; 6]%Z) (demo_lane [0; 3; 4; 7]%Z) 9).
  - vm_compute. lia.
  - cbn. repeat constructor; vm_compute; discriminate.
  - cbn. repeat constructor; vm_compute; discriminate.
Defined.

Definition demo_ops : list cache_op :=
  [CachePut "a" demo_generation; CachePut "b" demo_generation; CacheGet "a";
   CachePut "c" demo_generation; CacheGet "b"; CacheGet "a"].

Lemma cache_is_lru_witness :
  cache_answers (cache_new 2) demo_ops = lru_answers 2 [] demo_ops ∧
  lru_answers 2 [] demo_ops
  = [None; None; Some demo_generation; None; None; Some demo_generation].
Proof.
  split; [|reflexivity].
  apply (cache_is_lru 2 demo_ops); [lia|reflexivity].
Defined.

Lemma live_text_is_prefix_witness :
  live_text (streamed (live_start_model_call "call" live_new) ["Hel"; "lo"])
  = concat_str (firstn LIVE_TEXT_CHARS_MAX (chars "Hello")).
Proof.
  apply (live_text_is_prefix live_new "call" ["Hel"; "lo"]).
  repeat constructor.
Defined.

(** ** Runs of the small service *)

Lemma run_reachable moves : reachable demo_generation 0 (run demo_start moves).
Proof. apply run_is_steps. Qed.

Definition settle (op : string) : move :=
  Event (RtOperationSettled op "s" Failed Confirmed Unchanged).

(** The frontend reads nothing while settlements fill the critical lane; then a
    snapshot is retained, one more update is lost, the frontend reads one
    update, and an update follows. *)
Definition stale_run : list move :=
  [Event (RtOperationAccepted "op" "s" "t"); TakeRuntime] ++ repeat (settle "x") 260
  ++ repeat TakeRuntime 20
  ++ [settle "op"; TakeRuntime; Event (RtAvailabilityChanged Idle 0); TakeRuntime; FillCritical;
      TakeTimer; Event (RtAvailabilityChanged Idle 0); TakeRuntime].
Definition stale_state : System := run demo_start stale_run.
Definition stale_history : list FeedAct := history (feed_of stale_state).

Definition update_of (act : FeedAct) : FrontendUpdate :=
  match act with Pushed u _ | Recovered u => u end.
Definition lost_update : FrontendUpdate := default (demo_update 0) (update_of <$> stale_history !! 524).
Definition next_update : FrontendUpdate := default (demo_update 0) (update_of <$> stale_history !! 526).

Lemma stale_history_eq : history (feed_of stale_state) = stale_history.
Proof. unfold stale_history. reflexivity. Qed.

Lemma stale_split :
  history (feed_of stale_state) = firstn 524 stale_history ++ Pushed lost_update Dropped
    :: firstn 1 (drop 525 stale_history) ++ Pushed next_update Sent :: [].
Proof. rewrite stale_history_eq. vm_compute. reflexivity. Qed.

Lemma stale_reachable : reachable demo_generation 0 stale_state.
Proof. unfold stale_state. apply run_reachable. Qed.

Lemma stale_between :
  forallb (λ act, Z.ltb (up_revision (update_of act)) (up_revision lost_update))
    (firstn 1 (drop 525 stale_history)) = true.
Proof. vm_compute. reflexivity. Qed.

Lemma stale_ordinary : is_critical lost_update = false ∧ is_critical next_update = false.
Proof. vm_compute. split; reflexivity. Qed.

#[local] Opaque stale_state stale_history lost_update next_update.

(** A frontend can miss an update for good: there is a run in which an
    ordinary update is dropped, and the next ordinary update is sent although
    every snapshot in between is older than the dropped one, which it does not
    contain. *)
Theorem stale_snapshot_ends_resync :
  ∃ s h1 d h2 u, reachable demo_generation 0 s ∧
    history (feed_of s) = h1 ++ Pushed d Dropped :: h2 ++ [Pushed u Sent] ∧
    is_critical d = false ∧ is_critical u = false ∧
    Forall (λ act, (up_revision (update_of act) < up_revision d)%Z) h2.
Proof.
  exists stale_state, (firstn 524 stale_history), lost_update, (firstn 1 (drop 525 stale_history)),
    next_update.
  refine (conj stale_reachable (conj stale_split (conj (proj1 stale_ordinary)
    (conj (proj2 stale_ordinary) _)))).
  apply List.Forall_forall. intros act Hact.
  apply Z.ltb_lt. exact (proj1 (forallb_forall _ _) stale_between act Hact).
Qed.

Lemma stale_recovered :
  ∃ w, firstn 1 (drop 525 stale_history) = [Recovered w] ∧
    Z.ltb (up_revision lost_update) (up_revision w) = false ∧
    Z.eqb (up_revision w) u64_max = false.
Proof.
  exists (update_of (default (Recovered lost_update) (stale_history !! 525))).
  split; [|split]; vm_compute; reflexivity.
Qed.

Lemma stale_not_later v :
  Pushed v Sent ∈ firstn 1 (drop 525 stale_history)
    ∨ Recovered v ∈ firstn 1 (drop 525 stale_history) →
  ¬ later (up_revision lost_update) (up_revision v).
Proof.
  destruct stale_recovered as (w & -> & Hlt & Heq). intros [Hin|Hin];
    apply list_elem_of_singleton in Hin; [discriminate Hin|].
  injection Hin as ->. apply Z.ltb_ge in Hlt. apply Z.eqb_neq in Heq. unfold later. lia.
Qed.

Lemma no_silent_gap_witness :
  ∃ v, is_snapshot_ready (up_kind v) = true ∧
    Pushed v PushBackpressured ∈ firstn 524 stale_history.
Proof.
  destruct (no_silent_gap demo_generation 0 stale_state (firstn 524 stale_history) lost_update
    Dropped (firstn 1 (drop 525 stale_history)) next_update []
    stale_reachable stale_split) as (_ & _ & v & Hv & Hin & Hlater).
  - vm_compute. reflexivity.
  - exact (proj2 stale_ordinary).
  - exists v. split; [exact Hv|]. destruct Hlater as [Hlater|Hlater]; [|exact Hlater].
    exfalso. exact (stale_not_later v Hin Hlater).
Defined.

(** Two loads of a session, the first of which fails; a load whose child
    panics; and loads that an epoch's end overtakes. *)
Definition failed_load : System :=
  run demo_start (issue (LoadSession "a") ++ issue (LoadSession "a")
                  ++ [Returns 0 (RView (inl "error")); TakeChild 0]).
Definition panicked_load : System :=
  run demo_start (issue (LoadSession "a") ++ [Panics 0; TakeChild 0] ++ issue (LoadSession "a")).
Definition overtaken_load : System :=
  run demo_start (issue (LoadSession "a") ++ issue (LoadSession "a")
                  ++ [Event (RtEpochEnded "e" EndShutdown 0); TakeRuntime;
                      Returns 0 (RView (inl "error")); TakeChild 0]).

(** Nobody works for a request any more, in no lane and in no child, while its
    reply is still reserved and no update has answered it. *)
Definition abandoned (id : FrontendRequestId) (s : System) : bool :=
  (permits (credits (feed_of s)) !! id == Some 1)
  && forallb (λ act, up_request_id (update_of act) != Some id) (history (feed_of s))
  && is_nil (child_tasks (actor (world s))) && is_nil (calls s) && is_nil (unread (command_rx s))
  && is_nil (unread (control_rx s)) && is_nil (unread (snapshot_rx s))
  && is_nil (subscription (world s)) && negb (over s).

(** A request to load a session can be abandoned: when the load it waits for
    fails, panics, or is overtaken by the end of the epoch, it is neither
    answered nor is the permit of its reply given back, although the service goes
    on. *)
Theorem load_is_abandoned :
  (reachable demo_generation 0 failed_load ∧ abandoned 2 failed_load = true ∧
   pending_reload (snapshot (actor (world failed_load))) = None) ∧
  (reachable demo_generation 0 panicked_load ∧ abandoned 2 panicked_load = true ∧
   "a" ∈ inflight (snapshot (actor (world panicked_load)))) ∧
  (reachable demo_generation 0 overtaken_load ∧ abandoned 2 overtaken_load = true ∧
   pending_reload (snapshot (actor (world overtaken_load))) = None).
Proof.
  split; [|split]; (split; [apply run_reachable|]).
  - split; [vm_compute; reflexivity|vm_compute; reflexivity].
  - split; [vm_compute; reflexivity|]. refine (bool_decide_eq_true_1 _ _). vm_compute. reflexivity.
  - split; [vm_compute; reflexivity|vm_compute; reflexivity].
Qed.

(** A session is loaded, then its view is asked for again. *)
Definition viewed_once : System :=
  run demo_start (issue (LoadSession "a") ++ [Returns 0 (RView (inr (demo_view "a" 3))); TakeChild 0]).
Definition viewed_twice : System :=
  run viewed_once [Call (RequestSnapshot 0%Z); SendCall; TakeSnapshot;
                   Returns 1 (RView (inr (demo_view "a" 5))); TakeChild 1].
Definition view_act (i : nat) : FeedAct :=
  default (Recovered (demo_update 0)) (history (feed_of viewed_twice) !! i).

Lemma viewed_once_reachable : reachable demo_generation 0 viewed_once.
Proof. unfold viewed_once. apply run_reachable. Qed.

Lemma viewed_twice_run : rtc step viewed_once viewed_twice.
Proof. unfold viewed_twice. apply run_is_steps. Qed.

(** A snapshot of session [a] at revision 3 is refused by the full lane and retained;
    a load of [a], which has its reply reserved, shows revision 5; then the frontend
    reads and the snapshot goes out. *)
Definition late_run : list move :=
  issue (LoadSession "a") ++ [Returns 0 (RView (inr (demo_view "a" 3))); TakeChild 0]
  ++ [Event (RtOperationAccepted "op" "s" "t"); TakeRuntime; Call (LoadSession "a"); SendCall]
  ++ repeat (settle "x") 260 ++ repeat TakeRuntime 20
  ++ [settle "op"; TakeRuntime; Returns 1 (RView (inr (demo_view "a" 3))); TakeChild 1;
      TakeCommand; Returns 2 (RView (inr (demo_view "a" 5))); TakeChild 2; FillCritical; TakeTimer].
Definition late_state : System := run demo_start late_run.
Definition late_act (i : nat) : FeedAct :=
  default (Recovered (demo_update 0)) (history (feed_of late_state) !! i).

(** What goes out can go back: only the revision tells. *)
Example late_snapshot_goes_back :
  reachable demo_generation 0 late_state ∧
  (λ act, (is_push act, publishes (up_kind (carried act)), up_revision (carried act)))
    <$> drop 525 (history (feed_of late_state))
  = [(true, Some ("a", 5%Z), 525%Z); (false, Some ("a", 3%Z), 524%Z)] ∧
  match late_act 525 with Pushed _ q => q = Sent | Recovered _ => False end.
Proof. split; [apply run_reachable|]. split; vm_compute; reflexivity. Qed.

Lemma late_run_steps : rtc step demo_start late_state.
Proof. unfold late_state. apply run_is_steps. Qed.

Lemma views_are_monotone_witness :
  ((up_revision (carried (late_act 526)) < up_revision (carried (late_act 525)))%Z ∧ (3 ≤ 5)%Z) ∧
  (∃ k, k < 526 ∧ history (feed_of late_state) !! k = Some (Pushed (carried (late_act 526)) PushBackpressured)) ∧
  (required_for "a" (snapshot (actor (world viewed_once))) ≤ 5)%Z.
Proof.
  assert (history (feed_of late_state) !! 525 = Some (late_act 525)) as H5 by (vm_compute; reflexivity).
  assert (history (feed_of late_state) !! 526 = Some (late_act 526)) as H6 by (vm_compute; reflexivity).
  assert (publishes (up_kind (carried (late_act 525))) = Some ("a", 5%Z)) as P5 by (vm_compute; reflexivity).
  assert (publishes (up_kind (carried (late_act 526))) = Some ("a", 3%Z)) as P6 by (vm_compute; reflexivity).
  assert (up_revision (carried (late_act 526)) < up_revision (carried (late_act 525)))%Z as Hlt by (vm_compute; reflexivity).
  assert (is_push (late_act 526) = false) as Hlate by (vm_compute; reflexivity).
  split; [split; [exact Hlt|]|split].
  - destruct (views_are_monotone demo_generation 0 demo_start late_state "a" 526 525 (late_act 526) (late_act 525) 3 5
      (rtc_refl _ _) late_run_steps H6 H5 P6 P5) as [H _]. exact (H Hlt).
  - destruct (views_are_monotone demo_generation 0 demo_start late_state "a" 525 526 (late_act 525) (late_act 526) 5 3
      (rtc_refl _ _) late_run_steps H5 H6 P5 P6) as (_ & _ & _ & H). exact (H Hlate).
  - destruct (views_are_monotone demo_generation 0 viewed_once viewed_twice "a" 0 1 (view_act 0) (view_act 1) 3 5
      viewed_once_reachable viewed_twice_run) as (_ & _ & H & _); [vm_compute; reflexivity..|].
    apply H; [|vm_compute; reflexivity].
    replace (length (history (feed_of viewed_once))) with 1 by (vm_compute; reflexivity). apply le_n.
Defined.

(** A tool asks while a frontend is attached, and the frontend allows it. *)
Definition asked : System :=
  run demo_start [Supervise (AttachFrontend "tui") 1000000; TakeSupervisor;
                  Ask {| cr_title := "title"; cr_body := "body" |} None; TakeConfirm;
                  Call (RespondConfirmation 1 Allow); SendCall].
Definition allowed : System := run asked [TakeControl].

Lemma asked_reachable : reachable demo_generation 0 asked.
Proof. unfold asked. apply run_reachable. Qed.

Lemma allowed_step : step asked allowed.
Proof. apply (exec_is_step TakeControl). vm_compute. reflexivity. Qed.

Lemma allowed_only_by_lease_witness :
  gate_decision asked 0 = None ∧ gate_decision allowed 0 = Some Allow ∧
  ∃ p, pending (confirmations (actor (world asked))) !! 1%Z = Some p ∧ pc_reply p = 0 ∧
    current_lease_generation (actor (world asked)) = Some (pc_generation p).
Proof.
  destruct (allowed_only_by_lease demo_generation 0 asked allowed 0 asked_reachable allowed_step)
    as (_ & _ & Hdecided & Hnew).
  assert (gate_decision allowed 0 = Some Allow) as Hgate by (vm_compute; reflexivity).
  split; [vm_compute; reflexivity|]. split; [exact Hgate|].
  destruct (Hnew (Hdecided Hgate)) as (e & id & p & sb & _ & _ & _ & Hp & Hreply & Hlease).
  - assert (answers (world asked) = []) as -> by (vm_compute; reflexivity).
    apply not_elem_of_nil.
  - exists p. split; [|split; [exact Hreply|exact Hlease]].
    assert (pending (confirmations (actor (world asked)))
      = {[ 1%Z := {| pc_request := {| cr_title := "title"; cr_body := "body" |};
                     pc_operation_id := None; pc_generation := 1; pc_reply := 0 |} ]}) as Hmap
      by (vm_compute; reflexivity).
    rewrite Hmap in Hp |- *. apply lookup_singleton_Some in Hp as [<- <-].
    apply lookup_singleton_eq.
Defined.

(** An operation runs when the frontend asks the service to stop. *)
Definition busy : System := run demo_start [Event (RtOperationAccepted "op" "s" "t"); TakeRuntime].
Definition stopping : System := run busy [Call ShutdownRequested; SendCall; TakeControl].

Lemma busy_reachable : reachable demo_generation 0 busy.
Proof. unfold busy. apply run_reachable. Qed.

Lemma stopping_run : rtc step busy stopping.
Proof. unfold stopping. apply run_is_steps. Qed.

Lemma shutdown_moves_on_witness :
  shutdown (actor (world stopping)) = RuntimeDraining ∧
  Exists (λ c, is_work c = false) (child_tasks (actor (world stopping))).
Proof.
  destruct (shutdown_moves_on demo_generation 0 busy stopping busy_reachable stopping_run)
    as [_ Hwork].
  assert (shutdown (actor (world stopping)) = RuntimeDraining) as Hphase by (vm_compute; reflexivity).
  split; [exact Hphase|]. rewrite Hphase in Hwork. apply Hwork. vm_compute. reflexivity.
Defined.

Lemma service_never_panics_witness :
  ∃ w', (handle_branch (BranchSupervisor (AttachFrontend "tui") 1000000) ;; flush)
    (world (set_supervisor_rx (try_recv (supervisor_rx
      (run demo_start [Supervise (AttachFrontend "tui") 1000000]))).1
      (run demo_start [Supervise (AttachFrontend "tui") 1000000]))) = (w', Some tt).
Proof.
  apply (service_never_panics demo_generation 0
    (run demo_start [Supervise (AttachFrontend "tui") 1000000])).
  - apply run_reachable.
  - vm_compute. reflexivity.
  - apply ready_supervisor. vm_compute. reflexivity.
Defined.

(** The floors of a hundred sessions, each with one settled operation, all stay. *)
Definition sessions_run : list move :=
  List.flat_map (λ n, let sid := display_nat n in
    [Event (RtOperationAccepted "op" sid "t"); TakeRuntime;
     Event (RtOperationSettled "op" sid Failed Confirmed (Committed 1)); TakeRuntime]) (seq 0 100).
Example floors_are_never_forgotten :
  let s := run demo_start sessions_run in
  reachable demo_generation 0 s ∧ operation_session (snapshot (actor (world s))) = ∅ ∧
  size (required_revision (snapshot (actor (world s)))) = 100.
Proof. cbv zeta. split; [apply run_reachable|]. split; vm_compute; reflexivity. Qed.

Lemma service_bounds_witness :
  length (lane_sent (critical_tx (feed_of stale_state))) = 260 ∧
  occupied (critical_tx (feed_of stale_state)) ≤ FRONTEND_CRITICAL_CAP.
Proof.
  destruct (service_bounds demo_generation 0 stale_state stale_reachable) as (_ & Hcap & _).
  split; [vm_compute; reflexivity|exact Hcap].
Defined.

End service_demo.
