(* ===== verification/ReplayStore.v ===== *)
(** The replay sidecar of the model adapter: the stores that keep what a
    provider must be shown again (src/crates/philo-model/src/replay.rs, first
    half).

    Module [replay_store] has the trait [ModelReplayStore] as a class, the store
    in memory behind its mutex (a poisoned flag), the store in files with every
    access of the file system, and the queue in front of its actor. A sidecar
    directory keeps its listing at the last sync and every listing since, of
    which a power loss may leave any, name by name. The directories hold regular
    files only. Every access may fail; the bytes of a payload are a string. *)

From S2P Require Import Prelude RustStr Session Runtime JsonlCodec Jsonl.
From Stdlib Require Import Ascii.
Import jsonl_codec.

Module replay_store.

(** ** Policy, errors, blobs *)

Definition LOCK_FILE : string := "lock".
Definition RECORD_SUFFIX : string := ".replay".
Definition DEFAULT_MAX_SESSION_BYTES : Z := 64 * 1024 * 1024.
Definition DEFAULT_TTL : Z := 30 * 24 * 60 * 60.
Definition DEFAULT_ORPHAN_GRACE : Z := 24 * 60 * 60.
Definition REPLAY_COMMAND_CAP : nat := 64.

(** Durations are read in whole seconds. *)
Record ReplayStorePolicy : Type := {
  max_session_bytes : Z;
  ttl : Z;
  orphan_grace : Z
}.
Definition policy_default : ReplayStorePolicy :=
  {| max_session_bytes := DEFAULT_MAX_SESSION_BYTES; ttl := DEFAULT_TTL;
     orphan_grace := DEFAULT_ORPHAN_GRACE |}.

Inductive ReplayStoreErrorCode : Type :=
| Io | Corrupted | QuotaExceeded | Conflict | Busy | Unavailable.
#[export] Instance replay_error_eq : EqDecision ReplayStoreErrorCode.
Proof. solve_decision. Defined.

Definition display_store_error (code : ReplayStoreErrorCode) : string :=
  match code with
  | Io => "model replay sidecar I/O failed"
  | Corrupted => "model replay sidecar is corrupted"
  | QuotaExceeded => "model replay sidecar quota exceeded"
  | Conflict => "model replay sidecar generation conflict"
  | Busy => "model replay sidecar is busy"
  | Unavailable => "model replay sidecar is unavailable"
  end.

Record ReplayStoreBlob : Type := { blob_id : string; payload : string }.
#[export] Instance blob_eq : EqDecision ReplayStoreBlob.
Proof. solve_decision. Defined.

Definition len_u64 (bytes : string) : Z := Z.of_nat (String.length bytes).

(** [ModelReplayStore]. *)
Class ModelReplayStore (S : Type) : Type := {
  policy : S → ReplayStorePolicy;
  load : string → io S ReplayStoreErrorCode (list ReplayStoreBlob);
  commit : string → ReplayStoreBlob → io S ReplayStoreErrorCode unit;
  remove : string → list string → io S ReplayStoreErrorCode unit;
  delete_session : string → io S ReplayStoreErrorCode unit
}.

(** ** [MemoryModelReplayStore] *)

Record MemoryModelReplayStore : Type := {
  mem_policy : ReplayStorePolicy;
  mem_sessions : gmap string (list ReplayStoreBlob);
  mem_poisoned : bool
}.

Definition memory_new (p : ReplayStorePolicy) : MemoryModelReplayStore :=
  {| mem_policy := p; mem_sessions := ∅; mem_poisoned := false |}.
Definition set_mem_sessions v (s : MemoryModelReplayStore) : MemoryModelReplayStore :=
  {| mem_policy := mem_policy s; mem_sessions := v; mem_poisoned := mem_poisoned s |}.

(** [self.sessions.lock()] around a function of the sessions. *)
Definition locked {A}
    (f : ReplayStorePolicy → gmap string (list ReplayStoreBlob) →
         gmap string (list ReplayStoreBlob) * outcome ReplayStoreErrorCode A)
    : io MemoryModelReplayStore ReplayStoreErrorCode A := λ s,
  if mem_poisoned s then (s, Err Io)
  else let '(sessions, r) := f (mem_policy s) (mem_sessions s) in (set_mem_sessions sessions s, r).

Definition load_sync (session_id : string)
    : io MemoryModelReplayStore ReplayStoreErrorCode (list ReplayStoreBlob) :=
  locked (λ _ sessions, (sessions, Ok (default [] (sessions !! session_id)))).

(** [records.iter().fold(0, saturating_add)]. *)
Definition total_len (records : list ReplayStoreBlob) : Z :=
  foldl (λ total record, runtime.saturating_add total (len_u64 (payload record))) 0%Z records.

Definition commit_sync (session_id : string) (blob : ReplayStoreBlob)
    : io MemoryModelReplayStore ReplayStoreErrorCode unit :=
  locked (λ p sessions,
    let records := default [] (sessions !! session_id) in
    let sessions := <[session_id := records]> sessions in
    match find_map (λ r, if blob_id r == blob_id blob then Some r else None) records with
    | Some existing =>
        (sessions, if payload existing == payload blob then Ok tt else Err Conflict)
    | None =>
        if (max_session_bytes p
            <? runtime.saturating_add (total_len records) (len_u64 (payload blob)))%Z
        then (sessions, Err QuotaExceeded)
        else (<[session_id := records ++ [blob]]> sessions, Ok tt)
    end).

Definition remove_sync (session_id : string) (generation_ids : list string)
    : io MemoryModelReplayStore ReplayStoreErrorCode unit :=
  locked (λ _ sessions,
    (match sessions !! session_id with
     | Some records =>
         <[session_id := filter (λ r, blob_id r ∉ generation_ids) records]> sessions
     | None => sessions
     end, Ok tt)).

Definition delete_session_sync (session_id : string)
    : io MemoryModelReplayStore ReplayStoreErrorCode unit :=
  locked (λ _ sessions, (delete session_id sessions, Ok tt)).

#[export] Instance memory_replay_store : ModelReplayStore MemoryModelReplayStore := {
  policy := mem_policy;
  load := load_sync;
  commit := commit_sync;
  remove := remove_sync;
  delete_session := delete_session_sync
}.

(** ** Names *)

Fixpoint encode_component (value : string) : string :=
  match value with
  | EmptyString => EmptyString
  | String byte value =>
      if is_plain byte then String byte (encode_component value)
      else
        let n := N_of_ascii byte in
        String "%" (String (upper_digit (n / 16)) (String (upper_digit (n mod 16))
          (encode_component value)))
  end.

Definition session_dir_name (session_id : string) : string := "s-" +:+ encode_component session_id.

(** The loop of [decode_component]. *)
Fixpoint decode_bytes (value : string) : option string :=
  match value with
  | EmptyString => Some EmptyString
  | String b rest =>
      if bool_decide (b = "%"%char) then
        match rest with
        | String high (String low rest) =>
            high ← hex_value high;
            low ← hex_value low;
            decoded ← decode_bytes rest;
            Some (String (ascii_of_N (N.lor (N.shiftl high 4) low)) decoded)
        | _ => None
        end
      else if is_plain b then decoded ← decode_bytes rest; Some (String b decoded)
      else None
  end.

Definition decode_component (value : string) : option string :=
  decoded ← decode_bytes value;
  decoded ← from_utf8 decoded;
  if encode_component decoded == value then Some decoded else None.

(** What precedes the last dot of a name and what follows it. *)
Fixpoint rsplit_dot (name : string) : option (string * string) :=
  match name with
  | EmptyString => None
  | String b rest =>
      match rsplit_dot rest with
      | Some (before, after) => Some (String b before, after)
      | None => if bool_decide (b = "."%char) then Some (EmptyString, rest) else None
      end
  end.

(** [Path::extension] and [Path::file_stem] of a file name. *)
Definition extension (name : string) : option string :=
  match rsplit_dot name with
  | Some (before, after) => if str_is_empty before then None else Some after
  | None => None
  end.
Definition file_stem (name : string) : string :=
  match rsplit_dot name with
  | Some (before, _) => if str_is_empty before then name else before
  | None => name
  end.

Definition record_name (id : string) : string := encode_component id +:+ RECORD_SUFFIX.

(** ** The file system *)

Abbreviation Files := (gmap string string).

(** A directory: its listing at the last sync and the listings since. *)
Record Listing : Type := { synced : Files; since : list Files }.
Definition now (l : Listing) : Files := default (synced l) (last (since l)).
Definition change (f : Files → Files) (l : Listing) : Listing :=
  {| synced := synced l; since := since l ++ [f (now l)] |}.
Definition sync (l : Listing) : Listing := {| synced := now l; since := [] |}.
Definition listing_empty : Listing := {| synced := ∅; since := [] |}.

(** [ReplayFs]: the policy and, below the data root, the session directories
    with their sidecar directory; the source of temporary names; the number of
    accesses so far. *)
Record ReplayFs : Type := {
  fs_policy : ReplayStorePolicy;
  dirs : gmap string (option Listing);
  next_temp_file : Z;
  looks : nat
}.
Definition set_dirs v (w : ReplayFs) : ReplayFs :=
  {| fs_policy := fs_policy w; dirs := v; next_temp_file := next_temp_file w; looks := looks w |}.
Definition looked (w : ReplayFs) : ReplayFs :=
  {| fs_policy := fs_policy w; dirs := dirs w; next_temp_file := next_temp_file w;
     looks := S (looks w) |}.

(** [fault n]: the [n]th access fails; [stat_fault n]: the query that is the
    [n]th access fails, which [is_dir] and [exists] take for an answer;
    [written n]: the bytes a failing write leaves. *)
Class ReplayFaults : Type := {
  fault : nat → bool;
  stat_fault : nat → bool;
  written : nat → nat
}.
Class ProcessId : Type := process_id : Z.

Section files.
Context {faults : ReplayFaults} {order : jsonl.DirOrder} {pid : ProcessId}.

Abbreviation fs := (io ReplayFs ReplayStoreErrorCode).

Definition get : fs ReplayFs := λ w, (w, Ok w).
Definition modify (f : ReplayFs → ReplayFs) : fs unit := λ w, (f w, Ok tt).
Definition access : fs unit := λ w, (looked w, if fault (looks w) then Err Io else Ok tt).
Definition stat (holds : ReplayFs → bool) : fs bool := λ w,
  (looked w, Ok (negb (stat_fault (looks w)) && holds w)).
(** The result of a call, as a value. *)
Definition catch {A} (m : fs A) : fs (ReplayStoreErrorCode + A) := λ w,
  match m w with
  | (w, Ok a) => (w, Ok (inr a))
  | (w, Err e) => (w, Ok (inl e))
  | (w, Panic) => (w, Panic)
  end.

Definition sidecar (name : string) (w : ReplayFs) : option Listing :=
  dir ← dirs w !! name; dir.
Definition files_of (name : string) (w : ReplayFs) : Files :=
  from_option now ∅ (sidecar name w).
Definition on_sidecar (f : Listing → Listing) (name : string) (w : ReplayFs) : ReplayFs :=
  set_dirs (alter (fmap f) name (dirs w)) w.
Definition on_files (name : string) (f : Files → Files) : fs unit :=
  modify (on_sidecar (change f) name).

Definition is_dir (name : string) : fs bool := stat (λ w, session.is_some (sidecar name w)).

Definition sync_directory (name : string) : fs unit :=
  access ;; modify (on_sidecar sync name).

(** [create_dir_all] and [restrict_directory] of the session directory and of
    the sidecar directory. *)
Definition prepare_replay_dir (session_id : string) : fs string :=
  let name := session_dir_name session_id in
  access ;;
  modify (λ w, set_dirs (<[name := default None (dirs w !! name)]> (dirs w)) w) ;;
  access ;;
  access ;;
  modify (λ w, set_dirs (alter (λ d, Some (default listing_empty d)) name (dirs w)) w) ;;
  access ;;
  ret name.

(** The lock file is created when it is missing; the lock itself is waited for. *)
Definition acquire_lock (name : string) : fs unit :=
  access ;;
  let! w := get in
  (if session.is_some (files_of name w !! LOCK_FILE) then ret tt
   else on_files name <[LOCK_FILE := ""]>) ;;
  access.

(** The names with that extension, as [read_dir] lists them. *)
Fixpoint with_extension (wanted : string) (names : list string) : fs (list string) :=
  match names with
  | [] => ret []
  | name :: names =>
      access ;;
      access ;;
      let! rest := with_extension wanted names in
      ret (if bool_decide (extension name = Some wanted) then name :: rest else rest)
  end.

Definition read_dir (name : string) : fs (list string) :=
  access ;;
  let! w := get in
  ret (jsonl.dir_order (files_of name w)).*1.

Definition record_paths (name : string) : fs (list string) :=
  let! names := read_dir name in
  let! names := with_extension "replay" names in
  ret (jsonl.sort_names names).

(** Each temporary file is removed as it is met. *)
Fixpoint remove_temps (dir : string) (names : list string) : fs bool :=
  match names with
  | [] => ret false
  | name :: names =>
      access ;;
      access ;;
      if bool_decide (extension name = Some "tmp") then
        access ;;
        on_files dir (delete name) ;;
        let! _ := remove_temps dir names in
        ret true
      else remove_temps dir names
  end.

Definition cleanup_temp_files (dir : string) : fs unit :=
  let! names := read_dir dir in
  let! removed := remove_temps dir names in
  if removed then sync_directory dir else ret tt.

(** ** [load_blocking] *)

Fixpoint load_records (dir : string) (max total : Z) (names : list string)
    : fs (list ReplayStoreBlob) :=
  match names with
  | [] => ret []
  | name :: names =>
      match decode_component (file_stem name) with
      | None => fail Corrupted
      | Some id =>
          access ;;
          let! w := get in
          match files_of dir w !! name with
          | None => fail Io
          | Some bytes =>
              access ;;
              let file_len := len_u64 bytes in
              if (max <? file_len)%Z then fail Corrupted
              else
                let total := runtime.saturating_add total file_len in
                if (max <? total)%Z then fail QuotaExceeded
                else
                  access ;;
                  let! rest := load_records dir max total names in
                  ret ({| blob_id := id; payload := bytes |} :: rest)
          end
      end
  end.

Definition load_blocking (session_id : string) : fs (list ReplayStoreBlob) :=
  let dir := session_dir_name session_id in
  let! there := is_dir dir in
  if negb there then ret []
  else
    acquire_lock dir ;;
    cleanup_temp_files dir ;;
    let! names := record_paths dir in
    let! w := get in
    load_records dir (max_session_bytes (fs_policy w)) 0 names.

(** ** [commit_blocking] *)

(** The sum of the records' sizes, by their metadata. *)
Fixpoint total_size (dir : string) (total : Z) (names : list string) : fs Z :=
  match names with
  | [] => ret total
  | name :: names =>
      access ;;
      let! w := get in
      match files_of dir w !! name with
      | None => fail Io
      | Some bytes => total_size dir (runtime.saturating_add total (len_u64 bytes)) names
      end
  end.

Definition temp_name (id : string) (n : Z) : string :=
  "." +:+ encode_component id +:+ "." +:+ display process_id +:+ "." +:+ display n +:+ ".tmp".

(** The closure of [commit_blocking]: the payload goes to a new temporary file,
    which is synced and renamed. *)
Definition write_record (dir temp final bytes : string) : fs unit :=
  access ;;
  let! w := get in
  if session.is_some (files_of dir w !! temp) then fail Io
  else
    on_files dir <[temp := ""]> ;;
    let! w := get in
    let! writing := catch access in
    match writing with
    | inl e =>
        on_files dir <[temp := String.substring 0 (written (looks w)) bytes]> ;; fail e
    | inr _ =>
        on_files dir <[temp := bytes]> ;;
        access ;;
        access ;;
        on_files dir (λ files, <[final := bytes]> (delete temp files)) ;;
        sync_directory dir
    end.

Definition commit_blocking (session_id : string) (blob : ReplayStoreBlob) : fs unit :=
  let! w := get in
  let max := max_session_bytes (fs_policy w) in
  if (max <? len_u64 (payload blob))%Z then fail QuotaExceeded
  else
    let! dir := prepare_replay_dir session_id in
    acquire_lock dir ;;
    cleanup_temp_files dir ;;
    let final := record_name (blob_id blob) in
    let! present := stat (λ w, session.is_some (files_of dir w !! final)) in
    if present then
      access ;;
      let! w := get in
      if bool_decide (files_of dir w !! final = Some (payload blob)) then ret tt
      else fail Conflict
    else
      let! names := record_paths dir in
      let! total := total_size dir 0 names in
      if (max <? runtime.saturating_add total (len_u64 (payload blob)))%Z then fail QuotaExceeded
      else
        let! w := get in
        let temp := temp_name (blob_id blob) (next_temp_file w) in
        modify (λ w, {| fs_policy := fs_policy w; dirs := dirs w;
                        next_temp_file := ((next_temp_file w + 1) mod 2 ^ 64)%Z;
                        looks := looks w |}) ;;
        let! result := catch (write_record dir temp final (payload blob)) in
        match result with
        | inr _ => ret tt
        | inl e =>
            let! removed := catch access in
            match removed with
            | inr _ => on_files dir (delete temp)
            | inl _ => ret tt
            end ;;
            fail e
        end.

(** ** [remove_blocking] and [delete_session_blocking] *)

Fixpoint remove_files (dir : string) (names : list string) : fs unit :=
  match names with
  | [] => ret tt
  | name :: names => access ;; on_files dir (delete name) ;; remove_files dir names
  end.

(** That a file is missing is no failure. *)
Definition remove_blocking (session_id : string) (generation_ids : list string) : fs unit :=
  let dir := session_dir_name session_id in
  let! there := is_dir dir in
  if negb there || is_nil generation_ids then ret tt
  else
    acquire_lock dir ;;
    remove_files dir (record_name <$> generation_ids) ;;
    sync_directory dir.

Definition delete_session_blocking (session_id : string) : fs unit :=
  let dir := session_dir_name session_id in
  let! there := is_dir dir in
  if negb there then ret tt
  else
    acquire_lock dir ;;
    cleanup_temp_files dir ;;
    let! names := record_paths dir in
    remove_files dir names ;;
    sync_directory dir.

(** ** The actor and its queue *)

Inductive ReplayCommand : Type :=
| CmdLoad (session_id : string)
| CmdCommit (session_id : string) (blob : ReplayStoreBlob)
| CmdRemove (session_id : string) (generation_ids : list string)
| CmdDeleteSession (session_id : string)
| CmdShutdown.

Inductive ReplayReply : Type :=
| ReplyLoad (answer : outcome ReplayStoreErrorCode (list ReplayStoreBlob))
| ReplyUnit (answer : outcome ReplayStoreErrorCode unit)
| ReplyShutdown.

Definition answer_with {A} (m : fs A) (reply : outcome ReplayStoreErrorCode A → ReplayReply)
    (w : ReplayFs) : ReplayFs * ReplayReply :=
  let '(w, r) := m w in (w, reply r).

Definition dispatch (command : ReplayCommand) (w : ReplayFs) : ReplayFs * ReplayReply :=
  match command with
  | CmdLoad session_id => answer_with (load_blocking session_id) ReplyLoad w
  | CmdCommit session_id blob => answer_with (commit_blocking session_id blob) ReplyUnit w
  | CmdRemove session_id ids => answer_with (remove_blocking session_id ids) ReplyUnit w
  | CmdDeleteSession session_id => answer_with (delete_session_blocking session_id) ReplyUnit w
  | CmdShutdown => (w, ReplyShutdown)
  end.

(** [ReplayStoreActor::run] on everything it ever receives: what was accepted
    before and after a [Shutdown] is served, and the shutdown is answered last. *)
Fixpoint drain_accepted (queue : list ReplayCommand) (w : ReplayFs)
    : ReplayFs * list ReplayReply :=
  match queue with
  | [] => (w, [])
  | command :: queue =>
      let '(w, reply) := dispatch command w in
      let '(w, replies) := drain_accepted queue w in
      (w, reply :: replies)
  end.

Fixpoint run_actor (queue : list ReplayCommand) (w : ReplayFs) : ReplayFs * list ReplayReply :=
  match queue with
  | [] => (w, [])
  | CmdShutdown :: queue =>
      let '(w, replies) := drain_accepted queue w in (w, replies ++ [ReplyShutdown])
  | command :: queue =>
      let '(w, reply) := dispatch command w in
      let '(w, replies) := run_actor queue w in
      (w, reply :: replies)
  end.

(** [FileModelReplayStore]: what a handle sees of the actor. *)
Record ReplayHandle : Type := {
  closed : bool;
  disconnected : bool;
  capacity : nat;
  queued : list ReplayCommand
}.

Definition handle_new (command_capacity : nat) : ReplayHandle :=
  {| closed := false; disconnected := false; capacity := Nat.max command_capacity 1;
     queued := [] |}.

Definition try_enqueue (command : ReplayCommand) : io ReplayHandle ReplayStoreErrorCode unit :=
  λ self,
  if closed self then (self, Err Unavailable)
  else if disconnected self then
    ({| closed := true; disconnected := true; capacity := capacity self; queued := queued self |},
     Err Unavailable)
  else if bool_decide (capacity self ≤ length (queued self)) then (self, Err Busy)
  else
    ({| closed := closed self; disconnected := disconnected self; capacity := capacity self;
        queued := queued self ++ [command] |}, Ok tt).

(** The store as its actor serves it, one command at a time. *)
#[export] Instance file_replay_store : ModelReplayStore ReplayFs := {
  policy := fs_policy;
  load := load_blocking;
  commit := commit_blocking;
  remove := remove_blocking;
  delete_session := delete_session_blocking
}.
End files.

Definition fs_new (p : ReplayStorePolicy) : ReplayFs :=
  {| fs_policy := p; dirs := ∅; next_temp_file := 0; looks := 0 |}.

End replay_store.
