(* ===== verification/ReplayStoreOps.v ===== *)
(** The replay sidecar in files: names, and what each operation does to a
    directory under any failing accesses.

    Module [replay_files] has the names of records and temporary files, the
    records of a listing, a logic of triples over one sidecar directory, and
    the triples of the operations of ReplayStore.v.

    What each operation of the file sidecar does, under any failing accesses.

    Module [replay_ops] has triples [run l m Q] over one sidecar directory:
    from the listing [l] the operation [m] ends in a listing and an answer that
    satisfy [Q], and touches no other directory. *)

From S2P Require Import Prelude RustStr Session Runtime JsonlCodec Jsonl ReplayStore.
From Stdlib Require Import Ascii.
Import jsonl_codec replay_store.

Module replay_files.

(** ** Names *)

Lemma component_digits b :
  let n := N_of_ascii b in
  hex_value (upper_digit (n / 16)) = Some (n / 16)%N ∧
  hex_value (upper_digit (n mod 16)) = Some (n mod 16)%N ∧
  ascii_of_N (N.lor (N.shiftl (n / 16) 4) (n mod 16)) = b ∧
  (is_plain b = true → b ≠ "%"%char ∧ b ≠ "."%char) ∧
  upper_digit (n / 16) ≠ "."%char ∧ upper_digit (n mod 16) ≠ "."%char.
Proof. by destruct b as [[] [] [] [] [] [] [] []]. Qed.

Lemma decode_encode_bytes value : decode_bytes (encode_component value) = Some value.
Proof.
  induction value as [|b value IH]; [done|].
  destruct (component_digits b) as (Hhigh&Hlow&Hb&Hplain&_).
  cbn [encode_component]. destruct (is_plain b) eqn:Hp; cbn [decode_bytes].
  - rewrite bool_decide_eq_false_2 by by apply Hplain. by rewrite Hp, IH.
  - rewrite bool_decide_eq_true_2 by done. rewrite Hhigh, Hlow, IH. cbn. by rewrite Hb.
Qed.

#[export] Instance encode_component_inj : Inj (=) (=) encode_component.
Proof.
  intros a b Heq. apply (f_equal decode_bytes) in Heq. rewrite !decode_encode_bytes in Heq.
  by injection Heq.
Qed.

#[export] Instance sidecar_name_inj : Inj (=) (=) session_dir_name.
Proof. intros a b Heq%string_app_inj_l. by apply encode_component_inj. Qed.

(** A component stands for an identifier exactly when it is its encoding. *)
Lemma decode_component_spec value id :
  decode_component value = Some id ↔ value = encode_component id ∧ valid_utf8 id = true.
Proof.
  unfold decode_component. split.
  - destruct (decode_bytes value) as [decoded|]; [|done]. simpl.
    unfold from_utf8. destruct (valid_utf8 decoded) eqn:Hv; [|done]. simpl.
    case_bool_decide as Hn; [|done]. by intros [= <-].
  - intros [-> Hv]. rewrite decode_encode_bytes. simpl. unfold from_utf8. rewrite Hv. simpl.
    by rewrite bool_decide_eq_true_2.
Qed.

Fixpoint dotless (s : string) : Prop :=
  match s with EmptyString => True | String b s => b ≠ "."%char ∧ dotless s end.

Lemma dotless_component value : dotless (encode_component value).
Proof.
  induction value as [|b value IH]; [done|].
  destruct (component_digits b) as (_&_&_&Hplain&Hh&Hl).
  cbn [encode_component]. destruct (is_plain b) eqn:Hp; simpl; [|done].
  split; [by apply Hplain|done].
Qed.

Lemma rsplit_dotless s : dotless s → rsplit_dot s = None.
Proof.
  induction s as [|b s IH]; [done|]. intros [Hb Hs]. simpl. rewrite IH by done.
  by rewrite bool_decide_eq_false_2.
Qed.

Lemma rsplit_app s t : dotless t → rsplit_dot (s +:+ "." +:+ t) = Some (s, t).
Proof.
  intros Ht. induction s as [|b s IH].
  - change ("" +:+ "." +:+ t) with (String "."%char t). simpl. by rewrite rsplit_dotless.
  - change (String b s +:+ "." +:+ t) with (String b (s +:+ "." +:+ t)).
    cbn [rsplit_dot]. by rewrite IH.
Qed.

Lemma rsplit_sound n s t : rsplit_dot n = Some (s, t) → n = s +:+ "." +:+ t.
Proof.
  revert s. induction n as [|b n IH]; intros s; simpl; [done|].
  destruct (rsplit_dot n) as [[s' t']|].
  - intros [= <- <-]. by rewrite (IH s').
  - case_bool_decide as Hb; [|done]. intros [= <- <-]. by rewrite Hb.
Qed.

Lemma component_nonempty id : id ≠ "" → str_is_empty (encode_component id) = false.
Proof.
  intros Hid. apply bool_decide_eq_false. intros Heq. by apply (encode_component_inj id "") in Heq.
Qed.

Lemma record_name_parts id : rsplit_dot (record_name id) = Some (encode_component id, "replay").
Proof. by apply rsplit_app. Qed.

Lemma record_name_extension id : id ≠ "" → extension (record_name id) = Some "replay".
Proof. intros Hid. unfold extension. by rewrite record_name_parts, component_nonempty. Qed.

Lemma record_name_stem id : id ≠ "" → file_stem (record_name id) = encode_component id.
Proof. intros Hid. unfold file_stem. by rewrite record_name_parts, component_nonempty. Qed.

#[export] Instance record_name_inj : Inj (=) (=) record_name.
Proof.
  intros a b Heq. apply (f_equal rsplit_dot) in Heq. rewrite !record_name_parts in Heq.
  injection Heq as Heq. by apply encode_component_inj.
Qed.

Lemma lock_no_extension : extension LOCK_FILE = None.
Proof. reflexivity. Qed.

Lemma temp_name_extension {pid : ProcessId} id n : extension (temp_name id n) = Some "tmp".
Proof.
  unfold extension, temp_name.
  replace ("." +:+ encode_component id +:+ "." +:+ display process_id +:+ "." +:+ display n +:+ ".tmp")
    with (("." +:+ encode_component id +:+ "." +:+ display process_id +:+ "." +:+ display n)
          +:+ "." +:+ "tmp") by by rewrite !str_app_assoc.
  by rewrite rsplit_app.
Qed.

(** ** The records of a listing *)

(** The files with the extension of records. *)
Definition records_in (f : Files) : Files := filter (λ nf, extension nf.1 = Some "replay") f.

Lemma records_in_Some f n p :
  records_in f !! n = Some p ↔ f !! n = Some p ∧ extension n = Some "replay".
Proof. unfold records_in. apply map_lookup_filter_Some. Qed.

Lemma records_in_lookup f n : extension n = Some "replay" → records_in f !! n = f !! n.
Proof.
  intros Hn. apply option_eq. intros p. rewrite records_in_Some. naive_solver.
Qed.

Lemma records_in_foreign f n : extension n ≠ Some "replay" → records_in f !! n = None.
Proof. intros Hn. apply eq_None_not_Some. intros [p [_ Hp]%records_in_Some]. done. Qed.

(** A change of a name that is not a record's. *)
Lemma records_in_insert_foreign f n p :
  extension n ≠ Some "replay" → records_in (<[n := p]> f) = records_in f.
Proof.
  intros Hn. apply map_eq. intros m. destruct (decide (n = m)) as [<-|Hm].
  - by rewrite !records_in_foreign.
  - apply option_eq. intros q. by rewrite !records_in_Some, lookup_insert_ne.
Qed.

Lemma records_in_delete f n : records_in (delete n f) = delete n (records_in f).
Proof. apply map_filter_delete. Qed.

Lemma records_in_delete_foreign f n :
  extension n ≠ Some "replay" → records_in (delete n f) = records_in f.
Proof. intros Hn. rewrite records_in_delete. apply delete_id. by apply records_in_foreign. Qed.

Lemma records_in_insert f n p :
  extension n = Some "replay" → records_in (<[n := p]> f) = <[n := p]> (records_in f).
Proof. intros Hn. apply map_filter_insert_True. exact Hn. Qed.

(** Every record is named after an identifier. *)
Definition id_ok (id : string) : Prop := id ≠ "" ∧ valid_utf8 id = true.
Definition names_ok (f : Files) : Prop :=
  ∀ n p, records_in f !! n = Some p → ∃ id, n = record_name id ∧ id_ok id.

(** The listings a power loss may leave parts of. *)
Definition listings (l : Listing) : list Files := synced l :: since l.

Lemma now_in_listings l : now l ∈ listings l.
Proof.
  unfold now, listings. destruct (last (since l)) as [f|] eqn:Hl; simpl; [|by left].
  apply last_Some in Hl as [k ->]. right. apply elem_of_app. right. by left.
Qed.

Lemma now_change f l : now (change f l) = f (now l).
Proof. unfold now at 1. simpl. by rewrite last_snoc. Qed.

Lemma listings_change g f l : f ∈ listings (change g l) ↔ f ∈ listings l ∨ f = g (now l).
Proof.
  unfold listings. simpl. rewrite !elem_of_cons, elem_of_app, list_elem_of_singleton. naive_solver.
Qed.

Lemma now_sync l : now (sync l) = now l.
Proof. done. Qed.

Lemma listings_sync f l : f ∈ listings (sync l) ↔ f = now l.
Proof. apply list_elem_of_singleton. Qed.

(** [erodes names r r']: some records of [names] are gone. *)
Definition erodes (names : string → Prop) (r r' : Files) : Prop :=
  ∀ n, r' !! n = r !! n ∨ names n ∧ r' !! n = None.

Lemma erodes_refl names r : erodes names r r.
Proof. intros n. by left. Qed.

Lemma erodes_trans names r r' r'' : erodes names r r' → erodes names r' r'' → erodes names r r''.
Proof. intros H1 H2 n. destruct (H2 n) as [->|?]; [apply H1|by right]. Qed.

Lemma erodes_none r r' : erodes (λ _, False) r r' → r' = r.
Proof. intros H. apply map_eq. intros n. by destruct (H n) as [->|[]]. Qed.

(** A directory in which, at most, records of [names] were removed. *)
Definition evolves (names : string → Prop) (l l' : Listing) : Prop :=
  (∀ f', f' ∈ listings l' → ∃ f, f ∈ listings l ∧ erodes names (records_in f) (records_in f')) ∧
  erodes names (records_in (now l)) (records_in (now l')).

Lemma evolves_refl names l : evolves names l l.
Proof. split; [|apply erodes_refl]. intros f Hf. exists f. split; [done|apply erodes_refl]. Qed.

Lemma evolves_trans names l l' l'' :
  evolves names l l' → evolves names l' l'' → evolves names l l''.
Proof.
  intros [H1 H1'] [H2 H2']. split; [|by eapply erodes_trans].
  intros f'' (f'&(f&?&?)%H1&?)%H2. exists f. split; [done|by eapply erodes_trans].
Qed.

Lemma evolves_sync names l : evolves names l (sync l).
Proof.
  split; [|apply erodes_refl]. intros f ->%listings_sync. exists (now l).
  split; [apply now_in_listings|apply erodes_refl].
Qed.

Lemma evolves_change names g l :
  erodes names (records_in (now l)) (records_in (g (now l))) → evolves names l (change g l).
Proof.
  intros Hg. split; [|by rewrite now_change].
  intros f [Hf| ->]%listings_change; [exists f|exists (now l)].
  - split; [done|apply erodes_refl].
  - split; [apply now_in_listings|done].
Qed.

(** Nothing of the records changed. *)
Abbreviation still := (evolves (λ _, False)).

Lemma still_change g l : records_in (g (now l)) = records_in (now l) → still l (change g l).
Proof. intros Hg. apply evolves_change. rewrite Hg. apply erodes_refl. Qed.

Lemma still_now l l' : still l l' → records_in (now l') = records_in (now l).
Proof. intros [_ H]. by apply erodes_none. Qed.

Lemma evolves_weaken (names names' : string → Prop) l l' :
  (∀ n, names n → names' n) → evolves names l l' → evolves names' l l'.
Proof.
  intros Hn [H H']. assert (∀ r r', erodes names r r' → erodes names' r r') as Hw.
  { intros r r' He n. destruct (He n) as [?|[? ?]]; [by left|right; auto]. }
  split; [|auto]. intros f' (f&?&?)%H. eauto.
Qed.
End replay_files.

Import jsonl_codec replay_store replay_files.

Module replay_ops.

(** ** Listing records, and their sizes *)

Definition record_list (f : Files) (names : list string) : Prop :=
  names ≡ₚ (map_to_list (records_in f)).*1.

Lemma records_in_names f :
  (map_to_list (records_in f)).*1 ≡ₚ filter (λ n, extension n = Some "replay") (map_to_list f).*1.
Proof.
  apply NoDup_Permutation; [apply NoDup_fst_map_to_list|apply NoDup_filter, NoDup_fst_map_to_list|].
  intros n. rewrite list_elem_of_filter, !list_elem_of_fmap. split.
  - intros ((n'&p)&->&Hin%elem_of_map_to_list%records_in_Some). simpl. split; [apply Hin|].
    exists (n', p). split; [done|]. apply elem_of_map_to_list. by apply Hin.
  - intros (He&(n'&p)&->&Hin%elem_of_map_to_list). exists (n', p). split; [done|].
    apply elem_of_map_to_list. by apply records_in_Some.
Qed.


(** The bytes of the records of a map. *)
Definition weight (R : gmap string string) : nat :=
  sum_list_with (λ np, String.length np.2) (map_to_list R).

Lemma weight_insert R n p : R !! n = None → weight (<[n := p]> R) = String.length p + weight R.
Proof. intros Hn. unfold weight. by rewrite map_to_list_insert. Qed.

Definition capped (n : nat) : Z := Z.min (Z.of_nat n) u64_max.

Lemma capped_0 : capped 0 = 0%Z.
Proof. reflexivity. Qed.

Lemma capped_add n m : runtime.saturating_add (capped n) (Z.of_nat m) = capped (n + m).
Proof. unfold runtime.saturating_add, capped. lia. Qed.

(** The sizes of the named files. *)
Definition sizes (f : Files) (names : list string) : nat :=
  sum_list_with (λ n, String.length (default "" (f !! n))) names.

Lemma sizes_weight f names : record_list f names → sizes f names = weight (records_in f).
Proof.
  intros Hn. unfold sizes, weight. rewrite Hn.
  assert (∀ l, l ⊆ map_to_list (records_in f) →
    sum_list_with (λ n, String.length (default "" (f !! n))) l.*1
    = sum_list_with (λ np, String.length np.2) l) as H; [|by apply H].
  induction l as [|[n p] l IH]; [done|]. intros Hl. csimpl. rewrite IH by set_solver.
  assert (records_in f !! n = Some p) as [-> _]%records_in_Some
    by (apply elem_of_map_to_list, Hl; by left). done.
Qed.

Lemma record_list_elem f names n :
  record_list f names → n ∈ names → ∃ p, records_in f !! n = Some p.
Proof.
  intros Hnames. rewrite Hnames. intros ((n'&p)&->&Hin%elem_of_map_to_list)%list_elem_of_fmap.
  by exists p.
Qed.

(** ** Triples *)

Section logic.
Context {faults : ReplayFaults} {order : jsonl.DirOrder} {pid : ProcessId}.

(** The queries [is_dir] and [exists] do not fail. *)
Class StatsWork : Prop := stats_work n : stat_fault n = false.
(** Some access fails. *)
Definition faulty : Prop := ∃ n, fault n = true.

Context (stats : StatsWork) (pol : ReplayStorePolicy) (dir : string).

(** The world [w0], but with the listing [l] in the directory. *)
Definition at_ (w0 w : ReplayFs) (l : Listing) : Prop :=
  fs_policy w = fs_policy w0 ∧ dirs w = <[dir := Some l]> (dirs w0).

Definition run {A} (l : Listing) (m : io ReplayFs ReplayStoreErrorCode A)
    (Q : Listing → outcome ReplayStoreErrorCode A → Prop) : Prop :=
  ∀ w0 w, fs_policy w0 = pol → at_ w0 w l → ∃ l', at_ w0 (m w).1 l' ∧ Q l' (m w).2.

Lemma run_mono {A} l (m : io ReplayFs ReplayStoreErrorCode A)
    (Q Q' : Listing → outcome ReplayStoreErrorCode A → Prop) :
  run l m Q → (∀ l' r, Q l' r → Q' l' r) → run l m Q'.
Proof. intros Hm HQ w0 w Hp Hw. destruct (Hm _ _ Hp Hw) as (l'&?&?). eauto. Qed.

Lemma run_ret {A} l (a : A) (Q : Listing → outcome ReplayStoreErrorCode A → Prop) :
  Q l (Ok a) → run l (ret a) Q.
Proof. intros HQ w0 w _ Hw. exists l. by split. Qed.

Lemma run_fail {A} l e (Q : Listing → outcome ReplayStoreErrorCode A → Prop) :
  Q l (Err e) → run l (fail e) Q.
Proof. intros HQ w0 w _ Hw. exists l. by split. Qed.

Lemma run_bind {A B} l (m : io ReplayFs ReplayStoreErrorCode A) (f : A → io ReplayFs ReplayStoreErrorCode B) Q :
  run l m (λ l1 r, match r with
                   | Ok a => run l1 (f a) Q
                   | Err e => Q l1 (Err e)
                   | Panic => Q l1 Panic
                   end) → run l (bind m f) Q.
Proof.
  intros Hm w0 w Hp Hw. destruct (Hm _ _ Hp Hw) as (l1&Hl1&H1). unfold bind.
  destruct (m w) as [w1 [a|e|]]; simpl in *; [by apply H1|by exists l1..].
Qed.

Lemma run_access_then {A} l (k : unit → io ReplayFs ReplayStoreErrorCode A) Q :
  run l (k tt) Q → (faulty → Q l (Err Io)) → run l (bind access k) Q.
Proof.
  intros Hk Hf. apply run_bind. intros w0 w Hp Hw. exists l. split; [exact Hw|].
  unfold access. simpl. destruct (fault (looks w)) eqn:Hn; [apply Hf; by eexists|done].
Qed.

Lemma run_access l (Q : Listing → outcome ReplayStoreErrorCode unit → Prop) :
  Q l (Ok tt) → (faulty → Q l (Err Io)) → run l access Q.
Proof.
  intros HQ Hf w0 w Hp Hw. exists l. split; [exact Hw|].
  unfold access. simpl. destruct (fault (looks w)) eqn:Hn; [apply Hf; by eexists|done].
Qed.

Lemma run_catch {A B} l (m : io ReplayFs ReplayStoreErrorCode A)
    (k : ReplayStoreErrorCode + A → io ReplayFs ReplayStoreErrorCode B) Q :
  run l m (λ l1 r, match r with
                   | Ok a => run l1 (k (inr a)) Q
                   | Err e => run l1 (k (inl e)) Q
                   | Panic => Q l1 Panic
                   end) → run l (bind (catch m) k) Q.
Proof.
  intros Hm w0 w Hp Hw. destruct (Hm _ _ Hp Hw) as (l1&Hl1&H1). unfold bind, catch.
  destruct (m w) as [w1 [a|e|]]; simpl in *; [by apply H1..|by exists l1].
Qed.

Lemma run_get {A} l (k : ReplayFs → io ReplayFs ReplayStoreErrorCode A) Q :
  (∀ w, files_of dir w = now l → fs_policy w = pol → run l (k w) Q) → run l (bind get k) Q.
Proof.
  intros Hk w0 w Hp Hw. apply (Hk w); [|by rewrite <- Hp; apply Hw|done|done].
  unfold files_of, sidecar. destruct Hw as [_ ->]. by rewrite lookup_insert_eq.
Qed.

Lemma run_stat {A} l holds b (k : bool → io ReplayFs ReplayStoreErrorCode A) Q :
  (∀ w, sidecar dir w = Some l → holds w = b) → run l (k b) Q → run l (bind (stat holds) k) Q.
Proof.
  intros Hb Hk. apply run_bind. intros w0 w Hp Hw. exists l. split; [exact Hw|]. simpl.
  rewrite stats_work, (Hb w); [done|]. unfold sidecar. destruct Hw as [_ ->].
  by rewrite lookup_insert_eq.
Qed.

Lemma at_sidecar f w0 w l : at_ w0 w l → at_ w0 (on_sidecar f dir w) (f l).
Proof.
  intros [Hp Hd]. split; [done|]. simpl. rewrite Hd. apply map_eq. intros n.
  destruct (decide (n = dir)) as [->|Hn].
  - by rewrite lookup_alter_eq, !lookup_insert_eq.
  - by rewrite lookup_alter_ne, !lookup_insert_ne.
Qed.

Lemma run_files {A} l f (k : unit → io ReplayFs ReplayStoreErrorCode A) Q :
  run (change f l) (k tt) Q → run l (bind (on_files dir f) k) Q.
Proof.
  intros Hk. apply run_bind. intros w0 w Hp Hw. exists (change f l). split; [|done].
  by apply at_sidecar.
Qed.

Lemma run_modify {A} l f (k : unit → io ReplayFs ReplayStoreErrorCode A) Q :
  (∀ w, fs_policy (f w) = fs_policy w ∧ dirs (f w) = dirs w) →
  run l (k tt) Q → run l (bind (modify f) k) Q.
Proof.
  intros Hf Hk. apply run_bind. intros w0 w Hp [Hw Hd]. exists l. split; [|done].
  destruct (Hf w) as [H1 H2]. split; simpl; congruence.
Qed.

Lemma run_sync_directory l (Q : Listing → outcome ReplayStoreErrorCode unit → Prop) :
  Q (sync l) (Ok tt) → (faulty → Q l (Err Io)) → run l (sync_directory dir) Q.
Proof.
  intros HQ Hf. apply run_access_then; [|done]. intros w0 w Hp Hw. exists (sync l).
  split; [by apply at_sidecar|done].
Qed.

(** An operation that fails only when an access does. *)
Definition fine {A} (r : outcome ReplayStoreErrorCode A) (P : A → Prop) : Prop :=
  match r with Ok a => P a | Err e => e = Io ∧ faulty | Panic => False end.

(** The rest runs from the listings that satisfy what the first part ensures. *)
Lemma run_then {A B} l (m : io ReplayFs ReplayStoreErrorCode A) (f : A → io ReplayFs ReplayStoreErrorCode B)
    (P : Listing → A → Prop) (R : Listing → Prop) Q :
  run l m (λ l1 r, R l1 ∧ fine r (P l1)) →
  (∀ l1 a, R l1 → P l1 a → run l1 (f a) Q) →
  (∀ l1, R l1 → faulty → Q l1 (Err Io)) →
  run l (bind m f) Q.
Proof.
  intros Hm Hf He. apply run_bind. eapply run_mono; [exact Hm|].
  intros l1 [a|e|] [HR HP]; simpl in HP; [by apply Hf|destruct HP as [-> ?]; by apply He|done].
Qed.

(** ** The parts of the operations *)

Lemma run_lock l :
  run l (acquire_lock dir) (λ l' r, still l l' ∧ fine r (λ _, True)).
Proof.
  apply run_access_then; [|intros; split; [apply evolves_refl|done]].
  apply run_get. intros w Hw _. rewrite Hw.
  destruct (session.is_some _).
  - apply run_bind, run_ret. apply run_access; [|intros]; (split; [apply evolves_refl|done]).
  - apply run_files. assert (still l (change <[LOCK_FILE:="" : string]> l)) as Hs.
    { by apply still_change, records_in_insert_foreign. }
    by apply run_access.
Qed.

Lemma run_read_dir l :
  run l (read_dir dir) (λ l' r, l' = l ∧ fine r (λ names, names ≡ₚ (map_to_list (now l)).*1)).
Proof.
  apply run_access_then; [|intros; by split].
  apply run_get. intros w Hw _. apply run_ret. split; [done|]. simpl. rewrite Hw.
  by rewrite jsonl.dir_order_perm.
Qed.

Lemma run_with_extension wanted names l :
  run l (with_extension wanted names)
    (λ l' r, l' = l ∧ fine r (λ ns, ns = filter (λ n, extension n = Some wanted) names)).
Proof.
  induction names as [|name names IH]; cbn [with_extension]; [by apply run_ret|].
  apply run_access_then; [|intros; by split].
  apply run_access_then; [|intros; by split].
  eapply run_then; [exact IH| |by intros l1 ->].
  intros l1 ns -> ->. apply run_ret. split; [done|]. simpl.
  rewrite filter_cons. by case_decide; case_bool_decide.
Qed.

Lemma run_record_paths l :
  run l (record_paths dir) (λ l' r, l' = l ∧ fine r (record_list (now l))).
Proof.
  eapply run_then; [apply run_read_dir| |by intros l1 ->].
  intros l1 names -> Hnames.
  eapply run_then; [apply run_with_extension| |by intros l1 ->].
  intros l1 ns -> ->. apply run_ret. split; [done|]. simpl. unfold record_list, jsonl.sort_names.
  rewrite merge_sort_Permutation, records_in_names. by rewrite Hnames.
Qed.

Lemma still_delete_temp name l :
  extension name = Some "tmp" → still l (change (delete name) l).
Proof.
  intros Hn. apply still_change, records_in_delete_foreign. by rewrite Hn.
Qed.

(** No temporary files. *)
Definition clean (names : list string) (f : Files) : Prop :=
  ∀ n, n ∈ names → extension n = Some "tmp" → f !! n = None.

Lemma run_remove_temps names l :
  run l (remove_temps dir names)
    (λ l' r, still l l' ∧ (∀ n, now l !! n = None → now l' !! n = None) ∧
             fine r (λ removed, clean names (now l') ∧ (removed = false → l' = l))).
Proof.
  revert l. induction names as [|name names IH]; intros l; cbn [remove_temps].
  { apply run_ret. split; [apply evolves_refl|]. split; [done|]. simpl. split; [|done].
    intros n []%elem_of_nil. }
  assert (∀ l', still l l' → (∀ n, now l !! n = None → now l' !! n = None) → faulty →
    still l l' ∧ (∀ n, now l !! n = None → now l' !! n = None) ∧
    fine (A := bool) (Err Io) (λ removed, clean (name :: names) (now l') ∧ (removed = false → l' = l)))
    as Hfail by done.
  apply run_access_then; [|apply Hfail; [apply evolves_refl|done]].
  apply run_access_then; [|apply Hfail; [apply evolves_refl|done]].
  case_bool_decide as He.
  - apply run_access_then; [|apply Hfail; [apply evolves_refl|done]].
    apply run_files. pose proof (still_delete_temp name l He) as Hs.
    assert (∀ n, now l !! n = None → now (change (delete name) l) !! n = None) as Hnone.
    { intros n Hn. rewrite now_change. apply lookup_delete_None. by right. }
    apply run_bind. eapply run_mono; [apply IH|].
    intros l' [removed|e|] (Hs' & Hn & Hr); simpl in Hr.
    + apply run_ret. split; [by eapply evolves_trans|]. split; [auto|]. simpl. split; [|done].
      intros n [->|Hin]%elem_of_cons Hext; [|by apply Hr].
      apply Hn. rewrite now_change. apply lookup_delete_eq.
    + destruct Hr as [-> Hf]. apply Hfail; [by eapply evolves_trans|auto|done].
    + done.
  - eapply run_mono; [apply IH|]. intros l' r (Hs & Hn & Hr). split; [done|]. split; [done|].
    destruct r as [removed|e|]; simpl in *; [|done..]. split; [|apply Hr].
    intros n [->|Hin]%elem_of_cons Hext; [done|by apply Hr].
Qed.

Lemma run_cleanup l :
  run l (cleanup_temp_files dir)
    (λ l' r, still l l' ∧ fine r (λ _, ∀ n, extension n = Some "tmp" → now l' !! n = None)).
Proof.
  eapply run_then; [apply run_read_dir| |intros l1 ->; by split; [apply evolves_refl|]].
  intros l1 names -> Hnames. apply run_bind. eapply run_mono; [apply run_remove_temps|].
  intros l' [removed|e|] (Hs & Hn & Hr); simpl in Hr; [|by split|done].
  destruct Hr as [Hclean _].
  assert (∀ n, extension n = Some "tmp" → now l' !! n = None) as Hgone.
  { intros n Hext. destruct (now l !! n) as [p|] eqn:Hp; [|by apply Hn].
    apply Hclean; [|done]. rewrite Hnames. apply list_elem_of_fmap.
    exists (n, p). split; [done|]. by apply elem_of_map_to_list. }
  destruct removed; [|by apply run_ret].
  apply run_sync_directory; (split; [|done]); [|done].
  eapply evolves_trans; [exact Hs|apply evolves_sync].
Qed.

(** The lock is taken and the temporary files are gone. *)
Lemma run_enter {A} l (k : io ReplayFs ReplayStoreErrorCode A) Q :
  (∀ l', still l l' → (∀ n, extension n = Some "tmp" → now l' !! n = None) → run l' k Q) →
  (∀ l', still l l' → faulty → Q l' (Err Io)) →
  run l (acquire_lock dir ;; cleanup_temp_files dir ;; k) Q.
Proof.
  intros Hk Hf. eapply run_then; [apply run_lock| |done].
  intros l1 [] H1 _. eapply run_then; [apply run_cleanup| |].
  - intros l2 [] H2 Hc. apply Hk; [by eapply evolves_trans|done].
  - intros l2 H2. apply Hf. by eapply evolves_trans.
Qed.

Lemma run_total_size names l total :
  (∀ n, n ∈ names → is_Some (now l !! n)) →
  run l (total_size dir (capped total) names)
    (λ l' r, l' = l ∧ fine r (λ t, t = capped (total + sizes (now l) names))).
Proof.
  revert total. induction names as [|n names IH]; intros total Hin; cbn [total_size].
  { apply run_ret. split; [done|]. simpl. f_equal. unfold sizes. simpl. lia. }
  apply run_access_then; [|by intros].
  apply run_get. intros w -> _. destruct (Hin n) as [p Hp]; [by left|]. rewrite Hp.
  unfold len_u64. rewrite capped_add. eapply run_mono; [apply IH|].
  - intros m Hm. apply Hin. by right.
  - intros l' [t|e|] [-> Ht]; simpl in *; [|done..]. split; [done|]. rewrite Ht. f_equal.
    unfold sizes. simpl. rewrite Hp. simpl. lia.
Qed.

(** ** Loading *)

(** What a directory with that content loads to. *)
Fixpoint load_result (f : Files) (max total : Z) (names : list string)
    : outcome ReplayStoreErrorCode (list ReplayStoreBlob) :=
  match names with
  | [] => Ok []
  | name :: names =>
      match decode_component (file_stem name), f !! name with
      | Some id, Some bytes =>
          if (max <? len_u64 bytes)%Z then Err Corrupted
          else
            let total := runtime.saturating_add total (len_u64 bytes) in
            if (max <? total)%Z then Err QuotaExceeded
            else
              match load_result f max total names with
              | Ok rest => Ok ({| blob_id := id; payload := bytes |} :: rest)
              | r => r
              end
      | None, _ => Err Corrupted
      | _, None => Err Io
      end
  end.

Lemma load_result_now f f' max total names :
  (∀ n, n ∈ names → f' !! n = f !! n) →
  load_result f' max total names = load_result f max total names.
Proof.
  revert total. induction names as [|n names IH]; intros total Hf; [done|]. cbn [load_result].
  rewrite Hf by by left. destruct (decode_component _), (f !! n); try done.
  destruct (_ <? _)%Z; [done|]. simpl. destruct (_ <? _)%Z; [done|].
  rewrite IH; [done|]. intros m Hm. apply Hf. by right.
Qed.

Lemma run_load_records max names l total :
  (∀ n, n ∈ names → is_Some (now l !! n)) →
  run l (load_records dir max total names)
    (λ l' r, l' = l ∧ (r = load_result (now l) max total names ∨ r = Err Io ∧ faulty)).
Proof.
  revert total. induction names as [|n names IH]; intros total Hin; cbn [load_records load_result].
  { apply run_ret. by split; [|left]. }
  assert (is_Some (now l !! n)) as [bytes Hb] by (apply Hin; by left).
  destruct (decode_component (file_stem n)) as [id|]; [|apply run_fail; by split; [|left]].
  assert (∀ r : outcome ReplayStoreErrorCode (list ReplayStoreBlob), faulty →
    l = l ∧ (@Err ReplayStoreErrorCode (list ReplayStoreBlob) Io = r ∨
             @Err ReplayStoreErrorCode (list ReplayStoreBlob) Io = Err Io ∧ faulty)) as Hfail
    by (intros; split; [done|by right]).
  apply run_access_then; [|apply Hfail].
  apply run_get. intros w -> _. rewrite Hb.
  apply run_access_then; [|apply Hfail]. simpl.
  destruct (_ <? _)%Z; [apply run_fail; by split; [|left]|].
  destruct (_ <? _)%Z; [apply run_fail; by split; [|left]|].
  apply run_access_then; [|apply Hfail].
  apply run_bind. eapply run_mono; [apply IH; intros m Hm; apply Hin; by right|].
  intros l' r [-> [->|[-> Hf]]]; [|by apply Hfail].
  destruct (load_result _ _ _ _); [apply run_ret|..]; by split; [|left].
Qed.

(** ** Committing *)

(** The record of [id] may have come in. *)
Definition grown (id p : string) (l l' : Listing) : Prop :=
  (∀ f', f' ∈ listings l' →
     (∃ f, f ∈ listings l ∧ records_in f' = records_in f) ∨
     records_in f' = <[record_name id := p]> (records_in (now l))) ∧
  (records_in (now l') = records_in (now l) ∨
   records_in (now l') = <[record_name id := p]> (records_in (now l))).

Lemma still_grown id p l l' : still l l' → grown id p l l'.
Proof.
  intros [H H']. split; [|left; by apply erodes_none].
  intros f' (f&?&?%erodes_none)%H. left. by exists f.
Qed.

Lemma still_then_grown id p l l1 l' : still l l1 → grown id p l1 l' → grown id p l l'.
Proof.
  intros [H H'%erodes_none] [H1 H1']. rewrite H' in H1, H1'. split; [|done].
  intros f' [(f&(f0&?&?%erodes_none)%H&?)|?]%H1; [left; exists f0; by split; [|congruence]|by right].
Qed.

Lemma grown_then_still id p l l1 l' : grown id p l l1 → still l1 l' → grown id p l l'.
Proof.
  intros [H H'] [H1 Hn%erodes_none]. split; [|by rewrite Hn].
  intros f' (f&Hf&->%erodes_none)%H1. by apply H.
Qed.

(** The record of [id] is in, whatever happens. *)
Definition in_sync (id p : string) (l l' : Listing) : Prop :=
  now l' ∈ listings l' ∧
  ∀ f', f' ∈ listings l' → records_in f' = <[record_name id := p]> (records_in (now l)).

Lemma in_sync_grown id p l l' : in_sync id p l l' → grown id p l l'.
Proof.
  intros [Hn H]. split; [|right; by apply H]. intros f' Hf. right. by apply H.
Qed.

Lemma run_write_record id temp bytes l :
  id_ok id → extension temp = Some "tmp" → now l !! temp = None →
  run l (write_record dir temp (record_name id) bytes)
    (λ l' r, grown id bytes l l' ∧ fine r (λ _, in_sync id bytes l l')).
Proof.
  intros [Hid _] Ht Hnone. set (final := record_name id).
  assert (∀ l', still l l' → faulty → grown id bytes l l' ∧
    fine (A := unit) (Err Io) (λ _, in_sync id bytes l l')) as Hfail
    by (intros; split; [by apply still_grown|done]).
  assert (extension temp ≠ Some "replay") as Htmp by (rewrite Ht; done).
  assert (∀ l' p, still l l' → still l (change <[temp := p]> l')) as Hput.
  { intros l' p Hl. eapply evolves_trans; [exact Hl|].
    by apply still_change, records_in_insert_foreign. }
  apply run_access_then; [|intros; apply Hfail; [apply evolves_refl|done]].
  apply run_get. intros w -> _. rewrite Hnone. simpl.
  apply run_files. pose proof (Hput l "" (evolves_refl _ _)) as H1.
  apply run_get. intros w1 _ _. apply run_catch, run_access.
  2:{ intros Hf. apply run_files, run_fail. apply Hfail; [by apply Hput|done]. }
  apply run_files. pose proof (Hput _ bytes H1) as H2.
  set (l2 := change <[temp := bytes]> (change <[temp := ""]> l)) in *.
  apply run_access_then; [|by apply Hfail].
  apply run_access_then; [|by apply Hfail].
  apply run_files. set (l3 := change _ l2).
  assert (records_in (now l3) = <[final := bytes]> (records_in (now l))) as Hnow.
  { unfold l3. rewrite now_change. rewrite records_in_insert by by apply record_name_extension.
    by rewrite records_in_delete_foreign, (still_now _ _ H2). }
  apply run_sync_directory.
  - assert (in_sync id bytes l (sync l3)) as Hs.
    { split; [by apply listings_sync|]. by intros f' ->%listings_sync. }
    split; [by apply in_sync_grown|exact Hs].
  - intros Hf. split; [|done]. split; [|by right].
    intros f' [Hf'| ->]%listings_change; [|right; unfold l3 in Hnow; by rewrite now_change in Hnow].
    left. destruct H2 as [H2 _]. destruct (H2 f' Hf') as (f&?&?%erodes_none). by exists f.
Qed.

(** What a commit to a directory with the records [R] may answer, and what the
    directory is then. *)
Definition committed (id p : string) (l l' : Listing) (r : outcome ReplayStoreErrorCode unit) : Prop :=
  let R := records_in (now l) in
  let full := (max_session_bytes pol
               <? runtime.saturating_add (capped (weight R)) (len_u64 p))%Z in
  match R !! record_name id with
  | Some p' =>
      still l l' ∧ (r = (if p' == p then Ok tt else Err Conflict) ∨ r = Err Io ∧ faulty)
  | None =>
      if full then still l l' ∧ (r = Err QuotaExceeded ∨ r = Err Io ∧ faulty)
      else grown id p l l' ∧ fine r (λ _, in_sync id p l l')
  end.

Lemma committed_still id p l l1 l' r : still l l1 → committed id p l1 l' r → committed id p l l' r.
Proof.
  intros Hs Hc. pose proof (still_now _ _ Hs) as Hn. unfold committed in *. rewrite Hn in Hc.
  destruct (records_in (now l) !! _).
  { destruct Hc as [??]. split; [by eapply evolves_trans|done]. }
  destruct (_ <? _)%Z.
  { destruct Hc as [??]. split; [by eapply evolves_trans|done]. }
  destruct Hc as [Hg Hr]. split; [by eapply still_then_grown|].
  destruct r; [|done..]. unfold fine, in_sync in *. by rewrite Hn in Hr.
Qed.

Lemma committed_io id p l l' : still l l' → faulty → committed id p l l' (Err Io).
Proof.
  intros Hs Hf. unfold committed. destruct (_ !! _); [split; [done|by right]|].
  destruct (_ <? _)%Z; [split; [done|by right]|]. split; [by apply still_grown|done].
Qed.

(** [commit_blocking] once the directory is there. *)
Definition commit_prepared (blob : ReplayStoreBlob) (max : Z) : io ReplayFs ReplayStoreErrorCode unit :=
  acquire_lock dir ;;
  cleanup_temp_files dir ;;
  let final := record_name (blob_id blob) in
  let! present := stat (λ w, session.is_some (files_of dir w !! final)) in
  if present then
    access ;;
    let! w := get in
    if bool_decide (files_of dir w !! final = Some (payload blob)) then ret tt
    else fail Conflict
  else
    let! names := record_paths dir in
    let! total := total_size dir 0 names in
    if (max <? runtime.saturating_add total (len_u64 (payload blob)))%Z then fail QuotaExceeded
    else
      let! w := get in
      let temp := temp_name (blob_id blob) (next_temp_file w) in
      modify (λ w, {| fs_policy := fs_policy w; dirs := dirs w;
                      next_temp_file := ((next_temp_file w + 1) mod 2 ^ 64)%Z;
                      looks := looks w |}) ;;
      let! result := catch (write_record dir temp final (payload blob)) in
      match result with
      | inr _ => ret tt
      | inl e =>
          let! removed := catch access in
          match removed with
          | inr _ => on_files dir (delete temp)
          | inl _ => ret tt
          end ;;
          fail e
      end.

Lemma run_commit_new id bytes l (w : ReplayFs) :
  id_ok id → (∀ n, extension n = Some "tmp" → now l !! n = None) →
  run l (let! result := catch (write_record dir (temp_name id (next_temp_file w)) (record_name id) bytes) in
         match result with
         | inr _ => ret tt
         | inl e =>
             let! removed := catch access in
             match removed with
             | inr _ => on_files dir (delete (temp_name id (next_temp_file w)))
             | inl _ => ret tt
             end ;;
             fail e
         end)
    (λ l' r, grown id bytes l l' ∧ fine r (λ _, in_sync id bytes l l')).
Proof.
  intros Hid Hclean. pose proof (temp_name_extension id (next_temp_file w)) as Ht.
  apply run_catch. eapply run_mono; [apply run_write_record; [done|exact Ht|by apply Hclean]|].
  intros l1 [[]|e|] [Hg Hr]; simpl in Hr; [by apply run_ret| |done].
  destruct Hr as [-> Hf]. apply run_catch, run_access.
  - apply run_files, run_fail. split; [|done]. eapply grown_then_still; [exact Hg|].
    by apply still_delete_temp.
  - intros _. apply run_bind, run_ret, run_fail. by split.
Qed.

Lemma run_commit_prepared blob l :
  id_ok (blob_id blob) →
  run l (commit_prepared blob (max_session_bytes pol))
    (committed (blob_id blob) (payload blob) l).
Proof.
  intros Hid. set (id := blob_id blob). set (p := payload blob).
  apply run_enter; [|by intros; apply committed_io].
  intros l1 H1 Hclean. fold id p.
  cut (run l1
    (let! present := stat (λ w, session.is_some (files_of dir w !! record_name id)) in
     if present then
       access ;;
       let! w := get in
       if bool_decide (files_of dir w !! record_name id = Some p) then ret tt else fail Conflict
     else
       let! names := record_paths dir in
       let! total := total_size dir 0 names in
       if (max_session_bytes pol <? runtime.saturating_add total (len_u64 p))%Z
       then fail QuotaExceeded
       else
         let! w := get in
         modify (λ w, {| fs_policy := fs_policy w; dirs := dirs w;
                         next_temp_file := ((next_temp_file w + 1) mod 2 ^ 64)%Z;
                         looks := looks w |}) ;;
         let! result := catch (write_record dir (temp_name id (next_temp_file w)) (record_name id) p) in
         match result with
         | inr _ => ret tt
         | inl e =>
             let! removed := catch access in
             match removed with
             | inr _ => on_files dir (delete (temp_name id (next_temp_file w)))
             | inl _ => ret tt
             end ;;
             fail e
         end)
    (committed id p l1)).
  { intros Hr. eapply run_mono; [exact Hr|]. intros l' r. by apply committed_still. }
  clear H1 l. rename l1 into l.
  pose proof (record_name_extension id (proj1 Hid)) as Hext.
  pose proof (records_in_lookup (now l) _ Hext) as Hlook.
  eapply (run_stat _ _ (session.is_some (now l !! record_name id))).
  { intros w Hw. unfold files_of. by rewrite Hw. }
  unfold committed. rewrite Hlook.
  destruct (now l !! record_name id) as [p'|] eqn:Hp; simpl.
  - apply run_access_then; [|intros; split; [apply evolves_refl|by right]].
    apply run_get. intros w -> _. rewrite Hp. destruct (decide (p' = p)) as [->|Hne].
    + rewrite bool_decide_eq_true_2 by done. apply run_ret. split; [apply evolves_refl|].
      left. by rewrite bool_decide_eq_true_2.
    + rewrite bool_decide_eq_false_2 by congruence. apply run_fail. split; [apply evolves_refl|].
      left. by rewrite bool_decide_eq_false_2.
  - set (Q := λ l' (r : outcome ReplayStoreErrorCode unit), _).
    assert (∀ l1, l1 = l → faulty → Q l1 (Err Io)) as Hio.
    { intros l1 -> Hf. unfold Q. destruct (_ <? _)%Z.
      - split; [apply evolves_refl|by right].
      - split; [apply still_grown, evolves_refl|done]. }
    eapply run_then; [apply run_record_paths| |exact Hio].
    intros l1 names -> Hnames.
    change 0%Z with (capped 0). eapply run_then; [apply (run_total_size names l 0)| |exact Hio].
    { intros n Hn. destruct (record_list_elem _ _ _ Hnames Hn) as [q [? _]%records_in_Some]. by exists q. }
    intros l1 total -> ->. cbn [Nat.add]. rewrite (sizes_weight _ _ Hnames). unfold Q.
    destruct (_ <? _)%Z; [apply run_fail; split; [apply evolves_refl|by left]|].
    apply run_get. intros w _ _. apply run_modify; [done|]. by apply run_commit_new.
Qed.

(** ** Removing *)

Lemma run_remove_files names l :
  run l (remove_files dir names)
    (λ l' r, evolves (λ n, n ∈ names) l l' ∧ (∀ n, now l !! n = None → now l' !! n = None) ∧
             fine r (λ _, ∀ n, n ∈ names → now l' !! n = None)).
Proof.
  revert l. induction names as [|name names IH]; intros l; cbn [remove_files].
  { apply run_ret. split; [apply evolves_refl|]. split; [done|]. simpl. by intros n []%elem_of_nil. }
  apply run_access_then; [|intros; by split; [apply evolves_refl|]].
  apply run_files.
  assert (evolves (λ n, n ∈ name :: names) l (change (delete name) l)) as H1.
  { apply evolves_change. rewrite records_in_delete. intros n.
    destruct (decide (n = name)) as [->|Hn]; [right|left; by rewrite lookup_delete_ne].
    rewrite lookup_delete_eq. split; [by left|done]. }
  eapply run_mono; [apply IH|]. intros l' r (H2 & Hnone & Hr). rewrite now_change in Hnone.
  split; [|split].
  - eapply evolves_trans; [exact H1|]. eapply evolves_weaken; [|exact H2]. intros n. by right.
  - intros n Hn. apply Hnone, lookup_delete_None. by right.
  - destruct r; [|done..]. simpl in *. intros n [->|Hn]%elem_of_cons; [|by apply Hr].
    apply Hnone, lookup_delete_eq.
Qed.

(** Records of [names] may be gone, and are for good when the answer is [Ok]. *)
Definition removed (names : string → Prop) (l l' : Listing)
    (r : outcome ReplayStoreErrorCode unit) : Prop :=
  evolves names l l' ∧
  fine r (λ _, ∀ f, f ∈ listings l' → ∀ n, names n → records_in f !! n = None).

Lemma removed_after_still names l l1 l' r : still l l1 → removed names l1 l' r → removed names l l' r.
Proof.
  intros Hs [He Hr]. split.
  - eapply evolves_trans; [|exact He]. by eapply evolves_weaken; [|exact Hs].
  - exact Hr.
Qed.

Lemma removed_io names l l' : still l l' → faulty → removed names l l' (Err Io).
Proof. intros Hs Hf. split; [by eapply evolves_weaken; [|exact Hs]|done]. Qed.

(** The end of both operations: the files go, then the directory is synced. *)
Lemma run_remove_and_sync names l :
  run l (remove_files dir names ;; sync_directory dir) (λ l' r,
    removed (λ n, n ∈ names) l l' r ∧ (r = Ok tt → ∀ f, f ∈ listings l' → f = now l')).
Proof.
  apply run_bind. eapply run_mono; [apply run_remove_files|].
  intros l1 [[]|e|] (He & _ & Hr); simpl in Hr; [| |done].
  2:{ split; [by split|]. destruct Hr as [-> _]. discriminate. }
  apply run_sync_directory; [|by intros; split; [split|]]. split.
  - split; [eapply evolves_trans; [exact He|apply evolves_sync]|].
    intros f ->%listings_sync n Hn. apply eq_None_not_Some. intros [p [Hp _]%records_in_Some].
    rewrite Hr in Hp; done.
  - intros _ f Hf%listings_sync. done.
Qed.

End logic.
End replay_ops.
