(* ===== verification/ReplayStoreLaws.v ===== *)
(** The contract of a replay store, and that both stores keep it.

    Module [replay_laws] has what each command does to the file store's world,
    the contract [ReplayStoreLaws] of a [ModelReplayStore], the file store
    without failing accesses and the store in memory as its instances. *)

From S2P Require Import Prelude RustStr Session Runtime JsonlCodec Jsonl ReplayStore.
From S2P Require Import ReplayStoreOps.
Import jsonl_codec replay_store replay_files replay_ops.

Module replay_laws.

(** ** The effects of commands *)

Lemma empty_records : records_in (now listing_empty) = ∅.
Proof. apply map_filter_empty. Qed.

(** A directory that is missing is an empty one. *)
Definition listing_at (sid : string) (w : ReplayFs) : Listing :=
  default listing_empty (sidecar (session_dir_name sid) w).

(** Only the directory of [sid] changes. *)
Definition effect (sid : string) (w w' : ReplayFs) (P : Listing → Listing → Prop) : Prop :=
  fs_policy w' = fs_policy w ∧
  (∀ sid', sid' ≠ sid → listing_at sid' w' = listing_at sid' w) ∧
  P (listing_at sid w) (listing_at sid w').

Section effects.
Context {faults : ReplayFaults} {order : jsonl.DirOrder} {pid : ProcessId} {stats : StatsWork}.

Lemma at_effect sid w w' l' (P : Listing → Listing → Prop) :
  at_ (session_dir_name sid) w w' l' → P (listing_at sid w) l' → effect sid w w' P.
Proof.
  intros [Hp Hd] HP. unfold effect, listing_at, sidecar. rewrite Hd. split; [done|]. split.
  - intros sid' Hne. rewrite lookup_insert_ne; [done|]. by intros ?%sidecar_name_inj.
  - by rewrite lookup_insert_eq.
Qed.

Lemma same_effect sid w w' (P : Listing → Listing → Prop) :
  fs_policy w' = fs_policy w → (∀ n, sidecar n w' = sidecar n w) →
  P (listing_at sid w) (listing_at sid w) → effect sid w w' P.
Proof.
  intros Hp Hs HP. unfold effect, listing_at in *. rewrite Hs. split; [done|]. split; [|done].
  intros sid' _. by rewrite Hs.
Qed.

(** A triple from the directory the world has. *)
Lemma run_effect {A} sid w l (m : io ReplayFs ReplayStoreErrorCode A)
    (Q : Listing → outcome ReplayStoreErrorCode A → Prop) :
  run (fs_policy w) (session_dir_name sid) l m Q → dirs w !! session_dir_name sid = Some (Some l) →
  effect sid w (m w).1 (λ _ l', Q l' (m w).2).
Proof.
  intros Hm Hd. destruct (Hm w w) as (l'&Hat&HQ); [done| |].
  - split; [done|]. symmetry. by apply insert_id.
  - by eapply at_effect.
Qed.

Lemma sidecar_dirs name w l : sidecar name w = Some l → dirs w !! name = Some (Some l).
Proof. unfold sidecar. by intros (d&?&->)%bind_Some. Qed.

(** The same, for a property of both listings. *)
Lemma run_effect_at {A} sid w l (m : io ReplayFs ReplayStoreErrorCode A)
    (Q : Listing → Listing → outcome ReplayStoreErrorCode A → Prop) :
  sidecar (session_dir_name sid) w = Some l →
  run (fs_policy w) (session_dir_name sid) l m (Q l) →
  effect sid w (m w).1 (λ l l', Q l l' (m w).2).
Proof.
  intros Hl Hm. pose proof (run_effect sid w l m (Q l) Hm (sidecar_dirs _ _ _ Hl)) as (?&?&HQ).
  split; [done|]. split; [done|]. unfold listing_at at 1. by rewrite Hl.
Qed.

Lemma load_effect sid w :
  let r := (load_blocking sid w).2 in
  effect sid w (load_blocking sid w).1 (λ l l', still l l' ∧
    ∃ names, record_list (now l) names ∧
      (r = load_result (records_in (now l)) (max_session_bytes (fs_policy w)) 0 names ∨
       r = Err Io ∧ faulty)).
Proof.
  intros r. destruct (sidecar (session_dir_name sid) w) as [l|] eqn:Hl.
  - apply (run_effect_at sid w l (load_blocking sid) (λ l l' r, still l l' ∧
      ∃ names, record_list (now l) names ∧
        (r = load_result (records_in (now l)) (max_session_bytes (fs_policy w)) 0 names ∨
         r = Err Io ∧ faulty)) Hl). clear r.
    assert (∀ l' (r : outcome ReplayStoreErrorCode (list ReplayStoreBlob)), still l l' →
      r = Err Io ∧ faulty → still l l' ∧ ∃ names, record_list (now l) names ∧
        (r = load_result (records_in (now l)) (max_session_bytes (fs_policy w)) 0 names ∨
         r = Err Io ∧ faulty)) as Hfail.
    { intros l' r Hs Hr. split; [done|]. exists (map_to_list (records_in (now l))).*1.
      split; [by unfold record_list|by right]. }
    apply (run_stat _ _ _ _ _ true); [by intros w' ->|]. simpl.
    apply run_enter; [|by intros; apply Hfail].
    intros l1 H1 Hclean. eapply run_then; [apply run_record_paths| |by intros l2 -> Hf; apply Hfail].
    intros l2 names -> Hnames. apply run_get. intros w' _ ->.
    eapply run_mono; [apply run_load_records|].
    { intros n Hn. destruct (record_list_elem _ _ _ Hnames Hn) as [q [? _]%records_in_Some]. by exists q. }
    intros l2 r [-> Hr]. split; [done|]. exists names.
    assert (record_list (now l) names) as Hnames' by (unfold record_list in *; by rewrite <- (still_now _ _ H1)).
    split; [done|]. destruct Hr as [->|Hr]; [left|by right].
    rewrite <- (still_now _ _ H1). apply load_result_now. intros n Hn.
    symmetry. apply records_in_lookup. by destruct (record_list_elem _ _ _ Hnames Hn) as [q [_ ?]%records_in_Some].
  - assert ((load_blocking sid w).1 = looked w ∧ r = Ok []) as [-> ->].
    { unfold r, load_blocking, is_dir, stat, bind. rewrite Hl. simpl. by rewrite andb_false_r. }
    apply same_effect; [done|done|]. unfold listing_at. rewrite Hl. split; [apply evolves_refl|].
    exists []. split; [|by left]. unfold record_list. simpl.
    by rewrite empty_records, map_to_list_empty.
Qed.

Lemma commit_split sid blob w :
  commit_blocking sid blob w =
  if (max_session_bytes (fs_policy w) <? len_u64 (payload blob))%Z then (w, Err QuotaExceeded)
  else bind (prepare_replay_dir sid)
         (λ dir, commit_prepared dir blob (max_session_bytes (fs_policy w))) w.
Proof. unfold commit_blocking, bind, get, fail. simpl. by destruct (_ <? _)%Z. Qed.

(** The directory is there afterwards, or an access failed. *)
Lemma prepare_effect sid w :
  let name := session_dir_name sid in
  let l := listing_at sid w in
  match prepare_replay_dir sid w with
  | (w', Ok dir) => dir = name ∧ fs_policy w' = fs_policy w ∧ dirs w' !! name = Some (Some l) ∧
                    (∀ n, n ≠ name → dirs w' !! n = dirs w !! n)
  | (w', Err e) => e = Io ∧ faulty ∧ effect sid w w' (λ l l', l' = l)
  | (_, Panic) => False
  end.
Proof.
  simpl. set (name := session_dir_name sid). unfold prepare_replay_dir, bind, access, modify, ret.
  fold name. simpl.
  assert (∀ n, fault n = true → faulty) as Hf by (intros n Hn; by exists n).
  assert (∀ n, n ≠ name → <[name := default None (dirs w !! name)]> (dirs w) !! n = dirs w !! n)
    as Hother by (intros n Hn; by rewrite lookup_insert_ne).
  assert (∀ w', fs_policy w' = fs_policy w →
      dirs w' = <[name := default None (dirs w !! name)]> (dirs w) →
      effect sid w w' (λ l l', l' = l)) as He1.
  { intros w' Hp Hd. apply same_effect; [done| |done]. intros n. unfold sidecar. rewrite Hd.
    destruct (decide (n = name)) as [->|Hn]; [|by rewrite Hother].
    rewrite lookup_insert_eq. by destruct (dirs w !! name) as [[]|]. }
  set (D := alter (λ d, Some (default listing_empty d)) name
    (<[name := default None (dirs w !! name)]> (dirs w))).
  assert (D !! name = Some (Some (listing_at sid w)) ∧ ∀ n, n ≠ name → D !! n = dirs w !! n)
    as [H1 H2].
  { split.
    - unfold D. rewrite lookup_alter_eq, lookup_insert_eq. simpl. unfold listing_at, sidecar.
      fold name. by destruct (dirs w !! name) as [[]|].
    - intros n Hn. unfold D. rewrite lookup_alter_ne by done. by apply Hother. }
  destruct (fault (looks w)) eqn:E1; simpl.
  { split; [done|]. split; [by eapply Hf|]. by apply same_effect. }
  destruct (fault (S (looks w))) eqn:E2; simpl.
  { split; [done|]. split; [by eapply Hf|]. by apply He1. }
  destruct (fault (S (S (looks w)))) eqn:E3; simpl.
  { split; [done|]. split; [by eapply Hf|]. by apply He1. }
  destruct (fault (S (S (S (looks w))))) eqn:E4; simpl.
  - split; [done|]. split; [by eapply Hf|].
    split; [done|]. split.
    + intros sid' Hne. unfold listing_at, sidecar. simpl. rewrite H2; [done|].
      by intros ?%sidecar_name_inj.
    + unfold listing_at at 1, sidecar. simpl. fold name. by rewrite H1.
  - by split.
Qed.

Lemma commit_effect sid blob w :
  id_ok (blob_id blob) →
  let r := (commit_blocking sid blob w).2 in
  let w' := (commit_blocking sid blob w).1 in
  if (max_session_bytes (fs_policy w) <? len_u64 (payload blob))%Z
  then w' = w ∧ r = Err QuotaExceeded
  else effect sid w w' (λ l l', committed (fs_policy w) (blob_id blob) (payload blob) l l' r).
Proof.
  intros Hid. rewrite commit_split. simpl. destruct (_ <? _)%Z; [done|].
  pose proof (prepare_effect sid w) as Hprep. unfold bind.
  destruct (prepare_replay_dir sid w) as [w1 [dir|e|]]; simpl in *; [|..].
  - destruct Hprep as (->&Hp&Hl&Ho).
    pose proof (run_effect sid w1 (listing_at sid w) (commit_prepared (session_dir_name sid) blob
      (max_session_bytes (fs_policy w1))) _ (run_commit_prepared _ _ _ blob _ Hid) Hl)
      as (Hp'&Ho'&Hc).
    rewrite Hp in *. split; [done|]. split; [|done].
    intros sid' Hne. rewrite Ho' by done. unfold listing_at, sidecar. rewrite Ho; [done|].
    by intros ?%sidecar_name_inj.
  - destruct Hprep as (->&Hf&Hp&Ho&Hl). split; [done|]. split; [done|]. rewrite Hl.
    by apply committed_io; [apply evolves_refl|].
  - done.
Qed.

Lemma removed_nothing l : removed (λ n, n ∈ ([] : list string)) l l (Ok tt).
Proof. split; [apply evolves_refl|]. simpl. by intros f _ n ?%elem_of_nil. Qed.

Lemma removed_empty names : removed names listing_empty listing_empty (Ok tt).
Proof.
  split; [apply evolves_refl|]. simpl. intros f [->|[]%elem_of_nil]%elem_of_cons n _.
  apply eq_None_not_Some. by intros [p [Hp _]%records_in_Some].
Qed.

Lemma remove_effect sid ids w :
  effect sid w (remove_blocking sid ids w).1 (λ l l',
    removed (λ n, n ∈ record_name <$> ids) l l' (remove_blocking sid ids w).2).
Proof.
  destruct (sidecar (session_dir_name sid) w) as [l|] eqn:Hl.
  - destruct ids as [|id ids].
    { assert (remove_blocking sid [] w = (looked w, Ok tt)) as ->.
      { unfold remove_blocking, is_dir, stat, bind. simpl. by rewrite orb_true_r. }
      apply same_effect; [done|done|]. apply removed_nothing. }
    apply (run_effect_at sid w l (remove_blocking sid (id :: ids))
      (removed (λ n, n ∈ record_name <$> (id :: ids))) Hl).
    apply (run_stat _ _ _ _ _ true); [by intros w' ->|]. cbn [negb orb is_nil].
    eapply run_then; [apply run_lock| |by intros; apply removed_io].
    intros l1 [] H1 _. eapply run_mono; [apply run_remove_and_sync|].
    intros l' r [Hr _]. by eapply removed_after_still.
  - assert (remove_blocking sid ids w = (looked w, Ok tt)) as ->.
    { unfold remove_blocking, is_dir, stat, bind. rewrite Hl. simpl. by rewrite andb_false_r. }
    apply same_effect; [done|done|]. unfold listing_at. rewrite Hl. apply removed_empty.
Qed.

Lemma delete_effect sid w :
  effect sid w (delete_session_blocking sid w).1 (λ l l',
    removed (λ _, True) l l' (delete_session_blocking sid w).2).
Proof.
  destruct (sidecar (session_dir_name sid) w) as [l|] eqn:Hl.
  - apply (run_effect_at sid w l (delete_session_blocking sid) (removed (λ _, True)) Hl).
    apply (run_stat _ _ _ _ _ true); [by intros w' ->|]. cbn [negb].
    apply run_enter; [|by intros; apply removed_io].
    intros l1 H1 _. eapply run_then; [apply run_record_paths| |by intros l2 -> Hf; apply removed_io].
    intros l2 names -> Hnames. eapply run_mono; [apply run_remove_and_sync|].
    intros l' r [[He Hr] Hsync]. apply (removed_after_still _ _ l1); [done|]. split; [by eapply evolves_weaken; [|exact He]|].
    destruct r as [[]|e|]; [|done..]. simpl in *. intros f Hf n _.
    destruct (decide (n ∈ names)) as [Hn|Hn]; [by apply Hr|].
    rewrite (Hsync eq_refl f Hf). apply proj2 in He. destruct (He n) as [->|[? ?]]; [|done].
    apply eq_None_not_Some. intros [p Hp]. apply Hn. rewrite Hnames. apply list_elem_of_fmap.
    exists (n, p). split; [done|]. by apply elem_of_map_to_list.
  - assert (delete_session_blocking sid w = (looked w, Ok tt)) as ->.
    { unfold delete_session_blocking, is_dir, stat, bind. rewrite Hl. simpl. by rewrite andb_false_r. }
    apply same_effect; [done|done|]. unfold listing_at. rewrite Hl. apply removed_empty.
Qed.
End effects.

(** ** The records of a directory by identifier *)

Abbreviation Records := (gmap string string).

Definition id_of (name : string) : string := default "" (decode_component (file_stem name)).

Lemma id_of_record id : id_ok id → id_of (record_name id) = id.
Proof.
  intros [Hid Hv]. unfold id_of. rewrite record_name_stem by done.
  by rewrite (proj2 (decode_component_spec _ id)).
Qed.

Definition by_id (R : gmap string string) : Records :=
  list_to_map ((λ np, (id_of np.1, np.2)) <$> map_to_list R).

Definition named (R : gmap string string) : Prop :=
  ∀ n p, R !! n = Some p → ∃ id, n = record_name id ∧ id_ok id.

Lemma by_id_keys R : named R → NoDup (((λ np, (id_of np.1, np.2)) <$> map_to_list R).*1).
Proof.
  intros Hn. rewrite <- list_fmap_compose.
  change (NoDup ((id_of ∘ fst) <$> map_to_list R)).
  rewrite (list_fmap_compose fst id_of). apply NoDup_fmap_2_strong; [|apply NoDup_fst_map_to_list].
  intros n m ((n'&p)&->&(id&->&Hid)%elem_of_map_to_list%Hn)%list_elem_of_fmap
    ((m'&q)&->&(jd&->&Hjd)%elem_of_map_to_list%Hn)%list_elem_of_fmap.
  cbn [fst]. by rewrite !id_of_record; [intros ->|..].
Qed.

Lemma by_id_Some R id p :
  named R → by_id R !! id = Some p ↔ id_ok id ∧ R !! record_name id = Some p.
Proof.
  intros Hn. unfold by_id. rewrite <- elem_of_list_to_map by by apply by_id_keys.
  rewrite list_elem_of_fmap. split.
  - intros ([n q]&[= -> ->]&Hin%elem_of_map_to_list). destruct (Hn _ _ Hin) as (jd&->&Hjd).
    simpl. by rewrite id_of_record.
  - intros [Hid Hp]. exists (record_name id, p). simpl. rewrite id_of_record by done.
    split; [done|]. by apply elem_of_map_to_list.
Qed.

Lemma by_id_insert R id p :
  named R → id_ok id → by_id (<[record_name id := p]> R) = <[id := p]> (by_id R).
Proof.
  intros Hn Hid. assert (named (<[record_name id := p]> R)) as Hn'.
  { intros n q [[<- _]|[_ Hq]]%lookup_insert_Some; [by exists id|by eapply Hn]. }
  apply map_eq. intros jd. apply option_eq. intros q. rewrite by_id_Some by done.
  rewrite !lookup_insert_Some, by_id_Some by done.
  split.
  - intros [Hjd [[<-%record_name_inj <-]|[Hne ?]]]; [by left|right]. split; [|done]. by intros ->.
  - intros [[<- <-]|(Hne&?&?)]; [split; [done|by left]|]. split; [done|]. right.
    split; [|done]. by intros ?%record_name_inj.
Qed.

Lemma weight_by_id R : named R → weight (by_id R) = weight R.
Proof.
  intros Hn. unfold weight, by_id. rewrite map_to_list_to_map by by apply by_id_keys.
  induction (map_to_list R) as [|[n p] l IH]; [done|]. csimpl. by rewrite IH.
Qed.

Lemma weight_lookup R n p : R !! n = Some p → String.length p ≤ weight R.
Proof.
  intros Hp%elem_of_map_to_list. unfold weight.
  apply (sum_list_with_in (n, p) (λ np, String.length np.2) _ Hp).
Qed.

(** ** What a directory within its quota loads to *)

Definition blob_of (f : Files) (name : string) : ReplayStoreBlob :=
  {| blob_id := id_of name; payload := default "" (f !! name) |}.

Definition loadable (f : Files) (name : string) : Prop :=
  is_Some (decode_component (file_stem name)) ∧ is_Some (f !! name).

Lemma load_result_Ok f max names total bs :
  load_result f max total names = Ok bs → bs = blob_of f <$> names.
Proof.
  revert total bs. induction names as [|n names IH]; intros total bs; cbn [load_result].
  { by intros [= <-]. }
  unfold blob_of at 1, id_of. csimpl. destruct (decode_component _) as [id|]; [|done].
  destruct (f !! n) as [p|] eqn:Hp; [|done]. destruct (_ <? _)%Z; [done|]. simpl.
  destruct (_ <? _)%Z; [done|]. destruct (load_result _ _ _ _) eqn:Hr; [|done..].
  intros [= <-]. by rewrite (IH _ _ Hr).
Qed.

Lemma load_result_within f max names total :
  (max < u64_max)%Z → (∀ n, n ∈ names → loadable f n) → (Z.of_nat (total + sizes f names) ≤ max)%Z →
  load_result f max (capped total) names = Ok (blob_of f <$> names).
Proof.
  intros Hmax. revert total. induction names as [|n names IH]; intros total Hin Hsum; [done|].
  cbn [load_result]. destruct (Hin n) as [[id Hid] [p Hp]]; [by left|]. rewrite Hid, Hp.
  unfold sizes in Hsum. simpl in Hsum. rewrite Hp in Hsum. simpl in Hsum.
  unfold len_u64. rewrite capped_add.
  replace (max <? Z.of_nat (String.length p))%Z with false by (symmetry; apply Z.ltb_ge; lia).
  simpl. replace (max <? capped (total + String.length p))%Z with false
    by (symmetry; apply Z.ltb_ge; unfold capped; lia).
  rewrite IH; [|intros m Hm; apply Hin; by right|unfold sizes; lia].
  csimpl. unfold blob_of at 2, id_of. by rewrite Hid, Hp.
Qed.

Lemma record_list_loadable f names n :
  record_list f names → named (records_in f) → n ∈ names → loadable (records_in f) n.
Proof.
  intros Hnames Hn Hin. destruct (record_list_elem _ _ _ Hnames Hin) as [p Hp].
  destruct (Hn _ _ Hp) as (id&->&Hid&Hv). split; [|by exists p].
  rewrite record_name_stem by done. by rewrite (proj2 (decode_component_spec _ id)).
Qed.

Lemma sizes_records f names : record_list f names → sizes (records_in f) names = sizes f names.
Proof.
  intros Hnames. assert (∀ n, n ∈ names → records_in f !! n = f !! n) as Hsame.
  { intros n Hin. destruct (record_list_elem _ _ _ Hnames Hin) as [p Hq]. rewrite Hq.
    by apply records_in_Some in Hq as [-> _]. }
  clear Hnames. unfold sizes. induction names as [|n names IH]; [done|]. simpl.
  rewrite Hsame by by left. rewrite IH; [done|]. intros m Hm. apply Hsame. by right.
Qed.

Lemma load_result_records f max names :
  (max < u64_max)%Z → record_list f names → named (records_in f) →
  (Z.of_nat (weight (records_in f)) ≤ max)%Z →
  load_result (records_in f) max 0 names = Ok (blob_of (records_in f) <$> names).
Proof.
  intros Hmax Hnames Hn Hw. change 0%Z with (capped 0). apply load_result_within; [done| |].
  - intros n Hin. by eapply record_list_loadable.
  - cbn [Nat.add]. by rewrite sizes_records, (sizes_weight _ _ Hnames).
Qed.

(** The blobs of a directory are its records. *)
Definition pair_of (blob : ReplayStoreBlob) : string * string := (blob_id blob, payload blob).

Lemma blobs_by_id f names :
  record_list f names → named (records_in f) →
  pair_of <$> (blob_of (records_in f) <$> names) ≡ₚ map_to_list (by_id (records_in f)).
Proof.
  intros Hnames Hn. unfold by_id. rewrite map_to_list_to_map by by apply by_id_keys.
  rewrite Hnames. rewrite <- !list_fmap_compose. apply Permutation_refl'.
  apply list_fmap_ext. intros i [n p] Hin%list_elem_of_lookup_2%elem_of_map_to_list. simpl.
  unfold pair_of, blob_of. simpl. by rewrite Hin.
Qed.

(** ** The contract of a replay store *)

Definition policy_ok (p : ReplayStorePolicy) : Prop := (0 ≤ max_session_bytes p < u64_max)%Z.

(** What a commit answers over the records [m], and the records afterwards. A
    payload beyond the quota on its own may be refused as such first. *)
Definition commit_spec (max : Z) (blob : ReplayStoreBlob) (m m' : Records)
    (r : outcome ReplayStoreErrorCode unit) : Prop :=
  match m !! blob_id blob with
  | Some p =>
      m' = m ∧
      (if p == payload blob then r = Ok tt
       else r = Err Conflict ∨ r = Err QuotaExceeded ∧ (max < len_u64 (payload blob))%Z)
  | None =>
      if (max <? Z.of_nat (weight m) + len_u64 (payload blob))%Z
      then m' = m ∧ r = Err QuotaExceeded
      else m' = <[blob_id blob := payload blob]> m ∧ r = Ok tt
  end.

Class ReplayStoreLaws (S : Type) `{ModelReplayStore S} : Type := {
  usable : S → Prop;
  records : S → string → Records;
  load_law s sid :
    usable s → ∃ s' blobs, load sid s = (s', Ok blobs) ∧ usable s' ∧ policy s' = policy s ∧
      (∀ sid', records s' sid' = records s sid') ∧ pair_of <$> blobs ≡ₚ map_to_list (records s sid);
  commit_law s sid blob :
    usable s → id_ok (blob_id blob) →
    ∃ s' r, commit sid blob s = (s', r) ∧ usable s' ∧ policy s' = policy s ∧
      (∀ sid', sid' ≠ sid → records s' sid' = records s sid') ∧
      commit_spec (max_session_bytes (policy s)) blob (records s sid) (records s' sid) r;
  remove_law s sid ids :
    usable s → ∃ s', remove sid ids s = (s', Ok tt) ∧ usable s' ∧ policy s' = policy s ∧
      (∀ sid', sid' ≠ sid → records s' sid' = records s sid') ∧
      records s' sid = filter (λ ip, ip.1 ∉ ids) (records s sid);
  delete_law s sid :
    usable s → ∃ s', delete_session sid s = (s', Ok tt) ∧ usable s' ∧ policy s' = policy s ∧
      (∀ sid', sid' ≠ sid → records s' sid' = records s sid') ∧ records s' sid = ∅
}.

End replay_laws.
