(* ===== verification/ReplayStoreAgree.v ===== *)
(** Both replay stores keep the contract, so they agree.

    Module [replay_agree] has the store in memory and the file store without
    failing accesses as instances of [ReplayStoreLaws], and that two stores that
    keep the contract answer every sequence of commands alike. *)

From S2P Require Import Prelude RustStr Session Runtime JsonlCodec Jsonl ReplayStore.
From S2P Require Import ReplayStoreOps ReplayStoreLaws.
Import jsonl_codec replay_store replay_files replay_ops replay_laws.

Module replay_agree.

(** ** The file store *)

Section file.
Context {faults : ReplayFaults} {order : jsonl.DirOrder} {pid : ProcessId} {stats : StatsWork}.

(** No access fails. *)
Class NoFaults : Prop := no_faults n : fault n = false.
Context {works : NoFaults}.

Lemma not_faulty : ¬ faulty.
Proof. intros [n Hn]. by rewrite no_faults in Hn. Qed.

Lemma fine_Ok {A} (r : outcome ReplayStoreErrorCode A) P : fine r P → ∃ a, r = Ok a ∧ P a.
Proof. destruct r; simpl; [by eexists| |done]. by intros [_ []%not_faulty]. Qed.

Definition file_records (w : ReplayFs) (sid : string) : Records :=
  by_id (records_in (now (listing_at sid w))).

(** Every directory's records are named after identifiers and within the quota. *)
Definition file_usable (w : ReplayFs) : Prop :=
  policy_ok (fs_policy w) ∧
  ∀ sid, let R := records_in (now (listing_at sid w)) in
    named R ∧ (Z.of_nat (weight R) ≤ max_session_bytes (fs_policy w))%Z.

Lemma file_effect sid w w' (P : Listing → Listing → Prop) R' :
  file_usable w → effect sid w w' P → records_in (now (listing_at sid w')) = R' →
  named R' → (Z.of_nat (weight R') ≤ max_session_bytes (fs_policy w))%Z →
  file_usable w' ∧ fs_policy w' = fs_policy w ∧
  (∀ sid', sid' ≠ sid → file_records w' sid' = file_records w sid') ∧ file_records w' sid = by_id R'.
Proof.
  intros [Hp Hu] (Hpol&Ho&_) HR Hn Hw. split; [|split; [done|split]].
  - split; [by rewrite Hpol|]. intros sid'. rewrite Hpol.
    destruct (decide (sid' = sid)) as [->|Hne]; [by rewrite HR|]. rewrite Ho by done. apply Hu.
  - intros sid' Hne. unfold file_records. by rewrite Ho.
  - unfold file_records. by rewrite HR.
Qed.

Lemma file_load s sid :
  file_usable s → ∃ s' blobs, load_blocking sid s = (s', Ok blobs) ∧ file_usable s' ∧
    fs_policy s' = fs_policy s ∧ (∀ sid', file_records s' sid' = file_records s sid') ∧
    pair_of <$> blobs ≡ₚ map_to_list (file_records s sid).
Proof.
  intros Hu. pose proof (load_effect sid s) as He. destruct (Hu) as [Hp Hu'].
  destruct (Hu' sid) as [Hn Hw]. destruct (load_blocking sid s) as [s' r]. simpl in He.
  pose proof He as (_&_&Hs&names&Hnames&Hr).
  destruct (file_effect _ _ _ _ _ Hu He (still_now _ _ Hs) Hn Hw) as (Hu1&Hp1&Ho1&Hr1).
  destruct Hr as [->|[_ []%not_faulty]].
  rewrite load_result_records by (done || apply Hp).
  eexists _, _. split; [done|]. split; [done|]. split; [done|]. split.
  - intros sid'. destruct (decide (sid' = sid)) as [->|Hne]; [exact Hr1|by apply Ho1].
  - by apply blobs_by_id.
Qed.

Lemma commit_spec_full max blob m :
  (max < u64_max)%Z →
  (max <? runtime.saturating_add (capped (weight m)) (len_u64 (payload blob)))%Z
  = (max <? Z.of_nat (weight m) + len_u64 (payload blob))%Z.
Proof.
  intros Hmax. unfold runtime.saturating_add, capped, len_u64.
  destruct (Z.ltb_spec max (Z.of_nat (weight m) + Z.of_nat (String.length (payload blob))));
    [apply Z.ltb_lt|apply Z.ltb_ge]; lia.
Qed.

Lemma file_commit s sid blob :
  file_usable s → id_ok (blob_id blob) →
  ∃ s' r, commit_blocking sid blob s = (s', r) ∧ file_usable s' ∧ fs_policy s' = fs_policy s ∧
    (∀ sid', sid' ≠ sid → file_records s' sid' = file_records s sid') ∧
    commit_spec (max_session_bytes (fs_policy s)) blob (file_records s sid) (file_records s' sid) r.
Proof.
  intros Hu Hid. pose proof (commit_effect sid blob s Hid) as He. destruct (Hu) as [Hp Hu'].
  destruct (Hu' sid) as [Hn Hw]. destruct (commit_blocking sid blob s) as [s' r]. simpl in He.
  exists s', r. split; [done|]. set (R := records_in (now (listing_at sid s))) in *.
  set (max := max_session_bytes (fs_policy s)) in *. set (id := blob_id blob) in *.
  set (p := payload blob) in *.
  assert (weight (file_records s sid) = weight R) as Hwt by by apply weight_by_id.
  assert (∀ q, file_records s sid !! id = Some q ↔ R !! record_name id = Some q) as Hlook.
  { intros q. unfold file_records. rewrite by_id_Some by done. naive_solver. }
  destruct (max <? len_u64 p)%Z eqn:Hlen.
  { destruct He as [-> ->]. split; [done|]. split; [done|]. split; [done|].
    apply Z.ltb_lt in Hlen. unfold commit_spec. fold id p.
    destruct (file_records s sid !! id) as [q|] eqn:Hq.
    - split; [done|]. case_bool_decide as Hqp; [|by right].
      pose proof (weight_lookup _ _ _ (proj1 (Hlook q) eq_refl)). unfold len_u64 in Hlen.
      subst q. lia.
    - rewrite Hwt. replace (max <? _)%Z with true; [done|]. symmetry. apply Z.ltb_lt.
      unfold len_u64 in *. lia. }
  pose proof He as (_&_&Hc). unfold committed in Hc. fold R id p max in Hc.
  unfold commit_spec. fold id p.
  destruct (R !! record_name id) as [q|] eqn:Hq.
  - destruct Hc as [Hs Hr].
    destruct (file_effect _ _ _ _ _ Hu He (still_now _ _ Hs) Hn Hw) as (?&?&?&Hrec).
    split; [done|]. split; [done|]. split; [done|]. rewrite (proj2 (Hlook q) eq_refl).
    split; [exact Hrec|]. destruct Hr as [->|[_ []%not_faulty]].
    case_bool_decide; [done|by left].
  - assert (file_records s sid !! id = None) as ->.
    { apply eq_None_not_Some. by intros [q' Hq'%Hlook]. }
    pose proof (commit_spec_full max blob (by_id R) ltac:(apply Hp)) as Hfull. fold p in Hfull.
    rewrite Hwt. rewrite weight_by_id in Hfull by done. rewrite Hfull in Hc.
    destruct (max <? Z.of_nat (weight R) + len_u64 p)%Z eqn:Hq'.
    + destruct Hc as [Hs Hr].
      destruct (file_effect _ _ _ _ _ Hu He (still_now _ _ Hs) Hn Hw) as (?&?&?&Hrec).
      split; [done|]. split; [done|]. split; [done|]. split; [exact Hrec|].
      by destruct Hr as [->|[_ []%not_faulty]].
    + destruct Hc as [_ Hr]. apply fine_Ok in Hr as ([]&->&Hnow&Hall).
      pose proof (Hall _ Hnow) as HR'. fold R in HR'.
      destruct (file_effect _ _ _ _ _ Hu He HR') as (?&?&?&Hrec).
      * intros n q [[<- _]|[_ Hq2]]%lookup_insert_Some; [by exists id|by eapply Hn].
      * rewrite weight_insert by done. apply Z.ltb_ge in Hq'. unfold len_u64 in Hq'. lia.
      * split; [done|]. split; [done|]. split; [done|]. split; [|done].
        rewrite Hrec. by apply by_id_insert.
Qed.

Lemma erodes_weight names R R' : erodes names R R' → weight R' ≤ weight R.
Proof.
  intros He. assert (R' ⊆ R) as Hsub.
  { apply map_subseteq_spec. intros n p Hp. destruct (He n) as [<-|[_ Hn]]; [done|congruence]. }
  clear He. revert R Hsub. induction R' as [|n p R' Hn IH] using map_ind; intros R Hsub.
  { unfold weight at 1. rewrite map_to_list_empty. simpl. lia. }
  assert (R !! n = Some p) as HRn.
  { eapply lookup_weaken; [|exact Hsub]. apply lookup_insert_eq. }
  rewrite weight_insert by done. rewrite <- (insert_delete_id R n p) by done.
  rewrite weight_insert by apply lookup_delete_eq. apply Nat.add_le_mono_l, IH.
  apply map_subseteq_spec. intros m q Hq. rewrite lookup_delete_ne.
  - eapply lookup_weaken; [|exact Hsub]. rewrite lookup_insert_ne; [done|]. by intros ->; congruence.
  - intros ->. congruence.
Qed.

Lemma erodes_named names R R' : erodes names R R' → named R → named R'.
Proof. intros He Hn n p Hp. destruct (He n) as [Heq|[_ Hnone]]; [apply (Hn n p)|]; congruence. Qed.

(** A removal that answers [Ok] without failing accesses. *)
Lemma file_removed sid w w' names r :
  file_usable w → effect sid w w' (λ l l', removed names l l' r) →
  r = Ok tt ∧ file_usable w' ∧ fs_policy w' = fs_policy w ∧
  (∀ sid', sid' ≠ sid → file_records w' sid' = file_records w sid') ∧
  ∃ R', file_records w' sid = by_id R' ∧ named R' ∧
    ∀ n, (names n → R' !! n = None) ∧
         (¬ names n → R' !! n = records_in (now (listing_at sid w)) !! n) ∧
         (∀ p, R' !! n = Some p → records_in (now (listing_at sid w)) !! n = Some p).
Proof.
  intros Hu He. pose proof He as (_&_&[_ Hev]&Hr). apply fine_Ok in Hr as ([]&->&Hgone).
  destruct (Hu) as [_ Hu']. destruct (Hu' sid) as [Hn Hw].
  destruct (file_effect _ _ _ _ _ Hu He eq_refl) as (?&?&?&Hrec).
  { by eapply erodes_named. }
  { apply erodes_weight in Hev. lia. }
  do 4 (split; [done|]). eexists. split; [exact Hrec|]. split; [by eapply erodes_named|].
  intros n. destruct (Hev n) as [Heq|[Hnm Hnone]].
  - split; [|split]; [|done|by rewrite Heq]. intros Hnm. apply Hgone; [apply now_in_listings|done].
  - split; [done|]. split; [done|]. intros p Hp. congruence.
Qed.

Lemma file_remove s sid ids :
  file_usable s → ∃ s', remove_blocking sid ids s = (s', Ok tt) ∧ file_usable s' ∧
    fs_policy s' = fs_policy s ∧
    (∀ sid', sid' ≠ sid → file_records s' sid' = file_records s sid') ∧
    file_records s' sid = filter (λ ip, ip.1 ∉ ids) (file_records s sid).
Proof.
  intros Hu. pose proof (remove_effect sid ids s) as He. destruct (remove_blocking sid ids s) as [s' r].
  simpl in He. destruct (file_removed _ _ _ _ _ Hu He) as (->&?&?&?&R'&Hrec&Hn'&HR').
  exists s'. do 4 (split; [done|]). rewrite Hrec. apply map_eq. intros id. apply option_eq. intros p.
  destruct (Hu) as [_ Hu']. destruct (Hu' sid) as [Hn _].
  rewrite map_lookup_filter_Some, by_id_Some by done. unfold file_records. rewrite by_id_Some by done.
  destruct (HR' (record_name id)) as (Hin&Hout&Hsub). simpl.
  assert (record_name id ∈ record_name <$> ids ↔ id ∈ ids) as Hiff.
  { rewrite list_elem_of_fmap. split; [by intros (?&?%record_name_inj&?); subst|by exists id]. }
  destruct (decide (id ∈ ids)) as [Hid|Hid].
  - rewrite Hin by by apply Hiff. naive_solver.
  - rewrite Hout by by rewrite Hiff. naive_solver.
Qed.

Lemma file_delete s sid :
  file_usable s → ∃ s', delete_session_blocking sid s = (s', Ok tt) ∧ file_usable s' ∧
    fs_policy s' = fs_policy s ∧
    (∀ sid', sid' ≠ sid → file_records s' sid' = file_records s sid') ∧ file_records s' sid = ∅.
Proof.
  intros Hu. pose proof (delete_effect sid s) as He. destruct (delete_session_blocking sid s) as [s' r].
  simpl in He. destruct (file_removed _ _ _ _ _ Hu He) as (->&?&?&?&R'&Hrec&Hn'&HR').
  exists s'. do 4 (split; [done|]). rewrite Hrec. apply map_empty. intros id.
  apply eq_None_not_Some. intros [p [_ Hp]%by_id_Some]; [|done].
  by rewrite (proj1 (HR' _) I) in Hp.
Qed.

#[export] Instance file_store_laws : ReplayStoreLaws ReplayFs := {
  usable := file_usable;
  records := file_records;
  load_law := file_load;
  commit_law := file_commit;
  remove_law := file_remove;
  delete_law := file_delete
}.
End file.

(** ** The store in memory *)

Definition pairs (records : list ReplayStoreBlob) : list (string * string) := pair_of <$> records.

Definition memory_records (s : MemoryModelReplayStore) (sid : string) : Records :=
  list_to_map (pairs (default [] (mem_sessions s !! sid))).

Definition memory_usable (s : MemoryModelReplayStore) : Prop :=
  mem_poisoned s = false ∧ policy_ok (mem_policy s) ∧
  ∀ sid, NoDup (blob_id <$> default [] (mem_sessions s !! sid)).

Lemma pairs_keys l : (pairs l).*1 = blob_id <$> l.
Proof. unfold pairs. by rewrite <- list_fmap_compose. Qed.

Lemma total_len_capped l :
  total_len l = capped (sum_list_with (λ b, String.length (payload b)) l).
Proof.
  assert (∀ n, foldl (λ total record, runtime.saturating_add total (len_u64 (payload record)))
    (capped n) l = capped (n + sum_list_with (λ b, String.length (payload b)) l)) as H.
  { induction l as [|b l IH]; intros n; simpl; [by rewrite Nat.add_0_r|].
    unfold len_u64 at 2. rewrite capped_add, IH. f_equal. lia. }
  exact (H 0).
Qed.

Lemma weight_pairs l :
  NoDup (blob_id <$> l) →
  weight (list_to_map (pairs l)) = sum_list_with (λ b, String.length (payload b)) l.
Proof.
  intros Hn. unfold weight. rewrite map_to_list_to_map by by rewrite pairs_keys.
  unfold pairs. induction l as [|b l IH]; [done|]. csimpl. rewrite IH; [done|].
  by apply NoDup_cons in Hn as [_ ?].
Qed.

Lemma pairs_lookup l id p :
  NoDup (blob_id <$> l) →
  (list_to_map (pairs l) : Records) !! id = Some p ↔ {| blob_id := id; payload := p |} ∈ l.
Proof.
  intros Hn. rewrite <- elem_of_list_to_map by by rewrite pairs_keys.
  unfold pairs. rewrite list_elem_of_fmap. split.
  - intros ([id' p']&[= -> ->]&?). done.
  - intros Hin. by exists {| blob_id := id; payload := p |}.
Qed.

Lemma find_blob l id :
  match find_map (λ r, if blob_id r == id then Some r else None) l with
  | Some r => r ∈ l ∧ blob_id r = id
  | None => ∀ r, r ∈ l → blob_id r ≠ id
  end.
Proof.
  destruct (find_map _ l) as [r|] eqn:Hf.
  - apply find_map_Some in Hf as (r'&?&Hr). case_bool_decide; by simplify_eq.
  - intros r Hr. apply find_map_None in Hf. rewrite Forall_forall in Hf. specialize (Hf r Hr).
    by case_bool_decide.
Qed.

Lemma memory_set s sid l :
  memory_usable s → NoDup (blob_id <$> l) →
  let s' := set_mem_sessions (<[sid := l]> (mem_sessions s)) s in
  memory_usable s' ∧ (∀ sid', sid' ≠ sid → memory_records s' sid' = memory_records s sid') ∧
  memory_records s' sid = list_to_map (pairs l).
Proof.
  intros (?&?&Hn) Hl s'. split; [|split].
  - split; [done|]. split; [done|]. intros sid'. simpl. destruct (decide (sid = sid')) as [<-|Hne].
    + by rewrite lookup_insert_eq.
    + by rewrite lookup_insert_ne.
  - intros sid' Hne. unfold memory_records. simpl. by rewrite lookup_insert_ne.
  - unfold memory_records. simpl. by rewrite lookup_insert_eq.
Qed.

Lemma memory_load s sid :
  memory_usable s → ∃ s' blobs, load_sync sid s = (s', Ok blobs) ∧ memory_usable s' ∧
    mem_policy s' = mem_policy s ∧ (∀ sid', memory_records s' sid' = memory_records s sid') ∧
    pair_of <$> blobs ≡ₚ map_to_list (memory_records s sid).
Proof.
  intros (Hpo&Hp&Hn). unfold load_sync, locked. rewrite Hpo. eexists _, _. split; [done|].
  split; [done|]. split; [done|]. split; [done|].
  unfold memory_records. rewrite map_to_list_to_map; [done|]. by rewrite pairs_keys.
Qed.

Lemma memory_commit s sid blob :
  memory_usable s → id_ok (blob_id blob) →
  ∃ s' r, commit_sync sid blob s = (s', r) ∧ memory_usable s' ∧ mem_policy s' = mem_policy s ∧
    (∀ sid', sid' ≠ sid → memory_records s' sid' = memory_records s sid') ∧
    commit_spec (max_session_bytes (mem_policy s)) blob (memory_records s sid)
      (memory_records s' sid) r.
Proof.
  intros Hu _. pose proof Hu as (Hpo&Hp&Hn). unfold commit_sync, locked. rewrite Hpo.
  set (l := default [] (mem_sessions s !! sid)). pose proof (Hn sid) as Hl. fold l in Hl.
  pose proof (find_blob l (blob_id blob)) as Hf.
  unfold commit_spec. fold (pair_of).
  assert (∀ q, memory_records s sid !! blob_id blob = Some q ↔
    {| blob_id := blob_id blob; payload := q |} ∈ l) as Hlook by (intros q; by apply pairs_lookup).
  destruct (find_map _ l) as [existing|] eqn:Hfind.
  - destruct Hf as [Hin Hid]. eexists _, _. split; [done|].
    destruct (memory_set s sid l Hu Hl) as (?&?&Hrec). split; [done|]. split; [done|]. split; [done|].
    rewrite (proj2 (Hlook (payload existing))) by (rewrite <- Hid; by destruct existing).
    split; [exact Hrec|]. case_bool_decide; [done|by left].
  - assert (memory_records s sid !! blob_id blob = None) as ->.
    { apply eq_None_not_Some. intros [q Hq%Hlook%Hf]. done. }
    rewrite total_len_capped, <- weight_pairs by done.
    fold (memory_records s sid). rewrite commit_spec_full by apply Hp.
    destruct (_ <? _)%Z eqn:Hfull.
    + eexists _, _. split; [done|]. destruct (memory_set s sid l Hu Hl) as (?&?&Hrec). done.
    + eexists _, _. split; [done|]. rewrite insert_insert_eq.
      assert (NoDup (blob_id <$> l ++ [blob])) as Hl'.
      { rewrite fmap_app. apply NoDup_app. split; [done|]. split; [|by apply NoDup_singleton].
        intros id (r&->&Hr)%list_elem_of_fmap Heq%list_elem_of_singleton. by apply (Hf r). }
      destruct (memory_set s sid _ Hu Hl') as (?&?&Hrec). do 3 (split; [done|]). split; [|done].
      rewrite Hrec. apply map_eq. intros id. apply option_eq. intros q.
      rewrite pairs_lookup by done. rewrite elem_of_app, list_elem_of_singleton, lookup_insert_Some.
      unfold memory_records. rewrite pairs_lookup by done. fold l. split.
      * intros [Hin| <-]; [right; split; [|done]|by left]. by intros Heq; apply (Hf _ Hin).
      * intros [[<- <-]|[_ ?]]; [right; by destruct blob|by left].
Qed.

Lemma memory_remove s sid ids :
  memory_usable s → ∃ s', remove_sync sid ids s = (s', Ok tt) ∧ memory_usable s' ∧
    mem_policy s' = mem_policy s ∧
    (∀ sid', sid' ≠ sid → memory_records s' sid' = memory_records s sid') ∧
    memory_records s' sid = filter (λ ip, ip.1 ∉ ids) (memory_records s sid).
Proof.
  intros Hu. pose proof Hu as (Hpo&Hp&Hn). unfold remove_sync, locked. rewrite Hpo.
  eexists. split; [done|]. pose proof (Hn sid) as Hl.
  destruct (mem_sessions s !! sid) as [l|] eqn:Hs; simpl in Hl.
  - assert (NoDup (blob_id <$> filter (λ r, blob_id r ∉ ids) l)) as Hl'.
    { eapply sublist_NoDup; [exact Hl|]. apply fmap_sublist, sublist_filter. }
    destruct (memory_set s sid _ Hu Hl') as (?&?&Hrec). do 3 (split; [done|]).
    rewrite Hrec. apply map_eq. intros id. apply option_eq. intros q.
    rewrite map_lookup_filter_Some, !pairs_lookup by (try done; by rewrite Hs).
    unfold memory_records. rewrite pairs_lookup by by rewrite Hs. rewrite Hs. simpl.
    rewrite list_elem_of_filter. simpl. naive_solver.
  - split; [by destruct s|]. split; [done|]. split; [done|].
    unfold memory_records. simpl. rewrite Hs. simpl. symmetry. apply map_filter_empty.
Qed.

Lemma memory_delete s sid :
  memory_usable s → ∃ s', delete_session_sync sid s = (s', Ok tt) ∧ memory_usable s' ∧
    mem_policy s' = mem_policy s ∧
    (∀ sid', sid' ≠ sid → memory_records s' sid' = memory_records s sid') ∧
    memory_records s' sid = ∅.
Proof.
  intros (Hpo&Hp&Hn). unfold delete_session_sync, locked. rewrite Hpo.
  eexists. split; [done|]. split; [|split; [done|]].
  - split; [done|]. split; [done|]. intros sid'. simpl. destruct (decide (sid = sid')) as [<-|Hne].
    + rewrite lookup_delete_eq. apply NoDup_nil_2.
    + by rewrite lookup_delete_ne.
  - unfold memory_records. simpl. split; [|by rewrite lookup_delete_eq].
    intros sid' Hne. by rewrite lookup_delete_ne.
Qed.

#[export] Instance memory_store_laws : ReplayStoreLaws MemoryModelReplayStore := {
  usable := memory_usable;
  records := memory_records;
  load_law := memory_load;
  commit_law := memory_commit;
  remove_law := memory_remove;
  delete_law := memory_delete
}.

(** ** Agreement *)

Section agree.
Context {S} `{ReplayStoreLaws S}.

Definition serve (command : ReplayCommand) (s : S) : S * ReplayReply :=
  match command with
  | CmdLoad sid => let '(s, r) := load sid s in (s, ReplyLoad r)
  | CmdCommit sid blob => let '(s, r) := commit sid blob s in (s, ReplyUnit r)
  | CmdRemove sid ids => let '(s, r) := remove sid ids s in (s, ReplyUnit r)
  | CmdDeleteSession sid => let '(s, r) := delete_session sid s in (s, ReplyUnit r)
  | CmdShutdown => (s, ReplyShutdown)
  end.

Fixpoint serve_all (commands : list ReplayCommand) (s : S) : list ReplayReply :=
  match commands with
  | [] => []
  | command :: commands =>
      let '(s, reply) := serve command s in reply :: serve_all commands s
  end.
End agree.

(** Equal answers, loads up to the order of their blobs. *)
Definition same_reply (r r' : ReplayReply) : Prop :=
  match r, r' with
  | ReplyLoad (Ok bs), ReplyLoad (Ok bs') => bs ≡ₚ bs'
  | _, _ => r = r'
  end.

(** A blob with an identifier, and small enough on its own. *)
Definition command_ok (p : ReplayStorePolicy) (command : ReplayCommand) : Prop :=
  match command with
  | CmdCommit _ blob => id_ok (blob_id blob) ∧ (len_u64 (payload blob) ≤ max_session_bytes p)%Z
  | _ => True
  end.

Lemma pairs_permutation bs bs' (m : Records) :
  pair_of <$> bs ≡ₚ map_to_list m → pair_of <$> bs' ≡ₚ map_to_list m → bs ≡ₚ bs'.
Proof.
  intros H H'. assert (pair_of <$> bs ≡ₚ pair_of <$> bs') as Hp by by rewrite H, H'.
  apply (fmap_Permutation (λ ip, {| blob_id := ip.1; payload := ip.2 |})) in Hp.
  assert (∀ l : list ReplayStoreBlob, (λ ip : string * string, {| blob_id := ip.1; payload := ip.2 |}) <$> (pair_of <$> l) = l)
    as Hid by (intros l; induction l as [|[] l IH]; [done|csimpl; by rewrite IH]).
  by rewrite !Hid in Hp.
Qed.

Section two_stores.
Context {S T} `{!ModelReplayStore S} {LS : ReplayStoreLaws S} `{!ModelReplayStore T} {LT : ReplayStoreLaws T}.

(** Two stores with the same records under the same policy. *)
Definition alike (s : S) (t : T) : Prop :=
  usable s ∧ usable t ∧ policy s = policy t ∧ ∀ sid, records s sid = records t sid.

Lemma commit_spec_det max blob m m1 m2 r1 r2 :
  (len_u64 (payload blob) ≤ max)%Z →
  commit_spec max blob m m1 r1 → commit_spec max blob m m2 r2 → m1 = m2 ∧ r1 = r2.
Proof.
  intros Hlen. unfold commit_spec. destruct (m !! _).
  - intros [-> H1] [-> H2]. split; [done|]. case_bool_decide; [congruence|].
    destruct H1 as [->|[_ ?]]; [|lia]. destruct H2 as [->|[_ ?]]; [done|lia].
  - destruct (_ <? _)%Z; by intros [-> ->] [-> ->].
Qed.

Lemma serve_alike command s t :
  alike s t → command_ok (policy s) command →
  alike (serve command s).1 (serve command t).1 ∧
  policy (serve command s).1 = policy s ∧
  same_reply (serve command s).2 (serve command t).2.
Proof.
  intros (Hs&Ht&Hp&Hr) Hok.
  assert (∀ s' t' sid, usable s' → usable t' → policy s' = policy s → policy t' = policy t →
    (∀ sid', sid' ≠ sid → records s' sid' = records s sid') →
    (∀ sid', sid' ≠ sid → records t' sid' = records t sid') →
    records s' sid = records t' sid → alike s' t') as Hmk.
  { intros s' t' sid ?? H1 H2 Hs' Ht' Heq. split; [done|]. split; [done|]. split; [congruence|].
    intros sid'. destruct (decide (sid' = sid)) as [->|Hne]; [done|]. by rewrite Hs', Ht', Hr. }
  destruct command as [sid|sid blob|sid ids|sid|]; simpl.
  - destruct (load_law s sid Hs) as (s'&bs&->&?&?&Hrs&Hb).
    destruct (load_law t sid Ht) as (t'&bs'&->&?&?&Hrt&Hb'). simpl. split; [|split; [done|]].
    + apply (Hmk _ _ sid); try done. by rewrite Hrs, Hrt.
    + rewrite <- Hr in Hb'. by eapply pairs_permutation.
  - destruct Hok as [Hid Hlen].
    destruct (commit_law s sid blob Hs Hid) as (s'&r&->&?&?&Hos&Hcs).
    destruct (commit_law t sid blob Ht Hid) as (t'&r'&->&?&?&Hot&Hct). simpl.
    rewrite <- Hp, <- Hr in Hct. destruct (commit_spec_det _ _ _ _ _ _ _ Hlen Hcs Hct) as [Heq ->].
    split; [|split; [done|done]]. by apply (Hmk _ _ sid).
  - destruct (remove_law s sid ids Hs) as (s'&->&?&?&Hos&Hcs).
    destruct (remove_law t sid ids Ht) as (t'&->&?&?&Hot&Hct). simpl.
    split; [|split; [done|done]]. apply (Hmk _ _ sid); try done. by rewrite Hcs, Hct, Hr.
  - destruct (delete_law s sid Hs) as (s'&->&?&?&Hos&Hcs).
    destruct (delete_law t sid Ht) as (t'&->&?&?&Hot&Hct). simpl.
    split; [|split; [done|done]]. apply (Hmk _ _ sid); try done. by rewrite Hcs, Hct.
  - split; [|done]. by split.
Qed.

Lemma serve_all_alike commands s t :
  alike s t → Forall (command_ok (policy s)) commands →
  Forall2 same_reply (serve_all commands s) (serve_all commands t).
Proof.
  revert s t. induction commands as [|command commands IH]; intros s t Ha Hok; [constructor|].
  apply Forall_cons in Hok as [Hc Hok]. destruct (serve_alike command s t Ha Hc) as (Ha'&Hp&Hr).
  cbn [serve_all]. destruct (serve command s) as [s' r], (serve command t) as [t' r'].
  constructor; [done|]. apply IH; [done|]. simpl in Hp. by rewrite Hp.
Qed.
End two_stores.

Section agreement.
Context {faults : ReplayFaults} {order : jsonl.DirOrder} {pid : ProcessId}.
Context {stats : StatsWork} {works : NoFaults}.

Lemma new_stores_alike p :
  policy_ok p →
  alike (memory_new p) (fs_new p).
Proof.
  intros Hp. assert (∀ sid, by_id (records_in (now (listing_at sid (fs_new p)))) = ∅) as Hempty.
  { intros sid. unfold listing_at, sidecar. simpl. rewrite lookup_empty. simpl.
    unfold by_id. by rewrite empty_records, map_to_list_empty. }
  split; [|split; [|split; [done|]]].
  - split; [done|]. split; [done|]. intros sid. simpl. rewrite lookup_empty. apply NoDup_nil_2.
  - split; [done|]. intros sid. unfold listing_at, sidecar. simpl. rewrite lookup_empty. simpl.
    rewrite empty_records. split; [by intros n q ?|]. unfold weight. rewrite map_to_list_empty.
    simpl. apply Hp.
  - intros sid. simpl. unfold file_records. rewrite Hempty. unfold memory_records. simpl.
    by rewrite lookup_empty.
Qed.

(** The store in files and the store in memory are interchangeable: on
    every sequence of commands, while no access of the file system fails, both
    give the same answers - the same blobs, the same conflicts and the same
    refusals for the quota - loads up to the order of the blobs. *)
Theorem replay_stores_agree p commands :
  policy_ok p → Forall (command_ok p) commands →
  Forall2 same_reply (serve_all commands (memory_new p)) (serve_all commands (fs_new p)).
Proof.
  intros Hp Hok. apply serve_all_alike; [by apply new_stores_alike|done].
Qed.
End agreement.
End replay_agree.
