(* ===== verification/ReplayStoreLife.v ===== *)
(** The lives of the file sidecar: commands under failing accesses, restarts and
    power losses.

    Module [replay_life] has the lives of a store, the ledger of what it
    acknowledged, and what a life keeps: acknowledged records, whole records,
    the quota. The name of a sidecar directory itself is taken to survive a
    power loss, though no operation syncs the directory that holds it.

    What a replay sidecar can hold: nothing but what was handed to it
    (src/crates/philo-model/src/replay.rs).

    Module [replay_trust] states it as an interface, [OfferedStore], which the
    store in memory and the store in files satisfy, whatever accesses fail,
    through restarts and power losses. *)

From S2P Require Import Prelude RustStr Session Runtime JsonlCodec Jsonl ReplayStore.
From S2P Require Import ReplayStoreOps ReplayStoreLaws ReplayStoreAgree.
Import jsonl_codec replay_store replay_files replay_ops replay_laws replay_agree.

Module replay_life.

(** ** Lives *)

(** A new process finds the same directories. *)
Definition restarted (w w' : ReplayFs) : Prop :=
  fs_policy w' = fs_policy w ∧ dirs w' = dirs w.

(** Each record is as in some listing since the last sync. *)
Definition listing_lost (l l' : Listing) : Prop :=
  since l' = [] ∧
  ∀ n, extension n = Some "replay" → ∃ f, f ∈ listings l ∧ synced l' !! n = f !! n.

Definition power_loss (w w' : ReplayFs) : Prop :=
  fs_policy w' = fs_policy w ∧
  ∀ name, match sidecar name w, sidecar name w' with
          | Some l, Some l' => listing_lost l l'
          | None, None => True
          | _, _ => False
          end.

Definition valid_command (command : ReplayCommand) : Prop :=
  match command with CmdCommit _ blob => id_ok (blob_id blob) | _ => True end.

Abbreviation History := (list (ReplayCommand * ReplayReply)).

(** A store from empty directories on, with the commands and their answers. A
    crash in the middle of a command is a command all of whose later accesses
    fail, and then a restart; power is lost only if [loss]. *)
Inductive life (loss : bool) (p : ReplayStorePolicy) : History → ReplayFs → Prop :=
| life_new : life loss p [] (fs_new p)
| life_command h w (faults : ReplayFaults) (order : jsonl.DirOrder) (pid : ProcessId)
    command w' reply :
    life loss p h w → StatsWork → valid_command command → dispatch command w = (w', reply) →
    life loss p (h ++ [(command, reply)]) w'
| life_restart h w w' : life loss p h w → restarted w w' → life loss p h w'
| life_power_loss h w w' :
    loss = true → life loss p h w → power_loss w w' → life loss p h w'.

(** ** The ledger *)

(** What is acknowledged and was not given up since; and, where power may be
    lost, the records an operation that failed has left in doubt. *)
Record Ledger : Type := {
  kept : string → string → option string;
  doubtful : string → string → bool
}.
Definition ledger_new : Ledger := {| kept := λ _ _, None; doubtful := λ _ _, false |}.

(** The ledger without the records of [sid] that satisfy [gone]. *)
Definition abandon (sid : string) (gone : string → bool) (doubt : bool) (L : Ledger) : Ledger :=
  {| kept := λ s id, if (s == sid) && gone id then None else kept L s id;
     doubtful := λ s id, if (s == sid) && gone id then doubt else doubtful L s id |}.

Definition is_Ok {E A} (r : outcome E A) : bool := match r with Ok _ => true | _ => false end.

Definition note (loss : bool) (L : Ledger) (entry : ReplayCommand * ReplayReply) : Ledger :=
  match entry with
  | (CmdCommit sid blob, ReplyUnit (Ok _)) =>
      if loss && doubtful L sid (blob_id blob) then L
      else {| kept := λ s id, if (s == sid) && (id == blob_id blob) then Some (payload blob)
                              else kept L s id;
              doubtful := doubtful L |}
  | (CmdCommit sid blob, ReplyUnit (Err Io)) =>
      {| kept := kept L;
         doubtful := λ s id, ((s == sid) && (id == blob_id blob)) || doubtful L s id |}
  | (CmdRemove sid ids, ReplyUnit r) =>
      abandon sid (λ id, bool_decide (id ∈ ids)) (negb (is_Ok r)) L
  | (CmdDeleteSession sid, ReplyUnit r) => abandon sid (λ _, true) (negb (is_Ok r)) L
  | _ => L
  end.

Definition ledger (loss : bool) (h : History) : Ledger := foldl (note loss) ledger_new h.

Lemma ledger_snoc loss h entry : ledger loss (h ++ [entry]) = note loss (ledger loss h) entry.
Proof. unfold ledger. by rewrite foldl_app. Qed.

(** The blob was handed to the store. *)
Definition offered (h : History) (sid id p : string) : Prop :=
  ∃ r, (CmdCommit sid {| blob_id := id; payload := p |}, r) ∈ h.

(** ** The invariant of a directory *)

Section directory.
Context (loss : bool).

Record dir_inv (off : string → string → Prop) (K : string → option string)
    (doubt : string → bool) (l : Listing) : Prop := {
  di_named f : f ∈ listings l → named (records_in f);
  di_offered f id p :
    f ∈ listings l → records_in f !! record_name id = Some p → off id p;
  di_kept id p : K id = Some p → records_in (now l) !! record_name id = Some p;
  di_kept_all id p f :
    loss = true → K id = Some p → f ∈ listings l → records_in f !! record_name id = Some p;
  di_settled id p f :
    loss = true → doubt id = false → records_in (now l) !! record_name id = Some p →
    f ∈ listings l → records_in f !! record_name id = Some p
}.

Lemma dir_inv_weaken (off off' : string → string → Prop) K doubt l :
  (∀ id p, off id p → off' id p) → dir_inv off K doubt l → dir_inv off' K doubt l.
Proof. intros Ho []. split; eauto. Qed.

(** Some records of [names] are removed. *)
Lemma dir_inv_evolves off (K K' : string → option string) (doubt doubt' : string → bool) names l l' :
  dir_inv off K doubt l → evolves names l l' →
  (∀ id p, K' id = Some p → K id = Some p ∧ ¬ names (record_name id)) →
  (∀ id, doubt' id = false →
    doubt id = false ∧ ¬ names (record_name id) ∨
    ∀ f, f ∈ listings l' → records_in f !! record_name id = None) →
  dir_inv off K' doubt' l'.
Proof.
  intros [Hn Ho Hk Ha Hs] [He He'] HK Hd.
  assert (∀ id r r', erodes names r r' → ¬ names (record_name id) →
    r' !! record_name id = r !! record_name id) as Hother.
  { intros id r r' Her Hnm. by destruct (Her (record_name id)) as [?|[? ?]]. }
  split.
  - intros f' (f&Hf&Her)%He. eapply erodes_named; [exact Her|by apply Hn].
  - intros f' id p (f&Hf&Her)%He Hp. apply (Ho f); [done|].
    destruct (Her (record_name id)) as [Heq|[_ Hnone]]; congruence.
  - intros id p [HKid Hnm]%HK. rewrite (Hother _ _ _ He') by done. by apply Hk.
  - intros id p f' Hl [HKid Hnm]%HK (f&Hf&Her)%He. rewrite (Hother _ _ _ Her) by done.
    by eapply Ha.
  - intros id p f' Hl Hdid Hp Hf'. destruct (Hd id Hdid) as [[Hdo Hnm]|Hgone].
    + pose proof Hf' as (f&Hf&Her)%He. rewrite (Hother _ _ _ Her) by done.
      rewrite (Hother _ _ _ He') in Hp by done. by eapply Hs.
    + rewrite Hgone in Hp; [done|apply now_in_listings].
Qed.

Lemma dir_inv_still off K doubt (doubt' : string → bool) l l' :
  dir_inv off K doubt l → still l l' → (∀ id, doubt' id = false → doubt id = false) →
  dir_inv off K doubt' l'.
Proof.
  intros HI He Hd. eapply dir_inv_evolves; [exact HI|exact He| |].
  - intros id p HK. by split; [|intros []].
  - intros id Hid. left. by split; [apply Hd|intros []].
Qed.

(** A new record may have come in. *)
Lemma dir_inv_grown (off : string → string → Prop) K doubt (doubt' : string → bool) id p l l' :
  dir_inv off K doubt l → grown id p l l' → off id p → id_ok id →
  records_in (now l) !! record_name id = None →
  doubt' id = true → (∀ jd, doubt' jd = false → doubt jd = false) →
  dir_inv off K doubt' l'.
Proof.
  intros HI [Hg Hg'] Hoff Hid Hnone Hdid Hd. pose proof HI as [Hn Ho Hk Ha Hs].
  pose proof (now_in_listings l) as Hnow.
  assert (∀ jd q, K jd = Some q → jd ≠ id) as HKne by (intros jd q Hq%Hk ->; congruence).
  split.
  - intros f' [(f&Hf&->)| ->]%Hg; [by apply Hn|].
    intros n q [[<- _]|[_ Hq]]%lookup_insert_Some; [by exists id|by apply (Hn _ Hnow n q)].
  - intros f' jd q [(f&Hf&->)| ->]%Hg; [by apply Ho|].
    intros [[<-%record_name_inj <-]|[_ Hq]]%lookup_insert_Some; [done|by apply (Ho _ _ _ Hnow)].
  - intros jd q HK. pose proof (HKne _ _ HK). destruct Hg' as [->| ->]; [by apply Hk|].
    rewrite lookup_insert_ne; [by apply Hk|]. by intros ?%record_name_inj.
  - intros jd q f' Hl HK [(f&Hf&->)| ->]%Hg; [by eapply Ha|]. pose proof (HKne _ _ HK).
    rewrite lookup_insert_ne; [by apply Hk|]. by intros ?%record_name_inj.
  - intros jd q f' Hl Hdj Hq Hf'. assert (jd ≠ id) as Hne by congruence.
    assert (record_name id ≠ record_name jd) as Hne' by by intros ?%record_name_inj.
    assert (records_in (now l) !! record_name jd = Some q) as Hq'.
    { destruct Hg' as [Hg'|Hg']; rewrite Hg' in Hq; [done|]. by rewrite lookup_insert_ne in Hq. }
    apply Hg in Hf' as [(f&Hf&->)| ->]; [by eapply Hs; eauto|]. by rewrite lookup_insert_ne.
Qed.

(** A new record is in. *)
Lemma dir_inv_synced (off : string → string → Prop) (K K' : string → option string)
    (doubt doubt' : string → bool) id p l l' :
  dir_inv off K doubt l → in_sync id p l l' → off id p → id_ok id →
  (∀ jd q, K' jd = Some q → if decide (jd = id) then q = p else K jd = Some q) →
  dir_inv off K' doubt' l'.
Proof.
  intros [Hn Ho Hk Ha Hs] [Hnow Hall] Hoff Hid HK. pose proof (now_in_listings l) as Hin.
  assert (∀ f' jd q, f' ∈ listings l' → K' jd = Some q → records_in f' !! record_name jd = Some q)
    as Hkept.
  { intros f' jd q ->%Hall Hq%HK. case_decide as Hj.
    - subst. apply lookup_insert_eq.
    - rewrite lookup_insert_ne; [by apply Hk|]. by intros ?%record_name_inj. }
  split.
  - intros f' ->%Hall n q [[<- _]|[_ Hq]]%lookup_insert_Some; [by exists id|by apply (Hn _ Hin n q)].
  - intros f' jd q ->%Hall [[<-%record_name_inj <-]|[_ Hq]]%lookup_insert_Some; [done|].
    by apply (Ho _ _ _ Hin).
  - intros jd q HKj. by apply Hkept.
  - intros jd q f' _ HKj Hf'. by apply Hkept.
  - intros jd q f' _ _ Hq Hf'. rewrite (Hall _ Hf'), <- (Hall _ Hnow). exact Hq.
Qed.

Lemma dir_inv_lost off K doubt l l' :
  loss = true → dir_inv off K doubt l → listing_lost l l' → dir_inv off K doubt l'.
Proof.
  intros Hl [Hn Ho Hk Ha Hs] [Hsince Hfrom].
  assert (∀ f', f' ∈ listings l' → f' = synced l') as Hone.
  { intros f'. unfold listings. rewrite Hsince. by intros ?%list_elem_of_singleton. }
  assert (now l' = synced l') as Hnow by (apply Hone, now_in_listings).
  assert (∀ id p, records_in (synced l') !! record_name id = Some p →
    ∃ f, f ∈ listings l ∧ records_in f !! record_name id = Some p) as Hback.
  { intros id p [Hp Hext]%records_in_Some. destruct (Hfrom _ Hext) as (f&Hf&Heq).
    exists f. split; [done|]. apply records_in_Some. by rewrite <- Heq. }
  assert (∀ id p, K id = Some p → records_in (synced l') !! record_name id = Some p) as Hkept.
  { intros id p HK. pose proof (Hk _ _ HK) as [_ Hext]%records_in_Some.
    destruct (Hfrom _ Hext) as (f&Hf&Heq). apply records_in_Some. rewrite Heq. split; [|done].
    pose proof (Ha _ _ _ Hl HK Hf) as [? _]%records_in_Some. done. }
  split.
  - intros f' ->%Hone n p [Hp Hext]%records_in_Some. destruct (Hfrom _ Hext) as (f&Hf&Heq).
    apply (Hn f Hf n p). apply records_in_Some. by rewrite <- Heq.
  - intros f' id p ->%Hone (f&Hf&Hp)%Hback. by eapply Ho.
  - intros id p HK. rewrite Hnow. by apply Hkept.
  - intros id p f' _ HK ->%Hone. by apply Hkept.
  - intros id p f' _ _ Hp ->%Hone. by rewrite <- Hnow.
Qed.
End directory.

(** ** The invariant of a life *)

Definition life_inv (loss : bool) (h : History) (w : ReplayFs) : Prop :=
  ∀ sid, dir_inv loss (offered h sid) (kept (ledger loss h) sid) (doubtful (ledger loss h) sid)
           (listing_at sid w).

Lemma offered_snoc h entry sid id p : offered h sid id p → offered (h ++ [entry]) sid id p.
Proof. intros [r Hr]. exists r. apply elem_of_app. by left. Qed.

(** A command on [sid] leaves the other sessions as they were. *)
Lemma life_inv_step loss h w w' sid entry P :
  life_inv loss h w → effect sid w w' P →
  (∀ s id, s ≠ sid → kept (note loss (ledger loss h) entry) s id = kept (ledger loss h) s id ∧
     doubtful (note loss (ledger loss h) entry) s id = doubtful (ledger loss h) s id) →
  (let L := note loss (ledger loss h) entry in
   dir_inv loss (offered (h ++ [entry]) sid) (kept L sid) (doubtful L sid) (listing_at sid w')) →
  life_inv loss (h ++ [entry]) w'.
Proof.
  intros HI (_&Ho&_) Hother Hsid s. rewrite ledger_snoc.
  destruct (decide (s = sid)) as [->|Hne]; [exact Hsid|].
  rewrite Ho by done. eapply dir_inv_evolves; [|apply (evolves_refl (λ _, False))|..].
  - eapply dir_inv_weaken; [|apply HI]. intros id p. apply offered_snoc.
  - intros id p. rewrite (proj1 (Hother s id Hne)). by split; [|intros []].
  - intros id. rewrite (proj2 (Hother s id Hne)). left. by split; [|intros []].
Qed.

(** Nothing of the records changed, and nothing was acknowledged. *)
Lemma life_inv_still loss h w w' sid entry P :
  life_inv loss h w → effect sid w w' P → still (listing_at sid w) (listing_at sid w') →
  note loss (ledger loss h) entry = ledger loss h → life_inv loss (h ++ [entry]) w'.
Proof.
  intros HI He Hs Hnote. eapply life_inv_step; [done|done|by rewrite Hnote|].
  simpl. rewrite Hnote. eapply dir_inv_weaken; [intros id p; apply offered_snoc|].
  by eapply dir_inv_still.
Qed.

Lemma eq_bool {A} `{EqDecision A} (x y : A) : (x == y) = true ↔ x = y.
Proof. apply bool_decide_eq_true. Qed.

Lemma other_session (s sid : string) b : s ≠ sid → (s == sid) && b = false.
Proof. intros Hne. by rewrite bool_decide_eq_false_2. Qed.

Lemma same_session (s : string) b : (s == s) && b = b.
Proof. by rewrite bool_decide_eq_true_2. Qed.

Section commands.
Context {faults : ReplayFaults} {order : jsonl.DirOrder} {pid : ProcessId} {stats : StatsWork}.

Lemma load_inv loss h w sid :
  life_inv loss h w →
  life_inv loss (h ++ [(CmdLoad sid, ReplyLoad (load_blocking sid w).2)]) (load_blocking sid w).1.
Proof.
  intros HI. pose proof (load_effect sid w) as He. simpl in He.
  pose proof He as (_&_&Hs&_). by eapply life_inv_still.
Qed.

(** A removal, of a whole session or of some records. *)
Lemma removal_inv loss h w w' sid entry (gone : string → bool) names r :
  life_inv loss h w → effect sid w w' (λ l l', removed names l l' r) →
  (∀ id, names (record_name id) ↔ gone id = true) →
  note loss (ledger loss h) entry = abandon sid gone (negb (is_Ok r)) (ledger loss h) →
  life_inv loss (h ++ [entry]) w'.
Proof.
  intros HI He Hg Hnote. pose proof He as (_&_&Hev&Hr). eapply life_inv_step; [done|done| |].
  - intros s id Hne. rewrite Hnote. simpl. by rewrite other_session.
  - simpl. rewrite Hnote. eapply dir_inv_evolves; [|exact Hev|..].
    + eapply dir_inv_weaken; [|apply HI]. intros id p. apply offered_snoc.
    + intros id p. simpl. rewrite same_session. destruct (gone id) eqn:Hid; [done|].
      split; [done|]. rewrite Hg. congruence.
    + intros id. simpl. rewrite same_session. destruct (gone id) eqn:Hid.
      * destruct r as [a|e|]; simpl in *; [|done..]. intros _. right. intros f Hf.
        apply Hr; [done|]. by apply Hg.
      * intros Hd. left. split; [done|]. rewrite Hg. congruence.
Qed.

Lemma remove_inv loss h w sid ids :
  life_inv loss h w →
  life_inv loss (h ++ [(CmdRemove sid ids, ReplyUnit (remove_blocking sid ids w).2)])
    (remove_blocking sid ids w).1.
Proof.
  intros HI. eapply (removal_inv _ _ _ _ _ _ (λ id, bool_decide (id ∈ ids)));
    [exact HI|apply remove_effect| |done].
  intros id. rewrite bool_decide_eq_true, list_elem_of_fmap.
  split; [by intros (?&?%record_name_inj&?); subst|by exists id].
Qed.

Lemma delete_inv loss h w sid :
  life_inv loss h w →
  life_inv loss (h ++ [(CmdDeleteSession sid, ReplyUnit (delete_session_blocking sid w).2)])
    (delete_session_blocking sid w).1.
Proof.
  intros HI. by eapply (removal_inv _ _ _ _ _ _ (λ _, true)); [exact HI|apply delete_effect| |].
Qed.

(** A commit that is refused for good. *)
Lemma refused_inv loss h w w' sid blob e P :
  life_inv loss h w → effect sid w w' P → still (listing_at sid w) (listing_at sid w') →
  e ≠ Io → life_inv loss (h ++ [(CmdCommit sid blob, ReplyUnit (Err e))]) w'.
Proof. intros HI He Hs Hne. eapply life_inv_still; [done|done|done|]. by destruct e. Qed.

(** A commit that an access made fail. *)
Lemma doubted_inv loss h w w' sid blob P :
  life_inv loss h w → effect sid w w' P → id_ok (blob_id blob) →
  still (listing_at sid w) (listing_at sid w') ∨
  grown (blob_id blob) (payload blob) (listing_at sid w) (listing_at sid w') ∧
    records_in (now (listing_at sid w)) !! record_name (blob_id blob) = None →
  life_inv loss (h ++ [(CmdCommit sid blob, ReplyUnit (Err Io))]) w'.
Proof.
  intros HI He Hid Hcase. set (entry := (CmdCommit sid blob, ReplyUnit (Err Io))).
  assert (∀ id p, offered h sid id p → offered (h ++ [entry]) sid id p) as Hoff
    by (intros id p; apply offered_snoc).
  eapply life_inv_step; [done|done| |]; simpl.
  - intros s id Hne. split; [done|]. by rewrite other_session.
  - assert (∀ jd, ((sid == sid) && (jd == blob_id blob)) || doubtful (ledger loss h) sid jd = false →
      doubtful (ledger loss h) sid jd = false) as Hd by by intros jd [_ ?]%orb_false_iff.
    destruct Hcase as [Hs|[Hg Hnone]].
    + eapply dir_inv_still; [|exact Hs|exact Hd]. eapply dir_inv_weaken; [exact Hoff|apply HI].
    + eapply dir_inv_grown; [eapply dir_inv_weaken; [exact Hoff|apply HI]|exact Hg| |done|done| |].
      * exists (ReplyUnit (Err Io)). apply elem_of_app. right. destruct blob. by left.
      * by rewrite same_session, bool_decide_eq_true_2.
      * exact Hd.
Qed.

(** A commit that is acknowledged. *)
Lemma acknowledged_inv loss h w w' sid blob P :
  life_inv loss h w → effect sid w w' P → id_ok (blob_id blob) →
  in_sync (blob_id blob) (payload blob) (listing_at sid w) (listing_at sid w') ∧
    records_in (now (listing_at sid w)) !! record_name (blob_id blob) = None ∨
  still (listing_at sid w) (listing_at sid w') ∧
    records_in (now (listing_at sid w)) !! record_name (blob_id blob) = Some (payload blob) →
  life_inv loss (h ++ [(CmdCommit sid blob, ReplyUnit (Ok tt))]) w'.
Proof.
  intros HI He Hid Hcase. set (entry := (CmdCommit sid blob, ReplyUnit (Ok tt))).
  assert (∀ id p, offered h sid id p → offered (h ++ [entry]) sid id p) as Hoff
    by (intros id p; apply offered_snoc).
  assert (offered (h ++ [entry]) sid (blob_id blob) (payload blob)) as Hnew.
  { exists (ReplyUnit (Ok tt)). apply elem_of_app. right. destruct blob. by left. }
  eapply life_inv_step; [done|done| |].
  - intros s id Hne. simpl. destruct (_ && _); [done|]. simpl. by rewrite other_session.
  - assert (dir_inv loss (offered (h ++ [entry]) sid) (kept (ledger loss h) sid)
      (doubtful (ledger loss h) sid) (listing_at sid w)) as HD
      by (eapply dir_inv_weaken; [exact Hoff|apply HI]).
    destruct Hcase as [[Hs Hnone]|[Hs Hp]].
    + eapply dir_inv_synced; [exact HD|exact Hs|done|done|].
      intros jd q. simpl. destruct (loss && _).
      * case_decide as Hj; [|done]. subst. intros Hq. apply (di_kept _ _ _ _ _ (HI sid)) in Hq.
        congruence.
      * simpl. rewrite same_session. case_bool_decide; case_decide; by intros ?; simplify_eq.
    + pose proof (dir_inv_still _ _ _ _ _ _ _ HD Hs (λ id H, H)) as HD'.
      simpl. destruct (loss && doubtful (ledger loss h) sid (blob_id blob)) eqn:Hl; [exact HD'|].
      pose proof (still_now _ _ Hs) as Hnow. destruct HD' as [Hn Ho Hk Ha Hst].
      assert (loss = true → ∀ f, f ∈ listings (listing_at sid w') →
        records_in f !! record_name (blob_id blob) = Some (payload blob)) as Hall.
      { intros -> f Hf. simpl in Hl. by apply (Hst _ _ _ eq_refl Hl); [rewrite Hnow|]. }
      split; try done; simpl.
      * intros jd q. rewrite same_session. case_bool_decide as Hj; [|by apply Hk].
        intros [= <-]. subst. by rewrite Hnow.
      * intros jd q f Hlt. rewrite same_session. case_bool_decide as Hj; [|by apply Ha].
        intros [= <-]. subst. by apply Hall.
Qed.
End commands.

(** ** What a life keeps *)

Section kept.
Context {faults : ReplayFaults} {order : jsonl.DirOrder} {pid : ProcessId} {stats : StatsWork}.

Lemma life_commit_inv loss h w sid blob :
  life_inv loss h w → id_ok (blob_id blob) →
  life_inv loss (h ++ [(CmdCommit sid blob, ReplyUnit (commit_blocking sid blob w).2)])
    (commit_blocking sid blob w).1.
Proof.
  intros HI Hid. pose proof (commit_effect sid blob w Hid) as He. simpl in He.
  destruct (commit_blocking sid blob w) as [w' r]. simpl in *. destruct (_ <? _)%Z.
  { destruct He as [-> ->]. eapply (refused_inv _ _ _ _ _ _ _ (λ _ _, True)); [done| | |done].
    - by apply same_effect.
    - apply evolves_refl. }
  pose proof He as (_&_&Hc). unfold committed in Hc.
  destruct (records_in (now (listing_at sid w)) !! _) as [p|] eqn:Hp.
  - destruct Hc as [Hs [->|[-> _]]].
    + case_bool_decide as Heq; [|by eapply refused_inv]. subst.
      eapply acknowledged_inv; [done|done|done|]. by right.
    + eapply doubted_inv; [done|done|done|]. by left.
  - destruct (_ <? _)%Z.
    + destruct Hc as [Hs [->|[-> _]]]; [by eapply refused_inv|].
      eapply doubted_inv; [done|done|done|]. by left.
    + destruct Hc as [Hg Hr]. destruct r as [[]|e|]; simpl in Hr; [| |done].
      * eapply acknowledged_inv; [done|done|done|]. by left.
      * destruct Hr as [-> _]. eapply doubted_inv; [done|done|done|]. by right.
Qed.

Lemma command_inv loss h w command w' reply :
  life_inv loss h w → valid_command command → dispatch command w = (w', reply) →
  life_inv loss (h ++ [(command, reply)]) w'.
Proof.
  intros HI Hv. destruct command as [sid|sid blob|sid ids|sid|]; simpl; unfold answer_with.
  - pose proof (load_inv loss h w sid HI) as H. by destruct (load_blocking sid w); intros [= <- <-].
  - pose proof (life_commit_inv loss h w sid blob HI Hv) as H.
    by destruct (commit_blocking sid blob w); intros [= <- <-].
  - pose proof (remove_inv loss h w sid ids HI) as H.
    by destruct (remove_blocking sid ids w); intros [= <- <-].
  - pose proof (delete_inv loss h w sid HI) as H.
    by destruct (delete_session_blocking sid w); intros [= <- <-].
  - intros [= <- <-]. eapply (life_inv_still _ _ _ _ "" _ (λ _ _, True)); [done| | |done].
    + by apply same_effect.
    + apply evolves_refl.
Qed.
End kept.

Lemma listing_at_new sid p : listing_at sid (fs_new p) = listing_empty.
Proof. unfold listing_at, sidecar. simpl. by rewrite lookup_empty. Qed.

Lemma life_keeps loss p h w : life loss p h w → life_inv loss h w.
Proof.
  induction 1 as [|h w faults order pid command w' reply _ IH Hst Hv Hd|h w w' _ IH [_ Hd]
                 |h w w' Hl _ IH [_ Hpl]].
  - intros sid. rewrite listing_at_new.
    assert (∀ f, f ∈ listings listing_empty → records_in f = ∅) as Hempty.
    { intros f ->%list_elem_of_singleton. apply empty_records. }
    split; simpl; try done.
    + intros f Hf n q. by rewrite Hempty.
    + intros f id q Hf. by rewrite Hempty.
  - by eapply command_inv.
  - intros sid. unfold listing_at, sidecar. rewrite Hd. apply IH.
  - intros sid. specialize (IH sid). specialize (Hpl (session_dir_name sid)).
    unfold listing_at in *.
    destruct (sidecar (session_dir_name sid) w), (sidecar (session_dir_name sid) w'); simpl in *;
      try done. by eapply dir_inv_lost.
Qed.

Section loaded.
Context {faults : ReplayFaults} {order : jsonl.DirOrder} {pid : ProcessId} {stats : StatsWork}.

(** What a load answers, behind a life. *)
Lemma loaded_blobs loss p h w sid w' blobs :
  life loss p h w → load_blocking sid w = (w', Ok blobs) →
  NoDup (blob_id <$> blobs) ∧
  (∀ id q, kept (ledger loss h) sid id = Some q → {| blob_id := id; payload := q |} ∈ blobs) ∧
  (∀ blob, blob ∈ blobs → ∃ r, (CmdCommit sid blob, r) ∈ h).
Proof.
  intros Hlife Hload. pose proof (life_keeps _ _ _ _ Hlife sid) as HI.
  pose proof (load_effect sid w) as He. rewrite Hload in He. simpl in He.
  destruct He as (_&_&_&names&Hnames&[Hr|[? _]]); [|done].
  symmetry in Hr. apply load_result_Ok in Hr. subst blobs.
  pose proof (di_named _ _ _ _ _ HI _ (now_in_listings _)) as Hn.
  pose proof (blobs_by_id _ _ Hnames Hn) as Hb. set (R := records_in _) in *.
  assert (∀ id q, {| blob_id := id; payload := q |} ∈ blob_of R <$> names ↔
    by_id R !! id = Some q) as Hin.
  { intros id q. rewrite <- elem_of_map_to_list, <- Hb, (list_elem_of_fmap pair_of). split.
    - intros Hx. by exists {| blob_id := id; payload := q |}.
    - by intros ([]&[= -> ->]&?). }
  split; [|split].
  - assert (∀ bs, blob_id <$> bs = (pair_of <$> bs).*1) as ->
      by (intros bs; by rewrite <- list_fmap_compose).
    rewrite Hb. apply NoDup_fst_map_to_list.
  - intros id q Hk. apply Hin, by_id_Some; [done|].
    pose proof (di_kept _ _ _ _ _ HI _ _ Hk) as Hq. split; [|exact Hq].
    by destruct (Hn _ _ Hq) as (jd&->%record_name_inj&?).
  - intros [id q] [_ Hq]%Hin%by_id_Some; [|done].
    destruct (di_offered _ _ _ _ _ HI _ _ _ (now_in_listings _) Hq) as [r Hr]. by exists r.
Qed.
End loaded.

(** ** The quota *)

Section quota.
Context {faults : ReplayFaults} {order : jsonl.DirOrder} {pid : ProcessId} {stats : StatsWork}.

(** A directory some of whose records are gone keeps within the quota. *)
Lemma usable_evolves sid w w' names P :
  file_usable w → effect sid w w' P → evolves names (listing_at sid w) (listing_at sid w') →
  file_usable w'.
Proof.
  intros Hu He [_ Hev]. destruct (Hu) as [_ Hu']. destruct (Hu' sid) as [Hn Hw].
  eapply file_effect; [done|done|done|by eapply erodes_named|]. apply erodes_weight in Hev. lia.
Qed.

Lemma usable_commit sid blob w :
  file_usable w → id_ok (blob_id blob) → file_usable (commit_blocking sid blob w).1.
Proof.
  intros Hu Hid. pose proof (commit_effect sid blob w Hid) as He. simpl in He.
  destruct (commit_blocking sid blob w) as [w' r]. simpl in *.
  destruct (_ <? _)%Z; [by destruct He as [-> _]|]. pose proof He as (_&_&Hc). unfold committed in Hc.
  destruct (records_in (now (listing_at sid w)) !! _) as [p|] eqn:Hp.
  { destruct Hc as [Hs _]. by eapply usable_evolves. }
  destruct (_ <? _)%Z eqn:Hfull; [destruct Hc as [Hs _]; by eapply usable_evolves|].
  destruct Hc as [[_ Hnow] _]. destruct (Hu) as [Hpol Hu']. destruct (Hu' sid) as [Hn Hw].
  destruct Hnow as [Hnow|Hnow]; (eapply file_effect; [done|done|exact Hnow| |]); [done|done| |].
  - intros n q [[<- _]|[_ Hq]]%lookup_insert_Some; [by eexists|by eapply Hn].
  - rewrite weight_insert by done. apply Z.ltb_ge in Hfull.
    unfold runtime.saturating_add, capped, len_u64 in Hfull. destruct Hpol. lia.
Qed.

Lemma usable_dispatch command w :
  file_usable w → valid_command command → file_usable (dispatch command w).1.
Proof.
  intros Hu Hv. destruct command as [sid|sid blob|sid ids|sid|]; simpl; unfold answer_with; [..|done].
  - pose proof (load_effect sid w) as He. simpl in He. destruct (load_blocking sid w). simpl in *.
    pose proof He as (_&_&Hs&_). by eapply usable_evolves.
  - pose proof (usable_commit sid blob w Hu Hv). by destruct (commit_blocking sid blob w).
  - pose proof (remove_effect sid ids w) as He. destruct (remove_blocking sid ids w). simpl in *.
    pose proof He as (_&_&Hs&_). by eapply usable_evolves.
  - pose proof (delete_effect sid w) as He. destruct (delete_session_blocking sid w). simpl in *.
    pose proof He as (_&_&Hs&_). by eapply usable_evolves.
Qed.

Lemma dispatch_policy command w :
  valid_command command → fs_policy (dispatch command w).1 = fs_policy w.
Proof.
  intros Hv. destruct command as [sid|sid blob|sid ids|sid|]; simpl; unfold answer_with; [..|done].
  - pose proof (load_effect sid w) as He. simpl in He. destruct (load_blocking sid w). by apply He.
  - pose proof (commit_effect sid blob w Hv) as He. simpl in He.
    destruct (commit_blocking sid blob w). simpl in *.
    destruct (_ <? _)%Z; [by destruct He as [-> _]|by apply He].
  - pose proof (remove_effect sid ids w) as He. destruct (remove_blocking sid ids w). by apply He.
  - pose proof (delete_effect sid w) as He. destruct (delete_session_blocking sid w). by apply He.
Qed.
End quota.

Lemma life_usable p h w : policy_ok p → life false p h w → file_usable w.
Proof.
  intros Hp. induction 1 as [|h w faults order pid command w' reply _ IH Hst Hv Hd
                            |h w w' _ IH [Hpol Hd]|h w w' Hl _ IH _]; [| | |done].
  - split; [done|]. intros sid. rewrite listing_at_new, empty_records.
    split; [by intros n q ?|]. unfold weight. rewrite map_to_list_empty. simpl. apply Hp.
  - pose proof (usable_dispatch command w IH Hv) as Hu. by rewrite Hd in Hu.
  - destruct IH as [Hok Hu]. split; [by rewrite Hpol|]. intros sid. rewrite Hpol.
    unfold listing_at, sidecar. rewrite Hd. apply Hu.
Qed.

Section within.
Context {faults : ReplayFaults} {order : jsonl.DirOrder} {pid : ProcessId} {stats : StatsWork}.

Lemma load_no_panic f max total names : load_result f max total names ≠ Panic.
Proof.
  revert total. induction names as [|n names IH]; intros total; cbn [load_result]; [done|].
  destruct (decode_component _), (f !! n); try done. destruct (_ <? _)%Z; [done|]. cbn zeta.
  destruct (_ <? _)%Z; [done|]. pose proof (IH (runtime.saturating_add total (len_u64 s0))).
  by destruct (load_result _ _ _ _).
Qed.

(** Without power losses a load is refused only where an access of its own fails. *)
Lemma load_answers p h w sid e :
  policy_ok p → life false p h w → (load_blocking sid w).2 = Err e → e = Io ∧ faulty.
Proof.
  intros Hp Hlife. destruct (life_usable _ _ _ Hp Hlife) as [Hpol Hu]. destruct (Hu sid) as [Hn Hw].
  pose proof (load_effect sid w) as He. simpl in He. destruct He as (_&_&_&names&Hnames&[Hr|[Hr Hf]]).
  - by rewrite Hr, load_result_records by (done || apply Hpol).
  - rewrite Hr. by intros [= <-].
Qed.

(** C16: what the sidecar acknowledged stays, and it never serves anything that was
    not handed to it whole. After any life - commands whose accesses fail anywhere,
    crashes between any two of them, restarts, power losses if [loss] - a load that
    answers has every blob of the ledger with exactly its payload, and each blob it
    has was once committed to that session, each identifier once; no load panics; and
    without power losses one is refused only when an access of its own fails. The
    ledger has the commits that were answered [Ok] and not removed since; with power
    losses it leaves out a commit of an identifier an earlier commit or removal of
    which had failed, since the store answers such a retry without syncing. Queries
    of file types are taken to work, and the name of a sidecar directory to survive
    a power loss. *)
Theorem replay_commits_survive loss p h w sid :
  life loss p h w →
  match (load_blocking sid w).2 with
  | Ok blobs =>
      NoDup (blob_id <$> blobs) ∧
      (∀ id q, kept (ledger loss h) sid id = Some q → {| blob_id := id; payload := q |} ∈ blobs) ∧
      (∀ blob, blob ∈ blobs → ∃ r, (CmdCommit sid blob, r) ∈ h)
  | Err e => loss = false → policy_ok p → e = Io ∧ faulty
  | Panic => False
  end.
Proof.
  intros Hlife. destruct (load_blocking sid w) as [w' [blobs|e|]] eqn:Hload; cbn [snd].
  - by eapply loaded_blobs.
  - intros -> Hp. eapply load_answers; [done|done|by rewrite Hload].
  - pose proof (load_effect sid w) as He. rewrite Hload in He. simpl in He.
    destruct He as (_&_&_&names&_&[Hr|[? _]]); [|done]. by apply (load_no_panic _ _ _ _ (eq_sym Hr)).
Qed.

(** A session's sidecar never outgrows its quota, whatever fails and
    whenever the process dies, so that a load is never refused for it: it
    answers with the blobs, or an access of the file system has failed. *)
Theorem replay_within_quota p h w sid :
  policy_ok p → life false p h w →
  (Z.of_nat (weight (records_in (now (listing_at sid w)))) ≤ max_session_bytes p)%Z ∧
  match (load_blocking sid w).2 with
  | Ok blobs => pair_of <$> blobs ≡ₚ map_to_list (file_records w sid)
  | Err e => e = Io ∧ faulty
  | Panic => False
  end.
Proof.
  intros Hp Hlife. destruct (life_usable _ _ _ Hp Hlife) as [Hpol Hu]. destruct (Hu sid) as [Hn Hw].
  assert (fs_policy w = p) as Hfp.
  { clear - Hlife. induction Hlife as [|h w faults order pid command w' reply _ IH Hst Hv Hd
                                      |h w w' _ IH [Hpol Hd]|]; [done| |congruence|congruence].
    pose proof (dispatch_policy command w Hv) as Hd'. rewrite Hd in Hd'. simpl in Hd'. congruence. }
  rewrite <- Hfp. split; [done|].
  pose proof (load_effect sid w) as He. simpl in He. destruct He as (_&_&_&names&Hnames&[Hr|[Hr Hf]]).
  - rewrite Hr, load_result_records by (done || apply Hpol). by apply blobs_by_id.
  - by rewrite Hr.
Qed.
End within.
End replay_life.

Import jsonl_codec replay_store replay_files replay_ops replay_laws replay_life.

Module replay_trust.

Lemma valid_utf8_app s t : valid_utf8 s = true → valid_utf8 t = true → valid_utf8 (s +:+ t) = true.
Proof.
  intros Hs Ht. revert Hs.
  induction s as [s IH] using (induction_ltof1 _ String.length). unfold ltof in IH.
  destruct s as [|a s1]; [done|]. rewrite str_app_cons. cbn [valid_utf8].
  destruct (in_range 0 127 a); [apply IH; simpl; lia|].
  destruct s1 as [|b s2]; [done|]. rewrite str_app_cons. 
  destruct (in_range 194 223 a && is_continuation b); [apply IH; simpl; lia|].
  destruct s2 as [|c s3]; [done|]. rewrite str_app_cons.
  destruct (_ && is_continuation c); [apply IH; simpl; lia|].
  destruct s3 as [|d s4]; [done|]. rewrite str_app_cons.
  rewrite !andb_true_iff. intros [? ?]. split; [done|]. apply IH; [simpl; lia|done].
Qed.

Abbreviation Offer := (string → ReplayStoreBlob → Prop).

(** [only P s]: every blob that [s] can ever serve satisfies [P] of its session.
    [lost] is what a restart, or worse, makes of a store. *)
Class OfferedStore (S : Type) `{ModelReplayStore S} : Type := {
  only : Offer → S → Prop;
  lost : S → S → Prop;
  only_weaken (P Q : Offer) s : (∀ sid b, P sid b → Q sid b) → only P s → only Q s;
  only_load P sid s :
    only P s →
    only P (load sid s).1 ∧ ∀ blobs, (load sid s).2 = Ok blobs → Forall (P sid) blobs;
  only_commit (P : Offer) sid blob s :
    only P s → id_ok (blob_id blob) → P sid blob → only P (commit sid blob s).1;
  only_remove P sid ids s : only P s → only P (remove sid ids s).1;
  only_delete P sid s : only P s → only P (delete_session sid s).1;
  only_lost P s s' : only P s → lost s s' → only P s'
}.

(** ** The store in memory *)

Definition memory_only (P : Offer) (s : MemoryModelReplayStore) : Prop :=
  ∀ sid blobs, mem_sessions s !! sid = Some blobs → Forall (P sid) blobs.

Lemma memory_only_locked {A} P (f : ReplayStorePolicy → gmap string (list ReplayStoreBlob) →
    gmap string (list ReplayStoreBlob) * outcome ReplayStoreErrorCode A) s :
  memory_only P s →
  (∀ sid blobs, (f (mem_policy s) (mem_sessions s)).1 !! sid = Some blobs → Forall (P sid) blobs) →
  memory_only P (locked f s).1.
Proof.
  intros HP Hf. unfold locked. destruct (mem_poisoned s); [done|].
  by destruct (f (mem_policy s) (mem_sessions s)) as [sessions r].
Qed.

Lemma memory_default P s sid : memory_only P s → Forall (P sid) (default [] (mem_sessions s !! sid)).
Proof. intros HP. destruct (mem_sessions s !! sid) eqn:Hs; [by apply HP|done]. Qed.

Lemma memory_insert P (m : gmap string (list ReplayStoreBlob)) sid blobs :
  (∀ sid' bs, m !! sid' = Some bs → Forall (P sid') bs) → Forall (P sid) blobs →
  ∀ sid' bs, <[sid := blobs]> m !! sid' = Some bs → Forall (P sid') bs.
Proof. intros Hm Hb sid' bs [[<- <-]|[_ ?]]%lookup_insert_Some; [done|by apply Hm]. Qed.

(** A new process has an empty one. *)
#[export] Program Instance memory_offered : OfferedStore MemoryModelReplayStore := {
  only := memory_only;
  lost := λ s s', s' = memory_new (mem_policy s)
}.
Next Obligation. intros P Q s HPQ HP sid blobs Hs. eapply Forall_impl; [by apply HP|apply HPQ]. Qed.
Next Obligation.
  intros P sid s HP. split; [by apply memory_only_locked|].
  cbn. unfold load_sync, locked. destruct (mem_poisoned s); [done|]. cbn.
  intros blobs [= <-]. by apply memory_default.
Qed.
Next Obligation.
  intros P sid blob s HP _ Hb. apply memory_only_locked; [done|]. cbn.
  pose proof (memory_default _ _ sid HP) as Hd.
  destruct (find_map _ _) as [b|]; cbn; [by apply memory_insert|].
  destruct (_ <? _)%Z; cbn; [by apply memory_insert|].
  apply memory_insert; [by apply memory_insert|]. apply Forall_app. by rewrite Forall_singleton.
Qed.
Next Obligation.
  intros P sid ids s HP. apply memory_only_locked; [done|]. cbn.
  destruct (mem_sessions s !! sid) as [blobs|] eqn:Hs; [|done].
  apply memory_insert; [done|]. apply Forall_forall. intros b [_ Hb]%list_elem_of_filter.
  by eapply Forall_forall; [by apply HP|].
Qed.
Next Obligation.
  intros P sid s HP. apply memory_only_locked; [done|]. cbn.
  intros sid' blobs [_ Hs]%lookup_delete_Some. by apply HP.
Qed.
Next Obligation. intros P s s' HP -> sid blobs Hs. cbn in Hs. by rewrite lookup_empty in Hs. Qed.

(** ** The store in files *)

Section file.
Context {faults : ReplayFaults} {order : jsonl.DirOrder} {pid : ProcessId} {stats : StatsWork}.

Definition file_only (P : Offer) (w : ReplayFs) : Prop :=
  ∀ sid, dir_inv true (λ id p, P sid {| blob_id := id; payload := p |}) (λ _, None) (λ _, true)
           (listing_at sid w).

Lemma file_only_effect P sid w w' Q :
  file_only P w → effect sid w w' Q →
  dir_inv true (λ id p, P sid {| blob_id := id; payload := p |}) (λ _, None) (λ _, true)
    (listing_at sid w') →
  file_only P w'.
Proof.
  intros HP (_&Ho&_) Hsid s. destruct (decide (s = sid)) as [->|Hne]; [done|].
  rewrite Ho by done. apply HP.
Qed.

Lemma file_only_evolves P names l l' :
  dir_inv true P (λ _, None) (λ _, true) l → evolves names l l' →
  dir_inv true P (λ _, None) (λ _, true) l'.
Proof. intros HP He. by eapply dir_inv_evolves. Qed.

Lemma file_only_commit P sid blob w :
  file_only P w → id_ok (blob_id blob) → P sid blob → file_only P (commit_blocking sid blob w).1.
Proof.
  intros HP Hid Hb. pose proof (commit_effect sid blob w Hid) as He. cbn zeta in He.
  destruct (_ <? _)%Z; [by destruct He as [-> _]|].
  eapply file_only_effect; [done|exact He|]. destruct He as (_&_&Hc). unfold committed in Hc.
  destruct (records_in (now (listing_at sid w)) !! _) as [p|] eqn:Hp.
  { destruct Hc as [Hs _]. by eapply file_only_evolves. }
  destruct (_ <? _)%Z.
  { destruct Hc as [Hs _]. by eapply file_only_evolves. }
  destruct Hc as [Hg _]. eapply dir_inv_grown; [apply HP|exact Hg|by destruct blob|done..].
Qed.

Lemma file_only_load P sid w blobs :
  file_only P w → (load_blocking sid w).2 = Ok blobs → Forall (P sid) blobs.
Proof.
  intros HP Hr. pose proof (load_effect sid w) as (_&_&_&names&Hnames&Hl).
  rewrite Hr in Hl. destruct Hl as [Hl|[? _]]; [|done].
  symmetry in Hl. apply load_result_Ok in Hl. subst blobs.
  pose proof (di_named _ _ _ _ _ (HP sid) _ (now_in_listings _)) as Hn.
  pose proof (blobs_by_id _ _ Hnames Hn) as Hb. apply Forall_forall. intros [id q] Hin.
  apply (di_offered _ _ _ _ _ (HP sid) _ id q (now_in_listings _)).
  apply by_id_Some; [done|]. rewrite <- elem_of_map_to_list, <- Hb, (list_elem_of_fmap pair_of).
  by exists {| blob_id := id; payload := q |}.
Qed.

#[export] Program Instance file_offered : OfferedStore ReplayFs := {
  only := file_only;
  lost := λ w w', restarted w w' ∨ power_loss w w'
}.
Next Obligation.
  intros P Q w HPQ HP sid. eapply dir_inv_weaken; [|apply HP]. intros id p. apply HPQ.
Qed.
Next Obligation.
  intros P sid w HP. split; [|intros blobs; by apply file_only_load].
  pose proof (load_effect sid w) as He. cbn zeta in He. eapply file_only_effect; [done|exact He|].
  destruct He as (_&_&Hs&_). by eapply file_only_evolves.
Qed.
Next Obligation. intros P sid blob w. apply file_only_commit. Qed.
Next Obligation.
  intros P sid ids w HP. pose proof (remove_effect sid ids w) as He.
  eapply file_only_effect; [done|exact He|]. destruct He as (_&_&Hev&_).
  by eapply file_only_evolves.
Qed.
Next Obligation.
  intros P sid w HP. pose proof (delete_effect sid w) as He.
  eapply file_only_effect; [done|exact He|]. destruct He as (_&_&Hev&_).
  by eapply file_only_evolves.
Qed.
Next Obligation.
  intros P w w' HP [[_ Hd]|[_ Hl]] sid; specialize (HP sid).
  - unfold listing_at, sidecar. by rewrite Hd.
  - specialize (Hl (session_dir_name sid)). unfold listing_at in *.
    destruct (sidecar (session_dir_name sid) w), (sidecar (session_dir_name sid) w'); simpl in *;
      try done. by eapply dir_inv_lost.
Qed.
End file.
End replay_trust.
