(* ===== verification/Replay.v ===== *)
(** The replay coordinator of the model adapter: what is captured from a
    response, how it is stored, and how it is matched to the messages of a later
    request (src/crates/philo-model/src/replay.rs, second half).

    Module [replay] works over any [ModelReplayStore]. The provider's client is
    code of another crate: [Sdk] has the calls of it that are used here, its
    enumerations with a case for variants the source does not know. [serde_json]
    on a generation is [GenerationJson], SHA-256 is [Sha256] of JsonlCodec.v. A
    call to [load] or [commit] runs as a whole. *)

From S2P Require Import Prelude RustStr Session Tools Runtime JsonlCodec ReplayStore.
From Stdlib Require Import Ascii.
Import jsonl_codec runtime replay_store.

Module replay.

(** ** The provider's client *)

Inductive ReasoningKind : Type := KindSummary | KindExposed | KindOpaque | KindOther.
Inductive ReplayRequirement : Type :=
| RequirementNone | RequirementOptional | RequirementRequired | RequirementOther.
#[export] Instance replay_requirement_eq : EqDecision ReplayRequirement.
Proof. solve_decision. Defined.

Record CallTarget : Type := { target_provider : string; target_protocol : string; target_model : string }.

Inductive RestoreError : Type := TargetMismatch | RestoreFailed.

Class Sdk : Type := {
  ReplayToken : Type;
  ReplaySnapshot : Type;
  ContinuationHandle : Type;
  snapshot_replay : ReplayToken → option ReplaySnapshot;
  restore_replay : CallTarget → ReplaySnapshot → RestoreError + ReplayToken;
  continuation_handle : CallTarget → string → option ContinuationHandle
}.

Definition GENERATION_SCHEMA_V1 : Z := 1.
Definition GENERATION_SCHEMA_V2 : Z := 2.

Definition model_error_new (code : string) (domain : FailureDomain) (retry : RetryDisposition)
    (summary diagnostic : string) : ModelError :=
  {| error_code := code; error_domain := domain; error_retry := retry; error_summary := summary;
     error_diagnostic := diagnostic |}.

Definition required_snapshot_error : ModelError :=
  model_error_new "model.replay.unavailable" Caller Never
    "the required model replay snapshot is unavailable"
    "required model replay snapshot is unavailable".
Definition required_restore_error : ModelError :=
  model_error_new "model.replay.corrupted" Caller Never
    "the required model replay snapshot could not be restored"
    "required model replay snapshot could not be restored".
Definition store_model_error (error : ReplayStoreErrorCode) : ModelError :=
  model_error_new "model.replay.corrupted" Caller Never (display_store_error error)
    (display_store_error error).
Definition corrupted_error : ModelError :=
  model_error_new "model.replay.corrupted" Caller Never "the model replay sidecar is corrupted"
    "model replay sidecar is corrupted".

(** [sort_by_key], which keeps the order of equal keys. *)
Fixpoint insert_by {A} (le : A → A → bool) (x : A) (l : list A) : list A :=
  match l with
  | [] => [x]
  | y :: l => if le x y then x :: y :: l else y :: insert_by le x l
  end.
Definition sort_by {A} (le : A → A → bool) (l : list A) : list A := foldr (insert_by le) [] l.

Section replay.
Context {sdk : Sdk} {sha : Sha256}.

(** ** Captured items *)

Inductive CapturedContent : Type :=
| CapText (text : string)
| CapReasoning (kind : ReasoningKind) (text : option string)
| CapToolCall (call_id name arguments : string).

Record CapturedItem : Type := {
  cap_index : Z;
  cap_content : CapturedContent;
  cap_requirement : ReplayRequirement;
  cap_token : option ReplayToken
}.

Definition block_from_captured (item : CapturedItem) : option ModelAssistantBlock :=
  match cap_content item with
  | CapText text => if str_is_empty text then None else Some (ModelText text)
  | CapToolCall call_id name arguments =>
      Some (ModelToolCallBlock
        {| tool_call_id := call_id; call_name := name; call_arguments := arguments |})
  | CapReasoning _ _ => None
  end.
Definition assistant_blocks_from_captured (items : list CapturedItem) : list ModelAssistantBlock :=
  filter_map block_from_captured items.

Definition sort_items (items : list CapturedItem) : list CapturedItem :=
  sort_by (λ a b, (cap_index a <=? cap_index b)%Z) items.

(** ** Digests *)

Definition byte_of_Z (n : Z) : Byte.byte := byte_of_ascii (ascii_of_N (Z.to_N (n mod 256))).

(** [u64::to_be_bytes]. *)
Definition to_be_bytes (n : Z) : list Byte.byte :=
  (λ i, byte_of_Z (Z.shiftr n (8 * i))) <$> [7; 6; 5; 4; 3; 2; 1; 0]%Z.

Definition encode_digest (bytes : list Byte.byte) : string := concat_str (hex_byte <$> bytes).

Definition text_digest (text : string) : string :=
  encode_digest (digest (String.list_byte_of_string text)).

(** What [hash_tag], [hash_bytes] and [hash_str] feed the hasher. *)
Definition hash_tag (tag : Z) : list Byte.byte := [byte_of_Z tag].
Definition hash_bytes (value : list Byte.byte) : list Byte.byte :=
  to_be_bytes (Z.of_nat (length value)) ++ value.
Definition hash_str (value : string) : list Byte.byte := hash_bytes (String.list_byte_of_string value).

Definition hash_block (block : ModelAssistantBlock) : list Byte.byte :=
  match block with
  | ModelText text => hash_tag 1 ++ hash_str text
  | ModelToolCallBlock call =>
      hash_tag 2 ++ hash_str (tool_call_id call) ++ hash_str (call_name call)
      ++ hash_str (call_arguments call)
  end.
Definition hash_assistant_blocks (blocks : list ModelAssistantBlock) : list Byte.byte :=
  hash_tag 4 ++ concat (hash_block <$> blocks).

Definition hash_part (part : UserPart) : list Byte.byte :=
  match part with
  | UserText text => hash_tag 1 ++ hash_str text
  | UserImage media_type bytes => hash_tag 2 ++ hash_str media_type ++ hash_bytes bytes
  end.

Definition hash_message (message : ModelMessage) : list Byte.byte :=
  match message with
  | ModelSystem content => hash_tag 1 ++ hash_str content
  | ModelSummary text => hash_tag 2 ++ hash_str text
  | ModelUser parts => hash_tag 3 ++ concat (hash_part <$> parts)
  | ModelAssistant blocks => hash_assistant_blocks blocks
  | ModelToolResult tool_call_id out =>
      hash_tag 6 ++ hash_str tool_call_id ++
      match out with
      | ModelSuccess content => hash_tag 1 ++ hash_str content
      | ModelToolError code message => hash_tag 2 ++ hash_str code ++ hash_str message
      | ModelCancelled => hash_tag 3
      | ModelInterrupted => hash_tag 4
      end
  end.

Definition continuation_prefix_digest_from_response (messages : list ModelMessage)
    (items : list CapturedItem) : option string :=
  Some (encode_digest (digest (concat (hash_message <$> messages)
    ++ hash_assistant_blocks (assistant_blocks_from_captured items)))).

Definition continuation_prefix_digest_from_history (messages : list ModelMessage) : option string :=
  match last messages with
  | Some (ModelAssistant blocks) =>
      Some (encode_digest (digest (concat (hash_message <$> removelast messages)
        ++ hash_assistant_blocks blocks)))
  | _ => None
  end.

(** ** Stored generations *)

Inductive StoredRequirement : Type := StoredNone | StoredOptional | StoredRequired.
#[export] Instance stored_requirement_eq : EqDecision StoredRequirement.
Proof. solve_decision. Defined.

Definition unsupported (summary diagnostic : string) : ModelError :=
  model_error_new "model.replay.unsupported" Caller Never summary diagnostic.

Definition requirement_from_sdk (value : ReplayRequirement) : outcome ModelError StoredRequirement :=
  match value with
  | RequirementNone => Ok StoredNone
  | RequirementOptional => Ok StoredOptional
  | RequirementRequired => Ok StoredRequired
  | RequirementOther =>
      Err (unsupported "a replay requirement is unsupported by this assembly"
             "unsupported replay requirement")
  end.
Definition requirement_to_sdk (self : StoredRequirement) : ReplayRequirement :=
  match self with
  | StoredNone => RequirementNone
  | StoredOptional => RequirementOptional
  | StoredRequired => RequirementRequired
  end.

Inductive StoredReasoningKind : Type := StoredSummary | StoredExposed | StoredOpaque.

Definition kind_from_sdk (value : ReasoningKind) : outcome ModelError StoredReasoningKind :=
  match value with
  | KindSummary => Ok StoredSummary
  | KindExposed => Ok StoredExposed
  | KindOpaque => Ok StoredOpaque
  | KindOther =>
      Err (unsupported "a reasoning replay kind is unsupported by this assembly"
             "unsupported reasoning replay kind")
  end.
Definition kind_to_sdk (self : StoredReasoningKind) : ReasoningKind :=
  match self with
  | StoredSummary => KindSummary
  | StoredExposed => KindExposed
  | StoredOpaque => KindOpaque
  end.

Inductive StoredContent : Type :=
| StoText (text_digest : string)
| StoReasoning (reasoning_kind : StoredReasoningKind) (text : option string)
| StoToolCall (call_id : string).

Record StoredItem : Type := {
  sto_index : Z;
  sto_requirement : StoredRequirement;
  sto_content : StoredContent;
  sto_snapshot : option ReplaySnapshot
}.

Definition from_captured (item : CapturedItem) (snapshot : option ReplaySnapshot)
    : outcome ModelError StoredItem :=
  let? content :=
    match cap_content item with
    | CapText text => Ok (StoText (text_digest text))
    | CapReasoning kind text => let? kind := kind_from_sdk kind in Ok (StoReasoning kind text)
    | CapToolCall call_id _ _ => Ok (StoToolCall call_id)
    end in
  let? requirement := requirement_from_sdk (cap_requirement item) in
  Ok {| sto_index := cap_index item; sto_requirement := requirement; sto_content := content;
        sto_snapshot := snapshot |}.

Definition to_captured (item : StoredItem) (replay_token : option ReplayToken) : CapturedItem :=
  {| cap_index := sto_index item;
     cap_content :=
       match sto_content item with
       | StoReasoning kind text => CapReasoning (kind_to_sdk kind) text
       | StoText _ => CapText ""
       | StoToolCall call_id => CapToolCall call_id "" ""
       end;
     cap_requirement := requirement_to_sdk (sto_requirement item);
     cap_token := replay_token |}.

Record StoredGeneration : Type := {
  schema_version : Z;
  generation_id : string;
  gen_session_id : string;
  gen_context_fingerprint : string;
  session_revision : Z;
  gen_turn_id : string;
  gen_model_call_id : string;
  gen_model_call_index : Z;
  gen_provider : string;
  gen_protocol : string;
  gen_model : string;
  response_id : option string;
  continuation_prefix_digest : option string;
  invalidates_generation : option string;
  created_at_unix_secs : Z;
  expires_at_unix_secs : Z;
  gen_items : list StoredItem
}.

Class GenerationJson : Type := {
  to_vec : StoredGeneration → option string;
  from_slice : string → option StoredGeneration
}.
Context {json : GenerationJson}.

Definition invalidation (self : StoredGeneration) : StoredGeneration :=
  {| schema_version := GENERATION_SCHEMA_V2;
     generation_id := generation_id self +:+ ":continuation-invalid";
     gen_session_id := gen_session_id self;
     gen_context_fingerprint := gen_context_fingerprint self;
     session_revision := session_revision self;
     gen_turn_id := gen_turn_id self;
     gen_model_call_id := gen_model_call_id self;
     gen_model_call_index := gen_model_call_index self;
     gen_provider := gen_provider self;
     gen_protocol := gen_protocol self;
     gen_model := gen_model self;
     response_id := None;
     continuation_prefix_digest := None;
     invalidates_generation := Some (generation_id self);
     created_at_unix_secs := created_at_unix_secs self;
     expires_at_unix_secs := expires_at_unix_secs self;
     gen_items := [] |}.

Definition invalidation_blob (self : StoredGeneration) : outcome ModelError ReplayStoreBlob :=
  let tombstone := invalidation self in
  match to_vec tombstone with
  | Some payload => Ok {| blob_id := generation_id tombstone; payload := payload |}
  | None =>
      Err (model_error_new "model.replay.persist_failed" Caller Never
             "the continuation invalidation could not be serialized"
             "model continuation invalidation serialization failed")
  end.

Definition target_matches (self : StoredGeneration) (target : CallTarget) : bool :=
  (gen_provider self == target_provider target) && (gen_protocol self == target_protocol target)
  && (gen_model self == target_model target).

Definition stored_text (item : StoredItem) : option string :=
  match sto_content item with StoText d => Some d | _ => None end.
Definition stored_call (item : StoredItem) : option string :=
  match sto_content item with StoToolCall call_id => Some call_id | _ => None end.
Definition block_text (block : ModelAssistantBlock) : option string :=
  match block with ModelText text => Some (text_digest text) | ModelToolCallBlock _ => None end.
Definition block_call (block : ModelAssistantBlock) : option string :=
  match block with ModelToolCallBlock call => Some (tool_call_id call) | ModelText _ => None end.

(** The texts and the calls of an assistant message, in order. *)
Definition matches (self : StoredGeneration) (message : ModelMessage) : bool :=
  match message with
  | ModelAssistant blocks =>
      let stored_texts := filter_map stored_text (gen_items self) in
      let block_texts := filter_map block_text blocks in
      (length stored_texts == length block_texts)
      && all (λ texts, texts.1 == texts.2) (zip stored_texts block_texts)
      && (filter_map stored_call (gen_items self) == filter_map block_call blocks)
  | _ => false
  end.

(** The token of one stored item; [Ok None] in place of an item means that its
    snapshot is bound to another target. *)
Definition restore_token (target : CallTarget) (item : StoredItem)
    : outcome ModelError (option (option ReplayToken)) :=
  match sto_snapshot item with
  | Some snapshot =>
      match restore_replay target snapshot with
      | inr token => Ok (Some (Some token))
      | inl TargetMismatch => Ok None
      | inl RestoreFailed =>
          if sto_requirement item != StoredRequired then Ok (Some None)
          else Err required_restore_error
      end
  | None =>
      if sto_requirement item == StoredRequired then Err required_restore_error
      else Ok (Some None)
  end.

Fixpoint restore_items (target : CallTarget) (items : list StoredItem)
    : outcome ModelError (option (list CapturedItem)) :=
  match items with
  | [] => Ok (Some [])
  | item :: items =>
      let? token := restore_token target item in
      match token with
      | None => Ok None
      | Some token =>
          let? rest := restore_items target items in
          Ok ((λ rest, to_captured item token :: rest) <$> rest)
      end
  end.

Definition restore (self : StoredGeneration) (target : CallTarget)
    : outcome ModelError (option (list CapturedItem)) :=
  let? restored := restore_items target (gen_items self) in
  Ok (sort_items <$> restored).

(** ** Histories *)

Record ContinuationCandidate : Type := {
  handle : ContinuationHandle;
  message_index : nat;
  candidate_generation_id : string;
  candidate_invalidation : ReplayStoreBlob
}.

Record ReplayHistory : Type := {
  by_message : gmap nat (list CapturedItem);
  continuation : option ContinuationCandidate
}.
Definition history_empty : ReplayHistory := {| by_message := ∅; continuation := None |}.

Definition items_for (self : ReplayHistory) (index : nat) : list CapturedItem :=
  default [] (by_message self !! index).
Definition continuation_after (self : ReplayHistory) (index : nat) : option ContinuationHandle :=
  candidate ← continuation self;
  if message_index candidate == index then Some (handle candidate) else None.
Definition has_continuation (self : ReplayHistory) : bool := session.is_some (continuation self).

(** ** The coordinator *)

(** [ReplayCoordinator]: the store, and two mutexes with a flag for a poisoned
    one. *)
Record ReplayCoordinator (S : Type) : Type := {
  rc_store : S;
  transient : list StoredGeneration;
  transient_poisoned : bool;
  invalidated_continuations : gset string;
  invalidated_poisoned : bool
}.
Arguments rc_store {_} _.
Arguments transient {_} _.
Arguments transient_poisoned {_} _.
Arguments invalidated_continuations {_} _.
Arguments invalidated_poisoned {_} _.
Arguments Build_ReplayCoordinator {_} _ _ _ _ _.

Context {S : Type} {store : ModelReplayStore S}.
Abbreviation rc := (io (ReplayCoordinator S) ModelError).

Definition coordinator_new (s : S) : ReplayCoordinator S :=
  Build_ReplayCoordinator s [] false ∅ false.

Definition get {E} : io (ReplayCoordinator S) E (ReplayCoordinator S) := λ w, (w, Ok w).
Definition set_transient (l : list StoredGeneration) : rc unit := λ w,
  (Build_ReplayCoordinator (rc_store w) l (transient_poisoned w) (invalidated_continuations w)
     (invalidated_poisoned w), Ok tt).
Definition set_invalidated {E} (ids : gset string) : io (ReplayCoordinator S) E unit := λ w,
  (Build_ReplayCoordinator (rc_store w) (transient w) (transient_poisoned w) ids
     (invalidated_poisoned w), Ok tt).
Definition on_store {E A} (m : io S E A) : io (ReplayCoordinator S) E A := λ w,
  let '(s, r) := m (rc_store w) in
  (Build_ReplayCoordinator s (transient w) (transient_poisoned w) (invalidated_continuations w)
     (invalidated_poisoned w), r).

(** [unix_seconds], on what the system clock says. *)
Definition unix_seconds (clock : option Z) : outcome ModelError Z :=
  match clock with
  | Some now => Ok now
  | None =>
      Err (model_error_new "model.replay.persist_failed" Caller Never
             "the system clock is before the Unix epoch" "system clock is before the Unix epoch")
  end.

(** The stored generations that may be used, and those that have expired. *)
Fixpoint read_blobs (request : ModelCallSnapshot) (now : Z) (blobs : list ReplayStoreBlob)
    : outcome ModelError (list StoredGeneration * list string) :=
  match blobs with
  | [] => Ok ([], [])
  | blob :: blobs =>
      match from_slice (payload blob) with
      | None => Err corrupted_error
      | Some g =>
          if negb ((schema_version g == GENERATION_SCHEMA_V1)
                   || (schema_version g == GENERATION_SCHEMA_V2))
             || (generation_id g != blob_id blob) || (gen_session_id g != call_session_id request)
          then Err corrupted_error
          else
            let? rest := read_blobs request now blobs in
            Ok (if (expires_at_unix_secs g <=? now)%Z then (rest.1, generation_id g :: rest.2)
                else if (session_revision g <=? Z.of_nat (call_session_revision request))%Z
                     then (g :: rest.1, rest.2)
                     else rest)
      end
  end.

(** By session revision, then by creation, then by call. *)
Definition generation_le (a b : StoredGeneration) : bool :=
  (session_revision a <? session_revision b)%Z
  || ((session_revision a =? session_revision b)%Z
      && ((created_at_unix_secs a <? created_at_unix_secs b)%Z
          || ((created_at_unix_secs a =? created_at_unix_secs b)%Z
              && (gen_model_call_index a <=? gen_model_call_index b)%Z))).

(** What the loop over the messages keeps. *)
Record Matching : Type := {
  used : gset string;
  matched : gmap nat (list CapturedItem);
  candidate : option ContinuationCandidate
}.

(** The generation is one that a message may be matched with. *)
Definition eligible (invalidated used : gset string) (upto : list ModelMessage)
    (message : ModelMessage) (g : StoredGeneration) : bool :=
  negb (session.is_some (invalidates_generation g))
  && negb (bool_decide (generation_id g ∈ invalidated))
  && negb (bool_decide (generation_id g ∈ used))
  && matches g message
  && ((schema_version g == GENERATION_SCHEMA_V1)
      || (continuation_prefix_digest g == continuation_prefix_digest_from_history upto)).

(** One message of the first loop of [load]; [upto] ends with it. *)
Definition match_message (target : CallTarget) (allow : bool) (generations : list StoredGeneration)
    (invalidated : gset string) (index : nat) (upto : list ModelMessage) (message : ModelMessage)
    (m : Matching) : outcome ModelError Matching :=
  match find (eligible invalidated (used m) upto message) generations with
  | None => Ok m
  | Some g =>
      let v2 := schema_version g == GENERATION_SCHEMA_V2 in
      let m := {| used := {[generation_id g]} ∪ used m; matched := matched m;
                  candidate := if v2 then None else candidate m |} in
      if negb (target_matches g target) then Ok m
      else
        let? items := restore g target in
        match items with
        | None => Ok m
        | Some items =>
            let m := {| used := used m; matched := <[index := items]> (matched m);
                        candidate := candidate m |} in
            match response_id g with
            | Some response =>
                if allow && v2 then
                  match continuation_handle target response with
                  | None =>
                      Err (model_error_new "model.replay.unavailable" Caller Never
                             "the stored model continuation handle is invalid"
                             "stored model continuation handle is invalid")
                  | Some h =>
                      let? blob := invalidation_blob g in
                      Ok {| used := used m; matched := matched m;
                            candidate :=
                              Some {| handle := h; message_index := index;
                                      candidate_generation_id := generation_id g;
                                      candidate_invalidation := blob |} |}
                  end
                else Ok m
            | None => Ok m
            end
        end
  end.

Fixpoint match_messages (target : CallTarget) (allow : bool) (generations : list StoredGeneration)
    (invalidated : gset string) (before messages : list ModelMessage) (m : Matching)
    : outcome ModelError Matching :=
  match messages with
  | [] => Ok m
  | message :: messages =>
      let upto := before ++ [message] in
      let? m := match_message target allow generations invalidated (length before) upto message m in
      match_messages target allow generations invalidated upto messages m
  end.

(** The second loop: generations of this process and this turn. *)
Fixpoint match_transient (request : ModelCallSnapshot) (target : CallTarget)
    (generations : list StoredGeneration) (index : nat) (messages : list ModelMessage)
    (used : gset string) (found : gmap nat (list CapturedItem))
    : outcome ModelError (gmap nat (list CapturedItem)) :=
  match messages with
  | [] => Ok found
  | message :: messages =>
      if session.is_some (found !! index) then
        match_transient request target generations (Datatypes.S index) messages used found
      else
        match find (λ g,
          (gen_session_id g == call_session_id request) && (gen_turn_id g == call_turn_id request)
          && target_matches g target && negb (bool_decide (generation_id g ∈ used))
          && matches g message) generations with
        | None => match_transient request target generations (Datatypes.S index) messages used found
        | Some g =>
            let? items := restore g target in
            match_transient request target generations (Datatypes.S index) messages
              ({[generation_id g]} ∪ used)
              (match items with Some items => <[index := items]> found | None => found end)
        end
  end.

Definition load (clock : option Z) (target : CallTarget) (request : ModelCallSnapshot)
    (allow_server_continuation : bool) : rc ReplayHistory :=
  if negb (persist_replay request) then ret history_empty
  else
    let sid := call_session_id request in
    let messages := call_messages request in
    let! blobs := with_err store_model_error (on_store (replay_store.load sid)) in
    let! now := lift (unix_seconds clock) in
    let! read := lift (read_blobs request now blobs) in
    let '(generations, remove) := read in
    let generations := sort_by generation_le generations in
    let! w := get in
    if invalidated_poisoned w then
      fail (model_error_new "model.replay.unavailable" Caller Never
              "the model continuation state is unavailable"
              "model continuation state is unavailable")
    else
      let invalidated :=
        invalidated_continuations w ∪ list_to_set (filter_map invalidates_generation generations) in
      let tombstones := list_to_set (generation_id <$>
        List.filter (λ g, session.is_some (invalidates_generation g)) generations) in
      let! m := lift (match_messages target allow_server_continuation generations invalidated []
                        messages {| used := tombstones; matched := ∅; candidate := None |}) in
      if transient_poisoned w then
        fail (model_error_new "model.replay.unavailable" Caller Never
                "the transient model replay state is unavailable"
                "transient model replay state is unavailable")
      else
        let kept := List.filter (λ g, (gen_session_id g != sid)
                                      || (gen_turn_id g == call_turn_id request)) (transient w) in
        set_transient kept ;;
        let! found := lift (match_transient request target kept 0 messages ∅ (matched m)) in
        let! w := get in
        let grace := orphan_grace (policy (rc_store w)) in
        let orphans := List.filter (λ g,
          negb (bool_decide (generation_id g ∈ used m))
          && (saturating_add (created_at_unix_secs g) grace <=? now)%Z) generations in
        let remove := remove ++ (generation_id <$> orphans) in
        (if is_nil remove then ret tt
         else with_err store_model_error (on_store (replay_store.remove sid remove))) ;;
        ret {| by_message := found; continuation := candidate m |}.

(** A failure to persist it is only logged. *)
Definition invalidate_continuation (session_id : string) (history : ReplayHistory)
    : io (ReplayCoordinator S) Empty_set unit :=
  match continuation history with
  | None => ret tt
  | Some candidate =>
      let! w := get in
      let id := candidate_generation_id candidate in
      if invalidated_poisoned w || bool_decide (id ∈ invalidated_continuations w) then ret tt
      else
        set_invalidated ({[id]} ∪ invalidated_continuations w) ;;
        λ w, ((on_store (replay_store.commit session_id (candidate_invalidation candidate)) w).1, Ok tt)
  end.

(** The stored items of a response, and whether one has a snapshot. *)
Fixpoint store_items (items : list CapturedItem)
    : outcome ModelError (list StoredItem * bool) :=
  match items with
  | [] => Ok ([], false)
  | item :: items =>
      let required := cap_requirement item == RequirementRequired in
      let? snapshot :=
        match cap_token item with
        | Some token =>
            match snapshot_replay token with
            | Some snapshot => Ok (Some snapshot)
            | None => if required then Err required_snapshot_error else Ok None
            end
        | None => if required then Err required_snapshot_error else Ok None
        end in
      let? stored := from_captured item snapshot in
      let? rest := store_items items in
      Ok (stored :: rest.1, session.is_some snapshot || rest.2)
  end.

Definition request_generation_id (request : ModelCallSnapshot) : string :=
  context_fingerprint request +:+ ":" +:+ call_turn_id request +:+ ":" +:+ call_model_call_id request.

Definition commit (clock : option Z) (target : CallTarget) (request : ModelCallSnapshot)
    (response_id : option string) (items : list CapturedItem) : rc unit :=
  if negb (persist_replay request) || is_nil items then ret tt
  else
    let items := sort_items items in
    let prefix := continuation_prefix_digest_from_response (call_messages request) items in
    let has_required := any (λ item, cap_requirement item == RequirementRequired) items in
    let! now := lift (unix_seconds clock) in
    let! w := get in
    let expires := saturating_add now (ttl (policy (rc_store w))) in
    let! stored := lift (store_items items) in
    let '(stored_items, has_snapshot) := stored in
    let generation :=
      {| schema_version := GENERATION_SCHEMA_V2;
         generation_id := request_generation_id request;
         gen_session_id := call_session_id request;
         gen_context_fingerprint := context_fingerprint request;
         session_revision := Z.of_nat (call_session_revision request);
         gen_turn_id := call_turn_id request;
         gen_model_call_id := call_model_call_id request;
         gen_model_call_index := model_call_index request;
         gen_provider := target_provider target;
         gen_protocol := target_protocol target;
         gen_model := target_model target;
         response_id := response_id;
         continuation_prefix_digest := prefix;
         invalidates_generation := None;
         created_at_unix_secs := now;
         expires_at_unix_secs := expires;
         gen_items := stored_items |} in
    if negb has_snapshot && negb (session.is_some response_id) then
      if transient_poisoned w then
        fail (model_error_new "model.replay.unavailable" Caller Never
                "the transient model replay state is unavailable"
                "transient model replay state is unavailable")
      else set_transient (transient w ++ [generation])
    else
      match to_vec generation with
      | None =>
          fail (model_error_new "model.replay.persist_failed" Caller Never
                  "the model replay snapshot could not be serialized"
                  "model replay snapshot serialization failed")
      | Some payload =>
          let blob := {| blob_id := request_generation_id request; payload := payload |} in
          λ w,
          match on_store (replay_store.commit (call_session_id request) blob) w with
          | (w, Ok _) => (w, Ok tt)
          | (w, Err _) =>
              if has_required then
                (w, Err (model_error_new "model.replay.persist_failed" Caller Never
                           "a required model replay generation could not be persisted"
                           "required model replay generation could not be persisted"))
              else (w, Ok tt)
          | (w, Panic) => (w, Panic)
          end
      end.
End replay.

Arguments rc_store {sdk S} _.
Arguments transient {sdk S} _.
Arguments transient_poisoned {sdk S} _.
Arguments invalidated_continuations {sdk S} _.
Arguments invalidated_poisoned {sdk S} _.
Arguments Build_ReplayCoordinator {sdk S} _ _ _ _ _.
End replay.
