(* ===== verification/ReplayHistory.v ===== *)
(** What the digest of a conversation identifies
    (src/crates/philo-model/src/replay.rs, the hashing of messages).

    Module [replay_digest]: the bytes that are hashed for a conversation, each
    value with a tag and its length, determine it - as long as no system or
    summary message stands right behind a user or assistant message, where the
    tags of the parts and blocks would be taken for it.

    Where a replayed item comes from (src/crates/philo-model/src/replay.rs).

    Module [replay_history]: the uses of a coordinator - commits, loads,
    invalidations, restarts - over any store of the interface [OfferedStore], and
    what every load then gives: items of a response of this target, behind the
    very conversation they were produced in. *)

From S2P Require Import Prelude RustStr Session Tools Runtime JsonlCodec ReplayStore Replay.
From S2P Require Import ReplayStoreOps ReplayStoreLife.
From Stdlib Require Import Ascii.
Import runtime jsonl_codec replay_store replay.

Module replay_digest.

(** ** Encodings that can be followed by anything *)

Definition prefix_free {A} (P : A → Prop) (enc : A → list Byte.byte) : Prop :=
  ∀ a b x y, P a → P b → enc a ++ x = enc b ++ y → a = b ∧ x = y.

Lemma byte_of_Z_inj a b : (0 ≤ a < 256)%Z → (0 ≤ b < 256)%Z → byte_of_Z a = byte_of_Z b → a = b.
Proof.
  intros Ha Hb. unfold byte_of_Z. intros H. apply (f_equal ascii_of_byte) in H.
  rewrite !ascii_of_byte_of_ascii in H. apply (f_equal N_of_ascii) in H.
  rewrite !Z.mod_small in H by lia. rewrite !N_ascii_embedding in H by lia. lia.
Qed.

Definition u64_len {A} (l : list A) : Prop := (Z.of_nat (length l) < 2 ^ 64)%Z.

Lemma to_be_bytes_inj a b :
  (0 ≤ a < 2 ^ 64)%Z → (0 ≤ b < 2 ^ 64)%Z → to_be_bytes a = to_be_bytes b → a = b.
Proof.
  intros Ha Hb H. apply Z.bits_inj'. intros n Hn.
  destruct (decide (64 ≤ n)%Z).
  { assert (∀ c, (0 ≤ c < 2 ^ 64)%Z → Z.testbit c n = false) as Hhigh.
    { intros c Hc. destruct (decide (c = 0)%Z) as [->|]; [by rewrite Z.testbit_0_l|].
      apply Z.bits_above_log2; [lia|]. apply Z.log2_lt_pow2; [lia|].
      eapply Z.lt_le_trans; [apply Hc|]. by apply Z.pow_le_mono_r. }
    by rewrite !Hhigh. }
  assert (∀ i, (0 ≤ i ≤ 7)%Z → byte_of_Z (Z.shiftr a (8 * i)) = byte_of_Z (Z.shiftr b (8 * i))) as Hi.
  { unfold to_be_bytes in H. simpl in H. injection H as H7 H6 H5 H4 H3 H2 H1 H0.
    intros i Hi. assert (i = 0 ∨ i = 1 ∨ i = 2 ∨ i = 3 ∨ i = 4 ∨ i = 5 ∨ i = 6 ∨ i = 7)%Z as Hcase by lia.
    repeat (destruct Hcase as [->|Hcase]; [done|]). by subst. }
  pose proof (Z.div_mod n 8 ltac:(lia)) as Hdm. pose proof (Z.mod_pos_bound n 8 ltac:(lia)) as Hm.
  specialize (Hi (n / 8)%Z).
  assert (0 ≤ n / 8 ≤ 7)%Z as Hq by (split; [apply Z.div_pos; lia|apply Z.lt_succ_r, Z.div_lt_upper_bound; lia]).
  apply Hi in Hq.
  assert (∀ c, byte_of_Z c = byte_of_Z (c mod 256)) as Hmod
    by (intros c; unfold byte_of_Z; by rewrite Z.mod_mod).
  rewrite Hmod, (Hmod (Z.shiftr b _)) in Hq.
  apply byte_of_Z_inj in Hq; [|by apply Z.mod_pos_bound..].
  change 256%Z with (2 ^ 8)%Z in Hq.
  apply (f_equal (λ z, Z.testbit z (n mod 8))) in Hq.
  rewrite !Z.mod_pow2_bits_low, !Z.shiftr_spec in Hq by lia.
  by replace (n mod 8 + 8 * (n / 8))%Z with n in Hq by lia.
Qed.

Lemma hash_bytes_free : prefix_free u64_len hash_bytes.
Proof.
  intros v w x y Hv Hw. unfold hash_bytes. rewrite <- !app_assoc. intros H.
  apply app_inj_1 in H as [Hl H]; [|done].
  apply to_be_bytes_inj in Hl; [|unfold u64_len in *; lia..]. apply Nat2Z.inj in Hl.
  by apply app_inj_1 in H.
Qed.

#[local] Opaque to_be_bytes hash_bytes byte_of_Z.

Definition str_fits (s : string) : Prop := u64_len (String.list_byte_of_string s).

Lemma hash_str_free : prefix_free str_fits hash_str.
Proof.
  intros s t x y Hs Ht H. unfold hash_str in H.
  destruct (hash_bytes_free _ _ _ _ Hs Ht H) as [H' ->]. split; [|done]. clear H. rename H' into H.
  rewrite <- (String.string_of_list_byte_of_string s), H. apply String.string_of_list_byte_of_string.
Qed.

#[local] Opaque hash_str.

(** ** Lists of tagged items *)

Definition quits (x : list Byte.byte) : Prop :=
  match x with [] => True | b :: _ => b ≠ byte_of_Z 1 ∧ b ≠ byte_of_Z 2 end.

(** An encoding that starts with one of the two tags of parts and blocks. *)
Definition tagged {A} (enc : A → list Byte.byte) : Prop :=
  ∀ a, ∃ b x, enc a = b :: x ∧ (b = byte_of_Z 1 ∨ b = byte_of_Z 2).

Lemma list_free {A} (P : A → Prop) enc l k x y :
  prefix_free P enc → tagged enc → Forall P l → Forall P k → quits x → quits y →
  concat (enc <$> l) ++ x = concat (enc <$> k) ++ y → l = k ∧ x = y.
Proof.
  intros Hf Ht Hl. revert k. induction Hl as [|a l Ha Hl IH]; intros k Hk Hx Hy.
  - destruct k as [|b k]; [done|]. simpl. intros ->. exfalso.
    destruct (Ht b) as (t & z & Hb & Hor). rewrite Hb in Hx. simpl in Hx. naive_solver.
  - destruct Hk as [|b k Hb Hk]; simpl.
    + intros <-. exfalso. destruct (Ht a) as (t & z & Ha' & Hor). rewrite Ha' in Hy. simpl in Hy.
      naive_solver.
    + rewrite <- !app_assoc. intros [-> H]%Hf; [|done..].
      apply IH in H as [-> ->]; done.
Qed.

Definition block_fits (block : ModelAssistantBlock) : Prop :=
  match block with
  | ModelText text => str_fits text
  | ModelToolCallBlock call =>
      str_fits (tool_call_id call) ∧ str_fits (call_name call) ∧ str_fits (call_arguments call)
  end.

Definition byte_val (t : Z) : Prop := (0 ≤ t < 256)%Z.

Lemma hash_tag_free : prefix_free byte_val hash_tag.
Proof. intros a b x y Ha Hb [= H ->]. by apply byte_of_Z_inj in H. Qed.

(** Two encodings with tags: the tags agree, and what follows them. *)
Ltac same_tag H :=
  rewrite <- ?app_assoc in H; apply hash_tag_free in H as [? H];
  [try discriminate|unfold byte_val; lia..].

Lemma hash_block_free : prefix_free block_fits hash_block.
Proof.
  intros [s|[i n r]] [t|[i' n' r']] x y Ha Hb H; unfold hash_block in H; cbn in Ha, Hb;
    same_tag H; cbn [tool_call_id call_name call_arguments] in H.
  - by apply hash_str_free in H as [-> ->].
  - destruct Ha as (?&?&?), Hb as (?&?&?).
    apply hash_str_free in H as [-> H]; [|done..]. apply hash_str_free in H as [-> H]; [|done..].
    by apply hash_str_free in H as [-> ->].
Qed.

Lemma hash_block_tagged : tagged hash_block.
Proof. intros [s|c]; cbn; do 2 eexists; (split; [reflexivity|auto]). Qed.

Definition part_fits (part : UserPart) : Prop :=
  match part with
  | UserText text => str_fits text
  | UserImage media_type bytes => str_fits media_type ∧ u64_len bytes
  end.

Lemma hash_part_free : prefix_free part_fits hash_part.
Proof.
  intros [s|m b] [t|m' b'] x y Ha Hb H; unfold hash_part in H; cbn in Ha, Hb; same_tag H.
  - by apply hash_str_free in H as [-> ->].
  - destruct Ha, Hb. apply hash_str_free in H as [-> H]; [|done..].
    by apply hash_bytes_free in H as [-> ->].
Qed.

Lemma hash_part_tagged : tagged hash_part.
Proof. intros [s|m b]; cbn; do 2 eexists; (split; [reflexivity|auto]). Qed.

(** ** Messages *)

Definition outcome_fits (out : ModelToolResultOutcome) : Prop :=
  match out with
  | ModelSuccess content => str_fits content
  | ModelToolError code message => str_fits code ∧ str_fits message
  | _ => True
  end.

Definition message_fits (message : ModelMessage) : Prop :=
  match message with
  | ModelSystem s | ModelSummary s => str_fits s
  | ModelUser parts => Forall part_fits parts
  | ModelAssistant blocks => Forall block_fits blocks
  | ModelToolResult call_id out => str_fits call_id ∧ outcome_fits out
  end.

(** A message whose encoding has no end of its own. *)
Definition open_ended (message : ModelMessage) : bool :=
  match message with ModelUser _ | ModelAssistant _ => true | _ => false end.
(** A message whose tag is also one of a part or block. *)
Definition instruction (message : ModelMessage) : bool :=
  match message with ModelSystem _ | ModelSummary _ => true | _ => false end.

Lemma hash_message_free m n x y :
  message_fits m → message_fits n →
  (open_ended m = true → quits x) → (open_ended n = true → quits y) →
  hash_message m ++ x = hash_message n ++ y → m = n ∧ x = y.
Proof.
  intros Hm Hn Hx Hy H.
  destruct m as [s|s|ps|bs|i o], n as [t|t|qs|cs|j u]; unfold hash_message, hash_assistant_blocks in H;
    cbn in Hm, Hn, Hx, Hy; same_tag H.
  - by apply hash_str_free in H as [-> ->].
  - by apply hash_str_free in H as [-> ->].
  - apply (list_free part_fits) in H as [-> ->];
      auto using hash_part_free, hash_part_tagged.
  - apply (list_free block_fits) in H as [-> ->];
      auto using hash_block_free, hash_block_tagged.
  - destruct Hm as [Hi Ho], Hn as [Hj Hu]. apply hash_str_free in H as [-> H]; [|done..].
    destruct o as [c|c e| |], u as [d|d f| |]; cbn in Ho, Hu; same_tag H.
    + by apply hash_str_free in H as [-> ->].
    + destruct Ho, Hu. apply hash_str_free in H as [-> H]; [|done..].
      by apply hash_str_free in H as [-> ->].
    + by subst.
    + by subst.
Qed.

(** No system or summary message right behind a user or assistant message. *)
Fixpoint framed (messages : list ModelMessage) : Prop :=
  match messages with
  | m :: rest =>
      match rest with
      | n :: _ => open_ended m = true → instruction n = false
      | [] => True
      end ∧ framed rest
  | [] => True
  end.

Lemma framed_quits m rest :
  framed (m :: rest) → open_ended m = true → quits (concat (hash_message <$> rest)).
Proof.
  intros [Hn _] Ho. destruct rest as [|n rest]; [done|]. specialize (Hn Ho).
  destruct n; try discriminate; cbn; split; discriminate.
Qed.

Lemma messages_free l k :
  Forall message_fits l → Forall message_fits k → framed l → framed k →
  concat (hash_message <$> l) = concat (hash_message <$> k) → l = k.
Proof.
  intros Hl. revert k. induction Hl as [|m l Hm Hl IH]; intros k Hk Fl Fk H.
  - destruct k as [|n k]; [done|]. exfalso. destruct n; discriminate.
  - destruct Hk as [|n k Hn Hk]; [exfalso; destruct m; discriminate|].
    simpl in H. apply hash_message_free in H as [-> H];
      [|done|done|by apply framed_quits|by apply framed_quits].
    f_equal. apply IH; [done|by destruct Fl|by destruct Fk|done].
Qed.

(** ** Digests *)

Lemma hex_byte_inj a b x y : hex_byte a +:+ x = hex_byte b +:+ y → a = b ∧ x = y.
Proof.
  assert (∀ c z, hex_byte c +:+ z = String (lower_digit (Byte.to_N c / 16))
    (String (lower_digit (Byte.to_N c mod 16)) z)) as Hx by reflexivity.
  rewrite !Hx. clear Hx. intros H. injection H as H1 H2 ->. split; [|done]. revert H1 H2.
  assert (∀ c d, lower_digit (Byte.to_N c / 16) = lower_digit (Byte.to_N d / 16) →
    lower_digit (Byte.to_N c mod 16) = lower_digit (Byte.to_N d mod 16) → c = d) as Hd; [|apply Hd].
  clear. intros c d H1 H2.
  assert (∀ n m, (n < 16)%N → (m < 16)%N → lower_digit n = lower_digit m → n = m) as Hdig.
  { intros n m Hn Hm H. unfold lower_digit in H. apply (f_equal N_of_ascii) in H.
    destruct (n <? 10)%N eqn:Hn1, (m <? 10)%N eqn:Hm1;
      rewrite ?N.ltb_lt, ?N.ltb_ge in *; rewrite !N_ascii_embedding in H by lia; lia. }
  pose proof (Byte.to_N_bounded c). pose proof (Byte.to_N_bounded d).
  apply Hdig in H1; [|apply N.Div0.div_lt_upper_bound; lia..].
  apply Hdig in H2; [|apply N.mod_lt; lia..].
  assert (Byte.to_N c = Byte.to_N d) as Heq.
  { rewrite (N.div_mod (Byte.to_N c) 16), (N.div_mod (Byte.to_N d) 16) by lia. congruence. }
  apply (f_equal Byte.of_N) in Heq. rewrite !Byte.of_to_N in Heq. by injection Heq.
Qed.

Lemma encode_digest_inj a b : encode_digest a = encode_digest b → a = b.
Proof.
  unfold encode_digest. revert b. induction a as [|x a IH]; intros [|y b]; try done.
  change (concat_str (hex_byte <$> ?x :: ?a)) with (hex_byte x +:+ concat_str (hex_byte <$> a)).
  intros [-> H]%hex_byte_inj. f_equal. by apply IH.
Qed.

End replay_digest.

Import runtime jsonl_codec replay_store replay_files replay_trust replay replay_digest.

Module replay_history.

(** ** Sorting *)

Section sort.
Context {A} (le : A → A → bool).

Lemma sort_by_id l : Sorted (λ x y, le x y = true) l → sort_by le l = l.
Proof.
  induction 1 as [|x l Hs IH Hd]; [done|]. unfold sort_by in *. simpl. rewrite IH.
  destruct Hd as [|y l Hxy]; [done|]. simpl. by rewrite Hxy.
Qed.

Lemma insert_by_hd x y l : le x y = true → HdRel (λ x y, le x y = true) x l →
  HdRel (λ x y, le x y = true) x (insert_by le y l).
Proof. intros Hxy [|z l' Hz]; simpl; [by constructor|]. by destruct (le y z); constructor. Qed.

Lemma sort_by_sorted l :
  (∀ x y, le x y = true ∨ le y x = true) → Sorted (λ x y, le x y = true) (sort_by le l).
Proof.
  intros Ht. induction l as [|x l IH]; [constructor|]. unfold sort_by in *. simpl.
  revert IH. generalize (foldr (insert_by le) [] l). clear l. intros l Hs.
  induction Hs as [|y l Hs IH Hd]; simpl; [by repeat constructor|].
  destruct (le x y) eqn:Hxy; [by repeat constructor|].
  constructor; [done|]. apply insert_by_hd; [|done]. destruct (Ht x y); congruence.
Qed.

Lemma sort_by_permutes l : sort_by le l ≡ₚ l.
Proof.
  unfold sort_by. induction l as [|x l IH]; [done|]. simpl. rewrite <- IH at 2.
  generalize (foldr (insert_by le) [] l). clear. induction l as [|y l IH]; [done|]. simpl.
  destruct (le x y); [done|]. by rewrite IH, Permutation_swap.
Qed.

Lemma sort_by_elem l x : x ∈ sort_by le l → x ∈ l.
Proof. by rewrite sort_by_permutes. Qed.
End sort.

Definition index_le {sdk : Sdk} (a b : CapturedItem) : bool := (cap_index a <=? cap_index b)%Z.

Lemma index_sorted_fmap {sdk : Sdk} l k :
  Forall2 (λ a b, cap_index a = cap_index b) l k →
  Sorted (λ x y, index_le x y = true) l → Sorted (λ x y, index_le x y = true) k.
Proof.
  induction 1 as [|x y l k Hxy Hlk IH]; [done|]. intros Hs. inversion Hs as [|? ? Hl Hd]; subst.
  constructor; [by apply IH|]. destruct Hlk as [|x' y' l k Hxy' _]; [constructor|].
  inversion Hd; subst. constructor. unfold index_le in *. by rewrite <- Hxy, <- Hxy'.
Qed.

Section replay_history.
Context {sdk : Sdk} {sha : Sha256} {json : GenerationJson}.

(** [from_slice] reads what [to_vec] wrote. *)
Class GenerationJsonLaws : Prop := {
  generation_json g bytes : to_vec g = Some bytes → from_slice bytes = Some g
}.
Context {json_laws : GenerationJsonLaws}.

(** ** What a commit stores *)

Record CommitCall : Type := {
  cc_target : CallTarget;
  cc_request : ModelCallSnapshot;
  cc_response : option string;
  cc_items : list CapturedItem
}.

Definition generation_of (c : CommitCall) (now expires : Z) (stored : list StoredItem)
    : StoredGeneration :=
  let request := cc_request c in
  {| schema_version := GENERATION_SCHEMA_V2;
     generation_id := request_generation_id request;
     gen_session_id := call_session_id request;
     gen_context_fingerprint := context_fingerprint request;
     session_revision := Z.of_nat (call_session_revision request);
     gen_turn_id := call_turn_id request;
     gen_model_call_id := call_model_call_id request;
     gen_model_call_index := model_call_index request;
     gen_provider := target_provider (cc_target c);
     gen_protocol := target_protocol (cc_target c);
     gen_model := target_model (cc_target c);
     response_id := cc_response c;
     continuation_prefix_digest :=
       continuation_prefix_digest_from_response (call_messages request) (sort_items (cc_items c));
     invalidates_generation := None;
     created_at_unix_secs := now;
     expires_at_unix_secs := expires;
     gen_items := stored |}.

Definition built (c : CommitCall) (g : StoredGeneration) : Prop :=
  ∃ now expires stored snap,
    store_items (sort_items (cc_items c)) = Ok (stored, snap) ∧ g = generation_of c now expires stored.

(** What a blob of a session may be: what a commit stored, or the mark that it
    is invalid. *)
Definition genuine (cs : list CommitCall) : Offer := λ sid blob,
  ∃ g, from_slice (payload blob) = Some g ∧
    ∃ c g0, c ∈ cs ∧ call_session_id (cc_request c) = sid ∧ built c g0 ∧
      (g = g0 ∨ g = invalidation g0).

Lemma genuine_mono cs cs' sid blob : cs ⊆ cs' → genuine cs sid blob → genuine cs' sid blob.
Proof. intros Hs (g & Hg & c & g0 & Hc & H). exists g. split; [done|]. exists c, g0. set_solver. Qed.

(** ** Uses of a coordinator *)

Context {S : Type} {store : ModelReplayStore S} {offered : OfferedStore S}.

Definition valid_call (c : CommitCall) : Prop :=
  valid_utf8 (request_generation_id (cc_request c)) = true.

(** The commits so far, the histories loaded since the last restart, and the
    coordinator. *)
Inductive uses : list CommitCall → list (string * ReplayHistory) → ReplayCoordinator S → Prop :=
| uses_new s : only (λ _ _, False) s → uses [] [] (coordinator_new s)
| uses_load cs hs w clock target request allow w' r :
    uses cs hs w → load clock target request allow w = (w', r) →
    uses cs (hs ++ match r with Ok h => [(call_session_id request, h)] | _ => [] end) w'
| uses_commit cs hs w clock c w' r :
    uses cs hs w → valid_call c →
    commit clock (cc_target c) (cc_request c) (cc_response c) (cc_items c) w = (w', r) →
    uses (cs ++ [c]) hs w'
| uses_invalidate cs hs w sid h w' r :
    uses cs hs w → (sid, h) ∈ hs → invalidate_continuation sid h w = (w', r) → uses cs hs w'
| uses_restart cs hs w s' :
    uses cs hs w → lost (rc_store w) s' → uses cs [] (coordinator_new s').

Definition coordinator_inv (cs : list CommitCall) (w : ReplayCoordinator S) : Prop :=
  only (genuine cs) (rc_store w) ∧ Forall (λ g, ∃ c, c ∈ cs ∧ built c g) (transient w).

Lemma coordinator_mono cs cs' w : cs ⊆ cs' → coordinator_inv cs w → coordinator_inv cs' w.
Proof.
  intros Hs [Ho Ht]. split.
  - eapply only_weaken; [|exact Ho]. intros sid b. by apply genuine_mono.
  - eapply Forall_impl; [exact Ht|]. intros g (c & Hc & Hb). exists c. split; [by apply Hs|done].
Qed.

(** ** Commits *)

Lemma on_store_run {E A} (m : io S E A) w :
  on_store m w =
  (Build_ReplayCoordinator (m (rc_store w)).1 (transient w) (transient_poisoned w)
     (invalidated_continuations w) (invalidated_poisoned w), (m (rc_store w)).2).
Proof. unfold on_store. by destruct (m (rc_store w)). Qed.

Lemma generation_id_ok r : valid_utf8 (request_generation_id r) = true → id_ok (request_generation_id r).
Proof.
  intros Hv. split; [|done]. unfold request_generation_id.
  destruct (context_fingerprint r); [|done]. by destruct (call_turn_id r).
Qed.

Lemma on_store_inv {E A} cs (m : io S E A) w :
  coordinator_inv cs w → only (genuine cs) (m (rc_store w)).1 → coordinator_inv cs (on_store m w).1.
Proof. intros [Ho Ht] Hm. by rewrite on_store_run. Qed.

Lemma commit_inv cs w clock c w' r :
  coordinator_inv cs w → valid_call c →
  commit clock (cc_target c) (cc_request c) (cc_response c) (cc_items c) w = (w', r) →
  coordinator_inv (cs ++ [c]) w'.
Proof.
  intros HI Hv H. assert (coordinator_inv (cs ++ [c]) w) as HI'.
  { eapply coordinator_mono; [|done]. set_solver. }
  assert (c ∈ cs ++ [c]) as Hc by set_solver.
  revert H. unfold commit. destruct (_ || _); [by intros [= <- _]|].
  unfold bind, lift, get. destruct (unix_seconds clock) as [now|e|]; [|by intros [= <- _]..].
  destruct (store_items _) as [[stored snap]|e|] eqn:Hs; [|by intros [= <- _]..].
  set (expires := saturating_add _ _).
  assert (built c (generation_of c now expires stored)) as Hb by (by exists now, expires, stored, snap).
  destruct (_ && _).
  { destruct (transient_poisoned w); [by intros [= <- _]|]. unfold set_transient. intros [= <- _].
    destruct HI' as [Ho Ht]. split; [done|]. cbn. apply Forall_app. split; [done|].
    apply Forall_singleton. by exists c. }
  destruct (to_vec _) as [payload|] eqn:Hp; [|by intros [= <- _]].
  intros H. assert (w' = (on_store (replay_store.commit (call_session_id (cc_request c))
    {| blob_id := request_generation_id (cc_request c); payload := payload |}) w).1) as ->.
  { revert H. destruct (on_store _ w) as [w1 [?|?|]]; [by intros [= <- _]| |by intros [= <- _]].
    destruct (any _ _); by intros [= <- _]. }
  apply on_store_inv; [done|]. apply only_commit; [apply HI'|by apply generation_id_ok|].
  exists (generation_of c now expires stored). split; [by apply generation_json|].
  exists c, (generation_of c now expires stored). by repeat split; [| |left].
Qed.
(** ** Loads *)

(** [g] fits message [i] of a history. *)
Record bound (target : CallTarget) (invalidated : gset string) (messages : list ModelMessage)
    (i : nat) (g : StoredGeneration) : Prop := {
  bd_fresh : invalidates_generation g = None;
  bd_valid : generation_id g ∉ invalidated;
  bd_matches : ∃ message, messages !! i = Some message ∧ matches g message = true;
  bd_digest : schema_version g = GENERATION_SCHEMA_V1 ∨
    continuation_prefix_digest g
      = continuation_prefix_digest_from_history (take (Datatypes.S i) messages);
  bd_target : target_matches g target = true
}.

Definition items_from (target : CallTarget) (invalidated : gset string)
    (messages : list ModelMessage) (gens : list StoredGeneration) (i : nat)
    (items : list CapturedItem) : Prop :=
  ∃ g, g ∈ gens ∧ bound target invalidated messages i g ∧ restore g target = Ok (Some items).

Record candidate_from (target : CallTarget) (invalidated : gset string)
    (messages : list ModelMessage) (gens : list StoredGeneration) (c : ContinuationCandidate)
    : Prop := {
  cf_generation : ∃ g response, g ∈ gens ∧ bound target invalidated messages (message_index c) g ∧
    schema_version g = GENERATION_SCHEMA_V2 ∧ response_id g = Some response ∧
    continuation_handle target response = Some (handle c) ∧
    candidate_generation_id c = generation_id g ∧
    invalidation_blob g = Ok (candidate_invalidation c)
}.

Record matching_ok (target : CallTarget) (invalidated : gset string)
    (messages : list ModelMessage) (gens : list StoredGeneration) (m : Matching) : Prop := {
  mk_items i items : matched m !! i = Some items → items_from target invalidated messages gens i items;
  mk_candidate c : candidate m = Some c → candidate_from target invalidated messages gens c
}.

Lemma match_message_ok target allow gens invalidated before message rest m m' :
  let messages := before ++ message :: rest in
  matching_ok target invalidated messages gens m →
  match_message target allow gens invalidated (length before) (before ++ [message]) message m = Ok m' →
  matching_ok target invalidated messages gens m'.
Proof.
  intros messages [Hi Hc]. unfold match_message.
  destruct (find _ gens) as [g|] eqn:Hf; [|by intros [= <-]].
  apply find_some in Hf as [Hg He]. apply list_elem_of_In in Hg.
  unfold eligible in He. apply andb_true_iff in He as [He Hd]. apply andb_true_iff in He as [He Hm].
  apply andb_true_iff in He as [He _]. apply andb_true_iff in He as [Hfr Hv].
  assert (target_matches g target = true →
          bound target invalidated messages (length before) g) as Hb.
  { intros Ht. split; [by destruct (invalidates_generation g)|..|done].
    - apply negb_true_iff, bool_decide_eq_false in Hv. done.
    - exists message. split; [|done]. by apply list_lookup_middle.
    - apply orb_true_iff in Hd as [Hd%bool_decide_eq_true|Hd%bool_decide_eq_true]; [by left|right].
      rewrite Hd. f_equal. unfold messages.
      rewrite (app_assoc before [message] rest : before ++ message :: rest = _).
      rewrite take_app_length'; [done|]. rewrite length_app. simpl. lia. }
  destruct (target_matches g target); simpl; [|intros [= <-]; split; simpl; [done|]].
  2: { intros c. by destruct (schema_version g == GENERATION_SCHEMA_V2); [|apply Hc]. }
  specialize (Hb eq_refl).
  destruct (restore g target) as [[items|]|e|] eqn:Hr; simpl; [| |done|done].
  2: { intros [= <-]; split; simpl; [done|].
       intros c. by destruct (schema_version g == GENERATION_SCHEMA_V2); [|apply Hc]. }
  assert (∀ i its, <[length before:=items]> (matched m) !! i = Some its →
    items_from target invalidated messages gens i its) as Hits.
  { intros i its [[<- <-]|[_ ?]]%lookup_insert_Some; [by exists g|by apply Hi]. }
  assert (matching_ok target invalidated messages gens
    {| used := {[generation_id g]} ∪ used m; matched := <[length before:=items]> (matched m);
       candidate := if schema_version g == GENERATION_SCHEMA_V2 then None else candidate m |}) as Hok.
  { split; [exact Hits|]. intros c. simpl.
    by destruct (schema_version g == GENERATION_SCHEMA_V2); [|apply Hc]. }
  destruct (response_id g) as [response|] eqn:Hresp; [|by intros [= <-]].
  destruct (allow && _) eqn:Hv2; [|by intros [= <-]].
  apply andb_true_iff in Hv2 as [_ Hv2%bool_decide_eq_true].
  destruct (continuation_handle target response) as [h|] eqn:Hh; [|done].
  destruct (invalidation_blob g) as [blob|e|] eqn:Hblob; simpl; [|done..].
  intros [= <-]. split; [exact Hits|]. intros c [= <-]. split. by exists g, response.
Qed.

Lemma match_messages_ok target allow gens invalidated before messages m m' :
  matching_ok target invalidated (before ++ messages) gens m →
  match_messages target allow gens invalidated before messages m = Ok m' →
  matching_ok target invalidated (before ++ messages) gens m'.
Proof.
  revert before m. induction messages as [|message messages IH]; intros before m Hok; simpl.
  { by intros [= <-]. }
  destruct (match_message _ _ _ _ _ _ _ _) as [m1|e|] eqn:Hm; [|done..].
  apply (match_message_ok _ _ _ _ _ _ messages) in Hm; [|done].
  replace (before ++ message :: messages) with ((before ++ [message]) ++ messages) in *
    by (by rewrite <- app_assoc). by apply IH.
Qed.

(** A generation of this process and turn that fits a message. *)
Definition items_of_turn (request : ModelCallSnapshot) (target : CallTarget)
    (gens : list StoredGeneration) (i : nat) (items : list CapturedItem) : Prop :=
  ∃ g message, g ∈ gens ∧ gen_session_id g = call_session_id request ∧
    gen_turn_id g = call_turn_id request ∧ target_matches g target = true ∧
    call_messages request !! i = Some message ∧ matches g message = true ∧
    restore g target = Ok (Some items).

Lemma match_transient_ok request target gens before messages us found found' :
  call_messages request = before ++ messages →
  match_transient request target gens (length before) messages us found = Ok found' →
  ∀ i items, found' !! i = Some items →
    found !! i = Some items ∨ items_of_turn request target gens i items.
Proof.
  revert before us found. induction messages as [|message messages IH]; intros before us found Hall.
  { simpl. intros [= <-]. by left. }
  assert (call_messages request = (before ++ [message]) ++ messages) as Hall'
    by (by rewrite <- app_assoc).
  assert (Datatypes.S (length before) = length (before ++ [message])) as Hlen
    by (rewrite length_app; simpl; lia).
  simpl. rewrite Hlen. destruct (session.is_some _); [by apply IH|].
  destruct (find _ gens) as [g|] eqn:Hf; [|by apply IH].
  apply find_some in Hf as [Hg He]. apply list_elem_of_In in Hg.
  apply andb_true_iff in He as [He Hm]. apply andb_true_iff in He as [He _].
  apply andb_true_iff in He as [He Ht]. apply andb_true_iff in He as [Hs Htu].
  apply bool_decide_eq_true in Hs, Htu.
  destruct (restore g target) as [items|e|] eqn:Hr; simpl; [|done..].
  intros Hrest i its Hi. destruct (IH _ _ _ Hall' Hrest i its Hi) as [Hin|?]; [|by right].
  destruct items as [items|]; [|by left].
  apply lookup_insert_Some in Hin as [[<- <-]|[_ ?]]; [right|by left].
  exists g, message. repeat split; try done. rewrite Hall. by apply list_lookup_middle.
Qed.

Lemma read_blobs_ok request now blobs gens removed :
  read_blobs request now blobs = Ok (gens, removed) →
  Forall (λ g, (now < expires_at_unix_secs g)%Z ∧
    (session_revision g ≤ Z.of_nat (call_session_revision request))%Z ∧
    gen_session_id g = call_session_id request ∧
    ∃ blob, blob ∈ blobs ∧ blob_id blob = generation_id g ∧ from_slice (payload blob) = Some g) gens.
Proof.
  revert gens removed. induction blobs as [|blob blobs IH]; intros gens removed; simpl.
  { intros [= <- <-]. constructor. }
  destruct (from_slice (payload blob)) as [g|] eqn:Hg; [|done].
  destruct (_ || _) eqn:Hbad; [done|].
  destruct (read_blobs request now blobs) as [[gs rm]|e|]; simpl; [|done..].
  specialize (IH gs rm eq_refl).
  assert (Forall (λ g, (now < expires_at_unix_secs g)%Z ∧
    (session_revision g ≤ Z.of_nat (call_session_revision request))%Z ∧
    gen_session_id g = call_session_id request ∧
    ∃ b, b ∈ blob :: blobs ∧ blob_id b = generation_id g ∧ from_slice (payload b) = Some g) gs) as IH'.
  { eapply Forall_impl; [exact IH|]. intros g' (?&?&?&b&?&?&?). repeat split; try done.
    exists b. set_solver. }
  destruct (_ <=? now)%Z eqn:Hexp; [by intros [= <- <-]|].
  destruct (session_revision g <=? _)%Z eqn:Hrev; [|by intros [= <- <-]].
  intros [= <- <-]. constructor; [|done]. apply Z.leb_gt in Hexp. apply Z.leb_le in Hrev.
  apply orb_false_iff in Hbad as [Hbad Hses]. apply orb_false_iff in Hbad as [_ Hid].
  apply negb_false_iff, bool_decide_eq_true in Hses, Hid.
  repeat split; try done. exists blob. set_solver.
Qed.
(** What a load serves. *)
Record served (cs : list CommitCall) (request : ModelCallSnapshot) (target : CallTarget)
    (h : ReplayHistory) : Prop := {
  sv_items i items : by_message h !! i = Some items → ∃ g c, c ∈ cs ∧ built c g ∧
    call_session_id (cc_request c) = call_session_id request ∧
    restore g target = Ok (Some items) ∧
    ((∃ invalidated, bound target invalidated (call_messages request) i g) ∨
     (gen_turn_id g = call_turn_id request ∧ target_matches g target = true ∧
      ∃ message, call_messages request !! i = Some message ∧ matches g message = true));
  sv_candidate k : continuation h = Some k → ∃ g c response invalidated, c ∈ cs ∧ built c g ∧
    call_session_id (cc_request c) = call_session_id request ∧
    bound target invalidated (call_messages request) (message_index k) g ∧
    cc_response c = Some response ∧ continuation_handle target response = Some (handle k) ∧
    genuine cs (call_session_id request) (candidate_invalidation k) ∧
    id_ok (blob_id (candidate_invalidation k))
}.

(** Every blob of a load is one of the commits'. *)
Lemma gens_built cs request gens blobs now removed :
  read_blobs request now blobs = Ok (gens, removed) →
  Forall (genuine cs (call_session_id request)) blobs →
  ∀ g, g ∈ gens → invalidates_generation g = None →
    ∃ c, c ∈ cs ∧ call_session_id (cc_request c) = call_session_id request ∧ built c g.
Proof.
  intros Hr%read_blobs_ok Hb g Hg Hnone.
  rewrite Forall_forall in Hr. rewrite Forall_forall in Hb. destruct (Hr _ Hg) as (_&_&_&blob&Hin&_&Hs).
  destruct (Hb _ Hin) as (g'&Hs'&c&g0&Hc&Hsid&Hbuilt&Hor). simplify_eq.
  destruct Hor as [->| ->]; [|done]. by exists c.
Qed.

Lemma tombstone_blob cs sid c g blob :
  c ∈ cs → call_session_id (cc_request c) = sid → built c g → valid_call c →
  invalidation_blob g = Ok blob → genuine cs sid blob ∧ id_ok (blob_id blob).
Proof.
  intros Hc Hsid Hb Hv. unfold invalidation_blob. destruct (to_vec _) as [p|] eqn:Hp; [|done].
  intros [= <-]. split.
  - exists (invalidation g). split; [by apply generation_json|]. exists c, g. repeat split; try done. by right.
  - destruct Hb as (now&expires&stored&snap&_&->). cbn [blob_id invalidation generation_id generation_of].
    pose proof (generation_id_ok _ Hv) as [Hne _]. split.
    + by destruct (request_generation_id (cc_request c)).
    + by apply valid_utf8_app.
Qed.

Lemma load_served cs w clock target request allow w' r :
  coordinator_inv cs w → Forall valid_call cs → load clock target request allow w = (w', r) →
  coordinator_inv cs w' ∧ ∀ h, r = Ok h → served cs request target h.
Proof.
  intros HI Hvalid. unfold load. destruct (persist_replay request); simpl.
  2: { intros [= <- <-]. split; [done|]. intros h [= <-]. by split. }
  unfold bind, with_err at 1. rewrite on_store_run.
  destruct (only_load _ (call_session_id request) _ (proj1 HI)) as [Hs Hblobs].
  destruct (replay_store.load _ _) as [s [blobs|e|]]; cbn in Hs, Hblobs |- *;
    [|by intros [= <- <-]; split; [split; [|apply HI]|]..].
  specialize (Hblobs _ eq_refl).
  set (w1 := Build_ReplayCoordinator s _ _ _ _). assert (coordinator_inv cs w1) as HI1 by (split; [done|apply HI]).
  destruct (unix_seconds clock) as [now|e|]; cbn; [|by intros [= <- <-]; split..].
  destruct (read_blobs request now blobs) as [[gens removed]|e|] eqn:Hread; cbn; [|by intros [= <- <-]; split..].
  destruct (invalidated_poisoned w); [by intros [= <- <-]; split|]. cbn.
  set (invalidated := _ ∪ list_to_set _).
  destruct (match_messages _ _ _ _ _ _ _) as [m|e|] eqn:Hm; cbn; [|by intros [= <- <-]; split..].
  apply (match_messages_ok target allow _ invalidated []) in Hm; [|by split].
  destruct (transient_poisoned w); [by intros [= <- <-]; split|]. cbn.
  set (kept := List.filter _ (transient w)).
  assert (∀ g, g ∈ kept → g ∈ transient w) as Hkept.
  { intros g. rewrite !list_elem_of_In. by intros [? _]%filter_In. }
  set (w2 := Build_ReplayCoordinator s kept _ _ _).
  assert (coordinator_inv cs w2) as HI2.
  { split; [done|]. destruct HI as [_ Ht]. rewrite Forall_forall in Ht.
    apply Forall_forall. intros g Hg. by apply Ht, Hkept. }
  destruct (match_transient _ _ _ _ _ _ _) as [found|e|] eqn:Hfound; cbn; [|by intros [= <- <-]; split..].
  pose proof (match_transient_ok _ _ _ [] _ _ _ _ eq_refl Hfound) as Hf.
  pose proof (gens_built _ _ _ _ _ _ Hread Hblobs) as Hgens.
  assert (served cs request target {| by_message := found; continuation := candidate m |}) as Hserved.
  { split.
    - intros i items [Hit|Hit]%Hf.
      + destruct (mk_items _ _ _ _ _ Hm _ _ Hit) as (g & Hg%sort_by_elem & Hb & Hr).
        destruct (Hgens g Hg (bd_fresh _ _ _ _ _ Hb)) as (c & Hc & Hsid & Hbt).
        exists g, c. repeat split; try done. left. by exists invalidated.
      + destruct Hit as (g & message & Hg%Hkept & Hsid & Htu & Ht & Hmi & Hma & Hr).
        destruct HI as [_ Htr]. rewrite Forall_forall in Htr. destruct (Htr _ Hg) as (c & Hc & Hb).
        exists g, c. assert (call_session_id (cc_request c) = call_session_id request).
        { rewrite <- Hsid. by destruct Hb as (?&?&?&?&_&->). }
        repeat split; try done. right. split; [done|]. split; [done|]. by exists message.
    - intros k Hk. destruct (mk_candidate _ _ _ _ _ Hm _ Hk) as [(g&response&Hg%sort_by_elem&Hb&_&Hresp&Hh&_&Hblob)].
      destruct (Hgens g Hg (bd_fresh _ _ _ _ _ Hb)) as (c & Hc & Hsid & Hbt).
      rewrite Forall_forall in Hvalid.
      destruct (tombstone_blob _ _ _ _ _ Hc Hsid Hbt (Hvalid _ Hc) Hblob) as [Hgen Hid].
      exists g, c, response, invalidated.
      refine (conj Hc (conj Hbt (conj Hsid (conj Hb (conj _ (conj Hh (conj Hgen Hid))))))).
      by destruct Hbt as (?&?&?&?&_&->). }
  destruct (is_nil _); cbn.
  { intros [= <- <-]. split; [done|]. by intros h [= <-]. }
  unfold with_err. rewrite on_store_run. cbn.
  set (ids := _ ++ _). pose proof (only_remove _ (call_session_id request) ids _ (proj1 HI2)) as Hrm. cbn in Hrm.
  destruct (replay_store.remove _ ids s) as [s2 [[]|e|]]; cbn in *; intros [= <- <-];
    (split; [split; [done|apply HI2]|]); try done. by intros h [= <-].
Qed.
End replay_history.
End replay_history.
