(* ===== verification/ReplaySound.v ===== *)
(** What is replayed belongs where it is replayed
    (src/crates/philo-model/src/replay.rs).

    Module [replay_sound]: the invariant of all uses of a coordinator, what the
    stored digests say about the history of a load, and what comes back of an
    item that was captured. *)

From S2P Require Import Prelude RustStr Session Tools Runtime JsonlCodec ReplayStore.
From S2P Require Import ReplayStoreOps ReplayStoreLife Replay ReplayHistory.
Import runtime jsonl_codec replay_store replay_files replay_trust replay replay_digest replay_history.

Module replay_sound.

Section sound.
Context {sdk : Sdk} {sha : Sha256} {json : GenerationJson} {json_laws : GenerationJsonLaws}.

(** ** The invariant *)

Section uses.
Context {S : Type} {store : ModelReplayStore S} {offered : OfferedStore S}.

Definition histories_ok (cs : list CommitCall) (hs : list (string * ReplayHistory)) : Prop :=
  ∀ sid h, (sid, h) ∈ hs → ∀ k, continuation h = Some k →
    genuine cs sid (candidate_invalidation k) ∧ id_ok (blob_id (candidate_invalidation k)).

Lemma invalidate_inv cs hs sid h w :
  coordinator_inv cs w → histories_ok cs hs → (sid, h) ∈ hs →
  coordinator_inv cs (invalidate_continuation sid h w).1.
Proof.
  intros HI Hok Hin. unfold invalidate_continuation.
  destruct (continuation h) as [k|] eqn:Hk; [|done]. unfold bind, get. cbn.
  destruct (_ || _); [done|]. cbn. apply (on_store_inv cs (replay_store.commit sid _)); [done|].
  destruct (Hok _ _ Hin _ Hk). apply only_commit; [apply HI|done..].
Qed.

Lemma uses_inv cs hs w :
  uses cs hs w → Forall valid_call cs ∧ coordinator_inv cs w ∧ histories_ok cs hs.
Proof.
  induction 1 as [s Hs|cs hs w clock target request allow w' r _ (Hv & HI & Hok) Hl
    |cs hs w clock c w' r _ (Hv & HI & Hok) Hc Hcm|cs hs w sid h w' r _ (Hv & HI & Hok) Hin Hr
    |cs hs w s' _ (Hv & HI & Hok) Hl].
  - split; [constructor|]. split; [|by intros ? ? ?%not_elem_of_nil].
    split; [|constructor]. eapply only_weaken; [|exact Hs]. by intros.
  - split; [done|]. destruct (load_served _ _ _ _ _ _ _ _ HI Hv Hl) as [HI' Hs]. split; [done|].
    intros sid h [Hin|Hin]%elem_of_app k Hk; [by eapply Hok|].
    destruct r as [h'|e|]; [|by apply not_elem_of_nil in Hin..].
    apply list_elem_of_singleton in Hin as [= -> ->].
    by destruct (sv_candidate _ _ _ _ (Hs _ eq_refl) _ Hk) as (g&c&resp&inv&_&_&_&_&_&_&?&?).
  - split; [by apply Forall_app; rewrite Forall_singleton|].
    split; [by eapply commit_inv|]. intros sid h Hin k Hk. destruct (Hok _ _ Hin _ Hk).
    split; [|done]. eapply genuine_mono; [|done]. set_solver.
  - split; [done|]. split; [|done].
    replace w' with (invalidate_continuation sid h w).1 by (by rewrite Hr).
    by eapply invalidate_inv.
  - split; [done|]. split; [|by intros ? ? ?%not_elem_of_nil].
    split; [|constructor]. eapply only_lost; [apply HI|done].
Qed.
End uses.

(** ** What comes back of a captured item *)

(** The text of a text item and the name and arguments of a call are taken from
    the message; a token is restored from the snapshot of the captured one, where
    there is one and the client restores it. *)
Definition replayed_content (content : CapturedContent) : CapturedContent :=
  match content with
  | CapText _ => CapText ""
  | CapReasoning kind text => CapReasoning kind text
  | CapToolCall call_id _ _ => CapToolCall call_id "" ""
  end.

Definition snapshot_of (it : CapturedItem) : option ReplaySnapshot := cap_token it ≫= snapshot_replay.
Definition token_back (target : CallTarget) (it : CapturedItem) : option ReplayToken :=
  snapshot ← snapshot_of it;
  match restore_replay target snapshot with inr token => Some token | inl _ => None end.

Record comes_back (target : CallTarget) (it it' : CapturedItem) : Prop := {
  cb_index : cap_index it' = cap_index it;
  cb_requirement : cap_requirement it' = cap_requirement it;
  cb_content : cap_content it' = replayed_content (cap_content it);
  cb_token : cap_token it' = token_back target it;
  cb_required : cap_requirement it = RequirementRequired → session.is_some (cap_token it') = true
}.

Lemma requirement_back r s : requirement_from_sdk r = Ok s → requirement_to_sdk s = r.
Proof. by destruct r; intros [= <-]. Qed.
Lemma kind_back k s : kind_from_sdk k = Ok s → kind_to_sdk s = k.
Proof. by destruct k; intros [= <-]. Qed.

Lemma item_back target it snapshot stored token :
  snapshot = snapshot_of it →
  from_captured it snapshot = Ok stored → restore_token target stored = Ok (Some token) →
  comes_back target it (to_captured stored token).
Proof.
  intros Hsnap. unfold from_captured.
  destruct (match cap_content it with CapText _ => _ | _ => _ end) as [content|e|] eqn:Hc;
    simpl; [|done..].
  destruct (requirement_from_sdk (cap_requirement it)) as [req|e|] eqn:Hq; simpl; [|done..].
  intros [= <-]. unfold restore_token. simpl. intros Ht.
  apply requirement_back in Hq. split; simpl; try done.
  - destruct (cap_content it) as [t|k t|i n a]; simpl in Hc.
    + by injection Hc as <-.
    + destruct (kind_from_sdk k) eqn:Hk; [|done..]. injection Hc as <-.
      apply kind_back in Hk. by rewrite Hk.
    + by injection Hc as <-.
  - unfold token_back. rewrite <- Hsnap. destruct snapshot as [s|]; cbn.
    + destruct (restore_replay target s) as [[]|t]; [done| |by injection Ht as ->].
      destruct (req != StoredRequired); [by injection Ht as ->|done].
    + destruct (req == StoredRequired); [done|by injection Ht as ->].
  - intros Hreq. assert (req = StoredRequired) as -> by (destruct req; simpl in *; congruence).
    destruct snapshot as [s|]; simpl in Ht; [|done].
    by destruct (restore_replay target s) as [[]|t]; simplify_eq/=.
Qed.

Lemma items_back target items stored snap restored :
  store_items items = Ok (stored, snap) → restore_items target stored = Ok (Some restored) →
  Forall2 (comes_back target) items restored.
Proof.
  revert stored snap restored. induction items as [|it items IH]; intros stored snap restored; simpl.
  { intros [= <- <-] [= <-]. constructor. }
  destruct (match cap_token it with Some token => _ | None => _ end) as [snapshot|e|] eqn:Hs;
    simpl; [|done..].
  destruct (from_captured it snapshot) as [st|e|] eqn:Hf; simpl; [|done..].
  destruct (store_items items) as [[rest sn]|e|] eqn:Hr; simpl; [|done..].
  intros [= <- <-]. simpl. destruct (restore_token target st) as [[token|]|e|] eqn:Ht; simpl; [|done..].
  destruct (restore_items target rest) as [[back|]|e|] eqn:Hb; simpl; [|done..].
  intros [= <-]. constructor; [|by eapply IH].
  eapply item_back; [|exact Hf|exact Ht]. unfold snapshot_of.
  destruct (cap_token it) as [t|]; cbn; [destruct (snapshot_replay t)|];
    first [by injection Hs as ->|by destruct (_ == _); [|injection Hs as ->]].
Qed.

Lemma sort_items_sorted items : Sorted (λ x y, index_le x y = true) (sort_items items).
Proof.
  apply (sort_by_sorted index_le). intros x y. unfold index_le. rewrite !Z.leb_le. lia.
Qed.

(** The items of a generation come back in order. *)
Lemma restore_back target c g items :
  built c g → restore g target = Ok (Some items) →
  Forall2 (comes_back target) (sort_items (cc_items c)) items.
Proof.
  intros (now & expires & stored & snap & Hs & ->). unfold restore. cbn [gen_items generation_of].
  destruct (restore_items target stored) as [[back|]|e|] eqn:Hb; simpl; [|done..].
  intros [= <-]. pose proof (items_back _ _ _ _ _ Hs Hb) as Hf.
  assert (sort_items back = back) as ->; [|done].
  apply (sort_by_id index_le). eapply index_sorted_fmap; [|apply sort_items_sorted].
  eapply Forall2_impl; [exact Hf|]. by intros x y [].
Qed.

(** ** Histories *)

Definition answer_of (c : CommitCall) : ModelMessage :=
  ModelAssistant (assistant_blocks_from_captured (sort_items (cc_items c))).

(** The conversation a call leaves behind. *)
Definition left_by (c : CommitCall) : list ModelMessage := call_messages (cc_request c) ++ [answer_of c].

Definition hashed (messages : list ModelMessage) : list Byte.byte := concat (hash_message <$> messages).

Lemma response_hashed c :
  continuation_prefix_digest_from_response (call_messages (cc_request c)) (sort_items (cc_items c)) =
  Some (encode_digest (digest (hashed (left_by c)))).
Proof.
  unfold continuation_prefix_digest_from_response, hashed, left_by, answer_of.
  rewrite fmap_app, concat_app. cbn [fmap list_fmap concat hash_message]. by rewrite app_nil_r.
Qed.

Lemma history_hashed messages d :
  continuation_prefix_digest_from_history messages = Some d →
  d = encode_digest (digest (hashed messages)).
Proof.
  unfold continuation_prefix_digest_from_history. destruct messages as [|m l _] using rev_ind; [done|].
  rewrite last_snoc, removelast_last. destruct m as [| | |blocks|]; try done. intros [= <-].
  unfold hashed. rewrite fmap_app, concat_app. cbn [fmap list_fmap concat hash_message].
  by rewrite app_nil_r.
Qed.

(** Values of a size that memory has, and no instruction inside. *)
Definition well_framed (messages : list ModelMessage) : Prop :=
  Forall message_fits messages ∧ framed messages.

Lemma framed_snoc l blocks : framed l → framed (l ++ [ModelAssistant blocks]).
Proof. induction l as [|m [|n l] IH]; [done|by intros _|]. intros [? ?]. split; [done|by apply IH]. Qed.

Lemma framed_take n l : framed l → framed (take n l).
Proof.
  revert n. induction l as [|m l IH]; intros [|n]; [done..|]. intros [Hm Hl]. simpl. split; [|by apply IH].
  destruct n as [|n]; [done|]. by destruct l.
Qed.

Definition call_framed (c : CommitCall) : Prop :=
  well_framed (call_messages (cc_request c)) ∧ message_fits (answer_of c).

(** The digest tells the two conversations apart. *)
Definition no_collision (messages messages' : list ModelMessage) : Prop :=
  digest (hashed messages) = digest (hashed messages') → hashed messages = hashed messages'.

Lemma built_history target invalidated messages i c g :
  built c g → bound target invalidated messages i g → call_framed c → well_framed messages →
  no_collision (left_by c) (take (Datatypes.S i) messages) →
  take (Datatypes.S i) messages = left_by c.
Proof.
  intros Hb [_ _ _ Hd _] [[Hcf Hcfr] Hca] [Hf Hfr] Hno.
  assert (schema_version g = GENERATION_SCHEMA_V2 ∧ continuation_prefix_digest g =
    Some (encode_digest (digest (hashed (left_by c))))) as [Hv Hg].
  { destruct Hb as (?&?&?&?&_&->). split; [done|]. apply response_hashed. }
  destruct Hd as [Hd|Hd]; [by rewrite Hv in Hd|]. rewrite Hg in Hd. symmetry in Hd.
  apply history_hashed, encode_digest_inj, Hno in Hd. symmetry.
  apply messages_free; [| | |by apply framed_take|done].
  - unfold left_by. apply Forall_app. by rewrite Forall_singleton.
  - by apply Forall_take.
  - by apply framed_snoc.
Qed.

Lemma target_fields g target : target_matches g target = true →
  target = {| target_provider := gen_provider g; target_protocol := gen_protocol g;
              target_model := gen_model g |}.
Proof.
  unfold target_matches. intros [[H1 H2]%andb_true_iff H3]%andb_true_iff.
  apply bool_decide_eq_true in H1, H2, H3. destruct target. simpl in *. by subst.
Qed.

Lemma built_target c g target : built c g → target_matches g target = true → cc_target c = target.
Proof.
  intros (?&?&?&?&_&->) Ht%target_fields. rewrite Ht. simpl. by destruct (cc_target c).
Qed.

(** ** The theorem *)

Context {S : Type} {store : ModelReplayStore S} {offered : OfferedStore S}.

(** C17: What a load replays was produced behind the very conversation it is
    replayed in. Through any commits, loads, invalidations, restarts and losses
    of the store: items given for a message come, one by one and in order, from
    the items a response of the same session and the same target was committed
    with, and the history up to that message is the request of that response
    followed by its answer - or, for items this process keeps without a stored
    snapshot, the response is one of the same turn with the same texts and calls.
    A continuation always continues the conversation of its response. (As long
    as the digest does not collide on these conversations.) *)
Theorem replayed_behind_its_own_history cs hs w clock target request allow w' h
    (Hu : uses cs hs w) (Hcs : Forall call_framed cs) (Hm : well_framed (call_messages request))
    (Hno : ∀ c i, c ∈ cs → no_collision (left_by c) (take i (call_messages request)))
    (Hl : load clock target request allow w = (w', Ok h)) :
  (∀ i items, by_message h !! i = Some items → ∃ c, c ∈ cs ∧
     call_session_id (cc_request c) = call_session_id request ∧ cc_target c = target ∧
     Forall2 (comes_back target) (sort_items (cc_items c)) items ∧
     (take (Datatypes.S i) (call_messages request) = left_by c ∨
      call_turn_id (cc_request c) = call_turn_id request ∧
      ∃ g message, built c g ∧ call_messages request !! i = Some message ∧ matches g message = true)) ∧
  (∀ k, continuation h = Some k → ∃ c response, c ∈ cs ∧
     call_session_id (cc_request c) = call_session_id request ∧ cc_target c = target ∧
     take (Datatypes.S (message_index k)) (call_messages request) = left_by c ∧
     cc_response c = Some response ∧ continuation_handle target response = Some (handle k)).
Proof.
  apply uses_inv in Hu as (Hv & HI & _). rewrite Forall_forall in Hcs.
  destruct (load_served _ _ _ _ _ _ _ _ HI Hv Hl) as [_ Hs]. destruct (Hs h eq_refl) as [Hi Hk].
  split.
  - intros i items (g & c & Hc & Hb & Hsid & Hr & Hor)%Hi. exists c.
    pose proof (restore_back _ _ _ _ Hb Hr) as Hback.
    destruct Hor as [[invalidated Hbd]|(Htu & Ht & message & Hmi & Hma)].
    + pose proof (built_target _ _ _ Hb (bd_target _ _ _ _ _ Hbd)).
      repeat split; try done. left. eapply built_history; eauto.
    + pose proof (built_target _ _ _ Hb Ht). repeat split; try done. right.
      split; [|by exists g, message]. rewrite <- Htu. by destruct Hb as (?&?&?&?&_&->).
  - intros k (g & c & response & invalidated & Hc & Hb & Hsid & Hbd & Hresp & Hh & _)%Hk.
    exists c, response. pose proof (built_target _ _ _ Hb (bd_target _ _ _ _ _ Hbd)).
    repeat split; try done. eapply built_history; eauto.
Qed.
End sound.
End replay_sound.
