(* ===== verification/ModelErrors.v ===== *)
(** How a failure of the provider's client becomes the runtime's [ModelError]
    (src/crates/philo-model/src/error.rs).

    Module [model_errors]: a [PhiloError] is the record of what its accessors
    return, among them the renderings of the client's own [Debug]; [debug_str] is
    the standard library's [Debug] of a string, which depends on the Unicode
    tables of printable characters. The redaction of URLs works on the
    characters of the text.

    What a diagnostic of the model adapter shows of a URL
    (src/crates/philo-model/src/error.rs).

    Module [redaction]: the equation of the redaction loop, whose fuel is always
    enough; two texts that differ in what a URL has after its first question
    mark or hash, or in the user information before its authority, are redacted
    to the same text, under the conditions of [differ_in_secret]; how long a redacted
    text may be. What is not redacted is shown in [ModelDemo.v]. *)

From S2P Require Import Prelude RustStr Runtime Replay.
Import runtime replay.

Module model_errors.

Class DebugStr : Type := { debug_str : string → string }.

(** ** The provider's client, as far as error.rs sees it *)

Inductive FaultDomain : Type := FaultProvider | FaultNetwork | FaultCaller | FaultSdk | FaultOther.
Inductive RetryAdvice : Type := AdviceNever | AdviceSafe | AdviceMayDuplicate | AdviceOther.
Inductive ContinuationFailure : Type := PreviousResponseUnavailable | ContinuationOther.
#[export] Instance continuation_failure_eq : EqDecision ContinuationFailure.
Proof. solve_decision. Defined.

Record ProviderSummary : Type := {
  ps_message : option string;
  ps_code : option string;
  ps_kind : option string;
  ps_param : option string;
  ps_request_id : option string;
  body_truncated : bool
}.

(** [retry_after] is in milliseconds, a [u128]; [sources] is the chain of
    [source], each displayed. *)
Record PhiloError : Type := {
  kind_debug : string;
  kind_is_transport : bool;
  stage_debug : string;
  philo_code : string;
  details_debug : string;
  context_debug : string;
  retry_report_debug : option string;
  provider_summary : option ProviderSummary;
  sources : list string;
  fault_domain : FaultDomain;
  retry_advice : RetryAdvice;
  retry_after : option Z;
  semantic_summary : string;
  continuation_failure : option ContinuationFailure
}.

Definition map_domain (d : FaultDomain) : FailureDomain :=
  match d with
  | FaultProvider => Provider
  | FaultNetwork => Network
  | FaultCaller => Caller
  | FaultSdk => Internal
  | FaultOther => Internal
  end.

Definition map_disposition (advice : RetryAdvice) (after : option Z) : RetryDisposition :=
  let retry_after_ms := (λ ms, if (ms <=? u64_max)%Z then ms else u64_max) <$> after in
  match advice with
  | AdviceNever => Never
  | AdviceSafe => Safe retry_after_ms
  | AdviceMayDuplicate => MayDuplicate retry_after_ms
  | AdviceOther => Never
  end.

Definition caller_error (code message : string) : ModelError :=
  model_error_new code Caller Never message message.

Definition provider_stream_error (code message : string) : ModelError :=
  model_error_new code Provider (MayDuplicate None) message message.

Definition sdk_retry_word (error : PhiloError) : string :=
  match retry_advice error with
  | AdviceNever => "Never"
  | AdviceSafe => "Safe"
  | AdviceMayDuplicate => "MayDuplicate"
  | AdviceOther => "Never"
  end.

(** ** Redaction *)

Definition scheme_mark : list string := [":"; "/"; "/"].

(** [rest.find("://")]. *)
Fixpoint find_scheme (l : list string) : option nat :=
  match l with
  | [] => None
  | c :: l' => if take 3 l == scheme_mark then Some 0 else S <$> find_scheme l'
  end.

Definition ends_token (c : string) : bool :=
  is_whitespace c || (c == ")") || (c == "]") || (c == "}").
Definition starts_secret (c : string) : bool := (c == "?") || (c == "#").
Definition is_slash (c : string) : bool := c == "/".
Definition is_at (c : string) : bool := c == "@".

(** [s.find(pred).unwrap_or(s.len())]. *)
Definition offset (f : string → bool) (l : list string) : nat := default (length l) (position f l).

(** [s.rfind('@')]. *)
Fixpoint rposition {A} (f : A → bool) (l : list A) : option nat :=
  match l with
  | [] => None
  | x :: l =>
      match rposition f l with
      | Some i => Some (S i)
      | None => if f x then Some 0 else None
      end
  end.

Definition redacted : list string := chars "<redacted>".

(** What is printed for the text between the scheme mark and the end of the
    token. *)
Definition redact_tail (url_tail : list string) : list string :=
  let secret_offset := offset starts_secret url_tail in
  let visible_url := take secret_offset url_tail in
  let authority_end := offset is_slash visible_url in
  match rposition is_at (take authority_end visible_url) with
  | Some user_info_end => redacted ++ ["@"] ++ drop (S user_info_end) visible_url
  | None => visible_url
  end
  ++ (match url_tail !! secret_offset with Some mark => mark :: redacted | None => [] end).

Fixpoint redact_chars (fuel : nat) (rest : list string) : list string :=
  match fuel with
  | O => rest
  | S fuel =>
      match find_scheme rest with
      | None => rest
      | Some scheme_offset =>
          let prefix_end := scheme_offset + 3 in
          let tail := drop prefix_end rest in
          let token_end := offset ends_token tail in
          take prefix_end rest ++ redact_tail (take token_end tail)
          ++ redact_chars fuel (drop token_end tail)
      end
  end.

Definition redact_url_secrets (value : string) : string :=
  concat_str (redact_chars (length (chars value)) (chars value)).

Definition MAX_CHARS : nat := 512.

Definition bounded_single_line (value : string) : string :=
  let normalized := (λ c, if is_control c then " " else c) <$> take MAX_CHARS (chars value) in
  let truncated := bool_decide (MAX_CHARS < length (chars value)) in
  redact_url_secrets (concat_str normalized +:+ (if truncated then "..." else "")).

(** The cause at depth 16 at most. *)
Definition deepest_cause (error : PhiloError) : option string :=
  deepest ← last (take 16 (sources error));
  let cause := bounded_single_line deepest in
  if negb (str_is_empty cause) && negb (starts_with "transport " cause) then Some cause else None.

Section model_error.
Context {debug : DebugStr}.

Definition summary_field (name : string) (value : option string) : string :=
  match value with
  | Some value => " provider_" +:+ name +:+ "=" +:+ debug_str (bounded_single_line value)
  | None => ""
  end.

Definition diagnostic_of (error : PhiloError) : string :=
  "philo model call failed: kind=" +:+ kind_debug error +:+ " stage=" +:+ stage_debug error
  +:+ " code=" +:+ philo_code error +:+ " class=" +:+ debug_str (sdk_retry_word error)
  +:+ " details=" +:+ details_debug error +:+ " context=" +:+ context_debug error
  +:+ match retry_report_debug error with Some retry => " retry=" +:+ retry | None => "" end
  +:+ match provider_summary error with
      | Some s =>
          summary_field "message" (ps_message s) +:+ summary_field "code" (ps_code s)
          +:+ summary_field "kind" (ps_kind s) +:+ summary_field "param" (ps_param s)
          +:+ summary_field "request_id" (ps_request_id s)
          +:+ (if body_truncated s then " provider_body_truncated=true" else "")
      | None => ""
      end
  +:+ (if kind_is_transport error then
         match deepest_cause error with
         | Some cause => " cause=" +:+ debug_str cause
         | None => ""
         end
       else "").

Definition model_error (error : PhiloError) : ModelError :=
  model_error_new ("model." +:+ philo_code error) (map_domain (fault_domain error))
    (map_disposition (retry_advice error) (retry_after error)) (semantic_summary error)
    (diagnostic_of error).
End model_error.

End model_errors.

Import runtime replay model_errors.

Module redaction.

(** ** The loop *)

Lemma find_scheme_bound l o : find_scheme l = Some o → o + 3 ≤ length l.
Proof.
  revert o. induction l as [|c l IH]; intros o; [done|]. cbn [find_scheme].
  case_bool_decide as Hm.
  - intros [= <-]. apply (f_equal length) in Hm. rewrite length_take in Hm.
    change (length scheme_mark) with 3 in Hm. lia.
  - intros (o' & Ho & ->)%fmap_Some. specialize (IH _ Ho). simpl. lia.
Qed.

Lemma find_scheme_lookup l o i : find_scheme l = Some o → i < 3 → l !! (o + i) = scheme_mark !! i.
Proof.
  revert o. induction l as [|c l IH]; intros o; [done|]. cbn [find_scheme].
  case_bool_decide as Hm.
  - intros [= <-] Hi. rewrite <- Hm. by rewrite lookup_take_lt.
  - intros (o' & Ho & ->)%fmap_Some Hi. by apply IH.
Qed.

Lemma find_scheme_app l x o : find_scheme l = Some o → find_scheme (l ++ x) = Some o.
Proof.
  revert o. induction l as [|c l IH]; intros o; [done|]. intros Ho.
  pose proof (find_scheme_bound _ _ Ho) as Hb. revert Ho. cbn [find_scheme app].
  rewrite (app_comm_cons l x c). rewrite (take_app_le (c :: l)) by (simpl in *; lia).
  case_bool_decide as Hm; [done|]. intros (o' & Ho & ->)%fmap_Some. by rewrite (IH _ Ho).
Qed.

Lemma find_scheme_mark pre : ∃ o, find_scheme (pre ++ scheme_mark) = Some o.
Proof.
  induction pre as [|c pre [o Ho]]; [by exists 0|]. cbn [app find_scheme].
  case_bool_decide; [by exists 0|]. rewrite Ho. by exists (S o).
Qed.

(** Enough fuel gives the loop's result. *)
Lemma redact_fuel n l : length l ≤ n → redact_chars n l = redact_chars (length l) l.
Proof.
  revert l. induction n as [n IH] using (well_founded_induction lt_wf). intros l Hn.
  destruct n as [|n], l as [|c l]; [done|simpl in *; lia|done|].
  cbn [length]. cbn [redact_chars]. destruct (find_scheme (c :: l)) as [o|] eqn:Ho; [|done].
  apply find_scheme_bound in Ho. f_equal. f_equal. set (t := drop _ (drop (o + 3) _)).
  assert (length t ≤ length l) as Hl.
  { unfold t. rewrite !length_drop. simpl in *. lia. }
  rewrite (IH n), <- (IH (length l)); simpl in *; lia || done.
Qed.

Definition redact (l : list string) : list string := redact_chars (length l) l.

Lemma redact_none l : find_scheme l = None → redact l = l.
Proof. unfold redact. intros H. destruct l; [done|]. cbn [length redact_chars]. by rewrite H. Qed.

Lemma redact_some l o :
  find_scheme l = Some o →
  redact l = take (o + 3) l
    ++ redact_tail (take (offset ends_token (drop (o + 3) l)) (drop (o + 3) l))
    ++ redact (drop (offset ends_token (drop (o + 3) l)) (drop (o + 3) l)).
Proof.
  unfold redact at 1. intros Ho. pose proof (find_scheme_bound _ _ Ho) as Hb.
  destruct l as [|c l]; [simpl in Hb; lia|]. cbn [length redact_chars]. rewrite Ho.
  do 2 f_equal. unfold redact. apply redact_fuel. rewrite !length_drop. simpl in *. lia.
Qed.

(** ** Positions *)

Lemma position_app_none {A} (f : A → bool) l x :
  Forall (λ c, f c = false) l → position f (l ++ x) = (λ i, length l + i) <$> position f x.
Proof.
  induction 1 as [|c l Hc _ IH]; simpl; [by destruct (position f x)|].
  rewrite Hc, IH. by destruct (position f x).
Qed.

Lemma position_app_some {A} (f : A → bool) l x i :
  position f l = Some i → position f (l ++ x) = Some i.
Proof.
  revert i. induction l as [|c l IH]; intros i; [done|]. simpl. destruct (f c); [done|].
  intros (j & Hj & ->)%fmap_Some. by rewrite (IH _ Hj).
Qed.

Lemma position_none {A} (f : A → bool) l : position f l = None → Forall (λ c, f c = false) l.
Proof.
  induction l as [|c l IH]; simpl; [constructor|]. destruct (f c) eqn:Hc; [done|].
  intros H%fmap_None. constructor; auto.
Qed.

Lemma position_bound {A} (f : A → bool) l i :
  position f l = Some i → i < length l ∧ ∃ c, l !! i = Some c ∧ f c = true.
Proof.
  revert i. induction l as [|c l IH]; intros i; [done|]. simpl. destruct (f c) eqn:Hc.
  - intros [= <-]. split; [lia|]. by exists c.
  - intros (j & Hj & ->)%fmap_Some. destruct (IH _ Hj) as [? ?]. split; [lia|done].
Qed.

Lemma offset_app f l x :
  Forall (λ c, f c = false) l → offset f (l ++ x) = length l + offset f x.
Proof.
  intros Hl. unfold offset. rewrite position_app_none by done. rewrite length_app.
  by destruct (position f x).
Qed.

Lemma offset_app_in f l x c : f c = true → offset f (l ++ c :: x) = offset f (l ++ [c]).
Proof.
  intros Hc. unfold offset. destruct (position f l) as [i|] eqn:Hi.
  - by rewrite !(position_app_some _ _ _ _ Hi).
  - rewrite !position_app_none by (by apply position_none). simpl. by rewrite Hc.
Qed.

Lemma offset_bound f l : offset f l ≤ length l.
Proof.
  unfold offset. destruct (position f l) as [i|] eqn:Hi; [|done].
  apply position_bound in Hi as [? _]. simpl. lia.
Qed.

(** A token stops at what follows it. *)
Definition token_stops (l : list string) : Prop :=
  match l with [] => True | c :: _ => ends_token c = true end.

Lemma offset_stops l : token_stops l → offset ends_token l = 0.
Proof. destruct l as [|c l]; [done|]. simpl. unfold offset. simpl. by intros ->. Qed.

Definition in_token (c : string) : Prop := ends_token c = false.

Lemma mark_in_token : Forall in_token scheme_mark.
Proof. repeat constructor. Qed.

(** ** Queries *)

(** What stands behind the mark of a query does not show. *)
Lemma redact_tail_query b mark s :
  starts_secret mark = true → redact_tail (b ++ mark :: s) = redact_tail (b ++ [mark]).
Proof.
  intros Hm. unfold redact_tail. rewrite (offset_app_in _ _ s) by done.
  set (p := offset starts_secret (b ++ [mark])).
  assert (p ≤ length b) as Hp.
  { unfold p, offset. destruct (position starts_secret b) as [i|] eqn:Hi.
    - rewrite (position_app_some _ _ _ _ Hi). apply position_bound in Hi as [? _]. simpl. lia.
    - rewrite position_app_none by (by apply position_none). simpl. rewrite Hm. simpl. lia. }
  rewrite !take_app_le by lia.
  replace ((b ++ mark :: s) !! p) with ((b ++ [mark]) !! p); [done|].
  destruct (decide (p < length b)).
  - by rewrite !lookup_app_l.
  - rewrite !lookup_app_r by lia. by replace (p - length b) with 0 by lia.
Qed.

(** [closed pre]: no URL of [pre] is still open at its end. *)
Definition closed (pre : list string) : Prop :=
  find_scheme pre = None ∨ ∃ c, last pre = Some c ∧ ends_token c = true.

Lemma find_scheme_fresh pre o :
  find_scheme pre = None → find_scheme (pre ++ scheme_mark) = Some o → o = length pre.
Proof.
  revert o. induction pre as [|c pre IH]; intros o; [by intros _ [= <-]|].
  cbn [find_scheme app]. case_bool_decide as Hm; [done|]. intros Hn%fmap_None.
  case_bool_decide as Hm'.
  - exfalso. destruct pre as [|d [|e pre]]; [done..|]. by apply Hm.
  - intros (o' & Ho & ->)%fmap_Some. by rewrite (IH _ Hn Ho).
Qed.

(** One turn of the loop on [pre ++ scheme_mark ++ x]: either a URL of [pre] is
    dealt with, or the token goes on into [x]. *)
Lemma redact_turn pre :
  (∃ head pre', length pre' < length pre ∧ (closed pre → closed pre')
     ∧ ∀ x, redact (pre ++ scheme_mark ++ x) = head ++ redact (pre' ++ scheme_mark ++ x))
  ∨ (∃ head b, Forall in_token b ∧ (closed pre → b = [])
     ∧ ∀ x, redact (pre ++ scheme_mark ++ x) =
         head ++ redact_tail (b ++ take (offset ends_token x) x)
         ++ redact (drop (offset ends_token x) x)).
Proof.
  destruct (find_scheme_mark pre) as [o Ho]. pose proof (find_scheme_bound _ _ Ho) as Hb.
  rewrite length_app in Hb. change (length scheme_mark) with 3 in Hb.
  set (b := drop (o + 3) (pre ++ scheme_mark)).
  assert (∀ x, redact (pre ++ scheme_mark ++ x) = take (o + 3) (pre ++ scheme_mark)
     ++ redact_tail (take (offset ends_token (b ++ x)) (b ++ x))
     ++ redact (drop (offset ends_token (b ++ x)) (b ++ x))) as Hr.
  { intros x. rewrite app_assoc. rewrite (redact_some _ o) by (by apply find_scheme_app).
    by rewrite drop_app_le, take_app_le by (rewrite length_app; simpl; lia). }
  destruct (position ends_token b) as [t|] eqn:Ht.
  - left. destruct (position_bound _ _ _ Ht) as (Hlt & c & Hc & He).
    assert (∃ pre', b = take t b ++ pre' ++ scheme_mark ∧ length pre' < length pre
              ∧ (last pre' = last pre)) as (pre' & Hpre & Hlen & Hlast).
    { assert (o + 3 + t < length pre) as Hot.
      { apply not_le. intros Hge. unfold b in Hc. rewrite lookup_drop, lookup_app_r in Hc by lia.
        pose proof (Forall_lookup_1 _ _ _ _ mark_in_token Hc) as Hin. unfold in_token in Hin.
        congruence. }
      exists (drop (o + 3 + t) pre). split; [|split; [rewrite length_drop; lia|]].
      - rewrite <- (take_drop t b) at 1. f_equal. unfold b. rewrite drop_drop.
        rewrite drop_app_le by lia. done.
      - rewrite <- (take_drop (o + 3 + t) pre) at 2. rewrite last_app.
        destruct (last (drop _ pre)) eqn:Hl; [done|]. apply last_None in Hl.
        apply (f_equal length) in Hl. rewrite length_drop in Hl. simpl in Hl. lia. }
    exists (take (o + 3) (pre ++ scheme_mark) ++ redact_tail (take t b)), pre'.
    split; [done|]. split.
    + intros [Hn|Hl]; [|right; by rewrite Hlast]. exfalso.
      apply (find_scheme_fresh _ _ Hn) in Ho. subst o. unfold b in Hlt.
      rewrite length_drop, length_app in Hlt. simpl in Hlt. lia.
    + intros x. rewrite Hr. replace (offset ends_token (b ++ x)) with t
        by (unfold offset; by rewrite (position_app_some _ _ _ _ Ht)).
      rewrite (take_app_le b x), (drop_app_le b x) by lia. rewrite <- app_assoc. do 3 f_equal.
      rewrite Hpre at 1. rewrite drop_app_length' by (rewrite length_take; lia).
      by rewrite app_assoc.
  - right. apply position_none in Ht. exists (take (o + 3) (pre ++ scheme_mark)), b.
    split; [done|]. split.
    + intros [Hn|(c & Hl & He)]; unfold b.
      * apply (find_scheme_fresh _ _ Hn) in Ho. subst o. apply drop_ge. rewrite length_app. simpl. lia.
      * apply drop_ge. rewrite length_app. change (length scheme_mark) with 3.
        apply not_lt. intros Hlt. apply last_Some in Hl as [l ->].
        rewrite length_app in *. simpl in *.
        destruct (decide (o + 3 ≤ length l)) as [Hle|Hgt].
        -- apply (Forall_lookup_1 _ _ (length l - (o + 3)) c) in Ht; [simpl in Ht; congruence|].
           unfold b. rewrite lookup_drop. rewrite lookup_app_l by (rewrite length_app; simpl; lia).
           apply list_lookup_middle. lia.
        -- assert (((l ++ [c]) ++ scheme_mark) !! length l = Some c) as Hc.
           { rewrite lookup_app_l by (rewrite length_app; simpl; lia). by apply list_lookup_middle. }
           replace (length l) with (o + (length l - o)) in Hc by lia.
           rewrite (find_scheme_lookup _ _ (length l - o) Ho) in Hc by lia.
           pose proof (Forall_lookup_1 _ _ _ _ mark_in_token Hc) as Hin. unfold in_token in Hin.
           congruence.
    + intros x. rewrite Hr. rewrite offset_app by done.
      by rewrite take_app_add, drop_app_add.
Qed.

(** ** Secrets *)

(** Whatever a query is, the same is shown. *)
Lemma redact_query pre host mark s1 s2 rest :
  Forall in_token host → in_token mark → starts_secret mark = true →
  Forall in_token s1 → Forall in_token s2 → token_stops rest →
  redact (pre ++ scheme_mark ++ host ++ mark :: s1 ++ rest) =
  redact (pre ++ scheme_mark ++ host ++ mark :: s2 ++ rest).
Proof.
  intros Hh Hm Hsm Hs1 Hs2 Hr.
  assert (∀ s, Forall in_token s → Forall in_token (host ++ mark :: s)) as Hin.
  { intros s Hs. apply Forall_app. split; [done|]. by constructor. }
  assert (∀ b s, Forall in_token s →
    redact_tail (b ++ take (offset ends_token (host ++ mark :: s ++ rest)) (host ++ mark :: s ++ rest))
    ++ redact (drop (offset ends_token (host ++ mark :: s ++ rest)) (host ++ mark :: s ++ rest))
    = redact_tail (b ++ host ++ [mark]) ++ redact rest) as Hx.
  { intros b s Hs. replace (host ++ mark :: s ++ rest) with ((host ++ mark :: s) ++ rest)
      by (by rewrite <- app_assoc).
    rewrite offset_app, (offset_stops rest), Nat.add_0_r by auto.
    rewrite take_app_length, drop_app_length. rewrite app_assoc, redact_tail_query by done.
    by rewrite <- app_assoc. }
  induction pre as [pre IH] using (induction_ltof1 _ length). unfold ltof in IH.
  destruct (redact_turn pre) as [(hd & pre' & Hlt & _ & Heq)|(hd & b & _ & _ & Heq)].
  - rewrite !Heq. f_equal. by apply IH.
  - rewrite !Heq. f_equal. by rewrite !Hx.
Qed.

(** A character of the user information of a URL. *)
Definition user_char (c : string) : Prop :=
  in_token c ∧ starts_secret c = false ∧ is_slash c = false.

Lemma rposition_app_r {A} (f : A → bool) l x i :
  rposition f x = Some i → rposition f (l ++ x) = Some (length l + i).
Proof. intros Hx. induction l as [|c l IH]; [done|]. simpl. by rewrite IH. Qed.

Lemma rposition_some {A} (f : A → bool) c x : f c = true → ∃ i, rposition f (c :: x) = Some i.
Proof. intros Hc. simpl. destruct (rposition f x); [by eexists|]. rewrite Hc. by eexists. Qed.

(** The user information does not show, and what does is the same for any. *)
Lemma redact_tail_user x :
  ∃ out, ∀ u, Forall user_char u → redact_tail (u ++ "@" :: x) = out.
Proof.
  assert (∃ k, offset starts_secret ("@" :: x) = S k) as [k Hk].
  { unfold offset. simpl. destruct (position starts_secret x); by eexists. }
  assert (∃ j, offset is_slash ("@" :: take k x) = S j) as [j Hj].
  { unfold offset. simpl. destruct (position is_slash (take k x)); by eexists. }
  destruct (rposition_some is_at "@" (take j (take k x))) as [i Hi]; [done|].
  eexists. intros u Hu. unfold redact_tail.
  rewrite offset_app by (eapply Forall_impl; [exact Hu|by intros c (_ & ? & _)]).
  rewrite Hk, take_app_add. cbn [take].
  rewrite offset_app by (eapply Forall_impl; [exact Hu|by intros c (_ & _ & ?)]).
  rewrite Hj, take_app_add. cbn [take]. rewrite (rposition_app_r _ _ _ _ Hi).
  rewrite <- Nat.add_succ_r, drop_app_add.
  rewrite lookup_app_r by lia. replace (length u + S k - length u) with (S k) by lia.
  reflexivity.
Qed.

Lemma redact_user pre u1 u2 rest :
  closed pre → Forall user_char u1 → Forall user_char u2 →
  redact (pre ++ scheme_mark ++ u1 ++ "@" :: rest) =
  redact (pre ++ scheme_mark ++ u2 ++ "@" :: rest).
Proof.
  intros Hc H1 H2.
  induction pre as [pre IH] using (induction_ltof1 _ length). unfold ltof in IH.
  destruct (redact_turn pre) as [(hd & pre' & Hlt & Hc' & Heq)|(hd & b & _ & Hb & Heq)].
  - rewrite !Heq. f_equal. auto.
  - rewrite !Heq, (Hb Hc). f_equal.
    assert (∀ u, Forall user_char u →
      offset ends_token (u ++ "@" :: rest) = length u + offset ends_token ("@" :: rest)) as Ho.
    { intros u Hu. apply offset_app. eapply Forall_impl; [exact Hu|by intros c (? & _)]. }
    rewrite !Ho, !take_app_add, !drop_app_add by done. f_equal.
    assert (∃ k, offset ends_token ("@" :: rest) = S k) as [k ->].
    { unfold offset. simpl. destruct (position ends_token rest); by eexists. }
    destruct (redact_tail_user (take k rest)) as [out Hout]. cbn [take app]. by rewrite !Hout.
Qed.

(** ** The line that is kept of a text *)

Definition line_char (c : string) : string := if is_control c then " " else c.
Definition dots (l : list string) : list string :=
  if bool_decide (MAX_CHARS < length l) then ["."; "."; "."] else [].

Lemma char_list_line l : char_list l → char_list (line_char <$> l).
Proof.
  assert (∀ P : string → Prop, P " " → ∀ k, Forall P k → Forall P (line_char <$> k)) as Hmap.
  { intros P HP k Hk. apply Forall_fmap. eapply Forall_impl; [exact Hk|].
    intros c Hc. unfold compose, line_char. by destruct (is_control c). }
  intros [Hs Hl]. split; [by apply Hmap|]. destruct l as [|c l]; [constructor|].
  simpl in *. by apply Hmap.
Qed.

(** The characters that are redacted. *)
Lemma bounded_chars value :
  bounded_single_line value =
  concat_str (redact ((line_char <$> take MAX_CHARS (chars value)) ++ dots (chars value))).
Proof.
  unfold bounded_single_line, redact_url_secrets.
  change (λ c, if is_control c then " " else c) with line_char.
  assert (chars (concat_str (line_char <$> take MAX_CHARS (chars value)) +:+
                 (if bool_decide (MAX_CHARS < length (chars value)) then "..." else "")) =
          (line_char <$> take MAX_CHARS (chars value)) ++ dots (chars value)) as Hc.
  { unfold dots. case_bool_decide.
    - change "..." with (concat_str ["."; "."; "."]). rewrite <- concat_str_app.
      apply chars_concat, char_list_app; [|by repeat constructor..].
      apply char_list_line, char_list_take, chars_char_list.
    - change "" with (concat_str []). rewrite <- concat_str_app.
      apply chars_concat. rewrite app_nil_r. apply char_list_line, char_list_take, chars_char_list. }
  by rewrite Hc.
Qed.

(** A character that stays as it is, inside a URL. *)
Definition plain_char (c : string) : Prop := in_token c ∧ is_control c = false.

Lemma line_plain l : Forall plain_char l → line_char <$> l = l.
Proof.
  induction 1 as [|c l [_ Hc] _ IH]; [done|]. csimpl. rewrite IH. unfold line_char. by rewrite Hc.
Qed.

(** Where a URL ends: a text that is over, or goes on with one of the
    characters that end a token. *)
Definition url_ends (l : list string) : Prop :=
  match l with [] => True | c :: _ => ends_token c = true ∨ is_control c = true end.

(** Two texts are cut alike: they have the same length, or are not cut. *)
Definition cut_alike (l k : list string) : Prop :=
  length l = length k ∨ length l ≤ MAX_CHARS ∧ length k ≤ MAX_CHARS.

(** Two texts that differ in a query or fragment, or in the user information of
    a URL that the line has as a whole. *)
Inductive differ_in_secret : list string → list string → Prop :=
| differ_query pre host mark s1 s2 rest :
    Forall plain_char host → starts_secret mark = true → Forall plain_char s1 →
    Forall plain_char s2 → url_ends rest →
    cut_alike (pre ++ scheme_mark ++ host ++ mark :: s1 ++ rest)
              (pre ++ scheme_mark ++ host ++ mark :: s2 ++ rest) →
    differ_in_secret (pre ++ scheme_mark ++ host ++ mark :: s1 ++ rest)
                     (pre ++ scheme_mark ++ host ++ mark :: s2 ++ rest)
| differ_user pre u1 u2 rest :
    closed (line_char <$> pre) → Forall user_char u1 → Forall user_char u2 →
    Forall plain_char u1 → Forall plain_char u2 →
    length pre + 3 + length u1 < MAX_CHARS →
    cut_alike (pre ++ scheme_mark ++ u1 ++ "@" :: rest) (pre ++ scheme_mark ++ u2 ++ "@" :: rest) →
    differ_in_secret (pre ++ scheme_mark ++ u1 ++ "@" :: rest)
                     (pre ++ scheme_mark ++ u2 ++ "@" :: rest).

Lemma starts_secret_plain mark : starts_secret mark = true → plain_char mark.
Proof. intros [Hm%bool_decide_eq_true|Hm%bool_decide_eq_true]%orb_true_iff; subst; by split. Qed.

Lemma dots_length l k : length l = length k → dots l = dots k.
Proof. unfold dots. by intros ->. Qed.

Lemma dots_plain l : Forall plain_char (dots l).
Proof. unfold dots. case_bool_decide; repeat constructor. Qed.

Lemma plain_in_token l : Forall plain_char l → Forall in_token l.
Proof. intros Hl. eapply Forall_impl; [exact Hl|by intros c []]. Qed.

Lemma line_stops l : url_ends l → token_stops (line_char <$> l).
Proof.
  destruct l as [|c l]; [done|]. simpl. unfold line_char. destruct (is_control c) eqn:Hc; [done|].
  by intros [?|?].
Qed.

(** A query cut short at the length of the line. *)
Lemma redact_query_cut n pre host mark s1 s2 rest d :
  Forall plain_char host → starts_secret mark = true → Forall plain_char s1 →
  Forall plain_char s2 → length s1 = length s2 → url_ends rest → Forall plain_char d →
  redact ((line_char <$> take n (pre ++ scheme_mark ++ host ++ mark :: s1 ++ rest)) ++ d) =
  redact ((line_char <$> take n (pre ++ scheme_mark ++ host ++ mark :: s2 ++ rest)) ++ d).
Proof.
  intros Hh Hm H1 H2 Hlen Hr Hd. pose proof (starts_secret_plain _ Hm) as Hmp.
  set (front := pre ++ scheme_mark ++ host ++ [mark]).
  assert (∀ s, pre ++ scheme_mark ++ host ++ mark :: s ++ rest = front ++ s ++ rest) as Hf.
  { intros s. unfold front. by rewrite <- !app_assoc. }
  rewrite !Hf. destruct (decide (n ≤ length front)) as [Hn|Hn]; [by rewrite !take_app_le|].
  replace n with (length front + (n - length front)) by lia. rewrite !take_app_add.
  set (k := n - length front).
  assert (∀ s, Forall plain_char s → ∃ s' rest', Forall plain_char s' ∧ token_stops rest'
    ∧ (line_char <$> front ++ take k (s ++ rest)) ++ d =
        (line_char <$> pre) ++ scheme_mark ++ host ++ mark :: s' ++ rest'
    ∧ rest' = match take (k - length s) rest with
              | [] => []
              | r => (line_char <$> r) ++ d
              end) as Hs.
  { intros s Hs. unfold front. rewrite !fmap_app, take_app, fmap_app.
    pose proof (line_plain _ (Forall_take _ k _ Hs)) as Hlk.
    rewrite (line_plain host), Hlk by done.
    change (line_char <$> scheme_mark) with scheme_mark.
    rewrite (line_plain [mark]) by (by constructor).
    destruct (take (k - length s) rest) as [|c r] eqn:Ht.
    - exists (take k s ++ d), []. split; [apply Forall_app; split; [apply Forall_take; exact Hs|exact Hd]|].
      split; [done|]. split; [|done]. 
      change (line_char <$> []) with (@nil string).
      by rewrite !app_nil_r, <- !app_assoc.
    - exists (take k s), ((line_char <$> c :: r) ++ d). split; [apply Forall_take; exact Hs|].
      split; [|split; [by rewrite <- !app_assoc|done]].
      assert (url_ends (c :: r)) as He.
      { destruct rest as [|c' rest]; [by rewrite take_nil in Ht|].
        destruct (k - length s); simplify_eq/=. done. }
      by apply line_stops in He. }
  destruct (Hs s1 H1) as (a & ra & Ha & Hra & -> & Ea), (Hs s2 H2) as (b & rb & Hb & _ & -> & Eb).
  rewrite Hlen, <- Eb in Ea. subst ra.
  apply redact_query; auto using plain_in_token. by destruct Hmp.
Qed.

Lemma redact_user_cut pre u1 u2 rest d :
  closed (line_char <$> pre) → Forall user_char u1 → Forall user_char u2 →
  Forall plain_char u1 → Forall plain_char u2 → length u1 = length u2 →
  length pre + 3 + length u1 < MAX_CHARS →
  redact ((line_char <$> take MAX_CHARS (pre ++ scheme_mark ++ u1 ++ "@" :: rest)) ++ d) =
  redact ((line_char <$> take MAX_CHARS (pre ++ scheme_mark ++ u2 ++ "@" :: rest)) ++ d).
Proof.
  intros Hc H1 H2 P1 P2 Hlen Hn.
  assert (∀ u, length u = length u2 → Forall plain_char u →
    (line_char <$> take MAX_CHARS (pre ++ scheme_mark ++ u ++ "@" :: rest)) ++ d =
    (line_char <$> pre) ++ scheme_mark ++ u ++ "@" ::
      (line_char <$> take (MAX_CHARS - (length pre + 3 + length u2 + 1)) rest) ++ d) as Hu.
  { intros u Hu Hp.
    replace (pre ++ scheme_mark ++ u ++ "@" :: rest) with ((pre ++ scheme_mark ++ u ++ ["@"]) ++ rest)
      by (by rewrite <- !app_assoc).
    rewrite take_app, take_ge
      by (rewrite !length_app; change (length scheme_mark) with 3; cbn [length]; lia).
    rewrite !fmap_app, (line_plain u) by done. rewrite <- !app_assoc.
    replace (length (pre ++ scheme_mark ++ u ++ ["@"])) with (length pre + 3 + length u2 + 1)
      by (rewrite !length_app; change (length scheme_mark) with 3; cbn [length]; lia).
    done. }
  rewrite !Hu by auto. by apply redact_user.
Qed.

Lemma line_whole l : length l ≤ MAX_CHARS → (line_char <$> take MAX_CHARS l) ++ dots l = line_char <$> l.
Proof.
  intros Hl. unfold dots. rewrite take_ge by done. rewrite bool_decide_eq_false_2 by lia. apply app_nil_r.
Qed.

Lemma line_hides l k :
  differ_in_secret l k →
  redact ((line_char <$> take MAX_CHARS l) ++ dots l) =
  redact ((line_char <$> take MAX_CHARS k) ++ dots k).
Proof.
  intros [pre host mark s1 s2 rest Hh Hm H1 H2 Hr [Hl|[Hl Hk]]|pre u1 u2 rest Hc U1 U2 P1 P2 Hn [Hl|[Hl Hk]]].
  - rewrite (dots_length _ _ Hl). apply redact_query_cut; try done; [|apply dots_plain].
    revert Hl. repeat (rewrite length_app || cbn [length]). lia.
  - rewrite !line_whole by done. rewrite !fmap_app, !fmap_cons, !fmap_app.
    rewrite (line_plain host), (line_plain s1), (line_plain s2) by done.
    pose proof (starts_secret_plain _ Hm) as Hmp. assert (line_char mark = mark) as -> by by destruct Hmp as [_ Hc]; unfold line_char; rewrite Hc.
    apply redact_query; auto using plain_in_token, line_stops. by destruct Hmp.
  - rewrite (dots_length _ _ Hl). apply redact_user_cut; try done.
    revert Hl. repeat (rewrite length_app || cbn [length]). lia.
  - rewrite !line_whole by done. rewrite !fmap_app, !fmap_cons, (line_plain u1), (line_plain u2) by done.
    by apply redact_user.
Qed.

Definition hides (v1 v2 : string) : Prop := v1 = v2 ∨ differ_in_secret (chars v1) (chars v2).

Lemma bounded_hides v1 v2 : hides v1 v2 → bounded_single_line v1 = bounded_single_line v2.
Proof. intros [->|Hd]; [done|]. rewrite !bounded_chars. by rewrite (line_hides _ _ Hd). Qed.

(** ** The length of the line *)

Lemma redact_tail_length t : length (redact_tail t) ≤ length t + 20 ∧ length (redact_tail t) ≤ 11 * length t.
Proof.
  unfold redact_tail. pose proof (offset_bound starts_secret t) as Hp.
  set (p := offset starts_secret t) in *.
  set (u := take (offset is_slash (take p t)) (take p t)).
  assert (length u ≤ p) as Hu by (unfold u; rewrite !length_take; lia).
  assert (∀ i, rposition is_at u = Some i → i < length u) as Hi.
  { clearbody u. clear. induction u as [|c u IH]; [done|]. intros i. simpl.
    destruct (rposition is_at u) as [j|].
    - intros [= <-]. specialize (IH j eq_refl). lia.
    - destruct (is_at c); [|done]. intros [= <-]. lia. }
  assert (match t !! p with Some mark => length (mark :: redacted) + p = 11 + p ∧ p < length t
          | None => True end) as Hmark.
  { destruct (t !! p) eqn:Ht; [|done]. split; [done|]. by eapply lookup_lt_Some. }
  rewrite length_app. destruct (rposition is_at u) as [i|].
  - specialize (Hi i eq_refl). rewrite !length_app, length_drop, length_take.
    change (length redacted) with 10. cbn [length].
    destruct (t !! p) as [mark|]; cbn [length] in *; [change (length redacted) with 10 in *|]; lia.
  - rewrite length_take.
    destruct (t !! p) as [mark|]; cbn [length] in *; [change (length redacted) with 10 in *|]; lia.
Qed.

Lemma redact_length l : length (redact l) ≤ 5 * length l.
Proof.
  induction l as [l IH] using (induction_ltof1 _ length). unfold ltof in IH.
  destruct (find_scheme l) as [o|] eqn:Ho; [|rewrite redact_none by done; lia].
  pose proof (find_scheme_bound _ _ Ho) as Hb. rewrite (redact_some _ _ Ho).
  set (tl := drop (o + 3) l). set (n := offset ends_token tl).
  assert (length tl = length l - (o + 3)) as Htl by apply length_drop.
  pose proof (offset_bound ends_token tl) as Hn. fold n in Hn.
  pose proof (redact_tail_length (take n tl)) as [H1 H2]. rewrite length_take in H1, H2.
  assert (length (drop n tl) = length tl - n) as Hd by apply length_drop.
  specialize (IH (drop n tl)). rewrite Hd in IH.
  rewrite !length_app, length_take. lia.
Qed.

Lemma redact_forall (P : string → Prop) l :
  P "@" → Forall P redacted → Forall P l → Forall P (redact l).
Proof.
  intros Hat Hred. induction l as [l IH] using (induction_ltof1 _ length). unfold ltof in IH.
  intros Hl. destruct (find_scheme l) as [o|] eqn:Ho; [|by rewrite redact_none].
  pose proof (find_scheme_bound _ _ Ho) as Hb. rewrite (redact_some _ _ Ho).
  assert (Forall P (redact_tail (take (offset ends_token (drop (o + 3) l)) (drop (o + 3) l)))) as Ht.
  { assert (∀ t, Forall P t → Forall P (redact_tail t)) as Ht.
    { intros t Ht. unfold redact_tail. apply Forall_app. split.
      - destruct (rposition _ _); [|by apply Forall_take].
        apply Forall_app; split; [done|]. apply Forall_app; split; [by repeat constructor|].
        apply Forall_drop. by apply Forall_take.
      - destruct (t !! _) eqn:Hc; [|done]. constructor; [|done].
        by apply (Forall_lookup_1 _ _ _ _ Ht Hc). }
    apply Ht, Forall_take. by apply Forall_drop. }
  apply Forall_app; split; [by apply Forall_take|]. apply Forall_app; split; [done|].
  apply IH; [rewrite !length_drop; lia|]. by apply Forall_drop, Forall_drop.
Qed.

(** A diagnostic is one line of bounded length: whatever text comes from the
    provider, what is kept of it has no control character and at most 2575
    characters (the 512 that are read and the dots, which a redaction can
    lengthen fivefold at most). *)
Theorem diagnostic_is_one_bounded_line (value : string) (Hs : starts_char value) :
  Forall (λ c, is_control c = false) (chars (bounded_single_line value))
  ∧ length (chars (bounded_single_line value)) ≤ 2575.
Proof.
  rewrite bounded_chars.
  set (line := (line_char <$> take MAX_CHARS (chars value)) ++ dots (chars value)).
  assert (Forall (λ c, char_shape c ∧ leads c ∧ is_control c = false) line) as Hline.
  { apply Forall_app. split.
    - apply Forall_fmap, Forall_take. destruct (chars_char_list value) as [Hc _].
      pose proof (chars_leads _ Hs) as Hl.
      apply (Forall_impl (λ c, char_shape c ∧ leads c)); [by apply Forall_and|].
      intros c [? ?]. unfold compose, line_char. by destruct (is_control c) eqn:Hcc.
    - unfold dots. case_bool_decide; repeat constructor. }
  apply (redact_forall _ _) in Hline; [|by repeat constructor|by repeat constructor].
  rewrite chars_concat.
  - split; [eapply Forall_impl; [exact Hline|by intros c (_ & _ & ?)]|].
    pose proof (redact_length line) as Hr.
    assert (length line ≤ 515); [|lia]. unfold line. rewrite length_app, length_fmap, length_take.
    unfold dots, MAX_CHARS. case_bool_decide; cbn [length]; lia.
  - split; [eapply Forall_impl; [exact Hline|by intros c (? & _)]|].
    destruct (redact line) as [|c l]; [constructor|]. apply Forall_cons in Hline as [_ Hline].
    eapply Forall_impl; [exact Hline|by intros c' (_ & ? & _)].
Qed.

(** ** Errors *)

(** Texts of a provider's error that differ in secrets only. *)
Record summaries_hide (s1 s2 : ProviderSummary) : Prop := {
  hide_message : option_Forall2 hides (ps_message s1) (ps_message s2);
  hide_code : option_Forall2 hides (ps_code s1) (ps_code s2);
  hide_kind : option_Forall2 hides (ps_kind s1) (ps_kind s2);
  hide_param : option_Forall2 hides (ps_param s1) (ps_param s2);
  hide_request_id : option_Forall2 hides (ps_request_id s1) (ps_request_id s2);
  hide_truncated : body_truncated s1 = body_truncated s2
}.

Record errors_hide (e1 e2 : PhiloError) : Prop := {
  hide_kind_debug : kind_debug e1 = kind_debug e2;
  hide_transport : kind_is_transport e1 = kind_is_transport e2;
  hide_stage : stage_debug e1 = stage_debug e2;
  hide_philo_code : philo_code e1 = philo_code e2;
  hide_details : details_debug e1 = details_debug e2;
  hide_context : context_debug e1 = context_debug e2;
  hide_report : retry_report_debug e1 = retry_report_debug e2;
  hide_summary : option_Forall2 summaries_hide (provider_summary e1) (provider_summary e2);
  hide_sources : Forall2 hides (sources e1) (sources e2);
  hide_domain : fault_domain e1 = fault_domain e2;
  hide_advice : retry_advice e1 = retry_advice e2;
  hide_after : retry_after e1 = retry_after e2;
  hide_semantic : semantic_summary e1 = semantic_summary e2
}.

Lemma deepest_hides e1 e2 : errors_hide e1 e2 → deepest_cause e1 = deepest_cause e2.
Proof.
  intros H. unfold deepest_cause. pose proof (Forall2_take _ _ _ 16 (hide_sources _ _ H)) as Hs.
  revert Hs. generalize (take 16 (sources e1)) (take 16 (sources e2)). intros l1 l2 Hs.
  destruct l1 as [|x l1] using rev_ind; [by apply Forall2_nil_inv_l in Hs as ->|].
  apply Forall2_app_inv_l in Hs as (k1 & k2 & _ & Hs & ->).
  apply Forall2_cons_inv_l in Hs as (y & k & Hxy & Hs & ->). apply Forall2_nil_inv_l in Hs as ->.
  rewrite !last_snoc. cbn. by rewrite (bounded_hides _ _ Hxy).
Qed.

Section errors.
Context {debug : DebugStr}.

Lemma field_hides name v1 v2 : option_Forall2 hides v1 v2 → summary_field name v1 = summary_field name v2.
Proof. intros [x y H|]; [|done]. cbn. by rewrite (bounded_hides _ _ H). Qed.

(** C40: the redaction hides the secrets of URLs that it recognizes. Two errors of
    the provider's client whose own messages and sources of the failure differ
    pairwise in one URL only - in its query or fragment, or in user information that
    lies within the first 512 characters with no URL open before it - become one and
    the same [ModelError]. Texts of more than 512 characters are compared only when
    they are of one length. User information behind another URL, or cut off at
    512 characters, is shown; that is not a case of this theorem. *)
Theorem url_secrets_never_leak (e1 e2 : PhiloError) (H : errors_hide e1 e2) :
  model_error e1 = model_error e2.
Proof.
  pose proof (deepest_hides _ _ H) as Hd. destruct H. unfold model_error, diagnostic_of.
  unfold sdk_retry_word. destruct e1, e2. cbn in *. subst. rewrite Hd.
  destruct hide_summary0 as [s1 s2 [Hm Hc Hk Hp Hr Ht]|]; [|done].
  by rewrite (field_hides _ _ _ Hm), (field_hides _ _ _ Hc), (field_hides _ _ _ Hk),
    (field_hides _ _ _ Hp), (field_hides _ _ _ Hr), Ht.
Qed.
End errors.
End redaction.
