(* ===== verification/ModelRequest.v ===== *)
(** A call snapshot as a request of the provider's client
    (src/crates/philo-model/src/request/).

    Module [model_request] has the structures of the client that the code builds
    field by field as records, and its validated types, constructors and defaults
    as the class [SdkRequest]; [serde_json] is a parameter too. A request that
    is filled step by step is passed from step to step. *)

From S2P Require Import Prelude RustStr Session Tools Runtime JsonlCodec ReplayStore Replay ModelErrors.
From Stdlib Require Import SpecFloat.
Import tools runtime replay model_errors.

Module model_request.

(** IEEE binary64, and the exact conversion [f64::from] of a binary32. *)
Definition f64 : Type := spec_float.
Definition f64_of_f32 (x : f32) : f64 :=
  match x with
  | S754_finite s m e => binary_normalize 53 1024 (if s then Z.neg m else Z.pos m) e s
  | x => x
  end.

(** ** The provider's client *)

Class SdkRequest {sdk : Sdk} : Type := {
  SdkToolCallId : Type;
  tool_call_id_new : string → option SdkToolCallId;
  ToolName : Type;
  tool_name_new : string → option ToolName;
  ToolCall : Type;
  tool_call_from_raw : SdkToolCallId → ToolName → string → option ToolCall;
  JsonValue : Type;
  json_from_str : string → option JsonValue;
  JsonSchema : Type;
  json_schema_new : JsonValue → option JsonSchema;
  ImageMediaType : Type;
  image_media_type_new : string → string + ImageMediaType;
  ImageInput : Type;
  image_from_bytes : ImageMediaType → list Byte.byte → string + ImageInput;
  CacheSessionId : Type;
  cache_session_new : string → option CacheSessionId;
  PromptCacheHints : Type;
  prompt_cache_hints_default : PromptCacheHints
}.

Inductive CacheRetention : Type := RetentionNone | RetentionShort | RetentionLong | RetentionOther.
#[export] Instance cache_retention_eq : EqDecision CacheRetention.
Proof. solve_decision. Defined.

Inductive ReasoningMode : Type := ModeEffort (effort : ReasoningEffort) | ModeOther.
Inductive ReasoningReport : Type := ReportNone | ReportOther.
Record ReasoningConfig : Type := { mode : ReasoningMode; report : ReasoningReport }.

Inductive ParallelToolCalls : Type := ParallelAllow | ParallelForbid.
Inductive ToolStrictness : Type := BestEffort.
Inductive ToolResultStatus : Type := StatusSuccess | StatusError.

Section request.
Context {sdk : Sdk} {sdk_request : SdkRequest}.

(** [assemble.rs]: the cache policy of a deployment. *)
Record ModelCachePolicy : Type := { retention : CacheRetention; hints : PromptCacheHints }.
Definition cache_policy_default : ModelCachePolicy :=
  {| retention := RetentionShort; hints := prompt_cache_hints_default |}.

Inductive AssistantContent : Type :=
| ContentText (text : string)
| ContentReasoning (kind : ReasoningKind) (text : option string)
| ContentToolCall (call : ToolCall).

Record ResponseItem : Type := {
  item_block : Z;
  item_index : Z;
  item_content : AssistantContent;
  item_requirement : ReplayRequirement;
  item_token : option ReplayToken
}.

Inductive UserContent : Type := ContentUserText (text : string) | ContentImage (image : ImageInput).

Inductive Message : Type :=
| MessageUser (content : list UserContent)
| MessageAssistant (content : list ResponseItem)
| MessageToolResult (call_id : SdkToolCallId) (status : ToolResultStatus) (content : list string).

Inductive ResponseContinuation : Type :=
| ContinuationStart
| ContinueFrom (handle : ContinuationHandle) (message_start : nat).

Inductive SdkToolChoice : Type :=
| SdkAuto | SdkNone | SdkRequired | SdkSpecific (name : ToolName).

Record SdkToolDefinition : Type := {
  sdk_tool_name : ToolName;
  sdk_tool_description : option string;
  sdk_tool_parameters : JsonSchema;
  sdk_tool_strictness : ToolStrictness
}.

(** The fields the code reads or writes. *)
Record ModelRequest : Type := {
  req_max_output_tokens : Z;
  req_temperature : option f64;
  req_reasoning : ReasoningConfig;
  req_instructions : option string;
  req_messages : list Message;
  req_continuation : option ResponseContinuation;
  req_tools : list SdkToolDefinition;
  req_tool_choice : SdkToolChoice;
  req_parallel_tool_calls : ParallelToolCalls;
  req_cache_session : option CacheSessionId;
  req_cache_retention : CacheRetention;
  req_cache : PromptCacheHints
}.

(** [ModelRequest::new] and [ReasoningConfig::default]. *)
Class RequestDefaults : Type := {
  sdk_request_new : Z → ModelRequest;
  default_reasoning : ReasoningConfig
}.
Context {defaults : RequestDefaults}.

(** ** generation.rs *)

Definition map_reasoning_config (effort : option ReasoningEffort) : ReasoningConfig :=
  match effort with
  | None => default_reasoning
  | Some effort => {| mode := ModeEffort effort; report := ReportNone |}
  end.

Definition new_request (generation : GenerationConfig) : outcome ModelError ModelRequest :=
  if (max_output_tokens generation =? 0)%Z then
    Err (caller_error "model.assembly.max_output_tokens"
           "generation.max_output_tokens must be greater than zero")
  else
    let r := sdk_request_new (max_output_tokens generation) in
    Ok {| req_max_output_tokens := req_max_output_tokens r;
          req_temperature :=
            match reasoning_effort generation with
            | None => Some (f64_of_f32 (temperature generation))
            | Some _ => None
            end;
          req_reasoning := map_reasoning_config (reasoning_effort generation);
          req_instructions := req_instructions r; req_messages := req_messages r;
          req_continuation := req_continuation r; req_tools := req_tools r;
          req_tool_choice := req_tool_choice r;
          req_parallel_tool_calls := req_parallel_tool_calls r;
          req_cache_session := req_cache_session r; req_cache_retention := req_cache_retention r;
          req_cache := req_cache r |}.

(** ** messages.rs *)

Definition newline : string := String (Ascii.ascii_of_nat 10) EmptyString.
Definition blank_line : string := newline +:+ newline.

Definition SUMMARY_INSTRUCTION_PREFIX : string := "Summary of earlier conversation:" +:+ newline.
Definition EMPTY_TOOL_RESULT_TEXT : string := "(empty)".
Definition EMPTY_ASSISTANT_TEXT : string := "(empty)".
Definition CANCELLED_TOOL_RESULT_TEXT : string :=
  "cancelled: the tool call did not execute because the turn was cancelled".
Definition INTERRUPTED_TOOL_RESULT_TEXT : string :=
  "interrupted: the process was interrupted while this call was outstanding; whether it executed is unknown, so verify the actual state before assuming".

Definition history_error (field : string) : ModelError :=
  caller_error "model.assembly.request_build" ("model call history invalid: " +:+ field).

Definition of_option {A} (e : ModelError) (o : option A) : outcome ModelError A :=
  match o with Some a => Ok a | None => Err e end.

(** [{}] is a valid object: anything else would panic. *)
Definition sdk_tool_call (call : ModelToolCall) : outcome ModelError ToolCall :=
  let? id := of_option (history_error "tool call id") (tool_call_id_new (tool_call_id call)) in
  let? name := of_option (history_error "tool call name") (tool_name_new (call_name call)) in
  match tool_call_from_raw id name (call_arguments call) with
  | Some tool_call => Ok tool_call
  | None => expect (tool_call_from_raw id name "{}")
  end.

Definition plain_item (position : nat) (content : AssistantContent) : ResponseItem :=
  {| item_block := Z.of_nat position; item_index := Z.of_nat position; item_content := content;
     item_requirement := RequirementNone; item_token := None |}.

Fixpoint map_blocks (position : nat) (blocks : list ModelAssistantBlock)
    : outcome ModelError (list ResponseItem) :=
  match blocks with
  | [] => Ok []
  | block :: blocks =>
      let? content :=
        match block with
        | ModelText text => Ok (ContentText text)
        | ModelToolCallBlock call => let? call := sdk_tool_call call in Ok (ContentToolCall call)
        end in
      if (Z.of_nat position <=? u32_max)%Z then
        let? rest := map_blocks (S position) blocks in
        Ok (plain_item position content :: rest)
      else Err (history_error "assistant item index")
  end.

(** The texts of the blocks, in order. *)
Definition plain_text (block : ModelAssistantBlock) : option string :=
  match block with ModelText text => Some text | ModelToolCallBlock _ => None end.
Definition call_with_id (call_id : string) (block : ModelAssistantBlock) : option ModelToolCall :=
  match block with
  | ModelToolCallBlock call => if tool_call_id call == call_id then Some call else None
  | ModelText _ => None
  end.

(** [next_text] is what is left of the iterator over the texts. *)
Fixpoint replay_items (blocks : list ModelAssistantBlock) (next_text : list string)
    (items : list CapturedItem) : outcome ModelError (list ResponseItem) :=
  match items with
  | [] => Ok []
  | item :: items =>
      let? bound :=
        match cap_content item with
        | CapReasoning kind text => Ok (ContentReasoning kind text, next_text)
        | CapText _ =>
            match next_text with
            | [] => Err (history_error "replayed text item binding")
            | text :: next_text => Ok (ContentText text, next_text)
            end
        | CapToolCall call_id _ _ =>
            match find_map (call_with_id call_id) blocks with
            | None => Err (history_error "replayed tool call binding")
            | Some call => let? call := sdk_tool_call call in Ok (ContentToolCall call, next_text)
            end
        end in
      let '(content, next_text) := bound in
      let? rest := replay_items blocks next_text items in
      Ok ({| item_block := cap_index item; item_index := cap_index item; item_content := content;
             item_requirement := cap_requirement item; item_token := cap_token item |} :: rest)
  end.

Definition map_replayed_assistant (items : list CapturedItem) (blocks : list ModelAssistantBlock)
    : outcome ModelError Message :=
  let? items := replay_items blocks (filter_map plain_text blocks) items in
  Ok (MessageAssistant items).

Definition map_assistant (blocks : list ModelAssistantBlock) (items : list CapturedItem)
    : outcome ModelError Message :=
  if negb (is_nil items) then map_replayed_assistant items blocks
  else
    let? items := map_blocks 0 blocks in
    Ok (MessageAssistant
          (if is_nil items then [plain_item 0 (ContentText EMPTY_ASSISTANT_TEXT)] else items)).

Definition map_tool_result (call_id : string) (out : ModelToolResultOutcome)
    (native_error_status : bool) : outcome ModelError Message :=
  let? call_id := of_option (history_error "tool result call id") (tool_call_id_new call_id) in
  let error_status := if native_error_status then StatusError else StatusSuccess in
  let '(status, text) :=
    match out with
    | ModelSuccess content =>
        (StatusSuccess, if str_is_empty content then EMPTY_TOOL_RESULT_TEXT else content)
    | ModelToolError code message => (error_status, code +:+ ": " +:+ message)
    | ModelCancelled => (error_status, CANCELLED_TOOL_RESULT_TEXT)
    | ModelInterrupted => (error_status, INTERRUPTED_TOOL_RESULT_TEXT)
    end in
  Ok (MessageToolResult call_id status [text]).

Definition image_error (error : string) : ModelError :=
  caller_error "model.assembly.image_invalid" ("user image rejected: " +:+ error).

Definition map_user_part (part : UserPart) : outcome ModelError UserContent :=
  match part with
  | UserText text => Ok (ContentUserText text)
  | UserImage media_type bytes =>
      match image_media_type_new media_type with
      | inl error => Err (image_error error)
      | inr media_type =>
          match image_from_bytes media_type bytes with
          | inl error => Err (image_error error)
          | inr image => Ok (ContentImage image)
          end
      end
  end.

Fixpoint map_user_parts (parts : list UserPart) : outcome ModelError (list UserContent) :=
  match parts with
  | [] => Ok []
  | part :: parts =>
      let? content := map_user_part part in
      let? rest := map_user_parts parts in
      Ok (content :: rest)
  end.

(** What the loop over the history builds. *)
Record Mapped : Type := {
  system_instructions : list string;
  summary_instructions : list string;
  mapped_messages : list Message;
  mapped_continuation : option (ContinuationHandle * nat)
}.

Definition map_one (native_error_status : bool) (replayed : ReplayHistory) (index : nat)
    (m : Mapped) (message : ModelMessage) : outcome ModelError Mapped :=
  let push (converted : outcome ModelError Message) : outcome ModelError Mapped :=
    let? converted := converted in
    Ok {| system_instructions := system_instructions m;
          summary_instructions := summary_instructions m;
          mapped_messages := mapped_messages m ++ [converted];
          mapped_continuation := mapped_continuation m |} in
  let? m :=
    match message with
    | ModelSystem content =>
        Ok {| system_instructions := system_instructions m ++ [content];
              summary_instructions := summary_instructions m;
              mapped_messages := mapped_messages m; mapped_continuation := mapped_continuation m |}
    | ModelSummary text =>
        Ok {| system_instructions := system_instructions m;
              summary_instructions := summary_instructions m ++ [SUMMARY_INSTRUCTION_PREFIX +:+ text];
              mapped_messages := mapped_messages m; mapped_continuation := mapped_continuation m |}
    | ModelUser parts => push (let? content := map_user_parts parts in Ok (MessageUser content))
    | ModelAssistant blocks => push (map_assistant blocks (items_for replayed index))
    | ModelToolResult call_id out => push (map_tool_result call_id out native_error_status)
    end in
  Ok {| system_instructions := system_instructions m;
        summary_instructions := summary_instructions m; mapped_messages := mapped_messages m;
        mapped_continuation :=
          match continuation_after replayed index with
          | Some handle => Some (handle, length (mapped_messages m))
          | None => mapped_continuation m
          end |}.

Fixpoint map_all (native_error_status : bool) (replayed : ReplayHistory) (index : nat)
    (m : Mapped) (messages : list ModelMessage) : outcome ModelError Mapped :=
  match messages with
  | [] => Ok m
  | message :: messages =>
      let? m := map_one native_error_status replayed index m message in
      map_all native_error_status replayed (S index) m messages
  end.

Definition push_summary (instructions summary : string) : string :=
  (if str_is_empty instructions then instructions else instructions +:+ blank_line) +:+ summary.

Definition instructions_of (m : Mapped) : string :=
  foldl push_summary (join blank_line (system_instructions m)) (summary_instructions m).

Definition map_messages (request : ModelRequest) (messages : list ModelMessage)
    (native_error_status : bool) (replayed : ReplayHistory) : outcome ModelError ModelRequest :=
  let? m := map_all native_error_status replayed 0
    {| system_instructions := []; summary_instructions := [];
       mapped_messages := req_messages request; mapped_continuation := None |} messages in
  let instructions := instructions_of m in
  Ok {| req_max_output_tokens := req_max_output_tokens request;
        req_temperature := req_temperature request; req_reasoning := req_reasoning request;
        req_instructions :=
          if str_is_empty instructions then req_instructions request else Some instructions;
        req_messages := mapped_messages m;
        req_continuation :=
          match mapped_continuation m with
          | Some (handle, message_start) =>
              if message_start <? length (mapped_messages m)
              then Some (ContinueFrom handle message_start) else req_continuation request
          | None => req_continuation request
          end;
        req_tools := req_tools request; req_tool_choice := req_tool_choice request;
        req_parallel_tool_calls := req_parallel_tool_calls request;
        req_cache_session := req_cache_session request;
        req_cache_retention := req_cache_retention request; req_cache := req_cache request |}.

(** ** tools.rs *)

Definition map_tool_choice (choice : ToolChoice) (tools : list ToolDefinition)
    : outcome ModelError SdkToolChoice :=
  match choice with
  | ChoiceAuto => Ok SdkAuto
  | ChoiceNone => Ok SdkNone
  | ChoiceRequired => Ok SdkRequired
  | ChoiceSpecific name =>
      if negb (any (λ tool, definition_name tool == name) tools) then
        Err (caller_error "model.assembly.invalid_tool_choice"
               ("tool_choice requires '" +:+ name
                +:+ "', which is not among the frozen tool definitions"))
      else
        let? name := of_option
          (caller_error "model.assembly.invalid_tool_choice"
             ("tool_choice name '" +:+ name +:+ "' is not a valid tool name"))
          (tool_name_new name) in
        Ok (SdkSpecific name)
  end.

Definition request_build (message : string) : ModelError :=
  caller_error "model.assembly.request_build" message.

Definition map_tool (tool : ToolDefinition) : outcome ModelError SdkToolDefinition :=
  let? name := of_option (request_build "frozen tool definition has an invalid name")
    (tool_name_new (definition_name tool)) in
  let? schema := of_option (request_build "frozen tool definition has an invalid parameter schema")
    (json_from_str (json (parameters tool))) in
  let? parameters :=
    of_option (request_build "frozen tool definition schema root must be an object")
      (json_schema_new schema) in
  Ok {| sdk_tool_name := name;
        sdk_tool_description :=
          if negb (str_is_empty (description tool)) then Some (description tool) else None;
        sdk_tool_parameters := parameters; sdk_tool_strictness := BestEffort |}.

Fixpoint map_tool_list (tools : list ToolDefinition) : outcome ModelError (list SdkToolDefinition) :=
  match tools with
  | [] => Ok []
  | tool :: tools =>
      let? tool := map_tool tool in
      let? rest := map_tool_list tools in
      Ok (tool :: rest)
  end.

Definition map_tools (request : ModelRequest) (choice : ToolChoice) (tools : list ToolDefinition)
    (max_parallel_tool_calls : Z) : outcome ModelError ModelRequest :=
  let? chosen :=
    if is_nil tools then Ok (SdkNone, [])
    else
      let? choice := map_tool_choice choice tools in
      let? mapped := map_tool_list tools in
      Ok (choice, mapped) in
  Ok {| req_max_output_tokens := req_max_output_tokens request;
        req_temperature := req_temperature request; req_reasoning := req_reasoning request;
        req_instructions := req_instructions request; req_messages := req_messages request;
        req_continuation := req_continuation request;
        req_tools := req_tools request ++ chosen.2; req_tool_choice := chosen.1;
        req_parallel_tool_calls :=
          if (1 <? max_parallel_tool_calls)%Z then ParallelAllow else ParallelForbid;
        req_cache_session := req_cache_session request;
        req_cache_retention := req_cache_retention request; req_cache := req_cache request |}.

(** ** mod.rs *)

Definition map_request (snapshot : ModelCallSnapshot) (native_error_status : bool)
    (replayed : ReplayHistory) (cache_policy : ModelCachePolicy)
    : outcome ModelError ModelRequest :=
  let? request := new_request (call_generation snapshot) in
  let? request := map_messages request (call_messages snapshot) native_error_status replayed in
  let? request :=
    map_tools request (tool_choice (call_generation snapshot)) (call_tools snapshot)
      (call_max_parallel_tool_calls snapshot) in
  Ok {| req_max_output_tokens := req_max_output_tokens request;
        req_temperature := req_temperature request; req_reasoning := req_reasoning request;
        req_instructions := req_instructions request; req_messages := req_messages request;
        req_continuation := req_continuation request; req_tools := req_tools request;
        req_tool_choice := req_tool_choice request;
        req_parallel_tool_calls := req_parallel_tool_calls request;
        req_cache_session :=
          match cache_session_new (call_session_id snapshot) with
          | Some session => Some session
          | None => req_cache_session request
          end;
        req_cache_retention := retention cache_policy; req_cache := hints cache_policy |}.
End request.
End model_request.
