(* ===== verification/ReplayRoundTrip.v ===== *)
(** A response that is stored, loaded and shown again
    (src/crates/philo-model/src/replay.rs and request/messages.rs).

    Module [replay_round_trip], over any store that keeps the contract
    [ReplayStoreLaws]: the next request of the session shows the provider every
    item of its response as it was. *)

From S2P Require Import Prelude RustStr Session Tools Runtime JsonlCodec ReplayStore.
From S2P Require Import ReplayStoreOps ReplayStoreLaws ReplayStoreLife Replay ReplayHistory.
From S2P Require Import ReplaySound ModelErrors ModelRequest.
Import runtime jsonl_codec replay_store replay_files replay_ops replay_laws replay_trust replay replay_digest.
Import replay_history replay_sound model_errors model_request.

Module replay_round_trip.

Section round_trip.
Context {sdk : Sdk} {sdk_request : SdkRequest} {sha : Sha256} {json : GenerationJson}
        {json_laws : GenerationJsonLaws}.
Context {S : Type} {store : ModelReplayStore S} {laws : ReplayStoreLaws S}.

(** ** The items in the request *)

Definition block_call_ids (items : list CapturedItem) : list string :=
  filter_map block_call (assistant_blocks_from_captured items).

(** Items of a response: no empty text, every call once, and calls the client
    accepts. *)
Record response_items (items : list CapturedItem) : Prop := {
  ri_texts it t : it ∈ items → cap_content it = CapText t → t ≠ "";
  ri_calls : NoDup (block_call_ids items);
  ri_sdk it i n a : it ∈ items → cap_content it = CapToolCall i n a →
    ∃ call, sdk_tool_call {| tool_call_id := i; call_name := n; call_arguments := a |} = Ok call
}.

(** The item of the request that shows [it]. *)
Record shows (target : CallTarget) (it : CapturedItem) (shown : ResponseItem) : Prop := {
  sh_index : item_index shown = cap_index it;
  sh_requirement : item_requirement shown = cap_requirement it;
  sh_content : match cap_content it with
    | CapText t => item_content shown = ContentText t
    | CapReasoning k t => item_content shown = ContentReasoning k t
    | CapToolCall i n a => ∃ call, item_content shown = ContentToolCall call ∧
        sdk_tool_call {| tool_call_id := i; call_name := n; call_arguments := a |} = Ok call
    end;
  sh_token : match snapshot_of it with
    | Some snapshot => ∃ token, restore_replay target snapshot = inr token ∧ item_token shown = Some token
    | None => item_token shown = None
    end
}.

Definition restores (target : CallTarget) : Prop :=
  ∀ token snapshot, snapshot_replay token = Some snapshot →
    ∃ token', restore_replay target snapshot = inr token'.

Lemma token_shown target it it' :
  restores target → comes_back target it it' →
  match snapshot_of it with
  | Some snapshot => ∃ token, restore_replay target snapshot = inr token ∧ cap_token it' = Some token
  | None => cap_token it' = None
  end.
Proof.
  intros Hres Hit. rewrite (cb_token _ _ _ Hit). unfold token_back. destruct (snapshot_of it) as [s|] eqn:Hs; [|done].
  unfold snapshot_of in Hs. destruct (cap_token it) as [token|]; [|done]. cbn in Hs |- *.
  destruct (Hres _ _ Hs) as [token' ->]. by exists token'.
Qed.

Lemma find_call blocks call :
  ModelToolCallBlock call ∈ blocks → NoDup (filter_map block_call blocks) →
  find_map (call_with_id (tool_call_id call)) blocks = Some call.
Proof.
  induction blocks as [|b blocks IH]; [by intros ?%not_elem_of_nil|].
  unfold filter_map in *. intros [<-|Hin]%elem_of_cons; simpl.
  - by rewrite bool_decide_eq_true_2.
  - destruct b as [t|d]; simpl; [by apply IH|]. intros [Hd Hn]%NoDup_cons.
    rewrite bool_decide_eq_false_2; [by apply IH|]. intros Heq. apply Hd. rewrite Heq.
    apply list_elem_of_omap. by exists (ModelToolCallBlock call).
Qed.

Lemma texts_cons it items :
  filter_map plain_text (assistant_blocks_from_captured (it :: items)) =
  match cap_content it with
  | CapText t => if str_is_empty t then [] else [t]
  | _ => []
  end ++ filter_map plain_text (assistant_blocks_from_captured items).
Proof.
  unfold assistant_blocks_from_captured, filter_map, block_from_captured. cbn.
  destruct (cap_content it) as [t| |]; [|done..]. by destruct (str_is_empty t).
Qed.

Lemma replay_items_show target blocks items back :
  restores target → NoDup (filter_map block_call blocks) →
  (∀ it t, it ∈ items → cap_content it = CapText t → t ≠ "") →
  (∀ it i n a, it ∈ items → cap_content it = CapToolCall i n a →
     ModelToolCallBlock {| tool_call_id := i; call_name := n; call_arguments := a |} ∈ blocks ∧
     ∃ call, sdk_tool_call {| tool_call_id := i; call_name := n; call_arguments := a |} = Ok call) →
  Forall2 (comes_back target) items back →
  ∃ out, replay_items blocks (filter_map plain_text (assistant_blocks_from_captured items)) back = Ok out
    ∧ Forall2 (shows target) items out.
Proof.
  intros Hres Hn Ht Hc Hb. induction Hb as [|it it' items back Hit Hb IH]; [by exists []|].
  destruct IH as (out & Hout & Hshow); [set_solver|set_solver|].
  assert (∀ content, (match cap_content it with
    | CapText t => content = ContentText t
    | CapReasoning k t => content = ContentReasoning k t
    | CapToolCall i n a => ∃ call, content = ContentToolCall call ∧
        sdk_tool_call {| tool_call_id := i; call_name := n; call_arguments := a |} = Ok call
    end) → shows target it {| item_block := cap_index it'; item_index := cap_index it';
      item_content := content; item_requirement := cap_requirement it';
      item_token := cap_token it' |}) as Hone.
  { intros content Hcontent. pose proof (token_shown _ _ _ Hres Hit). destruct Hit. by split. }
  pose proof (cb_content _ _ _ Hit) as Hct. rewrite texts_cons. cbn [replay_items]. rewrite Hct.
  destruct (cap_content it) as [t|k t|i n a] eqn:Hi; cbn [replayed_content].
  - assert (str_is_empty t = false) as ->.
    { apply bool_decide_eq_false. eapply Ht; [|exact Hi]. set_solver. }
    cbn. rewrite Hout. cbn. eexists. split; [done|]. constructor; [by apply Hone|done].
  - cbn. rewrite Hout. cbn. eexists. split; [done|]. constructor; [by apply Hone|done].
  - destruct (Hc it i n a) as [Hin (call & Hcall)]; [set_solver|done|]. cbn.
    pose proof (find_call _ _ Hin Hn) as Hf. cbn in Hf. rewrite Hf. cbn. rewrite Hcall. cbn.
    rewrite Hout. cbn. eexists. split; [done|]. constructor; [|done]. apply Hone. by exists call.
Qed.

(** ** What is stored matches the answer *)

Lemma stored_blocks items stored snap :
  store_items items = Ok (stored, snap) →
  (∀ it t, it ∈ items → cap_content it = CapText t → t ≠ "") →
  filter_map stored_text stored = filter_map block_text (assistant_blocks_from_captured items) ∧
  filter_map stored_call stored = filter_map block_call (assistant_blocks_from_captured items).
Proof.
  revert stored snap. induction items as [|it items IH]; intros stored snap; simpl.
  { by intros [= <- <-]. }
  destruct (match cap_token it with Some token => _ | None => _ end) as [snapshot|e|]; simpl; [|done..].
  unfold from_captured. intros Hs Ht.
  destruct (match cap_content it with CapText _ => _ | _ => _ end) as [content|e|] eqn:Hc;
    simpl in Hs; [|done..].
  destruct (requirement_from_sdk _) as [req|e|]; simpl in Hs; [|done..].
  destruct (store_items items) as [[rest sn]|e|]; simpl in Hs; [|done..]. injection Hs as <- _.
  destruct (IH rest sn eq_refl) as [IH1 IH2]; [set_solver|]. unfold filter_map, assistant_blocks_from_captured in *.
  cbn. unfold stored_text at 1, stored_call at 1. cbn [sto_content].
  destruct (cap_content it) as [t|k t|i n a] eqn:Hi; simpl in Hc.
  - injection Hc as <-. assert (block_from_captured it = Some (ModelText t)) as ->.
    { unfold block_from_captured. rewrite Hi. unfold str_is_empty.
      rewrite bool_decide_eq_false_2; [done|]. eapply Ht; [|exact Hi]. set_solver. }
    cbn. by rewrite IH1, IH2.
  - destruct (kind_from_sdk k); [|done..]. injection Hc as <-.
    assert (block_from_captured it = None) as -> by (unfold block_from_captured; by rewrite Hi).
    by rewrite IH1, IH2.
  - injection Hc as <-.
    assert (block_from_captured it = Some (ModelToolCallBlock
      {| tool_call_id := i; call_name := n; call_arguments := a |})) as ->
      by (unfold block_from_captured; by rewrite Hi).
    cbn. by rewrite IH1, IH2.
Qed.

Lemma all_equal (l : list string) : all (λ t, t.1 == t.2) (zip l l) = true.
Proof. induction l as [|x l IH]; [done|]. simpl. by rewrite bool_decide_eq_true_2. Qed.

Lemma built_matches c g :
  built c g → (∀ it t, it ∈ sort_items (cc_items c) → cap_content it = CapText t → t ≠ "") →
  matches g (answer_of c) = true.
Proof.
  intros (now & expires & stored & snap & Hs & ->) Ht.
  destruct (stored_blocks _ _ _ Hs Ht) as [H1 H2]. unfold matches, answer_of. cbn [gen_items generation_of].
  rewrite H1, H2. rewrite !bool_decide_eq_true_2 by done. by rewrite all_equal.
Qed.

(** ** What is stored comes back *)

Lemma restore_stored target items stored snap :
  restores target → store_items items = Ok (stored, snap) →
  ∃ restored, restore_items target stored = Ok (Some restored).
Proof.
  intros Hres. revert stored snap. induction items as [|it items IH]; intros stored snap; simpl.
  { intros [= <- <-]. by exists []. }
  destruct (match cap_token it with Some token => _ | None => _ end) as [snapshot|e|] eqn:Hsn;
    simpl; [|done..].
  unfold from_captured.
  destruct (match cap_content it with CapText _ => _ | _ => _ end) as [content|e|]; simpl; [|done..].
  destruct (requirement_from_sdk _) as [req|e|] eqn:Hreq; simpl; [|done..].
  destruct (store_items items) as [[rest sn]|e|]; simpl; [|done..]. intros [= <- _].
  destruct (IH rest sn eq_refl) as [restored Hr]. cbn [restore_items]. unfold restore_token.
  cbn [sto_snapshot sto_requirement]. destruct snapshot as [s|].
  - destruct (cap_token it) as [t|]; [|by destruct (_ == _)].
    destruct (snapshot_replay t) as [s'|] eqn:Hst; [|by destruct (_ == _)].
    injection Hsn as ->. destruct (Hres _ _ Hst) as [t' ->]. cbn. rewrite Hr. by eexists.
  - assert (req ≠ StoredRequired) as Hne.
    { intros ->. assert (cap_requirement it = RequirementRequired) as Hcr
        by (by destruct (cap_requirement it)).
      rewrite Hcr in Hsn. cbn in Hsn.
      by destruct (cap_token it) as [t|]; [destruct (snapshot_replay t)|]. }
    rewrite bool_decide_eq_false_2 by done. cbn. rewrite Hr. by eexists.
Qed.
(** ** The match *)

Lemma match_messages_app target allow gens invalidated before l1 l2 m :
  match_messages target allow gens invalidated before (l1 ++ l2) m =
  (let? m := match_messages target allow gens invalidated before l1 m in
   match_messages target allow gens invalidated (before ++ l1) l2 m).
Proof.
  revert before m. induction l1 as [|x l1 IH]; intros before m; simpl.
  { by rewrite app_nil_r. }
  destruct (match_message _ _ _ _ _ _ _ _) as [m'|e|]; simpl; [|done..].
  rewrite IH. by rewrite <- app_assoc.
Qed.

Lemma match_messages_skip target allow g invalidated before l m :
  (∀ l1 x l2, l = l1 ++ x :: l2 → eligible invalidated (used m) (before ++ l1 ++ [x]) x g = false) →
  match_messages target allow [g] invalidated before l m = Ok m.
Proof.
  revert before. induction l as [|x l IH]; intros before He; [done|]. simpl.
  unfold match_message. simpl. rewrite (He [] x l eq_refl : eligible _ _ (before ++ [x]) _ _ = false).
  simpl. apply IH. intros l1 y l2 ->. rewrite <- app_assoc. by apply (He (x :: l1) y l2).
Qed.

(** The digest lets the generation be found behind its own history only. *)
Lemma eligible_history c g invalidated us upto message :
  built c g → call_framed c → well_framed upto → no_collision (left_by c) upto →
  eligible invalidated us upto message g = true → upto = left_by c.
Proof.
  intros Hb [[Hcf Hcfr] Hca] [Hf Hfr] Hno He. apply andb_true_iff in He as [_ Hd].
  assert (schema_version g = GENERATION_SCHEMA_V2 ∧ continuation_prefix_digest g =
    Some (encode_digest (digest (hashed (left_by c))))) as [Hv Hg].
  { destruct Hb as (?&?&?&?&_&->). split; [done|]. apply response_hashed. }
  rewrite Hv, Hg in Hd. cbn in Hd. apply bool_decide_eq_true in Hd. symmetry in Hd.
  apply history_hashed, encode_digest_inj, Hno in Hd. symmetry.
  apply messages_free; [| |by apply framed_snoc|done|done].
  - unfold left_by. apply Forall_app. by rewrite Forall_singleton.
  - done.
Qed.

Lemma well_framed_take n l : well_framed l → well_framed (take n l).
Proof. intros [? ?]. split; [by apply Forall_take|by apply framed_take]. Qed.

(** The single generation of a session is matched with its answer. *)
Lemma match_own target g c more back :
  let messages := left_by c ++ more in
  built c g → cc_target c = target → call_framed c → well_framed messages →
  (∀ i, no_collision (left_by c) (take i messages)) →
  (∀ it t, it ∈ sort_items (cc_items c) → cap_content it = CapText t → t ≠ "") →
  restore g target = Ok (Some back) →
  match_messages target false [g] ∅ [] messages {| used := ∅; matched := ∅; candidate := None |} =
  Ok {| used := {[generation_id g]}; matched := {[length (call_messages (cc_request c)) := back]};
        candidate := None |}.
Proof.
  intros messages Hb Htg Hcf Hm Hno Ht Hr. pose proof Hb as (now & expires & stored & snap & Hst & Hg).
  set (request := cc_request c) in *.
  assert (∀ l1 x l2 us, messages = l1 ++ x :: l2 → l1 ≠ call_messages request →
    eligible ∅ us (l1 ++ [x]) x g = false) as Hnot.
  { intros l1 x l2 us Heq Hne. apply not_true_is_false. intros He.
    assert (take (length (l1 ++ [x])) messages = l1 ++ [x]) as Htk.
    { rewrite Heq. replace (l1 ++ x :: l2) with ((l1 ++ [x]) ++ l2) by (by rewrite <- app_assoc).
      apply take_app_length. }
    pose proof (well_framed_take (length (l1 ++ [x])) _ Hm) as Hwf. rewrite Htk in Hwf.
    pose proof (Hno (length (l1 ++ [x]))) as Hn. rewrite Htk in Hn.
    apply (eligible_history c) in He; [|done..]. by apply app_inj_tail in He as [? _]. }
  assert (messages = call_messages request ++ answer_of c :: more) as Hmsg
    by (unfold messages, left_by; by rewrite <- app_assoc).
  rewrite Hmsg, match_messages_app. rewrite match_messages_skip.
  2: { intros l1 x l2 Heq. apply (Hnot l1 x (l2 ++ answer_of c :: more)).
       - rewrite Hmsg. fold request. rewrite Heq. by rewrite <- app_assoc.
       - intros ->. apply (f_equal length) in Heq. rewrite length_app in Heq. simpl in Heq. lia. }
  cbn [app mbind outcome_bind match_messages]. unfold match_message. cbn [find used matched candidate].
  assert (eligible ∅ ∅ (call_messages request ++ [answer_of c]) (answer_of c) g = true) as ->.
  { unfold eligible. rewrite built_matches by done.
    assert (continuation_prefix_digest g =
      continuation_prefix_digest_from_history (call_messages request ++ [answer_of c])) as ->.
    { unfold continuation_prefix_digest_from_history. rewrite last_snoc, removelast_last.
      unfold answer_of. by rewrite Hg. }
    rewrite (bool_decide_eq_true_2 (_ = continuation_prefix_digest_from_history _)) by done.
    by rewrite orb_true_r, Hg. }
  assert (target_matches g target = true) as ->.
  { rewrite Hg. unfold target_matches. cbn. rewrite Htg. by rewrite !bool_decide_eq_true_2. }
  cbn [negb]. rewrite Hr. cbn [mbind outcome_bind].
  assert ((schema_version g == GENERATION_SCHEMA_V2) = true) as -> by (by rewrite Hg).
  cbn [andb]. rewrite union_empty_r_L.
  assert (match response_id g with
    | Some _ => Ok {| used := {[generation_id g]}; matched := <[length (call_messages request):=back]> ∅;
                      candidate := None |}
    | None => Ok {| used := {[generation_id g]}; matched := <[length (call_messages request):=back]> ∅;
                    candidate := None |}
    end = Ok (E := ModelError)
            {| used := {[generation_id g]}; matched := {[length (call_messages request):=back]};
               candidate := None |}) as Hsame by (by destruct (response_id g)).
  rewrite Hsame. cbn [mbind outcome_bind]. apply match_messages_skip.
  intros l1 x l2 _. cbn [used]. unfold eligible.
  rewrite (bool_decide_eq_true_2 (generation_id g ∈ {[generation_id g]})) by set_solver.
  by rewrite andb_false_r.
Qed.
(** ** Commit, then load *)

Definition has_snapshot (items : list CapturedItem) : Prop :=
  ∃ it token, it ∈ items ∧ cap_token it = Some token ∧ session.is_some (snapshot_replay token) = true.

Lemma store_items_snapshot items stored snap :
  has_snapshot items → store_items items = Ok (stored, snap) → snap = true.
Proof.
  intros (it & token & Hin & Htok & Hsn). revert stored snap.
  induction items as [|it' items IH]; [by apply not_elem_of_nil in Hin|]. intros stored snap. simpl.
  destruct (match cap_token it' with Some token => _ | None => _ end) as [snapshot|e|] eqn:Hs; simpl; [|done..].
  destruct (from_captured it' snapshot) as [st|e|]; simpl; [|done..].
  destruct (store_items items) as [[rest sn]|e|]; simpl; [|done..]. intros [= <- <-].
  apply elem_of_cons in Hin as [<-|Hin].
  - rewrite Htok in Hs. destruct (snapshot_replay token); [by injection Hs as <-|done].
  - rewrite (IH Hin rest sn eq_refl). by destruct (session.is_some snapshot).
Qed.

(** The commit of a response in a session that has nothing stored yet. *)
Record committed_first (c : CommitCall) (now : Z) (s : S) (w : ReplayCoordinator S) : Prop := {
  cm_usable : usable s;
  cm_empty : records s (call_session_id (cc_request c)) = ∅;
  cm_persist : persist_replay (cc_request c) = true;
  cm_valid : valid_call c;
  cm_snapshot : has_snapshot (cc_items c);
  cm_fits g bytes : built c g → to_vec g = Some bytes →
    (len_u64 bytes ≤ max_session_bytes (policy s))%Z;
  cm_commit : commit (Some now) (cc_target c) (cc_request c) (cc_response c) (cc_items c)
    (coordinator_new s) = (w, Ok tt)
}.

Lemma commit_stored c now s w :
  committed_first c now s w →
  ∃ g bytes, built c g ∧ to_vec g = Some bytes ∧ usable (rc_store w) ∧
    expires_at_unix_secs g = saturating_add now (ttl (policy s)) ∧
    records (rc_store w) (call_session_id (cc_request c)) = {[generation_id g := bytes]} ∧
    w = Build_ReplayCoordinator (rc_store w) [] false ∅ false.
Proof.
  intros [Hu Hempty Hp Hv Hsn Hfits Hc]. revert Hc. unfold commit. rewrite Hp.
  assert (is_nil (cc_items c) = false) as ->.
  { destruct Hsn as (it&_&Hin&_). destruct (cc_items c); [by apply not_elem_of_nil in Hin|done]. }
  cbn [negb orb]. unfold bind, lift, get, unix_seconds.
  destruct (store_items (sort_items (cc_items c))) as [[stored snap]|e|] eqn:Hs; [|done..].
  assert (snap = true) as ->.
  { eapply store_items_snapshot; [|exact Hs]. destruct Hsn as (it&t&Hin&Ht).
    exists it, t. split; [|done]. unfold sort_items. by rewrite sort_by_permutes. }
  cbn [negb andb]. change (rc_store (coordinator_new s)) with s.
  match goal with |- context [to_vec ?x] => set (g := x) end.
  assert (built c g) as Hb by (by exists now, (saturating_add now (ttl (policy s))), stored, true).
  destruct (to_vec g) as [bytes|] eqn:Hvec; [|done]. rewrite on_store_run.
  change (rc_store (coordinator_new s)) with s.
  destruct (commit_law s (call_session_id (cc_request c))
    {| blob_id := request_generation_id (cc_request c); payload := bytes |} Hu (generation_id_ok _ Hv))
    as (s' & r & Hrun & Hu' & _ & _ & Hspec).
  rewrite Hrun. cbn [fst snd]. unfold commit_spec in Hspec. cbn [blob_id payload] in Hspec.
  rewrite Hempty, lookup_empty in Hspec.
  assert ((max_session_bytes (policy s) <? Z.of_nat (weight ∅) + len_u64 bytes)%Z = false) as Hq.
  { apply Z.ltb_ge. change (Z.of_nat (weight ∅)) with 0%Z. rewrite Z.add_0_l. by eapply Hfits. }
  rewrite Hq in Hspec. destruct Hspec as [Hrec ->]. intros [= <-].
  exists g, bytes. split; [exact Hb|]. split; [exact Hvec|]. split; [exact Hu'|]. split; [done|].
  split; [exact Hrec|done].
Qed.

(** A later call of the session. *)
Record next_call (c : CommitCall) (next : ModelCallSnapshot) (more : list ModelMessage) : Prop := {
  nc_session : call_session_id next = call_session_id (cc_request c);
  nc_persist : persist_replay next = true;
  nc_revision : call_session_revision (cc_request c) ≤ call_session_revision next;
  nc_messages : call_messages next = left_by c ++ more
}.

Lemma match_transient_none request target index messages us found :
  match_transient request target [] index messages us found = Ok found.
Proof.
  revert index us. induction messages as [|m messages IH]; intros index us; [done|]. simpl.
  destruct (session.is_some _); apply IH.
Qed.

Lemma load_own c now s w now' next more back :
  committed_first c now s w → next_call c next more → call_framed c →
  well_framed (call_messages next) →
  (∀ i, no_collision (left_by c) (take i (call_messages next))) →
  (∀ it t, it ∈ sort_items (cc_items c) → cap_content it = CapText t → t ≠ "") →
  (now' < saturating_add now (ttl (policy s)))%Z →
  (∀ g, built c g → restore g (cc_target c) = Ok (Some back)) →
  ∃ w', load (Some now') (cc_target c) next false w = (w', Ok
    {| by_message := {[length (call_messages (cc_request c)) := back]}; continuation := None |}).
Proof.
  intros Hc [Hsid Hp Hrev Hmsg] Hcf Hm Hno Ht Hnow Hback.
  destruct (commit_stored _ _ _ _ Hc) as (g & bytes & Hb & Hvec & Hu & Hexp & Hrec & Hw).
  destruct (load_law (rc_store w) (call_session_id next) Hu) as (s2 & blobs & Hl & Hu2 & _ & _ & Hperm).
  rewrite Hsid, Hrec, map_to_list_singleton in Hperm.
  apply Permutation_singleton_r in Hperm. destruct blobs as [|[id p] [|]]; [done| |done].
  injection Hperm as -> ->.
  unfold load. rewrite Hp. cbn [negb]. unfold bind, with_err at 1. rewrite on_store_run, Hl.
  cbn [fst snd map_err]. unfold lift, unix_seconds. cbn [read_blobs payload blob_id].
  rewrite (generation_json _ _ Hvec). pose proof Hb as (n & ex & stored & snap & Hs & Hg).
  assert (gen_session_id g = call_session_id next) as Hgs by (rewrite Hg; by rewrite Hsid).
  assert (schema_version g = GENERATION_SCHEMA_V2) as Hgv by (by rewrite Hg).
  rewrite Hgs, Hgv, !(bool_decide_eq_true_2 _ eq_refl). cbn [negb orb].
  rewrite orb_true_r. cbn [negb orb mbind outcome_bind fst snd].
  assert ((expires_at_unix_secs g <=? now')%Z = false) as -> by (apply Z.leb_gt; lia).
  assert ((session_revision g <=? Z.of_nat (call_session_revision next))%Z = true) as ->.
  { rewrite Hg. cbn. apply Z.leb_le. lia. }
  cbn [sort_by foldr insert_by]. rewrite Hw. cbn [get invalidated_poisoned rc_store].
  assert (invalidates_generation g = None) as Hinv by (by rewrite Hg).
  unfold filter_map. cbn [omap list_omap List.filter]. rewrite Hinv. cbn [session.is_some fmap list_fmap].
  cbn [invalidated_continuations transient transient_poisoned].
  rewrite (union_empty_l_L (list_to_set [])). change (list_to_set [] : gset string) with (∅ : gset string).
  rewrite Hmsg in *. rewrite (match_own _ _ _ _ back) by auto. cbn [List.filter].
  unfold set_transient at 1.
  cbn [matched used candidate]. rewrite match_transient_none.
  cbn [rc_store transient transient_poisoned invalidated_continuations invalidated_poisoned].
  rewrite (bool_decide_eq_true_2 (generation_id g ∈ {[generation_id g]})) by set_solver.
  cbn [negb andb fmap list_fmap app is_nil]. by eexists.
Qed.
Lemma restore_all c stored snap :
  restores (cc_target c) → store_items (sort_items (cc_items c)) = Ok (stored, snap) →
  ∃ back, ∀ g, built c g → restore g (cc_target c) = Ok (Some back).
Proof.
  intros Hres Hs. destruct (restore_stored _ _ _ _ Hres Hs) as [restored Hr].
  exists (sort_items restored). intros g (now & expires & stored' & snap' & Hs' & ->).
  rewrite Hs in Hs'. injection Hs' as <- <-. unfold restore. cbn [gen_items generation_of]. by rewrite Hr.
Qed.

Lemma calls_in_blocks items it i n a :
  it ∈ items → cap_content it = CapToolCall i n a →
  ModelToolCallBlock {| tool_call_id := i; call_name := n; call_arguments := a |}
    ∈ assistant_blocks_from_captured items.
Proof.
  intros Hin Hi. apply list_elem_of_omap. exists it. split; [done|].
  unfold block_from_captured. by rewrite Hi.
Qed.

(** C39: What a provider sent it is shown again as it was. A response with a
    replay snapshot is committed in a session with nothing stored yet; when a
    later call of the session is loaded before the items expire (with local
    replay), exactly the message that is its answer gets items, and in the
    request that message has every item of the response in order - index,
    requirement, text, reasoning, and call with its name and arguments - and the
    token the client restores from the item's own snapshot, none only where the item
    had none. (For a response as the stream makes it: texts are not empty, call
    identifiers differ; for a client that can restore every snapshot it takes; and as
    long as the digest does not collide on these conversations.) *)
Theorem stored_answer_is_shown_again c now s w now' next more
    (Hc : committed_first c now s w) (Hn : next_call c next more) (Hcf : call_framed c)
    (Hm : well_framed (call_messages next))
    (Hno : ∀ i, no_collision (left_by c) (take i (call_messages next)))
    (Hit : response_items (sort_items (cc_items c))) (Hres : restores (cc_target c))
    (Hnow : (now' < saturating_add now (ttl (policy s)))%Z) :
  ∃ w' h out,
    load (Some now') (cc_target c) next false w = (w', Ok h) ∧ continuation h = None ∧
    (∀ i, i ≠ length (call_messages (cc_request c)) → items_for h i = []) ∧
    map_assistant (assistant_blocks_from_captured (sort_items (cc_items c)))
      (items_for h (length (call_messages (cc_request c)))) = Ok (MessageAssistant out) ∧
    Forall2 (shows (cc_target c)) (sort_items (cc_items c)) out.
Proof.
  destruct (commit_stored _ _ _ _ Hc) as (g & _ & Hb & _).
  pose proof Hb as (n & ex & stored & snap & Hs & _).
  destruct (restore_all _ _ _ Hres Hs) as [back Hback].
  destruct (load_own _ _ _ _ _ _ _ _ Hc Hn Hcf Hm Hno (ri_texts _ Hit) Hnow Hback) as [w' Hl].
  pose proof (restore_back _ _ _ _ Hb (Hback _ Hb)) as Hf.
  destruct (replay_items_show (cc_target c) (assistant_blocks_from_captured (sort_items (cc_items c)))
    (sort_items (cc_items c)) back) as (out & Hout & Hshow); [done|apply Hit|apply Hit| |done|].
  { intros it i nm a Hin Hi. split; [by eapply calls_in_blocks|]. by eapply ri_sdk. }
  eexists _, _, out. split; [exact Hl|]. split; [done|]. split; [|split; [|exact Hshow]].
  - intros i Hi. unfold items_for. cbn [by_message]. by rewrite lookup_singleton_ne.
  - unfold items_for. cbn [by_message]. rewrite lookup_singleton_eq. cbn [default from_option id].
    unfold map_assistant. destruct back as [|b back].
    { apply Forall2_nil_inv_r in Hf. destruct Hc as [_ _ _ _ (it & _ & Hin & _) _ _].
      exfalso. pose proof (sort_by_permutes index_le (cc_items c)) as Hperm. unfold sort_items in Hf.
      change (λ a b : CapturedItem, (cap_index a <=? cap_index b)%Z) with index_le in Hf.
      rewrite Hf in Hperm. apply Permutation_nil_l in Hperm. rewrite <- Hperm in Hin.
      by apply not_elem_of_nil in Hin. }
    cbn [is_nil negb]. unfold map_replayed_assistant. by rewrite Hout.
Qed.
End round_trip.
End replay_round_trip.
