(* ===== verification/ModelStream.v ===== *)
(** The event stream of a model call (src/crates/philo-model/src/stream.rs).

    Module [model_stream]: the client's call is the list of what it will deliver,
    errors included; the three [HashMap]s are finite maps, and [drain], whose
    order the standard library leaves open, is the class [HashOrder]. A call of
    [next] runs as a whole, with what the system clock says in case it commits.
    The strings the client's [as_str] and metadata accessors return stand in the
    events; a [BlockId] is its number.

    What the event stream of a model call delivers
    (src/crates/philo-model/src/stream.rs).

    Module [stream_proofs]: the response as a plain list of blocks that the
    client's events open and extend, and the proof that the stream, with its
    three maps and its captured items, completes with just these blocks; a stream
    that is over stays over. *)

From S2P Require Import Prelude RustStr Session Runtime JsonlCodec ReplayStore Replay.
From S2P Require Import ModelErrors Tools ReplayHistory.
Import runtime jsonl_codec replay_store replay model_errors.

Module model_stream.

Definition BlockId : Type := Z.

(** [HashMap::drain]. *)
Class HashOrder : Type := { drain : ∀ A : Type, gmap BlockId A → list (BlockId * A) }.
Class HashOrderLaws {order : HashOrder} : Prop := {
  drain_permutes A (m : gmap BlockId A) : drain A m ≡ₚ map_to_list m
}.

Record Usage : Type := {
  usage_input : option Z;
  usage_output : option Z;
  usage_cache_read : option Z;
  usage_cache_write : option Z;
  usage_reasoning : option Z
}.

Definition map_usage (usage : Usage) : TokenUsage :=
  {| input_tokens := usage_input usage; output_tokens := usage_output usage;
     cache_read_tokens := usage_cache_read usage; cache_write_tokens := usage_cache_write usage;
     reasoning_tokens := usage_reasoning usage |}.

Definition visible (kind : ReasoningKind) : bool :=
  match kind with KindOpaque => false | _ => true end.

Section stream.
Context {sdk : Sdk} {sha : Sha256} {json : GenerationJson} {debug : DebugStr} {order : HashOrder}.
Context {S : Type} {store : ModelReplayStore S}.

(** The client's events; [OtherEvent] is any the source drops. *)
Inductive SdkEvent : Type :=
| SdkResponseStarted (response_model response_id : option string)
| TextStarted (block_id : BlockId) (index : Z) (requirement : ReplayRequirement)
| SdkTextDelta (block_id : BlockId) (delta : string)
| TextFinished (block_id : BlockId) (token : option ReplayToken)
| ReasoningStarted (block_id : BlockId) (index : Z) (kind : ReasoningKind)
    (requirement : ReplayRequirement)
| SdkReasoningDelta (block_id : BlockId) (delta : string)
| ReasoningFinished (block_id : BlockId) (token : option ReplayToken)
| SdkUsageUpdated (usage : Usage)
| ToolCallStarted (block_id : BlockId) (index : Z) (call_id : string)
    (requirement : ReplayRequirement)
| ToolCallNameDelta (block_id : BlockId) (delta : string)
| ToolCallArgumentsDelta (block_id : BlockId) (delta : string)
| ToolCallFinished (block_id : BlockId) (token : option ReplayToken)
| ResponseFinished
| OtherEvent.

Record ToolEntry : Type := {
  tool_index : nat;
  tool_response_index : Z;
  tool_call : string;
  tool_name : string;
  tool_arguments : string;
  tool_requirement : ReplayRequirement;
  announced : bool
}.

Record TextEntry : Type := {
  text_index : Z;
  text_requirement : ReplayRequirement;
  text_text : string
}.

Record ReasoningEntry : Type := {
  reasoning_index : Z;
  reasoning_kind : ReasoningKind;
  reasoning_requirement : ReplayRequirement;
  reasoning_text : string
}.

(** The fields that [next] changes; [call] is what the call has left. *)
Record NormalizedStream : Type := {
  call : list (PhiloError + SdkEvent);
  text : gmap BlockId TextEntry;
  tools : gmap BlockId ToolEntry;
  next_tool_index : nat;
  reasoning : gmap BlockId ReasoningEntry;
  captured : list CapturedItem;
  stream_response_id : option string;
  retain_response_id : bool;
  done : bool
}.

Definition stream_new (call : list (PhiloError + SdkEvent)) (retain_response_id : bool)
    : NormalizedStream :=
  {| call := call; text := ∅; tools := ∅; next_tool_index := 0; reasoning := ∅; captured := [];
     stream_response_id := None; retain_response_id := retain_response_id; done := false |}.

Definition set_call v (s : NormalizedStream) : NormalizedStream :=
  {| call := v; text := text s; tools := tools s; next_tool_index := next_tool_index s;
     reasoning := reasoning s; captured := captured s; stream_response_id := stream_response_id s;
     retain_response_id := retain_response_id s; done := done s |}.
Definition set_text v (s : NormalizedStream) : NormalizedStream :=
  {| call := call s; text := v; tools := tools s; next_tool_index := next_tool_index s;
     reasoning := reasoning s; captured := captured s; stream_response_id := stream_response_id s;
     retain_response_id := retain_response_id s; done := done s |}.
Definition set_tools v (s : NormalizedStream) : NormalizedStream :=
  {| call := call s; text := text s; tools := v; next_tool_index := next_tool_index s;
     reasoning := reasoning s; captured := captured s; stream_response_id := stream_response_id s;
     retain_response_id := retain_response_id s; done := done s |}.
Definition set_next_tool_index v (s : NormalizedStream) : NormalizedStream :=
  {| call := call s; text := text s; tools := tools s; next_tool_index := v;
     reasoning := reasoning s; captured := captured s; stream_response_id := stream_response_id s;
     retain_response_id := retain_response_id s; done := done s |}.
Definition set_reasoning v (s : NormalizedStream) : NormalizedStream :=
  {| call := call s; text := text s; tools := tools s; next_tool_index := next_tool_index s;
     reasoning := v; captured := captured s; stream_response_id := stream_response_id s;
     retain_response_id := retain_response_id s; done := done s |}.
Definition set_captured v (s : NormalizedStream) : NormalizedStream :=
  {| call := call s; text := text s; tools := tools s; next_tool_index := next_tool_index s;
     reasoning := reasoning s; captured := v; stream_response_id := stream_response_id s;
     retain_response_id := retain_response_id s; done := done s |}.
Definition set_response_id v (s : NormalizedStream) : NormalizedStream :=
  {| call := call s; text := text s; tools := tools s; next_tool_index := next_tool_index s;
     reasoning := reasoning s; captured := captured s; stream_response_id := v;
     retain_response_id := retain_response_id s; done := done s |}.
Definition set_done (s : NormalizedStream) : NormalizedStream :=
  {| call := call s; text := text s; tools := tools s; next_tool_index := next_tool_index s;
     reasoning := reasoning s; captured := captured s; stream_response_id := stream_response_id s;
     retain_response_id := retain_response_id s; done := true |}.

Definition push (item : CapturedItem) (s : NormalizedStream) : NormalizedStream :=
  set_captured (captured s ++ [item]) s.

Definition tool_captured (entry : ToolEntry) (token : option ReplayToken) : CapturedItem :=
  {| cap_index := tool_response_index entry;
     cap_content := CapToolCall (tool_call entry) (tool_name entry) (tool_arguments entry);
     cap_requirement := tool_requirement entry; cap_token := token |}.
Definition text_captured (entry : TextEntry) (token : option ReplayToken) : CapturedItem :=
  {| cap_index := text_index entry; cap_content := CapText (text_text entry);
     cap_requirement := text_requirement entry; cap_token := token |}.

Definition tool_delta (block_id : BlockId) (name : option string) (arguments : string)
    (s : NormalizedStream) : NormalizedStream * (ModelError + ModelEvent) :=
  match tools s !! block_id with
  | None =>
      (s, inl (provider_stream_error "model.output.delta_before_start"
                 "tool delta before ToolCallStarted"))
  | Some entry =>
      (set_tools (<[block_id :=
         {| tool_index := tool_index entry; tool_response_index := tool_response_index entry;
            tool_call := tool_call entry;
            tool_name := match name with Some d => tool_name entry +:+ d | None => tool_name entry end;
            tool_arguments := tool_arguments entry +:+ arguments;
            tool_requirement := tool_requirement entry; announced := true |}]> (tools s)) s,
       inr (ToolCallDeltaEvent (tool_index entry)
              (if announced entry then None else Some (tool_call entry)) name arguments))
  end.

(** An error ends the stream. *)
Definition returned (r : NormalizedStream * (ModelError + ModelEvent))
    : NormalizedStream * option (ModelError + ModelEvent) :=
  match r with
  | (s, inl e) => (set_done s, Some (inl e))
  | (s, inr e) => (s, Some (inr e))
  end.

Definition flush_remaining_items (s : NormalizedStream) : NormalizedStream :=
  let texts := filter_map (λ p, if str_is_empty (text_text p.2) then None
                                else Some (text_captured p.2 None)) (drain _ (text s)) in
  let calls := (λ p, tool_captured p.2 None) <$> drain _ (tools s) in
  set_captured (captured s ++ texts ++ calls) (set_tools ∅ (set_text ∅ s)).

(** An event other than [ResponseFinished]: what the loop does with it, and
    what it returns unless it goes on. *)
Definition on_event (event : SdkEvent) (s : NormalizedStream)
    : NormalizedStream * option (ModelError + ModelEvent) :=
  match event with
  | SdkResponseStarted response_model response_id =>
      (if retain_response_id s then set_response_id response_id s else s,
       Some (inr (ResponseStarted response_model response_id)))
  | TextStarted block_id index requirement =>
      (set_text (<[block_id := {| text_index := index; text_requirement := requirement;
                                  text_text := "" |}]> (text s)) s, None)
  | SdkTextDelta block_id delta =>
      (match text s !! block_id with
       | Some entry =>
           set_text (<[block_id := {| text_index := text_index entry;
                                      text_requirement := text_requirement entry;
                                      text_text := text_text entry +:+ delta |}]> (text s)) s
       | None => s
       end, Some (inr (TextDelta delta)))
  | TextFinished block_id token =>
      (match text s !! block_id with
       | Some entry =>
           let s := set_text (delete block_id (text s)) s in
           if str_is_empty (text_text entry) then s else push (text_captured entry token) s
       | None => s
       end, None)
  | ReasoningStarted block_id index kind requirement =>
      (set_reasoning (<[block_id := {| reasoning_index := index; reasoning_kind := kind;
                                       reasoning_requirement := requirement;
                                       reasoning_text := "" |}]> (reasoning s)) s, None)
  | SdkReasoningDelta block_id delta =>
      match reasoning s !! block_id with
      | Some entry =>
          (set_reasoning (<[block_id :=
             {| reasoning_index := reasoning_index entry; reasoning_kind := reasoning_kind entry;
                reasoning_requirement := reasoning_requirement entry;
                reasoning_text := reasoning_text entry +:+ delta |}]> (reasoning s)) s,
           if visible (reasoning_kind entry) then Some (inr (ReasoningDelta delta)) else None)
      | None => (s, None)
      end
  | ReasoningFinished block_id token =>
      (match reasoning s !! block_id with
       | Some entry =>
           let s := set_reasoning (delete block_id (reasoning s)) s in
           let text :=
             if visible (reasoning_kind entry) && negb (str_is_empty (reasoning_text entry))
             then Some (reasoning_text entry) else None in
           if session.is_some text || negb (visible (reasoning_kind entry)) then
             push {| cap_index := reasoning_index entry;
                     cap_content := CapReasoning (reasoning_kind entry) text;
                     cap_requirement := reasoning_requirement entry; cap_token := token |} s
           else s
       | None => s
       end, None)
  | SdkUsageUpdated usage => (s, Some (inr (UsageUpdated (map_usage usage))))
  | ToolCallStarted block_id index call_id requirement =>
      let position := next_tool_index s in
      (set_tools (<[block_id :=
         {| tool_index := position; tool_response_index := index; tool_call := call_id;
            tool_name := ""; tool_arguments := ""; tool_requirement := requirement;
            announced := false |}]> (tools s)) (set_next_tool_index (Datatypes.S position) s), None)
  | ToolCallNameDelta block_id delta => returned (tool_delta block_id (Some delta) "" s)
  | ToolCallArgumentsDelta block_id delta => returned (tool_delta block_id None delta s)
  | ToolCallFinished block_id token =>
      match tools s !! block_id with
      | Some entry =>
          (push (tool_captured entry token) (set_tools (delete block_id (tools s)) s),
           if announced entry then None
           else Some (inr (ToolCallDeltaEvent (tool_index entry) (Some (tool_call entry)) None "")))
      | None => (s, None)
      end
  | ResponseFinished | OtherEvent => (s, None)
  end.

(** [ResponseFinished]: sort what was captured, commit it, and complete. *)
Definition finish (clock : option Z) (target : CallTarget) (request : ModelCallSnapshot)
    (s : NormalizedStream) (w : ReplayCoordinator S)
    : NormalizedStream * ReplayCoordinator S * outcome Empty_set (option (ModelError + ModelEvent)) :=
  let s := flush_remaining_items (set_done s) in
  let items := sort_items (captured s) in
  let blocks := assistant_blocks_from_captured items in
  let '(w, r) := commit clock target request (stream_response_id s) items w in
  (set_captured [] (set_response_id None s), w,
   match r with
   | Ok _ => Ok (Some (inr (Completed blocks)))
   | Err e => Ok (Some (inl e))
   | Panic => Panic
   end).

Fixpoint pull (clock : option Z) (target : CallTarget) (request : ModelCallSnapshot)
    (events : list (PhiloError + SdkEvent)) (s : NormalizedStream) (w : ReplayCoordinator S)
    : NormalizedStream * ReplayCoordinator S * outcome Empty_set (option (ModelError + ModelEvent)) :=
  match events with
  | [] => (set_done (set_call [] s), w, Ok None)
  | inl error :: events => (set_done (set_call events s), w, Ok (Some (inl (model_error error))))
  | inr ResponseFinished :: events => finish clock target request (set_call events s) w
  | inr event :: events =>
      match on_event event (set_call events s) with
      | (s, Some r) => (s, w, Ok (Some r))
      | (s, None) => pull clock target request events s w
      end
  end.

(** [ModelEventStream::next]. *)
Definition next (clock : option Z) (target : CallTarget) (request : ModelCallSnapshot)
    (s : NormalizedStream) (w : ReplayCoordinator S)
    : NormalizedStream * ReplayCoordinator S * outcome Empty_set (option (ModelError + ModelEvent)) :=
  if done s then (s, w, Ok None) else pull clock target request (call s) s w.

End stream.
End model_stream.

Import runtime jsonl_codec replay_store replay replay_history model_errors model_stream.

Module stream_proofs.

Section proofs.
Context {sdk : Sdk} {sha : Sha256} {json : GenerationJson} {debug : DebugStr} {order : HashOrder}
        {order_laws : HashOrderLaws}.
Context {S : Type} {store : ModelReplayStore S}.

(** ** The response as the client's events describe it *)

(** A block of the response: its identifier, its position, what it holds. *)
Record Piece : Type := { piece_index : Z; piece_content : CapturedContent }.
Abbreviation Response := (list (BlockId * Piece)).

Definition amend (b : BlockId) (f : CapturedContent → CapturedContent) (r : Response) : Response :=
  (λ p, if p.1 == b then (p.1, {| piece_index := piece_index p.2; piece_content := f (piece_content p.2) |})
        else p) <$> r.

Definition add_text (delta : string) (c : CapturedContent) : CapturedContent :=
  match c with CapText t => CapText (t +:+ delta) | c => c end.
Definition add_name (delta : string) (c : CapturedContent) : CapturedContent :=
  match c with CapToolCall i n a => CapToolCall i (n +:+ delta) a | c => c end.
Definition add_arguments (delta : string) (c : CapturedContent) : CapturedContent :=
  match c with CapToolCall i n a => CapToolCall i n (a +:+ delta) | c => c end.

Definition response_step (r : Response) (event : SdkEvent) : Response :=
  match event with
  | TextStarted b i _ => r ++ [(b, {| piece_index := i; piece_content := CapText "" |})]
  | ToolCallStarted b i call_id _ =>
      r ++ [(b, {| piece_index := i; piece_content := CapToolCall call_id "" "" |})]
  | SdkTextDelta b delta => amend b (add_text delta) r
  | ToolCallNameDelta b delta => amend b (add_name delta) r
  | ToolCallArgumentsDelta b delta => amend b (add_arguments delta) r
  | _ => r
  end.
Definition response_of (events : list SdkEvent) : Response := foldl response_step [] events.

(** The text and the calls of a piece that a message has. *)
Definition shown (content : CapturedContent) : bool :=
  match content with
  | CapText t => negb (str_is_empty t)
  | CapToolCall _ _ _ => true
  | CapReasoning _ _ => false
  end.
Definition block_of (content : CapturedContent) : option ModelAssistantBlock :=
  match content with
  | CapText text => if str_is_empty text then None else Some (ModelText text)
  | CapToolCall call_id name arguments =>
      Some (ModelToolCallBlock
        {| tool_call_id := call_id; call_name := name; call_arguments := arguments |})
  | CapReasoning _ _ => None
  end.
Definition piece_le (a b : Piece) : bool := (piece_index a <=? piece_index b)%Z.
Definition blocks_of (r : Response) : list ModelAssistantBlock :=
  filter_map (block_of ∘ piece_content) (sort_by piece_le (r.*2)).

(** Events of a client that keeps its protocol: every block is opened once, and
    is open when it is extended or closed. [open] are the open text blocks and
    tool calls. *)
Fixpoint orderly (seen texts calls : gset BlockId) (events : list SdkEvent) : Prop :=
  match events with
  | [] => True
  | event :: events =>
      match event with
      | TextStarted b _ _ => b ∉ seen ∧ orderly ({[b]} ∪ seen) ({[b]} ∪ texts) calls events
      | ToolCallStarted b _ _ _ => b ∉ seen ∧ orderly ({[b]} ∪ seen) texts ({[b]} ∪ calls) events
      | SdkTextDelta b _ => b ∈ texts ∧ orderly seen texts calls events
      | TextFinished b _ => b ∈ texts ∧ orderly seen (texts ∖ {[b]}) calls events
      | ToolCallNameDelta b _ | ToolCallArgumentsDelta b _ =>
          b ∈ calls ∧ orderly seen texts calls events
      | ToolCallFinished b _ => b ∈ calls ∧ orderly seen texts (calls ∖ {[b]}) events
      | ResponseFinished => False
      | _ => orderly seen texts calls events
      end
  end.

(** ** The invariant *)

Definition text_piece (p : BlockId * TextEntry) : BlockId * Piece :=
  (p.1, {| piece_index := text_index p.2; piece_content := CapText (text_text p.2) |}).
Definition tool_piece (p : BlockId * ToolEntry) : BlockId * Piece :=
  (p.1, {| piece_index := tool_response_index p.2;
           piece_content := CapToolCall (tool_call p.2) (tool_name p.2) (tool_arguments p.2) |}).
Definition item_piece (it : CapturedItem) : Piece :=
  {| piece_index := cap_index it; piece_content := cap_content it |}.

Definition visible_pieces (l : list Piece) : list Piece :=
  filter (λ p, shown (piece_content p) = true) l.
Arguments visible_pieces _ : simpl never.

(** The response is made of the closed blocks and the open ones. *)
Record holds (r : Response) (seen : gset BlockId) (s : NormalizedStream) : Prop := {
  hd_ids : NoDup r.*1;
  hd_seen b : b ∈ r.*1 → b ∈ seen;
  hd_pieces : ∃ closed : Response,
    r ≡ₚ closed ++ (text_piece <$> map_to_list (text s)) ++ (tool_piece <$> map_to_list (tools s)) ∧
    visible_pieces closed.*2 ≡ₚ visible_pieces (item_piece <$> captured s)
}.

Lemma visible_cons p l :
  visible_pieces (p :: l) = (if shown (piece_content p) then [p] else []) ++ visible_pieces l.
Proof.
  unfold visible_pieces. rewrite filter_cons. destruct (shown (piece_content p)) eqn:Hp.
  - by rewrite decide_True.
  - by rewrite decide_False by congruence.
Qed.

Lemma visible_app l k : visible_pieces (l ++ k) = visible_pieces l ++ visible_pieces k.
Proof. apply filter_app. Qed.

#[export] Instance amend_perm b f : Proper (Permutation ==> Permutation) (amend b f).
Proof. intros r r' H. by apply fmap_Permutation. Qed.
#[export] Instance visible_perm : Proper (Permutation ==> Permutation) visible_pieces.
Proof. intros l l' H. unfold visible_pieces. by rewrite H. Qed.

Lemma amend_app b f r k : amend b f (r ++ k) = amend b f r ++ amend b f k.
Proof. apply fmap_app. Qed.

Lemma amend_ids b f r : (amend b f r).*1 = r.*1.
Proof.
  unfold amend. rewrite <- list_fmap_compose. apply list_fmap_ext. intros i [c p] _. simpl.
  by destruct (c == b).
Qed.

Lemma amend_other b f r : b ∉ r.*1 → amend b f r = r.
Proof.
  intros Hb. unfold amend. rewrite <- (list_fmap_id r) at 2. apply list_fmap_ext.
  intros i [c p] Hi. simpl. rewrite bool_decide_eq_false_2; [done|]. intros ->.
  apply Hb, list_elem_of_fmap. exists (b, p). split; [done|]. by eapply list_elem_of_lookup_2.
Qed.

(** ** Maps as lists *)

Lemma take_entry {A} (m : gmap BlockId A) b e :
  m !! b = Some e → map_to_list m ≡ₚ (b, e) :: map_to_list (delete b m).
Proof.
  intros Hb. rewrite <- (insert_delete_id m b e) at 1 by done.
  apply map_to_list_insert, lookup_delete_eq.
Qed.

Lemma put_entry {A} (m : gmap BlockId A) b e :
  map_to_list (<[b := e]> m) ≡ₚ (b, e) :: map_to_list (delete b m).
Proof.
  rewrite <- (insert_delete_eq m b e). apply map_to_list_insert, lookup_delete_eq.
Qed.

Lemma entry_ids {A} (f : BlockId * A → BlockId * Piece) (m : gmap BlockId A) b :
  (∀ p, (f p).1 = p.1) → b ∈ (f <$> map_to_list m).*1 ↔ session.is_some (m !! b) = true.
Proof.
  intros Hf. rewrite <- list_fmap_compose, list_elem_of_fmap. split.
  - intros ([c e] & -> & Hin%elem_of_map_to_list). simpl. rewrite Hf. simpl. by rewrite Hin.
  - destruct (m !! b) as [e|] eqn:He; [|done]. intros _. exists (b, e). simpl. rewrite Hf.
    split; [done|]. by apply elem_of_map_to_list.
Qed.

(** An open block is extended. *)
Lemma amend_entry {A} (f : BlockId * A → BlockId * Piece) (m : gmap BlockId A) b e e' g :
  (∀ p, (f p).1 = p.1) → m !! b = Some e →
  f (b, e') = (b, {| piece_index := piece_index (f (b, e)).2;
                     piece_content := g (piece_content (f (b, e)).2) |}) →
  amend b g (f <$> map_to_list m) ≡ₚ f <$> map_to_list (<[b := e']> m).
Proof.
  intros Hf Hb He. rewrite (take_entry _ _ _ Hb), put_entry. csimpl. rewrite He, Hf. cbn [fst].
  rewrite bool_decide_eq_true_2 by done. constructor.
  rewrite <- (amend_other b g (f <$> map_to_list (delete b m))) at 2; [done|].
  rewrite entry_ids by done. by rewrite lookup_delete_eq.
Qed.
(** ** One event *)

Definition texts_of (s : NormalizedStream) : Response := text_piece <$> map_to_list (text s).
Definition tools_of (s : NormalizedStream) : Response := tool_piece <$> map_to_list (tools s).

Lemma in_texts s b : b ∈ (texts_of s).*1 ↔ b ∈ dom (text s).
Proof.
  unfold texts_of. rewrite entry_ids by done. rewrite elem_of_dom.
  destruct (text s !! b); [by split|]. by split; [|intros []].
Qed.
Lemma in_tools s b : b ∈ (tools_of s).*1 ↔ b ∈ dom (tools s).
Proof.
  unfold tools_of. rewrite entry_ids by done. rewrite elem_of_dom.
  destruct (tools s !! b); [by split|]. by split; [|intros []].
Qed.

(** An identifier belongs to one of the three parts. *)
Lemma parts_disjoint (r c t k : Response) b :
  NoDup r.*1 → r ≡ₚ c ++ t ++ k →
  (b ∈ t.*1 → b ∉ c.*1 ∧ b ∉ k.*1) ∧ (b ∈ k.*1 → b ∉ c.*1 ∧ b ∉ t.*1).
Proof.
  intros Hn Hr. rewrite Hr, !fmap_app in Hn. apply NoDup_app in Hn as (_ & Hc & Hn).
  apply NoDup_app in Hn as (_ & Ht & _). set_solver.
Qed.

Lemma in_response r seen s b :
  holds r seen s → b ∈ dom (text s) ∨ b ∈ dom (tools s) → b ∈ seen.
Proof.
  intros [_ Hs (c & Hr & _)] Hb. apply Hs. rewrite Hr, !fmap_app, !elem_of_app.
  rewrite <- in_texts, <- in_tools in Hb. tauto.
Qed.

Lemma holds_same r seen s s' :
  holds r seen s → text s' = text s → tools s' = tools s →
  visible_pieces (item_piece <$> captured s') ≡ₚ visible_pieces (item_piece <$> captured s) →
  holds r seen s'.
Proof.
  intros [Hn Hs (c & Hr & Hv)] Ht Hk Hc. split; [done|done|]. exists c.
  rewrite Ht, Hk. split; [done|]. by rewrite Hv.
Qed.

(** A new block, in one of the parts. *)
Lemma holds_open r seen s s' b p :
  holds r seen s → b ∉ seen → captured s' = captured s →
  texts_of s' ++ tools_of s' ≡ₚ (b, p) :: texts_of s ++ tools_of s →
  holds (r ++ [(b, p)]) ({[b]} ∪ seen) s'.
Proof.
  intros [Hn Hs (c & Hr & Hv)] Hb Hc Hp. split.
  - rewrite fmap_app. apply NoDup_app. split; [done|]. split; [|apply NoDup_singleton].
    intros b' Hb' ->%list_elem_of_singleton. by apply Hb, Hs.
  - intros b'. rewrite fmap_app, elem_of_app. csimpl. rewrite list_elem_of_singleton. set_solver.
  - exists c. fold (texts_of s) (tools_of s) in Hr. fold (texts_of s') (tools_of s').
    rewrite Hc. split; [|done]. rewrite Hp, Hr. rewrite <- Permutation_cons_append.
    by rewrite Permutation_middle.
Qed.

(** An open block is extended. *)
Lemma holds_extend r seen s s' b g :
  holds r seen s → captured s' = captured s →
  b ∈ dom (text s) ∧ texts_of s' ≡ₚ amend b g (texts_of s) ∧ tools_of s' = tools_of s ∨
  b ∈ dom (tools s) ∧ tools_of s' ≡ₚ amend b g (tools_of s) ∧ texts_of s' = texts_of s →
  holds (amend b g r) seen s'.
Proof.
  intros [Hn Hs (c & Hr & Hv)] Hc Hp. fold (texts_of s) (tools_of s) in Hr.
  destruct (parts_disjoint _ _ _ _ b Hn Hr) as [Ht Hk]. rewrite in_texts in Ht. rewrite in_tools in Hk.
  split; [by rewrite amend_ids|by rewrite amend_ids|]. exists c.
  fold (texts_of s') (tools_of s'). rewrite Hc. split; [|done].
  rewrite Hr, !amend_app.
  destruct Hp as [(Hb & -> & ->)|(Hb & -> & ->)].
  - destruct (Ht Hb). by rewrite (amend_other b g c), (amend_other b g (tools_of s)).
  - destruct (Hk Hb). by rewrite (amend_other b g c), (amend_other b g (texts_of s)).
Qed.

(** An open block is closed. *)
Lemma holds_close r seen s s' b p :
  holds r seen s → texts_of s ++ tools_of s ≡ₚ (b, p) :: texts_of s' ++ tools_of s' →
  visible_pieces (item_piece <$> captured s') ≡ₚ
    visible_pieces [p] ++ visible_pieces (item_piece <$> captured s) →
  holds r seen s'.
Proof.
  intros [Hn Hs (c & Hr & Hv)] Hp Hc. split; [done|done|]. exists ((b, p) :: c).
  fold (texts_of s) (tools_of s) in Hr. fold (texts_of s') (tools_of s').
  split.
  - rewrite Hr, Hp. by rewrite <- Permutation_middle.
  - rewrite Hc, <- Hv, <- visible_app. done.
Qed.

Lemma dom_some {A} (m : gmap BlockId A) b : b ∈ dom m → ∃ e, m !! b = Some e.
Proof. intros [e He]%elem_of_dom. by exists e. Qed.

Lemma dom_none {A} (m : gmap BlockId A) b : b ∉ dom m → m !! b = None.
Proof. apply not_elem_of_dom. Qed.

(** ** Events *)

Definition seen_after (event : SdkEvent) (seen : gset BlockId) : gset BlockId :=
  match event with
  | TextStarted b _ _ | ToolCallStarted b _ _ _ => {[b]} ∪ seen
  | _ => seen
  end.

Lemma tool_delta_holds r seen s b name arguments e g :
  holds r seen s → tools s !! b = Some e →
  (let e' := {| tool_index := tool_index e; tool_response_index := tool_response_index e;
                tool_call := tool_call e;
                tool_name := match name with Some d => tool_name e +:+ d | None => tool_name e end;
                tool_arguments := tool_arguments e +:+ arguments;
                tool_requirement := tool_requirement e; announced := true |} in
   tool_piece (b, e') = (b, {| piece_index := tool_response_index e;
      piece_content := g (CapToolCall (tool_call e) (tool_name e) (tool_arguments e)) |})) →
  let s' := (returned (tool_delta b name arguments s)).1 in
  holds (amend b g r) seen s' ∧ dom (text s') = dom (text s) ∧ dom (tools s') = dom (tools s).
Proof.
  intros HI He Hg. unfold tool_delta. rewrite He. cbn [returned fst text tools set_tools].
  split; [|split; [done|by rewrite dom_insert_lookup_L]].
  apply (holds_extend _ _ s); [done|done|]. right. split; [by apply elem_of_dom_2 in He|].
  split; [|done]. symmetry. unfold tools_of. cbn [tools set_tools]. by eapply amend_entry.
Qed.

Lemma event_holds r seen s event events :
  holds r seen s → orderly seen (dom (text s)) (dom (tools s)) (event :: events) →
  let s' := (on_event event s).1 in
  holds (response_step r event) (seen_after event seen) s' ∧
  orderly (seen_after event seen) (dom (text s')) (dom (tools s')) events.
Proof.
  intros HI Ho. destruct event; cbn [orderly on_event fst response_step seen_after] in *;
    try (split; [|exact Ho]; by apply (holds_same _ _ _ _ HI)).
  - split; [|by destruct (retain_response_id s)].
    destruct (retain_response_id s); by apply (holds_same _ _ _ _ HI).
  - destruct Ho as [Hb Ho]. cbn [text tools set_text set_tools set_next_tool_index].
    split; [|by rewrite dom_insert_L].
    apply (holds_open _ _ s); [done|done|done|]. unfold texts_of. cbn [text set_text].
    rewrite map_to_list_insert; [done|]. apply dom_none. intros Hd. apply Hb.
    eapply in_response; [done|by left].
  - destruct Ho as [[e He]%dom_some Ho]. rewrite He. cbn [text tools set_text].
    split; [|by rewrite dom_insert_lookup_L].
    apply (holds_extend _ _ s); [done|done|]. left. split; [by apply elem_of_dom_2 in He|].
    split; [|done]. symmetry. unfold texts_of. cbn [text set_text]. by eapply amend_entry.
  - destruct Ho as [[e He]%dom_some Ho]. rewrite He.
    destruct (str_is_empty (text_text e)) eqn:Hem; cbn [text tools set_text push set_captured];
      (split; [|by rewrite dom_delete_L]); apply (holds_close _ _ s _ block_id (text_piece (block_id, e)).2);
      try done.
    + unfold texts_of, tools_of. cbn [text tools set_text]. by rewrite (take_entry _ _ _ He).
    + rewrite visible_cons. cbn. by rewrite Hem.
    + unfold texts_of, tools_of. cbn [text tools set_text push set_captured]. by rewrite (take_entry _ _ _ He).
    + cbn [captured push set_captured set_text]. rewrite fmap_app, visible_app. by rewrite Permutation_app_comm.
  - destruct (reasoning s !! block_id); [|by split; [apply (holds_same _ _ _ _ HI)|]].
    by split; [apply (holds_same _ _ _ _ HI)|].
  - destruct (reasoning s !! block_id) as [e|]; [|by split; [apply (holds_same _ _ _ _ HI)|]].
    destruct (_ || _); [|by split; [apply (holds_same _ _ _ _ HI)|]].
    split; [|done]. apply (holds_same _ _ _ _ HI); [done|done|]. cbn [captured push set_captured set_reasoning].
    rewrite fmap_app, visible_app. csimpl. rewrite visible_cons. cbn. by rewrite app_nil_r.
  - destruct Ho as [Hb Ho]. cbn [text tools set_text set_tools set_next_tool_index].
    split; [|by rewrite dom_insert_L].
    apply (holds_open _ _ s); [done|done|done|]. unfold texts_of, tools_of.
    cbn [text tools set_tools set_next_tool_index].
    rewrite map_to_list_insert; [csimpl; by rewrite Permutation_middle|]. apply dom_none. intros Hd. apply Hb.
    eapply in_response; [done|by right].
  - destruct Ho as [[e He]%dom_some Ho].
    destruct (tool_delta_holds r seen s block_id (Some delta) "" e (add_name delta) HI He) as (?&->&->).
    { cbn. by rewrite str_app_nil_r. }
    done.
  - destruct Ho as [[e He]%dom_some Ho].
    by destruct (tool_delta_holds r seen s block_id None delta e (add_arguments delta) HI He) as (?&->&->).
  - destruct Ho as [[e He]%dom_some Ho]. rewrite He.
    cbn [fst text tools push set_captured set_tools]. split; [|by rewrite dom_delete_L].
    apply (holds_close _ _ s _ block_id (tool_piece (block_id, e)).2); [done|..].
    + unfold texts_of, tools_of. cbn [text tools set_tools push set_captured].
      rewrite (take_entry _ _ _ He). csimpl. by rewrite Permutation_middle.
    + cbn [captured push set_captured set_tools]. rewrite fmap_app, visible_app.
      by rewrite Permutation_app_comm.
  - done.
Qed.
(** ** Sorting what was captured *)

Lemma sort_by_fmap {A B} (f : A → B) (le : B → B → bool) l :
  sort_by le (f <$> l) = f <$> sort_by (λ a b, le (f a) (f b)) l.
Proof.
  unfold sort_by. induction l as [|x l IH]; [done|]. csimpl. rewrite IH.
  generalize (foldr (insert_by (λ a b, le (f a) (f b))) [] l). clear.
  induction l as [|y l IH]; [done|]. csimpl. destruct (le (f x) (f y)); [done|]. csimpl. by rewrite IH.
Qed.

Lemma pieces_sorted l : StronglySorted (λ x y, piece_le x y = true) (sort_by piece_le l).
Proof.
  apply Sorted_StronglySorted.
  - intros x y z. unfold piece_le. rewrite !Z.leb_le. lia.
  - apply sort_by_sorted. intros x y. unfold piece_le. rewrite !Z.leb_le. lia.
Qed.

(** Pieces at different positions have one order. *)
Lemma visible_sorted l k :
  NoDup (piece_index <$> l) → visible_pieces l ≡ₚ visible_pieces k →
  visible_pieces (sort_by piece_le l) = visible_pieces (sort_by piece_le k).
Proof.
  intros Hn Hp. eapply (StronglySorted_unique_strong (λ x y, piece_le x y = true)).
  - intros x y Hx Hy. unfold piece_le. rewrite !Z.leb_le. intros H1 H2.
    rewrite sort_by_permutes in Hx. rewrite sort_by_permutes, <- Hp in Hy.
    apply list_elem_of_filter in Hx as [_ Hx], Hy as [_ Hy].
    eapply nodup_fmap_inj; [exact Hn|done|done|lia].
  - apply strongly_sorted_filter, pieces_sorted.
  - apply strongly_sorted_filter, pieces_sorted.
  - by rewrite !sort_by_permutes.
Qed.

Lemma blocks_visible l :
  filter_map (block_of ∘ piece_content) l = filter_map (block_of ∘ piece_content) (visible_pieces l).
Proof.
  unfold filter_map, visible_pieces. induction l as [|p l IH]; [done|]. rewrite filter_cons.
  destruct (shown (piece_content p)) eqn:Hs.
  - rewrite decide_True by done. csimpl. by rewrite IH.
  - rewrite decide_False by congruence. csimpl. rewrite IH. unfold compose at 1.
    assert (block_of (piece_content p) = None) as ->; [|done].
    destruct (piece_content p) as [t|k t|i n a]; [|done..]. cbn in *. by destruct (str_is_empty t).
Qed.

Lemma assistant_blocks_pieces items :
  assistant_blocks_from_captured (sort_items items) =
  filter_map (block_of ∘ piece_content) (sort_by piece_le (item_piece <$> items)).
Proof.
  rewrite sort_by_fmap. unfold assistant_blocks_from_captured, filter_map.
  change (sort_items items) with (sort_by (λ a b, piece_le (item_piece a) (item_piece b)) items).
  generalize (sort_by (λ a b, piece_le (item_piece a) (item_piece b)) items). clear.
  induction 0 as [|it l IH]; [done|]. csimpl. rewrite IH. unfold block_from_captured, block_of. cbn.
  by destruct (cap_content it).
Qed.

Definition leftover (p : BlockId * TextEntry) : option CapturedItem :=
  if str_is_empty (text_text p.2) then None else Some (text_captured p.2 None).

Lemma flushed_texts (l : list (BlockId * TextEntry)) :
  visible_pieces (item_piece <$> filter_map leftover l) = visible_pieces (text_piece <$> l).*2.
Proof.
  unfold filter_map. induction l as [|[b e] l IH]; [done|].
  change ((text_piece <$> (b, e) :: l).*2) with ((text_piece (b, e)).2 :: (text_piece <$> l).*2).
  rewrite visible_cons, <- IH. cbn [omap list_omap]. unfold leftover at 1.
  cbn [snd text_piece piece_content shown]. destruct (str_is_empty (text_text e)) eqn:He; [done|].
  change (item_piece <$> text_captured e None :: ?k)
    with (item_piece (text_captured e None) :: (item_piece <$> k)).
  rewrite visible_cons. cbn [item_piece piece_content cap_content text_captured shown]. by rewrite He.
Qed.

(** What the last event captures: the response. *)
Lemma flushed_blocks r seen s :
  holds r seen s → NoDup (piece_index <$> r.*2) →
  assistant_blocks_from_captured (sort_items (captured (flush_remaining_items s))) = blocks_of r.
Proof.
  intros [_ _ (c & Hr & Hv)] Hn. rewrite assistant_blocks_pieces. unfold blocks_of.
  rewrite blocks_visible. rewrite (blocks_visible (sort_by piece_le r.*2)). f_equal.
  symmetry. apply visible_sorted; [done|].
  unfold flush_remaining_items. cbn [captured set_captured].
  change (λ p : BlockId * TextEntry, if str_is_empty (text_text p.2) then None
                                     else Some (text_captured p.2 None)) with leftover.
  rewrite !fmap_app, !visible_app, <- Hv.
  rewrite Hr, !fmap_app, !visible_app. clear Hr Hn Hv.
  apply Permutation_app; [done|apply Permutation_app].
  - by rewrite flushed_texts, (drain_permutes _ (text s)).
  - rewrite (drain_permutes _ (tools s)). rewrite <- !list_fmap_compose. done.
Qed.
(** ** All that a stream delivers *)

(** Call [next] until it has nothing more to say. *)
Fixpoint run_stream (fuel : nat) (clock : option Z) (target : CallTarget)
    (request : ModelCallSnapshot) (s : NormalizedStream) (w : ReplayCoordinator S)
    : list (ModelError + ModelEvent) :=
  match fuel with
  | O => []
  | Datatypes.S fuel =>
      match next clock target request s w with
      | (s, w, Ok (Some r)) => r :: run_stream fuel clock target request s w
      | _ => []
      end
  end.

(** What a list of events makes the stream say, and the stream after them. *)
Fixpoint said (events : list SdkEvent) (s : NormalizedStream)
    : list (ModelError + ModelEvent) * NormalizedStream :=
  match events with
  | [] => ([], s)
  | event :: events =>
      let '(s, r) := on_event event s in
      let '(rs, s) := said events s in
      (match r with Some r => r :: rs | None => rs end, s)
  end.

Lemma on_event_call event c s :
  on_event event (set_call c s) = (set_call c (on_event event s).1, (on_event event s).2).
Proof.
  destruct event; cbn; try done.
  - by destruct (retain_response_id s).
  - by destruct (text s !! block_id).
  - destruct (text s !! block_id) as [e|]; [|done]. by destruct (str_is_empty (text_text e)).
  - by destruct (reasoning s !! block_id).
  - destruct (reasoning s !! block_id) as [e|]; [|done]. by destruct (_ || _).
  - unfold tool_delta. cbn. by destruct (tools s !! block_id).
  - unfold tool_delta. cbn. by destruct (tools s !! block_id).
  - by destruct (tools s !! block_id).
Qed.

Lemma said_call events c s : said events (set_call c s) = ((said events s).1, set_call c (said events s).2).
Proof.
  revert s. induction events as [|event events IH]; intros s; [done|]. simpl.
  rewrite on_event_call. destruct (on_event event s) as [s' r]. cbn. rewrite IH.
  by destruct (said events s') as [rs s2].
Qed.

Lemma set_call_twice c c' s : set_call c (set_call c' s) = set_call c s.
Proof. done. Qed.

(** The client's protocol is kept: no error, and the stream goes on. *)
Lemma event_fine r seen s event events :
  holds r seen s → orderly seen (dom (text s)) (dom (tools s)) (event :: events) → done s = false →
  done (on_event event s).1 = false ∧ ∀ e, (on_event event s).2 ≠ Some (inl e).
Proof.
  intros _ Ho Hd. destruct event; cbn in *; try done.
  - by destruct (retain_response_id s).
  - by destruct (text s !! block_id).
  - destruct (text s !! block_id) as [e|]; [|done]. by destruct (str_is_empty (text_text e)).
  - destruct (reasoning s !! block_id) as [e|]; [|done]. cbn. by destruct (visible (reasoning_kind e)).
  - destruct (reasoning s !! block_id) as [e|]; [|done]. by destruct (_ || _).
  - destruct Ho as [[e He]%dom_some _]. unfold tool_delta. by rewrite He.
  - destruct Ho as [[e He]%dom_some _]. unfold tool_delta. by rewrite He.
  - destruct (tools s !! block_id) as [e|]; [|done]. cbn. by destruct (announced e).
Qed.

Lemma said_holds r seen s events :
  holds r seen s → orderly seen (dom (text s)) (dom (tools s)) events → done s = false →
  (∃ seen', holds (foldl response_step r events) seen' (said events s).2) ∧
  done (said events s).2 = false ∧ Forall (λ o, ∃ e, o = inr e) (said events s).1.
Proof.
  revert r seen s. induction events as [|event events IH]; intros r seen s HI Ho Hd.
  { split; [by exists seen|]. by split; [|constructor]. }
  destruct (event_holds _ _ _ _ _ HI Ho) as [HI' Ho'].
  destruct (event_fine _ _ _ _ _ HI Ho Hd) as [Hd' He]. cbn [said foldl].
  destruct (on_event event s) as [s' o]. cbn in *.
  destruct (IH _ _ _ HI' Ho' Hd') as (Hh & Hd2 & Hf).
  destruct (said events s') as [rs s2]. cbn in *. split; [done|]. split; [done|].
  destruct o as [[e|e]|]; [by destruct (He e)|constructor; [by exists e|done]|done].
Qed.

Lemma done_next clock target request s w : done s = true → next clock target request s w = (s, w, Ok None).
Proof. unfold next. by intros ->. Qed.

Lemma run_done fuel clock target request s w : done s = true → run_stream fuel clock target request s w = [].
Proof. intros Hd. destruct fuel as [|fuel]; [done|]. simpl. by rewrite done_next. Qed.

Definition last_word (r : outcome Empty_set (option (ModelError + ModelEvent))) : list (ModelError + ModelEvent) :=
  match r with Ok (Some r) => [r] | _ => [] end.

Lemma finish_done clock target request s w : done (finish clock target request s w).1.1 = true.
Proof. unfold finish. by destruct (commit _ _ _ _ _ _) as [w' r]. Qed.

(** With fuel for every event, the run is what the events say and the last word. *)
Lemma run_said fuel clock target request events rest s w :
  length events < fuel → done s = false →
  (∀ l1 event l2, events = l1 ++ event :: l2 → event ≠ ResponseFinished ∧
     done (said (l1 ++ [event]) s).2 = false) →
  call s = (inr <$> events) ++ inr ResponseFinished :: rest →
  run_stream fuel clock target request s w =
  (said events s).1 ++ last_word (finish clock target request (set_call rest (said events s).2) w).2.
Proof.
  revert fuel s. induction events as [|event events IH]; intros fuel s Hf Hd He Hc;
    (destruct fuel as [|fuel]; [lia|]); cbn [run_stream]; unfold next; rewrite Hd, Hc.
  - cbn [fmap list_fmap app pull said fst snd]. pose proof (finish_done clock target request (set_call rest s) w) as Hfd.
    destruct (finish clock target request (set_call rest s) w) as [[s' w'] [[r|]|e|]]; cbn in *; try done.
    by rewrite run_done.
  - destruct (He [] event events eq_refl) as [Hne Hd'].
    assert (∀ tl, pull clock target request (inr event :: tl) s w =
      match on_event event (set_call tl s) with
      | (s, Some r) => (s, w, Ok (Some r))
      | (s, None) => pull clock target request tl s w
      end) as Hpull by (intros tl; by destruct event).
    cbn [fmap list_fmap app]. rewrite Hpull, on_event_call. cbn [said] in *.
    cbn [app said] in Hd'. destruct (on_event event s) as [s1 o] eqn:Hev. cbn [fst snd] in *.
    set (tl := (inr <$> events) ++ inr ResponseFinished :: rest).
    assert (∀ l1 ev l2, events = l1 ++ ev :: l2 → ev ≠ ResponseFinished ∧
      done (said (l1 ++ [ev]) (set_call tl s1)).2 = false) as He'.
    { intros l1 ev l2 Heq. destruct (He (event :: l1) ev l2) as [? Hdn]; [by rewrite Heq|].
      split; [done|]. rewrite said_call. cbn [app said] in Hdn. rewrite Hev in Hdn.
      by destruct (said (l1 ++ [ev]) s1). }
    destruct o as [r|].
    + rewrite (IH fuel (set_call tl s1)); [|simpl in *; lia|done|done|done].
      rewrite said_call. destruct (said events s1) as [rs s2]. cbn. done.
    + specialize (IH (Datatypes.S fuel) (set_call tl s1)). cbn [run_stream] in IH. unfold next in IH.
      cbn [done set_call] in IH. rewrite Hd' in IH. cbn [call set_call] in IH. unfold tl at 1 in IH.
      rewrite IH; [|simpl in *; lia|done|done|done].
      rewrite said_call. destruct (said events s1) as [rs s2]. cbn. done.
Qed.
(** ** What the stream says of the calls *)

(** The calls of a response in the order in which they are opened: the block,
    and the identifier, name and arguments the deltas spell. *)
Definition call_of (p : BlockId * Piece) : option (BlockId * (string * string * string)) :=
  match piece_content p.2 with CapToolCall i n a => Some (p.1, (i, n, a)) | _ => None end.
Definition calls_of (r : Response) : list (BlockId * (string * string * string)) := filter_map call_of r.

(** What is heard of the call with an index: identifier, name and arguments. *)
Definition heard_call (k : nat) (r : ModelError + ModelEvent)
    : option (option string * option string * string) :=
  match r with
  | inr (ToolCallDeltaEvent index id name arguments) =>
      if index == k then Some (id, name, arguments) else None
  | _ => None
  end.
Definition said_of (k : nat) (heard : list (ModelError + ModelEvent))
    : list (option string * option string * string) := filter_map (heard_call k) heard.

(** The deltas spell a call: the identifier comes once, with the first of them,
    and the names and the arguments are the pieces of the call's. *)
Definition spells (call : string * string * string)
    (deltas : list (option string * option string * string)) : Prop :=
  (∀ j d, deltas !! j = Some d → d.1.1 = if j == 0 then Some call.1.1 else None) ∧
  concat_str ((λ d, default "" d.1.2) <$> deltas) = call.1.2 ∧
  concat_str (snd <$> deltas) = call.2.

Lemma spells_more i n a deltas name arguments :
  spells (i, n, a) deltas →
  spells (i, match name with Some d => n +:+ d | None => n end, a +:+ arguments)
    (deltas ++ [(if bool_decide (deltas = []) then Some i else None, name, arguments)]).
Proof.
  intros (Hid & Hn & Ha). cbn [fst snd] in *. split; [|split].
  - intros j d [Hj|[Hj Hd]]%lookup_app_Some; [by apply Hid|]. cbn.
    destruct (j - length deltas) as [|m] eqn:Hm; [|done]. injection Hd as <-. cbn.
    destruct deltas as [|x deltas]; destruct j; cbn in *; try done; lia.
  - rewrite fmap_app. cbn [fmap list_fmap]. rewrite concat_str_snoc, Hn. cbn.
    destruct name; [done|]. by rewrite str_app_nil_r.
  - rewrite fmap_app. cbn [fmap list_fmap]. by rewrite concat_str_snoc, Ha.
Qed.

Lemma calls_of_app r k : calls_of (r ++ k) = calls_of r ++ calls_of k.
Proof. apply omap_app. Qed.

Lemma calls_ids r : NoDup r.*1 → NoDup (calls_of r).*1.
Proof.
  unfold calls_of, filter_map. induction r as [|[b p] r IH]; csimpl; [done|]. intros [Hb Hr]%NoDup_cons.
  specialize (IH Hr). unfold call_of at 1. cbn. destruct (piece_content p); csimpl; [done..|].
  constructor; [|done]. intros ([b' v] & -> & Hin)%list_elem_of_fmap. apply Hb. cbn.
  apply list_elem_of_omap in Hin as ([b2 q] & Hin & Hq). unfold call_of in Hq. cbn in Hq.
  destruct (piece_content q); simplify_eq. by apply (list_elem_of_fmap_2 fst) in Hin.
Qed.

Lemma same_call r k k' b v v' :
  NoDup r.*1 → calls_of r !! k = Some (b, v) → calls_of r !! k' = Some (b, v') → k = k' ∧ v = v'.
Proof.
  intros Hr%calls_ids Hk Hk'.
  assert (k = k') as ->; [|by simplify_eq].
  eapply NoDup_lookup; [exact Hr|..]; rewrite list_lookup_fmap; [by rewrite Hk|by rewrite Hk'].
Qed.

(** An amendment of a call, and one that is none. *)
Lemma calls_amend b g h r :
  (∀ i n a, g (CapToolCall i n a) =
     CapToolCall (h (i, n, a)).1.1 (h (i, n, a)).1.2 (h (i, n, a)).2) →
  (∀ c q, call_of (b, {| piece_index := q; piece_content := c |}) = None →
     call_of (b, {| piece_index := q; piece_content := g c |}) = None) →
  calls_of (amend b g r) = (λ p, if p.1 == b then (p.1, h p.2) else p) <$> calls_of r.
Proof.
  intros Hg Hn. unfold calls_of, filter_map, amend. induction r as [|[c [q x]] r IH]; [done|]. csimpl.
  rewrite IH. unfold call_of at 1 3. cbn. destruct (c == b) eqn:Hc; cbn.
  - apply bool_decide_eq_true in Hc as ->. specialize (Hn x q). unfold call_of in Hn. cbn in Hn.
    destruct x as [t|kind t|i n a].
    + by destruct (g (CapText t)); [..|discriminate Hn].
    + by destruct (g (CapReasoning kind t)); [..|discriminate Hn].
    + rewrite Hg. csimpl. rewrite bool_decide_eq_true_2 by done. by destruct (h (i, n, a)) as [[??]?].
  - destruct x as [t|kind t|i n a]; [done|done|]. csimpl. by rewrite Hc.
Qed.
Lemma calls_amend_text b delta r : calls_of (amend b (add_text delta) r) = calls_of r.
Proof.
  rewrite (calls_amend b _ id); [|done|].
  - rewrite <- (list_fmap_id (calls_of r)) at 2. apply list_fmap_ext. intros _ [c v] _. cbn.
    by destruct (c == b).
  - intros c q. by destruct c.
Qed.

(** What was said of the calls, so far: [evs] are the events, [hs] is heard. *)
Record spoken (r : Response) (seen : gset BlockId) (evs : list SdkEvent) (s : NormalizedStream)
    (hs : list (ModelError + ModelEvent)) : Prop := {
  sp_count : length (calls_of r) = next_tool_index s;
  sp_open b e : tools s !! b = Some e →
    calls_of r !! tool_index e = Some (b, (tool_call e, tool_name e, tool_arguments e)) ∧
    announced e = negb (bool_decide (said_of (tool_index e) hs = []));
  sp_spelled k b v : calls_of r !! k = Some (b, v) → spells v (said_of k hs);
  sp_none k : length (calls_of r) ≤ k → said_of k hs = [];
  sp_finished b token k v :
    ToolCallFinished b token ∈ evs → calls_of r !! k = Some (b, v) → said_of k hs ≠ [];
  sp_seen b token : ToolCallFinished b token ∈ evs → b ∈ seen
}.

Definition heard_of (o : option (ModelError + ModelEvent)) : list (ModelError + ModelEvent) :=
  match o with Some r => [r] | None => [] end.
Lemma said_of_app k hs l : said_of k (hs ++ l) = said_of k hs ++ said_of k l.
Proof. apply omap_app. Qed.

(** An event that is not about calls. *)
Lemma spoken_same r r' seen seen' evs event s s' hs o :
  spoken r seen evs s hs → calls_of r' = calls_of r → tools s' = tools s →
  next_tool_index s' = next_tool_index s → seen ⊆ seen' → (∀ k, said_of k (heard_of o) = []) →
  (∀ b token, event ≠ ToolCallFinished b token) →
  spoken r' seen' (evs ++ [event]) s' (hs ++ heard_of o).
Proof.
  intros [H1 H2 H3 H4 H5 H6] Hr Ht Hn Hs Ho He.
  assert (∀ k, said_of k (hs ++ heard_of o) = said_of k hs) as Hso.
  { intros k. by rewrite said_of_app, Ho, app_nil_r. }
  split; rewrite ?Hr, ?Ht, ?Hn; try done.
  - intros b e. rewrite Hso. apply H2.
  - intros k b v. rewrite Hso. apply H3.
  - intros k. rewrite Hso. apply H4.
  - intros b token k v. rewrite Hso, elem_of_app, list_elem_of_singleton.
    intros [Hin|Hin]; [by eapply H5|by destruct (He b token)].
  - intros b token. rewrite elem_of_app, list_elem_of_singleton.
    intros [Hin|Hin]; [by eapply Hs, H6|by destruct (He b token)].
Qed.

(** A call is opened. *)
Lemma spoken_open r seen evs s hs b i call_id requirement :
  spoken r seen evs s hs → b ∉ seen → NoDup r.*1 → (∀ c, c ∈ r.*1 → c ∈ seen) →
  spoken (response_step r (ToolCallStarted b i call_id requirement)) ({[b]} ∪ seen)
    (evs ++ [ToolCallStarted b i call_id requirement])
    (on_event (ToolCallStarted b i call_id requirement) s).1 (hs ++ heard_of None).
Proof.
  intros [H1 H2 H3 H4 H5 H6] Hb Hn Hin. cbn [heard_of response_step on_event fst]. rewrite app_nil_r.
  set (r' := r ++ _).
  assert (calls_of r' = calls_of r ++ [(b, (call_id, "", ""))]) as Hr by (unfold r'; by rewrite calls_of_app).
  split; rewrite ?Hr; cbn [tools set_tools set_next_tool_index next_tool_index].
  - rewrite length_app. cbn. lia.
  - intros c e [[<- <-]|[Hc He]]%lookup_insert_Some; cbn.
    + rewrite <- H1. rewrite lookup_app_r, Nat.sub_diag by done. split; [done|].
      by rewrite H4, bool_decide_eq_true_2.
    + apply H2 in He as [He Ha]. split; [|done]. by apply lookup_app_l_Some.
  - intros k c v [Hk|[Hk Hv]]%lookup_app_Some; [by eapply H3|]. rewrite H4 by done.
    destruct (k - length (calls_of r)); [|done]. injection Hv as <- <-. by split_and!.
  - intros k. rewrite length_app. cbn. intros Hk. apply H4. lia.
  - intros c token k v. rewrite elem_of_app, list_elem_of_singleton.
    intros [He|?]; [|done]. intros [Hk|[Hk Hv]]%lookup_app_Some; [by eapply H5|].
    destruct (k - length (calls_of r)); [|done]. injection Hv as <- <-. by apply H6 in He.
  - intros c token. rewrite elem_of_app, list_elem_of_singleton. intros [He|?]; [|done].
    apply H6 in He. set_solver.
Qed.

(** A delta of an open call. *)
Lemma spoken_delta r seen evs event s hs b e name arguments g :
  spoken r seen evs s hs → NoDup r.*1 → tools s !! b = Some e →
  (∀ b token, event ≠ ToolCallFinished b token) →
  calls_of (amend b g r) = (λ p, if p.1 == b then (p.1,
    (p.2.1.1, match name with Some d => p.2.1.2 +:+ d | None => p.2.1.2 end, p.2.2 +:+ arguments)) else p)
    <$> calls_of r →
  spoken (amend b g r) seen (evs ++ [event]) (returned (tool_delta b name arguments s)).1
    (hs ++ heard_of (returned (tool_delta b name arguments s)).2).
Proof.
  intros [H1 H2 H3 H4 H5 H6] Hnd He Hev Hr. destruct (H2 _ _ He) as [Hk Ha].
  unfold tool_delta. rewrite He. cbn [returned fst snd heard_of].
  set (ev := inr (ToolCallDeltaEvent _ _ _ _)).
  assert (∀ k, said_of k (hs ++ [ev]) = said_of k hs ++
    if tool_index e == k then [(if bool_decide (said_of k hs = []) then Some (tool_call e) else None, name, arguments)]
    else []) as Hso.
  { intros k. rewrite said_of_app. f_equal. unfold said_of, filter_map. cbn.
    destruct (tool_index e == k) eqn:Hek; [|done]. apply bool_decide_eq_true in Hek as <-.
    rewrite Ha. by destruct (bool_decide _). }
  assert (∀ k, tool_index e ≠ k → said_of k (hs ++ [ev]) = said_of k hs) as Hother.
  { intros k Hne. rewrite Hso, (bool_decide_eq_false_2 (tool_index e = k)) by done. apply app_nil_r. }
  assert (∀ k l, said_of k hs ≠ [] ∨ tool_index e = k → l = said_of k (hs ++ [ev]) → l ≠ []) as Hsome.
  { intros k l Hne ->. rewrite Hso. destruct Hne as [Hne|<-]; [by destruct (said_of k hs)|].
    rewrite (bool_decide_eq_true_2 (tool_index e = tool_index e)) by done.
    by destruct (said_of (tool_index e) hs). }
  assert (∀ k c v, calls_of r !! k = Some (c, v) → tool_index e = k ↔ c = b) as Hsame.
  { intros k c v Hkc. split; [intros <-; by simplify_eq|]. intros ->.
    by destruct (same_call _ _ _ _ _ _ Hnd Hk Hkc). }
  split; rewrite ?Hr; cbn [tools set_tools next_tool_index].
  - by rewrite length_fmap.
  - intros c e' [[<- <-]|[Hc He']]%lookup_insert_Some; cbn.
    + rewrite list_lookup_fmap, Hk. cbn. rewrite !bool_decide_eq_true_2 by done. split; [done|].
      symmetry. apply negb_true_iff, bool_decide_eq_false. eapply Hsome; [by right|done].
    + apply H2 in He' as [He' Ha']. rewrite list_lookup_fmap, He'. cbn.
      rewrite bool_decide_eq_false_2 by done. split; [done|].
      rewrite Hother; [done|]. by intros ?%(Hsame _ _ _ He').
  - intros k c v. rewrite list_lookup_fmap. destruct (calls_of r !! k) as [[c0 v0]|] eqn:Hkc; [|done].
    cbn. pose proof (H3 _ _ _ Hkc) as Hsp. destruct (decide (c0 = b)) as [->|Hcb].
    + rewrite bool_decide_eq_true_2 by done. intros [= <- <-]. rewrite Hso.
      rewrite (bool_decide_eq_true_2 (tool_index e = k)) by by apply (Hsame _ _ _ Hkc).
      assert (k = tool_index e) as -> by (symmetry; by apply (Hsame _ _ _ Hkc)).
      rewrite Hk in Hkc. injection Hkc as <-. by apply spells_more.
    + rewrite bool_decide_eq_false_2 by done. intros [= <- <-].
      rewrite Hother; [done|]. by intros ?%(Hsame _ _ _ Hkc).
  - intros k. rewrite length_fmap. intros Hkl. rewrite Hother; [by apply H4|].
    intros <-. apply lookup_lt_Some in Hk. lia.
  - intros c token k v. rewrite elem_of_app, list_elem_of_singleton.
    intros [Hin|Hin]; [|by destruct (Hev c token)]. rewrite list_lookup_fmap.
    destruct (calls_of r !! k) as [[c0 v0]|] eqn:Hkc; [|done]. intros Hv.
    assert (c0 = c) as -> by (cbn in Hv; destruct (c0 == b); by injection Hv).
    eapply Hsome; [left; by eapply H5|done].
  - intros c token. rewrite elem_of_app, list_elem_of_singleton.
    intros [Hin|Hin]; [by eapply H6|by destruct (Hev c token)].
Qed.

(** A call is finished: it is announced now, unless it was before. *)
Lemma spoken_finish r seen evs s hs b token e :
  spoken r seen evs s hs → NoDup r.*1 → (∀ c, c ∈ r.*1 → c ∈ seen) → tools s !! b = Some e →
  spoken r seen (evs ++ [ToolCallFinished b token]) (on_event (ToolCallFinished b token) s).1
    (hs ++ heard_of (on_event (ToolCallFinished b token) s).2).
Proof.
  intros [H1 H2 H3 H4 H5 H6] Hnd Hin He. destruct (H2 _ _ He) as [Hk Ha].
  cbn [on_event]. rewrite He. cbn [fst snd].
  set (o := if announced e then None else _).
  assert (∀ k, said_of k (hs ++ heard_of o) =
    if (tool_index e == k) && bool_decide (said_of k hs = [])
    then [(Some (tool_call e), None, "")] else said_of k hs) as Hso.
  { intros k. rewrite said_of_app. unfold o. destruct (tool_index e == k) eqn:Hek.
    - apply bool_decide_eq_true in Hek as <-. rewrite Ha. case_bool_decide as Hs; cbn.
      + rewrite Hs. unfold said_of, filter_map. cbn. by rewrite bool_decide_eq_true_2.
      + apply app_nil_r.
    - cbn. destruct (announced e); cbn; [by rewrite app_nil_r|]. unfold said_of at 2, filter_map. cbn.
      rewrite Hek. apply app_nil_r. }
  split; cbn [tools push set_captured set_tools next_tool_index]; try done.
  - intros c e' [Hc He']%lookup_delete_Some. apply H2 in He' as [He' Ha']. split; [done|].
    rewrite Hso, (bool_decide_eq_false_2 (tool_index e = tool_index e')); [done|].
    intros Heq. rewrite <- Heq in He'. congruence.
  - intros k c v Hkc. rewrite Hso. pose proof (H3 _ _ _ Hkc) as Hsp.
    destruct (tool_index e == k) eqn:Hek; [|done]. apply bool_decide_eq_true in Hek as <-.
    rewrite Hk in Hkc. injection Hkc as <- <-. case_bool_decide as Hs; [|done]. cbn. rewrite Hs in Hsp.
    destruct Hsp as (_ & Hn & Harg). cbn in Hn, Harg. split; [|by rewrite <- Hn, <- Harg].
    intros [|j] d Hj; by simplify_eq/=.
  - intros k Hkl. rewrite Hso, H4, (bool_decide_eq_false_2 (tool_index e = k)); [done| |done].
    intros <-. apply lookup_lt_Some in Hk. lia.
  - intros c token' k v. rewrite elem_of_app, list_elem_of_singleton, Hso. intros Hf Hkc.
    destruct (bool_decide (said_of k hs = [])) eqn:Hs;
      [|rewrite andb_false_r; by apply bool_decide_eq_false in Hs].
    apply bool_decide_eq_true in Hs. rewrite andb_true_r.
    destruct Hf as [Hf|[= -> ->]]; [by destruct (H5 _ _ _ _ Hf Hkc)|].
    destruct (same_call _ _ _ _ _ _ Hnd Hk Hkc) as [-> _]. by rewrite bool_decide_eq_true_2.
  - intros c token'. rewrite elem_of_app, list_elem_of_singleton. intros [Hf|[= -> ->]]; [by eapply H6|].
    apply Hin. apply list_elem_of_lookup_2 in Hk. apply list_elem_of_omap in Hk as ([b' q] & Hq & Hc).
    unfold call_of in Hc. cbn in Hc. destruct (piece_content q); simplify_eq.
    by apply (list_elem_of_fmap_2 fst) in Hq.
Qed.

Lemma event_spoken r seen evs s hs event events :
  holds r seen s → spoken r seen evs s hs →
  orderly seen (dom (text s)) (dom (tools s)) (event :: events) →
  spoken (response_step r event) (seen_after event seen) (evs ++ [event]) (on_event event s).1
    (hs ++ heard_of (on_event event s).2).
Proof.
  intros [Hn Hs _] Hsp Ho.
  destruct event; cbn [orderly seen_after response_step] in *;
    try (by apply (spoken_same r _ seen _ _ _ s); [..|intros k|]).
  - apply (spoken_same r _ seen _ _ _ s); try done; cbn; by destruct (retain_response_id s).
  - apply (spoken_same r _ seen _ _ _ s); try done; [|set_solver].
    rewrite calls_of_app. apply app_nil_r.
  - destruct Ho as [[e He]%dom_some _]. cbn [on_event]. rewrite He.
    apply (spoken_same r _ seen _ _ _ s); try done. apply calls_amend_text.
  - destruct Ho as [[e He]%dom_some _]. cbn [on_event]. rewrite He.
    by apply (spoken_same r _ seen _ _ _ s); try done; cbn; destruct (str_is_empty (text_text e)).
  - apply (spoken_same r _ seen _ _ _ s); try done; cbn; destruct (reasoning s !! block_id) as [e|]; try done.
    cbn. by destruct (visible (reasoning_kind e)).
  - apply (spoken_same r _ seen _ _ _ s); try done; cbn; destruct (reasoning s !! block_id) as [e|]; try done;
      by destruct (_ || _).
  - destruct Ho as [Hb _]. by apply spoken_open.
  - destruct Ho as [[e He]%dom_some _]. cbn [on_event]. apply (spoken_delta _ _ _ _ _ _ _ e); try done.
    rewrite (calls_amend _ _ (λ v, (v.1.1, v.1.2 +:+ delta, v.2))); [|done|by intros []].
    apply list_fmap_ext. intros _ [c [[i n] a]] _. cbn. by rewrite str_app_nil_r.
  - destruct Ho as [[e He]%dom_some _]. cbn [on_event]. apply (spoken_delta _ _ _ _ _ _ _ e); try done.
    by rewrite (calls_amend _ _ (λ v, (v.1.1, v.1.2, v.2 +:+ delta))); [|done|by intros []].
  - destruct Ho as [[e He]%dom_some _]. by apply (spoken_finish _ _ _ _ _ _ _ e).
Qed.

Lemma said_spoken r seen evs s hs events :
  holds r seen s → spoken r seen evs s hs → orderly seen (dom (text s)) (dom (tools s)) events →
  ∃ seen' s', spoken (foldl response_step r events) seen' (evs ++ events) s' (hs ++ (said events s).1).
Proof.
  revert r seen evs s hs. induction events as [|event events IH]; intros r seen evs s hs HI Hsp Ho.
  { exists seen, s. by rewrite !app_nil_r. }
  pose proof (event_spoken _ _ _ _ _ _ _ HI Hsp Ho) as Hsp'.
  destruct (event_holds _ _ _ _ _ HI Ho) as [HI' Ho']. cbn [said foldl].
  destruct (on_event event s) as [s1 o]. cbn [fst snd] in *.
  destruct (IH _ _ _ _ _ HI' Hsp' Ho') as (seen' & s' & H). exists seen', s'.
  destruct (said events s1) as [rs s2]. cbn [fst] in *. rewrite <- !app_assoc in H. by destruct o.
Qed.

Lemma spoken_new c retain : spoken [] ∅ [] (stream_new c retain) [].
Proof. split; try done; intros b ? ; by rewrite ?lookup_empty; intros ?%not_elem_of_nil. Qed.

(** ** The theorem *)

Definition heard_text (r : ModelError + ModelEvent) : option string :=
  match r with inr (TextDelta delta) => Some delta | _ => None end.
Definition sent_text (event : SdkEvent) : option string :=
  match event with SdkTextDelta _ delta => Some delta | _ => None end.

Lemma event_text event s : (on_event event s).2 ≫= heard_text = sent_text event.
Proof.
  destruct event; cbn; try done.
  - destruct (reasoning s !! block_id) as [e|]; [|done]. cbn. by destruct (visible (reasoning_kind e)).
  - unfold tool_delta. by destruct (tools s !! block_id).
  - unfold tool_delta. by destruct (tools s !! block_id).
  - destruct (tools s !! block_id) as [e|]; [|done]. cbn. by destruct (announced e).
Qed.

Lemma said_text events s : filter_map heard_text (said events s).1 = filter_map sent_text events.
Proof.
  unfold filter_map. revert s. induction events as [|event events IH]; intros s; [done|].
  cbn [said]. pose proof (event_text event s) as He. destruct (on_event event s) as [s' o]. cbn in He.
  specialize (IH s'). destruct (said events s') as [rs s2]. cbn [fst] in *. cbn. rewrite <- IH, <- He.
  by destruct o.
Qed.

Lemma orderly_not_finished seen texts calls l1 event l2 :
  orderly seen texts calls (l1 ++ event :: l2) → event ≠ ResponseFinished.
Proof.
  revert seen texts calls. induction l1 as [|e l1 IH]; intros seen texts calls; cbn [app].
  - by intros Ho ->.
  - destruct e; cbn [orderly]; naive_solver.
Qed.

Lemma orderly_prefix seen texts calls l1 l2 :
  orderly seen texts calls (l1 ++ l2) → orderly seen texts calls l1.
Proof.
  revert seen texts calls. induction l1 as [|e l1 IH]; intros seen texts calls; cbn [app]; [done|].
  destruct e; cbn [orderly]; naive_solver.
Qed.

Lemma stream_new_holds c retain : holds [] ∅ (stream_new c retain).
Proof. split; [constructor|by intros b ?%not_elem_of_nil|]. by exists []. Qed.

(** C18: A model call that keeps its protocol is delivered as it is. Every block
    opened once, at its own position, and extended while open: whatever order the
    maps are drained in, the stream says each text delta once and in order; of the
    call opened as the [k]-th it says, under the index [k], deltas that spell its
    identifier (once, with the first of them), its name and its arguments, at least
    one if the call is finished, and none under any other index. Then comes one last
    word - the failure of the commit, or a completion with exactly the texts and calls
    the deltas spell, in the order of their positions, empty texts left out; nothing
    follows, whatever else the client would deliver. The committed items have the same
    blocks. *)
Theorem stream_completes_with_the_response clock target request events rest retain w fuel
    (Ho : orderly ∅ ∅ ∅ events) (Hn : NoDup (piece_index <$> (response_of events).*2))
    (Hf : length events < fuel) :
  ∃ heard response_id items,
    run_stream fuel clock target request
      (stream_new ((inr <$> events) ++ inr ResponseFinished :: rest) retain) w =
    (inr <$> heard) ++
      match (commit clock target request response_id items w).2 with
      | Ok _ => [inr (Completed (blocks_of (response_of events)))]
      | Err e => [inl e]
      | Panic => []
      end ∧
    filter_map heard_text (inr <$> heard) = filter_map sent_text events ∧
    (∀ k, match calls_of (response_of events) !! k with
          | Some (block_id, called) =>
              spells called (said_of k (inr <$> heard)) ∧
              ∀ token, ToolCallFinished block_id token ∈ events → said_of k (inr <$> heard) ≠ []
          | None => said_of k (inr <$> heard) = []
          end) ∧
    assistant_blocks_from_captured items = blocks_of (response_of events).
Proof.
  set (s := stream_new _ retain).
  assert (holds [] ∅ s) as HI by apply stream_new_holds.
  assert (dom (text s) = ∅ ∧ dom (tools s) = ∅) as [Hdt Hdk] by (split; apply dom_empty_L).
  assert (orderly ∅ (dom (text s)) (dom (tools s)) events) as Ho' by (by rewrite Hdt, Hdk).
  destruct (said_holds _ _ _ _ HI Ho' eq_refl) as ((seen & Hh) & Hd & Hall).
  assert (∃ heard, (said events s).1 = inr <$> heard) as [heard Hheard].
  { clear -Hall. induction Hall as [|r rs [e ->] _ [heard ->]]; [by exists []|]. by exists (e :: heard). }
  rewrite (run_said fuel clock target request events rest); [|done|done| |done].
  2: { intros l1 event l2 Heq. split.
       - rewrite Heq in Ho. by eapply orderly_not_finished.
       - assert (orderly ∅ (dom (text s)) (dom (tools s)) (l1 ++ [event])) as Hp.
         { apply (orderly_prefix _ _ _ _ l2). rewrite <- app_assoc. cbn [app]. by rewrite <- Heq. }
         by destruct (said_holds _ _ _ _ HI Hp eq_refl) as (_ & ? & _). }
  set (s2 := set_call rest (said events s).2).
  assert (holds (response_of events) seen s2) as Hh2 by (by apply (holds_same _ _ _ _ Hh)).
  exists heard, (stream_response_id s2), (sort_items (captured (flush_remaining_items (set_done s2)))).
  destruct (said_spoken _ _ _ _ _ _ HI (spoken_new _ retain) Ho') as (seen' & s' & [_ _ Hsp Hnone Hfin _]).
  cbn [app] in Hsp, Hnone, Hfin. rewrite Hheard in *. split; [|split; [|split]].
  - f_equal. unfold finish.
    assert (holds (response_of events) seen (set_done s2)) as Hh3 by (by apply (holds_same _ _ _ _ Hh2)).
    pose proof (flushed_blocks _ _ _ Hh3 Hn) as Hb.
    change (stream_response_id (flush_remaining_items (set_done s2))) with (stream_response_id s2).
    rewrite Hb. by destruct (commit _ _ _ _ _ _) as [w' [[]|e|]].
  - rewrite <- Hheard. apply said_text.
  - intros k. destruct (calls_of (response_of events) !! k) as [[b v]|] eqn:Hk.
    + split; [by eapply Hsp|]. intros token Ht. by eapply Hfin.
    + by apply Hnone, lookup_ge_None.
  - apply (flushed_blocks _ seen); [by apply (holds_same _ _ _ _ Hh2)|done].
Qed.
End proofs.
End stream_proofs.
