(* ===== verification/ModelAdapter.v ===== *)
(** The model adapter itself: its assembly, its request headers and the start of
    a call (src/crates/philo-model/src/headers.rs, assemble.rs, adapter.rs).

    Modules [headers], [assemble] and [adapter]. The crates [http] and [url] and
    the provider's client are parameters: [HttpHeaders], [SdkAssembly] has the
    client's builders, [SdkClient] the calls on an assembled client, with the
    state it keeps. [start] is one run of the future. *)

From S2P Require Import Prelude RustStr Session Runtime JsonlCodec ReplayStore Replay ModelErrors ModelRequest ModelStream.
Import runtime jsonl_codec replay_store replay model_errors model_request model_stream.

(** ** headers.rs *)
Module headers.

Class HttpHeaders : Type := {
  HeaderName : Type;
  header_name_eq :: EqDecision HeaderName;
  header_name_new : string → option HeaderName;
  header_name_str : HeaderName → string;
  HeaderValue : Type;
  header_value_new : string → option HeaderValue;
  USER_AGENT : HeaderName;
  OtherOperation : Type;
  other_operation_name : OtherOperation → HeaderName;
  ProviderHeaders : Type;
  provider_headers_empty : ProviderHeaders;
  PKG_VERSION : string
}.

Section headers.
Context {http : HttpHeaders}.

Inductive HeaderOperation : Type :=
| OpSet (name : HeaderName) (value : HeaderValue)
| OpOther (op : OtherOperation).
Definition operation_name (op : HeaderOperation) : HeaderName :=
  match op with OpSet name _ => name | OpOther op => other_operation_name op end.

Class ProviderPatch : Type := {
  operations : ProviderHeaders → list HeaderOperation;
  try_from_patch : list HeaderOperation → option ProviderHeaders
}.
Context {patch : ProviderPatch}.

Definition DEFAULT_USER_AGENT : string := "philo-agent/" +:+ PKG_VERSION.

Record ModelRequestHeaders : Type := {
  provider_headers : ProviderHeaders;
  header_names : list HeaderName
}.
Definition request_headers_new : ModelRequestHeaders :=
  {| provider_headers := provider_headers_empty; header_names := [] |}.

Inductive HeaderErrorKind : Type := InvalidName | InvalidValue | EmptyValue | Reserved | Sensitive.
Record ModelRequestHeaderError : Type := {
  failed_name : option HeaderName;
  header_error : HeaderErrorKind
}.
Definition invalid_name : ModelRequestHeaderError :=
  {| failed_name := None; header_error := InvalidName |}.
Definition header_failure (kind : HeaderErrorKind) (name : HeaderName) : ModelRequestHeaderError :=
  {| failed_name := Some name; header_error := kind |}.

Definition display_header_error (e : ModelRequestHeaderError) : string :=
  match failed_name e with
  | None => "request header name is invalid"
  | Some name =>
      let name := header_name_str name in
      match header_error e with
      | InvalidName => "request header name is invalid"
      | InvalidValue => "request header '" +:+ name +:+ "' has an invalid value"
      | EmptyValue => "request header '" +:+ name +:+ "' must not be empty"
      | Reserved => "request header '" +:+ name +:+ "' is managed by the SDK"
      | Sensitive =>
          "request header '" +:+ name
          +:+ "' may carry credentials and must not be configured as a literal header"
      end
  end.

Definition reserved_names : list string :=
  ["content-type"; "accept"; "anthropic-version"; "accept-encoding"].
Definition sensitive_names : list string :=
  ["authorization"; "proxy-authorization"; "cookie"; "set-cookie"; "api-key"; "x-api-key";
   "apikey"; "key"; "token"; "secret"; "password"].

Definition validate_name (name : HeaderName) : outcome ModelRequestHeaderError unit :=
  if any (λ n, header_name_str name == n) reserved_names then Err (header_failure Reserved name)
  else if any (λ n, header_name_str name == n) sensitive_names then Err (header_failure Sensitive name)
  else Ok tt.

Definition set_header (self : ModelRequestHeaders) (name value : string)
    : outcome ModelRequestHeaderError ModelRequestHeaders :=
  match header_name_new name with
  | None => Err invalid_name
  | Some name =>
      let? _ := validate_name name in
      if str_is_empty (trim value) then Err (header_failure EmptyValue name)
      else
        match header_value_new value with
        | None => Err (header_failure InvalidValue name)
        | Some value =>
            let ops :=
              List.filter (λ op, operation_name op != name) (operations (provider_headers self))
              ++ [OpSet name value] in
            match try_from_patch ops with
            | None => Err (header_failure Reserved name)
            | Some headers =>
                Ok {| provider_headers := headers;
                      header_names := List.filter (λ n, n != name) (header_names self) ++ [name] |}
            end
        end
  end.

Definition try_from_iter (headers : list (string * string))
    : outcome ModelRequestHeaderError ModelRequestHeaders :=
  try_fold (λ self h, set_header self h.1 h.2) request_headers_new headers.

Definition names (self : ModelRequestHeaders) : list string := header_name_str <$> header_names self.

(** The static value is one the client accepts, or it panics. *)
Definition default_provider_headers {E} : outcome E ProviderHeaders :=
  match header_value_new DEFAULT_USER_AGENT with
  | None => Panic
  | Some value => expect (try_from_patch [OpSet USER_AGENT value])
  end.
End headers.
End headers.
Import headers.

(** ** assemble.rs *)
Module assemble.

Inductive ModelContinuationPolicy : Type :=
| StatelessLocalReplay | PreferPreviousResponseIdWithLocalFallback.
Inductive ModelProtocol : Type := OpenAiChat | OpenAiResponses.
Inductive ModelCompat : Type := Official | Compatible.
Inductive ChatReasoningFormat : Type := FormatNone | EffortOnly | ContentOnly | EffortAndContent.
#[export] Instance continuation_policy_eq : EqDecision ModelContinuationPolicy.
Proof. solve_decision. Defined.
#[export] Instance model_protocol_eq : EqDecision ModelProtocol.
Proof. solve_decision. Defined.
#[export] Instance model_compat_eq : EqDecision ModelCompat.
Proof. solve_decision. Defined.

Definition protocol_str (self : ModelProtocol) : string :=
  match self with OpenAiChat => "openai-chat" | OpenAiResponses => "openai-responses" end.
Definition compat_str (self : ModelCompat) : string :=
  match self with Official => "official" | Compatible => "compatible" end.
Definition format_str (self : ChatReasoningFormat) : string :=
  match self with
  | FormatNone => "none"
  | EffortOnly => "effort-only"
  | ContentOnly => "content-only"
  | EffortAndContent => "effort-and-content"
  end.

Definition effective_chat_reasoning_format (format : option ChatReasoningFormat)
    : ChatReasoningFormat :=
  match format with Some format => format | None => EffortAndContent end.

Definition supports_reasoning_effort (self : ModelProtocol) (compat : ModelCompat)
    (chat_reasoning_format : option ChatReasoningFormat) (effort : ReasoningEffort) : bool :=
  match self with
  | OpenAiChat =>
      match effective_chat_reasoning_format chat_reasoning_format with
      | EffortOnly | EffortAndContent => true
      | _ => false
      end
  | OpenAiResponses => match compat with Official => true | Compatible => false end
  end.

(** [Debug] of a credential: the literal form never renders its value. *)
Inductive Credential : Type := Environment (name : string) | Static (secret : string).
Definition debug_credential {debug : DebugStr} (c : Credential) : string :=
  match c with
  | Environment name => "Environment(" +:+ debug_str name +:+ ")"
  | Static _ => "Static(<redacted>)"
  end.

Inductive Capability : Type :=
| AssistantHistoryReasoning | OutputReasoning | ReasoningControl | NativeToolResultErrorStatus
| OtherCapability.
#[export] Instance capability_eq : EqDecision Capability.
Proof. solve_decision. Defined.

(** The client's builders; a [string] on the left is the display of an error. *)
Class SdkAssembly {http : HttpHeaders} : Type := {
  ProviderId : Type;
  provider_id_new : string → string + ProviderId;
  ModelName : Type;
  model_name_new : string → string + ModelName;
  Url : Type;
  url_parse : string → string + Url;
  host_str : Url → option string;
  ProtocolId : Type;
  OPENAI_COMPLETIONS_V3 : string;
  OPENAI_RESPONSES_V2 : string;
  protocol_id_new : string → option ProtocolId;
  call_target_new : ProviderId → ProtocolId → ModelName → CallTarget;
  Envelope : Type;
  Knowledge : Type;
  knowledge_complete : Knowledge;
  FormatSpec : Type;
  spec_openai_official : FormatSpec;
  spec_fallback : FormatSpec;
  FormatSpecRef : Type;
  ref_openai_official : FormatSpecRef;
  ResponsesCompat : Type;
  compat_default : ResponsesCompat;
  compat_compatible : ResponsesCompat;
  with_continuation : bool → ResponsesCompat → ResponsesCompat;
  with_prompt_cache_key : ResponsesCompat → ResponsesCompat;
  with_openai_affinity : ResponsesCompat → ResponsesCompat;
  ProtocolAdapter : Type;
  chat_adapter : FormatSpec → ProtocolAdapter;
  responses_adapter : ResponsesCompat → ProtocolAdapter;
  adapter_envelope : ProtocolAdapter → Envelope;
  ModelComposition : Type;
  baseline : ModelComposition;
  disabled : list Capability → ModelComposition → string + ModelComposition;
  with_knowledge : Knowledge → ModelComposition → ModelComposition;
  composition_envelope : ModelComposition → Envelope;
  composition_knowledge : ModelComposition → Knowledge;
  ProviderBinding : Type;
  binding_new : ProtocolId → Url → string + ProviderBinding;
  with_format : FormatSpecRef → ProviderBinding → ProviderBinding;
  with_headers : ProviderHeaders → ProviderBinding → ProviderBinding;
  CapabilitySource : Type;
  capability_source_new : string → option CapabilitySource;
  ModelProfile : Type;
  profile_new : ProtocolId → ModelName → Envelope → Knowledge → CapabilitySource → ModelProfile;
  with_composition : ModelComposition → ModelProfile → ModelProfile;
  EnvVarName : Type;
  env_var_new : string → string + EnvVarName;
  CredentialSpec : Type;
  credential_environment : EnvVarName → CredentialSpec;
  credential_static : string → CredentialSpec;
  ProviderProfile : Type;
  provider_profile_new : ProviderId → ProviderProfile;
  with_default_headers : ProviderHeaders → ProviderProfile → ProviderProfile;
  add_binding : ProviderBinding → ProviderProfile → string + ProviderProfile;
  add_model : ModelProfile → ProviderProfile → string + ProviderProfile;
  with_credentials : CredentialSpec → ProviderProfile → ProviderProfile;
  Transport : Type;
  reqwest_transport : string + Transport;
  RetryPolicy : Type;
  TimeoutPolicy : Type;
  Client : Type;
  ClientBuilder : Type;
  client_builder : Transport → ClientBuilder;
  register_protocol : ProtocolAdapter → ClientBuilder → ClientBuilder;
  register_provider : ProviderProfile → ClientBuilder → ClientBuilder;
  set_retry_policy : RetryPolicy → ClientBuilder → ClientBuilder;
  set_timeout_policy : TimeoutPolicy → ClientBuilder → ClientBuilder;
  build_client : ClientBuilder → string + Client
}.

Section assemble.
Context {sdk : Sdk} {sdk_request : SdkRequest} {http : HttpHeaders} {patch : ProviderPatch}
        {assembly : SdkAssembly}.
Context {S : Type}.

Record PhiloModelBuilder : Type := {
  builder_provider : string;
  builder_protocol : ModelProtocol;
  builder_model : string;
  endpoint : string;
  credential : option Credential;
  request_headers : ModelRequestHeaders;
  replay_store : option S;
  compat : ModelCompat;
  chat_reasoning_format : option ChatReasoningFormat;
  continuation_policy : ModelContinuationPolicy;
  cache_policy : ModelCachePolicy;
  retry_policy : option RetryPolicy;
  timeouts : option TimeoutPolicy
}.

Definition builder_new (provider : string) (protocol : ModelProtocol) (model endpoint : string)
    : PhiloModelBuilder :=
  {| builder_provider := provider; builder_protocol := protocol; builder_model := model;
     endpoint := endpoint; credential := None; request_headers := request_headers_new;
     replay_store := None; compat := Compatible; chat_reasoning_format := None;
     continuation_policy := StatelessLocalReplay; cache_policy := cache_policy_default;
     retry_policy := None; timeouts := None |}.

(** [AdapterBuildError] is its message. *)
Definition build {A} (what : string) (r : string + A) : outcome string A :=
  match r with inr a => Ok a | inl error => Err (what +:+ ": " +:+ error) end.

Definition protocol_id {E} (self : ModelProtocol) : outcome E ProtocolId :=
  expect (protocol_id_new
    (match self with
     | OpenAiChat => OPENAI_COMPLETIONS_V3
     | OpenAiResponses => OPENAI_RESPONSES_V2
     end)).

Definition chat_composition (format : option ChatReasoningFormat) : outcome string ModelComposition :=
  let? composed :=
    match effective_chat_reasoning_format format with
    | EffortAndContent => Ok baseline
    | EffortOnly =>
        build "chat composition invalid"
          (disabled [AssistantHistoryReasoning; OutputReasoning] baseline)
    | ContentOnly => build "chat composition invalid" (disabled [ReasoningControl] baseline)
    | FormatNone =>
        build "chat composition invalid"
          (disabled [ReasoningControl; AssistantHistoryReasoning; OutputReasoning] baseline)
    end in
  Ok (with_knowledge knowledge_complete composed).

Definition responses_compat (compat : ModelCompat) (prefers_continuation : bool)
    (retention : CacheRetention) : ResponsesCompat :=
  let opt_in base :=
    if retention == RetentionNone then base
    else with_openai_affinity (with_prompt_cache_key base) in
  match compat, prefers_continuation with
  | Official, _ => compat_default
  | Compatible, false => opt_in compat_compatible
  | Compatible, true => opt_in (with_continuation true compat_compatible)
  end.

(** The combinations that are refused, in order. *)
Definition check_policy (self : PhiloModelBuilder) (host : option string) : outcome string unit :=
  let prefers := continuation_policy self == PreferPreviousResponseIdWithLocalFallback in
  if prefers && (builder_protocol self != OpenAiResponses) then
    Err "previous_response_id continuation requires the OpenAI Responses protocol"
  else if session.is_some (chat_reasoning_format self) && (builder_protocol self != OpenAiChat) then
    Err "reasoning_format is only valid for the OpenAI Chat protocol"
  else if prefers && (compat self == Official) && (host != Some "api.openai.com") then
    Err "official OpenAI continuation support requires the api.openai.com endpoint host"
  else Ok tt.

(** The protocol adapter, with the composition and the format of a chat. *)
Definition select_protocol (self : PhiloModelBuilder)
    : outcome string (ProtocolAdapter * option ModelComposition * option FormatSpecRef) :=
  match builder_protocol self with
  | OpenAiChat =>
      let adapter := chat_adapter
        (match compat self with Official => spec_openai_official | Compatible => spec_fallback end) in
      let? composition := chat_composition (chat_reasoning_format self) in
      Ok (adapter, Some composition,
          match compat self with Official => Some ref_openai_official | Compatible => None end)
  | OpenAiResponses =>
      Ok (responses_adapter
            (responses_compat (compat self)
               (continuation_policy self == PreferPreviousResponseIdWithLocalFallback)
               (retention (cache_policy self))), None, None)
  end.

Definition attach_credential (credential : option Credential) (provider : ProviderProfile)
    : outcome string ProviderProfile :=
  match credential with
  | Some (Environment variable) =>
      let? name := build "invalid credential variable name" (env_var_new variable) in
      Ok (with_credentials (credential_environment name) provider)
  | Some (Static secret) => Ok (with_credentials (credential_static secret) provider)
  | None => Ok provider
  end.

(** [build_with_transport], up to the client and the target. *)
Definition build_with_transport (transport : Transport) (self : PhiloModelBuilder)
    : outcome string (Client * CallTarget) :=
  let? provider_id := build "invalid provider id" (provider_id_new (builder_provider self)) in
  let? model_name := build "invalid model name" (model_name_new (builder_model self)) in
  let? url := build "invalid endpoint url" (url_parse (endpoint self)) in
  let? protocol_id := protocol_id (builder_protocol self) in
  let? _ := check_policy self (host_str url) in
  let? selected := select_protocol self in
  let '(adapter, composition, format) := selected in
  let builder := register_protocol adapter (client_builder transport) in
  let '(envelope, knowledge) :=
    match composition with
    | Some composition => (composition_envelope composition, composition_knowledge composition)
    | None => (adapter_envelope adapter, knowledge_complete)
    end in
  let? binding := build "provider binding invalid" (binding_new protocol_id url) in
  let binding := match format with Some format => with_format format binding | None => binding end in
  let binding := with_headers (provider_headers (request_headers self)) binding in
  let? source := expect (capability_source_new "philo-model assembly") in
  let profile := profile_new protocol_id model_name envelope knowledge source in
  let profile := match composition with
                 | Some composition => with_composition composition profile
                 | None => profile
                 end in
  let? defaults := default_provider_headers in
  let? provider := build "provider binding rejected"
    (add_binding binding (with_default_headers defaults (provider_profile_new provider_id))) in
  let? provider := build "model profile rejected" (add_model profile provider) in
  let? provider := attach_credential (credential self) provider in
  let builder := register_provider provider builder in
  let builder := match retry_policy self with
                 | Some retry => set_retry_policy retry builder
                 | None => builder
                 end in
  let builder := match timeouts self with
                 | Some timeouts => set_timeout_policy timeouts builder
                 | None => builder
                 end in
  let? client := build "client assembly failed" (build_client builder) in
  Ok (client, call_target_new provider_id protocol_id model_name).

Definition build_default (self : PhiloModelBuilder) : outcome string (Client * CallTarget) :=
  let? transport := build "transport assembly failed" reqwest_transport in
  build_with_transport transport self.
End assemble.
End assemble.
Import assemble.

(** ** adapter.rs *)
Module adapter.

Section adapter.
Context {sdk : Sdk} {sdk_request : SdkRequest} {defaults : RequestDefaults} {sha : Sha256}
        {json : GenerationJson} {debug : DebugStr}.
Context {S : Type} {store : ModelReplayStore S}.

(** [capabilities] touches no network; a call may change what the client keeps. *)
Class SdkClient (C : Type) : Type := {
  capabilities : C → CallTarget → PhiloError + list Capability;
  client_call : CallTarget → ModelRequest → C → C * (PhiloError + list (PhiloError + SdkEvent))
}.
Context {C : Type} {client_ops : SdkClient C}.

Record PhiloModelAdapter : Type := {
  client : C;
  target : CallTarget;
  coordinator : ReplayCoordinator S;
  adapter_continuation : ModelContinuationPolicy;
  adapter_cache : ModelCachePolicy
}.

Definition with_configuration (client : C) (target : CallTarget) (replay_store : S)
    (continuation : ModelContinuationPolicy) (cache : ModelCachePolicy) : PhiloModelAdapter :=
  {| client := client; target := target; coordinator := coordinator_new replay_store;
     adapter_continuation := continuation; adapter_cache := cache |}.
Definition with_replay_store (client : C) (target : CallTarget) (replay_store : S)
    : PhiloModelAdapter :=
  with_configuration client target replay_store StatelessLocalReplay cache_policy_default.

Definition on_coordinator {E A} (m : io (ReplayCoordinator S) E A) : io PhiloModelAdapter E A := λ a,
  let '(w, r) := m (coordinator a) in
  ({| client := client a; target := target a; coordinator := w;
      adapter_continuation := adapter_continuation a; adapter_cache := adapter_cache a |}, r).

(** One call of the client. *)
Definition call_client (request : ModelRequest)
    : io PhiloModelAdapter PhiloError (list (PhiloError + SdkEvent)) := λ a,
  let '(c, r) := client_call (target a) request (client a) in
  ({| client := c; target := target a; coordinator := coordinator a;
      adapter_continuation := adapter_continuation a; adapter_cache := adapter_cache a |},
   match r with inr call => Ok call | inl error => Err error end).

Definition set_continuation (v : option ResponseContinuation) (r : ModelRequest) : ModelRequest :=
  {| req_max_output_tokens := req_max_output_tokens r; req_temperature := req_temperature r;
     req_reasoning := req_reasoning r; req_instructions := req_instructions r;
     req_messages := req_messages r; req_continuation := v; req_tools := req_tools r;
     req_tool_choice := req_tool_choice r; req_parallel_tool_calls := req_parallel_tool_calls r;
     req_cache_session := req_cache_session r; req_cache_retention := req_cache_retention r;
     req_cache := req_cache r |}.

(** The answer to the first call: the call, or one more without the stored
    response. *)
Definition after_first (session_id : string) (server_continuation continuing : bool)
    (replayed : ReplayHistory) (mapped : ModelRequest)
    (first : outcome PhiloError (list (PhiloError + SdkEvent)))
    : io PhiloModelAdapter ModelError (list (PhiloError + SdkEvent) * bool) :=
  match first with
  | Ok call => ret (call, server_continuation)
  | Err error =>
      if continuing && (continuation_failure error == Some PreviousResponseUnavailable) then
        with_err (λ e : Empty_set, match e with end)
          (on_coordinator (invalidate_continuation session_id replayed)) ;;
        let! call := with_err model_error (call_client (set_continuation None mapped)) in
        ret (call, false)
      else fail (model_error error)
  | Panic => panic
  end.

(** [ModelPort::start]. *)
Definition start (clock : option Z) (request : ModelCallSnapshot)
    : io PhiloModelAdapter ModelError NormalizedStream := λ a,
  (let! effective :=
     with_err model_error
       (lift (match capabilities (client a) (target a) with
              | inr c => Ok c
              | inl error => Err error
              end)) in
   let native_error_status := bool_decide (NativeToolResultErrorStatus ∈ effective) in
   let server_continuation :=
     persist_replay request
     && (adapter_continuation a == PreferPreviousResponseIdWithLocalFallback) in
   let! replayed := on_coordinator (load clock (target a) request server_continuation) in
   let! mapped := lift (map_request request native_error_status replayed (adapter_cache a)) in
   let continuing :=
     server_continuation && has_continuation replayed && session.is_some (req_continuation mapped) in
   let mapped :=
     if server_continuation && negb (session.is_some (req_continuation mapped))
     then set_continuation (Some ContinuationStart) mapped else mapped in
   λ a,
   let '(a, first) := call_client mapped a in
   (let! opened :=
      after_first (call_session_id request) server_continuation continuing replayed mapped first in
    ret (stream_new opened.1 opened.2)) a) a.
End adapter.
End adapter.
