(* ===== verification/ModelAdapterProofs.v ===== *)
(** How the model adapter starts a call
    (src/crates/philo-model/src/adapter.rs, assemble.rs and request/).

    Module [adapter_proofs]: a client that logs its requests, what a start sends,
    and that a response chain the provider has dropped is not continued again;
    which deployments the assembly refuses. *)

From S2P Require Import Prelude RustStr Session Tools Runtime JsonlCodec ReplayStore Replay ReplayHistory.
From S2P Require Import ModelErrors ModelRequest ModelStream ModelAdapter.
Import runtime jsonl_codec replay_store replay replay_history model_errors model_request model_stream.
Import headers assemble adapter.

Module adapter_proofs.

(** ** Requests that are sent *)

Section start.
Context {sdk : Sdk} {sdk_request : SdkRequest} {defaults : RequestDefaults} {sha : Sha256}
        {json : GenerationJson} {debug : DebugStr}.
Context {S : Type} {store : ModelReplayStore S}.
Context {C : Type} {client_ops : SdkClient C}.

(** The client, with the requests it was given. *)
#[export] Instance logging : SdkClient (C * list ModelRequest) := {
  capabilities c := capabilities c.1;
  client_call t m c := let '(c', r) := client_call t m c.1 in ((c', c.2 ++ [m]), r)
}.
Abbreviation Adapter := (PhiloModelAdapter (S := S) (C := C * list ModelRequest)).

Definition sent (a : Adapter) : list ModelRequest := (client a).2.

(** The answer to a request. *)
Definition answer (a : Adapter) (m : ModelRequest) : PhiloError + list (PhiloError + SdkEvent) :=
  (client_call (target a) m (client a).1).2.

Lemma call_client_sent m (a : Adapter) :
  sent (call_client m a).1 = sent a ++ [m] ∧ coordinator (call_client m a).1 = coordinator a ∧
  target (call_client m a).1 = target a ∧
  (call_client m a).2 = match answer a m with inr call => Ok call | inl error => Err error end.
Proof. unfold call_client, sent, answer. cbn. by destruct (client_call _ _ _) as [c [e|call]]. Qed.

Lemma on_coordinator_same {E A} (m : io (ReplayCoordinator S) E A) (a : Adapter) :
  sent (on_coordinator m a).1 = sent a ∧ coordinator (on_coordinator m a).1 = (m (coordinator a)).1 ∧
  (on_coordinator m a).2 = (m (coordinator a)).2.
Proof. unfold on_coordinator, sent. by destruct (m (coordinator a)). Qed.

(** The provider's stored responses are used; a history without them. *)
Definition chained (request : ModelCallSnapshot) (a : Adapter) : bool :=
  persist_replay request
  && (adapter_continuation a == PreferPreviousResponseIdWithLocalFallback).
Definition without_chain (h : ReplayHistory) : ReplayHistory :=
  {| by_message := by_message h; continuation := None |}.

(** What a start has to know before it sends: what was loaded, and the request. *)
Definition mapped_from (features : list Capability) (h : ReplayHistory) (request : ModelCallSnapshot)
    (a : Adapter) : outcome ModelError ModelRequest :=
  map_request request (bool_decide (NativeToolResultErrorStatus ∈ features)) h (adapter_cache a).
Definition ready (clock : option Z) (request : ModelCallSnapshot) (a : Adapter)
    : outcome ModelError (list Capability * ReplayHistory * ModelRequest) :=
  let? features := match capabilities (client a) (target a) with
                   | inr features => Ok features
                   | inl error => Err (model_error error)
                   end in
  let? h := (load clock (target a) request (chained request a) (coordinator a)).2 in
  let? whole := mapped_from features h request a in
  Ok (features, h, whole).

(** The first request; it asks for a new chain where there is none to continue. *)
Definition opening (request : ModelCallSnapshot) (a : Adapter) (whole : ModelRequest) : ModelRequest :=
  if chained request a && negb (session.is_some (req_continuation whole))
  then set_continuation (Some ContinuationStart) whole else whole.

(** A chain of stored responses was continued, and the provider has dropped it. *)
Record gone (request : ModelCallSnapshot) (a : Adapter) (h : ReplayHistory) (whole : ModelRequest) : Prop := {
  gone_persist : persist_replay request = true;
  gone_policy : adapter_continuation a = PreferPreviousResponseIdWithLocalFallback;
  gone_chain : is_Some (continuation h);
  gone_continued : is_Some (req_continuation whole);
  gone_error : ∃ error, answer a (opening request a whole) = inl error ∧
    continuation_failure error = Some PreviousResponseUnavailable
}.

(** The stream a request opens. *)
Definition opens (a : Adapter) (m : ModelRequest) (retain : bool) : outcome ModelError NormalizedStream :=
  match answer a m with
  | inr call => Ok (stream_new call retain)
  | inl error => Err (model_error error)
  end.

Definition starts (clock : option Z) (request : ModelCallSnapshot) (a a' : Adapter)
    (r : outcome ModelError NormalizedStream) : Prop :=
  match ready clock request a with
  | Err e => sent a' = sent a ∧ r = Err e
  | Panic => sent a' = sent a ∧ r = Panic
  | Ok (features, h, whole) =>
      let first := opening request a whole in
      (¬ gone request a h whole → sent a' = sent a ++ [first] ∧ r = opens a first (chained request a)) ∧
      (gone request a h whole → ∃ k local,
         continuation h = Some k ∧ mapped_from features (without_chain h) request a = Ok local ∧
         sent a' = sent a ++ [first; set_continuation None local] ∧
         r = opens (call_client first a).1 (set_continuation None local) false ∧
         (invalidated_poisoned (coordinator a') = false →
          candidate_generation_id k ∈ invalidated_continuations (coordinator a')))
  end.

Lemma invalidate_marks sid h k (w : ReplayCoordinator S) :
  continuation h = Some k →
  let w' := (invalidate_continuation sid h w).1 in
  invalidated_poisoned w' = invalidated_poisoned w ∧
  (invalidated_poisoned w = false → candidate_generation_id k ∈ invalidated_continuations w').
Proof.
  intros Hk. unfold invalidate_continuation. rewrite Hk. unfold bind, get. cbn.
  destruct (invalidated_poisoned w) eqn:Hp; cbn; [by split|].
  case_bool_decide as Hin; cbn; [by split|].
  rewrite on_store_run. cbn. split; [done|]. intros _. set_solver.
Qed.
Lemma invalidate_returns sid h (w : ReplayCoordinator S) : (invalidate_continuation sid h w).2 = Ok tt.
Proof.
  unfold invalidate_continuation. destruct (continuation h); [|done]. unfold bind, get. cbn.
  by destruct (_ || _).
Qed.

(** The chain does not enter the messages: without it the request is the same,
    but for what it continues. *)
Lemma map_one_chain native h index m m' message out :
  system_instructions m' = system_instructions m → summary_instructions m' = summary_instructions m →
  mapped_messages m' = mapped_messages m → map_one native h index m message = Ok out →
  ∃ out', map_one native (without_chain h) index m' message = Ok out' ∧
    system_instructions out' = system_instructions out ∧
    summary_instructions out' = summary_instructions out ∧ mapped_messages out' = mapped_messages out.
Proof.
  intros E1 E2 E3. unfold map_one. change (items_for (without_chain h)) with (items_for h).
  rewrite E1, E2, E3. destruct message as [c|t|parts|blocks|i o]; cbn.
  - intros [= <-]. eauto.
  - intros [= <-]. eauto.
  - destruct (map_user_parts parts); cbn; [|done..]. intros [= <-]. eauto.
  - destruct (map_assistant blocks (items_for h index)); cbn; [|done..]. intros [= <-]. eauto.
  - destruct (map_tool_result i o native); cbn; [|done..]. intros [= <-]. eauto.
Qed.
Lemma map_all_chain native h index m m' messages out :
  system_instructions m' = system_instructions m → summary_instructions m' = summary_instructions m →
  mapped_messages m' = mapped_messages m → map_all native h index m messages = Ok out →
  ∃ out', map_all native (without_chain h) index m' messages = Ok out' ∧
    system_instructions out' = system_instructions out ∧
    summary_instructions out' = summary_instructions out ∧ mapped_messages out' = mapped_messages out.
Proof.
  revert index m m'. induction messages as [|message messages IH]; intros index m m' E1 E2 E3; cbn.
  { intros [= <-]. eauto. }
  destruct (map_one native h index m message) as [n|e|] eqn:Hone; cbn; [|done..]. intros Hall.
  destruct (map_one_chain _ _ _ _ _ _ _ E1 E2 E3 Hone) as (n' & -> & F1 & F2 & F3). cbn. by eapply IH.
Qed.
Lemma mapped_chain features h request (a : Adapter) whole :
  mapped_from features h request a = Ok whole →
  ∃ local, mapped_from features (without_chain h) request a = Ok local ∧
    set_continuation None local = set_continuation None whole.
Proof.
  unfold mapped_from, map_request. destruct (new_request _) as [base|e|]; cbn; [|done..].
  unfold map_messages. destruct (map_all _ h _ _ _) as [m|e|] eqn:Hm; cbn; [|done..].
  destruct (map_all_chain _ _ _ _ _ _ _ eq_refl eq_refl eq_refl Hm) as (m' & -> & E1 & E2 & E3). cbn.
  assert (instructions_of m' = instructions_of m) as -> by (unfold instructions_of; by rewrite E1, E2).
  rewrite E3. unfold map_tools. cbn.
  destruct (if is_nil (call_tools request) then _ else _) as [chosen|e|]; cbn; [|done..].
  intros [= <-]. eexists. split; [done|]. done.
Qed.

(** The client is left alone by what concerns the coordinator. *)
Lemma on_coordinator_client {E A} (m : io (ReplayCoordinator S) E A) (a : Adapter) :
  client (on_coordinator m a).1 = client a ∧ target (on_coordinator m a).1 = target a.
Proof. unfold on_coordinator. by destruct (m (coordinator a)). Qed.
Lemma call_client_client m (a b : Adapter) :
  client b = client a → target b = target a → client (call_client m b).1 = client (call_client m a).1.
Proof. intros H1 H2. unfold call_client. rewrite H1, H2. by destruct (client_call _ _ _). Qed.
Lemma answer_same (a b : Adapter) m : client b = client a → target b = target a → answer b m = answer a m.
Proof. intros H1 H2. unfold answer. by rewrite H1, H2. Qed.
Lemma sent_same (a b : Adapter) : client b = client a → sent b = sent a.
Proof. unfold sent. by intros ->. Qed.

Definition continuing (request : ModelCallSnapshot) (a : Adapter) (h : ReplayHistory)
    (whole : ModelRequest) : bool :=
  chained request a && has_continuation h && session.is_some (req_continuation whole).

Lemma gone_spec request (a : Adapter) h whole :
  gone request a h whole ↔ continuing request a h whole = true ∧
    ∃ error, answer a (opening request a whole) = inl error ∧
      continuation_failure error = Some PreviousResponseUnavailable.
Proof.
  assert (∀ A (o : option A), is_Some o ↔ session.is_some o = true) as Hs
    by (intros A []; split; [done|by eexists|by intros []|done]).
  unfold continuing, chained, has_continuation. split.
  - intros [-> -> H1%Hs H2%Hs H3]. by rewrite H1, H2, bool_decide_eq_true_2.
  - intros [[[[H1 H2%bool_decide_eq_true]%andb_true_iff H3%Hs]%andb_true_iff H4%Hs]%andb_true_iff He]. by split.
Qed.

Definition streamed (o : outcome ModelError (list (PhiloError + SdkEvent) * bool))
    : outcome ModelError NormalizedStream :=
  let? opened := o in Ok (stream_new opened.1 opened.2).

(** The first answer stands, unless it says that the chain is gone. *)
Lemma after_first_once sid request (a b : Adapter) h whole a' o :
  client b = client a → target b = target a → ¬ gone request a h whole →
  after_first sid (chained request a) (continuing request a h whole) h (opening request a whole)
    (call_client (opening request a whole) b).2 (call_client (opening request a whole) b).1 = (a', o) →
  sent a' = sent a ++ [opening request a whole] ∧
  streamed o = opens a (opening request a whole) (chained request a).
Proof.
  intros Hc Ht Hg. destruct (call_client_sent (opening request a whole) b) as (Hs & _ & _ & ->).
  rewrite (answer_same a b), (sent_same a b) in * by done.
  rewrite gone_spec in Hg. unfold after_first, opens.
  destruct (answer a (opening request a whole)) as [error|call]; [|by intros [= <- <-]].
  destruct (continuing request a h whole && _) eqn:Hf; [|by intros [= <- <-]].
  apply andb_true_iff in Hf as [Hco He%bool_decide_eq_true]. destruct Hg. eauto.
Qed.

(** The chain is marked, and the history is sent without it. *)
Lemma after_first_twice sid request (a b : Adapter) h whole k a' o :
  client b = client a → target b = target a → gone request a h whole → continuation h = Some k →
  after_first sid (chained request a) (continuing request a h whole) h (opening request a whole)
    (call_client (opening request a whole) b).2 (call_client (opening request a whole) b).1 = (a', o) →
  let first := opening request a whole in
  sent a' = sent a ++ [first; set_continuation None first] ∧
  streamed o = opens (call_client first a).1 (set_continuation None first) false ∧
  (invalidated_poisoned (coordinator a') = false →
   candidate_generation_id k ∈ invalidated_continuations (coordinator a')).
Proof.
  intros Hc Ht [Hco (error & Ha & He)]%gone_spec Hk.
  destruct (call_client_sent (opening request a whole) b) as (Hs & Hcb & Htb & ->).
  rewrite (answer_same a b) by done. rewrite (sent_same a b) in Hs by done.
  pose proof (call_client_client (opening request a whole) a b Hc Ht) as Hcl.
  set (first := opening request a whole) in *. set (b1 := (call_client first b).1) in *. clearbody b1.
  unfold after_first. rewrite Ha, Hco, bool_decide_eq_true_2 by done. cbn [andb].
  unfold bind at 1, with_err at 1.
  destruct (on_coordinator_same (invalidate_continuation sid h) b1) as (Hs3 & Hc3 & Hr3).
  destruct (on_coordinator_client (invalidate_continuation sid h) b1) as [Hcl3 Ht3].
  pose proof (invalidate_marks sid h k (coordinator b1) Hk) as [Hmp Hmi].
  rewrite invalidate_returns in Hr3. destruct (on_coordinator _ b1) as [b2 r2].
  cbn [fst snd] in *. subst r2. cbn [map_err]. unfold bind, with_err.
  destruct (call_client_sent (set_continuation None first) b2) as (Hs4 & Hc4 & _ & Hr4).
  assert (answer b2 (set_continuation None first)
    = answer (call_client first a).1 (set_continuation None first)) as Hans.
  { apply answer_same; [congruence|]. rewrite Ht3, Htb, Ht. unfold call_client.
    by destruct (client_call _ _ _). }
  destruct (call_client _ b2) as [b3 r3]. cbn [fst snd] in *. rewrite Hr4, Hans. unfold opens.
  set (second := answer (call_client first a).1 (set_continuation None first)). unfold ret.
  intros Hend. assert (a' = b3 ∧ streamed o = match second with
    | inr call => Ok (stream_new call false) | inl error => Err (model_error error) end) as [-> ->]
    by (destruct second; cbn in Hend; by injection Hend as <- <-).
  split; [by rewrite Hs4, Hs3, Hs, <- app_assoc|]. split; [done|by rewrite Hc4, Hc3, Hmp].
Qed.

(** C19: A start calls the provider once, and a second time exactly when the provider
    says that the chain of stored responses the first request continued is gone. What
    has to be known before - the capabilities, the stored history, the request made
    of it - is found first, and nothing is sent when it fails. Then one request is sent,
    and the stream or the failure is the answer to it; unless stored responses are
    used, the request continued one, and the answer is that it is gone: then the request
    that maps the whole history as if no chain were known is sent, without a
    continuation, the answer to it is the result, the stream keeps no response
    identifier, and the chain is marked as gone. *)
Theorem start_falls_back_once clock request (a a' : Adapter) r
    (Hstart : start clock request a = (a', r)) : starts clock request a a' r.
Proof.
  revert Hstart. unfold start, starts, ready. unfold bind at 1, with_err at 1, lift at 1.
  destruct (capabilities (client a) (target a)) as [e|features] eqn:Hcaps; cbn [map_err].
  { by intros [= <- <-]. }
  fold (chained request a). unfold bind at 1. cbn [outcome_bind mbind].
  destruct (on_coordinator_same (load clock (target a) request (chained request a)) a) as (Hs1 & _ & Hr1).
  destruct (on_coordinator_client (load clock (target a) request (chained request a)) a) as [Hc1 Ht1].
  destruct (on_coordinator _ a) as [b [h|e|]]; cbn [fst snd] in *; rewrite <- Hr1; cbn;
    [|by intros [= <- <-]..].
  fold (mapped_from features h request a).
  destruct (mapped_from features h request a) as [whole|e|] eqn:Hmap; cbn; [|by intros [= <- <-]..].
  fold (opening request a whole) (continuing request a h whole).
  destruct (call_client (opening request a whole) b) as [b1 first] eqn:Hfirst. unfold bind.
  destruct (after_first _ _ _ _ _ _ _) as [b2 o] eqn:Hafter. intros Hend.
  assert (a' = b2 ∧ r = streamed o) as [-> ->] by (by destruct o; injection Hend as <- <-).
  assert (after_first (call_session_id request) (chained request a) (continuing request a h whole) h
    (opening request a whole) (call_client (opening request a whole) b).2
    (call_client (opening request a whole) b).1 = (b2, o)) as H by by rewrite Hfirst.
  split; intros Hg.
  - by eapply after_first_once.
  - destruct (gone_chain _ _ _ _ Hg) as [k Hk]. destruct (mapped_chain _ _ _ _ _ Hmap) as (local & Hl & He).
    exists k, local. do 2 (split; [done|]).
    assert (set_continuation None local = set_continuation None (opening request a whole)) as ->.
    { rewrite He. unfold opening. by destruct (_ && _). }
    by eapply after_first_twice.
Qed.

(** ** A chain that is gone *)

(** The continuation of a load was not marked before. *)
Lemma load_candidate_fresh clock t request allow (w w' : ReplayCoordinator S) h k :
  load clock t request allow w = (w', Ok h) → continuation h = Some k →
  candidate_generation_id k ∉ invalidated_continuations w.
Proof.
  unfold load. destruct (persist_replay request); cbn [negb]; [|by intros [= _ <-]].
  unfold bind, with_err at 1. rewrite on_store_run.
  destruct (replay_store.load _ _) as [s [blobs|e|]]; cbn; [|done..].
  destruct (unix_seconds clock) as [now|e|]; cbn; [|done..].
  destruct (read_blobs request now blobs) as [[gens removed]|e|]; cbn; [|done..].
  destruct (invalidated_poisoned w); [done|]. cbn.
  set (invalidated := _ ∪ list_to_set _).
  destruct (match_messages _ _ _ _ _ _ _) as [m|e|] eqn:Hm; cbn; [|done..].
  apply (match_messages_ok t allow _ invalidated []) in Hm; [|by split].
  destruct (transient_poisoned w); [done|]. cbn.
  destruct (match_transient _ _ _ _ _ _ _) as [found|e|]; cbn; [|done..].
  assert (∀ w'' h', (w'', Ok {| by_message := found; continuation := candidate m |}) = (w', Ok (E := ModelError) h') →
    continuation h' = Some k → candidate_generation_id k ∉ invalidated_continuations w) as Hend.
  { intros w'' h' [= _ <-] Hk.
    destruct (mk_candidate _ _ _ _ _ Hm _ Hk) as [(g & response & _ & Hb & _ & _ & _ & -> & _)].
    pose proof (bd_valid _ _ _ _ _ Hb). unfold invalidated in *. set_solver. }
  destruct (is_nil _); cbn; [by apply Hend|].
  unfold with_err. rewrite on_store_run. cbn.
  destruct (replay_store.remove _ _ s) as [s2 [[]|e|]]; cbn; [by apply Hend|done..].
Qed.

(** What the coordinator does later in the same process. *)
Inductive later : ReplayCoordinator S → ReplayCoordinator S → Prop :=
| later_refl w : later w w
| later_load w w1 clock t request allow w2 r :
    later w w1 → load clock t request allow w1 = (w2, r) → later w w2
| later_commit w w1 clock t request response items w2 r :
    later w w1 → commit clock t request response items w1 = (w2, r) → later w w2
| later_invalidate w w1 sid h w2 r :
    later w w1 → invalidate_continuation sid h w1 = (w2, r) → later w w2.

Lemma load_keeps_marks clock t request allow (w : ReplayCoordinator S) :
  invalidated_continuations (load clock t request allow w).1 = invalidated_continuations w.
Proof.
  unfold load. destruct (persist_replay request); cbn [negb]; [|done].
  unfold bind, with_err at 1. rewrite on_store_run.
  destruct (replay_store.load _ _) as [s [blobs|e|]]; cbn; [|done..].
  destruct (unix_seconds clock) as [now|e|]; cbn; [|done..].
  destruct (read_blobs request now blobs) as [[gens removed]|e|]; cbn; [|done..].
  destruct (invalidated_poisoned w); [done|]. cbn.
  destruct (match_messages _ _ _ _ _ _ _) as [m|e|]; cbn; [|done..].
  destruct (transient_poisoned w); [done|]. cbn.
  destruct (match_transient _ _ _ _ _ _ _) as [found|e|]; cbn; [|done..].
  destruct (is_nil _); cbn; [done|]. unfold with_err. rewrite on_store_run. cbn.
  by destruct (replay_store.remove _ _ s) as [s2 [[]|e|]].
Qed.

Lemma commit_keeps_marks clock t request response items (w : ReplayCoordinator S) :
  invalidated_continuations (commit clock t request response items w).1 = invalidated_continuations w.
Proof.
  unfold commit. destruct (_ || _); [done|]. unfold bind, lift, get.
  destruct (unix_seconds clock) as [now|e|]; [|done..].
  destruct (store_items _) as [[stored snap]|e|]; [|done..].
  destruct (_ && _); [by destruct (transient_poisoned w)|].
  destruct (to_vec _) as [payload|]; [|done]. rewrite on_store_run.
  destruct (replay_store.commit _ _ _).2; [done| |done]. by destruct (any _ _).
Qed.

Lemma later_marks w w' : later w w' → invalidated_continuations w ⊆ invalidated_continuations w'.
Proof.
  induction 1 as [w|w w1 clock t request allow w2 r _ IH Hl|w w1 clock t request response items w2 r _ IH Hc
                 |w w1 sid h w2 r _ IH Hi]; [done|..].
  - pose proof (load_keeps_marks clock t request allow w1) as Hk. rewrite Hl in Hk. cbn in Hk. by rewrite Hk.
  - pose proof (commit_keeps_marks clock t request response items w1) as Hk. rewrite Hc in Hk. cbn in Hk.
    by rewrite Hk.
  - revert Hi. unfold invalidate_continuation. destruct (continuation h) as [k|]; [|by intros [= <- _]].
    unfold bind, get. cbn. destruct (_ || _); [by intros [= <- _]|]. cbn.
    rewrite on_store_run. intros [= <- _]. cbn. set_solver.
Qed.

(** A response chain the provider has dropped is not continued again. Once a
    history's continuation is invalidated, no load of this process, after any
    loads, commits and invalidations, gives a continuation of that response. *)
Theorem dropped_chain_is_not_continued sid h k w w2 clock t request allow w3 h'
    (Hk : continuation h = Some k) (Hp : invalidated_poisoned w = false)
    (Hlater : later (invalidate_continuation sid h w).1 w2)
    (Hload : load clock t request allow w2 = (w3, Ok h')) :
  ∀ k', continuation h' = Some k' → candidate_generation_id k' ≠ candidate_generation_id k.
Proof.
  intros k' Hk' Heq. apply (load_candidate_fresh _ _ _ _ _ _ _ _ Hload Hk'). rewrite Heq.
  apply (later_marks _ _ Hlater). by apply (invalidate_marks sid h k w Hk).
Qed.
End start.

(** ** Deployments *)

Section deployment.
Context {sdk : Sdk} {sdk_request : SdkRequest} {http : HttpHeaders} {patch : ProviderPatch}
        {assembly : SdkAssembly}.

(** The client keeps the operations it is given. *)
Class ProviderPatchLaws : Prop := {
  patch_empty : operations provider_headers_empty = [];
  patch_kept ops headers : try_from_patch ops = Some headers → operations headers = ops
}.
Context {patch_laws : ProviderPatchLaws}.

Definition forbidden (name : string) : bool :=
  any (λ n, name == n) (reserved_names ++ sensitive_names).

(** What [ModelRequestHeaders] keeps: each name once, none that the client or the
    credentials own, one operation for each, in order. *)
Record headers_ok (self : ModelRequestHeaders) : Prop := {
  ho_nodup : NoDup (header_names self);
  ho_allowed n : n ∈ header_names self → forbidden (header_name_str n) = false;
  ho_operations : operation_name <$> operations (provider_headers self) = header_names self
}.

Lemma filter_names (name : HeaderName) ops names :
  operation_name <$> ops = names →
  operation_name <$> List.filter (λ op, operation_name op != name) ops = List.filter (λ n, n != name) names.
Proof. intros <-. induction ops as [|op ops IH]; [done|]. csimpl. by case_bool_decide; csimpl; rewrite IH. Qed.

Lemma set_header_ok self name value self' :
  headers_ok self → set_header self name value = Ok self' → headers_ok self'.
Proof.
  intros [Hn Ha Ho]. unfold set_header. destruct (header_name_new name) as [n|]; [|done].
  unfold validate_name. destruct (any _ reserved_names) eqn:Hr; [done|].
  destruct (any _ sensitive_names) eqn:Hs; [done|]. cbn [mbind outcome_bind].
  destruct (str_is_empty _); [done|]. destruct (header_value_new value) as [v|]; [|done].
  destruct (try_from_patch _) as [headers|] eqn:Hp; [|done]. intros [= <-].
  assert (∀ m, m ∈ List.filter (λ m, m != n) (header_names self) → m ∈ header_names self ∧ m ≠ n) as Hin.
  { intros m. rewrite !list_elem_of_In. intros [Hm Hne]%filter_In. split; [done|].
    by apply negb_true_iff, bool_decide_eq_false in Hne. }
  split; cbn [header_names provider_headers].
  - apply NoDup_app. split; [|split; [|apply NoDup_singleton]].
    + apply NoDup_ListNoDup, List.NoDup_filter. by apply NoDup_ListNoDup.
    + by intros m [_ Hm]%Hin ->%list_elem_of_singleton.
  - intros m [[Hm _]%Hin| ->%list_elem_of_singleton]%elem_of_app; [by apply Ha|].
    unfold forbidden, any in *. by rewrite existsb_app, Hr, Hs.
  - rewrite (patch_kept _ _ Hp), fmap_app. csimpl. f_equal. by apply filter_names.
Qed.

(** The headers of a deployment own no credential and no field of the
    protocol: a set of headers that is accepted has each name once, in the order
    of the last time it was set, none of them a reserved or sensitive name, and
    the client is given exactly one operation per name. *)
Theorem request_headers_are_not_credentials headers self
    (H : try_from_iter headers = Ok self) : headers_ok self.
Proof.
  revert H. unfold try_from_iter.
  assert (headers_ok request_headers_new) as H0.
  { split; [constructor|by intros n ?%not_elem_of_nil|]. cbn. by rewrite patch_empty. }
  revert H0. generalize request_headers_new. induction headers as [|[n v] headers IH]; intros s Hs; cbn.
  { by intros [= <-]. }
  destruct (set_header s n v) as [s'|e|] eqn:Hset; cbn; [|done..].
  apply IH. by eapply set_header_ok.
Qed.

(** The assembly refuses what the provider would reject: a deployment that
    is built and prefers stored responses speaks the Responses protocol, and if
    it claims to be the official service its endpoint is the official host; a
    reasoning format is only set for the Chat protocol. *)
Theorem built_deployments_are_consistent {S} (self : PhiloModelBuilder (S := S)) transport client target
    (H : build_with_transport transport self = Ok (client, target)) :
  (continuation_policy self = PreferPreviousResponseIdWithLocalFallback →
     builder_protocol self = OpenAiResponses ∧
     (compat self = Official → ∃ url, url_parse (endpoint self) = inr url ∧
        host_str url = Some "api.openai.com")) ∧
  (chat_reasoning_format self ≠ None → builder_protocol self = OpenAiChat).
Proof.
  revert H. unfold build_with_transport, build.
  destruct (provider_id_new _) as [|provider]; cbn; [done|].
  destruct (model_name_new _) as [|model]; cbn; [done|].
  destruct (url_parse _) as [|url]; cbn; [done|].
  destruct (protocol_id _) as [protocol|e|]; cbn; [|done..].
  assert (check_policy self (host_str url) = Ok tt →
    (continuation_policy self = PreferPreviousResponseIdWithLocalFallback →
       builder_protocol self = OpenAiResponses ∧
       (compat self = Official → ∃ u, inr url = inr (A := string) u ∧ host_str u = Some "api.openai.com")) ∧
    (chat_reasoning_format self ≠ None → builder_protocol self = OpenAiChat)) as Hcheck.
  { unfold check_policy. intros Hc. split.
    - intros Hp. rewrite Hp, bool_decide_eq_true_2 in Hc by done. cbn [andb] in Hc.
      case_bool_decide as Hproto; [|done]. split; [done|]. cbn [negb] in Hc.
      intros Ho. rewrite Ho in Hc. destruct (_ && _); [done|].
      rewrite bool_decide_eq_true_2 in Hc by done. cbn in Hc. exists url. split; [done|].
      by case_bool_decide.
    - intros Hf. destruct (_ && _); [done|]. destruct (chat_reasoning_format self); [|done].
      cbn in Hc. by case_bool_decide. }
  destruct (check_policy self (host_str url)) as [[]|e|]; cbn; [|done..]. intros _. by apply Hcheck.
Qed.
End deployment.
End adapter_proofs.
