(* ===== verification/ToolText.v ===== *)
(** Text as the standard tools treat it: the string functions of the standard
    library they use, and the rows of their displays
    (src/crates/philo-tools-std/src/display.rs).

    Module [tool_text]: [lines], [split], [replace], [matches] and slices work on
    the bytes of a string, as UTF-8 text does when the pattern is text too. A
    pattern is never empty here. A loop over the matches has the length of the
    text as fuel.

    Lemmas on the string functions of ToolText.v: what a search finds, what a
    replacement changes, what a list of lines is. *)

From S2P Require Import Prelude RustStr Tools.
From Stdlib Require Import Ascii.
Import tools registry.

Module tool_text.

Definition LF : ascii := "010".
Definition CR : ascii := "013".
Definition lf : string := String LF "".
Definition cr : string := String CR "".
Definition crlf : string := cr +:+ lf.

(** ** Strings *)

(** [str::split_inclusive('\n')]. *)
Fixpoint split_inclusive (s : string) : list string :=
  match s with
  | EmptyString => []
  | String b s =>
      if b == LF then lf :: split_inclusive s
      else match split_inclusive s with
           | [] => [String b ""]
           | l :: ls => String b l :: ls
           end
  end.

(** [str::strip_suffix] of one byte. *)
Fixpoint strip_last (b : ascii) (s : string) : option string :=
  match s with
  | EmptyString => None
  | String c EmptyString => if c == b then Some "" else None
  | String c s => String c <$> strip_last b s
  end.

Definition strip_line (line : string) : string :=
  match strip_last LF line with
  | None => line
  | Some line => match strip_last CR line with None => line | Some line => line end
  end.

(** [str::lines]: a carriage return counts only before a line feed. *)
Definition lines (s : string) : list string := strip_line <$> split_inclusive s.

(** The text before the first match, and the text behind it. *)
Fixpoint split_first (pattern s : string) : option (string * string) :=
  match strip_prefix pattern s with
  | Some rest => Some ("", rest)
  | None =>
      match s with
      | EmptyString => None
      | String b s =>
          match split_first pattern s with
          | Some (before, rest) => Some (String b before, rest)
          | None => None
          end
      end
  end.

(** [str::split]: the texts between the matches, from left to right. *)
Fixpoint split_fuel (fuel : nat) (pattern s : string) : list string :=
  match fuel with
  | O => [s]
  | S fuel =>
      match split_first pattern s with
      | None => [s]
      | Some (before, rest) => before :: split_fuel fuel pattern rest
      end
  end.
Definition split (pattern s : string) : list string := split_fuel (String.length s) pattern s.

(** [str::replace], [str::matches(..).count()], [str::replacen(.., 1)] and
    [str::contains]. *)
Definition replace (pattern to s : string) : string := join to (split pattern s).
Definition match_count (pattern s : string) : nat := length (split pattern s) - 1.
Definition replace_first (pattern to s : string) : string :=
  match split_first pattern s with
  | Some (before, rest) => before +:+ to +:+ rest
  | None => s
  end.
Definition contains (pattern s : string) : bool :=
  match split_first pattern s with Some _ => true | None => false end.

(** [&s[a..b]]. *)
Definition slice (a b : nat) (s : string) : string := String.substring a (b - a) s.

(** [format!("{:>5}", n)] of a number. *)
Definition pad_left (width : nat) (s : string) : string :=
  concat_str (replicate (width - String.length s) " ") +:+ s.

Definition to_string (n : nat) : string := display_nat n.
Definition bool_string (b : bool) : string := if b then "true" else "false".

(** ** display.rs *)

Definition MAX_PLUS_DISPLAY_LINES : nat := 80.
Definition EDIT_CONTEXT_LINES : nat := 2.

Definition card (title legacy_verb body detail : string) : ToolDisplay :=
  with_fact (with_fact (with_fact (display_new detail) "title" title) "verb" legacy_verb)
    "body" body.

Definition subject (value : string) (self : ToolDisplay) : ToolDisplay :=
  with_fact self "subject" value.
Definition count (phrase : string) (self : ToolDisplay) : ToolDisplay :=
  with_fact self "count" phrase.
Definition result_phrase (phrase : string) (self : ToolDisplay) : ToolDisplay :=
  with_fact self "result" phrase.
Definition fact (name value : string) (self : ToolDisplay) : ToolDisplay :=
  with_fact self name value.

(** One line of the loop of [plus_lines]: the detail, the count, and whether
    something was left out. *)
Definition plus_line (max_lines : nat) (acc : string * nat * bool) (line : string)
    : string * nat * bool :=
  let '(detail, added, truncated) := acc in
  if bool_decide (added < max_lines) then
    ((if bool_decide (0 < added) then detail +:+ lf else detail) +:+ "+" +:+ line, S added, truncated)
  else (detail, S added, true).
Definition plus_lines (content : string) (max_lines : nat) : string * nat * bool :=
  foldl (plus_line max_lines) ("", 0, false) (lines content).

(** The lines of a text with the offsets where they start; line feed, carriage
    return, and both together end a line. [line] is the part of the line at
    [start] that was read. *)
Fixpoint numbered_from (start : nat) (line s : string) : list (nat * string) :=
  match s with
  | EmptyString => if str_is_empty line then [] else [(start, line)]
  | String b s' =>
      if b == LF then (start, line) :: numbered_from (start + String.length line + 1) "" s'
      else if b == CR then
        match s' with
        | String b' s'' =>
            if b' == LF then (start, line) :: numbered_from (start + String.length line + 2) "" s''
            else (start, line) :: numbered_from (start + String.length line + 1) "" s'
        | EmptyString => [(start, line)]
        end
      else numbered_from start (line +:+ String b "") s'
  end.
Definition numbered_lines (text : string) : list (nat * string) := numbered_from 0 "" text.

(** [rposition(..).unwrap_or(0)]. *)
Fixpoint rposition {A} (f : A → bool) (l : list A) : option nat :=
  match l with
  | [] => None
  | x :: l =>
      match rposition f l with
      | Some i => Some (S i)
      | None => if f x then Some 0 else None
      end
  end.
Definition line_index_containing (ls : list (nat * string)) (offset : nat) : nat :=
  default 0 (rposition (λ l, bool_decide (l.1 ≤ offset)) ls).

Definition line_text (ls : list (nat * string)) (index : nat) : string :=
  default "" ((ls !! index) ≫= λ l, Some l.2).
Definition line_offset (ls : list (nat * string)) (index : nat) : nat :=
  default 0 ((ls !! index) ≫= λ l, Some l.1).

(** The rows, how many lines are added and how many removed. *)
Definition edit_hunk (text old_string new_string : string) : string * nat * nat :=
  match split_first old_string text with
  | None => ("", 0, 0)
  | Some (before, _) =>
      let start := String.length before in
      let old_end := start + String.length old_string in
      let ls := numbered_lines text in
      if is_nil ls then ("", 0, 0)
      else
        let first := line_index_containing ls start in
        let last := line_index_containing ls (old_end - 1) in
        let line_start := line_offset ls first in
        let line_end :=
          if bool_decide (last + 1 < length ls) then line_offset ls (last + 1)
          else String.length text in
        let new_block := slice line_start start text +:+ new_string +:+ slice old_end line_end text in
        let before_from := first - EDIT_CONTEXT_LINES in
        let after_end := (last + 1 + EDIT_CONTEXT_LINES) `min` length ls in
        let context := (first - before_from) + (after_end - (last + 1)) in
        let removed := last + 1 - first in
        let added := length (lines new_block) in
        let hunk_start := first + 1 in
        let header := "@@ -" +:+ to_string hunk_start +:+ "," +:+ to_string (context + removed)
                      +:+ " +" +:+ to_string hunk_start +:+ "," +:+ to_string (context + added)
                      +:+ " @@" in
        let shown mark from n := (λ i, mark +:+ line_text ls i) <$> seq from n in
        (join lf ([header] ++ shown "  " before_from (first - before_from)
                  ++ shown "-" first removed
                  ++ ((λ line, "+" +:+ line) <$> lines new_block)
                  ++ shown "  " (last + 1) (after_end - (last + 1))), added, removed)
  end.

End tool_text.

Import tools registry tool_text.

Module text_proofs.

(** ** Append *)
Lemma str_app_eq_nil (a b : string) : a +:+ b = "" ↔ a = "" ∧ b = "".
Proof. destruct a; [rewrite str_app_nil; naive_solver|]. rewrite str_app_cons. naive_solver. Qed.

Lemma str_length_nil (s : string) : String.length s = 0 ↔ s = "".
Proof. by destruct s. Qed.

Lemma str_app_inj_l (a b c : string) : a +:+ b = a +:+ c → b = c.
Proof. apply string_app_inj_l. Qed.

(** Two splits of a text at the same place. *)
Lemma str_app_inj_length (a b c d : string) :
  String.length a = String.length c → a +:+ b = c +:+ d → a = c ∧ b = d.
Proof.
  revert c. induction a as [|x a IH]; intros [|y c]; simpl; try done.
  rewrite !str_app_cons. intros [= Hl] [= <- H]. by destruct (IH c Hl H) as [-> ->].
Qed.

Lemma substring_0_app (a b : string) : String.substring 0 (String.length a) (a +:+ b) = a.
Proof. induction a as [|x a IH]; [by destruct b|]. rewrite str_app_cons. simpl. by rewrite IH. Qed.

Lemma substring_self (s : string) : String.substring 0 (String.length s) s = s.
Proof. induction s as [|x s IH]; [done|]. simpl. by rewrite IH. Qed.

Lemma substring_app (a b : string) n : String.substring (String.length a) n (a +:+ b) = String.substring 0 n b.
Proof. induction a as [|x a IH]; [done|]. rewrite str_app_cons. simpl. by rewrite IH. Qed.

Lemma slice_app a b c : slice (String.length a) (String.length a + String.length b) (a +:+ b +:+ c) = b.
Proof.
  unfold slice. rewrite substring_app.
  replace (String.length a + String.length b - String.length a) with (String.length b) by lia.
  apply substring_0_app.
Qed.

(** ** Searches *)
Lemma prefix_spec p s : String.prefix p s = true ↔ ∃ r, s = p +:+ r.
Proof.
  revert s. induction p as [|x p IH]; intros s; simpl.
  - split; [|by destruct s]. intros _. exists s. by rewrite str_app_nil.
  - destruct s as [|y s]; simpl.
    + split; [done|]. intros [r Hr]. by rewrite str_app_cons in Hr.
    + destruct (ascii_dec x y) as [->|Hne].
      * rewrite IH. setoid_rewrite str_app_cons. naive_solver.
      * split; [done|]. intros [r Hr]. rewrite str_app_cons in Hr. by simplify_eq.
Qed.

Lemma strip_prefix_Some p s r : strip_prefix p s = Some r ↔ s = p +:+ r.
Proof.
  unfold strip_prefix. destruct (String.prefix p s) eqn:Hp.
  - apply prefix_spec in Hp as [r' ->]. rewrite str_app_length.
    replace (String.length p + String.length r' - String.length p) with (String.length r') by lia.
    rewrite substring_app, substring_self. split; [by intros [= ->]|].
    intros Hr%string_app_inj_l. by f_equal.
  - split; [done|]. intros ->. assert (String.prefix p (p +:+ r) = true); [|congruence].
    apply prefix_spec. eauto.
Qed.

Lemma strip_prefix_None p s : strip_prefix p s = None ↔ ∀ r, s ≠ p +:+ r.
Proof.
  destruct (strip_prefix p s) as [r|] eqn:H.
  - apply strip_prefix_Some in H. naive_solver.
  - split; [|done]. intros _ r Hr. apply strip_prefix_Some in Hr. congruence.
Qed.

Lemma split_first_cons p b s :
  split_first p (String b s) =
  match strip_prefix p (String b s) with
  | Some rest => Some ("", rest)
  | None => match split_first p s with
            | Some (before, rest) => Some (String b before, rest)
            | None => None
            end
  end.
Proof. reflexivity. Qed.

(** The match that is found is the first one. *)
Lemma split_first_Some p s a r :
  split_first p s = Some (a, r) ↔
  s = a +:+ p +:+ r ∧ ∀ a' r', s = a' +:+ p +:+ r' → String.length a ≤ String.length a'.
Proof.
  revert a r. induction s as [|b s IH]; intros a r.
  - change (split_first p "") with
      (match strip_prefix p "" with Some rest => Some ("", rest) | None => None end).
    destruct (strip_prefix p "") as [r0|] eqn:H.
    + apply strip_prefix_Some in H. symmetry in H. pose proof H as [-> ->]%str_app_eq_nil. split.
      * intros [= <- <-]. split; [done|]. simpl. lia.
      * intros [Hs _]. symmetry in Hs. apply str_app_eq_nil in Hs as [-> [_ ->]%str_app_eq_nil]. done.
    + rewrite strip_prefix_None in H. split; [done|]. intros [Hs _]. symmetry in Hs.
      apply str_app_eq_nil in Hs as [-> Hs]. by destruct (H r).
  - rewrite split_first_cons. destruct (strip_prefix p (String b s)) as [r0|] eqn:H.
    + apply strip_prefix_Some in H. split.
      * intros [= <- <-]. rewrite str_app_nil. split; [done|]. simpl. lia.
      * intros [Hs Hmin]. specialize (Hmin "" r0). rewrite str_app_nil in Hmin. simpl in Hmin.
        assert (a = "") as -> by (apply str_length_nil; specialize (Hmin H); lia).
        rewrite str_app_nil in Hs. rewrite Hs in H. by apply string_app_inj_l in H as ->.
    + rewrite strip_prefix_None in H. split.
      * destruct (split_first p s) as [[a0 r0]|] eqn:Hs; [|done]. intros [= <- <-].
        destruct (proj1 (IH a0 r0) eq_refl) as [-> Hmin]. rewrite str_app_cons. split; [done|].
        intros [|c a'] r' He; [rewrite str_app_nil in He; by destruct (H r')|].
        rewrite str_app_cons in He. injection He as -> He. simpl. apply Hmin in He. lia.
      * intros [Hs Hmin]. destruct a as [|c a]; [rewrite str_app_nil in Hs; by destruct (H r)|].
        rewrite str_app_cons in Hs. injection Hs as <- Hs.
        assert (split_first p s = Some (a, r)) as ->; [|done]. apply IH. split; [done|].
        intros a' r' He. specialize (Hmin (String b a') r'). rewrite str_app_cons in Hmin.
        simpl in Hmin. rewrite <- He in Hmin. specialize (Hmin eq_refl). lia.
Qed.

Lemma split_first_None p s : split_first p s = None ↔ ∀ a r, s ≠ a +:+ p +:+ r.
Proof.
  induction s as [|b s IH].
  - change (split_first p "") with
      (match strip_prefix p "" with Some rest => Some ("", rest) | None => None end).
    destruct (strip_prefix p "") as [r0|] eqn:H.
    + apply strip_prefix_Some in H. split; [done|]. intros Hn. destruct (Hn "" r0). by rewrite str_app_nil.
    + rewrite strip_prefix_None in H. split; [|done]. intros _ a r Hs. symmetry in Hs.
      apply str_app_eq_nil in Hs as [-> Hs]. by destruct (H r).
  - rewrite split_first_cons. destruct (strip_prefix p (String b s)) as [r0|] eqn:H.
    + apply strip_prefix_Some in H. split; [done|]. intros Hn. destruct (Hn "" r0). by rewrite str_app_nil.
    + rewrite strip_prefix_None in H. destruct (split_first p s) as [[a0 r0]|] eqn:Hs.
      * split; [done|]. intros Hn. apply split_first_Some in Hs as [-> _].
        destruct (Hn (String b a0) r0). by rewrite str_app_cons.
      * split; [|done]. intros _ [|c a] r He.
        -- rewrite str_app_nil in He. by destruct (H r).
        -- rewrite str_app_cons in He. injection He as _ He. by destruct (proj1 IH eq_refl a r).
Qed.

Lemma split_first_shorter p s a r :
  p ≠ "" → split_first p s = Some (a, r) → String.length r < String.length s.
Proof.
  intros Hp [-> _]%split_first_Some. rewrite !str_app_length.
  assert (String.length p ≠ 0) by by rewrite str_length_nil. lia.
Qed.

(** ** Splits *)
#[local] Arguments split_first : simpl never.

Lemma split_fuel_enough p fuel s :
  p ≠ "" → String.length s ≤ fuel → split_fuel fuel p s = split p s.
Proof.
  intros Hp. unfold split. revert s.
  assert (∀ n m s, String.length s ≤ n → n ≤ m → split_fuel m p s = split_fuel n p s) as Hgen.
  { induction n as [|n IH]; intros m s Hn Hm.
    - assert (s = "") as -> by (apply str_length_nil; lia). destruct m as [|m]; [done|].
      by destruct p.
    - destruct m as [|m]; [lia|]. simpl.
      destruct (split_first p s) as [[a r]|] eqn:Hs; [|done]. f_equal.
      apply split_first_shorter in Hs; [|done]. apply IH; lia. }
  intros s Hl. by apply Hgen.
Qed.

Lemma split_unfold p s :
  p ≠ "" →
  split p s = match split_first p s with None => [s] | Some (a, r) => a :: split p r end.
Proof.
  intros Hp. unfold split at 1. destruct s as [|b s].
  - destruct p as [|c p]; [done|]. reflexivity.
  - simpl String.length. simpl split_fuel. destruct (split_first p (String b s)) as [[a r]|] eqn:Hs; [|done].
    f_equal. apply split_first_shorter in Hs; [|done]. apply split_fuel_enough; [done|].
    simpl in Hs. lia.
Qed.

(** Induction along the matches. *)
Lemma split_ind p (P : string → Prop) :
  p ≠ "" →
  (∀ s, split_first p s = None → P s) →
  (∀ s a r, split_first p s = Some (a, r) → P r → P s) →
  ∀ s, P s.
Proof.
  intros Hp Hn Hs s. remember (String.length s) as n eqn:Hl.
  revert s Hl. induction (lt_wf n) as [n _ IH]. intros s ->.
  destruct (split_first p s) as [[a r]|] eqn:He; [|by apply Hn].
  eapply Hs; [done|]. eapply IH; [|done]. by apply split_first_shorter in He.
Qed.

Lemma split_not_nil p s : p ≠ "" → split p s ≠ [].
Proof. intros Hp. rewrite split_unfold by done. by destruct (split_first p s) as [[??]|]. Qed.

Lemma join_cons sep w l : l ≠ [] → join sep (w :: l) = w +:+ sep +:+ join sep l.
Proof. by destruct l. Qed.

(** The pieces with the pattern between them are the text. *)
Lemma join_split p s : p ≠ "" → join p (split p s) = s.
Proof.
  intros Hp. revert s. apply (split_ind p); [done|..].
  - intros s Hs. by rewrite split_unfold, Hs.
  - intros s a r Hs IH. rewrite split_unfold, Hs by done.
    rewrite join_cons, IH by by apply split_not_nil. symmetry. by apply split_first_Some in Hs as [-> _].
Qed.

Lemma match_count_0 p s : p ≠ "" → match_count p s = 0 ↔ split_first p s = None.
Proof.
  intros Hp. unfold match_count. rewrite split_unfold by done.
  destruct (split_first p s) as [[a r]|]; simpl; [|by split].
  split; [|done]. intros Hl. destruct (split p r) eqn:Hr; [by destruct (split_not_nil p r)|]. done.
Qed.

Lemma match_count_S p s a r :
  p ≠ "" → split_first p s = Some (a, r) → match_count p s = S (match_count p r).
Proof.
  intros Hp Hs. unfold match_count. rewrite split_unfold, Hs by done. simpl.
  destruct (split p r) eqn:Hr; [by destruct (split_not_nil p r)|]. simpl. lia.
Qed.

(** One match: the text around it, with no match behind it. *)
Lemma match_count_1 p s :
  p ≠ "" →
  match_count p s = 1 ↔ ∃ a r, split_first p s = Some (a, r) ∧ split_first p r = None.
Proof.
  intros Hp. split.
  - destruct (split_first p s) as [[a r]|] eqn:Hs.
    + rewrite (match_count_S _ _ a r) by done. intros [= H]. exists a, r. split; [done|].
      by apply match_count_0.
    + intros H. apply match_count_0 in Hs; [|done]. lia.
  - intros (a & r & Hs & Hr). rewrite (match_count_S p s a r) by done.
    by rewrite (proj2 (match_count_0 p r Hp) Hr).
Qed.

Lemma replace_unfold p to s :
  p ≠ "" →
  replace p to s = match split_first p s with
                   | None => s
                   | Some (a, r) => a +:+ to +:+ replace p to r
                   end.
Proof.
  intros Hp. unfold replace. rewrite split_unfold by done.
  destruct (split_first p s) as [[a r]|]; [|done]. by rewrite join_cons by by apply split_not_nil.
Qed.


(** Two splits of a text, one before the other. *)
Lemma str_app_split (a b c d : string) :
  a +:+ b = c +:+ d → String.length a ≤ String.length c → ∃ x, c = a +:+ x ∧ b = x +:+ d.
Proof.
  revert c. induction a as [|y a IH]; intros c.
  { intros Hs _. by exists c. }
  destruct c as [|z c]; cbn [String.length]; [lia|]. rewrite !str_app_cons. intros [= -> Hs] Hl.
  destruct (IH c Hs) as (x & -> & ->); [lia|]. by exists x.
Qed.

(** The only match, but for those that overlap it. *)
Lemma only_match p s a r :
  split_first p s = Some (a, r) ∧ split_first p r = None ↔
  s = a +:+ p +:+ r ∧
  ∀ a' r', s = a' +:+ p +:+ r' → String.length a ≤ String.length a' < String.length a + String.length p.
Proof.
  rewrite split_first_Some, split_first_None. split.
  - intros [[Hs Hmin] Hno]. split; [done|]. intros a' r' Hs'. split; [by eapply Hmin|].
    destruct (decide (String.length a + String.length p ≤ String.length a')) as [Hl|]; [|lia]. exfalso.
    rewrite Hs, <- str_app_assoc in Hs'.
    apply str_app_split in Hs' as (x & -> & Hr).
    + by apply (Hno x r').
    + rewrite str_app_length. lia.
  - intros [Hs Hall]. split; [split; [done|]; intros a' r' Ha; apply Hall in Ha; lia|].
    intros x r' Hr. rewrite Hr in Hs.
    assert (s = (a +:+ p +:+ x) +:+ p +:+ r') as H by by rewrite Hs, !str_app_assoc.
    apply Hall in H. rewrite !str_app_length in H. lia.
Qed.

End text_proofs.
