(* ===== verification/ToolPath.v ===== *)
(** The file system the standard tools work on (src/crates/philo-tools-std), as
    [std::fs] and [std::path] show it on Unix.

    Module [tool_fs]: a file system is a map from absolute paths to files,
    directories and symbolic links; a path is looked up part by part, links are
    followed. Every access may fail, though not by reporting a missing file
    ([FsFaults]). A path that names what it denotes - absolute, without links
    and dots - is a list of names, which are UTF-8. A call on the file system is
    atomic, and nothing else changes the file system between two calls of a tool.

    How the standard tools resolve a path inside their root
    (src/crates/philo-tools-std/src/path.rs).

    Module [tool_path]: [std::path] on Unix as lists of components, the lexical
    check and the check on the canonical paths. *)

From S2P Require Import Prelude RustStr JsonlCodec ToolText.
From Stdlib Require Import Ascii.
Import jsonl_codec tool_text.

Module tool_fs.

(** The kinds of [std::io::Error] that occur, with their [Debug]. *)
Inductive ErrorKind : Type :=
| NotFound | PermissionDenied | AlreadyExists | InvalidInput | NotADirectory | IsADirectory
| FilesystemLoop | Other.
#[export] Instance ErrorKind_eq_dec : EqDecision ErrorKind.
Proof. solve_decision. Defined.

Definition debug_kind (k : ErrorKind) : string :=
  match k with
  | NotFound => "NotFound"
  | PermissionDenied => "PermissionDenied"
  | AlreadyExists => "AlreadyExists"
  | InvalidInput => "InvalidInput"
  | NotADirectory => "NotADirectory"
  | IsADirectory => "IsADirectory"
  | FilesystemLoop => "FilesystemLoop"
  | Other => "Other"
  end.

Inductive Node : Type :=
| FileNode (bytes : string)
| DirNode
| LinkNode (target : string).
#[export] Instance Node_eq_dec : EqDecision Node.
Proof. solve_decision. Defined.

(** The names from the root to a file. *)
Abbreviation names := (list string).
Abbreviation Nodes := (gmap (list string) Node).

Record World : Type := {
  nodes : Nodes;
  cwd : names;
  looks : nat
}.
Definition set_nodes (v : Nodes) (w : World) : World :=
  {| nodes := v; cwd := cwd w; looks := looks w |}.
Definition looked (w : World) : World :=
  {| nodes := nodes w; cwd := cwd w; looks := S (looks w) |}.

(** Which accesses fail, how, and how much of a failing write is written. *)
Class FsFaults : Type := {
  fault : nat → option ErrorKind;
  written : nat → nat;
  fault_not_missing n : fault n ≠ Some NotFound
}.
(** The order in which a directory is read. *)
Class ReadOrder : Type := {
  read_order : list string → list string;
  read_order_perm l : Permutation (read_order l) l
}.

(** ** Paths *)

Definition SLASH : string := "/".
Definition is_absolute (s : string) : bool := String.prefix SLASH s.

(** The parts between the slashes, as the kernel walks them. *)
Record RawPath : Type := { from_root : bool; parts : list string }.
Definition raw_path (s : string) : RawPath :=
  if str_is_empty s then {| from_root := false; parts := [] |}
  else {| from_root := is_absolute s; parts := split SLASH s |}.
Definition of_names (l : names) : RawPath := {| from_root := true; parts := l |}.

(** [links] bounds how many links are followed (40 on Linux). With [create], the
    last name may be missing. *)
Fixpoint walk (links : nat) (create : bool) (m : Nodes) : names → list string → ErrorKind + names :=
  fix go (at_ : names) (todo : list string) {struct todo} : ErrorKind + names :=
    match todo with
    | [] => inr at_
    | part :: todo =>
        match m !! at_ with
        | Some DirNode =>
            if (part == "") || (part == ".") then go at_ todo
            else if part == ".." then go (removelast at_) todo
            else
              match m !! (at_ ++ [part]) with
              | None => if create && is_nil todo then inr (at_ ++ [part]) else inl NotFound
              | Some (LinkNode target) =>
                  match links with
                  | O => inl FilesystemLoop
                  | S links =>
                      walk links create m (if is_absolute target then [] else at_)
                        (split SLASH target ++ todo)
                  end
              | Some _ => go (at_ ++ [part]) todo
              end
        | Some _ => inl NotADirectory
        | None => inl NotFound
        end
    end.

Definition MAX_LINKS : nat := 40.

Definition lookup_path (create : bool) (p : RawPath) (w : World) : ErrorKind + names :=
  if negb (from_root p) && is_nil (parts p) then inl NotFound
  else walk MAX_LINKS create (nodes w) (if from_root p then [] else cwd w) (parts p).

(** ** Accesses *)
Section accesses.
Context {faults : FsFaults} {order : ReadOrder}.

Abbreviation fs := (io World ErrorKind).

Definition get {E} : io World E World := λ w, (w, Ok w).
Definition modify (f : Nodes → Nodes) : fs unit := λ w, (set_nodes (f (nodes w)) w, Ok tt).
Definition access : fs unit := λ w,
  (looked w, match fault (looks w) with Some k => Err k | None => Ok tt end).
(** The result of a call, as a value. *)
Definition catch {E A} (m : fs A) : io World E (ErrorKind + A) := λ w,
  match m w with
  | (w, Ok a) => (w, Ok (inr a))
  | (w, Err e) => (w, Ok (inl e))
  | (w, Panic) => (w, Panic)
  end.
Definition of_sum {E A} (r : E + A) : io World E A := λ w,
  (w, match r with inr a => Ok a | inl e => Err e end).

(** A path looked up, links followed. *)
Definition locate (create : bool) (p : RawPath) : fs names :=
  access ;;
  let! w := get in
  of_sum (lookup_path create p w).

(** [Path::canonicalize]. *)
Definition canonicalize (p : RawPath) : fs names := locate false p.

(** [std::env::current_dir], for a relative path. *)
Definition current_dir : fs names := access ;; let! w := get in ret (cwd w).

(** [Path::is_dir], which takes a failure for a no. *)
Definition is_dir {E} (p : names) : io World E bool :=
  let! r := catch (locate false (of_names p)) in
  let! w := get in
  ret (match r with inr at_ => bool_decide (nodes w !! at_ = Some DirNode) | inl _ => false end).

(** [std::fs::metadata(..).ok().map(|meta| meta.len())]; a directory has the
    length its file system gives it, here none. *)
Definition metadata_len {E} (p : names) : io World E (option nat) :=
  let! r := catch (locate false (of_names p)) in
  let! w := get in
  ret (match r with
       | inr at_ =>
           match nodes w !! at_ with
           | Some (FileNode bytes) => Some (String.length bytes)
           | Some _ => Some 0
           | None => None
           end
       | inl _ => None
       end).

(** [std::fs::read]. *)
Definition read (p : names) : fs string :=
  let! at_ := locate false (of_names p) in
  access ;;
  let! w := get in
  match nodes w !! at_ with
  | Some (FileNode bytes) => ret bytes
  | Some _ => fail IsADirectory
  | None => fail NotFound
  end.

(** [std::fs::write]: the file is created or cut to nothing, then written; a
    link at its end is followed, also to a file that is missing. *)
Definition write (p : names) (bytes : string) : fs unit :=
  let! at_ := locate true (of_names p) in
  let! w := get in
  match nodes w !! at_ with
  | Some DirNode => fail IsADirectory
  | _ =>
      modify <[at_ := FileNode ""]> ;;
      let! w := get in
      if str_is_empty bytes then ret tt
      else
        let! r := catch access in
        match r with
        | inr _ => modify <[at_ := FileNode bytes]>
        | inl e =>
            modify <[at_ := FileNode (String.substring 0 (written (looks w)) bytes)]> ;; fail e
        end
  end.

(** [mkdir]. *)
Definition create_dir (p : names) : fs unit :=
  match last p with
  | None => access ;; fail AlreadyExists
  | Some name =>
      let! parent := locate false (of_names (removelast p)) in
      let! w := get in
      match nodes w !! parent with
      | Some DirNode =>
          match nodes w !! (parent ++ [name]) with
          | Some _ => fail AlreadyExists
          | None => modify <[parent ++ [name] := DirNode]>
          end
      | _ => fail NotADirectory
      end
  end.

(** [std::fs::create_dir_all], on the names from the last to the first. *)
Fixpoint create_dir_all_rev (r : list string) : fs unit :=
  let p := reverse r in
  let! first := catch (create_dir p) in
  match first with
  | inr _ => ret tt
  | inl e =>
      let again :=
        let! second := catch (create_dir p) in
        match second with
        | inr _ => ret tt
        | inl e =>
            let! present := is_dir p in
            if present then ret tt else fail e
        end in
      if e == NotFound then
        match r with
        | [] => fail Other
        | _ :: parent => create_dir_all_rev parent ;; again
        end
      else
        let! present := is_dir p in
        if present then ret tt else fail e
  end.
Definition create_dir_all (p : names) : fs unit := create_dir_all_rev (reverse p).

(** The names in a directory. *)
Definition child_of (parent path : names) : option string :=
  match last path with
  | Some name => if bool_decide (path = parent ++ [name]) then Some name else None
  | None => None
  end.
Definition children (parent : names) (m : Nodes) : list string :=
  filter_map (λ e, child_of parent e.1) (map_to_list m).

(** [std::fs::read_dir]: the names in the order the file system gives them. *)
Definition read_dir (p : names) : fs (list string) :=
  let! at_ := locate false (of_names p) in
  let! w := get in
  match nodes w !! at_ with
  | Some DirNode => ret (read_order (children at_ (nodes w)))
  | Some _ => fail NotADirectory
  | None => fail NotFound
  end.

(** [std::fs::symlink_metadata] and the entry's [file_type] and [metadata]: the
    node itself, a link not followed. *)
Definition symlink_metadata (p : names) : fs Node :=
  match last p with
  | None => access ;; ret DirNode
  | Some name =>
      let! parent := locate false (of_names (removelast p)) in
      let! w := get in
      match nodes w !! (parent ++ [name]) with
      | Some node => ret node
      | None => fail NotFound
      end
  end.
End accesses.

End tool_fs.

Import jsonl_codec tool_text tool_fs.

Module tool_path.

(** ** [std::path] *)

Inductive Component : Type :=
| RootDir
| CurDir
| ParentDir
| Normal (name : string).
#[export] Instance Component_eq_dec : EqDecision Component.
Proof. solve_decision. Defined.

(** A path is the list of its components. *)
Abbreviation PathBuf := (list Component).

Definition component_of (part : string) : option Component :=
  if (part == "") || (part == ".") then None
  else if part == ".." then Some ParentDir
  else Some (Normal part).

(** [Path::components]: a dot counts only where a relative path starts. *)
Definition components (s : string) : PathBuf :=
  let ps := split SLASH s in
  (if is_absolute s then [RootDir]
   else match ps with "." :: _ => [CurDir] | _ => [] end)
  ++ filter_map component_of ps.

(** [Path::join] as strings. *)
Definition is_some {A} (o : option A) : bool := match o with Some _ => true | None => false end.
Definition join_str (base path : string) : string :=
  if is_absolute path then path
  else if str_is_empty base || is_some (strip_last "/" base) then base +:+ path
  else base +:+ SLASH +:+ path.

(** [PathBuf::push] of a component, and [PathBuf::pop]. *)
Definition push (c : Component) (p : PathBuf) : PathBuf :=
  match c with RootDir => [RootDir] | _ => p ++ [c] end.

(** [Path::file_name] and [Path::parent]. *)
Definition file_name (p : PathBuf) : option string :=
  match last p with Some (Normal name) => Some name | _ => None end.
Definition parent (p : PathBuf) : option PathBuf :=
  match last p with
  | None | Some RootDir => None
  | Some _ => Some (removelast p)
  end.

Definition part_of (c : Component) : option string :=
  match c with
  | RootDir => None
  | CurDir => Some "."
  | ParentDir => Some ".."
  | Normal name => Some name
  end.
Definition raw_components (p : PathBuf) : RawPath :=
  {| from_root := match p with RootDir :: _ => true | _ => false end;
     parts := filter_map part_of p |}.

(** [Path::starts_with]. *)
Definition starts_with {A} `{EqDecision A} (path base : list A) : bool :=
  bool_decide (take (length base) path = base).

(** ** path.rs *)

Inductive PathError : Type :=
| OutsideRoot
| PathNotFound
| PathIo (kind : ErrorKind).

(** One component: what is left of the path, and how many names it has. *)
Definition normalize_step (acc : option (PathBuf * nat)) (c : Component) : option (PathBuf * nat) :=
  '(normalized, depth) ← acc;
  match c with
  | RootDir => Some (push c normalized, depth)
  | CurDir => Some (normalized, depth)
  | ParentDir =>
      match depth with O => None | S depth => Some (removelast normalized, depth) end
  | Normal _ => Some (push c normalized, S depth)
  end.
Definition normalize_lexically (p : PathBuf) : option PathBuf :=
  fst <$> foldl normalize_step (Some ([], 0)) p.

Definition lexically_inside (root target : PathBuf) : bool :=
  match normalize_lexically root, normalize_lexically target with
  | Some root, Some target => starts_with target root
  | _, _ => false
  end.

Section resolve.
Context {faults : FsFaults}.

(** [std::path::absolute]. *)
Definition absolute (s : string) : io World ErrorKind PathBuf :=
  if str_is_empty s then fail InvalidInput
  else
    let cs := components s in
    if is_absolute s then ret cs
    else
      let! here := current_dir in
      ret (RootDir :: (Normal <$> here) ++ match cs with CurDir :: cs => cs | cs => cs end).

(** The loop over the ancestors of a missing path, which is kept reversed: the
    canonical path of the deepest one that exists, and the names behind it. *)
Fixpoint deepest_existing (rev_path : PathBuf) (suffix : list string)
    : io World PathError (names * list string) :=
  let! r := catch (canonicalize (raw_components (reverse rev_path))) in
  match r with
  | inr canonical => ret (canonical, suffix)
  | inl NotFound =>
      match rev_path with
      | Normal name :: rev_parent => deepest_existing rev_parent (suffix ++ [name])
      | _ => fail OutsideRoot
      end
  | inl e => fail (PathIo e)
  end.

Definition resolve_in_root (root requested : string) (must_exist : bool)
    : io World PathError names :=
  let joined := join_str root requested in
  let! absolute_root := with_err PathIo (absolute root) in
  let! absolute_target := with_err PathIo (absolute joined) in
  if negb (lexically_inside absolute_root absolute_target) then fail OutsideRoot
  else
    let! canonical_root := with_err PathIo (canonicalize (raw_path root)) in
    let! r := catch (canonicalize (raw_path joined)) in
    match r with
    | inr canonical => if starts_with canonical canonical_root then ret canonical else fail OutsideRoot
    | inl NotFound =>
        if must_exist then fail PathNotFound
        else
          let cs := components joined in
          match file_name cs, parent cs with
          | Some name, Some existing =>
              let! found := deepest_existing (reverse existing) [name] in
              let '(canonical_ancestor, suffix) := found in
              if negb (starts_with canonical_ancestor canonical_root) then fail OutsideRoot
              else ret (canonical_ancestor ++ reverse suffix)
          | _, _ => fail OutsideRoot
          end
    | inl e => fail (PathIo e)
    end.
End resolve.

End tool_path.
