(* ===== verification/ToolPathProofs.v ===== *)
(** The file system under the standard tools' paths
    (src/crates/philo-tools-std/src/path.rs).

    Module [path_proofs]: the shape of a file system, what a walk through it
    ends in, and what the steps of [resolve_in_root] do.

    A path that is to be created (src/crates/philo-tools-std/src/path.rs).

    Module [tool_resolve]: where no link dangles, the names that [resolve_in_root]
    puts behind the deepest existing ancestor are free, so a file system call on
    the resolved path meets no link on its way. *)

From S2P Require Import Prelude RustStr JsonlCodec ToolText ToolPath.
Import jsonl_codec tool_text tool_fs tool_path.

Module path_proofs.

(** ** File systems *)

Definition proper (part : string) : Prop := part ≠ "" ∧ part ≠ "." ∧ part ≠ "..".

(** A node that is not a link. *)
Definition plain (node : Node) : Prop := match node with LinkNode _ => False | _ => True end.
Definition plain_at (m : Nodes) (p : names) : Prop := ∃ node, m !! p = Some node ∧ plain node.
(** The path, should it exist, is no link. *)
Definition no_link_at (m : Nodes) (p : names) : Prop :=
  match m !! p with Some node => plain node | None => True end.

(** A tree: a root directory, and everything else in a directory, under a name. *)
Record tree (m : Nodes) : Prop := {
  tree_root : m !! [] = Some DirNode;
  tree_parent p x node : m !! (p ++ [x]) = Some node → m !! p = Some DirNode;
  tree_names p node : m !! p = Some node → Forall proper p
}.
Record world_ok (w : World) : Prop := {
  ok_tree : tree (nodes w);
  ok_cwd : nodes w !! cwd w = Some DirNode
}.

Lemma tree_prefix m p q node : tree m → m !! (p ++ q) = Some node → q ≠ [] → m !! p = Some DirNode.
Proof.
  intros Ht. revert node. induction q as [|x q IH] using rev_ind; intros node Hn Hq; [done|].
  rewrite app_assoc in Hn. apply tree_parent in Hn; [|done].
  destruct q as [|y q]; [by rewrite app_nil_r in Hn|]. by eapply IH.
Qed.

Lemma tree_removelast m p node : tree m → m !! p = Some node → m !! removelast p = Some DirNode ∨ p = [].
Proof.
  intros Ht. destruct p as [|x p _] using rev_ind; [by right|]. rewrite removelast_last.
  intros Hn. left. by eapply tree_parent.
Qed.

Lemma snoc_app {A} (l k : list A) x : l ++ x :: k = (l ++ [x]) ++ k.
Proof. by rewrite <- app_assoc. Qed.

Lemma tree_root_plain m : tree m → plain_at m [].
Proof. intros Ht. exists DirNode. split; [by apply tree_root|done]. Qed.

Lemma dir_plain m p : m !! p = Some DirNode → plain_at m p.
Proof. intros H. by exists DirNode. Qed.

(** ** Walks *)

Lemma walk_cons links create m at_ part todo :
  walk links create m at_ (part :: todo) =
  match m !! at_ with
  | Some DirNode =>
      if (part == "") || (part == ".") then walk links create m at_ todo
      else if part == ".." then walk links create m (removelast at_) todo
      else
        match m !! (at_ ++ [part]) with
        | None => if create && is_nil todo then inr (at_ ++ [part]) else inl NotFound
        | Some (LinkNode target) =>
            match links with
            | O => inl FilesystemLoop
            | S links =>
                walk links create m (if is_absolute target then [] else at_)
                  (split SLASH target ++ todo)
            end
        | Some _ => walk links create m (at_ ++ [part]) todo
        end
  | Some _ => inl NotADirectory
  | None => inl NotFound
  end.
Proof. by destruct links. Qed.

Lemma walk_nil links create m at_ : walk links create m at_ [] = inr at_.
Proof. by destruct links. Qed.

Lemma part_cases part :
  part = "" ∨ part = "." ∨ part = ".." ∨
  proper part ∧ ((part == "") || (part == ".")) = false ∧ (part == "..") = false.
Proof. unfold proper. repeat case_bool_decide; naive_solver. Qed.

(** Where a walk ends: at something that is no link, or at a name that is free
    in a directory. *)
Lemma walk_end links create m at_ todo p :
  tree m → plain_at m at_ → walk links create m at_ todo = inr p →
  plain_at m p ∨
  (create = true ∧ m !! p = None ∧ ∃ q x, p = q ++ [x] ∧ m !! q = Some DirNode ∧ proper x).
Proof.
  intros Ht. revert at_ todo. induction links as [links IHl] using lt_wf_ind.
  intros at_ todo. revert at_. induction todo as [|part todo IH]; intros at_ Hat.
  { rewrite walk_nil. intros [= <-]. by left. }
  rewrite walk_cons. destruct Hat as (node & Hnode & Hplain). rewrite Hnode.
  destruct node as [bytes| |target]; [done| |done].
  destruct (part_cases part) as [->|[->|[->|(Hp & -> & ->)]]]; cbn [orb bool_decide_eq_true].
  - apply IH. by apply dir_plain.
  - apply IH. by apply dir_plain.
  - apply IH. destruct (tree_removelast m at_ DirNode Ht Hnode) as [H| ->]; by apply dir_plain.
  - destruct (m !! (at_ ++ [part])) as [[bytes| |target]|] eqn:Hnext.
    + apply IH. by eexists.
    + apply IH. by eexists.
    + destruct links as [|links]; [done|]. intros Hw. eapply IHl; [|..|exact Hw]; [lia|].
      destruct (is_absolute target); [by apply tree_root_plain|by apply dir_plain].
    + destruct create, todo as [|y todo]; cbn [andb is_nil]; try done.
      intros [= <-]. right. split; [done|]. split; [done|]. by exists at_, part.
Qed.

(** A path of names along which no link stands is walked to itself. *)
Lemma walk_names links create m at_ todo p :
  tree m → Forall proper todo → plain_at m at_ →
  (∀ q r, todo = q ++ r → no_link_at m (at_ ++ q)) →
  walk links create m at_ todo = inr p → p = at_ ++ todo.
Proof.
  intros Ht Hpr. revert at_. induction Hpr as [|part todo Hp Hpr IH]; intros at_ Hat Hlinks.
  { rewrite walk_nil, app_nil_r. by intros [= <-]. }
  rewrite walk_cons. destruct Hat as (node & Hnode & Hplain). rewrite Hnode.
  destruct node as [bytes| |target]; [done| |done].
  destruct (part_cases part) as [->|[->|[->|(_ & -> & ->)]]]; try by destruct Hp as (? & ? & ?).
  cbn [orb]. pose proof (Hlinks [part] todo eq_refl) as Hl. unfold no_link_at in Hl.
  assert (∀ q r, todo = q ++ r → no_link_at m ((at_ ++ [part]) ++ q)) as Hl'.
  { intros q r ->. rewrite <- app_assoc. by eapply (Hlinks (part :: q)). }
  destruct (m !! (at_ ++ [part])) as [[bytes| |target]|] eqn:Hnext; [..|done|].
  - intros Hw. rewrite (snoc_app). apply IH; [by eexists|done..].
  - intros Hw. rewrite (snoc_app). apply IH; [by eexists|done..].
  - destruct create, todo as [|y todo]; cbn [andb is_nil]; try done. by intros [= <-].
Qed.

(** ... and reaches what is there. *)
Lemma walk_there links create m at_ todo :
  tree m → plain_at m (at_ ++ todo) → walk links create m at_ todo = inr (at_ ++ todo).
Proof.
  intros Ht. revert at_. induction todo as [|part todo IH]; intros at_ Hend.
  { by rewrite walk_nil, app_nil_r. }
  rewrite walk_cons. destruct Hend as (node & Hnode & Hplain).
  assert (m !! at_ = Some DirNode) as -> by by eapply tree_prefix.
  pose proof (tree_names m Ht _ _ Hnode) as Hpr. apply Forall_app in Hpr as [_ Hpr].
  apply Forall_cons in Hpr as [(H1 & H2 & H3) _].
  rewrite !bool_decide_false by done. cbn [orb].
  rewrite (snoc_app at_ todo) in Hnode |- *.
  destruct (decide (todo = [])) as [->|Hne].
  - rewrite app_nil_r in Hnode |- *. rewrite Hnode. destruct node; [by rewrite walk_nil..|done].
  - assert (m !! (at_ ++ [part]) = Some DirNode) as -> by by eapply tree_prefix.
    apply IH. by eexists.
Qed.

(** ** Accesses *)
Section accesses.
Context {faults : FsFaults} {order : ReadOrder}.

Definition same_files (w w' : World) : Prop := nodes w' = nodes w ∧ cwd w' = cwd w.

Lemma same_files_refl w : same_files w w.
Proof. done. Qed.
Lemma same_files_trans w1 w2 w3 : same_files w1 w2 → same_files w2 w3 → same_files w1 w3.
Proof. intros [H1 H2] [H3 H4]. split; congruence. Qed.
Lemma same_files_ok w w' : same_files w w' → world_ok w → world_ok w'.
Proof. intros [H1 H2] [Ht Hc]. split; rewrite H1; [done|by rewrite H2]. Qed.
Lemma same_files_lookup w w' create p :
  same_files w w' → lookup_path create p w' = lookup_path create p w.
Proof. intros [H1 H2]. unfold lookup_path. by rewrite H1, H2. Qed.

Lemma bind_run {W E A B} (m : io W E A) (k : A → io W E B) w w' r :
  m w = (w', r) →
  bind m k w = match r with Ok a => k a w' | Err e => (w', Err e) | Panic => (w', Panic) end.
Proof. unfold bind. intros ->. by destruct r. Qed.

(** A path that is looked up; a failing access never says that it is missing. *)
Lemma locate_run create p w w' r :
  locate create p w = (w', r) →
  same_files w w' ∧
  match r with
  | Ok at_ => lookup_path create p w = inr at_
  | Err NotFound => lookup_path create p w = inl NotFound
  | Err _ => True
  | Panic => False
  end.
Proof.
  unfold locate, access, bind, get, of_sum. pose proof (fault_not_missing (looks w)) as Hf.
  destruct (fault (looks w)) as [k|].
  - intros [= <- <-]. split; [done|]. by destruct k.
  - change (lookup_path create p (looked w)) with (lookup_path create p w).
    destruct (lookup_path create p w) as [k|at_] eqn:Hl; intros [= <- <-]; split; try done.
    by destruct k.
Qed.

Lemma catch_run {E A} (m : io World ErrorKind A) w w' (r : outcome E (ErrorKind + A)) :
  catch m w = (w', r) →
  (∃ a, m w = (w', Ok a) ∧ r = Ok (inr a)) ∨ (∃ e, m w = (w', Err e) ∧ r = Ok (inl e)) ∨
  (m w = (w', Panic) ∧ r = Panic).
Proof. unfold catch. destruct (m w) as [w1 [a|e|]]; intros [= <- <-]; eauto. Qed.

Lemma lookup_end create p w at_ :
  world_ok w → lookup_path create p w = inr at_ →
  plain_at (nodes w) at_ ∨
  (create = true ∧ nodes w !! at_ = None ∧
   ∃ q x, at_ = q ++ [x] ∧ nodes w !! q = Some DirNode ∧ proper x).
Proof.
  intros [Ht Hc]. unfold lookup_path. destruct (negb (from_root p) && is_nil (parts p)); [done|].
  apply walk_end; [done|]. destruct (from_root p); [by apply tree_root_plain|by apply dir_plain].
Qed.

Lemma lookup_plain p w at_ :
  world_ok w → lookup_path false p w = inr at_ → plain_at (nodes w) at_.
Proof. intros Hw H. by destruct (lookup_end _ _ _ _ Hw H) as [?|[? _]]. Qed.

(** ** [resolve_in_root] *)

Lemma starts_with_prefix {A} `{EqDecision A} (path base : list A) :
  starts_with path base = true → base `prefix_of` path.
Proof.
  unfold starts_with. rewrite bool_decide_eq_true. intros H. exists (drop (length base) path).
  rewrite <- H at 1. by rewrite take_drop.
Qed.

Lemma absolute_run s w w' r : absolute s w = (w', r) → same_files w w' ∧ r ≠ Panic.
Proof.
  unfold absolute. destruct (str_is_empty s); [by intros [= <- <-]|].
  destruct (is_absolute s); [by intros [= <- <-]|].
  unfold current_dir, access, bind, get. destruct (fault (looks w)); by intros [= <- <-].
Qed.

Lemma component_proper part name : component_of part = Some (Normal name) → proper name.
Proof.
  unfold component_of. destruct (part_cases part) as [->|[->|[->|(Hp & -> & ->)]]]; try done.
  by intros [= <-].
Qed.

Lemma components_proper s : Forall (λ c, ∀ name, c = Normal name → proper name) (components s).
Proof.
  unfold components. apply Forall_app. split.
  - destruct (is_absolute s); [by repeat constructor|].
    destruct (split SLASH s) as [|p l]; [constructor|].
    destruct (decide (p = ".")) as [->|Hne]; [by repeat constructor|].
    assert (match p with "." => [CurDir] | _ => [] end = []) as ->; [|constructor].
    destruct p as [|[[] [] [] [] [] [] [] []] [|]]; try done; by destruct Hne.
  - apply Forall_forall. intros c (part & Hin & Hc)%list_elem_of_omap name ->.
    by eapply component_proper.
Qed.

Lemma deepest_run rev_path suffix w w' r :
  Forall (λ c, ∀ name, c = Normal name → proper name) rev_path → Forall proper suffix →
  deepest_existing rev_path suffix w = (w', r) →
  same_files w w' ∧
  match r with
  | Ok (canonical, names) =>
      (∃ p, lookup_path false p w = inr canonical) ∧ Forall proper names ∧ suffix `prefix_of` names
  | Err _ => True
  | Panic => False
  end.
Proof.
  revert suffix w. induction rev_path as [|c rev_path IH]; intros suffix w Hr Hs;
    cbn [deepest_existing]; unfold canonicalize.
  all: unfold bind;
    match goal with |- context [catch ?m ?v] => destruct (catch (E := PathError) m v) as [w1 r1] eqn:Hcatch end;
    apply catch_run in Hcatch as [(a & Hl & ->)|[(e & Hl & ->)|[Hl ->]]];
    apply locate_run in Hl as [Hsame Hl]; try done; cbn beta iota; unfold ret, fail.
  2: intros [= <- <-]; split; [done|]; eauto.
  - destruct e; intros [= <- <-]; by split.
  - destruct e; try by intros [= <- <-].
    apply Forall_cons in Hr as [Hc Hr].
    destruct c as [| | |name]; try by intros [= <- <-].
    intros Hrest. apply IH in Hrest as [Hsame' Hrest].
    + split; [by eapply same_files_trans|]. destruct r as [[canonical l]|e|]; try done.
      destruct Hrest as ((p & Hp) & Hl' & Hpre). split_and!.
      * exists p. by rewrite <- (same_files_lookup _ _ _ _ Hsame).
      * done.
      * etrans; [|done]. by eexists.
    + done.
    + apply Forall_app. split; [done|]. repeat constructor; by apply Hc.
Qed.

End accesses.
End path_proofs.

Import jsonl_codec tool_text tool_fs tool_path path_proofs.

Module tool_resolve.

(** No link leads to something that is missing. *)
Definition no_dangling (m : Nodes) : Prop :=
  ∀ parent name target links, m !! (parent ++ [name]) = Some (LinkNode target) →
    walk links false m (if is_absolute target then [] else parent) (split SLASH target)
    ≠ inl NotFound.

(** No link stands on the way to a path. *)
Definition link_free (m : Nodes) (p : names) : Prop := ∀ q r, p = q ++ r → no_link_at m q.

(** ** Walks in two parts *)

Lemma walk_app links m at_ l k there :
  walk links false m at_ l = inr there →
  ∃ links', walk links false m at_ (l ++ k) = walk links' false m there k.
Proof.
  revert at_ l. induction links as [links IHl] using lt_wf_ind.
  intros at_ l. revert at_. induction l as [|part l IH]; intros at_.
  { rewrite walk_nil. intros [= <-]. by exists links. }
  cbn [app]. rewrite !walk_cons. destruct (m !! at_) as [[bytes| |target]|]; try done.
  destruct (_ || _); [apply IH|]. destruct (part == ".."); [apply IH|].
  destruct (m !! (at_ ++ [part])) as [[bytes| |target]|]; try done; [apply IH|apply IH|].
  destruct links as [|links]; [done|]. rewrite app_assoc. intros Hw. eapply IHl; [lia|done].
Qed.

Lemma walk_app_fails links m at_ l k :
  walk links false m at_ l = inl NotFound → walk links false m at_ (l ++ k) = inl NotFound.
Proof.
  revert at_ l. induction links as [links IHl] using lt_wf_ind.
  intros at_ l. revert at_. induction l as [|part l IH]; intros at_; [by rewrite walk_nil|].
  cbn [app]. rewrite !walk_cons. destruct (m !! at_) as [[bytes| |target]|]; try done.
  destruct (_ || _); [apply IH|]. destruct (part == ".."); [apply IH|].
  destruct (m !! (at_ ++ [part])) as [[bytes| |target]|]; try done; [apply IH|apply IH|].
  destruct links as [|links]; [done|]. rewrite app_assoc. intros Hw. eapply IHl; [lia|done].
Qed.

(** ** Parts without meaning *)

(** Some empty parts and dots left out. *)
Inductive thinned : list string → list string → Prop :=
| thin_nil : thinned [] []
| thin_skip x l k : x = "" ∨ x = "." → thinned l k → thinned (x :: l) k
| thin_keep x l k : thinned l k → thinned (x :: l) (x :: k).

Lemma thinned_refl l : thinned l l.
Proof. induction l as [|x l IH]; [constructor|by apply thin_keep]. Qed.

Lemma thinned_app a b c d : thinned a b → thinned c d → thinned (a ++ c) (b ++ d).
Proof. induction 1 as [|x l k Hx H IH|x l k H IH]; intros Hcd; cbn [app];
  [done|apply thin_skip; auto|apply thin_keep; auto]. Qed.

Lemma walk_thinned links m at_ l k :
  tree m → plain_at m at_ → thinned l k →
  walk links false m at_ l = inl NotFound → walk links false m at_ k = inl NotFound.
Proof.
  intros Ht. revert at_ l k. induction links as [links IHl] using lt_wf_ind.
  intros at_ l k Hat Hth. revert at_ Hat.
  induction Hth as [|x l k Hx Hth IH|x l k Hth IH]; intros at_ Hat; [by rewrite walk_nil|..];
    rewrite walk_cons; destruct Hat as (node & Hnode & Hp); rewrite Hnode.
  - destruct node as [bytes| |target]; [done| |done].
    assert ((x == "") || (x == ".") = true) as ->.
    { destruct Hx as [->| ->]; [by rewrite bool_decide_true|].
      rewrite (bool_decide_true ("." = ".")) by done. apply orb_true_r. }
    apply IH. by apply dir_plain.
  - rewrite walk_cons, Hnode. destruct node as [bytes| |target]; try done.
    destruct (_ || _); [apply IH; by apply dir_plain|].
    destruct (x == "..").
    { apply IH. destruct (tree_removelast m at_ DirNode Ht Hnode) as [H| ->]; by apply dir_plain. }
    destruct (m !! (at_ ++ [x])) as [[bytes| |target]|] eqn:Hn; try done.
    + apply IH. by eexists.
    + apply IH. by eexists.
    + destruct links as [|links]; [done|]. apply IHl; [lia|..].
      * destruct (is_absolute target); [by apply tree_root_plain|by apply dir_plain].
      * apply thinned_app; [apply thinned_refl|done].
Qed.

Lemma filter_map_cons {A B} (f : A → option B) x l :
  filter_map f (x :: l) = match f x with Some y => y :: filter_map f l | None => filter_map f l end.
Proof. unfold filter_map. cbn. by destruct (f x). Qed.

Lemma components_thinned l : thinned l (filter_map part_of (filter_map component_of l)).
Proof.
  induction l as [|x l IH]; [constructor|]. rewrite filter_map_cons. unfold component_of at 1.
  destruct (part_cases x) as [->|[->|[->|(Hp & -> & ->)]]].
  - apply thin_skip; [by left|done].
  - apply thin_skip; [by right|done].
  - rewrite bool_decide_false, bool_decide_false, bool_decide_true by done. cbn [orb].
    rewrite filter_map_cons. by apply thin_keep.
  - rewrite filter_map_cons. by apply thin_keep.
Qed.

Lemma relative_components l :
  match filter_map component_of l with RootDir :: _ => true | _ => false end = false.
Proof.
  induction l as [|x l IH]; [done|]. rewrite filter_map_cons. unfold component_of at 1.
  destruct (_ || _); [done|]. by destruct (x == "..").
Qed.

Lemma raw_components_path s :
  s ≠ "" →
  from_root (raw_components (components s)) = from_root (raw_path s) ∧
  thinned (parts (raw_path s)) (parts (raw_components (components s))).
Proof.
  intros Hs. unfold raw_path. apply str_is_empty_false in Hs. rewrite Hs.
  unfold raw_components, components. cbn [from_root parts].
  destruct (is_absolute s) eqn:Ha; cbn [app].
  - split; [done|]. rewrite filter_map_cons. cbn [part_of]. apply components_thinned.
  - destruct (split SLASH s) as [|x l] eqn:Hl; [by split; [|constructor]|].
    destruct (decide (x = ".")) as [->|Hne].
    + cbn [app]. split; [done|]. rewrite filter_map_cons. cbn [part_of]. apply thin_keep.
      rewrite filter_map_cons. apply components_thinned.
    + assert (match x with "." => [CurDir] | _ => [] end = []) as ->.
      { destruct x as [|[[] [] [] [] [] [] [] []] [|]]; try done; by destruct Hne. }
      cbn [app]. split; [apply relative_components|apply components_thinned].
Qed.

(** ** Names behind the deepest ancestor *)
Section resolve.
Context {faults : FsFaults}.

Definition missing (w : World) (p : PathBuf) : Prop :=
  lookup_path false (raw_components p) w = inl NotFound.

Lemma raw_components_snoc p name :
  raw_components (p ++ [Normal name]) =
  {| from_root := from_root (raw_components p); parts := parts (raw_components p) ++ [name] |}.
Proof.
  unfold raw_components, filter_map. cbn [from_root parts]. rewrite omap_app. cbn. f_equal.
  destruct p as [|[] p]; done.
Qed.

(** What is missing in a place that exists is not there, not even as a link. *)
Lemma missing_free w p name there :
  world_ok w → no_dangling (nodes w) → proper name →
  lookup_path false (raw_components p) w = inr there → missing w (p ++ [Normal name]) →
  nodes w !! (there ++ [name]) = None.
Proof.
  intros [Ht Hc] Hnd (Hp1 & Hp2 & Hp3). unfold missing. rewrite raw_components_snoc.
  unfold lookup_path. cbn [from_root parts].
  destruct (negb (from_root (raw_components p)) && is_nil (parts (raw_components p))); [done|].
  destruct (negb (from_root (raw_components p)) && is_nil (parts (raw_components p) ++ [name])) eqn:Hnil.
  { exfalso. apply andb_true_iff in Hnil as [_ Hnil%is_nil_true]. by destruct (parts (raw_components p)). }
  intros Hw. destruct (walk_app _ _ _ _ [name] _ Hw) as [links' ->].
  rewrite walk_cons, !bool_decide_false by done. cbn [orb].
  destruct (nodes w !! there) as [[bytes| |target]|] eqn:Hthere; try done.
  - destruct (nodes w !! (there ++ [name])) as [[bytes| |target]|] eqn:Hn; try done.
    + rewrite walk_nil. done.
    + rewrite walk_nil. done.
    + destruct links' as [|links']; [done|]. rewrite app_nil_r. intros Hm. by destruct (Hnd _ _ _ _ Hn Hm).
  - intros _. destruct (nodes w !! (there ++ [name])) eqn:Hn; [|done].
    eapply tree_parent in Hn; [|done]. congruence.
Qed.

Lemma components_missing w s :
  world_ok w → s ≠ "" → lookup_path false (raw_path s) w = inl NotFound → missing w (components s).
Proof.
  intros [Ht Hc] Hs. destruct (raw_components_path s Hs) as [Hr Hp]. unfold missing, lookup_path.
  rewrite Hr. destruct (negb (from_root (raw_path s)) && is_nil (parts (raw_components (components s)))); [done|].
  assert (negb (from_root (raw_path s)) && is_nil (parts (raw_path s)) = false) as ->.
  { unfold raw_path. apply str_is_empty_false in Hs. rewrite Hs. cbn [parts from_root].
    destruct (split SLASH s) eqn:Hsp; [|by rewrite andb_false_r].
    by destruct (text_proofs.split_not_nil SLASH s). }
  apply walk_thinned; [done| |done].
  destruct (from_root (raw_path s)); [by apply tree_root_plain|by apply dir_plain].
Qed.

Lemma deepest_missing rev_path suffix w w' canonical new :
  deepest_existing rev_path suffix w = (w', Ok (canonical, new)) →
  (∃ x, last suffix = Some x ∧ missing w (reverse rev_path ++ [Normal x])) →
  ∃ p x, last new = Some x ∧ lookup_path false (raw_components p) w = inr canonical ∧
    missing w (p ++ [Normal x]) ∧
    p ++ (Normal <$> reverse new) = reverse rev_path ++ (Normal <$> reverse suffix).
Proof.
  revert suffix w. induction rev_path as [|c rev_path IH]; intros suffix w;
    cbn [deepest_existing]; unfold canonicalize.
  all: unfold bind;
    match goal with |- context [catch ?m ?v] => destruct (catch (E := PathError) m v) as [w1 r1] eqn:Hcatch end;
    apply catch_run in Hcatch as [(a & Hl & ->)|[(e & Hl & ->)|[Hl ->]]];
    apply locate_run in Hl as [Hsame Hl]; try done; cbn beta iota; unfold ret, fail.
  - destruct e; done.
  - intros [= <- <- <-] (x & Hx & Hm). by exists (reverse (c :: rev_path)), x.
  - destruct e; try done. destruct c as [| | |name]; try done.
    intros Hrest _. apply IH in Hrest.
    + destruct Hrest as (p & x & Hx & Hp & Hm & Hc). exists p, x. split; [done|].
      unfold missing in *. rewrite !(same_files_lookup _ _ _ _ Hsame) in *. split_and!; [done..|].
      rewrite Hc, reverse_snoc, reverse_cons, <- app_assoc. done.
    + exists name. rewrite last_snoc. split; [done|]. unfold missing.
      rewrite (same_files_lookup _ _ _ _ Hsame). by rewrite reverse_cons in Hl.
Qed.

(** The names [new] are not [there], as far as looking them up tells. *)
Definition behind (w : World) (there new : names) : Prop :=
  match new with
  | [] => True
  | x :: _ => ∃ p, lookup_path false (raw_components p) w = inr there ∧ missing w (p ++ [Normal x])
  end.

(** A path that may be used: below [base], through what exists and is no link. *)
Record contained (w : World) (base p : names) (must_exist : bool) : Prop := {
  contained_below : base `prefix_of` p;
  contained_proper : Forall proper p;
  contained_there : ∃ there new, p = there ++ new ∧ base `prefix_of` there ∧
    plain_at (nodes w) there ∧ behind w there new ∧ (must_exist = true → new = [])
}.

Lemma plain_contained w base p must_exist :
  world_ok w → plain_at (nodes w) p → base `prefix_of` p → contained w base p must_exist.
Proof.
  intros [Ht _] Hp Hb. split; [done|..].
  - destruct Hp as (node & Hn & _). by eapply tree_names.
  - exists p, []. by rewrite app_nil_r.
Qed.

Lemma contained_new w base there new :
  world_ok w → plain_at (nodes w) there → base `prefix_of` there → Forall proper new →
  behind w there new → contained w base (there ++ new) false.
Proof.
  intros [Ht _] Hp Hb Hn Hbehind. split.
  - etrans; [done|]. by eexists.
  - apply Forall_app. split; [|done]. destruct Hp as (node & Hnode & _). by eapply tree_names.
  - by exists there, new.
Qed.

Lemma file_name_proper cs name :
  Forall (λ c, ∀ name, c = Normal name → proper name) cs → file_name cs = Some name → proper name.
Proof.
  intros Hcs. unfold file_name. destruct (last cs) as [[| | |n]|] eqn:Hl; try done. intros [= ->].
  apply last_Some_elem_of in Hl. eapply Forall_forall in Hcs; [|exact Hl]. by apply Hcs.
Qed.

Lemma parent_proper cs existing :
  Forall (λ c, ∀ name, c = Normal name → proper name) cs → parent cs = Some existing →
  Forall (λ c, ∀ name, c = Normal name → proper name) existing.
Proof.
  intros Hcs. unfold parent. destruct cs as [|c cs _] using rev_ind; [done|].
  rewrite last_snoc, removelast_last. apply Forall_app in Hcs as [Hcs _].
  destruct c; try done; by intros [= <-].
Qed.

Lemma file_name_parent cs name existing :
  file_name cs = Some name → parent cs = Some existing → existing ++ [Normal name] = cs.
Proof.
  unfold file_name, parent. destruct cs as [|c cs _] using rev_ind; [done|].
  rewrite last_snoc, removelast_last. destruct c; try done. by intros [= ->] [= ->].
Qed.

(** What a requested path is resolved to: the place it leads to, links followed,
    or names behind the place its deepest existing ancestor leads to. *)
Inductive lands (w : World) (base : names) (joined : string) (must_exist : bool) : names → Prop :=
| lands_there p :
    lookup_path false (raw_path joined) w = inr p → base `prefix_of` p →
    lands w base joined must_exist p
| lands_new place there x new :
    must_exist = false → lookup_path false (raw_path joined) w = inl NotFound →
    components joined = place ++ (Normal <$> x :: new) →
    lookup_path false (raw_components place) w = inr there → missing w (place ++ [Normal x]) →
    base `prefix_of` there → lands w base joined must_exist (there ++ x :: new).

Lemma lands_contained w base joined must_exist p :
  world_ok w → lands w base joined must_exist p → contained w base p must_exist.
Proof.
  intros Hw [q Hq Hb|place there x new -> _ Hc Ht Hm Hb].
  - apply plain_contained; [done|by eapply lookup_plain|done].
  - apply contained_new; [done|by eapply lookup_plain|done|..|by exists place].
    pose proof (components_proper joined) as Hcs. rewrite Hc in Hcs. apply Forall_app in Hcs as [_ Hcs].
    rewrite Forall_fmap in Hcs. eapply Forall_impl; [exact Hcs|]. intros n H. by apply (H n).
Qed.

(** Without dangling links the names behind the ancestor are free. *)
Lemma behind_free w there x new n :
  world_ok w → no_dangling (nodes w) → proper x → behind w there (x :: new) →
  nodes w !! (there ++ x :: n) = None.
Proof.
  intros Hw Hnd Hx (p & H1 & H2). pose proof (missing_free _ _ _ _ Hw Hnd Hx H1 H2) as Hfree.
  rewrite snoc_app. destruct n as [|y n]; [by rewrite app_nil_r|].
  destruct (nodes w !! ((there ++ [x]) ++ y :: n)) eqn:Hn; [|done].
  apply tree_prefix in Hn; [congruence|by destruct Hw|done].
Qed.

(** [resolve_in_root] changes no file, returns, and what it returns may be used. *)
Lemma resolve_lands root requested must_exist w w' r :
  world_ok w → resolve_in_root root requested must_exist w = (w', r) →
  same_files w w' ∧
  match r with
  | Ok p => ∃ base, lookup_path false (raw_path root) w = inr base ∧
      lands w base (join_str root requested) must_exist p
  | Err _ => True
  | Panic => False
  end.
Proof.
  intros Hw. unfold resolve_in_root, with_err, bind, fail, ret.
  destruct (absolute root w) as [w1 r1] eqn:H1. apply absolute_run in H1 as [S1 N1].
  destruct r1 as [aroot|e|]; cbn [map_err]; [|by intros [= <- <-]|done].
  destruct (absolute (join_str root requested) w1) as [w2 r2] eqn:H2. apply absolute_run in H2 as [S2 N2].
  assert (same_files w w2) as S12 by by eapply same_files_trans.
  destruct r2 as [atarget|e|]; cbn [map_err]; [|by intros [= <- <-]|done].
  destruct (lexically_inside aroot atarget); cbn [negb]; [|by intros [= <- <-]].
  destruct (canonicalize (raw_path root) w2) as [w3 r3] eqn:H3.
  apply locate_run in H3 as [S3 L3]. rewrite (same_files_lookup _ _ _ _ S12) in L3.
  assert (same_files w w3) as S13 by by eapply same_files_trans.
  destruct r3 as [base|e|]; cbn [map_err]; [|by intros [= <- <-]|done].
  destruct (catch (E := PathError) (canonicalize (raw_path (join_str root requested))) w3)
    as [w4 r4] eqn:H4.
  apply catch_run in H4 as [(a & H4 & ->)|[(e & H4 & ->)|[H4 ->]]];
    apply locate_run in H4 as [S4 L4]; [..|done];
    assert (same_files w w4) as S14 by by eapply same_files_trans.
  - destruct (starts_with a base) eqn:Hb; intros [= <- <-]; [|done]. split; [done|]. exists base.
    split; [done|]. rewrite (same_files_lookup _ _ _ _ S13) in L4.
    by apply lands_there, starts_with_prefix.
  - destruct e; try by intros [= <- <-].
    destruct must_exist; [by intros [= <- <-]|].
    pose proof (components_proper (join_str root requested)) as Hcs.
    destruct (file_name (components (join_str root requested))) as [name|] eqn:Hn; [|by intros [= <- <-]].
    destruct (parent (components (join_str root requested))) as [existing|] eqn:Hp; [|by intros [= <- <-]].
    destruct (deepest_existing (reverse existing) [name] w4) as [w5 r5] eqn:H5.
    pose proof H5 as Hmiss. apply deepest_run in H5 as [S5 L5].
    + assert (same_files w w5) as S15 by by eapply same_files_trans.
      destruct r5 as [[there new]|e|]; [|by intros [= <- <-]|done].
      destruct L5 as ((p & Lp) & Hnew & _). rewrite (same_files_lookup _ _ _ _ S14) in Lp.
      destruct (starts_with there base) eqn:Hb; cbn [negb]; intros [= <- <-]; [|done].
      split; [done|]. exists base. split; [done|]. rewrite (same_files_lookup _ _ _ _ S13) in L4.
      assert (existing ++ [Normal name] = components (join_str root requested)) as Hcomp
        by by eapply file_name_parent.
      apply deepest_missing in Hmiss.
      * destruct Hmiss as (q & x & Hx & Hq & Hm & Hc). apply last_Some in Hx as [more ->].
        unfold missing in *. rewrite !(same_files_lookup _ _ _ _ S14) in *.
        rewrite reverse_snoc in Hc |- *. rewrite reverse_involutive in Hc. cbn [app] in Hc |- *.
        eapply (lands_new _ _ _ _ q); [done|done| |done|done|by apply starts_with_prefix].
        rewrite <- Hcomp. symmetry. exact Hc.
      * exists name. split; [done|]. rewrite reverse_involutive, Hcomp.
        unfold missing. rewrite (same_files_lookup _ _ _ _ S14).
        apply components_missing; [done| |done]. intros He. by rewrite He in Hn.
    + rewrite reverse_Permutation. by eapply parent_proper.
    + repeat constructor; by eapply file_name_proper.
Qed.

Lemma resolve_run root requested must_exist w w' r :
  world_ok w → resolve_in_root root requested must_exist w = (w', r) →
  same_files w w' ∧
  match r with
  | Ok p => ∃ base, lookup_path false (raw_path root) w = inr base ∧ contained w base p must_exist
  | Err _ => True
  | Panic => False
  end.
Proof.
  intros Hw [Hs Hr]%resolve_lands; [|done]. split; [done|]. destruct r; [|done..].
  destruct Hr as (base & Hb & Hl). exists base. split; [done|]. by eapply lands_contained.
Qed.

(** Without dangling links a resolved path has no link on its way. *)
Lemma resolved_link_free w base p must_exist :
  world_ok w → no_dangling (nodes w) → contained w base p must_exist → link_free (nodes w) p.
Proof.
  intros Hw Hnd [_ Hp (there & new & -> & _ & (node & Hnode & Hplain) & Hb & _)] q r Hq.
  unfold no_link_at. destruct (nodes w !! q) as [n|] eqn:Hn; [|done].
  destruct (decide (r = [])) as [->|Hr].
  - rewrite app_nil_r in Hq. subst q. destruct new as [|x new].
    { rewrite app_nil_r in Hn. congruence. }
    exfalso. destruct Hb as (pp & H1 & H2). apply Forall_app in Hp as [_ [Hx _]%Forall_cons].
    pose proof (missing_free _ _ _ _ Hw Hnd Hx H1 H2) as Hfree.
    rewrite snoc_app in Hn. destruct new as [|y new]; [rewrite app_nil_r in Hn; congruence|].
    eapply tree_prefix in Hn; [congruence|by destruct Hw|done].
  - destruct (decide (length q ≤ length there)) as [Hl|Hl].
    + assert (there = q ++ drop (length q) there) as He.
      { rewrite <- (take_drop (length q) there) at 1. f_equal.
        apply (f_equal (take (length q))) in Hq. rewrite take_app_le in Hq by done.
        by rewrite Hq, take_app_length. }
      destruct (drop (length q) there) as [|y l] eqn:Hd.
      * rewrite app_nil_r in He. subst. congruence.
      * rewrite He in Hnode. eapply tree_prefix in Hnode; [|by destruct Hw|done].
        rewrite Hnode in Hn. by injection Hn as <-.
    + exfalso. assert (q = there ++ drop (length there) q) as He.
      { rewrite <- (take_drop (length there) q) at 1. f_equal.
        apply (f_equal (take (length there))) in Hq. rewrite take_app_length in Hq.
        rewrite take_app_le in Hq by lia. done. }
      destruct (drop (length there) q) as [|y l] eqn:Hd; [rewrite app_nil_r in He; subst; lia|].
      rewrite He, <- app_assoc in Hq. apply app_inv_head in Hq. cbn [app] in Hq. subst new.
      destruct Hb as (pp & H1 & H2). apply Forall_app in Hp as [_ [Hx _]%Forall_cons].
      pose proof (missing_free _ _ _ _ Hw Hnd Hx H1 H2) as Hfree.
      rewrite He, snoc_app in Hn. destruct l as [|z l]; [rewrite app_nil_r in Hn; congruence|].
      eapply tree_prefix in Hn; [congruence|by destruct Hw|done].
Qed.

End resolve.
End tool_resolve.
