(* ===== verification/ToolArgs.v ===== *)
(** The fields of a tool's arguments
    (src/crates/philo-tools-std/src/args.rs).

    Module [tool_args]: the scanner over the bytes of the JSON text. Its state
    [bytes, index] is the list of the bytes from [index] on. A loop has the
    bytes that are left as fuel; each turn of it consumes one.

    The scanner of a tool's arguments reads what JSON says
    (src/crates/philo-tools-std/src/args.rs).

    Module [args_proofs]: what a string literal denotes, the texts of values and
    of an object's members, and that a field is looked up in them. *)

From S2P Require Import Prelude RustStr Tools.
From Stdlib Require Import Ascii.
Import tools.

Module tool_args.

Abbreviation rest := (list ascii).

Inductive FieldError : Type := Missing | NotAString | NotANumber | NotABool | BadEscape.
#[export] Instance FieldError_eq_dec : EqDecision FieldError.
Proof. solve_decision. Defined.

Fixpoint string_of (l : rest) : string :=
  match l with [] => "" | b :: l => String b (string_of l) end.

(** ** Characters *)

Definition byte_of (n : Z) : ascii := ascii_of_N (Z.to_N n).

(** The UTF-8 encoding of a scalar value. *)
Definition encode_utf8 (p : Z) : string :=
  (if p <? 128 then String (byte_of p) ""
   else if p <? 2048 then
     String (byte_of (192 + Z.shiftr p 6)) (String (byte_of (128 + Z.land p 63)) "")
   else if p <? 65536 then
     String (byte_of (224 + Z.shiftr p 12))
       (String (byte_of (128 + Z.land (Z.shiftr p 6) 63)) (String (byte_of (128 + Z.land p 63)) ""))
   else
     String (byte_of (240 + Z.shiftr p 18))
       (String (byte_of (128 + Z.land (Z.shiftr p 12) 63))
         (String (byte_of (128 + Z.land (Z.shiftr p 6) 63)) (String (byte_of (128 + Z.land p 63)) ""))))%Z.

(** [char::from_u32], as the string of the character. *)
Definition char_from_u32 (p : Z) : option string :=
  if ((0 <=? p) && (p <? 55296) || (57344 <=? p) && (p <=? 1114111))%Z then Some (encode_utf8 p)
  else None.

Definition hex_digit (b : ascii) : option Z :=
  let n := byte_val b in
  (if (48 <=? n) && (n <=? 57) then Some (n - 48)
   else if (97 <=? n) && (n <=? 102) then Some (n - 87)
   else if (65 <=? n) && (n <=? 70) then Some (n - 55)
   else None)%Z.
Definition dec_digit (b : ascii) : option Z :=
  let n := byte_val b in (if (48 <=? n) && (n <=? 57) then Some (n - 48) else None)%Z.

(** The number of a text of digits, with the [+] that [from_str_radix] and
    [parse] allow in front. *)
Definition digits_value (radix : Z) (digit : ascii → option Z) (l : rest) : option Z :=
  foldl (λ acc b, acc ← acc; d ← digit b; Some (acc * radix + d)%Z) (Some 0%Z) l.
Definition strip_plus (l : rest) : rest :=
  match l with b :: _ :: _ => if b == "+"%char then tail l else l | _ => l end.
Definition from_str_radix (radix max : Z) (digit : ascii → option Z) (l : rest) : option Z :=
  let l := strip_plus l in
  if is_nil l then None
  else n ← digits_value radix digit l; if (n <=? max)%Z then Some n else None.

Definition utf8_width (b : ascii) : nat :=
  let n := byte_val b in
  if (n <=? 127)%Z then 1
  else if in_range 192 223 b then 2
  else if in_range 224 239 b then 3
  else 4.

(** ** [Scanner] *)

Definition skip_ws (s : rest) : rest := drop_while json.is_ascii_whitespace s.
Definition peek (s : rest) : option ascii := head (skip_ws s).
(** Where it left the input, and whether the byte was there. *)
Definition eat (expected : ascii) (s : rest) : rest * bool :=
  match skip_ws s with
  | b :: s' => if b == expected then (s', true) else (b :: s', false)
  | [] => ([], false)
  end.

Definition parse_hex4 (s : rest) : option Z * rest :=
  match s with
  | a :: b :: c :: d :: s' =>
      match from_utf8 (string_of [a; b; c; d]) with
      | None => (None, s)
      | Some _ =>
          match from_str_radix 16 u32_max hex_digit [a; b; c; d] with
          | Some value => (Some value, s')
          | None => (None, s)
          end
      end
  | _ => (None, s)
  end.

Definition parse_unicode_escape (s : rest) : option string * rest :=
  match parse_hex4 s with
  | (None, s) => (None, s)
  | (Some high, s) =>
      if ((55296 <=? high) && (high <=? 56319))%Z then
        match s with
        | x :: y :: s' =>
            if (x == json.BACKSLASH) && (y == "u"%char) then
              match parse_hex4 s' with
              | (None, s) => (None, s)
              | (Some low, s) =>
                  if ((56320 <=? low) && (low <=? 57343))%Z then
                    (char_from_u32 (65536 + Z.shiftl (high - 55296) 10 + (low - 56320)), s)
                  else (None, s)
              end
            else (None, s)
        | _ => (None, s)
        end
      else (char_from_u32 high, s)
  end.

Definition simple_escape (b : ascii) : option string :=
  if b == json.QUOTE then Some (String json.QUOTE "")
  else if b == json.BACKSLASH then Some (String json.BACKSLASH "")
  else if b == "/"%char then Some "/"
  else if b == "b"%char then Some (String "008" "")
  else if b == "f"%char then Some (String "012" "")
  else if b == "n"%char then Some (String "010" "")
  else if b == "r"%char then Some (String "013" "")
  else if b == "t"%char then Some (String "009" "")
  else None.

(** The loop of [parse_string], behind the opening quote: [None] when the text
    ends early, [inl] when an escape sequence is invalid. *)
Fixpoint string_loop (fuel : nat) (s : rest) (value : string) : option ((unit + string) * rest) :=
  match fuel with
  | O => None
  | S fuel =>
      match s with
      | [] => None
      | b :: s' =>
          if b == json.QUOTE then Some (inr value, s')
          else if b == json.BACKSLASH then
            match s' with
            | [] => None
            | escape :: s'' =>
                match simple_escape escape with
                | Some c => string_loop fuel s'' (value +:+ c)
                | None =>
                    if escape == "u"%char then
                      match parse_unicode_escape s'' with
                      | (Some c, s) => string_loop fuel s (value +:+ c)
                      | (None, s) => Some (inl tt, s)
                      end
                    else Some (inl tt, s'')
                end
            end
          else
            let width := utf8_width b in
            if bool_decide (width ≤ length s) then
              match from_utf8 (string_of (take width s)) with
              | Some text => string_loop fuel (drop width s) (value +:+ text)
              | None => None
              end
            else None
      end
  end.
Definition parse_string (s : rest) : option ((unit + string) * rest) :=
  let '(s, ok) := eat json.QUOTE s in if ok then string_loop (length s) s "" else None.

(** The loop of [skip_container]. *)
Fixpoint container_loop (fuel : nat) (open close : ascii) (depth : nat) (s : rest) : option rest :=
  match depth with
  | O => Some s
  | S outer =>
      match fuel with
      | O => None
      | S fuel =>
          match s with
          | [] => None
          | b :: s' =>
              if b == json.QUOTE then
                match parse_string s with
                | None => None
                | Some (_, s) => container_loop fuel open close depth s
                end
              else if b == open then container_loop fuel open close (S depth) s'
              else if b == close then container_loop fuel open close outer s'
              else container_loop fuel open close depth s'
          end
      end
  end.
Definition skip_container (open close : ascii) (s : rest) : option rest :=
  let '(s, ok) := eat open s in
  if ok then container_loop (length s) open close 1 s else None.

Definition ends_scalar (b : ascii) : bool :=
  (b == ","%char) || (b == "}"%char) || (b == "]"%char) || json.is_ascii_whitespace b.

(** [skip_value]: what is left, or [None] for [false]. *)
Definition skip_value (s : rest) : option rest :=
  match peek s with
  | None => None
  | Some b =>
      if b == json.QUOTE then snd <$> parse_string s
      else if b == "{"%char then skip_container "{" "}" s
      else if b == "["%char then skip_container "[" "]" s
      else Some (drop_while (λ b, negb (ends_scalar b)) (skip_ws s))
  end.

(** ** Fields *)

(** The loop of [extract_string]. *)
Fixpoint extract_loop (fuel : nat) (s : rest) (key : string) : outcome FieldError string :=
  match fuel with
  | O => Err Missing
  | S fuel =>
      match parse_string s with
      | None => Err Missing
      | Some (name, s) =>
          let '(s, colon) := eat ":" s in
          if negb colon then Err Missing
          else
            match name with
            | inl _ => Err BadEscape
            | inr name =>
                if name == key then
                  if bool_decide (peek s = Some json.QUOTE) then
                    match parse_string s with
                    | Some (inr value, _) => Ok value
                    | Some (inl _, _) => Err BadEscape
                    | None => Err NotAString
                    end
                  else Err NotAString
                else
                  match skip_value s with
                  | None => Err Missing
                  | Some s =>
                      let '(s, closed) := eat "}" s in
                      if closed then Err Missing
                      else
                        let '(s, comma) := eat "," s in
                        if comma then extract_loop fuel s key else Err Missing
                  end
            end
      end
  end.
Definition extract_string (json key : string) : outcome FieldError string :=
  let '(s, open) := eat "{" (bytes_of json) in
  if negb open then Err Missing
  else
    let '(s, closed) := eat "}" s in
    if closed then Err Missing else extract_loop (length s) s key.

Definition required_string (json key : string) : outcome FieldError string := extract_string json key.
Definition optional_string (json key : string) : outcome FieldError (option string) :=
  match extract_string json key with
  | Ok value => Ok (Some value)
  | Err Missing => Ok None
  | Err error => Err error
  | Panic => Panic
  end.

Fixpoint raw_loop (fuel : nat) (s : rest) (key : string) : option string :=
  match fuel with
  | O => None
  | S fuel =>
      match parse_string s with
      | Some (inr name, s) =>
          let '(s, colon) := eat ":" s in
          if negb colon then None
          else if name == key then
            let start := skip_ws s in
            match skip_value start with
            | None => None
            | Some behind =>
                raw ← from_utf8 (string_of (take (length start - length behind) start));
                Some (trim raw)
            end
          else
            match skip_value s with
            | None => None
            | Some s =>
                let '(s, closed) := eat "}" s in
                if closed then None
                else
                  let '(s, comma) := eat "," s in
                  if comma then raw_loop fuel s key else None
            end
      | _ => None
      end
  end.
Definition raw_value (json key : string) : option string :=
  let '(s, open) := eat "{" (bytes_of json) in
  if negb open then None
  else
    let '(s, closed) := eat "}" s in
    if closed then None else raw_loop (length s) s key.

Definition optional_u64 (json key : string) : outcome FieldError (option Z) :=
  match raw_value json key with
  | None => Ok None
  | Some raw =>
      match from_str_radix 10 u64_max dec_digit (bytes_of raw) with
      | Some n => Ok (Some n)
      | None => Err NotANumber
      end
  end.
Definition optional_bool (json key : string) : outcome FieldError (option bool) :=
  match raw_value json key with
  | None => Ok None
  | Some raw =>
      if raw == "true" then Ok (Some true)
      else if raw == "false" then Ok (Some false)
      else Err NotABool
  end.

End tool_args.

Import tools json tool_args.
#[local] Arguments is_ascii_whitespace : simpl never.

Module args_proofs.

(** ** The grammar *)

Definition blank (w : rest) : Prop := Forall (λ b, is_ascii_whitespace b = true) w.

(** One character of a text, but not a quote or a backslash. *)
Definition utf8_char (c : string) : Prop :=
  valid_utf8 c = true ∧ length (chars c) = 1 ∧
  c ≠ String QUOTE "" ∧ c ≠ String BACKSLASH "".

(** Four hexadecimal digits and their value. *)
Definition hex_quad (h : rest) (p : Z) : Prop := length h = 4 ∧ digits_value 16 hex_digit h = Some p.

(** What the inside of a string literal denotes. *)
Inductive denotes : rest → string → Prop :=
| den_nil : denotes [] ""
| den_char c l s : utf8_char c → denotes l s → denotes (bytes_of c ++ l) (c +:+ s)
| den_escape e c l s :
    simple_escape e = Some c → denotes l s → denotes (BACKSLASH :: e :: l) (c +:+ s)
| den_unicode h p c l s :
    hex_quad h p → char_from_u32 p = Some c → denotes l s →
    denotes (BACKSLASH :: "u"%char :: h ++ l) (c +:+ s)
| den_pair h high h' low c l s :
    hex_quad h high → (55296 ≤ high ≤ 56319)%Z → hex_quad h' low → (56320 ≤ low ≤ 57343)%Z →
    char_from_u32 (65536 + Z.shiftl (high - 55296) 10 + (low - 56320)) = Some c → denotes l s →
    denotes (BACKSLASH :: "u"%char :: h ++ BACKSLASH :: "u"%char :: h' ++ l) (c +:+ s).

Definition brackets : rest := ["{"%char; "}"%char; "["%char; "]"%char].

(** A text whose strings are closed and whose brackets match. *)
Inductive balanced : rest → Prop :=
| bal_nil : balanced []
| bal_byte b t : b ≠ QUOTE → b ∉ brackets → balanced t → balanced (b :: t)
| bal_string body v t :
    denotes body v → balanced t → balanced (QUOTE :: body ++ QUOTE :: t)
| bal_object t t' : balanced t → balanced t' → balanced ("{"%char :: t ++ "}"%char :: t')
| bal_array t t' : balanced t → balanced t' → balanced ("["%char :: t ++ "]"%char :: t').

Definition starts_value (b : ascii) : Prop := b ≠ QUOTE ∧ b ≠ "{"%char ∧ b ≠ "["%char.

(** The text of a value, and what it denotes when it is a string. *)
Inductive value_text : rest → option string → Prop :=
| val_string body v : denotes body v → value_text (QUOTE :: body ++ [QUOTE]) (Some v)
| val_object t : balanced t → value_text ("{"%char :: t ++ ["}"%char]) None
| val_array t : balanced t → value_text ("["%char :: t ++ ["]"%char]) None
| val_scalar b t :
    starts_value b → Forall (λ b, ends_scalar b = false) (b :: t) → value_text (b :: t) None.

(** The members between the braces, with their keys and string values. *)
Inductive members : rest → list (string * option string) → Prop :=
| mem_one w1 body k w2 w3 v o w4 :
    blank w1 → denotes body k → blank w2 → blank w3 → value_text v o → blank w4 →
    members (w1 ++ QUOTE :: body ++ QUOTE :: w2 ++ ":"%char :: w3 ++ v ++ w4) [(k, o)]
| mem_more w1 body k w2 w3 v o w4 ms fields :
    blank w1 → denotes body k → blank w2 → blank w3 → value_text v o → blank w4 →
    members ms fields →
    members (w1 ++ QUOTE :: body ++ QUOTE :: w2 ++ ":"%char :: w3 ++ v ++ w4 ++ ","%char :: ms)
      ((k, o) :: fields).

(** An object, with blanks around it. *)
Inductive object_text : string → list (string * option string) → Prop :=
| obj_empty text w0 w1 tail :
    blank w0 → blank w1 → bytes_of text = w0 ++ "{"%char :: w1 ++ "}"%char :: tail →
    object_text text []
| obj_members text w0 ms fields tail :
    blank w0 → members ms fields → bytes_of text = w0 ++ "{"%char :: ms ++ "}"%char :: tail →
    object_text text fields.

(** The first field with a name. *)
Definition field (key : string) (fields : list (string * option string)) : option (option string) :=
  find_map (λ f, if f.1 == key then Some f.2 else None) fields.

(** ** Bytes *)

Lemma eat_there b w s : is_ascii_whitespace b = false → blank w → eat b (w ++ b :: s) = (s, true).
Proof.
  intros Hb Hw. unfold eat, skip_ws. induction Hw as [|x w Hx _ IH]; cbn [app drop_while].
  - rewrite Hb. by rewrite bool_decide_true.
  - by rewrite Hx.
Qed.

Lemma skip_ws_here b w s : is_ascii_whitespace b = false → blank w → skip_ws (w ++ b :: s) = b :: s.
Proof.
  intros Hb Hw. unfold skip_ws. induction Hw as [|x w Hx _ IH]; cbn [app drop_while].
  - by rewrite Hb.
  - by rewrite Hx.
Qed.

Lemma eat_other b c w s :
  is_ascii_whitespace c = false → c ≠ b → blank w → eat b (w ++ c :: s) = (c :: s, false).
Proof. intros Hc Hne Hw. unfold eat. rewrite skip_ws_here by done. by rewrite bool_decide_false. Qed.

Lemma string_of_bytes s : string_of (bytes_of s) = s.
Proof. induction s as [|b s IH]; [done|]. simpl. by rewrite IH. Qed.
Lemma bytes_of_length s : length (bytes_of s) = String.length s.
Proof. induction s as [|b s IH]; [done|]. simpl. by rewrite IH. Qed.

(** ** One character *)

Lemma in_range_spec lo hi b : in_range lo hi b = true ↔ (lo ≤ byte_val b ≤ hi)%Z.
Proof. unfold in_range. rewrite andb_true_iff, !Z.leb_le. done. Qed.

Lemma continuation_range b : is_continuation b = in_range 128 191 b.
Proof. by destruct b as [[] [] [] [] [] [] [] []]. Qed.

Lemma valid_starts s : valid_utf8 s = true → starts_char s.
Proof.
  destruct s as [|a s1]; [done|]. simpl. unfold is_continuation, in_range.
  intros H. destruct (Z.eqb_spec (Z.land (byte_val a) 192) 128) as [Ha|]; [|done]. exfalso.
  assert (128 ≤ byte_val a ≤ 191)%Z as [? ?].
  { apply in_range_spec. rewrite <- continuation_range. unfold is_continuation. by rewrite Ha. }
  repeat match type of H with
  | context [(?x <=? byte_val a)%Z] => rewrite (proj2 (Z.leb_gt x (byte_val a))) in H by lia
  | context [(byte_val a <=? ?x)%Z] => rewrite (proj2 (Z.leb_gt (byte_val a) x)) in H by lia
  end.
  destruct s1 as [|b [|c [|d s4]]]; rewrite ?andb_false_r in H; cbn [andb orb] in H; done.
Qed.

Lemma one_char c rest_ :
  char_shape c → starts_char rest_ → length (chars (c +:+ rest_)) = 1 → rest_ = "".
Proof.
  intros Hc Hr. rewrite chars_app_char; [|done|intros b s' ->; exact Hr]. simpl.
  intros [= H]. apply nil_length_inv, chars_nil in H. done.
Qed.

(** The width that the scanner takes from the first byte is the width. *)
Lemma utf8_char_width c :
  valid_utf8 c = true → length (chars c) = 1 →
  ∃ b c', c = String b c' ∧ utf8_width b = String.length c.
Proof.
  destruct c as [|a s1]; [done|]. intros Hv Hl. exists a, s1. split; [done|]. revert Hv.
  cbn [valid_utf8]. unfold utf8_width. destruct (in_range 0 127 a) eqn:H1.
  { intros Hv%valid_starts. apply in_range_spec in H1.
    rewrite (proj2 (Z.leb_le _ _)) by lia.
    by rewrite (one_char (String a "") s1 eq_refl Hv Hl). }
  assert (¬ (byte_val a ≤ 127)%Z) as Ha.
  { intros ?. assert (in_range 0 127 a = true); [|congruence]. apply in_range_spec.
    unfold byte_val in *. lia. }
  rewrite (proj2 (Z.leb_gt _ _)) by lia.
  destruct s1 as [|b s2]; [done|].
  destruct (in_range 194 223 a && is_continuation b) eqn:H2.
  { apply andb_true_iff in H2 as [H2%in_range_spec Hb]. intros Hv%valid_starts.
    rewrite (proj2 (in_range_spec 192 223 a)) by lia.
    rewrite (one_char (String a (String b "")) s2); [done|simpl; by rewrite Hb|done|done]. }
  destruct s2 as [|d s3]; [done|].
  match goal with |- (if ?x then _ else _) = true → _ => destruct x eqn:H3 end.
  { apply andb_true_iff in H3 as [H3 Hd]. intros Hv%valid_starts.
    assert (in_range 128 191 b = true ∧ 224 ≤ byte_val a ≤ 239)%Z as [Hb Hr].
    { rewrite in_range_spec. rewrite continuation_range in H3.
      rewrite !orb_true_iff, !andb_true_iff, !orb_true_iff, !in_range_spec in H3. lia. }
    assert (in_range 192 223 a = false) as ->
      by (apply not_true_iff_false; rewrite in_range_spec; lia).
    rewrite (proj2 (in_range_spec 224 239 a)) by lia.
    rewrite (one_char (String a (String b (String d ""))) s3); [done|simpl; by rewrite continuation_range, Hb, Hd|done|done]. }
  destruct s3 as [|e s4]; [done|].
  intros [[[H4 Hd]%andb_true_iff He]%andb_true_iff Hv%valid_starts]%andb_true_iff.
  assert (in_range 128 191 b = true ∧ 240 ≤ byte_val a)%Z as [Hb Hr].
  { rewrite in_range_spec. rewrite continuation_range in H4. rewrite !orb_true_iff, !andb_true_iff, !in_range_spec in H4. lia. }
  assert (in_range 192 223 a = false) as -> by (apply not_true_iff_false; rewrite in_range_spec; lia).
  assert (in_range 224 239 a = false) as -> by (apply not_true_iff_false; rewrite in_range_spec; lia).
  rewrite (one_char (String a (String b (String d (String e "")))) s4);
    [done|simpl; by rewrite continuation_range, Hb, Hd, He|done|done].
Qed.

(** ** String literals *)
#[local] Arguments from_utf8 : simpl never.
#[local] Arguments utf8_width : simpl never.
#[local] Arguments char_from_u32 : simpl never.
#[local] Arguments simple_escape : simpl never.
#[local] Arguments parse_unicode_escape : simpl never.
#[local] Arguments from_str_radix : simpl never.

Lemma hex_digit_range b d : hex_digit b = Some d → (0 ≤ d ≤ 15)%Z ∧ b ≠ "+"%char ∧ in_range 0 127 b = true.
Proof.
  destruct b as [[] [] [] [] [] [] [] []]; vm_compute; try done;
    intros [= <-]; split_and!; try done; intros ?; discriminate.
Qed.

Lemma hex_quad_bytes h p :
  hex_quad h p → ∃ a b c d, h = [a; b; c; d] ∧ (0 ≤ p ≤ 65535)%Z ∧ a ≠ "+"%char ∧
    valid_utf8 (string_of h) = true.
Proof.
  intros [Hl Hv]. destruct h as [|a [|b [|c [|d [|]]]]]; try done. exists a, b, c, d. split; [done|].
  unfold digits_value in Hv. cbn [foldl mbind option_bind] in Hv.
  destruct (hex_digit a) as [x|] eqn:Ha; [|done]. cbn [mbind option_bind] in Hv.
  destruct (hex_digit b) as [y|] eqn:Hb; [|done]. cbn [mbind option_bind] in Hv.
  destruct (hex_digit c) as [z|] eqn:Hc; [|done]. cbn [mbind option_bind] in Hv.
  destruct (hex_digit d) as [u|] eqn:Hd; [|done]. cbn [mbind option_bind] in Hv.
  apply hex_digit_range in Ha as (? & ? & Ha), Hb as (? & ? & Hb), Hc as (? & ? & Hc), Hd as (? & ? & Hd).
  simplify_eq. split_and!; [lia|lia|done|]. cbn [string_of valid_utf8]. by rewrite Ha, Hb, Hc, Hd.
Qed.

Lemma parse_hex4_quad h p s : hex_quad h p → parse_hex4 (h ++ s) = (Some p, s).
Proof.
  intros Hq. pose proof Hq as [_ Hv].
  apply hex_quad_bytes in Hq as (a & b & c & d & -> & Hp & Ha & Hutf). cbn [app parse_hex4].
  unfold from_utf8. rewrite Hutf. unfold from_str_radix.
  cbn [strip_plus]. rewrite (bool_decide_false (a = "+"%char)) by done.
  cbn [is_nil]. rewrite Hv. cbn [mbind option_bind].
  by rewrite (proj2 (Z.leb_le p u32_max)) by (unfold u32_max; lia).
Qed.

Lemma parse_unicode_one h p c s :
  hex_quad h p → char_from_u32 p = Some c → parse_unicode_escape (h ++ s) = (Some c, s).
Proof.
  intros Hq Hc. unfold parse_unicode_escape. rewrite (parse_hex4_quad h p) by done.
  destruct ((55296 <=? p) && (p <=? 56319))%Z eqn:Hr; [|by rewrite Hc]. exfalso.
  apply andb_true_iff in Hr as [H1%Z.leb_le H2%Z.leb_le]. unfold char_from_u32 in Hc.
  rewrite (proj2 (Z.ltb_ge p 55296)), (proj2 (Z.leb_gt 57344 p)) in Hc by lia.
  by rewrite andb_false_r in Hc.
Qed.

Lemma parse_unicode_pair h high h' low c s :
  hex_quad h high → (55296 ≤ high ≤ 56319)%Z → hex_quad h' low → (56320 ≤ low ≤ 57343)%Z →
  char_from_u32 (65536 + Z.shiftl (high - 55296) 10 + (low - 56320)) = Some c →
  parse_unicode_escape (h ++ BACKSLASH :: "u"%char :: h' ++ s) = (Some c, s).
Proof.
  intros Hq H1 Hq' H2 Hc. unfold parse_unicode_escape. rewrite (parse_hex4_quad h high) by done.
  rewrite (proj2 (Z.leb_le 55296 high)), (proj2 (Z.leb_le high 56319)) by lia. cbn [andb].
  rewrite !bool_decide_true by done. cbn [andb]. rewrite (parse_hex4_quad h' low) by done.
  rewrite (proj2 (Z.leb_le 56320 low)), (proj2 (Z.leb_le low 57343)) by lia. cbn [andb]. by rewrite Hc.
Qed.

(** A literal is read to its end, as what it denotes. *)
Lemma string_loop_denotes body v s fuel acc :
  denotes body v → length body < fuel →
  string_loop fuel (body ++ QUOTE :: s) acc = Some (inr (acc +:+ v), s).
Proof.
  intros Hd. revert fuel acc. induction Hd as
    [|c l v Hc Hd IH|e c l v He Hd IH|h p c l v Hq Hc Hd IH|h high h' low c l v Hq H1 Hq' H2 Hc Hd IH];
    intros [|fuel] acc Hf; try lia; cbn [app string_loop].
  - rewrite bool_decide_true by done. by rewrite str_app_nil_r.
  - destruct Hc as (Hv & Hl & Hnq & Hnb). destruct (utf8_char_width c Hv Hl) as (b & c' & -> & Hw).
    cbn [bytes_of app]. assert (b ≠ QUOTE ∧ b ≠ BACKSLASH) as [H1 H2].
    { split; intros ->; cbn in Hw.
      - destruct c' as [|x c']; [done|]. by vm_compute in Hw.
      - destruct c' as [|x c']; [done|]. by vm_compute in Hw. }
    rewrite !bool_decide_false by done.
    assert (b :: (bytes_of c' ++ l) ++ QUOTE :: s = bytes_of (String b c') ++ l ++ QUOTE :: s) as ->.
    { cbn. by rewrite <- app_assoc. }
    rewrite Hw, <- (bytes_of_length (String b c')).
    rewrite bool_decide_true by (rewrite length_app; lia).
    rewrite take_app_length, drop_app_length, string_of_bytes. unfold from_utf8. rewrite Hv.
    rewrite IH; [by rewrite str_app_assoc|]. cbn in Hf. rewrite length_app in Hf. lia.
  - rewrite bool_decide_false by done. rewrite bool_decide_true by done. rewrite He.
    rewrite IH; [by rewrite str_app_assoc|]. cbn in Hf. lia.
  - rewrite bool_decide_false by done. rewrite bool_decide_true by done.
    change (simple_escape "u") with (@None string). rewrite bool_decide_true by done.
    rewrite <- app_assoc, (parse_unicode_one h p c) by done.
    rewrite IH; [by rewrite str_app_assoc|]. cbn in Hf. rewrite length_app in Hf. lia.
  - rewrite bool_decide_false by done. rewrite bool_decide_true by done.
    change (simple_escape "u") with (@None string). rewrite bool_decide_true by done.
    rewrite <- app_assoc. cbn [app]. rewrite <- app_assoc.
    rewrite (parse_unicode_pair h high h' low c) by done.
    rewrite IH; [by rewrite str_app_assoc|]. cbn in Hf. rewrite !length_app in Hf. cbn in Hf.
    rewrite length_app in Hf. lia.
Qed.

Lemma parse_string_denotes w body v s :
  blank w → denotes body v →
  parse_string (w ++ QUOTE :: body ++ QUOTE :: s) = Some (inr v, s).
Proof.
  intros Hw Hd. unfold parse_string. rewrite (eat_there QUOTE w) by done.
  rewrite (string_loop_denotes body v); [by rewrite str_app_nil|done|]. rewrite length_app. cbn. lia.
Qed.

(** ** Values *)

Ltac flat := repeat (progress (rewrite <- ?app_assoc; cbn [app])).
Ltac lens := repeat (progress (cbn [app length] in *; rewrite ?length_app in * )); lia.

(** A balanced text does not close the container around it. *)
Lemma container_balanced open close fuel depth t s r :
  (open, close) ∈ [("{"%char, "}"%char); ("["%char, "]"%char)] →
  balanced t → length (t ++ s) ≤ fuel →
  (∀ fuel', length s ≤ fuel' → container_loop fuel' open close (S depth) s = r) →
  container_loop fuel open close (S depth) (t ++ s) = r.
Proof.
  intros Hoc Hb. revert fuel depth s r. induction Hb as
    [|b t Hq Hb Ht IH|body v t Hd Ht IH|t t' Ht IH Ht' IH'|t t' Ht IH Ht' IH'];
    intros fuel depth s r Hf Hr; [by apply Hr|..];
    (destruct fuel as [|fuel]; [cbn in Hf; lia|]); cbn [app container_loop].
  - unfold brackets in Hb. rewrite bool_decide_false by done.
    assert (b ≠ open ∧ b ≠ close) as [H1 H2] by (clear -Hoc Hb; set_solver).
    rewrite !bool_decide_false by done. apply IH; [lens|done].
  - rewrite bool_decide_true by done. rewrite <- app_assoc. cbn [app].
    pose proof (parse_string_denotes [] body v (t ++ s) (Forall_nil_2 _) Hd) as Hp. cbn [app] in Hp.
    rewrite Hp. apply IH; [lens|done].
  - rewrite bool_decide_false by done. rewrite <- app_assoc. cbn [app].
    apply elem_of_cons in Hoc as [[= -> ->]|[= -> ->]%list_elem_of_singleton].
    + rewrite bool_decide_true by done. apply IH; [lens|].
      intros [|fuel'] Hf'; cbn in Hf'; [lia|]. cbn [container_loop].
      rewrite !bool_decide_false by done. rewrite bool_decide_true by done. apply IH'; [lens|done].
    + rewrite !bool_decide_false by done. apply IH; [lens|].
      intros [|fuel'] Hf'; cbn in Hf'; [lia|]. cbn [container_loop].
      rewrite !bool_decide_false by done. apply IH'; [lens|done].
  - rewrite bool_decide_false by done. rewrite <- app_assoc. cbn [app].
    apply elem_of_cons in Hoc as [[= -> ->]|[= -> ->]%list_elem_of_singleton].
    + rewrite !bool_decide_false by done. apply IH; [lens|].
      intros [|fuel'] Hf'; cbn in Hf'; [lia|]. cbn [container_loop].
      rewrite !bool_decide_false by done. apply IH'; [lens|done].
    + rewrite bool_decide_true by done. apply IH; [lens|].
      intros [|fuel'] Hf'; cbn in Hf'; [lia|]. cbn [container_loop].
      rewrite !bool_decide_false by done. rewrite bool_decide_true by done. apply IH'; [lens|done].
Qed.

Lemma skip_container_balanced open close w t s :
  (open, close) ∈ [("{"%char, "}"%char); ("["%char, "]"%char)] → blank w → balanced t →
  skip_container open close (w ++ open :: t ++ close :: s) = Some s.
Proof.
  intros Hoc Hw Ht. unfold skip_container.
  assert (is_ascii_whitespace open = false ∧ open ≠ QUOTE ∧ close ≠ QUOTE ∧ open ≠ close)
    as (H1 & H2 & H3 & H4).
  { apply elem_of_cons in Hoc as [[= -> ->]|[= -> ->]%list_elem_of_singleton]; by vm_compute. }
  rewrite (eat_there open w) by done. apply container_balanced; [done..|].
  intros [|fuel] Hf; cbn in Hf; [lia|]. cbn [container_loop].
  rewrite !bool_decide_false by done. rewrite bool_decide_true by done. by destruct fuel.
Qed.

(** What may follow a value. *)
Definition ends (s : rest) : Prop :=
  match s with [] => True | b :: _ => ends_scalar b = true end.

Lemma drop_scalar t s :
  Forall (λ b, ends_scalar b = false) t → ends s →
  drop_while (λ b, negb (ends_scalar b)) (t ++ s) = s.
Proof.
  intros Ht Hs. induction Ht as [|b t Hb _ IH]; cbn [app drop_while].
  - destruct s as [|b s]; [done|]. cbn. by rewrite Hs.
  - by rewrite Hb.
Qed.

Lemma ends_scalar_blank b : ends_scalar b = false → is_ascii_whitespace b = false.
Proof. unfold ends_scalar. rewrite !orb_false_iff. naive_solver. Qed.

Lemma skip_value_text w v o s :
  blank w → value_text v o → ends s → skip_value (w ++ v ++ s) = Some s.
Proof.
  intros Hw Hv Hs. unfold skip_value, peek. destruct Hv as [body v Hd|t Ht|t Ht|b t Hb Ht]; cbn [app].
  - rewrite <- app_assoc. cbn [app]. rewrite skip_ws_here by done. cbn [head].
    rewrite bool_decide_true by done. by rewrite (parse_string_denotes w body v).
  - rewrite <- app_assoc. cbn [app]. rewrite skip_ws_here by done. cbn [head].
    rewrite bool_decide_false by done. rewrite bool_decide_true by done.
    apply skip_container_balanced; [set_solver|done..].
  - rewrite <- app_assoc. cbn [app]. rewrite skip_ws_here by done. cbn [head].
    rewrite !bool_decide_false by done. rewrite bool_decide_true by done.
    apply skip_container_balanced; [set_solver|done..].
  - pose proof Ht as [Hb0%ends_scalar_blank _]%Forall_cons.
    rewrite skip_ws_here by done. cbn [head]. destruct Hb as (H1 & H2 & H3).
    rewrite !bool_decide_false by done. f_equal. by apply (drop_scalar (b :: t)).
Qed.

(** ** Fields *)

Definition field_result (o : option (option string)) : outcome FieldError string :=
  match o with
  | Some (Some value) => Ok value
  | Some None => Err NotAString
  | None => Err Missing
  end.

Lemma ends_blank w b s : blank w → ends_scalar b = true → ends (w ++ b :: s).
Proof.
  intros Hw Hb. destruct Hw as [|x w Hx _]; [done|]. cbn. unfold ends_scalar. rewrite Hx.
  by rewrite orb_true_r.
Qed.

(** The value behind a colon, when the key is the one looked for. *)
Lemma found_value w v o s :
  blank w → value_text v o →
  (if bool_decide (peek (w ++ v ++ s) = Some QUOTE) then
     match parse_string (w ++ v ++ s) with
     | Some (inr value, _) => Ok value
     | Some (inl _, _) => Err BadEscape
     | None => Err NotAString
     end
   else Err NotAString) = field_result (Some o).
Proof.
  intros Hw Hv. unfold peek. destruct Hv as [body v Hd|t Ht|t Ht|b t Hb Ht]; cbn [app];
    rewrite <- ?app_assoc; cbn [app].
  - rewrite skip_ws_here by done. cbn [head]. rewrite bool_decide_true by done.
    by rewrite (parse_string_denotes w body v).
  - rewrite skip_ws_here by done. by rewrite bool_decide_false.
  - rewrite skip_ws_here by done. by rewrite bool_decide_false.
  - pose proof Ht as [Hb0%ends_scalar_blank _]%Forall_cons. rewrite skip_ws_here by done.
    cbn [head]. destruct Hb as (H1 & _). rewrite bool_decide_false; [done|]. congruence.
Qed.

Lemma extract_members ms fields fuel tail key :
  members ms fields → length fields ≤ fuel →
  extract_loop fuel (ms ++ "}"%char :: tail) key = field_result (field key fields).
Proof.
  intros Hm. revert fuel. unfold field. induction Hm as
    [w1 body k w2 w3 v o w4 Hw1 Hd Hw2 Hw3 Hv Hw4|w1 body k w2 w3 v o w4 ms fields Hw1 Hd Hw2 Hw3 Hv Hw4 Hm IH];
    intros [|fuel] Hf; cbn in Hf; try lia; cbn [extract_loop find_map].
  all: flat;
    rewrite (parse_string_denotes w1 body k) by done;
    rewrite (eat_there ":" w2) by done; cbn [negb fst snd].
  all: case_bool_decide as Hk; [by apply found_value|].
  - rewrite (skip_value_text w3 v o) by (done || by apply ends_blank).
    by rewrite (eat_there "}" w4).
  - rewrite (skip_value_text w3 v o) by (done || by apply ends_blank).
    rewrite (eat_other "}" "," w4) by done.
    pose proof (eat_there "," [] (ms ++ "}"%char :: tail) eq_refl (Forall_nil_2 _)) as Hc.
    cbn [app] in Hc. rewrite Hc. apply IH. lia.
Qed.

Lemma members_length ms fields : members ms fields → length fields ≤ length ms.
Proof. induction 1; lens. Qed.

Lemma members_start ms fields s : members ms fields → eat "}" (ms ++ s) = (skip_ws (ms ++ s), false).
Proof.
  intros [w1 body k w2 w3 v o w4 Hw1|w1 body k w2 w3 v o w4 ms' fields' Hw1];
    flat; by rewrite (eat_other "}" QUOTE w1), skip_ws_here.
Qed.

Lemma skip_ws_idem s : skip_ws (skip_ws s) = skip_ws s.
Proof.
  unfold skip_ws. induction s as [|b s IH]; [done|]. cbn. destruct (is_ascii_whitespace b) eqn:Hb; [done|].
  cbn. by rewrite Hb.
Qed.

Lemma eat_skip b s : eat b (skip_ws s) = eat b s.
Proof. unfold eat. by rewrite skip_ws_idem. Qed.

Lemma extract_loop_skip fuel s key : extract_loop fuel (skip_ws s) key = extract_loop fuel s key.
Proof. destruct fuel as [|fuel]; [done|]. cbn [extract_loop]. unfold parse_string. by rewrite eat_skip. Qed.

Lemma skip_ws_length s : length (skip_ws s) ≤ length s.
Proof.
  unfold skip_ws. induction s as [|b s IH]; [done|]. cbn. destruct (is_ascii_whitespace b); cbn; lia.
Qed.

(** A first member is behind the blanks. *)
Lemma members_skip ms fields s : members ms fields → length fields ≤ length (skip_ws (ms ++ s)).
Proof.
  intros [w1 body k w2 w3 v o w4 Hw1|w1 body k w2 w3 v o w4 ms' fields' Hw1 ? ? ? ? ? Hm%members_length];
    flat; rewrite skip_ws_here by done; lens.
Qed.

(** The first field of that name, as its text says. *)
Lemma extract_object text fields key :
  object_text text fields → extract_string text key = field_result (field key fields).
Proof.
  intros [text' w0 w1 tail Hw0 Hw1 Ht|text' w0 ms fields' tail Hw0 Hm Ht]; unfold extract_string;
    rewrite Ht, (eat_there "{" w0) by done; cbn [negb].
  - by rewrite (eat_there "}" w1).
  - rewrite (members_start ms fields') by done. rewrite extract_loop_skip.
    apply extract_members; [done|]. by apply members_skip.
Qed.

End args_proofs.
