(* ===== verification/ToolFiles.v ===== *)
(** The tools that read and change files (src/crates/philo-tools-std/src):
    helpers.rs, read.rs, write.rs, edit.rs and list.rs.

    Module [std_tools]: a tool's run is a computation on the file system of
    ToolPath.v; an early return of an error result is the [Err] of the monad.
    Whether a cancel has been asked for is a question to the [CancelSignal], the
    same kind of moment as an access. The lock of [with_file_mutation] orders the
    calls on one path; a call runs as a whole. [usize] has 64 bits. The crate
    [globset] is the class [Globs], Unicode's lower case [Lowercase]. *)

From S2P Require Import Prelude RustStr Tools JsonlCodec ReplayStore ToolText ToolPath.
From S2P Require Import ToolArgs.
From Stdlib Require Import Ascii.
Import tools jsonl_codec tool_text tool_fs tool_path tool_args.

Module std_tools.

(** ** lib.rs, helpers.rs *)

Definition INVALID_ARGUMENTS := "invalid_arguments".
Definition OUTSIDE_ROOT := "outside_root".
Definition NOT_FOUND := "not_found".
Definition NOT_A_FILE := "not_a_file".
Definition NOT_A_DIRECTORY := "not_a_directory".
Definition NOT_UTF8 := "not_utf8".
Definition BINARY_FILE := "binary_file".
Definition INVALID_GLOB := "invalid_glob".
Definition INVALID_REGEX := "invalid_regex".
Definition NO_MATCH := "no_match".
Definition NOT_UNIQUE := "not_unique".
Definition TIMEOUT := "timeout".
Definition SPAWN_FAILED := "spawn_failed".
Definition IO_ERROR := "io_error".

Definition field_error (key : string) (error : FieldError) : RichToolResult :=
  rich_error INVALID_ARGUMENTS
    (match error with
     | Missing => "missing required argument: " +:+ key
     | NotAString => "argument '" +:+ key +:+ "' must be a string"
     | NotANumber => "argument '" +:+ key +:+ "' must be a non-negative integer"
     | NotABool => "argument '" +:+ key +:+ "' must be a boolean"
     | BadEscape => "argument '" +:+ key +:+ "' contains an invalid escape sequence"
     end).

Definition outside_root (path : string) : RichToolResult :=
  rich_error OUTSIDE_ROOT ("path resolves outside the root directory: " +:+ path).
Definition not_found (path : string) : RichToolResult :=
  rich_error NOT_FOUND ("file not found: " +:+ path).
Definition io_error (kind : ErrorKind) : RichToolResult :=
  rich_error IO_ERROR ("filesystem error (" +:+ debug_kind kind +:+ ")").
Definition path_error (path : string) (error : PathError) : RichToolResult :=
  match error with
  | OutsideRoot => outside_root path
  | PathNotFound => not_found path
  | PathIo kind => io_error kind
  end.

(** Whether a cancel has been requested; once it has, it stays so. *)
Class CancelSignal : Type := {
  requested : nat → bool;
  requested_stays n : requested n = true → requested (S n) = true
}.
Class Globs : Type := {
  Matcher : Type;
  glob_new : string → string + Matcher;
  is_match : Matcher → string → bool
}.
Class Lowercase : Type := to_lowercase : string → string.

(** [str::to_ascii_lowercase]. *)
Fixpoint to_ascii_lowercase (s : string) : string :=
  match s with
  | EmptyString => ""
  | String b s =>
      String (if in_range 65 90 b then byte_of (byte_val b + 32) else b) (to_ascii_lowercase s)
  end.

Definition contains_nul (s : string) : bool := any (λ b, byte_val b =? 0)%Z (bytes_of s).

Section std_tools.
Context {faults : FsFaults} {order : ReadOrder} {signal : CancelSignal} {globs : Globs}
        {lower : Lowercase}.

(** A computation that may return early with a result. *)
Abbreviation run := (io World RichToolResult).

Definition arg {A} (key : string) (r : outcome FieldError A) : run A :=
  lift (map_err (field_error key) r).
Definition or_io {A} (m : io World ErrorKind A) : run A := with_err io_error m.

(** The result of a run, returned early or not. *)
Definition settle (m : run RichToolResult) : World → World * outcome Empty_set RichToolResult := λ w,
  match m w with
  | (w, Ok result) | (w, Err result) => (w, Ok result)
  | (w, Panic) => (w, Panic)
  end.

Definition poll {E} : io World E bool := λ w, (looked w, Ok (requested (looks w))).

(** [call_with_cx] of [read], [write] and [edit]. *)
Definition call_with_cx (m : run RichToolResult) : World → World * outcome Empty_set ToolInvokeEnd := λ w,
  let '(w, stopped) := poll (E := Empty_set) w in
  match stopped with
  | Ok true => (w, Ok Stopped)
  | _ =>
      let '(w, result) := settle m w in
      (w, match result with Ok result => Ok (Done result) | Err e => Err e | Panic => Panic end)
  end.

(** [read], whose missing file is reported with its path. *)
Definition read_file (path : string) (target : names) : run string :=
  let! r := catch (read target) in
  match r with
  | inr bytes => ret bytes
  | inl NotFound => fail (not_found path)
  | inl e => fail (io_error e)
  end.

Definition refuse_directory (path : string) (target : names) : run unit :=
  let! directory := is_dir target in
  if directory then fail (rich_error NOT_A_FILE ("path is a directory, not a file: " +:+ path))
  else ret tt.

(** ** read.rs *)

Definition DEFAULT_MAX_READ_BYTES : nat := 64 * 1024.
Definition DEFAULT_MAX_READ_LINES : nat := 2000.
Definition IMAGE_EXTENSIONS : list string := ["png"; "jpg"; "jpeg"; "gif"; "webp"].

Record ReadTool : Type := { read_root : string; read_max_bytes : nat; read_max_lines : nat }.
Definition read_new (root : string) : ReadTool :=
  {| read_root := root; read_max_bytes := DEFAULT_MAX_READ_BYTES;
     read_max_lines := DEFAULT_MAX_READ_LINES |}.

Definition read_with_max_bytes (self : ReadTool) (n : nat) : ReadTool :=
  {| read_root := read_root self; read_max_bytes := max n 1; read_max_lines := read_max_lines self |}.
Definition read_with_max_lines (self : ReadTool) (n : nat) : ReadTool :=
  {| read_root := read_root self; read_max_bytes := read_max_bytes self; read_max_lines := max n 1 |}.

Definition is_image (target : names) : bool :=
  match last target ≫= replay_store.extension with
  | Some extension => bool_decide (to_ascii_lowercase extension ∈ IMAGE_EXTENSIONS)
  | None => false
  end.

Definition numbered_row (index : nat) (line : string) : string :=
  pad_left 5 (to_string (index + 1)) +:+ "|" +:+ line +:+ lf.

(** What ended the loop over the lines. *)
Inductive ReadStop : Type := EndOfFile | StoppedByLimit | StoppedByBudget.
#[export] Instance ReadStop_eq_dec : EqDecision ReadStop.
Proof. solve_decision. Defined.

Fixpoint number_lines (max_bytes effective_lines index : nat) (rows : list string)
    (numbered : string) (emitted : nat) : string * nat * ReadStop :=
  match rows with
  | [] => (numbered, emitted, EndOfFile)
  | line :: rows =>
      if bool_decide (effective_lines ≤ emitted) then (numbered, emitted, StoppedByLimit)
      else
        let row := numbered_row index line in
        if bool_decide (max_bytes < String.length numbered + String.length row)
        then (numbered, emitted, StoppedByBudget)
        else number_lines max_bytes effective_lines (S index) rows (numbered +:+ row) (S emitted)
  end.

(** The text for the model, its last line, how many lines it shows, and whether
    it was cut by the budget. *)
Definition page (max_bytes effective_lines start_line : nat) (ls : list string)
    : string * nat * nat * bool :=
  let '(numbered, emitted, stop) :=
    number_lines max_bytes effective_lines (start_line - 1) (drop (start_line - 1) ls) "" 0 in
  let end_line := start_line + (emitted - 1) in
  let total := length ls in
  let '(marker, truncated) :=
    match stop with
    | StoppedByBudget =>
        if bool_decide (emitted = 0) then
          ("[read truncated: line " +:+ to_string start_line +:+ " alone exceeds the "
           +:+ to_string max_bytes +:+ "-byte output budget; use shell to slice it]", true)
        else
          ("[read truncated: showing lines " +:+ to_string start_line +:+ "-" +:+ to_string end_line
           +:+ " of " +:+ to_string total +:+ "; use offset=" +:+ to_string (end_line + 1)
           +:+ " to continue]", true)
    | StoppedByLimit =>
        let remaining := total - end_line in
        (if bool_decide (0 < remaining) then
           "[read stopped by limit at line " +:+ to_string end_line +:+ "; " +:+ to_string remaining
           +:+ " more lines; use offset=" +:+ to_string (end_line + 1) +:+ " to continue]"
         else "", false)
    | EndOfFile => ("", false)
    end in
  (numbered +:+ marker, end_line, emitted, truncated).

Definition read_display (path : string) (start_line end_line shown total bytes : nat)
    (truncated : bool) : ToolDisplay :=
  fact "truncated" (bool_string truncated)
    (fact "bytes_total" (to_string bytes)
      (fact "lines_total" (to_string total)
        (fact "lines_shown" (to_string shown)
          (fact "end_line" (to_string end_line)
            (fact "start_line" (to_string start_line)
              (count "1 file" (subject path (card "Read" "Read" "none" "")))))))).

Definition clamp_limit (limit : Z) (max : nat) : nat := Z.to_nat (Z.min (Z.max limit 1) (Z.of_nat max)).

Definition read_tool (self : ReadTool) (arguments : string) : run RichToolResult :=
  let! path := arg "path" (required_string arguments "path") in
  let! offset := arg "offset" (optional_u64 arguments "offset") in
  let! limit := arg "limit" (optional_u64 arguments "limit") in
  let start_line := Z.max (default 1 offset)%Z 1 in
  let effective_lines :=
    match limit with
    | Some value => clamp_limit value (read_max_lines self)
    | None => read_max_lines self
    end in
  let! target := with_err (path_error path) (resolve_in_root (read_root self) path true) in
  refuse_directory path target ;;
  let! bytes := read_file path target in
  if is_image target then
    fail (rich_error BINARY_FILE
      ("'" +:+ path +:+ "' is an image file; attach it to the user message (for example with "
       +:+ "--image) instead of reading it as text"))
  else if contains_nul bytes then
    fail (rich_error BINARY_FILE
      ("'" +:+ path +:+ "' is a binary file and cannot be read as text"))
  else
    match from_utf8 bytes with
    | None => fail (rich_error NOT_UTF8 ("file is not valid UTF-8 text: " +:+ path))
    | Some text =>
        let ls := lines text in
        let total := length ls in
        if bool_decide (total = 0) then
          ret (with_display (rich_success "(empty file)")
                 (read_display path 0 0 0 0 (String.length bytes) false))
        else if (Z.of_nat total <? start_line)%Z then
          fail (rich_error INVALID_ARGUMENTS
            ("offset " +:+ Prelude.display start_line +:+ " is beyond end of file ("
             +:+ to_string total +:+ " lines)"))
        else
          let start_line := Z.to_nat start_line in
          let '(model_text, end_line, emitted, truncated) :=
            page (read_max_bytes self) effective_lines start_line ls in
          ret (with_display (rich_success model_text)
                 (read_display path start_line end_line emitted total (String.length bytes) truncated))
    end.

(** ** write.rs *)

Definition write_display (path content : string) (created : bool) : ToolDisplay :=
  let '(detail, added, truncated) := plus_lines content MAX_PLUS_DISPLAY_LINES in
  fact "truncated" (bool_string truncated)
    (fact "operation" (if created then "created" else "overwrote")
      (fact "bytes" (to_string (String.length content))
        (fact "removed" "0"
          (fact "added" (to_string added)
            (result_phrase
              (if created then "Succeeded. File created.  (+" +:+ to_string added +:+ " added)"
               else "Succeeded. File overwritten.  (+" +:+ to_string added +:+ " added)")
              (subject path
                (card "Write" (if created then "Added" else "Wrote") "diff" detail))))))).

Definition write_tool (root arguments : string) : run RichToolResult :=
  let! path := arg "path" (required_string arguments "path") in
  let! content := arg "content" (required_string arguments "content") in
  let! target := with_err (path_error path) (resolve_in_root root path false) in
  refuse_directory path target ;;
  let! previous_bytes := metadata_len target in
  (match last target with
   | Some _ => or_io (create_dir_all (removelast target))
   | None => ret tt
   end) ;;
  or_io (write target content) ;;
  let bytes := String.length content in
  let confirmation :=
    match previous_bytes with
    | None => "created " +:+ path +:+ " (" +:+ to_string bytes +:+ " bytes)"
    | Some was =>
        "overwrote " +:+ path +:+ " (" +:+ to_string bytes +:+ " bytes, was " +:+ to_string was
        +:+ " bytes)"
    end in
  ret (with_display (rich_success confirmation)
         (write_display path content (negb (is_some previous_bytes)))).

(** ** edit.rs *)

(** U+FEFF in UTF-8. *)
Definition BOM : string := String "239" (String "187" (String "191" "")).

Definition normalize_to_lf (text : string) : string := replace cr lf (replace crlf lf text).

(** What an edit makes of a text: the new text, or why there is none. *)
Definition edited_text (path full_text old_string new_string : string) : RichToolResult + string :=
  let '(bom, content) :=
    match strip_prefix BOM full_text with Some rest => (BOM, rest) | None => ("", full_text) end in
  let crlf_file := contains crlf content in
  let normalized := normalize_to_lf content in
  let old_normalized := normalize_to_lf old_string in
  let occurrences := match_count old_normalized normalized in
  if bool_decide (occurrences = 0) then
    inl (rich_error NO_MATCH ("old_string not found in " +:+ path))
  else if bool_decide (1 < occurrences) then
    inl (rich_error NOT_UNIQUE
      ("old_string occurs " +:+ to_string occurrences +:+ " times in " +:+ path
       +:+ "; add more surrounding context to make it unique"))
  else
    let edited := replace_first old_normalized new_string normalized in
    let restored := if crlf_file then replace lf crlf edited else edited in
    inr (bom +:+ restored).

Definition edit_display (path full_text final_text old_string new_string : string) : ToolDisplay :=
  let content := default full_text (strip_prefix BOM full_text) in
  let '(hunk, added, removed) :=
    edit_hunk (normalize_to_lf content) (normalize_to_lf old_string) new_string in
  fact "bytes_after" (to_string (String.length final_text))
    (fact "bytes_before" (to_string (String.length full_text))
      (fact "removed" (to_string removed)
        (fact "added" (to_string added)
          (result_phrase
            ("Succeeded. File edited.  (+" +:+ to_string added +:+ " added, -" +:+ to_string removed
             +:+ " removed)")
            (subject path (card "Edit" "Edited" "diff" hunk)))))).

Definition edit_tool (root arguments : string) : run RichToolResult :=
  let! path := arg "path" (required_string arguments "path") in
  let! old_string := arg "old_string" (required_string arguments "old_string") in
  if str_is_empty old_string then
    fail (rich_error INVALID_ARGUMENTS "argument 'old_string' must not be empty")
  else
    let! new_string := arg "new_string" (required_string arguments "new_string") in
    let! target := with_err (path_error path) (resolve_in_root root path true) in
    refuse_directory path target ;;
    let! bytes := read_file path target in
    match from_utf8 bytes with
    | None => fail (rich_error NOT_UTF8 ("file is not valid UTF-8 text: " +:+ path))
    | Some full_text =>
        match edited_text path full_text old_string new_string with
        | inl error => fail error
        | inr final_text =>
            or_io (write target final_text) ;;
            ret (with_display
                   (rich_success
                      ("edited " +:+ path +:+ ": replaced 1 occurrence ("
                       +:+ to_string (String.length full_text) +:+ " -> "
                       +:+ to_string (String.length final_text) +:+ " bytes)"))
                   (edit_display path full_text final_text old_string new_string))
        end
    end.

(** ** list.rs *)

Definition DEFAULT_MAX_LIST_ENTRIES : nat := 500.
Definition DEFAULT_MAX_LIST_BYTES : nat := 64 * 1024.

Record ListTool : Type := { list_root : string; max_entries : nat; list_max_bytes : nat }.
Definition list_new (root : string) : ListTool :=
  {| list_root := root; max_entries := DEFAULT_MAX_LIST_ENTRIES;
     list_max_bytes := DEFAULT_MAX_LIST_BYTES |}.

Definition list_with_max_entries (self : ListTool) (n : nat) : ListTool :=
  {| list_root := list_root self; max_entries := max n 1; list_max_bytes := list_max_bytes self |}.
Definition list_with_max_bytes (self : ListTool) (n : nat) : ListTool :=
  {| list_root := list_root self; max_entries := max_entries self; list_max_bytes := max n 1 |}.

(** A run that may also end because it was stopped. *)
Abbreviation stoppable := (io World ToolInvokeEnd).

Definition stop_if_requested : stoppable unit :=
  let! stopped := poll in if stopped then fail Stopped else ret tt.
Definition done_err {A} (m : run A) : stoppable A := with_err Done m.

(** [optional_string] of [glob], compiled. *)
Definition glob_arg (arguments : string) : stoppable (option Matcher) :=
  let! glob := done_err (arg "glob" (optional_string arguments "glob")) in
  match glob with
  | None => ret None
  | Some pattern =>
      match glob_new pattern with
      | inr matcher => ret (Some matcher)
      | inl error =>
          fail (Done (rich_error INVALID_GLOB ("invalid glob '" +:+ pattern +:+ "': " +:+ error)))
      end
  end.

(** An entry: directory or not, its name, and its name in lower case. *)
Definition Entry : Type := bool * string * string.

(** The loop over the entries of a directory. A link is looked at with the
    entry's own [metadata], which does not follow it. *)
Fixpoint list_entries (target : names) (matcher : option Matcher) (found : list string)
    : stoppable (list Entry) :=
  match found with
  | [] => ret []
  | name :: found =>
      stop_if_requested ;;
      let! entry := catch access in
      match entry with
      | inl _ => list_entries target matcher found
      | inr _ =>
          if match matcher with Some m => negb (is_match m name) | None => false end
          then list_entries target matcher found
          else
            let! file_type := catch (symlink_metadata (target ++ [name])) in
            match file_type with
            | inl _ => list_entries target matcher found
            | inr node =>
                let! metadata :=
                  match node with
                  | LinkNode _ => catch (symlink_metadata (target ++ [name]))
                  | _ => ret (inr node)
                  end in
                match metadata with
                | inl _ => list_entries target matcher found
                | inr node =>
                    let! rest := list_entries target matcher found in
                    ret ((bool_decide (node = DirNode), name, to_lowercase name) :: rest)
                end
            end
      end
  end.

(** Directories first, then by the name in lower case, then by the name. *)
Definition entry_le (a b : Entry) : bool :=
  let '(a_dir, a_name, a_lower) := a in
  let '(b_dir, b_name, b_lower) := b in
  if a_dir == b_dir then
    if bool_decide (a_lower = b_lower) then String.leb a_name b_name else String.leb a_lower b_lower
  else a_dir.

Fixpoint insert_entry (e : Entry) (l : list Entry) : list Entry :=
  match l with
  | [] => [e]
  | x :: l' => if entry_le e x then e :: l else x :: insert_entry e l'
  end.
Definition sort_entries (l : list Entry) : list Entry := foldr insert_entry [] l.

Definition entry_row (e : Entry) : string :=
  (if e.1.1 then "dir" else "file") +:+ String "009" "" +:+ e.1.2.

Fixpoint take_rows (limit max_bytes : nat) (entries : list Entry) (used : nat) : list string :=
  match entries with
  | [] => []
  | e :: entries =>
      match limit with
      | O => []
      | S limit =>
          let row_len := String.length (entry_row e) + 1 in
          if bool_decide (max_bytes < used + row_len) then []
          else entry_row e :: take_rows limit max_bytes entries (used + row_len)
      end
  end.

(** The text for the model, and whether it is cut. *)
Definition list_text (self : ListTool) (limit : nat) (entries : list Entry) : string * bool :=
  let rows := take_rows limit (list_max_bytes self) entries 0 in
  let total := length entries in
  let shown := length rows in
  let truncated := bool_decide (shown < total) in
  let model_text := if bool_decide (total = 0) then "(empty directory)" else join lf rows in
  (if truncated then
     (if str_is_empty model_text then "" else model_text +:+ lf)
     +:+ "[list truncated: showing first " +:+ to_string shown +:+ " of " +:+ to_string total
     +:+ " entries; raise " +:+ registry.quote +:+ "limit" +:+ registry.quote +:+ " (max " +:+ to_string (max_entries self)
     +:+ ") or narrow the path/glob]"
   else model_text, truncated).

Definition list_tool (self : ListTool) (arguments : string) : stoppable RichToolResult :=
  stop_if_requested ;;
  let! path := done_err (arg "path" (optional_string arguments "path")) in
  let path := default "." path in
  let! matcher := glob_arg arguments in
  let! limit := done_err (arg "limit" (optional_u64 arguments "limit")) in
  let limit := match limit with Some value => clamp_limit value (max_entries self)
                              | None => max_entries self end in
  let! target := done_err (with_err (path_error path) (resolve_in_root (list_root self) path true)) in
  let! directory := is_dir target in
  if negb directory then
    fail (Done (rich_error NOT_A_DIRECTORY ("path is not a directory: " +:+ path)))
  else
    stop_if_requested ;;
    let! found := done_err (or_io (read_dir target)) in
    let! entries := list_entries target matcher found in
    let entries := sort_entries entries in
    let '(model_text, truncated) := list_text self limit entries in
    ret (with_display (rich_success model_text)
           (fact "truncated" (bool_string truncated)
             (fact "entries_total" (to_string (length entries))
               (count "1 directory" (subject path (card "List Directory" "Listed" "none" "")))))).

(** The end of a run of [list] or [grep]. *)
Definition stoppable_end (m : stoppable RichToolResult)
    : World → World * outcome Empty_set ToolInvokeEnd := λ w,
  match m w with
  | (w, Ok result) => (w, Ok (Done result))
  | (w, Err ended) => (w, Ok ended)
  | (w, Panic) => (w, Panic)
  end.
End std_tools.

End std_tools.
