(* ===== verification/ToolFilesProofs.v ===== *)
(** What the file system calls of the standard tools change.

    Module [tool_effects]: on a path without links a write changes the file it
    names and nothing else, and the creation of directories adds directories on
    the way to the path it names and nothing else; the tree stays a tree.

    The standard tools that only look: their calls change no file and do not
    panic.

    Module [tool_quiet]: [quiet] computations, closed under the composition of
    the monad; the database [quiet] goes through a tool's code.

    What [write] and [edit] change (src/crates/philo-tools-std/src/write.rs,
    edit.rs).

    Module [tool_changes]: where no link dangles, a call of either tool changes
    the file it names, and directories on the way to it, all below the root;
    what an edit makes of a text.

    The pages of [read] and the rows of [list]
    (src/crates/philo-tools-std/src/read.rs, list.rs).

    Module [tool_pages]: both loops show a beginning of what they have, as much
    of it as their limits leave; the entries of a directory are sorted. *)

From S2P Require Import Prelude RustStr JsonlCodec ToolText ToolPath ToolPathProofs Tools.
From S2P Require Import ToolArgs ToolFiles.
From Stdlib Require Import Sorted Ascii.
Import jsonl_codec tool_text tool_fs tool_path path_proofs tool_resolve.

Module tool_effects.

Definition unchanged_outside (base : names) (m m' : Nodes) : Prop :=
  ∀ k, ¬ base `prefix_of` k → m' !! k = m !! k.

Lemma unchanged_refl base m : unchanged_outside base m m.
Proof. done. Qed.
Lemma unchanged_trans base m1 m2 m3 :
  unchanged_outside base m1 m2 → unchanged_outside base m2 m3 → unchanged_outside base m1 m3.
Proof. intros H1 H2 k Hk. by rewrite H2, H1. Qed.
Lemma unchanged_insert base p node m : base `prefix_of` p → unchanged_outside base m (<[p := node]> m).
Proof. intros Hp k Hk. rewrite lookup_insert_ne; [done|]. by intros ->. Qed.

(** A new name, or a name whose node may be replaced. *)
Definition place (m : Nodes) (p : names) : Prop :=
  (∃ bytes, m !! p = Some (FileNode bytes)) ∨
  (m !! p = None ∧ ∃ q x, p = q ++ [x] ∧ m !! q = Some DirNode ∧ proper x).

Lemma tree_insert m p node : tree m → place m p → tree (<[p := node]> m).
Proof.
  intros Ht Hp. assert (m !! p ≠ Some DirNode) as Hnd by by destruct Hp as [[b ->]|[-> _]].
  split.
  - rewrite lookup_insert_ne; [by apply tree_root|]. intros ->. by apply Hnd, tree_root.
  - intros q x n Hn. destruct (decide (q = p)) as [->|Hq].
    + exfalso. rewrite lookup_insert_ne in Hn.
      * by apply Hnd; eapply tree_parent.
      * intros He. apply (f_equal length) in He. rewrite length_app in He. cbn in He. lia.
    + rewrite lookup_insert_ne by done. destruct (decide (p = q ++ [x])) as [->|Hne].
      * destruct Hp as [[b Hb]|(_ & q' & x' & He & Hq' & _)]; [by eapply tree_parent|].
        apply app_inj_tail in He as [-> _]. done.
      * rewrite lookup_insert_ne in Hn by done. by eapply tree_parent.
  - intros k n Hn. destruct (decide (k = p)) as [->|Hk].
    + destruct Hp as [[b Hb]|(_ & q & x & -> & Hq & Hx)]; [by eapply tree_names|].
      apply Forall_app. split; [by eapply tree_names|]. by apply Forall_singleton.
    + rewrite lookup_insert_ne in Hn by done. by eapply tree_names.
Qed.

Lemma world_insert w p node :
  world_ok w → place (nodes w) p → world_ok (set_nodes (<[p := node]> (nodes w)) w).
Proof.
  intros [Ht Hc] Hp. split; cbn; [by apply tree_insert|].
  rewrite lookup_insert_ne; [done|]. intros ->. destruct Hp as [[b Hb]|[Hb _]]; congruence.
Qed.

Lemma link_free_insert m p q node : plain node → link_free m p → link_free (<[q := node]> m) p.
Proof.
  intros Hn Hl k r Hk. unfold no_link_at. destruct (decide (k = q)) as [->|Hne].
  - by rewrite lookup_insert_eq.
  - rewrite lookup_insert_ne by done. by eapply Hl.
Qed.

Lemma link_free_prefix m p q : link_free m (p ++ q) → link_free m p.
Proof. intros Hl k r ->. eapply (Hl k (r ++ q)). by rewrite <- app_assoc. Qed.

Lemma removelast_app_last {A} (p : list A) x : last p = Some x → p = removelast p ++ [x].
Proof. intros [l ->]%last_Some. by rewrite removelast_last. Qed.

Section effects.
Context {faults : FsFaults}.

Lemma locate_free create p w w' at_ :
  world_ok w → Forall proper p → link_free (nodes w) p →
  locate create (of_names p) w = (w', Ok at_) → same_files w w' ∧ at_ = p.
Proof.
  intros Hw Hp Hl [Hsame Hr]%locate_run. split; [done|]. unfold lookup_path in Hr.
  cbn [from_root parts of_names negb andb] in Hr.
  apply (walk_names MAX_LINKS create (nodes w) [] p at_); try done.
  - by destruct Hw.
  - apply tree_root_plain. by destruct Hw.
Qed.

(** [std::fs::write] on a path without links. *)
Lemma write_run p bytes w w' r :
  world_ok w → Forall proper p → link_free (nodes w) p → write p bytes w = (w', r) →
  world_ok w' ∧ cwd w' = cwd w ∧
  match r with
  | Ok _ => nodes w' = <[p := FileNode bytes]> (nodes w)
  | Err _ => nodes w' = nodes w ∨ ∃ part, nodes w' = <[p := FileNode part]> (nodes w)
  | Panic => False
  end.
Proof.
  intros Hw Hp Hl. unfold write, bind. destruct (locate true (of_names p) w) as [w1 r1] eqn:H1.
  destruct r1 as [at_|e|].
  2:{ apply locate_run in H1 as [[Hn Hc] _]. intros [= <- <-]. split_and!; [|done|by left].
      by eapply same_files_ok. }
  2:{ by apply locate_run in H1 as [_ ?]. }
  pose proof H1 as [_ Hr]%locate_run. apply lookup_end in Hr; [|done].
  apply locate_free in H1 as [Hs ->]; [|done..]. pose proof Hs as [Hn Hc].
  unfold get, fail, ret, modify. cbn beta iota.
  assert (nodes w1 !! p ≠ Some DirNode → place (nodes w1) p) as Hplace.
  { rewrite Hn. intros Hd. destruct Hr as [(node & Hnode & Hpl)|(_ & Hnone & Hq)]; [|by right].
    destruct node; try done; left; eauto. }
  pose proof (same_files_ok _ _ Hs Hw) as Hw1.
  assert (∀ b, nodes w1 !! p ≠ Some DirNode → world_ok (set_nodes (<[p := FileNode b]> (nodes w1)) w1)) as Hok.
  { intros b Hd. apply world_insert; auto. }
  assert (nodes w1 !! p = Some DirNode ∨ nodes w1 !! p ≠ Some DirNode) as [Hd|Hd].
  { destruct (nodes w1 !! p) as [[]|]; auto. }
  { rewrite Hd. intros [= <- <-]. split_and!; [done|done|by left]. }
  assert (∀ (X : Type) (a b : X), match nodes w1 !! p with Some DirNode => a | _ => b end = b) as ->.
  { intros. by destruct (nodes w1 !! p) as [[]|]. }
  destruct (str_is_empty bytes) eqn:He.
  { apply str_is_empty_true in He. subst bytes. intros [= <- <-]. cbn. rewrite <- Hn. auto. }
  unfold catch, access. destruct (fault _) as [k|] eqn:Hf; intros [= <- <-]; cbn.
  - split_and!; [|done|].
    + rewrite insert_insert_eq. eapply same_files_ok; [|by apply Hok]. by split.
    + right. eexists. by rewrite insert_insert_eq, Hn.
  - split_and!; [|done|].
    + rewrite insert_insert_eq. eapply same_files_ok; [|by apply Hok]. by split.
    + by rewrite insert_insert_eq, Hn.
Qed.

(** [mkdir] on a path without links. *)
Lemma create_dir_run p w w' r :
  world_ok w → Forall proper p → link_free (nodes w) p → create_dir p w = (w', r) →
  world_ok w' ∧ cwd w' = cwd w ∧
  match r with
  | Ok _ => nodes w !! p = None ∧ nodes w' = <[p := DirNode]> (nodes w)
  | Err _ => nodes w' = nodes w
  | Panic => False
  end.
Proof.
  intros Hw Hp Hl. unfold create_dir, bind, get, fail, access, modify.
  destruct (last p) as [name|] eqn:Hlast.
  2:{ destruct (fault (looks w)); intros [= <- <-]; split_and!; try done; (eapply same_files_ok; [|exact Hw]; by split). }
  apply removelast_app_last in Hlast. rewrite Hlast in Hp, Hl. apply Forall_app in Hp as [Hp [Hx _]%Forall_cons].
  destruct (locate false (of_names (removelast p)) w) as [w1 r1] eqn:H1.
  destruct r1 as [at_|e|].
  2:{ apply locate_run in H1 as [[Hn Hc] _]. intros [= <- <-]. split_and!; [|done|done].
      by eapply same_files_ok. }
  2:{ by apply locate_run in H1 as [_ ?]. }
  apply locate_free in H1 as [Hs ->]; [|done|done|by eapply link_free_prefix].
  pose proof Hs as [Hn Hc]. pose proof (same_files_ok _ _ Hs Hw) as Hw1. cbn beta iota. rewrite <- Hlast.
  destruct (nodes w1 !! removelast p) as [[bytes| |target]|] eqn:Hpar;
    try (intros [= <- <-]; by split_and!).
  destruct (nodes w1 !! p) as [node|] eqn:Hnode; intros [= <- <-]; split_and!; try done.
  - cbn. apply world_insert; [done|]. right. split; [done|].
    by exists (removelast p), name.
  - by rewrite <- Hn.
  - cbn. by rewrite Hn.
Qed.

(** New directories on the way to a path. *)
Definition grown (p : names) (m m' : Nodes) : Prop :=
  ∀ k, m' !! k = m !! k ∨ (m !! k = None ∧ m' !! k = Some DirNode ∧ k `prefix_of` p).

Lemma grown_refl p m : grown p m m.
Proof. intros k. by left. Qed.
Lemma grown_trans p m1 m2 m3 : grown p m1 m2 → grown p m2 m3 → grown p m1 m3.
Proof.
  intros H1 H2 k. destruct (H1 k) as [E1|(N1 & D1 & P1)], (H2 k) as [E2|(N2 & D2 & P2)].
  - left. congruence.
  - right. split_and!; congruence.
  - right. split_and!; congruence.
  - congruence.
Qed.
Lemma grown_longer p q m m' : grown p m m' → grown (p ++ q) m m'.
Proof.
  intros H k. destruct (H k) as [E|(N & D & P)]; [by left|right]. split_and!; [done..|].
  etrans; [done|]. by eexists.
Qed.
Lemma grown_link_free p q m m' : grown p m m' → link_free m q → link_free m' q.
Proof.
  intros Hg Hl k r Hk. unfold no_link_at. destruct (Hg k) as [->|(_ & -> & _)]; [by eapply Hl|done].
Qed.

Lemma is_dir_run {E} p w w' (r : outcome E bool) : is_dir p w = (w', r) → same_files w w' ∧ ∃ b, r = Ok b.
Proof.
  unfold is_dir, bind. destruct (catch (locate false (of_names p)) w) as [w1 r1] eqn:H.
  apply (catch_run (E := E)) in H as [(a & H & ->)|[(e & H & ->)|[H ->]]]; apply locate_run in H as [Hs H];
    [..|done]; unfold get, ret; intros [= <- <-]; eauto.
Qed.

(** The state after a call of [create_dir_all]. *)
Definition grows (p : names) (w w' : World) : Prop :=
  world_ok w' ∧ cwd w' = cwd w ∧ grown p (nodes w) (nodes w').

Lemma grows_trans p w1 w2 w3 : grows p w1 w2 → grows p w2 w3 → grows p w1 w3.
Proof.
  intros (H1 & H2 & H3) (H4 & H5 & H6). split_and!; [done|congruence|by eapply grown_trans].
Qed.
Lemma grows_same p w w' : world_ok w → same_files w w' → grows p w w'.
Proof.
  intros Hw Hs. pose proof Hs as [Hn Hc]. split_and!; [by eapply same_files_ok|done|].
  rewrite Hn. apply grown_refl.
Qed.

Lemma create_dir_grows p w w' r :
  world_ok w → Forall proper p → link_free (nodes w) p → create_dir p w = (w', r) →
  grows p w w' ∧ r ≠ Panic.
Proof.
  intros Hw Hp Hl (Hok & Hc & Hr)%create_dir_run; [|done..]. split; [|by destruct r].
  split_and!; [done|done|]. destruct r as [u|e|]; [|rewrite Hr; apply grown_refl|done].
  destruct Hr as [Hnone ->]. intros k. destruct (decide (k = p)) as [->|Hk].
  - right. by rewrite lookup_insert_eq.
  - left. by rewrite lookup_insert_ne.
Qed.

(** [mkdir], or a directory that is already there. *)
Lemma create_dir_again p e0 w w' r :
  world_ok w → Forall proper p → link_free (nodes w) p →
  (let! present := is_dir p in if present then ret tt else fail (e0 : ErrorKind)) w = (w', r) →
  grows p w w' ∧ r ≠ Panic.
Proof.
  intros Hw Hp Hl. unfold bind. destruct (is_dir p w) as [w1 r1] eqn:H.
  apply is_dir_run in H as [Hs [b ->]]. destruct b; intros [= <- <-]; split; try done; by apply grows_same.
Qed.

Lemma create_dir_all_run r0 w w' r :
  world_ok w → Forall proper (reverse r0) → link_free (nodes w) (reverse r0) →
  create_dir_all_rev r0 w = (w', r) → grows (reverse r0) w w' ∧ r ≠ Panic.
Proof.
  revert w w' r. induction r0 as [|x r0 IH]; intros w w' r Hw Hp Hl; cbn [create_dir_all_rev];
    unfold bind at 1;
    match goal with |- context [catch ?m ?v] => destruct (catch (E := ErrorKind) m v) as [w1 r1] eqn:H1 end;
    apply catch_run in H1 as [(a & H1 & ->)|[(e & H1 & ->)|[H1 ->]]];
    apply create_dir_grows in H1 as [G1 P1]; try done; cbn beta iota;
    pose proof G1 as (Hw1 & Hc1 & Hg1); pose proof (grown_link_free _ _ _ _ Hg1 Hl) as Hl1.
  1,3: intros [= <- <-]; done.
  - case_bool_decide; [by intros [= <- <-]|]. intros [G2 P2]%create_dir_again; [|done..].
    split; [by eapply grows_trans|done].
  - case_bool_decide.
    2:{ intros [G2 P2]%create_dir_again; [|done..]. split; [by eapply grows_trans|done]. }
    rewrite reverse_cons in *. unfold bind at 1.
    destruct (create_dir_all_rev r0 w1) as [w2 r2] eqn:H2.
    apply Forall_app in Hp as [Hp' Hx]. pose proof (link_free_prefix _ _ _ Hl1) as Hl1'.
    apply IH in H2 as [G2 P2]; [|done..].
    assert (grows (reverse r0 ++ [x]) w1 w2) as G2'.
    { destruct G2 as (? & ? & ?). split_and!; [done..|]. by apply grown_longer. }
    pose proof (grows_trans _ _ _ _ G1 G2') as G12.
    destruct r2 as [u|e2|]; [|by intros [= <- <-]|done]. unfold bind at 1.
    pose proof G12 as (Hw2 & Hc2 & Hg2). pose proof (grown_link_free _ _ _ _ Hg2 Hl) as Hl2.
    match goal with |- context [catch ?m ?v] => destruct (catch (E := ErrorKind) m v) as [w3 r3] eqn:H3 end.
    assert (Forall proper (reverse r0 ++ [x])) as Hpx by by apply Forall_app.
    apply catch_run in H3 as [(a & H3 & ->)|[(e3 & H3 & ->)|[H3 ->]]];
      apply create_dir_grows in H3 as [G3 P3]; try done; cbn beta iota;
      pose proof (grows_trans _ _ _ _ G12 G3) as G13.
    + intros [= <- <-]; done.
    + pose proof G13 as (Hw3 & Hc3 & Hg3). pose proof (grown_link_free _ _ _ _ Hg3 Hl) as Hl3.
      intros [G4 P4]%create_dir_again; [|done..]. split; [by eapply grows_trans|done].
Qed.

(** Directories on the way from an ancestor that exists are below it. *)
Lemma grown_unchanged base there new p m m' node :
  tree m → m !! there = Some node → base `prefix_of` there → p `prefix_of` there ++ new →
  grown p m m' → unchanged_outside base m m'.
Proof.
  intros Ht Hthere Hb Hp Hg k Hk. destruct (Hg k) as [?|(Hnone & _ & Hpre)]; [done|]. exfalso.
  assert (k `prefix_of` there ++ new) as Hkp by by etrans.
  destruct (prefix_weak_total k there (there ++ new)) as [H|H]; [done|by eexists|..].
  - destruct H as [r ->]. destruct (decide (r = [])) as [->|Hr].
    + rewrite app_nil_r in Hthere. congruence.
    + eapply tree_prefix in Hthere; [|done..]. congruence.
  - apply Hk. by etrans.
Qed.

End effects.
End tool_effects.

Import tools jsonl_codec tool_text tool_fs tool_path path_proofs tool_resolve tool_args std_tools.

Module tool_quiet.

Definition quiet {E A} (m : io World E A) : Prop :=
  ∀ w w' r, world_ok w → m w = (w', r) → same_files w w' ∧ r ≠ Panic.

Create HintDb quiet.

Lemma quiet_ret {E A} (a : A) : quiet (E := E) (ret a).
Proof. intros w w' r _ [= <- <-]. by split. Qed.
Lemma quiet_fail {E A} (e : E) : quiet (A := A) (fail e).
Proof. intros w w' r _ [= <- <-]. by split. Qed.
Lemma quiet_get {E} : quiet (E := E) get.
Proof. intros w w' r _ [= <- <-]. by split. Qed.
Lemma quiet_lift {E A} (r : outcome E A) : r ≠ Panic → quiet (lift r).
Proof. intros Hr w w' r' _ [= <- <-]. by split. Qed.

Lemma quiet_bind {E A B} (m : io World E A) (k : A → io World E B) :
  quiet m → (∀ a, quiet (k a)) → quiet (bind m k).
Proof.
  intros Hm Hk w w' r Hw. unfold bind. destruct (m w) as [w1 [a|e|]] eqn:H1.
  - destruct (Hm _ _ _ Hw H1) as [S1 _]. intros H2.
    destruct (Hk a _ _ _ (same_files_ok _ _ S1 Hw) H2) as [S2 ?]. split; [|done].
    by eapply same_files_trans.
  - intros [= <- <-]. by destruct (Hm _ _ _ Hw H1) as [S1 _].
  - by destruct (Hm _ _ _ Hw H1) as [_ ?].
Qed.

Lemma quiet_with_err {E F A} (f : E → F) (m : io World E A) : quiet m → quiet (with_err f m).
Proof.
  intros Hm w w' r Hw. unfold with_err. destruct (m w) as [w1 r1] eqn:H1. intros [= <- <-].
  destruct (Hm _ _ _ Hw H1). split; [done|]. by destruct r1.
Qed.

Lemma quiet_if {E A} (b : bool) (m n : io World E A) : quiet m → quiet n → quiet (if b then m else n).
Proof. by destruct b. Qed.

#[export] Hint Resolve quiet_ret quiet_fail quiet_get quiet_with_err : quiet.

(** The next step of a computation. *)
Ltac quiet_step :=
  first
    [ progress intros
    | solve [eauto with quiet]
    | apply quiet_bind
    | apply quiet_if
    | match goal with
      | |- quiet (match ?x with _ => _ end) => destruct x
      | |- quiet (let _ := ?x in _) => cbv zeta
      end ].
Ltac quiet := repeat quiet_step.

Section accesses.
Context {faults : FsFaults} {order : ReadOrder} {signal : CancelSignal}.

Lemma quiet_locate create p : quiet (locate create p).
Proof. intros w w' r _ [Hs Hr]%locate_run. split; [done|]. by destruct r. Qed.

Lemma quiet_catch {E A} (m : io World ErrorKind A) : quiet m → quiet (E := E) (catch m).
Proof.
  intros Hm w w' r Hw Hc. apply catch_run in Hc as [(a & H & ->)|[(e & H & ->)|[H ->]]];
    destruct (Hm _ _ _ Hw H); by split.
Qed.
#[local] Hint Resolve quiet_locate quiet_catch : quiet.

Lemma quiet_access : quiet access.
Proof. unfold access. intros w w' r _ [= <- <-]. split; [done|]. by destruct (fault _). Qed.
#[local] Hint Resolve quiet_access : quiet.

Lemma quiet_is_dir {E} p : quiet (E := E) (is_dir p).
Proof. unfold is_dir. quiet. Qed.
Lemma quiet_metadata_len {E} p : quiet (E := E) (metadata_len p).
Proof. unfold metadata_len. quiet. Qed.
Lemma quiet_read p : quiet (read p).
Proof. unfold read. quiet. Qed.
Lemma quiet_read_dir p : quiet (read_dir p).
Proof. unfold read_dir. quiet. Qed.
Lemma quiet_symlink_metadata p : quiet (symlink_metadata p).
Proof. unfold symlink_metadata. quiet. Qed.
Lemma quiet_poll {E} : quiet (E := E) poll.
Proof. intros w w' r _ [= <- <-]. by split. Qed.
Lemma quiet_resolve root path must_exist : quiet (resolve_in_root root path must_exist).
Proof. intros w w' r Hw [Hs Hr]%resolve_run; [|done]. split; [done|]. by destruct r. Qed.

Lemma quiet_arg {A} key (r : outcome FieldError A) : r ≠ Panic → quiet (arg key r).
Proof. intros Hr. apply quiet_lift. by destruct r. Qed.
End accesses.
#[export] Hint Resolve quiet_locate quiet_catch quiet_access quiet_is_dir quiet_metadata_len
  quiet_read quiet_read_dir quiet_symlink_metadata quiet_poll quiet_resolve quiet_arg : quiet.

(** ** Reading arguments *)

Lemma extract_loop_total fuel s key : extract_loop fuel s key ≠ Panic.
Proof.
  revert s. induction fuel as [|fuel IH]; intros s; cbn [extract_loop]; [done|].
  destruct (parse_string s) as [[name s1]|]; [|done]. destruct (eat _ s1) as [s2 []]; cbn [negb]; [|done].
  destruct name as [|name]; [done|]. destruct (name == key).
  - destruct (bool_decide _); [|done]. by destruct (parse_string s2) as [[[] ?]|].
  - destruct (skip_value s2) as [s3|]; [|done]. destruct (eat _ s3) as [s4 []]; [done|].
    by destruct (eat _ s4) as [s5 []].
Qed.
Lemma extract_total text key : extract_string text key ≠ Panic.
Proof.
  unfold extract_string. destruct (eat _ _) as [s []]; cbn [negb]; [|done].
  destruct (eat _ s) as [s1 []]; [done|]. apply extract_loop_total.
Qed.
Lemma required_total text key : required_string text key ≠ Panic.
Proof. apply extract_total. Qed.
Lemma optional_total text key : optional_string text key ≠ Panic.
Proof.
  unfold optional_string. pose proof (extract_total text key).
  by destruct (extract_string text key) as [|[]|].
Qed.
Lemma optional_u64_total text key : optional_u64 text key ≠ Panic.
Proof.
  unfold optional_u64. destruct (raw_value text key) as [raw|]; [|done].
  by destruct (from_str_radix _ _ _ _).
Qed.
Lemma optional_bool_total text key : optional_bool text key ≠ Panic.
Proof.
  unfold optional_bool. destruct (raw_value text key) as [raw|]; [|done].
  by destruct (raw == "true"), (raw == "false").
Qed.
#[export] Hint Resolve required_total optional_total optional_u64_total optional_bool_total : quiet.

(** ** The tools *)
Section tools.
Context {faults : FsFaults} {order : ReadOrder} {signal : CancelSignal} {globs : Globs}
        {lower : Lowercase}.

Lemma quiet_refuse_directory path target : quiet (refuse_directory path target).
Proof. unfold refuse_directory. quiet. Qed.
Lemma quiet_read_file path target : quiet (read_file path target).
Proof. unfold read_file. quiet. Qed.
#[local] Hint Resolve quiet_refuse_directory quiet_read_file : quiet.

Lemma quiet_read_tool self arguments : quiet (read_tool self arguments).
Proof. unfold read_tool. quiet. Qed.

Lemma quiet_stop : quiet stop_if_requested.
Proof. unfold stop_if_requested. quiet. Qed.
Lemma quiet_done_err {A} (m : io World RichToolResult A) : quiet m → quiet (done_err m).
Proof. apply quiet_with_err. Qed.
Lemma quiet_or_io {A} (m : io World ErrorKind A) : quiet m → quiet (or_io m).
Proof. apply quiet_with_err. Qed.
#[local] Hint Resolve quiet_stop quiet_done_err quiet_or_io : quiet.

Lemma quiet_glob_arg arguments : quiet (glob_arg arguments).
Proof. unfold glob_arg. quiet. Qed.
Lemma quiet_list_entries target matcher found : quiet (list_entries target matcher found).
Proof. induction found as [|name found IH]; cbn [list_entries]; quiet. Qed.
#[local] Hint Resolve quiet_glob_arg quiet_list_entries : quiet.

Lemma quiet_list_tool self arguments : quiet (list_tool self arguments).
Proof. unfold list_tool. quiet. Qed.

(** The calls of quiet tools. *)
Lemma quiet_call (m : io World RichToolResult RichToolResult) w w' r :
  quiet m → world_ok w → call_with_cx m w = (w', r) → same_files w w' ∧ ∃ ended, r = Ok ended.
Proof.
  intros Hm Hw. unfold call_with_cx, poll, settle.
  pose proof (same_files_ok w (looked w)) as Hl.
  assert (same_files w (looked w)) as Hs by done.
  destruct (requested (looks w)); [intros [= <- <-]; eauto|].
  destruct (m (looked w)) as [w1 r1] eqn:H1. destruct (Hm _ _ _ (Hl Hs Hw) H1) as [S1 P1].
  destruct r1; [| |done]; intros [= <- <-]; split; eauto.
Qed.
Lemma quiet_end (m : io World ToolInvokeEnd RichToolResult) w w' r :
  quiet m → world_ok w → stoppable_end m w = (w', r) → same_files w w' ∧ ∃ ended, r = Ok ended.
Proof.
  intros Hm Hw. unfold stoppable_end. destruct (m w) as [w1 r1] eqn:H1.
  destruct (Hm _ _ _ Hw H1) as [S1 P1]. destruct r1; [| |done]; intros [= <- <-]; eauto.
Qed.
End tools.
#[export] Hint Resolve quiet_refuse_directory quiet_read_file quiet_read_tool quiet_stop quiet_done_err
  quiet_or_io quiet_glob_arg quiet_list_entries quiet_list_tool : quiet.

End tool_quiet.

Import tools jsonl_codec tool_text text_proofs tool_fs tool_path path_proofs tool_resolve tool_effects tool_args std_tools tool_quiet.

Module tool_changes.

#[local] Opaque lookup_path.

Section changes.
Context {faults : FsFaults}.

(** What a call may change: nothing, or files below the root. *)
Definition inside (root : string) (w w' : World) : Prop :=
  nodes w' = nodes w ∨
  ∃ base, lookup_path false (raw_path root) w = inr base ∧ unchanged_outside base (nodes w) (nodes w').

(** The state after a call: the tree is a tree, and what changed is inside. *)
Record changed (root : string) (w w' : World) : Prop := {
  changed_ok : world_ok w';
  changed_cwd : cwd w' = cwd w;
  changed_inside : inside root w w'
}.

Lemma changed_same root w w' : world_ok w → same_files w w' → changed root w w'.
Proof. intros Hw Hs. pose proof Hs as [Hn Hc]. split; [by eapply same_files_ok|done|by left]. Qed.

Lemma changed_after root w w1 w2 : same_files w w1 → changed root w1 w2 → changed root w w2.
Proof.
  intros Hs [H1 H2 H3]. pose proof Hs as [Hn Hc]. split; [done|congruence|].
  destruct H3 as [H3|(base & H3 & H4)]; [left; congruence|right]. exists base.
  rewrite (same_files_lookup _ _ _ _ Hs) in H3. by rewrite Hn in H4.
Qed.

(** A computation that goes on after a quiet one. *)
Lemma after_quiet {A B} (m : io World RichToolResult A) (k : A → io World RichToolResult B) w w' r :
  quiet m → world_ok w → bind m k w = (w', r) →
  (∃ e, same_files w w' ∧ r = Err e) ∨
  ∃ w1 a, same_files w w1 ∧ world_ok w1 ∧ m w = (w1, Ok a) ∧ k a w1 = (w', r).
Proof.
  intros Hm Hw. unfold bind. destruct (m w) as [w1 r1] eqn:H1. destruct (Hm _ _ _ Hw H1) as [S1 P1].
  pose proof (same_files_ok _ _ S1 Hw). destruct r1 as [a|e|]; [|intros [= <- <-]; eauto|done].
  intros H2. right. by exists w1, a.
Qed.

Lemma arg_ok {A} key (o : outcome FieldError A) w w1 a :
  arg key o w = (w1, Ok a) → o = Ok a.
Proof.
  unfold arg, lift, map_err. destruct o; intros H; [|discriminate H..]. injection H as _ ->. reflexivity.
Qed.

Lemma with_err_ok {E F A} (f : E → F) (m : io World E A) w w1 a :
  with_err f m w = (w1, Ok a) → m w = (w1, Ok a).
Proof. unfold with_err. destruct (m w) as [w2 []]; by intros [= <- <-]. Qed.

Lemma no_dangling_same w w' : same_files w w' → no_dangling (nodes w) → no_dangling (nodes w').
Proof. intros [-> _]. exact (λ H, H). Qed.
Lemma contained_same w w' base p e : same_files w w' → contained w base p e → contained w' base p e.
Proof.
  intros Hs [H1 H2 (there & new & H3 & H4 & H5 & H6 & H7)]. pose proof Hs as [Hn _]. split; [done..|].
  exists there, new. rewrite Hn. refine (conj H3 (conj H4 (conj H5 (conj _ H7)))).
  destruct new as [|x new]; [exact I|]. destruct H6 as (q & Hq & Hm). exists q. unfold missing in *.
  rewrite !(same_files_lookup _ _ _ _ Hs). exact (conj Hq Hm).
Qed.

Lemma same_files_sym w w' : same_files w w' → same_files w' w.
Proof. intros [H1 H2]. by split. Qed.

(** Directories made on the way to where a path was resolved to. *)
Lemma grows_inside base target w w1 must_exist :
  world_ok w → contained w base target must_exist → grows (removelast target) w w1 →
  unchanged_outside base (nodes w) (nodes w1).
Proof.
  intros Hw [Hb Hp (there & new & Heq & Hbt & (node & Hnode & Hpl) & _ & _)] (Hw1 & Hc1 & Hg).
  eapply (grown_unchanged base there new); [by destruct Hw|done|done| |done]. rewrite <- Heq.
  destruct target as [|x target _] using rev_ind; [done|]. rewrite removelast_last. by eexists.
Qed.

(** A file written where a path was resolved to. *)
Lemma write_inside root base target w w1 w2 r bytes must_exist :
  world_ok w → no_dangling (nodes w) → lookup_path false (raw_path root) w = inr base →
  contained w base target must_exist → grows (removelast target) w w1 →
  write target bytes w1 = (w2, r) →
  changed root w w2 ∧ r ≠ Panic ∧
  (r = Ok tt → nodes w2 !! target = Some (FileNode bytes) ∧
    ∀ k, k ≠ target → nodes w2 !! k = nodes w !! k ∨
      (nodes w !! k = None ∧ nodes w2 !! k = Some DirNode ∧ k `prefix_of` removelast target)).
Proof.
  intros Hw Hnd Hroot Hcon (Hw1 & Hc1 & Hg) Hwr.
  pose proof (resolved_link_free _ _ _ _ Hw Hnd Hcon) as Hl.
  pose proof (grown_link_free _ _ _ _ Hg Hl) as Hl1.
  assert (unchanged_outside base (nodes w) (nodes w1)) as Hu by (by eapply grows_inside; eauto).
  destruct Hcon as [Hb Hp _]. apply write_run in Hwr as (Hw2 & Hc2 & Hr); [|done..].
  assert (∀ n, unchanged_outside base (nodes w) (<[target := n]> (nodes w1))) as Hu2.
  { intros n. eapply unchanged_trans; [done|]. by apply unchanged_insert. }
  split; [|split; [by destruct r|]].
  - split; [done|congruence|]. right. exists base. split; [done|].
    destruct r as [u|e|]; [by rewrite Hr|by destruct Hr as [->|[part ->]]|done].
  - intros ->. rewrite Hr. split; [apply lookup_insert_eq|]. intros k Hk.
    rewrite lookup_insert_ne by done. destruct (Hg k) as [?|(? & ? & ?)]; auto.
Qed.

Lemma create_parents target w w' r :
  world_ok w → Forall proper target → link_free (nodes w) target →
  (match last target with
   | Some _ => or_io (create_dir_all (removelast target))
   | None => ret tt
   end) w = (w', r) → grows (removelast target) w w' ∧ r ≠ Panic.
Proof.
  intros Hw Hp Hl. destruct (last target) as [x|] eqn:Hx.
  - apply removelast_app_last in Hx. rewrite Hx in Hp, Hl. apply Forall_app in Hp as [Hp _].
    apply link_free_prefix in Hl. unfold or_io, with_err, create_dir_all.
    destruct (create_dir_all_rev (reverse (removelast target)) w) as [w1 r1] eqn:H1.
    apply create_dir_all_run in H1; rewrite ?reverse_involutive in *; try done.
    destruct H1 as [Hg Hnp]. intros [= <- <-]. split; [done|]. by destruct r1.
  - apply last_None in Hx as ->. intros [= <- <-]. split; [|done]. by apply grows_same.
Qed.

Lemma resolved_target root path must_exist w w' target :
  world_ok w → with_err (path_error path) (resolve_in_root root path must_exist) w = (w', Ok target) →
  ∃ base, lookup_path false (raw_path root) w = inr base ∧ contained w base target must_exist.
Proof. intros Hw H%with_err_ok. by apply resolve_run in H as [_ H]. Qed.

Lemma grows_after p w w1 w2 : same_files w w1 → grows p w1 w2 → grows p w w2.
Proof. intros [Hn Hc] (H1 & H2 & H3). split_and!; [done|congruence|by rewrite Hn in H3]. Qed.

Lemma write_tool_run root arguments w w' r :
  world_ok w → no_dangling (nodes w) → write_tool root arguments w = (w', r) →
  changed root w w' ∧ r ≠ Panic ∧
  ∀ res, r = Ok res → ∃ path content base target,
    required_string arguments "path" = Ok path ∧ required_string arguments "content" = Ok content ∧
    lookup_path false (raw_path root) w = inr base ∧ contained w base target false ∧
    nodes w' !! target = Some (FileNode content) ∧
    ∀ k, k ≠ target → nodes w' !! k = nodes w !! k ∨
      (nodes w !! k = None ∧ nodes w' !! k = Some DirNode ∧ k `prefix_of` removelast target).
Proof.
  intros Hw Hnd. unfold write_tool.
  intros [(e & Hs & ->)|(w1 & path & S1 & W1 & Hpath & H1)]%after_quiet; [| |quiet|done].
  { split; [by apply changed_same|done]. }
  apply arg_ok in Hpath.
  apply after_quiet in H1 as [(e & Hs & ->)|(w2 & content & S2 & W2 & Hcontent & H2)]; [| |quiet|done].
  { split; [|done]. apply changed_same; [done|by eapply same_files_trans]. }
  apply arg_ok in Hcontent. assert (same_files w w2) as S02 by by eapply same_files_trans.
  apply after_quiet in H2 as [(e & Hs & ->)|(w3 & target & S3 & W3 & Htarget & H3)]; [| |quiet|done].
  { split; [|done]. apply changed_same; [done|by eapply same_files_trans]. }
  assert (same_files w w3) as S03 by by eapply same_files_trans.
  apply resolved_target in Htarget as (base & Hroot & Hcon); [|done].
  rewrite (same_files_lookup _ _ _ _ S02) in Hroot.
  apply (contained_same _ w) in Hcon; [|by apply same_files_sym].
  apply after_quiet in H3 as [(e & Hs & ->)|(w4 & u & S4 & W4 & _ & H4)]; [| |quiet|done].
  { split; [|done]. apply changed_same; [done|by eapply same_files_trans]. }
  apply after_quiet in H4 as [(e & Hs & ->)|(w5 & previous & S5 & W5 & _ & H5)]; [| |quiet|done].
  { split; [|done]. apply changed_same; [done|]. by do 2 (eapply same_files_trans; [done|]). }
  assert (same_files w w5) as S05 by by do 2 (eapply same_files_trans; [done|]).
  pose proof (resolved_link_free _ _ _ _ Hw Hnd Hcon) as Hl.
  unfold bind at 1 in H5.
  destruct ((match last target with
             | Some _ => or_io (create_dir_all (removelast target))
             | None => ret tt
             end) w5) as [w6 r6] eqn:H6.
  apply create_parents in H6 as [Hg P6]; [|done|by destruct Hcon|by destruct S05 as [-> _]].
  apply (grows_after _ w) in Hg; [|done].
  destruct r6 as [u6|e|]; [|injection H5 as <- <-|done].
  2:{ split; [|done]. pose proof Hg as (? & ? & ?). split; [done|done|]. right. exists base.
      split; [done|]. by eapply grows_inside. }
  unfold bind at 1, or_io, with_err in H5. destruct (write target content w6) as [w7 r7] eqn:H7.
  apply (write_inside root base target w _ _ _ _ false) in H7 as (Hch & P7 & Hr7); try done.
  destruct r7 as [u7|e|]; cbn [map_err] in H5; [|by injection H5 as <- <-|done].
  injection H5 as <- <-. split; [done|]. split; [done|]. intros res _.
  destruct u7, (Hr7 eq_refl) as [Ht Hk]. exists path, content, base, target. by split_and!.
Qed.

(** A file read where a path was resolved to. *)
Lemma read_there w base target w1 bytes path must_exist :
  world_ok w → no_dangling (nodes w) → contained w base target must_exist →
  read_file path target w = (w1, Ok bytes) → nodes w !! target = Some (FileNode bytes).
Proof.
  intros Hw Hnd Hcon. pose proof (resolved_link_free _ _ _ _ Hw Hnd Hcon) as Hl.
  destruct Hcon as [_ Hp _]. unfold read_file, bind.
  destruct (catch (E := RichToolResult) (read target) w) as [w2 r2] eqn:H1.
  apply catch_run in H1 as [(a & H1 & ->)|[(e & H1 & ->)|[H1 ->]]]; [|by destruct e|done].
  intros [= <- <-]. revert H1. unfold read, bind.
  destruct (locate false (of_names target) w) as [w3 r3] eqn:H3. destruct r3 as [at_|e|]; [|done|done].
  apply locate_free in H3 as [[Hn Hc] ->]; [|done..]. unfold access, get.
  destruct (fault (looks w3)); [done|]. cbn. rewrite Hn.
  destruct (nodes w !! target) as [[]|]; try done. by intros [= _ ->].
Qed.

Lemma edit_tool_run root arguments w w' r :
  world_ok w → no_dangling (nodes w) → edit_tool root arguments w = (w', r) →
  changed root w w' ∧ r ≠ Panic ∧
  ∀ res, r = Ok res → ∃ path old_string new_string base target full_text final_text,
    required_string arguments "path" = Ok path ∧
    required_string arguments "old_string" = Ok old_string ∧ old_string ≠ "" ∧
    required_string arguments "new_string" = Ok new_string ∧
    lookup_path false (raw_path root) w = inr base ∧ contained w base target true ∧
    nodes w !! target = Some (FileNode full_text) ∧ valid_utf8 full_text = true ∧
    edited_text path full_text old_string new_string = inr final_text ∧
    nodes w' = <[target := FileNode final_text]> (nodes w).
Proof.
  intros Hw Hnd. unfold edit_tool.
  intros [(e & Hs & ->)|(w1 & path & S1 & W1 & Hpath & H1)]%after_quiet; [| |quiet|done].
  { split; [by apply changed_same|done]. }
  apply arg_ok in Hpath.
  apply after_quiet in H1 as [(e & Hs & ->)|(w2 & old_string & S2 & W2 & Hold & H2)]; [| |quiet|done].
  { split; [|done]. apply changed_same; [done|by eapply same_files_trans]. }
  apply arg_ok in Hold. assert (same_files w w2) as S02 by by eapply same_files_trans.
  destruct (str_is_empty old_string) eqn:Hempty.
  { injection H2 as <- <-. split; [by apply changed_same|done]. }
  apply str_is_empty_false in Hempty.
  apply after_quiet in H2 as [(e & Hs & ->)|(w3 & new_string & S3 & W3 & Hnew & H3)]; [| |quiet|done].
  { split; [|done]. apply changed_same; [done|by eapply same_files_trans]. }
  apply arg_ok in Hnew. assert (same_files w w3) as S03 by by eapply same_files_trans.
  apply after_quiet in H3 as [(e & Hs & ->)|(w4 & target & S4 & W4 & Htarget & H4)]; [| |quiet|done].
  { split; [|done]. apply changed_same; [done|by eapply same_files_trans]. }
  assert (same_files w w4) as S04 by by eapply same_files_trans.
  apply resolved_target in Htarget as (base & Hroot & Hcon); [|done].
  rewrite (same_files_lookup _ _ _ _ S03) in Hroot.
  apply (contained_same _ w) in Hcon; [|by apply same_files_sym].
  apply after_quiet in H4 as [(e & Hs & ->)|(w5 & u & S5 & W5 & _ & H5)]; [| |quiet|done].
  { split; [|done]. apply changed_same; [done|by eapply same_files_trans]. }
  assert (same_files w w5) as S05 by by eapply same_files_trans.
  apply after_quiet in H5 as [(e & Hs & ->)|(w6 & bytes & S6 & W6 & Hread & H6)]; [| |quiet|done].
  { split; [|done]. apply changed_same; [done|by eapply same_files_trans]. }
  assert (same_files w w6) as S06 by by eapply same_files_trans.
  apply (read_there w5 base _ _ _ _ true) in Hread;
    [|done|by destruct S05 as [-> _]|by eapply contained_same].
  destruct S05 as [N5 _]. rewrite N5 in Hread.
  unfold from_utf8 in H6. destruct (valid_utf8 bytes) eqn:Hutf.
  2:{ injection H6 as <- <-. split; [by apply changed_same|done]. }
  destruct (edited_text path bytes old_string new_string) as [error|final_text] eqn:Hedit.
  { injection H6 as <- <-. split; [by apply changed_same|done]. }
  unfold bind, or_io, with_err in H6. destruct (write target final_text w6) as [w7 r7] eqn:H7.
  pose proof (resolved_link_free _ _ _ _ Hw Hnd Hcon) as Hl.
  pose proof H7 as (_ & _ & Hw7)%write_run; [|done|by destruct Hcon|by destruct S06 as [-> _]].
  apply (write_inside root base target w _ _ _ _ true) in H7 as (Hch & P7 & Hr7); try done;
    [|by apply grows_same].
  destruct r7 as [u7|e|]; cbn [map_err] in H6; [|by injection H6 as <- <-|done].
  injection H6 as <- <-. split; [done|]. split; [done|]. intros res _.
  exists path, old_string, new_string, base, target, bytes, final_text. destruct S06 as [N6 _].
  rewrite N6 in Hw7. by split_and!.
Qed.
End changes.

(** ** What an edit makes of a text *)

Lemma replace_nonempty p to s : p ≠ "" → to ≠ "" → s ≠ "" → replace p to s ≠ "".
Proof.
  intros Hp Hto Hs. rewrite replace_unfold by done.
  destruct (split_first p s) as [[a r]|]; [|done].
  intros (_ & (? & _)%str_app_eq_nil)%str_app_eq_nil. done.
Qed.
Lemma normalize_nonempty s : s ≠ "" → normalize_to_lf s ≠ "".
Proof. intros. unfold normalize_to_lf. by do 2 (apply replace_nonempty; [done..|]). Qed.

(** *** Line endings

    A text with one line feed at the end of each line, whichever of the three
    endings the line has; a text with such lines and another ending. *)
Fixpoint unix (s : string) : string :=
  match s with
  | EmptyString => ""
  | String b r =>
      if b == CR then
        match r with
        | EmptyString => lf
        | String c r' => if c == LF then String LF (unix r') else String LF (unix r)
        end
      else String b (unix r)
  end.
Fixpoint with_ending (ending s : string) : string :=
  match s with
  | EmptyString => ""
  | String b r => if b == LF then ending +:+ with_ending ending r else String b (with_ending ending r)
  end.

(** The ending an edited file gets; every line of the file has it. *)
Definition ending_of (content ending : string) : Prop :=
  (ending = crlf ∧ ∃ a b, content = a +:+ crlf +:+ b) ∨
  (ending = lf ∧ ∀ a b, content ≠ a +:+ crlf +:+ b).
Definition uniform (ending content : string) : Prop := content = with_ending ending (unix content).

Lemma with_ending_app e a b : with_ending e (a +:+ b) = with_ending e a +:+ with_ending e b.
Proof.
  induction a as [|x a IH]; [by rewrite !str_app_nil|]. rewrite str_app_cons. cbn [with_ending].
  rewrite IH. destruct (x == LF); [by rewrite str_app_assoc|by rewrite str_app_cons].
Qed.
Lemma with_lf s : with_ending lf s = s.
Proof.
  induction s as [|x s IH]; [done|]. cbn [with_ending]. rewrite IH.
  destruct (x == LF) eqn:Hx; [|done]. by apply bool_decide_eq_true in Hx as ->.
Qed.

(** A replacement from the left. *)
Lemma replace_empty p to : p ≠ "" → replace p to "" = "".
Proof. intros Hp. rewrite replace_unfold by done. by destruct p. Qed.
Lemma replace_match p to s : p ≠ "" → replace p to (p +:+ s) = to +:+ replace p to s.
Proof.
  intros Hp. rewrite replace_unfold by done.
  assert (split_first p (p +:+ s) = Some ("", s)) as ->.
  { apply split_first_Some. split; [by rewrite str_app_nil|]. intros. cbn. lia. }
  by rewrite str_app_nil.
Qed.
Lemma replace_skip p to b s :
  p ≠ "" → (∀ r, String b s ≠ p +:+ r) → replace p to (String b s) = String b (replace p to s).
Proof.
  intros Hp Hn%strip_prefix_None. rewrite (replace_unfold p to (String b s)), (replace_unfold p to s) by done.
  rewrite split_first_cons, Hn. destruct (split_first p s) as [[a r]|]; [|done]. by rewrite str_app_cons.
Qed.

Lemma replace_lf e s : replace lf e s = with_ending e s.
Proof.
  induction s as [|b s IH]; [by rewrite replace_empty|]. cbn [with_ending].
  destruct (b == LF) eqn:Hb.
  - apply bool_decide_eq_true in Hb as ->. change (String LF s) with (lf +:+ s).
    by rewrite replace_match, IH.
  - apply bool_decide_eq_false in Hb. rewrite replace_skip, IH; [done..|].
    intros r Hr. unfold lf in Hr. rewrite str_app_cons in Hr. by injection Hr.
Qed.

(** What the two replacements make of the beginning of a text. *)
Lemma normalize_plain b s : b ≠ CR → normalize_to_lf (String b s) = String b (normalize_to_lf s).
Proof.
  intros Hb. unfold normalize_to_lf. rewrite (replace_skip crlf), (replace_skip cr); [done|done|..|done|].
  - intros r Hr. unfold cr in Hr. rewrite str_app_cons in Hr. by injection Hr.
  - intros r Hr. unfold crlf, cr in Hr. rewrite !str_app_cons in Hr. by injection Hr.
Qed.
Lemma normalize_crlf s : normalize_to_lf (String CR (String LF s)) = String LF (normalize_to_lf s).
Proof.
  unfold normalize_to_lf. change (String CR (String LF s)) with (crlf +:+ s).
  rewrite replace_match by done. unfold lf at 2. rewrite str_app_cons, str_app_nil.
  rewrite replace_skip; [done|done|]. intros r Hr. unfold cr in Hr. rewrite str_app_cons in Hr. by injection Hr.
Qed.
Lemma normalize_cr s :
  (∀ r, s ≠ String LF r) → normalize_to_lf (String CR s) = String LF (normalize_to_lf s).
Proof.
  intros Hs. unfold normalize_to_lf. rewrite (replace_skip crlf); [|done|].
  - change (String CR (replace crlf lf s)) with (cr +:+ replace crlf lf s).
    rewrite replace_match by done. unfold lf at 1. by rewrite str_app_cons, str_app_nil.
  - intros r Hr. unfold crlf, cr, lf in Hr. rewrite !str_app_cons, !str_app_nil in Hr.
    injection Hr as Hr. by apply Hs in Hr.
Qed.

Lemma normalize_unix s : normalize_to_lf s = unix s.
Proof.
  remember (String.length s) as n eqn:Hn. revert s Hn.
  induction (lt_wf n) as [n _ IH]. intros s ->. destruct s as [|b s]; [done|].
  cbn [unix]. destruct (b == CR) eqn:Hb.
  - apply bool_decide_eq_true in Hb as ->. destruct s as [|c s]; [by rewrite normalize_cr|].
    destruct (c == LF) eqn:Hc.
    + apply bool_decide_eq_true in Hc as ->. rewrite normalize_crlf. f_equal.
      eapply IH; [|done]. cbn. lia.
    + apply bool_decide_eq_false in Hc. rewrite normalize_cr by congruence. f_equal.
      eapply IH; [|done]. cbn. lia.
  - apply bool_decide_eq_false in Hb. rewrite normalize_plain by done. f_equal.
    eapply IH; [|done]. cbn. lia.
Qed.

(** The line endings of an edited text. *)
Definition restore (content edited : string) : string :=
  if contains crlf content then replace lf crlf edited else edited.
Lemma restore_ending content :
  ∃ ending, ending_of content ending ∧ ∀ edited, restore content edited = with_ending ending edited.
Proof.
  unfold restore, contains. destruct (split_first crlf content) as [[a r]|] eqn:Hs.
  - apply split_first_Some in Hs as [-> _]. exists crlf. split; [left; eauto|]. intros. apply replace_lf.
  - pose proof (proj1 (split_first_None _ _) Hs) as H. exists lf. split; [by right|]. intros. by rewrite with_lf.
Qed.

Lemma edited_text_spec path full_text old_string new_string final_text :
  old_string ≠ "" →
  edited_text path full_text old_string new_string = inr final_text ↔
  ∃ bom content before after,
    full_text = bom +:+ content ∧ (bom = BOM ∨ (bom = "" ∧ strip_prefix BOM full_text = None)) ∧
    normalize_to_lf content = before +:+ normalize_to_lf old_string +:+ after ∧
    (∀ before' after', normalize_to_lf content = before' +:+ normalize_to_lf old_string +:+ after' →
      String.length before ≤ String.length before'
      < String.length before + String.length (normalize_to_lf old_string)) ∧
    final_text = bom +:+ restore content (before +:+ new_string +:+ after).
Proof.
  intros Hold. apply normalize_nonempty in Hold. unfold edited_text.
  destruct (match strip_prefix BOM full_text with Some rest => (BOM, rest) | None => ("", full_text) end)
    as [bom content] eqn:Hbom.
  assert (full_text = bom +:+ content ∧ (bom = BOM ∨ bom = "" ∧ strip_prefix BOM full_text = None)) as [Hfull Hb].
  { destruct (strip_prefix BOM full_text) as [rest|] eqn:Hs; injection Hbom as <- <-; [|by auto].
    apply strip_prefix_Some in Hs. by auto. }
  set (old := normalize_to_lf old_string) in *. set (text := normalize_to_lf content).
  assert (match_count old text = 1 ↔ ∃ a r, text = a +:+ old +:+ r ∧
    ∀ a' r', text = a' +:+ old +:+ r' →
      String.length a ≤ String.length a' < String.length a + String.length old) as Hone.
  { rewrite match_count_1 by done. by setoid_rewrite only_match. }
  split.
  - case_bool_decide as H0; [done|]. case_bool_decide as H1; [done|]. intros [= <-].
    destruct (proj1 Hone) as (a & r & Ht & Hall); [lia|].
    exists bom, content, a, r. split_and!; [done|done|done|done|]. f_equal. unfold restore.
    assert (replace_first old new_string text = a +:+ new_string +:+ r) as ->; [|done].
    unfold replace_first. destruct (proj2 (only_match old text a r)) as [-> _]; done.
  - intros (bom' & content' & a & r & Hfull' & Hb' & Ht & Hall & ->).
    assert (bom' = bom ∧ content' = content) as [-> ->].
    { destruct Hb as [->|[-> Hn]], Hb' as [->|[-> Hn']]; try done.
      - split; [done|]. rewrite Hfull in Hfull'. by apply str_app_inj_l in Hfull'.
      - exfalso. rewrite Hfull in Hn'. by apply (proj1 (strip_prefix_None _ _) Hn' content).
      - exfalso. rewrite Hfull' in Hn. by apply (proj1 (strip_prefix_None _ _) Hn content').
      - split; [done|]. rewrite Hfull in Hfull'. by rewrite !str_app_nil in Hfull'. }
    fold text in Ht, Hall. assert (match_count old text = 1) as Hc by (apply Hone; eauto).
    rewrite Hc, bool_decide_false, bool_decide_false by lia. unfold restore.
    assert (replace_first old new_string text = a +:+ new_string +:+ r) as ->; [|done].
    unfold replace_first. destruct (proj2 (only_match old text a r)) as [-> _]; done.
Qed.

End tool_changes.

Import tool_text text_proofs std_tools.

Module tool_pages.

(** ** Pages *)

(** The rows of lines from an index on. *)
Definition rows_from (index : nat) (ls : list string) : string :=
  concat_str (imap (λ i line, numbered_row (index + i) line) ls).

Lemma rows_from_cons index line ls :
  rows_from index (line :: ls) = numbered_row index line +:+ rows_from (S index) ls.
Proof.
  unfold rows_from. cbn [imap concat_str]. rewrite Nat.add_0_r. f_equal. f_equal.
  apply imap_ext. intros i x _. cbn. f_equal. lia.
Qed.

(** Where the loop over the lines stops, and why. *)
Lemma number_lines_spec max_bytes most index rows numbered emitted numbered' emitted' stop :
  String.length numbered ≤ max_bytes → emitted ≤ most →
  number_lines max_bytes most index rows numbered emitted = (numbered', emitted', stop) →
  ∃ n, emitted' = emitted + n ∧ n ≤ length rows ∧ emitted' ≤ most ∧
    numbered' = numbered +:+ rows_from index (take n rows) ∧ String.length numbered' ≤ max_bytes ∧
    match stop with
    | EndOfFile => n = length rows
    | StoppedByLimit => n < length rows ∧ emitted' = most
    | StoppedByBudget => emitted' < most ∧ ∃ line, rows !! n = Some line ∧
        max_bytes < String.length numbered' + String.length (numbered_row (index + n) line)
    end.
Proof.
  revert index numbered emitted. induction rows as [|line rows IH]; intros index numbered emitted Hb He;
    cbn [number_lines].
  { intros [= <- <- <-]. exists 0. cbn. rewrite str_app_nil_r. split_and!; try done; lia. }
  case_bool_decide as Hmost.
  { intros [= <- <- <-]. exists 0. cbn. rewrite str_app_nil_r. split_and!; try done; lia. }
  case_bool_decide as Hfit.
  { intros [= <- <- <-]. exists 0. cbn. rewrite str_app_nil_r. split_and!; try done; try lia.
    exists line. by rewrite Nat.add_0_r. }
  intros (n & -> & Hn & Hm & -> & Hl & Hs)%IH; [|rewrite str_app_length; lia|lia].
  exists (S n). cbn [take length lookup list_lookup]. rewrite rows_from_cons, <- str_app_assoc.
  split_and!; try done; try lia. destruct stop; [lia|lia|].
  destruct Hs as (H1 & l & H2 & H3). split; [lia|]. exists l. split; [done|].
  replace (index + S n) with (S index + n) by lia. done.
Qed.

(** A page: lines from where it starts, as many as fit. *)
Lemma page_spec max_bytes most start ls text end_line emitted truncated :
  1 ≤ most → 1 ≤ start ≤ length ls →
  page max_bytes most start ls = (text, end_line, emitted, truncated) →
  let shown := rows_from (start - 1) (take emitted (drop (start - 1) ls)) in
  (∃ marker, text = shown +:+ marker ∧ (truncated = false → start + emitted = S (length ls) → marker = "")) ∧
  String.length shown ≤ max_bytes ∧ emitted ≤ most ∧ start + emitted ≤ S (length ls) ∧
  (0 < emitted → end_line + 1 = start + emitted) ∧
  (truncated = false → emitted = min most (S (length ls) - start)) ∧
  (truncated = true → emitted < most ∧ ∃ line, ls !! (start - 1 + emitted) = Some line ∧
    max_bytes < String.length shown + String.length (numbered_row (start - 1 + emitted) line)).
Proof.
  intros Hmost Hstart. unfold page.
  destruct (number_lines max_bytes most (start - 1) (drop (start - 1) ls) "" 0) as [[numbered em] stop] eqn:Hnum.
  apply number_lines_spec in Hnum as (n & -> & Hn & Hm & -> & Hl & Hs); [|cbn; lia|lia].
  rewrite str_app_nil in *. rewrite Nat.add_0_l in *. rewrite length_drop in Hn.
  destruct stop.
  - intros [= <- <- <- <-]. rewrite length_drop in Hs. cbn zeta. split_and!; try done; try lia.
    by exists "".
  - rewrite length_drop in Hs. intros [= <- <- <- <-]. cbn zeta. split_and!; try done; try lia.
    eexists. split; [done|]. intros _ Hend. rewrite bool_decide_false; [done|lia].
  - destruct Hs as (Hlt & line & Hline & Hbig). rewrite lookup_drop in Hline.
    pose proof (lookup_lt_Some _ _ _ Hline) as Hlen.
    intros Hp. assert (∃ marker, (text, end_line, emitted, truncated)
      = (rows_from (start - 1) (take n (drop (start - 1) ls)) +:+ marker, start + (n - 1), n, true)) as [marker [= -> -> -> ->]].
    { rewrite <- Hp. destruct (bool_decide (n = 0)); by eexists. }
    cbn zeta. split_and!; try done; try lia.
    + exists marker. by split.
    + intros _. split; [done|]. by exists line.
Qed.

(** ** Entries *)

Lemma leb_total a b : String.leb a b = true ∨ String.leb b a = true.
Proof.
  unfold String.leb. rewrite (String.compare_antisym a b). destruct (String.compare b a); cbn; auto.
Qed.

Lemma entry_le_total a b : entry_le a b = true ∨ entry_le b a = true.
Proof.
  destruct a as [[ad an] al], b as [[bd bn] bl]. unfold entry_le.
  destruct (decide (ad = bd)) as [->|Hd].
  - rewrite !(bool_decide_true (bd = bd)) by done. destruct (decide (al = bl)) as [->|Hl].
    + rewrite !(bool_decide_true (bl = bl)) by done. apply leb_total.
    + rewrite !bool_decide_false by congruence. apply leb_total.
  - rewrite !bool_decide_false by congruence. destruct ad, bd; auto.
Qed.

Lemma insert_entry_perm e l : Permutation (insert_entry e l) (e :: l).
Proof.
  induction l as [|x l IH]; [done|]. cbn. destruct (entry_le e x); [done|]. rewrite IH. by constructor.
Qed.
Lemma sort_entries_perm l : Permutation (sort_entries l) l.
Proof. induction l as [|x l IH]; [done|]. cbn. by rewrite insert_entry_perm, IH. Qed.

Definition le_entry (a b : Entry) : Prop := entry_le a b = true.

Lemma insert_entry_sorted e l : Sorted le_entry l → Sorted le_entry (insert_entry e l).
Proof.
  induction 1 as [|x l Hl IH Hx]; cbn [insert_entry].
  - by repeat constructor.
  - destruct (entry_le e x) eqn:Hle.
    + constructor; [by constructor|]. by constructor.
    + assert (le_entry x e) as Hxe by (destruct (entry_le_total e x); [congruence|done]).
      constructor; [done|]. destruct l as [|y l]; cbn [insert_entry]; [by constructor|].
      destruct (entry_le e y); [by constructor|]. inversion Hx; subst. by constructor.
Qed.
Lemma sort_entries_sorted l : Sorted le_entry (sort_entries l).
Proof. induction l as [|x l IH]; [constructor|]. by apply insert_entry_sorted. Qed.

Definition row_bytes (es : list Entry) : nat :=
  sum_list_with (λ e, String.length (entry_row e) + 1) es.

Lemma take_rows_spec limit max_bytes entries used :
  used ≤ max_bytes →
  ∃ n, take_rows limit max_bytes entries used = entry_row <$> take n entries ∧
    n ≤ limit ∧ n ≤ length entries ∧ used + row_bytes (take n entries) ≤ max_bytes ∧
    (n < length entries → n = limit ∨ ∃ e, entries !! n = Some e ∧
      max_bytes < used + row_bytes (take n entries) + (String.length (entry_row e) + 1)).
Proof.
  revert limit used. induction entries as [|e entries IH]; intros limit used Hu.
  { exists 0. destruct limit; cbn; split_and!; try done; try lia; intros; lia. }
  destruct limit as [|limit]; [exists 0; cbn; split_and!; try done; try lia; by left|]. cbn [take_rows].
  case_bool_decide as Hfit.
  { exists 0. cbn. split_and!; try done; try lia. intros _. right. exists e. split; [done|lia]. }
  destruct (IH limit (used + (String.length (entry_row e) + 1))) as (n & -> & H1 & H2 & H3 & H4); [lia|].
  exists (S n). cbn [take length fmap list_fmap lookup list_lookup]. unfold row_bytes in *.
  cbn [sum_list_with]. split_and!; try done; try lia. intros Hn.
  destruct H4 as [?|(e' & He & Hbig)]; [lia|left; lia|right]. exists e'. split; [done|lia].
Qed.

End tool_pages.
