(* ===== verification/ToolGrep.v ===== *)
(** The search tool (src/crates/philo-tools-std/src/grep.rs).

    Module [tool_grep]: the scan is a loop over a stack of paths. Its fuel is one
    more than the number of the nodes of the file system, since no path is
    visited twice; running out of it is a panic, which [grep_proofs]
    excludes. Names of files are UTF-8. The crate [regex] is the class
    [Regexes].

    The scan of the search tool ends and only looks
    (src/crates/philo-tools-std/src/grep.rs).

    Module [grep_proofs]: the weight of a stack is how many files of the file
    system are below its paths. Taking a path off and putting its children on
    lowers it, which bounds the scan; no link is followed to a directory. *)

From S2P Require Import Prelude RustStr Tools JsonlCodec ToolText ToolPath ToolArgs ToolFiles.
From S2P Require Import ToolPathProofs ToolFilesProofs.
From Stdlib Require Import Ascii.
Import tools jsonl_codec tool_text tool_fs tool_path tool_args std_tools.

Module tool_grep.

Definition DEFAULT_MAX_GREP_MATCHES : nat := 200.
Definition DEFAULT_MAX_GREP_BYTES : nat := 50 * 1024.
Definition GREP_MAX_LINE_CHARS : nat := 500.
Definition GREP_CANCEL_LINE_INTERVAL : nat := 64.

Class Regexes : Type := {
  Regex : Type;
  regex_new : string → string + Regex;
  regex_is_match : Regex → string → bool
}.

Record GrepTool : Type := { grep_root : string; max_matches : nat; grep_max_bytes : nat }.
Definition grep_new (root : string) : GrepTool :=
  {| grep_root := root; max_matches := DEFAULT_MAX_GREP_MATCHES;
     grep_max_bytes := DEFAULT_MAX_GREP_BYTES |}.
Definition with_max_matches (self : GrepTool) (n : nat) : GrepTool :=
  {| grep_root := grep_root self; max_matches := max n 1; grep_max_bytes := grep_max_bytes self |}.
Definition with_max_bytes (self : GrepTool) (n : nat) : GrepTool :=
  {| grep_root := grep_root self; max_matches := max_matches self; grep_max_bytes := max n 1 |}.

(** A matched line, cut to 500 characters. *)
Definition truncate_line (line : string) : string :=
  if bool_decide (length (chars line) ≤ GREP_MAX_LINE_CHARS) then line
  else concat_str (take GREP_MAX_LINE_CHARS (chars line)) +:+ "... [truncated]".

(** The path below the searched one, or the searched one as it was asked for. *)
Definition display_path (base file : names) (asked : string) : string :=
  let relative := if starts_with file base then drop (length base) file else file in
  let text := replace (String json.BACKSLASH "") SLASH (join SLASH relative) in
  if str_is_empty text then asked else text.

(** What the scan has found. *)
Record Scan : Type := {
  matches : list string;
  locs : list string;
  files_scanned : nat;
  limit_reached : bool
}.
Definition scan_new : Scan :=
  {| matches := []; locs := []; files_scanned := 0; limit_reached := false |}.
Definition scanned (acc : Scan) : Scan :=
  {| matches := matches acc; locs := locs acc; files_scanned := S (files_scanned acc);
     limit_reached := limit_reached acc |}.
Definition found_line (relative : string) (line_no : nat) (line : string) (limit : nat)
    (acc : Scan) : Scan :=
  let loc := relative +:+ ":" +:+ to_string line_no in
  let matches := matches acc ++ [loc +:+ ":" +:+ truncate_line line] in
  {| matches := matches; locs := locs acc ++ [loc]; files_scanned := files_scanned acc;
     limit_reached := bool_decide (limit ≤ length matches) |}.

(** The children of a directory in the order of their paths. *)
Fixpoint insert_name (name : string) (l : list string) : list string :=
  match l with
  | [] => [name]
  | x :: l' => if String.leb name x then name :: l else x :: insert_name name l'
  end.
Definition sort_names (l : list string) : list string := foldr insert_name [] l.

(** The greatest character boundary up to [n]. *)
Fixpoint floor_boundary (s : string) (n : nat) : nat :=
  match n with
  | O => 0
  | S m => if is_char_boundary s n then n else floor_boundary s m
  end.

(** The text for the model, and whether its bytes are capped. *)
Definition grep_text (self : GrepTool) (pattern path : string) (acc : Scan) : string * bool :=
  let text :=
    if bool_decide (length (matches acc) = 0) then
      "no matches for '" +:+ pattern +:+ "' in " +:+ path
    else join lf (matches acc) in
  let byte_capped := bool_decide (grep_max_bytes self < String.length text) in
  let text :=
    if byte_capped then String.substring 0 (floor_boundary text (grep_max_bytes self)) text
    else text in
  let notices :=
    (if limit_reached acc then
       ["match limit of " +:+ to_string (max_matches self)
        +:+ " reached; refine the pattern or raise the limit"]
     else [])
    ++ (if byte_capped then ["output exceeded " +:+ to_string (grep_max_bytes self) +:+ " bytes"]
        else []) in
  (if is_nil notices then text
   else (if str_is_empty text then "" else text +:+ lf)
        +:+ "[grep truncated: " +:+ join "; " notices +:+ "]", byte_capped).

Definition grep_display (pattern : string) (acc : Scan) (byte_capped : bool) : ToolDisplay :=
  let total_matches := length (matches acc) in
  let detail := if bool_decide (total_matches = 0) then "" else join lf (locs acc) in
  fact "truncated" (bool_string (limit_reached acc || byte_capped))
    (fact "limit_reached" (bool_string (limit_reached acc))
      (fact "matches_total" (to_string total_matches)
        (fact "files_scanned" (to_string (files_scanned acc))
          (count "1 search"
            (subject (registry.quote +:+ pattern +:+ registry.quote)
              (card "Grep" "Searched" "locs" detail)))))).

Section grep.
Context {faults : FsFaults} {order : ReadOrder} {signal : CancelSignal} {globs : Globs}
        {regexes : Regexes}.
Abbreviation stoppable := (io World ToolInvokeEnd).

(** The lines of one file. *)
Fixpoint scan_lines (regex : Regex) (limit : nat) (relative : string) (index : nat)
    (ls : list string) (acc : Scan) : stoppable Scan :=
  match ls with
  | [] => ret acc
  | line :: ls =>
      (if bool_decide (0 < index) && bool_decide (index mod GREP_CANCEL_LINE_INTERVAL = 0)
       then stop_if_requested else ret tt) ;;
      if regex_is_match regex line then
        let acc := found_line relative (index + 1) line limit acc in
        if limit_reached acc then ret acc
        else scan_lines regex limit relative (S index) ls acc
      else scan_lines regex limit relative (S index) ls acc
  end.

(** The entries of a directory that can be read. *)
Fixpoint readable {E} (l : list string) : io World E (list string) :=
  match l with
  | [] => ret []
  | name :: l =>
      let! entry := catch access in
      let! rest := readable l in
      ret (match entry with inr _ => name :: rest | inl _ => rest end)
  end.

(** The children, the first one on top of the stack; a cancel is looked for
    before each push. *)
Fixpoint push_children (current : names) (rev_children : list string) (stack : list names)
    : stoppable (list names) :=
  match rev_children with
  | [] => ret stack
  | child :: rev_children =>
      stop_if_requested ;; push_children current rev_children ((current ++ [child]) :: stack)
  end.

Definition name_of (p : names) : string := default "" (last p).

Definition hidden (target current : names) : bool :=
  bool_decide (current ≠ target) && String.prefix "." (name_of current).

(** A directory on the stack: the stack with its children. *)
Definition scan_directory (target current : names) (stack : list names) : stoppable (list names) :=
  if hidden target current then ret stack
  else
    let! reader := catch (read_dir current) in
    match reader with
    | inl _ => ret stack
    | inr found =>
        let! children := readable found in
        push_children current (reverse (sort_names children)) stack
    end.

(** Anything else on the stack: what has been found with it. *)
Definition scan_file (regex : Regex) (matcher : option Matcher) (limit : nat) (path : string)
    (target current : names) (acc : Scan) : stoppable Scan :=
  if match matcher with Some m => negb (is_match m (name_of current)) | None => false end
  then ret acc
  else
    let! bytes := catch (read current) in
    match bytes with
    | inl _ => ret acc
    | inr bytes =>
        if contains_nul bytes then ret acc
        else
          match from_utf8 bytes with
          | None => ret acc
          | Some text =>
              let! acc :=
                scan_lines regex limit (display_path target current path) 0 (lines text)
                  (scanned acc) in
              if limit_reached acc then ret acc else stop_if_requested ;; ret acc
          end
    end.

Fixpoint scan (fuel : nat) (regex : Regex) (matcher : option Matcher) (limit : nat)
    (path : string) (target : names) (stack : list names) (acc : Scan) : stoppable Scan :=
  match stack with
  | [] => ret acc
  | current :: stack =>
      match fuel with
      | O => panic
      | S fuel =>
          stop_if_requested ;;
          let! metadata := catch (symlink_metadata current) in
          match metadata with
          | inl _ => scan fuel regex matcher limit path target stack acc
          | inr DirNode =>
              let! stack := scan_directory target current stack in
              scan fuel regex matcher limit path target stack acc
          | inr _ =>
              let! acc := scan_file regex matcher limit path target current acc in
              if limit_reached acc then ret acc
              else scan fuel regex matcher limit path target stack acc
          end
      end
  end.

Definition scan_fuel (w : World) : nat := S (size (nodes w)).

Definition grep_tool (self : GrepTool) (arguments : string) : stoppable RichToolResult :=
  stop_if_requested ;;
  let! pattern := done_err (arg "pattern" (required_string arguments "pattern")) in
  let! ignore_case := done_err (arg "ignore_case" (optional_bool arguments "ignore_case")) in
  let source := if default false ignore_case then "(?i)" +:+ pattern else pattern in
  match regex_new source with
  | inl error =>
      fail (Done (rich_error INVALID_REGEX
        ("invalid regular expression '" +:+ pattern +:+ "': " +:+ error)))
  | inr regex =>
      let! path := done_err (arg "path" (optional_string arguments "path")) in
      let path := default "." path in
      let! matcher := glob_arg arguments in
      let! target :=
        done_err (with_err (path_error path) (resolve_in_root (grep_root self) path true)) in
      let! w := get in
      let! acc :=
        scan (scan_fuel w) regex matcher (max_matches self) path target [target] scan_new in
      let '(model_text, byte_capped) := grep_text self pattern path acc in
      ret (with_display (rich_success model_text) (grep_display pattern acc byte_capped))
  end.
End grep.

End tool_grep.

Import tools jsonl_codec tool_text tool_fs tool_path path_proofs tool_resolve tool_effects tool_args std_tools tool_grep tool_quiet.

Module grep_proofs.

(** ** Weights *)

Fixpoint below (keys : list names) (p : names) : nat :=
  match keys with
  | [] => 0
  | k :: keys => (if bool_decide (p `prefix_of` k) then 1 else 0) + below keys p
  end.
Definition weight (keys : list names) (stack : list names) : nat := sum_list_with (below keys) stack.

Lemma below_length keys p : below keys p ≤ length keys.
Proof. induction keys as [|k keys IH]; cbn; [done|]. case_bool_decide; lia. Qed.

Lemma below_at keys p : p ∈ keys → 1 ≤ below keys p.
Proof.
  induction keys as [|k keys IH]; [by intros ?%not_elem_of_nil|].
  intros [<-|Hp]%elem_of_cons; cbn; [rewrite bool_decide_true by done; lia|].
  specialize (IH Hp). lia.
Qed.

(** A path is below one child at most. *)
Lemma one_child (p : names) (cs : list string) (k : names) :
  NoDup cs →
  sum_list_with (λ c, if bool_decide (p ++ [c] `prefix_of` k) then 1 else 0) cs
  ≤ if bool_decide (p `prefix_of` k ∧ p ≠ k) then 1 else 0.
Proof.
  intros Hcs. case_bool_decide as Hp.
  - destruct Hp as [[r ->] Hr]. destruct r as [|x r]; [by rewrite app_nil_r in Hr|].
    assert (∀ c, p ++ [c] `prefix_of` p ++ x :: r ↔ c = x) as Heq.
    { intros c. split.
      - intros [r' He]. rewrite <- app_assoc in He. by simplify_eq/=.
      - intros ->. exists r. by rewrite <- app_assoc. }
    induction Hcs as [|c cs Hc Hcs IH]; cbn; [lia|].
    case_bool_decide as Hx; [|lia]. apply Heq in Hx as ->.
    assert (sum_list_with (λ c, if bool_decide (p ++ [c] `prefix_of` p ++ x :: r) then 1 else 0) cs = 0) as ->;
      [|done].
    clear IH. induction Hcs as [|c cs Hc' Hcs IH]; [done|]. cbn.
    rewrite not_elem_of_cons in Hc. destruct Hc as [Hne Hc].
    rewrite bool_decide_false by (rewrite Heq; congruence). by apply IH.
  - assert (∀ c, ¬ p ++ [c] `prefix_of` k) as Hno.
    { intros c [r ->]. apply Hp. rewrite <- app_assoc. split; [by eexists|].
      intros He. apply (f_equal length) in He. rewrite length_app in He. cbn in He. lia. }
    induction cs as [|c cs IH]; [done|]. cbn. rewrite bool_decide_false by apply Hno.
    apply NoDup_cons in Hcs as [_ Hcs]. by apply IH.
Qed.

Lemma sum_below_cons (k : names) keys p (cs : list string) :
  sum_list_with (λ c, below (k :: keys) (p ++ [c])) cs
  = sum_list_with (λ c, if bool_decide (p ++ [c] `prefix_of` k) then 1 else 0) cs
    + sum_list_with (λ c, below keys (p ++ [c])) cs.
Proof. induction cs as [|c cs IH]; [done|]. cbn [sum_list_with]. rewrite IH. cbn [below]. lia. Qed.

Lemma children_below keys p (cs : list string) :
  NoDup cs →
  sum_list_with (λ c, below keys (p ++ [c])) cs + (if bool_decide (p ∈ keys) then 1 else 0)
  ≤ below keys p.
Proof.
  intros Hcs. induction keys as [|k keys IH].
  { rewrite bool_decide_false by apply not_elem_of_nil. cbn. induction cs as [|c cs IHc]; [done|].
    apply NoDup_cons in Hcs as [_ Hcs]. by apply IHc. }
  rewrite sum_below_cons. pose proof (one_child p cs k Hcs) as H1. cbn [below].
  destruct (decide (p = k)) as [->|Hne].
  - rewrite (bool_decide_true (k ∈ k :: keys)) by (apply elem_of_cons; by left).
    rewrite (bool_decide_true (k `prefix_of` k)) by done.
    rewrite bool_decide_false in H1 by naive_solver. revert IH. case_bool_decide; lia.
  - assert (bool_decide (p ∈ k :: keys) = bool_decide (p ∈ keys)) as ->.
    { apply bool_decide_ext. rewrite elem_of_cons. naive_solver. }
    assert (bool_decide (p `prefix_of` k ∧ p ≠ k) = bool_decide (p `prefix_of` k)) as Hb
      by (apply bool_decide_ext; naive_solver).
    rewrite Hb in H1. lia.
Qed.

Lemma weight_children keys p (cs : list string) stack :
  weight keys (((λ c, p ++ [c]) <$> cs) ++ stack)
  = sum_list_with (λ c, below keys (p ++ [c])) cs + weight keys stack.
Proof. unfold weight. induction cs as [|c cs IH]; [done|]. cbn in *. rewrite IH. lia. Qed.

(** ** Children *)

Lemma nodup_filter_map {A B} (f : A → option B) l :
  (∀ x y b, f x = Some b → f y = Some b → x = y) → NoDup l → NoDup (filter_map f l).
Proof.
  intros Hf Hl. induction Hl as [|x l Hx Hl IH]; [constructor|]. rewrite filter_map_cons.
  destruct (f x) as [b|] eqn:Hb; [|done]. constructor; [|done]. unfold filter_map.
  intros (y & Hy & Hyb)%list_elem_of_omap. by rewrite (Hf _ _ _ Hb Hyb) in Hx.
Qed.

Lemma child_of_spec parent k c : child_of parent k = Some c ↔ k = parent ++ [c].
Proof.
  unfold child_of. split.
  - destruct (last k) as [x|]; [|done]. case_bool_decide; [|done]. by intros [= ->].
  - intros ->. rewrite last_snoc. by rewrite bool_decide_true.
Qed.

Lemma filter_map_fst {A B C} (f : A → option C) (l : list (A * B)) :
  filter_map (λ e, f e.1) l = filter_map f l.*1.
Proof. induction l as [|[a b] l IH]; [done|]. cbn [fmap list_fmap fst]. by rewrite !filter_map_cons, IH. Qed.

Lemma children_nodup parent m : NoDup (children parent m).
Proof.
  unfold children. rewrite filter_map_fst. apply nodup_filter_map; [|apply NoDup_fst_map_to_list].
  intros k1 k2 c. rewrite !child_of_spec. by intros -> ->.
Qed.

Lemma children_there parent m c : c ∈ children parent m → is_Some (m !! (parent ++ [c])).
Proof.
  unfold children. rewrite filter_map_fst. intros (k & Hk & ->%child_of_spec)%list_elem_of_omap.
  apply list_elem_of_fmap in Hk as ([k n] & -> & Hk%elem_of_map_to_list). by exists n.
Qed.

Lemma insert_name_perm name l : Permutation (insert_name name l) (name :: l).
Proof.
  induction l as [|x l IH]; [done|]. cbn. destruct (String.leb name x); [done|].
  rewrite IH. by constructor.
Qed.
Lemma sort_names_perm l : Permutation (sort_names l) l.
Proof. induction l as [|x l IH]; [done|]. cbn. by rewrite insert_name_perm, IH. Qed.

Section scan.
Context {faults : FsFaults} {order : ReadOrder} {signal : CancelSignal} {globs : Globs}
        {regexes : Regexes}.

Lemma readable_run {E} l w w' (r : outcome E (list string)) :
  readable l w = (w', r) → same_files w w' ∧ ∃ found, r = Ok found ∧ found `sublist_of` l.
Proof.
  revert w w' r. induction l as [|name l IH]; intros w w' r; cbn [readable].
  { intros [= <- <-]. split; [done|]. exists []. split; [done|constructor]. }
  unfold bind. destruct (catch (E := E) access w) as [w1 r1] eqn:H1.
  assert (same_files w w1 ∧ ∃ x, r1 = Ok x) as [S1 [x ->]].
  { revert H1. unfold catch, access. destruct (fault _); intros [= <- <-]; (split; [done|by eexists]). }
  destruct (readable l w1) as [w2 r2] eqn:H2. apply IH in H2 as [S2 (found & -> & Hf)].
  intros [= <- <-]. split; [by eapply same_files_trans|]. eexists. split; [done|].
  destruct x; [by apply sublist_cons|by apply sublist_skip].
Qed.

Lemma push_children_run current cs stack w w' r :
  push_children current cs stack w = (w', r) →
  same_files w w' ∧ r ≠ Panic ∧
  ∀ stack', r = Ok stack' → stack' = ((λ c, current ++ [c]) <$> reverse cs) ++ stack.
Proof.
  revert stack w w' r. induction cs as [|c cs IH]; intros stack w w' r; cbn [push_children].
  { intros [= <- <-]. split_and!; [done|done|]. by intros ? [= <-]. }
  unfold bind, stop_if_requested, poll, bind. destruct (requested (looks w)).
  { intros [= <- <-]. split_and!; done. }
  unfold ret. intros (S1 & P1 & Hr)%IH. split_and!; [done|done|]. intros stack' Hs.
  rewrite (Hr _ Hs), reverse_cons, fmap_app. cbn. by rewrite <- app_assoc.
Qed.

(** ** The scan *)

(** A path the scan visits: it is there, and no link is on the way to it. *)
Definition visited (m : Nodes) (p : names) : Prop :=
  is_Some (m !! p) ∧ Forall proper p ∧ link_free m (removelast p).

Lemma removelast_proper p : Forall proper p → Forall proper (removelast p).
Proof.
  intros Hp. destruct p as [|x p _] using rev_ind; [done|]. rewrite removelast_last.
  by apply Forall_app in Hp as [? _].
Qed.

Lemma removelast_prefix {A} (p : list A) : removelast p `prefix_of` p.
Proof. destruct p as [|x p _] using rev_ind; [done|]. rewrite removelast_last. by eexists. Qed.

(** No link is on the way to what is there. *)
Lemma plain_link_free m p q : tree m → plain_at m p → q `prefix_of` p → link_free m q.
Proof.
  intros Ht (node & Hn & Hplain) [s ->] k r ->. unfold no_link_at. rewrite <- app_assoc in Hn.
  destruct (decide (r ++ s = [])) as [He|Hne].
  - rewrite He, app_nil_r in Hn. by rewrite Hn.
  - eapply tree_prefix in Hn; [|done|done]. by rewrite Hn.
Qed.

(** Looking at a visited path tells what is there. *)
Lemma visited_node p w w' r :
  world_ok w → visited (nodes w) p → symlink_metadata p w = (w', r) →
  same_files w w' ∧ r ≠ Panic ∧ ∀ node, r = Ok node → nodes w !! p = Some node.
Proof.
  intros Hw (Hi & Hp & Hl). unfold symlink_metadata. destruct (last p) as [name|] eqn:Hlast.
  - apply removelast_app_last in Hlast. unfold bind.
    destruct (locate false (of_names (removelast p)) w) as [w1 r1] eqn:H1.
    destruct r1 as [at_|e|].
    + apply locate_free in H1 as [Hs ->]; [|done|by apply removelast_proper|done].
      unfold get. pose proof Hs as [Hn _]. rewrite <- Hlast, Hn.
      destruct (nodes w !! p) as [node|] eqn:Hnode; intros [= <- <-]; split_and!; try done.
      by intros ? [= ->].
    + apply locate_run in H1 as [Hs _]. by intros [= <- <-].
    + by apply locate_run in H1 as [_ ?].
  - apply last_None in Hlast as ->. unfold bind, access, ret.
    destruct (fault (looks w)); intros [= <- <-]; split_and!; try done. intros node [= <-].
    apply tree_root. by destruct Hw.
Qed.

Lemma visited_free m p : visited m p → m !! p = Some DirNode → link_free m p.
Proof.
  intros (_ & _ & Hl) Hd q r Hq. destruct r as [|x r _] using rev_ind.
  { rewrite app_nil_r in Hq. subst q. unfold no_link_at. by rewrite Hd. }
  apply (Hl q r). rewrite Hq, app_assoc. by rewrite removelast_last.
Qed.

Lemma visited_dir p w w' r :
  world_ok w → visited (nodes w) p → nodes w !! p = Some DirNode → read_dir p w = (w', r) →
  same_files w w' ∧ r ≠ Panic ∧ ∀ found, r = Ok found → Permutation found (children p (nodes w)).
Proof.
  intros Hw Hv Hd. pose proof Hv as (_ & Hp & _). pose proof (visited_free _ _ Hv Hd) as Hl.
  unfold read_dir, bind. destruct (locate false (of_names p) w) as [w1 r1] eqn:H1.
  destruct r1 as [at_|e|].
  - apply locate_free in H1 as [Hs ->]; [|done..]. pose proof Hs as [Hn _]. unfold get.
    rewrite Hn, Hd. intros [= <- <-]. split_and!; [done|done|]. intros found [= <-].
    apply read_order_perm.
  - apply locate_run in H1 as [Hs _]. by intros [= <- <-].
  - by apply locate_run in H1 as [_ ?].
Qed.

Lemma visited_child m p c : tree m → visited m p → m !! p = Some DirNode → is_Some (m !! (p ++ [c])) →
  visited m (p ++ [c]).
Proof.
  intros Ht Hv Hd [n Hn]. split_and!; [by exists n|by eapply tree_names|].
  rewrite removelast_last. by apply visited_free.
Qed.

Definition keys (m : Nodes) : list names := (map_to_list m).*1.
Lemma keys_spec m p : p ∈ keys m ↔ is_Some (m !! p).
Proof.
  unfold keys. rewrite list_elem_of_fmap. split.
  - intros ([k n] & -> & Hk%elem_of_map_to_list). by exists n.
  - intros [n Hn]. exists (p, n). split; [done|]. by apply elem_of_map_to_list.
Qed.

Lemma scan_directory_run target current stack w w' r :
  world_ok w → visited (nodes w) current → nodes w !! current = Some DirNode →
  scan_directory target current stack w = (w', r) →
  same_files w w' ∧ r ≠ Panic ∧
  ∀ stack', r = Ok stack' → ∃ cs, stack' = ((λ c, current ++ [c]) <$> cs) ++ stack ∧ NoDup cs ∧
    Forall (λ c, is_Some (nodes w !! (current ++ [c]))) cs.
Proof.
  intros Hw Hv Hd. unfold scan_directory.
  destruct (hidden target current).
  { intros [= <- <-]. split_and!; [done|done|]. intros ? [= <-]. exists []. split_and!; constructor. }
  unfold bind. destruct (catch (E := ToolInvokeEnd) (read_dir current) w) as [w1 r1] eqn:H1.
  apply catch_run in H1 as [(found & H1 & ->)|[(e & H1 & ->)|[H1 ->]]];
    apply visited_dir in H1 as (S1 & P1 & Hf); try done.
  2:{ intros [= <- <-]. split_and!; [done|done|]. intros ? [= <-]. exists []. split_and!; constructor. }
  destruct (readable found w1) as [w2 r2] eqn:H2. apply readable_run in H2 as [S2 (cs & -> & Hsub)].
  intros (S3 & P3 & Hr)%push_children_run. split_and!; [by do 2 (eapply same_files_trans; [done|])|done|].
  intros stack' Hs. exists (sort_names cs). rewrite (Hr _ Hs), reverse_involutive. split; [done|].
  specialize (Hf _ eq_refl).
  assert (NoDup found) as Hnd by (rewrite Hf; apply children_nodup). split.
  - rewrite sort_names_perm. by eapply sublist_NoDup.
  - rewrite sort_names_perm. apply Forall_forall. intros c Hc. apply children_there.
    rewrite <- Hf. by eapply elem_of_submseteq, sublist_submseteq.
Qed.

Lemma quiet_scan_lines regex limit relative index ls acc :
  quiet (scan_lines regex limit relative index ls acc).
Proof. revert index acc. induction ls as [|line ls IH]; intros index acc; cbn [scan_lines]; quiet. Qed.
#[local] Hint Resolve quiet_scan_lines : quiet.
Lemma quiet_scan_file regex matcher limit path target current acc :
  quiet (scan_file regex matcher limit path target current acc).
Proof. unfold scan_file. quiet. Qed.

Lemma scan_run fuel regex matcher limit path target stack acc w w' r :
  world_ok w → Forall (visited (nodes w)) stack → weight (keys (nodes w)) stack ≤ fuel →
  scan fuel regex matcher limit path target stack acc w = (w', r) →
  same_files w w' ∧ r ≠ Panic.
Proof.
  revert stack acc w w' r. induction fuel as [|fuel IH]; intros [|current stack] acc w w' r Hw Hv Hf;
    cbn [scan]; try (intros [= <- <-]; done); apply Forall_cons in Hv as [Hc Hv];
    pose proof Hc as (Hi & _ & _); pose proof (below_at _ _ (proj2 (keys_spec _ _) Hi)) as H1;
    unfold weight in Hf; cbn [sum_list_with] in Hf; [lia|].
  unfold stop_if_requested, poll, bind at 1 2. destruct (requested (looks w)); [by intros [= <- <-]|].
  unfold ret at 1. set (w1 := looked w). assert (same_files w w1) as S1 by done.
  unfold bind at 1. destruct (catch (E := ToolInvokeEnd) (symlink_metadata current) w1) as [w2 r2] eqn:H2.
  apply catch_run in H2 as [(node & H2 & ->)|[(e & H2 & ->)|[H2 ->]]];
    apply visited_node in H2 as (S2 & P2 & Hn); try done; try (by eapply same_files_ok);
    assert (same_files w w2) as S12 by by eapply same_files_trans.
  2:{ intros [S3 P3]%IH; [split; [by eapply same_files_trans|done]|..].
      - by eapply same_files_ok.
      - destruct S12 as [-> _]. done.
      - destruct S12 as [-> _]. unfold weight. lia. }
  specialize (Hn _ eq_refl).
  assert (∀ n : Node, n ≠ DirNode →
    (let! acc := scan_file regex matcher limit path target current acc in
     if limit_reached acc then ret acc else scan fuel regex matcher limit path target stack acc) w2
    = (w', r) → same_files w w' ∧ r ≠ Panic) as Hfile.
  { intros n _. unfold bind. destruct (scan_file regex matcher limit path target current acc w2) as [w3 r3] eqn:H3.
    apply quiet_scan_file in H3 as [S3 P3]; [|by eapply same_files_ok].
    assert (same_files w w3) as S13 by by eapply same_files_trans.
    destruct r3 as [acc'|e|]; [|by intros [= <- <-]|done].
    destruct (limit_reached acc'); [by intros [= <- <-]|].
    intros [S4 P4]%IH; [split; [by eapply same_files_trans|done]|..].
    - by eapply same_files_ok.
    - destruct S13 as [-> _]. done.
    - destruct S13 as [-> _]. unfold weight. lia. }
  destruct node as [bytes| |link]; [by apply (Hfile (FileNode ""))| |by apply (Hfile (FileNode ""))].
  clear Hfile. unfold bind. destruct (scan_directory target current stack w2) as [w3 r3] eqn:H3.
  pose proof S12 as [N2 _].
  apply scan_directory_run in H3 as (S3 & P3 & Hs); [|by eapply same_files_ok|by rewrite N2|by rewrite N2].
  assert (same_files w w3) as S13 by by eapply same_files_trans.
  destruct r3 as [stack'|e|]; [|by intros [= <- <-]|done].
  destruct (Hs _ eq_refl) as (cs & -> & Hnd & Hcs). rewrite N2 in Hcs.
  intros [S4 P4]%IH; [split; [by eapply same_files_trans|done]|..]; [by eapply same_files_ok|..];
    destruct S13 as [-> _].
  - apply Forall_app. split; [|done]. apply Forall_fmap. eapply Forall_impl; [exact Hcs|].
    intros c ?. apply visited_child; try done. by destruct Hw.
  - rewrite weight_children. pose proof (children_below (keys (nodes w)) current cs Hnd) as H4.
    rewrite bool_decide_true in H4 by (by apply keys_spec). unfold weight. lia.
Qed.

Lemma quiet_grep_tool self arguments : quiet (grep_tool self arguments).
Proof.
  unfold grep_tool. apply quiet_bind; [quiet|intros _]. apply quiet_bind; [quiet|intros pattern].
  apply quiet_bind; [quiet|intros ignore]. destruct (regex_new _) as [error|regex]; [quiet|].
  apply quiet_bind; [quiet|intros path]. apply quiet_bind; [quiet|intros matcher].
  intros w w' r Hw. unfold bind at 1. destruct (done_err _ w) as [w1 r1] eqn:H1.
  unfold done_err, with_err in H1. destruct (resolve_in_root _ _ _ w) as [w0 r0] eqn:H0.
  pose proof H0 as [S1 Hr]%resolve_run; [|done]. injection H1 as <- <-.
  destruct r0 as [target|e|]; cbn [map_err]; [|by intros [= <- <-]|done].
  destruct Hr as (base & _ & Hcon). unfold bind at 1, get. unfold bind at 1.
  destruct (scan _ _ _ _ _ _ _ _ w0) as [w2 r2] eqn:H2.
  pose proof S1 as [N1 _].
  apply scan_run in H2 as [S2 P2].
  - destruct r2; [|by intros [= <- <-]; split; [eapply same_files_trans|]|done].
    destruct (grep_text _ _ _ _). intros [= <- <-]. split; [by eapply same_files_trans|done].
  - by eapply same_files_ok.
  - apply Forall_singleton. rewrite N1. destruct Hcon as [_ Hp (there & new & -> & _ & Hpl & _ & Hnew)].
    rewrite Hnew in * by done. rewrite app_nil_r in *. split_and!.
    + destruct Hpl as (n & -> & _). eauto.
    + done.
    + eapply plain_link_free; [by destruct Hw|done|]. by apply removelast_prefix.
  - unfold weight. cbn. pose proof (below_length (keys (nodes w0)) target) as H3.
    unfold scan_fuel. unfold keys in *. rewrite length_fmap, length_map_to_list in H3. lia.
Qed.
End scan.

End grep_proofs.
