(* ===== verification/ToolShell.v ===== *)
(** The shell tool (src/crates/philo-tools-std/src/shell.rs).

    Module [tool_shell]: what a call reads from its arguments and from the
    environment of the process, the loop that captures a child's output, and the
    result made of it. The loop is a machine: each turn of [tokio::select!] takes
    one of the events its guards allow, and the list of the events that happened
    is an argument of a run, as are what spawning the child came to and the time
    it took. The operating system is Unix.

    The output of the shell tool (src/crates/philo-tools-std/src/shell.rs).

    Module [shell_proofs]: decoding a text piece by piece gives the text, the
    cuts keep the end of the output within their limits, and what a capture
    reports is what happened to the child. *)

From S2P Require Import Prelude RustStr Tools JsonlCodec ToolText ToolPath ToolArgs ToolFiles.
From Stdlib Require Import Ascii SpecFloat.
From Stdlib Require Import Ascii.
Import tools jsonl_codec tool_text tool_fs tool_args std_tools.

Module tool_shell.

(** ** UTF-8 with errors *)

(** The head of a text of bytes: a character of that many bytes, that many bytes
    that start no character, or the beginning of a character where the text
    ends ([Utf8Error::error_len]). *)
Inductive Utf8Step : Type := Char (width : nat) | Invalid (width : nat) | Incomplete.

Definition utf8_step (s : string) : Utf8Step :=
  match s with
  | EmptyString => Incomplete
  | String a s =>
      if in_range 0 127 a then Char 1
      else if in_range 194 223 a then
        match s with
        | EmptyString => Incomplete
        | String b _ => if is_continuation b then Char 2 else Invalid 1
        end
      else if in_range 224 239 a then
        match s with
        | EmptyString => Incomplete
        | String b s =>
            if (in_range 224 224 a && in_range 160 191 b)
               || ((in_range 225 236 a || in_range 238 239 a) && is_continuation b)
               || (in_range 237 237 a && in_range 128 159 b)
            then
              match s with
              | EmptyString => Incomplete
              | String c _ => if is_continuation c then Char 3 else Invalid 2
              end
            else Invalid 1
        end
      else if in_range 240 244 a then
        match s with
        | EmptyString => Incomplete
        | String b s =>
            if (in_range 240 240 a && in_range 144 191 b)
               || (in_range 241 243 a && is_continuation b)
               || (in_range 244 244 a && in_range 128 143 b)
            then
              match s with
              | EmptyString => Incomplete
              | String c s =>
                  if is_continuation c then
                    match s with
                    | EmptyString => Incomplete
                    | String d _ => if is_continuation d then Char 4 else Invalid 3
                    end
                  else Invalid 2
              end
            else Invalid 1
        end
      else Invalid 1
  end.

Fixpoint skip_bytes (n : nat) (s : string) : string :=
  match n, s with
  | S n, String _ s => skip_bytes n s
  | _, _ => s
  end.
Fixpoint take_bytes (n : nat) (s : string) : string :=
  match n, s with
  | S n, String b s => String b (take_bytes n s)
  | _, _ => ""
  end.

(** [Utf8Error::valid_up_to]: the text that is valid, and what is behind it. *)
Fixpoint valid_part (fuel : nat) (s : string) : string * string :=
  match fuel with
  | O => ("", s)
  | S fuel =>
      match utf8_step s with
      | Char n =>
          let '(valid, behind) := valid_part fuel (skip_bytes n s) in
          (take_bytes n s +:+ valid, behind)
      | _ => ("", s)
      end
  end.

(** U+FFFD in UTF-8. *)
Definition REPLACEMENT : string := String "239" (String "191" (String "189" "")).

(** [String::from_utf8_lossy]. *)
Fixpoint lossy_from (fuel : nat) (s : string) : string :=
  match fuel with
  | O => ""
  | S fuel =>
      match s with
      | EmptyString => ""
      | _ =>
          match utf8_step s with
          | Char n => take_bytes n s +:+ lossy_from fuel (skip_bytes n s)
          | Invalid n => REPLACEMENT +:+ lossy_from fuel (skip_bytes n s)
          | Incomplete => REPLACEMENT
          end
      end
  end.
Definition from_utf8_lossy (s : string) : string := lossy_from (String.length s) s.

(** ** The tool *)

Definition DEFAULT_SHELL_TIMEOUT_SECS : Z := 60.
Definition DEFAULT_SHELL_MAX_TIMEOUT_SECS : Z := 300.
Definition DEFAULT_SHELL_MAX_OUTPUT_BYTES : nat := 16 * 1024.
Definition DEFAULT_SHELL_MAX_OUTPUT_LINES : nat := 400.
Definition DEFAULT_SHELL_MAX_DISPLAY_BYTES : nat := 128 * 1024.
Definition CREDENTIAL_MARKERS : list string :=
  ["KEY"; "TOKEN"; "SECRET"; "PASSWORD"; "CREDENTIAL"; "AUTH"].

Record ShellTool : Type := {
  shell_root : string;
  default_timeout_secs : Z;
  max_timeout_secs : Z;
  max_output_bytes : nat;
  max_output_lines : nat;
  max_display_bytes : nat
}.
Definition shell_new (root : string) : ShellTool :=
  {| shell_root := root; default_timeout_secs := DEFAULT_SHELL_TIMEOUT_SECS;
     max_timeout_secs := DEFAULT_SHELL_MAX_TIMEOUT_SECS;
     max_output_bytes := DEFAULT_SHELL_MAX_OUTPUT_BYTES;
     max_output_lines := DEFAULT_SHELL_MAX_OUTPUT_LINES;
     max_display_bytes := DEFAULT_SHELL_MAX_DISPLAY_BYTES |}.

Definition set_timeouts (default_secs max_secs : Z) (self : ShellTool) : ShellTool :=
  {| shell_root := shell_root self; default_timeout_secs := default_secs;
     max_timeout_secs := max_secs; max_output_bytes := max_output_bytes self;
     max_output_lines := max_output_lines self; max_display_bytes := max_display_bytes self |}.
Definition set_output (bytes lines_ display_bytes : nat) (self : ShellTool) : ShellTool :=
  {| shell_root := shell_root self; default_timeout_secs := default_timeout_secs self;
     max_timeout_secs := max_timeout_secs self; max_output_bytes := bytes;
     max_output_lines := lines_; max_display_bytes := display_bytes |}.

(** [seconds.clamp(1, self.max_timeout_secs)]; the maximum is at least one. *)
Definition with_default_timeout_secs (self : ShellTool) (seconds : Z) : ShellTool :=
  set_timeouts (Z.min (Z.max seconds 1) (max_timeout_secs self)) (max_timeout_secs self) self.
Definition with_max_timeout_secs (self : ShellTool) (seconds : Z) : ShellTool :=
  let most := Z.max seconds 1 in
  set_timeouts (Z.min (default_timeout_secs self) most) most self.
Definition with_max_output_bytes (self : ShellTool) (n : nat) : ShellTool :=
  set_output (max n 1) (max_output_lines self) (max_display_bytes self) self.
Definition with_max_output_lines (self : ShellTool) (n : nat) : ShellTool :=
  set_output (max_output_bytes self) (max n 1) (max_display_bytes self) self.
Definition with_max_display_bytes (self : ShellTool) (n : nat) : ShellTool :=
  set_output (max_output_bytes self) (max_output_lines self) (max n 1) self.

(** [str::to_ascii_uppercase]. *)
Fixpoint to_ascii_uppercase (s : string) : string :=
  match s with
  | EmptyString => ""
  | String b s =>
      String (if in_range 97 122 b then byte_of (byte_val b - 32) else b) (to_ascii_uppercase s)
  end.

(** The variables a child gets from the process: those whose name holds no
    credential marker. *)
Definition credential (name : string) : bool :=
  any (λ marker, contains marker (to_ascii_uppercase name)) CREDENTIAL_MARKERS.
Definition child_env (vars : list (string * string)) : list (string * string) :=
  base.filter (λ v, credential v.1 = false) vars.

(** The program and its arguments. *)
Definition platform_command (command_line : string) : string * list string :=
  ("sh", ["-c"; command_line]).

(** The command and the seconds it may take. *)
Definition shell_arguments (self : ShellTool) (arguments : string) : outcome RichToolResult (string * Z) :=
  match required_string arguments "command" with
  | Err error => Err (field_error "command" error)
  | Panic => Panic
  | Ok command_line =>
      match optional_u64 arguments "timeout_secs" with
      | Ok (Some seconds) =>
          if ((seconds =? 0) || (max_timeout_secs self <? seconds))%Z then
            Err (rich_error INVALID_ARGUMENTS
              ("timeout_secs must be between 1 and " +:+ Prelude.display (max_timeout_secs self)))
          else Ok (command_line, seconds)
      | Ok None => Ok (command_line, default_timeout_secs self)
      | Err error => Err (field_error "timeout_secs" error)
      | Panic => Panic
      end
  end.

(** ** [capture_output] *)

(** A pushed text goes to the call's progress. *)
Definition take_utf8 (pending incoming : string) : string * string :=
  let pending := pending +:+ incoming in
  let '(valid, behind) := valid_part (String.length pending) pending in
  if str_is_empty behind then (valid, "")
  else
    (default "" (from_utf8 valid),
     match utf8_step behind with Invalid n => skip_bytes n behind | _ => behind end).

(** [std::process::ExitStatus::code]: none for a signal. *)
Definition ExitStatus : Type := option Z.

(** One of the two pipes: the bytes read, the bytes that are no text yet, and
    whether it is at its end. *)
Record Pipe : Type := { all_bytes : string; pending : string; pipe_done : bool }.
Definition pipe_new : Pipe := {| all_bytes := ""; pending := ""; pipe_done := false |}.

Record Capture : Type := {
  status : option (ErrorKind + ExitStatus);
  out_pipe : Pipe;
  err_pipe : Pipe;
  timed_out : bool;
  cancelled : bool;
  killed : bool;
  pushed : list string
}.
Definition capture_new : Capture :=
  {| status := None; out_pipe := pipe_new; err_pipe := pipe_new; timed_out := false;
     cancelled := false; killed := false; pushed := [] |}.

Inductive Event : Type :=
| Waited (result : ErrorKind + ExitStatus)
| StdoutRead (result : ErrorKind + string)
| StderrRead (result : ErrorKind + string)
| TimerFired
| CancelSeen.

Definition READ_BUFFER : nat := 8192.

Definition push_text (text : string) (pushed : list string) : list string :=
  if str_is_empty text then pushed else pushed ++ [text].
Definition flush_pending (pending : string) (pushed : list string) : list string :=
  if str_is_empty pending then pushed else push_text (from_utf8_lossy pending) pushed.

(** The handler of a read, the same for both pipes. *)
Definition pipe_read (p : Pipe) (pushed : list string) (result : ErrorKind + string) : Pipe * list string :=
  match result with
  | inr (String _ _ as bytes) =>
      let '(text, pending) := take_utf8 (pending p) bytes in
      ({| all_bytes := all_bytes p +:+ bytes; pending := pending; pipe_done := false |},
       push_text text pushed)
  | _ =>
      ({| all_bytes := all_bytes p; pending := ""; pipe_done := true |},
       flush_pending (pending p) pushed)
  end.

Definition is_none {A} (o : option A) : bool := match o with None => true | Some _ => false end.

(** The guards of the branches, and what can be read at once. *)
Definition enabled (c : Capture) (e : Event) : bool :=
  match e with
  | Waited _ => is_none (status c)
  | StdoutRead result =>
      negb (pipe_done (out_pipe c)) &&
      match result with inr bytes => bool_decide (String.length bytes ≤ READ_BUFFER) | _ => true end
  | StderrRead result =>
      negb (pipe_done (err_pipe c)) &&
      match result with inr bytes => bool_decide (String.length bytes ≤ READ_BUFFER) | _ => true end
  | TimerFired | CancelSeen => negb (timed_out c) && negb (cancelled c) && is_none (status c)
  end.

Definition handle (c : Capture) (e : Event) : Capture :=
  match e with
  | Waited result =>
      {| status := Some result; out_pipe := out_pipe c; err_pipe := err_pipe c;
         timed_out := timed_out c; cancelled := cancelled c; killed := killed c;
         pushed := pushed c |}
  | StdoutRead result =>
      let '(p, texts) := pipe_read (out_pipe c) (pushed c) result in
      {| status := status c; out_pipe := p; err_pipe := err_pipe c; timed_out := timed_out c;
         cancelled := cancelled c; killed := killed c; pushed := texts |}
  | StderrRead result =>
      let '(p, texts) := pipe_read (err_pipe c) (pushed c) result in
      {| status := status c; out_pipe := out_pipe c; err_pipe := p; timed_out := timed_out c;
         cancelled := cancelled c; killed := killed c; pushed := texts |}
  | TimerFired =>
      {| status := status c; out_pipe := out_pipe c; err_pipe := err_pipe c; timed_out := true;
         cancelled := cancelled c; killed := true; pushed := pushed c |}
  | CancelSeen =>
      {| status := status c; out_pipe := out_pipe c; err_pipe := err_pipe c;
         timed_out := timed_out c; cancelled := true; killed := true; pushed := pushed c |}
  end.

(** The condition of the loop. *)
Definition capturing (c : Capture) : bool :=
  is_none (status c) || negb (pipe_done (out_pipe c)) || negb (pipe_done (err_pipe c)).

(** The loop: the capture when it ends with these events, or how far it got. *)
Fixpoint capture_output (events : list Event) (c : Capture) : option (Capture + Capture) :=
  if capturing c then
    match events with
    | [] => Some (inl c)
    | e :: events => if enabled c e then capture_output events (handle c e) else None
    end
  else if is_nil events then Some (inr c) else None.

(** ** The result *)

(** [trim_end_matches('\n')]. *)
Fixpoint trim_lf (s : string) : string :=
  match s with
  | EmptyString => ""
  | String b s =>
      let rest := trim_lf s in if str_is_empty rest && (b == LF) then "" else String b rest
  end.

Definition merge_output (stdout stderr : string) : string :=
  let stdout := from_utf8_lossy stdout in
  let stderr := from_utf8_lossy stderr in
  let merged := trim_lf stdout in
  if str_is_empty (trim stderr) then merged
  else (if str_is_empty merged then "" else merged +:+ lf) +:+ "[stderr]" +:+ lf +:+ trim_lf stderr.

(** The least character boundary from [start] on, in [fuel] steps to the end. *)
Fixpoint ceil_boundary (fuel : nat) (s : string) (start : nat) : nat :=
  match fuel with
  | O => start
  | S fuel => if is_char_boundary s start then start else ceil_boundary fuel s (S start)
  end.
(** The tail of a text that [max_bytes] leave, cut at a character. *)
Definition tail_within (max_bytes : nat) (s : string) : string :=
  let start := String.length s - max_bytes in
  skip_bytes (ceil_boundary (String.length s - start) s start) s.

Definition cap_display (text : string) (max_bytes : nat) : string * bool :=
  if bool_decide (String.length text ≤ max_bytes) then (text, false)
  else (tail_within max_bytes text, true).

(** The loop over the lines from the last one; [kept] is in the order of the
    text. *)
Fixpoint keep_tail (max_bytes max_lines : nat) (rev_lines kept : list string) (used : nat)
    : list string * bool :=
  match rev_lines with
  | [] => (kept, false)
  | line :: rev_lines =>
      if bool_decide (max_lines ≤ length kept) then (kept, true)
      else
        let row_len := String.length line + 1 in
        if bool_decide (max_bytes < used + row_len) then
          (if is_nil kept then [tail_within max_bytes line] else kept, true)
        else keep_tail max_bytes max_lines rev_lines (line :: kept) (used + row_len)
  end.
Definition truncate_output (text : string) (max_bytes max_lines : nat) : string * bool :=
  let '(kept, truncated) := keep_tail max_bytes max_lines (reverse (lines text)) [] 0 in
  (join lf kept, truncated).

(** [{:.1}] of a floating-point number: the nearest tenth, and the even one of
    two. *)
Definition one_decimal (x : spec_float) : string :=
  match x with
  | S754_finite _ m e =>
      let num := (10 * Z.pos m * 2 ^ Z.max e 0)%Z in
      let den := (2 ^ Z.max (- e) 0)%Z in
      let q := (num / den)%Z in
      let r := (num mod den)%Z in
      let tenths :=
        (if 2 * r <? den then q
         else if den <? 2 * r then q + 1
         else if Z.even q then q else q + 1)%Z in
      Prelude.display (tenths / 10)%Z +:+ "." +:+ Prelude.display (tenths mod 10)%Z
  | _ => "0.0"
  end.
Definition f64 (n : Z) : spec_float := binary_normalize 53 1024 n 0 false.

(** display.rs *)
Definition format_elapsed_ms (ms : Z) : string :=
  if (1000 <=? ms)%Z then one_decimal (SFdiv 53 1024 (f64 ms) (f64 1000)) +:+ "s"
  else Prelude.display ms +:+ "ms".

(** The kinds of [std::io::Error] as a text. *)
Definition display_kind (k : ErrorKind) : string :=
  match k with
  | NotFound => "entity not found"
  | PermissionDenied => "permission denied"
  | AlreadyExists => "entity already exists"
  | InvalidInput => "invalid input parameter"
  | NotADirectory => "not a directory"
  | IsADirectory => "is a directory"
  | FilesystemLoop => "filesystem loop or indirection limit (e.g. symlink loop)"
  | Other => "other error"
  end.

Definition timeout_result (command_line : string) (timeout_secs elapsed_ms : Z) (c : Capture)
    (max_display_bytes : nat) : RichToolResult :=
  let merged := merge_output (all_bytes (out_pipe c)) (all_bytes (err_pipe c)) in
  let '(display_text, display_truncated) := cap_display merged max_display_bytes in
  with_display
    (rich_error TIMEOUT
      ("command did not finish within " +:+ Prelude.display timeout_secs
       +:+ "s and was terminated: " +:+ command_line))
    (fact "truncated" (bool_string display_truncated)
      (fact "timeout_secs" (Prelude.display timeout_secs)
        (fact "duration_ms" (Prelude.display elapsed_ms)
          (count "1 command" (subject command_line
            (card "Run" "Ran" "output"
              (if str_is_empty display_text
               then "timed out after " +:+ Prelude.display elapsed_ms +:+ "ms"
               else display_text))))))).

(** The middle dot in UTF-8. *)
Definition MIDDLE_DOT : string := String "194" (String "183" "").

(** The end of a call whose child has ended. *)
Definition exit_result (self : ShellTool) (command_line : string) (elapsed_ms : Z)
    (exit : ExitStatus) (stdout stderr : string) : RichToolResult :=
  let exit_code := match exit with None => "signal" | Some code => Prelude.display code end in
  let merged := merge_output stdout stderr in
  let '(truncated_text, truncated) :=
    truncate_output merged (max_output_bytes self) (max_output_lines self) in
  let model_text :=
    "exit_code: " +:+ exit_code +:+ lf +:+ truncated_text
    +:+ (if truncated then
           lf +:+ "[shell output truncated: showing last "
           +:+ to_string (length (lines truncated_text)) +:+ " of "
           +:+ to_string (length (lines merged)) +:+ " lines, "
           +:+ to_string (String.length merged) +:+ " bytes total]"
         else "") in
  let '(display_text, display_truncated) := cap_display merged (max_display_bytes self) in
  let detail :=
    if str_is_empty display_text then "(no output) exit_code=" +:+ exit_code else display_text in
  with_display (rich_success model_text)
    (fact "truncated" (bool_string (truncated || display_truncated))
      (fact "duration_ms" (Prelude.display elapsed_ms)
        (fact "exit_code" exit_code
          (result_phrase
            ("exit " +:+ exit_code +:+ " " +:+ MIDDLE_DOT +:+ " " +:+ format_elapsed_ms elapsed_ms)
            (count "1 command" (subject command_line (card "Run" "Ran" "output" detail))))))).

Definition captured_end (self : ShellTool) (command_line : string) (timeout_secs elapsed_ms : Z)
    (c : Capture) : ToolInvokeEnd :=
  if cancelled c then Stopped
  else if timed_out c then
    Done (timeout_result command_line timeout_secs elapsed_ms c (max_display_bytes self))
  else
    match default (inl Other) (status c) with
    | inl error => Done (rich_error IO_ERROR ("command execution failed: " +:+ display_kind error))
    | inr exit =>
        Done (exit_result self command_line elapsed_ms exit (all_bytes (out_pipe c))
                (all_bytes (err_pipe c)))
    end.

(** A call: whether a cancel was requested before it and before the child is
    spawned, what spawning came to, what happened to the child, and how long it
    took. [None] while the loop runs, or when the events are none of its. *)
Definition run (self : ShellTool) (before before_spawn : bool) (arguments : string)
    (spawned : ErrorKind + unit) (events : list Event) (elapsed_ms : Z)
    : option (outcome Empty_set ToolInvokeEnd) :=
  if before then Some (Ok Stopped)
  else
    match shell_arguments self arguments with
    | Panic => Some Panic
    | Err error => Some (Ok (Done error))
    | Ok (command_line, timeout_secs) =>
        if before_spawn then Some (Ok Stopped)
        else
          match spawned with
          | inl error =>
              Some (Ok (Done (rich_error SPAWN_FAILED
                ("failed to start the platform shell: " +:+ display_kind error))))
          | inr _ =>
              match capture_output events capture_new with
              | Some (inr c) =>
                  Some (Ok (captured_end self command_line timeout_secs elapsed_ms c))
              | _ => None
              end
          end
    end.

End tool_shell.

Import tools jsonl_codec tool_text text_proofs tool_fs tool_args std_tools tool_shell.

Module shell_proofs.

(** ** UTF-8 *)

Lemma take_skip n s : take_bytes n s +:+ skip_bytes n s = s.
Proof.
  revert s. induction n as [|n IH]; intros [|b s]; try done. simpl. by rewrite str_app_cons, IH.
Qed.
Lemma skip_length n s : String.length (skip_bytes n s) = String.length s - n.
Proof. revert s. induction n as [|n IH]; intros [|b s]; cbn; [done..|apply IH]. Qed.
Lemma skip_app n s t : n ≤ String.length s → skip_bytes n (s +:+ t) = skip_bytes n s +:+ t.
Proof.
  revert s. induction n as [|n IH]; intros [|b s] Hn; cbn in Hn; try done; try lia.
  rewrite str_app_cons. apply IH. lia.
Qed.
Lemma take_app_bytes n s t : n ≤ String.length s → take_bytes n (s +:+ t) = take_bytes n s.
Proof.
  revert s. induction n as [|n IH]; intros [|b s] Hn; cbn in Hn; try done; try lia.
  rewrite str_app_cons. cbn. f_equal. apply IH. lia.
Qed.

(** The tests of [utf8_step], one by one. *)
Ltac step_cases :=
  repeat match goal with
  | |- context [if ?b then _ else _] => destruct b eqn:?
  | |- context [match ?s with EmptyString => _ | String _ _ => _ end] => is_var s; destruct s
  end.

Lemma step_width s n : utf8_step s = Char n → 1 ≤ n ∧ n ≤ String.length s.
Proof. destruct s as [|a s]; [done|]. unfold utf8_step. step_cases; intros [= <-]; cbn; lia. Qed.

(** What a head is does not depend on what follows. *)
Lemma step_app s t u : utf8_step s = u → u ≠ Incomplete → utf8_step (s +:+ t) = u.
Proof.
  intros <-. destruct s as [|a [|b [|c [|d s]]]]; rewrite ?str_app_cons; unfold utf8_step; try done;
    repeat match goal with |- context [if ?b then _ else _] => destruct b; try done end.
Qed.

(** Nor on what is behind the character. *)
Lemma step_take s n : utf8_step s = Char n → utf8_step (take_bytes n s) = Char n.
Proof.
  destruct s as [|a [|b [|c [|d s]]]]; unfold utf8_step; try done;
    repeat match goal with
    | |- context [if ?b then _ else _] => destruct b eqn:?; try done
    end; intros [= <-]; cbn;
    repeat match goal with H : _ = _ |- _ => rewrite H; clear H end; done.
Qed.

Lemma in_range_true lo hi b : (lo ≤ byte_val b ≤ hi)%Z → in_range lo hi b = true.
Proof. intros. unfold in_range. apply andb_true_iff. rewrite !Z.leb_le. lia. Qed.
Lemma in_range_false lo hi b : (byte_val b < lo ∨ hi < byte_val b)%Z → in_range lo hi b = false.
Proof. intros. unfold in_range. apply andb_false_iff. rewrite !Z.leb_gt. lia. Qed.

(** The tests of a byte whose class is known. *)
Ltac ranges a :=
  repeat match goal with
  | |- context [in_range ?lo ?hi a] =>
      first [rewrite (in_range_true lo hi a) by lia | rewrite (in_range_false lo hi a) by lia]
  end; cbn [andb orb negb].

(** The classes of first bytes. *)
Lemma byte_classes b :
  let x := byte_val b in
  (x ≤ 127 ∨ (128 ≤ x ≤ 193) ∨ (194 ≤ x ≤ 223) ∨ x = 224 ∨ (225 ≤ x ≤ 236) ∨ x = 237 ∨
   (238 ≤ x ≤ 239) ∨ x = 240 ∨ (241 ≤ x ≤ 243) ∨ x = 244 ∨ 245 ≤ x)%Z.
Proof. cbn. lia. Qed.

Lemma byte_nonneg b : (0 ≤ byte_val b)%Z.
Proof. unfold byte_val. lia. Qed.

Lemma valid_cons a s1 :
  valid_utf8 (String a s1) =
  if in_range 0 127 a then valid_utf8 s1
  else
    match s1 with
    | EmptyString => false
    | String b s2 =>
        if in_range 194 223 a && is_continuation b then valid_utf8 s2
        else
          match s2 with
          | EmptyString => false
          | String c s3 =>
              if ((in_range 224 224 a && in_range 160 191 b)
                  || ((in_range 225 236 a || in_range 238 239 a) && is_continuation b)
                  || (in_range 237 237 a && in_range 128 159 b)) && is_continuation c
              then valid_utf8 s3
              else
                match s3 with
                | EmptyString => false
                | String d s4 =>
                    ((in_range 240 240 a && in_range 144 191 b)
                     || (in_range 241 243 a && is_continuation b)
                     || (in_range 244 244 a && in_range 128 143 b))
                    && is_continuation c && is_continuation d && valid_utf8 s4
                end
          end
    end.
Proof. done. Qed.

(** A text is valid when its head is a character and the rest is valid. *)
Lemma valid_step s :
  s ≠ "" → valid_utf8 s = match utf8_step s with Char n => valid_utf8 (skip_bytes n s) | _ => false end.
Proof.
  destruct s as [|a s]; [done|]. intros _. pose proof (byte_classes a) as Ha. pose proof (byte_nonneg a) as H0.
  cbn in Ha. rewrite valid_cons. unfold utf8_step. generalize valid_utf8 as V. intros V.
  destruct Ha as [Ha|[Ha|[Ha|[Ha|[Ha|[Ha|[Ha|[Ha|[Ha|[Ha|Ha]]]]]]]]]]; ranges a; clear Ha H0;
    destruct s as [|b [|c [|d s]]]; cbn [skip_bytes]; try done;
    repeat match goal with
    | |- context [is_continuation ?x] => destruct (is_continuation x); cbn [andb orb]; try done
    | |- context [in_range ?l ?h ?x] => destruct (in_range l h x); cbn [andb orb]; try done
    end.
Qed.

(** ** Decoding piece by piece *)

Definition broken (s : string) : Prop := s = "" ∨ ∀ n, utf8_step s ≠ Char n.

Lemma valid_prefix v n s : utf8_step s = Char n → valid_utf8 v = true → valid_utf8 (take_bytes n s +:+ v) = true.
Proof.
  intros Hs Hv. pose proof (step_width _ _ Hs) as [H1 H2]. apply step_take in Hs.
  rewrite valid_step.
  - rewrite (step_app _ _ (Char n)) by done. rewrite skip_app.
    + assert (skip_bytes n (take_bytes n s) = "") as ->; [|done].
      apply str_length_nil. rewrite skip_length. pose proof (step_width _ _ Hs). 
      assert (String.length (take_bytes n s) ≤ n); [|lia].
      clear. revert s. induction n; intros [|b s]; cbn; try lia. specialize (IHn s). lia.
    + apply (step_width _ _ Hs).
  - intros (Ht & _)%str_app_eq_nil. rewrite Ht in Hs. done.
Qed.

(** [valid_part] cuts a text where it stops being valid. *)
Lemma valid_part_spec fuel s :
  String.length s ≤ fuel →
  let '(v, behind) := valid_part fuel s in
  s = v +:+ behind ∧ valid_utf8 v = true ∧ broken behind ∧
  ∀ t, valid_utf8 (s +:+ t) = valid_utf8 (behind +:+ t).
Proof.
  revert s. induction fuel as [|fuel IH]; intros s Hf; cbn [valid_part].
  - assert (s = "") as -> by (apply str_length_nil; lia). split_and!; try done. by left.
  - destruct (utf8_step s) as [n|n|] eqn:Hs.
    2,3: split_and!; try done; right; intros m; congruence.
    pose proof (step_width _ _ Hs) as [H1 H2].
    specialize (IH (skip_bytes n s)). rewrite skip_length in IH.
    destruct (valid_part fuel (skip_bytes n s)) as [v behind]. destruct IH as (He & Hv & Hb & Ht); [lia|].
    split_and!; [|by apply valid_prefix|done|].
    + rewrite str_app_assoc, <- He. by rewrite take_skip.
    + intros t. rewrite <- Ht, <- skip_app by lia. rewrite valid_step.
      * by rewrite (step_app _ _ (Char n)).
      * destruct s; [done|]. by rewrite str_app_cons.
Qed.

(** The beginning of a valid text is cut inside a character at most. *)
Lemma take_utf8_text pending incoming more :
  valid_utf8 (pending +:+ incoming +:+ more) = true →
  let '(text, pending') := take_utf8 pending incoming in
  pending +:+ incoming = text +:+ pending' ∧ valid_utf8 (pending' +:+ more) = true ∧ broken pending'.
Proof.
  rewrite <- str_app_assoc. unfold take_utf8. intros Hv.
  pose proof (valid_part_spec (String.length (pending +:+ incoming)) (pending +:+ incoming)) as H.
  destruct (valid_part _ _) as [v behind]. destruct H as (He & Hval & Hb & Ht); [done|].
  rewrite He. destruct (str_is_empty behind) eqn:Hempty.
  - apply str_is_empty_true in Hempty as ->. split_and!; [done|by rewrite <- Ht|by left].
  - apply str_is_empty_false in Hempty. unfold from_utf8. rewrite Hval. cbn [default].
    rewrite Ht in Hv. destruct (utf8_step behind) as [n|n|] eqn:Hs; try done.
    exfalso. rewrite valid_step in Hv.
    + by rewrite (step_app _ _ (Invalid n)) in Hv.
    + intros (? & _)%str_app_eq_nil. done.
Qed.

(** The loop of a pipe that is read to its end. *)
Definition feed (s : Pipe * list string) (bytes : string) : Pipe * list string :=
  pipe_read s.1 s.2 (inr bytes).
Definition read_all (chunks : list string) : Pipe * list string :=
  foldl feed (pipe_new, []) (chunks ++ [""]).

Lemma feed_more p texts bytes :
  bytes ≠ "" →
  feed (p, texts) bytes =
  ({| all_bytes := all_bytes p +:+ bytes; pending := (take_utf8 (pending p) bytes).2;
      pipe_done := false |}, push_text (take_utf8 (pending p) bytes).1 texts).
Proof. destruct bytes; [done|]. unfold feed, pipe_read. cbn [fst snd]. by destruct (take_utf8 _ _). Qed.

Lemma push_text_concat text texts : concat_str (push_text text texts) = concat_str texts +:+ text.
Proof.
  unfold push_text. destruct (str_is_empty text) eqn:He.
  - apply str_is_empty_true in He as ->. by rewrite str_app_nil_r.
  - rewrite concat_str_app. cbn. by rewrite str_app_nil_r.
Qed.

Lemma read_chunks chunks p texts more :
  Forall (λ c, c ≠ "") chunks → broken (pending p) →
  valid_utf8 (pending p +:+ concat_str chunks +:+ more) = true →
  let '(p', texts') := foldl feed (p, texts) chunks in
  concat_str texts' +:+ pending p' = concat_str texts +:+ pending p +:+ concat_str chunks ∧
  all_bytes p' = all_bytes p +:+ concat_str chunks ∧ valid_utf8 (pending p' +:+ more) = true ∧
  broken (pending p').
Proof.
  intros Hc. revert p texts. induction Hc as [|c chunks Hne Hc IH]; intros p texts Hb Hv.
  { cbn in *. by rewrite !str_app_nil_r. }
  change (concat_str (c :: chunks)) with (c +:+ concat_str chunks) in *. rewrite str_app_assoc in Hv.
  cbn [foldl]. rewrite feed_more by done. apply take_utf8_text in Hv as H1.
  destruct (take_utf8 (pending p) c) as [text pending']. destruct H1 as (He & Hp & Hbr). cbn [fst snd].
  specialize (IH {| all_bytes := all_bytes p +:+ c; pending := pending'; pipe_done := false |}
    (push_text text texts) Hbr Hp). cbn [pending all_bytes] in IH.
  destruct (foldl _ _ chunks) as [p' texts']. destruct IH as (H1 & H2 & H3 & H4).
  split_and!; [|by rewrite H2, str_app_assoc|done|done].
  rewrite H1, push_text_concat, !str_app_assoc. f_equal. rewrite <- !str_app_assoc. by rewrite He.
Qed.

Lemma lossy_valid s : valid_utf8 s = true → from_utf8_lossy s = s.
Proof.
  unfold from_utf8_lossy. generalize (le_n (String.length s)). generalize (String.length s) at 2 3 as fuel.
  intros fuel. revert s. induction fuel as [|fuel IH]; intros s Hf Hv.
  { symmetry. apply str_length_nil. lia. }
  destruct s as [|b s]; [done|]. cbn [lossy_from]. rewrite valid_step in Hv by done.
  destruct (utf8_step (String b s)) as [n|n|] eqn:Hs; try done.
  pose proof (step_width _ _ Hs). rewrite IH; [apply take_skip|rewrite skip_length; lia|done].
Qed.

Lemma read_all_text chunks :
  Forall (λ c, c ≠ "") chunks → valid_utf8 (concat_str chunks) = true →
  let '(p, texts) := read_all chunks in
  concat_str texts = concat_str chunks ∧ all_bytes p = concat_str chunks ∧ pipe_done p = true.
Proof.
  intros Hc Hv. unfold read_all. rewrite foldl_app.
  pose proof (read_chunks chunks pipe_new [] "" Hc (or_introl eq_refl)) as H. cbn [pending pipe_new] in H.
  rewrite str_app_nil_r in H. specialize (H Hv).
  destruct (foldl _ _ chunks) as [p texts]. destruct H as (H1 & H2 & H3 & H4).
  cbn in H1, H2. rewrite str_app_nil_r in H3.
  assert (pending p = "") as Hp.
  { destruct H4 as [?|Hb]; [done|]. destruct (pending p) as [|b s] eqn:Hs; [done|].
    rewrite valid_step in H3 by done. destruct (utf8_step _) eqn:He; try done. by destruct (Hb _ eq_refl). }
  cbn. rewrite Hp in *. cbn. rewrite str_app_nil_r in H1. done.
Qed.

(** ** Cuts *)

Lemma ceil_boundary_spec fuel s start :
  start + fuel = String.length s →
  start ≤ ceil_boundary fuel s start ≤ String.length s ∧
  is_char_boundary s (ceil_boundary fuel s start) = true.
Proof.
  revert start. induction fuel as [|fuel IH]; intros start Hs; cbn [ceil_boundary].
  - split; [lia|]. unfold is_char_boundary. rewrite (bool_decide_true (start = String.length s)) by lia.
    by rewrite orb_true_r.
  - destruct (is_char_boundary s start) eqn:Hb; [split; [lia|done]|].
    destruct (IH (S start)) as [? ?]; [lia|]. split; [lia|done].
Qed.

(** The tail fits, and starts with a character. *)
Lemma tail_within_spec max_bytes s :
  ∃ head, s = head +:+ tail_within max_bytes s ∧ String.length (tail_within max_bytes s) ≤ max_bytes ∧
    is_char_boundary s (String.length head) = true.
Proof.
  unfold tail_within. set (start := String.length s - max_bytes).
  destruct (ceil_boundary_spec (String.length s - start) s start) as [H1 H2]; [lia|].
  revert H1 H2. generalize (ceil_boundary (String.length s - start) s start) as n. intros n H1 H2.
  exists (take_bytes n s). split; [by rewrite take_skip|]. rewrite skip_length. split; [lia|].
  assert (String.length (take_bytes n s) = n) as ->; [|done].
  pose proof (f_equal String.length (take_skip n s)) as Hl. rewrite str_app_length, skip_length in Hl. lia.
Qed.

Definition rows_length (rows : list string) : nat := sum_list_with (λ r, String.length r + 1) rows.

Lemma join_rows rows : String.length (join lf rows) ≤ rows_length rows - 1.
Proof.
  unfold rows_length. induction rows as [|r rows IH]; cbn; [lia|]. destruct rows as [|r' rows]; [cbn; lia|].
  rewrite !str_app_length. cbn [sum_list_with] in *. change (String.length lf) with 1. lia.
Qed.

(** What the loop keeps: the last lines, or the end of the last one. *)
Lemma keep_tail_spec max_bytes max_lines rev_lines kept kept' truncated :
  rows_length kept ≤ max_bytes → length kept ≤ max_lines →
  keep_tail max_bytes max_lines rev_lines kept (rows_length kept) = (kept', truncated) →
  (∃ front, reverse rev_lines ++ kept = front ++ kept' ∧ rows_length kept' ≤ max_bytes ∧
    length kept' ≤ max_lines ∧ truncated = negb (is_nil front)) ∨
  (truncated = true ∧ 0 < max_lines ∧
   ∃ front line, reverse rev_lines ++ kept = front ++ [line] ∧ kept' = [tail_within max_bytes line]).
Proof.
  revert kept. induction rev_lines as [|line rev_lines IH]; intros kept Hb Hl; cbn [keep_tail].
  { intros [= <- <-]. left. exists []. by rewrite reverse_nil. }
  assert (∀ front : list string, front ++ [line] ≠ []) as Hne by by intros [].
  case_bool_decide as Hmax.
  { intros [= <- <-]. left. exists (reverse (line :: rev_lines)). split_and!; [done|done|done|].
    rewrite reverse_cons. symmetry. apply negb_true_iff. destruct (is_nil _) eqn:Hn; [|done].
    apply is_nil_true in Hn. by destruct (Hne _ Hn). }
  case_bool_decide as Hfit.
  - intros [= <- <-]. destruct kept as [|k kept].
    + right. split; [done|]. split; [lia|]. exists (reverse rev_lines), line.
      by rewrite reverse_cons, app_nil_r.
    + left. exists (reverse (line :: rev_lines)). split_and!; [done|done|done|].
      rewrite reverse_cons. symmetry. apply negb_true_iff. destruct (is_nil (_ ++ _)) eqn:Hn; [|done].
      apply is_nil_true in Hn. by destruct (Hne _ Hn).
  - intros Hk. rewrite reverse_cons, <- app_assoc. cbn [app]. apply IH.
    + unfold rows_length in *. cbn [sum_list_with]. lia.
    + cbn. lia.
    + rewrite <- Hk. f_equal. unfold rows_length. cbn [sum_list_with]. lia.
Qed.

(** ** Captures *)

Definition stdout_data (e : Event) : string := match e with StdoutRead (inr bytes) => bytes | _ => "" end.
Definition stderr_data (e : Event) : string := match e with StderrRead (inr bytes) => bytes | _ => "" end.
Definition exit_of (e : Event) : option (ErrorKind + ExitStatus) :=
  match e with Waited result => Some result | _ => None end.
Definition is_timer (e : Event) : bool := match e with TimerFired => true | _ => false end.
Definition is_cancel (e : Event) : bool := match e with CancelSeen => true | _ => false end.

Lemma pipe_read_bytes p texts result :
  all_bytes (pipe_read p texts result).1
  = all_bytes p +:+ match result with inr bytes => bytes | inl _ => "" end.
Proof.
  destruct result as [e|[|b s]]; cbn [pipe_read fst all_bytes]; [by rewrite str_app_nil_r..|].
  by destruct (take_utf8 _ _).
Qed.

(** What a capture has, from what it had and what happened. *)
Lemma capture_spec events c c' :
  capture_output events c = Some (inr c') →
  capturing c' = false ∧
  all_bytes (out_pipe c') = all_bytes (out_pipe c) +:+ concat_str (stdout_data <$> events) ∧
  all_bytes (err_pipe c') = all_bytes (err_pipe c) +:+ concat_str (stderr_data <$> events) ∧
  status c' = match status c with Some r => Some r | None => head (omap exit_of events) end ∧
  timed_out c' = timed_out c || any is_timer events ∧
  cancelled c' = cancelled c || any is_cancel events ∧
  (killed c = timed_out c || cancelled c → killed c' = timed_out c' || cancelled c') ∧
  (timed_out c && cancelled c = false → timed_out c' && cancelled c' = false).
Proof.
  revert c. induction events as [|e events IH]; intros c; cbn [capture_output];
    destruct (capturing c) eqn:Hc; try done.
  { intros [= <-]. cbn. rewrite !str_app_nil_r, !orb_false_r. split_and!; try done. by destruct (status c). }
  destruct (tool_shell.enabled c e) eqn:He; [|done]. intros H%IH. clear IH.
  destruct H as (H0 & H1 & H2 & H3 & H4 & H5 & H6 & H7). split; [done|].
  cbn [fmap list_fmap concat_str omap list_omap any existsb].
  destruct e as [r|r|r| |]; cbn [handle] in *.
  - cbn in *. unfold tool_shell.enabled in He. destruct (status c); [done|]. by split_and!.
  - destruct (pipe_read (out_pipe c) (pushed c) r) as [p texts] eqn:Hp.
    pose proof (pipe_read_bytes (out_pipe c) (pushed c) r) as Hb. rewrite Hp in Hb. cbn in *.
    rewrite H1, Hb, str_app_assoc. by split_and!.
  - destruct (pipe_read (err_pipe c) (pushed c) r) as [p texts] eqn:Hp.
    pose proof (pipe_read_bytes (err_pipe c) (pushed c) r) as Hb. rewrite Hp in Hb. cbn in *.
    rewrite H2, Hb, str_app_assoc. by split_and!.
  - apply andb_true_iff in He as [[Ht Hcn]%andb_true_iff Hs]. apply negb_true_iff in Ht, Hcn.
    cbn in *. rewrite Ht, Hcn in *. split_and!; try done; intros; try (by apply H6); by apply H7.
  - apply andb_true_iff in He as [[Ht Hcn]%andb_true_iff Hs]. apply negb_true_iff in Ht, Hcn.
    cbn in *. rewrite Ht, Hcn in *. split_and!; try done; intros; try (by apply H6); by apply H7.
Qed.

End shell_proofs.
