(* ===== verification/ToolDefs.v ===== *)
(** The definitions under which the standard tools are registered
    (src/crates/philo-tools-std/src/: [definition] of read.rs, list.rs, grep.rs,
    write.rs, edit.rs and shell.rs), and the displays derived from stored calls
    (replay.rs).

    Module [tool_definitions]: [ToolDefinition::new(..).expect(..)] as in
    Tools.v. A raw string of the source has its quotes written as
    backquotes. *)

From S2P Require Import Prelude RustStr Tools Session ToolText ToolArgs ToolFiles.
From Stdlib Require Import Ascii.
Import tools tool_text tool_args std_tools.

Module tool_definitions.

Definition READ_TOOL_NAME := "read".
Definition LIST_TOOL_NAME := "list".
Definition GREP_TOOL_NAME := "grep".
Definition WRITE_TOOL_NAME := "write".
Definition EDIT_TOOL_NAME := "edit".
Definition SHELL_TOOL_NAME := "shell".

Definition quoted (s : string) : string := replace "`" registry.quote s.

Definition expect_definition (name description schema : string) (effect : EffectClass)
    : outcome string ToolDefinition :=
  match registry.definition_new name description (inr (quoted schema)) effect with
  | Ok d => Ok d
  | _ => Panic
  end.

Definition read_definition : outcome string ToolDefinition :=
  expect_definition READ_TOOL_NAME
    ("Read a UTF-8 text file located inside the workspace root. Relative paths resolve "
     +:+ "against the root. Output lines carry line-number prefixes; use offset (1-based line "
     +:+ "number) and limit to page through large files — the truncation marker states the "
     +:+ "next offset. Images and other binary files are rejected.")
    ("{`type`:`object`,`properties`:{`path`:{`type`:`string`,`description`:`File path to "
     +:+ "read, resolved against the root directory`},`offset`:{`type`:`integer`,"
     +:+ "`description`:`Optional 1-based line number to start reading from`},"
     +:+ "`limit`:{`type`:`integer`,`description`:`Optional maximum number of lines to "
     +:+ "read`}},`required`:[`path`]}")
    ReadOnly.

Definition list_definition : outcome string ToolDefinition :=
  expect_definition LIST_TOOL_NAME
    ("List the entries of a directory inside the workspace root (one level, not "
     +:+ "recursive). Each line is 'dir<TAB>name' or 'file<TAB>name'. An optional glob "
     +:+ "filters entry names. Output is capped by an entry limit (default 500) and a byte "
     +:+ "cap; the truncation marker states how to see more.")
    ("{`type`:`object`,`properties`:{`path`:{`type`:`string`,`description`:`Directory to "
     +:+ "list, resolved against the root; defaults to the root itself`},"
     +:+ "`glob`:{`type`:`string`,`description`:`Optional glob filtering entry names, e.g. "
     +:+ "*.rs`},`limit`:{`type`:`integer`,`description`:`Optional maximum number of entries "
     +:+ "to return (capped by the configured limit)`}}}")
    ReadOnly.

Definition grep_definition : outcome string ToolDefinition :=
  expect_definition GREP_TOOL_NAME
    ("Search text files inside the workspace root with a regular expression. Searches "
     +:+ "recursively (hidden directories and binary files are skipped); each match line is "
     +:+ "'path:line:content', and long lines are truncated. Scanning stops at the match "
     +:+ "limit (default 200) — refine the pattern to narrow results. An optional glob "
     +:+ "restricts which file names are searched; ignore_case makes the search "
     +:+ "case-insensitive.")
    ("{`type`:`object`,`properties`:{`pattern`:{`type`:`string`,`description`:`Regular "
     +:+ "expression to search for`},`path`:{`type`:`string`,`description`:`File or directory "
     +:+ "to search, resolved against the root; defaults to the whole root`},"
     +:+ "`glob`:{`type`:`string`,`description`:`Optional glob filtering file names, e.g. "
     +:+ "*.rs`},`ignore_case`:{`type`:`boolean`,`description`:`Case-insensitive search "
     +:+ "(default false)`}},`required`:[`pattern`]}")
    ReadOnly.

Definition write_definition : outcome string ToolDefinition :=
  expect_definition WRITE_TOOL_NAME
    ("Write a UTF-8 text file inside the workspace root, replacing its whole content. "
     +:+ "Missing parent directories are created. The result confirms whether the file was "
     +:+ "created or overwritten.")
    ("{`type`:`object`,`properties`:{`path`:{`type`:`string`,`description`:`File path to "
     +:+ "write, resolved against the root directory`},`content`:{`type`:`string`,"
     +:+ "`description`:`The complete new file content`}},`required`:[`path`,`content`]}")
    Workspace.

Definition edit_definition : outcome string ToolDefinition :=
  expect_definition EDIT_TOOL_NAME
    ("Replace one exact string occurrence in a UTF-8 text file inside the workspace root. "
     +:+ "old_string must match exactly once: zero matches and multiple matches are distinct "
     +:+ "errors (add more surrounding context to disambiguate). new_string may be empty to "
     +:+ "delete the matched text. Line endings are matched tolerantly (LF matches CRLF "
     +:+ "files) and the file's endings are preserved.")
    ("{`type`:`object`,`properties`:{`path`:{`type`:`string`,`description`:`File path to "
     +:+ "edit, resolved against the root directory`},`old_string`:{`type`:`string`,"
     +:+ "`description`:`Exact text to replace; must occur exactly once`},"
     +:+ "`new_string`:{`type`:`string`,`description`:`Replacement text; empty deletes the "
     +:+ "match`}},`required`:[`path`,`old_string`,`new_string`]}")
    Workspace.

Definition shell_definition : outcome string ToolDefinition :=
  expect_definition SHELL_TOOL_NAME
    ("Run a command with the platform shell (sh -c) in the workspace root directory (the "
     +:+ "working directory is fixed). stdout and stderr are captured; the exit code is "
     +:+ "reported explicitly and a non-zero exit code is a normal result. There is no stdin, "
     +:+ "so interactive commands are not supported. Long output is truncated. An optional "
     +:+ "timeout_secs overrides the default timeout up to a configured maximum.")
    ("{`type`:`object`,`properties`:{`command`:{`type`:`string`,`description`:`The "
     +:+ "command line to execute`},`timeout_secs`:{`type`:`integer`,`description`:`Optional "
     +:+ "timeout in seconds, capped at the assembly maximum`}},`required`:[`command`]}")
    System.


(** ** replay.rs *)

(** [optional_string(..).ok().flatten()]. *)
Definition field_of (arguments key : string) : option string :=
  match optional_string arguments key with Ok value => value | _ => None end.

Definition derive_read (arguments content : string) : ToolDisplay :=
  fact "lines_shown" (to_string (length (lines content)))
    (count "1 file"
      (subject (default "" (field_of arguments "path")) (card "Read" "Read" "none" ""))).

(** A line with two colons, the first one not at its start. *)
Definition is_loc_line (line : string) : bool :=
  match split_first ":" line with
  | None => false
  | Some (before, rest) => negb (str_is_empty before) && contains ":" rest
  end.

Definition derive_grep (arguments content : string) : ToolDisplay :=
  let pattern := default "" (field_of arguments "pattern") in
  let matches_total := length (base.filter (λ line, is_loc_line line = true) (lines content)) in
  fact "matches_total" (to_string matches_total)
    (count "1 search"
      (subject (registry.quote +:+ pattern +:+ registry.quote)
        (card "Grep" "Searched" "locs" content))).

Definition derive_list (arguments content : string) : ToolDisplay :=
  fact "entries_total" (to_string (length (lines content)))
    (count "1 directory"
      (subject (default "." (field_of arguments "path"))
        (card "List Directory" "Listed" "none" ""))).

(** [usize::MAX] lines are more than a text has. *)
Definition derive_write (arguments content : string) : ToolDisplay :=
  let file_content := default "" (field_of arguments "content") in
  let '(detail, added, _) := plus_lines file_content (length (lines file_content)) in
  fact "removed" "0"
    (fact "added" (to_string added)
      (subject (default "" (field_of arguments "path")) (card "Write" "Wrote" "diff" detail))).

Definition degraded_edit_hunk (old_string new_string : string) : string :=
  join lf (((λ line, "-" +:+ line) <$> lines old_string)
           ++ ((λ line, "+" +:+ line) <$> lines new_string)).

Definition derive_edit (arguments content : string) : ToolDisplay :=
  let old_string := default "" (field_of arguments "old_string") in
  let new_string := default "" (field_of arguments "new_string") in
  fact "removed" (to_string (length (lines old_string)))
    (fact "added" (to_string (length (lines new_string)))
      (subject (default "" (field_of arguments "path"))
        (card "Edit" "Edited" "diff" (degraded_edit_hunk old_string new_string)))).

Definition derive_shell (arguments content : string) : ToolDisplay :=
  count "1 command"
    (subject (default "" (field_of arguments "command")) (card "Run" "Ran" "output" content)).

Definition derive_display_for_replay (tool_name arguments : string)
    (out : session.ToolResultOutcome) : option ToolDisplay :=
  match out with
  | session.Success content =>
      if tool_name == READ_TOOL_NAME then Some (derive_read arguments content)
      else if tool_name == GREP_TOOL_NAME then Some (derive_grep arguments content)
      else if tool_name == LIST_TOOL_NAME then Some (derive_list arguments content)
      else if tool_name == WRITE_TOOL_NAME then Some (derive_write arguments content)
      else if tool_name == EDIT_TOOL_NAME then Some (derive_edit arguments content)
      else if tool_name == SHELL_TOOL_NAME then Some (derive_shell arguments content)
      else None
  | _ => None
  end.

End tool_definitions.
