(* ===== verification/CodingProfile.v ===== *)
(** The coding profile (src/crates/philo-coding-profile/src/lib.rs): which tools
    there are, under which definitions, and the runtime configuration of the
    scenario.

    Module [coding_profile]: a registry entry holds a [Handler], one of the six
    tools with its root and limits. The calls of the five that work on files are
    [file_call]; [shell] is ToolShell.v's [run]. *)

From S2P Require Import Prelude RustStr Tools Runtime JsonlCodec ToolPath ToolFiles ToolGrep.
From S2P Require Import ToolShell ToolDefs.
From Stdlib Require Import SpecFloat.
Import tools runtime tool_fs std_tools tool_grep tool_shell tool_definitions.

Module coding_profile.

Inductive Handler : Type :=
| ReadHandler (tool : ReadTool)
| ListHandler (tool : ListTool)
| GrepHandler (tool : GrepTool)
| WriteHandler (root : string)
| EditHandler (root : string)
| ShellHandler (tool : ShellTool).

(** [call_with_cx] of the tools that work on files. *)
Definition file_call `{FsFaults} `{ReadOrder} `{CancelSignal} `{Globs} `{Lowercase} `{Regexes}
    (handler : Handler) (arguments : string)
    : option (World → World * outcome Empty_set ToolInvokeEnd) :=
  match handler with
  | ReadHandler tool => Some (call_with_cx (read_tool tool arguments))
  | ListHandler tool => Some (stoppable_end (list_tool tool arguments))
  | GrepHandler tool => Some (stoppable_end (grep_tool tool arguments))
  | WriteHandler root => Some (call_with_cx (write_tool root arguments))
  | EditHandler root => Some (call_with_cx (edit_tool root arguments))
  | ShellHandler _ => None
  end.

Definition CODING_SYSTEM_PROMPT : string :=
  ("You are a coding assistant working inside the user's workspace. You have tools for "
   +:+ "the full query-modify-verify loop: `read`, `list`, and `grep` to inspect the "
   +:+ "workspace, `write` and `edit` to change files, and `shell` to run commands (fixed "
   +:+ "to the workspace root, no stdin, output truncated). Inspect before you change: read "
   +:+ "the relevant files first, make precise edits, and verify with the shell (for "
   +:+ "example by building or running tests) when it matters. Prefer `edit` with a unique "
   +:+ "context snippet over rewriting whole files. A non-zero shell exit code is a normal "
   +:+ "result: read the output and act on it. Be direct and technically precise. If the "
   +:+ "workspace does not contain the information required, say so plainly instead of "
   +:+ "guessing.").

Definition DEFAULT_MAX_TOOL_ROUNDS : Z := 8.
Definition DEFAULT_MAX_OUTPUT_TOKENS : Z := 4096.

Record CodingProfile : Type := { workspace_root : string; shell_timeout_secs : Z }.
Definition profile_new (workspace_root : string) : CodingProfile :=
  {| workspace_root := workspace_root; shell_timeout_secs := DEFAULT_SHELL_TIMEOUT_SECS |}.
Definition with_shell_timeout_secs (self : CodingProfile) (seconds : Z) : CodingProfile :=
  {| workspace_root := workspace_root self; shell_timeout_secs := Z.max seconds 1 |}.

(** The registered tools, in order. *)
Definition lineup (self : CodingProfile) : list (outcome string ToolDefinition * Handler) :=
  let root := workspace_root self in
  [(read_definition, ReadHandler (read_new root)); (list_definition, ListHandler (list_new root));
   (grep_definition, GrepHandler (grep_new root)); (write_definition, WriteHandler root);
   (edit_definition, EditHandler root);
   (shell_definition,
    ShellHandler (with_default_timeout_secs (shell_new root) (shell_timeout_secs self)))].

(** [register(..).expect(..)]. *)
Definition register_tool (acc : outcome Empty_set (registry.ToolRegistryBuilder (Handler := Handler)))
    (tool : outcome string ToolDefinition * Handler)
    : outcome Empty_set (registry.ToolRegistryBuilder (Handler := Handler)) :=
  match acc, tool.1 with
  | Ok builder, Ok definition =>
      match registry.register builder definition tool.2 with Ok builder => Ok builder | _ => Panic end
  | _, _ => Panic
  end.
Definition tool_registry (self : CodingProfile)
    : outcome Empty_set (registry.ToolRegistry (Handler := Handler)) :=
  match foldl register_tool (Ok registry.builder_new) (lineup self) with
  | Ok builder => Ok (registry.build builder)
  | _ => Panic
  end.

Definition generation_defaults : GenerationConfig :=
  {| max_output_tokens := DEFAULT_MAX_OUTPUT_TOKENS; temperature := f32_of_u64 0;
     reasoning_effort := None; tool_choice := ChoiceAuto |}.

(** config.rs of the runtime: [Default]. *)
Definition DEFAULT_MAX_PARALLEL_TOOL_CALLS : Z := 8.
Definition DEFAULT_TOOL_CANCEL_GRACE : Z := 300.
Definition compaction_default : CompactionConfig :=
  {| context_budget := None; auto_threshold := SFdiv 24 128 (f32_of_u64 8) (f32_of_u64 10);
     keep_recent_turns := 4; estimate_bytes_per_token := 3 |}.
Definition recovery_default : RecoveryConfig :=
  {| runtime.enabled := true; max_retries := 3; backoff_base_ms := 500; backoff_max_ms := 8000 |}.

Definition runtime_config (model_target : string) : RuntimeConfig :=
  {| system_prompt := CODING_SYSTEM_PROMPT; model_target := model_target;
     generation := generation_defaults; max_tool_rounds := DEFAULT_MAX_TOOL_ROUNDS;
     max_parallel_tool_calls := DEFAULT_MAX_PARALLEL_TOOL_CALLS; operation_timeout := None;
     tool_cancel_grace := DEFAULT_TOOL_CANCEL_GRACE; compaction := compaction_default;
     recovery := recovery_default |}.

End coding_profile.
