(* ===== verification/ToolBlocking.v ===== *)
(** The bounded pool the file tools run on, and the locks of the tools that
    change files (src/crates/philo-tools-std/src/blocking.rs, mutation.rs).

    Module [tool_blocking]: the pool as a step relation. A step is one access of
    a semaphore, the end of a piece of work, a request to cancel, or one poll of
    a caller; a call has its job, the thread it occupies and the answer its
    caller got. Threads and callers interleave freely.

    Module [tool_mutation]: the process-wide table of locks, and the threads that
    look a lock up, take it and leave it.

    The pool of the file tools and the locks of the tools that change files
    (src/crates/philo-tools-std/src/blocking.rs, mutation.rs).

    Module [blocking_proofs]: every permit is accounted for by the threads that
    hold it, and a thread that waits can go on or another one can. Module
    [mutation_proofs]: one path has one lock, and one thread inside. *)

From S2P Require Import Prelude RustStr Tools ToolDefs.
Import tools tool_definitions.

Module tool_blocking.

Definition DEFAULT_BLOCKING_TOOL_CONCURRENCY : nat := 8.
Definition DEFAULT_BLOCKING_TOOL_QUEUE : nat := 32.

(** The permits that are left of the two semaphores, with their numbers. *)
Record BlockingPool : Type := {
  running : nat;
  queue : nat;
  concurrency : nat;
  queue_bound : nat
}.
Definition pool_new (concurrency queue_bound : nat) : BlockingPool :=
  let concurrency := max concurrency 1 in
  {| running := concurrency; queue := queue_bound; concurrency := concurrency;
     queue_bound := queue_bound |}.
Definition pool_default : BlockingPool :=
  pool_new DEFAULT_BLOCKING_TOOL_CONCURRENCY DEFAULT_BLOCKING_TOOL_QUEUE.

Definition set_permits (running queue : nat) (p : BlockingPool) : BlockingPool :=
  {| running := running; queue := queue; concurrency := concurrency p;
     queue_bound := queue_bound p |}.

Inductive Admission : Type := AdmittedRunning | AdmittedQueued.

Definition pool_busy : ToolPortError := {| port_message := "blocking tool pool busy" |}.

Definition try_admit (p : BlockingPool) : BlockingPool * outcome ToolPortError Admission :=
  match running p with
  | S running => (set_permits running (queue p) p, Ok AdmittedRunning)
  | O =>
      match queue p with
      | S queue => (set_permits 0 queue p, Ok AdmittedQueued)
      | O => (p, Err pool_busy)
      end
  end.

Section pool.
(** What a piece of work returns. *)
Context {T : Type}.

Inductive RunOutcome : Type := RunCompleted (value : T) | RunCancelled.

(** The blocking thread of a call: none, waiting with a queue permit, with both
    permits, working with a running permit, ended with a value or by a panic. *)
Inductive Thread : Type :=
| NoThread | ThreadWaits | ThreadMoves | ThreadWorks | ThreadEnded (value : option T).

Record Job : Type := {
  thread : Thread;
  cancel : bool;
  answer : option (outcome ToolPortError RunOutcome)
}.
Definition set_thread (t : Thread) (j : Job) : Job :=
  {| thread := t; cancel := cancel j; answer := answer j |}.

Record State : Type := { pool : BlockingPool; jobs : gmap nat Job }.
Definition state_new (p : BlockingPool) : State := {| pool := p; jobs := ∅ |}.

Definition put (id : nat) (j : Job) (p : BlockingPool) (s : State) : State :=
  {| pool := p; jobs := <[id := j]> (jobs s) |}.

(** [run_blocking] up to its [select!]: the pool and the job of the call. *)
Definition run_blocking (cancel : bool) (p : BlockingPool) : BlockingPool * Job :=
  if cancel then (p, {| thread := NoThread; cancel := cancel; answer := Some (Ok RunCancelled) |})
  else
    match try_admit p with
    | (p, Ok AdmittedRunning) => (p, {| thread := ThreadWorks; cancel := cancel; answer := None |})
    | (p, Ok AdmittedQueued) => (p, {| thread := ThreadWaits; cancel := cancel; answer := None |})
    | (p, Err error) => (p, {| thread := NoThread; cancel := cancel; answer := Some (Err error) |})
    | (p, Panic) => (p, {| thread := NoThread; cancel := cancel; answer := Some Panic |})
    end.

(** One poll of the [select!]: the cancel comes first. *)
Definition poll_answer (j : Job) : option (outcome ToolPortError RunOutcome) :=
  if cancel j then Some (Ok RunCancelled)
  else
    match thread j with
    | ThreadEnded (Some value) => Some (Ok (RunCompleted value))
    | ThreadEnded None => Some (Err {| port_message := "filesystem tool worker panicked" |})
    | _ => None
    end.

Inductive step (s : State) : State → Prop :=
| step_call id cancel :
    jobs s !! id = None →
    step s (let '(p, j) := run_blocking cancel (pool s) in put id j p s)
| step_acquire id j n :
    jobs s !! id = Some j → thread j = ThreadWaits → running (pool s) = S n →
    step s (put id (set_thread ThreadMoves j) (set_permits n (queue (pool s)) (pool s)) s)
| step_drop_queue id j :
    jobs s !! id = Some j → thread j = ThreadMoves →
    step s (put id (set_thread ThreadWorks j)
              (set_permits (running (pool s)) (S (queue (pool s))) (pool s)) s)
| step_end id j value :
    jobs s !! id = Some j → thread j = ThreadWorks →
    step s (put id (set_thread (ThreadEnded value) j)
              (set_permits (S (running (pool s))) (queue (pool s)) (pool s)) s)
| step_cancel id j :
    jobs s !! id = Some j →
    step s (put id {| thread := thread j; cancel := true; answer := answer j |} (pool s) s)
| step_poll id j a :
    jobs s !! id = Some j → answer j = None → poll_answer j = Some a →
    step s (put id {| thread := thread j; cancel := cancel j; answer := Some a |} (pool s) s).
End pool.
Arguments RunOutcome : clear implicits.
Arguments Thread : clear implicits.
Arguments Job : clear implicits.
Arguments State : clear implicits.

(** ** [BlockingToolExecutor] and [BlockingFsHandler] *)

(** Whether a call runs on the pool. *)
Definition on_pool (invocation : ToolInvocation) : bool :=
  negb (invocation_name invocation == SHELL_TOOL_NAME).

(** What the executor makes of the answer; the inner port may fail itself. *)
Definition executor_answer
    (a : outcome ToolPortError (RunOutcome (outcome ToolPortError ToolInvokeEnd)))
    : outcome ToolPortError ToolInvokeEnd :=
  let? out := a in
  match out with RunCancelled => Ok Stopped | RunCompleted result => result end.

(** [BlockingFsHandler::invoke], and its [ToolHandler] methods, which panic where
    the pool fails. *)
Definition handler_answer (a : outcome ToolPortError (RunOutcome ToolInvokeEnd))
    : outcome ToolPortError ToolInvokeEnd :=
  let? out := a in
  Ok (match out with RunCancelled => Stopped | RunCompleted ended => ended end).
Definition handler_call_with_cx (a : outcome ToolPortError (RunOutcome ToolInvokeEnd))
    : outcome Empty_set ToolInvokeEnd :=
  match handler_answer a with Ok ended => Ok ended | _ => Panic end.
Definition handler_call (a : outcome ToolPortError (RunOutcome ToolInvokeEnd))
    : outcome Empty_set RichToolResult :=
  match handler_answer a with Ok (Done result) => Ok result | _ => Panic end.

End tool_blocking.

Module tool_mutation.

Abbreviation path := (list string).

(** Where a thread is in [with_file_mutation]: it has its lock, or holds it. *)
Inductive ThreadState : Type :=
| HasLock (target : path) (lock : nat)
| Inside (target : path) (lock : nat).

(** The table, the thread that holds a lock, and the threads. *)
Record Locks : Type := {
  registry : gmap path nat;
  holders : gmap nat (option nat);
  threads : gmap nat ThreadState
}.
Definition locks_new : Locks := {| registry := ∅; holders := ∅; threads := ∅ |}.

(** [entry(key).or_default()]: the lock of a path, a new one if it has none. *)
Definition lock_of (target : path) (s : Locks) : nat * Locks :=
  match registry s !! target with
  | Some lock => (lock, s)
  | None =>
      let lock := fresh (dom (holders s)) in
      (lock, {| registry := <[target := lock]> (registry s); holders := <[lock := None]> (holders s);
                threads := threads s |})
  end.

Inductive step (s : Locks) : Locks → Prop :=
| step_look_up t target :
    threads s !! t = None →
    step s (let '(lock, s) := lock_of target s in
            {| registry := registry s; holders := holders s;
               threads := <[t := HasLock target lock]> (threads s) |})
| step_enter t target lock :
    threads s !! t = Some (HasLock target lock) → holders s !! lock = Some None →
    step s {| registry := registry s; holders := <[lock := Some t]> (holders s);
              threads := <[t := Inside target lock]> (threads s) |}
| step_leave t target lock :
    threads s !! t = Some (Inside target lock) →
    step s {| registry := registry s; holders := <[lock := None]> (holders s);
              threads := delete t (threads s) |}.

End tool_mutation.

Import tools.

Module blocking_proofs.
Import tool_blocking.

Section pool.
Context {T : Type}.
Implicit Types (s : State T) (j : Job T) (t : Thread T).

Definition holds_running t : bool := match t with ThreadMoves | ThreadWorks => true | _ => false end.
Definition holds_queue t : bool := match t with ThreadWaits | ThreadMoves => true | _ => false end.

(** How many jobs are like that, and how many have a thread like that. *)
Definition tally (f : Job T → bool) (m : gmap nat (Job T)) : nat :=
  size (filter (λ kv, f kv.2 = true) m).
Definition count (f : Thread T → bool) (m : gmap nat (Job T)) : nat := tally (λ j, f (thread j)) m.
Definition b2n (b : bool) : nat := if b then 1 else 0.

Lemma tally_fresh f m id j : m !! id = None → tally f (<[id := j]> m) = b2n (f j) + tally f m.
Proof.
  intros Hm. unfold tally. destruct (f j) eqn:Hf.
  - rewrite map_filter_insert_True by done. rewrite map_size_insert_None; [done|].
    rewrite map_lookup_filter, Hm. done.
  - rewrite map_filter_insert_False by (cbn; congruence). by rewrite delete_id.
Qed.
Lemma tally_update f m id j j' :
  m !! id = Some j → tally f (<[id := j']> m) + b2n (f j) = tally f m + b2n (f j').
Proof.
  intros Hm. pose proof (tally_fresh f (delete id m) id j (lookup_delete_eq _ _)) as H1.
  pose proof (tally_fresh f (delete id m) id j' (lookup_delete_eq _ _)) as H2.
  rewrite insert_delete_id in H1 by done. rewrite insert_delete_eq in H2. lia.
Qed.
Lemma count_fresh f m id j : m !! id = None → count f (<[id := j]> m) = b2n (f (thread j)) + count f m.
Proof. apply (tally_fresh (λ j, f (thread j))). Qed.
Lemma count_update f m id j j' :
  m !! id = Some j → count f (<[id := j']> m) + b2n (f (thread j)) = count f m + b2n (f (thread j')).
Proof. apply (tally_update (λ j, f (thread j))). Qed.
Lemma count_some f m id j : m !! id = Some j → f (thread j) = true → 1 ≤ count f m.
Proof.
  intros Hm Hf. unfold count, tally. destruct (size _) eqn:Hs; [|lia]. apply map_size_empty_inv in Hs.
  assert (filter (λ kv, f (thread kv.2) = true) m !! id = Some j) as Hj
    by by apply map_lookup_filter_Some.
  by rewrite Hs, lookup_empty in Hj.
Qed.
Lemma count_find f m : 1 ≤ count f m → ∃ id j, m !! id = Some j ∧ f (thread j) = true.
Proof.
  unfold count, tally. intros Hs. destruct (map_choose (filter (λ kv, f (thread kv.2) = true) m)) as (id & j & Hj).
  { intros He. rewrite He, map_size_empty in Hs. lia. }
  apply map_lookup_filter_Some in Hj as [? ?]. eauto.
Qed.

(** What is left of the permits, and who holds the others. *)
Record permits_ok s : Prop := {
  ok_concurrency : 1 ≤ concurrency (pool s);
  ok_running : running (pool s) + count holds_running (jobs s) = concurrency (pool s);
  ok_queue : queue (pool s) + count holds_queue (jobs s) = queue_bound (pool s)
}.

Lemma permits_new c q : permits_ok (state_new (pool_new c q)).
Proof. split; cbn; unfold count, tally; rewrite ?map_filter_empty, ?map_size_empty; lia. Qed.

(** The answer a caller got is not taken back, and is what happened. *)
Definition answers_ok s : Prop :=
  ∀ id j, jobs s !! id = Some j →
    match answer j with
    | None => thread j ≠ NoThread
    | Some (Ok RunCancelled) => cancel j = true
    | Some (Ok (RunCompleted value)) => thread j = ThreadEnded (Some value)
    | Some (Err error) =>
        (error = pool_busy ∧ thread j = NoThread) ∨ thread j = ThreadEnded None
    | Some Panic => False
    end.

Lemma call_permits id c s :
  permits_ok s → jobs s !! id = None →
  permits_ok (let '(p, j) := run_blocking c (pool s) in put id j p s).
Proof.
  intros [H0 H1 H2] Hid. unfold run_blocking, try_admit.
  destruct c; [|destruct (running (pool s)) eqn:Hr; [destruct (queue (pool s)) eqn:Hq|]];
    split; cbn; rewrite ?count_fresh by done; cbn; lia.
Qed.

Lemma step_permits s s' : permits_ok s → step s s' → permits_ok s'.
Proof.
  intros Hok Hs. destruct Hs as [id c Hid|id j n Hj Ht Hr|id j Hj Ht|id j v Hj Ht|id j Hj|id j a Hj Ha Hp];
    [by apply call_permits|..]; destruct Hok as [H0 H1 H2]; split; cbn in *; try done;
    match goal with
    | |- context [count ?f (<[id := ?j']> _)] =>
        pose proof (count_update f (jobs s) id j j' Hj) as Hc; cbn in Hc; rewrite ?Ht in Hc; cbn in Hc; lia
    end.
Qed.

Lemma step_answers s s' : answers_ok s → step s s' → answers_ok s'.
Proof.
  intros Hok Hs. destruct Hs as [id c Hid|id j n Hj Ht Hr|id j Hj Ht|id j v Hj Ht|id j Hj|id j a Hj Ha Hp];
    intros id' j'; unfold put; cbn [jobs].
  - unfold run_blocking, try_admit.
    destruct c; [|destruct (running (pool s)); [destruct (queue (pool s))|]]; cbn;
      intros [[-> <-]|[_ Hl]]%lookup_insert_Some; cbn; try (exact (Hok _ _ Hl)); by auto.
  - intros [[-> <-]|[_ Hl]]%lookup_insert_Some; [|exact (Hok _ _ Hl)]. specialize (Hok _ _ Hj). cbn.
    destruct (answer j) as [[[]| |]|]; try done; rewrite Ht in Hok; naive_solver.
  - intros [[-> <-]|[_ Hl]]%lookup_insert_Some; [|exact (Hok _ _ Hl)]. specialize (Hok _ _ Hj). cbn.
    destruct (answer j) as [[[]| |]|]; try done; rewrite Ht in Hok; naive_solver.
  - intros [[-> <-]|[_ Hl]]%lookup_insert_Some; [|exact (Hok _ _ Hl)]. specialize (Hok _ _ Hj). cbn.
    destruct (answer j) as [[[]| |]|]; try done; rewrite Ht in Hok; naive_solver.
  - intros [[-> <-]|[_ Hl]]%lookup_insert_Some; [|exact (Hok _ _ Hl)]. specialize (Hok _ _ Hj). cbn.
    by destruct (answer j) as [[[]| |]|].
  - intros [[-> <-]|[_ Hl]]%lookup_insert_Some; [|exact (Hok _ _ Hl)]. cbn. unfold poll_answer in Hp.
    destruct (cancel j) eqn:Hc; [by injection Hp as <-|].
    destruct (thread j) as [| | | |[v|]]; try done; injection Hp as <-; auto.
Qed.

Lemma pool_reachable_ok c q s :
  rtc step (state_new (pool_new c q)) s → permits_ok s ∧ answers_ok s.
Proof.
  intros Hr. apply (rtc_ind_r (R := step) (λ s, permits_ok s ∧ answers_ok s) (state_new (pool_new c q))); [|..|done].
  - split; [apply permits_new|]. intros id j. unfold state_new. cbn [jobs]. by rewrite lookup_empty.
  - intros s1 s2 _ Hs [H1 H2]. split; [by eapply step_permits|by eapply step_answers].
Qed.

(** The numbers of permits are what the pool was made with. *)
Lemma step_bounds s s' :
  step s s' → concurrency (pool s') = concurrency (pool s) ∧ queue_bound (pool s') = queue_bound (pool s).
Proof.
  destruct 1; try done. unfold run_blocking, try_admit. destruct cancel0; [done|].
  destruct (running (pool s)); [by destruct (queue (pool s))|done].
Qed.
Lemma reachable_bounds c q s :
  rtc step (state_new (pool_new c q)) s → concurrency (pool s) = max c 1 ∧ queue_bound (pool s) = q.
Proof.
  intros Hr.
  apply (rtc_ind_r (R := step) (λ s, concurrency (pool s) = max c 1 ∧ queue_bound (pool s) = q)
    (state_new (pool_new c q))); [done|..|done].
  intros s1 s2 _ [H1 H2]%step_bounds [H3 H4]. split; congruence.
Qed.

(** ** Progress *)

Definition alive t : bool := match t with ThreadWaits | ThreadMoves | ThreadWorks => true | _ => false end.
(** The steps a thread has before it. *)
Definition steps_left (m : gmap nat (Job T)) : nat :=
  count holds_queue m + count alive m
  + count (λ t, match t with ThreadWaits => true | _ => false end) m.

Lemma steps_decrease m id j t :
  m !! id = Some j →
  (thread j = ThreadWaits ∧ t = ThreadMoves) ∨ (thread j = ThreadMoves ∧ t = ThreadWorks) ∨
  (∃ v, thread j = ThreadWorks ∧ t = ThreadEnded v) →
  steps_left (<[id := set_thread t j]> m) < steps_left m.
Proof.
  intros Hj Ht. unfold steps_left.
  pose proof (count_update holds_queue m id j (set_thread t j) Hj) as H2.
  pose proof (count_update alive m id j (set_thread t j) Hj) as H3.
  pose proof (count_update (λ t, match t with ThreadWaits => true | _ => false end) m id j (set_thread t j) Hj) as H4.
  destruct Ht as [[E ->]|[[E ->]|(v & E & ->)]]; cbn in *; rewrite E in *; cbn in *; lia.
Qed.

Lemma thread_progress (v : option T) s id j :
  permits_ok s → jobs s !! id = Some j → alive (thread j) = true →
  ∃ s', step s s' ∧ steps_left (jobs s') < steps_left (jobs s).
Proof.
  intros [H0 H1 H2] Hj Ha.
  assert (∀ id' j', jobs s !! id' = Some j' → holds_running (thread j') = true →
    ∃ s', step s s' ∧ steps_left (jobs s') < steps_left (jobs s)) as Hrun.
  { intros id' j' Hj' Hh. destruct (thread j') as [| | | |] eqn:Ht; try done.
    - eexists. split; [by eapply step_drop_queue|]. cbn. apply steps_decrease; [done|]. rewrite Ht. auto.
    - eexists. split; [by eapply (step_end s id' j' v)|]. cbn. apply steps_decrease; [done|].
      rewrite Ht. eauto. }
  destruct (thread j) eqn:Ht; try done; try (apply (Hrun id j Hj); by rewrite Ht).
  destruct (running (pool s)) as [|n] eqn:Hr.
  - destruct (count_find holds_running (jobs s)) as (id' & j' & Hj' & Hh); [lia|]. eauto.
  - eexists. split; [by eapply step_acquire|]. cbn. apply steps_decrease; [done|]. auto.
Qed.

(** A step that somebody outside the pool takes: a call comes, or the run of a
    call is cancelled. All others are taken by threads and by waiting callers. *)
Definition from_outside s s' : Prop :=
  (∃ id c, jobs s !! id = None ∧ s' = let '(p, j) := run_blocking c (pool s) in put id j p s) ∨
  (∃ id j, jobs s !! id = Some j ∧
     s' = put id {| thread := thread j; cancel := true; answer := answer j |} (pool s) s).

(** The steps of the threads and the answers the callers wait for. *)
Definition unanswered j : bool := match answer j with None => true | Some _ => false end.
Definition work_left (m : gmap nat (Job T)) : nat := steps_left m + tally unanswered m.

Lemma steps_left_same m id j j' :
  m !! id = Some j → thread j' = thread j → steps_left (<[id := j']> m) = steps_left m.
Proof.
  intros Hj Ht. unfold steps_left.
  pose proof (count_update holds_queue m id j j' Hj) as H2.
  pose proof (count_update alive m id j j' Hj) as H3.
  pose proof (count_update (λ t, match t with ThreadWaits => true | _ => false end) m id j j' Hj) as H4.
  rewrite Ht in *. lia.
Qed.

(** A thread that goes on lowers the work; so does an answer. *)
Lemma work_thread m id j t :
  m !! id = Some j → steps_left (<[id := set_thread t j]> m) < steps_left m →
  work_left (<[id := set_thread t j]> m) < work_left m.
Proof.
  intros Hj Hs. unfold work_left. pose proof (tally_update unanswered m id j (set_thread t j) Hj) as H.
  unfold unanswered at 2 4 in H. cbn in H. lia.
Qed.
Lemma work_answer m id j a :
  m !! id = Some j → answer j = None →
  work_left (<[id := {| thread := thread j; cancel := cancel j; answer := Some a |}]> m) < work_left m.
Proof.
  intros Hj Ha. unfold work_left.
  set (j' := {| thread := thread j; cancel := cancel j; answer := Some a |}).
  pose proof (tally_update unanswered m id j j' Hj) as H. unfold unanswered at 2 4 in H.
  rewrite Ha in H. cbn in H. rewrite (steps_left_same m id j j' Hj eq_refl). lia.
Qed.

Lemma step_work s s' : step s s' → from_outside s s' ∨ work_left (jobs s') < work_left (jobs s).
Proof.
  intros [id c Hid|id j n Hj Ht Hr|id j Hj Ht|id j v Hj Ht|id j Hj|id j a Hj Ha Hp]; cbn.
  - left. left. eauto.
  - right. apply work_thread, steps_decrease; auto.
  - right. apply work_thread, steps_decrease; auto.
  - right. apply work_thread, steps_decrease; eauto.
  - left. right. eauto.
  - right. by apply work_answer.
Qed.

Lemma not_from_outside s s' : steps_left (jobs s') < steps_left (jobs s) → ¬ from_outside s s'.
Proof.
  intros Hl [(id & c & Hid & ->)|(id & j & Hj & ->)].
  - destruct (run_blocking c (pool s)) as [p j]. cbn in Hl. unfold steps_left in Hl.
    rewrite !count_fresh in Hl by done. lia.
  - cbn in Hl. rewrite (steps_left_same (jobs s) id j) in Hl by done. lia.
Qed.

(** The caller of a call that ended, or that has no thread, gets its answer. *)
Lemma answer_progress s id j :
  answers_ok s → jobs s !! id = Some j → answer j = None → alive (thread j) = false →
  ∃ a, step s (put id {| thread := thread j; cancel := cancel j; answer := Some a |} (pool s) s) ∧
    ¬ from_outside s (put id {| thread := thread j; cancel := cancel j; answer := Some a |} (pool s) s).
Proof.
  intros Hok Hj Ha Hal. specialize (Hok _ _ Hj). rewrite Ha in Hok.
  assert (∃ a, poll_answer j = Some a) as [a Hp].
  { unfold poll_answer. destruct (cancel j); [eauto|]. destruct (thread j) as [| | | |[]]; naive_solver. }
  exists a. split; [by eapply step_poll|].
  intros [(id' & c & Hid & Heq)|(id' & j' & Hj' & Heq)].
  - destruct (run_blocking c (pool s)) as [p k]. apply (f_equal (λ x, jobs x !! id')) in Heq.
    unfold put in Heq. cbn in Heq. rewrite lookup_insert_eq, lookup_insert_ne in Heq by congruence. congruence.
  - apply (f_equal (λ x, jobs x !! id)) in Heq. unfold put in Heq. cbn in Heq.
    rewrite lookup_insert_eq in Heq. destruct (decide (id' = id)) as [->|Hne].
    + rewrite lookup_insert_eq in Heq. injection Heq as _ Heq. congruence.
    + rewrite lookup_insert_ne in Heq by done. rewrite Hj in Heq. injection Heq as Heq.
      apply (f_equal answer) in Heq. cbn in Heq. congruence.
Qed.

Lemma waiting_progress (v : option T) s id j :
  permits_ok s → answers_ok s → jobs s !! id = Some j → alive (thread j) = true ∨ answer j = None →
  ∃ s', step s s' ∧ ¬ from_outside s s'.
Proof.
  intros Hp Ha Hj Hw. destruct (alive (thread j)) eqn:Hal.
  - destruct (thread_progress v s id j Hp Hj Hal) as (s' & Hs & Hl). exists s'. split; [done|].
    by apply not_from_outside.
  - destruct Hw as [|Hn]; [done|]. destruct (answer_progress s id j Ha Hj Hn Hal) as [a Hx]. eauto.
Qed.
End pool.
End blocking_proofs.

Module mutation_proofs.
Import tool_mutation.

(** One lock for a path, and its holder is inside. *)
Record locks_ok (s : Locks) : Prop := {
  ok_known target lock : registry s !! target = Some lock → is_Some (holders s !! lock);
  ok_one p q lock : registry s !! p = Some lock → registry s !! q = Some lock → p = q;
  ok_has t target lock : threads s !! t = Some (HasLock target lock) → registry s !! target = Some lock;
  ok_inside t target lock :
    threads s !! t = Some (Inside target lock) →
    registry s !! target = Some lock ∧ holders s !! lock = Some (Some t);
  ok_holder t lock : holders s !! lock = Some (Some t) → ∃ target, threads s !! t = Some (Inside target lock)
}.

Lemma locks_new_ok : locks_ok locks_new.
Proof. split; cbn; intros *; by rewrite lookup_empty. Qed.

Lemma lock_of_spec target s :
  locks_ok s →
  let '(lock, s') := lock_of target s in
  locks_ok s' ∧ registry s' !! target = Some lock ∧ threads s' = threads s.
Proof.
  intros [H1 H2 H3 H4 H5]. unfold lock_of. destruct (registry s !! target) as [lock|] eqn:Hl; [done|].
  set (lock := fresh (dom (holders s))).
  assert (holders s !! lock = None) as Hf by apply not_elem_of_dom, is_fresh.
  clearbody lock.
  assert (∀ p, registry s !! p ≠ Some lock) as Hne.
  { intros p Hp. apply H1 in Hp as [x Hx]. congruence. }
  split; [|split; [apply lookup_insert_eq|done]]. split; cbn.
  - intros p l [[-> <-]|[? Hp]]%lookup_insert_Some.
    + rewrite lookup_insert_eq. eauto.
    + destruct (decide (l = lock)) as [->|]; [by destruct (Hne p)|]. rewrite lookup_insert_ne by done. eauto.
  - intros p q l [[<- Hlp]|[? Hp]]%lookup_insert_Some [[<- Hlq]|[? Hq]]%lookup_insert_Some; subst; try done;
      [by destruct (Hne q)|by destruct (Hne p)|eauto].
  - intros t p l Ht%H3. rewrite lookup_insert_ne; [done|]. congruence.
  - intros t p l Ht. apply H4 in Ht as [Hr Hh]. split.
    + rewrite lookup_insert_ne; [done|]. congruence.
    + rewrite lookup_insert_ne; [done|]. congruence.
  - intros t l [[_ ?]|[? Ht]]%lookup_insert_Some; [done|]. eauto.
Qed.

Lemma step_locks s s' : locks_ok s → step s s' → locks_ok s'.
Proof.
  intros Hok [t target Hn|t target lock Ht Hl|t target lock Ht].
  - pose proof (lock_of_spec target s Hok) as H. destruct (lock_of target s) as [lock s1].
    destruct H as ([H1 H2 H3 H4 H5] & Hr & Hth). split; cbn; [done|done|..].
    + intros u p l [[-> [= <- <-]]|[? Hu]]%lookup_insert_Some; [done|]. eauto.
    + intros u p l [[-> [=]]|[? Hu]]%lookup_insert_Some. eauto.
    + intros u l Hu. apply H5 in Hu as [p Hp]. exists p. rewrite lookup_insert_ne; [done|].
      intros ->. rewrite Hth in Hp. congruence.
  - destruct Hok as [H1 H2 H3 H4 H5]. split; cbn.
    + intros p l Hp. destruct (decide (l = lock)) as [->|].
      * rewrite lookup_insert_eq. eauto.
      * rewrite lookup_insert_ne by done. eauto.
    + eauto.
    + intros u p l [[-> [=]]|[? Hu]]%lookup_insert_Some. eauto.
    + intros u p l [[-> [= <- <-]]|[Hne Hu]]%lookup_insert_Some.
      * split; [eauto|]. apply lookup_insert_eq.
      * apply H4 in Hu as [Hr Hh]. split; [done|]. rewrite lookup_insert_ne; [done|]. congruence.
    + intros u l [[<- [= <-]]|[Hne Hu]]%lookup_insert_Some.
      * exists target. apply lookup_insert_eq.
      * apply H5 in Hu as [p Hp]. exists p. rewrite lookup_insert_ne; [done|]. congruence.
  - destruct Hok as [H1 H2 H3 H4 H5]. pose proof (H4 _ _ _ Ht) as [Hr Hh]. split; cbn.
    + intros p l Hp. destruct (decide (l = lock)) as [->|].
      * rewrite lookup_insert_eq. eauto.
      * rewrite lookup_insert_ne by done. eauto.
    + eauto.
    + intros u p l [Hne Hu]%lookup_delete_Some. eauto.
    + intros u p l [Hne Hu]%lookup_delete_Some. pose proof (H4 _ _ _ Hu) as [Hr' Hh']. split; [done|].
      rewrite lookup_insert_ne; [done|]. congruence.
    + intros u l [[_ ?]|[Hne Hu]]%lookup_insert_Some; [done|]. pose proof (H5 _ _ Hu) as [p Hp].
      exists p. rewrite lookup_delete_ne; [done|]. congruence.
Qed.

Lemma reachable_locks s : rtc step locks_new s → locks_ok s.
Proof.
  intros Hr. apply (rtc_ind_r (R := step) locks_ok locks_new); [apply locks_new_ok|..|done].
  intros s1 s2 _ Hs H1. by eapply step_locks.
Qed.

End mutation_proofs.
