(* ===== verification/ToolProps.v ===== *)
(** What the standard tools promise (src/crates/philo-tools-std/src, with the
    line-up of src/crates/philo-coding-profile/src/lib.rs).

    Module [tool_props]: arguments, paths and effects of the tools that work on
    files, what they show and change, the output of the shell, and the pool the
    calls run on. *)

From S2P Require Import Prelude RustStr Tools JsonlCodec ToolText ToolPath ToolPathProofs.
From S2P Require Import ToolFilesProofs ToolArgs ToolFiles ToolGrep ToolShell ToolDefs.
From S2P Require Import CodingProfile ToolBlocking.
From Stdlib Require Import Sorted Ascii.
Import tools jsonl_codec tool_text text_proofs tool_fs tool_path path_proofs tool_resolve tool_effects tool_args args_proofs std_tools tool_quiet tool_changes tool_pages tool_grep grep_proofs tool_shell shell_proofs tool_definitions coding_profile.

Module tool_props.

(** The scanner of a tool's arguments reads what the JSON says: in the text
    of an object, with blanks, escapes, surrogate pairs, and nested values
    anywhere, a field is the first one of that name; it is its string, or the
    error that tells a missing field from one that is no string. *)
Theorem arguments_are_read_as_written text fields key :
  object_text text fields →
  required_string text key
  = match field key fields with
    | None => Err Missing
    | Some (Some value) => Ok value
    | Some None => Err NotAString
    end ∧
  optional_string text key
  = match field key fields with
    | None => Ok None
    | Some (Some value) => Ok (Some value)
    | Some None => Err NotAString
    end.
Proof.
  intros Ht. unfold optional_string, required_string. rewrite (extract_object _ _ _ Ht).
  unfold field_result. by destruct (field key fields) as [[]|].
Qed.

Section files.
Context {faults : FsFaults} {order : ReadOrder} {signal : CancelSignal} {globs : Globs}
        {lower : Lowercase} {regexes : Regexes}.

(** C20: a path a tool may use is below the root as the file system sees it. When
    the requested path leads somewhere, through whatever links, it is the place
    it leads to - also when the tool would create it - and that is below the root and
    no link. Otherwise the tool may create it, and it is names behind the place its
    deepest ancestor that exists leads to, which is below the root; the names are free
    when no link dangles in the workspace. Resolving a path changes no file. *)
Theorem resolved_paths_stay_inside root requested must_exist w w' r :
  world_ok w → resolve_in_root root requested must_exist w = (w', r) →
  same_files w w' ∧ r ≠ Panic ∧
  ∀ p, r = Ok p → ∃ base,
    lookup_path false (raw_path root) w = inr base ∧ base `prefix_of` p ∧ Forall proper p ∧
    match lookup_path false (raw_path (join_str root requested)) w with
    | inr led => p = led ∧ plain_at (nodes w) p
    | inl e =>
        e = NotFound ∧ must_exist = false ∧
        ∃ place there x new, p = there ++ x :: new ∧
          components (join_str root requested) = place ++ (Normal <$> x :: new) ∧
          lookup_path false (raw_components place) w = inr there ∧
          base `prefix_of` there ∧ plain_at (nodes w) there ∧
          (no_dangling (nodes w) → ∀ n, nodes w !! (there ++ x :: n) = None)
    end.
Proof.
  intros Hw H. apply resolve_lands in H as [Hs Hr]; [|exact Hw]. split; [exact Hs|].
  split; [by destruct r|]. intros p ->. destruct Hr as (base & Hroot & Hl). exists base.
  pose proof (lands_contained _ _ _ _ _ Hw Hl) as [H1 H2 _]. do 3 (split; [done|]).
  destruct Hl as [q Hq Hb|place there x new -> Hno Hc Ht Hm Hb].
  - rewrite Hq. split; [done|]. by eapply lookup_plain.
  - rewrite Hno. do 2 (split; [done|]). exists place, there, x, new.
    do 4 (split; [done|]). split; [by eapply lookup_plain|]. intros Hnd n.
    apply Forall_app in H2 as [_ [Hx _]%Forall_cons].
    apply (behind_free w there x new); [done|done|done|by exists place].
Qed.

End files.

(** ** The registry *)

(** The definitions the tools have; each of them is valid. *)
Definition definition_of (o : outcome string ToolDefinition) : ToolDefinition :=
  match o with Ok d => d | _ => {| definition_name := ""; description := ""; parameters := default_schema; effect_class := System |} end.
Lemma definitions_ok :
  Forall (λ o, o = Ok (definition_of o))
    [read_definition; list_definition; grep_definition; write_definition; edit_definition; shell_definition] ∧
  (λ o, (definition_name (definition_of o), effect_class (definition_of o))) <$>
    [read_definition; list_definition; grep_definition; write_definition; edit_definition; shell_definition]
  = [("read", ReadOnly); ("list", ReadOnly); ("grep", ReadOnly); ("write", Workspace);
     ("edit", Workspace); ("shell", System)].
Proof. split; [repeat constructor; by vm_compute|by vm_compute]. Qed.

Lemma definition_effects :
  effect_class (definition_of read_definition) = ReadOnly ∧
  effect_class (definition_of list_definition) = ReadOnly ∧
  effect_class (definition_of grep_definition) = ReadOnly ∧
  effect_class (definition_of write_definition) = Workspace ∧
  effect_class (definition_of edit_definition) = Workspace ∧
  effect_class (definition_of shell_definition) = System.
Proof. by vm_compute. Qed.

Definition registered (self : CodingProfile) : list (ToolDefinition * Handler) :=
  (λ t, (definition_of t.1, t.2)) <$> lineup self.

(** Valid definitions under different names are registered, in order. *)
Lemma register_all tools entries :
  Forall (λ t, t.1 = Ok (definition_of t.1)) tools →
  NoDup ((definition_name <$> entries.*1) ++ ((λ t, definition_name (definition_of t.1)) <$> tools)) →
  foldl register_tool (Ok {| registry.builder_entries := entries |}) tools
  = Ok {| registry.builder_entries := entries ++ ((λ t, (definition_of t.1, t.2)) <$> tools) |}.
Proof.
  revert entries. induction tools as [|[o h] tools IH]; intros entries Hok Hnd.
  { by rewrite app_nil_r. }
  apply Forall_cons in Hok as [Ho Hok]. cbn [foldl fst] in *. unfold register_tool at 2. cbn [fst snd].
  rewrite Ho. unfold registry.register. cbn [registry.builder_entries].
  assert (any (λ entry, definition_name entry.1 == definition_name (definition_of o)) entries = false) as ->.
  { apply not_true_iff_false. unfold any. rewrite existsb_exists. intros (e & He & Heq%bool_decide_eq_true).
    apply NoDup_app in Hnd as (_ & Hnd & _). apply (Hnd (definition_name e.1)).
    - apply list_elem_of_fmap_2, list_elem_of_fmap_2. by apply list_elem_of_In.
    - cbn. rewrite Heq. apply elem_of_cons. by left. }
  rewrite <- Ho. rewrite IH; [by rewrite <- app_assoc|done|].
  rewrite !fmap_app. cbn. by rewrite <- app_assoc.
Qed.

Lemma registry_entries self :
  tool_registry self = Ok {| registry.entries := registered self |}.
Proof.
  destruct definitions_ok as [Hd Hn]. unfold tool_registry, registry.builder_new.
  rewrite register_all; [done|..].
  - unfold lineup. repeat match goal with H : Forall _ (_ :: _) |- _ => apply Forall_cons in H as [? H] end.
    by repeat constructor.
  - apply (f_equal (fmap fst)) in Hn. rewrite <- list_fmap_compose in Hn. cbn [app fmap list_fmap].
    unfold compose in Hn. cbn [fst] in Hn.
    change ((λ t : outcome string ToolDefinition * Handler, definition_name (definition_of t.1)) <$> lineup self)
      with ((λ o, definition_name (definition_of o)) <$>
        [read_definition; list_definition; grep_definition; write_definition; edit_definition; shell_definition]).
    rewrite Hn. apply (bool_decide_unpack _). by vm_compute.
Qed.

#[local] Opaque lookup_path read_definition list_definition grep_definition write_definition
  edit_definition shell_definition.
Section effects.
Context {faults : FsFaults} {order : ReadOrder} {signal : CancelSignal} {globs : Globs}
        {lower : Lowercase} {regexes : Regexes}.

Lemma changed_call root (m : io World RichToolResult RichToolResult) w w' r :
  (∀ v v' r, world_ok v → no_dangling (nodes v) → m v = (v', r) → changed root v v' ∧ r ≠ Panic) →
  world_ok w → no_dangling (nodes w) → call_with_cx m w = (w', r) →
  (∃ ended, r = Ok ended) ∧ changed root w w'.
Proof.
  intros Hm Hw Hnd. assert (same_files w (looked w)) as Hs by done.
  unfold call_with_cx, poll, settle. destruct (requested (looks w)).
  { intros [= <- <-]. split; [by eexists|by apply changed_same]. }
  destruct (m (looked w)) as [w1 r1] eqn:H1. apply Hm in H1 as [Hc Hp]; [|by eapply same_files_ok|done].
  intros H2. assert (w' = w1 ∧ ∃ ended, r = Ok ended) as [-> He].
  { destruct r1; [| |done]; injection H2 as <- <-; split; eauto. }
  split; [done|by eapply changed_after].
Qed.

Lemma inside_changes root w w' k :
  inside root w w' → nodes w' !! k ≠ nodes w !! k → ∃ base,
    lookup_path false (raw_path root) w = inr base ∧ base `prefix_of` k.
Proof.
  intros [->|(base & Hb & Hu)] Hk; [done|]. exists base. split; [exact Hb|].
  destruct (decide (base `prefix_of` k)) as [|Hn]; [done|]. by destruct Hk, (Hu _ Hn).
Qed.

(** C21: the effect class under which a tool is registered is what its call does.
    Through the coding profile's registry, where no link dangles, a call of any
    tool that works on files returns - the search ends, nothing panics - and
    leaves the files a tree; a [ReadOnly] tool changes no file, a [Workspace]
    tool none outside the root. *)
Theorem effect_classes_hold profile reg definition handler arguments call w w' r :
  tool_registry profile = Ok reg → (definition, handler) ∈ registry.entries reg →
  file_call handler arguments = Some call →
  world_ok w → no_dangling (nodes w) → call w = (w', r) →
  (∃ ended, r = Ok ended) ∧ world_ok w' ∧
  match effect_class definition with
  | ReadOnly => nodes w' = nodes w
  | Workspace =>
      ∀ k, nodes w' !! k ≠ nodes w !! k → ∃ base,
        lookup_path false (raw_path (workspace_root profile)) w = inr base ∧ base `prefix_of` k
  | System => False
  end.
Proof.
  rewrite registry_entries. intros [= <-] Hin Hcall Hw Hnd Hrun.
  destruct definition_effects as (E1 & E2 & E3 & E4 & E5 & E6).
  cbn [registry.entries] in Hin. unfold registered, lineup in Hin. cbn [fmap list_fmap fst snd] in Hin.
  apply elem_of_cons in Hin as [Heq|Hin]; [|apply elem_of_cons in Hin as [Heq|Hin];
    [|apply elem_of_cons in Hin as [Heq|Hin]; [|apply elem_of_cons in Hin as [Heq|Hin];
    [|apply elem_of_cons in Hin as [Heq|Hin]; [|apply elem_of_cons in Hin as [Heq|Hin];
    [|destruct (not_elem_of_nil _ Hin)]]]]]];
    pose proof (f_equal fst Heq) as Hd; pose proof (f_equal snd Heq) as Hh; clear Heq;
    cbn [fst snd] in Hd, Hh; subst handler; rewrite Hd; clear Hd;
    [injection Hcall as <-..|discriminate Hcall].
  - rewrite E1. apply quiet_call in Hrun as [Hs He]; [|apply quiet_read_tool|done].
    split; [done|]. split; [by eapply same_files_ok|by destruct Hs].
  - rewrite E2. apply quiet_end in Hrun as [Hs He]; [|apply quiet_list_tool|done].
    split; [done|]. split; [by eapply same_files_ok|by destruct Hs].
  - rewrite E3. apply quiet_end in Hrun as [Hs He]; [|apply quiet_grep_tool|done].
    split; [done|]. split; [by eapply same_files_ok|by destruct Hs].
  - rewrite E4. apply (changed_call (workspace_root profile)) in Hrun as [He [Hok _ Hi]]; [|..|done|done].
    + exact (conj He (conj Hok (λ k, inside_changes _ _ _ k Hi))).
    + intros v v' r' Hv Hvd H. destruct (write_tool_run _ _ _ _ _ Hv Hvd H) as (Hc & Hp & _). by split.
  - rewrite E5. apply (changed_call (workspace_root profile)) in Hrun as [He [Hok _ Hi]]; [|..|done|done].
    + exact (conj He (conj Hok (λ k, inside_changes _ _ _ k Hi))).
    + intros v v' r' Hv Hvd H. destruct (edit_tool_run _ _ _ _ _ Hv Hvd H) as (Hc & Hp & _). by split.
Qed.

(** A [write] that succeeds has put the content of its argument in the file
    the path resolves to, below the root; apart from it there are only new
    directories on the way to it, and nothing else is touched. *)
Theorem write_creates_the_file root arguments w w' result :
  world_ok w → no_dangling (nodes w) → write_tool root arguments w = (w', Ok result) →
  ∃ path content base target,
    required_string arguments "path" = Ok path ∧ required_string arguments "content" = Ok content ∧
    lookup_path false (raw_path root) w = inr base ∧ base `prefix_of` target ∧
    nodes w' !! target = Some (FileNode content) ∧
    ∀ k, k ≠ target → nodes w' !! k = nodes w !! k ∨
      (nodes w !! k = None ∧ nodes w' !! k = Some DirNode ∧ k `prefix_of` removelast target).
Proof.
  intros Hw Hnd H. apply write_tool_run in H as (_ & _ & H); [|done|done].
  destruct (H _ eq_refl) as (path & content & base & target & H1 & H2 & H3 & [H4 _ _] & H5 & H6).
  exists path, content, base, target. exact (conj H1 (conj H2 (conj H3 (conj H4 (conj H5 H6))))).
Qed.

End effects.

(** ** What the tools show *)

(** A page of [read] shows the lines from the one it was asked for on, with
    their numbers, no more than the line limit and no more bytes than the budget.
    It stops early only where the next line does not fit, and says so; otherwise
    it shows all the lines the limit leaves. The last line it names is the last
    one it shows, so reading on from there misses and repeats nothing. *)
Theorem pages_cover_the_file max_bytes most start ls text end_line emitted truncated :
  1 ≤ most → 1 ≤ start ≤ length ls →
  page max_bytes most start ls = (text, end_line, emitted, truncated) →
  let shown := rows_from (start - 1) (take emitted (drop (start - 1) ls)) in
  (∃ marker, text = shown +:+ marker ∧
    (truncated = false → start + emitted = S (length ls) → marker = "")) ∧
  String.length shown ≤ max_bytes ∧ emitted ≤ most ∧ start + emitted ≤ S (length ls) ∧
  (0 < emitted → end_line + 1 = start + emitted) ∧
  (truncated = false → emitted = min most (S (length ls) - start)) ∧
  (truncated = true → emitted < most ∧ ∃ line, ls !! (start - 1 + emitted) = Some line ∧
    max_bytes < String.length shown + String.length (numbered_row (start - 1 + emitted) line)).
Proof. apply page_spec. Qed.

(** [list] shows a beginning of the sorted entries: directories first, then
    by name without case. It shows no more rows than the limit and no more bytes
    than its budget, stops early only at one of the two, and says so exactly when
    something is left out. *)
Theorem lists_show_a_sorted_prefix self limit entries text truncated :
  list_text self limit (sort_entries entries) = (text, truncated) →
  Permutation (sort_entries entries) entries ∧
  Sorted (λ a b, entry_le a b = true) (sort_entries entries) ∧
  ∃ n notice, n ≤ limit ∧ n ≤ length entries ∧
    row_bytes (take n (sort_entries entries)) ≤ list_max_bytes self ∧
    (truncated = true ↔ n < length entries) ∧
    (n < length entries → n = limit ∨ ∃ e, sort_entries entries !! n = Some e ∧
      list_max_bytes self <
      row_bytes (take n (sort_entries entries)) + (String.length (entry_row e) + 1)) ∧
    text = (if bool_decide (entries = []) then "(empty directory)"
            else join lf (entry_row <$> take n (sort_entries entries))) +:+ notice ∧
    (truncated = false → notice = "").
Proof.
  intros Ht. pose proof (sort_entries_perm entries) as Hp. split; [done|].
  split; [apply sort_entries_sorted|]. revert Ht. unfold list_text.
  destruct (take_rows_spec limit (list_max_bytes self) (sort_entries entries) 0) as (n & -> & H1 & H2 & H3 & H4);
    [lia|]. cbn [Nat.add] in *. pose proof (Permutation_length Hp) as Hlen.
  rewrite Hlen in H2, H4. rewrite length_fmap, length_take, Hlen, Nat.min_l by done.
  assert (bool_decide (length entries = 0) = bool_decide (entries = [])) as ->.
  { apply bool_decide_ext. apply length_zero_iff_nil. }
  intros Ht. exists n.
  destruct (decide (n < length entries)) as [Hlt|Hlt].
  - rewrite (bool_decide_true (n < length entries)) in Ht by done.
    destruct (str_is_empty _) eqn:He in Ht; injection Ht as <- <-.
    + apply str_is_empty_true in He. rewrite He. eexists. rewrite str_app_nil. split_and!; done.
    + eexists. rewrite str_app_assoc. split_and!; done.
  - rewrite (bool_decide_false (n < length entries)) in Ht by done. injection Ht as <- <-.
    exists "". rewrite str_app_nil_r. split_and!; try done.
Qed.

(** ** The shell *)

(** C23: the progress of a command is its output: a text read from a pipe in
    pieces, cut anywhere, also inside a character, is pushed piece by piece as
    that text, and it is what the final result decodes. *)
Theorem streamed_output_is_the_text chunks :
  Forall (λ c, c ≠ "") chunks → valid_utf8 (concat_str chunks) = true →
  let '(p, texts) := read_all chunks in
  concat_str texts = concat_str chunks ∧ pipe_done p = true ∧
  from_utf8_lossy (all_bytes p) = concat_str chunks.
Proof.
  intros Hc Hv. pose proof (read_all_text chunks Hc Hv) as H. destruct (read_all chunks) as [p texts].
  destruct H as (H1 & H2 & H3). split; [done|]. split; [done|]. rewrite H2. by apply lossy_valid.
Qed.

(** What the model gets of an output is its end, within the limits: the last
    lines that fit, all of them when nothing is cut, or the end of the last line
    from a character boundary on when not even that fits. *)
Theorem shell_keeps_the_tail text max_bytes max_lines out truncated :
  truncate_output text max_bytes max_lines = (out, truncated) →
  String.length out ≤ max_bytes ∧
  ((∃ front kept, lines text = front ++ kept ∧ out = join lf kept ∧ length kept ≤ max_lines ∧
      truncated = negb (is_nil front)) ∨
   (truncated = true ∧ ∃ front line head, lines text = front ++ [line] ∧ line = head +:+ out ∧
      is_char_boundary line (String.length head) = true)).
Proof.
  unfold truncate_output. destruct (keep_tail max_bytes max_lines (reverse (lines text)) [] 0) as [kept tr] eqn:Hk.
  intros [= <- <-]. apply keep_tail_spec in Hk as [(front & He & Hb & Hl & Ht)|(Ht & Hm & front & line & He & ->)];
    [..|cbn; lia|cbn; lia]; rewrite reverse_involutive, app_nil_r in He.
  - split; [pose proof (join_rows kept); lia|]. left. by exists front, kept.
  - destruct (tail_within_spec max_bytes line) as (head & Hline & Hlen & Hbd). split; [exact Hlen|].
    right. split; [done|]. by exists front, line, head.
Qed.

(** A capture reports what happened: the bytes of each pipe in order, the
    first exit of the child, a timeout when the timer fired, a cancel when the
    token was seen, never both, and the child was killed in those two cases
    only. It ends with the exit known and both pipes at their end. *)
Theorem captures_report_what_happened events c :
  capture_output events capture_new = Some (inr c) →
  (∃ exit, status c = Some exit ∧ head (omap exit_of events) = Some exit) ∧
  pipe_done (out_pipe c) = true ∧ pipe_done (err_pipe c) = true ∧
  all_bytes (out_pipe c) = concat_str (stdout_data <$> events) ∧
  all_bytes (err_pipe c) = concat_str (stderr_data <$> events) ∧
  timed_out c = any is_timer events ∧ cancelled c = any is_cancel events ∧
  timed_out c && cancelled c = false ∧ killed c = timed_out c || cancelled c.
Proof.
  intros (H0 & H1 & H2 & H3 & H4 & H5 & H6 & H7)%capture_spec. cbn in H1, H2, H3, H4, H5, H6, H7.
  unfold capturing in H0. apply orb_false_iff in H0 as [[Hs Ho]%orb_false_iff He].
  apply negb_false_iff in Ho, He. destruct (status c) as [exit|]; [|done].
  split; [by exists exit|]. by split_and!; [..|apply H7|apply H6].
Qed.

(** ** The pool *)
Section pool.
Context {T : Type}.
Import tool_blocking blocking_proofs.

(** The pool keeps its bounds: whatever calls come and are cancelled, the
    permits that are left and the threads that hold one add up, so no more than
    [concurrency] calls work at a time and no more than [queue_bound] wait. A
    caller is answered with what its thread returned, with a cancel only when
    one was requested, and refused only without a thread. *)
Theorem pool_keeps_its_bounds concurrency_ bound (s : State T) :
  rtc step (state_new (pool_new concurrency_ bound)) s →
  running (pool s) + count holds_running (jobs s) = max concurrency_ 1 ∧
  queue (pool s) + count holds_queue (jobs s) = bound ∧
  ∀ id j, jobs s !! id = Some j →
    match answer j with
    | None => thread j ≠ NoThread
    | Some (Ok RunCancelled) => cancel j = true
    | Some (Ok (RunCompleted value)) => thread j = ThreadEnded (Some value)
    | Some (Err error) => (error = pool_busy ∧ thread j = NoThread) ∨ thread j = ThreadEnded None
    | Some Panic => False
    end.
Proof.
  intros Hr. pose proof (reachable_bounds _ _ _ Hr) as [<- <-]. apply pool_reachable_ok in Hr as [[_ H1 H2] H3].
  by split.
Qed.

(** A call is refused exactly when every permit is taken: [concurrency] calls
    hold a running permit and [queue_bound] a queue permit. *)
Theorem pool_refuses_when_full concurrency_ bound (s : State T) :
  rtc step (state_new (pool_new concurrency_ bound)) s →
  answer (run_blocking (T := T) false (pool s)).2 = Some (Err pool_busy) ↔
  count holds_running (jobs s) = max concurrency_ 1 ∧ count holds_queue (jobs s) = bound.
Proof.
  intros Hr. pose proof (reachable_bounds _ _ _ Hr) as [<- <-]. apply pool_reachable_ok in Hr as [[_ H1 H2] _]. unfold run_blocking, try_admit.
  destruct (running (pool s)) as [|n]; [destruct (queue (pool s)) as [|q]|]; cbn; split; try done; lia.
Qed.

(** C25: the pool does not get stuck. Whatever calls come and are cancelled,
    while the thread of a call waits or works, or its caller has no answer, a
    thread or a caller can take a step; and every step that is not a new call or
    a request to cancel leaves less to do, so none of them goes on for ever. *)
Theorem pool_makes_progress concurrency_ bound (s : State T) (value : option T) :
  rtc step (state_new (pool_new concurrency_ bound)) s →
  (∀ s', step s s' → ¬ from_outside s s' → work_left (jobs s') < work_left (jobs s)) ∧
  (∀ id j, jobs s !! id = Some j → alive (thread j) = true ∨ answer j = None →
     ∃ s', step s s' ∧ ¬ from_outside s s').
Proof.
  intros [Hp Ha]%pool_reachable_ok. split; [|intros id j; by apply waiting_progress].
  intros s' [?|?]%step_work ?; done.
Qed.
End pool.

(** ** The locks *)

(** C24: [write] and [edit] calls on one file do not interleave: one thread is
    inside for a path. A thread that has looked its lock up enters unless another
    one is inside for the same path; calls on other files do not keep it out. *)
Theorem mutations_do_not_interleave s :
  rtc tool_mutation.step tool_mutation.locks_new s →
  (∀ t u target lock lock',
    tool_mutation.threads s !! t = Some (tool_mutation.Inside target lock) →
    tool_mutation.threads s !! u = Some (tool_mutation.Inside target lock') → t = u) ∧
  (∀ t target lock,
    tool_mutation.threads s !! t = Some (tool_mutation.HasLock target lock) →
    (∃ s', tool_mutation.step s s' ∧
       tool_mutation.threads s' !! t = Some (tool_mutation.Inside target lock)) ∨
    ∃ u lock', u ≠ t ∧ tool_mutation.threads s !! u = Some (tool_mutation.Inside target lock')).
Proof.
  intros [H1 H2 H3 H4 H5]%mutation_proofs.reachable_locks. split.
  - intros t u target lock lock' Ht Hu. apply H4 in Ht as [Hr Hh]. apply H4 in Hu as [Hr' Hh'].
    rewrite Hr in Hr'. injection Hr' as <-. congruence.
  - intros t target lock Ht. pose proof (H3 _ _ _ Ht) as Hr. destruct (H1 _ _ Hr) as [[u|] Hh].
    + right. destruct (H5 _ _ Hh) as [p Hu]. pose proof (H4 _ _ _ Hu) as [Hr' _].
      assert (p = target) as -> by eauto. exists u, lock. split; [congruence|done].
    + left. eexists. split; [by eapply tool_mutation.step_enter|]. apply lookup_insert_eq.
Qed.

End tool_props.
