(* ===== verification/ToolDemo.v ===== *)
(** The standard tools at work (src/crates/philo-tools-std/src): a small
    workspace, and each theorem of ToolProps.v at a call in it. *)

From S2P Require Import Prelude RustStr Tools JsonlCodec ToolText ToolPath ToolPathProofs.
From S2P Require Import ToolFilesProofs ToolArgs ToolFiles ToolGrep ToolShell ToolDefs.
From S2P Require Import CodingProfile ToolBlocking ToolProps.
From Stdlib Require Import Ascii.
Import tools jsonl_codec tool_text text_proofs tool_fs tool_path path_proofs tool_resolve tool_effects tool_args args_proofs std_tools tool_quiet tool_changes tool_pages tool_grep grep_proofs tool_shell shell_proofs tool_definitions coding_profile tool_props.

Module tool_demo.

(** ** A workspace *)

#[export, refine] Instance demo_faults : FsFaults := {| fault := λ _, None; written := λ _, 0 |}.
Proof. done. Defined.
#[export, refine] Instance demo_order : ReadOrder := {| read_order := λ l, l |}.
Proof. done. Defined.
#[export, refine] Instance demo_signal : CancelSignal := {| requested := λ _, false |}.
Proof. done. Defined.
#[export] Instance demo_globs : Globs :=
  {| Matcher := string; glob_new := inr; is_match := λ p name, bool_decide (p = name) |}.
#[export] Instance demo_lower : Lowercase := to_ascii_lowercase.
#[export] Instance demo_regexes : Regexes :=
  {| Regex := string; regex_new := inr; regex_is_match := contains |}.

(** A tree, decided. *)
Definition tree_entry (m : Nodes) (e : names * Node) : bool :=
  bool_decide (Forall (λ part, part ≠ "" ∧ part ≠ "." ∧ part ≠ "..") e.1) &&
  (is_nil e.1 || bool_decide (m !! removelast e.1 = Some DirNode)).
Definition tree_check (m : Nodes) : bool :=
  bool_decide (m !! [] = Some DirNode) && forallb (tree_entry m) (map_to_list m).

Lemma tree_check_ok m : tree_check m = true → tree m.
Proof.
  intros [Hroot%bool_decide_eq_true Hall]%andb_true_iff.
  assert (∀ p n, m !! p = Some n → tree_entry m (p, n) = true) as He.
  { intros p n Hp%elem_of_map_to_list. rewrite forallb_forall in Hall. apply Hall.
    by apply list_elem_of_In. }
  split; [done|..].
  - intros p x n [_ H]%He%andb_true_iff. cbn [fst] in H. apply orb_true_iff in H as [H|H].
    + apply is_nil_true in H. by destruct p.
    + rewrite removelast_last in H. by apply bool_decide_eq_true in H.
  - intros p n [H _]%He%andb_true_iff. by apply bool_decide_eq_true in H.
Qed.

Lemma no_links_dangle m :
  forallb (λ e, match e.2 with LinkNode _ => false | _ => true end) (map_to_list m) = true → no_dangling m.
Proof.
  rewrite forallb_forall. intros Hall p x target links Hl%elem_of_map_to_list.
  apply list_elem_of_In, Hall in Hl. done.
Qed.

Definition crlf_text : string := "one" +:+ crlf +:+ "two" +:+ crlf.
Definition demo_nodes : Nodes :=
  list_to_map [([], DirNode); (["w"], DirNode); (["w"; "a.txt"], FileNode crlf_text)].
Definition demo_world : World := {| nodes := demo_nodes; cwd := ["w"]; looks := 0 |}.

Lemma demo_world_ok : world_ok demo_world.
Proof. split; [apply tree_check_ok; by vm_compute|by vm_compute]. Qed.
Lemma demo_no_dangling : no_dangling (nodes demo_world).
Proof. apply no_links_dangle. by vm_compute. Qed.

(** ** Arguments *)

Definition q : string := registry.quote.
Definition pair (key value : string) : string := q +:+ key +:+ q +:+ ":" +:+ q +:+ value +:+ q.
Definition write_args : string :=
  "{" +:+ pair "path" "docs/new.md" +:+ "," +:+ pair "content" "hi" +:+ "}".

(** Plain text denotes itself. *)
Definition plain_byte (b : ascii) : bool :=
  in_range 0 127 b && negb (bool_decide (b = json.QUOTE)) && negb (bool_decide (b = json.BACKSLASH)).

Lemma plain_denotes s : forallb plain_byte (bytes_of s) = true → denotes (bytes_of s) s.
Proof.
  induction s as [|b s IH]; [constructor|]. cbn [bytes_of forallb].
  intros [[[Hr Hq]%andb_true_iff Hb]%andb_true_iff Hs]%andb_true_iff.
  apply negb_true_iff, bool_decide_eq_false in Hq. apply negb_true_iff, bool_decide_eq_false in Hb.
  apply (den_char (String b "") (bytes_of s) s); [|by apply IH]. split_and!; [|done|congruence|congruence].
  cbn. by rewrite Hr.
Qed.

Lemma write_args_object :
  object_text write_args [("path", Some "docs/new.md"); ("content", Some "hi")].
Proof.
  eapply (obj_members write_args [] _ _ []); [constructor|..].
  - apply (mem_more [] (bytes_of "path") "path" [] [] (json.QUOTE :: bytes_of "docs/new.md" ++ [json.QUOTE])
             (Some "docs/new.md") []); try (by constructor); [..|
    apply (mem_one [] (bytes_of "content") "content" [] [] (json.QUOTE :: bytes_of "hi" ++ [json.QUOTE])
             (Some "hi") [])]; try (by constructor);
    try (apply plain_denotes; by vm_compute); apply val_string, plain_denotes; by vm_compute.
  - by vm_compute.
Qed.

Lemma arguments_are_read_as_written_witness :
  required_string write_args "content" = Ok "hi" ∧ optional_string write_args "mode" = Ok None.
Proof.
  split.
  - exact (proj1 (arguments_are_read_as_written _ _ "content" write_args_object)).
  - exact (proj2 (arguments_are_read_as_written _ _ "mode" write_args_object)).
Defined.

(** ** Files *)

Lemma resolved_paths_stay_inside_witness :
  ∃ base there x new, lookup_path false (raw_path "/w") demo_world = inr base ∧
    ["w"; "docs"; "new.md"] = there ++ x :: new ∧ base `prefix_of` there ∧
    nodes demo_world !! (there ++ [x]) = None.
Proof.
  destruct (resolved_paths_stay_inside "/w" "docs/new.md" false demo_world _ _ demo_world_ok
    (surjective_pairing _)) as (_ & _ & H).
  destruct (H ["w"; "docs"; "new.md"]) as (base & H1 & _ & _ & H2); [by vm_compute|].
  assert (lookup_path false (raw_path (join_str "/w" "docs/new.md")) demo_world = inl NotFound) as E
    by by vm_compute.
  rewrite E in H2. destruct H2 as (_ & _ & place & there & x & new & H3 & _ & _ & H4 & _ & H5).
  exists base, there, x, new. exact (conj H1 (conj H3 (conj H4 (H5 demo_no_dangling [])))).
Defined.

Lemma effect_classes_hold_witness :
  ∃ call, file_call (WriteHandler "/w") write_args = Some call ∧
    (∃ ended, (call demo_world).2 = Ok ended) ∧ world_ok (call demo_world).1.
Proof.
  eexists. split; [reflexivity|].
  assert ((definition_of write_definition, WriteHandler "/w") ∈ registered (profile_new "/w")) as Hin.
  { unfold registered, lineup. do 3 (apply elem_of_cons; right). apply elem_of_cons. left. reflexivity. }
  destruct (effect_classes_hold (profile_new "/w") _ (definition_of write_definition) (WriteHandler "/w")
    write_args _ demo_world _ _ (registry_entries _) Hin eq_refl demo_world_ok demo_no_dangling
    (surjective_pairing _)) as (He & Hok & _).
  exact (conj He Hok).
Defined.

Definition success {E A} (o : outcome E A) : Prop := match o with Ok _ => True | _ => False end.
Lemma successful {W E A} (m : W → W * outcome E A) w :
  success (m w).2 → ∃ w' a, m w = (w', Ok a).
Proof. destruct (m w) as [w' [a|e|]]; cbn; [eauto|done|done]. Qed.

Lemma write_creates_the_file_witness :
  ∃ w' result target, write_tool "/w" write_args demo_world = (w', Ok result) ∧
    nodes w' !! target = Some (FileNode "hi").
Proof.
  destruct (successful (write_tool "/w" write_args) demo_world) as (w' & result & H); [by vm_compute|].
  destruct (write_creates_the_file "/w" write_args demo_world w' result demo_world_ok demo_no_dangling H)
    as (path & content & base & target & _ & Hc & _ & _ & Ht & _).
  exists w', result, target. split; [exact H|].
  assert (content = "hi") as -> by (vm_compute in Hc; congruence). exact Ht.
Defined.


(** ** What the hypotheses exclude *)

(** Through a link that dangles a [write] creates a file outside the root: the
    path is taken for a free name. *)
Definition dangling_world : World :=
  {| nodes := <[["etc"] := DirNode]> (<[["w"; "out"] := LinkNode "../etc/new"]> demo_nodes);
     cwd := ["w"]; looks := 0 |}.
Example dangling_link_escapes :
  nodes (write_tool "/w" ("{" +:+ pair "path" "out" +:+ "," +:+ pair "content" "x" +:+ "}") dangling_world).1
    !! ["etc"; "new"] = Some (FileNode "x").
Proof. by vm_compute. Qed.

(** A new string with its own carriage return gets a second one. *)
Example carriage_return_doubled :
  edited_text "a.txt" crlf_text "two" ("2" +:+ crlf +:+ "3")
  = inr ("one" +:+ crlf +:+ "2" +:+ cr +:+ crlf +:+ "3" +:+ crlf).
Proof. by vm_compute. Qed.

(** A match that overlaps another one counts as the only one. *)
Example overlapping_match_is_unique : edited_text "a.txt" "aaa" "aa" "b" = inr "ba".
Proof. by vm_compute. Qed.

(** ** Pages and rows *)

(** A budget for two of three lines, and where to go on. *)
Lemma pages_cover_the_file_witness :
  ∃ text end_line emitted truncated, page 20 10 1 ["one"; "two"; "three"] = (text, end_line, emitted, truncated) ∧
    end_line + 1 = 3.
Proof.
  destruct (page 20 10 1 ["one"; "two"; "three"]) as [[[text end_line] emitted] truncated] eqn:H.
  exists text, end_line, emitted, truncated. split; [reflexivity|].
  destruct (pages_cover_the_file 20 10 1 ["one"; "two"; "three"] _ _ _ _ ltac:(lia) ltac:(cbn; lia) H)
    as (_ & _ & _ & _ & He & _).
  vm_compute in H. injection H as _ <- <- _. apply He. lia.
Defined.

Definition small_list : ListTool := {| list_root := "/w"; max_entries := 2; list_max_bytes := 100 |}.
Definition demo_entries : list Entry := [(false, "b", "b"); (true, "z", "z"); (false, "A", "a")].
Lemma lists_show_a_sorted_prefix_witness :
  ∃ text truncated, list_text small_list 2 (sort_entries demo_entries) = (text, truncated) ∧ truncated = true ∧
    Permutation (sort_entries demo_entries) demo_entries.
Proof.
  destruct (list_text small_list 2 (sort_entries demo_entries)) as [text truncated] eqn:H.
  exists text, truncated. split; [reflexivity|].
  destruct (lists_show_a_sorted_prefix small_list 2 demo_entries text truncated H) as (Hp & _ & _).
  vm_compute in H. injection H as _ <-. split; [reflexivity|exact Hp].
Defined.

(** ** The shell *)

(** A euro sign that comes in two pieces. *)
Definition euro_chunks : list string :=
  ["5 " +:+ String "226" (String "130" ""); String "172" "!"].
Lemma streamed_output_is_the_text_witness :
  concat_str (read_all euro_chunks).2 = concat_str euro_chunks.
Proof.
  pose proof (streamed_output_is_the_text euro_chunks ltac:(by repeat constructor) ltac:(by vm_compute)) as H.
  destruct (read_all euro_chunks) as [p texts]. exact (proj1 H).
Defined.

Lemma shell_keeps_the_tail_witness :
  ∃ out truncated, truncate_output ("a" +:+ lf +:+ "bb" +:+ lf +:+ "ccc") 7 10 = (out, truncated) ∧
    String.length out ≤ 7.
Proof.
  destruct (truncate_output ("a" +:+ lf +:+ "bb" +:+ lf +:+ "ccc") 7 10) as [out truncated] eqn:H.
  exists out, truncated. split; [reflexivity|].
  exact (proj1 (shell_keeps_the_tail _ _ _ _ _ H)).
Defined.

Definition timeout_events : list Event :=
  [StdoutRead (inr "hi"); TimerFired; Waited (inr None); StderrRead (inr ""); StdoutRead (inr "")].
Lemma captures_report_what_happened_witness :
  ∃ c, capture_output timeout_events capture_new = Some (inr c) ∧ timed_out c = true ∧ cancelled c = false.
Proof.
  destruct (capture_output timeout_events capture_new) as [[c|c]|] eqn:H; [by vm_compute in H| |by vm_compute in H].
  exists c. split; [reflexivity|].
  destruct (captures_report_what_happened timeout_events c H) as (_ & _ & _ & _ & _ & Ht & Hc & _).
  rewrite Ht, Hc. by vm_compute.
Defined.

(** ** The pool *)
Import tool_blocking blocking_proofs.

(** One permit of each kind, and two calls. *)
Definition two_calls : State nat :=
  {| pool := {| running := 0; queue := 0; concurrency := 1; queue_bound := 1 |};
     jobs := <[1 := {| thread := ThreadWaits; cancel := false; answer := None |}]>
               (<[0 := {| thread := ThreadWorks; cancel := false; answer := None |}]> ∅) |}.
Lemma two_calls_reachable : rtc step (state_new (pool_new 1 1)) two_calls.
Proof.
  eapply rtc_l; [apply (step_call _ 0 false); reflexivity|].
  eapply rtc_l; [apply (step_call _ 1 false); reflexivity|]. apply rtc_refl.
Qed.

Lemma pool_keeps_its_bounds_witness : running (pool two_calls) + count holds_running (jobs two_calls) = 1.
Proof. exact (proj1 (pool_keeps_its_bounds 1 1 two_calls two_calls_reachable)). Defined.
Lemma pool_refuses_when_full_witness :
  answer (run_blocking (T := nat) false (pool two_calls)).2 = Some (Err pool_busy).
Proof. apply (pool_refuses_when_full 1 1 two_calls two_calls_reachable). by vm_compute. Defined.
Lemma pool_makes_progress_witness :
  ∃ s', step two_calls s' ∧ work_left (jobs s') < work_left (jobs two_calls).
Proof.
  destruct (pool_makes_progress 1 1 two_calls (Some 7) two_calls_reachable) as [Hless Hsome].
  destruct (Hsome 1 {| thread := ThreadWaits; cancel := false; answer := None |}) as (s' & Hs & Hin);
    [reflexivity|left; reflexivity|]. exists s'. split; [exact Hs|]. exact (Hless s' Hs Hin).
Defined.

(** ** The locks *)

Definition one_waits : tool_mutation.Locks :=
  {| tool_mutation.registry := <[["w"; "a.txt"] := 0]> ∅;
     tool_mutation.holders := <[0 := None]> ∅;
     tool_mutation.threads := <[5 := tool_mutation.HasLock ["w"; "a.txt"] 0]> ∅ |}.
Lemma one_waits_reachable : rtc tool_mutation.step tool_mutation.locks_new one_waits.
Proof.
  eapply rtc_l; [apply (tool_mutation.step_look_up _ 5 ["w"; "a.txt"]); reflexivity|]. apply rtc_refl.
Qed.
Lemma mutations_do_not_interleave_witness :
  (∃ s', tool_mutation.step one_waits s') ∨
  ∃ u lock', u ≠ 5 ∧ tool_mutation.threads one_waits !! u = Some (tool_mutation.Inside ["w"; "a.txt"] lock').
Proof.
  destruct (proj2 (mutations_do_not_interleave one_waits one_waits_reachable) 5 ["w"; "a.txt"] 0 eq_refl)
    as [(s' & Hs & _)|H]; [left; by exists s'|right; exact H].
Defined.

End tool_demo.
