(* ===== verification/CliFile.v ===== *)
(** The configuration files (src/crates/philo-cli/src/config/file.rs, error.rs).

    Module [config_file]: a layer's TOML is read section by section into one
    [FileConfig]; a value keeps the layer it came from. The crate [toml] is the
    class [Toml]: a value is known by its accessors, a table is its keys and
    values in the order of its iteration. A [BTreeMap] is a finite
    map, iterated in the order of its keys ([in_order]). A path is its text; a [UsageError] is its
    message. *)

From S2P Require Import Prelude RustStr Tools ModelRequest ToolPath ToolFiles.
From Stdlib Require Import Ascii SpecFloat.
Import model_request std_tools.

Module config_file.

(** ** error.rs *)

Definition UsageError : Type := string.

(** [UsageError::at]. *)
Definition error_at (origin : string) (self : UsageError) : UsageError :=
  self +:+ " (from " +:+ origin +:+ ")".

(** [map_err(|error| error.at(origin))]. *)
Definition located {A} (origin : string) (r : outcome UsageError A) : outcome UsageError A :=
  map_err (error_at origin) r.

(** ** Ordered maps *)

(** The entries of a [BTreeMap] in the order of its iteration. *)
Definition key_le {A} (a b : string * A) : Prop := String.le a.1 b.1.
#[export] Instance key_le_dec {A} (a b : string * A) : Decision (key_le a b).
Proof. unfold key_le. apply _. Defined.
Definition in_order {A} (m : gmap string A) : list (string * A) := merge_sort key_le (map_to_list m).

(** ** TOML *)

Class Toml : Type := {
  Value : Type;
  as_table : Value → option (list (string * Value));
  as_str : Value → option string;
  as_integer : Value → option Z;
  as_float : Value → option f64;
  as_bool : Value → option bool;
  as_array : Value → option (list Value);
  type_str : Value → string;
  parse_table : string → option (list (string * Value))
}.

(** ** What a file holds *)

Definition CONFIG_FILE : string := "config.toml".
Definition SECRET_KEYS : list string :=
  ["api_key"; "apikey"; "key"; "token"; "secret"; "password"].

Inductive Layer : Type := Global | Project.
#[export] Instance Layer_eq_dec : EqDecision Layer.
Proof. solve_decision. Defined.
Definition layer_name (self : Layer) : string :=
  match self with Global => "global" | Project => "project" end.

Record Sourced (T : Type) : Type := { value : T; layer : Layer }.
Arguments value {T} s.
Arguments layer {T} s.
Arguments Build_Sourced {T} value layer.

Record FileHeader : Type := { header_name : string; header_value : string }.

Record ModelFile : Type := {
  context_window : option (Sourced Z);
  max_output_tokens : option (Sourced Z);
  reasoning : option (Sourced (list string));
  input : option (Sourced (list string));
  output : option (Sourced (list string));
  display_name : option (Sourced string)
}.
Definition model_file_default : ModelFile := Build_ModelFile None None None None None None.
Definition set_context_window v (s : ModelFile) : ModelFile :=
  Build_ModelFile v (max_output_tokens s) (reasoning s) (input s) (output s) (display_name s).
Definition set_max_output_tokens v (s : ModelFile) : ModelFile :=
  Build_ModelFile (context_window s) v (reasoning s) (input s) (output s) (display_name s).
Definition set_reasoning v (s : ModelFile) : ModelFile :=
  Build_ModelFile (context_window s) (max_output_tokens s) v (input s) (output s)
    (display_name s).
Definition set_input v (s : ModelFile) : ModelFile :=
  Build_ModelFile (context_window s) (max_output_tokens s) (reasoning s) v (output s)
    (display_name s).
Definition set_output v (s : ModelFile) : ModelFile :=
  Build_ModelFile (context_window s) (max_output_tokens s) (reasoning s) (input s) v
    (display_name s).
Definition set_display_name v (s : ModelFile) : ModelFile :=
  Build_ModelFile (context_window s) (max_output_tokens s) (reasoning s) (input s) (output s) v.

Record CacheFile : Type := {
  retention : option (Sourced string);
  hints : option (Sourced (list string))
}.
Definition cache_file_default : CacheFile := Build_CacheFile None None.
Definition set_retention v (s : CacheFile) : CacheFile :=
  Build_CacheFile v (hints s).
Definition set_hints v (s : CacheFile) : CacheFile :=
  Build_CacheFile (retention s) v.

(** A literal credential. *)
Record FileSecret : Type := { secret_text : string }.

Record ProviderFile : Type := {
  endpoint : option (Sourced string);
  protocol : option (Sourced string);
  api_key_env : option (Sourced string);
  api_key : option (Sourced FileSecret);
  compat : option (Sourced string);
  reasoning_format : option (Sourced string);
  continuation : option (Sourced string);
  headers : gmap string (Sourced FileHeader);
  models : gmap string ModelFile;
  cache : option CacheFile
}.
Definition provider_file_default : ProviderFile :=
  Build_ProviderFile None None None None None None None ∅ ∅ None.
Definition set_endpoint v (s : ProviderFile) : ProviderFile :=
  Build_ProviderFile v (protocol s) (api_key_env s) (api_key s) (compat s) (reasoning_format s)
    (continuation s) (headers s) (models s) (cache s).
Definition set_protocol v (s : ProviderFile) : ProviderFile :=
  Build_ProviderFile (endpoint s) v (api_key_env s) (api_key s) (compat s) (reasoning_format s)
    (continuation s) (headers s) (models s) (cache s).
Definition set_api_key_env v (s : ProviderFile) : ProviderFile :=
  Build_ProviderFile (endpoint s) (protocol s) v (api_key s) (compat s) (reasoning_format s)
    (continuation s) (headers s) (models s) (cache s).
Definition set_api_key v (s : ProviderFile) : ProviderFile :=
  Build_ProviderFile (endpoint s) (protocol s) (api_key_env s) v (compat s) (reasoning_format s)
    (continuation s) (headers s) (models s) (cache s).
Definition set_compat v (s : ProviderFile) : ProviderFile :=
  Build_ProviderFile (endpoint s) (protocol s) (api_key_env s) (api_key s) v
    (reasoning_format s) (continuation s) (headers s) (models s) (cache s).
Definition set_reasoning_format v (s : ProviderFile) : ProviderFile :=
  Build_ProviderFile (endpoint s) (protocol s) (api_key_env s) (api_key s) (compat s) v
    (continuation s) (headers s) (models s) (cache s).
Definition set_continuation v (s : ProviderFile) : ProviderFile :=
  Build_ProviderFile (endpoint s) (protocol s) (api_key_env s) (api_key s) (compat s)
    (reasoning_format s) v (headers s) (models s) (cache s).
Definition set_headers v (s : ProviderFile) : ProviderFile :=
  Build_ProviderFile (endpoint s) (protocol s) (api_key_env s) (api_key s) (compat s)
    (reasoning_format s) (continuation s) v (models s) (cache s).
Definition set_models v (s : ProviderFile) : ProviderFile :=
  Build_ProviderFile (endpoint s) (protocol s) (api_key_env s) (api_key s) (compat s)
    (reasoning_format s) (continuation s) (headers s) v (cache s).
Definition set_cache v (s : ProviderFile) : ProviderFile :=
  Build_ProviderFile (endpoint s) (protocol s) (api_key_env s) (api_key s) (compat s)
    (reasoning_format s) (continuation s) (headers s) (models s) v.

Record FileConfig : Type := {
  data_dir : option (Sourced string);
  providers : gmap string (Sourced ProviderFile);
  aliases : gmap string (Sourced string);
  compaction_context_budget : option (Sourced Z);
  compaction_auto_threshold : option (Sourced f64);
  compaction_keep_recent_turns : option (Sourced Z);
  compaction_estimate_bytes_per_token : option (Sourced Z);
  max_tool_rounds : option (Sourced Z);
  max_parallel_tool_calls : option (Sourced Z);
  operation_timeout_secs : option (Sourced Z);
  shell_timeout_secs : option (Sourced Z);
  recovery_enabled : option (Sourced bool);
  recovery_max_retries : option (Sourced Z);
  recovery_backoff_base_ms : option (Sourced Z);
  recovery_backoff_max_ms : option (Sourced Z);
  recovery_response_head_timeout_secs : option (Sourced Z);
  recovery_stream_idle_timeout_secs : option (Sourced Z);
  verbosity : option (Sourced string);
  show_reasoning : option (Sourced bool);
  warnings : list string
}.
Definition file_config_default : FileConfig :=
  Build_FileConfig None ∅ ∅ None None None None None None None None None None None None None
    None None None [].
Definition set_data_dir v (s : FileConfig) : FileConfig :=
  Build_FileConfig v (providers s) (aliases s) (compaction_context_budget s)
    (compaction_auto_threshold s) (compaction_keep_recent_turns s)
    (compaction_estimate_bytes_per_token s) (max_tool_rounds s) (max_parallel_tool_calls s)
    (operation_timeout_secs s) (shell_timeout_secs s) (recovery_enabled s)
    (recovery_max_retries s) (recovery_backoff_base_ms s) (recovery_backoff_max_ms s)
    (recovery_response_head_timeout_secs s) (recovery_stream_idle_timeout_secs s) (verbosity s)
    (show_reasoning s) (warnings s).
Definition set_providers v (s : FileConfig) : FileConfig :=
  Build_FileConfig (data_dir s) v (aliases s) (compaction_context_budget s)
    (compaction_auto_threshold s) (compaction_keep_recent_turns s)
    (compaction_estimate_bytes_per_token s) (max_tool_rounds s) (max_parallel_tool_calls s)
    (operation_timeout_secs s) (shell_timeout_secs s) (recovery_enabled s)
    (recovery_max_retries s) (recovery_backoff_base_ms s) (recovery_backoff_max_ms s)
    (recovery_response_head_timeout_secs s) (recovery_stream_idle_timeout_secs s) (verbosity s)
    (show_reasoning s) (warnings s).
Definition set_aliases v (s : FileConfig) : FileConfig :=
  Build_FileConfig (data_dir s) (providers s) v (compaction_context_budget s)
    (compaction_auto_threshold s) (compaction_keep_recent_turns s)
    (compaction_estimate_bytes_per_token s) (max_tool_rounds s) (max_parallel_tool_calls s)
    (operation_timeout_secs s) (shell_timeout_secs s) (recovery_enabled s)
    (recovery_max_retries s) (recovery_backoff_base_ms s) (recovery_backoff_max_ms s)
    (recovery_response_head_timeout_secs s) (recovery_stream_idle_timeout_secs s) (verbosity s)
    (show_reasoning s) (warnings s).
Definition set_compaction_context_budget v (s : FileConfig) : FileConfig :=
  Build_FileConfig (data_dir s) (providers s) (aliases s) v (compaction_auto_threshold s)
    (compaction_keep_recent_turns s) (compaction_estimate_bytes_per_token s) (max_tool_rounds s)
    (max_parallel_tool_calls s) (operation_timeout_secs s) (shell_timeout_secs s)
    (recovery_enabled s) (recovery_max_retries s) (recovery_backoff_base_ms s)
    (recovery_backoff_max_ms s) (recovery_response_head_timeout_secs s)
    (recovery_stream_idle_timeout_secs s) (verbosity s) (show_reasoning s) (warnings s).
Definition set_compaction_auto_threshold v (s : FileConfig) : FileConfig :=
  Build_FileConfig (data_dir s) (providers s) (aliases s) (compaction_context_budget s) v
    (compaction_keep_recent_turns s) (compaction_estimate_bytes_per_token s) (max_tool_rounds s)
    (max_parallel_tool_calls s) (operation_timeout_secs s) (shell_timeout_secs s)
    (recovery_enabled s) (recovery_max_retries s) (recovery_backoff_base_ms s)
    (recovery_backoff_max_ms s) (recovery_response_head_timeout_secs s)
    (recovery_stream_idle_timeout_secs s) (verbosity s) (show_reasoning s) (warnings s).
Definition set_compaction_keep_recent_turns v (s : FileConfig) : FileConfig :=
  Build_FileConfig (data_dir s) (providers s) (aliases s) (compaction_context_budget s)
    (compaction_auto_threshold s) v (compaction_estimate_bytes_per_token s) (max_tool_rounds s)
    (max_parallel_tool_calls s) (operation_timeout_secs s) (shell_timeout_secs s)
    (recovery_enabled s) (recovery_max_retries s) (recovery_backoff_base_ms s)
    (recovery_backoff_max_ms s) (recovery_response_head_timeout_secs s)
    (recovery_stream_idle_timeout_secs s) (verbosity s) (show_reasoning s) (warnings s).
Definition set_compaction_estimate_bytes_per_token v (s : FileConfig) : FileConfig :=
  Build_FileConfig (data_dir s) (providers s) (aliases s) (compaction_context_budget s)
    (compaction_auto_threshold s) (compaction_keep_recent_turns s) v (max_tool_rounds s)
    (max_parallel_tool_calls s) (operation_timeout_secs s) (shell_timeout_secs s)
    (recovery_enabled s) (recovery_max_retries s) (recovery_backoff_base_ms s)
    (recovery_backoff_max_ms s) (recovery_response_head_timeout_secs s)
    (recovery_stream_idle_timeout_secs s) (verbosity s) (show_reasoning s) (warnings s).
Definition set_max_tool_rounds v (s : FileConfig) : FileConfig :=
  Build_FileConfig (data_dir s) (providers s) (aliases s) (compaction_context_budget s)
    (compaction_auto_threshold s) (compaction_keep_recent_turns s)
    (compaction_estimate_bytes_per_token s) v (max_parallel_tool_calls s)
    (operation_timeout_secs s) (shell_timeout_secs s) (recovery_enabled s)
    (recovery_max_retries s) (recovery_backoff_base_ms s) (recovery_backoff_max_ms s)
    (recovery_response_head_timeout_secs s) (recovery_stream_idle_timeout_secs s) (verbosity s)
    (show_reasoning s) (warnings s).
Definition set_max_parallel_tool_calls v (s : FileConfig) : FileConfig :=
  Build_FileConfig (data_dir s) (providers s) (aliases s) (compaction_context_budget s)
    (compaction_auto_threshold s) (compaction_keep_recent_turns s)
    (compaction_estimate_bytes_per_token s) (max_tool_rounds s) v (operation_timeout_secs s)
    (shell_timeout_secs s) (recovery_enabled s) (recovery_max_retries s)
    (recovery_backoff_base_ms s) (recovery_backoff_max_ms s)
    (recovery_response_head_timeout_secs s) (recovery_stream_idle_timeout_secs s) (verbosity s)
    (show_reasoning s) (warnings s).
Definition set_operation_timeout_secs v (s : FileConfig) : FileConfig :=
  Build_FileConfig (data_dir s) (providers s) (aliases s) (compaction_context_budget s)
    (compaction_auto_threshold s) (compaction_keep_recent_turns s)
    (compaction_estimate_bytes_per_token s) (max_tool_rounds s) (max_parallel_tool_calls s) v
    (shell_timeout_secs s) (recovery_enabled s) (recovery_max_retries s)
    (recovery_backoff_base_ms s) (recovery_backoff_max_ms s)
    (recovery_response_head_timeout_secs s) (recovery_stream_idle_timeout_secs s) (verbosity s)
    (show_reasoning s) (warnings s).
Definition set_shell_timeout_secs v (s : FileConfig) : FileConfig :=
  Build_FileConfig (data_dir s) (providers s) (aliases s) (compaction_context_budget s)
    (compaction_auto_threshold s) (compaction_keep_recent_turns s)
    (compaction_estimate_bytes_per_token s) (max_tool_rounds s) (max_parallel_tool_calls s)
    (operation_timeout_secs s) v (recovery_enabled s) (recovery_max_retries s)
    (recovery_backoff_base_ms s) (recovery_backoff_max_ms s)
    (recovery_response_head_timeout_secs s) (recovery_stream_idle_timeout_secs s) (verbosity s)
    (show_reasoning s) (warnings s).
Definition set_recovery_enabled v (s : FileConfig) : FileConfig :=
  Build_FileConfig (data_dir s) (providers s) (aliases s) (compaction_context_budget s)
    (compaction_auto_threshold s) (compaction_keep_recent_turns s)
    (compaction_estimate_bytes_per_token s) (max_tool_rounds s) (max_parallel_tool_calls s)
    (operation_timeout_secs s) (shell_timeout_secs s) v (recovery_max_retries s)
    (recovery_backoff_base_ms s) (recovery_backoff_max_ms s)
    (recovery_response_head_timeout_secs s) (recovery_stream_idle_timeout_secs s) (verbosity s)
    (show_reasoning s) (warnings s).
Definition set_recovery_max_retries v (s : FileConfig) : FileConfig :=
  Build_FileConfig (data_dir s) (providers s) (aliases s) (compaction_context_budget s)
    (compaction_auto_threshold s) (compaction_keep_recent_turns s)
    (compaction_estimate_bytes_per_token s) (max_tool_rounds s) (max_parallel_tool_calls s)
    (operation_timeout_secs s) (shell_timeout_secs s) (recovery_enabled s) v
    (recovery_backoff_base_ms s) (recovery_backoff_max_ms s)
    (recovery_response_head_timeout_secs s) (recovery_stream_idle_timeout_secs s) (verbosity s)
    (show_reasoning s) (warnings s).
Definition set_recovery_backoff_base_ms v (s : FileConfig) : FileConfig :=
  Build_FileConfig (data_dir s) (providers s) (aliases s) (compaction_context_budget s)
    (compaction_auto_threshold s) (compaction_keep_recent_turns s)
    (compaction_estimate_bytes_per_token s) (max_tool_rounds s) (max_parallel_tool_calls s)
    (operation_timeout_secs s) (shell_timeout_secs s) (recovery_enabled s)
    (recovery_max_retries s) v (recovery_backoff_max_ms s)
    (recovery_response_head_timeout_secs s) (recovery_stream_idle_timeout_secs s) (verbosity s)
    (show_reasoning s) (warnings s).
Definition set_recovery_backoff_max_ms v (s : FileConfig) : FileConfig :=
  Build_FileConfig (data_dir s) (providers s) (aliases s) (compaction_context_budget s)
    (compaction_auto_threshold s) (compaction_keep_recent_turns s)
    (compaction_estimate_bytes_per_token s) (max_tool_rounds s) (max_parallel_tool_calls s)
    (operation_timeout_secs s) (shell_timeout_secs s) (recovery_enabled s)
    (recovery_max_retries s) (recovery_backoff_base_ms s) v
    (recovery_response_head_timeout_secs s) (recovery_stream_idle_timeout_secs s) (verbosity s)
    (show_reasoning s) (warnings s).
Definition set_recovery_response_head_timeout_secs v (s : FileConfig) : FileConfig :=
  Build_FileConfig (data_dir s) (providers s) (aliases s) (compaction_context_budget s)
    (compaction_auto_threshold s) (compaction_keep_recent_turns s)
    (compaction_estimate_bytes_per_token s) (max_tool_rounds s) (max_parallel_tool_calls s)
    (operation_timeout_secs s) (shell_timeout_secs s) (recovery_enabled s)
    (recovery_max_retries s) (recovery_backoff_base_ms s) (recovery_backoff_max_ms s) v
    (recovery_stream_idle_timeout_secs s) (verbosity s) (show_reasoning s) (warnings s).
Definition set_recovery_stream_idle_timeout_secs v (s : FileConfig) : FileConfig :=
  Build_FileConfig (data_dir s) (providers s) (aliases s) (compaction_context_budget s)
    (compaction_auto_threshold s) (compaction_keep_recent_turns s)
    (compaction_estimate_bytes_per_token s) (max_tool_rounds s) (max_parallel_tool_calls s)
    (operation_timeout_secs s) (shell_timeout_secs s) (recovery_enabled s)
    (recovery_max_retries s) (recovery_backoff_base_ms s) (recovery_backoff_max_ms s)
    (recovery_response_head_timeout_secs s) v (verbosity s) (show_reasoning s) (warnings s).
Definition set_verbosity v (s : FileConfig) : FileConfig :=
  Build_FileConfig (data_dir s) (providers s) (aliases s) (compaction_context_budget s)
    (compaction_auto_threshold s) (compaction_keep_recent_turns s)
    (compaction_estimate_bytes_per_token s) (max_tool_rounds s) (max_parallel_tool_calls s)
    (operation_timeout_secs s) (shell_timeout_secs s) (recovery_enabled s)
    (recovery_max_retries s) (recovery_backoff_base_ms s) (recovery_backoff_max_ms s)
    (recovery_response_head_timeout_secs s) (recovery_stream_idle_timeout_secs s) v
    (show_reasoning s) (warnings s).
Definition set_show_reasoning v (s : FileConfig) : FileConfig :=
  Build_FileConfig (data_dir s) (providers s) (aliases s) (compaction_context_budget s)
    (compaction_auto_threshold s) (compaction_keep_recent_turns s)
    (compaction_estimate_bytes_per_token s) (max_tool_rounds s) (max_parallel_tool_calls s)
    (operation_timeout_secs s) (shell_timeout_secs s) (recovery_enabled s)
    (recovery_max_retries s) (recovery_backoff_base_ms s) (recovery_backoff_max_ms s)
    (recovery_response_head_timeout_secs s) (recovery_stream_idle_timeout_secs s) (verbosity s)
    v (warnings s).
Definition set_warnings v (s : FileConfig) : FileConfig :=
  Build_FileConfig (data_dir s) (providers s) (aliases s) (compaction_context_budget s)
    (compaction_auto_threshold s) (compaction_keep_recent_turns s)
    (compaction_estimate_bytes_per_token s) (max_tool_rounds s) (max_parallel_tool_calls s)
    (operation_timeout_secs s) (shell_timeout_secs s) (recovery_enabled s)
    (recovery_max_retries s) (recovery_backoff_base_ms s) (recovery_backoff_max_ms s)
    (recovery_response_head_timeout_secs s) (recovery_stream_idle_timeout_secs s) (verbosity s)
    (show_reasoning s) v.
Definition warn (message : string) (s : FileConfig) : FileConfig :=
  set_warnings (warnings s ++ [message]) s.

(** ** Reading one key *)
Section read.
Context {toml : Toml}.

Record Reader : Type := {
  reader_path : string;
  reader_layer : Layer;
  section : string;
  key : string;
  reader_value : Value
}.

(** The prefix of its messages. *)
Definition where_read (self : Reader) : string :=
  reader_path self +:+ ": [" +:+ section self +:+ "]." +:+ key self.
Definition wrong_type (self : Reader) (expected : string) : UsageError :=
  where_read self +:+ " must be " +:+ expected +:+ ", found " +:+ type_str (reader_value self).
Definition sourced {A} (self : Reader) (v : A) : Sourced A := Build_Sourced v (reader_layer self).

(** [ok_or_else(|| self.wrong_type(expected))]. *)
Definition of_type {A} (self : Reader) (expected : string) (v : option A) : outcome UsageError A :=
  match v with Some v => Ok v | None => Err (wrong_type self expected) end.

Definition read_string (self : Reader) : outcome UsageError (Sourced string) :=
  let? v := of_type self "a string" (as_str (reader_value self)) in
  if str_is_empty (trim v) then Err (where_read self +:+ " must not be empty")
  else Ok (sourced self v).

Definition is_ascii_alphabetic (b : ascii) : bool :=
  in_range 65 90 b || in_range 97 122 b.
Definition is_ascii_alphanumeric (b : ascii) : bool :=
  is_ascii_alphabetic b || in_range 48 57 b.
Definition is_char (c : ascii) (b : ascii) : bool := bool_decide (b = c).

(** A text whose first character and whose others are of two ASCII classes. *)
Definition identifier (first rest : ascii → bool) (s : string) : bool :=
  match s with
  | EmptyString => false
  | String b s => first b && forallb rest (Tools.bytes_of s)
  end.

Definition read_env_name (self : Reader) : outcome UsageError (Sourced string) :=
  let? s := read_string self in
  if identifier (λ b, is_char "_" b || is_ascii_alphabetic b)
       (λ b, is_char "_" b || is_ascii_alphanumeric b) (value s)
  then Ok s
  else Err (where_read self
            +:+ " must be an environment variable name; the value was not loaded").

Definition read_secret (self : Reader) : outcome UsageError (Sourced FileSecret) :=
  let? s := read_string self in
  Ok (Build_Sourced {| secret_text := value s |} (layer s)).

Definition read_integer (self : Reader) : outcome UsageError (Sourced Z) :=
  let? v := of_type self "an integer" (as_integer (reader_value self)) in
  if bool_decide (v ≤ 0)%Z
  then Err (where_read self +:+ " must be a positive integer, found " +:+ pretty v)
  else Ok (sourced self v).

Definition read_non_negative_integer (self : Reader) : outcome UsageError (Sourced Z) :=
  let? v := of_type self "a non-negative integer" (as_integer (reader_value self)) in
  if bool_decide (v < 0)%Z
  then Err (where_read self +:+ " must be a non-negative integer, found " +:+ pretty v)
  else Ok (sourced self v).

(** [value as f64] of an [i64]. *)
Definition f64_of_i64 (z : Z) : f64 := binary_normalize 53 1024 z 0 false.

Definition read_number (self : Reader) : outcome UsageError (Sourced f64) :=
  let? v := of_type self "a number"
    (match as_float (reader_value self) with
     | Some v => Some v
     | None => f64_of_i64 <$> as_integer (reader_value self)
     end) in
  Ok (sourced self v).

Definition read_item (self : Reader) (values : list string) (item : Value)
    : outcome UsageError (list string) :=
  match as_str item with
  | None => Err (where_read self +:+ " must contain strings, found " +:+ type_str item)
  | Some v =>
      if str_is_empty (trim v) then Err (where_read self +:+ " must not contain empty entries")
      else Ok (values ++ [v])
  end.
Definition read_string_array (self : Reader) : outcome UsageError (Sourced (list string)) :=
  let? items := of_type self "an array of strings" (as_array (reader_value self)) in
  let? values := try_fold (read_item self) [] items in
  if is_nil values then Err (where_read self +:+ " must not be empty; omit the key instead")
  else Ok (sourced self values).

Definition read_boolean (self : Reader) : outcome UsageError (Sourced bool) :=
  let? v := of_type self "a boolean" (as_bool (reader_value self)) in
  Ok (sourced self v).

(** ** One layer *)

Definition secret_key (key : string) : bool := bool_decide (to_ascii_lowercase key ∈ SECRET_KEYS).

(** A loop that refuses the secret keys, apart from the one credential key. *)
Definition refuse_secret_keys (exempt : string → bool) (message : string → UsageError)
    (keys : list string) : outcome UsageError unit :=
  try_fold (λ _ key,
    if exempt key then Ok tt else if secret_key key then Err (message key) else Ok tt) tt keys.

Section layer.
Context (path : string) (from : Layer).

Definition reader_at (section key : string) (value : Value) : Reader :=
  {| reader_path := path; reader_layer := from; section := section; key := key;
     reader_value := value |}.

(** [target = Some(reader.read()?)]. *)
Definition store {A S} (read : Reader → outcome UsageError (Sourced A))
    (set : option (Sourced A) → S → S) (r : Reader) (s : S) : outcome UsageError S :=
  let? v := read r in Ok (set (Some v) s).

Definition apply_header (at_section : string) (configured : gmap string (Sourced FileHeader))
    (e : string * Value) : outcome UsageError (gmap string (Sourced FileHeader)) :=
  let '(name, v) := e in
  let canonical := to_ascii_lowercase name in
  if bool_decide (canonical ∈ SECRET_KEYS) then
    Err (path +:+ ": " +:+ at_section +:+ "." +:+ name
         +:+ " would store a secret in a file; philo reads credentials from the environment only"
         +:+ " - set api_key_env or api_key instead")
  else
    let? v := read_string (reader_at "deployment.headers" name v) in
    Ok (<[canonical := Build_Sourced {| header_name := name; header_value := value v |} from]>
          configured).
Definition apply_headers (configured : gmap string (Sourced FileHeader)) (at_section : string)
    (v : Value) : outcome UsageError (gmap string (Sourced FileHeader)) :=
  match as_table v with
  | None => Err (path +:+ ": " +:+ at_section +:+ " must be a table, found " +:+ type_str v)
  | Some table => try_fold (apply_header at_section) configured table
  end.

(** A provider being read, with the configuration that takes the warnings. *)
Definition apply_model_field (id name : string) (acc : ModelFile * FileConfig) (e : string * Value)
    : outcome UsageError (ModelFile * FileConfig) :=
  let '(model, config) := acc in
  let '(field, v) := e in
  let r := reader_at ("providers." +:+ id +:+ ".models." +:+ name) field v in
  let put {A} (read : Reader → outcome UsageError (Sourced A)) set :=
    let? model := store read set r model in Ok (model, config) in
  if field == "context_window" then put read_integer set_context_window
  else if field == "max_output_tokens" then put read_integer set_max_output_tokens
  else if field == "reasoning" then put read_string_array set_reasoning
  else if field == "input" then put read_string_array set_input
  else if field == "output" then put read_string_array set_output
  else if field == "display_name" then put read_string set_display_name
  else Ok (model, warn (path +:+ ": unknown key [providers." +:+ id +:+ ".models." +:+ name
                        +:+ "]." +:+ field +:+ "; ignored") config).

Definition apply_model (id : string) (acc : gmap string ModelFile * FileConfig)
    (e : string * Value) : outcome UsageError (gmap string ModelFile * FileConfig) :=
  let '(all_models, config) := acc in
  let '(name, entry) := e in
  if str_is_empty (trim name) then
    Err (path +:+ ": [providers." +:+ id +:+ "].models contains an empty model name")
  else if secret_key name then
    Err (path +:+ ": [providers." +:+ id +:+ "].models." +:+ name
         +:+ " would store a secret in a file; model names must not look like credential keys")
  else
    match as_table entry with
    | None =>
        Err (path +:+ ": [providers." +:+ id +:+ ".models." +:+ name
             +:+ "] must be a table, found " +:+ type_str entry)
    | Some fields =>
        let? done := try_fold (apply_model_field id name) (model_file_default, config) fields in
        let '(model, config) := done in
        Ok (<[name := model]> all_models, config)
    end.

Definition apply_cache_key (id : string) (acc : CacheFile * FileConfig) (e : string * Value)
    : outcome UsageError (CacheFile * FileConfig) :=
  let '(cache, config) := acc in
  let '(key, v) := e in
  let r := reader_at ("providers." +:+ id +:+ ".cache") key v in
  if key == "retention" then
    let? cache := store read_string set_retention r cache in Ok (cache, config)
  else if key == "hints" then
    let? cache := store read_string_array set_hints r cache in Ok (cache, config)
  else Ok (cache, warn (path +:+ ": unknown key [providers." +:+ id +:+ ".cache]." +:+ key
                        +:+ "; ignored") config).

Definition apply_provider_key (id : string) (acc : ProviderFile * FileConfig) (e : string * Value)
    : outcome UsageError (ProviderFile * FileConfig) :=
  let '(provider, config) := acc in
  let '(key, v) := e in
  let r := reader_at "providers" (id +:+ "." +:+ key) v in
  let put {A} (read : Reader → outcome UsageError (Sourced A)) set :=
    let? provider := store read set r provider in Ok (provider, config) in
  if key == "endpoint" then put read_string set_endpoint
  else if key == "protocol" then put read_string set_protocol
  else if key == "api_key_env" then put read_env_name set_api_key_env
  else if key == "api_key" then put read_secret set_api_key
  else if key == "compat" then put read_string set_compat
  else if key == "reasoning_format" then put read_string set_reasoning_format
  else if key == "continuation" then put read_string set_continuation
  else if key == "headers" then
    let? configured :=
      apply_headers (headers provider) ("[providers." +:+ id +:+ ".headers]") v in
    Ok (set_headers configured provider, config)
  else if key == "models" then
    match as_table v with
    | None =>
        Err (path +:+ ": [providers." +:+ id +:+ "].models must be a table of models, one "
             +:+ "[providers." +:+ id +:+ ".models.<name>] section per model")
    | Some table =>
        let? done := try_fold (apply_model id) (models provider, config) table in
        let '(all_models, config) := done in
        Ok (set_models all_models provider, config)
    end
  else if key == "cache" then
    match as_table v with
    | None =>
        Err (path +:+ ": [providers." +:+ id +:+ "].cache must be a table, found " +:+ type_str v)
    | Some table =>
        let? done := try_fold (apply_cache_key id) (cache_file_default, config) table in
        let '(cache, config) := done in
        Ok (set_cache (Some cache) provider, config)
    end
  else Ok (provider, warn (path +:+ ": unknown key [providers." +:+ id +:+ "]." +:+ key
                           +:+ "; ignored") config).

Definition valid_provider_id (id : string) : bool :=
  identifier is_ascii_alphanumeric
    (λ b, is_ascii_alphanumeric b || is_char "-" b || is_char "_" b) id.

Definition apply_provider (config : FileConfig) (e : string * Value)
    : outcome UsageError FileConfig :=
  let '(id, v) := e in
  match as_table v with
  | None => Ok (warn (path +:+ ": [providers." +:+ id +:+ "] is not a section; ignored") config)
  | Some table =>
      if str_is_empty (trim id) || negb (valid_provider_id id) then
        Err (path +:+ ": [providers." +:+ id +:+ "] uses an invalid provider id; use letters, "
             +:+ "digits, '-' or '_'")
      else
        let? _ :=
          refuse_secret_keys (λ key, key == "api_key")
            (λ key, path +:+ ": [providers." +:+ id +:+ "]." +:+ key
               +:+ " would store a secret in a file; philo reads credentials from the environment"
               +:+ " only - set api_key_env to the variable name instead") table.*1 in
        let? done := try_fold (apply_provider_key id) (provider_file_default, config) table in
        let '(provider, config) := done in
        Ok (set_providers (<[id := Build_Sourced provider from]> (providers config)) config)
  end.
Definition apply_providers (config : FileConfig) (entries : list (string * Value))
    : outcome UsageError FileConfig := try_fold apply_provider config entries.

Definition validate_alias_name (name : string) : outcome UsageError unit :=
  if negb (str_is_empty (trim name))
     && identifier is_ascii_alphanumeric
          (λ b, is_ascii_alphanumeric b || is_char "-" b || is_char "_" b) name
  then Ok tt
  else Err (path +:+ ": alias '" +:+ name +:+ "' in the " +:+ layer_name from
            +:+ " config must be a single word of letters, digits, '-' or '_' starting with a "
            +:+ "letter or digit").

Definition apply_alias (config : FileConfig) (e : string * Value) : outcome UsageError FileConfig :=
  let '(name, v) := e in
  let? target := read_string (reader_at "aliases" name v) in
  let? _ := validate_alias_name name in
  Ok (set_aliases (<[name := Build_Sourced (value target) from]> (aliases config)) config).

(** A key of one of the plain sections. *)
Definition apply_key (in_section : string) (config : FileConfig) (e : string * Value)
    : outcome UsageError FileConfig :=
  let '(key, v) := e in
  let r := reader_at in_section key v in
  let at_ (s k : string) := (in_section == s) && (key == k) in
  if at_ "compaction" "context_budget" then store read_integer set_compaction_context_budget r config
  else if at_ "compaction" "auto_threshold" then
    store read_number set_compaction_auto_threshold r config
  else if at_ "compaction" "keep_recent_turns" then
    store read_integer set_compaction_keep_recent_turns r config
  else if at_ "compaction" "estimate_bytes_per_token" then
    store read_integer set_compaction_estimate_bytes_per_token r config
  else if at_ "defaults" "reasoning_effort" then
    Err (path +:+ ": [defaults].reasoning_effort has been removed; reasoning tiers are a model "
         +:+ "capability - declare them on the model with "
         +:+ "[providers.<id>.models.<model>].reasoning")
  else if at_ "defaults" "max_tool_rounds" then store read_integer set_max_tool_rounds r config
  else if at_ "defaults" "max_output_tokens" then
    Err (path +:+ ": [defaults].max_output_tokens has been removed; the output cap is a model "
         +:+ "capability - declare it on the model with "
         +:+ "[providers.<id>.models.<model>].max_output_tokens")
  else if at_ "defaults" "max_parallel_tool_calls" then
    store read_integer set_max_parallel_tool_calls r config
  else if at_ "defaults" "operation_timeout_secs" then
    store read_integer set_operation_timeout_secs r config
  else if at_ "tools" "shell_timeout_secs" then store read_integer set_shell_timeout_secs r config
  else if at_ "recovery" "enabled" then store read_boolean set_recovery_enabled r config
  else if at_ "recovery" "max_retries" then
    store read_non_negative_integer set_recovery_max_retries r config
  else if at_ "recovery" "backoff_base_ms" then
    store read_integer set_recovery_backoff_base_ms r config
  else if at_ "recovery" "backoff_max_ms" then
    store read_integer set_recovery_backoff_max_ms r config
  else if at_ "recovery" "response_head_timeout_secs" then
    store read_non_negative_integer set_recovery_response_head_timeout_secs r config
  else if at_ "recovery" "stream_idle_timeout_secs" then
    store read_non_negative_integer set_recovery_stream_idle_timeout_secs r config
  else if at_ "ui" "verbosity" then store read_string set_verbosity r config
  else if at_ "ui" "show_reasoning" then store read_boolean set_show_reasoning r config
  else if at_ "ui" "screen" then
    Err (path +:+ ": unknown key [ui].screen - removed in v4.0 (alternate screen only); delete "
         +:+ "this line")
  else if at_ "ui" "terminal_bg" then
    Err (path +:+ ": unknown key [ui].terminal_bg - removed in v4.0 (fixed brand canvas); delete "
         +:+ "this line")
  else Ok (warn (path +:+ ": unknown key [" +:+ in_section +:+ "]." +:+ key +:+ "; ignored") config).

Definition known_sections : list string :=
  ["defaults"; "tools"; "ui"; "compaction"; "recovery"; "providers"; "aliases"].

Definition apply_section (config : FileConfig) (e : string * Value)
    : outcome UsageError FileConfig :=
  let '(section, v) := e in
  match as_table v with
  | None =>
      if section == "data_dir" then
        store read_string set_data_dir (reader_at "(root)" "data_dir" v) config
      else
        Ok (warn (path +:+ ": '" +:+ section +:+ "' is not a section; ignored") config)
  | Some entries =>
      if section == "deployment" then
        Err (path +:+ ": [deployment] has been removed; every model now comes from the "
             +:+ "[providers] catalog - move endpoint and credentials into a [providers.<id>] "
             +:+ "section and list the models under [providers.<id>.models]")
      else
        let? _ :=
          refuse_secret_keys (λ key, (key == "api_key") && (section == "providers"))
            (λ key, path +:+ ": [" +:+ section +:+ "]." +:+ key
               +:+ " would store a secret in a file; philo reads credentials from the environment"
               +:+ " only - set api_key_env to the variable name instead") entries.*1 in
        if bool_decide (section ∉ known_sections) then
          Ok (warn (path +:+ ": unknown section [" +:+ section +:+ "]; ignored") config)
        else if section == "providers" then apply_providers config entries
        else if section == "aliases" then try_fold apply_alias config entries
        else try_fold (apply_key section) config entries
  end.

Definition apply (config : FileConfig) (table : list (string * Value))
    : outcome UsageError FileConfig := try_fold apply_section config table.
End layer.

(** ** Both layers *)

Definition holds_project_secret (provider : Sourced ProviderFile) : bool :=
  match api_key (value provider) with Some key => layer key == Project | None => false end.

Definition warn_project_layer_secrets (path : string) (config : FileConfig) : FileConfig :=
  foldl (λ config e,
    if holds_project_secret e.2 then
      warn (path +:+ ": [providers." +:+ e.1
            +:+ "].api_key stores a literal credential in the project layer; prefer api_key_env, "
            +:+ "or move the key to the global config") config
    else config) config (in_order (providers config)).

(** What the file system says of a path: nothing there, a failing read with the
    name of its kind, or a text. *)
Inductive FileAt : Type := Absent | Unreadable (kind : string) | Text (text : string).

Section load.
Context (read_file : string → FileAt).

Definition load_layer (config : FileConfig) (at_layer : Layer * option string)
    : outcome UsageError FileConfig :=
  let '(from, path) := at_layer in
  match path with
  | None => Ok config
  | Some path =>
      match read_file path with
      | Absent => Ok config
      | Unreadable kind =>
          Err ("cannot read the " +:+ layer_name from +:+ " config '" +:+ path +:+ "': " +:+ kind)
      | Text text =>
          match parse_table text with
          | None =>
              Err ("invalid TOML in the " +:+ layer_name from +:+ " config '" +:+ path
                   +:+ "'; fix the file syntax")
          | Some table =>
              let? config := apply path from config table in
              Ok (if from == Project then warn_project_layer_secrets path config else config)
          end
      end
  end.

Definition load_layers (global project : option string) : outcome UsageError FileConfig :=
  try_fold load_layer file_config_default [(Global, global); (Project, project)].
End load.
End read.

(** What the process knows of its surroundings; a failing [current_dir] is its
    message. *)
Record Environment : Type := {
  env_var : string → option string;
  home_dir : option string;
  current_dir : string + string;
  file_at : string → FileAt
}.

Definition CONFIG_HOME_ENV : string := "PHILO_CONFIG_HOME".

Definition global_path (env : Environment) : option string :=
  match env_var env CONFIG_HOME_ENV with
  | Some dir => Some (tool_path.join_str dir CONFIG_FILE)
  | None => (λ home, tool_path.join_str (tool_path.join_str home ".philo") CONFIG_FILE) <$> home_dir env
  end.
Definition project_path (workspace_root : string) : string :=
  tool_path.join_str (tool_path.join_str workspace_root ".philo") CONFIG_FILE.

Definition load {toml : Toml} (env : Environment) : outcome UsageError FileConfig :=
  match current_dir env with
  | inl error => Err ("cannot resolve the working directory: " +:+ error)
  | inr workspace_root =>
      load_layers (file_at env) (global_path env) (Some (project_path workspace_root))
  end.

End config_file.
