(* ===== verification/CliConfig.v ===== *)
(** The effective settings of a run (src/crates/philo-cli/src/config/resolve.rs,
    mod.rs, args.rs).

    Module [config_resolve]: flags, environment and files are turned into the
    [Settings] of a run, with the rows that [/config] shows; a computation
    carries the rows recorded so far. The command line is the record [Cli], as
    the parser of the crate [clap] fills it. How a number of type [f32] is
    printed is the class [ShowF32]. A [Duration] is a number of milliseconds. *)

From S2P Require Import Prelude RustStr Runtime ReplayStore Replay ModelErrors ModelRequest.
From S2P Require Import ModelAdapter ToolPath CodingProfile CliFile.
From Stdlib Require Import SpecFloat.
Import runtime replay model_request headers assemble.
Import config_file (UsageError, error_at, located, Layer, layer_name, Sourced, value, layer).
Import config_file (FileConfig, ProviderFile, ModelFile, in_order, Environment, env_var, home_dir).
Import config_file (Toml, load).

Module config_resolve.

(** ** args.rs *)

Inductive Command : Type := Sessions (data_dir : option string).
Record Cli : Type := {
  cli_command : option Command;
  cli_message : option string;
  cli_session : option string;
  cli_model : option string;
  cli_data_dir : option string;
  cli_system : option string;
  cli_max_tool_rounds : option Z;
  cli_reasoning_effort : option string;
  cli_image : list string;
  cli_verbose : bool;
  cli_quiet : bool
}.

(** ** Vocabulary *)

Definition API_KEY_ENV : string := "PHILO_API_KEY".

Inductive Verbosity : Type := VerbosityDefault | Verbose | Quiet.
#[export] Instance Verbosity_eq_dec : EqDecision Verbosity.
Proof. solve_decision. Defined.

Inductive Credential : Type := EnvName (name : string) | Literal (secret : string).
#[export] Instance Credential_eq_dec : EqDecision Credential.
Proof. solve_decision. Defined.
Definition display_credential (self : Credential) : string :=
  match self with EnvName name => name | Literal _ => "<configured>" end.

Record EffectiveSetting : Type := { row_key : string; row_value : string; row_source : string }.
#[export] Instance EffectiveSetting_eq_dec : EqDecision EffectiveSetting.
Proof. solve_decision. Defined.

Class ShowF32 : Type := show_f32 : f32 → string.
(** The fields of [PromptCacheHints]. *)
Class CacheHintFields {sdk : Sdk} {sdk_request : SdkRequest} : Type := {
  hint_instructions : PromptCacheHints → PromptCacheHints;
  hint_tools : PromptCacheHints → PromptCacheHints;
  hint_history : PromptCacheHints → PromptCacheHints
}.

(** ** Labels *)

Definition continuation_label (policy : ModelContinuationPolicy) : string :=
  match policy with
  | StatelessLocalReplay => "stateless-local-replay"
  | PreferPreviousResponseIdWithLocalFallback => "prefer-previous-response-id"
  end.

Definition effort_rank (effort : ReasoningEffort) : Z :=
  match effort with
  | Minimal => 0 | Low => 1 | Medium => 2 | High => 3 | Xhigh => 4 | Max => 5
  end.
Definition effort_label (effort : ReasoningEffort) : string :=
  match effort with
  | Minimal => "minimal" | Low => "low" | Medium => "medium" | High => "high"
  | Xhigh => "xhigh" | Max => "max"
  end.

#[export] Instance ReasoningEffort_eq_dec : EqDecision ReasoningEffort.
Proof. solve_decision. Defined.

(** [sort_by_key(effort_rank)]. *)
Definition rank_le (a b : ReasoningEffort) : Prop := (effort_rank a ≤ effort_rank b)%Z.
#[export] Instance rank_le_dec a b : Decision (rank_le a b).
Proof. unfold rank_le. apply _. Defined.
Definition sort_tiers (tiers : list ReasoningEffort) : list ReasoningEffort :=
  merge_sort rank_le tiers.
Definition tiers_label (tiers : list ReasoningEffort) : string :=
  join " | " (effort_label <$> sort_tiers tiers).

(** ** Values *)

Definition positive_u64 (key : string) (value : Z) : outcome UsageError Z :=
  if bool_decide (0 ≤ value ≤ u64_max)%Z then Ok value
  else Err (key +:+ " is out of range: " +:+ pretty value).
Definition positive_u32 (key : string) (value : Z) : outcome UsageError Z :=
  if bool_decide (0 ≤ value ≤ u32_max)%Z then Ok value
  else Err (key +:+ " is out of range: " +:+ pretty value).

Definition is_finite (x : f64) : bool :=
  match x with S754_zero _ | S754_finite _ _ _ => true | _ => false end.
(** [value as f32] of an [f64]. *)
Definition f32_of_f64 (x : f64) : f32 :=
  match x with
  | S754_finite s m e => binary_normalize 24 128 (if s then Z.neg m else Z.pos m) e s
  | x => x
  end.
Definition f64_zero : f64 := S754_zero false.
Definition f64_one : f64 := config_file.f64_of_i64 1.
Definition threshold_f32 (key : string) (value : f64) : outcome UsageError f32 :=
  if negb (is_finite value) || negb (SFltb f64_zero value && SFleb value f64_one)
  then Err (key +:+ " must be greater than 0 and at most 1")
  else Ok (f32_of_f64 value).

Definition parse_protocol (value : string) : outcome UsageError ModelProtocol :=
  if value == "openai-chat" then Ok OpenAiChat
  else if value == "openai-responses" then Ok OpenAiResponses
  else if value == "openai-chat-compatible" then
    Err ("protocol 'openai-chat-compatible' is no longer accepted; use protocol=openai-chat and "
         +:+ "compat=compatible. For the old compatible-v2 behavior also set "
         +:+ "reasoning_format=none")
  else if value == "openai-chat-compatible-reasoning-effort" then
    Err ("protocol 'openai-chat-compatible-reasoning-effort' is no longer accepted; use "
         +:+ "protocol=openai-chat and compat=compatible with reasoning_format=effort-only")
  else if value == "openai-chat-reasoning-content" then
    Err ("protocol 'openai-chat-reasoning-content' is no longer accepted; use "
         +:+ "protocol=openai-chat and compat=compatible with reasoning_format=content-only")
  else if value == "anthropic-messages" then
    Err "protocol 'anthropic-messages' is not supported in this version"
  else Err ("unknown protocol '" +:+ value +:+ "': expected openai-chat | openai-responses").

Definition parse_compat (value : string) : outcome UsageError ModelCompat :=
  if value == "official" then Ok Official
  else if value == "compatible" then Ok Compatible
  else Err ("unknown compat '" +:+ value +:+ "': expected official | compatible").

Definition parse_reasoning_format (value : string) : outcome UsageError ChatReasoningFormat :=
  if value == "none" then Ok FormatNone
  else if value == "effort-only" then Ok EffortOnly
  else if value == "content-only" then Ok ContentOnly
  else if value == "effort-and-content" then Ok EffortAndContent
  else Err ("unknown reasoning_format '" +:+ value
            +:+ "': expected none | effort-only | content-only | effort-and-content").

Definition parse_continuation_policy (value : string) : outcome UsageError ModelContinuationPolicy :=
  if value == "stateless-local-replay" then Ok StatelessLocalReplay
  else if value == "prefer-previous-response-id" then Ok PreferPreviousResponseIdWithLocalFallback
  else Err ("unknown continuation policy '" +:+ value
            +:+ "': expected stateless-local-replay | prefer-previous-response-id").

Definition validate_protocol_axes (protocol : ModelProtocol)
    (chat_reasoning_format : option ChatReasoningFormat) (policy : ModelContinuationPolicy)
    : outcome UsageError unit :=
  if tool_path.is_some chat_reasoning_format && (protocol != OpenAiChat) then
    Err "reasoning_format is only valid for the OpenAI Chat protocol"
  else if (policy == PreferPreviousResponseIdWithLocalFallback) && (protocol != OpenAiResponses) then
    Err "prefer-previous-response-id requires the OpenAI Responses protocol"
  else Ok tt.

Definition parse_reasoning_effort (value : string) : outcome UsageError ReasoningEffort :=
  if value == "minimal" then Ok Minimal
  else if value == "low" then Ok Low
  else if value == "medium" then Ok Medium
  else if value == "high" then Ok High
  else if value == "xhigh" then Ok Xhigh
  else if value == "max" then Ok Max
  else Err ("invalid reasoning effort '" +:+ value
            +:+ "': expected minimal | low | medium | high | xhigh | max").

Definition parse_cache_retention (value : string) : outcome UsageError CacheRetention :=
  if value == "none" then Ok RetentionNone
  else if value == "short" then Ok RetentionShort
  else if value == "long" then Ok RetentionLong
  else Err ("invalid cache retention '" +:+ value +:+ "': expected none | short | long").

Definition validate_reasoning_effort (protocol : ModelProtocol) (compat : ModelCompat)
    (chat_reasoning_format : option ChatReasoningFormat) (effort : ReasoningEffort)
    : outcome UsageError unit :=
  if supports_reasoning_effort protocol compat chat_reasoning_format effort then Ok tt
  else Err ("reasoning effort is unsupported by protocol '" +:+ protocol_str protocol
            +:+ "' with compat '" +:+ compat_str compat +:+ "'; remove the reasoning setting or "
            +:+ "choose a protocol that supports it").

Definition parse_verbosity (value : string) : outcome UsageError Verbosity :=
  if value == "default" then Ok VerbosityDefault
  else if value == "verbose" then Ok Verbose
  else if value == "quiet" then Ok Quiet
  else Err ("invalid [ui].verbosity '" +:+ value +:+ "': expected default | verbose | quiet").

Definition modality_step (key layer : string) (allowed : list string) (resolved : list string)
    (value : string) : outcome UsageError (list string) :=
  if negb (bool_decide (value ∈ allowed)) then
    Err (key +:+ " in the " +:+ layer +:+ " config lists unsupported modality '" +:+ value
         +:+ "': expected " +:+ join " | " allowed)
  else Ok (if bool_decide (value ∈ resolved) then resolved else resolved ++ [value]).
Definition parse_modalities (key : string) (modalities : option (Sourced (list string)))
    (allowed : list string) (layer : string) : outcome UsageError (list string) :=
  match modalities with
  | None => Ok ["text"]
  | Some s => try_fold (modality_step key layer allowed) [] (value s)
  end.

(** Its caller records nothing. *)
Definition resolve_credential (section : string) (api_key : option (Sourced config_file.FileSecret))
    (api_key_env : option (Sourced string)) : outcome UsageError Credential :=
  match api_key, api_key_env with
  | Some _, Some _ =>
      Err (section +:+ " sets both api_key and api_key_env; keep exactly one")
  | Some key, None => Ok (Literal (config_file.secret_text (value key)))
  | None, Some picked => Ok (EnvName (value picked))
  | None, None => Ok (EnvName API_KEY_ENV)
  end.

(** ** Computations that record rows *)

Definition recording (A : Type) : Type :=
  list EffectiveSetting → outcome UsageError (list EffectiveSetting * A).
Definition ret {A} (a : A) : recording A := λ rows, Ok (rows, a).
Definition bind {A B} (m : recording A) (f : A → recording B) : recording B := λ rows,
  match m rows with Ok (rows, a) => f a rows | Err e => Err e | Panic => Panic end.
(** [expr?] *)
Definition lift {A} (r : outcome UsageError A) : recording A := λ rows,
  match r with Ok a => Ok (rows, a) | Err e => Err e | Panic => Panic end.
Definition record (key value source : string) : recording unit := λ rows,
  Ok (rows ++ [{| row_key := key; row_value := value; row_source := source |}], tt).
Fixpoint record_all {A} (row : A → recording unit) (l : list A) : recording unit :=
  match l with
  | [] => ret tt
  | a :: l => bind (row a) (λ _, record_all row l)
  end.

Declare Scope recording_scope.
Delimit Scope recording_scope with recording.
#[local] Notation "'let!' x ':=' c 'in' k" := (bind c (λ x, k))
  (at level 10, x pattern, c at level 100, k at level 200) : recording_scope.
#[local] Notation "c ;; k" := (bind c (λ _, k))
  (at level 100, k at level 200, right associativity) : recording_scope.
#[local] Open Scope recording_scope.

(** A value and the layer that supplied it. *)
Record Pick (T : Type) : Type := { picked : T; source : string }.
Arguments picked {T} p.
Arguments source {T} p.
Arguments Build_Pick {T} picked source.
Definition from_file {T} (file : option (Sourced T)) : option (Pick T) :=
  (λ s, Build_Pick (value s) (layer_name (layer s))) <$> file.
Definition pick_string (env : Environment) (flag env_name : option string)
    (file : option (Sourced string)) : option (Pick string) :=
  match flag with
  | Some v => Some (Build_Pick v "flag")
  | None =>
      match env_name ≫= env_var env with
      | Some v => Some (Build_Pick v "env")
      | None => from_file file
      end
  end.
Definition pick_integer (flag : option Z) (file : option (Sourced Z)) : option (Pick Z) :=
  match flag with Some v => Some (Build_Pick v "flag") | None => from_file file end.
Definition origin (source : string) (flag env : option string) (key : string) : string :=
  if source == "flag" then default "the command line" flag
  else if source == "env" then default "the environment" env
  else key +:+ " in the " +:+ source +:+ " config".

(** [Some(picked) => { record(key, ..); Some(convert(picked.value)?) }]. *)
Definition record_pick {A B} (key : string) (show_value : A → string)
    (convert : A → outcome UsageError B) (pick : option (Pick A)) : recording (option B) :=
  match pick with
  | None => ret None
  | Some p =>
      record key (show_value (picked p)) (source p) ;;
      let! v := lift (convert (picked p)) in ret (Some v)
  end.
(** [None => { record(key, .., "default"); absent }]. *)
Definition or_record {B} (key : string) (show_value : B → string) (absent : B)
    (m : recording (option B)) : recording B :=
  let! v := m in
  match v with
  | Some v => ret v
  | None => record key (show_value absent) "default" ;; ret absent
  end.
Definition show_bool (b : bool) : string := if b then "true" else "false".
Definition duration_from_secs (seconds : Z) : Z := (seconds * 1000)%Z.


Section resolve.
Context {sdk : Sdk} {sdk_request : SdkRequest} {http : HttpHeaders} {patch : ProviderPatch}.
Context {hint_fields : CacheHintFields} {show : ShowF32}.

Definition cache_hint_step (hints : PromptCacheHints) (value : string)
    : outcome UsageError PromptCacheHints :=
  if value == "instructions" then Ok (hint_instructions hints)
  else if value == "tools" then Ok (hint_tools hints)
  else if value == "history" then Ok (hint_history hints)
  else Err ("invalid cache hint '" +:+ value +:+ "': expected instructions | tools | history").
Definition parse_cache_hints (values : list string) : outcome UsageError PromptCacheHints :=
  try_fold cache_hint_step prompt_cache_hints_default values.

Record ModelChoice : Type := {
  mc_id : string;
  mc_provider_id : string;
  mc_model : string;
  mc_endpoint : string;
  mc_protocol : ModelProtocol;
  mc_credential : Credential;
  mc_compat : ModelCompat;
  mc_chat_reasoning_format : option ChatReasoningFormat;
  mc_continuation_policy : ModelContinuationPolicy;
  mc_context_window : option Z;
  mc_request_headers : list (string * string);
  mc_max_output_tokens : option Z;
  mc_reasoning_tiers : list ReasoningEffort;
  mc_default_reasoning : option ReasoningEffort;
  mc_image_input : bool;
  mc_cache_policy : ModelCachePolicy;
  mc_display_name : string
}.

Record Deployment : Type := {
  dep_provider : string;
  dep_protocol : ModelProtocol;
  dep_model : string;
  dep_endpoint : string;
  dep_credential : Credential;
  dep_request_headers : ModelRequestHeaders;
  dep_compat : ModelCompat;
  dep_chat_reasoning_format : option ChatReasoningFormat;
  dep_continuation_policy : ModelContinuationPolicy;
  dep_max_output_tokens : option Z;
  dep_default_reasoning : option ReasoningEffort;
  dep_image_input : bool;
  dep_cache_policy : ModelCachePolicy;
  dep_response_head_timeout : option Z;
  dep_stream_idle_timeout : option Z
}.

Record Settings : Type := {
  st_deployment : Deployment;
  st_models : list ModelChoice;
  st_aliases : list (string * string);
  st_data_dir : string;
  st_context_window : option Z;
  st_compaction : CompactionConfig;
  st_reasoning_effort : option ReasoningEffort;
  st_max_tool_rounds : option Z;
  st_max_parallel_tool_calls : option Z;
  st_operation_timeout : option Z;
  st_shell_timeout_secs : option Z;
  st_recovery : RecoveryConfig;
  st_verbosity : Verbosity;
  st_show_reasoning : bool;
  st_entries : list EffectiveSetting
}.

(** ** The catalog *)

(** What a provider section says of all its models. *)
Record ProviderStack : Type := {
  ps_endpoint : string;
  ps_protocol : ModelProtocol;
  ps_compat : ModelCompat;
  ps_chat_reasoning_format : option ChatReasoningFormat;
  ps_credential : Credential;
  ps_continuation_policy : ModelContinuationPolicy;
  ps_request_headers : list (string * string);
  ps_cache_policy : ModelCachePolicy
}.

(** [match value { Some(picked) => Some(parse(..)?), None => None }]. *)
Definition parse_optional {A B} (value : option (Sourced A)) (parse : A → outcome UsageError B)
    : outcome UsageError (option B) :=
  match value with
  | None => Ok None
  | Some picked => let? b := parse (config_file.value picked) in Ok (Some b)
  end.
Definition parse_or {A B} (value : option (Sourced A)) (parse : A → outcome UsageError B)
    (absent : B) : outcome UsageError B :=
  let? b := parse_optional value parse in Ok (default absent b).

Definition set_file_header (id : string) (headers : ModelRequestHeaders)
    (sourced : Sourced config_file.FileHeader) : outcome UsageError ModelRequestHeaders :=
  located ("[providers." +:+ id +:+ ".headers]." +:+ config_file.header_name (value sourced)
           +:+ " in the " +:+ layer_name (layer sourced) +:+ " config")
    (map_err display_header_error
       (set_header headers (config_file.header_name (value sourced))
          (config_file.header_value (value sourced)))).

Definition resolve_cache (id from : string) (cache : option config_file.CacheFile)
    : outcome UsageError ModelCachePolicy :=
  match cache with
  | None => Ok cache_policy_default
  | Some cache =>
      let at_ (key : string) := "[providers." +:+ id +:+ ".cache]." +:+ key +:+ " in the " +:+ from
                                +:+ " config" in
      let? retention :=
        parse_or (config_file.retention cache)
          (λ v, located (at_ "retention") (parse_cache_retention v)) RetentionShort in
      let? hints :=
        parse_or (config_file.hints cache)
          (λ v, located (at_ "hints") (parse_cache_hints v)) prompt_cache_hints_default in
      Ok {| retention := retention; hints := hints |}
  end.

Definition provider_stack (id : string) (sourced : Sourced ProviderFile)
    : outcome UsageError ProviderStack :=
  let provider := value sourced in
  let from := layer_name (layer sourced) in
  let at_ (key : string) := "[providers." +:+ id +:+ "]" +:+ key +:+ " in the " +:+ from
                            +:+ " config" in
  match config_file.endpoint provider with
  | None => Err ("[providers." +:+ id +:+ "] needs an endpoint in the " +:+ from +:+ " config")
  | Some endpoint =>
      let? protocol :=
        parse_or (config_file.protocol provider)
          (λ v, located (at_ ".protocol") (parse_protocol v)) OpenAiChat in
      let? compat :=
        parse_or (config_file.compat provider)
          (λ v, located (at_ ".compat") (parse_compat v)) Compatible in
      let? chat_reasoning_format :=
        parse_optional (config_file.reasoning_format provider)
          (λ v, located (at_ ".reasoning_format") (parse_reasoning_format v)) in
      let? credential :=
        resolve_credential ("[providers." +:+ id +:+ "]") (config_file.api_key provider)
          (config_file.api_key_env provider) in
      let? continuation_policy :=
        parse_or (config_file.continuation provider)
          (λ v, located (at_ ".continuation") (parse_continuation_policy v))
          StatelessLocalReplay in
      let? _ :=
        located (at_ "") (validate_protocol_axes protocol chat_reasoning_format continuation_policy) in
      let? _ :=
        try_fold (set_file_header id) request_headers_new
          (in_order (config_file.headers provider)).*2 in
      let pairs :=
        (λ e, (e.1, config_file.header_value (value e.2))) <$> in_order (config_file.headers provider) in
      let? cache_policy := resolve_cache id from (config_file.cache provider) in
      Ok {| ps_endpoint := value endpoint; ps_protocol := protocol; ps_compat := compat;
            ps_chat_reasoning_format := chat_reasoning_format; ps_credential := credential;
            ps_continuation_policy := continuation_policy; ps_request_headers := pairs;
            ps_cache_policy := cache_policy |}
  end.

(** One declared tier. *)
Definition tier_step (stack : ProviderStack) (section from : string) (tiers : list ReasoningEffort)
    (value : string) : outcome UsageError (list ReasoningEffort) :=
  let origin := section +:+ ".reasoning entry '" +:+ value +:+ "' in the " +:+ from +:+ " config" in
  let? tier := located origin (parse_reasoning_effort value) in
  let? _ :=
    located origin
      (validate_reasoning_effort (ps_protocol stack) (ps_compat stack)
         (ps_chat_reasoning_format stack) tier) in
  Ok (if bool_decide (tier ∈ tiers) then tiers else tiers ++ [tier]).

Definition resolve_tiers (stack : ProviderStack) (section from : string)
    (declared : option (Sourced (list string))) : outcome UsageError (list ReasoningEffort) :=
  match declared with
  | None => Ok []
  | Some picked =>
      let? tiers := try_fold (tier_step stack section from) [] (value picked) in
      let tiers := sort_tiers tiers in
      if is_nil tiers then
        Err (section +:+ " in the " +:+ from +:+ " config: reasoning must not be empty; omit the key "
             +:+ "for a non-reasoning model")
      else Ok tiers
  end.

Definition model_choice (id : string) (from : string) (stack : ProviderStack)
    (e : string * ModelFile) : outcome UsageError ModelChoice :=
  let '(name, model) := e in
  let section := "[providers." +:+ id +:+ ".models." +:+ name +:+ "]" in
  let? context_window :=
    parse_optional (config_file.context_window model)
      (positive_u64 (section +:+ ".context_window")) in
  let? max_output_tokens :=
    parse_optional (config_file.max_output_tokens model)
      (positive_u32 (section +:+ ".max_output_tokens")) in
  let? reasoning_tiers := resolve_tiers stack section from (config_file.reasoning model) in
  let default_reasoning := reasoning_tiers !! (length reasoning_tiers / 2) in
  let? input :=
    parse_modalities (section +:+ ".input") (config_file.input model) ["text"; "image"] from in
  let image_input := bool_decide ("image" ∈ input) in
  let? output :=
    parse_modalities (section +:+ ".output") (config_file.output model) ["text"] from in
  if is_nil output then
    Err (section +:+ " in the " +:+ from +:+ " config: output must declare at least one modality")
  else
    Ok {| mc_id := id +:+ "/" +:+ name; mc_provider_id := id; mc_model := name;
          mc_endpoint := ps_endpoint stack; mc_protocol := ps_protocol stack;
          mc_credential := ps_credential stack; mc_compat := ps_compat stack;
          mc_chat_reasoning_format := ps_chat_reasoning_format stack;
          mc_continuation_policy := ps_continuation_policy stack;
          mc_context_window := context_window; mc_request_headers := ps_request_headers stack;
          mc_max_output_tokens := max_output_tokens; mc_reasoning_tiers := reasoning_tiers;
          mc_default_reasoning := default_reasoning; mc_image_input := image_input;
          mc_cache_policy := ps_cache_policy stack;
          mc_display_name :=
            match config_file.display_name model with Some s => value s | None => name end |}.

Definition provider_choices (choices : list ModelChoice) (e : string * Sourced ProviderFile)
    : outcome UsageError (list ModelChoice) :=
  let '(id, sourced) := e in
  let? stack := provider_stack id sourced in
  try_fold (λ choices m,
    let? choice := model_choice id (layer_name (layer sourced)) stack m in Ok (choices ++ [choice]))
    choices (in_order (config_file.models (value sourced))).

(** [sort_by(|left, right| left.id.cmp(&right.id))]. *)
Definition id_le (a b : ModelChoice) : Prop := String.le (mc_id a) (mc_id b).
#[export] Instance id_le_dec a b : Decision (id_le a b).
Proof. unfold id_le. apply _. Defined.

Definition model_choices (file : FileConfig) : outcome UsageError (list ModelChoice) :=
  let? choices := try_fold provider_choices [] (in_order (config_file.providers file)) in
  Ok (merge_sort id_le choices).

(** ** Names of models *)

Definition find_choice (id : string) (models : list ModelChoice) : option ModelChoice :=
  List.find (λ choice, mc_id choice == id) models.
Definition find_alias (name : string) (aliases : list (string * string)) : option string :=
  snd <$> List.find (λ alias, alias.1 == name) aliases.

Definition alias_step (models : list ModelChoice) (aliases : list (string * string))
    (e : string * Sourced string) : outcome UsageError (list (string * string)) :=
  let '(name, sourced) := e in
  let target := trim (value sourced) in
  if negb (any (λ choice, mc_id choice == target) models) then
    Err (error_at ("aliases." +:+ name +:+ " in the " +:+ layer_name (layer sourced) +:+ " config")
           ("alias '" +:+ name +:+ "' targets '" +:+ target
            +:+ "', which is not a configured [providers] model"))
  else Ok (aliases ++ [(name, target)]).
Definition resolve_aliases (file : FileConfig) (models : list ModelChoice)
    : outcome UsageError (list (string * string)) :=
  try_fold (alias_step models) [] (in_order (config_file.aliases file)).

(** The headers were validated when the choice was resolved: [expect]. *)
Definition rebuild_headers (pairs : list (string * string)) : outcome UsageError ModelRequestHeaders :=
  try_fold (λ headers h,
    match set_header headers h.1 h.2 with Ok headers => Ok headers | _ => Panic end)
    request_headers_new pairs.

Definition deployment_from_choice (choice : ModelChoice)
    (response_head_timeout stream_idle_timeout : option Z) : outcome UsageError Deployment :=
  let? request_headers := rebuild_headers (mc_request_headers choice) in
  Ok {| dep_provider := mc_provider_id choice; dep_protocol := mc_protocol choice;
        dep_model := mc_id choice; dep_endpoint := mc_endpoint choice;
        dep_credential := mc_credential choice; dep_request_headers := request_headers;
        dep_compat := mc_compat choice;
        dep_chat_reasoning_format := mc_chat_reasoning_format choice;
        dep_continuation_policy := mc_continuation_policy choice;
        dep_max_output_tokens := mc_max_output_tokens choice;
        dep_default_reasoning := mc_default_reasoning choice;
        dep_image_input := mc_image_input choice; dep_cache_policy := mc_cache_policy choice;
        dep_response_head_timeout := response_head_timeout;
        dep_stream_idle_timeout := stream_idle_timeout |}.

Definition deployment_for (settings : Settings) (requested : string)
    : outcome UsageError (Deployment * string) :=
  let resolved := default requested (find_alias requested (st_aliases settings)) in
  match find_choice resolved (st_models settings) with
  | None =>
      Err ("unknown model '" +:+ requested
           +:+ "': pick one of the configured [providers] models (see /models)")
  | Some choice =>
      let? deployment :=
        deployment_from_choice choice (dep_response_head_timeout (st_deployment settings))
          (dep_stream_idle_timeout (st_deployment settings)) in
      Ok (deployment, mc_model choice)
  end.

Definition header_entries (choice : ModelChoice) : list EffectiveSetting :=
  ((λ h,
     {| row_key := "header." +:+ h.1;
        row_value :=
          if h.1 == "user-agent" then
            default "" (snd <$> List.find (λ g, g.1 == h.1) (mc_request_headers choice))
          else "<configured>";
        row_source := "providers." +:+ mc_provider_id choice |}) <$> mc_request_headers choice)
  ++ (if any (λ h, h.1 == "user-agent") (mc_request_headers choice) then []
      else [{| row_key := "header.user-agent"; row_value := DEFAULT_USER_AGENT;
               row_source := "default" |}]).

Definition validate_reasoning_tiers (choice : ModelChoice) (effort : ReasoningEffort)
    : outcome UsageError unit :=
  if bool_decide (effort ∈ mc_reasoning_tiers choice) then Ok tt
  else if is_nil (mc_reasoning_tiers choice) then
    Err ("model '" +:+ mc_id choice +:+ "' does not support reasoning; remove --reasoning-effort or "
         +:+ "switch to a model that declares reasoning tiers")
  else
    Err ("reasoning effort '" +:+ effort_label effort +:+ "' is not supported by model '"
         +:+ mc_id choice +:+ "': expected " +:+ tiers_label (mc_reasoning_tiers choice)).

(** ** The settings *)

(** The model that runs: the requested one, through the aliases, or the first. *)
Definition adopt (env : Environment) (cli : Cli) (first : ModelChoice) (models : list ModelChoice)
    (aliases : list (string * string)) : recording ModelChoice :=
  let requested := pick_string env (cli_model cli) (Some "PHILO_MODEL") None in
  let! requested :=
    match requested with
    | None => ret None
    | Some p =>
        match find_alias (picked p) aliases with
        | None => ret (Some p)
        | Some target =>
            record "model.alias" (picked p) "aliases" ;; ret (Some (Build_Pick target (source p)))
        end
    end in
  let adopted := default first (requested ≫= λ p, find_choice (picked p) models) in
  match requested with
  | Some p =>
      if picked p == mc_id adopted then record "model" (mc_id adopted) (source p)
      else
        record "model.requested" (picked p) (source p) ;; record "model" (mc_id adopted) "default"
  | None => record "model" (mc_id adopted) "default"
  end ;;
  ret adopted.

Definition resolve_data_dir (env : Environment) (flag : option string) (file : FileConfig)
    : outcome UsageError (string * string) :=
  match flag with
  | Some dir => Ok (dir, "flag")
  | None =>
      match env_var env "PHILO_DATA_DIR" with
      | Some dir => Ok (dir, "env")
      | None =>
          match config_file.data_dir file with
          | Some s => Ok (value s, layer_name (layer s))
          | None =>
              match home_dir env with
              | Some home =>
                  Ok (tool_path.join_str (tool_path.join_str home ".philo") "sessions", "default")
              | None =>
                  Err ("cannot determine the home directory: pass --data-dir, set PHILO_DATA_DIR, "
                       +:+ "or set [deployment].data_dir")
              end
          end
      end
  end.

(** Where the adopted model and its provider are declared. *)
Definition choice_layer (file : FileConfig) (adopted : ModelChoice) : string :=
  match config_file.providers file !! mc_provider_id adopted with
  | Some s => layer_name (layer s)
  | None => "default"
  end.
Definition provider_origin (file : FileConfig) (adopted : ModelChoice) : string :=
  "[providers." +:+ mc_provider_id adopted +:+ "] in the " +:+ choice_layer file adopted
  +:+ " config".
Definition model_origin (file : FileConfig) (adopted : ModelChoice) : string :=
  "providers." +:+ mc_provider_id adopted +:+ ".models." +:+ mc_model adopted +:+ " in the "
  +:+ choice_layer file adopted +:+ " config".
(** The source of a row the provider section may declare. *)
Definition declared {A} (file : FileConfig) (adopted : ModelChoice)
    (field : ProviderFile → option A) : string :=
  match config_file.providers file !! mc_provider_id adopted ≫= λ s, field (value s) with
  | Some _ => provider_origin file adopted
  | None => "default"
  end.

Definition record_stack (file : FileConfig) (adopted : ModelChoice) : recording unit :=
  record "endpoint" (mc_endpoint adopted) (provider_origin file adopted) ;;
  record "protocol" (protocol_str (mc_protocol adopted))
    (declared file adopted config_file.protocol) ;;
  record "compat" (compat_str (mc_compat adopted)) (declared file adopted config_file.compat) ;;
  match mc_chat_reasoning_format adopted with
  | Some format => record "reasoning_format" (format_str format) (provider_origin file adopted)
  | None => ret tt
  end ;;
  record "continuation" (continuation_label (mc_continuation_policy adopted))
    (declared file adopted config_file.continuation) ;;
  match mc_context_window adopted with
  | Some window => record "context_window" (pretty window) (model_origin file adopted)
  | None => ret tt
  end.

Definition resolve_compaction (file : FileConfig) (adopted : ModelChoice)
    : recording CompactionConfig :=
  let! budget :=
    record_pick "context_budget" pretty (positive_u64 "[compaction].context_budget")
      (from_file (config_file.compaction_context_budget file)) in
  let! context_budget :=
    match budget, mc_context_window adopted with
    | Some v, _ => ret (Some v)
    | None, Some v =>
        record "context_budget" (pretty v) (model_origin file adopted) ;; ret (Some v)
    | None, None => record "context_budget" "none" "default" ;; ret None
    end in
  let! auto_threshold :=
    match from_file (config_file.compaction_auto_threshold file) with
    | Some p =>
        let! v := lift (threshold_f32 "[compaction].auto_threshold" (picked p)) in
        record "auto_threshold" (show_f32 v) (source p) ;; ret v
    | None =>
        let v := auto_threshold coding_profile.compaction_default in
        record "auto_threshold" (show_f32 v) "default" ;; ret v
    end in
  let! keep_recent_turns :=
    or_record "keep_recent_turns" pretty (keep_recent_turns coding_profile.compaction_default)
      (record_pick "keep_recent_turns" pretty (positive_u32 "[compaction].keep_recent_turns")
         (from_file (config_file.compaction_keep_recent_turns file))) in
  let! estimate_bytes_per_token :=
    or_record "estimate_bytes_per_token" pretty
      (estimate_bytes_per_token coding_profile.compaction_default)
      (record_pick "estimate_bytes_per_token" pretty
         (positive_u32 "[compaction].estimate_bytes_per_token")
         (from_file (config_file.compaction_estimate_bytes_per_token file))) in
  ret {| context_budget := context_budget; auto_threshold := auto_threshold;
         keep_recent_turns := keep_recent_turns;
         estimate_bytes_per_token := estimate_bytes_per_token |}.

Definition resolve_effort (cli : Cli) (file : FileConfig) (adopted : ModelChoice)
    : recording (option ReasoningEffort) :=
  match cli_reasoning_effort cli with
  | Some v =>
      record "reasoning_effort" v "flag" ;;
      let! effort := lift (located "--reasoning-effort" (parse_reasoning_effort v)) in
      lift (located "--reasoning-effort" (validate_reasoning_tiers adopted effort)) ;;
      lift (located "--reasoning-effort"
              (validate_reasoning_effort (mc_protocol adopted) (mc_compat adopted)
                 (mc_chat_reasoning_format adopted) effort)) ;;
      ret (Some effort)
  | None =>
      match mc_default_reasoning adopted with
      | Some effort =>
          record "reasoning_effort"
            (effort_label effort +:+ " (middle of " +:+ tiers_label (mc_reasoning_tiers adopted)
             +:+ ")") (model_origin file adopted)
      | None => ret tt
      end ;;
      ret None
  end.

Definition resolve_recovery (file : FileConfig) : recording RecoveryConfig :=
  let! enabled :=
    or_record "recovery.enabled" show_bool true
      (record_pick "recovery.enabled" show_bool Ok
         (from_file (config_file.recovery_enabled file))) in
  let! max_retries :=
    or_record "recovery.max_retries" pretty 3%Z
      (record_pick "recovery.max_retries" pretty (positive_u32 "recovery.max_retries")
         (from_file (config_file.recovery_max_retries file))) in
  let! backoff_base_ms :=
    record_pick "recovery.backoff_base_ms" pretty (positive_u64 "[recovery].backoff_base_ms")
      (from_file (config_file.recovery_backoff_base_ms file)) in
  let! backoff_max_ms :=
    record_pick "recovery.backoff_max_ms" pretty (positive_u64 "[recovery].backoff_max_ms")
      (from_file (config_file.recovery_backoff_max_ms file)) in
  ret {| enabled := enabled; max_retries := max_retries;
         backoff_base_ms := default 500%Z backoff_base_ms;
         backoff_max_ms := default 8000%Z backoff_max_ms |}.

(** Zero seconds is no deadline. *)
Definition resolve_deadline (key : string) (file : option (Sourced Z)) : recording (option Z) :=
  let! seconds :=
    record_pick ("recovery." +:+ key) pretty (positive_u64 ("[recovery]." +:+ key)) (from_file file) in
  ret (seconds ≫= λ s, if bool_decide (0 < s)%Z then Some (duration_from_secs s) else None).

Definition resolve_verbosity (cli : Cli) (file : FileConfig) : recording Verbosity :=
  if cli_quiet cli then record "verbosity" "quiet" "flag" ;; ret Quiet
  else if cli_verbose cli then record "verbosity" "verbose" "flag" ;; ret Verbose
  else
    match from_file (config_file.verbosity file) with
    | Some p =>
        record "verbosity" (picked p) (source p) ;;
        lift (located (origin (source p) None None "[ui].verbosity") (parse_verbosity (picked p)))
    | None => record "verbosity" "default" "default" ;; ret VerbosityDefault
    end.

(** [resolve], from the catalog to the settings. *)
Definition resolve_with (env : Environment) (cli : Cli) (file : FileConfig)
    (first : ModelChoice) (models : list ModelChoice) : recording Settings :=
  record_all (λ e, record "providers" e.1 (layer_name (layer e.2)))
    (in_order (config_file.providers file)) ;;
  let! aliases := lift (resolve_aliases file models) in
  record_all (λ e, record "aliases" (e.1 +:+ " -> " +:+ value e.2) (layer_name (layer e.2)))
    (in_order (config_file.aliases file)) ;;
  let! adopted := adopt env cli first models aliases in
  let! dir := lift (resolve_data_dir env (cli_data_dir cli) file) in
  record "data_dir" dir.1 dir.2 ;;
  record_stack file adopted ;;
  let! compaction := resolve_compaction file adopted in
  let! reasoning_effort := resolve_effort cli file adopted in
  let! max_tool_rounds :=
    record_pick "max_tool_rounds" pretty (positive_u32 "max_tool_rounds")
      (pick_integer (cli_max_tool_rounds cli) (config_file.max_tool_rounds file)) in
  match mc_max_output_tokens adopted with
  | Some tokens => record "max_output_tokens" (pretty tokens) (model_origin file adopted)
  | None => ret tt
  end ;;
  let! max_parallel_tool_calls :=
    record_pick "max_parallel_tool_calls" pretty (positive_u32 "max_parallel_tool_calls")
      (pick_integer None (config_file.max_parallel_tool_calls file)) in
  let! operation_timeout :=
    record_pick "operation_timeout_secs" pretty (positive_u64 "[defaults].operation_timeout_secs")
      (from_file (config_file.operation_timeout_secs file)) in
  let! shell_timeout_secs :=
    record_pick "shell_timeout_secs" pretty (positive_u64 "[tools].shell_timeout_secs")
      (from_file (config_file.shell_timeout_secs file)) in
  let! recovery := resolve_recovery file in
  let! response_head_timeout :=
    resolve_deadline "response_head_timeout_secs"
      (config_file.recovery_response_head_timeout_secs file) in
  let! stream_idle_timeout :=
    resolve_deadline "stream_idle_timeout_secs"
      (config_file.recovery_stream_idle_timeout_secs file) in
  let! verbosity := resolve_verbosity cli file in
  let! show_reasoning :=
    or_record "show_reasoning" show_bool true
      (record_pick "show_reasoning" show_bool Ok (from_file (config_file.show_reasoning file))) in
  record "provider_config" (mc_provider_id adopted) (choice_layer file adopted) ;;
  record_all (λ e, record (row_key e) (row_value e) (row_source e)) (header_entries adopted) ;;
  let! deployment :=
    lift (deployment_from_choice adopted response_head_timeout stream_idle_timeout) in
  λ rows,
    Ok (rows,
      {| st_deployment := deployment; st_models := models; st_aliases := aliases;
         st_data_dir := dir.1; st_context_window := mc_context_window adopted;
         st_compaction := compaction; st_reasoning_effort := reasoning_effort;
         st_max_tool_rounds := max_tool_rounds;
         st_max_parallel_tool_calls := max_parallel_tool_calls;
         st_operation_timeout := duration_from_secs <$> operation_timeout;
         st_shell_timeout_secs := shell_timeout_secs; st_recovery := recovery;
         st_verbosity := verbosity; st_show_reasoning := show_reasoning; st_entries := rows |}).

Definition resolve (env : Environment) (cli : Cli) (file : FileConfig)
    : outcome UsageError Settings :=
  let? models := model_choices file in
  match models with
  | [] =>
      Err ("no models configured: declare at least one [providers.<id>] section with a "
           +:+ "[providers.<id>.models] entry")
  | first :: _ =>
      let? r := resolve_with env cli file first models [] in Ok r.2
  end.

(** [LoadedConfig::load] and [resolve_run]. *)
Definition load_and_resolve {toml : Toml} (env : Environment) (cli : Cli)
    : outcome UsageError (Settings * list string) :=
  let? file := load env in
  let? settings := resolve env cli file in
  Ok (settings, config_file.warnings file).
End resolve.
End config_resolve.
