(* ===== verification/CliRun.v ===== *)
(** The process around the agent (src/crates/philo-cli/src): assembly.rs,
    config/watch.rs, ids.rs, command/ctrl_c.rs, command/oneshot/ and the
    supervisor of command/interactive/.

    Module [assembly]: how a generation is put together from the settings and
    what a reloaded configuration asks of the service; the client's answer to a
    command is an argument. Module [build_pool]: the single builder thread and
    its mailbox as a step relation; a panic of a build is an end of its work.
    Module [config_watch]: the loop over the stamps of the two files, one step
    per wait. Module [ctrl_c] and [oneshot]: the loop of a one-shot run as a
    function of what it receives. Module [supervisor]: what follows the end of
    each run of the terminal interface. *)

From S2P Require Import Prelude RustStr Tools Session Runtime ReplayStore Replay ModelErrors ModelRequest.
From S2P Require Import ModelAdapter ToolPath ToolFiles ToolBlocking CodingProfile Service ServiceMapping.
From S2P Require Import CliFile CliConfig.
From Stdlib Require Import Ascii.
Import runtime replay model_request headers assemble config_resolve.
Import config_file (UsageError, Environment, current_dir, Toml).

(** ** ids.rs *)
Module ids.

(** [format!("{millis:x}")]. *)
Fixpoint hex_digits (fuel : nat) (n : N) (tail : string) : string :=
  match fuel with
  | 0 => tail
  | S fuel =>
      let digit := ascii_of_N (let d := N.modulo n 16 in if (d <? 10)%N then 48 + d else 87 + d) in
      let tail := String digit tail in
      if (n <? 16)%N then tail else hex_digits fuel (N.div n 16) tail
  end.
Definition lower_hex (n : N) : string := hex_digits (S (N.size_nat n)) n "".

(** The clock before the epoch counts as zero. *)
Definition fresh_session_id (millis : option N) (process_id : Z) : string :=
  "sess-" +:+ lower_hex (default 0%N millis) +:+ "-" +:+ display process_id.

Record ProcessIdSource : Type := { run_id : string; operations : Z; turns : Z }.
Definition process_id_source_new (run_id : string) : ProcessIdSource :=
  {| run_id := run_id; operations := 0; turns := 0 |}.
(** [fetch_add] wraps. *)
Definition next_operation_id (self : ProcessIdSource) : ProcessIdSource * string :=
  ({| run_id := run_id self; operations := (operations self + 1) mod 2 ^ 64; turns := turns self |},
   run_id self +:+ "-op-" +:+ display (operations self)).
Definition next_turn_id (self : ProcessIdSource) : ProcessIdSource * string :=
  ({| run_id := run_id self; operations := operations self; turns := (turns self + 1) mod 2 ^ 64 |},
   run_id self +:+ "-turn-" +:+ display (turns self)).

End ids.

(** ** config/watch.rs *)
Module config_watch.

Record ResolveFlags : Type := {
  rf_model : option string;
  rf_data_dir : option string;
  rf_system : option string;
  rf_max_tool_rounds : option Z;
  rf_reasoning_effort : option string;
  rf_verbose : bool;
  rf_quiet : bool
}.
Definition from_cli (cli : Cli) : ResolveFlags :=
  {| rf_model := cli_model cli; rf_data_dir := cli_data_dir cli; rf_system := cli_system cli;
     rf_max_tool_rounds := cli_max_tool_rounds cli;
     rf_reasoning_effort := cli_reasoning_effort cli; rf_verbose := cli_verbose cli;
     rf_quiet := cli_quiet cli |}.
Definition to_cli (self : ResolveFlags) : Cli :=
  {| cli_command := None; cli_message := None; cli_session := None; cli_model := rf_model self;
     cli_data_dir := rf_data_dir self; cli_system := rf_system self;
     cli_max_tool_rounds := rf_max_tool_rounds self;
     cli_reasoning_effort := rf_reasoning_effort self; cli_image := [];
     cli_verbose := rf_verbose self; cli_quiet := rf_quiet self |}.

Section reload.
Context {sdk : Sdk} {sdk_request : SdkRequest} {http : HttpHeaders} {patch : ProviderPatch}.
Context {hint_fields : CacheHintFields} {show : ShowF32} {toml : Toml}.

Definition reload_settings (env : Environment) (flags : ResolveFlags)
    : outcome UsageError (Settings * list string) := load_and_resolve env (to_cli flags).
End reload.

Section watch.
(** What a reload gives, and the modification times of the two files. *)
Context {Reload : Type}.

Record FileStamps : Type := { stamp_global : option Z; stamp_project : option Z }.
#[export] Instance FileStamps_eq_dec : EqDecision FileStamps.
Proof. solve_decision. Defined.

(** Where the loop waits: between two polls, or for the files to settle. *)
Inductive WatchState : Type :=
| Polling (last : FileStamps)
| Settling (last stamps : FileStamps)
| Stopped.

(** The end of a wait: a shutdown, or its time with the stamps captured then;
    what is captured when a settling begins, and what a reload gives, come with
    it. *)
Inductive WatchEvent : Type :=
| WaitStopped
| WaitEnded (now again : FileStamps) (reload : Reload).

(** One wait and what the loop does up to the next one; a reload is handed on
    at once. *)
Definition watch_step (s : WatchState) (e : WatchEvent) : WatchState * option Reload :=
  match s, e with
  | Stopped, _ => (Stopped, None)
  | _, WaitStopped => (Stopped, None)
  | Polling last, WaitEnded now again _ =>
      if now == last then (Polling last, None) else (Settling last again, None)
  | Settling last stamps, WaitEnded now again reload =>
      if now == stamps then (Polling stamps, Some reload) else (Settling last again, None)
  end.
End watch.
Arguments WatchEvent : clear implicits.

End config_watch.
Import config_watch.

(** ** assembly.rs *)
Module assembly.

Section assembly.
Context {sdk : Sdk} {sdk_request : SdkRequest} {http : HttpHeaders} {patch : ProviderPatch}.
Context {sdk_assembly : SdkAssembly}.
(** The replay store, and the two policies of the transport. *)
Context {S : Type} (TRANSPORT_RETRY_POLICY : RetryPolicy)
        (timeout_policy : option Z → option Z → option Z → TimeoutPolicy).

(** [build_model], up to [build]. *)
Definition model_builder (deployment : Deployment) (model : string) (replay_store : S)
    : PhiloModelBuilder (S := S) :=
  {| builder_provider := dep_provider deployment; builder_protocol := dep_protocol deployment;
     builder_model := model; endpoint := dep_endpoint deployment;
     credential :=
       Some (match dep_credential deployment with
             | EnvName name => assemble.Environment name
             | Literal secret => Static secret
             end);
     request_headers := dep_request_headers deployment; assemble.replay_store := Some replay_store;
     compat := dep_compat deployment;
     chat_reasoning_format := dep_chat_reasoning_format deployment;
     continuation_policy := dep_continuation_policy deployment;
     cache_policy := dep_cache_policy deployment; retry_policy := Some TRANSPORT_RETRY_POLICY;
     timeouts :=
       Some (timeout_policy None (dep_response_head_timeout deployment)
               (dep_stream_idle_timeout deployment)) |}.
Definition build_model (deployment : Deployment) (model : string) (replay_store : S)
    : outcome string (Client * CallTarget) :=
  build_default (model_builder deployment model replay_store).

Definition effective_reasoning (flag_set : bool) (settings : Settings) (deployment : Deployment)
    : option ReasoningEffort :=
  if flag_set then st_reasoning_effort settings
  else match st_reasoning_effort settings with
       | Some effort => Some effort
       | None => dep_default_reasoning deployment
       end.
Definition effective_max_output (deployment : Deployment) : option Z :=
  dep_max_output_tokens deployment.

Definition profile_for (env : Environment) (settings : Settings)
    : outcome UsageError coding_profile.CodingProfile :=
  match current_dir env with
  | inl error => Err ("cannot resolve the working directory: " +:+ error)
  | inr workspace_root =>
      let profile := coding_profile.profile_new workspace_root in
      Ok (match st_shell_timeout_secs settings with
          | Some seconds => coding_profile.with_shell_timeout_secs profile seconds
          | None => profile
          end)
  end.

Definition runtime_config_for (env : Environment) (cli : Cli) (settings : Settings)
    (deployment : Deployment) (model_target : string) : outcome UsageError RuntimeConfig :=
  let? _ := profile_for env settings in
  let base := coding_profile.runtime_config model_target in
  Ok {| system_prompt := default (system_prompt base) (cli_system cli);
        runtime.model_target := runtime.model_target base;
        generation :=
          {| max_output_tokens :=
               default (max_output_tokens (generation base)) (effective_max_output deployment);
             temperature := temperature (generation base);
             reasoning_effort :=
               match effective_reasoning (tool_path.is_some (cli_reasoning_effort cli)) settings
                       deployment with
               | Some effort => Some effort
               | None => reasoning_effort (generation base)
               end;
             tool_choice := tool_choice (generation base) |};
        max_tool_rounds := default (max_tool_rounds base) (st_max_tool_rounds settings);
        max_parallel_tool_calls :=
          default (max_parallel_tool_calls base) (st_max_parallel_tool_calls settings);
        operation_timeout := st_operation_timeout settings;
        tool_cancel_grace := tool_cancel_grace base; compaction := st_compaction settings;
        recovery := st_recovery settings |}.

(** The tools of a generation: the registry of the profile behind the pool. *)
Record ToolExecutor : Type := {
  executor_profile : coding_profile.CodingProfile;
  executor_pool : tool_blocking.BlockingPool
}.
Definition blocking_tool_executor (env : Environment) (settings : Settings)
    (max_parallel_tool_calls : Z) : outcome UsageError ToolExecutor :=
  let? profile := profile_for env settings in
  Ok {| executor_profile := profile;
        executor_pool :=
          tool_blocking.pool_new (Z.to_nat (Z.max max_parallel_tool_calls 1))
            tool_blocking.DEFAULT_BLOCKING_TOOL_QUEUE |}.

Record AssembledGeneration : Type := {
  as_model : Client * CallTarget;
  as_tools : ToolExecutor;
  as_runtime_config : RuntimeConfig;
  as_model_name : string;
  as_provider : option string;
  as_model_id : string;
  as_image_input : bool
}.

Record AssemblerState : Type := {
  flags : ResolveFlags;
  settings : Settings;
  replay_store : S;
  data_dir : string;
  reload_fault : option string
}.
Definition assembler_new (flags : ResolveFlags) (settings : Settings) (replay_store : S)
    : AssemblerState :=
  {| flags := flags; settings := settings; replay_store := replay_store;
     data_dir := st_data_dir settings; reload_fault := None |}.
Definition store_settings (settings : Settings) (self : AssemblerState) : AssemblerState :=
  {| flags := flags self; settings := settings; replay_store := replay_store self;
     data_dir := data_dir self; reload_fault := reload_fault self |}.
Definition set_fault (fault : option string) (self : AssemblerState) : AssemblerState :=
  {| flags := flags self; settings := settings self; replay_store := replay_store self;
     data_dir := data_dir self; reload_fault := fault |}.
Definition set_reload_fault (message : string) (self : AssemblerState) : AssemblerState :=
  set_fault (Some message) self.
Definition note_reload_dispatch_failure (reason : string) (self : AssemblerState) : AssemblerState :=
  match reload_fault self with
  | None => set_fault (Some ("config not applied: " +:+ reason)) self
  | Some _ => self
  end.

Definition with_install_effort (effort : option ReasoningEffort) (c : RuntimeConfig) : RuntimeConfig :=
  match effort with None => c | Some effort => service.with_effort effort c end.

(** [assemble_sync]: the fault of a reload is reported once. *)
Definition assemble_sync (env : Environment) (request : service.AssembleRequest)
    (self : AssemblerState) : AssemblerState * outcome string AssembledGeneration :=
  match reload_fault self with
  | Some message => (set_fault None self, Err message)
  | None =>
      (self,
       let current := settings self in
       if bool_decide (st_data_dir current ≠ data_dir self) then
         Err "data_dir cannot be changed without restarting"
       else
         let? d := deployment_for current (service.assemble_name request) in
         let '(deployment, wire_model) := d in
         let display_name :=
           match find_choice (dep_model deployment) (st_models current) with
           | Some choice => mc_display_name choice
           | None => service.assemble_name request
           end in
         let? runtime_config :=
           runtime_config_for env (to_cli (flags self)) current deployment
             (service.assemble_name request) in
         let runtime_config := with_install_effort (service.assemble_effort request) runtime_config in
         let? model := build_model deployment wire_model (replay_store self) in
         let? tools :=
           blocking_tool_executor env current (max_parallel_tool_calls runtime_config) in
         Ok {| as_model := model; as_tools := tools; as_runtime_config := runtime_config;
               as_model_name := display_name; as_provider := Some (dep_provider deployment);
               as_model_id := dep_model deployment; as_image_input := dep_image_input deployment |})
  end.

Definition list_models (self : AssemblerState) : list service.ModelListingEntry :=
  (λ choice,
     {| service.ml_id := mc_id choice; service.ml_provider := mc_provider_id choice;
        service.ml_model := mc_display_name choice;
        service.ml_reasoning_tiers := effort_label <$> mc_reasoning_tiers choice |})
    <$> st_models (settings self).

(** *** Reloads *)
Context {hints_eq : EqDecision PromptCacheHints}.

Definition cache_policy_eqb (a b : ModelCachePolicy) : bool :=
  bool_decide (retention a = retention b) && bool_decide (hints a = hints b).
Definition compaction_eqb (a b : CompactionConfig) : bool :=
  bool_decide (context_budget a = context_budget b)
  && SpecFloat.SFeqb (auto_threshold a) (auto_threshold b)
  && bool_decide (keep_recent_turns a = keep_recent_turns b)
  && bool_decide (estimate_bytes_per_token a = estimate_bytes_per_token b).
Definition recovery_eqb (a b : RecoveryConfig) : bool :=
  bool_decide (enabled a = enabled b) && bool_decide (max_retries a = max_retries b)
  && bool_decide (backoff_base_ms a = backoff_base_ms b)
  && bool_decide (backoff_max_ms a = backoff_max_ms b).

Definition header_names_of (headers : ModelRequestHeaders) : list string := names headers.

Definition deployment_fields_changed (left right : Deployment) : bool :=
  (dep_provider left != dep_provider right) || (dep_endpoint left != dep_endpoint right)
  || (dep_protocol left != dep_protocol right) || (dep_credential left != dep_credential right)
  || (dep_compat left != dep_compat right)
  || negb (bool_decide (option_map format_str (dep_chat_reasoning_format left)
                        = option_map format_str (dep_chat_reasoning_format right)))
  || (dep_continuation_policy left != dep_continuation_policy right)
  || (dep_max_output_tokens left != dep_max_output_tokens right)
  || (dep_default_reasoning left != dep_default_reasoning right)
  || negb (bool_decide (dep_image_input left = dep_image_input right))
  || negb (cache_policy_eqb (dep_cache_policy left) (dep_cache_policy right))
  || (dep_response_head_timeout left != dep_response_head_timeout right)
  || (dep_stream_idle_timeout left != dep_stream_idle_timeout right)
  || (header_names_of (dep_request_headers left) != header_names_of (dep_request_headers right)).

Definition ui_entry (key : string) : bool := bool_decide (key ∈ ["verbosity"; "show_reasoning"]).
Definition non_ui_entries (settings : Settings) : list EffectiveSetting :=
  List.filter (λ entry, negb (ui_entry (row_key entry))) (st_entries settings).

Definition generation_fields_changed (left right : Settings) : bool :=
  match deployment_for left (dep_model (st_deployment left)),
        deployment_for right (dep_model (st_deployment right)) with
  | Ok (left_deployment, _), Ok (right_deployment, _) =>
      (dep_model (st_deployment left) != dep_model (st_deployment right))
      || deployment_fields_changed left_deployment right_deployment
      || negb (compaction_eqb (st_compaction left) (st_compaction right))
      || (st_reasoning_effort left != st_reasoning_effort right)
      || (st_max_tool_rounds left != st_max_tool_rounds right)
      || (st_max_parallel_tool_calls left != st_max_parallel_tool_calls right)
      || (st_operation_timeout left != st_operation_timeout right)
      || (st_shell_timeout_secs left != st_shell_timeout_secs right)
      || negb (recovery_eqb (st_recovery left) (st_recovery right))
      || (non_ui_entries left != non_ui_entries right)
  | _, _ => true
  end.

Definition set_reasoning_effort (effort : option ReasoningEffort) (s : Settings) : Settings :=
  {| st_deployment := st_deployment s; st_models := st_models s; st_aliases := st_aliases s;
     st_data_dir := st_data_dir s; st_context_window := st_context_window s;
     st_compaction := st_compaction s; st_reasoning_effort := effort;
     st_max_tool_rounds := st_max_tool_rounds s;
     st_max_parallel_tool_calls := st_max_parallel_tool_calls s;
     st_operation_timeout := st_operation_timeout s;
     st_shell_timeout_secs := st_shell_timeout_secs s; st_recovery := st_recovery s;
     st_verbosity := st_verbosity s; st_show_reasoning := st_show_reasoning s;
     st_entries := st_entries s |}.

Definition only_reasoning_changed (left right : Settings) : bool :=
  if bool_decide (st_reasoning_effort left = st_reasoning_effort right) then false
  else negb (generation_fields_changed left
               (set_reasoning_effort (st_reasoning_effort left) right)).

Definition frontend_effort (effort : ReasoningEffort) : service.FrontendReasoningEffort :=
  match effort with
  | Minimal => service.EffortMinimal | Low => service.EffortLow | Medium => service.EffortMedium
  | High => service.EffortHigh | Xhigh => service.EffortXhigh | Max => service.EffortMax
  end.

(** The command that is sent, and what the answer of the client makes of the
    state. *)
Definition enqueue_generation_command
    (dispatch : service.FrontendCommand → service.CommandDispatch service.FrontendRequestId)
    (command : service.FrontendCommand) (self : AssemblerState)
    : AssemblerState * option service.FrontendCommand :=
  (match dispatch command with
   | service.Enqueued _ => self
   | service.Backpressured => note_reload_dispatch_failure "command lane full" self
   | service.Disconnected lane => note_reload_dispatch_failure (lane +:+ " disconnected") self
   end, Some command).

Definition apply_config_reload
    (dispatch : service.FrontendCommand → service.CommandDispatch service.FrontendRequestId)
    (result : outcome UsageError (Settings * list string)) (self : AssemblerState)
    : AssemblerState * option service.FrontendCommand :=
  let install self :=
    enqueue_generation_command dispatch
      (service.InstallModel (dep_model (st_deployment (settings self))) None) self in
  match result with
  | Ok (reloaded, _) =>
      if bool_decide (st_data_dir reloaded ≠ data_dir self) then
        install (set_reload_fault
                   "config not reloaded: data_dir cannot be changed without restarting" self)
      else
        let previous := settings self in
        let self := store_settings reloaded self in
        if negb (generation_fields_changed previous reloaded) then (self, None)
        else
          match (if only_reasoning_changed previous reloaded then
                   match deployment_for reloaded (dep_model (st_deployment reloaded)) with
                   | Ok (deployment, _) =>
                       effective_reasoning (tool_path.is_some (rf_reasoning_effort (flags self)))
                         reloaded deployment
                   | _ => None
                   end
                 else None) with
          | Some effort =>
              enqueue_generation_command dispatch
                (service.SetReasoning (frontend_effort effort)) self
          | None => install self
          end
  | Err error => install (set_reload_fault ("config not reloaded: " +:+ error) self)
  | Panic => (self, None)
  end.
End assembly.

Definition shutdown_exit_code (requested : Z) (pending : list string) : Z :=
  if negb (is_nil pending) && (requested =? 0)%Z then 1 else requested.

End assembly.

(** The single builder thread of generations. A step is one access of a flag, of
    the mailbox or of the wake channel. *)
Module build_pool.
Section pool.
Context {T : Type}.

(** Where the thread is: before it looks into the mailbox, building, with a
    build that panicked, behind an empty mailbox, waiting for a wake-up, gone. *)
Inductive Worker : Type :=
| Idle | Builds (job : nat) | Panicked (job : nat) | Empty | Waits | Gone.

(** Where a call of [submit] is: behind the check of the flags, or with its job
    in the mailbox and the wake-up not yet sent. *)
Inductive Caller : Type := Checked | Placed.

(** How far a shutdown is: not begun, flag set, mailbox cleared, channel closed. *)
Inductive Closing : Type := Open | FlagSet | Cleared | HungUp.

Record State : Type := {
  pending : option nat;
  closing : Closing;
  unavailable : bool;
  wakes : nat;
  worker : Worker;
  callers : gmap nat Caller;
  replies : gmap nat (option (outcome string T))
}.
Definition pool_new : State :=
  {| pending := None; closing := Open; unavailable := false; wakes := 0; worker := Idle;
     callers := ∅; replies := ∅ |}.

Definition set_pending (job : option nat) (s : State) : State :=
  {| pending := job; closing := closing s; unavailable := unavailable s; wakes := wakes s;
     worker := worker s; callers := callers s; replies := replies s |}.
Definition set_closing (c : Closing) (s : State) : State :=
  {| pending := pending s; closing := c; unavailable := unavailable s; wakes := wakes s;
     worker := worker s; callers := callers s; replies := replies s |}.
Definition set_unavailable (s : State) : State :=
  {| pending := pending s; closing := closing s; unavailable := true; wakes := wakes s;
     worker := worker s; callers := callers s; replies := replies s |}.
Definition set_wakes (n : nat) (s : State) : State :=
  {| pending := pending s; closing := closing s; unavailable := unavailable s; wakes := n;
     worker := worker s; callers := callers s; replies := replies s |}.
Definition set_worker (w : Worker) (s : State) : State :=
  {| pending := pending s; closing := closing s; unavailable := unavailable s; wakes := wakes s;
     worker := w; callers := callers s; replies := replies s |}.
Definition set_callers (callers : gmap nat Caller) (s : State) : State :=
  {| pending := pending s; closing := closing s; unavailable := unavailable s; wakes := wakes s;
     worker := worker s; callers := callers; replies := replies s |}.
(** The reply of a job: [None] while its receiver waits. *)
Definition set_reply (job : nat) (r : option (outcome string T)) (s : State) : State :=
  {| pending := pending s; closing := closing s; unavailable := unavailable s; wakes := wakes s;
     worker := worker s; callers := callers s; replies := <[job := r]> (replies s) |}.
Definition answer (job : nat) (r : outcome string T) (s : State) : State := set_reply job (Some r) s.

Definition is_closed (s : State) : bool := match closing s with Open => false | _ => true end.
(** The channel is there until the shutdown takes its sender. *)
Definition send_wake (s : State) : State :=
  match closing s with HungUp => s | _ => set_wakes (S (wakes s)) s end.

(** [pending.replace(job)] or [pending.take()], the old job answered. *)
Definition swap_pending (job : option nat) (message : string) (s : State) : State :=
  set_pending job (match pending s with Some old => answer old (Err message) s | None => s end).

(** [submit]: the check of the flags, the mailbox, the wake-up. *)
Definition submit_check (job : nat) (s : State) : State :=
  if is_closed s || unavailable s then
    answer job (Err "generation build pool is unavailable") s
  else set_callers (<[job := Checked]> (callers s)) (set_reply job None s).
Definition submit_place (job : nat) (s : State) : State :=
  set_callers (<[job := Placed]> (callers s))
    (swap_pending (Some job) "generation assembly superseded" s).
Definition submit_wake (job : nat) (s : State) : State :=
  send_wake (set_callers (delete job (callers s)) s).

Inductive step (s : State) : State → Prop :=
| step_check job : replies s !! job = None → step s (submit_check job s)
| step_place job : callers s !! job = Some Checked → step s (submit_place job s)
| step_wake job : callers s !! job = Some Placed → step s (submit_wake job s)
| step_close : closing s = Open → step s (set_closing FlagSet s)
| step_clear :
    closing s = FlagSet →
    step s (set_closing Cleared (swap_pending None "generation build pool is shutting down" s))
| step_hang_up : closing s = Cleared → step s (set_closing HungUp (send_wake s))
| step_take job :
    worker s = Idle → pending s = Some job → step s (set_worker (Builds job) (set_pending None s))
| step_nothing : worker s = Idle → pending s = None → step s (set_worker Empty s)
| step_built job r :
    worker s = Builds job → r ≠ Panic → step s (set_worker Idle (answer job r s))
| step_panic job :
    worker s = Builds job → step s (set_worker (Panicked job) (set_unavailable s))
| step_panic_reply job :
    worker s = Panicked job →
    step s (set_worker Gone (answer job (Err "generation build worker panicked") s))
| step_empty :
    worker s = Empty → step s (set_worker (if is_closed s then Gone else Waits) s)
| step_woken n : worker s = Waits → wakes s = S n → step s (set_worker Idle (set_wakes n s))
| step_no_sender :
    worker s = Waits → wakes s = 0 → closing s = HungUp → step s (set_worker Gone s).
End pool.
Arguments State : clear implicits.
End build_pool.

(** ** command/ctrl_c.rs *)
Module ctrl_c.

Definition FORCED_EXIT_CODE : Z := 130.

Inductive CtrlCPhase : Type :=
| Idle
| Busy (operation_id : option string)
| Cancelling (operation_id : option string).

Inductive CtrlCDecision : Type :=
| UserExit | Cancel (operation_id : string) | WaitForId | ForcedExit (code : Z).

Definition observe_busy (operation_id : string) (self : CtrlCPhase) : CtrlCPhase :=
  match self with
  | Cancelling None => Cancelling (Some operation_id)
  | Cancelling (Some id) =>
      if id == operation_id then Cancelling (Some operation_id) else Busy (Some operation_id)
  | _ => Busy (Some operation_id)
  end.
Definition observe_idle (self : CtrlCPhase) : CtrlCPhase := Idle.
Definition on_ctrl_c (self : CtrlCPhase) : CtrlCPhase * CtrlCDecision :=
  match self with
  | Idle => (Idle, UserExit)
  | Busy (Some id) => (Cancelling (Some id), Cancel id)
  | Busy None => (Cancelling None, WaitForId)
  | Cancelling _ => (self, ForcedExit FORCED_EXIT_CODE)
  end.
Definition pending_cancel_id (self : CtrlCPhase) : option string :=
  match self with Cancelling id => id | _ => None end.

(** [take_pulses]: the counter of pulses and how many were seen. *)
Definition take_pulses (now seen : Z) : Z * Z := (Z.max (now - seen) 0, now).
Definition pulse (n : Z) : Z := Z.min (n + 1) u64_max.

End ctrl_c.
Import ctrl_c.

(** ** command/oneshot/ *)
Module oneshot.

(** *** message.rs *)

Definition media_type_for_extension (extension : string) : option string :=
  let e := std_tools.to_ascii_lowercase extension in
  if e == "png" then Some "image/png"
  else if (e == "jpg") || (e == "jpeg") then Some "image/jpeg"
  else if e == "gif" then Some "image/gif"
  else if e == "webp" then Some "image/webp"
  else None.

(** [Path::extension] of the path as text; the file system's answer is the
    argument. *)
Definition path_extension (path : string) : option string :=
  tool_path.file_name (tool_path.components path) ≫= replay_store.extension.

Definition load_image_part (read : string → string + list Byte.byte) (path : string)
    : outcome UsageError UserPart :=
  match path_extension path with
  | None =>
      Err ("cannot infer an image media type: '" +:+ path +:+ "' has no usable extension")
  | Some extension =>
      match media_type_for_extension extension with
      | None =>
          Err ("unsupported image extension '." +:+ extension +:+ "' for '" +:+ path
               +:+ "': expected png, jpg, jpeg, gif, or webp")
      | Some media_type =>
          match read path with
          | inl kind => Err ("cannot read image '" +:+ path +:+ "': " +:+ kind)
          | inr bytes => Ok (UserImage media_type bytes)
          end
      end
  end.

Definition debug_invalid (e : InvalidUserMessage) : string :=
  match e with EmptyParts => "EmptyParts" | EmptyTextPart => "EmptyTextPart" end.
Definition build_message (read : string → string + list Byte.byte) (cli : Cli) (message : string)
    : outcome UsageError UserMessage :=
  let? images :=
    try_fold (λ acc path, let? part := load_image_part read path in Ok (acc ++ [part])) []
      (cli_image cli) in
  map_err (λ e, "invalid message: " +:+ debug_invalid e) (from_parts (images ++ [UserText message])).

(** *** drive.rs *)

Definition submit_part (acc : string * list service.FrontendAttachment) (part : UserPart)
    : string * list service.FrontendAttachment :=
  let '(draft, attachments) := acc in
  match part with
  | UserText text => ((if str_is_empty draft then draft else draft +:+ String "010" "") +:+ text, attachments)
  | UserImage media_type bytes =>
      (draft, attachments ++ [{| service.attachment_media_type := media_type;
                                 service.attachment_bytes := bytes |}])
  end.
Definition submit_command (message : UserMessage) : service.FrontendCommand :=
  let '(draft, attachments) := foldl submit_part ("", []) (parts message) in
  service.Submit draft attachments.

Record DriveReport : Type := { report_code : Z; report_forced : bool }.
Definition graceful (code : Z) : DriveReport := {| report_code := code; report_forced := false |}.
Definition forced (code : Z) : DriveReport := {| report_code := code; report_forced := true |}.

(** What a run does besides its report: commands to the service, updates and
    notices shown. *)
Inductive Output : Type :=
| Command (command : service.FrontendCommand)
| Shows (update : service.FrontendUpdateKind)
| CancelNotice
| ForcedNotice.

(** What the loop receives: an update, the end of the service's channel, the end
    of the long wait, or so many new pulses. *)
Inductive Received : Type :=
| Update (kind : service.FrontendUpdateKind)
| Disconnected
| Timeout
| Pulses (count : nat).

Record Drive : Type := {
  phase : CtrlCPhase;
  operation_id : option string;
  settled : option (string * string);
  rejected : bool;
  fallback_idle : bool;
  cancel_notice : bool
}.
Definition drive_new (submitting : bool) : Drive :=
  {| phase := if submitting then Busy None else Idle; operation_id := None; settled := None;
     rejected := false; fallback_idle := false; cancel_notice := false |}.

Definition set_phase (phase : CtrlCPhase) (d : Drive) : Drive :=
  {| phase := phase; operation_id := operation_id d; settled := settled d; rejected := rejected d;
     fallback_idle := fallback_idle d; cancel_notice := cancel_notice d |}.
Definition set_operation_id (id : option string) (d : Drive) : Drive :=
  {| phase := phase d; operation_id := id; settled := settled d; rejected := rejected d;
     fallback_idle := fallback_idle d; cancel_notice := cancel_notice d |}.
Definition set_settled (v : string * string) (d : Drive) : Drive :=
  {| phase := phase d; operation_id := operation_id d; settled := Some v; rejected := rejected d;
     fallback_idle := fallback_idle d; cancel_notice := cancel_notice d |}.
Definition set_rejected (d : Drive) : Drive :=
  {| phase := phase d; operation_id := operation_id d; settled := settled d; rejected := true;
     fallback_idle := fallback_idle d; cancel_notice := cancel_notice d |}.
Definition set_fallback_idle (d : Drive) : Drive :=
  {| phase := phase d; operation_id := operation_id d; settled := settled d;
     rejected := rejected d; fallback_idle := true; cancel_notice := cancel_notice d |}.
Definition set_cancel_notice (d : Drive) : Drive :=
  {| phase := phase d; operation_id := operation_id d; settled := settled d;
     rejected := rejected d; fallback_idle := fallback_idle d; cancel_notice := true |}.

Definition busy (id : string) (d : Drive) : Drive :=
  set_phase (observe_busy id (phase d)) (set_operation_id (Some id) d).
Definition show_cancel_notice (d : Drive) : Drive * list Output :=
  if cancel_notice d then (d, []) else (set_cancel_notice d, [CancelNotice]).

Definition on_update (submitting : bool) (kind : service.FrontendUpdateKind) (d : Drive)
    : Drive * list Output :=
  match kind with
  | service.OperationAccepted id _ _ =>
      let waiting := match phase d with Cancelling None => true | _ => false end in
      let d := busy id d in
      (d, match pending_cancel_id (phase d) with
          | Some pending => if waiting then [Command (service.CancelOperation pending)] else []
          | None => []
          end)
  | service.CommandRejected _ => (set_rejected d, [Shows kind])
  | service.SnapshotReady snapshot =>
      if submitting then (d, [Shows kind])
      else
        (match service.fsn_availability snapshot with
         | service.FrontIdle =>
             if service.live_is_empty (service.fsn_live snapshot)
             then set_phase (observe_idle (phase d)) (set_fallback_idle d)
             else d
         | service.FrontBusy id => busy id d
         | service.FrontCompacting _ => d
         end, [])
  | service.AvailabilityChanged (service.FrontBusy id) _ => (busy id d, [])
  | service.AvailabilityChanged service.FrontIdle _ =>
      (set_phase (observe_idle (phase d)) (set_operation_id None d), [])
  | service.OperationEvent (service.FeOperationStarted id)
  | service.OperationEvent (service.FeOperationQueued id) => (busy id d, [Shows kind])
  | service.OperationEvent (service.FeOperationSettled _ _ status durability _) =>
      (set_phase (observe_idle (phase d)) (set_settled (status, durability) d), [Shows kind])
  | _ => (d, [Shows kind])
  end.

(** The pulses that arrived, one after the other, up to a report. *)
Fixpoint on_pulses (submitting : bool) (count : nat) (d : Drive)
    : Drive * list Output * option DriveReport :=
  match count with
  | 0 => (d, [], None)
  | S count =>
      let '(phase, decision) := on_ctrl_c (phase d) in
      let d := set_phase phase d in
      let continue d outputs :=
        let '(d, more, report) := on_pulses submitting count d in (d, outputs ++ more, report) in
      match decision with
      | UserExit => (d, [], Some (graceful (if submitting then 130 else 1)))
      | Cancel id =>
          let '(d, notice) := show_cancel_notice d in
          continue d (notice ++ [Command (service.CancelOperation id)])
      | WaitForId =>
          let '(d, notice) := show_cancel_notice d in
          continue d (notice ++ match operation_id d with
                                | Some id => [Command (service.CancelOperation id)]
                                | None => []
                                end)
      | ForcedExit code => (d, [ForcedNotice], Some (forced code))
      end
  end.

Definition on_received (submitting : bool) (r : Received) (d : Drive)
    : Drive * list Output * option DriveReport :=
  match r with
  | Update kind => let '(d, outputs) := on_update submitting kind d in (d, outputs, None)
  | Disconnected => (d, [], Some (graceful 1))
  | Timeout => (d, [], None)
  | Pulses count => on_pulses submitting count d
  end.

(** The report behind the loop. *)
Definition final_report (success_exit : Z) (d : Drive) : DriveReport :=
  if rejected d || fallback_idle d then graceful 1
  else
    match settled d with
    | Some (status, _) =>
        if status == "Cancelled" then graceful 130
        else if status == "Succeeded" then graceful success_exit
        else graceful 1
    | None => graceful 1
    end.
Definition loop_over (d : Drive) : bool :=
  tool_path.is_some (settled d) || rejected d || fallback_idle d.

(** The loop over what is received; without a report it still waits. *)
Fixpoint drive_loop (submitting : bool) (success_exit : Z) (received : list Received) (d : Drive)
    : Drive * list Output * option DriveReport :=
  if loop_over d then (d, [], Some (final_report success_exit d))
  else
    match received with
    | [] => (d, [], None)
    | r :: received =>
        match on_received submitting r d with
        | (d, outputs, Some report) => (d, outputs, Some report)
        | (d, outputs, None) =>
            let '(d, more, report) := drive_loop submitting success_exit received d in
            (d, outputs ++ more, report)
        end
    end.

(** [wait_session_loaded]: the session is there, it is not, or it still waits;
    [expired] says whether the deadline has passed at a timeout. *)
Fixpoint wait_session_loaded (session_id : string) (received : list (Received * bool))
    : option (outcome Z unit * list (Received * bool)) :=
  match received with
  | [] => None
  | (r, expired) :: received =>
      match r with
      | Update (service.SessionLoaded loaded _) =>
          if loaded == session_id then Some (Ok tt, received)
          else wait_session_loaded session_id received
      | Update (service.CommandRejected _) => Some (Err 1%Z, received)
      | Disconnected => Some (Err 1%Z, received)
      | Timeout =>
          if expired then Some (Err 1%Z, received) else wait_session_loaded session_id received
      | _ => wait_session_loaded session_id received
      end
  end.

End oneshot.

(** ** command/interactive/ *)
Module supervisor.

(** *** The restart budget; stamps are instants in milliseconds. *)
Definition FRONTEND_RESTART_BUDGET : nat := 3.
Definition FRONTEND_RESTART_WINDOW : Z := 60000.

Definition allow (max : nat) (window now : Z) (stamps : list Z) : list Z * bool :=
  let stamps := List.filter (λ stamp, (Z.max (now - stamp) 0 <? window)%Z) stamps in
  if bool_decide (max ≤ length stamps) then (stamps, false) else (stamps ++ [now], true).

Inductive DetachFollowUp : Type := Continue | UncertainCleanup | ServiceUnavailable.
Definition detach_follow_up (detach : option service.DetachError) : DetachFollowUp :=
  match detach with
  | None | Some service.StaleLease => Continue
  | Some service.DetachDeadlineExceeded | Some service.DetachBackpressured => UncertainCleanup
  | Some service.DetachServiceGone | Some service.DetachDisconnected => ServiceUnavailable
  end.

(** How a run of the terminal interface ends. *)
Inductive TuiOutcome : Type :=
| TuiUserExit | ProcessShutdownRequested | FrontendRestartRequested
| FallbackRequested | ForcedExitRequested (code : Z).

(** A registered run: not attached, or ended - with its outcome, or by a panic -
    and detached. *)
Inductive Session : Type :=
| AttachFailed
| Finished (output : option TuiOutcome) (detach : option service.DetachError) (now : Z).

(** What the supervisor does at last. *)
Inductive Ending : Type :=
| Shutdown (code : Z) (at_once : bool)
| UncertainShutdown
| Fallback.

(** The loop over the runs; [None] while the next run goes on. *)
Fixpoint run (sessions : list Session) (stamps : list Z) : option Ending :=
  match sessions with
  | [] => None
  | AttachFailed :: _ => Some (Shutdown 1 false)
  | Finished output detach now :: sessions =>
      match detach_follow_up detach with
      | UncertainCleanup => Some UncertainShutdown
      | ServiceUnavailable => Some (Shutdown 1 false)
      | Continue =>
          match default FrontendRestartRequested output with
          | TuiUserExit | ProcessShutdownRequested => Some (Shutdown 0 false)
          | FrontendRestartRequested =>
              let '(stamps, allowed) :=
                allow FRONTEND_RESTART_BUDGET FRONTEND_RESTART_WINDOW now stamps in
              if allowed then run sessions stamps else Some Fallback
          | FallbackRequested => Some Fallback
          | ForcedExitRequested code => Some (Shutdown code true)
          end
      end
  end.

End supervisor.
