(* ===== verification/CliProofs.v ===== *)
(** What the command line promises (src/crates/philo-cli/src/).

    Module [cli_proofs]: a layer is read independently of the layers below it;
    what a loaded configuration satisfies ([file_ok]); the settings that are made
    of it, by inversion of the computations that record rows; that literal keys
    do not influence what is shown, by commutation of the resolution with hiding
    them; and what the assembler keeps over reloads. Module [watch_proofs]: a
    change that lasts is reloaded. Module [pool_proofs]: the invariant of the
    builder thread and its progress. Module [run_proofs]: what is known of a run
    behind what it has received. *)

From S2P Require Import Prelude RustStr Session Runtime ReplayStore Replay ModelErrors ModelRequest.
From S2P Require Import ModelAdapter ToolPath ToolFiles CodingProfile Service CliFile CliConfig CliRun.
From Stdlib Require Import Ascii SpecFloat Sorted.
Import model_request.

Module cli_proofs.

(** ** Folds that commute with a map of the state *)
Section natural.
Context {E S A : Type} (F : S → S).

Lemma try_fold_natural (step : S → A → outcome E S) l s :
  (∀ s a, step (F s) a = F <$> step s a) → try_fold step (F s) l = F <$> try_fold step s l.
Proof.
  intros Hs. revert s. induction l as [|a l IH]; intros s; [done|]. cbn [try_fold].
  rewrite Hs. destruct (step s a); cbn; [apply IH|done..].
Qed.
End natural.

(** ** Maps in the order of their keys *)
Section in_order.
Import config_file.
Context {A : Type}.
Implicit Types m : gmap string A.

#[export] Instance key_le_total : Total (key_le (A := A)).
Proof. intros a b. apply (total String.le). Qed.
#[export] Instance key_le_trans : Transitive (key_le (A := A)).
Proof. intros a b c. unfold key_le. apply (transitivity (R := String.le)). Qed.

Lemma in_order_perm m : in_order m ≡ₚ map_to_list m.
Proof. apply merge_sort_Permutation. Qed.
Lemma elem_of_in_order m e : e ∈ in_order m ↔ m !! e.1 = Some e.2.
Proof. rewrite in_order_perm. destruct e. apply elem_of_map_to_list. Qed.
Lemma in_order_keys m : NoDup (in_order m).*1.
Proof. rewrite in_order_perm. apply NoDup_fst_map_to_list. Qed.

(** Only one list has the entries in order. *)
Lemma in_order_unique m l : l ≡ₚ map_to_list m → StronglySorted key_le l → l = in_order m.
Proof.
  intros Hp Hl. apply (StronglySorted_unique_strong key_le); [|done| |].
  - intros [k1 a1] [k2 a2] H1 H2 H3 H4.
    assert (k1 = k2) as -> by by apply (anti_symm String.le).
    rewrite Hp in H1. rewrite in_order_perm in H2. apply elem_of_map_to_list in H1, H2. congruence.
  - apply StronglySorted_merge_sort; apply _.
  - by rewrite Hp, in_order_perm.
Qed.
End in_order.

Lemma in_order_fmap {A B} (f : A → B) (m : gmap string A) :
  config_file.in_order (f <$> m) = prod_map id f <$> config_file.in_order m.
Proof.
  symmetry. apply in_order_unique.
  - by rewrite in_order_perm, map_to_list_fmap.
  - eapply StronglySorted_fmap, (StronglySorted_merge_sort config_file.key_le). done.
Qed.

(** ** A layer over another *)
Section overlay.
Import config_file.

Definition prefer {A} (below above : option A) : option A :=
  match above with Some v => Some v | None => below end.

(** The configuration of a layer [above] another one: key by key, and a provider
    or an alias as a whole. *)
Definition overlay (below above : FileConfig) : FileConfig :=
  Build_FileConfig (prefer (data_dir below) (data_dir above))
    (providers above ∪ providers below) (aliases above ∪ aliases below)
    (prefer (compaction_context_budget below) (compaction_context_budget above))
    (prefer (compaction_auto_threshold below) (compaction_auto_threshold above))
    (prefer (compaction_keep_recent_turns below) (compaction_keep_recent_turns above))
    (prefer (compaction_estimate_bytes_per_token below) (compaction_estimate_bytes_per_token above))
    (prefer (max_tool_rounds below) (max_tool_rounds above))
    (prefer (max_parallel_tool_calls below) (max_parallel_tool_calls above))
    (prefer (operation_timeout_secs below) (operation_timeout_secs above))
    (prefer (shell_timeout_secs below) (shell_timeout_secs above))
    (prefer (recovery_enabled below) (recovery_enabled above))
    (prefer (recovery_max_retries below) (recovery_max_retries above))
    (prefer (recovery_backoff_base_ms below) (recovery_backoff_base_ms above))
    (prefer (recovery_backoff_max_ms below) (recovery_backoff_max_ms above))
    (prefer (recovery_response_head_timeout_secs below) (recovery_response_head_timeout_secs above))
    (prefer (recovery_stream_idle_timeout_secs below) (recovery_stream_idle_timeout_secs above))
    (prefer (verbosity below) (verbosity above)) (prefer (show_reasoning below) (show_reasoning above))
    (warnings below ++ warnings above).

Lemma overlay_default c : overlay c file_config_default = c.
Proof. destruct c. unfold overlay, file_config_default. cbn. by rewrite !left_id_L, app_nil_r by apply _. Qed.

Lemma overlay_warn c d m : overlay c (warn m d) = warn m (overlay c d).
Proof. unfold overlay, warn, set_warnings. cbn. by rewrite app_assoc. Qed.

Section apply.
Context {toml : Toml} (path : string) (from : Layer) (c : FileConfig).

(** Something being read, with the configuration that takes the warnings. *)
Definition under {X} (acc : X * FileConfig) : X * FileConfig := (acc.1, overlay c acc.2).

Lemma store_overlay {A} (read : Reader → outcome UsageError (Sourced A)) set r d :
  (∀ v d, set (Some v) (overlay c d) = overlay c (set (Some v) d)) →
  store read set r (overlay c d) = overlay c <$> store read set r d.
Proof. intros Hs. unfold store. destruct (read r); cbn; [by rewrite Hs|done..]. Qed.

Ltac same_store := unfold store; match goal with |- context [mbind _ ?m] => destruct m; done end.

Lemma model_field_overlay id name acc e :
  apply_model_field path from id name (under acc) e
  = under <$> apply_model_field path from id name acc e.
Proof.
  destruct acc as [m d], e as [field v]. unfold apply_model_field, under. cbn [fst snd].
  repeat (case_bool_decide; [same_store|]). cbn. by rewrite overlay_warn.
Qed.

Lemma model_overlay id acc e :
  apply_model path from id (under acc) e = under <$> apply_model path from id acc e.
Proof.
  destruct acc as [ms d], e as [name v]. unfold apply_model, under at 1. cbn [fst snd].
  destruct (str_is_empty _); [done|]. destruct (secret_key _); [done|].
  destruct (as_table v) as [fields|]; [|done].
  change (model_file_default, overlay c d) with (under (model_file_default, d)).
  rewrite try_fold_natural by apply model_field_overlay.
  by destruct (try_fold _ _ _) as [[m d']| |].
Qed.

Lemma cache_key_overlay id acc e :
  apply_cache_key path from id (under acc) e = under <$> apply_cache_key path from id acc e.
Proof.
  destruct acc as [m d], e as [field v]. unfold apply_cache_key, under. cbn [fst snd].
  repeat (case_bool_decide; [same_store|]). cbn. by rewrite overlay_warn.
Qed.

Lemma provider_key_overlay id acc e :
  apply_provider_key path from id (under acc) e = under <$> apply_provider_key path from id acc e.
Proof.
  destruct acc as [p d], e as [key v]. unfold apply_provider_key, under at 1. cbn [fst snd].
  repeat (case_bool_decide; [same_store|]).
  case_bool_decide.
  { destruct (as_table v) as [table|]; [|done].
    change (models p, overlay c d) with (under (models p, d)).
    rewrite try_fold_natural by apply model_overlay.
    by destruct (try_fold _ _ _) as [[m d']| |]. }
  case_bool_decide.
  { destruct (as_table v) as [table|]; [|done].
    change (cache_file_default, overlay c d) with (under (cache_file_default, d)).
    rewrite try_fold_natural by apply cache_key_overlay.
    by destruct (try_fold _ _ _) as [[m d']| |]. }
  cbn. by rewrite <- overlay_warn.
Qed.

Lemma provider_overlay d e :
  apply_provider path from (overlay c d) e = overlay c <$> apply_provider path from d e.
Proof.
  destruct e as [id v]. unfold apply_provider. destruct (as_table v) as [table|].
  2: { cbn. by rewrite overlay_warn. }
  destruct (_ || _); [done|]. destruct (refuse_secret_keys _ _ _); [cbn|done..].
  change (provider_file_default, overlay c d) with (under (provider_file_default, d)).
  rewrite try_fold_natural by apply provider_key_overlay.
  destruct (try_fold _ _ _) as [[m d']| |]; [|done..]. cbn. f_equal.
  unfold set_providers, overlay. cbn. by rewrite insert_union_l.
Qed.

Lemma alias_overlay d e :
  apply_alias path from (overlay c d) e = overlay c <$> apply_alias path from d e.
Proof.
  destruct e as [name v]. unfold apply_alias. destruct (read_string _); [cbn|done..].
  destruct (validate_alias_name _ _ _); [cbn|done..]. f_equal.
  unfold set_aliases, overlay. cbn. by rewrite insert_union_l.
Qed.

Lemma key_overlay s d e :
  apply_key path from s (overlay c d) e = overlay c <$> apply_key path from s d e.
Proof.
  destruct e as [key v]. unfold apply_key. cbn zeta.
  repeat match goal with
  | |- context [if ?b then _ else _] => destruct b; [first [done | by apply store_overlay]|]
  end.
  cbn. by rewrite overlay_warn.
Qed.

Lemma section_overlay d e :
  apply_section path from (overlay c d) e = overlay c <$> apply_section path from d e.
Proof.
  destruct e as [section v]. unfold apply_section. destruct (as_table v) as [entries|].
  2: { case_bool_decide; [by apply store_overlay|]. cbn. by rewrite overlay_warn. }
  case_bool_decide; [done|]. destruct (refuse_secret_keys _ _ _); [cbn|done..].
  case_bool_decide; [cbn; by rewrite overlay_warn|].
  case_bool_decide; [apply try_fold_natural, provider_overlay|].
  case_bool_decide; [apply try_fold_natural, alias_overlay|].
  apply try_fold_natural, key_overlay.
Qed.

Lemma apply_overlay d table :
  apply path from (overlay c d) table = overlay c <$> apply path from d table.
Proof. apply try_fold_natural. intros. apply section_overlay. Qed.

Lemma apply_over table : apply path from c table = overlay c <$> apply path from file_config_default table.
Proof. rewrite <- apply_overlay. by rewrite overlay_default. Qed.
End apply.

(** ** Both layers *)

(** A configuration without its warnings. *)
Definition quiet (c : FileConfig) : FileConfig := set_warnings [] c.

Lemma quiet_overlay g c d : quiet c = quiet d → quiet (overlay g c) = quiet (overlay g d).
Proof. destruct c, d. unfold quiet, set_warnings, overlay. cbn. by intros [= <- <- <- <- <- <- <- <- <- <- <- <- <- <- <- <- <- <- <-]. Qed.

Lemma quiet_project_warnings path c : quiet (warn_project_layer_secrets path c) = quiet c.
Proof.
  unfold warn_project_layer_secrets. generalize (in_order (providers c)). intros l. revert c.
  induction l as [|e l IH]; intros c; [done|]. cbn [foldl]. rewrite IH. by destruct (holds_project_secret _).
Qed.

(** ** What a loaded configuration satisfies *)

(** Identifiers of providers and names of aliases are plain words, and headers are
    kept under their canonical names. *)
Definition plain_word (s : string) : bool :=
  identifier is_ascii_alphanumeric (λ b, is_ascii_alphanumeric b || is_char "-" b || is_char "_" b) s.
Record file_ok (c : FileConfig) : Prop := {
  ok_ids : map_Forall (λ id _, plain_word id = true) (providers c);
  ok_aliases : map_Forall (λ name _, plain_word name = true) (aliases c);
  ok_headers : map_Forall (λ _ s, map_Forall (λ k h,
    k = std_tools.to_ascii_lowercase (header_name (value h))) (headers (value s))) (providers c)
}.

Section ok.
Context {toml : Toml}.

Definition kept (c d : FileConfig) : Prop := providers d = providers c ∧ aliases d = aliases c.

Lemma store_ok {A S} (read : Reader → outcome UsageError (Sourced A)) set r (s s' : S) :
  store read set r s = Ok s' → ∃ v, s' = set (Some v) s.
Proof. unfold store. destruct (read r); cbn; [|done..]. intros [= <-]. by eexists. Qed.

Lemma under_step {X} (step : X * FileConfig → string * Value → outcome UsageError (X * FileConfig))
    (P : X → Prop) l acc acc' :
  (∀ x d e x' d', P x → step (x, d) e = Ok (x', d') → P x' ∧ kept d d') →
  P acc.1 → try_fold step acc l = Ok acc' → P acc'.1 ∧ kept acc.2 acc'.2.
Proof.
  intros Hs. revert acc. induction l as [|e l IH]; intros [x d] Hx; cbn [try_fold].
  - by intros [= <-].
  - destruct (step (x, d) e) as [[x' d']| |] eqn:He; cbn; [|done..]. intros Hl.
    destruct (Hs _ _ _ _ _ Hx He) as [Hx' Hp]. destruct (IH (x', d') Hx' Hl) as [H1 H2].
    split; [done|]. unfold kept in *. cbn in *. naive_solver congruence.
Qed.

Context (path : string) (from : Layer).

Definition canonical_headers (hs : gmap string (Sourced FileHeader)) : Prop :=
  map_Forall (λ k h, k = std_tools.to_ascii_lowercase (header_name (value h))) hs.

Lemma headers_canonical hs s v hs' :
  canonical_headers hs → apply_headers path from hs s v = Ok hs' → canonical_headers hs'.
Proof.
  unfold apply_headers. destruct (as_table v) as [table|]; [|done]. intros Hc.
  revert hs Hc. induction table as [|[name w] table IH]; intros hs Hc; cbn [try_fold]; [by intros [= <-]|].
  destruct (apply_header path from s hs (name, w)) as [hs1| |] eqn:Hh; cbn; [|done..].
  apply IH. revert Hh. unfold apply_header. case_bool_decide; [done|].
  destruct (read_string _) as [x| |]; cbn; [|done..]. intros [= <-]. by apply map_Forall_insert_2.
Qed.

Ltac stored := match goal with |- context [mbind _ ?m] =>
  let H := fresh in destruct m eqn:H; cbn; [|done..]; apply store_ok in H as [? ->]; by intros [= <- <-] end.

Lemma model_field_providers id name (x : ModelFile) d e x' d' :
  apply_model_field path from id name (x, d) e = Ok (x', d') → True ∧ kept d d'.
Proof.
  destruct e as [field v]. unfold apply_model_field. lazy zeta beta. repeat (case_bool_decide; [stored|]).
  by intros [= <- <-].
Qed.

Lemma model_providers id (x : gmap string ModelFile) d e x' d' :
  apply_model path from id (x, d) e = Ok (x', d') → True ∧ kept d d'.
Proof.
  destruct e as [name v]. unfold apply_model. destruct (str_is_empty _); [done|].
  destruct (secret_key _); [done|]. destruct (as_table v) as [fields|]; [|done].
  destruct (try_fold _ _ _) as [[m c]| |] eqn:Hf; cbn; [|done..].
  apply (under_step _ (λ _, True)) in Hf as [_ Hp]; [by intros [= <- <-]; destruct Hp| |done].
  intros ????? _. apply model_field_providers.
Qed.

Lemma cache_key_providers id (x : CacheFile) d e x' d' :
  apply_cache_key path from id (x, d) e = Ok (x', d') → True ∧ kept d d'.
Proof.
  destruct e as [field v]. unfold apply_cache_key. lazy zeta beta. repeat (case_bool_decide; [stored|]).
  by intros [= <- <-].
Qed.

Lemma provider_key_providers id x d e x' d' :
  canonical_headers (headers x) → apply_provider_key path from id (x, d) e = Ok (x', d') →
  canonical_headers (headers x') ∧ kept d d'.
Proof.
  intros Hc. destruct e as [key v]. unfold apply_provider_key. lazy zeta beta. repeat (case_bool_decide; [stored|]).
  case_bool_decide.
  { destruct (apply_headers _ _ _ _ _) as [hs| |] eqn:Hh; cbn; [|done..]. intros [= <- <-].
    split; [by eapply headers_canonical|done]. }
  case_bool_decide.
  { destruct (as_table v) as [table|]; [|done].
    destruct (try_fold _ _ _) as [[m c]| |] eqn:Hf; cbn; [|done..].
    apply (under_step _ (λ _, True)) in Hf as [_ Hp]; [by intros [= <- <-]; destruct Hp| |done].
    intros ????? _. apply model_providers. }
  case_bool_decide.
  { destruct (as_table v) as [table|]; [|done].
    destruct (try_fold _ _ _) as [[m c]| |] eqn:Hf; cbn; [|done..].
    apply (under_step _ (λ _, True)) in Hf as [_ Hp]; [by intros [= <- <-]; destruct Hp| |done].
    intros ????? _. apply cache_key_providers. }
  by intros [= <- <-].
Qed.

Lemma file_ok_kept c d : kept c d → file_ok c → file_ok d.
Proof. intros [Hp Ha] [H1 H2 H3]. split; by rewrite ?Hp, ?Ha. Qed.

Lemma provider_ok c e c' : file_ok c → apply_provider path from c e = Ok c' → file_ok c'.
Proof.
  intros Hok. destruct e as [id v]. unfold apply_provider. destruct (as_table v) as [table|].
  2: { intros [= <-]. by apply (file_ok_kept c). }
  destruct (_ || _) eqn:Hid; [done|]. destruct (refuse_secret_keys _ _ _); cbn; [|done..].
  destruct (try_fold _ _ _) as [[p d]| |] eqn:Hf; cbn; [|done..]. intros [= <-].
  apply (under_step _ (λ p, canonical_headers (headers p))) in Hf as [Hh Hp];
    [|intros ?????; apply provider_key_providers|apply map_Forall_empty].
  apply orb_false_iff in Hid as [_ Hid%negb_false_iff]. destruct Hp as [Hp Ha]. cbn in Hp, Ha, Hh. destruct Hok as [H1 H2 H3].
  split; cbn; rewrite ?Hp, ?Ha; [|done|]; by apply map_Forall_insert_2.
Qed.

Lemma key_ok s c e c' : file_ok c → apply_key path from s c e = Ok c' → file_ok c'.
Proof.
  intros Hok. destruct e as [key v]. unfold apply_key. cbn zeta.
  repeat match goal with
  | |- (if ?b then _ else _) = _ → _ =>
      destruct b; [first [done | intros [w ->]%store_ok; by apply (file_ok_kept c)]|]
  end.
  intros [= <-]. by apply (file_ok_kept c).
Qed.

Lemma alias_ok c e c' : file_ok c → apply_alias path from c e = Ok c' → file_ok c'.
Proof.
  intros Hok. destruct e as [name v]. unfold apply_alias. destruct (read_string _); cbn; [|done..].
  unfold validate_alias_name. destruct (_ && _) eqn:Hv; cbn; [|done]. intros [= <-].
  apply andb_true_iff in Hv as [_ Hv]. destruct Hok as [H1 H2 H3]. split; cbn; [done| |done].
  by apply map_Forall_insert_2.
Qed.

Lemma fold_ok {A} (step : FileConfig → A → outcome UsageError FileConfig) l c c' :
  (∀ c e c', file_ok c → step c e = Ok c' → file_ok c') →
  file_ok c → try_fold step c l = Ok c' → file_ok c'.
Proof.
  intros Hs. revert c. induction l as [|e l IH]; intros c Hc; cbn [try_fold]; [by intros [= <-]|].
  destruct (step c e) as [d| |] eqn:He; cbn; [|done..]. eauto.
Qed.

Lemma section_ok c e c' : file_ok c → apply_section path from c e = Ok c' → file_ok c'.
Proof.
  intros Hok. destruct e as [section v]. unfold apply_section. destruct (as_table v) as [entries|].
  2: { case_bool_decide; [intros [w ->]%store_ok|intros [= <-]]; by apply (file_ok_kept c). }
  case_bool_decide; [done|]. destruct (refuse_secret_keys _ _ _); cbn; [|done..].
  case_bool_decide; [intros [= <-]; by apply (file_ok_kept c)|].
  case_bool_decide; [by apply (fold_ok _ _ _ _ provider_ok)|].
  case_bool_decide; [by apply (fold_ok _ _ _ _ alias_ok)|]. by apply (fold_ok _ _ _ _ (key_ok _)).
Qed.
End ok.

Lemma file_ok_default : file_ok file_config_default.
Proof. split; apply map_Forall_empty. Qed.

Lemma load_layers_ok {toml : Toml} read global project c :
  load_layers read global project = Ok c → file_ok c.
Proof.
  intros Hl. eapply (fold_ok (load_layer read)); [|apply file_ok_default|exact Hl].
  intros d [from [path|]] d' Hd; cbn; [|by intros [= <-]].
  destruct (read path) as [| |text]; [by intros [= <-]|done|]. destruct (parse_table text) as [table|]; [|done].
  destruct (apply _ _ _ _) as [d''| |] eqn:Ha; cbn; [|done..]. intros [= <-].
  assert (file_ok d'') as Hok by (eapply fold_ok; [apply section_ok|exact Hd|exact Ha]).
  case_bool_decide; [|done]. eapply file_ok_kept, Hok.
  pose proof (quiet_project_warnings path d'') as Hq.
  split; [exact (f_equal providers Hq)|exact (f_equal aliases Hq)].
Qed.
End overlay.

(** ** Sorting commutes with a map that keeps the order *)
Section sort.
Context {A B : Type} (f : A → B) (R : relation A) (R' : relation B).
Context `{∀ x y, Decision (R x y)} `{∀ x y, Decision (R' x y)}.
Context (Hf : ∀ x y, R' (f x) (f y) ↔ R x y).

Lemma list_merge_fmap l1 l2 : list_merge R' (f <$> l1) (f <$> l2) = f <$> list_merge R l1 l2.
Proof.
  revert l2. induction l1 as [|x1 l1 IH1]; intros l2; induction l2 as [|x2 l2 IH2]; try done.
  cbn. destruct (decide (R x1 x2)) as [Hr|Hr], (decide (R' (f x1) (f x2))) as [Hr'|Hr'];
    [|by destruct Hr'; apply Hf|by destruct Hr; apply Hf|]; cbn.
  - f_equal. apply (IH1 (x2 :: l2)).
  - f_equal. apply IH2.
Qed.

Let on_stack (st : list (option (list A))) : list (option (list B)) := fmap (M := list) (fmap (M := option) (fmap (M := list) f)) st.

Lemma merge_list_to_stack_fmap st l :
  merge_list_to_stack R' (on_stack st) (f <$> l) = on_stack (merge_list_to_stack R st l).
Proof.
  revert l. induction st as [|[l'|] st IH]; intros l; try done. cbn.
  by rewrite list_merge_fmap, IH.
Qed.

Lemma merge_stack_fmap st : merge_stack R' (on_stack st) = f <$> merge_stack R st.
Proof.
  induction st as [|[l|] st IH]; [done| |done].
  change (list_merge R' (f <$> l) (merge_stack R' (on_stack st)) = f <$> list_merge R l (merge_stack R st)).
  by rewrite IH, list_merge_fmap.
Qed.

Lemma merge_sort_fmap l : merge_sort R' (f <$> l) = f <$> merge_sort R l.
Proof.
  assert (∀ st, merge_sort_aux R' (on_stack st) (f <$> l) = f <$> merge_sort_aux R st l) as Hg.
  { induction l as [|x l IH]; intros st; cbn; [apply merge_stack_fmap|].
    by rewrite <- IH, <- merge_list_to_stack_fmap. }
  apply (Hg []).
Qed.
End sort.

Lemma try_fold_map {E S S' A A'} (F : S → S') (g : A → A') (step : S → A → outcome E S)
    (step' : S' → A' → outcome E S') l s :
  (∀ s a, step' (F s) (g a) = F <$> step s a) →
  try_fold step' (F s) (g <$> l) = F <$> try_fold step s l.
Proof.
  intros Hs. revert s. induction l as [|a l IH]; intros s; [done|]. cbn [try_fold fmap list_fmap].
  rewrite Hs. destruct (step s a); cbn; [apply IH|done..].
Qed.

Lemma try_fold_ext {E S A} (step step' : S → A → outcome E S) l s :
  (∀ s a, step' s a = step s a) → try_fold step' s l = try_fold step s l.
Proof.
  intros Hs. revert s. induction l as [|a l IH]; intros s; [done|]. cbn [try_fold].
  rewrite Hs. destruct (step s a); cbn; [apply IH|done..].
Qed.

(** ** Literal keys *)
Section keys.
Import replay headers assemble config_resolve.
Context {sdk : Sdk} {sdk_request : SdkRequest} {http : HttpHeaders} {patch : ProviderPatch}.
Context {hint_fields : CacheHintFields} {show : ShowF32}.
Implicit Types (file : config_file.FileConfig) (choice : ModelChoice).

Definition hidden_key : config_file.FileSecret := {| config_file.secret_text := "" |}.
Definition forget_key (p : config_file.ProviderFile) : config_file.ProviderFile :=
  config_file.set_api_key
    ((λ key, config_file.Build_Sourced hidden_key (config_file.layer key)) <$> config_file.api_key p) p.
Definition forget_provider (s : config_file.Sourced config_file.ProviderFile)
    : config_file.Sourced config_file.ProviderFile :=
  config_file.Build_Sourced (forget_key (config_file.value s)) (config_file.layer s).
(** A configuration whose literal keys are all the same. *)
Definition forget_keys file : config_file.FileConfig :=
  config_file.set_providers (forget_provider <$> config_file.providers file) file.

Definition hide (c : Credential) : Credential :=
  match c with Literal _ => Literal "" | EnvName name => EnvName name end.
Definition hide_stack (s : ProviderStack) : ProviderStack :=
  {| ps_endpoint := ps_endpoint s; ps_protocol := ps_protocol s; ps_compat := ps_compat s;
     ps_chat_reasoning_format := ps_chat_reasoning_format s;
     ps_credential := hide (ps_credential s);
     ps_continuation_policy := ps_continuation_policy s;
     ps_request_headers := ps_request_headers s; ps_cache_policy := ps_cache_policy s |}.
Definition hide_choice (c : ModelChoice) : ModelChoice :=
  {| mc_id := mc_id c; mc_provider_id := mc_provider_id c; mc_model := mc_model c;
     mc_endpoint := mc_endpoint c; mc_protocol := mc_protocol c;
     mc_credential := hide (mc_credential c); mc_compat := mc_compat c;
     mc_chat_reasoning_format := mc_chat_reasoning_format c;
     mc_continuation_policy := mc_continuation_policy c;
     mc_context_window := mc_context_window c; mc_request_headers := mc_request_headers c;
     mc_max_output_tokens := mc_max_output_tokens c; mc_reasoning_tiers := mc_reasoning_tiers c;
     mc_default_reasoning := mc_default_reasoning c; mc_image_input := mc_image_input c;
     mc_cache_policy := mc_cache_policy c; mc_display_name := mc_display_name c |}.
Definition hide_deployment (d : Deployment) : Deployment :=
  {| dep_provider := dep_provider d; dep_protocol := dep_protocol d; dep_model := dep_model d;
     dep_endpoint := dep_endpoint d; dep_credential := hide (dep_credential d);
     dep_request_headers := dep_request_headers d; dep_compat := dep_compat d;
     dep_chat_reasoning_format := dep_chat_reasoning_format d;
     dep_continuation_policy := dep_continuation_policy d;
     dep_max_output_tokens := dep_max_output_tokens d;
     dep_default_reasoning := dep_default_reasoning d; dep_image_input := dep_image_input d;
     dep_cache_policy := dep_cache_policy d;
     dep_response_head_timeout := dep_response_head_timeout d;
     dep_stream_idle_timeout := dep_stream_idle_timeout d |}.
(** Everything but the literal keys: the rows that are shown are all there. *)
Definition hide_settings (s : Settings) : Settings :=
  {| st_deployment := hide_deployment (st_deployment s); st_models := hide_choice <$> st_models s;
     st_aliases := st_aliases s; st_data_dir := st_data_dir s;
     st_context_window := st_context_window s; st_compaction := st_compaction s;
     st_reasoning_effort := st_reasoning_effort s; st_max_tool_rounds := st_max_tool_rounds s;
     st_max_parallel_tool_calls := st_max_parallel_tool_calls s;
     st_operation_timeout := st_operation_timeout s;
     st_shell_timeout_secs := st_shell_timeout_secs s; st_recovery := st_recovery s;
     st_verbosity := st_verbosity s; st_show_reasoning := st_show_reasoning s;
     st_entries := st_entries s |}.

Ltac next := match goal with |- context [mbind _ ?m] =>
  lazymatch m with mbind _ _ => fail | _ => destruct m; cbn; [|done..] end end.

Lemma hide_provider_stack id s :
  provider_stack id (forget_provider s) = hide_stack <$> provider_stack id s.
Proof.
  destruct s as [[endpoint protocol env key compat format cont headers models cache] from].
  unfold provider_stack, forget_provider. cbn [config_file.value config_file.layer].
  unfold forget_key. cbn. destruct endpoint as [endpoint|]; [|done]. cbn.
  do 3 next. destruct key, env; cbn; repeat next; done.
Qed.

Lemma hide_model_choice id from stack e :
  model_choice id from (hide_stack stack) e = hide_choice <$> model_choice id from stack e.
Proof.
  destruct e as [name model]. unfold model_choice.
  do 2 next. unfold resolve_tiers, tier_step. cbn.
  repeat next. by destruct (is_nil _).
Qed.

Lemma hide_model_choices file :
  model_choices (forget_keys file) = fmap (M := list) hide_choice <$> model_choices file.
Proof.
  unfold model_choices. cbn [forget_keys config_file.providers config_file.set_providers].
  rewrite in_order_fmap.
  change (@nil ModelChoice) with (hide_choice <$> []) at 1.
  rewrite (try_fold_map (fmap (M := list) hide_choice) _ provider_choices).
  - destruct (try_fold _ _ _) as [choices| |]; cbn; [|done..]. f_equal.
    by apply merge_sort_fmap.
  - intros choices [i s]. unfold provider_choices. cbn [prod_map fst snd id].
    rewrite hide_provider_stack. destruct (provider_stack i s) as [stack| |]; cbn; [|done..].
    replace (config_file.models (config_file.value (forget_provider s)))
      with (config_file.models (config_file.value s)) by by destruct s as [[] ?].
    rewrite <- (list_fmap_id (config_file.in_order _)) at 1. apply try_fold_map. intros cs m.
    unfold id. rewrite hide_model_choice.
    destruct (model_choice _ _ _ _); cbn; [|done..]. by rewrite fmap_app.
Qed.

(** A computation on hidden keys does what the other one does. *)
Definition rmap {A B} (F : A → B) (r : outcome config_file.UsageError (list EffectiveSetting * A))
    : outcome config_file.UsageError (list EffectiveSetting * B) :=
  prod_map id F <$> r.

Lemma bind_natural {A A' B B'} (F : A → A') (G : B → B') (m : recording A) (m' : recording A')
    (k : A → recording B) (k' : A' → recording B') rows :
  (∀ rows, m' rows = rmap F (m rows)) → (∀ a rows, k' (F a) rows = rmap G (k a rows)) →
  bind m' k' rows = rmap G (bind m k rows).
Proof. intros Hm Hk. unfold bind. rewrite Hm. destruct (m rows) as [[]| |]; cbn; [apply Hk|done..]. Qed.

Lemma bind_same {A B B'} (G : B → B') (m m' : recording A) (k : A → recording B)
    (k' : A → recording B') rows :
  (∀ rows, m' rows = m rows) → (∀ a rows, k' a rows = rmap G (k a rows)) →
  bind m' k' rows = rmap G (bind m k rows).
Proof. intros Hm Hk. unfold bind. rewrite Hm. destruct (m rows) as [[]| |]; cbn; [apply Hk|done..]. Qed.

Lemma record_all_fmap {A B} (g : A → B) (row : B → recording unit) l rows :
  record_all row (g <$> l) rows = record_all (λ a, row (g a)) l rows.
Proof.
  revert rows. induction l as [|a l IH]; intros rows; [done|]. cbn. unfold bind.
  destruct (row (g a) rows) as [[rows' []]| |]; [apply IH|done..].
Qed.

Lemma hide_find_choice i models : find_choice i (hide_choice <$> models) = hide_choice <$> find_choice i models.
Proof.
  unfold find_choice. induction models as [|c models IH]; [done|]. cbn.
  by destruct (mc_id c == i).
Qed.

Lemma hide_any_choice t models :
  any (λ choice, mc_id choice == t) (hide_choice <$> models) = any (λ choice, mc_id choice == t) models.
Proof. unfold any. induction models as [|c models IH]; [done|]. cbn. by rewrite IH. Qed.

Lemma hide_resolve_aliases file models :
  resolve_aliases (forget_keys file) (hide_choice <$> models) = resolve_aliases file models.
Proof.
  unfold resolve_aliases. cbn [forget_keys config_file.aliases config_file.set_providers].
  apply try_fold_ext. intros acc [n t]. unfold alias_step. by rewrite hide_any_choice.
Qed.

Lemma hide_adopt env cli first models aliases rows :
  adopt env cli (hide_choice first) (hide_choice <$> models) aliases rows
  = rmap hide_choice (adopt env cli first models aliases rows).
Proof.
  unfold adopt. apply bind_same; [done|]. intros requested rows'. cbn zeta.
  assert (default (hide_choice first) (requested ≫= λ p, find_choice (picked p) (hide_choice <$> models))
    = hide_choice (default first (requested ≫= λ p, find_choice (picked p) models))) as ->.
  { destruct requested as [p|]; [|done]. cbn. rewrite hide_find_choice. by destruct (find_choice _ _). }
  generalize (default first (requested ≫= λ p, find_choice (picked p) models)). intros adopted.
  apply bind_same; [|done]. done.
Qed.

Lemma forget_lookup file i :
  config_file.providers (forget_keys file) !! i = forget_provider <$> config_file.providers file !! i.
Proof. apply lookup_fmap. Qed.
Lemma hide_choice_layer file choice : choice_layer (forget_keys file) (hide_choice choice) = choice_layer file choice.
Proof. unfold choice_layer. rewrite forget_lookup. by destruct (_ !! _). Qed.
Lemma hide_provider_origin file choice :
  provider_origin (forget_keys file) (hide_choice choice) = provider_origin file choice.
Proof. unfold provider_origin. by rewrite hide_choice_layer. Qed.
Lemma hide_model_origin file choice :
  model_origin (forget_keys file) (hide_choice choice) = model_origin file choice.
Proof. unfold model_origin. by rewrite hide_choice_layer. Qed.
Lemma hide_declared {A} file choice (field : config_file.ProviderFile → option A) :
  (∀ p, field (forget_key p) = field p) →
  declared (forget_keys file) (hide_choice choice) field = declared file choice field.
Proof.
  intros Hf. unfold declared. rewrite forget_lookup, hide_provider_origin.
  change (mc_provider_id (hide_choice choice)) with (mc_provider_id choice).
  destruct (_ !! _) as [s|]; [|done]. cbn. by rewrite Hf.
Qed.

Lemma hide_record_stack file choice rows :
  record_stack (forget_keys file) (hide_choice choice) rows = record_stack file choice rows.
Proof.
  unfold record_stack. rewrite hide_provider_origin, hide_model_origin. by rewrite !hide_declared.
Qed.
Lemma hide_compaction file choice rows :
  resolve_compaction (forget_keys file) (hide_choice choice) rows = resolve_compaction file choice rows.
Proof. unfold resolve_compaction. by rewrite hide_model_origin. Qed.
Lemma hide_effort cli file choice rows :
  resolve_effort cli (forget_keys file) (hide_choice choice) rows = resolve_effort cli file choice rows.
Proof. unfold resolve_effort. by rewrite hide_model_origin. Qed.

Lemma hide_resolve_with env cli file first models rows :
  resolve_with env cli (forget_keys file) (hide_choice first) (hide_choice <$> models) rows
  = rmap hide_settings (resolve_with env cli file first models rows).
Proof.
  unfold resolve_with. apply bind_same.
  { intros. cbn [forget_keys config_file.providers config_file.set_providers].
    rewrite in_order_fmap. apply record_all_fmap. }
  intros _ rows1. rewrite hide_resolve_aliases. apply bind_same; [done|]. intros aliases rows2.
  apply bind_same; [done|]. intros _ rows3.
  apply (bind_natural hide_choice); [apply hide_adopt|]. intros adopted rows4.
  apply bind_same; [done|]. intros dir rows5. apply bind_same; [done|]. intros _ rows6.
  apply bind_same; [apply hide_record_stack|]. intros _ rows7.
  apply bind_same; [apply hide_compaction|]. intros compaction rows8.
  apply bind_same; [apply hide_effort|]. intros effort rows9.
  apply bind_same; [done|]. intros rounds rows10.
  apply bind_same; [intros ?; by rewrite hide_model_origin|]. intros _ rows11.
  do 8 (apply bind_same; [done|]; intros ? ?).
  apply bind_same; [intros ?; by rewrite hide_choice_layer|]. intros _ ?.
  apply bind_same; [done|]. intros _ ?.
  apply (bind_natural hide_deployment).
  { intros r. unfold lift, deployment_from_choice.
    change (mc_request_headers (hide_choice adopted)) with (mc_request_headers adopted).
    by destruct (rebuild_headers _) as [h| |]. }
  done.
Qed.

Lemma hide_resolve env cli file : resolve env cli (forget_keys file) = hide_settings <$> resolve env cli file.
Proof.
  unfold resolve. rewrite hide_model_choices.
  destruct (model_choices file) as [[|first models]| |]; [done| |done..].
  change ((let? r := resolve_with env cli (forget_keys file) (hide_choice first)
             (hide_choice <$> first :: models) [] in Ok r.2)
    = hide_settings <$> (let? r := resolve_with env cli file first (first :: models) [] in Ok r.2)).
  rewrite hide_resolve_with. by destruct (resolve_with _ _ _ _ _ _) as [[]| |].
Qed.
End keys.

(** ** The catalog *)
Section catalog.
Import replay headers assemble config_resolve.
Context {sdk : Sdk} {sdk_request : SdkRequest} {http : HttpHeaders} {patch : ProviderPatch}.
Context {hint_fields : CacheHintFields} {show : ShowF32}.
Implicit Types (file : config_file.FileConfig) (choice : ModelChoice).

(** The client knows header names without their case. *)
Class CaselessHeaders : Prop :=
  header_name_caseless n : header_name_new (std_tools.to_ascii_lowercase n) = header_name_new n.
Context {caseless : CaselessHeaders}.

Definition u32_option (o : option Z) : Prop := ∀ z, o = Some z → (0 ≤ z ≤ u32_max)%Z.
Definition u64_option (o : option Z) : Prop := ∀ z, o = Some z → (0 ≤ z ≤ u64_max)%Z.

(** What a provider section promises for its models. *)
Record stack_ok (st : ProviderStack) : Prop := {
  sk_continuation : ps_continuation_policy st = PreferPreviousResponseIdWithLocalFallback →
    ps_protocol st = OpenAiResponses;
  sk_format : ps_chat_reasoning_format st ≠ None → ps_protocol st = OpenAiChat;
  sk_headers : ∃ h, rebuild_headers (ps_request_headers st) = Ok h
}.

Lemma rebuild_ok id l h h' :
  Forall (λ e : string * config_file.Sourced config_file.FileHeader,
    e.1 = std_tools.to_ascii_lowercase (config_file.header_name (config_file.value e.2))) l →
  try_fold (set_file_header id) h l.*2 = Ok h' →
  try_fold (λ headers h, match set_header headers h.1 h.2 with Ok headers => Ok headers | _ => Panic end)
    h ((λ e, (e.1, config_file.header_value (config_file.value e.2))) <$> l) = Ok (E := config_file.UsageError) h'.
Proof.
  intros Hl. revert h. induction Hl as [|[k x] l Hk Hl IH]; intros h; [done|]. cbn in Hk.
  cbn [fmap list_fmap try_fold fst snd].
  destruct (set_file_header id h x) as [h1| |] eqn:Hx; [|done..]. cbn. intros Hf.
  assert (set_header h k (config_file.header_value (config_file.value x)) = Ok h1) as ->; [|by apply IH].
  revert Hx. unfold set_file_header, config_file.located.
  assert (set_header h k (config_file.header_value (config_file.value x))
    = set_header h (config_file.header_name (config_file.value x))
        (config_file.header_value (config_file.value x))) as ->.
  { unfold set_header. by rewrite Hk, header_name_caseless. }
  destruct (set_header h _ _) as [h2| |]; cbn; [by intros [= <-]|done..].
Qed.

Lemma provider_stack_ok id s st :
  canonical_headers (config_file.headers (config_file.value s)) →
  provider_stack id s = Ok st → stack_ok st.
Proof.
  intros Hc. unfold provider_stack. destruct (config_file.endpoint _) as [e|]; [|done].
  destruct (parse_or _ _ OpenAiChat) as [protocol| |]; cbn; [|done..].
  destruct (parse_or _ _ Compatible) as [compat| |]; cbn; [|done..].
  destruct (parse_optional _ _) as [format| |]; cbn; [|done..].
  destruct (resolve_credential _ _ _) as [key| |]; cbn; [|done..].
  destruct (parse_or _ _ StatelessLocalReplay) as [policy| |]; cbn; [|done..].
  unfold validate_protocol_axes. destruct (tool_path.is_some format && _) eqn:H1; [done|].
  destruct ((policy == _) && _) eqn:H2; [done|]. cbn.
  destruct (try_fold _ _ _) as [h| |] eqn:Hh; cbn; [|done..].
  destruct (resolve_cache _ _ _) as [cache| |]; cbn; [|done..]. intros [= <-].
  split; cbn.
  - intros ->. rewrite bool_decide_eq_true_2 in H2 by done. by apply negb_false_iff, bool_decide_eq_true in H2.
  - intros Hf. destruct format; [|done]. by apply negb_false_iff, bool_decide_eq_true in H1.
  - exists h. eapply rebuild_ok; [|exact Hh]. apply Forall_forall. intros x Hx.
    apply elem_of_in_order in Hx. by apply Hc in Hx.
Qed.

(** *** One model *)

Lemma parse_optional_ok {A B} (v : option (config_file.Sourced A)) parse (o : option B) (P : B → Prop) :
  (∀ a b, parse a = Ok b → P b) → parse_optional v parse = Ok o → ∀ b, o = Some b → P b.
Proof.
  intros Hp. unfold parse_optional. destruct v as [a|]; [|by intros [= <-]].
  destruct (parse _) eqn:Ha; cbn; [|done..]. intros [= <-] b [= <-]. eauto.
Qed.

Lemma positive_u64_ok key v z : positive_u64 key v = Ok z → (0 ≤ z ≤ u64_max)%Z.
Proof. unfold positive_u64. case_bool_decide; [|done]. by intros [= <-]. Qed.
Lemma positive_u32_ok key v z : positive_u32 key v = Ok z → (0 ≤ z ≤ u32_max)%Z.
Proof. unfold positive_u32. case_bool_decide; [|done]. by intros [= <-]. Qed.

(** The tiers of a model: each once, from the lightest on, and all of them can
    be encoded. *)
Record tiers_ok (protocol : ModelProtocol) (compat : ModelCompat)
    (format : option ChatReasoningFormat) (tiers : list runtime.ReasoningEffort) : Prop := {
  tk_once : NoDup tiers;
  tk_sorted : StronglySorted rank_le tiers;
  tk_supported : Forall (λ t, supports_reasoning_effort protocol compat format t = true) tiers
}.

#[export] Instance rank_le_total : Total rank_le.
Proof. intros a b. unfold rank_le. lia. Qed.
#[export] Instance rank_le_trans : Transitive rank_le.
Proof. intros a b c. unfold rank_le. lia. Qed.

Lemma resolve_tiers_ok stack section from declared tiers :
  resolve_tiers stack section from declared = Ok tiers →
  tiers_ok (ps_protocol stack) (ps_compat stack) (ps_chat_reasoning_format stack) tiers.
Proof.
  unfold resolve_tiers. destruct declared as [d|].
  2: { intros [= <-]. split; constructor. }
  destruct (try_fold _ _ _) as [ts| |] eqn:Hf; cbn; [|done..]. destruct (is_nil _); [done|]. intros [= <-].
  assert (NoDup ts ∧ Forall (λ t, supports_reasoning_effort (ps_protocol stack) (ps_compat stack)
    (ps_chat_reasoning_format stack) t = true) ts) as [H1 H2].
  { revert Hf. apply (try_fold_ind _ (λ ts _, NoDup ts ∧ Forall _ ts)); [by split; constructor|].
    intros ts1 _ v ts2 [H1 H2]. unfold tier_step.
    destruct (config_file.located _ (parse_reasoning_effort v)) as [t| |]; cbn; [|done..].
    unfold validate_reasoning_effort, config_file.located. destruct (supports_reasoning_effort _ _ _ t) eqn:Hs; cbn; [|done].
    intros [= <-]. case_bool_decide as Hin; [done|]. split.
    - apply NoDup_app. split_and!; [done|set_solver|apply NoDup_singleton].
    - apply Forall_app. split; [done|]. by constructor. }
  unfold sort_tiers. split.
  - by rewrite merge_sort_Permutation.
  - apply StronglySorted_merge_sort; apply _.
  - by rewrite merge_sort_Permutation.
Qed.

(** A model of the catalog. *)
Record choice_ok choice : Prop := {
  ck_id : mc_id choice = mc_provider_id choice +:+ "/" +:+ mc_model choice;
  ck_continuation : mc_continuation_policy choice = PreferPreviousResponseIdWithLocalFallback →
    mc_protocol choice = OpenAiResponses;
  ck_format : mc_chat_reasoning_format choice ≠ None → mc_protocol choice = OpenAiChat;
  ck_tiers : tiers_ok (mc_protocol choice) (mc_compat choice) (mc_chat_reasoning_format choice)
    (mc_reasoning_tiers choice);
  ck_default : mc_default_reasoning choice
    = mc_reasoning_tiers choice !! (length (mc_reasoning_tiers choice) / 2);
  ck_window : u64_option (mc_context_window choice);
  ck_output : u32_option (mc_max_output_tokens choice);
  ck_headers : ∃ h, rebuild_headers (mc_request_headers choice) = Ok h
}.

Lemma model_choice_ok id from stack e choice :
  stack_ok stack → model_choice id from stack e = Ok choice →
  choice_ok choice ∧ mc_provider_id choice = id ∧ mc_model choice = e.1.
Proof.
  intros [S1 S2 S3]. destruct e as [name m]. unfold model_choice. cbn zeta.
  destruct (parse_optional (config_file.context_window m) _) as [w| |] eqn:Hw; cbn; [|done..].
  destruct (parse_optional (config_file.max_output_tokens m) _) as [o| |] eqn:Ho; cbn; [|done..].
  destruct (resolve_tiers _ _ _ _) as [ts| |] eqn:Ht; cbn; [|done..].
  destruct (parse_modalities _ _ ["text"; "image"] _) as [i| |]; cbn; [|done..].
  destruct (parse_modalities _ _ ["text"] _) as [ot| |]; cbn; [|done..].
  destruct (is_nil ot); [done|]. intros [= <-]. split; [|done]. split; cbn; try done.
  - by eapply resolve_tiers_ok.
  - exact (parse_optional_ok _ _ _ _ (positive_u64_ok _) Hw).
  - exact (parse_optional_ok _ _ _ _ (positive_u32_ok _) Ho).
Qed.

(** *** All models *)

(** The provider and the name of a model. *)
Definition key_of choice : string * string := (mc_provider_id choice, mc_model choice).
Definition provider_keys (e : string * config_file.Sourced config_file.ProviderFile)
    : list (string * string) :=
  (λ m, (e.1, m.1)) <$> config_file.in_order (config_file.models (config_file.value e.2)).

Lemma provider_choices_ok cs e cs' :
  canonical_headers (config_file.headers (config_file.value e.2)) →
  provider_choices cs e = Ok cs' →
  ∃ new, cs' = cs ++ new ∧ Forall choice_ok new ∧ key_of <$> new = provider_keys e.
Proof.
  intros Hc. destruct e as [id s]. unfold provider_choices, provider_keys. cbn [fst snd] in *.
  destruct (provider_stack id s) as [stack| |] eqn:Hs; cbn; [|done..].
  apply provider_stack_ok in Hs; [|done].
  apply (try_fold_ind _ (λ cs' (ms : list (string * config_file.ModelFile)),
    ∃ new, cs' = cs ++ new ∧ Forall choice_ok new ∧ key_of <$> new = (λ m, (id, m.1)) <$> ms)).
  { exists []. by rewrite app_nil_r. }
  intros ? done_ m cs2 (new & -> & H1 & H2).
  destruct (model_choice _ _ _ _) as [c| |] eqn:Hm; cbn; [|done..]. intros [= <-].
  apply model_choice_ok in Hm as (H3 & H4 & H5); [|done]. exists (new ++ [c]). split_and!.
  - by rewrite app_assoc.
  - apply Forall_app. by split; [|constructor].
  - rewrite !fmap_app, H2. f_equal. cbn. unfold key_of. by rewrite H4, H5.
Qed.

Lemma model_choices_ok file models :
  file_ok file → model_choices file = Ok models →
  Forall choice_ok models ∧ StronglySorted id_le models ∧
  key_of <$> models ≡ₚ config_file.in_order (config_file.providers file) ≫= provider_keys.
Proof.
  intros [_ _ Hh]. unfold model_choices.
  destruct (try_fold _ _ _) as [cs| |] eqn:Hf; cbn; [|done..]. intros [= <-].
  assert (∀ l acc, Forall (λ e, canonical_headers (config_file.headers (config_file.value e.2))) l →
    try_fold provider_choices acc l = Ok cs →
    ∃ new, cs = acc ++ new ∧ Forall choice_ok new ∧ key_of <$> new = l ≫= provider_keys) as Hg.
  { induction l as [|e l IH]; intros acc Hl; cbn [try_fold].
    { intros [= <-]. exists []. by rewrite app_nil_r. }
    apply Forall_cons in Hl as [He Hl]. destruct (provider_choices acc e) as [acc'| |] eqn:Hp; cbn; [|done..].
    apply provider_choices_ok in Hp as (new & -> & H1 & H2); [|done].
    intros (new' & -> & H3 & H4)%IH; [|done]. exists (new ++ new'). split_and!.
    - by rewrite app_assoc.
    - by apply Forall_app.
    - by rewrite fmap_app, H2, H4. }
  apply Hg in Hf as (new & -> & H1 & H2).
  2: { apply Forall_forall. intros e He%elem_of_in_order. exact (Hh _ _ He). }
  cbn [app]. split_and!.
  - by rewrite merge_sort_Permutation.
  - apply StronglySorted_merge_sort.
    + intros a b c. unfold id_le. apply (transitivity (R := String.le)).
    + intros a b. apply (total String.le).
  - by rewrite <- H2, merge_sort_Permutation.
Qed.

(** *** Identifiers *)

Definition no_slash (s : string) : bool :=
  forallb (λ b, negb (config_file.is_char "/" b)) (Tools.bytes_of s).

Lemma plain_no_slash s : plain_word s = true → no_slash s = true.
Proof.
  unfold plain_word, config_file.identifier, no_slash. destruct s as [|b s]; [done|]. intros [Hb Hs]%andb_true_iff.
  assert (∀ b, config_file.is_ascii_alphanumeric b || config_file.is_char "-" b
    || config_file.is_char "_" b = true → config_file.is_char "/" b = false) as Hc.
  { intros c Hc. apply bool_decide_eq_false. intros ->. by vm_compute in Hc. }
  cbn. apply andb_true_iff. split.
  - apply negb_true_iff, Hc. by rewrite Hb.
  - rewrite forallb_forall in Hs |- *. intros c Hi. by apply negb_true_iff, Hc, Hs.
Qed.

Lemma slash_split i j a b :
  no_slash i = true → no_slash j = true → i +:+ "/" +:+ a = j +:+ "/" +:+ b → i = j ∧ a = b.
Proof.
  revert j. induction i as [|c i IH]; intros [|d j] Hi Hj He; injection He as He.
  - done.
  - subst d. by apply andb_true_iff in Hj as [? _].
  - subst c. by apply andb_true_iff in Hi as [? _].
  - apply andb_true_iff in Hi as [_ Hi], Hj as [_ Hj]. destruct (IH j) as [-> ->]; auto. by subst.
Qed.

Lemma no_slash_in i a : no_slash (i +:+ "/" +:+ a) = false.
Proof.
  induction i as [|c i IH]; [done|].
  change (negb (config_file.is_char "/" c) && no_slash (i +:+ "/" +:+ a) = false). by rewrite IH, andb_false_r.
Qed.

Lemma model_ids_unique file models :
  file_ok file → model_choices file = Ok models → NoDup (mc_id <$> models).
Proof.
  intros Hok Hm. destruct (model_choices_ok _ _ Hok Hm) as (H1 & _ & H3). destruct Hok as [Hids _ _].
  assert (NoDup (key_of <$> models)) as Hk.
  { rewrite H3. clear - Hids. pose proof (in_order_keys (config_file.providers file)) as Hn.
    induction (config_file.in_order _) as [|e l IH]; [constructor|]. cbn.
    apply NoDup_cons in Hn as [Hn1 Hn2]. apply NoDup_app. split_and!; [| |by apply IH].
    - unfold provider_keys. apply (NoDup_fmap_1 snd). rewrite <- list_fmap_compose. apply in_order_keys.
    - intros [i m] (mm & [= -> _] & _)%list_elem_of_fmap (e' & He' & Hin)%list_elem_of_bind.
      apply Hn1. apply list_elem_of_fmap. exists e'. split; [|done].
      by apply list_elem_of_fmap in He' as (? & [= -> _] & _). }
  assert (∀ c, c ∈ models → no_slash (mc_provider_id c) = true) as Hs.
  { intros c Hc. apply plain_no_slash. assert (key_of c ∈ key_of <$> models) as Hin by by apply list_elem_of_fmap_2.
    rewrite H3 in Hin. apply list_elem_of_bind in Hin as (e & (mm & Heq & _)%list_elem_of_fmap & He).
    injection Heq as -> _. apply elem_of_in_order in He. by apply Hids in He. }
  clear H3 Hm. induction models as [|c models IH]; [constructor|]. cbn in *.
  apply NoDup_cons in Hk as [Hk1 Hk2]. apply Forall_cons in H1 as [Hc H1].
  constructor; [|apply IH; [done|done|intros d Hd; apply Hs; set_solver]].
  intros (d & Hd & Hin)%list_elem_of_fmap. apply Hk1. apply list_elem_of_fmap. exists d. split; [|done].
  rewrite Forall_forall in H1. specialize (H1 d Hin). rewrite (ck_id _ Hc), (ck_id _ H1) in Hd.
  apply slash_split in Hd as [Hp Hn]; [|apply Hs; set_solver..]. unfold key_of. by rewrite Hp, Hn.
Qed.

(** *** The settings *)

Lemma bind_ok {A B} (m : recording A) (k : A → recording B) rows x :
  bind m k rows = Ok x → ∃ rows' a, m rows = Ok (rows', a) ∧ k a rows' = Ok x.
Proof. unfold bind. destruct (m rows) as [[rows' a]| |]; [|done..]. by exists rows', a. Qed.
Lemma lift_ok {A} (r : outcome config_file.UsageError A) rows rows' a :
  lift r rows = Ok (rows', a) → r = Ok a.
Proof. unfold lift. destruct r; [|done..]. by intros [= _ ->]. Qed.

Lemma record_pick_ok {A B} key show_value convert (o : option (Pick A)) rows rows' (v : option B) :
  record_pick key show_value convert o rows = Ok (rows', v) →
  match o with
  | Some p => ∃ b, convert (picked p) = Ok b ∧ v = Some b
  | None => v = None
  end.
Proof.
  unfold record_pick. destruct o as [p|].
  - intros (r1 & [] & _ & (r2 & b & Hb%lift_ok & [= _ <-])%bind_ok)%bind_ok. by exists b.
  - by intros [= _ <-].
Qed.

(** The first of several sources that has a value. *)
Fixpoint first_some {A} (sources : list (option A)) : option A :=
  match sources with
  | [] => None
  | Some a :: _ => Some a
  | None :: sources => first_some sources
  end.

(** The model that runs, as the resolution is meant to choose it. *)
Definition chosen (env : config_file.Environment) (cli : Cli) (models : list ModelChoice)
    (aliases : list (string * string)) : option ModelChoice :=
  first_some
    [ (first_some [cli_model cli; config_file.env_var env "PHILO_MODEL"]
       ≫= λ name, find_choice (default name (find_alias name aliases)) models); head models ].

Lemma adopt_ok env cli first rest aliases rows rows' adopted :
  adopt env cli first (first :: rest) aliases rows = Ok (rows', adopted) →
  chosen env cli (first :: rest) aliases = Some adopted.
Proof.
  intros (r1 & requested & Hr & (r2 & [] & _ & [= _ <-])%bind_ok)%bind_ok.
  assert (requested ≫= (λ p, find_choice (picked p) (first :: rest))
    = first_some [cli_model cli; config_file.env_var env "PHILO_MODEL"]
      ≫= λ name, find_choice (default name (find_alias name aliases)) (first :: rest)) as Heq.
  { revert Hr. unfold pick_string. cbn [mbind option_bind].
    destruct (cli_model cli) as [name|]; [|destruct (config_file.env_var env _) as [name|]]; cbn [first_some picked from_file fmap option_fmap option_map].
    - destruct (find_alias name aliases) as [t|] eqn:Ha; cbn.
      all: intros [= _ <-]; cbn; by rewrite Ha.
    - destruct (find_alias name aliases) as [t|] eqn:Ha; cbn.
      all: intros [= _ <-]; cbn; by rewrite Ha.
    - by intros [= _ <-]. }
  change (chosen env cli (first :: rest) aliases
    = Some (default first (requested ≫= λ p, find_choice (picked p) (first :: rest)))).
  rewrite Heq. unfold chosen. by destruct (first_some [cli_model cli; _] ≫= _).
Qed.

(** The limits of the context: from the file, or else the window of the model for the
    budget and the defaults for the others. *)
Record compaction_follows file (choice : ModelChoice) (c : runtime.CompactionConfig) : Prop := {
  cf_budget : runtime.context_budget c = first_some
    [config_file.value <$> config_file.compaction_context_budget file; mc_context_window choice];
  cf_budget_u64 : u64_option (config_file.value <$> config_file.compaction_context_budget file);
  cf_threshold : match config_file.value <$> config_file.compaction_auto_threshold file with
    | Some v => is_finite v = true ∧ SFltb f64_zero v = true ∧ SFleb v f64_one = true ∧
                runtime.auto_threshold c = f32_of_f64 v
    | None => runtime.auto_threshold c = runtime.auto_threshold coding_profile.compaction_default
    end;
  cf_keep : runtime.keep_recent_turns c
    = default 4%Z (config_file.value <$> config_file.compaction_keep_recent_turns file);
  cf_keep_u32 : (0 ≤ runtime.keep_recent_turns c ≤ u32_max)%Z;
  cf_estimate : runtime.estimate_bytes_per_token c
    = default 3%Z (config_file.value <$> config_file.compaction_estimate_bytes_per_token file);
  cf_estimate_u32 : (0 ≤ runtime.estimate_bytes_per_token c ≤ u32_max)%Z
}.

(** Retries: each key from the file, or else its default. *)
Record recovery_follows file (r : runtime.RecoveryConfig) : Prop := {
  rf_enabled : runtime.enabled r = default true (config_file.value <$> config_file.recovery_enabled file);
  rf_retries : runtime.max_retries r
    = default 3%Z (config_file.value <$> config_file.recovery_max_retries file);
  rf_retries_u32 : (0 ≤ runtime.max_retries r ≤ u32_max)%Z;
  rf_base : runtime.backoff_base_ms r
    = default 500%Z (config_file.value <$> config_file.recovery_backoff_base_ms file);
  rf_base_u64 : (0 ≤ runtime.backoff_base_ms r ≤ u64_max)%Z;
  rf_max : runtime.backoff_max_ms r
    = default 8000%Z (config_file.value <$> config_file.recovery_backoff_max_ms file);
  rf_max_u64 : (0 ≤ runtime.backoff_max_ms r ≤ u64_max)%Z
}.

(** A deadline in milliseconds; none for zero seconds. *)
Definition deadline_of (seconds : option Z) : option Z :=
  seconds ≫= λ v, if bool_decide (v = 0%Z) then None else Some (1000 * v)%Z.

(** What is known of resolved settings. *)
Record resolved env cli file (s : Settings) : Prop := {
  rs_models : model_choices file = Ok (st_models s);
  rs_aliases : resolve_aliases file (st_models s) = Ok (st_aliases s);
  rs_deployment : ∃ adopted, chosen env cli (st_models s) (st_aliases s) = Some adopted ∧
    deployment_from_choice adopted (dep_response_head_timeout (st_deployment s))
      (dep_stream_idle_timeout (st_deployment s)) = Ok (st_deployment s) ∧
    st_context_window s = mc_context_window adopted ∧
    compaction_follows file adopted (st_compaction s) ∧
    match cli_reasoning_effort cli with
    | Some v => ∃ e, parse_reasoning_effort v = Ok e ∧ st_reasoning_effort s = Some e ∧
                     e ∈ mc_reasoning_tiers adopted
    | None => st_reasoning_effort s = None
    end;
  rs_recovery : recovery_follows file (st_recovery s);
  rs_head : dep_response_head_timeout (st_deployment s)
    = deadline_of (config_file.value <$> config_file.recovery_response_head_timeout_secs file);
  rs_idle : dep_stream_idle_timeout (st_deployment s)
    = deadline_of (config_file.value <$> config_file.recovery_stream_idle_timeout_secs file);
  rs_data_dir : ∃ source, resolve_data_dir env (cli_data_dir cli) file = Ok (st_data_dir s, source);
  rs_rounds : st_max_tool_rounds s = first_some
    [cli_max_tool_rounds cli; config_file.value <$> config_file.max_tool_rounds file] ∧
    u32_option (st_max_tool_rounds s);
  rs_parallel : st_max_parallel_tool_calls s = config_file.value <$> config_file.max_parallel_tool_calls file ∧
    u32_option (st_max_parallel_tool_calls s);
  rs_timeout : st_operation_timeout s
    = (λ v, (1000 * config_file.value v)%Z) <$> config_file.operation_timeout_secs file;
  rs_shell : st_shell_timeout_secs s = config_file.value <$> config_file.shell_timeout_secs file;
  rs_show : st_show_reasoning s = default true (config_file.value <$> config_file.show_reasoning file);
  rs_verbosity :
    if cli_quiet cli then st_verbosity s = Quiet else if cli_verbose cli then st_verbosity s = Verbose
    else match config_file.verbosity file with
         | Some v => parse_verbosity (config_file.value v) = Ok (st_verbosity s)
         | None => st_verbosity s = VerbosityDefault
         end
}.

Lemma pick_ok {A B} key show_value convert (o : option (config_file.Sourced A)) rows rows' (v : option B)
    (P : B → Prop) (f : A → B) :
  (∀ a b, convert a = Ok b → b = f a ∧ P b) →
  record_pick key show_value convert (from_file o) rows = Ok (rows', v) →
  v = (λ s, f (config_file.value s)) <$> o ∧ ∀ b, v = Some b → P b.
Proof.
  intros Hc Hr%record_pick_ok. destruct o as [a|]; cbn in *.
  - destruct Hr as (b & Hb & ->). apply Hc in Hb as [-> Hp]. split; [done|]. by intros ? [= <-].
  - by subst.
Qed.
Lemma positive_u32_same key v z : positive_u32 key v = Ok z → z = v ∧ (0 ≤ z ≤ u32_max)%Z.
Proof. unfold positive_u32. case_bool_decide; [|done]. by intros [= <-]. Qed.
Lemma positive_u64_same key v z : positive_u64 key v = Ok z → z = v ∧ (0 ≤ z ≤ u64_max)%Z.
Proof. unfold positive_u64. case_bool_decide; [|done]. by intros [= <-]. Qed.

Ltac past H := apply bind_ok in H as (? & ? & _ & H).
Ltac step H name eq := apply bind_ok in H as (? & name & eq & H).

Lemma resolve_effort_ok cli file choice rows rows' effort :
  resolve_effort cli file choice rows = Ok (rows', effort) →
  match cli_reasoning_effort cli with
  | Some v => ∃ e, parse_reasoning_effort v = Ok e ∧ effort = Some e ∧ e ∈ mc_reasoning_tiers choice
  | None => effort = None
  end.
Proof.
  unfold resolve_effort. destruct (cli_reasoning_effort cli) as [v|]; intros H.
  - past H. step H e He. apply lift_ok in He. step H u Hu. apply lift_ok in Hu. past H.
    injection H as _ <-. exists e. unfold config_file.located in *.
    destruct (parse_reasoning_effort v); [|done..]. injection He as ->. split; [done|]. split; [done|].
    unfold validate_reasoning_tiers in Hu. case_bool_decide; [done|]. by destruct (is_nil _).
  - past H. by injection H as _ <-.
Qed.

Lemma resolve_verbosity_ok cli file rows rows' v :
  resolve_verbosity cli file rows = Ok (rows', v) →
  if cli_quiet cli then v = Quiet else if cli_verbose cli then v = Verbose
  else match config_file.verbosity file with
       | Some s => parse_verbosity (config_file.value s) = Ok v
       | None => v = VerbosityDefault
       end.
Proof.
  unfold resolve_verbosity. destruct (cli_quiet cli); [by intros [= _ <-]|].
  destruct (cli_verbose cli); [by intros [= _ <-]|].
  destruct (config_file.verbosity file) as [s|]; [|by intros [= _ <-]].
  intros H. past H. apply lift_ok in H. cbn in H. unfold config_file.located in H.
  destruct (parse_verbosity _); [by injection H as ->|done..].
Qed.

(** A value of the file, or its default. *)
Lemma or_record_ok {B} key show_value (absent : B) (o : option (config_file.Sourced B))
    convert rows rows' b (P : B → Prop) :
  (∀ a b, convert a = Ok b → b = a ∧ P b) → P absent →
  or_record key show_value absent (record_pick key show_value convert (from_file o)) rows = Ok (rows', b) →
  b = default absent (config_file.value <$> o) ∧ P b.
Proof.
  intros Hc Ha H. unfold or_record in H. step H v Hv.
  apply (pick_ok _ _ _ _ _ _ _ P id) in Hv as [-> Hp]; [|done].
  destruct o as [s|]; cbn in *; injection H as _ <-; [split; [done|by apply Hp]|done].
Qed.
Lemma default_ok key show_value (o : option (config_file.Sourced Z)) convert rows rows' v d (P : Z → Prop) :
  (∀ a b, convert a = Ok b → b = a ∧ P b) → P d →
  record_pick key show_value convert (from_file o) rows = Ok (rows', v) →
  default d v = default d (config_file.value <$> o) ∧ P (default d v).
Proof.
  intros Hc Hd H. apply (pick_ok _ _ _ _ _ _ _ P id) in H as [-> Hp]; [|done].
  destruct o as [s|]; cbn in *; [split; [done|by apply Hp]|done].
Qed.

Lemma threshold_same key v t :
  threshold_f32 key v = Ok t →
  is_finite v = true ∧ SFltb f64_zero v = true ∧ SFleb v f64_one = true ∧ t = f32_of_f64 v.
Proof.
  unfold threshold_f32. destruct (_ || _) eqn:H; [done|]. intros [= <-].
  apply orb_false_iff in H as [H1%negb_false_iff [H2 H3]%negb_false_iff%andb_true_iff]. by split_and!.
Qed.

Lemma resolve_compaction_ok file choice rows rows' c :
  resolve_compaction file choice rows = Ok (rows', c) → compaction_follows file choice c.
Proof.
  intros H. unfold resolve_compaction in H. step H budget Hb. step H window Hw.
  step H threshold Ht. step H keep Hk. step H estimate He. injection H as _ <-.
  apply (pick_ok _ _ _ _ _ _ _ _ id (positive_u64_same _)) in Hb as [-> Hb].
  apply (or_record_ok _ _ _ _ _ _ _ _ _ (positive_u32_same _)) in Hk as [-> Hk]; [|by vm_compute].
  apply (or_record_ok _ _ _ _ _ _ _ _ _ (positive_u32_same _)) in He as [-> He]; [|by vm_compute].
  split; cbn; [..|done|done|done|done].
  - destruct (config_file.compaction_context_budget file) as [b|]; cbn in *; [by injection Hw as _ <-|].
    destruct (mc_context_window choice); [past Hw|past Hw]; by injection Hw as _ <-.
  - intros z Hz. apply Hb. by destruct (config_file.compaction_context_budget file).
  - destruct (config_file.compaction_auto_threshold file) as [v|]; cbn in *.
    + step Ht t Hv. past Ht. injection Ht as _ <-. apply lift_ok in Hv. by eapply threshold_same.
    + by injection Ht as _ <-.
Qed.

Lemma resolve_recovery_ok file rows rows' r :
  resolve_recovery file rows = Ok (rows', r) → recovery_follows file r.
Proof.
  intros H. unfold resolve_recovery in H. step H enabled He. step H retries Hr.
  step H base Hb. step H most Hm. injection H as _ <-.
  apply (or_record_ok _ _ _ _ _ _ _ _ (λ _, True)) in He as [-> _]; [|by intros ?? [= <-]|done].
  apply (or_record_ok _ _ _ _ _ _ _ _ _ (positive_u32_same _)) in Hr as [-> Hr]; [|by vm_compute].
  apply (default_ok _ _ _ _ _ _ _ 500%Z _ (positive_u64_same _)) in Hb as [Hb1 Hb2]; [|by vm_compute].
  apply (default_ok _ _ _ _ _ _ _ 8000%Z _ (positive_u64_same _)) in Hm as [Hm1 Hm2]; [|by vm_compute].
  by split.
Qed.

Lemma resolve_deadline_ok key o rows rows' d :
  resolve_deadline key o rows = Ok (rows', d) → d = deadline_of (config_file.value <$> o).
Proof.
  intros H. unfold resolve_deadline in H. step H seconds Hs. injection H as _ <-.
  apply (pick_ok _ _ _ _ _ _ _ _ id (positive_u64_same _)) in Hs as [-> Hp].
  destruct o as [v|]; [|done]. cbn in *. specialize (Hp _ eq_refl). unfold id in *. unfold duration_from_secs.
  destruct (decide (config_file.value v = 0%Z)) as [->|Hne]; [done|].
  rewrite bool_decide_eq_true_2, bool_decide_eq_false_2 by lia. f_equal. lia.
Qed.

Lemma resolve_ok env cli file s : resolve env cli file = Ok s → resolved env cli file s.
Proof.
  unfold resolve. destruct (model_choices file) as [[|first rest]| |] eqn:Hm; [done| |done..].
  cbn [mbind outcome_bind].
  destruct (resolve_with env cli file first (first :: rest) []) as [[rows s']| |] eqn:H; [|done..]. intros [= ->].
  unfold resolve_with in H. past H. step H aliases Ha. apply lift_ok in Ha. past H.
  step H adopted Had. apply adopt_ok in Had. step H dir Hdir. apply lift_ok in Hdir. do 2 past H.
  step H compaction Hco. apply resolve_compaction_ok in Hco. step H effort Hef. apply resolve_effort_ok in Hef. step H rounds Hro. past H.
  step H parallel Hpa. step H timeout Hti. step H shell Hsh. step H recovery Hre.
  apply resolve_recovery_ok in Hre. step H head_timeout Hht. apply resolve_deadline_ok in Hht.
  step H idle_timeout Hit. apply resolve_deadline_ok in Hit. step H verbosity Hve. step H show_it Hsr. do 2 past H.
  step H deployment Hde. apply lift_ok in Hde. injection H as _ <-.
  assert (deployment_from_choice adopted (dep_response_head_timeout deployment)
    (dep_stream_idle_timeout deployment) = Ok deployment ∧
    dep_response_head_timeout deployment = head_timeout ∧
    dep_stream_idle_timeout deployment = idle_timeout) as (Hde' & Hd1 & Hd2).
  { revert Hde. unfold deployment_from_choice. destruct (rebuild_headers _); cbn; [|done..]. by intros [= <-]. }
  split; cbn.
  - done.
  - done.
  - exists adopted. by split_and!.
  - done.
  - congruence.
  - congruence.
  - exists dir.2. by rewrite Hdir, <- surjective_pairing.
  - unfold pick_integer in Hro. destruct (cli_max_tool_rounds cli) as [n|].
    + apply record_pick_ok in Hro as (b & [-> Hb]%positive_u32_same & ->). split; [done|]. by intros ? [= <-].
    + apply (pick_ok _ _ _ _ _ _ _ _ id (positive_u32_same _)) in Hro as [-> Hp].
      by destruct (config_file.max_tool_rounds file).
  - by apply (pick_ok _ _ _ _ _ _ _ _ id (positive_u32_same _)) in Hpa.
  - apply (pick_ok _ _ _ _ _ _ _ _ id (positive_u64_same _)) in Hti as [-> _].
    destruct (config_file.operation_timeout_secs file); [|done]. cbn. unfold id, duration_from_secs.
    f_equal. lia.
  - by apply (pick_ok _ _ _ _ _ _ _ _ id (positive_u64_same _)) in Hsh as [-> _].
  - unfold or_record in Hsr. step Hsr v Hv.
    apply (pick_ok _ _ _ _ _ _ _ (λ _, True) id) in Hv as [-> _]; [|by intros ?? [= <-]].
    destruct (config_file.show_reasoning file); cbn in *; by injection Hsr as _ <-.
  - by apply resolve_verbosity_ok in Hve.
Qed.
(** *** Looking models up *)

Lemma aliases_ok file models aliases :
  resolve_aliases file models = Ok aliases →
  aliases.*1 = (config_file.in_order (config_file.aliases file)).*1 ∧
  Forall (λ a, ∃ c, c ∈ models ∧ mc_id c = a.2) aliases.
Proof.
  unfold resolve_aliases.
  apply (try_fold_ind _ (λ aliases (es : list (string * config_file.Sourced string)),
    aliases.*1 = es.*1 ∧ Forall (λ a, ∃ c, c ∈ models ∧ mc_id c = a.2) aliases)); [done|].
  intros acc done_ [name t] acc' [H1 H2]. unfold alias_step. cbn zeta.
  destruct (any _ models) eqn:Ha; cbn; [|done]. intros [= <-]. split.
  - by rewrite !fmap_app, H1.
  - apply Forall_app. split; [done|]. constructor; [|done]. cbn. apply existsb_exists in Ha as (c & Hc & Hi).
    exists c. split; [by apply list_elem_of_In|by apply bool_decide_eq_true in Hi].
Qed.

Lemma find_choice_id models choice :
  NoDup (mc_id <$> models) → choice ∈ models → find_choice (mc_id choice) models = Some choice.
Proof.
  unfold find_choice. induction models as [|c models IH]; [by intros _ ?%elem_of_nil|]. cbn.
  intros [Hn Hu]%NoDup_cons [<-|Hin]%elem_of_cons; [by rewrite bool_decide_eq_true_2|].
  rewrite bool_decide_eq_false_2; [by apply IH|]. intros Heq. apply Hn. rewrite Heq. by apply list_elem_of_fmap_2.
Qed.

Lemma find_choice_some i models choice :
  find_choice i models = Some choice → choice ∈ models ∧ mc_id choice = i.
Proof. intros [Hin Hi]%find_some. split; [by apply list_elem_of_In|by apply bool_decide_eq_true in Hi]. Qed.

Lemma find_alias_some name target aliases :
  NoDup aliases.*1 → (name, target) ∈ aliases → find_alias name aliases = Some target.
Proof.
  unfold find_alias. induction aliases as [|[n t] aliases IH]; [by intros _ ?%elem_of_nil|]. cbn.
  intros [Hn Hu]%NoDup_cons [[= <- <-]|Hin]%elem_of_cons; [by rewrite bool_decide_eq_true_2|].
  rewrite bool_decide_eq_false_2; [by apply IH|]. intros ->. apply Hn. apply list_elem_of_fmap. by exists (name, target).
Qed.

Lemma find_alias_none aliases choice :
  Forall (λ n, no_slash n = true) aliases.*1 → choice_ok choice → find_alias (mc_id choice) aliases = None.
Proof.
  intros Hs Hc. unfold find_alias. destruct (List.find _ aliases) as [a|] eqn:Ha; [|done].
  apply find_some in Ha as [Hin Hi%bool_decide_eq_true]. exfalso.
  assert (no_slash a.1 = true) as Hp.
  { rewrite Forall_forall in Hs. by apply Hs, (list_elem_of_fmap_2 fst), list_elem_of_In. }
  rewrite Hi, (ck_id _ Hc) in Hp. by rewrite no_slash_in in Hp.
Qed.

(** A catalog whose models can all be installed, under their identifiers and
    under their aliases. *)
Record catalog_ok (s : Settings) : Prop := {
  ct_choices : Forall choice_ok (st_models s);
  ct_sorted : StronglySorted id_le (st_models s);
  ct_unique : NoDup (mc_id <$> st_models s);
  ct_names : NoDup (st_aliases s).*1;
  ct_plain : Forall (λ n, no_slash n = true) (st_aliases s).*1;
  ct_targets : Forall (λ a, ∃ c, c ∈ st_models s ∧ mc_id c = a.2) (st_aliases s)
}.

Lemma catalog_resolved env cli file s : file_ok file → resolved env cli file s → catalog_ok s.
Proof.
  intros Hf Hr. destruct (model_choices_ok _ _ Hf (rs_models _ _ _ _ Hr)) as (H1 & H2 & _).
  destruct (aliases_ok _ _ _ (rs_aliases _ _ _ _ Hr)) as [H3 H4].
  split; [done|done|by eapply model_ids_unique, rs_models| | |done]; rewrite H3.
  - apply in_order_keys.
  - apply Forall_forall. intros n (e & -> & He%elem_of_in_order)%list_elem_of_fmap.
    apply plain_no_slash. exact (ok_aliases _ Hf _ _ He).
Qed.

(** The deployment of a model in these settings. *)
Definition deployed (s : Settings) (name : string) (choice : ModelChoice) (d : Deployment) : Prop :=
  deployment_for s name = Ok (d, mc_model choice) ∧
  deployment_from_choice choice (dep_response_head_timeout (st_deployment s))
    (dep_stream_idle_timeout (st_deployment s)) = Ok d.

Lemma choice_deployed s name choice :
  catalog_ok s → choice ∈ st_models s →
  default name (find_alias name (st_aliases s)) = mc_id choice →
  ∃ d, deployed s name choice d.
Proof.
  intros Hc Hin Hn. pose proof (ct_choices _ Hc) as Hok. rewrite Forall_forall in Hok.
  destruct (ck_headers _ (Hok _ Hin)) as [h Hh]. unfold deployed, deployment_for.
  rewrite Hn, (find_choice_id _ _ (ct_unique _ Hc) Hin). unfold deployment_from_choice. rewrite Hh. by eexists.
Qed.
Lemma id_deployed s choice : catalog_ok s → choice ∈ st_models s → ∃ d, deployed s (mc_id choice) choice d.
Proof.
  intros Hc Hin. apply choice_deployed; [done..|]. rewrite find_alias_none; [done|by apply ct_plain|].
  pose proof (ct_choices _ Hc) as Hok. rewrite Forall_forall in Hok. by apply Hok.
Qed.
Lemma alias_deployed s name target :
  catalog_ok s → (name, target) ∈ st_aliases s →
  ∃ choice d, choice ∈ st_models s ∧ mc_id choice = target ∧ deployed s name choice d.
Proof.
  intros Hc Ha. pose proof (ct_targets _ Hc) as Ht. rewrite Forall_forall in Ht.
  destruct (Ht _ Ha) as (choice & Hin & Hi). cbn in Hi.
  destruct (choice_deployed s name choice) as [d Hd]; [done..| |by exists choice, d].
  by rewrite (find_alias_some _ target); [|apply ct_names|].
Qed.
(** A deployment is the one its model declares. *)
Record deploys (choice : ModelChoice) (d : Deployment) : Prop := {
  dp_provider : dep_provider d = mc_provider_id choice;
  dp_model : dep_model d = mc_id choice;
  dp_protocol : dep_protocol d = mc_protocol choice;
  dp_endpoint : dep_endpoint d = mc_endpoint choice;
  dp_credential : dep_credential d = mc_credential choice;
  dp_compat : dep_compat d = mc_compat choice;
  dp_format : dep_chat_reasoning_format d = mc_chat_reasoning_format choice;
  dp_continuation : dep_continuation_policy d = mc_continuation_policy choice;
  dp_output : dep_max_output_tokens d = mc_max_output_tokens choice;
  dp_reasoning : dep_default_reasoning d = mc_default_reasoning choice;
  dp_image : dep_image_input d = mc_image_input choice;
  dp_cache : dep_cache_policy d = mc_cache_policy choice
}.
Lemma deploys_from_choice choice head_timeout idle_timeout d :
  deployment_from_choice choice head_timeout idle_timeout = Ok d → deploys choice d.
Proof. unfold deployment_from_choice. destruct (rebuild_headers _); cbn; [|done..]. by intros [= <-]. Qed.
End catalog.
(** ** What the configuration promises *)
Section theorems.
Import replay headers assemble config_resolve.
Context {sdk : Sdk} {sdk_request : SdkRequest} {http : HttpHeaders} {patch : ProviderPatch}.
Context {hint_fields : CacheHintFields} {show : ShowF32} {toml : config_file.Toml}.

Lemma project_layer_over read c path :
  quiet <$> config_file.load_layer read c (config_file.Project, path)
  = (λ d, quiet (overlay c d)) <$> config_file.load_layer read config_file.file_config_default (config_file.Project, path).
Proof.
  unfold config_file.load_layer. destruct path as [path|]; [|cbn; by rewrite overlay_default].
  destruct (read path) as [| |text]; [cbn; by rewrite overlay_default|done|].
  destruct (config_file.parse_table text) as [table|]; [|done]. rewrite apply_over.
  destruct (config_file.apply _ _ _ _) as [d| |]; [|done..].
  change (Ok (E := config_file.UsageError) (quiet (config_file.warn_project_layer_secrets path (overlay c d)))
    = Ok (quiet (overlay c (config_file.warn_project_layer_secrets path d)))).
  f_equal. rewrite quiet_project_warnings. symmetry. apply quiet_overlay, quiet_project_warnings.
Qed.

Lemma load_layers_two read global project :
  config_file.load_layers read global project
  = (let? c := config_file.load_layer read config_file.file_config_default (config_file.Global, global) in
     config_file.load_layer read c (config_file.Project, project)).
Proof.
  change (config_file.load_layers read global project) with
    (let? c := config_file.load_layer read config_file.file_config_default (config_file.Global, global) in
     let? d := config_file.load_layer read c (config_file.Project, project) in
     Ok (E := config_file.UsageError) d).
  destruct (config_file.load_layer read _ (config_file.Global, global)) as [c| |]; [|done..]. cbn [mbind outcome_bind].
  by destruct (config_file.load_layer read c (config_file.Project, project)).
Qed.

(** C30: the two configuration files are read independently: reading both gives, up
    to the warnings, the file of the project laid over the global one, key by key,
    a provider or an alias as a whole; and the first file that is wrong is the
    error. *)
Theorem layers_are_read_apart read global project :
  quiet <$> config_file.load_layers read global project
  = (let? g := config_file.load_layers read global None in
     let? p := config_file.load_layers read None project in Ok (quiet (overlay g p))).
Proof.
  rewrite !load_layers_two. destruct (config_file.load_layer read _ (config_file.Global, global)) as [g| |]; [|done..].
  change (quiet <$> config_file.load_layer read g (config_file.Project, project)
    = (let? p := config_file.load_layer read config_file.file_config_default (config_file.Project, project) in
       Ok (quiet (overlay g p)))).
  rewrite project_layer_over. by destruct (config_file.load_layer _ _ _).
Qed.

(** C27: what a run shows of its settings, and which models, limits and data
    directory it uses, does not depend on the literal keys of its providers: from
    files that differ only in them, the settings differ only in them. *)
Theorem literal_keys_are_never_shown env cli f g :
  forget_keys f = forget_keys g →
  hide_settings <$> resolve env cli f = hide_settings <$> resolve env cli g.
Proof. intros Hk. by rewrite <- !hide_resolve, Hk. Qed.

Context {caseless : CaselessHeaders} {sdk_assembly : SdkAssembly}.

Lemma loaded_ok env file : config_file.load env = Ok file → file_ok file.
Proof. unfold config_file.load. destruct (config_file.current_dir env); [done|]. apply load_layers_ok. Qed.

(** Continuation as OpenAI's own, asked of another host. *)
Definition official_elsewhere (d : Deployment) (host : option string) : Prop :=
  dep_continuation_policy d = PreferPreviousResponseIdWithLocalFallback ∧ dep_compat d = Official ∧
  host ≠ Some "api.openai.com".

Lemma deployed_fits {S} retry timeouts s name d wire (store : S) host :
  catalog_ok s → deployment_for s name = Ok (d, wire) →
  (official_elsewhere d host →
   check_policy (assembly.model_builder retry timeouts d wire store) host
     = Err "official OpenAI continuation support requires the api.openai.com endpoint host") ∧
  (¬ official_elsewhere d host →
   check_policy (assembly.model_builder retry timeouts d wire store) host = Ok tt).
Proof.
  intros Hc. unfold official_elsewhere, deployment_for. destruct (find_choice _ _) as [choice|] eqn:Hf; [|done].
  apply find_choice_some in Hf as [Hin _]. pose proof (ct_choices _ Hc) as Hok.
  rewrite Forall_forall in Hok. destruct (Hok _ Hin) as [_ Hco Hfo _ _ _ _ _].
  destruct (deployment_from_choice _ _ _) as [d'| |] eqn:Hd; cbn; [|done..]. intros [= <- <-].
  assert (dep_protocol d' = mc_protocol choice ∧ dep_continuation_policy d' = mc_continuation_policy choice ∧
    dep_chat_reasoning_format d' = mc_chat_reasoning_format choice) as (H1 & H2 & H3).
  { revert Hd. unfold deployment_from_choice. destruct (rebuild_headers _); cbn; [|done..]. by intros [= <-]. }
  unfold check_policy. cbn. rewrite H1, H2, H3.
  assert (session.is_some (mc_chat_reasoning_format choice) && (mc_protocol choice != OpenAiChat) = false) as ->.
  { destruct (mc_chat_reasoning_format choice); [|done]. rewrite Hfo by done. done. }
  destruct (decide (mc_continuation_policy choice = PreferPreviousResponseIdWithLocalFallback)) as [He|He].
  - rewrite Hco, He by done. cbn. destruct (decide (dep_compat d' = Official)) as [->|Ho].
    + destruct (decide (host = Some "api.openai.com")) as [->|Hh]; [naive_solver|].
      rewrite (bool_decide_eq_false_2 _ Hh). split; [done|]. intros Hn. exfalso. naive_solver.
    + rewrite (bool_decide_eq_false_2 _ Ho). naive_solver.
  - rewrite (bool_decide_eq_false_2 _ He). naive_solver.
Qed.

(** C26: the catalog of a loaded configuration is sound: models are sorted and
    unique by their identifiers, their reasoning tiers are distinct, ascending and
    encodable, limits are within their types; each model can be deployed under its
    identifier and under each alias that targets it. What is deployed passes the
    adapter's checks of protocol, reasoning format and continuation but for one
    case, which is an error then: continuation as OpenAI's own on another host than
    api.openai.com. Whether the SDK then builds the client is not stated. *)
Theorem catalog_is_installable {S} env cli file s retry timeouts (store : S) :
  config_file.load env = Ok file → resolve env cli file = Ok s →
  catalog_ok s ∧
  (∀ choice, choice ∈ st_models s → ∃ d, deployed s (mc_id choice) choice d) ∧
  (∀ name target, (name, target) ∈ st_aliases s →
     ∃ choice d, choice ∈ st_models s ∧ mc_id choice = target ∧ deployed s name choice d) ∧
  ∀ name d wire host, deployment_for s name = Ok (d, wire) →
    (official_elsewhere d host →
     check_policy (assembly.model_builder retry timeouts d wire store) host
       = Err "official OpenAI continuation support requires the api.openai.com endpoint host") ∧
    (¬ official_elsewhere d host →
     check_policy (assembly.model_builder retry timeouts d wire store) host = Ok tt).
Proof.
  intros Hl%loaded_ok Hr%resolve_ok. assert (catalog_ok s) as Hc by by eapply catalog_resolved.
  split_and!; [done| | |].
  - intros choice Hin. by apply id_deployed.
  - intros name target Ha. by apply alias_deployed.
  - intros name d wire host Hd. by eapply deployed_fits.
Qed.

Lemma chosen_in env cli models aliases choice : chosen env cli models aliases = Some choice → choice ∈ models.
Proof.
  unfold chosen. destruct (_ ≫= _) as [c|] eqn:Hf; cbn [first_some].
  - intros [= ->]. apply bind_Some in Hf as (name & _ & Hf). by apply find_choice_some in Hf as [? _].
  - destruct models; cbn; [done|]. intros [= ->]. apply elem_of_cons. by left.
Qed.




(** *** Reloads *)

Context {hints_eq : EqDecision PromptCacheHints} {S : Type}.
Implicit Types (self : assembly.AssemblerState (S := S)) (flags : config_watch.ResolveFlags).
Notation Reload := (outcome config_file.UsageError (Settings * list string)).
Notation Dispatch := (service.FrontendCommand → service.CommandDispatch service.FrontendRequestId).

(** The states of the assembler of a process started with these flags: reloads and
    assemblies in any order, whatever the client answers. *)
Inductive assembler_reached flags : Settings → assembly.AssemblerState (S := S) → Prop :=
| reached_start env s warnings store :
    load_and_resolve env (config_watch.to_cli flags) = Ok (s, warnings) →
    assembler_reached flags s (assembly.assembler_new flags s store)
| reached_reload s self dispatch env :
    assembler_reached flags s self →
    assembler_reached flags s
      (assembly.apply_config_reload dispatch (config_watch.reload_settings env flags) self).1
| reached_assemble s self (transport : RetryPolicy) timeouts env request :
    assembler_reached flags s self →
    assembler_reached flags s (assembly.assemble_sync transport timeouts env request self).1.

(** Settings that these flags may give. *)
Definition given flags (s : Settings) : Prop :=
  ∃ env file, file_ok file ∧ resolve env (config_watch.to_cli flags) file = Ok s.
Lemma given_loaded env flags s warnings :
  load_and_resolve env (config_watch.to_cli flags) = Ok (s, warnings) → given flags s.
Proof.
  unfold load_and_resolve. destruct (config_file.load env) as [file| |] eqn:Hl; cbn; [|done..].
  destruct (resolve env _ file) as [s'| |] eqn:Hr; cbn; [|done..]. intros [= <- _].
  exists env, file. split; [by eapply loaded_ok|done].
Qed.

(** The same flags ask for the same effort. *)
Lemma given_effort flags s s' : given flags s → given flags s' → st_reasoning_effort s = st_reasoning_effort s'.
Proof.
  intros (env & file & _ & (? & _ & _ & _ & _ & H)%resolve_ok%rs_deployment) (env' & file' & _ & (? & _ & _ & _ & _ & H')%resolve_ok%rs_deployment).
  destruct (cli_reasoning_effort _); [|congruence].
  destruct H as (e & He & -> & _), H' as (e' & He' & -> & _). congruence.
Qed.
Lemma given_never_only_reasoning flags s s' :
  given flags s → given flags s' → assembly.only_reasoning_changed s s' = false.
Proof. intros Hs Hs'. unfold assembly.only_reasoning_changed. by rewrite bool_decide_eq_true_2 by by eapply given_effort. Qed.

(** The settings make the same generation: the models that run are declared alike, up
    to the values of request headers, and the limits, the deadlines and what a run
    shows of its settings are the same, the rows of the interface apart. *)
Record same_generation (l r : Settings) : Prop := {
  sg_model : dep_model (st_deployment l) = dep_model (st_deployment r);
  sg_provider : dep_provider (st_deployment l) = dep_provider (st_deployment r);
  sg_endpoint : dep_endpoint (st_deployment l) = dep_endpoint (st_deployment r);
  sg_protocol : dep_protocol (st_deployment l) = dep_protocol (st_deployment r);
  sg_credential : dep_credential (st_deployment l) = dep_credential (st_deployment r);
  sg_compat : dep_compat (st_deployment l) = dep_compat (st_deployment r);
  sg_format : dep_chat_reasoning_format (st_deployment l) = dep_chat_reasoning_format (st_deployment r);
  sg_continuation : dep_continuation_policy (st_deployment l) = dep_continuation_policy (st_deployment r);
  sg_output : dep_max_output_tokens (st_deployment l) = dep_max_output_tokens (st_deployment r);
  sg_reasoning : dep_default_reasoning (st_deployment l) = dep_default_reasoning (st_deployment r);
  sg_image : dep_image_input (st_deployment l) = dep_image_input (st_deployment r);
  sg_cache : dep_cache_policy (st_deployment l) = dep_cache_policy (st_deployment r);
  sg_head : dep_response_head_timeout (st_deployment l) = dep_response_head_timeout (st_deployment r);
  sg_idle : dep_stream_idle_timeout (st_deployment l) = dep_stream_idle_timeout (st_deployment r);
  sg_headers : names (dep_request_headers (st_deployment l)) = names (dep_request_headers (st_deployment r));
  sg_budget : runtime.context_budget (st_compaction l) = runtime.context_budget (st_compaction r);
  sg_threshold : SFeqb (runtime.auto_threshold (st_compaction l)) (runtime.auto_threshold (st_compaction r)) = true;
  sg_keep : runtime.keep_recent_turns (st_compaction l) = runtime.keep_recent_turns (st_compaction r);
  sg_estimate : runtime.estimate_bytes_per_token (st_compaction l) = runtime.estimate_bytes_per_token (st_compaction r);
  sg_effort : st_reasoning_effort l = st_reasoning_effort r;
  sg_rounds : st_max_tool_rounds l = st_max_tool_rounds r;
  sg_parallel : st_max_parallel_tool_calls l = st_max_parallel_tool_calls r;
  sg_timeout : st_operation_timeout l = st_operation_timeout r;
  sg_shell : st_shell_timeout_secs l = st_shell_timeout_secs r;
  sg_recovery : st_recovery l = st_recovery r;
  sg_rows : filter (λ e, row_key e ≠ "verbosity" ∧ row_key e ≠ "show_reasoning") (st_entries l)
    = filter (λ e, row_key e ≠ "verbosity" ∧ row_key e ≠ "show_reasoning") (st_entries r)
}.

(** The model that runs is deployed as the settings say. *)
Lemma given_deployed flags s :
  given flags s → ∃ wire, deployment_for s (dep_model (st_deployment s)) = Ok (st_deployment s, wire).
Proof.
  intros (env & file & Hok & Hr%resolve_ok). pose proof (catalog_resolved _ _ _ _ Hok Hr) as Hc.
  destruct (rs_deployment _ _ _ _ Hr) as (choice & Hch%chosen_in & Hd & _).
  destruct (id_deployed _ _ Hc Hch) as (d & Hf & Hd'). rewrite (dp_model _ _ (deploys_from_choice _ _ _ _ Hd)).
  exists (mc_model choice). congruence.
Qed.

Lemma format_str_eq (a b : option ChatReasoningFormat) : option_map format_str a = option_map format_str b → a = b.
Proof. destruct a as [[]|], b as [[]|]; done. Qed.
Lemma non_ui_rows s :
  assembly.non_ui_entries s = filter (λ e, row_key e ≠ "verbosity" ∧ row_key e ≠ "show_reasoning") (st_entries s).
Proof.
  unfold assembly.non_ui_entries, assembly.ui_entry. induction (st_entries s) as [|e l IH]; [done|]. cbn [List.filter].
  rewrite filter_cons, IH. repeat case_decide; case_bool_decide; cbn; set_solver.
Qed.

Lemma changed_fields flags l r :
  given flags l → given flags r → assembly.generation_fields_changed l r = false ↔ same_generation l r.
Proof.
  intros (wl & Hl)%given_deployed (wr & Hr)%given_deployed. unfold assembly.generation_fields_changed. rewrite Hl, Hr.
  unfold assembly.deployment_fields_changed, assembly.cache_policy_eqb, assembly.compaction_eqb, assembly.recovery_eqb.
  rewrite !non_ui_rows, ?orb_false_iff, ?negb_false_iff, ?andb_true_iff, ?bool_decide_eq_true.
  unfold assembly.header_names_of. split.
  - intros H. destruct_and!. split; try done; [by apply format_str_eq|..].
    + destruct (dep_cache_policy (st_deployment l)), (dep_cache_policy (st_deployment r)); cbn in *; congruence.
    + destruct (st_recovery l), (st_recovery r); cbn in *; congruence.
  - intros []. repeat match goal with |- _ ∧ _ => split end; congruence.
Qed.

Lemma enqueue_settings (dispatch : Dispatch) command self :
  assembly.settings (assembly.enqueue_generation_command dispatch command self).1 = assembly.settings self ∧
  assembly.flags (assembly.enqueue_generation_command dispatch command self).1 = assembly.flags self ∧
  assembly.data_dir (assembly.enqueue_generation_command dispatch command self).1 = assembly.data_dir self ∧
  (∀ m, assembly.reload_fault self = Some m →
    assembly.reload_fault (assembly.enqueue_generation_command dispatch command self).1 = Some m) ∧
  (assembly.enqueue_generation_command dispatch command self).2 = Some command.
Proof.
  unfold assembly.enqueue_generation_command, assembly.note_reload_dispatch_failure. destruct self as [? ? ? ? fault].
  split_and!; cbn; [..|done]; destruct (dispatch command), fault; naive_solver.
Qed.

(** What one reload does. *)
Lemma reload_step flags (dispatch : Dispatch) (r : Reload) self :
  given flags (assembly.settings self) → (∀ s w, r = Ok (s, w) → given flags s) →
  let '(self', sent) := assembly.apply_config_reload dispatch r self in
  assembly.flags self' = assembly.flags self ∧ assembly.data_dir self' = assembly.data_dir self ∧
  match r with
  | Ok (s, _) =>
      if bool_decide (st_data_dir s = assembly.data_dir self) then
        assembly.settings self' = s ∧
        (sent = None ∨ sent = Some (service.InstallModel (dep_model (st_deployment s)) None)) ∧
        (sent = None ↔ same_generation (assembly.settings self) s)
      else
        assembly.settings self' = assembly.settings self ∧ is_Some (assembly.reload_fault self') ∧
        sent = Some (service.InstallModel (dep_model (st_deployment (assembly.settings self))) None)
  | Err e =>
      assembly.settings self' = assembly.settings self ∧
      assembly.reload_fault self' = Some ("config not reloaded: " +:+ e) ∧
      sent = Some (service.InstallModel (dep_model (st_deployment (assembly.settings self))) None)
  | Panic => self' = self
  end.
Proof.
  intros Hg Hr. unfold assembly.apply_config_reload. destruct r as [[s w]|e|]; [| |done].
  - destruct (decide (st_data_dir s = assembly.data_dir self)) as [He|He].
    + rewrite (bool_decide_eq_false_2 (st_data_dir s ≠ _)) by naive_solver. rewrite bool_decide_eq_true_2 by done.
      rewrite (given_never_only_reasoning flags) by naive_solver.
      pose proof (changed_fields flags (assembly.settings self) s ltac:(done) ltac:(naive_solver)) as Hch.
      destruct (assembly.generation_fields_changed _ _); cbn [negb]; [|split_and!; try done; naive_solver].
      match goal with |- context [assembly.enqueue_generation_command ?d ?c ?x] =>
        pose proof (enqueue_settings d c x) as (H1 & H2 & H3 & _ & H5);
        destruct (assembly.enqueue_generation_command d c x) as [self' sent] end.
      cbn in *. subst. split_and!; try done; naive_solver.
    + rewrite (bool_decide_eq_true_2 (st_data_dir s ≠ _)) by done. rewrite bool_decide_eq_false_2 by done.
      match goal with |- context [assembly.enqueue_generation_command ?d ?c ?x] =>
        pose proof (enqueue_settings d c x) as (H1 & H2 & H3 & H4 & H5);
        destruct (assembly.enqueue_generation_command d c x) as [self' sent] end.
      cbn in *. subst. split_and!; try done. by eexists; apply H4.
  - match goal with |- context [assembly.enqueue_generation_command ?d ?c ?x] =>
      pose proof (enqueue_settings d c x) as (H1 & H2 & H3 & H4 & H5);
      destruct (assembly.enqueue_generation_command d c x) as [self' sent] end.
    cbn in *. subst. split_and!; try done. by apply H4.
Qed.

Lemma assembler_holds flags s self :
  assembler_reached flags s self →
  assembly.flags self = flags ∧ assembly.data_dir self = st_data_dir s ∧
  given flags (assembly.settings self) ∧ st_data_dir (assembly.settings self) = st_data_dir s.
Proof.
  induction 1 as [env s w store Hl|s self dispatch env _ (H1 & H2 & H3 & H4)|s self tr ti env req _ IH].
  - split_and!; try done. by eapply given_loaded.
  - assert (∀ s' w, config_watch.reload_settings env flags = Ok (s', w) → given flags s') as Hr
      by (intros s' w; apply given_loaded).
    pose proof (reload_step flags dispatch _ self H3 Hr) as Hs. revert Hs Hr.
    destruct (assembly.apply_config_reload _ _ _) as [self' sent]. intros (E1 & E2 & Hs) Hr. cbn.
    rewrite E1, E2. split_and!; [done|done|..].
    all: destruct (config_watch.reload_settings env flags) as [[s' w]|e|]; [case_bool_decide; [|]| |].
    all: try (destruct Hs as [-> Hs]); try (by subst self'); try done.
    + by eapply Hr.
    + congruence.
  - unfold assembly.assemble_sync. by destruct (assembly.reload_fault self).
Qed.

Lemma assembled_choice (transport : RetryPolicy) timeouts env request self choice g :
  catalog_ok (assembly.settings self) → choice ∈ st_models (assembly.settings self) →
  service.assemble_name request = mc_id choice →
  (assembly.assemble_sync transport timeouts env request self).2 = Ok g →
  assembly.as_model_id g = mc_id choice ∧ assembly.as_provider g = Some (mc_provider_id choice) ∧
  assembly.as_model_name g = mc_display_name choice ∧ assembly.as_image_input g = mc_image_input choice.
Proof.
  intros Hc Hin Hn. unfold assembly.assemble_sync. destruct (assembly.reload_fault self); [done|].
  cbn zeta. case_bool_decide; [done|]. rewrite Hn.
  destruct (id_deployed _ _ Hc Hin) as (d & Hd & Hf). rewrite Hd. cbn.
  assert (dep_model d = mc_id choice ∧ dep_provider d = mc_provider_id choice ∧ dep_image_input d = mc_image_input choice)
    as (H1 & H2 & H3).
  { revert Hf. unfold deployment_from_choice. destruct (rebuild_headers _); cbn; [|done..]. by intros [= <-]. }
  rewrite H1, (find_choice_id _ _ (ct_unique _ Hc) Hin), H2, H3.
  destruct (assembly.runtime_config_for _ _ _ _ _) as [c| |]; cbn; [|done..].
  destruct (assembly.build_model _ _ _ _ _) as [m| |]; cbn; [|done..].
  destruct (assembly.blocking_tool_executor _ _ _) as [t| |]; cbn; [|done..]. by intros [= <-].
Qed.

(** C28: whatever is reloaded and assembled, the assembler keeps settings that its
    own flags give, with a sound catalog and the directory of the sessions it
    started with. A reload is taken as a whole; it installs its model unless it makes
    the same generation - the same declaration of the model that runs, limits,
    deadlines and shown rows - where request headers count by their names only and
    the rows of the interface do not count. One that fails or moves the sessions
    changes nothing, and its fault is what the next assembly reports, once. Without a
    fault, a model of the catalog is assembled as itself. *)
Theorem reloads_keep_what_runs flags s self :
  assembler_reached flags s self →
  assembly.data_dir self = st_data_dir s ∧ st_data_dir (assembly.settings self) = st_data_dir s ∧
  catalog_ok (assembly.settings self) ∧
  (∀ env dispatch,
    let '(self', sent) := assembly.apply_config_reload dispatch (config_watch.reload_settings env flags) self in
    match config_watch.reload_settings env flags with
    | Ok (r, _) =>
        if bool_decide (st_data_dir r = st_data_dir s) then
          assembly.settings self' = r ∧
          (sent = None ∨ sent = Some (service.InstallModel (dep_model (st_deployment r)) None)) ∧
          (sent = None ↔ same_generation (assembly.settings self) r)
        else
          assembly.settings self' = assembly.settings self ∧ is_Some (assembly.reload_fault self') ∧
          sent = Some (service.InstallModel (dep_model (st_deployment (assembly.settings self))) None)
    | Err e =>
        assembly.settings self' = assembly.settings self ∧
        assembly.reload_fault self' = Some ("config not reloaded: " +:+ e) ∧
        sent = Some (service.InstallModel (dep_model (st_deployment (assembly.settings self))) None)
    | Panic => self' = self
    end) ∧
  ∀ (transport : RetryPolicy) timeouts env request,
    let '(self', result) := assembly.assemble_sync transport timeouts env request self in
    assembly.settings self' = assembly.settings self ∧ assembly.reload_fault self' = None ∧
    match assembly.reload_fault self with
    | Some m => result = Err m
    | None => ∀ choice g, choice ∈ st_models (assembly.settings self) →
        service.assemble_name request = mc_id choice → result = Ok g →
        assembly.as_model_id g = mc_id choice ∧ assembly.as_provider g = Some (mc_provider_id choice) ∧
        assembly.as_model_name g = mc_display_name choice
    end.
Proof.
  intros (H1 & H2 & H3 & H4)%assembler_holds.
  assert (catalog_ok (assembly.settings self)) as Hc.
  { destruct H3 as (env & file & Hok & Hr). by eapply catalog_resolved, resolve_ok. }
  split_and!; [done..| |].
  - intros env dispatch.
    pose proof (reload_step flags dispatch (config_watch.reload_settings env flags) self H3) as Hs.
    destruct (assembly.apply_config_reload _ _ _) as [self' sent]. rewrite H2 in Hs. apply Hs.
    intros r w. apply given_loaded.
  - intros transport timeouts env request.
    pose proof (assembled_choice transport timeouts env request self) as Ha.
    destruct (assembly.assemble_sync transport timeouts env request self) as [self' result] eqn:He.
    revert He. unfold assembly.assemble_sync in *. destruct (assembly.reload_fault self) eqn:Hf.
    + by intros [= <- <-].
    + intros [= <- <-]. split_and!; [done..|]. intros choice g Hin Hn Hr.
      destruct (Ha choice g Hc Hin Hn Hr) as (? & ? & ? & _). done.
Qed.

End theorems.

End cli_proofs.

(** ** The watch over the files *)
Module watch_proofs.
Import config_watch.
Section watch.
Context {Reload : Type}.

(** Where the watch waits, and what it handed on, behind some waits. *)
Fixpoint watched (s : WatchState) (events : list (WatchEvent Reload)) : WatchState * list Reload :=
  match events with
  | [] => (s, [])
  | e :: events =>
      let '(s, r) := watch_step s e in
      let '(s, rs) := watched s events in (s, match r with Some r => r :: rs | None => rs end)
  end.

(** Stamps that last for two waits are those the watch has reloaded for: either it
    was polling with them, or the second wait hands the reload on. *)
Lemma stable_stamps_reloaded s now r1 r2 :
  s ≠ Stopped →
  watched s [WaitEnded now now r1; WaitEnded now now r2]
  = (Polling now,
     match s with
     | Polling last => if bool_decide (now = last) then [] else [r2]
     | Settling _ stamps => if bool_decide (now = stamps) then [r1] else [r2]
     | Stopped => []
     end).
Proof.
  destruct s as [last|last stamps|]; [..|done]; intros _; cbn.
  - case_bool_decide; subst; cbn; by rewrite !bool_decide_eq_true_2.
  - case_bool_decide; subst; cbn; by rewrite !bool_decide_eq_true_2.
Qed.
End watch.
End watch_proofs.

(** ** The builder of generations *)
Module pool_proofs.
Import build_pool.
Section pool.
Context {T : Type}.
Implicit Types (s : State T) (job : nat).

(** Where a job whose caller waits for a reply is. *)
Definition somewhere s job : Prop :=
  callers s !! job = Some Checked ∨ pending s = Some job ∨
  worker s = Builds job ∨ worker s = Panicked job.

(** The clauses of the invariant that speak of one job only. *)
Definition job_ok s job : Prop :=
  (replies s !! job = Some None ↔ somewhere s job) ∧
  (callers s !! job = Some Checked → pending s ≠ Some job ∧ worker s ≠ Builds job ∧ worker s ≠ Panicked job) ∧
  (pending s = Some job → worker s ≠ Builds job ∧ worker s ≠ Panicked job) ∧
  (callers s !! job ≠ None → replies s !! job ≠ None).

Ltac job_cases := unfold job_ok, somewhere in *; cbn; rewrite ?lookup_insert, ?lookup_delete; repeat case_decide; subst;
  repeat match goal with H : _ ∧ _ |- _ => destruct H end.
Ltac settle := solve [split_and!; first [done | split; intros; destruct_or?; destruct_and?; simplify_eq; naive_solver | intros; destruct_or?; destruct_and?; simplify_eq; naive_solver]].

Lemma job_ok_send_wake s j : job_ok s j → job_ok (send_wake s) j.
Proof. unfold send_wake. by destruct (closing s). Qed.

Lemma job_ok_step s s' j : (∀ i, job_ok s i) → step s s' → job_ok s' j.
Proof.
  intros Hi. destruct 1 as [job Hj|job Hj|job Hj|Hc|Hc|Hc|job Hw Hp|Hw Hp|job r Hw Hr|job Hw|job Hw|Hw|n Hw Hn|Hw Hn Hc].
  - pose proof (Hi j) as H. clear Hi. unfold submit_check. destruct (_ || _); job_cases; settle.
  - pose proof (Hi j) as H. pose proof (Hi job) as H'. unfold submit_place, swap_pending.
    destruct (pending s) as [old|] eqn:Ho; [pose proof (Hi old) as H''|]; clear Hi; job_cases; settle.
  - apply job_ok_send_wake. pose proof (Hi j) as H. clear Hi. job_cases; [|done].
    rewrite Hj in *. split_and!; [naive_solver|done|done|done].
  - apply Hi.
  - pose proof (Hi j) as H. unfold swap_pending.
    destruct (pending s) as [old|] eqn:Ho; [pose proof (Hi old) as H''|]; clear Hi; job_cases; settle.
  - apply (job_ok_send_wake s j), Hi.
  - pose proof (Hi j) as H. clear Hi. destruct s; cbn in *; subst. job_cases; settle.
  - pose proof (Hi j) as H. clear Hi. destruct s; cbn in *; subst. job_cases; settle.
  - pose proof (Hi j) as H. clear Hi. destruct s; cbn in *; subst. job_cases; settle.
  - pose proof (Hi j) as H. clear Hi. destruct s; cbn in *; subst. job_cases; settle.
  - pose proof (Hi j) as H. clear Hi. destruct s; cbn in *; subst. job_cases; settle.
  - pose proof (Hi j) as H. clear Hi. destruct s; cbn in *; subst. destruct (is_closed _); job_cases; settle.
  - pose proof (Hi j) as H. clear Hi. destruct s; cbn in *; subst. job_cases; settle.
  - pose proof (Hi j) as H. clear Hi. destruct s; cbn in *; subst. job_cases; settle.
Qed.

Lemma job_ok_new j : job_ok pool_new j.
Proof. unfold job_ok, somewhere. cbn. rewrite !lookup_empty. naive_solver. Qed.

(** A job in the mailbox is not overlooked: behind an empty mailbox the thread is
    woken, or will be by a call under way. *)
Definition wake_ok s : Prop :=
  closing s = Open → pending s ≠ None → worker s = Empty ∨ worker s = Waits →
  0 < wakes s ∨ ∃ j, callers s !! j = Some Placed.
Definition runs_ok s : Prop :=
  closing s = Open → unavailable s = false → worker s ≠ Gone ∧ ∀ job, worker s ≠ Panicked job.

Lemma wake_ok_step s s' : (∀ i, job_ok s i) → wake_ok s → step s s' → wake_ok s'.
Proof.
  unfold wake_ok. intros Hi Hk.
  destruct 1 as [job Hj|job Hj|job Hj|Hc|Hc|Hc|job Hw Hp|Hw Hp|job r Hw Hr|job Hw|job Hw|Hw|n Hw Hn|Hw Hn Hc].
  - assert (callers s !! job = None) as Hn.
    { destruct (Hi job) as (_ & _ & _ & H). destruct (callers s !! job); [|done]. by destruct H. }
    unfold submit_check. destruct (_ || _); cbn; [done|]. intros Ho Hp Hw.
    destruct (Hk Ho Hp Hw) as [?|[i Hx]]; [by left|right]. exists i. rewrite lookup_insert_ne; [done|congruence].
  - intros _ _ _. right. exists job. apply lookup_insert_eq.
  - unfold submit_wake, send_wake. cbn. destruct (closing s) eqn:Hc; cbn; try (intros; left; lia). congruence.
  - done.
  - done.
  - by unfold send_wake; rewrite Hc.
  - cbn. naive_solver.
  - cbn. by rewrite Hp.
  - cbn. naive_solver.
  - cbn. naive_solver.
  - cbn. naive_solver.
  - cbn. intros Ho Hp _. apply Hk; [done|done|by left].
  - cbn. naive_solver.
  - cbn. naive_solver.
Qed.

Lemma runs_ok_step s s' : runs_ok s → step s s' → runs_ok s'.
Proof.
  unfold runs_ok. intros Hr.
  destruct 1 as [job Hj|job Hj|job Hj|Hc|Hc|Hc|job Hw Hp|Hw Hp|job r Hw Hr'|job Hw|job Hw|Hw|n Hw Hn|Hw Hn Hc]; cbn; try done.
  - unfold submit_check. by destruct (_ || _).
  - unfold submit_place, swap_pending. by destruct (pending s).
  - unfold submit_wake, send_wake. cbn. destruct (closing s) eqn:Hc; cbn; rewrite ?Hc in *; naive_solver.
  - intros Ho Hu. destruct (Hr Ho Hu) as [_ Hx]. by destruct (Hx job).
  - unfold is_closed. by destruct (closing s).
  - congruence.
Qed.

Lemma reached_ok s : rtc step pool_new s → (∀ j, job_ok s j) ∧ wake_ok s ∧ runs_ok s.
Proof.
  apply (rtc_ind_r (λ s, (∀ j, job_ok s j) ∧ wake_ok s ∧ runs_ok s)).
  - split_and!; [apply job_ok_new|by intros ??|by intros ??].
  - intros s1 s2 _ Hs (H1 & H2 & H3).
    split_and!; [intros j; by eapply job_ok_step|by eapply wake_ok_step|by eapply runs_ok_step].
Qed.

(** A reply is the last word on its job. *)
Lemma replies_final s s' job r :
  (∀ j, job_ok s j) → step s s' → replies s !! job = Some (Some r) → replies s' !! job = Some (Some r).
Proof.
  intros Hi Hs Hr. assert (¬ somewhere s job) as Hn by (rewrite <- (proj1 (Hi job)); congruence).
  assert (∀ j r', somewhere s j → <[j := r']> (replies s) !! job = Some (Some r)) as Ha.
  { intros j r' Hj. rewrite lookup_insert_ne; [done|by intros ->]. }
  assert (replies (send_wake s) = replies s) as Hw by by unfold send_wake; destruct (closing s).
  destruct Hs as [j Hj|j Hj|j Hj|Hc|Hc|Hc|j Hx Hp|Hx Hp|j r' Hx Hr'|j Hx|j Hx|Hx|n Hx Hn'|Hx Hn' Hc]; cbn; try done.
  - unfold submit_check. destruct (_ || _); cbn; rewrite lookup_insert_ne; congruence.
  - unfold submit_place, swap_pending. destruct (pending s) eqn:Hp; cbn; [|done].
    apply Ha. unfold somewhere. rewrite Hp. naive_solver.
  - unfold submit_wake, send_wake. by destruct (closing _).
  - unfold swap_pending. destruct (pending s) eqn:Hp; cbn; [|done].
    apply Ha. unfold somewhere. rewrite Hp. naive_solver.
  - by rewrite Hw.
  - apply Ha. unfold somewhere. naive_solver.
  - apply Ha. unfold somewhere. naive_solver.
Qed.

(** *** Progress *)

(** A step that is no new call, no panic and no shutdown. *)
Definition moves s s' : Prop :=
  step s s' ∧ closing s' = closing s ∧ unavailable s' = unavailable s ∧ dom (replies s') = dom (replies s).

Definition caller_work (c : Caller) : nat := match c with Checked => 7 | Placed => 4 end.
Definition callers_work (m : gmap nat Caller) : nat := sum_list (caller_work ∘ snd <$> map_to_list m).
Definition worker_work (w : Worker) : nat :=
  match w with Idle => 2 | Builds _ | Panicked _ => 3 | Empty => 1 | Waits | Gone => 0 end.
(** What is left to do for the calls that began. *)
Definition work s : nat :=
  callers_work (callers s) + match pending s with Some _ => 2 | None => 0 end + 3 * wakes s + worker_work (worker s).

Lemma callers_work_insert m i c :
  m !! i = None → callers_work (<[i := c]> m) = caller_work c + callers_work m.
Proof. intros Hn. unfold callers_work. by rewrite (map_to_list_insert _ _ _ Hn). Qed.
Lemma callers_work_delete m i c :
  m !! i = Some c → callers_work m = caller_work c + callers_work (delete i m).
Proof.
  intros Hi. rewrite <- (insert_delete_id m i c) at 1 by done.
  apply callers_work_insert, lookup_delete_eq.
Qed.

Lemma moves_work s s' : closing s = Open → unavailable s = false → moves s s' → work s' < work s.
Proof.
  intros Ho Ha (Hs & Hc & Hu & Hd).
  destruct Hs as [j Hj|j Hj|j Hj|Hx|Hx|Hx|j Hx Hp|Hx Hp|j r' Hx Hr'|j Hx|j Hx|Hx|n Hx Hn|Hx Hn Hy].
  - exfalso. assert (j ∉ dom (replies s)) as Hn by by apply not_elem_of_dom. apply Hn. rewrite <- Hd.
    unfold submit_check. destruct (_ || _); cbn; rewrite dom_insert; set_solver.
  - unfold work, submit_place, swap_pending.
    assert (callers_work (<[j := Placed]> (callers s)) + 3 = callers_work (callers s)) as Hw.
    { rewrite (callers_work_delete _ _ _ Hj), <- insert_delete_eq, callers_work_insert by apply lookup_delete_eq. cbn. lia. }
    destruct (pending s); cbn; lia.
  - pose proof (callers_work_delete _ _ _ Hj) as Hw. cbn in Hw.
    unfold work, submit_wake, send_wake. cbn. destruct (closing s); cbn; lia.
  - cbn in Hc. congruence.
  - unfold swap_pending in Hc. destruct (pending s); cbn in Hc; congruence.
  - unfold send_wake in Hc. rewrite Hx in Hc. by cbn in Hc.
  - unfold work. cbn. rewrite Hx, Hp. cbn. lia.
  - unfold work. cbn. rewrite Hx. cbn. lia.
  - unfold work. cbn. rewrite Hx. cbn. lia.
  - cbn in Hu. congruence.
  - unfold work. cbn. rewrite Hx. cbn. lia.
  - unfold work, is_closed. cbn. rewrite Hx, Ho. cbn. lia.
  - unfold work. cbn. rewrite Hx, Hn. cbn. lia.
  - congruence.
Qed.

Lemma some_move s job :
  (∀ j, job_ok s j) → wake_ok s → runs_ok s → closing s = Open → unavailable s = false →
  replies s !! job = Some None → ∃ s', moves s s'.
Proof.
  intros Hi Hw Hr Ho Hu Hj. apply (proj1 (Hi job)) in Hj.
  assert (∀ j r, somewhere s j → dom (<[j := r]> (replies s)) = dom (replies s)) as Hd.
  { intros j r Hs%(proj1 (Hi j)). apply dom_insert_lookup_L. by rewrite Hs. }
  assert (∀ j, callers s !! j = Some Placed → ∃ s', moves s s') as Hp.
  { intros j Hc. exists (submit_wake j s). split; [by constructor|].
    unfold submit_wake, send_wake. cbn. by rewrite Ho. }
  assert (∀ j, callers s !! j = Some Checked → ∃ s', moves s s') as Hk.
  { intros j Hc. exists (submit_place j s). split; [by constructor|].
    unfold submit_place, swap_pending. destruct (pending s) as [old|] eqn:He; cbn; [|done].
    split_and!; [done..|]. apply Hd. unfold somewhere. naive_solver. }
  destruct (Hr Ho Hu) as [Hg Hpa].
  destruct (worker s) eqn:He.
  - destruct (pending s) as [j|] eqn:Hpe.
    + eexists. split; [by eapply step_take|done].
    + unfold somewhere in Hj. rewrite He, Hpe in Hj. naive_solver.
  - eexists. split; [by apply (step_built s job0 (Err ""))|]. cbn. split_and!; [done..|]. apply Hd. unfold somewhere. naive_solver.
  - by destruct (Hpa job0).
  - eexists. split; [by apply step_empty|done].
  - destruct (wakes s) as [|n] eqn:Hn.
    + destruct Hj as [Hj|[Hj|[Hj|Hj]]]; [by eapply Hk| |congruence..].
      destruct Hw as [?|[j Hc]]; [done|congruence|by right|lia|by eapply Hp].
    + eexists. split; [by eapply step_woken|done].
  - done.
Qed.

(** C29: the builder of generations answers every build: a reply is the last word on
    its job, and until a build panics or a shutdown begins some step is possible
    whenever a caller waits, each of them leaving less to do, so that every call
    that began is answered whatever the order of the accesses. *)
Theorem builds_are_answered s :
  rtc step pool_new s →
  (∀ s' job r, step s s' → replies s !! job = Some (Some r) → replies s' !! job = Some (Some r)) ∧
  (closing s = Open → unavailable s = false →
     (∀ s', moves s s' → work s' < work s) ∧
     ∀ job, replies s !! job = Some None → ∃ s', moves s s').
Proof.
  intros (Hi & Hw & Hr)%reached_ok. split.
  - intros s' job r. by apply replies_final.
  - intros Ho Hu. split; [intros s'; by apply moves_work|]. intros job. by apply some_move.
Qed.
End pool.
End pool_proofs.

(** ** A one-shot run *)
Module run_proofs.
Import ctrl_c oneshot.
Implicit Types (d : Drive) (seen : list Received) (outs : list Output).

(** The operations an update speaks of as accepted, queued or running. *)
Definition announces (kind : service.FrontendUpdateKind) : option string :=
  match kind with
  | service.OperationAccepted id _ _ => Some id
  | service.AvailabilityChanged (service.FrontBusy id) _ => Some id
  | service.OperationEvent (service.FeOperationStarted id) => Some id
  | service.OperationEvent (service.FeOperationQueued id) => Some id
  | service.SnapshotReady snapshot =>
      match service.fsn_availability snapshot with service.FrontBusy id => Some id | _ => None end
  | _ => None
  end.
Definition announced seen (id : string) : Prop := ∃ kind, Update kind ∈ seen ∧ announces kind = Some id.
Definition settled_with seen (status durability : string) : Prop :=
  ∃ id session revision,
    Update (service.OperationEvent (service.FeOperationSettled id session status durability revision)) ∈ seen.

Definition phase_id (p : CtrlCPhase) : option string :=
  match p with Idle => None | Busy id | Cancelling id => id end.
Definition cancelling (p : CtrlCPhase) : Prop := match p with Cancelling _ => True | _ => False end.
Definition is_notice (o : Output) : bool := match o with CancelNotice => true | _ => false end.
Definition notices outs : nat := length (List.filter is_notice outs).

(** What is known of a run that has received [seen] and done [outs]. *)
Record drive_ok seen outs d : Prop := {
  dr_phase id : phase_id (phase d) = Some id → announced seen id;
  dr_operation id : operation_id d = Some id → announced seen id;
  dr_settled status durability : settled d = Some (status, durability) → settled_with seen status durability;
  dr_cancelling : cancelling (phase d) → cancel_notice d = true;
  dr_notice : notices outs = (if cancel_notice d then 1 else 0);
  dr_commands id : Command (service.CancelOperation id) ∈ outs → announced seen id
}.

Lemma notices_app a b : notices (a ++ b) = notices a + notices b.
Proof. unfold notices. by rewrite List.filter_app, length_app. Qed.

Lemma announced_more seen more id : announced seen id → announced (seen ++ more) id.
Proof. intros (k & Hk & Hi). exists k. split; [|done]. apply elem_of_app. by left. Qed.

Lemma drive_ok_more seen more outs d : drive_ok seen outs d → drive_ok (seen ++ more) outs d.
Proof.
  intros [H1 H2 H3 H4 H5 H6]. split; eauto using announced_more.
  intros st du (i & se & re & H)%H3. exists i, se, re. apply elem_of_app. by left.
Qed.

(** Outputs that neither cancel nor announce it. *)
Definition plain (o : Output) : Prop :=
  match o with Command (service.CancelOperation _) | CancelNotice => False | _ => True end.
Lemma plain_notices outs : Forall plain outs → notices outs = 0.
Proof. unfold notices. induction 1 as [|o outs Ho _ IH]; [done|]. by destruct o. Qed.
Lemma drive_ok_plain seen outs more d : drive_ok seen outs d → Forall plain more → drive_ok seen (outs ++ more) d.
Proof.
  intros [H1 H2 H3 H4 H5 H6] Hp. split; auto.
  - rewrite notices_app, (plain_notices more) by done. lia.
  - intros id [Hin|Hin]%elem_of_app; [by apply H6|]. rewrite Forall_forall in Hp. by apply Hp in Hin.
Qed.
Lemma drive_ok_cancel seen outs id d :
  drive_ok seen outs d → announced seen id → drive_ok seen (outs ++ [Command (service.CancelOperation id)]) d.
Proof.
  intros [H1 H2 H3 H4 H5 H6] Ha. split; auto.
  - rewrite notices_app. cbn. lia.
  - intros i [Hin|Hin%list_elem_of_singleton]%elem_of_app; [by apply H6|]. by injection Hin as ->.
Qed.

Lemma busy_phase id p : phase_id (observe_busy id p) = Some id.
Proof. destruct p as [| |[i|]]; try done. cbn. by case_bool_decide. Qed.
Lemma busy_cancelling id p : cancelling (observe_busy id p) → cancelling p.
Proof. by destruct p. Qed.
Lemma drive_ok_busy seen outs id d : drive_ok seen outs d → announced seen id → drive_ok seen outs (busy id d).
Proof.
  intros [H1 H2 H3 H4 H5 H6] Ha. split; auto; cbn.
  - intros i. rewrite busy_phase. by intros [= <-].
  - by intros i [= <-].
  - intros ?%busy_cancelling. auto.
Qed.
Lemma drive_ok_idle seen outs d : drive_ok seen outs d → drive_ok seen outs (set_phase Idle d).
Proof. intros [H1 H2 H3 H4 H5 H6]. by split. Qed.

Lemma on_update_ok submitting kind seen outs d :
  Update kind ∈ seen → drive_ok seen outs d →
  drive_ok seen (outs ++ (on_update submitting kind d).2) (on_update submitting kind d).1.
Proof.
  intros Hin Hd. assert (∀ id, announces kind = Some id → announced seen id) as Ha by by intros; exists kind.
  assert (∀ o, plain o → drive_ok seen (outs ++ [o]) d) as Hp by (intros; apply drive_ok_plain; auto).
  destruct kind; try by apply Hp.
  - cbn. by split; try apply Hd; apply Hp.
  - cbn [on_update fst snd]. specialize (Ha _ eq_refl). assert (Hb := drive_ok_busy _ _ _ _ Hd Ha).
    destruct (pending_cancel_id _) as [i|] eqn:Hi; [|by rewrite app_nil_r].
    destruct (match phase d with Cancelling None => true | _ => false end); [|by rewrite app_nil_r].
    apply drive_ok_cancel; [done|]. apply (dr_phase _ _ _ Hb).
    revert Hi. by destruct (phase (busy _ d)).
  - destruct event; try by apply Hp.
    + cbn. apply drive_ok_plain; [|by constructor]. by apply drive_ok_busy, Ha.
    + cbn. apply drive_ok_plain; [|by constructor]. by apply drive_ok_busy, Ha.
    + cbn. apply drive_ok_plain; [|by constructor].
      destruct Hd as [H1 H2 H3 H4 H5 H6]. split; try done. intros st du [= <- <-]. by eexists _, _, _.
  - destruct availability; cbn; rewrite ?app_nil_r; [| |by apply Hp].
    + destruct Hd as [H1 H2 H3 H4 H5 H6]. by split.
    + by apply drive_ok_busy, Ha.
  - cbn. destruct submitting; [by apply Hp|]. cbn in Ha. rewrite app_nil_r.
    destruct (service.fsn_availability snapshot) as [| |].
    + destruct (service.live_is_empty _); [|done]. destruct Hd as [H1 H2 H3 H4 H5 H6]. by split.
    + by apply drive_ok_busy, Ha.
    + done.
Qed.

(** What a report behind the pulses says. *)
Definition pulse_report (submitting : bool) outs (report : option DriveReport) : Prop :=
  match report with
  | None => True
  | Some r => r = graceful (if submitting then 130 else 1)%Z ∨ r = forced FORCED_EXIT_CODE ∧ CancelNotice ∈ outs
  end.

Lemma notice_in outs : 0 < notices outs → CancelNotice ∈ outs.
Proof.
  unfold notices. induction outs as [|o outs IH]; cbn; [lia|].
  intros Hn. destruct o; cbn in Hn; first [right; apply IH; lia | left].
Qed.

Lemma show_notice_ok seen outs p d :
  drive_ok seen outs d → (∀ id, phase_id p = Some id → announced seen id) →
  drive_ok seen (outs ++ (show_cancel_notice (set_phase p d)).2) (show_cancel_notice (set_phase p d)).1.
Proof.
  intros [H1 H2 H3 H4 H5 H6] Hp. unfold show_cancel_notice. cbn.
  destruct (cancel_notice d) eqn:Hc; cbn; rewrite ?app_nil_r; split; cbn; try done.
  - by rewrite Hc.
  - by rewrite notices_app, H5.
  - intros id [Hin|Hin%list_elem_of_singleton]%elem_of_app; [by apply H6|done].
Qed.

Lemma on_pulses_ok submitting count seen outs d :
  drive_ok seen outs d →
  let '(d', more, report) := on_pulses submitting count d in
  drive_ok seen (outs ++ more) d' ∧ pulse_report submitting (outs ++ more) report.
Proof.
  revert outs d. induction count as [|count IH]; intros outs d Hd; cbn [on_pulses]; [by rewrite app_nil_r|].
  destruct (phase d) as [|[id|]|cid] eqn:Hp; cbn [on_ctrl_c].
  - rewrite app_nil_r. split; [|by left]. by apply drive_ok_idle.
  - assert (announced seen id) as Ha by (apply (dr_phase _ _ _ Hd); by rewrite Hp).
    assert (∀ i, phase_id (Cancelling (Some id)) = Some i → announced seen i) as Hq by (by intros ? [= <-]).
    assert (Hn := show_notice_ok seen outs _ d Hd Hq).
    destruct (show_cancel_notice _) as [d1 n]. cbn in Hn.
    specialize (IH (outs ++ (n ++ [Command (service.CancelOperation id)])) d1).
    destruct (on_pulses _ _ _) as [[d2 more] report]. rewrite app_assoc. apply IH.
    rewrite app_assoc. by apply drive_ok_cancel.
  - assert (∀ i, phase_id (Cancelling None) = Some i → announced seen i) as Hq by done.
    assert (Hn := show_notice_ok seen outs _ d Hd Hq).
    assert (operation_id (show_cancel_notice (set_phase (Cancelling None) d)).1 = operation_id d) as Hi
      by by unfold show_cancel_notice; cbn; destruct (cancel_notice d).
    destruct (show_cancel_notice _) as [d1 n]. cbn in Hn, Hi.
    specialize (IH (outs ++ (n ++ match operation_id d1 with Some id => [Command (service.CancelOperation id)] | None => [] end)) d1).
    destruct (on_pulses _ _ _) as [[d2 more] report]. rewrite app_assoc. apply IH.
    rewrite app_assoc. destruct (operation_id d1) eqn:Ho; [|by rewrite app_nil_r].
    apply drive_ok_cancel; [done|]. by apply (dr_operation _ _ _ Hd).
  - assert (cancel_notice d = true) as Hc by (apply (dr_cancelling _ _ _ Hd); by rewrite Hp).
    split.
    + replace (set_phase (Cancelling cid) d) with d by (destruct d; cbn in *; by subst).
      apply drive_ok_plain; [done|]. by constructor.
    + right. split; [done|]. apply elem_of_app. left. apply notice_in. rewrite (dr_notice _ _ _ Hd), Hc. lia.
Qed.

(** What the report of a run says. *)
Definition truthful (submitting : bool) seen outs (report : DriveReport) : Prop :=
  (report_code report = 0%Z → report_forced report = false ∧ ∃ durability, settled_with seen "Succeeded" durability) ∧
  (report_forced report = true → report_code report = FORCED_EXIT_CODE ∧ CancelNotice ∈ outs) ∧
  (report_code report = 0 ∨ report_code report = 1 ∨ report_code report = 130)%Z.

Lemma final_ok submitting seen outs d :
  drive_ok seen outs d → truthful submitting seen outs (final_report 0 d).
Proof.
  intros Hd. unfold truthful, final_report.
  destruct (rejected d || fallback_idle d); [by (split_and!; naive_solver)|].
  destruct (settled d) as [[st du]|] eqn:Hs; [|by (split_and!; naive_solver)].
  case_bool_decide; [by (split_and!; naive_solver)|].
  case_bool_decide; [|by (split_and!; naive_solver)]. subst.
  split_and!; cbn; [|done|by left]. intros _. split; [done|]. exists du. by apply (dr_settled _ _ _ Hd).
Qed.

Lemma drive_loop_ok submitting received seen outs d :
  drive_ok seen outs d →
  let '(d', more, report) := drive_loop submitting 0 received d in
  drive_ok (seen ++ received) (outs ++ more) d' ∧
  match report with Some r => truthful submitting (seen ++ received) (outs ++ more) r | None => True end.
Proof.
  revert seen outs d. induction received as [|r received IH]; intros seen outs d Hd; cbn [drive_loop];
    destruct (loop_over d) eqn:Hl.
  1,3: rewrite (app_nil_r outs); split; [|apply final_ok]; by apply drive_ok_more.
  - by rewrite !app_nil_r.
  - assert (drive_ok (seen ++ [r]) outs d) as Hd' by by apply drive_ok_more.
    assert (let '(d', more, report) := on_received submitting r d in
      drive_ok (seen ++ [r]) (outs ++ more) d' ∧
      match report with Some r => r = graceful 1 ∨ pulse_report submitting (outs ++ more) (Some r) | None => True end) as Hr.
    { destruct r as [kind| | |count]; cbn [on_received].
      - assert (Update kind ∈ seen ++ [Update kind]) as Hk by set_solver.
        assert (Hu := on_update_ok submitting kind _ outs d Hk Hd').
        by destruct (on_update submitting kind d).
      - rewrite app_nil_r. split; [done|by left].
      - by rewrite app_nil_r.
      - assert (Hu := on_pulses_ok submitting count _ outs d Hd').
        destruct (on_pulses submitting count d) as [[d' more] report]. destruct Hu as [? Hu]. split; [done|].
        destruct report; [by right|done]. }
    destruct (on_received submitting r d) as [[d1 o] [report|]].
    + destruct Hr as [H1 H2]. split.
      * replace (seen ++ r :: received) with ((seen ++ [r]) ++ received) by by rewrite <- app_assoc.
        by apply drive_ok_more.
      * destruct H2 as [->|[->|[-> H2]]]; [by (split_and!; naive_solver)| |].
        -- destruct submitting; by (split_and!; naive_solver).
        -- split_and!; [done|done|by right; right].
    + destruct Hr as [H1 _]. specialize (IH _ _ _ H1).
      destruct (drive_loop submitting 0 received d1) as [[d2 more] report].
      by rewrite <- !app_assoc in IH.
Qed.

(** C31: the exit code of a one-shot run is truthful: 0 only if an operation was
    reported as settled with success; a forced exit is 130 and only follows a
    notice that an operation is being cancelled; the notice is shown once at most;
    and only operations that the service announced are cancelled. *)
Theorem exit_code_is_truthful submitting received :
  let '(d, outputs, report) := drive_loop submitting 0 received (drive_new submitting) in
  (∀ r, report = Some r → truthful submitting received outputs r) ∧
  notices outputs ≤ 1 ∧
  ∀ id, Command (service.CancelOperation id) ∈ outputs → announced received id.
Proof.
  assert (drive_ok [] [] (drive_new submitting)) as H0.
  { split; cbn; try done; destruct submitting; try done. all: by intros ? ?%elem_of_nil. }
  assert (Hl := drive_loop_ok submitting received [] [] _ H0).
  destruct (drive_loop submitting 0 received _) as [[d outputs] report]. destruct Hl as [Hd Hr]. cbn in *.
  split_and!.
  - by intros r ->.
  - rewrite (dr_notice _ _ _ Hd). destruct (cancel_notice d); lia.
  - apply (dr_commands _ _ _ Hd).
Qed.
End run_proofs.
