(* ===== verification/CliDemo.v ===== *)
(** The theorems of the command line at concrete configurations.

    Module [cli_demo]: a parsed file stands for TOML, header names are strings in
    lower case; two layers, a run of the pool and updates of a run, with the
    witnesses. What the pool and the loop of a run do not promise is shown by
    example at the end. *)

From S2P Require Import Prelude RustStr Session Runtime ReplayStore Replay ModelErrors ModelRequest.
From S2P Require Import ModelAdapter ToolPath ToolFiles CodingProfile Service CliFile CliConfig CliRun CliProofs.
From Stdlib Require Import Ascii SpecFloat Sorted.
Import replay model_request headers assemble config_resolve cli_proofs.

Module cli_demo.

(** ** The libraries *)

#[local] Instance cli_sdk : Sdk := {|
  ReplayToken := string; ReplaySnapshot := string; ContinuationHandle := string;
  snapshot_replay := Some; restore_replay := λ _ s, inr s; continuation_handle := λ _ r, Some r |}.
#[local] Instance cli_sdk_request : SdkRequest := {|
  SdkToolCallId := string; tool_call_id_new := Some; ToolName := string; tool_name_new := Some;
  ToolCall := string; tool_call_from_raw := λ i n a, Some a;
  JsonValue := string; json_from_str := Some; JsonSchema := string; json_schema_new := Some;
  ImageMediaType := string; image_media_type_new := inr;
  ImageInput := string; image_from_bytes := λ m b, inr m;
  CacheSessionId := string; cache_session_new := Some;
  PromptCacheHints := list string; prompt_cache_hints_default := [] |}.
#[local] Instance cli_hints : CacheHintFields := {|
  hint_instructions h := "instructions" :: h; hint_tools h := "tools" :: h; hint_history h := "history" :: h |}.
#[local] Instance cli_show : ShowF32 := λ _, "0.8".

#[local] Instance cli_http : HttpHeaders := {|
  HeaderName := string; header_name_eq := _;
  header_name_new s := if str_is_empty s then None else Some (std_tools.to_ascii_lowercase s);
  header_name_str := id; HeaderValue := string; header_value_new := Some; USER_AGENT := "user-agent";
  OtherOperation := Empty_set; other_operation_name := λ e, match e with end;
  ProviderHeaders := list (string * string); provider_headers_empty := []; PKG_VERSION := "1" |}.
#[local] Instance cli_patch : ProviderPatch := {|
  operations h := (λ p : string * string, OpSet (http := cli_http) p.1 p.2) <$> h;
  try_from_patch ops := Some ((λ op, match op with OpSet n v => (n, v) | OpOther _ => ("", "") end) <$> ops) |}.
Lemma lowercase_twice s : std_tools.to_ascii_lowercase (std_tools.to_ascii_lowercase s) = std_tools.to_ascii_lowercase s.
Proof.
  induction s as [|b s IH]; [reflexivity|]. cbn [std_tools.to_ascii_lowercase]. rewrite IH. f_equal.
  clear. by destruct b as [[] [] [] [] [] [] [] []].
Qed.
#[local] Instance cli_caseless : CaselessHeaders.
Proof. intros n. unfold header_name_new, cli_http. rewrite lowercase_twice. by destruct n. Qed.

#[local] Instance cli_assembly : SdkAssembly := {|
  ProviderId := string; provider_id_new := inr; ModelName := string; model_name_new := inr;
  Url := string; url_parse := inr; host_str := Some; ProtocolId := string;
  OPENAI_COMPLETIONS_V3 := "chat"; OPENAI_RESPONSES_V2 := "responses"; protocol_id_new := Some;
  call_target_new p r m := {| target_provider := p; target_protocol := r; target_model := m |};
  Envelope := unit; Knowledge := unit; knowledge_complete := tt; FormatSpec := unit;
  spec_openai_official := tt; spec_fallback := tt; FormatSpecRef := unit; ref_openai_official := tt;
  ResponsesCompat := unit; compat_default := tt; compat_compatible := tt; with_continuation _ c := c;
  with_prompt_cache_key c := c; with_openai_affinity c := c; ProtocolAdapter := unit;
  chat_adapter _ := tt; responses_adapter c := c; adapter_envelope _ := tt;
  ModelComposition := list Capability; baseline := []; disabled l c := inr (l ++ c);
  with_knowledge _ c := c; composition_envelope _ := tt; composition_knowledge _ := tt;
  ProviderBinding := string; binding_new p u := inr (p +:+ u); with_format _ b := b;
  with_headers _ b := b; CapabilitySource := string; capability_source_new := Some;
  ModelProfile := string; profile_new p m _ _ _ := p +:+ m; with_composition _ m := m;
  EnvVarName := string; env_var_new := inr; CredentialSpec := string; credential_environment n := n;
  credential_static s := s; ProviderProfile := list string; provider_profile_new p := [p];
  with_default_headers _ p := p; add_binding b p := inr (b :: p); add_model m p := inr (m :: p);
  with_credentials c p := c :: p; Transport := unit; reqwest_transport := inr tt; RetryPolicy := unit;
  TimeoutPolicy := unit; Client := list string; ClientBuilder := list string; client_builder _ := [];
  register_protocol _ b := b; register_provider p b := p ++ b; set_retry_policy _ b := b;
  set_timeout_policy _ b := b; build_client := inr |}.

(** Values of TOML; two texts are files. *)
Inductive TomlValue : Type :=
| TString (s : string) | TInteger (z : Z) | TBoolean (b : bool)
| TArray (l : list TomlValue) | TTable (l : list (string * TomlValue)).
Definition strings (l : list string) : TomlValue := TArray (TString <$> l).
Definition provider_table (key team : string) : TomlValue :=
  TTable [("endpoint", TString "api.openai.com"); ("protocol", TString "openai-responses"); ("compat", TString "official");
          ("continuation", TString "prefer-previous-response-id"); ("api_key", TString key);
          ("headers", TTable [("X-Team", TString team)]);
          ("models", TTable [("small", TTable []);
             ("large", TTable [("context_window", TInteger 1000);
                               ("reasoning", strings ["high"; "low"; "medium"])])])].
Definition global_table (key team : string) : list (string * TomlValue) :=
  [("providers", TTable [("acme", provider_table key team)]); ("aliases", TTable [("fast", TString "acme/small")]);
   ("defaults", TTable [("max_tool_rounds", TInteger 7)])].
Definition project_table : list (string * TomlValue) :=
  [("defaults", TTable [("max_tool_rounds", TInteger 9); ("operation_timeout_secs", TInteger 60)]);
   ("ui", TTable [("verbosity", TString "quiet")])].
#[local] Instance cli_toml : config_file.Toml := {|
  config_file.Value := TomlValue;
  config_file.as_table v := match v with TTable l => Some l | _ => None end;
  config_file.as_str v := match v with TString s => Some s | _ => None end;
  config_file.as_integer v := match v with TInteger z => Some z | _ => None end;
  config_file.as_float _ := None;
  config_file.as_bool v := match v with TBoolean b => Some b | _ => None end;
  config_file.as_array v := match v with TArray l => Some l | _ => None end;
  config_file.type_str _ := "value";
  config_file.parse_table text :=
    if bool_decide (text = "global") then Some (global_table "sk-1" "core")
    else if bool_decide (text = "rotated") then Some (global_table "sk-2" "core")
    else if bool_decide (text = "moved") then Some (global_table "sk-1" "ops")
    else if bool_decide (text = "project") then Some project_table else None |}.

(** ** Configurations *)

Definition environment (global : string) : config_file.Environment := {|
  config_file.env_var := λ name, if bool_decide (name = "PHILO_DATA_DIR") then Some "/data" else None;
  config_file.home_dir := Some "/home"; config_file.current_dir := inr "/work";
  config_file.file_at := λ path,
    if bool_decide (path = "/home/.philo/config.toml") then config_file.Text global
    else if bool_decide (path = "/work/.philo/config.toml") then config_file.Text "project"
    else config_file.Absent |}.
Definition loaded (global : string) : config_file.FileConfig :=
  match config_file.load (environment global) with Ok file => file | _ => config_file.file_config_default end.
Definition large : Cli :=
  {| cli_command := None; cli_message := Some "hello"; cli_session := None; cli_model := Some "acme/large";
     cli_data_dir := None; cli_system := None; cli_max_tool_rounds := None;
     cli_reasoning_effort := Some "medium"; cli_image := []; cli_verbose := false; cli_quiet := false |}.

Lemma loads global : global = "global" ∨ global = "rotated" →
  config_file.load (environment global) = Ok (loaded global).
Proof. intros [-> | ->]; vm_compute; reflexivity. Qed.

(** ** Witnesses *)

(** Two layers that are both there. *)
Example both_layers :
  config_file.value <$> config_file.max_tool_rounds (loaded "global") = Some 9%Z ∧
  length (config_file.warnings (loaded "global")) = 0.
Proof. by vm_compute. Qed.

Lemma literal_keys_are_never_shown_witness :
  hide_settings <$> resolve (environment "global") large (loaded "global")
    = hide_settings <$> resolve (environment "global") large (loaded "rotated") ∧
  is_ok (resolve (environment "global") large (loaded "global")) = true ∧
  config_file.providers (loaded "global") ≠ config_file.providers (loaded "rotated").
Proof.
  split; [|split].
  - apply (literal_keys_are_never_shown (environment "global") large (loaded "global") (loaded "rotated")).
    vm_compute. reflexivity.
  - vm_compute. reflexivity.
  - intros H. apply (f_equal (λ m, config_file.api_key ∘ config_file.value <$> m !! "acme")) in H.
    vm_compute in H. discriminate H.
Defined.

Definition large_settings : outcome config_file.UsageError Settings :=
  resolve (environment "global") large (loaded "global").

(** Every model, under its identifier and under its alias, passes the checks for the
    host of its endpoint, and the official continuation elsewhere does not. *)
Lemma catalog_is_installable_witness :
  ∃ s, large_settings = Ok s ∧ catalog_ok s ∧
  (∀ name, name ∈ ["acme/large"; "acme/small"; "fast"] → ∃ d wire, deployment_for s name = Ok (d, wire) ∧
    let builder := assembly.model_builder (S := unit) tt (λ _ _ _, tt) d wire tt in
    check_policy builder (Some (dep_endpoint d)) = Ok tt ∧ ∃ e, check_policy builder (Some "acme") = Err e) ∧
  ∃ choice d, choice ∈ st_models s ∧ mc_id choice = "acme/small" ∧ deployed s "fast" choice d.
Proof.
  pose (read := λ s, (λ name,
    match deployment_for s name with
    | Ok (d, _) => Some (dep_continuation_policy d, dep_compat d, dep_endpoint d)
    | _ => None end) <$> ["acme/large"; "acme/small"; "fast"]).
  pose (official := Some (PreferPreviousResponseIdWithLocalFallback, Official, "api.openai.com")).
  assert ((λ s, (st_aliases s, read s)) <$> large_settings
    = Ok ([("fast", "acme/small")], [official; official; official])) as Hf by (vm_compute; reflexivity).
  destruct large_settings as [s| |] eqn:Hs; [|discriminate Hf..]. injection Hf as H1 H2 H3 H4.
  destruct (catalog_is_installable (sdk_assembly := cli_assembly) (environment "global") large (loaded "global") s tt (λ _ _ _, tt) tt
    (loads "global" (or_introl eq_refl)) Hs) as (Hok & _ & Hal & Hfit).
  exists s. split; [reflexivity|]. split; [exact Hok|]. split.
  - intros name Hn.
    assert (match deployment_for s name with
      | Ok (d, _) => Some (dep_continuation_policy d, dep_compat d, dep_endpoint d) | _ => None end = official) as Hd.
    { clear Hfit Hs Hok Hal. apply elem_of_cons in Hn as [->|Hn]; [exact H2|].
      apply elem_of_cons in Hn as [->|Hn]; [exact H3|]. apply list_elem_of_singleton in Hn as ->. exact H4. }
    destruct (deployment_for s name) as [[d wire]| |] eqn:Hdep; [|discriminate Hd..]. injection Hd as D1 D2 D3.
    exists d, wire. split; [reflexivity|]. cbv zeta. split.
    + apply (Hfit name d wire (Some (dep_endpoint d)) Hdep). intros (_ & _ & Hh). apply Hh. rewrite D3. reflexivity.
    + destruct (Hfit name d wire (Some "acme") Hdep) as [He _]. eexists. apply He.
      split; [exact D1|]. split; [exact D2|discriminate].
  - apply (Hal "fast" "acme/small"). rewrite H1. left.
Defined.


(** A process with flags that ask for the effort [medium], after a reload. *)
Definition flags : config_watch.ResolveFlags := config_watch.from_cli large.
Definition accepted : service.FrontendCommand → service.CommandDispatch service.FrontendRequestId :=
  λ _, service.Enqueued 1%Z.

(** What the state of the process, and the settings read again, have in common and not. *)
Definition rotated : outcome config_file.UsageError (Settings * list string) :=
  config_watch.reload_settings (environment "rotated") flags.
Definition told (s : Settings) : string * string * Credential :=
  (st_data_dir s, dep_model (st_deployment s), dep_credential (st_deployment s)).

Lemma reloads_keep_what_runs_witness :
  ∃ s r, fst <$> load_and_resolve (environment "global") (config_watch.to_cli flags) = Ok s ∧
  fst <$> rotated = Ok r ∧
  let '(self, sent) := assembly.apply_config_reload accepted rotated (assembly.assembler_new flags s tt) in
  assembly.settings self = r ∧ sent = Some (service.InstallModel "acme/large" None) ∧
  assembly.data_dir self = st_data_dir s ∧ catalog_ok (assembly.settings self).
Proof.
  assert (told ∘ fst <$> load_and_resolve (environment "global") (config_watch.to_cli flags)
    = Ok ("/data", "acme/large", Literal "sk-1")) as Hok by (vm_compute; reflexivity).
  assert (told ∘ fst <$> rotated = Ok ("/data", "acme/large", Literal "sk-2")) as Hro by (vm_compute; reflexivity).
  destruct (load_and_resolve (environment "global") (config_watch.to_cli flags)) as [[s w]| |] eqn:Hs; [|discriminate Hok..].
  destruct rotated as [[r w']| |] eqn:Hr; [|discriminate Hro..].
  injection Hok as D1 M1 C1. injection Hro as D2 M2 C2.
  exists s, r. split; [reflexivity|]. split; [reflexivity|].
  pose proof (reached_start flags (environment "global") s w tt Hs) as Hreach.
  destruct (reloads_keep_what_runs flags s _ Hreach) as (_ & _ & _ & H & _).
  pose proof (reached_reload flags s _ accepted (environment "rotated") Hreach) as Hnext.
  destruct (reloads_keep_what_runs flags s _ Hnext) as (E1 & _ & E3 & _). clear Hnext.
  specialize (H (environment "rotated") accepted). fold rotated in H, E1, E3. rewrite Hr in H, E1, E3.
  destruct (assembly.apply_config_reload accepted (Ok (r, w')) (assembly.assembler_new flags s tt)) as [self sent].
  rewrite bool_decide_eq_true_2 in H by congruence. destruct H as (H1 & [H2|H2] & H3).
  - destruct H3 as [H3 _]. pose proof (sg_credential _ _ (H3 H2)) as Hc. cbn in Hc. congruence.
  - split; [exact H1|]. split; [rewrite H2, M2; reflexivity|]. split; [exact E1|exact E3].
Defined.

(** ** The pool *)

Import build_pool pool_proofs.
(** A build under way, another one in the mailbox and its wake-up sent. *)
Definition two_jobs : State unit :=
  submit_wake 1 (submit_place 1 (submit_check 1
    (set_worker (Builds 0) (set_pending None
      (submit_wake 0 (submit_place 0 (submit_check 0 pool_new))))))).

Ltac ran := vm_compute; reflexivity.
Lemma two_jobs_reached : rtc step pool_new two_jobs.
Proof.
  eapply rtc_l; [eapply (step_check _ 0); ran|]. eapply rtc_l; [eapply (step_place _ 0); ran|].
  eapply rtc_l; [eapply (step_wake _ 0); ran|]. eapply rtc_l; [eapply (step_take _ 0); ran|].
  eapply rtc_l; [eapply (step_check _ 1); ran|]. eapply rtc_l; [eapply (step_place _ 1); ran|].
  eapply rtc_l; [eapply (step_wake _ 1); ran|]. unfold two_jobs. apply rtc_refl.
Qed.

Lemma builds_are_answered_witness :
  replies two_jobs !! 1 = Some None ∧
  (∀ s', moves two_jobs s' → work s' < work two_jobs) ∧ ∃ s', moves two_jobs s'.
Proof.
  split; [vm_compute; reflexivity|].
  destruct (builds_are_answered two_jobs two_jobs_reached) as [_ H].
  destruct (H eq_refl eq_refl) as [H1 H2]. split; [exact H1|]. apply (H2 1). vm_compute. reflexivity.
Defined.

(** The build panics: the job in the mailbox keeps its caller waiting until a
    shutdown begins, whatever else happens. *)
Definition stranded : State unit :=
  set_worker Gone (answer 0 (Err "generation build worker panicked")
    (set_worker (Panicked 0) (set_unavailable two_jobs))).
Lemma panicked_build_strands_a_job :
  rtc step pool_new stranded ∧ replies stranded !! 1 = Some None ∧
  ∀ s, step stranded s → replies s !! 1 = Some None.
Proof.
  split; [|split; [by vm_compute|]].
  - eapply rtc_r; [eapply rtc_r; [exact two_jobs_reached|]|]; [apply (step_panic _ 0); ran|apply (step_panic_reply _ 0); ran].
  - intros s. inversion 1 as [job Hj|job Hj|job Hj|Hc|Hc|Hc|job Hw|Hw|job r Hw|job Hw|job Hw|Hw|n Hw|Hw]; subst;
      try (vm_compute in Hw; discriminate Hw); try (vm_compute in Hc; discriminate Hc).
    + unfold submit_check. cbn. rewrite lookup_insert_ne; [by vm_compute|]. intros ->. vm_compute in Hj. discriminate.
    + assert (callers stranded = ∅) as He by by vm_compute. rewrite He, lookup_empty in Hj. discriminate.
    + assert (callers stranded = ∅) as He by by vm_compute. rewrite He, lookup_empty in Hj. discriminate.
    + by vm_compute.
Qed.

(** ** A run *)

Import ctrl_c oneshot run_proofs.

(** An update on the running operation that comes before its acceptance takes the
    cancel that was asked for with it: nothing is sent. *)
Example early_update_swallows_the_cancel :
  let '(d, outputs, report) :=
    drive_loop true 0
      [Pulses 1; Update (service.AvailabilityChanged (service.FrontBusy "op") 0);
       Update (service.OperationAccepted "op" "s" "t")] (drive_new true) in
  outputs = [CancelNotice] ∧ report = None ∧ phase d = Cancelling (Some "op").
Proof. by vm_compute. Qed.

(** A run that is cancelled in time. *)
Example cancelled_run :
  let '(_, outputs, report) :=
    drive_loop true 0
      [Update (service.OperationAccepted "op" "s" "t"); Pulses 1;
       Update (service.OperationEvent
         (service.FeOperationSettled "op" "s" "Cancelled" "Confirmed" runtime.Unchanged))]
      (drive_new true) in
  Command (service.CancelOperation "op") ∈ outputs ∧ report = Some (graceful 130).
Proof. vm_compute. split; [right; left|done]. Qed.

(** ** Reloads *)

(** An edited header is not noticed. *)
Example edited_header_is_not_noticed :
  match resolve (environment "global") large (loaded "global"), resolve (environment "moved") large (loaded "moved") with
  | Ok s, Ok s' => s ≠ s' ∧ assembly.generation_fields_changed s s' = false
  | _, _ => False
  end.
Proof.
  assert (match resolve (environment "global") large (loaded "global"), resolve (environment "moved") large (loaded "moved") with
    | Ok s, Ok s' => ((mc_request_headers <$> st_models s) != (mc_request_headers <$> st_models s'))
        && negb (assembly.generation_fields_changed s s')
    | _, _ => false end = true) as H by (vm_compute; reflexivity).
  destruct (resolve (environment "global") large _) as [s| |]; [|discriminate H..].
  destruct (resolve (environment "moved") large _) as [s'| |]; [|discriminate H..].
  apply andb_true_iff in H as [H1%negb_true_iff%bool_decide_eq_false H2%negb_true_iff].
  split; [|exact H2]. intros ->. by apply H1.
Qed.
End cli_demo.
